(* ===== verification/_CoqProject ===== *)
-Q . S2P
Prelude.v
Sys.v
LibErrors.v
GetNum.v
InotifyCache.v
InotifyEvents.v
StreamIO.v
Sockets.v
SeqNum.v
SvSem.v
ShmXfr.v
ProdCons.v
SvmsgFile.v
Setenv.v
FileLock.v
Itimerspec.v
ProcExec.v
AclUpdate.v
FilePerms.v
Seccomp.v
RawUdp.v
NsCapable.v
Userns.v
Daemon.v
Tty.v
Multijoin.v
Pty.v
OneTimeInit.v
SemInit.v
FileIO.v
Scm.v
ThreadIncr.v
Relay.v
Pipes.v
SigSync.v
LockShell.v
ScmCred.v
PosixIpc.v
PosixTools.v
Lockstep.v
SysvIpc.v
SysvTools.v
CondVar.v
Strerror.v
Barrier.v
RandDtree.v
WaitStatus.v
Sendfile.v
Epoll.v
Launchers.v
FileRaces.v
Copying.v
