(* ===== verification/Prelude.v ===== *)
(** * The Linux Programming Interface: a verification library

    The repository holds the programs of the book: one directory per topic, each
    with small library modules and with programs that use them.  All programs
    report errors and read numeric arguments through lib/; servers, clients and
    tools are built from the modules of their own directory.  The library models
    the modules and programs that carry logic of their own, and proves what they
    promise.

    ** How C is modelled

    A function that computes is a Rocq function.  A function that makes system
    calls, prints or ends the process is a [prog] (Sys.v): a tree of calls whose
    branches are the replies of the kernel.  [run] executes it against a kernel;
    [wp] quantifies over all kernels whose replies are legal, so that failures,
    short transfers, interruptions and full disks are all covered.  [posix] is
    the documented behaviour that theorems rely on; [posix_inhabited] shows that
    some kernel has it after every history.  Effects are read off the history of
    calls: open descriptors, bytes read and written, signal mask, and so on.
    errno is the argument of [Err]; where a function returns -1 and its callers
    do not look at errno, the result is -1.  exit, _exit, abort and execve end a
    program ([Halt]), and so does undefined behaviour ([Undefined]): a theorem
    that excludes that outcome shows that the code does not run into it.

    fork() and clone() reply differently to parent and child, so a history is
    that of one of them, and a theorem about a program that forks speaks of both.

    Concurrent programs (ShmXfr.v, ProdCons.v, Multijoin.v, OneTimeInit.v,
    SemInit.v, Userns.v, ThreadIncr.v, Pipes.v, SigSync.v, Lockstep.v, CondVar.v,
    Strerror.v, Barrier.v, FileRaces.v) are step relations: each statement between two
    synchronization points, or each call of a program tree, is a step of one process
    or thread, and the steps interleave arbitrarily.  Their properties are invariants by
    induction on the run, absence of deadlock, and measures that bound the runs.

    Integers are Z with the wrap-around of their width written out ([int_of],
    [wrapu]); C strings are lists of characters without the null byte; an array
    of pointers is a list of options.  Code that is not in the repository is a
    parameter: the table of error names and strerror ([ErrText], LibErrors.v),
    the password and group files and libacl ([UserDb], [LibAcl] with
    [LibAclSpec], AclUpdate.v, with a reference implementation that satisfies the
    specification), the kernel that enforces a filter (Seccomp.v), the namespaces
    of a system (NsCapable.v), the messages of the C library ([SysErrlist],
    Strerror.v).  Prelude.v, this file, has the C library functions that the
    sources use (strchr, strtol, atoi, snprintf, decimal output) with their
    lemmas, and the tactics.

    ** Files, sources and theorems

    - LibErrors.v: lib/error_functions.c.
    - GetNum.v: lib/get_num.c.  [lib_functions]: the error exits never return, print
      one message, flush or do not flush stdout, and end the process; which numeric
      arguments are accepted and with what value.
    - InotifyCache.v: inotify/inotify_dtree.c, the watch cache, the root list and
      the functions that watch, rewrite, zap and rebuild subtrees; [dt] is the
      record of its global variables.  The invariant [wf] (no descriptor in
      two slots, unused slots empty) and the abstraction [abs] to a map from descriptors
      to pathnames; [subtree_updates] says what each operation does to that map.
    - InotifyEvents.v: the rest of inotify_dtree.c: decoding of events, one
      handler per case of processNextInotifyEvent, the read loop, interactive
      commands, options and main.  [inotify_events]: the invariant
      under every sequence of documented events, and what events and commands do to
      the cache.
    - StreamIO.v: sockets/rdwrn.c, read_line.c, read_line_buf.c.
      [stream_io]: bytes are transferred once and in order,
      lines are consumed exactly.
    - Sockets.v: sockets/inet_sockets.c, unix_sockets.c.  [socket_descriptors]:
      which descriptors are open afterwards, and what they are connected or bound
      to: addresses that getaddrinfo() returned for the host and the service.
    - SeqNum.v: the sequence number services, sockets/is_seqnum_sv.c and _cl.c,
      is_seqnum_v2_sv.c and _cl.c, pipes/fifo_seqnum_server.c and _client.c.  The
      socket programs are written against the class [LineReader]; readLine is
      its instance.  [sequence_service]: which numbers are handed out, and when one
      can be handed out twice.
    - SvSem.v: svsem/binary_sems.c, event_flags.c, svsem_op.c and
      time/curr_time.c.  [svsem_library]: the protocols on the value of the
      semaphore that a number names in 16 bits, and the operation syntax.
    - ShmXfr.v: svshm/svshm_xfr_writer.c, svshm_xfr_reader.c, from the
      creation of the IPC objects to their removal.  [xfr_correct].
    - ProdCons.v: threads/prod_cons_cv.c.  [prod_cons_correct].
    - Multijoin.v: threads/thread_multijoin.c.  [multijoin_correct].
    - OneTimeInit.v: threads/one_time_init.c.  [one_time_init_once].
    - SemInit.v: svsem/svsem_good_init.c, svsem_bad_init.c.
    - SvmsgFile.v: svmsg/svmsg_file_server.c, svmsg_file_client.c.
      [file_transfer]: the calls of the server for one request, from open() to the
      end message, and what the client makes of the messages.
    - Setenv.v: proc/setenv.c.  [environment_updates].
    - FileIO.v: fileio/copy.c, seek_io.c.  [fileio_programs]: seek_io refines
      operations on the contents and the offset of a file.
    - FileLock.v: filelock/region_locking.c, create_pid_file.c.
    - Itimerspec.v: timers/itimerspec_from_str.c.
      [itimerspecFromStr_roundtrip].
    - ProcExec.v: procexec/system.c, execlp.c.  [exec_functions].
    - AclUpdate.v: users_groups/ugid_functions.c and acl/acl_update.c.
      [acl_update_correct].
    - FilePerms.v: files/file_perms.c.  [filePermStr_roundtrip].
    - Seccomp.v: the BPF filters and programs of seccomp/, with the checks and
      the interpreter of the kernel.  [seccomp_confines]: checked filters return,
      what each of the seven decides, and what a program can still do after it has installed
      its filter.
    - RawUdp.v: sockets/raw_send_udp.c, its headers and checksums in memory.
      [raw_send_udp_correct]: the checksum is that of RFC 1071, the packet is well
      formed, and how many bytes the copy in udpChecksum() really covers.
    - Scm.v: sockets/scm_functions.c, scm_rights_send.c and _recv.c,
      scm_multi_send.c and _recv.c, the ancillary data as bytes in memory.
    - NsCapable.v: namespaces/ns_capable.c.  [ns_capable_correct]: its answer is
      the rule of user_namespaces(7); which descriptors the search leaves open.
    - Userns.v: cap/cap_functions.c, namespaces/userns_functions.c,
      userns_child_exec.c, parent and child with the pipe between them.
      [userns_correct]: among others, the child executes only after the maps have
      been written.
    - Daemon.v: daemons/become_daemon.c.  [becomeDaemon_correct].
    - Tty.v: tty/tty_functions.c.
    - Pty.v: pty/pty_master_open.c, pty_fork.c, script.c, unbuffer.c.
      [pty_programs]: the terminal modes, ptyFork(), and what the programs pass on.
    - ThreadIncr.v: threads/thread_incr.c, its variants with a mutex, a spin lock
      and a read/write lock, thread_lock_speed.c and psem/thread_incr_psem.c,
      written against the class [Lock], with the four locks as instances.
      [increments_exact]: under a lock no increment is lost and the program ends;
      without one an increment can be lost.
    - Relay.v: the programs of sockets/ that pass bytes on: us_xfr and us_xfr_v2,
      is_echo, id_echo and ud_ucase, servers and clients.  [relay_programs]: what has
      been read, written and closed whenever one of their processes ends.
    - Pipes.v: pipes/simple_pipe.c, change_case.c, pipe_sync.c.  The two programs of
      calls that fork() leaves run side by side on pipes that hold bytes, with failing
      calls and killed processes.  [pipe_programs]: what has been displayed at every
      moment, absence of deadlock, finite runs.
    - SigSync.v: one machine for a process with a signal mask, a pending signal,
      a handler and children, and the class [SigProgram] of the programs that run
      on it: procexec/multi_SIGCHLD.c, fork_sig_sync.c, namespaces/simple_init.c.
      [signal_waits]: in which of them a wake-up can be lost, and how long they
      take.
    - LockShell.v: filelock/i_fcntl_locking.c.  [lock_programs]: PID files, and the
      commands of the locking shell against the meaning of their letters in fcntl(2).
    - ScmCred.v: sockets/scm_cred_send.c, scm_cred_recv.c.  [ancillary_data]: what
      these programs and those of Scm.v send encodes the descriptors and credentials,
      and what is received is exactly what the bytes encode.
    - PosixIpc.v: POSIX semaphores, message queues and shared memory as the
      kernel keeps them: names, objects that live on after their name is
      removed, and what each call does to them.
    - PosixTools.v: the programs of psem/, pmsg/ and pshm/ that create, use and
      remove one object.  [posix_tools]: what each does to the objects, and what
      it prints, for every list of arguments and every failure.
    - Lockstep.v: psem/psem_tty_lockstep_init.c and _second.c, two processes that
      take turns with two semaphores.  [lockstep_alternates].
    - SysvIpc.v: System V message queues, semaphore sets and shared memory segments
      as the kernel keeps them: keys, identifiers, and what each call does to them.
    - SysvTools.v: the programs of svmsg/, svsem/, svshm/ and svipc/ that create, use
      and remove one object.  [sysv_tools]: what each does to the objects, and what it
      prints; the segments that svshm_attach attaches, where and with which flags.
    - CondVar.v: threads/prod_condvar.c, prod_no_condvar.c.  [prod_condvar_correct].
    - Strerror.v: threads/strerror.c, strerror_tls.c, strerror_tsd.c and the test
      strerror_test.c.  [strerror_thread_safe]: which versions can be used by
      several threads.
    - Barrier.v: threads/pthread_barrier_demo.c.  [barrier_correct].
    - RandDtree.v: inotify/rand_dtree.c.  [rand_dtree_safe]: which changes of the
      file system the program can make, and where: below its argument, unless that has
      the marker in its own pathname; and where it runs into undefined behaviour.
    - WaitStatus.v: procexec/print_wait_status.c, child_status.c and
      signals/signal_functions.c.  [child_changes].
    - Sendfile.v: sockets/sendfile.c.
    - Epoll.v: altio/epoll_input.c.  [epoll_input_closes].
    - Launchers.v: namespaces/unshare.c, ns_exec.c, ns_run.c, ns_exec_map.c,
      ns_child_exec.c, cred_launcher.c and cap/cap_launcher.c.  [launchers]: what a process
      has changed when it executes its command.
    - FileRaces.v: fileio/atomic_append.c, bad_exclusive_open.c, by any number of
      processes.  [race_programs]: which of these and of the programs of SemInit.v have
      a race.
    - Copying.v: fileio/ex.tee.c, ex.seek_write.c, filebuff/copy.c, write_bytes.c,
      mmap/mmcopy.c, mmcat.c.  [copy_programs]: what these programs and sendfile()
      transfer.

    ** Loops and fuel

    Loops over data are structural or have fuel that the caller computes from
    the data and that is proved to be enough (the search through PATH, the
    entries of an ACL, the environment).  Loops that go on as long as the kernel
    makes them (interrupted calls, streams, services) carry a fuel argument, and
    their theorems say what the kernel must have delivered before the fuel can
    run out: that many interruptions, bytes, events or clients.  Where a theorem
    asks for enough fuel, the bound is given by the data: the messages of a file
    ([file_transfer]), twice the entries to apply above those of the ACL
    ([acl_update_correct]).  The checksum loop needs three rounds
    ([fold16_returns]), a filter no more steps than it has instructions
    ([seccomp_confines]), the search for an ancestor namespace one round
    more than the 32 levels that the kernel allows.  [xfr_correct], [multijoin_correct],
    [one_time_init_once], [increments_exact], [pipe_programs], [signal_waits],
    [lockstep_alternates], [prod_condvar_correct], [strerror_thread_safe] and
    [barrier_correct] have measures instead.

    ** What is not modelled

    Formatting with printf is done where the text is built; only what the
    theorems speak of is parsed or printed by definitions of the library.
    getopt is replaced by the sequence of options that it returns.  Allocation
    failures are modelled where the source tests for them; where it does not
    (strdup in itimerspecFromStr and execlp), the result is assumed to be
    storage, except in zapSubtree, where the failure is an outcome of its own.
    Signal handlers are registered, and what they do is modelled for grimReaper
    and for the programs of SigSync.v.  Programs that demonstrate one system call each, the Go and shell
    scripts, the exercise skeletons, and the programs that only print what the
    kernel reports are left out.  Candidates for extension, in order:
    altio/self_pipe.c, pty/pty_master_open_bsd.c, signals/sig_receiver.c with sig_sender.c,
    the pshm_seqnum and pmsg services, procexec/multi_wait.c. *)

From stdpp Require Export base list option numbers gmap strings.
From Stdlib Require Export ZArith Lia Ascii.
From Stdlib Require String.

#[global] Open Scope Z_scope.

(** ** C strings

    A C string is the list of its characters before the terminating null
    byte.  [$ "text"] is a string literal. *)

Abbreviation cstr := (list ascii) (only parsing).

Definition lit (s : string) : list ascii := String.list_ascii_of_string s.
Arguments lit : simpl never.

Declare Scope cstr_scope.
Delimit Scope cstr_scope with cstr.
Notation "$ s" := (lit s%string) (at level 1, format "$ s") : cstr_scope.
#[global] Open Scope cstr_scope.

Definition NUL : ascii := Ascii.zero.
Definition NL : ascii := "010"%char.
Definition chr (z : Z) : ascii := ascii_of_N (Z.to_N z).
Definition ord (c : ascii) : Z := Z.of_N (N_of_ascii c).
Definition strlen (s : list ascii) : Z := Z.of_nat (length s).
Definition char_at (s : list ascii) (i : nat) : ascii := nth i s NUL.

(** [strncmp(a, b, n) == 0] on null-terminated strings. *)
Definition strncmp_eq (a b : list ascii) (n : nat) : bool :=
  bool_decide (take n a = take n b).

Definition strcmp_eq (a b : list ascii) : bool := bool_decide (a = b).

(** [strchr(s, c)]: the part before the first [c] and the part after it. *)
Fixpoint strchr (s : list ascii) (c : ascii) : option (list ascii * list ascii) :=
  match s with
  | [] => None
  | x :: s' =>
      if Ascii.eqb x c then Some ([], s')
      else match strchr s' c with
           | Some (a, b) => Some (x :: a, b)
           | None => None
           end
  end.

(** What [snprintf] leaves in a buffer of [size] bytes. *)
Definition snprintf (size : nat) (s : list ascii) : list ascii := take (size - 1) s.

(** The C string held by a byte array: everything before the first null. *)
Fixpoint cstring_of (b : list ascii) : list ascii :=
  match b with
  | [] => []
  | x :: b' => if Ascii.eqb x NUL then [] else x :: cstring_of b'
  end.

Definition in_range (lo hi c : ascii) : bool :=
  (ord lo <=? ord c) && (ord c <=? ord hi).
Definition isdigit (c : ascii) : bool := in_range "0" "9" c.
Definition isspace (c : ascii) : bool :=
  (ord c =? 32) || ((9 <=? ord c) && (ord c <=? 13)).

(** ** Machine integers *)

Definition INT_MAX : Z := 2147483647.
Definition INT_MIN : Z := -2147483648.
Definition LONG_MAX : Z := 9223372036854775807.
Definition LONG_MIN : Z := -9223372036854775808.

(** Reduction modulo [2^w], unsigned and two's complement. *)
Definition wrapu (w z : Z) : Z := z mod 2 ^ w.
Definition wraps (w z : Z) : Z := (z + 2 ^ (w - 1)) mod 2 ^ w - 2 ^ (w - 1).
Definition int_of (z : Z) : Z := wraps 32 z.
Definition is_int (z : Z) : Prop := INT_MIN <= z <= INT_MAX.
Definition is_long (z : Z) : Prop := LONG_MIN <= z <= LONG_MAX.
Definition flag (flags bit : Z) : bool := negb (Z.land flags bit =? 0).

(** Four bytes of memory as a little-endian 32-bit word, and back. *)
Definition le32 (a b c d : ascii) : Z := ord a + 256 * ord b + 65536 * ord c + 16777216 * ord d.

Definition put32 (z : Z) : list ascii :=
  [chr (z mod 256); chr (z / 256 mod 256); chr (z / 65536 mod 256); chr (z / 16777216 mod 256)].

(** The bytes of an int. *)
Definition put_int (z : Z) : list ascii := put32 (wrapu 32 z).

(** ** Decimal output: [printf("%d")], [printf("%ld")] *)

Definition digit_char (d : Z) : ascii := chr (48 + d).

Fixpoint dec_go (fuel : nat) (n : Z) (acc : list ascii) : list ascii :=
  match fuel with
  | O => acc
  | S f => if n <? 10 then digit_char n :: acc
           else dec_go f (n / 10) (digit_char (n mod 10) :: acc)
  end.

Definition dec_nonneg (n : Z) : list ascii := dec_go (S (Z.to_nat (Z.log2 n))) n [].
Definition dec (z : Z) : list ascii :=
  if z <? 0 then "-"%char :: dec_nonneg (- z) else dec_nonneg z.

(** Right-justified in a field of [n] characters: [printf("%5d")]. *)
Definition pad_left (n : nat) (s : list ascii) : list ascii :=
  replicate (n - length s) " "%char ++ s.

(** ** Numeric input: [strtol], [atoi] (C locale) *)

Definition digit_val (c : ascii) : Z :=
  if in_range "0" "9" c then ord c - 48
  else if in_range "a" "z" c then ord c - 87
  else if in_range "A" "Z" c then ord c - 55
  else 99.

(** The longest run of digits: value, number of digits, rest of the string. *)
Fixpoint digits (base acc : Z) (s : list ascii) : Z * nat * list ascii :=
  match s with
  | c :: s' =>
      if digit_val c <? base
      then let '(v, n, r) := digits base (acc * base + digit_val c) s' in (v, S n, r)
      else (acc, O, s)
  | [] => (acc, O, [])
  end.

Fixpoint skip_space (s : list ascii) : list ascii :=
  match s with
  | c :: s' => if isspace c then skip_space s' else s
  | [] => []
  end.

Definition sign_of (s : list ascii) : bool * list ascii :=
  match s with
  | c :: s' => if Ascii.eqb c "-" then (true, s')
               else if Ascii.eqb c "+" then (false, s') else (false, s)
  | [] => (false, [])
  end.

(** [0x] is a prefix only when a hexadecimal digit follows it. *)
Definition hex_prefix (s : list ascii) : option (list ascii) :=
  match s with
  | z :: x :: d :: s' =>
      if Ascii.eqb z "0" && (Ascii.eqb x "x" || Ascii.eqb x "X") && (digit_val d <? 16)
      then Some (d :: s') else None
  | _ => None
  end.

Definition base_of (base : Z) (s : list ascii) : Z * list ascii :=
  if (base =? 0) || (base =? 16)
  then match hex_prefix s with
       | Some s' => (16, s')
       | None => if base =? 16 then (16, s)
                 else match s with
                      | c :: _ => if Ascii.eqb c "0" then (8, s) else (10, s)
                      | [] => (10, s)
                      end
       end
  else (base, s).

Record strtol_res := Strtol { st_val : Z; st_end : list ascii; st_erange : bool }.

Definition strtol (s : list ascii) (base : Z) : strtol_res :=
  let '(neg, s1) := sign_of (skip_space s) in
  let '(b, s2) := base_of base s1 in
  let '(v, n, rest) := digits b 0 s2 in
  match n with
  | O => Strtol 0 s false
  | S _ =>
      let z := if neg : bool then - v else v in
      if z >? LONG_MAX then Strtol LONG_MAX rest true
      else if z <? LONG_MIN then Strtol LONG_MIN rest true
      else Strtol z rest false
  end.

(** glibc: [atoi(s)] is [(int) strtol(s, NULL, 10)]. *)
Definition atoi (s : list ascii) : Z := int_of (st_val (strtol s 10)).

(** ** Automation *)

Create HintDb tlpi.

(** Case analysis on one integer comparison of the goal. *)
Ltac zcase :=
  match goal with
  | |- context [Z.ltb ?a ?b] => destruct (Z.ltb_spec a b)
  | |- context [Z.leb ?a ?b] => destruct (Z.leb_spec a b)
  | |- context [Z.eqb ?a ?b] => destruct (Z.eqb_spec a b)
  | |- context [Z.gtb ?a ?b] => rewrite (Z.gtb_ltb a b); destruct (Z.ltb_spec b a)
  | |- context [Z.geb ?a ?b] => rewrite (Z.geb_leb a b); destruct (Z.leb_spec b a)
  end.

(** The same in a hypothesis. *)
Ltac zcase_in H :=
  match type of H with
  | context [Z.ltb ?a ?b] => destruct (Z.ltb_spec a b)
  | context [Z.leb ?a ?b] => destruct (Z.leb_spec a b)
  | context [Z.eqb ?a ?b] => destruct (Z.eqb_spec a b)
  | context [Z.gtb ?a ?b] => rewrite (Z.gtb_ltb a b) in H; destruct (Z.ltb_spec b a)
  | context [Z.geb ?a ?b] => rewrite (Z.geb_leb a b) in H; destruct (Z.leb_spec b a)
  end.

(** A character class test, down to its code. *)
Ltac chars := unfold isdigit, isspace, in_range in *; cbn [ord N_of_ascii Z.of_N] in *.

(** ** Integers *)

Lemma int_of_id z : is_int z -> int_of z = z.
Proof.
  unfold is_int, int_of, wraps, INT_MIN, INT_MAX. intros H.
  rewrite Z.mod_small; lia.
Qed.

Lemma int_of_range z : is_int (int_of z).
Proof.
  unfold is_int, int_of, wraps, INT_MIN, INT_MAX.
  pose proof (Z.mod_pos_bound (z + 2 ^ (32 - 1)) (2 ^ 32) ltac:(lia)). lia.
Qed.

Lemma wrapu_id w z : 0 <= z < 2 ^ w -> wrapu w z = z.
Proof. apply Z.mod_small. Qed.

Lemma wrapu_range w z : 0 <= w -> 0 <= wrapu w z < 2 ^ w.
Proof. intros. apply Z.mod_pos_bound. lia. Qed.

(** ** Characters and decimal digits *)

Lemma ord_chr z : 0 <= z < 256 -> ord (chr z) = z.
Proof. intros H. unfold ord, chr. rewrite N_ascii_embedding; lia. Qed.

Lemma chr_ord c : chr (ord c) = c.
Proof. unfold ord, chr. rewrite N2Z.id. apply ascii_N_embedding. Qed.

Lemma ord_range c : 0 <= ord c < 256.
Proof. unfold ord. pose proof (N_ascii_bounded c). lia. Qed.

Lemma digit_cases d :
  0 <= d < 10 ->
  d = 0 \/ d = 1 \/ d = 2 \/ d = 3 \/ d = 4 \/ d = 5 \/ d = 6 \/ d = 7 \/ d = 8 \/ d = 9.
Proof. lia. Qed.

(** What the number parsers see of a decimal digit. *)
Lemma digit_char_spec d :
  0 <= d < 10 ->
  digit_val (digit_char d) = d /\ isdigit (digit_char d) = true /\
  isspace (digit_char d) = false /\
  Ascii.eqb (digit_char d) "-" = false /\ Ascii.eqb (digit_char d) "+" = false.
Proof. intros H. apply digit_cases in H. destruct_or?; subst; by vm_compute. Qed.

Lemma dec_go_head f n acc :
  0 <= n -> exists d l, 0 <= d < 10 /\ dec_go (S f) n acc = digit_char d :: l.
Proof.
  revert n acc. induction f as [|f IH]; intros n acc Hn.
  - simpl. zcase; [eauto with lia|]. eexists _, _. split; [|reflexivity].
    apply Z.mod_pos_bound. lia.
  - cbn [dec_go]. zcase; [eauto with lia|]. apply IH. apply Z.div_pos; lia.
Qed.

Lemma digits_dec_go f n acc :
  0 <= n < 10 ^ Z.of_nat f ->
  exists k, digits 10 0 (dec_go f n acc) =
    let '(v, m, r) := digits 10 n acc in (v, (m + k)%nat, r).
Proof.
  revert n acc. induction f as [|f IH]; intros n acc Hn.
  - assert (n = 0) as -> by (simpl in Hn; lia). exists 0%nat. simpl.
    destruct (digits 10 0 acc) as [[v m] r]. by rewrite Nat.add_0_r.
  - assert (0 <= n mod 10 < 10) by (apply Z.mod_pos_bound; lia).
    cbn [dec_go]. zcase.
    + exists 1%nat. cbn [digits].
      destruct (digit_char_spec n) as (-> & _); [lia|]. zcase; [|lia].
      rewrite Z.mul_0_l, Z.add_0_l.
      destruct (digits 10 n acc) as [[v m] r]. by rewrite Nat.add_1_r.
    + destruct (IH (n / 10) (digit_char (n mod 10) :: acc)) as [k Hk].
      { split; [apply Z.div_pos; lia|]. apply Z.div_lt_upper_bound; [lia|].
        rewrite Nat2Z.inj_succ, Z.pow_succ_r in Hn by lia. lia. }
      exists (S k). rewrite Hk. cbn [digits].
      destruct (digit_char_spec (n mod 10)) as (-> & _); [lia|]. zcase; [|lia].
      replace (n / 10 * 10 + n mod 10) with n by (rewrite Z.mul_comm; apply Z.div_mod; lia).
      destruct (digits 10 n acc) as [[v m] r]. do 2 f_equal. lia.
Qed.

Lemma dec_nonneg_fuel n : 0 <= n -> n < 10 ^ Z.of_nat (S (Z.to_nat (Z.log2 n))).
Proof.
  intros Hn. rewrite Nat2Z.inj_succ, Z2Nat.id by apply Z.log2_nonneg.
  destruct (Z.eq_dec n 0) as [->|]; [reflexivity|].
  apply Z.lt_le_trans with (2 ^ Z.succ (Z.log2 n)); [apply Z.log2_spec; lia|].
  apply Z.pow_le_mono_l. lia.
Qed.

Lemma dec_go_app f n acc rest : dec_go f n acc ++ rest = dec_go f n (acc ++ rest).
Proof.
  revert n acc. induction f as [|f IH]; intros n acc; simpl; [done|].
  zcase; [done|]. apply IH.
Qed.

Lemma nondigit_val c : isdigit c = false -> 10 <= digit_val c.
Proof.
  unfold digit_val, isdigit. intros ->. unfold in_range.
  change (ord "a") with 97. change (ord "A") with 65.
  repeat (zcase; simpl); lia.
Qed.

(** A number is printed as at least one digit, and its digits read back. *)
Lemma digits_dec n rest :
  0 <= n ->
  (forall c r, rest = c :: r -> isdigit c = false) ->
  (exists d l, 0 <= d < 10 /\ dec_nonneg n ++ rest = digit_char d :: l) /\
  exists k, digits 10 0 (dec_nonneg n ++ rest) = (n, S k, rest).
Proof.
  intros Hn Hrest. unfold dec_nonneg. rewrite dec_go_app, app_nil_l.
  destruct (dec_go_head (Z.to_nat (Z.log2 n)) n rest Hn) as (d & l & Hd & Heq).
  split; [eauto|].
  destruct (digits_dec_go (S (Z.to_nat (Z.log2 n))) n rest) as [k Hk].
  { split; [done|]. by apply dec_nonneg_fuel. }
  assert (digits 10 n rest = (n, 0%nat, rest)) as Hr.
  { destruct rest as [|c r]; simpl; [done|].
    pose proof (nondigit_val c (Hrest c r eq_refl)). by zcase; [lia|]. }
  rewrite Hr in Hk. rewrite Hk. destruct k as [|k]; [|eauto].
  exfalso. rewrite Heq in Hk. simpl in Hk.
  destruct (digit_char_spec d Hd) as (Hv & _). rewrite Hv in Hk.
  zcase_in Hk; [|lia]. destruct (digits _ _ l) as [[? ?] ?]. congruence.
Qed.

(** [strtol] reads back what [printf("%ld")] wrote, and stops where it stopped. *)
Lemma strtol_dec z rest :
  is_long z -> (forall c r, rest = c :: r -> isdigit c = false) ->
  strtol (dec z ++ rest) 10 = Strtol z rest false.
Proof.
  intros [Hlo Hhi] Hrest. unfold dec, strtol. zcase.
  - destruct (digits_dec (- z) rest) as [_ [k Hk]]; [lia|done|].
    cbn [app skip_space isspace]. simpl. rewrite Hk.
    rewrite Z.opp_involutive. repeat zcase; try lia. done.
  - destruct (digits_dec z rest) as [(d & l & Hd & Hh) [k Hk]]; [lia|done|].
    rewrite Hh in *. destruct (digit_char_spec d Hd) as (_ & _ & Hs & H1 & H2).
    cbn [skip_space]. rewrite Hs. cbn [sign_of]. rewrite H1, H2. simpl in *.
    rewrite Hk. repeat zcase; try lia. done.
Qed.

Lemma atoi_dec z rest :
  is_int z -> (forall c r, rest = c :: r -> isdigit c = false) ->
  atoi (dec z ++ rest) = z.
Proof.
  intros Hz Hrest. unfold atoi. rewrite strtol_dec; [by apply int_of_id| |done].
  unfold is_int, is_long, INT_MIN, INT_MAX, LONG_MIN, LONG_MAX in *. lia.
Qed.

Lemma atoi_range s : is_int (atoi s).
Proof. apply int_of_range. Qed.

Lemma le32_put32 z :
  0 <= z < 2 ^ 32 ->
  le32 (chr (z mod 256)) (chr (z / 256 mod 256)) (chr (z / 65536 mod 256))
       (chr (z / 16777216 mod 256)) = z.
Proof.
  intros Hz. unfold le32.
  rewrite !ord_chr by (apply Z.mod_pos_bound; lia).
  Z.div_mod_to_equations. lia.
Qed.

Lemma int_of_wrapu z : is_int z -> int_of (wrapu 32 z) = z.
Proof.
  intros Hz. unfold int_of, wraps, wrapu. rewrite Zplus_mod_idemp_l.
  change ((z + 2 ^ (32 - 1)) mod 2 ^ 32 - 2 ^ (32 - 1)) with (int_of z). by apply int_of_id.
Qed.

(** ** The characters of a printed number *)

Lemma elem_of_dec_go f n acc c :
  0 <= n -> c ∈ dec_go f n acc -> isdigit c = true \/ c ∈ acc.
Proof.
  revert n acc. induction f as [|f IH]; intros n acc Hn; simpl; [by right|].
  assert (forall d, 0 <= d < 10 -> c ∈ digit_char d :: acc -> isdigit c = true \/ c ∈ acc) as Hd.
  { intros d Hd [->|?]%elem_of_cons; [left; apply (digit_char_spec d Hd)|by right]. }
  zcase; [by apply Hd|]. intros [?|Hc]%IH; [by left| |apply Z.div_pos; lia].
  apply (Hd (n mod 10)); [apply Z.mod_pos_bound; lia|done].
Qed.

Lemma elem_of_dec z c : c ∈ dec z -> isdigit c = true \/ c = "-"%char.
Proof.
  unfold dec, dec_nonneg. zcase; [rewrite elem_of_cons; intros [->|H1]; [by right|]|intros H1];
    apply elem_of_dec_go in H1 as [?|H1]; try lia; (by left) || by apply elem_of_nil in H1.
Qed.

Lemma dec_head z : 0 <= z -> exists d l, isdigit d = true /\ dec z = d :: l.
Proof.
  intros Hz. unfold dec, dec_nonneg. zcase; [lia|].
  destruct (dec_go_head (Z.to_nat (Z.log2 z)) z [] Hz) as (d & l & Hd & ->).
  exists (digit_char d), l. split; [apply (digit_char_spec d Hd)|done].
Qed.

(** ** The length of a printed number *)

Lemma dec_go_length f n acc k :
  (1 <= k)%nat -> 0 <= n < 10 ^ Z.of_nat k -> (length (dec_go f n acc) <= k + length acc)%nat.
Proof.
  revert n acc k. induction f as [|f IH]; intros n acc k Hk Hn; simpl; [lia|].
  zcase; [simpl; lia|]. destruct k as [|[|k]]; [lia|simpl in Hn; lia|].
  etrans; [apply (IH _ _ (S k)); [lia|]|simpl; lia].
  rewrite Nat2Z.inj_succ, Z.pow_succ_r in Hn by lia. split; [apply Z.div_pos; lia|].
  apply Z.div_lt_upper_bound; lia.
Qed.

Lemma length_dec_int z : is_int z -> (length (dec z) <= 11)%nat.
Proof.
  unfold is_int, INT_MIN, INT_MAX, dec, dec_nonneg. intros Hz.
  assert (forall f n, 0 <= n <= 2147483648 -> (length (dec_go f n []) <= 10)%nat) as Hg.
  { intros f n Hn. apply (dec_go_length f n [] 10); [lia|].
    change (10 ^ Z.of_nat 10) with 10000000000. lia. }
  zcase; cbn [length]; [pose proof (Hg (S (Z.to_nat (Z.log2 (- z)))) (- z))
                       |pose proof (Hg (S (Z.to_nat (Z.log2 z))) z)]; lia.
Qed.

(** ** C strings *)

Lemma length_lit s : length (lit s) = String.length s.
Proof. induction s as [|c s IH]; simpl; [done|]. by rewrite <- IH. Qed.

(** Arithmetic on the lengths of concatenated strings. *)
Ltac len := rewrite ?length_app, ?length_lit in *; cbn [String.length length] in *; lia.

Lemma strchr_Some s c a b : strchr s c = Some (a, b) -> s = a ++ c :: b /\ c ∉ a.
Proof.
  revert a b. induction s as [|x s IH]; intros a b; simpl; [done|].
  destruct (Ascii.eqb_spec x c) as [->|Hne].
  - intros [= <- <-]. split; [done|apply not_elem_of_nil].
  - destruct (strchr s c) as [[a' b']|]; [|done]. intros [= <- <-].
    destruct (IH a' b' eq_refl) as [-> Hni]. split; [done|]. set_solver.
Qed.

Lemma strchr_None s c : strchr s c = None <-> c ∉ s.
Proof.
  induction s as [|x s IH]; simpl; [split; [intros; apply not_elem_of_nil|done]|].
  destruct (Ascii.eqb_spec x c) as [->|Hne]; [set_solver|].
  destruct (strchr s c) as [[a b]|]; set_solver.
Qed.

Lemma strchr_app a b c : c ∉ a -> strchr (a ++ c :: b) c = Some (a, b).
Proof.
  induction a as [|x a IH]; intros Hni; simpl.
  - by rewrite Ascii.eqb_refl.
  - destruct (Ascii.eqb_spec x c); [set_solver|]. rewrite IH; set_solver.
Qed.

Lemma cstring_of_app s r : NUL ∉ s -> cstring_of (s ++ NUL :: r) = s.
Proof.
  induction s as [|x s IH]; intros Hni; simpl; [done|].
  destruct (Ascii.eqb_spec x NUL); [set_solver|]. rewrite IH; set_solver.
Qed.

Lemma cstring_of_no_nul b : NUL ∉ cstring_of b.
Proof.
  induction b as [|x b IH]; simpl; [apply not_elem_of_nil|].
  destruct (Ascii.eqb_spec x NUL); set_solver.
Qed.

Lemma cstring_of_id s : NUL ∉ s -> cstring_of s = s.
Proof.
  induction s as [|x s IH]; intros Hs; simpl; [done|].
  destruct (Ascii.eqb_spec x NUL); [set_solver|]. rewrite IH; set_solver.
Qed.

Lemma dec_no_nul z : NUL ∉ dec z.
Proof. intros [H|H]%elem_of_dec; discriminate H. Qed.

Lemma strncmp_eq_prefix p s :
  strncmp_eq p s (length p) = true <-> exists t, s = p ++ t.
Proof.
  unfold strncmp_eq. rewrite bool_decide_eq_true, firstn_all. split.
  - intros H. exists (drop (length p) s). rewrite H at 1. by rewrite take_drop.
  - intros [t ->]. by rewrite take_app_length.
Qed.

(** The fields of a text with separator [c]; [join] puts them together. *)
Fixpoint split (c : ascii) (s : list ascii) : list (list ascii) :=
  match s with
  | [] => [[]]
  | x :: s' =>
      if Ascii.eqb x c then [] :: split c s'
      else match split c s' with
           | w :: ws => (x :: w) :: ws
           | [] => [[x]]
           end
  end.

Fixpoint join (c : ascii) (ws : list (list ascii)) : list ascii :=
  match ws with
  | [] => []
  | [w] => w
  | w :: ws' => w ++ c :: join c ws'
  end.

Lemma split_none c s : c ∉ s -> split c s = [s].
Proof.
  induction s as [|x s IH]; intros Hc; simpl; [done|].
  destruct (Ascii.eqb_spec x c) as [->|]; [set_solver|]. rewrite IH; set_solver.
Qed.

Lemma split_app c a b : c ∉ a -> split c (a ++ c :: b) = a :: split c b.
Proof.
  induction a as [|x a IH]; intros Hc; simpl; [by rewrite Ascii.eqb_refl|].
  destruct (Ascii.eqb_spec x c) as [->|]; [set_solver|]. rewrite IH; set_solver.
Qed.

(** Cutting at the first separator takes the first field off. *)
Lemma split_strchr c s :
  split c s = match strchr s c with Some (a, b) => a :: split c b | None => [s] end.
Proof.
  destruct (strchr s c) as [[a b]|] eqn:Hs.
  - apply strchr_Some in Hs as [-> Ha]. by apply split_app.
  - by apply split_none, strchr_None.
Qed.

Lemma split_join c ws : ws <> [] -> Forall (fun w => c ∉ w) ws -> split c (join c ws) = ws.
Proof.
  intros Hne Hws. induction Hws as [|w [|w' ws] Hw _ IH]; [done|by apply split_none|].
  change (join c (w :: w' :: ws)) with (w ++ c :: join c (w' :: ws)).
  rewrite split_app by done. by rewrite IH.
Qed.

#[export] Hint Rewrite int_of_id wrapu_id ord_chr using lia : tlpi.
#[export] Hint Resolve int_of_range atoi_range ord_range cstring_of_no_nul : tlpi.

(** ** Sums over lists *)

Fixpoint total {A} (f : A -> Z) (l : list A) : Z :=
  match l with [] => 0 | x :: l => f x + total f l end.

Section Total.
Context {A : Type} (f g : A -> Z).

Lemma total_insert l i x y : l !! i = Some x -> total f (<[i := y]> l) = total f l - f x + f y.
Proof.
  revert i. induction l as [|z l IH]; intros [|i] H; simpl in *; try done.
  - simplify_eq. lia.
  - rewrite (IH i H). lia.
Qed.

Lemma total_nonneg l : (forall x, 0 <= f x) -> 0 <= total f l.
Proof. intros Hf. induction l as [|x l IH]; simpl; [lia|]. specialize (Hf x). lia. Qed.

Lemma total_positive l : (forall x, 0 <= f x) -> 0 < total f l -> exists i x, l !! i = Some x /\ 0 < f x.
Proof.
  intros Hf. induction l as [|x l IH]; simpl; [lia|]. intros H.
  destruct (Z.ltb_spec 0 (f x)); [by exists 0%nat, x|]. destruct IH as (i & y & Hi & Hy); [lia|]. by exists (S i), y.
Qed.

Lemma total_ge l i x : (forall x, 0 <= f x) -> l !! i = Some x -> f x <= total f l.
Proof.
  intros Hf. revert i. induction l as [|z l IH]; intros [|i] H; simpl in *; try done.
  - simplify_eq. pose proof (total_nonneg l Hf). lia.
  - specialize (IH i H). specialize (Hf z). lia.
Qed.

Lemma total_map_zero {B} (h : B -> A) (l : list B) : (forall t, f (h t) = 0) -> total f (map h l) = 0.
Proof. intros H. induction l as [|x l IH]; simpl; [done|]. rewrite H, IH. done. Qed.

Lemma total_le l : (forall x, f x <= g x) -> total f l <= total g l.
Proof. intros H. induction l as [|x l IH]; simpl; [lia|]. specialize (H x). lia. Qed.

Lemma total_drop k l : (forall x, 0 <= f x) -> total f (drop k l) <= total f l.
Proof.
  intros Hf. revert k. induction l as [|x l IH]; intros [|k]; simpl; try lia. specialize (IH k). specialize (Hf x). lia.
Qed.

Lemma total_app l l' : total f (l ++ l') = total f l + total f l'.
Proof. induction l as [|x l IH]; simpl; [done|]. rewrite IH. lia. Qed.
End Total.

(** Looking up an element after a change. *)
Lemma lookup_changed {A} (l : list A) i y j x :
  <[i := y]> l !! j = Some x -> j = i /\ x = y \/ j <> i /\ l !! j = Some x.
Proof.
  intros H. destruct (decide (i = j)) as [->|Hne].
  - left. split; [done|]. assert (j < length l)%nat by (rewrite <- (length_insert l j y); by eapply lookup_lt_Some).
    rewrite list_lookup_insert_eq in H by done. congruence.
  - right. split; [done|]. by rewrite list_lookup_insert_ne in H.
Qed.
