(* ===== verification/Sys.v ===== *)
(** * Programs against the operating system

    A C function that makes system calls is a [prog]: a tree whose nodes are
    calls and whose branches are the replies the kernel may give.  The kernel
    and the other processes are not part of the sources, so they stay
    parameters: [run] executes a program against a given kernel (a function
    from the history of the process and a call to a reply), and [wp] quantifies
    over every kernel whose replies are [legal].  [posix] is the documented
    behaviour of the calls that the theorems of the library rely on. *)

From S2P Require Import Prelude.

(** ** Results and errors

    A call that fails returns -1 and sets [errno]: [Err errno]. *)

Inductive res (A : Type) : Type :=
| Ok (a : A)
| Err (errno : Z).
Arguments Ok {A} a.
Arguments Err {A} errno.

Definition EPERM := 1.
Definition ENOENT := 2.
Definition EINTR := 4.
Definition EIO := 5.
Definition ENOEXEC := 8.
Definition EAGAIN := 11.
Definition ENOMEM := 12.
Definition EACCES := 13.
Definition EEXIST := 17.
Definition EINVAL := 22.
Definition ENAMETOOLONG := 36.
Definition ENOSYS := 38.
Definition EOVERFLOW := 75.

Definition EXIT_SUCCESS := 0.
Definition EXIT_FAILURE := 1.
Definition STDIN_FILENO := 0.
Definition STDOUT_FILENO := 1.

(** ** Data exchanged with the kernel *)

Record stat := Stat { st_isdir : bool; st_ino : Z; st_dev : Z }.

Record flock := Flock
  { l_type : Z; l_whence : Z; l_start : Z; l_len : Z; l_pid : Z }.

Record sembuf := Sembuf { sem_num : Z; sem_op : Z; sem_flg : Z }.

Record addrinfo := Addrinfo
  { ai_family : Z; ai_socktype : Z; ai_protocol : Z;
    ai_addr : list ascii; ai_addrlen : Z }.

Record hints := Hints { h_flags : Z; h_family : Z; h_socktype : Z }.

(** A message of a System V queue: type and text. *)
Record msg := Msg { mtype : Z; mtext : list ascii }.

(** The disposition, mask and flags that [sigaction] installs and reports. *)
Inductive handler := SIG_DFL | SIG_IGN | Handler (name : string).
Record sigact := Sigact { sa_handler : handler; sa_mask : list Z; sa_flags : Z }.
Inductive sighow := SIG_BLOCK | SIG_SETMASK.

(** An instruction of a socket filter (struct sock_filter). *)
Record sock_filter := Sock_filter { bpf_code : Z; bpf_jt : Z; bpf_jf : Z; bpf_k : Z }.

(** Terminal attributes; [c_cc] is the array of special characters. *)
Record termios := Termios
  { c_iflag : Z; c_oflag : Z; c_cflag : Z; c_lflag : Z; c_cc : list Z }.

Record winsize := Winsize { ws_row : Z; ws_col : Z; ws_xpixel : Z; ws_ypixel : Z }.

(** Operations on a POSIX semaphore. *)
Inductive semfun := SemWait | SemTrywait | SemPost.

(** What IPC_SET copies from struct msqid_ds: the limit, the owner and the mode. *)
Record msqid_ds := Msqid_ds { msg_qbytes : Z; msg_uid : Z; msg_gid : Z; msg_mode : Z }.

Inductive stream := Stdout | Stderr | File (fp : Z).

(** ** Calls, with the type of their replies *)

Inductive call : Type -> Type :=
(* stdio, environment, memory *)
| Out (s : stream) (text : list ascii) : call unit
| Fflush (s : stream) : call unit
| Fopen (path mode : list ascii) : call (res Z)
| Fclose (fp : Z) : call unit
| Getenv (name : list ascii) : call (option (list ascii))
(* time(), localtime() and strftime(): the text, None if one of them fails *)
| Strftime_now (format : list ascii) : call (option (list ascii))
| Alloc (size : Z) : call bool
(* realloc of the watch cache: the indeterminate contents of the new slots *)
| Realloc_slots (n : nat) : call (option (list (Z * list ascii)))
(* files *)
| Open (path : list ascii) (flags mode : Z) : call (res Z)
| Close (fd : Z) : call (res unit)
| Read (fd n : Z) : call (res (list ascii))
| Write (fd : Z) (data : list ascii) : call (res Z)
| Ftruncate (fd len : Z) : call (res unit)
| Fcntl_getfd (fd : Z) : call (res Z)
| Fcntl_setfd (fd flags : Z) : call (res unit)
| Fcntl_lock (fd cmd : Z) (fl : flock) : call (res flock)
| Lstat (path : list ascii) : call (res stat)
| Nftw (path : list ascii) : call (list (list ascii * stat) * res unit)
| Mkfifo (path : list ascii) (mode : Z) : call (res unit)
| Umask (mask : Z) : call unit
| Select (fds : list Z) : call (res (list Z))
(* inotify *)
| Inotify_init : call (res Z)
| Inotify_add_watch (fd : Z) (path : list ascii) (mask : Z) : call (res Z)
| Inotify_rm_watch (fd wd : Z) : call (res unit)
(* processes and signals *)
| Getpid : call Z
| Fork : call (res Z)
| Waitpid (pid flags : Z) : call (res (Z * Z))
(* the error; None if the call does not return *)
| Execve (path : list ascii) (argv envp : list (list ascii)) : call (option Z)
| Sigprocmask (how : sighow) (set : list Z) : call (list Z)
| Sigaction (sig : Z) (act : sigact) : call (res sigact)
| Ualarm (usecs : Z) : call unit
| Atexit (f : string) : call (res unit)
(* sockets *)
| Getaddrinfo (host : option (list ascii)) (service : list ascii) (h : hints) :
    call (Z + list addrinfo)
| Freeaddrinfo (l : list addrinfo) : call unit
| Getnameinfo (addr : list ascii) (flags : Z) : call (option (list ascii * list ascii))
| Socket (family type protocol : Z) : call (res Z)
| Connect (sd : Z) (addr : list ascii) (addrlen : Z) : call (res unit)
| Bind (sd : Z) (addr : list ascii) (addrlen : Z) : call (res unit)
| Setsockopt_reuseaddr (sd optval : Z) : call (res unit)
| Listen (sd backlog : Z) : call (res unit)
| Accept (sd : Z) : call (res (Z * list ascii))
(* getaddrinfo() without a service; sendto(); inet_ntop() for AF_INET *)
| Getaddrinfo_host (host : list ascii) (h : hints) : call (Z + list addrinfo)
| Sendto (sd : Z) (data addr : list ascii) : call (res Z)
| Inet_ntop (addr : list ascii) : call (res (list ascii))
(* sendmsg() and recvmsg() with one iovec: the bytes, the ancillary data and the
   flags of the message received *)
| Sendmsg (sd : Z) (data control : list ascii) : call (res Z)
| Recvmsg (sd n controllen : Z) : call (res (list ascii * list ascii * Z))
| Setsockopt_passcred (sd optval : Z) : call (res unit)
| Remove (path : list ascii) : call (res unit)
(* SO_PEERCRED: pid, uid, gid *)
| Getsockopt_peercred (sd : Z) : call (res (Z * Z * Z))
(* recvfrom(): the bytes and the address of the sender *)
| Recvfrom (sd n : Z) : call (res (list ascii * list ascii))
| Shutdown (sd how : Z) : call (res unit)
| Syslog (text : list ascii) : call unit
(* inet_ntop() and inet_pton() for AF_INET6 *)
| Inet_ntop6 (addr : list ascii) : call (res (list ascii))
| Inet_pton6 (text : list ascii) : call (option (list ascii))
(* credentials, capabilities, namespaces, filters *)
| Getuid : call Z
| Getgid : call Z
| Geteuid : call Z
| Getegid : call Z
| Getppid : call Z
| Setresuid (ruid euid suid : Z) : call (res unit)
| Prctl (option arg arg2 : Z) : call (res Z)
| Seccomp (operation flags : Z) (filter : list sock_filter) : call (res unit)
| Cap_get_pid (pid : Z) : call (res Z)
| Cap_get_proc : call (res Z)
| Cap_set_flag (caps flag value setting : Z) : call (res unit)
| Cap_set_proc (caps : Z) : call (res unit)
| Cap_to_text (caps : Z) : call (res (list ascii))
| Cap_free (obj : Z + list ascii) : call (res unit)
| Ioctl (fd request : Z) : call (res Z)
| Fstat (fd : Z) : call (res stat)
(* fstat() for st_mode *)
| Fstat_mode (fd : Z) : call (res Z)
| Fgets (fp size : Z) : call (option (list ascii))
(* sessions, descriptors, terminals *)
| Pipe : call (res (Z * Z))
| Clone (flags : Z) : call (res Z)
| Execvp (file : list ascii) (argv : list (list ascii)) : call (option Z)
| Execv (path : list ascii) (argv : list (list ascii)) : call (option Z)
| Shell (command : list ascii) : call Z
| Set_env (name value : list ascii) (overwrite : Z) : call (res unit)
| Setsid : call (res Z)
| Setpgid (pid pgid : Z) : call (res unit)
| Getpgrp : call Z
| Tcsetpgrp (fd pgrp : Z) : call (res unit)
(* wordexp(): an error or the words *)
| Wordexp (s : list ascii) : call (Z + list (list ascii))
| Chdir (path : list ascii) : call (res unit)
| Sysconf_open_max : call Z
| Dup2 (oldfd newfd : Z) : call (res Z)
| Lseek (fd offset whence : Z) : call (res Z)
| Mq_notify (mqdes : Z) : call (res unit)
| Tcgetattr (fd : Z) : call (res termios)
| Tcsetattr (fd actions : Z) (t : termios) : call (res unit)
| Posix_openpt (flags : Z) : call (res Z)
| Grantpt (fd : Z) : call (res unit)
| Unlockpt (fd : Z) : call (res unit)
| Ptsname (fd : Z) : call (res (list ascii))
(* the requests TIOCGWINSZ and TIOCSWINSZ of ioctl() *)
| Tiocgwinsz (fd : Z) : call (res winsize)
| Tiocswinsz (fd : Z) (ws : winsize) : call (res unit)
(* System V IPC *)
| Semget (key nsems flags : Z) : call (res Z)
| Semop (semid : Z) (sops : list sembuf) : call (res unit)
| Semctl_setval (semid semnum val : Z) : call (res unit)
| Semctl_getval (semid semnum : Z) : call (res Z)
| Semctl_rmid (semid : Z) : call (res unit)
| Msgget (key flags : Z) : call (res Z)
| Msgsnd (qid : Z) (m : msg) (flags : Z) : call (res unit)
| Msgrcv (qid maxsize type flags : Z) : call (res msg)
| Msgctl_rmid (qid : Z) : call (res unit)
| Ftok (path : list ascii) (proj : Z) : call (res Z)
| Msgctl_stat (qid : Z) : call (res msqid_ds)
| Msgctl_set (qid : Z) (ds : msqid_ds) : call (res unit)
(* IPC_STAT of a semaphore set: the number of semaphores *)
| Semctl_stat (semid : Z) : call (res Z)
| Semctl_setall (semid : Z) (vals : list Z) : call (res unit)
| Shmget (key size flags : Z) : call (res Z)
| Shmat (shmid addr flags : Z) : call (res Z)
(* shmctl() with IPC_RMID, SHM_LOCK or SHM_UNLOCK *)
| Shmctl (shmid cmd : Z) : call (res unit)
(* POSIX IPC.  mq_open(): the mode and the attributes (maximum number of messages
   and their size) of a queue to create; sem_open(): mode and value *)
| Mq_open (name : list ascii) (flags : Z) (create : option (Z * option (Z * Z))) : call (res Z)
| Mq_close (mqd : Z) : call (res unit)
(* mq_maxmsg, mq_msgsize, mq_curmsgs *)
| Mq_getattr (mqd : Z) : call (res (Z * Z * Z))
| Mq_send (mqd : Z) (data : list ascii) (prio : Z) : call (res unit)
| Mq_receive (mqd n : Z) : call (res (list ascii * Z))
| Mq_unlink (name : list ascii) : call (res unit)
| Sem_open (name : list ascii) (flags : Z) (create : option (Z * Z)) : call (res Z)
| Sem_init (sem pshared value : Z) : call (res unit)
| Sem_call (f : semfun) (sem : Z) : call (res unit)
| Sem_timedwait (sem sec nsec : Z) : call (res unit)
| Sem_getvalue (sem : Z) : call (res Z)
| Sem_unlink (name : list ascii) : call (res unit)
| Shm_open (name : list ascii) (flags mode : Z) : call (res Z)
| Shm_unlink (name : list ascii) : call (res unit)
(* mmap(NULL, len, prot, MAP_SHARED, fd, 0): the address *)
| Mmap (len prot fd : Z) : call (res Z)
(* accesses to memory shared with other processes *)
| Load (addr off n : Z) : call (list ascii)
| Store (addr off : Z) (data : list ascii) : call unit
| Fstat_size (fd : Z) : call (res Z)
| Clock_realtime : call (res (Z * Z))
| Delay (usecs : Z) : call unit
(* directories; access() for F_OK; random() *)
| Mkdir (path : list ascii) (mode : Z) : call (res unit)
| Rmdir (path : list ascii) : call (res unit)
| Rename (old new : list ascii) : call (res unit)
| Access (path : option (list ascii)) : call (res unit)
| Random : call Z
(* the signal mask and the pending signals of the process; pause() *)
| Sigmask : call (res (list Z))
| Sigpending : call (res (list Z))
| Pause : call unit
(* epoll: a new instance, EPOLL_CTL_ADD, and the descriptors that are ready with
   their events *)
| Epoll_create (size : Z) : call (res Z)
| Epoll_add (epfd fd events : Z) : call (res unit)
| Epoll_wait (epfd maxevents : Z) : call (res (list (Z * Z)))
(* namespaces and group identifiers of the process *)
| Unshare (flags : Z) : call (res unit)
| Setns (fd nstype : Z) : call (res unit)
| Setresgid (rgid egid sgid : Z) : call (res unit)
| Setgroups (groups : list Z) : call (res unit)
(* the user and group identifiers in the password file; getgrouplist() for an array
   of [n] elements: the number of groups, and the groups if they fit *)
| Getpwnam (name : list ascii) : call (option (Z * Z))
| Getgrouplist (user : list ascii) (gid n : Z) : call (Z * res (list Z))
| Cap_from_name (name : list ascii) : call (res Z)
(* mmap(NULL, len, prot, MAP_PRIVATE, fd, 0); msync() with MS_SYNC *)
| Mmap_private (len prot fd : Z) : call (res Z)
| Msync (addr len : Z) : call (res unit).

(** ** Programs *)

(** How a process ends: [exit(3)], [_exit(2)], [abort(3)], a successful
    [execve], undefined behaviour, or the bound of a loop of the model. *)
Inductive halt :=
| Exit (status : Z)
| Exit_ (status : Z)
| Aborted
| Execed (path : list ascii) (argv : list (list ascii))
| Undefined (why : string)
| OutOfFuel.

Inductive prog (A : Type) : Type :=
| Ret (a : A)
| Halt (h : halt)
| Sys {X : Type} (c : call X) (k : X -> prog A).
Arguments Ret {A} a.
Arguments Halt {A} h.
Arguments Sys {A X} c k.

Fixpoint bind {A B} (p : prog A) (f : A -> prog B) : prog B :=
  match p with
  | Ret a => f a
  | Halt h => Halt h
  | Sys c k => Sys c (fun x => bind (k x) f)
  end.

Definition sys {X} (c : call X) : prog X := Sys c Ret.

Declare Scope prog_scope.
Delimit Scope prog_scope with prog.
Notation "x <- p ;; q" := (bind p (fun x => q))
  (at level 199, p at level 99, right associativity) : prog_scope.
Notation "' pat <- p ;; q" := (bind p (fun x => match x with pat => q end))
  (at level 199, pat pattern, p at level 99, right associativity) : prog_scope.
Notation "p ;;; q" := (bind p (fun _ => q))
  (at level 199, q at level 199, right associativity) : prog_scope.
#[global] Open Scope prog_scope.

(** The functions of the exec family return only if they fail. *)
Definition execvp (file : list ascii) (argv : list (list ascii)) : prog Z :=
  r <- sys (Execvp file argv) ;;
  match r with None => Halt (Execed file argv) | Some errno => Ret errno end.

Definition execv (path : list ascii) (argv : list (list ascii)) : prog Z :=
  r <- sys (Execv path argv) ;;
  match r with None => Halt (Execed path argv) | Some errno => Ret errno end.

Definition execve (path : list ascii) (argv envp : list (list ascii)) : prog Z :=
  r <- sys (Execve path argv envp) ;;
  match r with None => Halt (Execed path argv) | Some errno => Ret errno end.

Definition print (s : stream) (text : list ascii) : prog unit := sys (Out s text).

(** ** Execution *)

Inductive event := | Ev {X : Type} (c : call X) (r : X).

(** What a process has done so far, the latest event first. *)
Abbreviation history := (list event).

Inductive outcome (A : Type) := Done (a : A) | Stop (h : halt).
Arguments Done {A} a.
Arguments Stop {A} h.

Definition kernel := history -> forall X, call X -> X.

Fixpoint run {A} (K : kernel) (p : prog A) (h : history) : outcome A * history :=
  match p with
  | Ret a => (Done a, h)
  | Halt s => (Stop s, h)
  | Sys c k => let r := K h _ c in run K (k r) (Ev c r :: h)
  end.

(** Which replies the kernel may give to a call after a history. *)
Definition env := history -> forall X, call X -> X -> Prop.

Fixpoint wp {A} (E : env) (p : prog A) (Q : outcome A -> history -> Prop) (h : history) : Prop :=
  match p with
  | Ret a => Q (Done a) h
  | Halt s => Q (Stop s) h
  | Sys c k => forall r, E h _ c r -> wp E (k r) Q (Ev c r :: h)
  end.

(** ** Program logic *)

Section Logic.
Context (E : env).

Lemma wp_mono {A} (p : prog A) (P Q : outcome A -> history -> Prop) h :
  (forall o h', P o h' -> Q o h') -> wp E p P h -> wp E p Q h.
Proof. intros HPQ. revert h. induction p; simpl; eauto. Qed.

Lemma wp_bind {A B} (p : prog A) (f : A -> prog B) Q h :
  wp E p (fun o h' => match o with
                      | Done a => wp E (f a) Q h'
                      | Stop s => Q (Stop s) h'
                      end) h ->
  wp E (bind p f) Q h.
Proof. revert h. induction p; simpl; eauto. Qed.

Lemma wp_sys_bind {X B} (c : call X) (f : X -> prog B) Q h :
  (forall r, E h X c r -> wp E (f r) Q (Ev c r :: h)) -> wp E (bind (sys c) f) Q h.
Proof. done. Qed.

(** The rule used at a call of a function with a known specification. *)
Lemma wp_call {A B} (p : prog A) (f : A -> prog B) (P : outcome A -> history -> Prop) Q h :
  wp E p P h ->
  (forall a h', P (Done a) h' -> wp E (f a) Q h') ->
  (forall s h', P (Stop s) h' -> Q (Stop s) h') ->
  wp E (bind p f) Q h.
Proof.
  intros Hp Hd Hs. apply wp_bind. eapply wp_mono; [|exact Hp].
  intros [a|s] h' H; eauto.
Qed.

Lemma wp_conj {A} (p : prog A) (P Q : outcome A -> history -> Prop) h :
  wp E p P h -> wp E p Q h -> wp E p (fun o h' => P o h' /\ Q o h') h.
Proof. revert h. induction p; simpl; eauto. Qed.

(** Programs only add to the history. *)
Lemma wp_extends {A} (p : prog A) h : wp E p (fun _ h' => exists k, h' = k ++ h) h.
Proof.
  revert h. induction p as [a|s|X c k IH]; intros h; cbn [wp]; [by exists []..|].
  intros r _. eapply wp_mono; [|apply IH]. intros o h' [k' ->]. exists (k' ++ [Ev c r]).
  by rewrite <- app_assoc.
Qed.

(** A kernel whose replies are legal drives a program to an outcome that the
    program's specification allows. *)
Lemma wp_run {A} (K : kernel) (p : prog A) Q h :
  (forall h X (c : call X), E h X c (K h X c)) ->
  wp E p Q h -> Q (fst (run K p h)) (snd (run K p h)).
Proof. intros HK. revert h. induction p; simpl; eauto. Qed.

End Logic.

(** [since h P] is a postcondition on what happened since [h]. *)
Definition since {A} (h : history) (P : outcome A -> history -> Prop) (o : outcome A)
    (h' : history) : Prop := exists k, h' = k ++ h /\ P o k.

Lemma since_here {A} (h : history) (P : outcome A -> history -> Prop) o : P o [] -> since h P o h.
Proof. intros H. by exists []. Qed.

Lemma wp_env {A} (E E' : env) (p : prog A) Q h :
  (forall h X (c : call X) r, E' h X c r -> E h X c r) ->
  wp E p Q h -> wp E' p Q h.
Proof. intros HE. revert h. induction p; simpl; eauto. Qed.

Lemma bind_assoc {A B C} (p : prog A) (f : A -> prog B) (g : B -> prog C) Q E h :
  wp E (bind (bind p f) g) Q h <-> wp E (bind p (fun a => bind (f a) g)) Q h.
Proof.
  revert h. induction p as [a|s|X c k IH]; intros h; simpl; [done..|].
  split; intros H' r Hr; apply IH; auto.
Qed.

Lemma run_bind {A B} K (p : prog A) (f : A -> prog B) h :
  run K (bind p f) h =
  match run K p h with
  | (Done a, h') => run K (f a) h'
  | (Stop s, h') => (Stop s, h')
  end.
Proof. revert h. induction p; simpl; auto. Qed.

(** Programs that make only some calls. *)
Fixpoint only {A} (P : forall X, call X -> Prop) (p : prog A) : Prop :=
  match p with Ret _ | Halt _ => True | Sys c k => P _ c /\ forall r, only P (k r) end.

Lemma only_bind {A B} P (p : prog A) (f : A -> prog B) : only P p -> (forall a, only P (f a)) -> only P (bind p f).
Proof. intros Hp Hf. induction p as [a|s|X c k IH]; simpl in *; [apply Hf|done|]. destruct Hp as [Hc Hk]. split; [done|]. intros r. by apply IH. Qed.

Lemma wp_only {A} E P (p : prog A) h :
  only P p -> wp E p (fun _ h' => exists k, h' = k ++ h /\ Forall (fun e => match e with Ev c _ => P _ c end) k) h.
Proof.
  revert h. induction p as [a|s|X c k IH]; intros h Hp; cbn [wp]; [by exists []..|].
  destruct Hp as [Hc Hk]. intros r _. eapply wp_mono; [|by apply IH]. intros o h' (k' & -> & Hall). exists (k' ++ [Ev c r]).
  rewrite <- app_assoc. split; [done|]. apply Forall_app. split; [done|by apply Forall_singleton].
Qed.

(** ** Documented behaviour of the calls *)

(** The descriptor that a call hands out. *)
Definition opened {X} (c : call X) : X -> option Z :=
  match c in call X return X -> option Z with
  | Open _ _ _ | Socket _ _ _ | Inotify_init | Posix_openpt _ | Mq_open _ _ _ | Shm_open _ _ _ | Epoll_create _ =>
      fun r => match r with Ok fd => Some fd | Err _ => None end
  | Accept _ => fun r => match r with Ok (fd, _) => Some fd | Err _ => None end
  | _ => fun _ => None
  end.

(** The descriptor that a call releases; on Linux [close] releases it even
    when it reports an error. *)
Definition closed {X} (c : call X) : option Z :=
  match c with Close fd | Mq_close fd => Some fd | _ => None end.

(** The descriptors the process opened and did not close yet. *)
Fixpoint open_fds (h : history) : gset Z :=
  match h with
  | [] => ∅
  | Ev c r :: h' =>
      match opened c r, closed c with
      | Some fd, _ => {[fd]} ∪ open_fds h'
      | None, Some fd => open_fds h' ∖ {[fd]}
      | None, None => open_fds h'
      end
  end.

Definition err_ok {A} (P : A -> Prop) (r : res A) : Prop :=
  match r with Ok a => P a | Err e => 0 < e end.

(** [read] and [msgrcv] never return more than was asked for, [write] reports a
    count between 0 and the size of the request, a new descriptor is not open
    already, watch descriptors, queue and process identifiers are not negative,
    the slots that realloc adds are as many as were asked for, and an error has
    a positive [errno]. *)
Definition posix : env := fun h X c =>
  match c in call X return X -> Prop with
  | Read _ n => err_ok (fun d => Z.of_nat (length d) <= n)
  | Write _ d => err_ok (fun k => 0 <= k <= Z.of_nat (length d))
  | Open _ _ _ | Socket _ _ _ | Inotify_init | Posix_openpt _ | Epoll_create _ => err_ok (fun fd => 0 <= fd /\ fd ∉ open_fds h)
  | Accept _ => err_ok (fun p => 0 <= fst p /\ fst p ∉ open_fds h)
  | Inotify_add_watch _ _ _ => err_ok (fun wd => 0 <= wd)
  | Msgrcv _ n _ _ => err_ok (fun m => Z.of_nat (length (mtext m)) <= n)
  | Fork => err_ok (fun pid => 0 <= pid)
  | Execve _ _ _ => fun r => match r with Some e => 0 < e | None => True end
  | Getpid => fun pid => 0 < pid <= INT_MAX
  | Realloc_slots n => fun r => match r with Some g => length g = n | None => True end
  | Fopen _ _ | Fcntl_getfd _ | Semget _ _ _ | Semctl_getval _ _ | Msgget _ _ =>
      err_ok (fun v => 0 <= v)
  | Close _ | Ftruncate _ _ | Fcntl_setfd _ _ | Mkfifo _ _ | Inotify_rm_watch _ _
  | Atexit _ | Connect _ _ _ | Bind _ _ _ | Setsockopt_reuseaddr _ _ | Listen _ _
  | Semop _ _ | Semctl_setval _ _ _ | Semctl_rmid _ | Msgsnd _ _ _ | Msgctl_rmid _ =>
      err_ok (fun _ => True)
  | Fcntl_lock _ _ _ => err_ok (fun _ => True)
  | Lstat _ => err_ok (fun _ => True)
  | Select _ => err_ok (fun _ => True)
  | Waitpid _ _ => err_ok (fun _ => True)
  | Sigaction _ _ => err_ok (fun _ => True)
  | Pipe => err_ok (fun p => 0 <= fst p /\ 0 <= snd p /\ fst p <> snd p /\
                             fst p ∉ open_fds h /\ snd p ∉ open_fds h)
  | Dup2 _ newfd => err_ok (fun fd => fd = newfd)
  | Getuid | Getgid | Geteuid | Getegid => fun id => 0 <= id < 2 ^ 32
  | Clone _ => err_ok (fun pid => 0 < pid <= INT_MAX)
  | Execvp _ _ | Execv _ _ => fun r => match r with Some e => 0 < e | None => True end
  | Prctl _ _ _ | Ioctl _ _ | Cap_get_pid _ | Cap_get_proc | Setsid | Lseek _ _ _ | Sendto _ _ _ =>
      err_ok (fun _ => True)
  | Setresuid _ _ _ | Seccomp _ _ _ | Cap_set_flag _ _ _ _ | Cap_set_proc _ | Cap_free _
  | Set_env _ _ _ | Chdir _ | Mq_notify _ | Tcsetattr _ _ _ | Grantpt _ | Unlockpt _ | Tiocswinsz _ _
  | Setsockopt_passcred _ _ | Remove _ | Shutdown _ _ | Setpgid _ _ | Tcsetpgrp _ _ => err_ok (fun _ => True)
  | Getsockopt_peercred _ => err_ok (fun _ => True)
  | Recvfrom _ n => err_ok (fun r => Z.of_nat (length (fst r)) <= n)
  | Inet_ntop6 _ => err_ok (fun _ => True)
  | Inet_pton6 _ => fun r => match r with Some a => length a = 16%nat | None => True end
  | Sendmsg _ d _ => err_ok (fun k => 0 <= k <= Z.of_nat (length d))
  | Recvmsg _ n m => err_ok (fun r => Z.of_nat (length (fst (fst r))) <= n /\ Z.of_nat (length (snd (fst r))) <= m)
  | Cap_to_text _ | Inet_ntop _ | Ptsname _ => err_ok (fun _ => True)
  | Tiocgwinsz _ => err_ok (fun _ => True)
  | Fstat _ => err_ok (fun _ => True)
  | Fstat_mode _ => err_ok (fun _ => True)
  | Ftok _ _ | Shmget _ _ _ | Shmat _ _ _ => err_ok (fun _ => True)
  | Semctl_stat _ | Fstat_size _ => err_ok (fun n => 0 <= n)
  | Msgctl_stat _ => err_ok (fun _ => True)
  | Msgctl_set _ _ | Semctl_setall _ _ | Shmctl _ _ | Mq_close _ | Mq_send _ _ _ | Mq_unlink _ | Sem_init _ _ _
  | Sem_call _ _ | Sem_timedwait _ _ _ | Sem_unlink _ | Shm_unlink _ => err_ok (fun _ => True)
  | Mq_open _ _ _ | Shm_open _ _ _ => err_ok (fun fd => 0 <= fd /\ fd ∉ open_fds h)
  | Mq_getattr _ => err_ok (fun a => 0 < fst (fst a) /\ 0 < snd (fst a) /\ 0 <= snd a)
  | Mq_receive _ n => err_ok (fun r => Z.of_nat (length (fst r)) <= n)
  | Sem_open _ _ _ | Sem_getvalue _ | Mmap _ _ _ => err_ok (fun _ => True)
  | Load _ _ n => fun d => Z.of_nat (length d) = Z.max 0 n
  | Clock_realtime => err_ok (fun t => 0 <= snd t < 1000000000)
  | Tcgetattr _ => err_ok (fun _ => True)
  | Mkdir _ _ | Rmdir _ | Rename _ _ | Epoll_add _ _ _ | Unshare _ | Setns _ _ | Setresgid _ _ _ => err_ok (fun _ => True)
  | Setgroups _ | Msync _ _ => err_ok (fun _ => True)
  | Mmap_private _ _ _ => err_ok (fun _ => True)
  | Getgrouplist _ _ n => fun r => 0 < fst r /\ match snd r with Ok l => Z.of_nat (length l) = fst r /\ fst r <= n | Err e => 0 < e end
  | Cap_from_name _ => err_ok (fun cap => 0 <= cap)
  | Access path => fun r => match r with Ok _ => path <> None | Err e => 0 < e end
  | Random => fun r => 0 <= r < 2 ^ 31
  | Sigmask | Sigpending => err_ok (fun _ => True)
  | Epoll_wait _ n => err_ok (fun l => Z.of_nat (length l) <= n)
  | _ => fun _ => True
  end.

(** The kernel in which every call that can fail fails with [EIO]. *)
Definition failing_kernel : kernel := fun h X c =>
  match c in call X return X with
  | Out _ _ | Fflush _ | Fclose _ | Umask _ | Ualarm _ | Freeaddrinfo _ => tt
  | Fopen _ _ | Open _ _ _ | Write _ _ | Fcntl_getfd _ | Inotify_init
  | Inotify_add_watch _ _ _ | Fork | Socket _ _ _ | Semget _ _ _ | Semctl_getval _ _
  | Msgget _ _ => Err EIO
  | Close _ | Ftruncate _ _ | Fcntl_setfd _ _ | Mkfifo _ _ | Inotify_rm_watch _ _
  | Atexit _ | Connect _ _ _ | Bind _ _ _ | Setsockopt_reuseaddr _ _ | Listen _ _
  | Semop _ _ | Semctl_setval _ _ _ | Semctl_rmid _ | Msgsnd _ _ _ | Msgctl_rmid _ => Err EIO
  | Getenv _ | Strftime_now _ => None
  | Alloc _ => false
  | Realloc_slots _ => None
  | Read _ _ => Err EIO
  | Fcntl_lock _ _ _ => Err EIO
  | Lstat _ => Err EIO
  | Nftw _ => ([], Err EIO)
  | Select _ => Err EIO
  | Getpid => 1
  | Waitpid _ _ => Err EIO
  | Execve _ _ _ => Some ENOENT
  | Sigprocmask _ _ => []
  | Sigaction _ _ => Err EIO
  | Getaddrinfo _ _ _ => inl 1
  | Getnameinfo _ _ => None
  | Accept _ => Err EIO
  | Msgrcv _ _ _ _ => Err EIO
  | Getaddrinfo_host _ _ => inl 1
  | Getuid | Getgid | Geteuid | Getegid | Getppid | Shell _ | Getpgrp => 1
  | Wordexp _ => inl 1
  | Sysconf_open_max => -1
  | Fgets _ _ => None
  | Execvp _ _ | Execv _ _ => Some ENOENT
  | Pipe => Err EIO
  | Prctl _ _ _ | Ioctl _ _ | Cap_get_pid _ | Cap_get_proc | Setsid | Lseek _ _ _ | Sendto _ _ _
  | Clone _ | Dup2 _ _ => Err EIO
  | Setresuid _ _ _ | Seccomp _ _ _ | Cap_set_flag _ _ _ _ | Cap_set_proc _ | Cap_free _
  | Set_env _ _ _ | Chdir _ | Mq_notify _ | Tcsetattr _ _ _ | Grantpt _ | Unlockpt _ | Tiocswinsz _ _
  | Setsockopt_passcred _ _ | Remove _ | Shutdown _ _ | Setpgid _ _ | Tcsetpgrp _ _ => Err EIO
  | Getsockopt_peercred _ => Err EIO
  | Recvfrom _ _ => Err EIO
  | Syslog _ => tt
  | Inet_ntop6 _ => Err EIO
  | Inet_pton6 _ => None
  | Sendmsg _ _ _ => Err EIO
  | Recvmsg _ _ _ => Err EIO
  | Posix_openpt _ => Err EIO
  | Cap_to_text _ | Inet_ntop _ | Ptsname _ => Err EIO
  | Tiocgwinsz _ => Err EIO
  | Fstat _ => Err EIO
  | Fstat_mode _ => Err EIO
  | Ftok _ _ | Shmget _ _ _ | Shmat _ _ _ | Semctl_stat _ | Fstat_size _ | Mq_open _ _ _ | Shm_open _ _ _
  | Sem_open _ _ _ | Sem_getvalue _ | Mmap _ _ _ => Err EIO
  | Msgctl_stat _ => Err EIO
  | Msgctl_set _ _ | Semctl_setall _ _ | Shmctl _ _ | Mq_close _ | Mq_send _ _ _ | Mq_unlink _ | Sem_init _ _ _
  | Sem_call _ _ | Sem_timedwait _ _ _ | Sem_unlink _ | Shm_unlink _ => Err EIO
  | Mq_getattr _ => Err EIO
  | Mq_receive _ _ => Err EIO
  | Load _ _ n => replicate (Z.to_nat n) NUL
  | Store _ _ _ | Delay _ => tt
  | Clock_realtime => Err EIO
  | Tcgetattr _ => Err EIO
  | Mkdir _ _ | Rmdir _ | Rename _ _ | Access _ | Epoll_add _ _ _ | Unshare _ | Setns _ _ | Setresgid _ _ _ => Err EIO
  | Setgroups _ | Msync _ _ => Err EIO
  | Mmap_private _ _ _ => Err EIO
  | Getpwnam _ => None
  | Getgrouplist _ _ _ => (1, Err EIO)
  | Cap_from_name _ => Err EINVAL
  | Random => 0
  | Sigmask | Sigpending => Err EIO
  | Pause => tt
  | Epoll_create _ => Err EIO
  | Epoll_wait _ _ => Err EIO
  end.

(** Every call has a legal reply after every history, so no specification
    holds for want of a kernel. *)
Lemma posix_inhabited h X (c : call X) : posix h X c (failing_kernel h X c).
Proof. destruct c; simpl; try done; rewrite ?length_replicate; unfold EIO, ENOENT, EINVAL, INT_MAX; lia. Qed.

Lemma open_fds_opened {X} (c : call X) r fd h :
  opened c r = Some fd -> open_fds (Ev c r :: h) = {[fd]} ∪ open_fds h.
Proof. intros H. simpl. by rewrite H. Qed.

(** ** Automation *)

(** Enter a call: name its reply and keep what is known about it. *)
Ltac wp_sys r Hr := apply wp_sys_bind; intros r Hr; cbn in Hr.
