(* ===== verification/LibErrors.v ===== *)
(** * lib/error_functions.c: the error reporting routines

    Every program of the collection reports errors through these functions.
    A call [errExit(format, ...)] is modelled after the formatting: the
    argument [msg] is the formatted text, and [err] the value of [errno] at the
    call.  The table [ename] is generated at build time (lib/Build_ename.sh) and
    [strerror] belongs to the C library: both are parameters. *)

From S2P Require Import Prelude Sys.

Class ErrText := {
  ename : Z -> list ascii;
  MAX_ENAME : Z;
  strerror : Z -> list ascii
}.

(** A small instance, for examples. *)
Definition demo_text : ErrText := {|
  ename := fun e => if e =? ENOENT then $"ENOENT" else $"EOTHER";
  MAX_ENAME := 133;
  strerror := fun e => if e =? ENOENT then $"No such file or directory" else $"Other error"
|}.

Definition BUF_SIZE : nat := 500.

Section ErrorFunctions.
Context {T : ErrText}.

Definition terminate {A} (useExit3 : bool) : prog A :=
  s <- sys (Getenv ($"EF_DUMPCORE")) ;;
  match s with
  | Some (_ :: _) => Halt Aborted
  | _ => if useExit3 then Halt (Exit EXIT_FAILURE) else Halt (Exit_ EXIT_FAILURE)
  end.

Definition errText (useErr : bool) (err : Z) : list ascii :=
  if useErr
  then snprintf BUF_SIZE
         ($" [" ++ (if (0 <? err) && (err <=? MAX_ENAME) then ename err else $"?UNKNOWN?")
            ++ $" " ++ strerror err ++ $"]")
  else snprintf BUF_SIZE ($":").

Definition errorLine (useErr : bool) (err : Z) (msg : list ascii) : list ascii :=
  snprintf BUF_SIZE
    ($"ERROR" ++ errText useErr err ++ $" " ++ snprintf BUF_SIZE msg ++ [NL]).

Definition outputError (useErr : bool) (err : Z) (flushStdout : bool)
    (msg : list ascii) : prog unit :=
  (if flushStdout then sys (Fflush Stdout) else Ret tt) ;;;
  print Stderr (errorLine useErr err msg) ;;;
  sys (Fflush Stderr).

Definition errMsg (err : Z) (msg : list ascii) : prog unit :=
  outputError true err true msg.

Definition errExit {A} (err : Z) (msg : list ascii) : prog A :=
  outputError true err true msg ;;; terminate true.

Definition err_exit {A} (err : Z) (msg : list ascii) : prog A :=
  outputError true err false msg ;;; terminate false.

Definition errExitEN {A} (errnum : Z) (msg : list ascii) : prog A :=
  outputError true errnum true msg ;;; terminate true.

Definition fatal {A} (msg : list ascii) : prog A :=
  outputError false 0 true msg ;;; terminate true.

Definition usageErr {A} (msg : list ascii) : prog A :=
  sys (Fflush Stdout) ;;;
  print Stderr ($"Usage: ") ;;; print Stderr msg ;;;
  sys (Fflush Stderr) ;;;
  Halt (Exit EXIT_FAILURE).

Definition cmdLineErr {A} (msg : list ascii) : prog A :=
  sys (Fflush Stdout) ;;;
  print Stderr ($"Command-line usage error: ") ;;; print Stderr msg ;;;
  sys (Fflush Stderr) ;;;
  Halt (Exit EXIT_FAILURE).

(** perror(3), and the macro [errExit] of the programs that do not use the
    library: perror() and exit(). *)
Definition perror (err : Z) (msg : list ascii) : prog unit :=
  print Stderr (msg ++ $": " ++ strerror err ++ [NL]).

Definition perrorExit {A} (err : Z) (msg : list ascii) : prog A :=
  perror err msg ;;; Halt (Exit EXIT_FAILURE).

(** ** What the functions do *)

Definition dumps_core (s : option (list ascii)) : bool :=
  match s with Some (_ :: _) => true | _ => false end.

Lemma wp_terminate {A} (E : env) (useExit3 : bool) (Q : outcome A -> history -> Prop) h :
  (forall s, Q (Stop (if dumps_core s then Aborted
                      else if useExit3 then Exit EXIT_FAILURE else Exit_ EXIT_FAILURE))
               (Ev (Getenv ($"EF_DUMPCORE")) s :: h)) ->
  wp E (terminate useExit3) Q h.
Proof.
  intros HQ. simpl. intros s _. specialize (HQ s).
  destruct s as [[|c s]|]; simpl in *; destruct useExit3; done.
Qed.

(** The events of one report, the latest first. *)
Definition report (useErr : bool) (err : Z) (flushStdout : bool) (msg : list ascii) : history :=
  [Ev (Fflush Stderr) tt; Ev (Out Stderr (errorLine useErr err msg)) tt]
  ++ if flushStdout then [Ev (Fflush Stdout) tt] else [].

Lemma wp_outputError (E : env) useErr err flushStdout msg Q h :
  Q (Done tt) (report useErr err flushStdout msg ++ h) ->
  wp E (outputError useErr err flushStdout msg) Q h.
Proof.
  intros HQ. unfold outputError, report in *.
  destruct flushStdout; simpl in *; repeat (intros [] _); done.
Qed.

(** An error exit of the library: whatever happens, the process stops, with
    status 1 or a core dump, so a caller may rely on the code after it being
    unreachable. *)
Definition stops_failing {A} (o : outcome A) : Prop :=
  o = Stop Aborted \/ o = Stop (Exit EXIT_FAILURE) \/ o = Stop (Exit_ EXIT_FAILURE).

Lemma errorLine_length useErr err msg :
  (length (errorLine useErr err msg) < BUF_SIZE)%nat.
Proof. unfold errorLine, snprintf, BUF_SIZE. rewrite length_take. lia. Qed.

Lemma errorLine_prefix useErr err msg :
  take 5 (errorLine useErr err msg) = $"ERROR".
Proof. reflexivity. Qed.

Lemma wp_errExit {A} (E : env) err msg (Q : outcome A -> history -> Prop) h :
  (forall o h', stops_failing o -> Q o h') -> wp E (errExit err msg) Q h.
Proof.
  intros HQ. unfold errExit. apply wp_bind, wp_outputError, wp_terminate.
  intros s. apply HQ. unfold stops_failing. destruct (dumps_core s); auto.
Qed.

(** What an error exit does before: output to stderr, flushing, getenv(). *)
Definition reporting (e : event) : Prop :=
  match e with
  | Ev c _ => match c with Out Stderr _ | Fflush _ | Getenv _ => True | _ => False end
  end.

Lemma wp_reporting {A} (E : env) useErr err fl msg useExit3 (Q : outcome A -> history -> Prop) h :
  (forall o k, stops_failing o -> Forall reporting k -> Q o (k ++ h)) ->
  wp E (outputError useErr err fl msg ;;; terminate useExit3) Q h.
Proof.
  intros HQ. apply wp_bind, wp_outputError, wp_terminate. intros s.
  apply (HQ _ (Ev (Getenv ($"EF_DUMPCORE")) s :: report useErr err fl msg)).
  - unfold stops_failing. destruct (dumps_core s), useExit3; auto.
  - unfold report. destruct fl; repeat constructor.
Qed.

Lemma wp_errExit_trace {A} (E : env) err msg (Q : outcome A -> history -> Prop) h :
  (forall o k, stops_failing o -> Forall reporting k -> Q o (k ++ h)) -> wp E (errExit err msg) Q h.
Proof. apply wp_reporting. Qed.

Lemma wp_perrorExit {A} (E : env) err msg (Q : outcome A -> history -> Prop) h :
  (forall o k, stops_failing o -> Forall reporting k -> Q o (k ++ h)) -> wp E (perrorExit err msg) Q h.
Proof.
  intros HQ. intros [] _. apply (HQ _ [_]); [unfold stops_failing; auto|]. by repeat constructor.
Qed.

Lemma wp_err_exit {A} (E : env) err msg (Q : outcome A -> history -> Prop) h :
  (forall o h', stops_failing o -> Q o h') -> wp E (err_exit err msg) Q h.
Proof.
  intros HQ. unfold err_exit. apply wp_bind, wp_outputError, wp_terminate.
  intros s. apply HQ. unfold stops_failing. destruct (dumps_core s); auto.
Qed.

Lemma wp_fatal {A} (E : env) msg (Q : outcome A -> history -> Prop) h :
  (forall o h', stops_failing o -> Q o h') -> wp E (fatal msg) Q h.
Proof.
  intros HQ. unfold fatal. apply wp_bind, wp_outputError, wp_terminate.
  intros s. apply HQ. unfold stops_failing. destruct (dumps_core s); auto.
Qed.

Lemma wp_usageErr {A} (E : env) msg (Q : outcome A -> history -> Prop) h :
  (forall o h', stops_failing o -> Q o h') -> wp E (usageErr msg) Q h.
Proof. intros HQ. simpl. repeat (intros [] _). apply HQ. unfold stops_failing. auto. Qed.

Lemma wp_cmdLineErr {A} (E : env) msg (Q : outcome A -> history -> Prop) h :
  (forall o h', stops_failing o -> Q o h') -> wp E (cmdLineErr msg) Q h.
Proof. intros HQ. simpl. repeat (intros [] _). apply HQ. unfold stops_failing. auto. Qed.

(** [errExit] never returns.  It flushes stdout before it writes exactly
    one message to stderr, the message begins with ERROR and fits the 500-byte
    buffer, and the process then dumps core if EF_DUMPCORE is set to a nonempty
    string and calls exit(EXIT_FAILURE) otherwise; [err_exit] does the same
    without flushing stdout and with _exit. *)
Lemma error_exits (A : Type) (E : env) err msg h :
  wp E (errExit (A:=A) err msg) (fun o h' => exists s,
    h' = Ev (Getenv ($"EF_DUMPCORE")) s :: report true err true msg ++ h /\
    o = Stop (if dumps_core s then Aborted else Exit EXIT_FAILURE)) h /\
  wp E (err_exit (A:=A) err msg) (fun o h' => exists s,
    h' = Ev (Getenv ($"EF_DUMPCORE")) s :: report true err false msg ++ h /\
    o = Stop (if dumps_core s then Aborted else Exit_ EXIT_FAILURE)) h /\
  take 5 (errorLine true err msg) = $"ERROR" /\
  (length (errorLine true err msg) < BUF_SIZE)%nat.
Proof.
  repeat split; try apply errorLine_length;
    apply wp_bind, wp_outputError, wp_terminate; intros s; exists s; done.
Qed.

End ErrorFunctions.

#[export] Hint Resolve wp_errExit wp_err_exit wp_fatal wp_usageErr wp_cmdLineErr : tlpi.

(** ** Programs that only report an error and end *)

Definition failure (h : halt) : Prop := h = Aborted \/ h = Exit EXIT_FAILURE \/ h = Exit_ EXIT_FAILURE.

Definition quiet_call X (c : call X) : Prop := match c with Out Stderr _ | Fflush _ | Getenv _ => True | _ => False end.

(** A program that reports an error and ends the process. *)
Fixpoint dead {A} (p : prog A) : Prop :=
  match p with Ret _ => False | Halt h => failure h | Sys c k => quiet_call _ c /\ forall r, dead (k r) end.

Lemma dead_bind {A B} (p : prog A) (f : A -> prog B) : dead p -> dead (bind p f).
Proof. induction p as [a|h|X c k IH]; cbn; [done..|]. intros [Hc Hk]. split; [done|]. intros r. by apply IH. Qed.

Section Dead.
Context {T : ErrText}.

Lemma dead_errExit A e msg : dead (errExit (A := A) e msg).
Proof. do 3 (split; [exact I|intros []]). split; [exact I|]. intros [[|]|]; cbn; unfold failure; auto. Qed.

Lemma dead_usageErr A msg : dead (usageErr (A := A) msg).
Proof. do 4 (split; [exact I|intros []]). cbn; unfold failure; auto. Qed.

Lemma dead_fatal A msg : dead (fatal (A := A) msg).
Proof. do 3 (split; [exact I|intros []]). split; [exact I|]. intros [[|]|]; cbn; unfold failure; auto. Qed.
End Dead.
