(* ===== verification/GetNum.v ===== *)
(** * lib/get_num.c: numeric command-line arguments

    [getLong] and [getInt] convert an argument or end the process with a
    diagnostic.  An argument is [None] for a null pointer. *)

From S2P Require Import Prelude Sys LibErrors.

Definition GN_NONNEG : Z := 1.
Definition GN_GT_0 : Z := 2.
Definition GN_ANY_BASE : Z := 64.
Definition GN_BASE_8 : Z := 128.
Definition GN_BASE_16 : Z := 256.

Definition gnFail {A} (fname msg : list ascii) (arg name : option (list ascii)) : prog A :=
  print Stderr (fname ++ $" error") ;;;
  (match name with
   | Some n => print Stderr ($" (in " ++ n ++ $")")
   | None => Ret tt
   end) ;;;
  print Stderr ($": " ++ msg ++ [NL]) ;;;
  (match arg with
   | Some ((_ :: _) as a) => print Stderr ($"        offending text: " ++ a ++ [NL])
   | _ => Ret tt
   end) ;;;
  Halt (Exit EXIT_FAILURE).

Definition gn_base (flags : Z) : Z :=
  if flag flags GN_ANY_BASE then 0
  else if flag flags GN_BASE_8 then 8
  else if flag flags GN_BASE_16 then 16 else 10.

Definition getNum (fname : list ascii) (arg : option (list ascii)) (flags : Z)
    (name : option (list ascii)) : prog Z :=
  match arg with
  | None | Some [] => gnFail fname ($"null or empty string") arg name
  | Some s =>
      let r := strtol s (gn_base flags) in
      if st_erange r then gnFail fname ($"strtol() failed") arg name
      else match st_end r with
      | _ :: _ => gnFail fname ($"nonnumeric characters") arg name
      | [] =>
          let v := st_val r in
          if flag flags GN_NONNEG && (v <? 0)
          then gnFail fname ($"negative value not allowed") arg name
          else if flag flags GN_GT_0 && (v <=? 0)
          then gnFail fname ($"value must be > 0") arg name
          else Ret v
      end
  end.

Definition getLong (arg : option (list ascii)) (flags : Z) (name : option (list ascii)) : prog Z :=
  getNum ($"getLong") arg flags name.

Definition getInt (arg : option (list ascii)) (flags : Z) (name : option (list ascii)) : prog Z :=
  res <- getNum ($"getInt") arg flags name ;;
  if (res >? INT_MAX) || (res <? INT_MIN)
  then gnFail ($"getInt") ($"integer out of range") arg name
  else Ret res.

(** ** What an acceptable argument is

    The grammar of a decimal argument: white space, an optional sign, digits. *)

Definition value (ds : list ascii) : Z :=
  fold_left (fun v c => v * 10 + digit_val c) ds 0.

Inductive sign_text : list ascii -> bool -> Prop :=
| NoSign : sign_text [] false
| Plus : sign_text ["+"%char] false
| Minus : sign_text ["-"%char] true.

Inductive numeral (s : list ascii) (v : Z) : Prop :=
| Numeral (sp sg ds : list ascii) (neg : bool) :
    s = sp ++ sg ++ ds ->
    Forall (fun c => isspace c = true) sp ->
    sign_text sg neg ->
    ds <> [] -> Forall (fun c => isdigit c = true) ds ->
    v = (if neg then - value ds else value ds) ->
    numeral s v.

(** ** Lemmas *)

Lemma isdigit_digit_val c : isdigit c = true <-> digit_val c < 10.
Proof.
  split; intros Hc.
  - unfold digit_val, isdigit in *. rewrite Hc. unfold in_range in Hc.
    change (ord "0") with 48 in Hc. change (ord "9") with 57 in Hc. lia.
  - destruct (isdigit c) eqn:Hd; [done|]. apply nondigit_val in Hd. lia.
Qed.

Lemma digits_all ds acc :
  Forall (fun c => isdigit c = true) ds ->
  digits 10 acc ds = (fold_left (fun v c => v * 10 + digit_val c) ds acc, length ds, []).
Proof.
  intros Hds. revert acc. induction Hds as [|c ds Hc _ IH]; intros acc; simpl; [done|].
  apply isdigit_digit_val in Hc. zcase; [|lia]. by rewrite IH.
Qed.

Lemma digits_end base acc s v n :
  base = 10 -> digits base acc s = (v, n, []) ->
  Forall (fun c => isdigit c = true) s /\ n = length s /\
  v = fold_left (fun v c => v * 10 + digit_val c) s acc.
Proof.
  intros ->. revert acc v n. induction s as [|c s IH]; intros acc v n; simpl; [naive_solver|].
  zcase; [|done]. destruct (digits 10 _ s) as [[v' n'] r] eqn:Hd. intros [= <- <- ->].
  destruct (IH _ _ _ Hd) as (? & ? & ?). split_and!; [|lia|done].
  constructor; [by apply isdigit_digit_val|done].
Qed.

Lemma skip_space_app sp s :
  Forall (fun c => isspace c = true) sp -> skip_space (sp ++ s) = skip_space s.
Proof. induction 1 as [|c sp Hc _ IH]; simpl; [done|]. by rewrite Hc. Qed.

Lemma skip_space_split s :
  exists sp, s = sp ++ skip_space s /\ Forall (fun c => isspace c = true) sp.
Proof.
  induction s as [|c s IH]; simpl; [by exists []|].
  destruct (isspace c) eqn:Hc; [|by exists []].
  destruct IH as (sp & Hs & Hsp). exists (c :: sp). split; [by rewrite Hs at 1|by constructor].
Qed.

Lemma digit_not_special c :
  isdigit c = true ->
  isspace c = false /\ Ascii.eqb c "-" = false /\ Ascii.eqb c "+" = false.
Proof.
  intros Hc. assert (ord c = 32 \/ 9 <= ord c <= 13 -> False) as Hn.
  { unfold isdigit, in_range in Hc. change (ord "0") with 48 in Hc. lia. }
  split_and!.
  - unfold isspace. repeat zcase; simpl; naive_solver lia.
  - by destruct (Ascii.eqb_spec c "-"); subst.
  - by destruct (Ascii.eqb_spec c "+"); subst.
Qed.

(** [strtol] in base 10 accepts the whole of [s] exactly when [s] is a numeral. *)
Lemma strtol_numeral s v :
  is_long v -> s <> [] -> strtol s 10 = Strtol v [] false <-> numeral s v.
Proof.
  intros Hv Hs0. unfold strtol. split.
  - destruct (skip_space_split s) as (sp & Hs & Hsp).
    destruct (sign_of (skip_space s)) as [neg s1] eqn:Hsg. simpl.
    destruct (digits 10 0 s1) as [[u n] rest] eqn:Hd.
    destruct n as [|n]; [by intros [= _ ->]|].
    repeat zcase; intros [= <- ->]; try (unfold is_long in *; lia).
    apply digits_end in Hd as (Hds & Hn & ->); [|done].
    assert (s1 <> []) by (by destruct s1).
    assert (exists sg, skip_space s = sg ++ s1 /\ sign_text sg neg) as (sg & Heq & Hsgt).
    { destruct (skip_space s) as [|c t]; simpl in Hsg; [naive_solver|].
      destruct (Ascii.eqb_spec c "-") as [->|];
        [injection Hsg as <- <-; by exists ["-"%char]; split; [|apply Minus]|].
      destruct (Ascii.eqb_spec c "+") as [->|]; injection Hsg as <- <-;
        [by exists ["+"%char]; split; [|apply Plus]|by exists []; split; [|apply NoSign]]. }
    exists sp sg s1 neg; [|done..]. by rewrite Hs at 1; rewrite Heq.
  - intros [sp sg ds neg -> Hsp Hsg Hne Hds ->].
    destruct ds as [|d ds]; [done|]. pose proof (Forall_inv Hds) as Hd.
    destruct (digit_not_special d Hd) as (H1 & H2 & H3).
    rewrite skip_space_app by done.
    assert (sign_of (skip_space (sg ++ d :: ds)) = (neg, d :: ds)) as ->.
    { destruct Hsg; simpl; rewrite ?H1; simpl; rewrite ?H2, ?H3; done. }
    change (base_of 10 (d :: ds)) with (10, d :: ds). cbv beta iota zeta.
    rewrite digits_all by done. cbn [length]. fold (value (d :: ds)) in *.
    unfold is_long in *. repeat zcase; try lia. done.
Qed.

Lemma strtol_range s base v r : strtol s base = Strtol v r false -> is_long v.
Proof.
  unfold strtol, is_long, LONG_MIN, LONG_MAX. destruct (sign_of _) as [neg s1].
  destruct (base_of base s1) as [b s2]. destruct (digits b 0 s2) as [[u n] rest].
  destruct n; [intros [= <- _]; lia|]. repeat zcase; intros [= <- _]; lia.
Qed.

(** When the library accepts [s] with [flags]. *)
Definition accepted (s : list ascii) (flags v : Z) : Prop :=
  s <> [] /\ strtol s (gn_base flags) = Strtol v [] false /\
  (flag flags GN_NONNEG = true -> 0 <= v) /\ (flag flags GN_GT_0 = true -> 0 < v).

Lemma accepted_fun s flags v v' : accepted s flags v -> accepted s flags v' -> v = v'.
Proof. intros (_ & H1 & _) (_ & H2 & _). congruence. Qed.

Lemma getNum_cases fname arg flags name :
  (exists s v, arg = Some s /\ accepted s flags v /\ getNum fname arg flags name = Ret v) \/
  (exists msg, getNum fname arg flags name = gnFail fname msg arg name) /\
  (forall s v, arg = Some s -> ~ accepted s flags v).
Proof.
  unfold getNum, accepted. destruct arg as [[|c s]|];
    [right; split; [eauto|by intros ? v [= <-] [? _]]| |right; split; [eauto|done]].
  destruct (strtol (c :: s) (gn_base flags)) as [v rest [|]] eqn:Hst; simpl;
    [right; split; [eauto|intros ? v' [= <-]; rewrite Hst; naive_solver]|].
  destruct rest as [|x rest];
    [|right; split; [eauto|intros ? v' [= <-]; rewrite Hst; naive_solver]].
  destruct (flag flags GN_NONNEG), (flag flags GN_GT_0); simpl; repeat zcase; simpl.
  all: first
    [ left; exists (c :: s), v; rewrite Hst; split_and!; [done..| | |done]; intros; (done || lia)
    | right; split; [by eauto|]; intros ? v' [= <-]; rewrite Hst;
      intros (_ & [= <-] & H1 & H2); first [specialize (H1 eq_refl)|specialize (H2 eq_refl)]; lia
    | right; split; [by eauto|]; intros ? v' [= <-]; rewrite Hst;
      intros (_ & [= <-] & H1 & H2); specialize (H2 eq_refl); lia ].
Qed.

Lemma wp_gnFail {A} (E : env) fname msg arg name (Q : outcome A -> history -> Prop) h :
  (forall h', Q (Stop (Exit EXIT_FAILURE)) h') -> wp E (gnFail fname msg arg name) Q h.
Proof.
  intros HQ. unfold gnFail.
  destruct name, arg as [[|]|]; simpl; repeat (intros [] _); apply HQ.
Qed.

Lemma gnFail_neq {A} fname msg arg name (v : A) : gnFail fname msg arg name <> Ret v.
Proof. done. Qed.

(** [getInt] returns a value exactly when the argument is a nonempty string
    that strtol consumes whole, without overflow, in the base chosen by the
    flags (any base before octal before hexadecimal before decimal), whose sign
    the flags allow and which fits an int; in every other case, a null pointer
    included, it is the diagnostic of [gnFail]. *)
Lemma getInt_correct arg flags name :
  (exists s v, arg = Some s /\ accepted s flags v /\ is_int v /\ getInt arg flags name = Ret v) \/
  (exists msg, getInt arg flags name = gnFail ($"getInt") msg arg name) /\
  (forall s v, arg = Some s -> accepted s flags v -> ~ is_int v).
Proof.
  unfold getInt.
  destruct (getNum_cases ($"getInt") arg flags name) as [(s & v & -> & Ha & ->)|[[msg ->] Hno]].
  - simpl. unfold is_int.
    destruct ((v >? INT_MAX) || (v <? INT_MIN)) eqn:Hout.
    + right. split; [eauto|]. intros ? v' [= <-] Ha'.
      rewrite (accepted_fun _ _ _ _ Ha' Ha). lia.
    + left. exists s, v. split_and!; auto; lia.
  - right. split; [|intros s v Hs Ha; by destruct (Hno s v Hs)].
    exists msg. unfold gnFail. destruct name, arg as [[|]|]; done.
Qed.

(** With no flags, [getLong] returns [v] exactly when the argument is white
    space, an optional sign and at least one decimal digit, nothing else, and
    denotes [v], a value that fits a long. *)
Lemma getLong_decimal s v name :
  getLong (Some s) 0 name = Ret v <-> is_long v /\ numeral s v.
Proof.
  unfold getLong.
  destruct (getNum_cases ($"getLong") (Some s) 0 name)
    as [(s' & v' & [= <-] & (Hs & Hst & _) & ->)|[[msg ->] Hno]].
  - change (gn_base 0) with 10 in Hst. split.
    + intros [= <-]. assert (is_long v') by (by eapply strtol_range).
      split; [done|]. by apply strtol_numeral.
    + intros [Hv Hn]. apply strtol_numeral in Hn; [|done..]. congruence.
  - split; [intros Hc; by apply gnFail_neq in Hc|].
    intros [Hv Hn]. exfalso. apply (Hno s v eq_refl).
    assert (s <> []) by (destruct Hn as [sp sg ds neg -> _ _ Hne _ _]; by destruct sp, sg, ds).
    split_and!; [done| |done..]. change (gn_base 0) with 10. by apply strtol_numeral.
Qed.

(** [getInt] reads back the decimal text of every int. *)
Lemma getInt_roundtrip z name : is_int z -> getInt (Some (dec z)) 0 name = Ret z.
Proof.
  intros Hz. unfold getInt, getNum.
  assert (is_long z) as Hl.
  { unfold is_int, is_long, INT_MIN, INT_MAX, LONG_MIN, LONG_MAX in *. lia. }
  pose proof (strtol_dec z [] Hl ltac:(done)) as Hst. rewrite app_nil_r in Hst.
  change (gn_base 0) with 10. destruct (dec z) as [|c s] eqn:Hdec.
  { unfold strtol in Hst. simpl in Hst. injection Hst as Hst. subst. discriminate Hdec. }
  rewrite Hst. simpl. unfold is_int in Hz. repeat zcase; try lia. done.
Qed.


