(* ===== verification/InotifyCache.v ===== *)
(** * inotify/inotify_dtree.c: the cache of watched directories

    The program keeps, for the directory trees named on its command line, an
    array of watch descriptors with the pathname of each watched directory.
    This file models the global variables ([dt]), the cache, the list of root
    directories, and the functions that watch, rewrite, zap and rebuild
    subtrees; InotifyEvents.v models what drives them.

    Globals are passed explicitly.  A slot number is [None] where the C code
    returns -1.  A pathname is the C string in the [PATH_MAX]-byte array of its
    slot (a pathname of [PATH_MAX] bytes or more is a limitation that the
    program states). *)

From S2P Require Import Prelude Sys LibErrors.

Definition VB_BASIC : Z := 1.
Definition VB_NOISY : Z := 2.
Definition PATH_MAX : nat := 4096.
Definition ALLOC_INCR : nat := 200.

Definition IN_MOVED_FROM : Z := 0x40.
Definition IN_MOVED_TO : Z := 0x80.
Definition IN_CREATE : Z := 0x100.
Definition IN_DELETE_SELF : Z := 0x400.
Definition IN_MOVE_SELF : Z := 0x800.
Definition IN_UNMOUNT : Z := 0x2000.
Definition IN_Q_OVERFLOW : Z := 0x4000.
Definition IN_IGNORED : Z := 0x8000.
Definition IN_ONLYDIR : Z := 0x1000000.
Definition IN_ISDIR : Z := 0x40000000.
Definition O_CREAT : Z := 64.
Definition O_RDWR : Z := 2.

Record watch := Watch { wd : Z; path : list ascii }.

(** The global variables of the program. *)
Record dt := Dt {
  wlCache : list watch;
  rootDirPaths : list (option (list ascii));
  ignoreRootDirs : Z;
  dirCnt : Z;
  verboseMask : Z;
  checkCache : bool;
  dumpCache : bool;
  readBufferSize : Z;
  stopFile : list ascii;
  abortOnCacheProblem : bool;
  logfp : option Z;
  inotifyReadCnt : Z;
  reinitCnt : Z;
  overflowCnt : Z
}.

Definition set_wlCache (c : list watch) (s : dt) : dt :=
  Dt c (rootDirPaths s) (ignoreRootDirs s) (dirCnt s) (verboseMask s) (checkCache s)
     (dumpCache s) (readBufferSize s) (stopFile s) (abortOnCacheProblem s) (logfp s)
     (inotifyReadCnt s) (reinitCnt s) (overflowCnt s).

Definition set_roots (r : list (option (list ascii))) (ign : Z) (s : dt) : dt :=
  Dt (wlCache s) r ign (dirCnt s) (verboseMask s) (checkCache s)
     (dumpCache s) (readBufferSize s) (stopFile s) (abortOnCacheProblem s) (logfp s)
     (inotifyReadCnt s) (reinitCnt s) (overflowCnt s).

(** The counters: directories added, reads done, rebuilds, overflows. *)
Definition set_counts (dirs reads reinits overflows : Z) (s : dt) : dt :=
  Dt (wlCache s) (rootDirPaths s) (ignoreRootDirs s) dirs (verboseMask s) (checkCache s)
     (dumpCache s) (readBufferSize s) (stopFile s) (abortOnCacheProblem s) (logfp s)
     reads reinits overflows.

Definition set_dirCnt (n : Z) (s : dt) : dt :=
  set_counts n (inotifyReadCnt s) (reinitCnt s) (overflowCnt s) s.
Definition set_readCnt (n : Z) (s : dt) : dt :=
  set_counts (dirCnt s) n (reinitCnt s) (overflowCnt s) s.
Definition set_reinitCnt (n : Z) (s : dt) : dt :=
  set_counts (dirCnt s) (inotifyReadCnt s) n (overflowCnt s) s.
Definition set_overflowCnt (n : Z) (s : dt) : dt :=
  set_counts (dirCnt s) (inotifyReadCnt s) (reinitCnt s) n s.

(** The options that commands and the command line change. *)
Definition set_options (verbose : Z) (check dump : bool) (bufsize : Z) (stop : list ascii)
    (abrt : bool) (log : option Z) (s : dt) : dt :=
  Dt (wlCache s) (rootDirPaths s) (ignoreRootDirs s) (dirCnt s) verbose check dump bufsize
     stop abrt log (inotifyReadCnt s) (reinitCnt s) (overflowCnt s).

Section Cache.
Context {T : ErrText}.

(** [errExit] is a macro of this program: perror, then exit. *)
Definition errExit_dt {A} (err : Z) (msg : list ascii) : prog A :=
  print Stderr (msg ++ $": " ++ strerror err ++ [NL]) ;;; Halt (Exit EXIT_FAILURE).

Definition logMessage (s : dt) (vb_mask : Z) (text : list ascii) : prog unit :=
  (if (vb_mask =? 0) || flag vb_mask (verboseMask s) then print Stderr text else Ret tt) ;;;
  match logfp s with
  | Some fp => print (File fp) text
  | None => Ret tt
  end.

Arguments logMessage : simpl never.

(** ** The watch list cache *)

Definition freeCache (s : dt) : dt := set_wlCache [] s.

(** The first slot from [j] on that satisfies [f]. *)
Fixpoint findSlot (f : watch -> bool) (l : list watch) (j : nat) : option nat :=
  match l with
  | [] => None
  | w :: l' => if f w then Some j else findSlot f l' (S j)
  end.

Definition used (w : watch) : bool := 0 <=? wd w.

Definition findWatch (s : dt) (d : Z) : option nat :=
  findSlot (fun w => wd w =? d) (wlCache s) 0.

Definition pathnameToCacheSlot (s : dt) (pathname : list ascii) : option nat :=
  findSlot (fun w => used w && strcmp_eq (path w) pathname) (wlCache s) 0.

Definition pathnameInCache (s : dt) (pathname : list ascii) : bool :=
  match pathnameToCacheSlot s pathname with Some _ => true | None => false end.

(** [f] applied to the used slots in order, with the slot numbers. *)
Fixpoint each_used (f : nat -> watch -> prog unit) (l : list watch) (j : nat) : prog unit :=
  match l with
  | [] => Ret tt
  | w :: l' => (if used w then f j w else Ret tt) ;;; each_used f l' (S j)
  end.

Definition count_used (l : list watch) : nat := length (List.filter used l).

Definition dumpCacheToLog (s : dt) : prog unit :=
  match logfp s with
  | None => Halt (Undefined "fprintf to a null stream")
  | Some fp =>
      each_used (fun j w => print (File fp)
        (dec (Z.of_nat j) ++ $": wd = " ++ dec (wd w) ++ $"; " ++ path w ++ [NL]))
        (wlCache s) 0 ;;;
      print (File fp) ($"Total entries: " ++ dec (Z.of_nat (count_used (wlCache s))) ++ [NL])
  end.

Definition createStopFileAndAbort {A} (s : dt) : prog A :=
  sys (Open (stopFile s) (Z.lor O_CREAT O_RDWR) 384) ;;;
  dumpCacheToLog s ;;;
  Halt Aborted.

Fixpoint check_slots (s : dt) (l : list watch) (j : nat) (failures : Z) : prog Z :=
  match l with
  | [] => Ret failures
  | w :: l' =>
      if used w then
        r <- sys (Lstat (path w)) ;;
        match r with
        | Err e =>
            logMessage s 0 ($"checkCacheConsistency: stat: [slot = " ++ dec (Z.of_nat j)
              ++ $"; wd = " ++ dec (wd w) ++ $"] " ++ path w ++ $": " ++ strerror e ++ [NL]) ;;;
            check_slots s l' (S j) (failures + 1)
        | Ok sb =>
            if st_isdir sb then check_slots s l' (S j) failures
            else logMessage s 0 ($"checkCacheConsistency: " ++ path w
                   ++ $" is not a directory" ++ [NL]) ;;;
                 Halt (Exit EXIT_FAILURE)
        end
      else check_slots s l' (S j) failures
  end.

Definition checkCacheConsistency (s : dt) : prog unit :=
  failures <- check_slots s (wlCache s) 0 0 ;;
  if 0 <? failures
  then logMessage s VB_NOISY ($"checkCacheConsistency: " ++ dec failures ++ $" failures" ++ [NL])
  else Ret tt.

Definition findWatchChecked (s : dt) (d : Z) : prog (option nat) :=
  match findWatch s d with
  | Some slot => Ret (Some slot)
  | None =>
      logMessage s 0 ($"Could not find watch " ++ dec d ++ [NL]) ;;;
      if abortOnCacheProblem s then createStopFileAndAbort s else Ret None
  end.

Definition markCacheSlotEmpty (s : dt) (slot : nat) : prog dt :=
  match wlCache s !! slot with
  | None => Halt (Undefined "slot out of range")
  | Some w =>
      logMessage s VB_NOISY ($"        markCacheSlotEmpty: slot = " ++ dec (Z.of_nat slot)
        ++ $";  wd = " ++ dec (wd w) ++ $"; path = " ++ path w ++ [NL]) ;;;
      Ret (set_wlCache (<[slot := Watch (-1) []]> (wlCache s)) s)
  end.

Fixpoint markSlots (n : nat) (s : dt) (slot : nat) : prog dt :=
  match n with
  | O => Ret s
  | S n' => s' <- markCacheSlotEmpty s slot ;; markSlots n' s' (S slot)
  end.

Definition findEmptyCacheSlot (s : dt) : prog (dt * nat) :=
  match findSlot (fun w => wd w =? -1) (wlCache s) 0 with
  | Some j => Ret (s, j)
  | None =>
      r <- sys (Realloc_slots ALLOC_INCR) ;;
      match r with
      | None => errExit_dt ENOMEM ($"realloc")
      | Some g =>
          let old := length (wlCache s) in
          let grown := set_wlCache (wlCache s ++ map (fun x => Watch (fst x) (snd x)) g) s in
          s' <- markSlots ALLOC_INCR grown old ;;
          Ret (s', old)
      end
  end.

Definition addWatchToCache (s : dt) (d : Z) (pathname : list ascii) : prog (dt * nat) :=
  '(s', slot) <- findEmptyCacheSlot s ;;
  Ret (set_wlCache (<[slot := Watch d (take PATH_MAX pathname)]> (wlCache s')) s', slot).

(** ** The root directories *)

Definition rootMatches (pathname : list ascii) (r : option (list ascii)) : bool :=
  match r with Some p => strcmp_eq pathname p | None => false end.

Fixpoint findRoot (f : option (list ascii) -> bool) (l : list (option (list ascii))) (j : nat) :
    option nat :=
  match l with
  | [] => None
  | r :: l' => if f r then Some j else findRoot f l' (S j)
  end.

Definition findRootDirPath (s : dt) (pathname : list ascii) : option nat :=
  findRoot (rootMatches pathname) (rootDirPaths s) 0.

Definition isRootDirPath (s : dt) (pathname : list ascii) : bool :=
  match findRootDirPath s pathname with Some _ => true | None => false end.

Definition zapRootDirPath (s : dt) (pathname : list ascii) : prog dt :=
  print Stdout ($"zapRootDirPath: " ++ pathname ++ [NL]) ;;;
  match findRootDirPath s pathname with
  | None =>
      print Stderr ($"zapRootDirPath(): path not found!" ++ [NL]) ;;; Halt (Exit EXIT_FAILURE)
  | Some p =>
      let s' := set_roots (<[p := None]> (rootDirPaths s)) (ignoreRootDirs s + 1) s in
      if ignoreRootDirs s' =? Z.of_nat (length (rootDirPaths s'))
      then print Stderr ($"No more root paths left to monitor; bye!" ++ [NL]) ;;;
           Halt (Exit EXIT_SUCCESS)
      else Ret s'
  end.

Fixpoint checkArgs (argv : list (list ascii)) : prog unit :=
  match argv with
  | [] => Ret tt
  | p :: argv' =>
      r <- sys (Lstat p) ;;
      match r with
      | Err _ => print Stderr ($"lstat() failed on '" ++ p ++ $"'" ++ [NL]) ;;;
                 Halt (Exit EXIT_FAILURE)
      | Ok sb =>
          if st_isdir sb then checkArgs argv'
          else print Stderr ($"'" ++ p ++ $"' is not a directory" ++ [NL]) ;;;
               Halt (Exit EXIT_FAILURE)
      end
  end.

(** Are the two arguments the same file?  [seen] holds the earlier arguments
    with their stat structures, in order. *)
Fixpoint sameObject (sb : stat) (seen : list (list ascii * stat)) : option (list ascii) :=
  match seen with
  | [] => None
  | (p, sb') :: seen' =>
      if (st_ino sb =? st_ino sb') && (st_dev sb =? st_dev sb')
      then Some p else sameObject sb seen'
  end.

Fixpoint copyArgs (argv : list (list ascii)) (seen : list (list ascii * stat)) : prog unit :=
  match argv with
  | [] => Ret tt
  | p :: argv' =>
      ok <- sys (Alloc (strlen p + 1)) ;;
      if ok : bool then
        r <- sys (Lstat p) ;;
        match r with
        | Err e => errExit_dt e ($"lstat")
        | Ok sb =>
            match sameObject sb seen with
            | Some q =>
                print Stderr ($"Duplicate filesystem objects: " ++ p ++ $", " ++ q ++ [NL]) ;;;
                Halt (Exit EXIT_FAILURE)
            | None => copyArgs argv' (seen ++ [(p, sb)])
            end
        end
      else errExit_dt ENOMEM ($"strdup")
  end.

(** The check after the second calloc tests the first pointer again, so a
    failed second allocation leaves [rootDirStat] null. *)
Definition copyRootDirPaths (s : dt) (argv : list (list ascii)) : prog dt :=
  checkArgs argv ;;;
  ok1 <- sys (Alloc (8 * Z.of_nat (length argv))) ;;
  if ok1 : bool then
    ok2 <- sys (Alloc (144 * Z.of_nat (length argv))) ;;
    if ok2 : bool then
      copyArgs argv [] ;;;
      Ret (set_roots (map Some argv) 0 s)
    else Halt (Undefined "rootDirStat is a null pointer")
  else errExit_dt ENOMEM ($"calloc").

(** ** Watching a subtree *)

Definition traverseTree (s : dt) (ifd : Z) (pathname : list ascii) (sb : stat) : prog dt :=
  if negb (st_isdir sb) then Ret s
  else
    let flags := Z.lor IN_CREATE (Z.lor IN_MOVED_FROM (Z.lor IN_MOVED_TO IN_DELETE_SELF)) in
    let flags := if isRootDirPath s pathname then Z.lor flags IN_MOVE_SELF else flags in
    r <- sys (Inotify_add_watch ifd pathname (Z.lor flags IN_ONLYDIR)) ;;
    match r with
    | Err e =>
        logMessage s VB_BASIC ($"inotify_add_watch: " ++ pathname ++ $": " ++ strerror e ++ [NL]) ;;;
        if e =? ENOENT then Ret s else Halt (Exit EXIT_FAILURE)
    | Ok d =>
        match findWatch s d with
        | Some _ =>
            logMessage s VB_BASIC ($"WD " ++ dec d ++ $" already in cache (" ++ pathname
              ++ $")" ++ [NL]) ;;;
            Ret s
        | None =>
            '(s', slot) <- addWatchToCache (set_dirCnt (dirCnt s + 1) s) d pathname ;;
            logMessage s' VB_NOISY ($"    watchDir: wd = " ++ dec d ++ $" [cache slot: "
              ++ dec (Z.of_nat slot) ++ $"]; " ++ pathname ++ [NL]) ;;;
            Ret s'
        end
    end.

(** nftw calls [traverseTree] for each file it visits. *)
Fixpoint traverseAll (s : dt) (ifd : Z) (visits : list (list ascii * stat)) : prog dt :=
  match visits with
  | [] => Ret s
  | (p, sb) :: visits' => s' <- traverseTree s ifd p sb ;; traverseAll s' ifd visits'
  end.

Definition watchDir (s : dt) (inotifyFd : Z) (pathname : list ascii) : prog (dt * Z) :=
  '(visits, r) <- sys (Nftw pathname) ;;
  s' <- traverseAll (set_dirCnt 0 s) inotifyFd visits ;;
  match r with
  | Err e => logMessage s' VB_BASIC ($"nftw: " ++ pathname ++ $": " ++ strerror e
      ++ $" (directory probably deleted before we could watch)" ++ [NL])
  | Ok _ => Ret tt
  end ;;;
  Ret (s', dirCnt s').

Definition watchSubtree (s : dt) (inotifyFd : Z) (pathname : list ascii) : prog dt :=
  '(s', cnt) <- watchDir s inotifyFd pathname ;;
  logMessage s' VB_BASIC ($"    watchSubtree: " ++ pathname ++ $": " ++ dec cnt
    ++ $" entries added" ++ [NL]) ;;;
  Ret s'.

(** ** Renaming and zapping a subtree *)

(** Is [p] the directory [dir] or a pathname below it? *)
Definition under (dir p : list ascii) : bool :=
  strncmp_eq dir p (length dir) &&
  (Ascii.eqb (char_at p (length dir)) "/" || Ascii.eqb (char_at p (length dir)) NUL).

(** The loop over the cache; [n] slots remain from slot [j] on. *)
Fixpoint rewriteSlots (n : nat) (s : dt) (j : nat) (fullPath newPrefix : list ascii) : prog dt :=
  match n with
  | O => Ret s
  | S n' =>
      match wlCache s !! j with
      | None => Halt (Undefined "slot out of range")
      | Some w =>
          if under fullPath (path w) then
            let text := newPrefix ++ drop (length fullPath) (path w) in
            let newPath := snprintf PATH_MAX text in
            (if Z.of_nat PATH_MAX <? strlen text
             then logMessage s VB_BASIC ($"Truncated pathname: " ++ newPath ++ [NL])
             else Ret tt) ;;;
            let s' := set_wlCache (<[j := Watch (wd w) (take PATH_MAX newPath)]> (wlCache s)) s in
            logMessage s' VB_NOISY ($"    wd " ++ dec (wd w) ++ $" [cache slot "
              ++ dec (Z.of_nat j) ++ $"] ==> " ++ newPath ++ [NL]) ;;;
            rewriteSlots n' s' (S j) fullPath newPrefix
          else rewriteSlots n' s (S j) fullPath newPrefix
      end
  end.

Definition rewriteCachedPaths (s : dt) (oldPathPrefix oldName newPathPrefix newName : list ascii) :
    prog dt :=
  let fullPath := snprintf PATH_MAX (oldPathPrefix ++ $"/" ++ oldName) in
  let newPrefix := snprintf PATH_MAX (newPathPrefix ++ $"/" ++ newName) in
  logMessage s VB_BASIC ($"Rename: " ++ fullPath ++ $" ==> " ++ newPrefix ++ [NL]) ;;;
  rewriteSlots (length (wlCache s)) s 0 fullPath newPrefix.

Fixpoint zapSlots (n : nat) (s : dt) (inotifyFd : Z) (j : nat) (pn : list ascii) (cnt : Z) :
    prog (dt * Z) :=
  match n with
  | O => Ret (s, cnt)
  | S n' =>
      match wlCache s !! j with
      | None => Halt (Undefined "slot out of range")
      | Some w =>
          if used w && under pn (path w) then
            logMessage s VB_NOISY ($"    removing watch: wd = " ++ dec (wd w) ++ $" ("
              ++ path w ++ $")" ++ [NL]) ;;;
            r <- sys (Inotify_rm_watch inotifyFd (wd w)) ;;
            match r with
            | Err e =>
                logMessage s 0 ($"inotify_rm_watch wd = " ++ dec (wd w) ++ $" (" ++ path w
                  ++ $"): " ++ strerror e ++ [NL]) ;;;
                Ret (s, -1)
            | Ok _ =>
                s' <- markCacheSlotEmpty s j ;;
                zapSlots n' s' inotifyFd (S j) pn (cnt + 1)
            end
          else zapSlots n' s inotifyFd (S j) pn cnt
      end
  end.

Definition zapSubtree (s : dt) (inotifyFd : Z) (pathname : list ascii) : prog (dt * Z) :=
  logMessage s VB_NOISY ($"Zapping subtree: " ++ pathname ++ [NL]) ;;;
  ok <- sys (Alloc (strlen pathname + 1)) ;;
  if ok : bool then zapSlots (length (wlCache s)) s inotifyFd 0 pathname 0
  else Halt (Undefined "strdup returned a null pointer").

(** ** Rebuilding the cache *)

Fixpoint watchRoots (s : dt) (inotifyFd : Z) (roots : list (option (list ascii))) : prog dt :=
  match roots with
  | [] => Ret s
  | Some p :: roots' => s' <- watchSubtree s inotifyFd p ;; watchRoots s' inotifyFd roots'
  | None :: roots' => watchRoots s inotifyFd roots'
  end.

Definition reinitialize (s : dt) (oldInotifyFd : Z) : prog (dt * Z) :=
  s <- (if 0 <=? oldInotifyFd then
          sys (Close oldInotifyFd) ;;;
          let s := set_reinitCnt (reinitCnt s + 1) s in
          logMessage s 0 ($"Reinitializing cache and inotify FD (reinitCnt = "
            ++ dec (reinitCnt s) ++ $")" ++ [NL]) ;;;
          Ret s
        else
          logMessage s 0 ($"Initializing cache" ++ [NL]) ;;;
          Ret (set_reinitCnt 0 s)) ;;
  r <- sys Inotify_init ;;
  match r with
  | Err e => errExit_dt e ($"inotify_init")
  | Ok inotifyFd =>
      logMessage s VB_BASIC ($"    new inotifyFd = " ++ dec inotifyFd ++ [NL]) ;;;
      s' <- watchRoots (freeCache s) inotifyFd (rootDirPaths s) ;;
      (if 0 <=? oldInotifyFd
       then logMessage s' 0 ($"Rebuilt cache with "
              ++ dec (Z.of_nat (count_used (wlCache s'))) ++ $" entries" ++ [NL])
       else Ret tt) ;;;
      Ret (s', inotifyFd)
  end.

(** ** The cache as a map from watch descriptors to pathnames *)

Fixpoint absl (l : list watch) : gmap Z (list ascii) :=
  match l with
  | [] => ∅
  | w :: l' => if used w then <[wd w := path w]> (absl l') else absl l'
  end.

Definition abs (s : dt) : gmap Z (list ascii) := absl (wlCache s).

(** An unused slot holds -1 and the empty pathname; no watch descriptor is in
    two slots; the array grows in steps of [ALLOC_INCR]. *)
Definition slot_ok (w : watch) : Prop := (wd w = -1 /\ path w = []) \/ 0 <= wd w.

Definition inj_wds (l : list watch) : Prop :=
  forall i j w w', l !! i = Some w -> l !! j = Some w' -> used w = true -> wd w = wd w' -> i = j.

Definition wfl (l : list watch) : Prop :=
  Forall slot_ok l /\ inj_wds l.

Definition wf (s : dt) : Prop :=
  wfl (wlCache s) /\ exists k, length (wlCache s) = (k * ALLOC_INCR)%nat.

(** Histories that differ by output, memory allocation and lstat only. *)
Definition is_local (e : event) : bool :=
  match e with
  | Ev c _ => match c with
              | Out _ _ | Alloc _ | Realloc_slots _ | Lstat _ => true
              | _ => false
              end
  end.

Definition quiet (h h' : history) : Prop :=
  exists o, h' = o ++ h /\ Forall (fun e => is_local e = true) o.

(** The watches removed so far, the latest first. *)
Fixpoint removed (h : history) : list Z :=
  match h with
  | [] => []
  | Ev c r :: h' =>
      match c in call X return X -> list Z with
      | Inotify_rm_watch _ d => fun r => match r with Ok _ => d :: removed h' | Err _ => removed h' end
      | _ => fun _ => removed h'
      end r
  end.

Lemma quiet_refl h : quiet h h.
Proof. by exists []. Qed.

Lemma quiet_trans h1 h2 h3 : quiet h1 h2 -> quiet h2 h3 -> quiet h1 h3.
Proof.
  intros (o1 & -> & H1) (o2 & -> & H2). exists (o2 ++ o1).
  split; [by rewrite app_assoc|by apply Forall_app].
Qed.

Lemma quiet_cons e h : is_local e = true -> quiet h (e :: h).
Proof. intros He. exists [e]. split; [done|by constructor]. Qed.

Lemma quiet_removed h h' : quiet h h' -> removed h' = removed h.
Proof.
  intros (o & -> & Ho). induction Ho as [|[X c r] o Hc _ IH]; [done|].
  simpl in *. by destruct c.
Qed.

(** *** Lists of slots *)

Lemma used_spec w : used w = true <-> 0 <= wd w.
Proof. unfold used. lia. Qed.

Lemma inj_wds_cons w l : inj_wds (w :: l) -> inj_wds l.
Proof. intros Hi i j w1 w2 H1 H2 Hu He. specialize (Hi (S i) (S j) w1 w2 H1 H2 Hu He). lia. Qed.

Lemma absl_lookup l d p :
  inj_wds l ->
  absl l !! d = Some p <-> 0 <= d /\ exists j, l !! j = Some (Watch d p).
Proof.
  induction l as [|w l IH]; intros Hi; simpl.
  - rewrite lookup_empty. split; [done|]. by intros (_ & j & ?).
  - pose proof (inj_wds_cons _ _ Hi) as Hi'. specialize (IH Hi'). destruct (used w) eqn:Hu.
    + apply used_spec in Hu. destruct (decide (wd w = d)) as [<-|Hne].
      * rewrite lookup_insert_eq. split.
        -- intros [= <-]. split; [done|]. exists 0%nat. by destruct w.
        -- intros (_ & j & Hj). assert (0%nat = j) as <-.
           { apply (Hi 0%nat j w (Watch (wd w) p)); [done|done|by apply used_spec|done]. }
           by injection Hj as ->.
      * rewrite lookup_insert_ne by done. rewrite IH. split; intros (Hd & j & Hj).
        -- split; [done|]. by exists (S j).
        -- split; [done|]. destruct j as [|j]; [|by exists j]. by injection Hj as ->.
    + rewrite IH. split; intros (Hd & j & Hj).
      * split; [done|]. by exists (S j).
      * split; [done|]. destruct j as [|j]; [|by exists j].
        injection Hj as ->. unfold used in Hu. simpl in Hu. lia.
Qed.

Lemma findSlot_Some f l j k :
  findSlot f l j = Some k ->
  exists i w, k = (j + i)%nat /\ l !! i = Some w /\ f w = true.
Proof.
  revert j. induction l as [|w l IH]; intros j; simpl; [done|].
  destruct (f w) eqn:Hf.
  - intros [= <-]. exists 0%nat, w. split_and!; [lia|done..].
  - intros Hk. destruct (IH _ Hk) as (i & w' & -> & Hi & Hw). exists (S i), w'. split_and!; [lia|done..].
Qed.

Lemma findSlot_None f l j :
  findSlot f l j = None <-> forall i w, l !! i = Some w -> f w = false.
Proof.
  revert j. induction l as [|w l IH]; intros j; simpl; [split; [by intros _ i w|done]|].
  destruct (f w) eqn:Hf.
  - split; [done|]. intros Hall. specialize (Hall 0%nat w eq_refl). congruence.
  - rewrite IH. split; intros Hall i w' Hi; [|by apply (Hall (S i))].
    destruct i as [|i]; [by injection Hi as <-|by apply (Hall i)].
Qed.

(** Overwriting a slot keeps the descriptors distinct when the new one is
    unused, or is the one that was there, or is in no slot. *)
Lemma inj_wds_insert l j w w' :
  inj_wds l -> l !! j = Some w ->
  used w' = false \/ wd w' = wd w /\ used w = true \/
    (forall i u, l !! i = Some u -> wd u <> wd w') ->
  inj_wds (<[j := w']> l).
Proof.
  intros Hi Hj Hw' a b u v Ha Hb Hu He.
  assert (j < length l)%nat as Hlt by (by apply lookup_lt_Some in Hj).
  destruct (decide (j = a)) as [<-|Hna], (decide (j = b)) as [<-|Hnb]; [done|..].
  - rewrite list_lookup_insert_eq in Ha by done. injection Ha as <-.
    rewrite list_lookup_insert_ne in Hb by done. exfalso.
    destruct Hw' as [Hw'|[[Hw' Hw]|Hw']]; [congruence| |by apply (Hw' b v Hb)].
    apply Hnb. by apply (Hi j b w v); [..|congruence].
  - rewrite list_lookup_insert_eq in Hb by done. injection Hb as <-.
    rewrite list_lookup_insert_ne in Ha by done. exfalso.
    destruct Hw' as [Hw'|[[Hw' Hw]|Hw']]; [|apply Hna; symmetry; apply (Hi a j u w); [done..|congruence]|by apply (Hw' a u Ha)].
    unfold used in *. rewrite He in Hu. congruence.
  - rewrite list_lookup_insert_ne in Ha, Hb by done. by apply (Hi a b u v).
Qed.

Lemma wfl_insert l j w w' :
  wfl l -> l !! j = Some w -> slot_ok w' ->
  used w' = false \/ wd w' = wd w /\ used w = true \/
    (forall i u, l !! i = Some u -> wd u <> wd w') ->
  wfl (<[j := w']> l).
Proof.
  intros [Hs Hi] Hj Hok Hw'. split; [by apply Forall_insert|by eapply inj_wds_insert].
Qed.

Lemma slot_ok_empty : slot_ok (Watch (-1) []).
Proof. by left. Qed.

(** What overwriting a slot does to the map. *)
Lemma absl_insert_same l j w p :
  wfl l -> l !! j = Some w -> used w = true ->
  absl (<[j := Watch (wd w) p]> l) = <[wd w := p]> (absl l).
Proof.
  intros [Hs Hi] Hj Hu. assert (Hu' := Hu). apply used_spec in Hu'.
  assert (j < length l)%nat as Hlt by (by apply lookup_lt_Some in Hj).
  assert (inj_wds (<[j := Watch (wd w) p]> l)) as Hi'.
  { eapply inj_wds_insert; [done..|]. right; left. done. }
  apply map_eq. intros d. apply option_eq. intros q. rewrite absl_lookup by done.
  destruct (decide (wd w = d)) as [<-|Hne].
  - rewrite lookup_insert_eq. split.
    + intros (_ & i & Hi2). destruct (decide (j = i)) as [<-|Hne].
      * rewrite list_lookup_insert_eq in Hi2 by done. congruence.
      * exfalso. apply Hne. rewrite list_lookup_insert_ne in Hi2 by done.
        by apply (Hi j i w (Watch (wd w) q)).
    + intros [= <-]. split; [done|]. exists j. by rewrite list_lookup_insert_eq.
  - rewrite lookup_insert_ne by done. rewrite absl_lookup by done.
    split; intros (Hd & i & Hi2); (split; [done|]; exists i).
    + destruct (decide (j = i)) as [<-|Hji]; [|by rewrite list_lookup_insert_ne in Hi2].
      rewrite list_lookup_insert_eq in Hi2 by done. congruence.
    + rewrite list_lookup_insert_ne; [done|]. intros ->. by rewrite Hj in Hi2; injection Hi2 as ->.
Qed.

Lemma absl_insert_new l j w d p :
  wfl l -> l !! j = Some w -> used w = false -> 0 <= d ->
  (forall i u, l !! i = Some u -> wd u <> d) ->
  absl (<[j := Watch d p]> l) = <[d := p]> (absl l).
Proof.
  intros [Hs Hi] Hj Hu Hd Hnew.
  assert (j < length l)%nat as Hlt by (by apply lookup_lt_Some in Hj).
  assert (inj_wds (<[j := Watch d p]> l)) as Hi'.
  { eapply inj_wds_insert; [done..|]. right; right. done. }
  apply map_eq. intros e. apply option_eq. intros q. rewrite absl_lookup by done.
  destruct (decide (d = e)) as [<-|Hne].
  - rewrite lookup_insert_eq. split.
    + intros (_ & i & Hi2). destruct (decide (j = i)) as [<-|Hji].
      * rewrite list_lookup_insert_eq in Hi2 by done. congruence.
      * rewrite list_lookup_insert_ne in Hi2 by done. by destruct (Hnew _ _ Hi2).
    + intros [= <-]. split; [done|]. exists j. by rewrite list_lookup_insert_eq.
  - rewrite lookup_insert_ne by done. rewrite absl_lookup by done.
    split; intros (He & i & Hi2); (split; [done|]; exists i).
    + destruct (decide (j = i)) as [<-|Hji]; [|by rewrite list_lookup_insert_ne in Hi2].
      rewrite list_lookup_insert_eq in Hi2 by done. congruence.
    + rewrite list_lookup_insert_ne; [done|]. intros ->. rewrite Hj in Hi2. injection Hi2 as ->.
      unfold used in Hu. simpl in Hu. lia.
Qed.

Lemma absl_insert_empty l j w :
  wfl l -> l !! j = Some w ->
  absl (<[j := Watch (-1) []]> l) = if used w then delete (wd w) (absl l) else absl l.
Proof.
  intros [Hs Hi] Hj.
  assert (j < length l)%nat as Hlt by (by apply lookup_lt_Some in Hj).
  assert (inj_wds (<[j := Watch (-1) []]> l)) as Hi'.
  { eapply inj_wds_insert; [done..|]. by left. }
  apply map_eq. intros e. apply option_eq. intros q. rewrite absl_lookup by done.
  assert (forall i, <[j := Watch (-1) []]> l !! i = Some (Watch e q) -> 0 <= e ->
            i <> j /\ l !! i = Some (Watch e q)) as Hother.
  { intros i Hi2 He. destruct (decide (j = i)) as [<-|Hji].
    - rewrite list_lookup_insert_eq in Hi2 by done. injection Hi2 as <- _. lia.
    - by rewrite list_lookup_insert_ne in Hi2. }
  destruct (used w) eqn:Hu; [destruct (decide (wd w = e)) as [<-|Hne]|].
  - rewrite lookup_delete_eq. split; [|done]. intros (He & i & Hi2). exfalso.
    destruct (Hother i Hi2 He) as [Hij Hl]. apply Hij. symmetry.
    by apply (Hi j i w (Watch (wd w) q)).
  - rewrite lookup_delete_ne by done. rewrite absl_lookup by done.
    split; intros (He & i & Hi2); (split; [done|]; exists i); [by apply Hother|].
    rewrite list_lookup_insert_ne; [done|]. intros ->. by rewrite Hj in Hi2; injection Hi2 as ->.
  - rewrite absl_lookup by done.
    split; intros (He & i & Hi2); (split; [done|]; exists i); [by apply Hother|].
    rewrite list_lookup_insert_ne; [done|]. intros ->. rewrite Hj in Hi2. injection Hi2 as ->.
    unfold used in Hu. simpl in Hu. lia.
Qed.

(** *** How a function may end

    It returns with [P], or the process exits or aborts; the only undefined
    behaviour left is the unchecked strdup of [zapSubtree]. *)
Definition allowed (s : halt) : Prop :=
  match s with
  | Exit _ | Aborted => True
  | Undefined w => w = "strdup returned a null pointer"%string
  | _ => False
  end.

Definition post {A} (P : A -> history -> Prop) (o : outcome A) (h : history) : Prop :=
  match o with Done a => P a h | Stop s => allowed s end.

Lemma wp_post {A B} (p : prog A) (f : A -> prog B) P R h :
  wp posix p (post P) h ->
  (forall a h', P a h' -> wp posix (f a) (post R) h') ->
  wp posix (bind p f) (post R) h.
Proof. intros Hp Hf. eapply wp_call; [exact Hp|exact Hf|done]. Qed.

Lemma post_mono {A} (p : prog A) (P R : A -> history -> Prop) h :
  wp posix p (post P) h -> (forall a h', P a h' -> R a h') -> wp posix p (post R) h.
Proof. intros Hp Hm. eapply wp_mono; [|exact Hp]. intros [a|s] h'; simpl; auto. Qed.

(** Nothing but the cache and the directory count changed. *)
Definition same_globals (s s' : dt) : Prop :=
  rootDirPaths s' = rootDirPaths s /\ ignoreRootDirs s' = ignoreRootDirs s /\
  verboseMask s' = verboseMask s /\ checkCache s' = checkCache s /\
  dumpCache s' = dumpCache s /\ readBufferSize s' = readBufferSize s /\
  stopFile s' = stopFile s /\ abortOnCacheProblem s' = abortOnCacheProblem s /\
  logfp s' = logfp s /\ inotifyReadCnt s' = inotifyReadCnt s /\
  reinitCnt s' = reinitCnt s /\ overflowCnt s' = overflowCnt s.

Lemma same_globals_refl s : same_globals s s.
Proof. done. Qed.

Lemma same_globals_trans s1 s2 s3 :
  same_globals s1 s2 -> same_globals s2 s3 -> same_globals s1 s3.
Proof. unfold same_globals. intuition congruence. Qed.

Lemma same_globals_cache c s : same_globals s (set_wlCache c s).
Proof. done. Qed.

Lemma wp_logMessage s vb text (P : unit -> history -> Prop) h :
  (forall h', quiet h h' -> P tt h') -> wp posix (logMessage s vb text) (post P) h.
Proof.
  intros HP. unfold logMessage.
  destruct (_ || _), (logfp s); simpl; repeat (intros [] _); apply HP;
    [eapply quiet_trans; by apply quiet_cons|by apply quiet_cons|by apply quiet_cons|apply quiet_refl].
Qed.

Lemma wp_log_bind {B} s vb text (f : unit -> prog B) R h :
  (forall h', quiet h h' -> wp posix (f tt) (post R) h') ->
  wp posix (bind (logMessage s vb text) f) (post R) h.
Proof.
  intros HR. eapply wp_post with (P := fun _ h' => quiet h h').
  - by apply wp_logMessage.
  - intros [] h' Hq. by apply HR.
Qed.

Lemma wp_errExit_dt {A} err msg (P : A -> history -> Prop) h :
  wp posix (errExit_dt err msg) (post P) h.
Proof. simpl. by intros [] _. Qed.

(** *** The cache operations *)

Lemma wp_markCacheSlotEmpty s slot w (P : dt -> history -> Prop) h :
  wlCache s !! slot = Some w ->
  (forall h', quiet h h' -> P (set_wlCache (<[slot := Watch (-1) []]> (wlCache s)) s) h') ->
  wp posix (markCacheSlotEmpty s slot) (post P) h.
Proof. intros Hw HP. unfold markCacheSlotEmpty. rewrite Hw. by apply wp_log_bind. Qed.

Lemma wp_markSlots s l g (P : dt -> history -> Prop) h :
  (forall h', quiet h h' ->
     P (set_wlCache (l ++ replicate (length g) (Watch (-1) [])) s) h') ->
  wp posix (markSlots (length g) (set_wlCache (l ++ g) s) (length l)) (post P) h.
Proof.
  revert l h. induction g as [|x g IH]; intros l h HP; simpl.
  - apply HP. apply quiet_refl.
  - eapply wp_post with (P := fun s' h' => quiet h h' /\
      s' = set_wlCache ((l ++ [Watch (-1) []]) ++ g) s).
    + eapply wp_markCacheSlotEmpty; [simpl; by apply list_lookup_middle|].
      intros h' Hq. split; [done|]. simpl. rewrite insert_app_r_alt by done.
      by rewrite Nat.sub_diag, <- app_assoc.
    + intros s' h' [Hq ->]. replace (S (length l)) with (length (l ++ [Watch (-1) []]))
        by (rewrite length_app; simpl; lia).
      apply IH. intros h2 Hq2. rewrite <- app_assoc. apply HP. by eapply quiet_trans.
Qed.

Lemma absl_app l1 l2 : Forall (fun w => used w = false) l2 -> absl (l1 ++ l2) = absl l1.
Proof.
  intros H2. induction l1 as [|w l1 IH]; simpl; [|by rewrite IH].
  induction H2 as [|w l2 Hw _ IH]; simpl; [done|]. by rewrite Hw.
Qed.

Lemma wfl_grow l n : wfl l -> wfl (l ++ replicate n (Watch (-1) [])).
Proof.
  intros [Hs Hi]. split.
  - apply Forall_app. split; [done|]. apply Forall_replicate, slot_ok_empty.
  - intros i j w w' Hw Hw' Hu He.
    assert (forall k v, (l ++ replicate n (Watch (-1) [])) !! k = Some v -> 0 <= wd v ->
              l !! k = Some v) as Hold.
    { intros k v Hk Hv. apply lookup_app_Some in Hk as [Hk|[_ Hk]]; [done|].
      apply lookup_replicate in Hk as [-> _]. simpl in Hv. lia. }
    apply used_spec in Hu. apply (Hi i j w w');
      [by apply Hold|apply Hold; [done|lia]|by apply used_spec|done].
Qed.

(** A free slot is found, in a cache with the same contents. *)
Lemma wp_findEmptyCacheSlot s (P : dt * nat -> history -> Prop) h :
  wf s ->
  (forall l' slot w h', quiet h h' -> wf (set_wlCache l' s) -> absl l' = abs s ->
     (forall u, u ∈ l' -> used u = true -> u ∈ wlCache s) ->
     l' !! slot = Some w -> wd w = -1 -> P (set_wlCache l' s, slot) h') ->
  wp posix (findEmptyCacheSlot s) (post P) h.
Proof.
  intros Hwf HP. destruct s as [cache r1 r2 r3 r4 r5 r6 r7 r8 r9 r10 r11 r12 r13].
  set (s := Dt _ _ _ _ _ _ _ _ _ _ _ _ _ _) in *.
  unfold findEmptyCacheSlot. destruct (findSlot _ _ _) as [j|] eqn:Hf.
  - apply findSlot_Some in Hf as (i & w & -> & Hi & Hw). simpl in *.
    apply (HP cache i w); [apply quiet_refl|done..|lia].
  - wp_sys g Hg. destruct g as [g|]; [|by apply wp_errExit_dt].
    rewrite <- Hg. rewrite <- (length_map (fun x => Watch (fst x) (snd x)) g).
    eapply wp_post; [apply wp_markSlots|].
    { intros h' Hq. instantiate (1 := fun s' h' =>
        quiet h h' /\ s' = set_wlCache (cache ++ replicate ALLOC_INCR (Watch (-1) [])) s).
      split; [eapply quiet_trans; [|exact Hq]; by apply quiet_cons|].
      by rewrite length_map, Hg. }
    intros s' h' [Hq ->]. destruct Hwf as [Hwfl [k Hk]]. simpl in Hk, Hwfl.
    apply (HP _ _ (Watch (-1) [])); [done|split| | | |done].
    + by apply wfl_grow.
    + exists (S k). cbn [wlCache set_wlCache]. rewrite length_app, length_replicate, Hk. lia.
    + apply absl_app. by apply Forall_replicate.
    + intros u Hu Hused. apply elem_of_app in Hu as [Hu|Hu]; [done|].
      apply elem_of_replicate in Hu as [-> _]. done.
    + cbn [wlCache s]. rewrite lookup_app_r by lia. by rewrite Nat.sub_diag.
Qed.

Lemma findWatch_None s d :
  findWatch s d = None <-> forall u, u ∈ wlCache s -> wd u <> d.
Proof.
  unfold findWatch. rewrite findSlot_None. split.
  - intros Hall u [i Hi]%list_elem_of_lookup. specialize (Hall i u Hi). lia.
  - intros Hall i w Hi. assert (wd w <> d); [|lia].
    apply Hall, list_elem_of_lookup. eauto.
Qed.

Lemma findWatch_Some s d slot :
  findWatch s d = Some slot -> exists w, wlCache s !! slot = Some w /\ wd w = d.
Proof.
  intros Hf. apply findSlot_Some in Hf as (i & w & -> & Hi & Hw).
  exists w. split; [done|lia].
Qed.

(** [findWatch] is the lookup of the map. *)
Lemma findWatch_abs s d : wf s -> 0 <= d -> findWatch s d = None <-> abs s !! d = None.
Proof.
  intros [[Hs Hi] _] Hd. rewrite findWatch_None. split.
  - intros Hall. destruct (abs s !! d) as [p|] eqn:Ha; [|done].
    apply absl_lookup in Ha as (_ & j & Hj); [|done].
    exfalso. by apply (Hall _ (list_elem_of_lookup_2 _ _ _ Hj)).
  - intros Ha u [j Hj]%list_elem_of_lookup <-.
    assert (abs s !! wd u = Some (path u)); [|congruence].
    apply absl_lookup; [done|]. split; [done|]. exists j. by destruct u.
Qed.

Lemma wp_addWatchToCache s d p (P : dt * nat -> history -> Prop) h :
  wf s -> 0 <= d -> findWatch s d = None ->
  (forall l' slot h', quiet h h' -> wf (set_wlCache l' s) ->
     absl l' = <[d := take PATH_MAX p]> (abs s) ->
     P (set_wlCache l' s, slot) h') ->
  wp posix (addWatchToCache s d p) (post P) h.
Proof.
  intros Hwf Hd Hnew HP. rewrite findWatch_None in Hnew. unfold addWatchToCache.
  eapply wp_post; [apply wp_findEmptyCacheSlot; [done|]|].
  { intros l' slot w h' Hq Hwf' Habs Hold Hslot Hw.
    instantiate (1 := fun '(s', slot) h' => exists l' w, s' = set_wlCache l' s /\ quiet h h' /\
      wf (set_wlCache l' s) /\ absl l' = abs s /\
      (forall u, u ∈ l' -> used u = true -> u ∈ wlCache s) /\ l' !! slot = Some w /\ wd w = -1).
    by exists l', w. }
  intros [s' slot] h' (l' & w & -> & Hq & [Hwfl [k Hk]] & Habs & Hold & Hslot & Hw).
  simpl in Hk, Hwfl.
  assert (forall i u, l' !! i = Some u -> wd u <> d) as Hfresh.
  { intros i u Hi <-. apply (Hnew u); [|done]. apply Hold; [|by apply used_spec].
    by eapply list_elem_of_lookup_2. }
  apply (HP (<[slot := Watch d (take PATH_MAX p)]> l')); [done|split|].
  - apply wfl_insert with w; [done..|by right|]. right; right. apply Hfresh.
  - exists k. simpl. by rewrite length_insert.
  - rewrite (absl_insert_new _ _ w); [by rewrite Habs|done..|unfold used; lia|done|done].
Qed.

(** What the watch of one directory does to the map, given the reply of
    inotify_add_watch. *)
Definition add_watch (m : gmap Z (list ascii)) (p : list ascii) (r : res Z) : gmap Z (list ascii) :=
  match r with
  | Ok d => match m !! d with Some _ => m | None => <[d := take PATH_MAX p]> m end
  | Err _ => m
  end.

Definition watch_flags (root : bool) : Z :=
  Z.lor (if root
         then Z.lor (Z.lor IN_CREATE (Z.lor IN_MOVED_FROM (Z.lor IN_MOVED_TO IN_DELETE_SELF)))
                    IN_MOVE_SELF
         else Z.lor IN_CREATE (Z.lor IN_MOVED_FROM (Z.lor IN_MOVED_TO IN_DELETE_SELF)))
        IN_ONLYDIR.

Lemma wf_set_dirCnt n s : wf (set_dirCnt n s) <-> wf s.
Proof. done. Qed.

Lemma wp_traverseTree s ifd p sb (P : dt -> history -> Prop) h :
  wf s ->
  (forall s' r h', st_isdir sb = true ->
     quiet (Ev (Inotify_add_watch ifd p (watch_flags (isRootDirPath s p))) r :: h) h' ->
     wf s' -> same_globals s s' -> abs s' = add_watch (abs s) p r ->
     dirCnt s' = dirCnt s + (Z.of_nat (size (abs s')) - Z.of_nat (size (abs s))) ->
     P s' h') ->
  (st_isdir sb = false -> P s h) ->
  wp posix (traverseTree s ifd p sb) (post P) h.
Proof.
  intros Hwf HP Hfile. unfold traverseTree.
  destruct (st_isdir sb); [|by apply Hfile]. cbn [negb].
  assert (Z.lor (if isRootDirPath s p
     then Z.lor (Z.lor IN_CREATE (Z.lor IN_MOVED_FROM (Z.lor IN_MOVED_TO IN_DELETE_SELF))) IN_MOVE_SELF
     else Z.lor IN_CREATE (Z.lor IN_MOVED_FROM (Z.lor IN_MOVED_TO IN_DELETE_SELF))) IN_ONLYDIR
     = watch_flags (isRootDirPath s p)) as -> by done.
  wp_sys r Hr. destruct r as [d|e].
  - destruct (findWatch s d) as [slot|] eqn:Hfw.
    + apply wp_log_bind. intros h' Hq. apply (HP s (Ok d)); [done..| |lia].
      simpl. destruct (abs s !! d) eqn:Ha; [done|].
      apply findWatch_abs in Ha; [congruence|done..].
    + assert (abs s !! d = None) as Ha by (by apply findWatch_abs).
      eapply wp_post; [apply wp_addWatchToCache with (d := d); [done..|]|].
      { intros l' slot h' Hq Hwf' Habs.
        instantiate (1 := fun '(s', slot) h' => exists l',
          quiet (Ev (Inotify_add_watch ifd p (watch_flags (isRootDirPath s p))) (Ok d) :: h) h' /\
          s' = set_wlCache l' (set_dirCnt (dirCnt s + 1) s) /\
          wf s' /\ absl l' = <[d := take PATH_MAX p]> (abs s)). by exists l'. }
      intros [s' slot] h' (l' & Hq & -> & Hwf' & Habs). apply wp_log_bind. intros h2 Hq2.
      apply (HP _ (Ok d)); [done|by eapply quiet_trans|done|done|simpl; by rewrite Ha|].
      cbn [dirCnt set_wlCache set_dirCnt set_counts].
      change (abs (set_wlCache l' _)) with (absl l'). rewrite Habs, map_size_insert_None by done. lia.
  - apply wp_log_bind. intros h' Hq. destruct (e =? ENOENT) eqn:He; [|done].
    apply (HP s (Err e)); [done..|simpl; lia].
Qed.

(** The calls of nftw(), with the files visited, and of inotify_add_watch(), with their
    replies, in order. *)
Fixpoint walked (h : history) : list (list ascii * list (list ascii * stat)) :=
  match h with
  | [] => []
  | Ev c r :: h =>
      walked h ++ match c in call X return X -> list (list ascii * list (list ascii * stat)) with
                  | Nftw p => fun r => [(p, fst r)] | _ => fun _ => [] end r
  end.

Fixpoint watched (h : history) : list (Z * list ascii * Z * res Z) :=
  match h with
  | [] => []
  | Ev c r :: h =>
      watched h ++ match c in call X return X -> list (Z * list ascii * Z * res Z) with
                   | Inotify_add_watch fd p mask => fun r => [(fd, p, mask, r)] | _ => fun _ => [] end r
  end.

Lemma quiet_walks h h' : quiet h h' -> walked h' = walked h /\ watched h' = watched h.
Proof.
  intros (o & -> & Ho). induction Ho as [|[X c r] o Hc _ [IH1 IH2]]; [done|].
  simpl in *. rewrite IH1, IH2. destruct c; try done; by rewrite !app_nil_r.
Qed.

(** The directories among the files that a walk visited, in order. *)
Definition dirs (visits : list (list ascii * stat)) : list (list ascii) :=
  map fst (filter (fun v => st_isdir (snd v) = true) visits).

(** The map after a watch was asked for on each of [ps], with the replies [rs]. *)
Fixpoint adds (m : gmap Z (list ascii)) (ps : list (list ascii)) (rs : list (res Z)) : gmap Z (list ascii) :=
  match ps, rs with p :: ps, r :: rs => adds (add_watch m p r) ps rs | _, _ => m end.

(** The mask of a watch: moves of the directory itself are of interest for root paths. *)
Definition watch_mask (roots : list (option (list ascii))) (p : list ascii) : Z :=
  watch_flags (bool_decide (Some p ∈ roots)).

(** Between [h] and [h'] a watch on [fd] was asked for on every directory of [visits],
    once and in order, and on nothing else; the replies took the map from [m] to [m']. *)
Definition walk (roots : list (option (list ascii))) (fd : Z) (visits : list (list ascii * stat))
    (m : gmap Z (list ascii)) (h : history) (m' : gmap Z (list ascii)) (h' : history) : Prop :=
  exists rs, length rs = length (dirs visits) /\ m' = adds m (dirs visits) rs /\
    watched h' = watched h ++ zip_with (fun p r => (fd, p, watch_mask roots p, r)) (dirs visits) rs.

Lemma adds_app m ps1 rs1 ps2 rs2 : length rs1 = length ps1 -> adds m (ps1 ++ ps2) (rs1 ++ rs2) = adds (adds m ps1 rs1) ps2 rs2.
Proof. revert m rs1. induction ps1 as [|p ps1 IH]; intros m [|r rs1] H; try done. simpl. apply IH. by injection H. Qed.

Lemma dirs_app v1 v2 : dirs (v1 ++ v2) = dirs v1 ++ dirs v2.
Proof. unfold dirs. by rewrite filter_app, map_app. Qed.

Lemma walk_refl roots fd m h h' : watched h' = watched h -> walk roots fd [] m h m h'.
Proof. intros H. exists []. by rewrite H, app_nil_r. Qed.

Lemma walk_trans roots fd v1 v2 m1 h1 m2 h2 m3 h3 :
  walk roots fd v1 m1 h1 m2 h2 -> walk roots fd v2 m2 h2 m3 h3 -> walk roots fd (v1 ++ v2) m1 h1 m3 h3.
Proof.
  intros (rs1 & Hl1 & -> & Hw1) (rs2 & Hl2 & -> & Hw2). exists (rs1 ++ rs2). rewrite dirs_app, !length_app, Hl1, Hl2.
  rewrite adds_app by done. split_and!; [done..|]. by rewrite Hw2, Hw1, <- app_assoc, zip_with_app by done.
Qed.

Lemma walk_quiet roots fd v m1 h1 m2 h2 h3 : walk roots fd v m1 h1 m2 h2 -> watched h3 = watched h2 -> walk roots fd v m1 h1 m2 h3.
Proof. intros (rs & Hl & Hm & Hw) H. exists rs. by rewrite H. Qed.

Lemma isRootDirPath_in s p : isRootDirPath s p = bool_decide (Some p ∈ rootDirPaths s).
Proof.
  unfold isRootDirPath, findRootDirPath. generalize 0%nat. induction (rootDirPaths s) as [|x l IH]; intros n; [done|].
  cbn [findRoot]. destruct x as [q|]; cbn [rootMatches].
  - unfold strcmp_eq. destruct (decide (p = q)) as [->|Hne].
    + rewrite !bool_decide_true by (done || by left). done.
    + rewrite bool_decide_false by congruence. rewrite IH. apply bool_decide_ext. split; [by right|].
      intros [[= ->]|H]%elem_of_cons; done.
  - rewrite IH. apply bool_decide_ext. split; [by right|]. intros [[=]|H]%elem_of_cons; done.
Qed.

(** One directory. *)
Lemma walk_one roots fd p sb r m h h' :
  st_isdir sb = true -> quiet (Ev (Inotify_add_watch fd p (watch_mask roots p)) r :: h) h' ->
  walk roots fd [(p, sb)] m h (add_watch m p r) h'.
Proof.
  intros Hd Hq. exists [r]. unfold dirs. rewrite filter_cons_True by done. split_and!; [done..|].
  by rewrite (proj2 (quiet_walks _ _ Hq)).
Qed.

Lemma walk_file roots fd p sb m h : st_isdir sb = false -> walk roots fd [(p, sb)] m h m h.
Proof.
  intros Hd. exists []. unfold dirs. rewrite filter_cons_False by (cbn; by rewrite Hd). by rewrite app_nil_r.
Qed.

Lemma removed_add_watch ifd p fl r h h' :
  quiet (Ev (Inotify_add_watch ifd p fl) r :: h) h' -> removed h' = removed h.
Proof. intros Hq. by rewrite (quiet_removed _ _ Hq). Qed.

Lemma walked_add_watch ifd p fl r h h' :
  quiet (Ev (Inotify_add_watch ifd p fl) r :: h) h' -> walked h' = walked h.
Proof. intros Hq. rewrite (proj1 (quiet_walks _ _ Hq)). cbn. by rewrite app_nil_r. Qed.

Lemma wp_traverseAll s ifd visits (P : dt -> history -> Prop) h :
  wf s ->
  (forall s' h', wf s' -> same_globals s s' -> walk (rootDirPaths s) ifd visits (abs s) h (abs s') h' ->
     dirCnt s' = dirCnt s + (Z.of_nat (size (abs s')) - Z.of_nat (size (abs s))) ->
     removed h' = removed h -> walked h' = walked h -> P s' h') ->
  wp posix (traverseAll s ifd visits) (post P) h.
Proof.
  revert s h. induction visits as [|[p sb] visits IH]; intros s h Hwf HP; simpl.
  { apply HP; [done|done|by apply walk_refl|lia|done..]. }
  eapply wp_post; [apply wp_traverseTree; [done|..]|].
  { intros s' r h' Hd Hq Hwf' Hg Habs Hcnt. instantiate (1 := fun s' h' =>
      wf s' /\ same_globals s s' /\ walk (rootDirPaths s) ifd [(p, sb)] (abs s) h (abs s') h' /\
      dirCnt s' = dirCnt s + (Z.of_nat (size (abs s')) - Z.of_nat (size (abs s))) /\
      removed h' = removed h /\ walked h' = walked h).
    split_and!; [done..| |done|by eapply removed_add_watch|by eapply walked_add_watch]. rewrite Habs.
    rewrite isRootDirPath_in in Hq. by apply walk_one. }
  { intros Hd. split_and!; [done|done|by apply walk_file|lia|done..]. }
  intros s' h' (Hwf' & Hg & Hw & Hcnt & Hrm & Hwk). apply IH; [done|].
  intros s2 h2 Hwf2 Hg2 Hw2 Hcnt2 Hrm2 Hwk2. apply HP; [done|by eapply same_globals_trans| |lia|congruence..].
  assert (rootDirPaths s' = rootDirPaths s) as Hr by apply Hg. rewrite Hr in Hw2.
  exact (walk_trans _ _ [(p, sb)] visits _ _ _ _ _ _ Hw Hw2).
Qed.

Lemma wp_watchDir s ifd p (P : dt * Z -> history -> Prop) h :
  wf s ->
  (forall s' visits h', wf s' -> same_globals s s' ->
     walked h' = walked h ++ [(p, visits)] /\ walk (rootDirPaths s) ifd visits (abs s) h (abs s') h' ->
     removed h' = removed h ->
     P (s', Z.of_nat (size (abs s')) - Z.of_nat (size (abs s))) h') ->
  wp posix (watchDir s ifd p) (post P) h.
Proof.
  intros Hwf HP. unfold watchDir. wp_sys v Hv. destruct v as [visits r].
  eapply wp_post; [apply wp_traverseAll; [done|]|].
  { intros s' h' Hwf' Hg Hw Hcnt Hrm Hwk. instantiate (1 := fun s' h' =>
      wf s' /\ same_globals s s' /\ walk (rootDirPaths s) ifd visits (abs s) h (abs s') h' /\ walked h' = walked h ++ [(p, visits)] /\
      dirCnt s' = Z.of_nat (size (abs s')) - Z.of_nat (size (abs s)) /\ removed h' = removed h).
    destruct Hw as (rs & Hl & Hm & Hws). cbn in Hws. rewrite app_nil_r in Hws.
    split_and!; [done..|by exists rs|done| |done]. simpl in Hcnt. unfold abs in *. simpl in Hcnt. lia. }
  intros s' h' (Hwf' & Hg & Hw & Hwk & Hcnt & Hrm). destruct r as [u|e]; simpl.
  - rewrite Hcnt. by apply HP with visits.
  - apply wp_log_bind. intros h2 Hq. simpl. rewrite Hcnt. destruct (quiet_walks _ _ Hq) as [Hq1 Hq2].
    apply HP with visits; [done..| |by rewrite (quiet_removed _ _ Hq)]. rewrite Hq1. split; [done|]. by eapply walk_quiet.
Qed.

Lemma wp_watchSubtree s ifd p (P : dt -> history -> Prop) h :
  wf s ->
  (forall s' visits h', wf s' -> same_globals s s' ->
     walked h' = walked h ++ [(p, visits)] /\ walk (rootDirPaths s) ifd visits (abs s) h (abs s') h' ->
     removed h' = removed h -> P s' h') ->
  wp posix (watchSubtree s ifd p) (post P) h.
Proof.
  intros Hwf HP. unfold watchSubtree. eapply wp_post; [apply wp_watchDir; [done|]|].
  { intros s' visits h' Hwf' Hg Hw Hrm. instantiate (1 := fun '(s', _) h' => exists visits,
      wf s' /\ same_globals s s' /\ (walked h' = walked h ++ [(p, visits)] /\
      walk (rootDirPaths s) ifd visits (abs s) h (abs s') h') /\ removed h' = removed h).
    by exists visits. }
  intros [s' cnt] h' (visits & Hwf' & Hg & [Hwk Hw] & Hrm). apply wp_log_bind. intros h2 Hq. destruct (quiet_walks _ _ Hq) as [Hq1 Hq2].
  apply HP with visits; [done..| |by rewrite (quiet_removed _ _ Hq)]. rewrite Hq1. split; [done|]. by eapply walk_quiet.
Qed.

(** *** Rewriting and zapping *)

Definition renamed (fullPath newPrefix p : list ascii) : list ascii :=
  if under fullPath p
  then snprintf PATH_MAX (newPrefix ++ drop (length fullPath) p) else p.

Definition rename_slot (fullPath newPrefix : list ascii) (w : watch) : watch :=
  Watch (wd w) (renamed fullPath newPrefix (path w)).

Lemma under_nil dir : dir <> [] -> under dir [] = false.
Proof.
  intros Hd. unfold under, strncmp_eq. rewrite take_nil, firstn_all.
  by rewrite bool_decide_eq_false_2.
Qed.

Lemma used_rename full new w : used (rename_slot full new w) = used w.
Proof. done. Qed.

Lemma absl_rename full new l :
  absl (map (rename_slot full new) l) = renamed full new <$> absl l.
Proof.
  induction l as [|w l IH]; simpl; [by rewrite fmap_empty|].
  rewrite used_rename, IH. destruct (used w); [by rewrite fmap_insert|done].
Qed.

Lemma wfl_rename full new l : full <> [] -> wfl l -> wfl (map (rename_slot full new) l).
Proof.
  intros Hf [Hs Hi]. split.
  - apply Forall_map. eapply Forall_impl; [done|]. intros w [[H1 H2]|H1]; [left|by right].
    simpl. unfold renamed. rewrite H2, under_nil by done. done.
  - intros i j w w' Hw Hw' Hu He. apply list_lookup_fmap_Some in Hw as (u & -> & Hu1).
    apply list_lookup_fmap_Some in Hw' as (u' & -> & Hu2). by apply (Hi i j u u').
Qed.

Lemma insert_middle {A} (l1 l2 : list A) x y :
  <[length l1 := y]> (l1 ++ x :: l2) = (l1 ++ [y]) ++ l2.
Proof. rewrite insert_app_r_alt by done. by rewrite Nat.sub_diag, <- app_assoc. Qed.

Lemma wp_rewriteSlots s l1 l2 full new (P : dt -> history -> Prop) h :
  (forall h', quiet h h' ->
     P (set_wlCache (l1 ++ map (rename_slot full new) l2) s) h') ->
  wp posix (rewriteSlots (length l2) (set_wlCache (l1 ++ l2) s) (length l1) full new) (post P) h.
Proof.
  revert l1 h. induction l2 as [|w l2 IH]; intros l1 h HP; cbn [rewriteSlots length].
  { simpl in HP. apply HP, quiet_refl. }
  cbn [wlCache set_wlCache]. rewrite list_lookup_middle by done.
  assert (rename_slot full new w = if under full (path w)
    then Watch (wd w) (take PATH_MAX (snprintf PATH_MAX (new ++ drop (length full) (path w)))) else w) as Hw.
  { unfold rename_slot, renamed, snprintf. destruct w as [d p]; simpl.
    destruct (under full p); [|done]. by rewrite take_take. }
  destruct (under full (path w)).
  - eapply wp_post with (P := fun _ h' => quiet h h').
    { destruct (_ <? _); [by apply wp_logMessage|apply quiet_refl]. }
    intros [] h' Hq. apply wp_log_bind. intros h2 Hq2. simpl.
    rewrite insert_middle, <- Hw.
    replace (S (length l1)) with (length (l1 ++ [rename_slot full new w]))
      by (rewrite length_app; simpl; lia).
    apply IH. intros h3 Hq3. rewrite <- app_assoc. apply HP. eauto using quiet_trans.
  - replace (l1 ++ w :: l2) with ((l1 ++ [w]) ++ l2) by (by rewrite <- app_assoc).
    replace (S (length l1)) with (length (l1 ++ [w])) by (rewrite length_app; simpl; lia).
    apply IH. intros h3 Hq3. rewrite <- app_assoc. cbn [map] in HP. rewrite Hw in HP. by apply HP.
Qed.

Definition zap_slot (pn : list ascii) (w : watch) : watch :=
  if used w && under pn (path w) then Watch (-1) [] else w.

(** The watches that zapping [pn] removes, in slot order. *)
Definition zapped (pn : list ascii) (l : list watch) : list Z :=
  map wd (List.filter (fun w => used w && under pn (path w)) l).

(** [l'] is [l] with some slots emptied. *)
Definition erased (l l' : list watch) : Prop :=
  Forall2 (fun w w' => w' = w \/ w' = Watch (-1) []) l l'.

Lemma erased_refl l : erased l l.
Proof. induction l; constructor; auto. Qed.

Lemma erased_app l1 l1' l2 l2' : erased l1 l1' -> erased l2 l2' -> erased (l1 ++ l2) (l1' ++ l2').
Proof. apply Forall2_app. Qed.

Lemma erased_zap pn l : erased l (map (zap_slot pn) l).
Proof.
  induction l as [|w l IH]; simpl; constructor; [|done].
  unfold zap_slot. destruct (_ && _); auto.
Qed.

Lemma erased_wfl l l' : erased l l' -> wfl l -> wfl l'.
Proof.
  intros He [Hs Hi]. split.
  - clear Hi. induction He as [|w w' l l' Hw _ IH]; [done|]. apply Forall_cons in Hs as [Hs1 Hs2].
    constructor; [|by apply IH]. destruct Hw as [->| ->]; [done|apply slot_ok_empty].
  - assert (forall k v, l' !! k = Some v -> 0 <= wd v -> l !! k = Some v) as Hold.
    { intros k v Hk Hv. destruct (Forall2_lookup_r _ _ _ _ _ He Hk) as (u & Hu & [->| ->]); [done|].
      simpl in Hv. lia. }
    intros i j w w' Hw Hw' Hu Hd. apply used_spec in Hu.
    apply (Hi i j w w'); [by apply Hold|apply Hold; [done|lia]|by apply used_spec|done].
Qed.

Lemma absl_zap pn l :
  wfl l -> absl (map (zap_slot pn) l) = filter (fun e => under pn e.2 = false) (absl l).
Proof.
  intros Hwf. pose proof (erased_wfl _ _ (erased_zap pn l) Hwf) as Hwf'.
  apply map_eq. intros d. apply option_eq. intros p.
  rewrite map_lookup_filter_Some. rewrite !absl_lookup by (by destruct Hwf, Hwf').
  cbn [snd]. split.
  - intros (Hd & j & Hj). apply list_lookup_fmap_Some in Hj as (w & Hz & Hj).
    unfold zap_slot in Hz. destruct (used w && under pn (path w)) eqn:Hu.
    + injection Hz as -> _. lia.
    + subst w. simpl in Hu. split; [eauto|].
      apply andb_false_iff in Hu as [Hu|?]; [unfold used in Hu; simpl in Hu; lia|done].
  - intros [(Hd & j & Hj) Hu]. split; [done|]. exists j. apply list_lookup_fmap_Some.
    exists (Watch d p). split; [|done]. unfold zap_slot. simpl. by rewrite Hu, andb_false_r.
Qed.

Lemma wp_zapSlots s ifd l1 l2 pn cnt (P : dt * Z -> history -> Prop) h :
  (forall h', removed h' = rev (zapped pn l2) ++ removed h ->
     P (set_wlCache (l1 ++ map (zap_slot pn) l2) s, cnt + Z.of_nat (length (zapped pn l2))) h') ->
  (forall l2' h', erased l2 l2' -> P (set_wlCache (l1 ++ l2') s, -1) h') ->
  wp posix (zapSlots (length l2) (set_wlCache (l1 ++ l2) s) ifd (length l1) pn cnt) (post P) h.
Proof.
  revert l1 cnt h. induction l2 as [|w l2 IH]; intros l1 cnt h HP HE; cbn [zapSlots length].
  { rewrite <- (Z.add_0_r cnt). by apply HP. }
  cbn [wlCache set_wlCache]. rewrite list_lookup_middle by done. unfold zapped, zap_slot in HP. cbn [map List.filter] in HP.
  destruct (used w && under pn (path w)) eqn:Hz.
  - apply wp_log_bind. intros h1 Hq1. wp_sys r Hr. destruct r as [[]|e].
    + eapply wp_post; [eapply wp_markCacheSlotEmpty; [simpl; by apply list_lookup_middle|]|].
      { intros h2 Hq2. instantiate (1 := fun s' h2 => removed h2 = wd w :: removed h /\
          s' = set_wlCache ((l1 ++ [Watch (-1) []]) ++ l2) s).
        split; [|simpl; by rewrite insert_middle].
        rewrite (quiet_removed _ _ Hq2). simpl. by rewrite (quiet_removed _ _ Hq1). }
      intros s' h2 [Hrm ->].
      replace (S (length l1)) with (length (l1 ++ [Watch (-1) []])) by (rewrite length_app; simpl; lia).
      apply IH.
      * intros h3 Hrm3. rewrite <- app_assoc.
        replace (cnt + 1 + Z.of_nat (length (zapped pn l2)))
          with (cnt + Z.of_nat (S (length (zapped pn l2)))) by lia.
        apply HP. rewrite Hrm3, Hrm. cbn [rev map]. by rewrite <- app_assoc.
      * intros l2' h3 He. rewrite <- app_assoc. apply HE. constructor; [by right|done].
    + apply wp_log_bind. intros h2 Hq2. apply (HE (w :: l2)), erased_refl.
  - replace (l1 ++ w :: l2) with ((l1 ++ [w]) ++ l2) by (by rewrite <- app_assoc).
    replace (S (length l1)) with (length (l1 ++ [w])) by (rewrite length_app; simpl; lia).
    apply IH; intros; rewrite <- app_assoc; [by apply HP|]. apply HE. constructor; [by left|done].
Qed.

Lemma set_wlCache_self s : set_wlCache (wlCache s) s = s.
Proof. by destruct s. Qed.

Lemma wp_zapSubtree s ifd p (P : dt * Z -> history -> Prop) h :
  wf s ->
  (forall s' h', wf s' -> same_globals s s' ->
     abs s' = filter (fun e => under p e.2 = false) (abs s) ->
     removed h' = rev (zapped p (wlCache s)) ++ removed h ->
     P (s', Z.of_nat (length (zapped p (wlCache s)))) h') ->
  (forall s' h', wf s' -> same_globals s s' -> P (s', -1) h') ->
  wp posix (zapSubtree s ifd p) (post P) h.
Proof.
  intros [Hwf [k Hk]] HP HE. unfold zapSubtree. apply wp_log_bind. intros h1 Hq1.
  wp_sys ok Hok. destruct ok; [|done].
  pose proof (fun Q => wp_zapSlots s ifd [] (wlCache s) p 0 Q (Ev (Alloc (strlen p + 1)) true :: h1)) as Hz.
  change ([] ++ wlCache s) with (wlCache s) in Hz. rewrite set_wlCache_self in Hz. apply Hz; clear Hz.
  - intros h' Hrm. apply HP; [split|done| |].
    + simpl. apply (erased_wfl (wlCache s)); [apply erased_zap|done].
    + exists k. simpl. by rewrite length_map.
    + by apply absl_zap.
    + rewrite Hrm. simpl. by rewrite (quiet_removed _ _ Hq1).
  - intros l' h' He. apply HE; [split|done].
    + by apply (erased_wfl (wlCache s)).
    + exists k. simpl. by rewrite <- (Forall2_length _ _ _ He).
Qed.

Lemma snprintf_join_neq p q : snprintf PATH_MAX (p ++ $"/" ++ q) <> [].
Proof. unfold snprintf, PATH_MAX. by destruct p. Qed.

Lemma wp_rewriteCachedPaths s p1 n1 p2 n2 (P : dt -> history -> Prop) h :
  wf s ->
  (forall s' h', wf s' -> same_globals s s' -> quiet h h' ->
     abs s' = renamed (snprintf PATH_MAX (p1 ++ $"/" ++ n1))
                      (snprintf PATH_MAX (p2 ++ $"/" ++ n2)) <$> abs s -> P s' h') ->
  wp posix (rewriteCachedPaths s p1 n1 p2 n2) (post P) h.
Proof.
  intros [Hwf [k Hk]] HP. unfold rewriteCachedPaths. apply wp_log_bind. intros h1 Hq1.
  pose proof (fun Q f n => wp_rewriteSlots s [] (wlCache s) f n Q h1) as Hr.
  change ([] ++ wlCache s) with (wlCache s) in Hr. rewrite set_wlCache_self in Hr. apply Hr; clear Hr.
  intros h' Hq. apply HP; [split|done|by eapply quiet_trans|].
  - apply wfl_rename; [apply snprintf_join_neq|done].
  - exists k. simpl. by rewrite length_map.
  - apply absl_rename.
Qed.

(** *** Rebuilding *)

(** The roots were walked one after the other, and what the walks visited was watched. *)
Definition walks (s : dt) (fd : Z) (roots : list (option (list ascii))) (m : gmap Z (list ascii)) (h : history)
    (m' : gmap Z (list ascii)) (h' : history) : Prop :=
  exists vs, length vs = length (omap id roots) /\ walked h' = walked h ++ zip (omap id roots) vs /\
    walk (rootDirPaths s) fd (concat vs) m h m' h'.

Lemma wp_watchRoots s ifd roots (P : dt -> history -> Prop) h :
  wf s ->
  (forall s' h', wf s' -> same_globals s s' -> walks s ifd roots (abs s) h (abs s') h' ->
     removed h' = removed h -> P s' h') ->
  wp posix (watchRoots s ifd roots) (post P) h.
Proof.
  revert s h. induction roots as [|[p|] roots IH]; intros s h Hwf HP; cbn [watchRoots].
  - apply HP; [done..| |done]. exists []. split_and!; [done|by rewrite app_nil_r|by apply walk_refl].
  - eapply wp_post; [apply wp_watchSubtree; [done|]|].
    { intros s' visits h' Hwf' Hg Hw Hrm. instantiate (1 := fun s' h' => exists visits,
        wf s' /\ same_globals s s' /\ (walked h' = walked h ++ [(p, visits)] /\
        walk (rootDirPaths s) ifd visits (abs s) h (abs s') h') /\ removed h' = removed h).
      by exists visits. }
    intros s' h' (v1 & Hwf' & Hg & [Hwk Hw] & Hrm). apply IH; [done|].
    intros s2 h2 Hwf2 Hg2 (vs & Hl & Hwk2 & Hw2) Hrm2.
    apply HP; [done|by eapply same_globals_trans| |congruence].
    assert (rootDirPaths s' = rootDirPaths s) as Hr by apply Hg. rewrite Hr in Hw2.
    exists (v1 :: vs). cbn. rewrite Hl, Hwk2, Hwk, <- app_assoc. split_and!; [done..|]. by eapply walk_trans.
  - by apply IH.
Qed.

Lemma wf_free s : wf (freeCache s).
Proof. split; [split; [constructor|done]|]. by exists 0%nat. Qed.

(** Everything but the cache and the counters is the same. *)
Definition same_options (s s' : dt) : Prop :=
  rootDirPaths s' = rootDirPaths s /\ ignoreRootDirs s' = ignoreRootDirs s /\
  verboseMask s' = verboseMask s /\ checkCache s' = checkCache s /\
  dumpCache s' = dumpCache s /\ readBufferSize s' = readBufferSize s /\
  stopFile s' = stopFile s /\ abortOnCacheProblem s' = abortOnCacheProblem s /\
  logfp s' = logfp s.

Lemma same_globals_options s s' : same_globals s s' -> same_options s s'.
Proof. unfold same_globals, same_options. intuition. Qed.

Lemma same_options_trans s1 s2 s3 :
  same_options s1 s2 -> same_options s2 s3 -> same_options s1 s3.
Proof. unfold same_options. intuition congruence. Qed.

(** The cache is rebuilt from nothing, whatever it was before. *)
Lemma wp_reinitialize s old (P : dt * Z -> history -> Prop) h :
  (forall s' fd h', wf s' -> same_options s s' -> walks s fd (rootDirPaths s) ∅ h (abs s') h' ->
     0 <= fd /\ Ev Inotify_init (Ok fd) ∈ h' -> P (s', fd) h') ->
  wp posix (reinitialize s old) (post P) h.
Proof.
  intros HP. unfold reinitialize.
  eapply wp_post with (P := fun s1 h1 => same_options s s1 /\ walked h1 = walked h /\ watched h1 = watched h).
  { destruct (0 <=? old); [wp_sys r Hr|]; apply wp_log_bind; intros h1 Hq; destruct (quiet_walks _ _ Hq) as [Hk Hw];
      cbn in Hk, Hw; rewrite ?app_nil_r in *; by cbn [wp post]. }
  intros s1 h1 (Hs1 & Hk1 & Hw1). wp_sys r Hr. destruct r as [fd|e]; [|by apply wp_errExit_dt].
  apply wp_log_bind. intros h2 Hq2. destruct (quiet_walks _ _ Hq2) as [Hk2 Hw2]. cbn in Hk2, Hw2. rewrite app_nil_r in Hk2, Hw2.
  assert (rootDirPaths s1 = rootDirPaths s) as Hroots by apply Hs1.
  assert (Ev Inotify_init (Ok fd) ∈ h2) as Hin by (destruct Hq2 as (o & -> & _); apply elem_of_app; right; left).
  eapply wp_post with (P := fun s' h' => wf s' /\ same_options s s' /\ walks s fd (rootDirPaths s) ∅ h (abs s') h' /\ Ev Inotify_init (Ok fd) ∈ h').
  { eapply wp_mono; [|apply wp_conj; [apply wp_watchRoots with (P := fun s' h' => wf s' /\ same_options s s' /\
        walks s fd (rootDirPaths s) ∅ h (abs s') h'); [apply wf_free|]|apply (wp_extends posix)]].
    { intros [s'|st] h' [H [k ->]]; [|exact H]. destruct H as (? & ? & ?). split_and!; [done..|]. apply elem_of_app. by right. }
    intros s' h' Hwf' Hg (vs & Hl & Hwk & Hw) _. split_and!; [done| |].
    - eapply same_options_trans; [exact Hs1|]. by apply same_globals_options in Hg.
    - cbn [freeCache rootDirPaths] in *. rewrite Hroots in *. exists vs. split_and!; [done|congruence|].
      change (rootDirPaths (freeCache s1)) with (rootDirPaths s1) in Hw. rewrite Hroots in Hw.
      destruct Hw as (rs & ? & Hm & Hww). exists rs. split_and!; [done|done|]. by rewrite Hww, Hw2, Hw1. }
  intros s' h' (Hwf' & Hso & Hgr & Hi). destruct (0 <=? old).
  - apply wp_log_bind. intros h3 Hq3. destruct (quiet_walks _ _ Hq3) as [Hk3 Hw3]. apply HP; [done..| |split; [by destruct Hr|]].
    + destruct Hgr as (vs & ? & ? & ?). exists vs. split_and!; [done|congruence|]. by eapply walk_quiet.
    + destruct Hq3 as (o & -> & _). apply elem_of_app. by right.
  - apply HP; [done..|split; [by destruct Hr|done]].
Qed.

(** *** Pathnames below a directory *)

Lemma under_spec dir t :
  under dir (dir ++ t) = true <-> (forall c u, t = c :: u -> c = "/"%char \/ c = NUL).
Proof.
  unfold under. assert (strncmp_eq dir (dir ++ t) (length dir) = true) as ->.
  { apply strncmp_eq_prefix. eauto. }
  assert (char_at (dir ++ t) (length dir) = char_at t 0) as ->.
  { unfold char_at. rewrite app_nth2 by lia. by rewrite Nat.sub_diag. }
  destruct t as [|c u]; [split; [done|by intros _]|].
  change (char_at (c :: u) 0) with c. split.
  - intros Hc c' u' [= <- <-].
    destruct (Ascii.eqb_spec c "/"), (Ascii.eqb_spec c NUL); by auto.
  - intros Hc. destruct (Hc c u eq_refl) as [->| ->]; done.
Qed.

Lemma under_self dir : under dir dir = true.
Proof. rewrite <- (app_nil_r dir) at 2. by apply under_spec. Qed.

Lemma under_child dir u : under dir (dir ++ "/"%char :: u) = true.
Proof. apply under_spec. intros c v [= <- _]. by left. Qed.

Lemma under_sibling dir c u : c <> "/"%char -> c <> NUL -> under dir (dir ++ c :: u) = false.
Proof.
  intros H1 H2. destruct (under dir (dir ++ c :: u)) eqn:Hu; [|done].
  rewrite under_spec in Hu. by destruct (Hu c u eq_refl).
Qed.

Lemma under_not_prefix dir p : (forall t, p <> dir ++ t) -> under dir p = false.
Proof.
  intros Hp. unfold under. destruct (strncmp_eq dir p (length dir)) eqn:Hs; [|done].
  apply strncmp_eq_prefix in Hs as [t ->]. by destruct (Hp t).
Qed.

Lemma renamed_fits full new t :
  (length new + length t < PATH_MAX)%nat -> under full (full ++ t) = true ->
  renamed full new (full ++ t) = new ++ t.
Proof.
  intros Hlen Hu. unfold renamed. rewrite Hu, drop_app_length. unfold snprintf.
  apply take_ge. rewrite length_app. lia.
Qed.

Lemma join_fits p q :
  (length p + length q + 1 < PATH_MAX)%nat ->
  snprintf PATH_MAX (p ++ $"/" ++ q) = p ++ $"/" ++ q.
Proof. intros Hl. unfold snprintf. apply take_ge. len. Qed.

End Cache.

(** ** Properties

    A cache of 200 slots with three directories, for the witnesses. *)

Definition demo_cache : list watch :=
  <[2%nat := Watch 7 ($"/t/abc")]> (<[1%nat := Watch 5 ($"/t/a/x")]>
    (<[0%nat := Watch 3 ($"/t/a")]> (replicate ALLOC_INCR (Watch (-1) [])))).

Definition demo : dt :=
  Dt demo_cache [Some ($"/t")] 0 0 0 false false 0 [] false None 0 0 0.

Lemma demo_wf : wf demo.
Proof.
  split; [|by exists 1%nat]. cbn [wlCache demo]. unfold demo_cache.
  assert (forall d i u, 0 <= d -> (replicate ALLOC_INCR (Watch (-1) [])) !! i = Some u -> wd u <> d)
    as Hr.
  { intros d i u Hd [-> _]%lookup_replicate. simpl. lia. }
  assert (forall (l : list watch) j w d, 0 <= d -> wd w <> d ->
    (forall i u, l !! i = Some u -> wd u <> d) ->
    forall i u, <[j := w]> l !! i = Some u -> wd u <> d) as Hins.
  { intros l j w d Hd Hw Hl i u Hi. apply list_lookup_insert_Some in Hi as [(_ & <- & _)|[_ Hi]]; eauto. }
  assert (wfl (replicate ALLOC_INCR (Watch (-1) []))) as Hbase.
  { apply (wfl_grow [] ALLOC_INCR). split; [constructor|done]. }
  assert (forall i u, replicate ALLOC_INCR (Watch (-1) []) !! i = Some u -> wd u <> 3) as H3
    by (intros i u; by apply Hr).
  eapply wfl_insert; [|reflexivity|by right|right; right; do 2 (apply Hins; [done..|])].
  { eapply wfl_insert; [|reflexivity|by right|right; right; apply Hins; [done..|]].
    { eapply wfl_insert; [done|reflexivity|by right|by right; right]. }
    intros i u. by apply Hr. }
  intros i u. by apply Hr.
Qed.

Section CacheProperties.
Context {T : ErrText}.

(** [zapSubtree] implements the removal of a subtree from the cache seen as
    a map from watch descriptors to pathnames.  When it returns a count, exactly
    the entries at or below the path are gone, the count is their number, and
    inotify_rm_watch succeeded on exactly their descriptors, in slot order; when
    it returns -1 the cache is still well formed; the other globals are
    untouched. *)
Lemma zapSubtree_refines s inotifyFd p h :
  wf s ->
  wp posix (zapSubtree s inotifyFd p) (post (fun '(s', cnt) h' =>
    wf s' /\ same_globals s s' /\
    (cnt = -1 \/
     abs s' = filter (fun e => under p e.2 = false) (abs s) /\
     cnt = Z.of_nat (length (zapped p (wlCache s))) /\
     removed h' = rev (zapped p (wlCache s)) ++ removed h))) h.
Proof. intros Hwf. apply wp_zapSubtree; auto 10. Qed.

(** An intra-tree rename rewrites the cache as the rename of the directory
    moves the subtree.  The pathname of the directory and every pathname below
    it keep what follows the old name and get the new name in front (when the
    result fits PATH_MAX); every other entry, siblings whose names merely start
    with the old name included, and the set of descriptors, stay as they were. *)
Lemma rewriteCachedPaths_moves s p1 n1 p2 n2 h :
  wf s ->
  (length p1 + length n1 + 1 < PATH_MAX)%nat -> (length p2 + length n2 + 1 < PATH_MAX)%nat ->
  let old := p1 ++ $"/" ++ n1 in
  let new := p2 ++ $"/" ++ n2 in
  wp posix (rewriteCachedPaths s p1 n1 p2 n2) (post (fun s' h' =>
    wf s' /\ same_globals s s' /\ dom (abs s') = dom (abs s) /\
    (forall d, abs s !! d = Some old -> abs s' !! d = Some new) /\
    (forall d u, abs s !! d = Some (old ++ "/"%char :: u) ->
       (length new + length u + 1 < PATH_MAX)%nat ->
       abs s' !! d = Some (new ++ "/"%char :: u)) /\
    (forall d p, abs s !! d = Some p -> (forall t, p <> old ++ t) -> abs s' !! d = Some p) /\
    (forall d c u, abs s !! d = Some (old ++ c :: u) -> c <> "/"%char -> c <> NUL ->
       abs s' !! d = Some (old ++ c :: u)))) h.
Proof.
  intros Hwf H1 H2 old new. apply wp_rewriteCachedPaths; [done|].
  intros s' h' Hwf' Hg _ Habs. rewrite !join_fits in Habs by lia. fold old new in Habs.
  assert (length new < PATH_MAX)%nat as Hnew.
  { unfold new. len. }
  split_and!; [done|done|by rewrite Habs, dom_fmap_L|..]; intros d;
    rewrite Habs, lookup_fmap.
  - intros ->. simpl. f_equal. rewrite <- (app_nil_r old) at 2. rewrite <- (app_nil_r new) at 2.
    apply renamed_fits; [simpl; lia|]. by apply under_spec.
  - intros u -> Hl. simpl. f_equal. apply renamed_fits; [simpl; lia|apply under_child].
  - intros p -> Hp. simpl. f_equal. unfold renamed. by rewrite under_not_prefix.
  - intros c u -> Hc1 Hc2. simpl. f_equal. unfold renamed. by rewrite under_sibling.
Qed.

(** [watchDir] calls nftw() once, on its pathname, and asks for a watch on exactly
    the directories among the files that this call visited, in the order of the walk;
    the cache seen as a map is what the replies make of it, and the count returned is the
    number of new entries.
    The cache stays well formed (no descriptor occurs twice) even when
    inotify_add_watch() returns a descriptor that is already cached, fails
    because the directory is gone, or the cache has to be enlarged. *)
Lemma watchDir_grows s inotifyFd p h :
  wf s ->
  wp posix (watchDir s inotifyFd p) (post (fun '(s', cnt) h' =>
    wf s' /\ same_globals s s' /\
    cnt = Z.of_nat (size (abs s')) - Z.of_nat (size (abs s)) /\
    exists visits, walked h' = walked h ++ [(p, visits)] /\
      walk (rootDirPaths s) inotifyFd visits (abs s) h (abs s') h')) h.
Proof. intros Hwf. apply wp_watchDir; [done|]. intros. split_and!; eauto. Qed.

(** [reinitialize] starts from nothing: whatever the cache was (well formed
    or not), after it returns nftw() was called once for each root path, in order, the
    cache is well formed and is what the replies to the watches on the visited directories
    make of the empty map, the descriptor is the reply of an inotify_init() call, and
    options and root paths are as before. *)
Lemma reinitialize_rebuilds s oldInotifyFd h :
  wp posix (reinitialize s oldInotifyFd) (post (fun '(s', fd) h' =>
    wf s' /\ same_options s s' /\ 0 <= fd /\ Ev Inotify_init (Ok fd) ∈ h' /\
    walks s fd (rootDirPaths s) ∅ h (abs s') h')) h.
Proof. apply wp_reinitialize. intros s' fd h' Hwf Ho Hw [Hfd Hi]. by split_and!. Qed.

(** C2: removing, renaming and watching subtrees of the cache, seen as a map from watch
    descriptors to pathnames.  When [zapSubtree] returns a count, exactly the
    entries at or below the path are gone, the count is their number, and
    inotify_rm_watch succeeded on exactly their descriptors, in slot order; when it
    returns -1 the cache is still well formed.  An intra-tree rename rewrites the
    cache as the rename of the directory moves the subtree: the pathname of the
    directory and every pathname below it keep what follows the old name and get
    the new name in front (when the result fits PATH_MAX); every other entry,
    siblings whose names merely start with the old name included, and the set of
    descriptors stay as they were.  [watchDir] calls nftw() once, on the pathname
    it was given, and asks for a watch, on the inotify descriptor it was given, on exactly
    the directories among the files that this call visited, once each and in the order
    of the walk, with moves of the directory itself in the mask for root paths only; the
    map afterwards is the map before with what the replies add: a descriptor that was not
    cached maps to its pathname, nothing changes when the descriptor is cached already or
    the directory is gone.  The count returned is the number of new entries.  These
    leave the other globals untouched.  [reinitialize] walks the root paths in order, each
    once, and yields, whatever the cache was before, the well-formed cache that the replies
    of inotify_add_watch() make of the empty map, on the descriptor that inotify_init()
    returned, with the options and root paths as before. *)
Theorem subtree_updates :
  (forall s inotifyFd p h,
   wf s ->
    wp posix (zapSubtree s inotifyFd p) (post (fun '(s', cnt) h' =>
      wf s' /\ same_globals s s' /\
      (cnt = -1 \/
       abs s' = filter (fun e => under p e.2 = false) (abs s) /\
       cnt = Z.of_nat (length (zapped p (wlCache s))) /\
       removed h' = rev (zapped p (wlCache s)) ++ removed h))) h) /\
  (forall s p1 n1 p2 n2 h,
   wf s ->
    (length p1 + length n1 + 1 < PATH_MAX)%nat -> (length p2 + length n2 + 1 < PATH_MAX)%nat ->
    let old := p1 ++ $"/" ++ n1 in
    let new := p2 ++ $"/" ++ n2 in
    wp posix (rewriteCachedPaths s p1 n1 p2 n2) (post (fun s' h' =>
      wf s' /\ same_globals s s' /\ dom (abs s') = dom (abs s) /\
      (forall d, abs s !! d = Some old -> abs s' !! d = Some new) /\
      (forall d u, abs s !! d = Some (old ++ "/"%char :: u) ->
         (length new + length u + 1 < PATH_MAX)%nat ->
         abs s' !! d = Some (new ++ "/"%char :: u)) /\
      (forall d p, abs s !! d = Some p -> (forall t, p <> old ++ t) -> abs s' !! d = Some p) /\
      (forall d c u, abs s !! d = Some (old ++ c :: u) -> c <> "/"%char -> c <> NUL ->
         abs s' !! d = Some (old ++ c :: u)))) h) /\
  (forall s inotifyFd p h,
   wf s ->
    wp posix (watchDir s inotifyFd p) (post (fun '(s', cnt) h' =>
      wf s' /\ same_globals s s' /\
      cnt = Z.of_nat (size (abs s')) - Z.of_nat (size (abs s)) /\
      exists visits, walked h' = walked h ++ [(p, visits)] /\
      walk (rootDirPaths s) inotifyFd visits (abs s) h (abs s') h')) h) /\
  (forall s oldInotifyFd h,
   wp posix (reinitialize s oldInotifyFd) (post (fun '(s', fd) h' =>
      wf s' /\ same_options s s' /\ 0 <= fd /\ Ev Inotify_init (Ok fd) ∈ h' /\
      walks s fd (rootDirPaths s) ∅ h (abs s') h')) h).
Proof. split_and!; [exact zapSubtree_refines|exact rewriteCachedPaths_moves|exact watchDir_grows|exact reinitialize_rebuilds]. Qed.

End CacheProperties.

Lemma subtree_updates_witness :
  wf demo /\
  wp posix (zapSubtree (T := demo_text) demo 4 ($"/t/a")) (post (fun '(s', cnt) h' =>
    wf s' /\ same_globals demo s' /\
    (cnt = -1 \/
     abs s' = filter (fun e => under ($"/t/a") e.2 = false) (abs demo) /\
     cnt = Z.of_nat (length (zapped ($"/t/a") (wlCache demo))) /\
     removed h' = rev (zapped ($"/t/a") (wlCache demo)) ++ removed []))) [] /\
  abs demo !! 5 = Some ($"/t/a/x") /\
  wp posix (rewriteCachedPaths demo ($"/t") ($"a") ($"/t") ($"b")) (post (fun s' h' =>
    abs s' !! 5 = Some ($"/t/b/x") /\ abs s' !! 7 = Some ($"/t/abc"))) [].
Proof.
  split; [apply demo_wf|]. split; [apply (proj1 (subtree_updates (T := demo_text))), demo_wf|]. split; [reflexivity|].
  eapply post_mono; [apply (proj1 (proj2 (subtree_updates (T := demo_text)))); [apply demo_wf|vm_compute; lia|vm_compute; lia]|].
  intros s' h' (_ & _ & _ & _ & Hbelow & _ & Hsib). split.
  - apply (Hbelow 5 ($"x")); [reflexivity|vm_compute; lia].
  - apply (Hsib 7 "b"%char ($"c")); [reflexivity|done..].
Defined.

