(* ===== verification/InotifyEvents.v ===== *)
(** * inotify/inotify_dtree.c: events, commands and the main loop

    The events that read() returns are decoded from the bytes of the buffer
    (struct inotify_event, little endian), one or two at a time, and drive the
    cache of InotifyCache.v.  A buffer is the list of the bytes that are known
    to be there, with the count that the program keeps beside it. *)

From S2P Require Import Prelude Sys LibErrors InotifyCache.

Definition NAME_MAX : nat := 255.
Definition SIZEOF_EVENT : Z := 16.
Definition INOTIFY_READ_BUF_LEN : Z := 100 * (SIZEOF_EVENT + 255 + 1).
Definition SIGALRM : Z := 14.
Definition MAX_LINE : Z := 100.

(** ** Events *)

Record inotify_event := Event {
  ev_wd : Z; ev_mask : Z; ev_cookie : Z; ev_len : Z; ev_name : list ascii }.

(** The event at the start of a buffer; [None] if it does not lie in it. *)
Definition decode_event (buf : list ascii) : option inotify_event :=
  match buf with
  | w0 :: w1 :: w2 :: w3 :: m0 :: m1 :: m2 :: m3 ::
    c0 :: c1 :: c2 :: c3 :: l0 :: l1 :: l2 :: l3 :: rest =>
      let len := le32 l0 l1 l2 l3 in
      if len <=? Z.of_nat (length rest)
      then Some (Event (int_of (le32 w0 w1 w2 w3)) (le32 m0 m1 m2 m3) (le32 c0 c1 c2 c3)
                       len (take (Z.to_nat len) rest))
      else None
  | _ => None
  end.

Section Events.
Context {T : ErrText}.

Definition logFlag (s : dt) (ev : inotify_event) (bit : Z) (text : list ascii) : prog unit :=
  if flag (ev_mask ev) bit then logMessage s VB_NOISY text else Ret tt.

Definition displayInotifyEvent (s : dt) (ev : inotify_event) : prog unit :=
  logMessage s VB_NOISY ($"==> wd = " ++ dec (ev_wd ev) ++ $"; ") ;;;
  (if 0 <? ev_cookie ev
   then logMessage s VB_NOISY ($"cookie = " ++ pad_left 4 (dec (int_of (ev_cookie ev))) ++ $"; ")
   else Ret tt) ;;;
  logMessage s VB_NOISY ($"mask = ") ;;;
  logFlag s ev IN_ISDIR ($"IN_ISDIR ") ;;;
  logFlag s ev IN_CREATE ($"IN_CREATE ") ;;;
  logFlag s ev IN_DELETE_SELF ($"IN_DELETE_SELF ") ;;;
  logFlag s ev IN_MOVE_SELF ($"IN_MOVE_SELF ") ;;;
  logFlag s ev IN_MOVED_FROM ($"IN_MOVED_FROM ") ;;;
  logFlag s ev IN_MOVED_TO ($"IN_MOVED_TO ") ;;;
  logFlag s ev IN_IGNORED ($"IN_IGNORED ") ;;;
  logFlag s ev IN_Q_OVERFLOW ($"IN_Q_OVERFLOW ") ;;;
  logFlag s ev IN_UNMOUNT ($"IN_UNMOUNT ") ;;;
  logMessage s VB_NOISY [NL] ;;;
  if 0 <? ev_len ev
  then logMessage s VB_NOISY ($"        name = " ++ cstring_of (ev_name ev) ++ [NL])
  else Ret tt.

(** Uses of [wlCache[evCacheSlot].path] and of [ev->name]. *)
Definition with_slot {A} (s : dt) (slot : option nat) (k : nat -> watch -> prog A) : prog A :=
  match slot with
  | None => Halt (Undefined "evCacheSlot is uninitialized")
  | Some j => match wlCache s !! j with
              | Some w => k j w
              | None => Halt (Undefined "slot out of range")
              end
  end.

Definition with_name {A} (ev : inotify_event) (k : list ascii -> prog A) : prog A :=
  if 0 <? ev_len ev then k (cstring_of (ev_name ev))
  else Halt (Undefined "the event has no name").

(** A branch either goes on to the end of [processNextInotifyEvent] or returns
    from it early. *)
Inductive branch :=
| Go (s : dt) (inotifyFd evLen : Z)
| Early (s : dt) (inotifyFd evLen : Z).

(** The cache reached an inconsistent state: rebuild it and discard the events
    that remain in the buffer. *)
Definition rebuild (s : dt) (inotifyFd : Z) : prog branch :=
  '(s', fd) <- reinitialize s inotifyFd ;;
  Ret (Early s' fd INOTIFY_READ_BUF_LEN).

Definition onCreate (s : dt) (inotifyFd : Z) (slot : option nat) (ev : inotify_event)
    (evLen : Z) : prog branch :=
  with_slot s slot (fun _ w => with_name ev (fun name =>
    let fullPath := snprintf (PATH_MAX + NAME_MAX) (path w ++ $"/" ++ name) in
    logMessage s VB_BASIC ($"Directory creation on wd " ++ dec (ev_wd ev) ++ $": "
      ++ fullPath ++ [NL]) ;;;
    if pathnameInCache s fullPath then Ret (Go s inotifyFd evLen)
    else s' <- watchSubtree s inotifyFd fullPath ;; Ret (Go s' inotifyFd evLen))).

Definition onDeleteSelf (s : dt) (inotifyFd : Z) (slot : option nat) (ev : inotify_event)
    (evLen : Z) : prog branch :=
  with_slot s slot (fun j w =>
    logMessage s VB_BASIC ($"Clearing watchlist item " ++ dec (ev_wd ev) ++ $" ("
      ++ path w ++ $")" ++ [NL]) ;;;
    s1 <- (if isRootDirPath s (path w) then zapRootDirPath s (path w) else Ret s) ;;
    s2 <- markCacheSlotEmpty s1 j ;;
    Ret (Go s2 inotifyFd evLen)).

Definition onMovedFrom (s : dt) (inotifyFd : Z) (slot : option nat) (ev : inotify_event)
    (evLen : Z) (buf : list ascii) (bufSize : Z) (firstTry : bool) : prog branch :=
  let nextBuf := drop (Z.to_nat evLen) buf in
  let moved_out :=
    with_slot s slot (fun _ w => with_name ev (fun name =>
      logMessage s VB_NOISY ($"MOVED_OUT: (two addresses)" ++ [NL]) ;;;
      logMessage s VB_NOISY ($"firstTry = " ++ (if firstTry then $"1" else $"0")
        ++ $"; remaining bytes = " ++ dec (bufSize - evLen) ++ [NL]) ;;;
      let fullPath := snprintf (PATH_MAX + NAME_MAX) (path w ++ $"/" ++ name) in
      '(s', cnt) <- zapSubtree s inotifyFd fullPath ;;
      if cnt =? -1 then rebuild s' inotifyFd else Ret (Go s' inotifyFd evLen))) in
  if evLen <? bufSize then
    match decode_event nextBuf with
    | None => Halt (Undefined "the next event is not in the buffer")
    | Some nextEv =>
        if flag (ev_mask nextEv) IN_MOVED_TO && (ev_cookie nextEv =? ev_cookie ev) then
          nextSlot <- findWatchChecked s (ev_wd nextEv) ;;
          match nextSlot with
          | None => rebuild s inotifyFd
          | Some _ =>
              with_slot s slot (fun _ w => with_name ev (fun name =>
              with_slot s nextSlot (fun _ w' => with_name nextEv (fun name' =>
                s' <- rewriteCachedPaths s (path w) name (path w') name' ;;
                Ret (Go s' inotifyFd (evLen + SIZEOF_EVENT + ev_len nextEv))))))
          end
        else moved_out
    end
  else if negb firstTry then moved_out
  else
    logMessage s VB_NOISY ($"HANGING IN_MOVED_FROM" ++ [NL]) ;;;
    Ret (Early s inotifyFd (-1)).

Definition onOverflow (s : dt) (inotifyFd : Z) : prog branch :=
  let s1 := set_overflowCnt (overflowCnt s + 1) s in
  logMessage s1 0 ($"Queue overflow (" ++ dec (overflowCnt s1) ++ $") (inotifyReadCnt = "
    ++ dec (inotifyReadCnt s1) ++ $")" ++ [NL]) ;;;
  '(s2, fd) <- reinitialize s1 inotifyFd ;;
  Ret (Go s2 fd INOTIFY_READ_BUF_LEN).

Definition onUnmount (s : dt) (inotifyFd : Z) (slot : option nat) (evLen : Z) : prog branch :=
  with_slot s slot (fun j w =>
    logMessage s 0 ($"Filesystem unmounted: " ++ path w ++ [NL]) ;;;
    s' <- markCacheSlotEmpty s j ;;
    Ret (Go s' inotifyFd evLen)).

Definition onMoveSelf (s : dt) (inotifyFd : Z) (slot : option nat) (evLen : Z) : prog branch :=
  with_slot s slot (fun _ w =>
    if isRootDirPath s (path w) then
      logMessage s 0 ($"Root path moved: " ++ path w ++ [NL]) ;;;
      s1 <- zapRootDirPath s (path w) ;;
      '(s2, cnt) <- zapSubtree s1 inotifyFd (path w) ;;
      if cnt =? -1 then rebuild s2 inotifyFd else Ret (Go s2 inotifyFd evLen)
    else Ret (Go s inotifyFd evLen)).

Definition dispatch (s : dt) (inotifyFd : Z) (slot : option nat) (ev : inotify_event)
    (buf : list ascii) (bufSize : Z) (firstTry : bool) : prog branch :=
  let evLen := SIZEOF_EVENT + ev_len ev in
  let mask := ev_mask ev in
  if flag mask IN_ISDIR && flag mask (Z.lor IN_CREATE IN_MOVED_TO)
  then onCreate s inotifyFd slot ev evLen
  else if flag mask IN_DELETE_SELF
  then onDeleteSelf s inotifyFd slot ev evLen
  else if Z.land mask (Z.lor IN_MOVED_FROM IN_ISDIR) =? Z.lor IN_MOVED_FROM IN_ISDIR
  then onMovedFrom s inotifyFd slot ev evLen buf bufSize firstTry
  else if flag mask IN_Q_OVERFLOW
  then onOverflow s inotifyFd
  else if flag mask IN_UNMOUNT
  then onUnmount s inotifyFd slot evLen
  else if flag mask IN_MOVE_SELF
  then onMoveSelf s inotifyFd slot evLen
  else Ret (Go s inotifyFd evLen).

(** The state, the inotify descriptor and the number of bytes consumed; -1
    asks the caller to read more. *)
Definition processNextInotifyEvent (s : dt) (inotifyFd : Z) (buf : list ascii)
    (bufSize : Z) (firstTry : bool) : prog (dt * Z * Z) :=
  match decode_event buf with
  | None => Halt (Undefined "the event is not in the buffer")
  | Some ev =>
      displayInotifyEvent s ev ;;;
      b <- (if negb (ev_wd ev =? -1) && negb (flag (ev_mask ev) IN_IGNORED) then
              evCacheSlot <- findWatchChecked s (ev_wd ev) ;;
              match evCacheSlot with
              | None => rebuild s inotifyFd
              | Some j => dispatch s inotifyFd (Some j) ev buf bufSize firstTry
              end
            else dispatch s inotifyFd None ev buf bufSize firstTry) ;;
      match b with
      | Early s' fd n => Ret (s', fd, n)
      | Go s' fd n =>
          (if checkCache s' then checkCacheConsistency s' else Ret tt) ;;;
          (if dumpCache s' then dumpCacheToLog s' else Ret tt) ;;;
          Ret (s', fd, n)
      end
  end.

(** ** Reading a block of events

    [buf] holds the bytes from [evp] on and [n] is [buf + numRead - evp]. *)

Fixpoint eventLoop (fuel : nat) (s : dt) (inotifyFd : Z) (buf : list ascii) (n : Z)
    (firstTry : bool) : prog (dt * Z) :=
  if n <=? 0 then Ret (s, inotifyFd)
  else match fuel with
  | O => Halt OutOfFuel
  | S fuel' =>
      '(s, fd, r) <- processNextInotifyEvent s inotifyFd buf n firstTry ;;
      let evLen := int_of r in
      if 0 <? evLen
      then eventLoop fuel' s fd (drop (Z.to_nat evLen) buf) (n - evLen) true
      else
        let rest := take (Z.to_nat n) buf in
        sys (Ualarm 2000) ;;;
        nr <- sys (Read fd (INOTIFY_READ_BUF_LEN - n)) ;;
        sys (Ualarm 0) ;;;
        match nr with
        | Err e =>
            if e =? EINTR then
              let s' := set_readCnt (inotifyReadCnt s + 1) s in
              logMessage s' VB_NOISY ([NL] ++ $"==========> SECONDARY Read "
                ++ dec (inotifyReadCnt s') ++ $": got -1 bytes" ++ [NL]) ;;;
              eventLoop fuel' s' fd rest (n - 1) false
            else errExit_dt e ($"read")
        | Ok [] =>
            print Stderr ($"read() from inotify fd returned 0!") ;;; Halt (Exit EXIT_FAILURE)
        | Ok d =>
            let s' := set_readCnt (inotifyReadCnt s + 1) s in
            logMessage s' VB_NOISY ([NL] ++ $"==========> SECONDARY Read "
              ++ dec (inotifyReadCnt s') ++ $": got " ++ dec (Z.of_nat (length d))
              ++ $" bytes" ++ [NL]) ;;;
            eventLoop fuel' s' fd (rest ++ d) (n + Z.of_nat (length d)) false
        end
  end.

Definition processInotifyEvents (fuel : nat) (s : dt) (inotifyFd : Z) : prog (dt * Z) :=
  r <- sys (Sigaction SIGALRM (Sigact (Handler "alarmHandler") [] 0)) ;;
  match r with
  | Err e => errExit_dt e ($"sigaction")
  | Ok _ =>
      let cnt := if 0 <? readBufferSize s then readBufferSize s else INOTIFY_READ_BUF_LEN in
      nr <- sys (Read inotifyFd cnt) ;;
      match nr with
      | Err e => errExit_dt e ($"read")
      | Ok [] =>
          print Stderr ($"read() from inotify fd returned 0!") ;;; Halt (Exit EXIT_FAILURE)
      | Ok d =>
          if INOTIFY_READ_BUF_LEN <? Z.of_nat (length d)
          then Halt (Undefined "read overflows the event buffer")
          else
            let s' := set_readCnt (inotifyReadCnt s + 1) s in
            logMessage s' VB_NOISY ([NL] ++ $"==========> Read " ++ dec (inotifyReadCnt s')
              ++ $": got " ++ dec (Z.of_nat (length d)) ++ $" bytes" ++ [NL]) ;;;
            eventLoop fuel s' inotifyFd d (Z.of_nat (length d)) true
      end
  end.

(** ** Interactive commands *)

Fixpoint token (s : list ascii) : list ascii :=
  match s with
  | c :: s' => if isspace c then [] else c :: token s'
  | [] => []
  end.

(** [sscanf(line, "%c %s\n", &cmd, arg)] on a nonempty line: the command and
    the argument, [None] if the second conversion fails. *)
Definition scan_command (c : ascii) (rest : list ascii) : ascii * option (list ascii) :=
  match token (skip_space rest) with
  | [] => (c, None)
  | arg => (c, Some arg)
  end.

Definition with_arg {A} (arg : option (list ascii)) (k : list ascii -> prog A) : prog A :=
  match arg with
  | Some a => k a
  | None => Halt (Undefined "arg is uninitialized")
  end.

(** Command 'c' or 'C': the numbers of good entries and of failures. *)
Fixpoint verifySlots (s : dt) (verbose : bool) (l : list watch) (j : nat) (cnt failures : Z) :
    prog (Z * Z) :=
  match l with
  | [] => Ret (cnt, failures)
  | w :: l' =>
      if used w then
        r <- sys (Lstat (path w)) ;;
        match r with
        | Err e =>
            (if verbose then
               logMessage s VB_BASIC ($"stat: [slot = " ++ dec (Z.of_nat j) ++ $"; wd = "
                 ++ dec (wd w) ++ $"] " ++ path w ++ $": " ++ strerror e ++ [NL])
             else Ret tt) ;;;
            verifySlots s verbose l' (S j) cnt (failures + 1)
        | Ok sb =>
            if st_isdir sb then
              (if verbose then
                 logMessage s VB_NOISY ($"OK: [slot = " ++ dec (Z.of_nat j) ++ $"; wd = "
                   ++ dec (wd w) ++ $"] " ++ path w ++ [NL])
               else Ret tt) ;;;
              verifySlots s verbose l' (S j) (cnt + 1) failures
            else
              (if verbose then logMessage s 0 (path w ++ $" is not a directory" ++ [NL])
               else Ret tt) ;;;
              Halt (Exit EXIT_FAILURE)
        end
      else verifySlots s verbose l' (S j) cnt failures
  end.

Definition on_off (b : bool) : list ascii := (if b then $"on" else $"off") ++ [NL].

Definition set_verbose (v : Z) (s : dt) : dt :=
  set_options v (checkCache s) (dumpCache s) (readBufferSize s) (stopFile s)
    (abortOnCacheProblem s) (logfp s) s.
Definition set_dump (b : bool) (s : dt) : dt :=
  set_options (verboseMask s) (checkCache s) b (readBufferSize s) (stopFile s)
    (abortOnCacheProblem s) (logfp s) s.
Definition set_check (b : bool) (s : dt) : dt :=
  set_options (verboseMask s) b (dumpCache s) (readBufferSize s) (stopFile s)
    (abortOnCacheProblem s) (logfp s) s.

Definition commandHelp (cmd : ascii) : list ascii :=
  $"Unrecognized command: " ++ [cmd; NL] ++ $"Commands:" ++ [NL]
  ++ $"0        Rebuild cache" ++ [NL]
  ++ $"a path   Add/refresh pathname watches and cache" ++ [NL]
  ++ $"c        Verify cached pathnames" ++ [NL]
  ++ $"d        Toggle cache dumping" ++ [NL]
  ++ $"l        List cached pathnames" ++ [NL]
  ++ $"q        Quit" ++ [NL]
  ++ $"v [n]    Toggle/set verbose level for messages to stderr" ++ [NL]
  ++ $"             0 = no messages" ++ [NL]
  ++ $"             1 = basic messages" ++ [NL]
  ++ $"             2 = verbose messages" ++ [NL]
  ++ $"             3 = basic and verbose messages" ++ [NL]
  ++ $"w file   Write directory list to file" ++ [NL]
  ++ $"x        Toggle cache checking" ++ [NL]
  ++ $"z path   Zap pathname and watches from cache" ++ [NL].

Definition zapMessage (s : dt) (arg : list ascii) (cnt : Z) : prog unit :=
  logMessage s VB_BASIC ($"Zapped: " ++ arg ++ $", " ++ dec cnt ++ $" entries" ++ [NL]).

(** One command line that was read: the effect of the switch. *)
Definition runCommand (s : dt) (inotifyFd : Z) (cmd : ascii) (arg : option (list ascii)) :
    prog (dt * Z) :=
  if Ascii.eqb cmd "a" then
    with_arg arg (fun arg =>
      '(s1, cnt) <- zapSubtree s inotifyFd arg ;;
      (if cnt =? 0 then logMessage s1 VB_BASIC ($"Adding new subtree: " ++ arg ++ [NL])
       else zapMessage s1 arg cnt) ;;;
      s2 <- watchSubtree s1 inotifyFd arg ;;
      Ret (s2, inotifyFd))
  else if Ascii.eqb cmd "c" || Ascii.eqb cmd "C" then
    '(cnt, failures) <- verifySlots s (Ascii.eqb cmd "c") (wlCache s) 0 0 0 ;;
    logMessage s 0 ($"Successfully verified " ++ dec cnt ++ $" entries" ++ [NL]) ;;;
    logMessage s 0 ($"Failures: " ++ dec failures ++ [NL]) ;;;
    Ret (s, inotifyFd)
  else if Ascii.eqb cmd "l" then
    each_used (fun j w => logMessage s 0 (dec (Z.of_nat j) ++ $": " ++ dec (wd w) ++ $" "
      ++ path w ++ [NL])) (wlCache s) 0 ;;;
    logMessage s VB_BASIC ($"Total entries: " ++ dec (Z.of_nat (count_used (wlCache s))) ++ [NL]) ;;;
    Ret (s, inotifyFd)
  else if Ascii.eqb cmd "q" then Halt (Exit EXIT_SUCCESS)
  else if Ascii.eqb cmd "v" then
    match arg with
    | Some a => Ret (set_verbose (atoi a) s, inotifyFd)
    | None =>
        let v := if verboseMask s =? 0 then 1 else 0 in
        print Stdout (on_off (negb (v =? 0))) ;;; Ret (set_verbose v s, inotifyFd)
    end
  else if Ascii.eqb cmd "d" then
    print Stdout (on_off (negb (dumpCache s))) ;;;
    Ret (set_dump (negb (dumpCache s)) s, inotifyFd)
  else if Ascii.eqb cmd "x" then
    print Stdout (on_off (negb (checkCache s))) ;;;
    Ret (set_check (negb (checkCache s)) s, inotifyFd)
  else if Ascii.eqb cmd "w" then
    with_arg arg (fun arg =>
      r <- sys (Fopen arg ($"w+")) ;;
      match r with
      | Err e =>
          print Stderr ($"fopen: " ++ strerror e ++ [NL]) ;;;
          Halt (Undefined "stdio on a null stream")
      | Ok fp =>
          each_used (fun _ w => print (File fp) (path w ++ [NL])) (wlCache s) 0 ;;;
          sys (Fclose fp) ;;;
          Ret (s, inotifyFd)
      end)
  else if Ascii.eqb cmd "z" then
    with_arg arg (fun arg =>
      '(s1, cnt) <- zapSubtree s inotifyFd arg ;;
      zapMessage s1 arg cnt ;;;
      Ret (s1, inotifyFd))
  else if Ascii.eqb cmd "0" then
    sys (Close inotifyFd) ;;;
    reinitialize s (-1)
  else
    print Stdout (commandHelp cmd) ;;; Ret (s, inotifyFd).

Definition executeCommand (s : dt) (inotifyFd : Z) : prog (dt * Z) :=
  r <- sys (Read STDIN_FILENO MAX_LINE) ;;
  match r with
  | Err _ | Ok [] => print Stdout ($"bye!" ++ [NL]) ;;; Halt (Exit EXIT_FAILURE)
  | Ok d =>
      match cstring_of (take (length d - 1) d) with
      | [] => Ret (s, inotifyFd)
      | c :: rest => let '(cmd, arg) := scan_command c rest in runCommand s inotifyFd cmd arg
      end
  end.

(** ** The main program

    [opts] are the options that getopt returns one by one, with their
    arguments, and [dirs] the operands after them. *)

Definition usageError {A} (pname : list ascii) : prog A :=
  print Stderr ($"Usage: " ++ pname ++ $" [options] directory-path" ++ [NL; NL]) ;;;
  print Stderr ($"    -v lvl   Display logging information" ++ [NL]) ;;;
  print Stderr ($"    -l file  Send logging information to a file" ++ [NL]) ;;;
  print Stderr ($"    -x       Check cache consistency after each operation" ++ [NL]) ;;;
  print Stderr ($"    -d       Dump cache to log after every operation" ++ [NL]) ;;;
  print Stderr ($"    -b size  Set buffer size for read() from inotify FD" ++ [NL]) ;;;
  print Stderr ($"    -a file  Abort when cache inconsistency detected, and create 'stop' file" ++ [NL]) ;;;
  Halt (Exit EXIT_FAILURE).

Fixpoint parseOptions (pname : list ascii) (s : dt) (opts : list (ascii * list ascii)) : prog dt :=
  match opts with
  | [] => Ret s
  | (opt, optarg) :: opts' =>
      s' <- (if Ascii.eqb opt "a" then
               Ret (set_options (verboseMask s) (checkCache s) (dumpCache s) (readBufferSize s)
                      optarg true (logfp s) s)
             else if Ascii.eqb opt "x" then Ret (set_check true s)
             else if Ascii.eqb opt "d" then Ret (set_dump true s)
             else if Ascii.eqb opt "v" then Ret (set_verbose (atoi optarg) s)
             else if Ascii.eqb opt "b" then
               Ret (set_options (verboseMask s) (checkCache s) (dumpCache s) (atoi optarg)
                      (stopFile s) (abortOnCacheProblem s) (logfp s) s)
             else if Ascii.eqb opt "l" then
               r <- sys (Fopen optarg ($"w+")) ;;
               match r with
               | Err e => errExit_dt e ($"fopen")
               | Ok fp => Ret (set_options (verboseMask s) (checkCache s) (dumpCache s)
                                 (readBufferSize s) (stopFile s) (abortOnCacheProblem s)
                                 (Some fp) s)
               end
             else usageError pname) ;;
      parseOptions pname s' opts'
  end.

Definition init_dt : dt := Dt [] [] 0 0 0 false false 0 [] false None 0 0 0.

(** The loop over select(); each iteration spends one unit of [fuel] and gives
    the rest to the event loop. *)
Fixpoint mainLoop (fuel : nat) (pname : list ascii) (s : dt) (inotifyFd : Z) : prog unit :=
  match fuel with
  | O => Halt OutOfFuel
  | S fuel' =>
      r <- sys (Select [STDIN_FILENO; inotifyFd]) ;;
      match r with
      | Err e => errExit_dt e ($"select")
      | Ok ready =>
          '(s, fd) <- (if bool_decide (STDIN_FILENO ∈ ready) then
                         '(s', fd') <- executeCommand s inotifyFd ;;
                         print Stdout (pname ++ $"> ") ;;;
                         sys (Fflush Stdout) ;;;
                         Ret (s', fd')
                       else Ret (s, inotifyFd)) ;;
          '(s, fd) <- (if bool_decide (fd ∈ ready) then processInotifyEvents fuel' s fd
                       else Ret (s, fd)) ;;
          mainLoop fuel' pname s fd
      end
  end.

Definition main (fuel : nat) (pname : list ascii) (opts : list (ascii * list ascii))
    (dirs : list (list ascii)) : prog unit :=
  s <- parseOptions pname init_dt opts ;;
  match dirs with
  | [] => usageError pname
  | _ :: _ =>
      s <- copyRootDirPaths s dirs ;;
      '(s, inotifyFd) <- reinitialize s (-1) ;;
      print Stdout (pname ++ $"> ") ;;;
      sys (Fflush Stdout) ;;;
      mainLoop fuel pname s inotifyFd
  end.

(** ** Specifications *)

(** With cache dumping or abort-on-problem, a log file must be open: otherwise
    [dumpCacheToLog] writes to a null stream. *)
Definition log_ok (s : dt) : Prop :=
  dumpCache s = true \/ abortOnCacheProblem s = true -> logfp s <> None.

Lemma same_options_log_ok s s' : same_options s s' -> log_ok s -> log_ok s'.
Proof. intros (_ & _ & _ & _ & H1 & _ & _ & H2 & H3). unfold log_ok. by rewrite H1, H2, H3. Qed.

(** The options are the same; root directories may have been zapped. *)
Definition same_settings (s s' : dt) : Prop :=
  verboseMask s' = verboseMask s /\ checkCache s' = checkCache s /\
  dumpCache s' = dumpCache s /\ readBufferSize s' = readBufferSize s /\
  stopFile s' = stopFile s /\ abortOnCacheProblem s' = abortOnCacheProblem s /\
  logfp s' = logfp s.

Lemma same_options_settings s s' : same_options s s' -> same_settings s s'.
Proof. unfold same_options, same_settings. intuition. Qed.

Lemma same_settings_trans s1 s2 s3 :
  same_settings s1 s2 -> same_settings s2 s3 -> same_settings s1 s3.
Proof. unfold same_settings. intuition congruence. Qed.

Lemma same_settings_log_ok s s' : same_settings s s' -> log_ok s -> log_ok s'.
Proof. intros (_ & _ & H1 & _ & _ & H2 & H3). unfold log_ok. by rewrite H1, H2, H3. Qed.

Lemma same_settings_refl s : same_settings s s.
Proof. done. Qed.

Lemma wp_print_bind {B} st text (f : unit -> prog B) R h :
  (forall h', quiet h h' -> wp posix (f tt) (post R) h') ->
  wp posix (bind (print st text) f) (post R) h.
Proof. intros HR. apply wp_sys_bind. intros [] _. apply HR. by apply quiet_cons. Qed.

Lemma wp_each_used (f : nat -> watch -> prog unit) l j (P : unit -> history -> Prop) h :
  (forall i w h, wp posix (f i w) (post (fun _ h' => quiet h h')) h) ->
  (forall h', quiet h h' -> P tt h') -> wp posix (each_used f l j) (post P) h.
Proof.
  intros Hf. revert j h. induction l as [|w l IH]; intros j h HP; cbn [each_used].
  - apply HP, quiet_refl.
  - eapply wp_post with (P := fun _ h' => quiet h h').
    + destruct (used w); [apply Hf|apply quiet_refl].
    + intros [] h1 Hq. apply IH. intros h2 Hq2. apply HP. by eapply quiet_trans.
Qed.

Lemma wp_dumpCacheToLog s (P : unit -> history -> Prop) h :
  logfp s <> None -> (forall h', quiet h h' -> P tt h') ->
  wp posix (dumpCacheToLog s) (post P) h.
Proof.
  intros Hl HP. unfold dumpCacheToLog. destruct (logfp s) as [fp|]; [|done].
  eapply wp_post; [apply wp_each_used|].
  - intros i w h1. apply wp_sys_bind. intros [] _. by apply quiet_cons.
  - intros h1 Hq. instantiate (1 := fun _ h1 => quiet h h1). done.
  - intros [] h1 Hq. cbn. intros [] _. apply HP. eapply quiet_trans; [done|by apply quiet_cons].
Qed.

Lemma wp_check_slots s l j n (P : Z -> history -> Prop) h :
  (forall m h', quiet h h' -> P m h') -> wp posix (check_slots s l j n) (post P) h.
Proof.
  revert j n h. induction l as [|w l IH]; intros j n h HP; cbn [check_slots].
  { apply HP, quiet_refl. }
  destruct (used w); [|by apply IH]. wp_sys r Hr.
  assert (quiet h (Ev (Lstat (path w)) r :: h)) as Hq by (by apply quiet_cons).
  destruct r as [sb|e].
  - destruct (st_isdir sb); [|apply wp_log_bind; by intros].
    apply IH. intros m h' Hq'. apply HP. by eapply quiet_trans.
  - apply wp_log_bind. intros h1 Hq1. apply IH. intros m h' Hq'. apply HP. eauto using quiet_trans.
Qed.

Lemma wp_checkCacheConsistency s (P : unit -> history -> Prop) h :
  (forall h', quiet h h' -> P tt h') -> wp posix (checkCacheConsistency s) (post P) h.
Proof.
  intros HP. unfold checkCacheConsistency. eapply wp_post; [apply wp_check_slots|].
  - intros m h' Hq. instantiate (1 := fun _ h' => quiet h h'). done.
  - intros m h1 Hq. simpl in Hq. destruct (0 <? m); [|by apply HP].
    apply wp_logMessage. intros h2 Hq2. apply HP. by eapply quiet_trans.
Qed.

Lemma wp_findWatchChecked s d (P : option nat -> history -> Prop) h :
  log_ok s ->
  (forall j w, findWatch s d = Some j -> wlCache s !! j = Some w -> wd w = d -> P (Some j) h) ->
  (forall h', findWatch s d = None -> quiet h h' -> P None h') ->
  wp posix (findWatchChecked s d) (post P) h.
Proof.
  intros Hlog HS HN. unfold findWatchChecked. destruct (findWatch s d) as [j|] eqn:Hf.
  - destruct (findWatch_Some _ _ _ Hf) as (w & Hw & Hd). by apply (HS j w).
  - apply wp_log_bind. intros h1 Hq. destruct (abortOnCacheProblem s) eqn:Ha; [|by apply HN].
    unfold createStopFileAndAbort. wp_sys r Hr.
    eapply wp_post; [apply wp_dumpCacheToLog; [apply Hlog; by right|]|].
    + intros h2 _. by instantiate (1 := fun _ _ => True).
    + done.
Qed.

Lemma wp_zapRootDirPath s p (P : dt -> history -> Prop) h :
  (forall s' h', wlCache s' = wlCache s -> same_settings s s' -> quiet h h' -> P s' h') ->
  wp posix (zapRootDirPath s p) (post P) h.
Proof.
  intros HP. unfold zapRootDirPath. apply wp_print_bind. intros h1 Hq.
  destruct (findRootDirPath s p); [|by apply wp_print_bind].
  destruct (_ =? _); [by apply wp_print_bind|by apply HP].
Qed.

(** *** Preserved by every branch: a well-formed cache and the options. *)

Definition kept (s s' : dt) : Prop := wf s' /\ same_settings s s'.

Lemma kept_refl s : wf s -> kept s s.
Proof. done. Qed.

Lemma kept_trans s1 s2 s3 : kept s1 s2 -> kept s2 s3 -> kept s1 s3.
Proof. intros [_ H1] [H2 H3]. split; [done|by eapply same_settings_trans]. Qed.

Definition branch_ok (s : dt) (lo : Z) (b : branch) : Prop :=
  match b with
  | Go s' fd n => kept s s' /\ (n = lo \/ n = INOTIFY_READ_BUF_LEN)
  | Early s' fd n => kept s s' /\ n = INOTIFY_READ_BUF_LEN
  end.

Lemma wp_rebuild s s0 fd lo h :
  same_settings s0 s -> wp posix (rebuild s fd) (post (fun b _ => branch_ok s0 lo b)) h.
Proof.
  intros Hs. unfold rebuild. eapply wp_post; [apply wp_reinitialize|].
  - intros s' fd' h' Hwf Hso _ _. instantiate (1 := fun '(s', _) _ => kept s0 s').
    split; [done|]. eapply same_settings_trans; [done|]. by apply same_options_settings.
  - intros [s' fd'] h' Hk. done.
Qed.

Lemma wf_empty_slot s j w :
  wf s -> wlCache s !! j = Some w ->
  wf (set_wlCache (<[j := Watch (-1) []]> (wlCache s)) s).
Proof.
  intros [Hwf [k Hk]] Hj. split.
  - eapply wfl_insert; [done..|apply slot_ok_empty|by left].
  - exists k. simpl. by rewrite length_insert.
Qed.

Lemma wp_onCreate s fd j ev lo h :
  wf s -> is_Some (wlCache s !! j) -> 0 < ev_len ev ->
  wp posix (onCreate s fd (Some j) ev lo) (post (fun b _ => branch_ok s lo b)) h.
Proof.
  intros Hwf [w Hj] Hlen. unfold onCreate, with_slot, with_name. rewrite Hj. zcase; [|lia].
  apply wp_log_bind. intros h1 _. destruct (pathnameInCache _ _).
  { split; [by apply kept_refl|by left]. }
  eapply wp_post; [apply wp_watchSubtree; [done|]|].
  - intros s' v h' Hwf' Hg _ _. instantiate (1 := fun s' _ => kept s s').
    split; [done|]. by apply same_options_settings, same_globals_options.
  - intros s' h' Hk. split; [done|by left].
Qed.

Lemma wp_onDeleteSelf s fd j ev lo h :
  wf s -> is_Some (wlCache s !! j) ->
  wp posix (onDeleteSelf s fd (Some j) ev lo) (post (fun b _ => branch_ok s lo b)) h.
Proof.
  intros Hwf [w Hj]. unfold onDeleteSelf, with_slot. rewrite Hj.
  apply wp_log_bind. intros h1 _.
  eapply wp_post with (P := fun s' _ => wlCache s' = wlCache s /\ same_settings s s').
  { destruct (isRootDirPath _ _); [|done]. by apply wp_zapRootDirPath. }
  intros s1 h2 [Hc Hs]. assert (wf s1) as Hwf1 by (unfold wf; by rewrite Hc).
  eapply wp_post; [eapply wp_markCacheSlotEmpty; [by rewrite Hc|]|].
  - intros h3 _. instantiate (1 := fun s' _ => kept s s').
    split; [eapply wf_empty_slot; [done|by rewrite Hc]|done].
  - intros s' h' Hk. split; [done|by left].
Qed.

Lemma wp_onUnmount s fd j lo h :
  wf s -> is_Some (wlCache s !! j) ->
  wp posix (onUnmount s fd (Some j) lo) (post (fun b _ => branch_ok s lo b)) h.
Proof.
  intros Hwf [w Hj]. unfold onUnmount, with_slot. rewrite Hj.
  apply wp_log_bind. intros h1 _.
  eapply wp_post; [eapply wp_markCacheSlotEmpty; [done|]|].
  - intros h3 _. instantiate (1 := fun s' _ => kept s s').
    split; [by eapply wf_empty_slot|done].
  - intros s' h' Hk. split; [done|by left].
Qed.

Lemma wp_zap_branch s s0 fd p lo h :
  wf s -> same_settings s0 s ->
  wp posix ('(s', cnt) <- zapSubtree s fd p ;;
            if cnt =? -1 then rebuild s' fd else Ret (Go s' fd lo))
    (post (fun b _ => branch_ok s0 lo b)) h.
Proof.
  intros Hwf Hs. eapply wp_post; [apply wp_zapSubtree; [done|..]|].
  - intros s' h' Hwf' Hg _ _. instantiate (1 := fun '(s', _) _ => kept s s').
    split; [done|]. by apply same_options_settings, same_globals_options.
  - intros s' h' Hwf' Hg. split; [done|]. by apply same_options_settings, same_globals_options.
  - intros [s' cnt] h' Hk. assert (kept s0 s') as Hk'.
    { split; [apply Hk|]. eapply same_settings_trans; [done|apply Hk]. }
    destruct (cnt =? -1); [apply wp_rebuild, Hk'|]. split; [done|by left].
Qed.

Lemma wp_onMoveSelf s fd j lo h :
  wf s -> is_Some (wlCache s !! j) ->
  wp posix (onMoveSelf s fd (Some j) lo) (post (fun b _ => branch_ok s lo b)) h.
Proof.
  intros Hwf [w Hj]. unfold onMoveSelf, with_slot. rewrite Hj.
  destruct (isRootDirPath _ _); [|split; [by apply kept_refl|by left]].
  apply wp_log_bind. intros h1 _.
  eapply wp_post with (P := fun s' _ => wlCache s' = wlCache s /\ same_settings s s').
  { by apply wp_zapRootDirPath. }
  intros s1 h2 [Hc Hs]. apply wp_zap_branch; [unfold wf; by rewrite Hc|done].
Qed.

Lemma wp_onOverflow s fd lo h :
  wp posix (onOverflow s fd) (post (fun b _ => branch_ok s lo b)) h.
Proof.
  unfold onOverflow. apply wp_log_bind. intros h1 _.
  eapply wp_post; [apply wp_reinitialize|].
  - intros s' fd' h' Hwf Hso _ _. instantiate (1 := fun '(s', _) _ => kept s s').
    split; [done|]. by apply same_options_settings in Hso.
  - intros [s' fd'] h' Hk. split; [done|by right].
Qed.

(** *** Events as the kernel reports them

    inotify(7): an event about an entry of a watched directory carries the name
    of the entry; it, and the events about the watched directory itself, carry
    its watch descriptor, and only IN_IGNORED ends a watch. *)
Definition has (ev : inotify_event) (bits : Z) : bool := flag (ev_mask ev) bits.

Definition about_child (ev : inotify_event) : bool :=
  has ev (Z.lor IN_CREATE IN_MOVED_TO) || has ev IN_MOVED_FROM.

Definition about_self (ev : inotify_event) : bool :=
  has ev IN_DELETE_SELF || has ev IN_UNMOUNT || has ev IN_MOVE_SELF.

Definition sane (ev : inotify_event) : Prop :=
  (about_child ev = true -> 0 < ev_len ev) /\
  (about_child ev || about_self ev = true -> ev_wd ev <> -1 /\ has ev IN_IGNORED = false).

Lemma flag_lor x a b : flag x (Z.lor a b) = flag x a || flag x b.
Proof.
  unfold flag. rewrite Z.land_lor_distr_r.
  pose proof (Z.lor_eq_0_iff (Z.land x a) (Z.land x b)) as Hl. repeat zcase; naive_solver.
Qed.

Lemma flag_both x a b : 0 <> a -> Z.land x (Z.lor a b) = Z.lor a b -> flag x a = true.
Proof.
  intros Ha Hx. unfold flag.
  assert (Z.land x a = a) as ->; [|by zcase].
  apply Z.bits_inj'. intros n _. rewrite Z.land_spec.
  assert (Z.testbit (Z.land x (Z.lor a b)) n = Z.testbit (Z.lor a b) n) as Hn by (by rewrite Hx).
  rewrite Z.land_spec, Z.lor_spec in Hn.
  by destruct (Z.testbit x n), (Z.testbit a n), (Z.testbit b n).
Qed.

(** The number of bytes that one call consumes. *)
Definition consumed (lo : Z) (buf : list ascii) (bufSize n : Z) : Prop :=
  n = lo \/ n = INOTIFY_READ_BUF_LEN \/
  lo < bufSize /\ exists nx, decode_event (drop (Z.to_nat lo) buf) = Some nx /\
    n = lo + SIZEOF_EVENT + ev_len nx.

Definition step_ok (s : dt) (fd lo : Z) (buf : list ascii) (bufSize : Z) (firstTry : bool)
    (b : branch) : Prop :=
  match b with
  | Go s' fd' n => kept s s' /\ consumed lo buf bufSize n
  | Early s' fd' n => kept s s' /\ n = INOTIFY_READ_BUF_LEN \/
      s' = s /\ fd' = fd /\ n = -1 /\ firstTry = true /\ bufSize <= lo
  end.

Lemma branch_step_ok s fd lo buf bufSize firstTry b :
  branch_ok s lo b -> step_ok s fd lo buf bufSize firstTry b.
Proof. destruct b; simpl; unfold consumed; intuition. Qed.

Lemma wp_onMovedFrom s fd j ev lo buf bufSize firstTry h :
  wf s -> log_ok s -> is_Some (wlCache s !! j) -> 0 < ev_len ev ->
  (lo < bufSize -> exists nx, decode_event (drop (Z.to_nat lo) buf) = Some nx /\ sane nx) ->
  wp posix (onMovedFrom s fd (Some j) ev lo buf bufSize firstTry)
    (post (fun b _ => step_ok s fd lo buf bufSize firstTry b)) h.
Proof.
  intros Hwf Hlog [w Hj] Hlen Hnext. unfold onMovedFrom.
  set (moved_out := with_slot s (Some j) _).
  assert (forall h, wp posix moved_out (post (fun b _ => step_ok s fd lo buf bufSize firstTry b)) h)
    as Hout.
  { intros h0. unfold moved_out, with_slot, with_name. rewrite Hj. zcase; [|lia].
    do 2 (apply wp_log_bind; intros ? _).
    eapply post_mono; [by apply wp_zap_branch|]. intros b ? Hb. by apply branch_step_ok. }
  zcase; [|destruct firstTry; [|by apply Hout]].
  - destruct Hnext as (nx & Hnx & Hs); [done|]. rewrite Hnx.
    destruct (flag (ev_mask nx) IN_MOVED_TO && _) eqn:Hpair; [|apply Hout].
    apply andb_true_iff in Hpair as [Hto _].
    assert (0 < ev_len nx).
    { apply Hs. unfold about_child, has. by rewrite flag_lor, Hto, orb_true_r. }
    eapply wp_post; [apply wp_findWatchChecked; [done|..]|].
    { intros j' w' Hf Hj' Hd. instantiate (1 := fun r _ =>
        match r with Some j' => is_Some (wlCache s !! j') | None => True end). by exists w'. }
    { done. }
    intros [j'|] h1 Hr; [|eapply post_mono; [by apply (wp_rebuild s s fd lo)|];
                           intros b ? Hb; by apply branch_step_ok].
    destruct Hr as [w' Hj']. unfold with_slot, with_name. rewrite Hj, Hj'.
    do 2 (zcase; [|lia]).
    eapply wp_post; [apply wp_rewriteCachedPaths; [done|]|].
    { intros s' h' Hwf' Hg _ _. instantiate (1 := fun s' _ => kept s s').
      split; [done|]. by apply same_options_settings, same_globals_options. }
    intros s' h' Hk. split; [done|]. right; right. split; [done|]. by exists nx.
  - apply wp_log_bind. intros h1 _. right. done.
Qed.

(** The slot of an event is known whenever a branch uses it. *)
Definition slot_known (s : dt) (ev : inotify_event) (slot : option nat) : Prop :=
  match slot with
  | Some j => is_Some (wlCache s !! j)
  | None => ev_wd ev = -1 \/ has ev IN_IGNORED = true
  end.

Lemma sane_slot s ev slot :
  sane ev -> slot_known s ev slot -> about_child ev || about_self ev = true ->
  exists j, slot = Some j /\ is_Some (wlCache s !! j).
Proof.
  intros [_ Hs] Hk Ha. destruct (Hs Ha) as [H1 H2].
  destruct slot as [j|]; [by exists j|]. simpl in Hk. destruct Hk; congruence.
Qed.

Lemma wp_dispatch s fd slot ev buf bufSize firstTry h :
  let lo := SIZEOF_EVENT + ev_len ev in
  wf s -> log_ok s -> sane ev -> slot_known s ev slot ->
  (lo < bufSize -> exists nx, decode_event (drop (Z.to_nat lo) buf) = Some nx /\ sane nx) ->
  wp posix (dispatch s fd slot ev buf bufSize firstTry)
    (post (fun b _ => step_ok s fd lo buf bufSize firstTry b)) h.
Proof.
  intros lo Hwf Hlog Hsane Hknown Hnext. unfold dispatch.
  pose proof (sane_slot s ev slot Hsane Hknown) as Hslot.
  assert (forall p h, wp posix p (post (fun b _ => branch_ok s lo b)) h ->
    wp posix p (post (fun b _ => step_ok s fd lo buf bufSize firstTry b)) h) as Hb.
  { intros p h0 Hp. eapply post_mono; [exact Hp|]. intros b ? ?. by apply branch_step_ok. }
  unfold about_child, about_self, has in Hslot.
  destruct (flag _ IN_ISDIR && _) eqn:H1.
  { apply andb_true_iff in H1 as [_ H1]. destruct Hslot as (j & -> & Hj); [by rewrite H1|].
    apply Hb, wp_onCreate; [done..|]. apply Hsane. unfold about_child, has. by rewrite H1. }
  destruct (flag _ IN_DELETE_SELF) eqn:H2.
  { destruct Hslot as (j & -> & Hj); [by rewrite orb_true_r|]. by apply Hb, wp_onDeleteSelf. }
  destruct (_ =? _) eqn:H3.
  { apply Z.eqb_eq, flag_both in H3; [|done].
    destruct Hslot as (j & -> & Hj); [by rewrite H3, orb_true_r|].
    apply wp_onMovedFrom; [done..| |done]. apply Hsane. unfold about_child, has.
    by rewrite H3, orb_true_r. }
  destruct (flag _ IN_Q_OVERFLOW); [by apply Hb, wp_onOverflow|].
  destruct (flag _ IN_UNMOUNT) eqn:H5.
  { destruct Hslot as (j & -> & Hj); [by rewrite !orb_true_r|]. by apply Hb, wp_onUnmount. }
  destruct (flag _ IN_MOVE_SELF) eqn:H6.
  { destruct Hslot as (j & -> & Hj); [by rewrite !orb_true_r|]. by apply Hb, wp_onMoveSelf. }
  apply Hb. split; [by apply kept_refl|by left].
Qed.

Lemma wp_quiet_mono {A} (p : prog A) f (R : A -> history -> Prop) h h0 :
  quiet h0 h -> wp posix p (post (fun a h' => f a /\ quiet h h')) h ->
  (forall a h', f a -> quiet h0 h' -> R a h') -> wp posix p (post R) h.
Proof.
  intros Hq Hp HR. eapply post_mono; [exact Hp|]. intros a h' [Ha Hq']. apply HR; [done|].
  by eapply quiet_trans.
Qed.

Lemma wp_displayInotifyEvent s ev (P : unit -> history -> Prop) h :
  (forall h', P tt h') -> wp posix (displayInotifyEvent s ev) (post P) h.
Proof.
  intros HP. unfold displayInotifyEvent, logFlag.
  apply wp_log_bind; intros h1 _.
  eapply wp_post with (P := fun _ _ => True); [destruct (0 <? _); [by apply wp_logMessage|done]|].
  intros [] h2 _. apply wp_log_bind; intros h3 _.
  do 9 (eapply wp_post with (P := fun _ _ => True);
        [destruct (flag _ _); [by apply wp_logMessage|done]|intros [] ? _]).
  apply wp_log_bind; intros h4 _. destruct (0 <? _); [by apply wp_logMessage|apply HP].
Qed.

(** One call: the cache stays well formed and the options stay, and either
    whole events are consumed or (on the first try, for an event at the end of
    the buffer) nothing changes and more input is asked for. *)
Lemma wp_processNext s fd buf bufSize firstTry ev h :
  let lo := SIZEOF_EVENT + ev_len ev in
  wf s -> log_ok s -> decode_event buf = Some ev -> sane ev ->
  (lo < bufSize -> exists nx, decode_event (drop (Z.to_nat lo) buf) = Some nx /\ sane nx) ->
  wp posix (processNextInotifyEvent s fd buf bufSize firstTry)
    (post (fun '(s', fd', n) _ =>
       kept s s' /\ consumed lo buf bufSize n \/
       s' = s /\ fd' = fd /\ n = -1 /\ firstTry = true /\ bufSize <= lo)) h.
Proof.
  intros lo Hwf Hlog Hdec Hsane Hnext. unfold processNextInotifyEvent. rewrite Hdec.
  eapply wp_post with (P := fun _ _ => True); [by apply wp_displayInotifyEvent|].
  intros [] h1 _. eapply wp_post with (P := fun b _ => step_ok s fd lo buf bufSize firstTry b).
  { destruct (negb _ && negb _) eqn:Hc.
    - eapply wp_post; [apply wp_findWatchChecked; [done|..]|].
      { intros j w _ Hj _. instantiate (1 := fun r _ =>
          match r with Some j => is_Some (wlCache s !! j) | None => True end). by exists w. }
      { done. }
      intros [j|] h2 Hr; [by apply wp_dispatch|].
      eapply post_mono; [by apply (wp_rebuild s s fd lo)|]. intros b ? Hb. by apply branch_step_ok.
    - apply wp_dispatch; [done..| |done]. simpl. unfold has.
      destruct (ev_wd ev =? -1) eqn:He; [left; lia|right]. simpl in Hc.
      by destruct (flag _ IN_IGNORED). }
  intros [s' fd' n|s' fd' n] h2 Hb; simpl in Hb.
  - destruct Hb as [[Hwf' Hst] Hc]. pose proof (same_settings_log_ok _ _ Hst Hlog) as Hlog'.
    eapply wp_post with (P := fun _ _ => True);
      [destruct (checkCache s'); [by apply wp_checkCacheConsistency|done]|].
    intros [] h3 _. eapply wp_post with (P := fun _ _ => True).
    { destruct (dumpCache s') eqn:Hd; [|done].
      apply wp_dumpCacheToLog; [apply Hlog'; by left|done]. }
    intros [] h4 _. left. done.
  - destruct Hb as [[Hk ->]|Hh]; [|by right]. left. split; [done|]. right; by left.
Qed.

(** *** Buffers of events *)

Definition encode_event (ev : inotify_event) : list ascii :=
  put32 (wrapu 32 (ev_wd ev)) ++ put32 (ev_mask ev) ++ put32 (ev_cookie ev)
  ++ put32 (ev_len ev) ++ ev_name ev.

Definition good_event (ev : inotify_event) : Prop :=
  is_int (ev_wd ev) /\ 0 <= ev_mask ev < 2 ^ 32 /\ 0 <= ev_cookie ev < 2 ^ 32 /\
  0 <= ev_len ev < 2 ^ 32 /\ ev_len ev = Z.of_nat (length (ev_name ev)).

Definition event_bytes (evs : list inotify_event) : list ascii := concat (map encode_event evs).

Lemma decode_encode ev rest :
  good_event ev -> decode_event (encode_event ev ++ rest) = Some ev.
Proof.
  intros (Hw & Hm & Hc & Hl & Hn). unfold encode_event. rewrite <- !app_assoc.
  unfold put32. cbn [app decode_event]. rewrite !le32_put32 by (done || by apply wrapu_range).
  rewrite length_app, int_of_wrapu by done. zcase; [|lia].
  rewrite Hn, Nat2Z.id, take_app_length, <- Hn. by destruct ev.
Qed.

Lemma length_encode ev : good_event ev ->
  Z.of_nat (length (encode_event ev)) = SIZEOF_EVENT + ev_len ev.
Proof.
  intros (_ & _ & _ & _ & Hn). unfold encode_event, put32, SIZEOF_EVENT.
  rewrite !length_app. simpl. lia.
Qed.

(** Every block that read() returns is a sequence of whole events. *)
Definition event_env : env := fun h X c r =>
  posix h X c r /\
  match c in call X return X -> Prop with
  | Read _ _ => fun r => match r with
                         | Ok d => exists evs, d = event_bytes evs /\ Forall good_event evs /\ Forall sane evs
                         | Err _ => True
                         end
  | _ => fun _ => True
  end r.

Fixpoint bytes_read (h : history) : Z :=
  match h with
  | [] => 0
  | Ev c r :: h' =>
      match c in call X return X -> Z with
      | Read _ _ => fun r => match r with Ok d => Z.of_nat (length d) | Err _ => 0 end
      | _ => fun _ => 0
      end r + bytes_read h'
  end.

Lemma bytes_read_app k h : bytes_read h <= bytes_read (k ++ h).
Proof.
  induction k as [|[X c r] k IH]; simpl; [lia|]. destruct c; simpl; try lia. destruct r; lia.
Qed.

(** How the event loop may end: the bound on its iterations is reached only
    after the kernel delivered enough input to need that many. *)
Definition loop_post (s : dt) (fuel : nat) (n : Z) (firstTry : bool) (h : history)
    (o : outcome (dt * Z)) (h' : history) : Prop :=
  match o with
  | Done (s', _) => kept s s'
  | Stop OutOfFuel =>
      4 * Z.of_nat fuel <= Z.max 0 n + (if firstTry then 4 else 0) + (bytes_read h' - bytes_read h)
  | Stop st => allowed st
  end.

(** The bytes still to be processed: none, whole events, or, after an
    interrupted second read, one event whose last byte is not counted. *)
Definition loop_inv (buf : list ascii) (n : Z) (firstTry : bool) : Prop :=
  n <= 0 \/
  exists evs, buf = event_bytes evs /\ Forall good_event evs /\ Forall sane evs /\
    n <= INOTIFY_READ_BUF_LEN /\
    (n = Z.of_nat (length buf) \/
     firstTry = false /\ n = Z.of_nat (length buf) - 1 /\ length evs = 1%nat).

Lemma loop_post_weaken s s1 fuel n n1 ft ft1 h h1 o h' :
  kept s s1 ->
  Z.max 0 n1 + (if ft1 : bool then 4 else 0) + 4
    <= Z.max 0 n + (if ft : bool then 4 else 0) + (bytes_read h1 - bytes_read h) ->
  loop_post s1 fuel n1 ft1 h1 o h' -> loop_post s (S fuel) n ft h o h'.
Proof.
  intros Hk Hm. destruct o as [[s' fd]|[]]; simpl; try done; [|lia]. intros Hk'. by eapply kept_trans.
Qed.

Lemma wp_post_loop {A} (p : prog A) (f : A -> prog (dt * Z)) P s fuel n ft h0 h :
  wp posix p (post P) h ->
  (forall a h', P a h' -> (exists k, h' = k ++ h) ->
     wp event_env (f a) (loop_post s fuel n ft h0) h') ->
  wp event_env (bind p f) (loop_post s fuel n ft h0) h.
Proof.
  intros Hp Hf. eapply wp_call.
  - apply wp_conj; [|apply wp_extends].
    eapply wp_env; [|exact Hp]. intros ? ? ? ? [? _]. done.
  - intros a h' [Ha Hk]. by apply Hf.
  - intros st h' [Hs _]. simpl in *. by destruct st.
Qed.

Lemma same_settings_readCnt s n : same_settings s (set_readCnt n s).
Proof. done. Qed.

Lemma event_bytes_cons ev evs : event_bytes (ev :: evs) = encode_event ev ++ event_bytes evs.
Proof. done. Qed.

Lemma event_bytes_nil evs :
  Forall good_event evs -> Z.of_nat (length (event_bytes evs)) <= 0 -> evs = [].
Proof.
  intros Hg. destruct evs as [|ev evs]; [done|]. apply Forall_cons in Hg as [Hg _].
  rewrite event_bytes_cons, length_app. pose proof (length_encode ev Hg) as Hl.
  destruct Hg as (_ & _ & _ & ? & _). unfold SIZEOF_EVENT in Hl. lia.
Qed.

Lemma decode_buf ev evs :
  Forall good_event (ev :: evs) -> decode_event (event_bytes (ev :: evs)) = Some ev.
Proof. intros Hg. apply Forall_cons in Hg as [Hg _]. by apply decode_encode. Qed.

Lemma drop_event ev evs :
  good_event ev ->
  drop (Z.to_nat (SIZEOF_EVENT + ev_len ev)) (event_bytes (ev :: evs)) = event_bytes evs.
Proof.
  intros Hg. rewrite <- length_encode by done. rewrite Nat2Z.id, event_bytes_cons.
  apply drop_app_length.
Qed.

Lemma length_event_bytes ev evs :
  good_event ev ->
  Z.of_nat (length (event_bytes (ev :: evs)))
  = SIZEOF_EVENT + ev_len ev + Z.of_nat (length (event_bytes evs)).
Proof.
  intros Hg. rewrite event_bytes_cons, length_app, Nat2Z.inj_add, length_encode by done. lia.
Qed.

Lemma int_of_small n : 0 <= n <= 2 * INOTIFY_READ_BUF_LEN -> int_of n = n.
Proof.
  intros Hn. apply int_of_id.
  unfold is_int, INT_MIN, INT_MAX, INOTIFY_READ_BUF_LEN, SIZEOF_EVENT in *. lia.
Qed.

(** After whole events were consumed, what is left is again in order. *)
Lemma loop_inv_consumed ev evs n ft r :
  Forall good_event (ev :: evs) -> Forall sane (ev :: evs) ->
  n <= INOTIFY_READ_BUF_LEN ->
  (n = Z.of_nat (length (event_bytes (ev :: evs))) \/
   n = Z.of_nat (length (event_bytes (ev :: evs))) - 1 /\ length (ev :: evs) = 1%nat) ->
  consumed (SIZEOF_EVENT + ev_len ev) (event_bytes (ev :: evs)) n r ->
  16 <= r <= INOTIFY_READ_BUF_LEN + 1 /\
  loop_inv (drop (Z.to_nat r) (event_bytes (ev :: evs))) (n - r) ft.
Proof.
  intros Hg Hs Hn Hcnt Hc. assert (Hg' := Hg). apply Forall_cons in Hg' as [Hg1 Hg2].
  apply Forall_cons in Hs as [_ Hs2].
  pose proof (length_event_bytes ev evs Hg1) as Hlen.
  assert (0 <= ev_len ev) by (destruct Hg1 as (_ & _ & _ & ? & _); lia).
  unfold SIZEOF_EVENT in *. destruct Hc as [->|[->|(Hlo & nx & Hdec & ->)]].
  - split; [lia|]. rewrite drop_event by done.
    destruct Hcnt as [->|[-> H1]]; [right|left].
    + exists evs. split_and!; [done..|lia|left; lia].
    + destruct evs; [|done]. simpl in *. lia.
  - unfold INOTIFY_READ_BUF_LEN, SIZEOF_EVENT in *. split; [lia|]. left. lia.
  - change 16 with SIZEOF_EVENT in Hdec. rewrite drop_event in Hdec by done.
    destruct evs as [|nx' evs]; [done|]. rewrite decode_buf in Hdec by done.
    injection Hdec as ->. apply Forall_cons in Hg2 as [Hg2 Hg3].
    apply Forall_cons in Hs2 as [_ Hs3].
    assert (0 <= ev_len nx) by (destruct Hg2 as (_ & _ & _ & ? & _); lia).
    pose proof (length_event_bytes nx evs Hg2) as Hlen2.
    unfold SIZEOF_EVENT in *. destruct Hcnt as [->|[_ ?]]; [|done]. split; [lia|]. right.
    replace (Z.to_nat (16 + ev_len ev + 16 + ev_len nx))
      with (Z.to_nat (16 + ev_len ev) + Z.to_nat (16 + ev_len nx))%nat by lia.
    rewrite <- drop_drop. change 16 with SIZEOF_EVENT. rewrite !drop_event by done.
    exists evs. unfold SIZEOF_EVENT. split_and!; [done..|lia|left; lia].
Qed.

(** The second read(): what it adds are whole events, or, when it is
    interrupted, the count loses the last byte of the only event. *)
Lemma wp_secondRead fuel s fd ev evs n h h1 :
  (forall s fd buf n ft h, wf s -> log_ok s -> loop_inv buf n ft ->
     wp event_env (eventLoop fuel s fd buf n ft) (loop_post s fuel n ft h) h) ->
  wf s -> log_ok s -> Forall good_event (ev :: evs) -> Forall sane (ev :: evs) ->
  0 < n <= INOTIFY_READ_BUF_LEN -> n = Z.of_nat (length (event_bytes (ev :: evs))) ->
  n <= SIZEOF_EVENT + ev_len ev -> bytes_read h <= bytes_read h1 ->
  wp event_env
    (sys (Ualarm 2000) ;;;
     nr <- sys (Read fd (INOTIFY_READ_BUF_LEN - n)) ;;
     sys (Ualarm 0) ;;;
     match nr with
     | Err e =>
         if e =? EINTR then
           let s' := set_readCnt (inotifyReadCnt s + 1) s in
           logMessage s' VB_NOISY ([NL] ++ $"==========> SECONDARY Read "
             ++ dec (inotifyReadCnt s') ++ $": got -1 bytes" ++ [NL]) ;;;
           eventLoop fuel s' fd (event_bytes (ev :: evs)) (n - 1) false
         else errExit_dt e ($"read")
     | Ok [] =>
         print Stderr ($"read() from inotify fd returned 0!") ;;; Halt (Exit EXIT_FAILURE)
     | Ok d =>
         let s' := set_readCnt (inotifyReadCnt s + 1) s in
         logMessage s' VB_NOISY ([NL] ++ $"==========> SECONDARY Read "
           ++ dec (inotifyReadCnt s') ++ $": got " ++ dec (Z.of_nat (length d))
           ++ $" bytes" ++ [NL]) ;;;
         eventLoop fuel s' fd (event_bytes (ev :: evs) ++ d) (n + Z.of_nat (length d)) false
     end)
    (loop_post s (S fuel) n true h) h1.
Proof.
  intros IH Hwf Hlog Hg Hs [Hn0 Hn] Hn' Hlast Hbytes.
  apply wp_sys_bind. intros [] _. apply wp_sys_bind. intros nr [Hr1 Hr2].
  apply wp_sys_bind. intros [] _. cbn in Hr1, Hr2. destruct nr as [d|e].
  + destruct Hr2 as (evs2 & -> & Hg2 & Hs2).
    cbn [err_ok] in Hr1. destruct (event_bytes evs2) as [|c d] eqn:Hd; [by intros [] _|]. rewrite <- Hd in *. clear Hd c d.
    eapply wp_post_loop; [by apply wp_logMessage with (P := fun _ _ => True)|].
    intros [] h2 _ [k2 ->].
    eapply wp_mono; [|apply IH; [done|done|right]].
    * intros o h'. apply loop_post_weaken; [by split|].
      pose proof (bytes_read_app k2 (Ev (Ualarm 0) () :: Ev (Read fd (INOTIFY_READ_BUF_LEN - n))
        (Ok (event_bytes evs2)) :: Ev (Ualarm 2000) () :: h1)). simpl in *. lia.
    * exists ((ev :: evs) ++ evs2). unfold event_bytes in *.
      rewrite map_app, concat_app, length_app.
      split_and!; [done|by apply Forall_app|by apply Forall_app|lia|left; lia].
  + destruct (e =? EINTR); [|simpl; by intros [] _].
    eapply wp_post_loop; [by apply wp_logMessage with (P := fun _ _ => True)|].
    intros [] h2 _ [k2 ->].
    eapply wp_mono; [|apply IH; [done|done|right]].
    * intros o h'. apply loop_post_weaken; [by split|].
      pose proof (bytes_read_app k2 (Ev (Ualarm 0) () :: Ev (Read fd (INOTIFY_READ_BUF_LEN - n))
        (Err e) :: Ev (Ualarm 2000) () :: h1)). simpl in *. lia.
    * exists (ev :: evs). split_and!; [done..|lia|right]. split_and!; [done|lia|].
      destruct evs as [|nx evs]; [done|]. exfalso.
      apply Forall_cons in Hg as [Hg1 Hg2].
      pose proof (length_event_bytes ev (nx :: evs) Hg1).
      assert (nx :: evs = []); [|done]. apply event_bytes_nil; [done|lia].
Qed.

Lemma wp_eventLoop fuel s fd buf n ft h :
  wf s -> log_ok s -> loop_inv buf n ft ->
  wp event_env (eventLoop fuel s fd buf n ft) (loop_post s fuel n ft h) h.
Proof.
  revert s fd buf n ft h. induction fuel as [|fuel IH]; intros s fd buf n ft h Hwf Hlog Hinv;
    cbn [eventLoop]; destruct (Z.leb_spec n 0) as [Hn0|Hn0]; try (by apply kept_refl).
  { cbn [wp loop_post]. destruct ft; lia. }
  destruct Hinv as [|(evs & -> & Hg & Hs & Hn & Hcnt)]; [lia|].
  destruct evs as [|ev evs].
  { simpl in Hcnt. destruct Hcnt as [|(_ & _ & ?)]; [lia|done]. }
  assert (Hcnt' : n = Z.of_nat (length (event_bytes (ev :: evs))) \/
    n = Z.of_nat (length (event_bytes (ev :: evs))) - 1 /\ length (ev :: evs) = 1%nat) by naive_solver.
  eapply wp_post_loop.
  { apply (wp_processNext s fd _ n ft ev); [done|done|by apply decode_buf|by inversion Hs|].
    intros Hlo. apply Forall_cons in Hg as [Hg1 Hg2]. apply Forall_cons in Hs as [_ Hs2].
    rewrite drop_event by done. destruct evs as [|nx evs].
    { pose proof (length_event_bytes ev [] Hg1). simpl in *. lia. }
    exists nx. split; [by apply decode_buf|by inversion Hs2]. }
  intros [[s1 fd1] r] h1 Hp Hk.
  assert (bytes_read h <= bytes_read h1) by (destruct Hk as [k ->]; apply bytes_read_app).
  destruct Hp as [[Hkept Hc]|(-> & -> & -> & -> & Hlast)].
  - destruct (loop_inv_consumed ev evs n true r) as [Hr Hinv]; [done..|].
    rewrite int_of_small by (unfold INOTIFY_READ_BUF_LEN, SIZEOF_EVENT in *; lia).
    zcase; [|lia]. eapply wp_mono; [|apply IH; [apply Hkept| |exact Hinv]].
    + intros o h'. apply loop_post_weaken; [done|].
      assert (15 <= n).
      { apply Forall_cons in Hg as [Hg1 _]. pose proof (length_event_bytes ev evs Hg1).
        destruct Hg1 as (_ & _ & _ & ? & _). unfold SIZEOF_EVENT in *. lia. }
      destruct ft; lia.
    + by eapply same_settings_log_ok; [apply Hkept|].
  - change (int_of (-1)) with (-1). zcase; [lia|].
    assert (n = Z.of_nat (length (event_bytes (ev :: evs)))) as Hn' by naive_solver.
    assert (take (Z.to_nat n) (event_bytes (ev :: evs)) = event_bytes (ev :: evs)) as ->.
    { apply take_ge. lia. }
    by apply wp_secondRead.
Qed.

(** *** Which slot an event refers to *)

Lemma findWatch_path s d p :
  wf s -> 0 <= d -> abs s !! d = Some p ->
  exists j, findWatch s d = Some j /\ wlCache s !! j = Some (Watch d p).
Proof.
  intros Hwf Hd Ha. destruct (findWatch s d) as [j|] eqn:Hf.
  - destruct (findWatch_Some _ _ _ Hf) as ([d' q] & Hj & Hdd). simpl in Hdd. subst d'.
    exists j. split; [done|]. rewrite Hj. assert (abs s !! d = Some q) as Hq; [|congruence].
    destruct Hwf as [[_ Hi] _]. apply absl_lookup; [done|]. eauto.
  - apply findWatch_abs in Hf; [congruence|done..].
Qed.

Lemma wp_findWatchChecked_cached s d p h (Q : option nat -> history -> Prop) :
  wf s -> 0 <= d -> abs s !! d = Some p ->
  (forall j, wlCache s !! j = Some (Watch d p) -> Q (Some j) h) ->
  wp posix (findWatchChecked s d) (post Q) h.
Proof.
  intros Hwf Hd Ha HQ. destruct (findWatch_path s d p Hwf Hd Ha) as (j & Hf & Hj).
  unfold findWatchChecked. rewrite Hf. by apply HQ.
Qed.

(** The part of [processNextInotifyEvent] around [dispatch], for an event on a
    cached directory when no check or dump is asked for. *)
Lemma wp_process_cached s fd buf bufSize firstTry ev p (R : dt * Z * Z -> history -> Prop) h :
  wf s -> checkCache s = false -> dumpCache s = false ->
  decode_event buf = Some ev -> 0 <= ev_wd ev -> has ev IN_IGNORED = false ->
  abs s !! ev_wd ev = Some p ->
  (forall j h1, wlCache s !! j = Some (Watch (ev_wd ev) p) ->
     wp posix (dispatch s fd (Some j) ev buf bufSize firstTry)
       (post (fun b h' => match b with
                          | Go s' fd' n => checkCache s' = false /\ dumpCache s' = false /\
                                           R (s', fd', n) h'
                          | Early s' fd' n => R (s', fd', n) h'
                          end)) h1) ->
  wp posix (processNextInotifyEvent s fd buf bufSize firstTry) (post R) h.
Proof.
  intros Hwf Hcc Hdc Hdec Hd Hign Ha Hdis. unfold processNextInotifyEvent. rewrite Hdec.
  eapply wp_post with (P := fun _ _ => True); [by apply wp_displayInotifyEvent|].
  intros [] h1 _. unfold has in Hign. rewrite Hign.
  destruct (Z.eqb_spec (ev_wd ev) (-1)) as [|_]; [lia|]. cbn [negb andb].
  eapply wp_post.
  { eapply wp_post; [eapply wp_findWatchChecked_cached with (p := p); [done..|]|].
    - intros j Hj. instantiate (1 := fun r _ => exists j, r = Some j /\
        wlCache s !! j = Some (Watch (ev_wd ev) p)). by exists j.
    - intros r h2 (j & -> & Hj). apply Hdis, Hj. }
  intros [s' fd' n|s' fd' n] h2 Hb; [|done]. destruct Hb as (Hc & Hdm & HR).
  rewrite Hc, Hdm. done.
Qed.

(** *** Commands *)

Lemma wp_verifySlots s vb l j cnt fl (P : Z * Z -> history -> Prop) h :
  (forall a h', P a h') -> wp posix (verifySlots s vb l j cnt fl) (post P) h.
Proof.
  intros HP. revert j cnt fl h.
  induction l as [|w l IH]; intros j cnt fl h; cbn [verifySlots]; [apply HP|].
  destruct (used w); [|apply IH]. wp_sys r Hr.
  assert (forall (b : bool) vb0 text (k : prog (Z * Z)) h, (forall h, wp posix k (post P) h) ->
    wp posix ((if b then logMessage s vb0 text else Ret tt) ;;; k) (post P) h) as Hlog.
  { intros [] vb0 text k h0 Hk; [by apply wp_log_bind|apply Hk]. }
  destruct r as [sb|e]; [destruct (st_isdir sb)|]; apply Hlog; auto.
Qed.

(** What a command leaves behind. *)
Definition command_done (s : dt) (inotifyFd : Z) (cmd : ascii) (s' : dt) (fd' : Z) : Prop :=
  wf s' /\ rootDirPaths s' = rootDirPaths s /\
  (cmd <> "0"%char -> fd' = inotifyFd) /\
  (cmd <> "0"%char -> cmd <> "a"%char -> cmd <> "z"%char -> wlCache s' = wlCache s).

Definition command_post (s : dt) (inotifyFd : Z) (cmd : ascii) (o : outcome (dt * Z))
    (h : history) : Prop :=
  match o with
  | Done (s', fd') => command_done s inotifyFd cmd s' fd'
  | Stop st => allowed st \/ cmd = "w"%char /\ st = Undefined "stdio on a null stream"
  end.

Lemma command_post_intro s fd cmd (p : prog (dt * Z)) h :
  wp posix p (post (fun '(s', fd') _ => command_done s fd cmd s' fd')) h ->
  wp posix p (command_post s fd cmd) h.
Proof. apply wp_mono. intros [[s' fd']|st] h'; simpl; auto. Qed.

Lemma wp_command_w s fd arg h :
  wf s -> wp posix (runCommand s fd "w"%char (Some arg)) (command_post s fd "w"%char) h.
Proof.
  intros Hwf. cbn. intros r Hr. destruct r as [fp|e].
  - apply command_post_intro. eapply wp_post with (P := fun _ _ => True).
    + apply wp_each_used; [|done]. intros i w h0. cbn. intros [] _. by apply quiet_cons.
    + intros [] h1 _. cbn. by intros.
  - cbn. intros [] _. by right.
Qed.


Lemma wp_command_a s fd arg h :
  wf s -> wp posix (runCommand s fd "a"%char (Some arg))
    (post (fun '(s', fd') _ => command_done s fd "a"%char s' fd')) h.
Proof.
  intros Hwf. eapply wp_post with (P := fun '(s1, _) _ => wf s1 /\ same_globals s s1);
    [apply wp_zapSubtree; auto|].
  intros [s1 cnt] h1 [Hwf1 Hg1]. eapply wp_post with (P := fun _ _ => True).
  { destruct (cnt =? 0); by apply wp_logMessage. }
  intros [] h2 _. eapply wp_post; [apply wp_watchSubtree; [done|]|].
  - intros s2 v h3 Hwf2 Hg2 _ _. instantiate (1 := fun s2 _ => wf s2 /\ same_globals s s2).
    split; [done|by eapply same_globals_trans].
  - intros s2 h3 [Hwf2 Hg2]. split_and!; [done|apply Hg2|done|by intros].
Qed.

Lemma wp_command_z s fd arg h :
  wf s -> wp posix (runCommand s fd "z"%char (Some arg))
    (post (fun '(s', fd') _ => command_done s fd "z"%char s' fd')) h.
Proof.
  intros Hwf. eapply wp_post with (P := fun '(s1, _) _ => wf s1 /\ same_globals s s1);
    [apply wp_zapSubtree; auto|].
  intros [s1 cnt] h1 [Hwf1 Hg1]. apply wp_log_bind. intros h2 _.
  split_and!; [done|apply Hg1|done|by intros].
Qed.

End Events.

(** ** Properties *)

Section EventProperties.
Context {T : ErrText}.

(** Handling one read() of events keeps the program in order, whatever the
    kernel reports.  If every block read is a sequence of whole events of the
    kinds that inotify(7) documents, the read size fits the buffer, and a log
    file is open when dumping or aborting is on, then [processInotifyEvents]
    returns with a well-formed cache and unchanged options, or the process exits
    or aborts by one of its own checks (the unchecked strdup of zapSubtree is
    the only undefined behaviour left); and it cannot run through [fuel]
    iterations unless the kernel delivered at least [4 * fuel - 4] bytes. *)
Lemma processInotifyEvents_safe fuel s inotifyFd h :
  wf s -> log_ok s -> readBufferSize s <= INOTIFY_READ_BUF_LEN ->
  wp event_env (processInotifyEvents fuel s inotifyFd) (fun o h' =>
    match o with
    | Done (s', _) => wf s' /\ same_settings s s'
    | Stop OutOfFuel => 4 * Z.of_nat fuel <= 4 + (bytes_read h' - bytes_read h)
    | Stop st => allowed st
    end) h.
Proof.
  intros Hwf Hlog Hsize. unfold processInotifyEvents.
  apply wp_sys_bind. intros r _. destruct r as [act|e]; [|simpl; by intros [] _].
  apply wp_sys_bind. intros nr [Hr1 Hr2]. destruct nr as [d|e]; [|simpl; by intros [] _].
  destruct Hr2 as (evs & -> & Hg & Hs).
  destruct (event_bytes evs) as [|c d] eqn:Hd; [simpl; by intros [] _|]. rewrite <- Hd in *.
  cbn [posix err_ok] in Hr1.
  destruct (Z.ltb_spec INOTIFY_READ_BUF_LEN (Z.of_nat (length (event_bytes evs)))) as [Hlt|Hle].
  { exfalso. zcase_in Hr1; lia. }
  set (h1 := Ev (Read _ _) _ :: _). set (n := Z.of_nat (length (event_bytes evs))) in *.
  eapply wp_mono; [|eapply wp_post_loop with (n := n) (ft := true) (h0 := h1) (fuel := fuel) (s := s);
                    [by apply wp_logMessage with (P := fun _ _ => True)|]].
  - intros [[s' fd']|[]] h'; simpl; try done.
    assert (Z.of_nat (length (event_bytes evs)) = n) as -> by done. intros Hf. lia.
  - intros [] h2 _ [k ->]. eapply wp_mono; [|apply wp_eventLoop; [done|done|right]].
    + intros [[s' fd']|[]] h'; simpl; try done. intros Hf.
      pose proof (bytes_read_app k h1) as Hb. unfold h1 in *. simpl in *. lia.
    + exists evs. split_and!; [done..|by left].
Qed.

(** An intra-tree rename, reported as IN_MOVED_FROM and the IN_MOVED_TO
    with the same cookie right after it, is handled as one step: both events are
    consumed, the inotify descriptor stays, and the cached pathnames of the
    directory and of everything below it move to the new name. *)
Lemma rename_event s fd firstTry ev nx p q rest h :
  wf s -> checkCache s = false -> dumpCache s = false ->
  good_event ev -> good_event nx -> 0 < ev_len ev -> 0 < ev_len nx ->
  ev_mask ev = Z.lor IN_MOVED_FROM IN_ISDIR -> ev_mask nx = Z.lor IN_MOVED_TO IN_ISDIR ->
  ev_cookie nx = ev_cookie ev ->
  0 <= ev_wd ev -> abs s !! ev_wd ev = Some p ->
  0 <= ev_wd nx -> abs s !! ev_wd nx = Some q ->
  let buf := encode_event ev ++ encode_event nx ++ rest in
  wp posix (processNextInotifyEvent s fd buf (Z.of_nat (length buf)) firstTry)
    (post (fun '(s', fd', n) _ =>
       fd' = fd /\ n = Z.of_nat (length (encode_event ev)) + Z.of_nat (length (encode_event nx)) /\
       wf s' /\
       abs s' = renamed (snprintf PATH_MAX (p ++ $"/" ++ cstring_of (ev_name ev)))
                        (snprintf PATH_MAX (q ++ $"/" ++ cstring_of (ev_name nx))) <$> abs s)) h.
Proof.
  intros Hwf Hcc Hdc Hg Hgx Hlen Hlenx Hm Hmx Hck Hd Hp Hdx Hq buf.
  pose proof (length_encode ev Hg) as Hle. pose proof (length_encode nx Hgx) as Hlex.
  apply wp_process_cached with ev p; [done..|by apply decode_encode|done| |done|].
  { unfold has. by rewrite Hm. }
  intros j h1 Hj. unfold dispatch. rewrite Hm.
  cbv [flag Z.lor Z.land IN_ISDIR IN_CREATE IN_MOVED_TO IN_MOVED_FROM IN_DELETE_SELF].
  match goal with |- wp _ ?x _ _ => change x with
    (onMovedFrom s fd (Some j) ev (SIZEOF_EVENT + ev_len ev) buf (Z.of_nat (length buf)) firstTry) end.
  unfold onMovedFrom. rewrite <- Hle, Nat2Z.id. unfold buf at 2. rewrite drop_app_length.
  rewrite decode_encode by done. rewrite Hmx, Hck, Z.eqb_refl.
  destruct (Z.ltb_spec (Z.of_nat (length (encode_event ev))) (Z.of_nat (length buf))) as [_|Hno];
    [|unfold buf in Hno; rewrite !length_app in Hno; unfold SIZEOF_EVENT in *; lia].
  change (flag (Z.lor IN_MOVED_TO IN_ISDIR) IN_MOVED_TO && true) with true. cbv iota.
  eapply wp_post; [eapply wp_findWatchChecked_cached with (p := q); [done..|]|].
  { intros j' Hj'. instantiate (1 := fun r _ => exists j', r = Some j' /\
      wlCache s !! j' = Some (Watch (ev_wd nx) q)). by exists j'. }
  intros r h2 (j' & -> & Hj'). unfold with_slot, with_name. rewrite Hj, Hj'. cbn [path].
  do 2 (zcase; [|lia]).
  eapply wp_post; [apply wp_rewriteCachedPaths; [done|]|].
  { intros s' h' Hwf' Hgl _ Habs. instantiate (1 := fun s' _ => wf s' /\ same_globals s s' /\
      abs s' = renamed (snprintf PATH_MAX (p ++ $"/" ++ cstring_of (ev_name ev)))
        (snprintf PATH_MAX (q ++ $"/" ++ cstring_of (ev_name nx))) <$> abs s). done. }
  intros s' h' (Hwf' & Hgl & Habs). destruct Hgl as (_ & _ & _ & Hc & Hdm & _).
  cbn [wp post]. split_and!; [congruence|congruence|done|lia|done|done].
Qed.

(** The deletion of a cached directory that is not one of the root paths
    removes exactly its entry from the cache and consumes the event. *)
Lemma delete_event s fd buf bufSize firstTry ev p h :
  wf s -> checkCache s = false -> dumpCache s = false ->
  decode_event buf = Some ev -> has ev IN_DELETE_SELF = true ->
  has ev (Z.lor IN_CREATE IN_MOVED_TO) = false -> has ev IN_IGNORED = false ->
  0 <= ev_wd ev -> abs s !! ev_wd ev = Some p -> isRootDirPath s p = false ->
  wp posix (processNextInotifyEvent s fd buf bufSize firstTry)
    (post (fun '(s', fd', n) _ =>
       fd' = fd /\ n = SIZEOF_EVENT + ev_len ev /\ wf s' /\ same_globals s s' /\
       abs s' = delete (ev_wd ev) (abs s))) h.
Proof.
  intros Hwf Hcc Hdc Hdec Hdel Hcr Hign Hd Hp Hroot.
  apply wp_process_cached with ev p; [done..|]. intros j h1 Hj.
  unfold dispatch, has in *. rewrite Hcr, Hdel, andb_false_r.
  unfold onDeleteSelf, with_slot. rewrite Hj. cbn [path]. rewrite Hroot.
  apply wp_log_bind. intros h2 _. cbn [bind].
  eapply wp_post; [eapply wp_markCacheSlotEmpty; [done|]|].
  { intros h3 _. instantiate (1 := fun s' _ =>
      s' = set_wlCache (<[j := Watch (-1) []]> (wlCache s)) s). done. }
  intros s' h3 ->. split_and!; [done..|by eapply wf_empty_slot|done|].
  unfold abs. cbn [wlCache set_wlCache]. destruct Hwf as [Hwf _].
  rewrite (absl_insert_empty _ _ _ Hwf Hj). unfold used. cbn [wd]. by zcase; [|lia].
Qed.

(** The commands that use the second word of the line. *)
Definition needs_arg (cmd : ascii) : bool :=
  Ascii.eqb cmd "a" || Ascii.eqb cmd "w" || Ascii.eqb cmd "z".

(** Every interactive command leaves the cache well formed and the root
    paths as they are, provided the commands that take an argument get one; only
    the 'w' command can go wrong beyond the program's own exits (it goes on with
    a null stream when fopen() fails).  Only command '0' replaces the inotify
    descriptor, and only 'a', 'z' and '0' touch the cache. *)
Lemma commands_keep_cache s inotifyFd cmd arg h :
  wf s -> (needs_arg cmd = true -> arg <> None) ->
  wp posix (runCommand s inotifyFd cmd arg) (command_post s inotifyFd cmd) h.
Proof.
  intros Hwf Harg.
  destruct (Ascii.eqb_spec cmd "w") as [->|Hw].
  { destruct arg; [by apply wp_command_w|by destruct Harg]. }
  apply command_post_intro. unfold runCommand.
  destruct (Ascii.eqb_spec cmd "a") as [->|Ha].
  { destruct arg; [by apply wp_command_a|by destruct Harg]. }
  destruct (Ascii.eqb cmd "c" || Ascii.eqb cmd "C").
  { eapply wp_post with (P := fun _ _ => True); [by apply wp_verifySlots|].
    intros [cnt fl] h1 _. do 2 (apply wp_log_bind; intros ? _). done. }
  destruct (Ascii.eqb cmd "l").
  { eapply wp_post with (P := fun _ _ => True).
    - apply wp_each_used; [|done]. intros i w h0. by apply wp_logMessage.
    - intros [] h1 _. by apply wp_log_bind. }
  destruct (Ascii.eqb cmd "q"); [done|].
  destruct (Ascii.eqb cmd "v"); [destruct arg; [done|by apply wp_print_bind]|].
  destruct (Ascii.eqb cmd "d"); [by apply wp_print_bind|].
  destruct (Ascii.eqb cmd "x"); [by apply wp_print_bind|].
  destruct (Ascii.eqb_spec cmd "w") as [|_]; [done|].
  destruct (Ascii.eqb_spec cmd "z") as [->|Hz].
  { destruct arg; [by apply wp_command_z|by destruct Harg]. }
  destruct (Ascii.eqb_spec cmd "0") as [->|H0]; [|by apply wp_print_bind].
  wp_sys r Hr. apply wp_reinitialize. intros s' fd' h' Hwf' Ho _ _.
  split_and!; [done|apply Ho|done|done].
Qed.

(** C1: Events keep the program in order, whatever the kernel reports.  If every block read is
    a sequence of whole events of the kinds that inotify(7) documents, the read size fits the
    buffer, and a log file is open when dumping or aborting is on, then
    [processInotifyEvents] returns with a well-formed cache and unchanged options, or the
    process exits or aborts by one of its own checks (the unchecked strdup of zapSubtree is
    the only undefined behaviour left); and it cannot run through [fuel] iterations unless
    the kernel delivered at least [4 * fuel - 4] bytes.  An intra-tree rename, reported as
    IN_MOVED_FROM and the IN_MOVED_TO with the same cookie right after it, is
    handled as one step that consumes both events and moves the cached pathnames
    of the directory and of everything below it to the new name; the deletion of
    a cached directory that is not one of the root paths removes exactly its
    entry.  Every interactive command leaves the cache well formed and the root
    paths as they are, provided the commands that take an argument get one; only
    the 'w' command can go wrong beyond the program's own exits (it goes on with
    a null stream when fopen() fails); only command '0' replaces the inotify
    descriptor, and only 'a', 'z' and '0' touch the cache. *)
Theorem inotify_events :
  (forall fuel s inotifyFd h,
    wf s -> log_ok s -> readBufferSize s <= INOTIFY_READ_BUF_LEN ->
    wp event_env (processInotifyEvents fuel s inotifyFd) (fun o h' =>
      match o with
      | Done (s', _) => wf s' /\ same_settings s s'
      | Stop OutOfFuel => 4 * Z.of_nat fuel <= 4 + (bytes_read h' - bytes_read h)
      | Stop st => allowed st
      end) h) /\
  (forall s fd firstTry ev nx p q rest h,
   wf s -> checkCache s = false -> dumpCache s = false ->
    good_event ev -> good_event nx -> 0 < ev_len ev -> 0 < ev_len nx ->
    ev_mask ev = Z.lor IN_MOVED_FROM IN_ISDIR -> ev_mask nx = Z.lor IN_MOVED_TO IN_ISDIR ->
    ev_cookie nx = ev_cookie ev ->
    0 <= ev_wd ev -> abs s !! ev_wd ev = Some p ->
    0 <= ev_wd nx -> abs s !! ev_wd nx = Some q ->
    let buf := encode_event ev ++ encode_event nx ++ rest in
    wp posix (processNextInotifyEvent s fd buf (Z.of_nat (length buf)) firstTry)
      (post (fun '(s', fd', n) _ =>
         fd' = fd /\ n = Z.of_nat (length (encode_event ev)) + Z.of_nat (length (encode_event nx)) /\
         wf s' /\
         abs s' = renamed (snprintf PATH_MAX (p ++ $"/" ++ cstring_of (ev_name ev)))
                          (snprintf PATH_MAX (q ++ $"/" ++ cstring_of (ev_name nx))) <$> abs s)) h) /\
  (forall s fd buf bufSize firstTry ev p h,
   wf s -> checkCache s = false -> dumpCache s = false ->
    decode_event buf = Some ev -> has ev IN_DELETE_SELF = true ->
    has ev (Z.lor IN_CREATE IN_MOVED_TO) = false -> has ev IN_IGNORED = false ->
    0 <= ev_wd ev -> abs s !! ev_wd ev = Some p -> isRootDirPath s p = false ->
    wp posix (processNextInotifyEvent s fd buf bufSize firstTry)
      (post (fun '(s', fd', n) _ =>
         fd' = fd /\ n = SIZEOF_EVENT + ev_len ev /\ wf s' /\ same_globals s s' /\
         abs s' = delete (ev_wd ev) (abs s))) h) /\
  (forall s inotifyFd cmd arg h,
   wf s -> (needs_arg cmd = true -> arg <> None) ->
    wp posix (runCommand s inotifyFd cmd arg) (command_post s inotifyFd cmd) h).
Proof. split_and!; [exact processInotifyEvents_safe|exact rename_event|exact delete_event|exact commands_keep_cache]. Qed.

End EventProperties.

(** ** Witnesses *)

Definition child_event (mask wd : Z) (name : string) : inotify_event :=
  Event wd mask 77 16 (take 16 (lit name ++ replicate 16 NUL)).

Definition moved_from : inotify_event := child_event (Z.lor IN_MOVED_FROM IN_ISDIR) 3 "x".
Definition moved_to : inotify_event := child_event (Z.lor IN_MOVED_TO IN_ISDIR) 7 "y".

(** The kernel delivers one IN_MOVED_FROM and then interrupts the second read. *)
Definition interrupting_kernel : kernel := fun h X c =>
  match c in call X return X with
  | Read _ n => if n =? INOTIFY_READ_BUF_LEN then Ok (encode_event moved_from) else Err EINTR
  | Sigaction _ _ => Ok (Sigact SIG_DFL [] 0)
  | Inotify_rm_watch _ _ => Ok tt
  | Alloc _ => true
  | c => failing_kernel h _ c
  end.

(** The test [errno != -1] of processInotifyEvents is always true, so an
    interrupted second read() counts as a read of -1 bytes: one read() returned
    events, two are counted. *)
Lemma interrupted_read_is_counted :
  match fst (run interrupting_kernel (processInotifyEvents (T := demo_text) 10 demo 4) []) with
  | Done (s, _) => inotifyReadCnt s = 2 /\ abs s !! 5 = None
  | Stop _ => False
  end.
Proof. vm_compute. auto. Qed.

Lemma delete_event_example :
  wp posix (processNextInotifyEvent (T := demo_text) demo 4
              (encode_event (Event 5 IN_DELETE_SELF 0 0 [])) 16 true)
    (post (fun '(s', fd', n) _ =>
       fd' = 4 /\ n = 16 /\ wf s' /\ same_globals demo s' /\ abs s' = delete 5 (abs demo))) [].
Proof.
  apply (delete_event (T := demo_text) demo 4 _ 16 true (Event 5 IN_DELETE_SELF 0 0 []) ($"/t/a/x"));
    try reflexivity; try apply demo_wf; vm_compute; intuition discriminate.
Defined.

Lemma commands_keep_cache_example :
  wp posix (runCommand (T := demo_text) demo 4 "z"%char (Some ($"/t/a")))
    (command_post demo 4 "z"%char) [].
Proof. apply commands_keep_cache; [apply demo_wf|done]. Defined.

Lemma inotify_events_witness :
  wf demo /\ log_ok demo /\
  wp event_env (processInotifyEvents (T := demo_text) 10 demo 4) (fun o h' =>
    match o with
    | Done (s', _) => wf s' /\ same_settings demo s'
    | Stop OutOfFuel => 40 <= 4 + (bytes_read h' - 0)
    | Stop st => allowed st
    end) [] /\
  wp posix (processNextInotifyEvent (T := demo_text) demo 4
              (encode_event moved_from ++ encode_event moved_to ++ []) 64 true)
    (post (fun '(s', fd', n) _ => fd' = 4 /\ n = 64 /\ abs s' !! 5 = Some ($"/t/abc/y"))) [].
Proof.
  assert (log_ok demo) as Hlog by (intros [H|H]; discriminate H). destruct (inotify_events (T := demo_text)) as (Hsafe & Hrename & _).
  split_and!; [apply demo_wf|done|apply (Hsafe 10%nat demo 4 []); [apply demo_wf|done|done]|]. eapply post_mono.
  - apply (Hrename demo 4 true moved_from moved_to ($"/t/a") ($"/t/abc") [] []); try reflexivity; try apply demo_wf; vm_compute; intuition discriminate.
  - intros [[s' fd'] n] h' (-> & -> & _ & ->). split_and!; reflexivity.
Defined.
