(* ===== verification/StreamIO.v ===== *)
(** * sockets/rdwrn.c, read_line.c, read_line_buf.c: input and output on streams

    [readn] and [writen] transfer exactly [n] bytes in spite of partial transfers
    and interruptions; [readLine] and [readLineBuf] cut an input stream into
    lines.  A function returns the bytes that it put into the caller's buffer,
    with the value that the C function returns.  The loops carry fuel; each
    specification says how much the stream or its interruptions must have
    delivered before the fuel can run out. *)

From S2P Require Import Prelude Sys.

(** ** rdwrn.c *)

Fixpoint readn_loop (fuel : nat) (fd n : Z) (buf : list ascii) : prog (list ascii * Z) :=
  let totRead := Z.of_nat (length buf) in
  if totRead <? n then
    match fuel with
    | O => Halt OutOfFuel
    | S fuel' =>
        numRead <- sys (Read fd (n - totRead)) ;;
        match numRead with
        | Ok [] => Ret (buf, totRead)
        | Ok d => readn_loop fuel' fd n (buf ++ d)
        | Err e => if e =? EINTR then readn_loop fuel' fd n buf else Ret (buf, -1)
        end
    end
  else Ret (buf, totRead).

Definition readn (fuel : nat) (fd n : Z) : prog (list ascii * Z) := readn_loop fuel fd n [].

(** [buf] is what is left to write. *)
Fixpoint writen_loop (fuel : nat) (fd : Z) (buf : list ascii) (totWritten n : Z) : prog Z :=
  if totWritten <? n then
    match fuel with
    | O => Halt OutOfFuel
    | S fuel' =>
        numWritten <- sys (Write fd buf) ;;
        match numWritten with
        | Ok k => if k <=? 0 then Ret (-1)
                  else writen_loop fuel' fd (drop (Z.to_nat k) buf) (totWritten + k) n
        | Err e => if e =? EINTR then writen_loop fuel' fd buf totWritten n else Ret (-1)
        end
    end
  else Ret totWritten.

Definition writen (fuel : nat) (fd : Z) (buffer : list ascii) : prog Z :=
  writen_loop fuel fd buffer 0 (Z.of_nat (length buffer)).

(** ** read_line.c *)

Fixpoint readLine_loop (fuel : nat) (fd n : Z) (buf : list ascii) : prog (list ascii * Z) :=
  let totRead := Z.of_nat (length buf) in
  match fuel with
  | O => Halt OutOfFuel
  | S fuel' =>
      numRead <- sys (Read fd 1) ;;
      match numRead with
      | Err e => if e =? EINTR then readLine_loop fuel' fd n buf else Ret (buf, -1)
      | Ok [] => if totRead =? 0 then Ret (buf, 0) else Ret (buf, totRead)
      | Ok (ch :: _) =>
          let buf' := if totRead <? n - 1 then buf ++ [ch] else buf in
          if Ascii.eqb ch NL then Ret (buf', Z.of_nat (length buf'))
          else readLine_loop fuel' fd n buf'
      end
  end.

(** [null] says whether the buffer argument is a null pointer. *)
Definition readLine (fuel : nat) (fd : Z) (null : bool) (n : Z) : prog (list ascii * Z) :=
  if (n <=? 0) || null then Ret ([], -1) else readLine_loop fuel fd n [].

(** ** read_line_buf.c *)

Definition RL_MAX_BUF : Z := 10.

(** [rl_buf] holds the bytes that the last read() stored. *)
Record ReadLineBuf := Rlbuf { rl_fd : Z; rl_buf : list ascii; rl_next : Z; rl_len : Z }.

Definition readLineBufInit (fd : Z) : ReadLineBuf := Rlbuf fd [] 0 0.

Definition take_char (rl : ReadLineBuf) : prog (ReadLineBuf * ascii) :=
  match rl_buf rl !! Z.to_nat (rl_next rl) with
  | Some c => Ret (Rlbuf (rl_fd rl) (rl_buf rl) (rl_next rl + 1) (rl_len rl), c)
  | None => Halt (Undefined "index out of the buffer")
  end.

Fixpoint readLineBuf_loop (fuel : nat) (rl : ReadLineBuf) (buffer : list ascii) (n : Z) :
    prog (ReadLineBuf * list ascii * Z) :=
  match fuel with
  | O => Halt OutOfFuel
  | S fuel' =>
      let with_input (rl : ReadLineBuf) :=
        '(rl, c) <- take_char rl ;;
        let buffer' := if Z.of_nat (length buffer) <? n then buffer ++ [c] else buffer in
        if Ascii.eqb c NL then Ret (rl, buffer', Z.of_nat (length buffer'))
        else readLineBuf_loop fuel' rl buffer' n in
      if rl_len rl <=? rl_next rl then
        len <- sys (Read (rl_fd rl) RL_MAX_BUF) ;;
        match len with
        | Err _ => Ret (Rlbuf (rl_fd rl) (rl_buf rl) (rl_next rl) (-1), buffer, -1)
        | Ok [] => Ret (Rlbuf (rl_fd rl) (rl_buf rl) (rl_next rl) 0, buffer,
                        Z.of_nat (length buffer))
        | Ok d => with_input (Rlbuf (rl_fd rl) d 0 (Z.of_nat (length d)))
        end
      else with_input rl
  end.

Definition readLineBuf (fuel : nat) (rl : ReadLineBuf) (null : bool) (n : Z) :
    prog (ReadLineBuf * list ascii * Z) :=
  if (n <=? 0) || null then Ret (rl, [], -1) else readLineBuf_loop fuel rl [] n.

(** ** The stream on a descriptor *)

(** The bytes that a call fetched from, or stored to, descriptor [fd]. *)
Definition got (fd : Z) {X} (c : call X) : X -> list ascii :=
  match c in call X return X -> list ascii with
  | Read fd' _ => fun r => match r with Ok d => if fd' =? fd then d else [] | Err _ => [] end
  | _ => fun _ => []
  end.

Definition put (fd : Z) {X} (c : call X) : X -> list ascii :=
  match c in call X return X -> list ascii with
  | Write fd' d => fun r =>
      match r with Ok k => if fd' =? fd then take (Z.to_nat k) d else [] | Err _ => [] end
  | _ => fun _ => []
  end.

Definition interrupted {X} (c : call X) : X -> nat :=
  match c in call X return X -> nat with
  | Read _ _ => fun r => match r with Ok _ => 0%nat | Err e => if e =? EINTR then 1%nat else 0%nat end
  | Write _ _ => fun r => match r with Ok _ => 0%nat | Err e => if e =? EINTR then 1%nat else 0%nat end
  | _ => fun _ => 0%nat
  end.

(** What went over [fd] in a piece of history (latest event first), and the
    number of interrupted transfers in it. *)
Fixpoint input (fd : Z) (k : history) : list ascii :=
  match k with [] => [] | Ev c r :: k' => input fd k' ++ got fd c r end.

Fixpoint output (fd : Z) (k : history) : list ascii :=
  match k with [] => [] | Ev c r :: k' => output fd k' ++ put fd c r end.

Fixpoint interrupts (k : history) : nat :=
  match k with [] => 0 | Ev c r :: k' => interrupts k' + interrupted c r end.

Lemma input_app fd k k' : input fd (k' ++ k) = input fd k ++ input fd k'.
Proof. induction k' as [|[X c r] k' IH]; simpl; [by rewrite app_nil_r|]. by rewrite IH, app_assoc. Qed.

Lemma output_app fd k k' : output fd (k' ++ k) = output fd k ++ output fd k'.
Proof. induction k' as [|[X c r] k' IH]; simpl; [by rewrite app_nil_r|]. by rewrite IH, app_assoc. Qed.

Lemma interrupts_app k k' : interrupts (k' ++ k) = (interrupts k + interrupts k')%nat.
Proof. induction k' as [|[X c r] k' IH]; simpl; lia. Qed.

(** Events that transfer no bytes. *)
Definition no_bytes (e : event) : Prop :=
  match e with Ev c _ => match c with Read _ _ | Write _ _ => False | _ => True end end.

Lemma no_bytes_app k h x :
  Forall no_bytes k -> input x (k ++ h) = input x h /\ output x (k ++ h) = output x h.
Proof.
  intros Hk. rewrite input_app, output_app. assert (input x k = [] /\ output x k = []) as [-> ->]; [|by rewrite !app_nil_r].
  induction Hk as [|[X c r] k Hc Hk [IHi IHo]]; [done|]. cbn. rewrite IHi, IHo. by destruct c.
Qed.

(** The last transfer was a read that found the end of the input, or failed. *)
Definition at_eof (fd : Z) (k : history) : Prop :=
  exists n k', k = Ev (Read fd n) (Ok []) :: k'.

Definition read_failed (fd : Z) (k : history) : Prop :=
  exists n e k', k = Ev (Read fd n) (Err e) :: k' /\ e <> EINTR.

Lemma wp_since_step {A X} E (p : prog A) (c : call X) r h P Q :
  (forall o k, P o k -> Q o (k ++ [Ev c r])) ->
  wp E p (since (Ev c r :: h) P) (Ev c r :: h) -> wp E p (since h Q) (Ev c r :: h).
Proof.
  intros HPQ. apply wp_mono. intros o h' (k & -> & HP). exists (k ++ [Ev c r]).
  split; [by rewrite <- app_assoc|auto].
Qed.

(** ** Specifications *)

Definition readn_post (fd n : Z) (buf : list ascii) (fuel : nat) (o : outcome (list ascii * Z))
    (k : history) : Prop :=
  match o with
  | Done (b, r) =>
      b = buf ++ input fd k /\ Z.of_nat (length b) <= n /\
      (r = Z.of_nat (length b) /\ (r = n \/ at_eof fd k) \/
       r = -1 /\ Z.of_nat (length b) < n /\ read_failed fd k)
  | Stop OutOfFuel =>
      (fuel <= interrupts k + length (input fd k))%nat /\
      Z.of_nat (length buf + length (input fd k)) < n
  | Stop _ => False
  end.

Lemma at_eof_app fd k e : at_eof fd k -> at_eof fd (k ++ e).
Proof. intros (n & k' & ->). by exists n, (k' ++ e). Qed.

Lemma read_failed_app fd k e : read_failed fd k -> read_failed fd (k ++ e).
Proof. intros (n & er & k' & -> & ?). by exists n, er, (k' ++ e). Qed.

#[export] Hint Resolve at_eof_app read_failed_app : tlpi.

Lemma readn_post_full fd n buf fuel :
  Z.of_nat (length buf) = n -> readn_post fd n buf fuel (Done (buf, Z.of_nat (length buf))) [].
Proof. intros <-. simpl. rewrite app_nil_r. split_and!; [done|lia|by auto]. Qed.

Lemma wp_readn_loop fuel fd n buf h :
  Z.of_nat (length buf) <= n ->
  wp posix (readn_loop fuel fd n buf) (since h (readn_post fd n buf fuel)) h.
Proof.
  revert buf h. induction fuel as [|fuel IH]; intros buf h Hn; cbn [readn_loop].
  - zcase; apply since_here; [|apply readn_post_full]; simpl; lia.
  - zcase; [|apply since_here, readn_post_full; lia].
    wp_sys r Hr. destruct r as [[|c d]|e].
    + exists [Ev (Read fd (n - Z.of_nat (length buf))) (Ok [])]. simpl. rewrite Z.eqb_refl, app_nil_r.
      split_and!; [done..|lia|]. left. split; [done|right]. by eexists _, [].
    + eapply wp_since_step; [|apply IH; cbn [err_ok] in Hr; rewrite length_app; lia].
      intros [[b r]|[]] k; simpl; rewrite ?input_app, ?interrupts_app; simpl;
        rewrite ?Z.eqb_refl, <- ?app_assoc, ?length_app; try done.
      * intros (-> & Hl & Hc). split_and!; [done|done|]. intuition auto with tlpi.
      * simpl. lia.
    + simpl in Hr. zcase.
      * eapply wp_since_step; [|apply IH; lia].
        intros [[b r]|[]] k; simpl; rewrite ?input_app, ?interrupts_app; subst; simpl; try done.
        -- intros (-> & Hl & Hc). split_and!; [done|done|]. intuition auto with tlpi.
        -- lia.
      * exists [Ev (Read fd (n - Z.of_nat (length buf))) (Err e)]. simpl. rewrite app_nil_r.
        split_and!; [done..|lia|]. right. split_and!; [done|lia|]. by eexists _, e, [].
Qed.

Definition writen_post (fd : Z) (buf : list ascii) (n : Z) (fuel : nat) (o : outcome Z)
    (k : history) : Prop :=
  match o with
  | Done r =>
      r = n /\ output fd k = buf \/
      r = -1 /\ exists rest, rest <> [] /\ buf = output fd k ++ rest
  | Stop OutOfFuel =>
      (fuel <= interrupts k + length (output fd k))%nat /\
      (length (output fd k) < length buf)%nat
  | Stop _ => False
  end.

Lemma wp_writen_loop fuel fd buf tot n h :
  tot + Z.of_nat (length buf) = n ->
  wp posix (writen_loop fuel fd buf tot n) (since h (writen_post fd buf n fuel)) h.
Proof.
  assert (forall (l : list ascii) t m, t + Z.of_nat (length l) = m -> m <= t -> l = []) as Hnil.
  { intros [|? ?] t m ? ?; [done|simpl in *; lia]. }
  revert buf tot h. induction fuel as [|fuel IH]; intros buf tot h Hn; cbn [writen_loop].
  - zcase; apply since_here; simpl; [lia|]. left. rewrite (Hnil buf tot n) in Hn |- * by lia.
    simpl in Hn. split; [lia|done].
  - zcase.
    2:{ apply since_here. left. rewrite (Hnil buf tot n) in Hn |- * by lia.
        simpl in Hn. split; [lia|done]. }
    assert (buf <> []) as Hne by (intros ->; simpl in *; lia).
    wp_sys r Hr. destruct r as [w|e]; simpl in Hr.
    + zcase.
      * eexists [_]. split; [done|]. right. split; [done|]. exists buf. simpl.
        rewrite Z.eqb_refl. replace (Z.to_nat w) with 0%nat by lia. rewrite take_0. done.
      * eapply wp_since_step; [|apply IH; rewrite length_drop; lia].
        intros [r|[]] k; simpl; rewrite ?output_app, ?interrupts_app; simpl;
          rewrite ?Z.eqb_refl; try done.
        -- intros [[-> ->]|(-> & rest & Hrest & Hd)]; [left|right].
           ++ split; [done|apply take_drop].
           ++ split; [done|]. exists rest. split; [done|].
              rewrite <- app_assoc, <- Hd. by rewrite take_drop.
        -- rewrite length_drop, !length_app, length_take. lia.
    + zcase.
      * eapply wp_since_step; [|by apply IH]. subst.
        intros [r|[]] k; simpl; rewrite ?output_app, ?interrupts_app; simpl; try done. lia.
      * eexists [_]. split; [done|]. right. split; [done|]. by exists buf.
Qed.

(** The characters up to and including the first newline. *)
Definition complete (line : list ascii) : Prop := exists u, line = u ++ [NL] /\ NL ∉ u.

Definition readLine_post (fd n : Z) (seen : list ascii) (fuel : nat)
    (o : outcome (list ascii * Z)) (k : history) : Prop :=
  let line := seen ++ input fd k in
  match o with
  | Done (b, r) =>
      b = take (Z.to_nat (n - 1)) line /\
      (r = Z.of_nat (length b) /\ (complete line \/ NL ∉ line /\ at_eof fd k) \/
       r = -1 /\ NL ∉ line /\ read_failed fd k)
  | Stop OutOfFuel => (fuel <= interrupts k + length (input fd k))%nat /\ NL ∉ line
  | Stop _ => False
  end.

(** Storing a character unless the buffer is full keeps a prefix of the line. *)
Lemma take_grow n (seen : list ascii) c :
  0 < n ->
  (if Z.of_nat (length (take (Z.to_nat (n - 1)) seen)) <? n - 1
   then take (Z.to_nat (n - 1)) seen ++ [c] else take (Z.to_nat (n - 1)) seen) =
  take (Z.to_nat (n - 1)) (seen ++ [c]).
Proof.
  intros Hn. rewrite length_take. zcase.
  - rewrite !take_ge; [done|rewrite length_app; simpl; lia|lia].
  - rewrite take_app_le by lia. done.
Qed.

Lemma not_elem_snoc (l : list ascii) c : NL ∉ l -> c <> NL -> NL ∉ l ++ [c].
Proof. intros Hl Hc. rewrite elem_of_app, list_elem_of_singleton. intros [?|?]; congruence. Qed.

Lemma wp_readLine_loop fuel fd n seen h :
  0 < n -> NL ∉ seen ->
  wp posix (readLine_loop fuel fd n (take (Z.to_nat (n - 1)) seen))
    (since h (readLine_post fd n seen fuel)) h.
Proof.
  intros Hn. revert seen h. induction fuel as [|fuel IH]; intros seen h Hs; cbn [readLine_loop].
  { apply since_here. simpl. rewrite app_nil_r. split; [lia|done]. }
  wp_sys r Hr. destruct r as [[|c d]|e].
  - assert (readLine_post fd n seen (S fuel) (Done (take (Z.to_nat (n - 1)) seen,
      Z.of_nat (length (take (Z.to_nat (n - 1)) seen)))) [Ev (Read fd 1) (Ok [])]) as Hp.
    { simpl. rewrite Z.eqb_refl, app_nil_r. split; [done|]. left. split; [done|right].
      split; [done|]. by eexists _, []. }
    destruct (Z.eqb_spec (Z.of_nat (length (take (Z.to_nat (n - 1)) seen))) 0) as [H0|_];
      eexists [_]; (split; [done|]); [by rewrite H0 in Hp|exact Hp].
  - destruct d; [|simpl in Hr; lia]. rewrite take_grow by done.
    destruct (Ascii.eqb_spec c NL) as [->|Hc].
    + eexists [_]. split; [done|]. simpl. rewrite Z.eqb_refl. simpl. split; [done|].
      left. split; [done|]. left. by exists seen.
    + eapply wp_since_step; [|apply IH; by apply not_elem_snoc].
      intros [[b r]|[]] k; unfold readLine_post; rewrite ?input_app, ?interrupts_app; simpl;
        rewrite ?Z.eqb_refl, <- ?app_assoc; simpl; try done.
      * intros [-> Hc']. split; [done|]. intuition auto with tlpi.
      * intros [? ?]. split; [lia|done].
  - zcase; simpl in Hr.
    + eapply wp_since_step; [|by apply IH]. subst.
      intros [[b r]|[]] k; unfold readLine_post; rewrite ?input_app, ?interrupts_app; simpl; try done.
      * intros [-> Hc']. split; [done|]. intuition auto with tlpi.
      * intros [? ?]. split; [lia|done].
    + eexists [_]. split; [done|]. simpl. rewrite app_nil_r. split; [done|]. right.
      split_and!; [done..|]. by eexists _, e, [].
Qed.

(** *** The buffered reader *)

(** The characters that were read but not consumed yet. *)
Definition pending (rl : ReadLineBuf) : list ascii :=
  if rl_len rl <=? rl_next rl then [] else drop (Z.to_nat (rl_next rl)) (rl_buf rl).

Definition rl_ok (rl : ReadLineBuf) : Prop :=
  0 <= rl_next rl /\ (rl_len rl <= 0 \/ rl_len rl = Z.of_nat (length (rl_buf rl))).

Definition readLineBuf_post (rl : ReadLineBuf) (n : Z) (seen : list ascii) (fuel : nat)
    (o : outcome (ReadLineBuf * list ascii * Z)) (k : history) : Prop :=
  let fd := rl_fd rl in
  match o with
  | Done (rl', b, r) =>
      rl_ok rl' /\ rl_fd rl' = fd /\
      exists more, pending rl ++ input fd k = more ++ pending rl' /\
        let line := seen ++ more in
        b = take (Z.to_nat n) line /\
        (r = Z.of_nat (length b) /\ (complete line \/ NL ∉ line /\ at_eof fd k) \/
         r = -1 /\ NL ∉ line /\ exists e k', k = Ev (Read fd RL_MAX_BUF) (Err e) :: k')
  | Stop OutOfFuel => (fuel <= length (pending rl) + length (input fd k))%nat
  | Stop _ => False
  end.

Lemma rl_ok_init fd : rl_ok (readLineBufInit fd) /\ pending (readLineBufInit fd) = [].
Proof. split; [split; [done|by left]|done]. Qed.

Lemma take_char_pending rl :
  rl_ok rl -> rl_next rl < rl_len rl ->
  exists c p, pending rl = c :: p /\
    let rl' := Rlbuf (rl_fd rl) (rl_buf rl) (rl_next rl + 1) (rl_len rl) in
    take_char rl = Ret (rl', c) /\ rl_ok rl' /\ pending rl' = p.
Proof.
  intros [Hn [Hl|Hl]] Hlt; [lia|]. unfold pending, take_char. simpl.
  destruct (Z.leb_spec (rl_len rl) (rl_next rl)) as [|_]; [lia|].
  destruct (rl_buf rl !! Z.to_nat (rl_next rl)) as [c|] eqn:Hc.
  2:{ apply lookup_ge_None in Hc. lia. }
  exists c, (drop (S (Z.to_nat (rl_next rl))) (rl_buf rl)).
  split; [by apply drop_S|]. split_and!; [done|split; simpl; [lia|by right]|].
  replace (Z.to_nat (rl_next rl + 1)) with (S (Z.to_nat (rl_next rl))) by lia.
  zcase; [|done]. rewrite drop_ge; [done|lia].
Qed.

Lemma take_grow' n (seen : list ascii) c :
  0 < n ->
  (if Z.of_nat (length (take (Z.to_nat n) seen)) <? n
   then take (Z.to_nat n) seen ++ [c] else take (Z.to_nat n) seen) =
  take (Z.to_nat n) (seen ++ [c]).
Proof.
  intros Hn. pose proof (take_grow (n + 1) seen c ltac:(lia)) as H.
  by replace (n + 1 - 1) with n in H by lia.
Qed.

(** The rest of an iteration once the buffer has a character. *)
Lemma wp_readLineBuf_char fuel rl n seen h :
  0 < n -> rl_ok rl -> rl_next rl < rl_len rl -> NL ∉ seen ->
  (forall rl seen h, rl_ok rl -> NL ∉ seen ->
     wp posix (readLineBuf_loop fuel rl (take (Z.to_nat n) seen) n)
       (since h (readLineBuf_post rl n seen fuel)) h) ->
  wp posix ('(rl, c) <- take_char rl ;;
    let buffer' := if Z.of_nat (length (take (Z.to_nat n) seen)) <? n
                   then take (Z.to_nat n) seen ++ [c] else take (Z.to_nat n) seen in
    if Ascii.eqb c NL then Ret (rl, buffer', Z.of_nat (length buffer'))
    else readLineBuf_loop fuel rl buffer' n)
    (since h (readLineBuf_post rl n seen (S fuel))) h.
Proof.
  intros Hn Hok Hlt Hs IH. destruct (take_char_pending rl Hok Hlt) as (c & p & Hp & -> & Hok' & Hp').
  cbn [bind]. rewrite take_grow' by done. destruct (Ascii.eqb_spec c NL) as [->|Hc].
  - apply since_here. split_and!; [done..|]. exists [NL].
    cbv zeta. rewrite Hp, Hp', app_nil_r. split_and!; [done..|]. left. split; [done|]. left. by exists seen.
  - eapply wp_mono; [|apply IH; [done|by apply not_elem_snoc]].
    intros [[[rl' b] r]|[]] h' (k & -> & Hk); exists k; (split; [done|]); simpl in *; try done.
    + destruct Hk as (? & ? & more & Hm & Hb & Hr). split_and!; [done..|].
      exists (c :: more). rewrite Hp. simpl. rewrite <- Hp', Hm.
      rewrite (cons_middle c seen more). rewrite <- app_assoc in Hb, Hr. done.
    + rewrite Hp. rewrite Hp' in Hk. simpl. lia.
Qed.

Lemma wp_readLineBuf_loop fuel rl n seen h :
  0 < n -> rl_ok rl -> NL ∉ seen ->
  wp posix (readLineBuf_loop fuel rl (take (Z.to_nat n) seen) n)
    (since h (readLineBuf_post rl n seen fuel)) h.
Proof.
  intros Hn. revert rl seen h. induction fuel as [|fuel IH]; intros rl seen h Hok Hs;
    cbn [readLineBuf_loop].
  { apply since_here. simpl. lia. }
  destruct (Z.leb_spec (rl_len rl) (rl_next rl)) as [Hle|Hlt]; [|by apply wp_readLineBuf_char].
  assert (pending rl = []) as Hp.
  { unfold pending. by destruct (Z.leb_spec (rl_len rl) (rl_next rl)); [|lia]. }
  assert (forall l, l <= 0 -> let rl' := Rlbuf (rl_fd rl) (rl_buf rl) (rl_next rl) l in
    rl_ok rl' /\ pending rl' = []) as Hend.
  { intros l Hl. destruct Hok as [H0 _]. split; [split; [done|by left]|].
    unfold pending. simpl. zcase; [done|lia]. }
  wp_sys r Hr. destruct r as [[|c d]|e].
  - destruct (Hend 0 ltac:(lia)) as [Hok' Hp']. eexists [_]. split; [done|].
    split_and!; [done..|]. exists []. rewrite Hp, Hp', app_nil_r. simpl. rewrite Z.eqb_refl, app_nil_r.
    split_and!; [done..|]. left. split; [done|right]. split; [done|]. by eexists _, [].
  - set (rl' := Rlbuf _ _ _ _).
    eapply wp_since_step; [|apply (wp_readLineBuf_char fuel rl' n seen); [done| |simpl; lia|done..]].
    + assert (pending rl' = c :: d) as Hp' by done.
      intros [[[rl2 b] r]|[]] k; unfold readLineBuf_post; rewrite ?input_app, ?Hp, ?Hp'; simpl;
        rewrite ?Z.eqb_refl; simpl; try done.
      * intros (? & ? & more & Hm & Hb & Hr'). split_and!; [done..|]. exists more.
        split_and!; [done..|]. destruct Hr' as [[? Hc]|(? & ? & e & k' & ->)].
        -- left. intuition auto with tlpi.
        -- right. split_and!; [done..|]. by exists e, (k' ++ [Ev (Read (rl_fd rl) RL_MAX_BUF) (Ok (c :: d))]).
      * rewrite length_app. lia.
    + split; simpl; [lia|by right].
  - destruct (Hend (-1) ltac:(lia)) as [Hok' Hp']. eexists [_]. split; [done|].
    split_and!; [done..|]. exists []. rewrite Hp, Hp', app_nil_r. simpl. rewrite app_nil_r. split_and!; [done..|].
    right. split_and!; [done..|]. by exists e, [].
Qed.

(** ** Properties *)

(** [readn] fetches exactly the next bytes of the stream, whatever partial
    reads and interruptions occur.  The buffer holds all that was read, in order,
    and never more than [n] bytes; the result is their number, which is [n] unless
    the input ended, or -1 when a read failed with an error other than EINTR;
    and the loop cannot go on for more iterations than there are interruptions
    and bytes short of [n]. *)
Lemma readn_correct fuel fd n h :
  0 <= n ->
  wp posix (readn fuel fd n) (since h (fun o k =>
    match o with
    | Done (buf, r) =>
        buf = input fd k /\ Z.of_nat (length buf) <= n /\
        (r = Z.of_nat (length buf) /\ (r = n \/ at_eof fd k) \/
         r = -1 /\ Z.of_nat (length buf) < n /\ read_failed fd k)
    | Stop OutOfFuel =>
        (fuel <= interrupts k + length (input fd k))%nat /\ Z.of_nat (length (input fd k)) < n
    | Stop _ => False
    end)) h.
Proof. intros Hn. apply (wp_readn_loop fuel fd n []). done. Qed.

(** [writen] writes all of the buffer, in order and once, or returns -1
    having written a proper prefix of it; it stops without progress instead of
    looping when write() returns 0. *)
Lemma writen_correct fuel fd buffer h :
  wp posix (writen fuel fd buffer) (since h (fun o k =>
    match o with
    | Done r =>
        r = Z.of_nat (length buffer) /\ output fd k = buffer \/
        r = -1 /\ exists rest, rest <> [] /\ buffer = output fd k ++ rest
    | Stop OutOfFuel =>
        (fuel <= interrupts k + length (output fd k))%nat /\
        (length (output fd k) < length buffer)%nat
    | Stop _ => False
    end)) h.
Proof. by apply wp_writen_loop. Qed.

(** [readLine] consumes one line of the stream and nothing beyond it (up to
    the newline or the end of the input), delivers its first [n - 1] bytes, which
    leaves room for the null byte, and returns their number; on an error other
    than EINTR it returns -1; bad arguments are refused without reading. *)
Lemma readLine_correct fuel fd null n h :
  wp posix (readLine fuel fd null n) (since h (fun o k =>
    match o with
    | Done (buf, r) =>
        if (n <=? 0) || null then r = -1 /\ k = [] else
        buf = take (Z.to_nat (n - 1)) (input fd k) /\
        (r = Z.of_nat (length buf) /\
           (complete (input fd k) \/ NL ∉ input fd k /\ at_eof fd k) \/
         r = -1 /\ NL ∉ input fd k /\ read_failed fd k)
    | Stop OutOfFuel => (fuel <= interrupts k + length (input fd k))%nat /\ NL ∉ input fd k
    | Stop _ => False
    end)) h.
Proof.
  unfold readLine. destruct (Z.leb_spec n 0) as [|Hn]; [by apply since_here|].
  destruct null; [by apply since_here|]. cbn [orb].
  pose proof (wp_readLine_loop fuel fd n [] h Hn) as H. rewrite take_nil in H. apply H.
  apply not_elem_of_nil.
Qed.

(** [readLineBuf] cuts the same lines out of a stream that it reads in
    blocks: what was pending before and what was read during the call is the line
    followed by what is pending afterwards, so consecutive calls deliver
    consecutive lines and lose nothing; at most [n] bytes of the line are
    delivered. *)
Lemma readLineBuf_correct fuel rl n h :
  rl_ok rl -> 0 < n ->
  wp posix (readLineBuf fuel rl false n) (since h (fun o k =>
    match o with
    | Done (rl', buf, r) =>
        rl_ok rl' /\ rl_fd rl' = rl_fd rl /\
        exists line, pending rl ++ input (rl_fd rl) k = line ++ pending rl' /\
          buf = take (Z.to_nat n) line /\
          (r = Z.of_nat (length buf) /\ (complete line \/ NL ∉ line /\ at_eof (rl_fd rl) k) \/
           r = -1 /\ NL ∉ line /\ exists e k', k = Ev (Read (rl_fd rl) RL_MAX_BUF) (Err e) :: k')
    | Stop OutOfFuel => (fuel <= length (pending rl) + length (input (rl_fd rl) k))%nat
    | Stop _ => False
    end)) h.
Proof.
  intros Hok Hn. unfold readLineBuf. zcase; [lia|]. cbn [orb].
  pose proof (wp_readLineBuf_loop fuel rl n [] h Hn Hok) as Hl. rewrite take_nil in Hl.
  apply Hl, not_elem_of_nil.
Qed.

(** C25: [readn] and [writen] transfer exactly what was asked for, whatever partial
    transfers and interruptions occur.  [readn]: the buffer holds all that was
    read, in order, and never more than [n] bytes; the result is their number,
    which is [n] unless the input ended, or -1 when a read failed with an error
    other than EINTR.  [writen] writes all of the buffer, in order and once, or
    returns -1 having written a proper prefix of it, and stops when write()
    returns 0.  [readLine] consumes one line of the stream and nothing beyond it
    (up to the newline or the end of the input), delivers its first [n - 1] bytes,
    which leaves room for the null byte, and returns their number; on an error other
    than EINTR it returns -1; bad arguments are refused without reading.
    [readLineBuf] cuts the same lines out of a stream that it reads in blocks: what
    was pending before and what was read during the call is the line followed by
    what is pending afterwards, so consecutive calls deliver consecutive lines and
    lose nothing.  No loop goes on for more iterations than there are interruptions
    and bytes. *)
Theorem stream_io :
  (forall fuel fd n h,
   0 <= n ->
    wp posix (readn fuel fd n) (since h (fun o k =>
      match o with
      | Done (buf, r) =>
          buf = input fd k /\ Z.of_nat (length buf) <= n /\
          (r = Z.of_nat (length buf) /\ (r = n \/ at_eof fd k) \/
           r = -1 /\ Z.of_nat (length buf) < n /\ read_failed fd k)
      | Stop OutOfFuel =>
          (fuel <= interrupts k + length (input fd k))%nat /\ Z.of_nat (length (input fd k)) < n
      | Stop _ => False
      end)) h) /\
  (forall fuel fd buffer h,
   wp posix (writen fuel fd buffer) (since h (fun o k =>
      match o with
      | Done r =>
          r = Z.of_nat (length buffer) /\ output fd k = buffer \/
          r = -1 /\ exists rest, rest <> [] /\ buffer = output fd k ++ rest
      | Stop OutOfFuel =>
          (fuel <= interrupts k + length (output fd k))%nat /\
          (length (output fd k) < length buffer)%nat
      | Stop _ => False
      end)) h) /\
  (forall fuel fd null n h,
   wp posix (readLine fuel fd null n) (since h (fun o k =>
      match o with
      | Done (buf, r) =>
          if (n <=? 0) || null then r = -1 /\ k = [] else
          buf = take (Z.to_nat (n - 1)) (input fd k) /\
          (r = Z.of_nat (length buf) /\
             (complete (input fd k) \/ NL ∉ input fd k /\ at_eof fd k) \/
           r = -1 /\ NL ∉ input fd k /\ read_failed fd k)
      | Stop OutOfFuel => (fuel <= interrupts k + length (input fd k))%nat /\ NL ∉ input fd k
      | Stop _ => False
      end)) h) /\
  (forall fuel rl n h,
   rl_ok rl -> 0 < n ->
    wp posix (readLineBuf fuel rl false n) (since h (fun o k =>
      match o with
      | Done (rl', buf, r) =>
          rl_ok rl' /\ rl_fd rl' = rl_fd rl /\
          exists line, pending rl ++ input (rl_fd rl) k = line ++ pending rl' /\
            buf = take (Z.to_nat n) line /\
            (r = Z.of_nat (length buf) /\ (complete line \/ NL ∉ line /\ at_eof (rl_fd rl) k) \/
             r = -1 /\ NL ∉ line /\ exists e k', k = Ev (Read (rl_fd rl) RL_MAX_BUF) (Err e) :: k')
      | Stop OutOfFuel => (fuel <= length (pending rl) + length (input (rl_fd rl) k))%nat
      | Stop _ => False
      end)) h).
Proof. split_and!; [exact readn_correct|exact writen_correct|exact readLine_correct|exact readLineBuf_correct]. Qed.

Lemma stream_io_witness :
  0 <= 3 /\ wp posix (readn 5 0 3) (since [] (fun o k =>
    match o with
    | Done (buf, r) =>
        buf = input 0 k /\ Z.of_nat (length buf) <= 3 /\
        (r = Z.of_nat (length buf) /\ (r = 3 \/ at_eof 0 k) \/
         r = -1 /\ Z.of_nat (length buf) < 3 /\ read_failed 0 k)
    | Stop OutOfFuel =>
        (5 <= interrupts k + length (input 0 k))%nat /\ Z.of_nat (length (input 0 k)) < 3
    | Stop _ => False
    end)) [] /\
  wp posix (readLineBuf 9 (readLineBufInit 4) false 80) (since [] (fun o k =>
    match o with
    | Done (rl', buf, r) =>
        rl_ok rl' /\ rl_fd rl' = 4 /\
        exists line, [] ++ input 4 k = line ++ pending rl' /\
          buf = take 80 line /\
          (r = Z.of_nat (length buf) /\ (complete line \/ NL ∉ line /\ at_eof 4 k) \/
           r = -1 /\ NL ∉ line /\ exists e k', k = Ev (Read 4 RL_MAX_BUF) (Err e) :: k')
    | Stop OutOfFuel => (9 <= 0 + length (input 4 k))%nat
    | Stop _ => False
    end)) [].
Proof.
  split; [lia|]. split; [apply (proj1 stream_io 5%nat 0 3); lia|].
  apply (proj2 (proj2 (proj2 stream_io)) 9%nat (readLineBufInit 4) 80); [apply rl_ok_init|lia].
Defined.
