(* ===== verification/Sockets.v ===== *)
(** * sockets/inet_sockets.c and unix_sockets.c: creating connected and bound sockets

    The functions walk through the addresses that getaddrinfo() returns and hand
    out a descriptor, or -1.  [None] stands for a null host.  The result of the
    passive functions comes with the address length that they store. *)

From S2P Require Import Prelude Sys.

Definition AF_UNSPEC : Z := 0.
Definition AF_UNIX : Z := 1.
Definition SOCK_STREAM : Z := 1.
Definition SOCK_DGRAM : Z := 2.
Definition AI_PASSIVE : Z := 1.
Definition NI_NUMERICSERV : Z := 2.

(** ** inet_sockets.c *)

Fixpoint connectFirst (l : list addrinfo) : prog Z :=
  match l with
  | [] => Ret (-1)
  | rp :: l' =>
      s <- sys (Socket (ai_family rp) (ai_socktype rp) (ai_protocol rp)) ;;
      match s with
      | Err _ => connectFirst l'
      | Ok sfd =>
          c <- sys (Connect sfd (ai_addr rp) (ai_addrlen rp)) ;;
          match c with
          | Ok _ => Ret sfd
          | Err _ => sys (Close sfd) ;;; connectFirst l'
          end
      end
  end.

Definition inetConnect (host : option (list ascii)) (service : list ascii) (type : Z) : prog Z :=
  s <- sys (Getaddrinfo host service (Hints 0 AF_UNSPEC type)) ;;
  match s with
  | inl _ => Ret (-1)
  | inr result =>
      sfd <- connectFirst result ;;
      sys (Freeaddrinfo result) ;;;
      Ret sfd
  end.

(** How the walk of [inetPassiveSocket] ends: with a bound socket and its
    address, after the last address, or because SO_REUSEADDR could not be set. *)
Inductive bound :=
| Bound (sfd : Z) (rp : addrinfo)
| NoAddress
| OptionFailed.

Fixpoint bindFirst (l : list addrinfo) (doListen : bool) : prog bound :=
  match l with
  | [] => Ret NoAddress
  | rp :: l' =>
      s <- sys (Socket (ai_family rp) (ai_socktype rp) (ai_protocol rp)) ;;
      match s with
      | Err _ => bindFirst l' doListen
      | Ok sfd =>
          o <- (if doListen then sys (Setsockopt_reuseaddr sfd 1) else Ret (Ok tt)) ;;
          match o with
          | Err _ => sys (Close sfd) ;;; Ret OptionFailed
          | Ok _ =>
              b <- sys (Bind sfd (ai_addr rp) (ai_addrlen rp)) ;;
              match b with
              | Ok _ => Ret (Bound sfd rp)
              | Err _ => sys (Close sfd) ;;; bindFirst l' doListen
              end
          end
      end
  end.

Definition inetPassiveSocket (service : list ascii) (type : Z) (addrlen doListen : bool)
    (backlog : Z) : prog (Z * option Z) :=
  s <- sys (Getaddrinfo None service (Hints AI_PASSIVE AF_UNSPEC type)) ;;
  match s with
  | inl _ => Ret (-1, None)
  | inr result =>
      b <- bindFirst result doListen ;;
      match b with
      | OptionFailed => sys (Freeaddrinfo result) ;;; Ret (-1, None)
      | NoAddress => sys (Freeaddrinfo result) ;;; Ret (-1, None)
      | Bound sfd rp =>
          r <- (if doListen then sys (Listen sfd backlog) else Ret (Ok tt)) ;;
          match r with
          | Err _ => sys (Freeaddrinfo result) ;;; Ret (-1, None)
          | Ok _ =>
              sys (Freeaddrinfo result) ;;;
              Ret (sfd, if addrlen then Some (ai_addrlen rp) else None)
          end
      end
  end.

Definition inetListen (service : list ascii) (backlog : Z) (addrlen : bool) :
    prog (Z * option Z) :=
  inetPassiveSocket service SOCK_STREAM addrlen true backlog.

Definition inetBind (service : list ascii) (type : Z) (addrlen : bool) : prog (Z * option Z) :=
  inetPassiveSocket service type addrlen false 0.

Definition inetAddressStr (addr : list ascii) (addrStrLen : nat) : prog (list ascii) :=
  r <- sys (Getnameinfo addr NI_NUMERICSERV) ;;
  Ret (match r with
       | Some (host, service) => snprintf addrStrLen ($"(" ++ host ++ $", " ++ service ++ $")")
       | None => snprintf addrStrLen ($"(?UNKNOWN?)")
       end).

(** ** unix_sockets.c *)

(** sizeof(sun_path) and sizeof(struct sockaddr_un). *)
Definition SUN_PATH : Z := 108.
Definition SIZEOF_SOCKADDR_UN : Z := 110.

(** The bytes of a struct sockaddr_un: the family and the zero-padded path. *)
Definition sockaddr_un (path : list ascii) : list ascii :=
  [chr AF_UNIX; NUL] ++ path ++ replicate (108 - length path) NUL.

(** [None] is a null path. *)
Definition unixBuildAddress (path : option (list ascii)) : res (list ascii) :=
  match path with
  | None => Err EINVAL
  | Some p => if strlen p <? SUN_PATH then Ok (sockaddr_un p) else Err ENAMETOOLONG
  end.

Definition unixConnect (path : option (list ascii)) (type : Z) : prog (res Z) :=
  match unixBuildAddress path with
  | Err e => Ret (Err e)
  | Ok addr =>
      s <- sys (Socket AF_UNIX type 0) ;;
      match s with
      | Err e => Ret (Err e)
      | Ok sd =>
          c <- sys (Connect sd addr SIZEOF_SOCKADDR_UN) ;;
          match c with
          | Err savedErrno => sys (Close sd) ;;; Ret (Err savedErrno)
          | Ok _ => Ret (Ok sd)
          end
      end
  end.

Definition unixBind (path : option (list ascii)) (type : Z) : prog (res Z) :=
  match unixBuildAddress path with
  | Err e => Ret (Err e)
  | Ok addr =>
      s <- sys (Socket AF_UNIX type 0) ;;
      match s with
      | Err e => Ret (Err e)
      | Ok sd =>
          c <- sys (Bind sd addr SIZEOF_SOCKADDR_UN) ;;
          match c with
          | Err savedErrno => sys (Close sd) ;;; Ret (Err savedErrno)
          | Ok _ => Ret (Ok sd)
          end
      end
  end.

(** ** Specifications *)

(** The calls that do not open or close descriptors. *)
Lemma open_close (fd : Z) (s : gset Z) : fd ∉ s -> ({[fd]} ∪ s) ∖ {[fd]} = s.
Proof. set_solver. Qed.

Definition ev_connected (sfd : Z) (rp : addrinfo) : event :=
  Ev (Connect sfd (ai_addr rp) (ai_addrlen rp)) (Ok tt).
Definition ev_bound (sfd : Z) (rp : addrinfo) : event :=
  Ev (Bind sfd (ai_addr rp) (ai_addrlen rp)) (Ok tt).

Definition ev_socket (sfd : Z) (rp : addrinfo) : event :=
  Ev (Socket (ai_family rp) (ai_socktype rp) (ai_protocol rp)) (Ok sfd).

(** A walk either leaves the open descriptors as they were, or adds the one it
    returns, which was created for an address of the list and on which the call with
    this address succeeded. *)
Definition connect_post (l : list addrinfo) (h : history) (o : outcome Z) (k : history) : Prop :=
  match o with
  | Done r =>
      r = -1 /\ open_fds (k ++ h) = open_fds h \/
      0 <= r /\ r ∉ open_fds h /\ open_fds (k ++ h) = {[r]} ∪ open_fds h /\
      exists rp, rp ∈ l /\ ev_socket r rp ∈ k /\ ev_connected r rp ∈ k
  | Stop _ => False
  end.

Definition bind_post (l : list addrinfo) (doListen : bool) (h : history) (o : outcome bound) (k : history) : Prop :=
  match o with
  | Done (Bound r rp) =>
      0 <= r /\ r ∉ open_fds h /\ open_fds (k ++ h) = {[r]} ∪ open_fds h /\
      rp ∈ l /\ ev_socket r rp ∈ k /\ ev_bound r rp ∈ k /\
      (doListen = true -> Ev (Setsockopt_reuseaddr r 1) (Ok tt) ∈ k)
  | Done _ => open_fds (k ++ h) = open_fds h
  | Stop _ => False
  end.

Lemma connect_post_tail rp l k0 h o h' :
  open_fds (k0 ++ h) = open_fds h -> since (k0 ++ h) (connect_post l (k0 ++ h)) o h' ->
  since h (connect_post (rp :: l) h) o h'.
Proof.
  intros Hh (k & -> & H). exists (k ++ k0). split; [by rewrite <- app_assoc|]. destruct o as [r|]; [|done]. simpl in *. rewrite <- app_assoc, <- Hh.
  destruct H as [?|(? & ? & ? & rp' & ? & ? & ?)]; [by left|right].
  split_and!; [done..|]. exists rp'. split_and!; [by right|apply elem_of_app; by left..].
Qed.

Lemma bind_post_tail rp l doListen k0 h o h' :
  open_fds (k0 ++ h) = open_fds h -> since (k0 ++ h) (bind_post l doListen (k0 ++ h)) o h' ->
  since h (bind_post (rp :: l) doListen h) o h'.
Proof.
  intros Hh (k & -> & H). exists (k ++ k0). split; [by rewrite <- app_assoc|].
  destruct o as [[r rp'| |]|]; simpl in *; rewrite <- ?app_assoc, <- ?Hh; try done.
  destruct H as (? & ? & ? & ? & ? & ? & Hl). split_and!; [done..|by right| | |]; try (apply elem_of_app; by left).
  intros Hd. apply elem_of_app. left. by apply Hl.
Qed.

Lemma wp_connectFirst l h : wp posix (connectFirst l) (since h (connect_post l h)) h.
Proof.
  revert h. induction l as [|rp l IH]; intros h; cbn [connectFirst]; [apply since_here; by left|].
  wp_sys s Hs. destruct s as [sfd|e].
  2:{ eapply wp_mono; [|apply IH]. intros o h'. by apply (connect_post_tail rp l [_] h). }
  destruct Hs as [H0 Hf]. wp_sys c Hc. destruct c as [[]|e].
  - eexists [_; _]. split; [done|]. right. split_and!; [done..|]. exists rp. split_and!; [by left|right; by left|by left].
  - wp_sys x Hx. eapply wp_mono; [|apply IH]. intros o h'. apply (connect_post_tail rp l [_; _; _] h).
    simpl. by apply open_close.
Qed.

Lemma wp_bindFirst l doListen h : wp posix (bindFirst l doListen) (since h (bind_post l doListen h)) h.
Proof.
  revert h. induction l as [|rp l IH]; intros h; cbn [bindFirst]; [by apply since_here|].
  wp_sys s Hs. destruct s as [sfd|e].
  2:{ eapply wp_mono; [|apply IH]. intros o h'. by apply (bind_post_tail rp l doListen [_] h). }
  destruct Hs as [H0 Hf].
  assert (forall k, open_fds (k ++ h) = {[sfd]} ∪ open_fds h -> ev_socket sfd rp ∈ k ->
    (doListen = true -> Ev (Setsockopt_reuseaddr sfd 1) (Ok tt) ∈ k) ->
    wp posix (b <- sys (Bind sfd (ai_addr rp) (ai_addrlen rp)) ;;
              match b with
              | Ok _ => Ret (Bound sfd rp)
              | Err _ => sys (Close sfd) ;;; bindFirst l doListen
              end) (since h (bind_post (rp :: l) doListen h)) (k ++ h)) as Hbind.
  { intros k Hh Hin Hopt. wp_sys b Hb. destruct b as [[]|e].
    - exists (Ev (Bind sfd (ai_addr rp) (ai_addrlen rp)) (Ok tt) :: k). split; [done|].
      split_and!; [done..|by left|by right|by left|]. intros Hd. right. by apply Hopt.
    - wp_sys x Hx. eapply wp_mono; [|apply IH]. intros o h'. apply (bind_post_tail rp l doListen (_ :: _ :: k) h).
      simpl. rewrite Hh. by apply open_close. }
  destruct doListen; [|apply (Hbind [_]); [done|by left|done]].
  wp_sys o Ho. destruct o as [[]|e]; [apply (Hbind [_; _]); [done|right; by left|by left]|].
  wp_sys x Hx. eexists [_; _; _]. split; [done|]. simpl. by apply open_close.
Qed.

(** ** Properties *)

(** What [inetConnect] promises, [k] being the calls it made. *)
Definition connect_spec (host : option (list ascii)) (service : list ascii) (type : Z) (h : history)
    (o : outcome Z) (k : history) : Prop :=
  match o with
  | Done r =>
      r = -1 /\ open_fds (k ++ h) = open_fds h \/
      0 <= r /\ r ∉ open_fds h /\ open_fds (k ++ h) = {[r]} ∪ open_fds h /\
      exists result rp,
        Ev (Getaddrinfo host service (Hints 0 AF_UNSPEC type)) (inr result) ∈ k /\
        rp ∈ result /\ ev_socket r rp ∈ k /\ ev_connected r rp ∈ k
  | Stop _ => False
  end.

Lemma inetConnect_no_leak host service type h :
  wp posix (inetConnect host service type) (since h (connect_spec host service type h)) h.
Proof.
  unfold inetConnect. wp_sys s Hs. destruct s as [e|result]; [eexists [_]; split; [done|]; by left|].
  eapply wp_call; [apply wp_connectFirst| |by intros st h' (k & _ & [])].
  intros r h' (k & -> & Hc). wp_sys x Hx. exists (Ev (Freeaddrinfo result) x :: k ++ [Ev (Getaddrinfo host service (Hints 0 AF_UNSPEC type)) (inr result)]).
  split; [cbn; by rewrite <- app_assoc|]. unfold connect_spec. cbn [app open_fds opened closed]. rewrite <- app_assoc. cbn [app].
  destruct Hc as [Hc|(? & ? & Hc & rp & Hrp & H1 & H2)]; [by left|right].
  split_and!; [done..|]. exists result, rp. split_and!; [|done|right; apply elem_of_app; by left..].
  right. apply elem_of_app. right. by left.
Qed.

(** What the passive functions promise: a new descriptor, bound to one of the addresses that
    getaddrinfo() returned for the wildcard address and the service, listening if asked
    to, with the length of that address; or -1, with the open descriptors as they were,
    unless it was listen() that failed: then the socket stays open. *)
Definition passive_spec (service : list ascii) (type : Z) (addrlen doListen : bool) (backlog : Z) (h : history)
    (o : outcome (Z * option Z)) (k : history) : Prop :=
  match o with
  | Done (r, len) =>
      r = -1 /\ len = None /\
        (open_fds (k ++ h) = open_fds h \/
         doListen = true /\ exists sfd e, Ev (Listen sfd backlog) (Err e) ∈ k /\ sfd ∉ open_fds h /\
           open_fds (k ++ h) = {[sfd]} ∪ open_fds h) \/
      0 <= r /\ r ∉ open_fds h /\ open_fds (k ++ h) = {[r]} ∪ open_fds h /\
      exists result rp,
        Ev (Getaddrinfo None service (Hints AI_PASSIVE AF_UNSPEC type)) (inr result) ∈ k /\
        rp ∈ result /\ ev_socket r rp ∈ k /\ ev_bound r rp ∈ k /\
        len = (if addrlen then Some (ai_addrlen rp) else None) /\
        (doListen = true -> Ev (Setsockopt_reuseaddr r 1) (Ok tt) ∈ k /\ Ev (Listen r backlog) (Ok tt) ∈ k)
  | Stop _ => False
  end.

Lemma inetPassiveSocket_fds service type addrlen doListen backlog h :
  wp posix (inetPassiveSocket service type addrlen doListen backlog)
    (since h (passive_spec service type addrlen doListen backlog h)) h.
Proof.
  unfold inetPassiveSocket. wp_sys s Hs. destruct s as [e|result]; [eexists [_]; split; [done|]; left; by auto|].
  set (g := Ev (Getaddrinfo None service (Hints AI_PASSIVE AF_UNSPEC type)) (inr result)).
  eapply wp_call; [apply wp_bindFirst| |by intros st h' (k & _ & [])].
  intros [r rp| |] h' (k & -> & Hb).
  2,3: wp_sys x Hx; exists (Ev (Freeaddrinfo result) x :: k ++ [g]); (split; [cbn; by rewrite <- app_assoc|]); left;
    (split_and!; [done..|left]); cbn [app open_fds opened closed]; rewrite <- app_assoc; exact Hb.
  destruct Hb as (H0 & Hn & Ho & Hrp & Hs1 & Hb1 & Hopt). destruct doListen.
  - wp_sys l Hl. set (kl := Ev (Listen r backlog) l :: k ++ [g]).
    assert (open_fds (kl ++ h) = {[r]} ∪ open_fds h) as Hol by (cbn; by rewrite <- app_assoc).
    assert (forall e, e ∈ k -> e ∈ kl) as Hin by (intros e He; right; apply elem_of_app; by left).
    destruct l as [[]|e]; wp_sys x Hx; exists (Ev (Freeaddrinfo result) x :: kl); (split; [cbn; by rewrite <- app_assoc|]).
    + right. split_and!; [done..|]. exists result, rp.
      split_and!; [|done|right; by apply Hin..|done|intros Hd; split; [right; by apply Hin, Hopt|right; by left]].
      right. right. apply elem_of_app. right. by left.
    + left. split_and!; [done..|]. right. split; [done|]. exists r, e. split_and!; [right; by left|done|done].
  - wp_sys x Hx. exists (Ev (Freeaddrinfo result) x :: k ++ [g]). split; [cbn; by rewrite <- app_assoc|]. right.
    cbn [app open_fds opened closed]. rewrite <- app_assoc. split_and!; [done..|]. exists result, rp.
    split_and!; [|done|right; apply elem_of_app; by left..|done|done]. right. apply elem_of_app. right. by left.
Qed.

(** [unixConnect] and [unixBind] refuse a pathname that does not fit the
    address structure without making a call, leave the open descriptors as they
    were when they fail, reporting the error of the call that failed and not
    that of close(), and otherwise return the one descriptor that they opened,
    connected or bound to the zero-padded pathname. *)
Lemma unixConnect_unixBind_fds path type h :
  let spec (ev : Z -> list ascii -> res unit -> event) (o : outcome (res Z)) (h' : history) :=
    match o with
    | Done (Ok sd) =>
        sd ∉ open_fds h /\ open_fds h' = {[sd]} ∪ open_fds h /\
        exists p, path = Some p /\ strlen p < 108 /\ Ev (Socket AF_UNIX type 0) (Ok sd) ∈ h' /\ ev sd (sockaddr_un p) (Ok tt) ∈ h'
    | Done (Err e) =>
        open_fds h' = open_fds h /\
        (h' = h /\ (path = None /\ e = EINVAL \/
                    exists p, path = Some p /\ 108 <= strlen p /\ e = ENAMETOOLONG) \/
         Ev (Socket AF_UNIX type 0) (Err e) ∈ h' \/
         exists sd p, path = Some p /\ ev sd (sockaddr_un p) (Err e) ∈ h')
    | Stop _ => False
    end in
  wp posix (unixConnect path type) (spec (fun sd a r => Ev (Connect sd a SIZEOF_SOCKADDR_UN) r)) h /\
  wp posix (unixBind path type) (spec (fun sd a r => Ev (Bind sd a SIZEOF_SOCKADDR_UN) r)) h.
Proof.
  unfold unixConnect, unixBind, unixBuildAddress, SUN_PATH.
  destruct path as [p|]; [|split; (split; [done|]); left; by auto].
  zcase; [|split; (split; [done|]); left; eauto 10].
  split; (wp_sys s Hs; destruct s as [sd|e];
    [|cbn [wp]; split; [done|right; left; by left]]; destruct Hs as [H0 Hf];
    wp_sys c Hc; destruct c as [[]|e];
    [split_and!; [done..|]; exists p; split_and!; [done..|right; by left|by left]|];
    wp_sys x Hx; split; [simpl; by apply open_close|]; right; right; exists sd, p;
    split; [done|right; by left]).
Qed.

(** C36: what the socket functions do with descriptors.  [inetConnect] returns -1 with
    the open descriptors as they were before the call, or the one new descriptor: a
    socket that was created for, and connected to, one of the addresses that
    getaddrinfo() returned for this host, service and type.  [inetListen] and
    [inetBind] return the one new descriptor, created for and bound to one of the
    addresses that getaddrinfo() returned for a passive socket (AI_PASSIVE and no host)
    of this service and type, with the length of that address if it is asked for;
    [inetListen] has set SO_REUSEADDR on it and it is listening with the given backlog.
    When they fail they return -1 and no length, and the open descriptors are as before, except
    that [inetListen] leaks a socket when listen() fails on it: the socket stays open.
    [unixConnect] and [unixBind] refuse without a call a pathname that does not fit,
    leave the open descriptors as they were when they fail, reporting the error of
    the call that failed, and otherwise return the one descriptor that they opened,
    connected or bound to the zero-padded pathname. *)
Theorem socket_descriptors :
  (forall host service type h,
   wp posix (inetConnect host service type) (since h (connect_spec host service type h)) h) /\
  (forall service addrlen backlog h,
   wp posix (inetListen service backlog addrlen) (since h (passive_spec service SOCK_STREAM addrlen true backlog h)) h) /\
  (forall service type addrlen h,
   wp posix (inetBind service type addrlen) (since h (passive_spec service type addrlen false 0 h)) h) /\
  (forall path type h,
   let spec (ev : Z -> list ascii -> res unit -> event) (o : outcome (res Z)) (h' : history) :=
      match o with
      | Done (Ok sd) =>
          sd ∉ open_fds h /\ open_fds h' = {[sd]} ∪ open_fds h /\
          exists p, path = Some p /\ strlen p < 108 /\ Ev (Socket AF_UNIX type 0) (Ok sd) ∈ h' /\ ev sd (sockaddr_un p) (Ok tt) ∈ h'
      | Done (Err e) =>
          open_fds h' = open_fds h /\
          (h' = h /\ (path = None /\ e = EINVAL \/
                      exists p, path = Some p /\ 108 <= strlen p /\ e = ENAMETOOLONG) \/
           Ev (Socket AF_UNIX type 0) (Err e) ∈ h' \/
           exists sd p, path = Some p /\ ev sd (sockaddr_un p) (Err e) ∈ h')
      | Stop _ => False
      end in
    wp posix (unixConnect path type) (spec (fun sd a r => Ev (Connect sd a SIZEOF_SOCKADDR_UN) r)) h /\
    wp posix (unixBind path type) (spec (fun sd a r => Ev (Bind sd a SIZEOF_SOCKADDR_UN) r)) h).
Proof.
  split_and!; [exact inetConnect_no_leak| | |exact unixConnect_unixBind_fds]; intros; apply inetPassiveSocket_fds.
Qed.

Lemma length_sockaddr_un p : strlen p < SUN_PATH ->
  Z.of_nat (length (sockaddr_un p)) = SIZEOF_SOCKADDR_UN.
Proof.
  unfold strlen, SUN_PATH, sockaddr_un, SIZEOF_SOCKADDR_UN. intros Hl.
  rewrite !length_app, length_replicate. simpl. lia.
Qed.
