(* ===== verification/SeqNum.v ===== *)
(** * Sequence number servers: sockets/is_seqnum*, pipes/fifo_seqnum*

    Three servers hand out ranges of consecutive numbers.  The socket servers
    read a request line and answer with a decimal line; the FIFO server reads
    and writes binary structures.  The socket programs are written against the
    interface [LineReader], what sockets/read_line.c promises them, and
    [readLine] is its instance. *)

From S2P Require Import Prelude Sys LibErrors GetNum StreamIO Sockets.

Definition INT_LEN : nat := 30.
Definition SIGPIPE : Z := 13.
Definition SA_RESTART : Z := 0x10000000.
Definition AI_NUMERICSERV : Z := 0x400.
Definition BACKLOG : Z := 50.
Definition IS_ADDR_STR_LEN : nat := 4096.
Definition ADDRSTRLEN : nat := 1067.

(** ** What a line reader promises *)

Definition reads_only (fd : Z) (k : history) : Prop :=
  Forall (fun e => exists n r, e = Ev (Read fd n) r) k.

(** Nothing but reads from [fd]; the text is the beginning of the line that was
    consumed and leaves room for a null byte; the value is its length, or -1. *)
Definition line_spec (fd n : Z) (o : outcome (list ascii * Z)) (k : history) : Prop :=
  reads_only fd k /\
  match o with
  | Done (b, r) =>
      b = take (Z.to_nat (n - 1)) (input fd k) /\
      (r = Z.of_nat (length b) /\ (complete (input fd k) \/ NL ∉ input fd k /\ at_eof fd k) \/
       r = -1)
  | Stop st => st = OutOfFuel
  end.

Class LineReader := {
  line_read : nat -> Z -> Z -> prog (list ascii * Z);
  line_read_ok : forall fuel fd n h, 0 < n ->
    wp posix (line_read fuel fd n) (since h (line_spec fd n)) h
}.

Lemma readLine_reads_only fuel fd n buf h :
  wp posix (readLine_loop fuel fd n buf) (since h (fun _ k => reads_only fd k)) h.
Proof.
  revert buf h. induction fuel as [|fuel IH]; intros buf h; cbn [readLine_loop].
  { apply since_here. constructor. }
  wp_sys r Hr.
  assert (reads_only fd [Ev (Read fd 1) r]) as H1 by (constructor; [eauto|constructor]).
  assert (forall b, wp posix (readLine_loop fuel fd n b)
    (since h (fun _ k => reads_only fd k)) (Ev (Read fd 1) r :: h)) as Hstep.
  { intros b. eapply wp_since_step; [|apply IH]. intros o k Hk. by apply Forall_app. }
  destruct r as [[|c d]|e].
  - destruct (_ =? 0); by eexists [_].
  - destruct (Ascii.eqb c NL); [by eexists [_]|apply Hstep].
  - destruct (e =? EINTR); [apply Hstep|by eexists [_]].
Qed.

Lemma readLine_line_spec fuel fd n h :
  0 < n -> wp posix (readLine fuel fd false n) (since h (line_spec fd n)) h.
Proof.
  intros Hn. unfold readLine. destruct (Z.leb_spec n 0) as [|_]; [lia|]. cbn [orb].
  pose proof (wp_readLine_loop fuel fd n [] h Hn (not_elem_of_nil _)) as Hl.
  rewrite take_nil in Hl.
  eapply wp_mono; [|apply (wp_conj _ _ _ _ _ Hl (readLine_reads_only fuel fd n [] h))].
  intros o h' [(k & -> & Hk) (k' & Hk' & Hro)]. apply app_inv_tail in Hk' as <-.
  exists k. split; [done|]. split; [done|]. destruct o as [[b r]|[]]; try done.
  simpl in Hk. destruct Hk as [-> [?|(-> & _)]]; split; auto.
Qed.

#[export] Instance readLine_reader : LineReader := {|
  line_read := fun fuel fd n => readLine fuel fd false n;
  line_read_ok := readLine_line_spec
|}.

(** ** The socket servers and clients *)

Section SeqNum.
Context {T : ErrText} {L : LineReader}.

(** One iteration of the server loop: accept a client, answer it; the result is
    the next sequence number (a uint32_t).  [addrText] is how the server prints
    the client's address. *)
Definition serveClient (fuel : nat) (addrText : list ascii -> prog (list ascii)) (lfd seqNum : Z) :
    prog Z :=
  a <- sys (Accept lfd) ;;
  match a with
  | Err e => errMsg e ($"accept") ;;; Ret seqNum
  | Ok (cfd, claddr) =>
      addrStr <- addrText claddr ;;
      print Stdout ($"Connection from " ++ addrStr ++ [NL]) ;;;
      '(reqLenStr, r) <- line_read fuel cfd (Z.of_nat INT_LEN) ;;
      if r <=? 0 then sys (Close cfd) ;;; Ret seqNum
      else
        let reqLen := atoi (cstring_of reqLenStr) in
        if reqLen <=? 0 then sys (Close cfd) ;;; Ret seqNum
        else
          let seqNumStr := snprintf INT_LEN (dec (int_of seqNum) ++ [NL]) in
          w <- sys (Write cfd seqNumStr) ;;
          (if match w with Ok k => k =? strlen seqNumStr | Err _ => false end
           then Ret tt else print Stderr ($"Error on write")) ;;;
          let seqNum := wrapu 32 (seqNum + reqLen) in
          c <- sys (Close cfd) ;;
          match c with Err e => errMsg e ($"close") | Ok _ => Ret tt end ;;;
          Ret seqNum
  end.

Fixpoint serveLoop (n fuel : nat) (addrText : list ascii -> prog (list ascii)) (lfd seqNum : Z) :
    prog unit :=
  match n with
  | O => Halt OutOfFuel
  | S n' => seqNum' <- serveClient fuel addrText lfd seqNum ;; serveLoop n' fuel addrText lfd seqNum'
  end.

Definition sv_start (argv : list (list ascii)) : prog Z :=
  let arg := argv !! 1%nat in
  match arg with
  | Some a =>
      if strcmp_eq a ($"--help")
      then usageErr (default [] (argv !! 0%nat) ++ $" [init-seq-num]" ++ [NL])
      else v <- getInt (Some a) 0 (Some ($"init-seq-num")) ;; Ret (wrapu 32 v)
  | None => Ret 0
  end.

Definition ignore_sigpipe : prog unit :=
  r <- sys (Sigaction SIGPIPE (Sigact SIG_IGN [] SA_RESTART)) ;;
  match r with Err e => errExit e ($"signal") | Ok _ => Ret tt end.

(** is_seqnum_v2_sv.c *)
Definition seqnum_v2_sv_main (n fuel : nat) (argv : list (list ascii)) : prog unit :=
  seqNum <- sv_start argv ;;
  ignore_sigpipe ;;;
  '(lfd, addrlen) <- inetListen ($"50000") 5 true ;;
  if lfd =? -1 then fatal ($"inetListen() failed")
  else
    ok <- sys (Alloc (default 0 addrlen)) ;;
    if ok : bool
    then serveLoop n fuel (fun a => inetAddressStr a IS_ADDR_STR_LEN) lfd seqNum
    else errExit ENOMEM ($"malloc").

(** is_seqnum_sv.c: the same service with its own socket set-up. *)
Fixpoint sv_bindFirst (l : list addrinfo) : prog (option Z) :=
  match l with
  | [] => Ret None
  | rp :: l' =>
      s <- sys (Socket (ai_family rp) (ai_socktype rp) (ai_protocol rp)) ;;
      match s with
      | Err _ => sv_bindFirst l'
      | Ok lfd =>
          o <- sys (Setsockopt_reuseaddr lfd 1) ;;
          match o with
          | Err e => errExit e ($"setsockopt")
          | Ok _ =>
              b <- sys (Bind lfd (ai_addr rp) (ai_addrlen rp)) ;;
              match b with
              | Ok _ => Ret (Some lfd)
              | Err _ => sys (Close lfd) ;;; sv_bindFirst l'
              end
          end
      end
  end.

Definition addrText_v1 (claddr : list ascii) : prog (list ascii) :=
  r <- sys (Getnameinfo claddr 0) ;;
  Ret (match r with
       | Some (host, service) => snprintf ADDRSTRLEN ($"(" ++ host ++ $", " ++ service ++ $")")
       | None => snprintf ADDRSTRLEN ($"(?UNKNOWN?)")
       end).

(** [errno] is the value that getaddrinfo() leaves behind. *)
Definition seqnum_sv_main (n fuel : nat) (errno : Z) (argv : list (list ascii)) : prog unit :=
  seqNum <- sv_start argv ;;
  ignore_sigpipe ;;;
  g <- sys (Getaddrinfo None ($"50000")
              (Hints (Z.lor AI_PASSIVE AI_NUMERICSERV) AF_UNSPEC SOCK_STREAM)) ;;
  match g with
  | inl _ => errExit errno ($"getaddrinfo")
  | inr result =>
      b <- sv_bindFirst result ;;
      match b with
      | None => fatal ($"Could not bind socket to any address")
      | Some lfd =>
          l <- sys (Listen lfd BACKLOG) ;;
          match l with
          | Err e => errExit e ($"listen")
          | Ok _ => sys (Freeaddrinfo result) ;;; serveLoop n fuel addrText_v1 lfd seqNum
          end
      end
  end.

(** What both clients do with the connected socket. *)
Definition cl_talk (fuel : nat) (errno : Z) (argv : list (list ascii)) (cfd : Z) : prog unit :=
  let reqLenStr := match argv !! 2%nat with Some a => a | None => $"1" end in
  w <- sys (Write cfd reqLenStr) ;;
  if match w with Ok k => k =? strlen reqLenStr | Err _ => false end then
    w2 <- sys (Write cfd [NL]) ;;
    if match w2 with Ok k => k =? 1 | Err _ => false end then
      '(seqNumStr, numRead) <- line_read fuel cfd (Z.of_nat INT_LEN) ;;
      if numRead =? -1 then errExit errno ($"readLine")
      else if numRead =? 0 then fatal ($"Unexpected EOF from server")
      else
        print Stdout ($"Sequence number: " ++ cstring_of seqNumStr) ;;;
        Halt (Exit EXIT_SUCCESS)
    else fatal ($"Partial/failed write (newline)")
  else fatal ($"Partial/failed write (reqLenStr)").

Definition cl_usage {A} (argv : list (list ascii)) : prog A :=
  usageErr (default [] (argv !! 0%nat) ++ $" server-host [sequence-len]" ++ [NL]).

Definition seqnum_v2_cl_main (fuel : nat) (errno : Z) (argv : list (list ascii)) : prog unit :=
  match argv !! 1%nat with
  | None => cl_usage argv
  | Some host =>
      if strcmp_eq host ($"--help") then cl_usage argv
      else
        cfd <- inetConnect (Some host) ($"50000") SOCK_STREAM ;;
        if cfd =? -1 then fatal ($"inetConnect() failed")
        else cl_talk fuel errno argv cfd
  end.

Definition seqnum_cl_main (fuel : nat) (errno : Z) (argv : list (list ascii)) : prog unit :=
  match argv !! 1%nat with
  | None => cl_usage argv
  | Some host =>
      if strcmp_eq host ($"--help") then cl_usage argv
      else
        g <- sys (Getaddrinfo (Some host) ($"50000")
                    (Hints AI_NUMERICSERV AF_UNSPEC SOCK_STREAM)) ;;
        match g with
        | inl _ => errExit errno ($"getaddrinfo")
        | inr result =>
            cfd <- connectFirst result ;;
            if cfd =? -1 then fatal ($"Could not connect socket to any address")
            else sys (Freeaddrinfo result) ;;; cl_talk fuel errno argv cfd
        end
  end.

(** ** The FIFO server and client *)

Definition O_RDONLY : Z := 0.
Definition O_WRONLY : Z := 1.
Definition FIFO_MODE : Z := 400.
Definition SERVER_FIFO : list ascii := $"/tmp/seqnum_sv".
Definition CLIENT_FIFO_NAME_LEN : nat := 39.

Record request := Request { req_pid : Z; req_seqLen : Z }.

(** struct request and struct response as the bytes of their int members. *)
Definition encode_request (r : request) : list ascii := put_int (req_pid r) ++ put_int (req_seqLen r).

Definition decode_request (d : list ascii) : option request :=
  match d with
  | [p0; p1; p2; p3; l0; l1; l2; l3] =>
      Some (Request (int_of (le32 p0 p1 p2 p3)) (int_of (le32 l0 l1 l2 l3)))
  | _ => None
  end.

Definition decode_response (d : list ascii) : option Z :=
  match d with
  | [b0; b1; b2; b3] => Some (int_of (le32 b0 b1 b2 b3))
  | _ => None
  end.

Definition clientFifoName (pid : Z) : list ascii :=
  snprintf CLIENT_FIFO_NAME_LEN ($"/tmp/seqnum_cl." ++ dec pid).

(** One request; a signed overflow of the counter is undefined. *)
Definition fifoRequest (serverFd seqNum : Z) : prog Z :=
  r <- sys (Read serverFd 8) ;;
  match match r with Ok d => decode_request d | Err _ => None end with
  | None => print Stderr ($"Error reading request; discarding" ++ [NL]) ;;; Ret seqNum
  | Some req =>
      let clientFifo := clientFifoName (req_pid req) in
      c <- sys (Open clientFifo O_WRONLY 0) ;;
      match c with
      | Err e => errMsg e ($"open " ++ clientFifo) ;;; Ret seqNum
      | Ok clientFd =>
          w <- sys (Write clientFd (put_int seqNum)) ;;
          (if match w with Ok k => k =? 4 | Err _ => false end then Ret tt
           else print Stderr ($"Error writing to FIFO " ++ clientFifo ++ [NL])) ;;;
          x <- sys (Close clientFd) ;;
          match x with Err e => errMsg e ($"close") | Ok _ => Ret tt end ;;;
          let seqNum' := seqNum + req_seqLen req in
          if (INT_MIN <=? seqNum') && (seqNum' <=? INT_MAX) then Ret seqNum'
          else Halt (Undefined "signed overflow of seqNum")
      end
  end.

Fixpoint fifoLoop (n : nat) (serverFd seqNum : Z) : prog unit :=
  match n with
  | O => Halt OutOfFuel
  | S n' => seqNum' <- fifoRequest serverFd seqNum ;; fifoLoop n' serverFd seqNum'
  end.

Definition fifo_server_main (n : nat) : prog unit :=
  sys (Umask 0) ;;;
  m <- sys (Mkfifo SERVER_FIFO FIFO_MODE) ;;
  match m with
  | Err e => if e =? EEXIST then Ret tt else errExit e ($"mkfifo " ++ SERVER_FIFO)
  | Ok _ => Ret tt
  end ;;;
  o <- sys (Open SERVER_FIFO O_RDONLY 0) ;;
  match o with
  | Err e => errExit e ($"open " ++ SERVER_FIFO)
  | Ok serverFd =>
      d <- sys (Open SERVER_FIFO O_WRONLY 0) ;;
      match d with
      | Err e => errExit e ($"open " ++ SERVER_FIFO)
      | Ok _ => ignore_sigpipe ;;; fifoLoop n serverFd 0
      end
  end.

Definition fifo_client_main (argv : list (list ascii)) : prog unit :=
  match argv !! 1%nat with
  | Some a => if strcmp_eq a ($"--help")
              then usageErr (default [] (argv !! 0%nat) ++ $" [seq-len]" ++ [NL]) else Ret tt
  | None => Ret tt
  end ;;;
  sys (Umask 0) ;;;
  pid <- sys Getpid ;;
  let clientFifo := clientFifoName pid in
  m <- sys (Mkfifo clientFifo FIFO_MODE) ;;
  match m with
  | Err e => if e =? EEXIST then Ret tt else errExit e ($"mkfifo " ++ clientFifo)
  | Ok _ => Ret tt
  end ;;;
  x <- sys (Atexit "removeFifo") ;;
  match x with Err e => errExit e ($"atexit") | Ok _ => Ret tt end ;;;
  pid2 <- sys Getpid ;;
  seqLen <- match argv !! 1%nat with
            | Some a => getInt (Some a) GN_GT_0 (Some ($"seq-len"))
            | None => Ret 1
            end ;;
  o <- sys (Open SERVER_FIFO O_WRONLY 0) ;;
  match o with
  | Err e => errExit e ($"open " ++ SERVER_FIFO)
  | Ok serverFd =>
      w <- sys (Write serverFd (encode_request (Request pid2 seqLen))) ;;
      if match w with Ok k => k =? 8 | Err _ => false end then
        c <- sys (Open clientFifo O_RDONLY 0) ;;
        match c with
        | Err e => errExit e ($"open " ++ clientFifo)
        | Ok clientFd =>
            r <- sys (Read clientFd 4) ;;
            match match r with Ok d => decode_response d | Err _ => None end with
            | None => fatal ($"Can't read response from server")
            | Some v => print Stdout (dec v ++ [NL]) ;;; Halt (Exit EXIT_SUCCESS)
            end
        end
      else fatal ($"Can't write to server")
  end.

End SeqNum.

(** ** Specifications *)

(** The data of the write() calls, in order. *)
Definition wrote {X} (c : call X) : list (Z * list ascii) :=
  match c with Write fd d => [(fd, d)] | _ => [] end.

Fixpoint writes (k : history) : list (Z * list ascii) :=
  match k with [] => [] | Ev c _ :: k' => writes k' ++ wrote c end.

Lemma writes_app k k' : writes (k' ++ k) = writes k ++ writes k'.
Proof. induction k' as [|[X c r] k' IH]; simpl; [by rewrite app_nil_r|]. by rewrite IH, app_assoc. Qed.

(** Calls that touch no descriptor. *)
Definition harmless (e : event) : Prop :=
  match e with
  | Ev c _ => match c with
              | Out _ _ | Fflush _ | Getenv _ | Getnameinfo _ _ => True
              | _ => False
              end
  end.

Lemma harmless_facts fd k h :
  Forall harmless k ->
  open_fds (k ++ h) = open_fds h /\ input fd k = [] /\ writes k = [].
Proof.
  induction 1 as [|[X c r] k Hc _ (IH1 & IH2 & IH3)]; [done|].
  simpl. rewrite IH1, IH2, IH3. by destruct c.
Qed.

Lemma reads_only_facts fd k h :
  reads_only fd k -> open_fds (k ++ h) = open_fds h /\ writes k = [].
Proof.
  induction 1 as [|e k (n & r & ->) _ (IH1 & IH2)]; [done|]. simpl. by rewrite IH1, IH2.
Qed.

Section SeqNumSpecs.
Context {T : ErrText} {L : LineReader}.

(** A program that returns after harmless calls. *)
Definition returns_quietly {A} (p : prog A) : Prop :=
  forall h, wp posix p (since h (fun o k => (exists a, o = Done a) /\ Forall harmless k)) h.

Lemma errMsg_quiet err msg : returns_quietly (errMsg err msg).
Proof.
  intros h. unfold errMsg. apply wp_outputError. exists (report true err true msg).
  split; [done|]. split; [eauto|]. unfold report. repeat constructor.
Qed.

Lemma inetAddressStr_quiet a n : returns_quietly (inetAddressStr a n).
Proof. intros h. cbn. intros r _. eexists [_]. split; [done|]. split; [eauto|]. by repeat constructor. Qed.

Lemma addrText_v1_quiet a : returns_quietly (addrText_v1 a).
Proof. intros h. cbn. intros r _. eexists [_]. split; [done|]. split; [eauto|]. by repeat constructor. Qed.

Lemma ret_quiet {A} (a : A) : returns_quietly (Ret a).
Proof. intros h. apply since_here. eauto. Qed.

Lemma print_quiet st text : returns_quietly (print st text).
Proof. intros h. cbn. intros [] _. eexists [_]. split; [done|]. split; [eauto|]. by repeat constructor. Qed.

Lemma wp_quietly {A B} (p : prog A) (f : A -> prog B) Q h :
  returns_quietly p ->
  (forall a k, Forall harmless k -> wp posix (f a) Q (k ++ h)) ->
  wp posix (bind p f) Q h.
Proof.
  intros Hp Hf. eapply wp_call; [apply Hp| |].
  - intros a h' (k & -> & _ & Hk). by apply Hf.
  - intros s h' (k & -> & [a Ha] & _). done.
Qed.

Lemma wp_print_quiet {B} st text (f : unit -> prog B) Q h :
  (forall k, Forall harmless k -> wp posix (f tt) Q (k ++ h)) ->
  wp posix (bind (print st text) f) Q h.
Proof. intros Hf. wp_sys r Hr. destruct r. apply (Hf [_]). by repeat constructor. Qed.

(** The answer to one client. *)
Definition served (seqNum s' : Z) (k : history) : Prop :=
  exists cfd, let reqLen := atoi (cstring_of (take 29 (input cfd k))) in
    0 < reqLen /\ s' = wrapu 32 (seqNum + reqLen) /\
    writes k = [(cfd, dec (int_of seqNum) ++ [NL])].

Definition client_post (seqNum : Z) (h : history) (o : outcome Z) (k : history) : Prop :=
  match o with
  | Done s' => open_fds (k ++ h) = open_fds h /\ (s' = seqNum /\ writes k = [] \/ served seqNum s' k)
  | Stop st => st = OutOfFuel /\ writes k = []
  end.

Lemma seqNumStr_fits seqNum :
  snprintf INT_LEN (dec (int_of seqNum) ++ [NL]) = dec (int_of seqNum) ++ [NL].
Proof.
  unfold snprintf, INT_LEN. rewrite take_ge; [done|]. rewrite length_app.
  pose proof (length_dec_int _ (int_of_range seqNum)). simpl. lia.
Qed.

(** The end of a client's session: close, with or without an error. *)
Lemma wp_close_client cfd (s' seqNum : Z) k h :
  cfd ∉ open_fds h -> open_fds (k ++ h) = {[cfd]} ∪ open_fds h ->
  (s' = seqNum /\ writes k = [] \/ served seqNum s' k) ->
  wp posix (c <- sys (Close cfd) ;;
            match c with Err e => errMsg e ($"close") | Ok _ => Ret tt end ;;; Ret s')
    (since h (client_post seqNum h)) (k ++ h).
Proof.
  intros Hf Hk Hs. wp_sys c Hc.
  eapply wp_quietly.
  { destruct c as [[]|e]; [apply ret_quiet|apply errMsg_quiet]. }
  intros [] q Hq. exists (q ++ Ev (Close cfd) c :: k). split; [by rewrite <- app_assoc|].
  destruct (harmless_facts cfd q (Ev (Close cfd) c :: k ++ h) Hq) as (Hq1 & _ & Hq3).
  split.
  - rewrite <- app_assoc. simpl app. rewrite Hq1. simpl. rewrite Hk. by apply open_close.
  - destruct Hs as [[-> Hw]|(fd & H1 & H2 & H3)]; [left|right].
    + split; [done|]. by rewrite writes_app, Hq3, app_nil_r; simpl; rewrite Hw.
    + exists fd. destruct (harmless_facts fd q [] Hq) as (_ & Hi & _).
      rewrite input_app, writes_app, Hi, Hq3. simpl. rewrite !app_nil_r. auto.
Qed.

Lemma wp_drop_client cfd seqNum k h :
  cfd ∉ open_fds h -> open_fds (k ++ h) = {[cfd]} ∪ open_fds h -> writes k = [] ->
  wp posix (sys (Close cfd) ;;; Ret seqNum) (since h (client_post seqNum h)) (k ++ h).
Proof.
  intros Hf Hk Hw. wp_sys c Hc. eexists (_ :: k). split; [done|]. simpl.
  rewrite Hk, open_close, Hw by done. auto.
Qed.

(** The answer to a good request: write, then close. *)
Lemma wp_answer cfd seqNum k h :
  let reqLen := atoi (cstring_of (take 29 (input cfd k))) in
  let seqNumStr := dec (int_of seqNum) ++ [NL] in
  cfd ∉ open_fds h -> open_fds (k ++ h) = {[cfd]} ∪ open_fds h -> writes k = [] -> 0 < reqLen ->
  wp posix
    (w <- sys (Write cfd seqNumStr) ;;
     (if match w with Ok k => k =? strlen seqNumStr | Err _ => false end
      then Ret tt else print Stderr ($"Error on write")) ;;;
     c <- sys (Close cfd) ;;
     match c with Err e => errMsg e ($"close") | Ok _ => Ret tt end ;;;
     Ret (wrapu 32 (seqNum + reqLen)))
    (since h (client_post seqNum h)) (k ++ h).
Proof.
  intros reqLen seqNumStr Hf Ho Hw Hpos. wp_sys w Hwr. set (ew := Ev (Write _ _) w).
  assert (forall q, Forall harmless q ->
    wp posix (c <- sys (Close cfd) ;;
            match c with Err e => errMsg e ($"close") | Ok _ => Ret tt end ;;;
            Ret (wrapu 32 (seqNum + reqLen)))
    (since h (client_post seqNum h)) (q ++ ew :: k ++ h)) as Hend.
  { intros q Hq. destruct (harmless_facts cfd q (ew :: k ++ h) Hq) as (Hq1 & Hq2 & Hq3).
    change (q ++ ew :: k ++ h) with (q ++ (ew :: k) ++ h). rewrite app_assoc.
    apply wp_close_client; [done|rewrite <- app_assoc; simpl app; rewrite Hq1; exact Ho|].
    right. exists cfd. rewrite input_app, writes_app, Hq2, Hq3. simpl. rewrite Hw, !app_nil_r. done. }
  destruct (match w with Ok k => _ | Err _ => _ end); [apply (Hend []); constructor|].
  by apply wp_print_quiet.
Qed.

Lemma wp_serveClient fuel addrText lfd seqNum h :
  (forall a, returns_quietly (addrText a)) ->
  wp posix (serveClient fuel addrText lfd seqNum) (since h (client_post seqNum h)) h.
Proof.
  intros Hq. unfold serveClient. wp_sys a Ha. destruct a as [[cfd claddr]|e].
  2:{ eapply wp_quietly; [apply errMsg_quiet|]. intros [] k Hk.
      exists (k ++ [Ev (Accept lfd) (Err e)]). split; [by rewrite <- app_assoc|].
      destruct (harmless_facts 0 k (Ev (Accept lfd) (Err e) :: h) Hk) as (H1 & _ & H3).
      simpl. rewrite writes_app, H3, <- app_assoc. simpl app. rewrite H1. auto. }
  cbn [err_ok fst] in Ha. destruct Ha as [_ Hf].
  eapply wp_quietly; [apply Hq|]. intros addrStr k1 Hk1.
  apply wp_print_quiet. intros k2 Hk2.
  eapply wp_call; [apply line_read_ok; unfold INT_LEN; lia| |].
  2:{ intros st h' (k & -> & Hro & ->). exists (k ++ k2 ++ k1 ++ [Ev (Accept lfd) (Ok (cfd, claddr))]).
      rewrite <- !app_assoc. split; [done|]. split; [done|]. rewrite !writes_app.
      destruct (harmless_facts 0 k1 h Hk1) as (_ & _ & ->).
      destruct (harmless_facts 0 k2 h Hk2) as (_ & _ & ->).
      by destruct (reads_only_facts _ _ h Hro) as (_ & ->). }
  intros [reqLenStr r] h' (k3 & -> & Hro & -> & Hr).
  set (k := k3 ++ k2 ++ k1 ++ [Ev (Accept lfd) (Ok (cfd, claddr))]).
  destruct (reads_only_facts _ _ (k2 ++ k1 ++ Ev (Accept lfd) (Ok (cfd, claddr)) :: h) Hro) as [Ho3 Hw3].
  destruct (harmless_facts cfd k2 (k1 ++ Ev (Accept lfd) (Ok (cfd, claddr)) :: h) Hk2) as (Ho2 & Hi2 & Hw2).
  destruct (harmless_facts cfd k1 (Ev (Accept lfd) (Ok (cfd, claddr)) :: h) Hk1) as (Ho1 & Hi1 & Hw1).
  assert (k3 ++ k2 ++ k1 ++ Ev (Accept lfd) (Ok (cfd, claddr)) :: h = k ++ h) as Hk
    by (unfold k; by rewrite <- !app_assoc).
  assert (open_fds (k ++ h) = {[cfd]} ∪ open_fds h) as Ho by (rewrite <- Hk, Ho3, Ho2, Ho1; done).
  assert (writes k = []) as Hw by (unfold k; rewrite !writes_app, Hw1, Hw2, Hw3; done).
  assert (input cfd k = input cfd k3) as Hi by (unfold k; rewrite !input_app, Hi1, Hi2; done).
  rewrite Hk. destruct (r <=? 0); [by apply wp_drop_client|].
  rewrite <- Hi. zcase; [by apply wp_drop_client|].
  rewrite seqNumStr_fits. by apply wp_answer.
Qed.

(** *** The sequence of answers *)

(** Ranges that follow one another from [s] on, modulo 2^32. *)
Fixpoint chain (s : Z) (grants : list (Z * Z)) : Prop :=
  match grants with
  | [] => True
  | (s', len) :: g => s' = s /\ 0 < len <= INT_MAX /\ chain (wrapu 32 (s + len)) g
  end.

Definition answer (g : Z * Z) : list ascii := dec (int_of (fst g)) ++ [NL].

Lemma wp_serveLoop n fuel addrText lfd seqNum h :
  (forall a, returns_quietly (addrText a)) ->
  wp posix (serveLoop n fuel addrText lfd seqNum) (since h (fun o k =>
    o = Stop OutOfFuel /\ exists grants, chain seqNum grants /\
      map snd (writes k) = map answer grants)) h.
Proof.
  intros Hq. revert seqNum h. induction n as [|n IH]; intros seqNum h; cbn [serveLoop].
  { apply since_here. split; [done|]. by exists []. }
  eapply wp_call; [by apply wp_serveClient| |].
  - intros s' h' (k & -> & _ & Hs). eapply wp_mono; [|apply IH].
    intros o h' (k' & -> & -> & grants & Hg & Hw). exists (k' ++ k).
    split; [by rewrite <- app_assoc|]. split; [done|].
    destruct Hs as [[-> Hk]|(cfd & Hl & -> & Hk)]; rewrite writes_app, Hk; [by exists grants|].
    exists ((seqNum, atoi (cstring_of (take 29 (input cfd k)))) :: grants). split.
    + split_and!; [done|done|apply atoi_range|done].
    + simpl. by rewrite Hw.
  - intros st h' (k & -> & -> & Hk). exists k. split; [done|]. split; [done|]. exists [].
    by rewrite Hk.
Qed.

Definition total (grants : list (Z * Z)) : Z := foldr (fun g n => snd g + n) 0 grants.

Lemma chain_disjoint s grants :
  chain s grants -> 0 <= s -> s + total grants < 2 ^ 32 ->
  Forall (fun g => s <= fst g) grants /\
  ForallOrdPairs (fun a b => fst a + snd a <= fst b) grants.
Proof.
  revert s. induction grants as [|[s' len] g IH]; intros s Hc Hs Ht; [by repeat constructor|].
  destruct Hc as (-> & Hl & Hc). simpl in Ht.
  assert (0 <= total g) as Hg.
  { clear -Hc. revert Hc. generalize (wrapu 32 (s + len)). induction g as [|[a l] g IH]; intros z; simpl; [lia|].
    intros (_ & ? & Hc). specialize (IH _ Hc). lia. }
  rewrite wrapu_id in Hc by lia. destruct (IH _ Hc ltac:(lia) ltac:(lia)) as [Hf Ho]. split.
  - constructor; [simpl; lia|]. eapply Forall_impl; [exact Hf|]. simpl. lia.
  - constructor; [|done]. exact Hf.
Qed.

(** *** Requests and answers as text and as bytes *)

Lemma request_line n : is_int n -> atoi (cstring_of (take 29 (dec n ++ [NL]))) = n.
Proof.
  intros Hn. rewrite take_ge.
  - rewrite cstring_of_id by (intros [H|H%list_elem_of_singleton]%elem_of_app; [by apply dec_no_nul in H|done]). apply atoi_dec; [done|]. by intros c r [= <- _].
  - rewrite length_app. pose proof (length_dec_int n Hn). simpl. lia.
Qed.

Lemma decode_int z : is_int z -> decode_response (put_int z) = Some z.
Proof.
  intros Hz. unfold put_int, put32. cbn [decode_response].
  rewrite le32_put32 by (apply wrapu_range; lia). by rewrite int_of_wrapu.
Qed.

Lemma decode_encode_request r :
  is_int (req_pid r) -> is_int (req_seqLen r) -> decode_request (encode_request r) = Some r.
Proof.
  intros Hp Hl. unfold encode_request, put_int, put32. cbn [app decode_request].
  rewrite !le32_put32 by (apply wrapu_range; lia). rewrite !int_of_wrapu by done. by destruct r.
Qed.

(** ** Properties *)

(** The socket servers never hand out a number twice.  In any run of the
    service loop, whatever clients do and whichever calls fail, the answers
    written are the starts of consecutive ranges of positive length (modulo
    2^32), in the order of the answers; while the counter does not wrap, the
    range of every client lies before the ranges of all later clients. *)
Lemma seqnum_unique n fuel lfd seqNum h :
  0 <= seqNum < 2 ^ 32 ->
  let spec (o : outcome unit) (k : history) :=
    o = Stop OutOfFuel /\ exists grants,
      chain seqNum grants /\ map snd (writes k) = map answer grants /\
      (seqNum + total grants < 2 ^ 32 ->
       ForallOrdPairs (fun a b => fst a + snd a <= fst b) grants) in
  wp posix (serveLoop n fuel (fun a => inetAddressStr a IS_ADDR_STR_LEN) lfd seqNum) (since h spec) h /\
  wp posix (serveLoop n fuel addrText_v1 lfd seqNum) (since h spec) h.
Proof.
  intros Hs spec.
  assert (forall addrText, (forall a, returns_quietly (addrText a)) ->
    wp posix (serveLoop n fuel addrText lfd seqNum) (since h spec) h) as Hall.
  { intros addrText Hq. eapply wp_mono; [|apply (wp_serveLoop n fuel addrText lfd seqNum h Hq)].
    intros o h' (k & -> & Ho & grants & Hc & Hw). exists k. split; [done|]. split; [done|].
    exists grants. split_and!; [done..|]. intros Ht. apply (chain_disjoint seqNum); [done|lia|done]. }
  split; apply Hall; intros a; [apply inetAddressStr_quiet|apply addrText_v1_quiet].
Qed.

(** One client of the socket server.  Whatever happens the connection is
    closed again.  Either nothing is written and the counter stays, or exactly
    the current number is written as a decimal line to the client and the
    counter advances by the length in the request line; a client that sends the
    decimal text of a positive int gets a range of that length. *)
Lemma serveClient_grants fuel lfd seqNum h :
  wp posix (serveClient fuel (fun a => inetAddressStr a IS_ADDR_STR_LEN) lfd seqNum)
    (since h (fun o k =>
       match o with
       | Done s' =>
           open_fds (k ++ h) = open_fds h /\
           (s' = seqNum /\ writes k = [] \/
            exists cfd reqLen, 0 < reqLen /\ s' = wrapu 32 (seqNum + reqLen) /\
              writes k = [(cfd, dec (int_of seqNum) ++ [NL])] /\
              forall m, is_int m -> input cfd k = dec m ++ [NL] -> reqLen = m)
       | Stop st => st = OutOfFuel /\ writes k = []
       end)) h.
Proof.
  eapply wp_mono; [|apply wp_serveClient; intros a; apply inetAddressStr_quiet].
  intros o h' (k & -> & Hk). exists k. split; [done|]. destruct o as [s'|st]; [|done].
  destruct Hk as [Ho [Hk|(cfd & Hl & -> & Hw)]]; split; auto. right.
  exists cfd, (atoi (cstring_of (take 29 (input cfd k)))). split_and!; [done..|].
  intros m Hm ->. by apply request_line.
Qed.

(** The FIFO protocol.  The server decodes the request that the client
    encoded, answers on the FIFO named after the client's process with the
    current number, which the client decodes to the same number, closes the FIFO
    and advances by the requested length (a sum that does not fit an int is
    undefined); a request that is not whole, or whose FIFO cannot be opened,
    leaves the counter alone. *)
Definition fifo_served (serverFd seqNum : Z) (r : request) (k : history) : Prop :=
  exists fd d, Ev (Read serverFd 8) (Ok d) ∈ k /\ decode_request d = Some r /\
    (forall r', is_int (req_pid r') -> is_int (req_seqLen r') -> d = encode_request r' -> r = r') /\
    Ev (Open (clientFifoName (req_pid r)) O_WRONLY 0) (Ok fd) ∈ k /\
    writes k = [(fd, put_int seqNum)] /\ decode_response (put_int seqNum) = Some seqNum.

Definition fifo_post (serverFd seqNum : Z) (h : history) (o : outcome Z) (k : history) : Prop :=
  match o with
  | Done s' =>
      open_fds (k ++ h) = open_fds h /\
      (s' = seqNum /\ writes k = [] \/
       exists r, fifo_served serverFd seqNum r k /\ s' = seqNum + req_seqLen r /\ is_int s')
  | Stop st => st = Undefined "signed overflow of seqNum" /\
      exists r, fifo_served serverFd seqNum r k /\ ~ is_int (seqNum + req_seqLen r)
  end.

Lemma fifoRequest_serves serverFd seqNum h :
  is_int seqNum -> wp posix (fifoRequest serverFd seqNum) (since h (fifo_post serverFd seqNum h)) h.
Proof.
  intros Hs. unfold fifoRequest. wp_sys r Hr.
  destruct r as [d|e]; [destruct (decode_request d) as [req|] eqn:Hd|].
  2,3: wp_sys x Hx; eexists [_; _]; split; [done|]; (split; [done|by left]).
  wp_sys c Hc. destruct c as [fd|e].
  2:{ eapply wp_quietly; [apply errMsg_quiet|]. intros [] k Hk.
      eexists (k ++ [_; _]). split; [by rewrite <- app_assoc|].
      destruct (harmless_facts 0 k (Ev (Open (clientFifoName (req_pid req)) O_WRONLY 0) (Err e)
        :: Ev (Read serverFd 8) (Ok d) :: h) Hk) as (H1 & _ & H3). unfold fifo_post. rewrite <- app_assoc, writes_app, H3. simpl app. rewrite H1. auto. }
  destruct Hc as [H0 Hf]. wp_sys w Hw. eapply wp_quietly.
  { destruct (match w with Ok k => _ | Err _ => _ end); [apply ret_quiet|apply print_quiet]. }
  intros [] k1 Hk1. wp_sys x Hx. eapply wp_quietly.
  { destruct x as [[]|e]; [apply ret_quiet|apply errMsg_quiet]. }
  intros [] k2 Hk2. set (k0 := [Ev (Write fd (put_int seqNum)) w;
    Ev (Open (clientFifoName (req_pid req)) O_WRONLY 0) (Ok fd); Ev (Read serverFd 8) (Ok d)]).
  assert (k2 ++ Ev (Close fd) x :: k1 ++ k0 ++ h = (k2 ++ Ev (Close fd) x :: k1 ++ k0) ++ h) as Hk
    by (rewrite <- !app_assoc; simpl; by rewrite <- !app_assoc).
  change (Ev (Write fd (put_int seqNum)) w :: _) with (k0 ++ h). rewrite Hk.
  destruct (harmless_facts fd k2 (Ev (Close fd) x :: k1 ++ k0 ++ h) Hk2) as (Ho2 & _ & Hw2).
  destruct (harmless_facts fd k1 (k0 ++ h) Hk1) as (Ho1 & _ & Hw1).
  assert (fifo_served serverFd seqNum req (k2 ++ Ev (Close fd) x :: k1 ++ k0)) as Hserved.
  { exists fd, d. split_and!; [|done| | | |by apply decode_int].
    - apply elem_of_app. right. right. apply elem_of_app. right. unfold k0. set_solver.
    - intros r' Hp Hl ->. rewrite decode_encode_request in Hd by done. congruence.
    - apply elem_of_app. right. right. apply elem_of_app. right. unfold k0. set_solver.
    - rewrite writes_app. simpl. rewrite writes_app, Hw1, Hw2. done. }
  zcase; [zcase|]; cbn [andb]; (eexists; split; [reflexivity|]).
  2,3: split; [done|]; exists req; split; [done|]; unfold is_int; lia.
  split; [|right; by exists req]. rewrite <- Hk, Ho2. cbn [open_fds opened closed]. rewrite Ho1. simpl. by apply open_close.
Qed.

(** Ranges that follow one another, as an int counter without wrap-around. *)
Fixpoint fifo_chain (s : Z) (grants : list (Z * Z)) : Prop :=
  match grants with [] => True | (s', len) :: g => s' = s /\ fifo_chain (s + len) g end.

Lemma fifo_chain_disjoint s grants :
  fifo_chain s grants -> Forall (fun g => 0 < snd g) grants ->
  Forall (fun g => s <= fst g) grants /\ ForallOrdPairs (fun a b => fst a + snd a <= fst b) grants.
Proof.
  revert s. induction grants as [|[s' len] g IH]; intros s Hc Hp; [by repeat constructor|].
  destruct Hc as [-> Hc]. apply Forall_cons in Hp as [Hl Hp]. cbn in Hl. destruct (IH _ Hc Hp) as [Hf Ho]. split.
  - constructor; [simpl; lia|]. eapply Forall_impl; [exact Hf|]. simpl. lia.
  - constructor; [exact Hf|done].
Qed.

(** The length granted is that of a request that was read. *)
Definition asked_for (serverFd : Z) (k : history) (g : Z * Z) : Prop :=
  exists d r, Ev (Read serverFd 8) (Ok d) ∈ k /\ decode_request d = Some r /\ req_seqLen r = snd g.

Definition fifo_run (serverFd seqNum : Z) (o : outcome unit) (k : history) : Prop :=
  (o = Stop OutOfFuel \/ o = Stop (Undefined "signed overflow of seqNum")) /\
  exists grants, fifo_chain seqNum grants /\ map snd (writes k) = map (fun g => put_int (fst g)) grants /\
    Forall (asked_for serverFd k) grants /\
    (Forall (fun g => 0 < snd g) grants -> ForallOrdPairs (fun a b => fst a + snd a <= fst b) grants).

Lemma fifoLoop_chain n serverFd seqNum h :
  is_int seqNum -> wp posix (fifoLoop n serverFd seqNum) (since h (fifo_run serverFd seqNum)) h.
Proof.
  revert seqNum h. induction n as [|n IH]; intros seqNum h Hs; cbn [fifoLoop].
  { apply since_here. split; [by left|]. exists []. split_and!; try done; constructor. }
  eapply wp_call; [by apply fifoRequest_serves| |].
  - intros s' h' (k & -> & _ & Hk).
    assert (is_int s') as Hs' by (destruct Hk as [[-> _]|(r & _ & _ & H)]; done).
    eapply wp_mono; [|by apply IH]. intros o h' (k' & -> & Ho & grants & Hc & Hw & Ha & Hd). exists (k' ++ k).
    split; [by rewrite <- app_assoc|]. split; [done|].
    assert (forall l, Forall (asked_for serverFd k') l -> Forall (asked_for serverFd (k' ++ k)) l) as Hmono.
    { intros l Hl. eapply Forall_impl; [exact Hl|]. intros g (d & r & Hi & Hr). exists d, r. split; [apply elem_of_app; by left|done]. }
    destruct Hk as [[-> Hk]|(r & (fd & d & Hi & Hr & _ & _ & Hk & _) & -> & _)]; rewrite writes_app, Hk; [exists grants; by auto|].
    assert (fifo_chain seqNum ((seqNum, req_seqLen r) :: grants)) as Hc' by done.
    exists ((seqNum, req_seqLen r) :: grants). split_and!; [done|cbn; by rewrite Hw| |].
    + constructor; [|by apply Hmono]. exists d, r. split; [apply elem_of_app; by right|done].
    + intros Hp. by apply (fifo_chain_disjoint seqNum).
  - intros st h' (k & -> & -> & r & (fd & d & Hi & Hr & _ & _ & Hk & _) & _). exists k. split; [done|]. split; [by right|].
    exists [(seqNum, req_seqLen r)]. rewrite Hk. split_and!; [done|done| |].
    + constructor; [by exists d, r|done].
    + intros _. repeat constructor.
Qed.

(** One request to each of the sequence number servers.  The socket server
    closes the connection again and either writes nothing and keeps its counter,
    or writes exactly the current number as a decimal line and advances by the
    length in the request line.  The FIFO server decodes what the client encoded,
    answers on the FIFO named after the client's process with the current number,
    which the client decodes to the same number, closes the FIFO and advances by
    the requested length (a sum that does not fit an int is undefined); other
    requests leave the counter alone. *)
Lemma sequence_servers :
  (forall fuel lfd seqNum h,
   wp posix (serveClient fuel (fun a => inetAddressStr a IS_ADDR_STR_LEN) lfd seqNum)
      (since h (fun o k =>
         match o with
         | Done s' =>
             open_fds (k ++ h) = open_fds h /\
             (s' = seqNum /\ writes k = [] \/
              exists cfd reqLen, 0 < reqLen /\ s' = wrapu 32 (seqNum + reqLen) /\
                writes k = [(cfd, dec (int_of seqNum) ++ [NL])] /\
                forall m, is_int m -> input cfd k = dec m ++ [NL] -> reqLen = m)
         | Stop st => st = OutOfFuel /\ writes k = []
         end)) h) /\
  (forall serverFd seqNum h,
   is_int seqNum -> wp posix (fifoRequest serverFd seqNum) (since h (fifo_post serverFd seqNum h)) h).
Proof. split_and!; [exact serveClient_grants|exact fifoRequest_serves]. Qed.

End SeqNumSpecs.

(** Three requests to the FIFO server, of lengths 5, -5 and 1; the client FIFOs can be opened
    and written. *)
Definition rewind_requests : list request := [Request 11 5; Request 12 (-5); Request 13 1].

Fixpoint reads_of (h : history) : nat :=
  match h with [] => 0 | Ev c _ :: h => (match c with Read _ _ => 1 | _ => 0 end + reads_of h)%nat end.

Definition rewind_kernel : kernel := fun h X c =>
  match c in call X return X with
  | Read fd n => match rewind_requests !! reads_of h with
                 | Some r => if n =? 8 then Ok (encode_request r) else Err EIO
                 | None => Err EIO end
  | Open _ _ _ => if decide (4 ∈ open_fds h) then Err EIO else Ok 4
  | Write _ d => Ok (strlen d)
  | Close _ => Ok tt
  | c => failing_kernel h _ c
  end.

Lemma rewind_legal h X (c : call X) : posix h X c (rewind_kernel h X c).
Proof.
  destruct c; try exact (posix_inhabited h _ _); cbn [rewind_kernel]; try done.
  - case_decide; [done|]. cbn. by split.
  - destruct (rewind_requests !! reads_of h) as [r|]; [|done]. destruct (Z.eqb_spec n 8) as [->|]; [|done]. cbn. unfold strlen. cbn. lia.
  - cbn. unfold strlen. lia.
Qed.

(** C14: the sequence number services.  In any run of the service loop of the
    socket servers, whatever clients do and whichever calls fail, the answers written
    are the starts of consecutive ranges of positive length (modulo 2^32), in the order
    of the answers; until the counter wraps at 2^32, the range of every client lies
    before the ranges of all later clients, so that no number is handed out twice; after
    that numbers come again.  One request to the socket server closes the connection
    again and either writes nothing and keeps the counter, or writes exactly the current
    number as a decimal line and advances by the length in the request line.  The FIFO
    server decodes what the client encoded, answers on the FIFO named after the
    client's process with the current number, which the client decodes to the same
    number, closes the FIFO and advances by the requested length (a sum that does
    not fit an int is undefined); other requests leave the counter alone.  The answers
    in any run of its loop are the starts of consecutive ranges with the lengths
    of requests that were read; the ranges are disjoint and in order if all these lengths
    are positive.  The server does not test that they are: in the run given here, with the
    lengths 5, -5 and 1, the first and the third client get the same number. *)
Theorem sequence_service {T : ErrText} {L : LineReader} :
  (forall n fuel lfd seqNum h,
   0 <= seqNum < 2 ^ 32 ->
    let spec (o : outcome unit) (k : history) :=
      o = Stop OutOfFuel /\ exists grants,
        chain seqNum grants /\ map snd (writes k) = map answer grants /\
        (seqNum + total grants < 2 ^ 32 ->
         ForallOrdPairs (fun a b => fst a + snd a <= fst b) grants) in
    wp posix (serveLoop n fuel (fun a => inetAddressStr a IS_ADDR_STR_LEN) lfd seqNum) (since h spec) h /\
    wp posix (serveLoop n fuel addrText_v1 lfd seqNum) (since h spec) h) /\
  ((forall fuel lfd seqNum h,
     wp posix (serveClient fuel (fun a => inetAddressStr a IS_ADDR_STR_LEN) lfd seqNum)
        (since h (fun o k =>
           match o with
           | Done s' =>
               open_fds (k ++ h) = open_fds h /\
               (s' = seqNum /\ writes k = [] \/
                exists cfd reqLen, 0 < reqLen /\ s' = wrapu 32 (seqNum + reqLen) /\
                  writes k = [(cfd, dec (int_of seqNum) ++ [NL])] /\
                  forall m, is_int m -> input cfd k = dec m ++ [NL] -> reqLen = m)
           | Stop st => st = OutOfFuel /\ writes k = []
           end)) h) /\
   (forall serverFd seqNum h,
     is_int seqNum -> wp posix (fifoRequest serverFd seqNum) (since h (fifo_post serverFd seqNum h)) h)) /\
  (forall n serverFd seqNum h,
    is_int seqNum -> wp posix (fifoLoop n serverFd seqNum) (since h (fifo_run serverFd seqNum)) h) /\
  (forall h X (c : call X), posix h X c (rewind_kernel h X c)) /\
  writes (snd (run rewind_kernel (fifoLoop 3 3 0) [])) = [(4, put_int 0); (4, put_int 5); (4, put_int 0)].
Proof.
  split; [exact seqnum_unique|]. split; [exact sequence_servers|]. split; [exact fifoLoop_chain|].
  split; [exact rewind_legal|]. vm_compute. reflexivity.
Qed.

Lemma sequence_service_witness :
  0 <= 7 < 2 ^ 32 /\
  wp posix (serveLoop (T := demo_text) 3 100 (fun a => inetAddressStr a IS_ADDR_STR_LEN) 4 7)
    (since [] (fun o k => o = Stop OutOfFuel /\ exists grants,
      chain 7 grants /\ map snd (writes k) = map answer grants /\
      (7 + total grants < 2 ^ 32 ->
       ForallOrdPairs (fun a b => fst a + snd a <= fst b) grants))) [] /\
  is_int 10 /\ encode_request (Request 1 5) <> [] /\
  wp posix (fifoRequest (T := demo_text) 3 10) (since [] (fifo_post 3 10 [])) [].
Proof.
  assert (is_int 10) as Hi by (unfold is_int, INT_MIN, INT_MAX; lia).
  split; [lia|]. split; [|split; [done|split; [done|]]].
  - refine (proj1 (proj1 (sequence_service (T := demo_text)) 3%nat 100%nat 4 7 [] _)). lia.
  - apply (proj2 (proj1 (proj2 (sequence_service (T := demo_text)))) 3 10 [] Hi).
Defined.
