(* ===== verification/SvSem.v ===== *)
(** * svsem/binary_sems.c, event_flags.c, svsem_op.c: System V semaphores

    Binary semaphores and event flags are thin protocols over semop() and
    semctl(); [parseOps] reads the operations that svsem_op performs.  Results
    are those of the C functions with the error number where they return -1. *)

From S2P Require Import Prelude Sys LibErrors GetNum.

Definition IPC_NOWAIT : Z := 2048.
Definition SEM_UNDO : Z := 4096.
Definition MAX_SEMOPS : nat := 1000.

(** Stores into the unsigned short and short members of struct sembuf. *)
Definition to_ushort (z : Z) : Z := wrapu 16 z.
Definition to_short (z : Z) : Z := wraps 16 z.

(** ** binary_sems.c *)

(** The two variables that control the functions. *)
Record bs_options := BsOptions { bsUseSemUndo : bool; bsRetryOnEintr : bool }.

Definition bs_default : bs_options := BsOptions false true.

Definition initSemAvailable (semId semNum : Z) : prog (res unit) := sys (Semctl_setval semId semNum 1).
Definition initSemInUse (semId semNum : Z) : prog (res unit) := sys (Semctl_setval semId semNum 0).

Definition bs_flg (o : bs_options) : Z := if bsUseSemUndo o then SEM_UNDO else 0.

Fixpoint semop_retry (fuel : nat) (semId : Z) (sops : sembuf) (retry : bool) : prog (res unit) :=
  match fuel with
  | O => Halt OutOfFuel
  | S fuel' =>
      r <- sys (Semop semId [sops]) ;;
      match r with
      | Ok _ => Ret (Ok tt)
      | Err e => if negb (e =? EINTR) || negb retry then Ret (Err e)
                 else semop_retry fuel' semId sops retry
      end
  end.

Definition reserveSem (fuel : nat) (o : bs_options) (semId semNum : Z) : prog (res unit) :=
  semop_retry fuel semId (Sembuf (to_ushort semNum) (-1) (bs_flg o)) (bsRetryOnEintr o).

Definition releaseSem (o : bs_options) (semId semNum : Z) : prog (res unit) :=
  sys (Semop semId [Sembuf (to_ushort semNum) 1 (bs_flg o)]).

(** ** event_flags.c *)

Definition waitForEventFlag (fuel : nat) (semId semNum : Z) : prog (res unit) :=
  semop_retry fuel semId (Sembuf (to_ushort semNum) 0 0) true.

Definition clearEventFlag (semId semNum : Z) : prog (res unit) := sys (Semctl_setval semId semNum 1).
Definition setEventFlag (semId semNum : Z) : prog (res unit) := sys (Semctl_setval semId semNum 0).

Definition getFlagState (semId semNum : Z) : prog (res bool) :=
  v <- sys (Semctl_getval semId semNum) ;;
  Ret (match v with Ok v => Ok (v =? 0) | Err e => Err e end).

(** ** svsem_op.c *)

Section SvsemOp.
Context {T : ErrText}.

Definition usageError_svsem {A} (progName : list ascii) : prog A :=
  print Stderr ($"Usage: " ++ progName ++ $" semid op[,op...] ..." ++ [NL; NL]) ;;;
  print Stderr ($"'op' is either: <sem#>{+|-}<value>[n][u]" ++ [NL]) ;;;
  print Stderr ($"            or: <sem#>=0[n]" ++ [NL]) ;;;
  print Stderr ($"       " ++ ["034"%char; "n"%char; "034"%char]
                ++ $" means include IPC_NOWAIT in 'op'" ++ [NL]) ;;;
  print Stderr ($"       " ++ ["034"%char; "u"%char; "034"%char]
                ++ $" means include SEM_UNDO in 'op'" ++ [NL; NL]) ;;;
  print Stderr ($"The operations in each argument are performed in a single semop() call" ++ [NL; NL]) ;;;
  print Stderr ($"e.g.: " ++ progName ++ $" 12345 0+1,1-2un" ++ [NL]) ;;;
  print Stderr ($"      " ++ progName ++ $" 12345 0=0n 1+1,2-1u 1=0" ++ [NL]) ;;;
  Halt (Exit EXIT_FAILURE).

Definition quoted (s : list ascii) : list ascii := ["034"%char] ++ s ++ ["034"%char].

(** The trailing flags: their value and what follows them. *)
Fixpoint op_flags (s : list ascii) (flg : Z) : Z * list ascii :=
  match s with
  | c :: s' =>
      if Ascii.eqb c "n" then op_flags s' (Z.lor flg IPC_NOWAIT)
      else if Ascii.eqb c "u" then op_flags s' (Z.lor flg SEM_UNDO)
      else (flg, s)
  | [] => (flg, [])
  end.

(** One operation at the start of [remaining]: the operation and the first
    character after it. *)
Definition parseOp (arg remaining : list ascii) : prog (sembuf * ascii) :=
  if Ascii.eqb (char_at remaining 0) NUL
  then fatal ($"Trailing comma or empty argument: " ++ quoted arg)
  else if negb (isdigit (char_at remaining 0))
  then cmdLineErr ($"Expected initial digit: " ++ quoted arg ++ [NL])
  else
    let num := strtol remaining 10 in
    let sign := char_at (st_end num) 0 in
    if Ascii.eqb sign NUL || negb (Ascii.eqb sign "+" || Ascii.eqb sign "-" || Ascii.eqb sign "=")
    then cmdLineErr ($"Expected '+', '-', or '=' in " ++ quoted arg ++ [NL])
    else if negb (isdigit (char_at (st_end num) 1))
    then cmdLineErr ($"Expected digit after '" ++ [sign] ++ $"' in " ++ quoted arg ++ [NL])
    else
      let val := strtol (drop 1 (st_end num)) 10 in
      let op := to_short (st_val val) in
      op <- (if Ascii.eqb sign "-" then Ret (to_short (- op))
             else if Ascii.eqb sign "=" && negb (op =? 0)
             then cmdLineErr ($"Expected " ++ quoted ($"=0") ++ $" in " ++ quoted arg ++ [NL])
             else Ret op) ;;
      let '(flg, rest) := op_flags (st_end val) 0 in
      let c := char_at rest 0 in
      if negb (Ascii.eqb c ",") && negb (Ascii.eqb c NUL)
      then cmdLineErr ($"Bad trailing character (" ++ [c] ++ $") in " ++ quoted arg ++ [NL])
      else Ret (Sembuf (to_ushort (st_val num)) op flg, c).

(** [left] is [MAX_SEMOPS - numOps]. *)
Fixpoint parseOps_loop (left : nat) (arg remaining : list ascii) : prog (list sembuf) :=
  match left with
  | O => cmdLineErr ($"Too many operations (maximum=" ++ dec (Z.of_nat MAX_SEMOPS) ++ $"): "
           ++ quoted arg ++ [NL])
  | S left' =>
      '(op, _) <- parseOp arg remaining ;;
      match strchr remaining "," with
      | None => Ret [op]
      | Some (_, remaining') =>
          ops <- parseOps_loop left' arg remaining' ;;
          Ret (op :: ops)
      end
  end.

Definition parseOps (arg : list ascii) : prog (list sembuf) := parseOps_loop MAX_SEMOPS arg arg.

(** time/curr_time.c; [None] is a null pointer. *)
Definition currTime (format : option (list ascii)) : prog (option (list ascii)) :=
  sys (Strftime_now (default ($"%c") format)).

(** The two progress messages; printf shows a null pointer as (null). *)
Definition progress (text arg : list ascii) : prog unit :=
  pid <- sys Getpid ;;
  now <- currTime (Some ($"%T")) ;;
  print Stdout (pad_left 5 (dec pid) ++ $", " ++ default ($"(null)") now ++ text
                ++ $"[" ++ arg ++ $"]" ++ [NL]).

Fixpoint svsem_op_loop (semid : list ascii) (args : list (list ascii)) : prog unit :=
  match args with
  | [] => Halt (Exit EXIT_SUCCESS)
  | arg :: args' =>
      sops <- parseOps arg ;;
      progress ($": about to semop()  ") arg ;;;
      id <- getInt (Some semid) 0 (Some ($"semid")) ;;
      r <- sys (Semop id sops) ;;
      match r with
      | Err e => p <- sys Getpid ;; errExit e ($"semop (PID=" ++ dec p ++ $")")
      | Ok _ => progress ($": semop() completed ") arg ;;; svsem_op_loop semid args'
      end
  end.

Definition svsem_op_main (argv : list (list ascii)) : prog unit :=
  match argv !! 1%nat with
  | None => usageError_svsem (default [] (argv !! 0%nat))
  | Some semid =>
      if strcmp_eq semid ($"--help") then usageError_svsem (default [] (argv !! 0%nat))
      else svsem_op_loop semid (drop 2 argv)
  end.

End SvsemOp.

(** ** The value of a semaphore

    A process that is alone on a semaphore: its value after a history, from the
    value [v0] at the start, and the replies that this value allows. *)

Definition op_on (num : Z) (b : sembuf) : Z := if sem_num b =? num then sem_op b else 0.

Definition sem_step (id num : Z) {X} (c : call X) : X -> Z -> Z :=
  match c in call X return X -> Z -> Z with
  | Semctl_setval id' num' v => fun r old =>
      match r with Ok _ => if (id' =? id) && (num' =? num) then v else old | Err _ => old end
  | Semop id' [b] => fun r old =>
      match r with Ok _ => if id' =? id then old + op_on num b else old | Err _ => old end
  | _ => fun _ old => old
  end.

Fixpoint sem_value (id num v0 : Z) (h : history) : Z :=
  match h with [] => v0 | Ev c r :: h' => sem_step id num c r (sem_value id num v0 h') end.

(** An operation succeeds only if it need not block: see semop(2). *)
Definition sem_allows (id num v : Z) {X} (c : call X) : X -> Prop :=
  match c in call X return X -> Prop with
  | Semop id' [b] => fun r =>
      match r with
      | Ok _ => id' = id -> sem_num b = num ->
                (sem_op b < 0 -> - sem_op b <= v) /\ (sem_op b = 0 -> v = 0)
      | Err _ => True
      end
  | Semctl_getval id' num' => fun r =>
      match r with Ok x => id' = id -> num' = num -> x = v | Err _ => True end
  | _ => fun _ => True
  end.

Definition sem_env (id num v0 : Z) : env := fun h X c r =>
  posix h X c r /\ sem_allows id num (sem_value id num v0 h) c r.

(** The environment is not empty: a kernel that fails every call belongs to it. *)
Lemma sem_env_inhabited id num v0 h X (c : call X) : sem_env id num v0 h X c (failing_kernel h X c).
Proof.
  split; [apply posix_inhabited|]. destruct c; simpl; try done. by destruct sops as [|? []].
Qed.

Section SemValue.
Context (id num v0 : Z).
Local Abbreviation value := (sem_value id num v0).

Lemma wp_semop_retry fuel b retry h :
  sem_num b = num ->
  wp (sem_env id num v0) (semop_retry fuel id b retry) (fun o h' =>
    match o with
    | Done (Ok _) => value h' = value h + sem_op b /\
        (sem_op b < 0 -> - sem_op b <= value h) /\ (sem_op b = 0 -> value h = 0)
    | Done (Err e) => value h' = value h /\ (retry = true -> e <> EINTR)
    | Stop st => st = OutOfFuel /\ value h' = value h
    end) h.
Proof.
  intros Hb. revert h. induction fuel as [|fuel IH]; intros h; cbn [semop_retry]; [done|].
  apply wp_sys_bind. intros r [_ Hr]. simpl in Hr. destruct r as [[]|e].
  - cbn. rewrite Z.eqb_refl. unfold op_on. rewrite Hb, Z.eqb_refl. auto.
  - destruct (Z.eqb_spec e EINTR) as [->|He]; [destruct retry|]; cbn [negb orb].
    + eapply wp_mono; [|apply IH]. by intros [[[]|e]|st] h'.
    + by split.
    + split; [done|]. by intros _ ?.
Qed.

(** Binary semaphores.  [reserveSem] and [releaseSem] are given a number that becomes the
    one of the semaphore in struct sembuf.  [reserveSem] succeeds only on a positive semaphore
    and takes exactly one from it, however often it was interrupted; when it
    fails nothing changes, and with bsRetryOnEintr the error is never EINTR;
    [releaseSem] adds one; the two initializers set the value to 1 and 0. *)
Lemma binary_sems_protocol fuel o n h :
  (to_ushort n = num -> wp (sem_env id num v0) (reserveSem fuel o id n) (fun out h' =>
    match out with
    | Done (Ok _) => 1 <= value h /\ value h' = value h - 1
    | Done (Err e) => value h' = value h /\ (bsRetryOnEintr o = true -> e <> EINTR)
    | Stop st => st = OutOfFuel /\ value h' = value h
    end) h) /\
  (to_ushort n = num -> wp (sem_env id num v0) (releaseSem o id n) (fun out h' =>
    match out with
    | Done (Ok _) => value h' = value h + 1
    | Done (Err _) => value h' = value h
    | Stop _ => False
    end) h) /\
  wp (sem_env id num v0) (initSemAvailable id num) (fun out h' =>
    match out with Done (Ok _) => value h' = 1 | Done (Err _) => value h' = value h | Stop _ => False end) h /\
  wp (sem_env id num v0) (initSemInUse id num) (fun out h' =>
    match out with Done (Ok _) => value h' = 0 | Done (Err _) => value h' = value h | Stop _ => False end) h.
Proof.
  split_and!.
  - intros Hnum. eapply wp_mono; [|apply wp_semop_retry; done].
    intros [[[]|e]|st] h'; simpl; try done. intros (-> & H1 & _). lia.
  - intros Hnum. cbn. intros [[]|e] _; cbn; [|done]. unfold op_on. cbn [sem_num sem_op]. by rewrite Hnum, !Z.eqb_refl.
  - cbn. intros [[]|e] _; cbn; [|done]. by rewrite !Z.eqb_refl.
  - cbn. intros [[]|e] _; cbn; [|done]. by rewrite !Z.eqb_refl.
Qed.

(** Event flags.  A flag is set when its semaphore is 0: [waitForEventFlag]
    returns success only if the flag is set, and never EINTR; [setEventFlag] and
    [clearEventFlag] set and clear it, and [getFlagState] reports it, all without
    other effects on the flag. *)
Lemma event_flags_protocol fuel n h :
  (to_ushort n = num -> wp (sem_env id num v0) (waitForEventFlag fuel id n) (fun out h' =>
    match out with
    | Done (Ok _) => value h = 0 /\ value h' = 0
    | Done (Err e) => value h' = value h /\ e <> EINTR
    | Stop st => st = OutOfFuel /\ value h' = value h
    end) h) /\
  wp (sem_env id num v0) (r <- setEventFlag id num ;; s <- getFlagState id num ;; Ret (r, s))
    (fun out h' => match out with
                   | Done (Ok _, Ok s) => s = true /\ value h' = 0
                   | Done _ => True
                   | Stop _ => False
                   end) h /\
  wp (sem_env id num v0) (r <- clearEventFlag id num ;; s <- getFlagState id num ;; Ret (r, s))
    (fun out h' => match out with
                   | Done (Ok _, Ok s) => s = false /\ value h' = 1
                   | Done _ => True
                   | Stop _ => False
                   end) h.
Proof.
  split_and!.
  - intros Hnum. eapply wp_mono; [|apply wp_semop_retry; done].
    intros [[[]|e]|st] h'; simpl; try done; [|by intuition]. intros (-> & _ & H0). rewrite H0; lia.
  - cbn. intros [[]|e] _ s [_ Hs]; [|by destruct s]. cbn in *. rewrite !Z.eqb_refl in *.
    destruct s as [v|]; [|done]. rewrite Hs; done.
  - cbn. intros [[]|e] _ s [_ Hs]; [|by destruct s]. cbn in *. rewrite !Z.eqb_refl in *.
    destruct s as [v|]; [|done]. rewrite Hs; done.
Qed.

(** Binary semaphores and event flags, on the semaphore [num].  [reserveSem] succeeds only on
    a positive semaphore and takes exactly one from it, however often it was interrupted,
    and with bsRetryOnEintr never reports EINTR; [releaseSem] adds one; the
    initializers set 1 and 0.  [waitForEventFlag] succeeds only if the flag is
    set and never reports EINTR; [setEventFlag] and [clearEventFlag] set and
    clear it and [getFlagState] reports it. *)
Lemma semaphore_protocols :
  (forall fuel o n h,
   (to_ushort n = num -> wp (sem_env id num v0) (reserveSem fuel o id n) (fun out h' =>
      match out with
      | Done (Ok _) => 1 <= value h /\ value h' = value h - 1
      | Done (Err e) => value h' = value h /\ (bsRetryOnEintr o = true -> e <> EINTR)
      | Stop st => st = OutOfFuel /\ value h' = value h
      end) h) /\
    (to_ushort n = num -> wp (sem_env id num v0) (releaseSem o id n) (fun out h' =>
      match out with
      | Done (Ok _) => value h' = value h + 1
      | Done (Err _) => value h' = value h
      | Stop _ => False
      end) h) /\
    wp (sem_env id num v0) (initSemAvailable id num) (fun out h' =>
      match out with Done (Ok _) => value h' = 1 | Done (Err _) => value h' = value h | Stop _ => False end) h /\
    wp (sem_env id num v0) (initSemInUse id num) (fun out h' =>
      match out with Done (Ok _) => value h' = 0 | Done (Err _) => value h' = value h | Stop _ => False end) h) /\
  (forall fuel n h,
   (to_ushort n = num -> wp (sem_env id num v0) (waitForEventFlag fuel id n) (fun out h' =>
      match out with
      | Done (Ok _) => value h = 0 /\ value h' = 0
      | Done (Err e) => value h' = value h /\ e <> EINTR
      | Stop st => st = OutOfFuel /\ value h' = value h
      end) h) /\
    wp (sem_env id num v0) (r <- setEventFlag id num ;; s <- getFlagState id num ;; Ret (r, s))
      (fun out h' => match out with
                     | Done (Ok _, Ok s) => s = true /\ value h' = 0
                     | Done _ => True
                     | Stop _ => False
                     end) h /\
    wp (sem_env id num v0) (r <- clearEventFlag id num ;; s <- getFlagState id num ;; Ret (r, s))
      (fun out h' => match out with
                     | Done (Ok _, Ok s) => s = false /\ value h' = 1
                     | Done _ => True
                     | Stop _ => False
                     end) h).
Proof. split_and!; [exact binary_sems_protocol|exact event_flags_protocol]. Qed.

End SemValue.

(** ** Printing and parsing operations *)

Definition print_value (op : Z) : list ascii :=
  if op =? 0 then $"=0" else if 0 <? op then $"+" ++ dec op else $"-" ++ dec (- op).

Definition print_flags (flg : Z) : list ascii :=
  (if flag flg IPC_NOWAIT then $"n" else []) ++ (if flag flg SEM_UNDO then $"u" else []).

Definition print_op (b : sembuf) : list ascii :=
  dec (sem_num b) ++ print_value (sem_op b) ++ print_flags (sem_flg b).

Fixpoint print_ops (ops : list sembuf) : list ascii :=
  match ops with
  | [] => []
  | [b] => print_op b
  | b :: ops' => print_op b ++ $"," ++ print_ops ops'
  end.

(** What fits the members of struct sembuf. *)
Definition valid_op (b : sembuf) : Prop :=
  0 <= sem_num b < 65536 /\ -32768 <= sem_op b < 32768 /\
  sem_flg b ∈ [0; IPC_NOWAIT; SEM_UNDO; Z.lor IPC_NOWAIT SEM_UNDO].

Lemma to_short_id z : -32768 <= z < 32768 -> to_short z = z.
Proof.
  intros Hz. unfold to_short, wraps. change (2 ^ (16 - 1)) with 32768. change (2 ^ 16) with 65536.
  rewrite Z.mod_small; lia.
Qed.

(** -32768 is its own negation in 16 bits. *)
Lemma to_short_neg z : 0 < z <= 32768 -> to_short (- to_short z) = - z.
Proof.
  intros Hz. destruct (Z.eq_dec z 32768) as [->|]; [reflexivity|].
  rewrite (to_short_id z) by lia. by rewrite to_short_id by lia.
Qed.

Lemma op_flags_print flg rest :
  flg ∈ [0; IPC_NOWAIT; SEM_UNDO; Z.lor IPC_NOWAIT SEM_UNDO] ->
  (rest = [] \/ exists r, rest = ","%char :: r) ->
  op_flags (print_flags flg ++ rest) 0 = (flg, rest).
Proof.
  rewrite !elem_of_cons, elem_of_nil.
  intros [->|[->|[->|[->|[]]]]] [->|[r ->]]; reflexivity.
Qed.

Lemma print_flags_nondigit flg rest c r :
  (rest = [] \/ exists r, rest = ","%char :: r) -> print_flags flg ++ rest = c :: r -> isdigit c = false.
Proof.
  intros Hr. unfold print_flags. destruct (flag flg IPC_NOWAIT), (flag flg SEM_UNDO); cbn [app lit];
    try (intros [= <- _]; reflexivity).
  destruct Hr as [->|[r' ->]]; [done|]. by intros [= <- _].
Qed.

Lemma strtol_dec' z rest :
  0 <= z <= 65536 -> (forall c r, rest = c :: r -> isdigit c = false) ->
  strtol (dec z ++ rest) 10 = Strtol z rest false.
Proof. intros Hz. apply strtol_dec. unfold is_long, LONG_MIN, LONG_MAX. lia. Qed.

Lemma digit_not_nul d : isdigit d = true -> Ascii.eqb d NUL = false.
Proof. intros Hd. destruct (Ascii.eqb_spec d NUL) as [->|]; [done|done]. Qed.

Section Parsing.
Context {T : ErrText}.

(** A printed value is a sign and a number, from which the parser gets the
    value back. *)
Lemma print_value_spec op :
  -32768 <= op < 32768 ->
  exists sign m, print_value op = sign :: dec m /\ 0 <= m <= 32768 /\ isdigit sign = false /\
    Ascii.eqb sign NUL || negb (Ascii.eqb sign "+" || Ascii.eqb sign "-" || Ascii.eqb sign "=") = false /\
    forall e : prog Z,
      (if Ascii.eqb sign "-" then Ret (to_short (- to_short m))
       else if Ascii.eqb sign "=" && negb (to_short m =? 0) then e else Ret (to_short m)) = Ret op.
Proof.
  intros Hop. unfold print_value.
  destruct (Z.eqb_spec op 0) as [->|H0]; [|destruct (Z.ltb_spec 0 op)].
  - by exists "="%char, 0.
  - exists "+"%char, op. split_and!; [done|lia|lia|done|done|]. intros e. cbn.
    by rewrite to_short_id by lia.
  - exists "-"%char, (- op). split_and!; [done|lia|lia|done|done|]. intros e. cbn.
    rewrite to_short_neg by lia. by rewrite Z.opp_involutive.
Qed.

Lemma parseOp_print arg b rest :
  valid_op b -> (rest = [] \/ exists r, rest = ","%char :: r) ->
  parseOp arg (print_op b ++ rest) = Ret (b, char_at rest 0).
Proof.
  intros (Hnum & Hop & Hflg) Hrest. unfold parseOp, print_op. rewrite <- !app_assoc.
  destruct (dec_head (sem_num b)) as (d & l & Hd & Hdec); [lia|].
  destruct (print_value_spec _ Hop) as (sign & m & -> & Hm & Hsd & Hsign & Hval).
  assert (char_at (dec (sem_num b) ++ (sign :: dec m) ++ print_flags (sem_flg b) ++ rest) 0 = d)
    as -> by (by rewrite Hdec).
  rewrite (digit_not_nul _ Hd), Hd. cbn [negb]. rewrite strtol_dec'; [|lia|by intros c r [= <- _]].
  cbn [st_val st_end]. destruct (dec_head m) as (d' & l' & Hd' & Hdec'); [lia|].
  change (char_at ((sign :: dec m) ++ ?x) 0) with sign. rewrite Hsign.
  change (char_at ((sign :: dec m) ++ ?x) 1) with (char_at (dec m ++ x) 0).
  assert (char_at (dec m ++ print_flags (sem_flg b) ++ rest) 0 = d') as -> by (by rewrite Hdec').
  rewrite Hd'. cbn [negb drop app]. rewrite drop_0.
  rewrite strtol_dec'; [|lia|intros c r; by apply print_flags_nondigit].
  cbn [st_val st_end]. rewrite Hval. cbn [bind]. rewrite op_flags_print by done.
  assert (negb (Ascii.eqb (char_at rest 0) ",") && negb (Ascii.eqb (char_at rest 0) NUL) = false) as ->
    by (destruct Hrest as [->|[r ->]]; reflexivity).
  unfold to_ushort. rewrite wrapu_id by (change (2 ^ 16) with 65536; lia). by destruct b.
Qed.

Lemma print_op_no_comma b : ","%char ∉ print_op b.
Proof.
  unfold print_op, print_value, print_flags. rewrite !elem_of_app. intros Hc.
  assert (forall z, ","%char ∉ dec z) as Hdec by (intros z Hz; by apply elem_of_dec in Hz as [?|?]).
  destruct Hc as [Hc|[Hc|Hc]]; [by apply (Hdec (sem_num b))| |].
  - destruct (sem_op b =? 0); [by vm_compute in Hc; set_solver|].
    destruct (0 <? sem_op b); apply elem_of_app in Hc as [Hc|Hc]; try (by apply Hdec in Hc);
      vm_compute in Hc; set_solver.
  - destruct Hc as [Hc|Hc]; case_match; vm_compute in Hc; set_solver.
Qed.

(** Printing operations in the syntax of svsem_op and parsing the text gives
    the operations back, for every list of 1 to 1000 operations whose members fit
    struct sembuf (the value -32768 included, whose negation overflows a short). *)
Lemma parseOps_roundtrip ops :
  ops <> [] -> (length ops <= MAX_SEMOPS)%nat -> Forall valid_op ops ->
  parseOps (print_ops ops) = Ret ops.
Proof.
  unfold parseOps. generalize (print_ops ops) at 1 as arg. generalize MAX_SEMOPS as left.
  intros left arg. revert left. induction ops as [|b ops IH]; intros left Hne Hlen Hv; [done|].
  apply Forall_cons in Hv as [Hb Hv]. destruct left as [|left]; [simpl in Hlen; lia|].
  cbn [parseOps_loop]. destruct ops as [|b' ops].
  - cbn [print_ops]. rewrite <- (app_nil_r (print_op b)), parseOp_print by auto. cbn [bind].
    rewrite app_nil_r. by rewrite (proj2 (strchr_None _ _) (print_op_no_comma b)).
  - change (print_ops (b :: b' :: ops)) with (print_op b ++ ","%char :: print_ops (b' :: ops)).
    rewrite parseOp_print by eauto. cbn [bind].
    rewrite strchr_app by apply print_op_no_comma.
    rewrite IH; [done..|simpl in *; lia|done].
Qed.

(** C38: Binary semaphores, event flags and the operation syntax.  The number of a
    semaphore becomes an unsigned short in semop(): [reserveSem], [releaseSem] and
    [waitForEventFlag] operate on the semaphore that has the number modulo 2^16, which
    is the number itself where it is below 65536, while the functions that call semctl()
    operate on the number that they are given.  [reserveSem] succeeds only on a positive
    semaphore and takes exactly one from it, however often it was interrupted, and with
    bsRetryOnEintr never reports EINTR; [releaseSem] adds one; the initializers set 1
    and 0.  [waitForEventFlag] succeeds only if the flag is set and never reports EINTR;
    [setEventFlag] and [clearEventFlag] set and clear it and [getFlagState] reports it.
    Printing operations in the syntax of svsem_op and parsing the text gives the
    operations back, for every list of 1 to 1000 operations whose members fit struct
    sembuf (the value -32768 included, whose negation overflows a short). *)
Theorem svsem_library (id num v0 : Z) :
  ((forall fuel o n h,
     (to_ushort n = num -> wp (sem_env id num v0) (reserveSem fuel o id n) (fun out h' =>
        match out with
        | Done (Ok _) => 1 <= sem_value id num v0 h /\ sem_value id num v0 h' = sem_value id num v0 h - 1
        | Done (Err e) => sem_value id num v0 h' = sem_value id num v0 h /\ (bsRetryOnEintr o = true -> e <> EINTR)
        | Stop st => st = OutOfFuel /\ sem_value id num v0 h' = sem_value id num v0 h
        end) h) /\
      (to_ushort n = num -> wp (sem_env id num v0) (releaseSem o id n) (fun out h' =>
        match out with
        | Done (Ok _) => sem_value id num v0 h' = sem_value id num v0 h + 1
        | Done (Err _) => sem_value id num v0 h' = sem_value id num v0 h
        | Stop _ => False
        end) h) /\
      wp (sem_env id num v0) (initSemAvailable id num) (fun out h' =>
        match out with Done (Ok _) => sem_value id num v0 h' = 1 | Done (Err _) => sem_value id num v0 h' = sem_value id num v0 h | Stop _ => False end) h /\
      wp (sem_env id num v0) (initSemInUse id num) (fun out h' =>
        match out with Done (Ok _) => sem_value id num v0 h' = 0 | Done (Err _) => sem_value id num v0 h' = sem_value id num v0 h | Stop _ => False end) h) /\
    (forall fuel n h,
     (to_ushort n = num -> wp (sem_env id num v0) (waitForEventFlag fuel id n) (fun out h' =>
        match out with
        | Done (Ok _) => sem_value id num v0 h = 0 /\ sem_value id num v0 h' = 0
        | Done (Err e) => sem_value id num v0 h' = sem_value id num v0 h /\ e <> EINTR
        | Stop st => st = OutOfFuel /\ sem_value id num v0 h' = sem_value id num v0 h
        end) h) /\
      wp (sem_env id num v0) (r <- setEventFlag id num ;; s <- getFlagState id num ;; Ret (r, s))
        (fun out h' => match out with
                       | Done (Ok _, Ok s) => s = true /\ sem_value id num v0 h' = 0
                       | Done _ => True
                       | Stop _ => False
                       end) h /\
      wp (sem_env id num v0) (r <- clearEventFlag id num ;; s <- getFlagState id num ;; Ret (r, s))
        (fun out h' => match out with
                       | Done (Ok _, Ok s) => s = false /\ sem_value id num v0 h' = 1
                       | Done _ => True
                       | Stop _ => False
                       end) h)) /\
  (forall ops,
   ops <> [] -> (length ops <= MAX_SEMOPS)%nat -> Forall valid_op ops ->
    parseOps (print_ops ops) = Ret ops) /\
  (0 <= num < 65536 -> to_ushort num = num) /\ to_ushort (65536 + num) = to_ushort num.
Proof.
  split; [exact (semaphore_protocols id num v0)|]. split; [exact parseOps_roundtrip|]. unfold to_ushort, wrapu. change (2 ^ 16) with 65536. split.
  - apply Z.mod_small.
  - rewrite Z.add_comm. rewrite <- (Z.mul_1_l 65536) at 1. by rewrite Z.mod_add.
Qed.

End Parsing.

Lemma svsem_library_witness :
  parseOps (T := demo_text) (print_ops [Sembuf 0 1 0; Sembuf 1 (-2) (Z.lor IPC_NOWAIT SEM_UNDO)]) =
    Ret [Sembuf 0 1 0; Sembuf 1 (-2) (Z.lor IPC_NOWAIT SEM_UNDO)] /\
  (forall h, wp (sem_env 5 0 1) (releaseSem bs_default 5 65536) (fun out h' =>
    match out with
    | Done (Ok _) => sem_value 5 0 1 h' = sem_value 5 0 1 h + 1
    | Done (Err _) => sem_value 5 0 1 h' = sem_value 5 0 1 h
    | Stop _ => False
    end) h).
Proof.
  destruct (svsem_library (T := demo_text) 5 0 1) as ((Hsem & _) & Hparse & _). split.
  - apply Hparse; [done|unfold MAX_SEMOPS; simpl; lia|]. repeat constructor; simpl; try lia; set_solver.
  - intros h. by apply (Hsem 1%nat bs_default 65536 h).
Defined.
