(* ===== verification/ShmXfr.v ===== *)
(** * svshm/svshm_xfr_writer.c and svshm_xfr_reader.c: transfer through shared memory

    Two processes share a segment (a count and a buffer) and two semaphores that
    give them alternating access.  Each statement of a program is a step; the
    steps of the two programs interleave in any order, and every system call may
    fail, which ends the process.  A semaphore operation of binary_sems.c is one
    step: [reserveSem] is enabled only when the semaphore is positive (an
    interrupted wait is restarted there, see SvSem.v).

    The writer's standard input is the list of the blocks that its read() calls
    return; the list ends at the end of the file. *)

From S2P Require Import Prelude.

Record shmseg := Shm { cnt : Z; buf : list ascii }.

(** The statement that a program executes next, or where it stopped. *)
Inductive wpc :=
| WReserve     (* reserveSem(semid, WRITE_SEM) in the loop *)
| WRead        (* shmp->cnt = read(...) *)
| WRelease     (* releaseSem(semid, READ_SEM) *)
| WTest        (* if (shmp->cnt == 0) break *)
| WNext        (* xfrs++, bytes += shmp->cnt *)
| WLast        (* reserveSem(semid, WRITE_SEM) after the loop *)
| WRemove      (* semctl, shmdt, shmctl *)
| WDone.       (* exit(EXIT_SUCCESS) *)

Inductive rpc :=
| RReserve     (* reserveSem(semid, READ_SEM) *)
| RTest        (* if (shmp->cnt == 0) break *)
| RCount       (* bytes += shmp->cnt *)
| RWrite       (* write(STDOUT_FILENO, shmp->buf, shmp->cnt) *)
| RRelease     (* releaseSem(semid, WRITE_SEM) in the loop, then xfrs++ *)
| RDetach      (* shmdt *)
| RLast        (* releaseSem(semid, WRITE_SEM) after the loop *)
| RDone.       (* exit(EXIT_SUCCESS) *)

(** A process runs, has stopped by errExit or fatal, or ran into a signed
    overflow of its byte counter. *)
Inductive life := Runs | Failed | Overflow.

#[export] Instance wpc_eq_dec : EqDecision wpc.
Proof. solve_decision. Defined.
#[export] Instance rpc_eq_dec : EqDecision rpc.
Proof. solve_decision. Defined.

(** [r_part] is what a failed write() of the reader may have written. *)
Record xfr := Xfr {
  write_sem : Z; read_sem : Z; shm : shmseg;
  stdin : list (list ascii); w_pc : wpc; w_life : life; w_bytes : Z; w_xfrs : Z;
  stdout : list ascii; r_pc : rpc; r_life : life; r_bytes : Z; r_xfrs : Z; r_part : list ascii }.

(** The state after the writer's set-up: the writer has the first turn. *)
Definition init (input : list (list ascii)) (seg : shmseg) : xfr :=
  Xfr 1 0 seg input WReserve Runs 0 0 [] RReserve Runs 0 0 [].

(** What read() stores into the segment. *)
Definition read_block (seg : shmseg) (block : list ascii) : shmseg :=
  Shm (Z.of_nat (length block)) (block ++ drop (length block) (buf seg)).

(** The state with the writer's part replaced, and the same for the reader. *)
Definition w_set (s : xfr) (ws rs : Z) (seg : shmseg) (inp : list (list ascii)) (pc : wpc)
    (l : life) (b x : Z) : xfr :=
  Xfr ws rs seg inp pc l b x (stdout s) (r_pc s) (r_life s) (r_bytes s) (r_xfrs s) (r_part s).
Definition r_set (s : xfr) (ws rs : Z) (out : list ascii) (pc : rpc) (l : life) (b x : Z)
    (part : list ascii) : xfr :=
  Xfr ws rs (shm s) (stdin s) (w_pc s) (w_life s) (w_bytes s) (w_xfrs s) out pc l b x part.

(** The next step of the writer; [None] if it waits or has ended. *)
Definition writer_step (s : xfr) : option xfr :=
  let goto ws rs pc := Some (w_set s ws rs (shm s) (stdin s) pc Runs (w_bytes s) (w_xfrs s)) in
  match w_pc s with
  | WReserve => if 1 <=? write_sem s then goto (write_sem s - 1) (read_sem s) WRead else None
  | WRead =>
      let '(block, rest) := match stdin s with [] => ([], []) | b :: r => (b, r) end in
      Some (w_set s (write_sem s) (read_sem s) (read_block (shm s) block) rest WRelease Runs
                  (w_bytes s) (w_xfrs s))
  | WRelease => goto (write_sem s) (read_sem s + 1) WTest
  | WTest => goto (write_sem s) (read_sem s) (if cnt (shm s) =? 0 then WLast else WNext)
  | WNext =>
      let b := w_bytes s + cnt (shm s) in
      Some (if b <=? INT_MAX
            then w_set s (write_sem s) (read_sem s) (shm s) (stdin s) WReserve Runs b (w_xfrs s + 1)
            else w_set s (write_sem s) (read_sem s) (shm s) (stdin s) WNext Overflow
                       (w_bytes s) (w_xfrs s))
  | WLast => if 1 <=? write_sem s then goto (write_sem s - 1) (read_sem s) WRemove else None
  | WRemove => goto (write_sem s) (read_sem s) WDone
  | WDone => None
  end.

Definition reader_step (s : xfr) : option xfr :=
  let goto ws rs pc := Some (r_set s ws rs (stdout s) pc Runs (r_bytes s) (r_xfrs s) []) in
  match r_pc s with
  | RReserve => if 1 <=? read_sem s then goto (write_sem s) (read_sem s - 1) RTest else None
  | RTest => goto (write_sem s) (read_sem s) (if cnt (shm s) =? 0 then RDetach else RCount)
  | RCount =>
      let b := r_bytes s + cnt (shm s) in
      Some (if b <=? INT_MAX
            then r_set s (write_sem s) (read_sem s) (stdout s) RWrite Runs b (r_xfrs s) []
            else r_set s (write_sem s) (read_sem s) (stdout s) RCount Overflow (r_bytes s) (r_xfrs s) [])
  | RWrite =>
      Some (r_set s (write_sem s) (read_sem s)
                  (stdout s ++ take (Z.to_nat (cnt (shm s))) (buf (shm s))) RRelease Runs
                  (r_bytes s) (r_xfrs s) [])
  | RRelease =>
      Some (r_set s (write_sem s + 1) (read_sem s) (stdout s) RReserve Runs
                  (r_bytes s) (r_xfrs s + 1) [])
  | RDetach => goto (write_sem s) (read_sem s) RLast
  | RLast => goto (write_sem s + 1) (read_sem s) RDone
  | RDone => None
  end.

(** The statements that make a system call which can fail. *)
Definition w_may_fail (pc : wpc) : bool :=
  match pc with WReserve | WRead | WRelease | WLast | WRemove => true | _ => false end.
Definition r_may_fail (pc : rpc) : bool :=
  match pc with RReserve | RWrite | RRelease | RDetach | RLast => true | _ => false end.

(** A failed read() leaves -1 in the count; a failed write() may have written
    part of the block. *)
Inductive step (s : xfr) : xfr -> Prop :=
| step_writer s' : w_life s = Runs -> writer_step s = Some s' -> step s s'
| step_reader s' : r_life s = Runs -> reader_step s = Some s' -> step s s'
| fail_writer :
    w_life s = Runs -> w_may_fail (w_pc s) = true ->
    step s (w_set s (write_sem s) (read_sem s)
              (if decide (w_pc s = WRead) then Shm (-1) (buf (shm s)) else shm s)
              (stdin s) (w_pc s) Failed (w_bytes s) (w_xfrs s))
| fail_reader n :
    r_life s = Runs -> r_may_fail (r_pc s) = true ->
    step s (r_set s (write_sem s) (read_sem s) (stdout s) (r_pc s) Failed (r_bytes s) (r_xfrs s)
              (if decide (r_pc s = RWrite)
               then take n (take (Z.to_nat (cnt (shm s))) (buf (shm s))) else [])).

Definition reachable (input : list (list ascii)) (seg : shmseg) (s : xfr) : Prop :=
  rtc step (init input seg) s.

(** ** Set-up *)

(** The calls before the loops.  [WLoop] and [RLoop]: the loop has been entered. *)
Inductive w_setup := WSemget | WInitWrite | WInitRead | WShmget | WShmat | WLoop.
Inductive r_setup := RSemget | RShmget | RShmat | RLoop.

#[export] Instance w_setup_eq_dec : EqDecision w_setup.
Proof. solve_decision. Defined.

(** Which IPC objects exist, where the programs are in their set-up, and the rest:
    the values of the semaphores and the contents of the segment are the ones of
    [body]. *)
Record xfr_system := System { sems : bool; segment : bool; w_at : w_setup; r_at : r_setup; body : xfr }.

(** [leftover]: semaphores of an earlier run that was not completed, with their
    values, and its segment.  A new segment is filled with zeros. *)
Definition boot (leftover : option (Z * Z * shmseg)) (input : list (list ascii)) : xfr_system :=
  match leftover with
  | None => System false false WSemget RSemget (Xfr 0 0 (Shm 0 []) input WReserve Runs 0 0 [] RReserve Runs 0 0 [])
  | Some (w, r, seg) => System true true WSemget RSemget (Xfr w r seg input WReserve Runs 0 0 [] RReserve Runs 0 0 [])
  end.

Definition set_sems (ws rs : Z) (s : xfr) : xfr :=
  w_set s ws rs (shm s) (stdin s) (w_pc s) (w_life s) (w_bytes s) (w_xfrs s).

(** semget() with IPC_CREAT returns an existing set with its values. *)
Definition writer_setup (x : xfr_system) : option xfr_system :=
  let b := body x in
  match w_at x with
  | WSemget => Some (System true (segment x) WInitWrite (r_at x) b)
  | WInitWrite => Some (System (sems x) (segment x) WInitRead (r_at x) (set_sems 1 (read_sem b) b))
  | WInitRead => Some (System (sems x) (segment x) WShmget (r_at x) (set_sems (write_sem b) 0 b))
  | WShmget => Some (System (sems x) true WShmat (r_at x) b)
  | WShmat => Some (System (sems x) (segment x) WLoop (r_at x) b)
  | WLoop => None
  end.

(** The reader's calls fail if the objects do not exist. *)
Definition reader_setup (x : xfr_system) : option xfr_system :=
  match r_at x with
  | RSemget => if sems x then Some (System (sems x) (segment x) (w_at x) RShmget (body x)) else None
  | RShmget => if segment x then Some (System (sems x) (segment x) (w_at x) RShmat (body x)) else None
  | RShmat => Some (System (sems x) (segment x) (w_at x) RLoop (body x))
  | RLoop => None
  end.

Definition set_body (s : xfr) (x : xfr_system) : xfr_system := System (sems x) (segment x) (w_at x) (r_at x) s.
Definition w_fail (s : xfr) : xfr := w_set s (write_sem s) (read_sem s) (shm s) (stdin s) (w_pc s) Failed (w_bytes s) (w_xfrs s).
Definition r_fail (s : xfr) : xfr := r_set s (write_sem s) (read_sem s) (stdout s) (r_pc s) Failed (r_bytes s) (r_xfrs s) [].

(** What belongs to one program only: a step of the other leaves it alone. *)
Definition writer_part (s : xfr) := (stdin s, w_pc s, w_life s, w_bytes s, w_xfrs s).
Definition reader_part (s : xfr) := (stdout s, r_pc s, r_life s, r_bytes s, r_xfrs s, r_part s).

(** Every call of the set-up may fail; a program takes the steps of its loop when
    its set-up is complete. *)
Inductive sys_step (x : xfr_system) : xfr_system -> Prop :=
| setup_writer x' : w_life (body x) = Runs -> writer_setup x = Some x' -> sys_step x x'
| setup_writer_fails : w_life (body x) = Runs -> w_at x <> WLoop -> sys_step x (set_body (w_fail (body x)) x)
| setup_reader x' : r_life (body x) = Runs -> reader_setup x = Some x' -> sys_step x x'
| setup_reader_fails : r_life (body x) = Runs -> r_at x <> RLoop -> sys_step x (set_body (r_fail (body x)) x)
| sys_loop s' :
    step (body x) s' ->
    (w_at x <> WLoop -> writer_part s' = writer_part (body x)) ->
    (r_at x <> RLoop -> reader_part s' = reader_part (body x)) ->
    sys_step x (set_body s' x).

(** ** The invariant *)

(** The semaphores count 1 together with the process that is between reserving
    and releasing. *)
Definition w_turn (pc : wpc) : Z :=
  match pc with WRead | WRelease | WRemove | WDone => 1 | _ => 0 end.
Definition r_turn (pc : rpc) : Z :=
  match pc with RTest | RCount | RWrite | RRelease | RDetach | RLast => 1 | _ => 0 end.

(** The reader has yet to take the block in the segment. *)
Definition r_takes (pc : rpc) : bool := match pc with RTest | RCount | RWrite => true | _ => false end.
Definition r_pending (s : xfr) : bool := (1 <=? read_sem s) || r_takes (r_pc s).
Definition pending_block (s : xfr) : bool := r_pending s || bool_decide (w_pc s = WRelease).
Definition w_after_read (pc : wpc) : bool :=
  match pc with WRelease | WTest | WNext => true | _ => false end.
Definition r_finished (pc : rpc) : bool :=
  match pc with RDetach | RLast | RDone => true | _ => false end.
Definition w_finished (pc : wpc) : bool :=
  match pc with WLast | WRemove | WDone => true | _ => false end.

Definition block_of (s : xfr) : list ascii := take (Z.to_nat (cnt (shm s))) (buf (shm s)).

Record inv (input sent : list (list ascii)) (s : xfr) : Prop := Inv {
  i_input : input = sent ++ stdin s;
  i_sems : 0 <= write_sem s /\ 0 <= read_sem s;
  i_turn : write_sem s + read_sem s + w_turn (w_pc s) + r_turn (r_pc s) = 1;
  i_pending : pending_block s = true ->
    concat sent = stdout s ++ block_of s /\ cnt (shm s) = Z.of_nat (length (block_of s));
  i_idle : pending_block s = false -> concat sent = stdout s;
  i_after : w_after_read (w_pc s) = true -> 0 <= cnt (shm s);
  i_eof : w_after_read (w_pc s) = true \/ r_pending s = true -> cnt (shm s) = 0 -> stdin s = [];
  i_next : w_pc s = WNext -> 0 < cnt (shm s);
  i_again : w_pc s = WReserve -> r_pending s = true -> 0 < cnt (shm s);
  i_rcount : r_pc s = RCount \/ r_pc s = RWrite -> 0 < cnt (shm s);
  i_wfin : w_finished (w_pc s) = true -> cnt (shm s) = 0 /\ stdin s = [];
  i_removed : w_pc s = WRemove \/ w_pc s = WDone -> r_pc s = RDone;
  i_rfin : r_finished (r_pc s) = true ->
    cnt (shm s) = 0 /\ stdin s = [] /\ (w_finished (w_pc s) = true \/ w_pc s = WTest) /\
    read_sem s = 0;
  i_last : w_finished (w_pc s) = true \/ w_pc s = WTest -> cnt (shm s) = 0 ->
    r_pending s = true \/ r_finished (r_pc s) = true;
  i_part : r_part s = [] \/ r_pc s = RWrite /\ exists n, r_part s = take n (block_of s);
  i_wcount :
    w_bytes s + (if w_after_read (w_pc s) then cnt (shm s) else 0) = Z.of_nat (length (concat sent)) /\
    w_xfrs s + (if w_after_read (w_pc s) && (0 <? cnt (shm s)) then 1 else 0) = Z.of_nat (length sent);
  i_rbytes : r_bytes s = Z.of_nat (length (stdout s)) +
    (if bool_decide (r_pc s = RWrite) then cnt (shm s) else 0);
  i_rxfrs : r_xfrs s + (if bool_decide (r_pc s = RRelease) || pending_block s && (0 <? cnt (shm s))
                        then 1 else 0) = Z.of_nat (length sent)
}.

Lemma inv_init input seg : inv input [] (init input seg).
Proof. split; simpl; intros; try lia; try done; [by destruct_or?..|by left]. Qed.

(** *** Preservation

    The turn leaves few combinations of program counters and semaphores: they are
    enumerated, the impossible ones close by arithmetic, and in the others the
    clauses of the invariant compute. *)

Ltac xfr_simpl := unfold pending_block, r_pending, block_of, w_set, r_set in *; simpl in *.

Lemma sem_values a b x y :
  0 <= a /\ 0 <= b -> 0 <= x -> 0 <= y -> a + b + x + y = 1 ->
  (a = 0 \/ a = 1) /\ (b = 0 \/ b = 1).
Proof. lia. Qed.

Lemma turns_nonneg wp rp : 0 <= w_turn wp /\ 0 <= r_turn rp.
Proof. destruct wp, rp; simpl; lia. Qed.

(** Use the implications whose premises are decided. *)
Ltac decided := repeat match goal with
  | H : ?x = ?x -> _ |- _ => specialize (H eq_refl)
  | H : true = false -> _ |- _ => clear H
  | H : false = true -> _ |- _ => clear H
  | H : _ /\ _ |- _ => destruct H
  | H : _ = _ \/ _ = _ -> _ |- _ =>
      first [specialize (H (or_introl eq_refl)) | specialize (H (or_intror eq_refl)) | clear H]
  end.

Ltac xfr_enum Hsem Ht :=
  match type of Ht with
  | ?a + ?b + w_turn ?wp + r_turn ?rp = 1 =>
      let H1 := fresh in let H2 := fresh in
      destruct (sem_values a b _ _ Hsem (proj1 (turns_nonneg wp rp)) (proj2 (turns_nonneg wp rp)) Ht)
        as [H1 H2]; destruct H1, H2; subst; destruct wp, rp; simpl in Ht; try discriminate Ht
  end.

Ltac xfr_close :=
  split; xfr_simpl; intros; try (destruct_or?; discriminate); try done; try lia; auto;
  repeat match goal with
  | |- context [0 <? ?c] => destruct (Z.ltb_spec 0 c)
  | H : context [0 <? ?c] |- _ => destruct (Z.ltb_spec 0 c)
  end; simpl in *; rewrite ?length_app; try lia; destruct_or?; try done; try lia; auto.

Lemma inv_writer input sent s s' :
  inv input sent s -> w_pc s <> WRead -> writer_step s = Some s' -> inv input sent s'.
Proof.
  destruct s as [ws rs [c b] inp wp wl wb wx out rp rl rb rx rt].
  intros [Hin Hsem Ht Hp Hid Haft Heof Hnext Hag Hrc Hwf Hrem Hrf Hlast Hpart [Hwb Hwx] Hrb Hrx] Hpc Hstep.
  unfold writer_step in Hstep. cbn [write_sem read_sem w_pc r_pc] in Hsem, Ht, Hpc.
  xfr_enum Hsem Ht; try done; xfr_simpl; decided.
  all: try zcase_in Hstep; simplify_eq; xfr_close.
Qed.

(** A read() takes the next block; at the end of the input the count becomes 0. *)
Lemma inv_read input sent s s' :
  Forall (fun b => b <> []) input ->
  inv input sent s -> w_pc s = WRead -> writer_step s = Some s' -> exists sent', inv input sent' s'.
Proof.
  destruct s as [ws rs [c b] inp wp wl wb wx out rp rl rb rx rt].
  intros Hne [Hin Hsem Ht Hp Hid Haft Heof Hnext Hag Hrc Hwf Hrem Hrf Hlast Hpart [Hwb Hwx] Hrb Hrx] Hpc Hstep.
  unfold writer_step in Hstep. simpl in Hpc. subst wp.
  cbn [write_sem read_sem w_pc r_pc] in Hsem, Ht.
  destruct (sem_values _ _ _ _ Hsem (proj1 (turns_nonneg WRead rp)) (proj2 (turns_nonneg WRead rp)) Ht)
    as [[-> | ->] [-> | ->]]; destruct rp; simpl in Ht; try discriminate Ht; xfr_simpl; decided;
    try (destruct_or?; discriminate).
  assert (rt = []) as -> by (by destruct Hpart as [?|[? _]]). clear Hpart.
  destruct inp as [|blk inp]; simplify_eq.
  - exists sent. xfr_close. split; [symmetry; apply app_nil_r|done].
  - exists (sent ++ [blk]).
    assert (0 < length blk)%nat as Hl.
    { apply Forall_app in Hne as [_ [Hb _]%Forall_cons]. destruct blk; [done|simpl; lia]. }
    split; xfr_simpl; intros; try (destruct_or?; done); try lia.
    + by rewrite <- app_assoc.
    + rewrite Nat2Z.id, take_app_length, concat_app. simpl. rewrite app_nil_r. by split.
    + by left.
    + zcase; [|lia]. rewrite concat_app, !length_app. simpl. rewrite app_nil_r. lia.
    + zcase; [|lia]. rewrite length_app. simpl. lia.
Qed.

Lemma inv_reader input sent s s' :
  inv input sent s -> reader_step s = Some s' -> inv input sent s'.
Proof.
  destruct s as [ws rs [c b] inp wp wl wb wx out rp rl rb rx rt].
  intros [Hin Hsem Ht Hp Hid Haft Heof Hnext Hag Hrc Hwf Hrem Hrf Hlast Hpart [Hwb Hwx] Hrb Hrx] Hstep.
  unfold reader_step in Hstep. cbn [write_sem read_sem w_pc r_pc] in Hsem, Ht.
  xfr_enum Hsem Ht; try done; xfr_simpl; decided.
  all: try zcase_in Hstep; simplify_eq; xfr_close.
  all: etrans; [eassumption|apply app_nil_r].
Qed.

Lemma inv_step input sent s s' :
  Forall (fun b => b <> []) input ->
  inv input sent s -> step s s' -> exists sent', inv input sent' s'.
Proof.
  intros Hne Hi Hs. destruct Hs as [s' _ Hs|s' _ Hs|Hl Hf|n Hl Hf].
  - destruct (decide (w_pc s = WRead)); [by eapply inv_read|exists sent; by eapply inv_writer].
  - exists sent. by eapply inv_reader.
  - exists sent. destruct s as [ws rs [c b] inp wp wl wb wx out rp rl rb rx rt].
    destruct Hi as [Hin Hsem Ht Hp Hid Haft Heof Hnext Hag Hrc Hwf Hrem Hrf Hlast Hpart [Hwb Hwx] Hrb Hrx].
    simpl in *. destruct (decide (wp = WRead)) as [->|]; [|by split].
    assert (ws = 0 /\ rs = 0) as [-> ->].
    { pose proof (proj2 (turns_nonneg WRead rp)). cbn [w_turn] in Ht. lia. }
    destruct rp; simpl in Ht; try discriminate Ht; xfr_simpl; decided; try (by destruct_or?).
    destruct Hpart as [->|[? _]]; [|done].
    split; xfr_simpl; intros; try (by destruct_or?); try lia; auto.
  - exists sent. destruct s as [ws rs [c b] inp wp wl wb wx out rp rl rb rx rt].
    destruct Hi. simpl in *. split; xfr_simpl; try done.
    destruct (decide (rp = RWrite)); [right|by left]. eauto.
Qed.

Lemma inv_reachable input seg s :
  Forall (fun b => b <> []) input -> reachable input seg s -> exists sent, inv input sent s.
Proof.
  intros Hne Hr. unfold reachable in Hr.
  enough (forall s0 sent, inv input sent s0 -> rtc step s0 s -> exists sent', inv input sent' s) as H.
  { eapply H; [apply (inv_init input seg)|done]. }
  intros s0 sent Hi Hs. revert sent Hi. induction Hs as [|s1 s2 s3 H12 _ IH]; intros sent Hi; [eauto|].
  destruct (inv_step _ _ _ _ Hne Hi H12) as [sent' Hi']. eauto.
Qed.

(** ** Progress and termination *)

(** Steps in which no call fails. *)
Definition normal_step (s s' : xfr) : Prop :=
  (w_life s = Runs /\ writer_step s = Some s') \/ (r_life s = Runs /\ reader_step s = Some s').

Definition running (s : xfr) : Prop := w_life s = Runs /\ r_life s = Runs.

(** The statements that the programs have still to execute: five for every block
    that the writer has not read, five for every block that the reader has not
    taken, and the ends of the programs. *)
Definition w_left (pc : wpc) (n : Z) (eof : bool) : Z :=
  match pc with
  | WReserve => 5 * n + 6
  | WRead => 5 * n + 5
  | WRelease => if eof then 4 else 5 * n + 9
  | WTest => if eof then 3 else 5 * n + 8
  | WNext => 5 * n + 7
  | WLast => 2
  | WRemove => 1
  | WDone => 0
  end.

Definition r_left (pc : rpc) (n : Z) (eof pend : bool) : Z :=
  match pc with
  | RReserve => 5 * n + 4 + (if pend && negb eof then 5 else 0)
  | RTest => if eof then 3 else 5 * n + 8
  | RCount => 5 * n + 7
  | RWrite => 5 * n + 6
  | RRelease => 5 * n + 5
  | RDetach => 2
  | RLast => 1
  | RDone => 0
  end.

Definition measure (s : xfr) : Z :=
  let n := Z.of_nat (length (stdin s)) in
  let eof := cnt (shm s) =? 0 in
  w_left (w_pc s) n eof + r_left (r_pc s) n eof (pending_block s).

Lemma measure_nonneg s : 0 <= measure s.
Proof.
  unfold measure. destruct (w_pc s), (r_pc s); simpl;
    repeat match goal with |- context [if ?b then _ else _] => destruct b end; lia.
Qed.

Lemma measure_decreases input sent s s' :
  Forall (fun b => b <> []) input -> inv input sent s -> normal_step s s' ->
  (w_life s' = Overflow \/ r_life s' = Overflow) \/ measure s' < measure s.
Proof.
  intros Hne [Hin Hsem Ht Hp Hid Haft Heof Hnext Hag Hrc Hwf Hrem Hrf Hlast _ _ _ _] Hs.
  destruct s as [ws rs [c b] inp wp wl wb wx out rp rl rb rx rt].
  cbn [write_sem read_sem w_pc r_pc] in Hsem, Ht.
  assert (forall blk l, inp = blk :: l -> (0 < length blk)%nat) as Hblk.
  { intros blk l ->. simpl in Hin. subst. apply Forall_app in Hne as [_ [Hb _]%Forall_cons].
    destruct blk; [done|simpl; lia]. }
  clear Hin Hne. unfold measure, normal_step, writer_step, reader_step in *.
  xfr_enum Hsem Ht; xfr_simpl; decided; destruct Hs as [[-> Hs]|[-> Hs]]; try done.
  all: try (destruct inp as [|blk inp]; [|specialize (Hblk _ _ eq_refl)]).
  all: try zcase_in Hs; simplify_eq; xfr_simpl; auto; right.
  all: repeat zcase; simpl; try lia.
Qed.

(** While both programs run, one of them can go on, unless both are at their end. *)
Lemma never_stuck input sent s :
  inv input sent s -> running s -> (exists s', normal_step s s') \/ w_pc s = WDone /\ r_pc s = RDone.
Proof.
  intros [_ Hsem Ht _ _ _ _ _ _ _ Hwf Hrem Hrf Hlast _ _ _ _] [Hw Hr].
  unfold normal_step, writer_step, reader_step. rewrite Hw, Hr.
  destruct s as [ws rs [c b] inp wp wl wb wx out rp rl rb rx rt].
  cbn [write_sem read_sem w_pc r_pc] in Hsem, Ht.
  xfr_enum Hsem Ht; xfr_simpl; decided; try discriminate; eauto 6.
  all: try (destruct inp; by eauto 6).
  all: by destruct_or?.
Qed.

Lemma no_overflow input sent s s' :
  inv input sent s -> Z.of_nat (length (concat input)) <= INT_MAX ->
  running s -> normal_step s s' -> running s'.
Proof.
  intros Hi Hmax [Hw Hr] Hs.
  assert (Z.of_nat (length (concat sent)) <= INT_MAX) as Hsent.
  { rewrite (i_input _ _ _ Hi), concat_app, length_app in Hmax. lia. }
  pose proof (i_wcount _ _ _ Hi) as [Hwb _]. pose proof (i_rbytes _ _ _ Hi) as Hrb.
  pose proof (i_pending _ _ _ Hi) as Hp. clear Hi Hmax.
  destruct s as [ws rs [c b] inp wp wl wb wx out rp rl rb rx rt].
  unfold normal_step, writer_step, reader_step, running in *. simpl in Hw, Hr. subst wl rl.
  destruct Hs as [[_ Hs]|[_ Hs]].
  - destruct wp; xfr_simpl; try zcase_in Hs; repeat case_match; simplify_eq; try done; simpl; lia.
  - clear Hwb. destruct rp; xfr_simpl; try zcase_in Hs; repeat case_match; simplify_eq; try done; simpl.
    rewrite orb_true_r in Hp. destruct (Hp eq_refl) as [Hc Hlen].
    rewrite Hc, length_app in Hsent. lia.
Qed.

(** ** Properties *)

(** The transfer is faithful under every interleaving and every failure of a
    call.  What the reader has written, a failed write included, is always a
    prefix of the writer's input; the programs are never both between reserving
    and releasing; and when the reader has finished, it has written exactly the
    input, and both programs count its bytes and blocks. *)
Lemma xfr_faithful input seg s :
  Forall (fun b => b <> []) input -> reachable input seg s ->
  (stdout s ++ r_part s) `prefix_of` concat input /\
  w_turn (w_pc s) + r_turn (r_pc s) <= 1 /\
  (r_pc s = RDone ->
     stdout s = concat input /\ r_bytes s = Z.of_nat (length (concat input)) /\
     r_xfrs s = Z.of_nat (length input)) /\
  (w_pc s = WDone ->
     r_pc s = RDone /\ w_bytes s = Z.of_nat (length (concat input)) /\
     w_xfrs s = Z.of_nat (length input)).
Proof.
  intros Hne Hr. destruct (inv_reachable _ _ _ Hne Hr) as [sent Hi].
  assert (r_pc s = RDone -> stdout s = concat input /\ r_bytes s = Z.of_nat (length (concat input)) /\
     r_xfrs s = Z.of_nat (length input) /\ sent = input) as Hrd.
  { intros Hpc. destruct (i_rfin _ _ _ Hi) as (Hc & Hin & _); [by rewrite Hpc|].
    pose proof (i_input _ _ _ Hi) as H1. rewrite Hin, app_nil_r in H1. subst sent.
    pose proof (i_rxfrs _ _ _ Hi) as H2. pose proof (i_rbytes _ _ _ Hi) as H3.
    rewrite Hpc, Hc in *. rewrite andb_false_r in H2. simpl in H2, H3.
    assert (stdout s = concat input) as Ho.
    { destruct (pending_block s) eqn:Hp; [|by rewrite (i_idle _ _ _ Hi Hp)].
      destruct (i_pending _ _ _ Hi Hp) as [-> Hl]. rewrite Hc in Hl.
      assert (block_of s = []) as -> by (apply length_zero_iff_nil; lia). by rewrite app_nil_r. }
    split_and!; [done| |lia|done]. rewrite <- Ho. lia. }
  split_and!.
  - rewrite (i_input _ _ _ Hi), concat_app. apply prefix_app_r.
    destruct (i_part _ _ _ Hi) as [->|(Hpc & n & ->)].
    + rewrite app_nil_r. destruct (pending_block s) eqn:Hp.
      * destruct (i_pending _ _ _ Hi Hp) as [-> _]. by apply prefix_app_r.
      * by rewrite (i_idle _ _ _ Hi Hp).
    + destruct (i_pending _ _ _ Hi) as [-> _].
      { unfold pending_block, r_pending. rewrite Hpc. by rewrite orb_true_r. }
      apply prefix_app. exists (drop n (block_of s)). by rewrite take_drop.
  - pose proof (i_turn _ _ _ Hi). pose proof (i_sems _ _ _ Hi). lia.
  - intros Hpc. destruct (Hrd Hpc) as (? & ? & ? & _). done.
  - intros Hpc. pose proof (i_removed _ _ _ Hi (or_intror Hpc)) as Hrp.
    destruct (Hrd Hrp) as (_ & _ & _ & ->). pose proof (i_wcount _ _ _ Hi) as Hwc.
    rewrite Hpc in Hwc. simpl in Hwc. split_and!; [done|lia|lia].
Qed.

(** The transfer terminates.  In every reachable state in which no call has
    failed, either both programs are at their end, with the whole input written,
    or one of them can take a step; every such step decreases [measure] and runs
    into no overflow (for inputs of at most INT_MAX bytes).  So no interleaving
    deadlocks or goes on for more than [measure (init input seg)] steps. *)
Lemma xfr_terminates input seg s :
  Forall (fun b => b <> []) input -> Z.of_nat (length (concat input)) <= INT_MAX ->
  reachable input seg s -> running s ->
  0 <= measure s /\
  ((w_pc s = WDone /\ r_pc s = RDone /\ stdout s = concat input) \/ exists s', normal_step s s') /\
  (forall s', normal_step s s' -> running s' /\ measure s' < measure s).
Proof.
  intros Hne Hmax Hr Hrun. destruct (inv_reachable _ _ _ Hne Hr) as [sent Hi].
  split; [apply measure_nonneg|]. split.
  - destruct (never_stuck _ _ _ Hi Hrun) as [?|[Hw Hrd]]; [by right|left].
    split_and!; [done..|]. destruct (i_rfin _ _ _ Hi) as (Hc & Hin & _); [by rewrite Hrd|].
    destruct (i_wfin _ _ _ Hi) as [_ _]; [by rewrite Hw|].
    pose proof (i_input _ _ _ Hi) as H1. rewrite Hin, app_nil_r in H1. subst sent.
    symmetry. apply (i_idle _ _ _ Hi). pose proof (i_turn _ _ _ Hi) as Ht. pose proof (i_sems _ _ _ Hi).
    unfold pending_block, r_pending. rewrite Hw, Hrd in *. simpl in Ht.
    destruct (Z.leb_spec 1 (read_sem s)); [lia|done].
  - intros s' Hs. pose proof (no_overflow _ _ _ _ Hi Hmax Hrun Hs) as Hrun'. split; [done|].
    destruct (measure_decreases _ _ _ _ Hne Hi Hs) as [[Ho|Ho]|?]; [| |done];
      destruct Hrun'; congruence.
Qed.

(** *** The set-up leads to the initial state of the transfer *)

(** Before the writer enters its loop the reader waits; afterwards the state is one
    of the transfer. *)
Record setup_inv (input : list (list ascii)) (x : xfr_system) : Prop := {
  s_before : w_at x <> WLoop ->
    read_sem (body x) = 0 /\ writer_part (body x) = (input, WReserve, w_life (body x), 0, 0) /\ w_life (body x) <> Overflow /\
    reader_part (body x) = ([], RReserve, r_life (body x), 0, 0, []) /\ r_life (body x) <> Overflow;
  s_ready : w_at x <> WLoop -> w_at x <> WSemget -> w_at x <> WInitWrite -> write_sem (body x) = 1;
  s_reader : r_at x <> RLoop -> r_pc (body x) = RReserve /\ r_part (body x) = [];
  s_after : w_at x = WLoop -> exists seg, reachable input seg (body x) }.

Lemma boot_inv input : setup_inv input (boot None input).
Proof. split; simpl; try done. Qed.

Lemma waiting_step input x s' :
  setup_inv input x -> w_at x <> WLoop -> step (body x) s' -> writer_part s' = writer_part (body x) -> s' = r_fail (body x).
Proof.
  intros Hi Hw Hs Hp. destruct (s_before _ _ Hi Hw) as (Hr0 & Hwp & _ & Hrp & _). clear Hi.
  destruct x as [a b c d s]. cbn in *. destruct s as [ws rs sg inp wp wl wb wx out rp rl rb rx rt], s'.
  unfold writer_part, reader_part in *. cbn in *. simplify_eq.
  inversion Hs as [s1 Hl Hst|s1 Hl Hst|Hl Hf|k Hl Hf]; subst; cbn in *; try done.
  unfold writer_step in Hst. cbn in Hst. by destruct (1 <=? ws).
Qed.

Lemma setup_done input x : setup_inv input x -> w_at x = WShmat -> w_life (body x) = Runs -> exists seg, reachable input seg (body x).
Proof.
  intros Hi Hw Hl. destruct (s_before _ _ Hi) as (Hr0 & Hwp & _ & Hrp & Ho); [by rewrite Hw|].
  pose proof (s_ready _ _ Hi) as H1. rewrite Hw in H1. specialize (H1 ltac:(done) ltac:(done) ltac:(done)).
  destruct x as [a b c d s]. cbn in *. destruct s as [ws rs sg inp wp wl wb wx out rp rl rb rx rt].
  unfold writer_part, reader_part in *. cbn in *. simplify_eq. exists sg.
  destruct rl; [apply rtc_refl| |done]. apply rtc_once. apply (fail_reader (init input sg) 0); done.
Qed.

Lemma setup_frame input x s' :
  setup_inv input x -> w_at x <> WLoop -> write_sem s' = write_sem (body x) -> read_sem s' = read_sem (body x) ->
  writer_part s' = (stdin (body x), w_pc (body x), w_life s', w_bytes (body x), w_xfrs (body x)) -> w_life s' <> Overflow ->
  reader_part s' = (stdout (body x), r_pc (body x), r_life s', r_bytes (body x), r_xfrs (body x), r_part (body x)) ->
  r_life s' <> Overflow -> setup_inv input (set_body s' x).
Proof.
  intros Hi Hw Hws Hrs Hwp Hwl Hrp Hrl. destruct (s_before _ _ Hi Hw) as (Hr0 & Hwp0 & _ & Hrp0 & _).
  unfold writer_part, reader_part in *. split; cbn; intros.
  - unfold writer_part, reader_part. split_and!; congruence.
  - rewrite Hws. by apply (s_ready _ _ Hi).
  - split; congruence.
  - done.
Qed.

Lemma setup_step input x x' : setup_inv input x -> sys_step x x' -> setup_inv input x'.
Proof.
  intros Hi Hs. pose proof (s_reader _ _ Hi) as Hr. inversion Hs as [x1 Hl Hw|Hl Hw|x1 Hl Hr'|Hl Hr'|s' Hst Hwp Hrp]; subst; clear Hs.
  - unfold writer_setup in Hw. destruct (w_at x) eqn:E; simplify_eq.
    all: pose proof (s_before _ _ Hi) as Hb; rewrite E in Hb; specialize (Hb ltac:(done)).
    all: pose proof (s_ready _ _ Hi) as H1; rewrite E in H1.
    1-4: split; cbn; intros; try done; destruct_and?; auto.
    split; cbn; try done. intros _. by apply setup_done with (input := input) in E.
  - destruct (s_before _ _ Hi Hw) as (_ & Hwp0 & _ & Hrp0 & Hrl). apply setup_frame; try done.
  - unfold reader_setup in Hr'. destruct (r_at x) eqn:E; repeat case_match; simplify_eq.
    all: destruct Hi as [H1 H2 _ H4]; split; cbn; auto; intros; try done; by apply Hr.
  - destruct (Hr Hr') as [Hpc Hpart]. destruct (decide (w_at x = WLoop)) as [Hw|Hw].
    + split; cbn; try done. intros _. destruct (s_after _ _ Hi Hw) as [seg Hreach]. exists seg.
      eapply rtc_r; [exact Hreach|]. pose proof (fail_reader (body x) 0 Hl) as Hf. rewrite Hpc in Hf.
      specialize (Hf eq_refl). unfold r_fail. by rewrite Hpc.
    + destruct (s_before _ _ Hi Hw) as (_ & Hwp0 & Hwl & Hrp0 & _). apply setup_frame; try done.
      unfold reader_part, r_fail. cbn. by rewrite Hpart.
  - destruct (decide (w_at x = WLoop)) as [Hw|Hw].
    + destruct (s_after _ _ Hi Hw) as [seg Hreach]. split; cbn; try done.
      * intros Hr'. destruct (Hr Hr') as [Hpc Hpart]. specialize (Hrp Hr'). unfold reader_part in Hrp. split; congruence.
      * intros _. exists seg. by eapply rtc_r.
    + rewrite (waiting_step input x s' Hi Hw Hst (Hwp Hw)).
      destruct (s_before _ _ Hi Hw) as (_ & Hwp0 & Hwl & Hrp0 & _). apply setup_frame; try done.
      unfold reader_part, r_fail in *. cbn. simplify_eq. congruence.
Qed.

Lemma setup_reaches input x : rtc sys_step (boot None input) x -> setup_inv input x.
Proof.
  intros Hr. refine (rtc_ind_r (fun x => setup_inv input x) _ _ _ x Hr); [apply boot_inv|].
  intros y z _ Hs Hi. by eapply setup_step.
Qed.

(** With objects that an earlier run left behind the reader does not wait for the
    writer. *)
Definition stale : option (Z * Z * shmseg) := Some (0, 1, Shm 3 ($"old")).

Lemma stale_objects : exists x, rtc sys_step (boot stale [$"new"]) x /\ w_at x = WSemget /\ stdout (body x) = $"old".
Proof.
  set (b0 := body (boot stale [$"new"])).
  exists (System true true WSemget RLoop (Nat.iter 4 (fun s => default s (reader_step s)) b0)).
  split; [|split; reflexivity]. do 3 (eapply rtc_l; [by apply setup_reader|]).
  do 4 (eapply rtc_l; [eapply sys_loop; [by apply step_reader|done|done]|]). apply rtc_refl.
Qed.

(** C6: the transfer under every interleaving and every failure of a call: what the reader has
    written is always a prefix of the writer's input, the programs are never both
    between reserving and releasing, and when the reader has finished it has
    written exactly the input and both programs count its bytes and blocks.  As
    long as no call fails, either both programs are at their end with the whole
    input written, or one of them can take a step, and every such step decreases
    [measure] and overflows nothing (for inputs of at most INT_MAX bytes): no
    interleaving deadlocks or goes on for more than [measure (init input seg)]
    steps.  The set-up, in which the reader may run ahead of the writer and every
    call may fail, leads to exactly such a state: until the writer is in its loop
    nothing is written, and afterwards the state is reachable from the initial
    state of the transfer.  This relies on new IPC objects: with the ones of an
    interrupted run the reader may write old data before the writer starts. *)
Theorem xfr_correct :
  (forall input seg s,
   Forall (fun b => b <> []) input -> reachable input seg s ->
    (stdout s ++ r_part s) `prefix_of` concat input /\
    w_turn (w_pc s) + r_turn (r_pc s) <= 1 /\
    (r_pc s = RDone ->
       stdout s = concat input /\ r_bytes s = Z.of_nat (length (concat input)) /\
       r_xfrs s = Z.of_nat (length input)) /\
    (w_pc s = WDone ->
       r_pc s = RDone /\ w_bytes s = Z.of_nat (length (concat input)) /\
       w_xfrs s = Z.of_nat (length input))) /\
  (forall input seg s,
   Forall (fun b => b <> []) input -> Z.of_nat (length (concat input)) <= INT_MAX ->
    reachable input seg s -> running s ->
    0 <= measure s /\
    ((w_pc s = WDone /\ r_pc s = RDone /\ stdout s = concat input) \/ exists s', normal_step s s') /\
    (forall s', normal_step s s' -> running s' /\ measure s' < measure s)) /\
  (forall input x, rtc sys_step (boot None input) x ->
    if decide (w_at x = WLoop) then exists seg, reachable input seg (body x)
    else stdout (body x) = [] /\ r_pc (body x) = RReserve /\ w_pc (body x) = WReserve) /\
  (exists x, rtc sys_step (boot stale [$"new"]) x /\ w_at x = WSemget /\ stdout (body x) = $"old").
Proof.
  split_and!; [exact xfr_faithful|exact xfr_terminates| |exact stale_objects].
  intros input x Hr%setup_reaches. case_decide as Hw; [by apply (s_after _ _ Hr)|].
  destruct (s_before _ _ Hr Hw) as (_ & Hwp & _ & Hrp & _). unfold writer_part, reader_part in *. split_and!; congruence.
Qed.

(** ** Witnesses *)

(** The programs taking turns: the writer whenever it can, else the reader. *)
Definition next (s : xfr) : xfr :=
  match writer_step s with
  | Some s' => s'
  | None => match reader_step s with Some s' => s' | None => s end
  end.

Lemma rtc_next n s :
  (forall k, (k < n)%nat -> running (Nat.iter k next s)) -> rtc step s (Nat.iter n next s).
Proof.
  induction n as [|n IH]; intros Hr; [constructor|]. simpl.
  etrans; [apply IH; intros; apply Hr; lia|].
  destruct (Hr n ltac:(lia)) as [Hw Hrd]. set (s1 := Nat.iter n next s) in *. unfold next.
  destruct (writer_step s1) eqn:E1; [by apply rtc_once, step_writer|].
  destruct (reader_step s1) eqn:E2; [by apply rtc_once, step_reader|constructor].
Qed.

Definition demo_input : list (list ascii) := [$"hello "; $"world"].
Definition demo_final : xfr := Nat.iter 60 next (init demo_input (Shm 0 [])).

Lemma demo_reachable : reachable demo_input (Shm 0 []) demo_final.
Proof.
  apply rtc_next. intros k Hk.
  assert (forallb (fun k => match w_life (Nat.iter k next (init demo_input (Shm 0 []))),
                                  r_life (Nat.iter k next (init demo_input (Shm 0 []))) with
                            | Runs, Runs => true | _, _ => false end) (seq 0 60) = true) as Hall
    by (vm_compute; reflexivity).
  rewrite forallb_forall in Hall. specialize (Hall k). rewrite in_seq in Hall.
  specialize (Hall ltac:(lia)). unfold running. repeat case_match; done.
Qed.

Lemma xfr_correct_witness :
  r_pc demo_final = RDone /\ stdout demo_final = $"hello world" /\
  0 <= measure demo_final /\ (forall s', normal_step demo_final s' -> measure s' < measure demo_final).
Proof.
  assert (r_pc demo_final = RDone) as Hpc by (vm_compute; reflexivity).
  assert (Forall (fun b => b <> []) demo_input) as Hne by (repeat constructor; discriminate).
  destruct xfr_correct as (Hf & Ht & _).
  destruct (Hf demo_input (Shm 0 []) demo_final Hne demo_reachable) as (_ & _ & Hd & _).
  destruct (Ht demo_input (Shm 0 []) demo_final Hne) as (H0 & _ & Hs);
    [vm_compute; discriminate|exact demo_reachable|split; vm_compute; reflexivity|].
  split; [exact Hpc|]. split; [destruct (Hd Hpc) as [-> _]; reflexivity|]. split; [exact H0|]. intros s' Hs'. apply Hs, Hs'.
Defined.
