(* ===== verification/ProdCons.v ===== *)
(** * threads/prod_cons_cv.c: producers and consumers with a condition variable

    Producer and consumer threads share counters under a mutex and a condition
    variable.  Each statement of a thread between two synchronization points is a
    step, the steps of all threads interleave in any order, a waiting consumer
    may also wake up spuriously, and any pthread call may fail, which ends the
    process.  The messages and the sleeps that simulate work are left out: they
    are off when the sleep factor is zero. *)

From S2P Require Import Prelude.

(** ** State *)

(** [prodDone] and [consDone] are kept with the statements that use them. *)
Inductive ppc :=
| PLock                        (* pthread_mutex_lock *)
| PProduce                     (* the critical section *)
| PUnlock (prodDone : bool)    (* pthread_mutex_unlock *)
| PBroadcast (prodDone : bool) (* pthread_cond_broadcast *)
| PEnd.

Inductive cpc :=
| CLock                        (* pthread_mutex_lock *)
| CCheck                       (* the test of the inner while loop *)
| CWait                        (* asleep in pthread_cond_wait *)
| CRelock                      (* awake in pthread_cond_wait, the mutex not yet locked *)
| CConsume                     (* the critical section after the loop *)
| CUnlock (consDone : bool)    (* pthread_mutex_unlock *)
| CEnd.

#[export] Instance ppc_eq_dec : EqDecision ppc.
Proof. solve_decision. Defined.
#[export] Instance cpc_eq_dec : EqDecision cpc.
Proof. solve_decision. Defined.

Record globals := Globals {
  avail : Z; totalUnits : Z; unitsProduced : Z; unitsConsumed : Z; numLiveCons : Z;
  mtx : bool }.

(** [prodsLeft] and [consLeft] threads are still to be created by main;
    [exited] is the exit status of the process once it has ended. *)
Record pc_state := PcState {
  vars : globals; prods : list ppc; conss : list cpc;
  prodsLeft : nat; consLeft : nat; exited : option Z }.

Definition set_lock (b : bool) (g : globals) : globals :=
  Globals (avail g) (totalUnits g) (unitsProduced g) (unitsConsumed g) (numLiveCons g) b.

(** The state in which main starts to create threads. *)
Definition pc_init (numProd numCons total : Z) : pc_state :=
  PcState (Globals 0 total 0 0 numCons false) [] [] (Z.to_nat numProd) (Z.to_nat numCons) None.

(** main: too few arguments end the process with EXIT_FAILURE. *)
Definition pc_main (argv : list (list ascii)) : pc_state + Z :=
  match argv with
  | _ :: numProd :: numCons :: totalUnits :: _ =>
      inl (pc_init (atoi numProd) (atoi numCons) (atoi totalUnits))
  | _ => inr 1
  end.

Definition wake (c : cpc) : cpc := match c with CWait => CRelock | c => c end.

(** ** Steps *)

(** A producer: its next state with the variables, and whether it broadcasts;
    [None] if it waits for the mutex or has ended. *)
Definition producer (g : globals) (p : ppc) : option (globals * ppc * bool) :=
  match p with
  | PLock => if mtx g then None else Some (set_lock true g, PProduce, false)
  | PProduce =>
      if totalUnits g <=? unitsProduced g then Some (g, PUnlock true, false)
      else Some (Globals (avail g + 1) (totalUnits g) (unitsProduced g + 1) (unitsConsumed g)
                         (numLiveCons g) (mtx g), PUnlock false, false)
  | PUnlock d => Some (set_lock false g, PBroadcast d, false)
  | PBroadcast d => Some (g, if d then PEnd else PLock, true)
  | PEnd => None
  end.

(** A consumer; [inl] is a normal step and [inr] the exit of the process. *)
Definition consumer (g : globals) (c : cpc) : option (globals * cpc + Z) :=
  match c with
  | CLock => if mtx g then None else Some (inl (set_lock true g, CCheck))
  | CCheck =>
      if (avail g =? 0) && (unitsConsumed g <? totalUnits g)
      then Some (inl (set_lock false g, CWait))
      else Some (inl (g, CConsume))
  | CWait => Some (inl (g, CRelock))
  | CRelock => if mtx g then None else Some (inl (set_lock true g, CCheck))
  | CConsume =>
      if totalUnits g <=? unitsConsumed g then
        let g' := Globals (avail g) (totalUnits g) (unitsProduced g) (unitsConsumed g)
                          (numLiveCons g - 1) (mtx g) in
        if numLiveCons g' <=? 0 then Some (inr 0) else Some (inl (g', CUnlock true))
      else Some (inl (Globals (avail g - 1) (totalUnits g) (unitsProduced g) (unitsConsumed g + 1)
                              (numLiveCons g) (mtx g), CUnlock false))
  | CUnlock d => Some (inl (set_lock false g, if d then CEnd else CLock))
  | CEnd => None
  end.

(** The statements that make a pthread call. *)
Definition p_calls (p : ppc) : bool := match p with PProduce | PEnd => false | _ => true end.
Definition c_calls (c : cpc) : bool :=
  match c with CLock | CCheck | CWait | CRelock | CUnlock _ => true | _ => false end.

Inductive pc_step (s : pc_state) : pc_state -> Prop :=
| create_producer n :
    exited s = None -> prodsLeft s = S n ->
    pc_step s (PcState (vars s) (prods s ++ [PLock]) (conss s) n (consLeft s) None)
| create_consumer n :
    exited s = None -> prodsLeft s = 0%nat -> consLeft s = S n ->
    pc_step s (PcState (vars s) (prods s) (conss s ++ [CLock]) 0 n None)
| create_fails :
    exited s = None -> (prodsLeft s + consLeft s <> 0)%nat ->
    pc_step s (PcState (vars s) (prods s) (conss s) (prodsLeft s) (consLeft s) (Some 1))
| step_producer i p g' p' b :
    exited s = None -> prods s !! i = Some p -> producer (vars s) p = Some (g', p', b) ->
    pc_step s (PcState g' (<[i := p']> (prods s)) (if b then wake <$> conss s else conss s)
                       (prodsLeft s) (consLeft s) None)
| step_consumer i c g' c' :
    exited s = None -> conss s !! i = Some c -> consumer (vars s) c = Some (inl (g', c')) ->
    pc_step s (PcState g' (prods s) (<[i := c']> (conss s)) (prodsLeft s) (consLeft s) None)
| exit_consumer i c st :
    exited s = None -> conss s !! i = Some c -> consumer (vars s) c = Some (inr st) ->
    pc_step s (PcState (vars s) (prods s) (conss s) (prodsLeft s) (consLeft s) (Some st))
| producer_fails i p :
    exited s = None -> prods s !! i = Some p -> p_calls p = true ->
    pc_step s (PcState (vars s) (prods s) (conss s) (prodsLeft s) (consLeft s) (Some 1))
| consumer_fails i c :
    exited s = None -> conss s !! i = Some c -> c_calls c = true ->
    pc_step s (PcState (vars s) (prods s) (conss s) (prodsLeft s) (consLeft s) (Some 1)).

Definition pc_reachable (numProd numCons total : Z) (s : pc_state) : Prop :=
  rtc pc_step (pc_init numProd numCons total) s.

(** ** The invariant *)

Definition p_holds (p : ppc) : nat := match p with PProduce | PUnlock _ => 1 | _ => 0 end.
Definition c_holds (c : cpc) : nat := match c with CCheck | CConsume | CUnlock _ => 1 | _ => 0 end.
Definition c_live (c : cpc) : nat := match c with CUnlock true | CEnd => 0 | _ => 1 end.
Definition p_done (p : ppc) : bool := match p with PUnlock true | PBroadcast true | PEnd => true | _ => false end.
Definition p_will_wake (p : ppc) : bool := match p with PUnlock _ | PBroadcast _ => true | _ => false end.

Fixpoint count {A} (f : A -> nat) (l : list A) : nat :=
  match l with [] => 0 | x :: l' => f x + count f l' end.

Record pc_inv (numProd numCons total : Z) (s : pc_state) : Prop := PcInv {
  v_total : totalUnits (vars s) = total;
  v_units : 0 <= avail (vars s) /\ avail (vars s) = unitsProduced (vars s) - unitsConsumed (vars s);
  v_range : 0 <= unitsConsumed (vars s) /\ unitsProduced (vars s) <= Z.max 0 total;
  v_mutex : (count p_holds (prods s) + count c_holds (conss s) = if mtx (vars s) then 1 else 0)%nat;
  v_live : numLiveCons (vars s) = Z.of_nat (count c_live (conss s) + consLeft s);
  v_alive : 0 < numCons -> exited s = None -> 0 < numLiveCons (vars s);
  v_done : forall i p, prods s !! i = Some p -> p_done p = true -> total <= unitsProduced (vars s);
  v_wait : CWait ∈ conss s ->
    unitsProduced (vars s) < total \/ exists p, p ∈ prods s /\ p_will_wake p = true;
  v_consume : CConsume ∈ conss s ->
    0 < avail (vars s) \/ total <= unitsConsumed (vars s);
  v_threads : Z.of_nat (length (prods s) + prodsLeft s) = Z.max 0 numProd;
  v_exit : exited s = Some 0 ->
    avail (vars s) = 0 /\ unitsProduced (vars s) = Z.max 0 total /\
    unitsConsumed (vars s) = Z.max 0 total
}.

(** *** Counting threads *)

Section Count.
Context {A : Type} (f : A -> nat).

Lemma count_app l k : count f (l ++ k) = (count f l + count f k)%nat.
Proof. induction l as [|x l IH]; simpl; lia. Qed.

Lemma count_insert l i x y :
  l !! i = Some x -> (count f (<[i := y]> l) + f x = count f l + f y)%nat.
Proof.
  revert i. induction l as [|z l IH]; intros [|i] Hi; simplify_eq/=; [lia|].
  specialize (IH i Hi). lia.
Qed.

Lemma count_elem l i x : l !! i = Some x -> (f x <= count f l)%nat.
Proof.
  revert i. induction l as [|z l IH]; intros [|i] Hi; simplify_eq/=; [lia|].
  specialize (IH i Hi). lia.
Qed.

Lemma count_two l i j x y :
  i <> j -> l !! i = Some x -> l !! j = Some y -> (f x + f y <= count f l)%nat.
Proof.
  revert i j. induction l as [|z l IH]; intros [|i] [|j] Hij Hi Hj; simplify_eq/=.
  - pose proof (count_elem l j y Hj). lia.
  - pose proof (count_elem l i x Hi). lia.
  - assert (i <> j) as Hn by congruence. specialize (IH i j Hn Hi Hj). lia.
Qed.

Lemma count_fmap (g : A -> A) l : (forall x, f (g x) = f x) -> count f (g <$> l) = count f l.
Proof. intros Hg. induction l as [|x l IH]; [done|]. rewrite fmap_cons. simpl. by rewrite IH, Hg. Qed.

Lemma count_pos l : (0 < count f l)%nat -> exists i x, l !! i = Some x /\ (0 < f x)%nat.
Proof.
  induction l as [|x l IH]; simpl; [lia|]. intros H. destruct (decide (0 < f x)%nat) as [Hx|Hx].
  - by exists 0%nat, x.
  - destruct IH as (i & y & Hi & Hy); [lia|]. by exists (S i), y.
Qed.

End Count.

Lemma elem_insert_other {A} (l : list A) i x y z :
  l !! i = Some x -> z ∈ l -> z <> x -> z ∈ <[i := y]> l.
Proof.
  intros Hi [j Hj]%list_elem_of_lookup Hz. apply list_elem_of_lookup. exists j.
  rewrite list_lookup_insert_ne; [done|]. intros ->. congruence.
Qed.

Lemma elem_insert_inv {A} (l : list A) i (y z : A) :
  z ∈ <[i := y]> l -> z <> y -> exists j, j <> i /\ l !! j = Some z.
Proof.
  intros [j Hj]%list_elem_of_lookup Hz. destruct (decide (j = i)) as [->|Hne].
  - rewrite list_lookup_insert_Some in Hj. destruct Hj as [(_ & -> & _)|[? _]]; done.
  - exists j. split; [done|]. by rewrite list_lookup_insert_ne in Hj.
Qed.

(** *** Preservation *)

Section Invariant.
Context (numProd numCons total : Z) (Hnc : 0 <= numCons).
Local Abbreviation pinv := (pc_inv numProd numCons total).

Lemma pc_inv_init : pinv (pc_init numProd numCons total).
Proof.
  split; simpl; try done; try lia; try (intros H; by apply elem_of_nil in H).
Qed.

(** While one thread holds the mutex no consumer is in its critical section. *)
Lemma holder_excludes s i p j c :
  pinv s -> prods s !! i = Some p -> p_holds p = 1%nat -> conss s !! j = Some c -> c_holds c = 0%nat.
Proof.
  intros Hi Hp H1 Hc. pose proof (count_elem p_holds _ _ _ Hp). pose proof (count_elem c_holds _ _ _ Hc).
  pose proof (v_mutex _ _ _ _ Hi). destruct (mtx (vars s)); lia.
Qed.

Lemma pc_inv_producer s i p g' p' b :
  pinv s -> exited s = None -> prods s !! i = Some p -> producer (vars s) p = Some (g', p', b) ->
  pinv (PcState g' (<[i := p']> (prods s)) (if b then wake <$> conss s else conss s)
                (prodsLeft s) (consLeft s) None).
Proof.
  intros Hinv Hex Hp Hs. pose proof (fun j c => holder_excludes s i p j c Hinv Hp) as Hexcl.
  destruct Hinv as [Ht [Hu1 Hu2] [Hr1 Hr2] Hm Hl Ha Hd Hw Hc Hth He].
  pose proof (count_insert p_holds _ _ _ p' Hp) as Hcnt.
  pose proof (count_elem p_holds _ _ _ Hp) as Hle.
  assert (count c_holds (wake <$> conss s) = count c_holds (conss s)) as Hwk1
    by (apply count_fmap; by intros []).
  assert (count c_live (wake <$> conss s) = count c_live (conss s)) as Hwk2
    by (apply count_fmap; by intros []).
  assert (CWait ∉ wake <$> conss s) as Hwk3 by (rewrite list_elem_of_fmap; intros ([] & ? & _); done).
  assert (CConsume ∈ wake <$> conss s -> CConsume ∈ conss s) as Hwk4.
  { rewrite list_elem_of_fmap. intros ([] & ? & ?); done. }
  assert (forall q, q ∈ prods s -> q <> p -> q ∈ <[i := p']> (prods s)) as Hoth
    by (intros q Hq Hne; by eapply elem_insert_other).
  assert (p' ∈ <[i := p']> (prods s)) as Hself.
  { apply list_elem_of_lookup. exists i. apply list_lookup_insert_eq. by eapply lookup_lt_Some. }
  assert (forall j q, <[i := p']> (prods s) !! j = Some q -> q = p' \/ prods s !! j = Some q) as Hinv.
  { intros j q. rewrite list_lookup_insert_Some. intuition. }
  unfold producer in Hs. destruct p; repeat case_match; simplify_eq/=.
  all: split; simpl; rewrite ?length_insert, ?Hwk1, ?Hwk2; try done; try lia; auto.
  all: try (intros j q Hq Hqd; destruct (Hinv j q Hq) as [->|Hq']; simpl in Hqd;
            [|pose proof (Hd _ _ Hq' Hqd); lia]; try discriminate Hqd; try lia;
            pose proof (Hd _ _ Hp) as Hd'; simpl in Hd'; rewrite ?Hqd in Hd';
            specialize (Hd' eq_refl); lia).
  all: try (destruct (mtx (vars s)); simplify_eq; lia).
  all: try (intros Hin; right; eexists; split; [exact Hself|done]).
  all: intros Hin; destruct (Hw Hin) as [?|(q & Hq & Hqw)]; [left; lia|right; exists q].
  all: split; [apply Hoth; [done|by intros ->]|done].
Qed.

Lemma pc_inv_consumer s i c g' c' :
  pinv s -> exited s = None -> conss s !! i = Some c -> consumer (vars s) c = Some (inl (g', c')) ->
  pinv (PcState g' (prods s) (<[i := c']> (conss s)) (prodsLeft s) (consLeft s) None).
Proof.
  intros Hinv Hex Hc Hs.
  destruct Hinv as [Ht [Hu1 Hu2] [Hr1 Hr2] Hm Hl Ha Hd Hw Hcc Hth He].
  pose proof (count_insert c_holds _ _ _ c' Hc) as Hcnt.
  pose proof (count_elem c_holds _ _ _ Hc) as Hle.
  pose proof (count_insert c_live _ _ _ c' Hc) as Hcnt2.
  assert (CWait ∈ <[i := c']> (conss s) -> c' <> CWait -> CWait ∈ conss s) as Hwt.
  { intros Hin Hne. destruct (elem_insert_inv _ _ _ _ Hin) as (j & _ & Hj); [done|].
    by eapply list_elem_of_lookup_2. }
  assert (CConsume ∈ <[i := c']> (conss s) -> c' <> CConsume ->
          CConsume ∈ conss s /\ c_holds c = 0%nat) as Hcs.
  { intros Hin Hne. destruct (elem_insert_inv _ _ _ _ Hin) as (j & Hij & Hj); [done|].
    split; [by eapply list_elem_of_lookup_2|]. pose proof (count_two c_holds _ _ _ _ _ Hij Hj Hc) as H2.
    simpl in H2. destruct (mtx (vars s)); lia. }
  assert (c = CConsume -> 0 < avail (vars s) \/ total <= unitsConsumed (vars s)) as Hme.
  { intros ->. apply Hcc. by eapply list_elem_of_lookup_2. }
  unfold consumer in Hs. destruct c; repeat case_match; simplify_eq/=.
  all: try (specialize (Hme eq_refl)).
  all: rewrite ?andb_true_iff, ?andb_false_iff, ?Z.eqb_eq, ?Z.eqb_neq, ?Z.ltb_lt, ?Z.ltb_ge,
    ?Z.leb_le, ?Z.leb_gt in *.
  all: split; simpl; try done; try lia; auto.
  all: try (destruct (mtx (vars s)); simplify_eq; lia).
  all: intros Hin; destruct (Hcs Hin) as [Hin' Hh]; [done|]; simpl in Hh.
  all: first [discriminate Hh|by apply Hcc].
Qed.

Lemma pc_inv_exit s i c st :
  pinv s -> exited s = None -> conss s !! i = Some c -> consumer (vars s) c = Some (inr st) ->
  pinv (PcState (vars s) (prods s) (conss s) (prodsLeft s) (consLeft s) (Some st)).
Proof.
  intros [Ht Hu Hr Hm Hl Ha Hd Hw Hcc Hth He] Hex Hc Hs.
  assert (st = 0 /\ totalUnits (vars s) <= unitsConsumed (vars s)) as [-> Hdone].
  { clear -Hs. unfold consumer in Hs. destruct c; repeat case_match; simplify_eq/=; by rewrite Z.leb_le in *. }
  split; simpl; try done. intros _. lia.
Qed.

Lemma pc_inv_step s s' : pinv s -> pc_step s s' -> pinv s'.
Proof.
  intros Hinv Hs. destruct Hs;
    [| | |by eapply pc_inv_producer|by eapply pc_inv_consumer|by eapply pc_inv_exit| |].
  all: destruct Hinv as [Ht Hu Hr Hm Hl Ha Hd Hw Hcc Hth He]; split; simpl; try done.
  all: rewrite ?count_app, ?length_app; simpl; try lia; auto.
  all: try (intros Hin; apply elem_of_app in Hin as [Hin|Hin%list_elem_of_singleton]; [auto|done]).
  - intros i p [Hp|[_ Hp]]%lookup_app_Some; [eauto|].
    apply list_lookup_singleton_Some in Hp as [_ <-]. done.
  - intros Hin. destruct (Hw Hin) as [?|(p & Hp & ?)]; [by left|right]. exists p.
    split; [apply elem_of_app; by left|done].
Qed.

Lemma pc_inv_reachable s : pc_reachable numProd numCons total s -> pinv s.
Proof.
  intros Hr. unfold pc_reachable in Hr.
  remember (pc_init numProd numCons total) as s0 eqn:E.
  assert (pinv s0) as Hi by (subst; apply pc_inv_init). clear E.
  induction Hr as [|s1 s2 s3 H12 _ IH]; [done|]. by eapply IH, pc_inv_step.
Qed.

(** ** Properties *)

(** The counters stay consistent under every interleaving: units in stock are
    the units produced less those consumed, never negative, and never more than
    the total are produced; at most one thread is in a critical section; a
    consumer sleeps only while a unit is still to be produced or a broadcast is
    on its way, so no wake-up is lost; and when the process ends successfully,
    every unit has been produced and consumed. *)
Lemma prod_cons_safe s :
  pc_reachable numProd numCons total s ->
  avail (vars s) = unitsProduced (vars s) - unitsConsumed (vars s) /\ 0 <= avail (vars s) /\
  0 <= unitsConsumed (vars s) /\ unitsProduced (vars s) <= Z.max 0 total /\
  (count p_holds (prods s) + count c_holds (conss s) <= 1)%nat /\
  (CWait ∈ conss s ->
     unitsProduced (vars s) < total \/ exists p, p ∈ prods s /\ p_will_wake p = true) /\
  (exited s = Some 0 ->
     unitsProduced (vars s) = Z.max 0 total /\ unitsConsumed (vars s) = Z.max 0 total).
Proof.
  intros Hr. destruct (pc_inv_reachable s Hr) as [Ht Hu Hrg Hm Hl Ha Hd Hw Hcc Hth He].
  split_and!; try lia; [destruct (mtx (vars s)); lia|done|]. intros Hx. destruct (He Hx) as (_ & ? & ?). done.
Qed.

(** The thread that holds the mutex can always go on. *)
Lemma holder_steps s :
  pinv s -> mtx (vars s) = true ->
  Exists (fun p => is_Some (producer (vars s) p)) (prods s) \/
  Exists (fun c => c <> CWait /\ is_Some (consumer (vars s) c)) (conss s).
Proof.
  intros Hinv Hm. pose proof (v_mutex _ _ _ _ Hinv) as Hc. rewrite Hm in Hc.
  destruct (decide (0 < count p_holds (prods s))%nat) as [H|H]; [left|right]; apply Exists_exists.
  - destruct (count_pos _ _ H) as (i & p & Hp & Hh). exists p.
    split; [by eapply list_elem_of_lookup_2|]. destruct p; simpl in Hh; try lia; simpl; [case_match|]; eauto.
  - destruct (count_pos c_holds (conss s)) as (i & c & Hp & Hh); [lia|]. exists c.
    split; [by eapply list_elem_of_lookup_2|].
    destruct c; simpl in Hh; try lia; (split; [done|]); simpl; repeat case_match; eauto.
Qed.

(** The program never deadlocks: with at least one producer and one consumer,
    in every reachable state of a process that has not ended, main has a thread
    to create or some thread can take a step, even if no call fails and no
    sleeping consumer wakes up spuriously.  In particular the last sleeping
    consumers are always woken, and some consumer is left to end the process. *)
Lemma prod_cons_no_deadlock s :
  0 < numProd -> 0 < numCons -> pc_reachable numProd numCons total s -> exited s = None ->
  (0 < prodsLeft s + consLeft s)%nat \/
  Exists (fun p => is_Some (producer (vars s) p)) (prods s) \/
  Exists (fun c => c <> CWait /\ is_Some (consumer (vars s) c)) (conss s).
Proof.
  intros Hnp Hnc' Hr Hex. pose proof (pc_inv_reachable s Hr) as Hinv.
  destruct (decide (0 < prodsLeft s + consLeft s)%nat) as [|Hleft]; [by left|right].
  destruct (mtx (vars s)) eqn:Hm; [by apply holder_steps|].
  destruct (decide (Exists (fun p => is_Some (producer (vars s) p)) (prods s))) as [|Hno]; [by left|right].
  assert (forall p, p ∈ prods s -> p = PEnd) as Hend.
  { intros p Hp. destruct (decide (p = PEnd)) as [|Hne]; [done|]. exfalso. apply Hno.
    apply Exists_exists. exists p. split; [done|].
    destruct p; simpl; rewrite ?Hm; try done; repeat case_match; by eauto. }
  pose proof (v_threads _ _ _ _ Hinv) as Hth. pose proof (v_live _ _ _ _ Hinv) as Hl.
  pose proof (v_alive _ _ _ _ Hinv Hnc' Hex) as Ha.
  destruct (prods s) as [|p0 ps] eqn:Hps; [simpl in Hth; lia|].
  assert (total <= unitsProduced (vars s)) as Htot.
  { apply (v_done _ _ _ _ Hinv 0 p0); [by rewrite Hps|].
    rewrite (Hend p0); [done|by left]. }
  destruct (count_pos c_live (conss s)) as (i & c & Hc & Hlive); [lia|].
  apply Exists_exists. exists c. split; [by eapply list_elem_of_lookup_2|].
  assert (c <> CWait) as Hne.
  { intros ->. destruct (v_wait _ _ _ _ Hinv) as [?|(p & Hp & Hw)];
      [by eapply list_elem_of_lookup_2|lia|]. rewrite Hps in Hp. by rewrite (Hend p Hp) in Hw. }
  split; [done|]. destruct c; simpl; rewrite ?Hm; try done; try (repeat case_match; by eauto).
  simpl in Hlive. lia.
Qed.

(** C9: producers and consumers.  The counters stay consistent under every
    interleaving: units in stock are the units produced less those consumed,
    never negative, and never more than the total are produced; at most one
    thread is in a critical section; a consumer sleeps only while a unit is still
    to be produced or a broadcast is on its way, so no wake-up is lost; when the
    process ends successfully, every unit has been produced and consumed.  With
    at least one producer and one consumer the program never deadlocks: in every
    reachable state of a process that has not ended, main has a thread to create
    or some thread can take a step, even if no call fails and no sleeping consumer
    wakes up spuriously. *)
Theorem prod_cons_correct :
  (forall s,
   pc_reachable numProd numCons total s ->
    avail (vars s) = unitsProduced (vars s) - unitsConsumed (vars s) /\ 0 <= avail (vars s) /\
    0 <= unitsConsumed (vars s) /\ unitsProduced (vars s) <= Z.max 0 total /\
    (count p_holds (prods s) + count c_holds (conss s) <= 1)%nat /\
    (CWait ∈ conss s ->
       unitsProduced (vars s) < total \/ exists p, p ∈ prods s /\ p_will_wake p = true) /\
    (exited s = Some 0 ->
       unitsProduced (vars s) = Z.max 0 total /\ unitsConsumed (vars s) = Z.max 0 total)) /\
  (forall s,
   0 < numProd -> 0 < numCons -> pc_reachable numProd numCons total s -> exited s = None ->
    (0 < prodsLeft s + consLeft s)%nat \/
    Exists (fun p => is_Some (producer (vars s) p)) (prods s) \/
    Exists (fun c => c <> CWait /\ is_Some (consumer (vars s) c)) (conss s)).
Proof. split_and!; [exact prod_cons_safe|exact prod_cons_no_deadlock]. Qed.

End Invariant.

(** ** Witnesses: one producer, one consumer, one unit, run to the end *)

Definition run_producer (i : nat) (s : pc_state) : pc_state :=
  match prods s !! i with
  | Some p => match producer (vars s) p with
              | Some (g', p', b) => PcState g' (<[i := p']> (prods s))
                  (if b then wake <$> conss s else conss s) (prodsLeft s) (consLeft s) (exited s)
              | None => s
              end
  | None => s
  end.

Definition run_consumer (i : nat) (s : pc_state) : pc_state :=
  match conss s !! i with
  | Some c => match consumer (vars s) c with
              | Some (inl (g', c')) => PcState g' (prods s) (<[i := c']> (conss s))
                  (prodsLeft s) (consLeft s) (exited s)
              | Some (inr st) => PcState (vars s) (prods s) (conss s) (prodsLeft s) (consLeft s) (Some st)
              | None => s
              end
  | None => s
  end.

Definition both_created : pc_state := PcState (Globals 0 1 0 0 1 false) [PLock] [CLock] 0 0 None.

Lemma both_created_reachable : pc_reachable 1 1 1 both_created.
Proof.
  eapply rtc_l; [by eapply create_producer|]. eapply rtc_l; [by eapply create_consumer|]. constructor.
Qed.

Lemma run_producer_step i s : exited s = None -> rtc pc_step s (run_producer i s).
Proof.
  intros He. unfold run_producer. destruct (prods s !! i) as [p|] eqn:Hp; [|done].
  destruct (producer (vars s) p) as [[[g' p'] b]|] eqn:Hs; [|done].
  rewrite He. apply rtc_once. by eapply step_producer.
Qed.

Lemma run_consumer_step i s : exited s = None -> rtc pc_step s (run_consumer i s).
Proof.
  intros He. unfold run_consumer. destruct (conss s !! i) as [c|] eqn:Hp; [|done].
  destruct (consumer (vars s) c) as [[[g' c']|st]|] eqn:Hs; [| |done].
  - rewrite He. apply rtc_once. by eapply step_consumer.
  - apply rtc_once. by eapply exit_consumer.
Qed.

(** The consumer goes to sleep first; then the producer makes the unit. *)
Definition asleep : pc_state := Nat.iter 2 (run_consumer 0) both_created.
Definition finished : pc_state := Nat.iter 7 (run_consumer 0) (Nat.iter 8 (run_producer 0) asleep).

Lemma asleep_reachable : pc_reachable 1 1 1 asleep.
Proof.
  unfold pc_reachable. etrans; [apply both_created_reachable|].
  do 2 (etrans; [|by apply run_consumer_step]). constructor.
Qed.

Lemma finished_reachable : pc_reachable 1 1 1 finished.
Proof.
  unfold pc_reachable. etrans; [apply asleep_reachable|]. unfold finished.
  do 7 (etrans; [|by apply run_consumer_step]). do 8 (etrans; [|by apply run_producer_step]). constructor.
Qed.

Lemma prod_cons_correct_witness :
  exited finished = Some 0 /\ unitsConsumed (vars finished) = 1 /\ conss asleep = [CWait] /\
  Exists (fun p => is_Some (producer (vars asleep) p)) (prods asleep).
Proof.
  assert (exited finished = Some 0) as He by (vm_compute; reflexivity).
  destruct (prod_cons_correct 1 1 1 ltac:(lia)) as [Hsafe Hlive].
  destruct (Hsafe finished finished_reachable) as (_ & _ & _ & _ & _ & _ & Hx).
  split; [exact He|]. split; [destruct (Hx He) as [_ ->]; reflexivity|]. split; [reflexivity|].
  destruct (Hlive asleep) as [H|[H|H]]; [lia|lia|apply asleep_reachable|reflexivity|vm_compute in H; lia|exact H|].
  exfalso. apply Exists_exists in H as (c & Hc & Hne & _). apply list_elem_of_singleton in Hc. exact (Hne Hc).
Defined.
