(* ===== verification/SvmsgFile.v ===== *)
(** * svmsg/svmsg_file_server.c and svmsg_file_client.c: a file server on message queues

    A client sends the name of a file and the identifier of its own queue; a child
    of the server answers with the contents in a series of messages, or with a
    failure message.  Loops carry fuel: the number of requests, of blocks, and of
    messages. *)

From S2P Require Import Prelude Sys LibErrors SeqNum StreamIO.

Definition PATHNAME_MAX : nat := 4096.
Definition REQ_MSG_SIZE : Z := 4100.
Definition RESP_MSG_SIZE : Z := 8192.
Definition SERVER_KEY : Z := 0x1aaaaaa1.
Definition IPC_PRIVATE : Z := 0.
Definition IPC_CREAT : Z := 512.
Definition IPC_EXCL : Z := 1024.
Definition QUEUE_PERMS : Z := 400.
Definition SIGCHLD : Z := 17.
Definition WNOHANG : Z := 1.
Definition RESP_MT_FAILURE : Z := 1.
Definition RESP_MT_DATA : Z := 2.
Definition RESP_MT_END : Z := 3.

(** ** Requests *)

Record requestMsg := RequestMsg { clientId : Z; pathname : list ascii }.

(** The mtext of a request: the identifier and the zero-padded pathname. *)
Definition encode_requestMsg (r : requestMsg) : list ascii :=
  put_int (clientId r) ++ take (PATHNAME_MAX - 1) (pathname r)
    ++ replicate (PATHNAME_MAX - length (take (PATHNAME_MAX - 1) (pathname r))) NUL.

Definition decode_requestMsg (d : list ascii) : option requestMsg :=
  match d with
  | b0 :: b1 :: b2 :: b3 :: p =>
      if (length p =? PATHNAME_MAX)%nat
      then Some (RequestMsg (int_of (le32 b0 b1 b2 b3)) (cstring_of p)) else None
  | _ => None
  end.

Section SvmsgFile.
Context {T : ErrText}.

(** ** The server *)

(** The SIGCHLD handler: reap every child that has ended. *)
Fixpoint grimReaper (fuel : nat) : prog unit :=
  match fuel with
  | O => Halt OutOfFuel
  | S fuel' =>
      r <- sys (Waitpid (-1) WNOHANG) ;;
      match r with
      | Ok (pid, _) => if 0 <? pid then grimReaper fuel' else Ret tt
      | Err _ => Ret tt
      end
  end.

Fixpoint sendBlocks (fuel : nat) (qid fd : Z) : prog unit :=
  match fuel with
  | O => Halt OutOfFuel
  | S fuel' =>
      numRead <- sys (Read fd RESP_MSG_SIZE) ;;
      match numRead with
      | Err _ | Ok [] => Ret tt
      | Ok d =>
          r <- sys (Msgsnd qid (Msg RESP_MT_DATA d) 0) ;;
          match r with Err _ => Ret tt | Ok _ => sendBlocks fuel' qid fd end
      end
  end.

Definition serveRequest (fuel : nat) (req : requestMsg) : prog unit :=
  o <- sys (Open (pathname req) O_RDONLY 0) ;;
  match o with
  | Err _ =>
      sys (Msgsnd (clientId req) (Msg RESP_MT_FAILURE ($"Couldn't open" ++ [NUL])) 0) ;;;
      Halt (Exit EXIT_FAILURE)
  | Ok fd =>
      sendBlocks fuel (clientId req) fd ;;;
      sys (Msgsnd (clientId req) (Msg RESP_MT_END []) 0) ;;;
      Ret tt
  end.

Fixpoint serverLoop (n fuel : nat) (serverId : Z) : prog unit :=
  match n with
  | O => Halt OutOfFuel
  | S n' =>
      m <- sys (Msgrcv serverId REQ_MSG_SIZE 0 0) ;;
      match m with
      | Err e => if e =? EINTR then serverLoop n' fuel serverId
                 else errMsg e ($"msgrcv")
      | Ok m =>
          pid <- sys Fork ;;
          match pid with
          | Err e => errMsg e ($"fork")
          | Ok pid =>
              if pid =? 0 then
                match decode_requestMsg (mtext m) with
                | None => Halt (Undefined "the request is shorter than the structure")
                | Some req => serveRequest fuel req ;;; Halt (Exit_ EXIT_SUCCESS)
                end
              else serverLoop n' fuel serverId
          end
      end
  end.

Definition file_server_main (n fuel : nat) : prog unit :=
  q <- sys (Msgget SERVER_KEY (Z.lor (Z.lor IPC_CREAT IPC_EXCL) QUEUE_PERMS)) ;;
  match q with
  | Err e => errExit e ($"msgget")
  | Ok serverId =>
      s <- sys (Sigaction SIGCHLD (Sigact (Handler "grimReaper") [] SA_RESTART)) ;;
      match s with
      | Err e => errExit e ($"sigaction")
      | Ok _ =>
          serverLoop n fuel serverId ;;;
          c <- sys (Msgctl_rmid serverId) ;;
          match c with
          | Err e => errExit e ($"msgctl")
          | Ok _ => Halt (Exit EXIT_SUCCESS)
          end
      end
  end.

(** ** The client *)

Fixpoint receiveMore (fuel : nat) (qid : Z) (resp : msg) (totBytes numMsgs : Z) : prog (Z * Z) :=
  if mtype resp =? RESP_MT_DATA then
    match fuel with
    | O => Halt OutOfFuel
    | S fuel' =>
        r <- sys (Msgrcv qid RESP_MSG_SIZE 0 0) ;;
        match r with
        | Err e => errExit e ($"msgrcv")
        | Ok resp => receiveMore fuel' qid resp (totBytes + strlen (mtext resp)) (numMsgs + 1)
        end
    end
  else Ret (totBytes, numMsgs).

(** Everything after the request has been sent. *)
Definition receiveFile (fuel : nat) (qid : Z) : prog unit :=
  r <- sys (Msgrcv qid RESP_MSG_SIZE 0 0) ;;
  match r with
  | Err e => errExit e ($"msgrcv")
  | Ok resp =>
      if mtype resp =? RESP_MT_FAILURE then
        print Stdout (cstring_of (mtext resp) ++ [NL]) ;;; Halt (Exit EXIT_FAILURE)
      else
        '(totBytes, numMsgs) <- receiveMore fuel qid resp (strlen (mtext resp)) 1 ;;
        print Stdout ($"Received " ++ dec totBytes ++ $" bytes (" ++ dec numMsgs ++ $" messages)" ++ [NL]) ;;;
        Halt (Exit EXIT_SUCCESS)
  end.

Definition file_client_main (fuel : nat) (argv : list (list ascii)) : prog unit :=
  let usage := usageErr (default [] (argv !! 0%nat) ++ $" pathname" ++ [NL]) in
  match argv with
  | [_; path] =>
      if strcmp_eq path ($"--help") then usage
      else if Z.of_nat PATHNAME_MAX - 1 <? strlen path then
        cmdLineErr ($"pathname too long (max: " ++ dec (Z.of_nat PATHNAME_MAX - 1) ++ $" bytes)" ++ [NL])
      else
        s <- sys (Msgget SERVER_KEY 128) ;;
        match s with
        | Err e => errExit e ($"msgget - server message queue")
        | Ok serverId =>
            c <- sys (Msgget IPC_PRIVATE QUEUE_PERMS) ;;
            match c with
            | Err e => errExit e ($"msgget - client message queue")
            | Ok qid =>
                a <- sys (Atexit "removeQueue") ;;
                match a with
                | Err e => errExit e ($"atexit")
                | Ok _ =>
                    m <- sys (Msgsnd serverId (Msg 1 (encode_requestMsg (RequestMsg qid path))) 0) ;;
                    match m with
                    | Err e => errExit e ($"msgsnd")
                    | Ok _ => receiveFile fuel qid
                    end
                end
            end
        end
  | _ => usage
  end.

End SvmsgFile.

(** ** Specifications *)

Lemma request_roundtrip r :
  is_int (clientId r) -> NUL ∉ pathname r -> (length (pathname r) < PATHNAME_MAX)%nat ->
  decode_requestMsg (encode_requestMsg r) = Some r /\
  Z.of_nat (length (encode_requestMsg r)) = REQ_MSG_SIZE.
Proof.
  intros Hi Hn Hl. unfold encode_requestMsg, put_int, put32.
  rewrite take_ge by lia. cbn [app decode_requestMsg].
  rewrite le32_put32 by (apply wrapu_range; lia). rewrite int_of_wrapu by done.
  rewrite length_app, length_replicate, Nat.add_comm, Nat.sub_add by lia. cbn [Nat.eqb length].
  split.
  - rewrite Nat.eqb_refl. destruct (PATHNAME_MAX - length (pathname r))%nat as [|k] eqn:E; [lia|].
    simpl. rewrite cstring_of_app by done. by destruct r.
  - rewrite length_app, length_replicate. unfold REQ_MSG_SIZE, PATHNAME_MAX in *. simpl length. lia.
Qed.

Definition good_block (d : list ascii) : Prop := d <> [] /\ Z.of_nat (length d) <= RESP_MSG_SIZE.

(** The calls that transfer blocks, and how the loop ends: at the end of the file, or with
    a failing read() or msgsnd(). *)
Definition transfer (qid fd : Z) (d : list ascii) : history :=
  [Ev (Read fd RESP_MSG_SIZE) (Ok d); Ev (Msgsnd qid (Msg RESP_MT_DATA d) 0) (Ok tt)].
Definition transfers (qid fd : Z) (blocks : list (list ascii)) : history := concat (map (transfer qid fd) blocks).

Inductive ending := AtEof | ReadFails (e : Z) | SendFails (d : list ascii) (e : Z).
Definition ending_calls (qid fd : Z) (x : ending) : history :=
  match x with
  | AtEof => [Ev (Read fd RESP_MSG_SIZE) (Ok [])]
  | ReadFails e => [Ev (Read fd RESP_MSG_SIZE) (Err e)]
  | SendFails d e => [Ev (Read fd RESP_MSG_SIZE) (Ok d); Ev (Msgsnd qid (Msg RESP_MT_DATA d) 0) (Err e)]
  end.

(** The calls since the start, first to last. *)
Definition blocks_post (qid fd : Z) (fuel : nat) (o : outcome unit) (k : history) : Prop :=
  match o with
  | Done _ => exists blocks x, rev k = transfers qid fd blocks ++ ending_calls qid fd x /\ Forall good_block blocks
  | Stop st => st = OutOfFuel /\ (fuel <= length (input fd k))%nat
  end.

Lemma wp_sendBlocks fuel qid fd h :
  wp posix (sendBlocks fuel qid fd) (since h (blocks_post qid fd fuel)) h.
Proof.
  revert h. induction fuel as [|fuel IH]; intros h; cbn [sendBlocks].
  { apply since_here. simpl. split; [done|lia]. }
  wp_sys r Hr. destruct r as [[|c d]|e].
  - eexists [_]. split; [done|]. by exists [], AtEof.
  - set (blk := c :: d) in *. cbn [err_ok] in Hr. wp_sys x Hx. destruct x as [[]|e].
    + eapply wp_mono; [|apply IH]. intros o h' (k & -> & Hk).
      exists (k ++ rev (transfer qid fd blk)). split; [by rewrite <- app_assoc|]. destruct o as [[]|st]; unfold blocks_post in *.
      * destruct Hk as (blocks & x & Hrev & Hf). exists (blk :: blocks), x. rewrite rev_app_distr, rev_involutive, Hrev. split; [done|].
        constructor; [by split|done].
      * destruct Hk as [-> Hk]. split; [done|]. rewrite input_app. simpl. rewrite Z.eqb_refl, !length_app. unfold blk. simpl. lia.
    + eexists [_; _]. split; [done|]. by exists [], (SendFails blk e).
  - eexists [_]. split; [done|]. by exists [], (ReadFails e).
Qed.

(** The replies to read() are those for a file with the contents [data] that is read from
    its start: the next bytes, and none only at the end. *)
Definition reads_next (fd : Z) (data : list ascii) (h : history) {X} (c : call X) : X -> Prop :=
  match c in call X return X -> Prop with
  | Read fd' _ => fun r =>
      match r with
      | Ok d => fd' = fd -> exists rest, data = input fd h ++ d ++ rest /\ (d = [] -> rest = [])
      | Err _ => True
      end
  | _ => fun _ => True
  end.

Fixpoint reads_file (fd : Z) (data : list ascii) (h : history) : Prop :=
  match h with [] => True | Ev c r :: h' => reads_next fd data h' c r /\ reads_file fd data h' end.

Lemma reads_file_app fd data k h : reads_file fd data (k ++ h) -> reads_file fd data h.
Proof. induction k as [|[X c r] k IH]; [done|]. intros [_ Hk]. by apply IH. Qed.

Lemma reads_file_prefix fd data h : reads_file fd data h -> input fd h `prefix_of` data.
Proof.
  induction h as [|[X c r] h IH]; cbn; [intros _; apply prefix_nil|]. intros [Hc Hh]. specialize (IH Hh).
  destruct c; cbn in *; rewrite ?app_nil_r; try done. destruct r as [d|e]; [|by rewrite app_nil_r].
  destruct (Z.eqb_spec fd0 fd) as [->|_]; [|by rewrite app_nil_r]. destruct (Hc eq_refl) as (rest & -> & _). exists rest. by rewrite <- app_assoc.
Qed.

Lemma input_transfers qid fd blocks : input fd (rev (transfers qid fd blocks)) = concat blocks.
Proof.
  induction blocks as [|d blocks IH]; [done|]. unfold transfers in *. cbn [map concat]. rewrite rev_app_distr, input_app, IH. cbn. by rewrite Z.eqb_refl, app_nil_r.
Qed.

(** The messages that were delivered to a queue, first to last. *)
Definition delivers (qid : Z) (e : event) : list msg :=
  match e with
  | Ev c r => match c in call X return X -> list msg with
              | Msgsnd q m _ => fun r => match r with Ok _ => if q =? qid then [m] else [] | Err _ => [] end
              | _ => fun _ => []
              end r
  end.
Definition delivered (qid : Z) (k : history) : list msg := concat (map (delivers qid) k).

Lemma delivered_transfers qid fd blocks : delivered qid (transfers qid fd blocks) = map (Msg RESP_MT_DATA) blocks.
Proof.
  induction blocks as [|d blocks IH]; [done|]. unfold delivered, transfers in *. cbn [map concat]. rewrite map_app, concat_app, IH. cbn. by rewrite Z.eqb_refl.
Qed.

(** What the client's queue delivers, in the order in which it was sent. *)
Definition taken (qid : Z) {X} (c : call X) : X -> nat :=
  match c in call X return X -> nat with
  | Msgrcv q _ _ _ => fun r => match r with Ok _ => if q =? qid then 1%nat else 0%nat | Err _ => 0%nat end
  | _ => fun _ => 0%nat
  end.

Fixpoint received (qid : Z) (h : history) : nat :=
  match h with [] => 0 | Ev c r :: h' => taken qid c r + received qid h' end.

Definition queue_env (qid : Z) (msgs : list msg) : env := fun h X c =>
  match c in call X return X -> Prop with
  | Msgrcv q _ _ _ => fun r => q = qid -> exists m, r = Ok m /\ msgs !! received qid h = Some m
  | c => fun r => posix h _ c r
  end.

Definition file_msgs (blocks : list (list ascii)) : list msg :=
  map (Msg RESP_MT_DATA) blocks ++ [Msg RESP_MT_END []].

Lemma file_msgs_lookup blocks i :
  (i <= length blocks)%nat ->
  file_msgs blocks !! i = Some (match blocks !! i with Some b => Msg RESP_MT_DATA b
                                | None => Msg RESP_MT_END [] end).
Proof.
  intros Hi. unfold file_msgs. destruct (blocks !! i) as [b|] eqn:Hb.
  - apply lookup_app_l_Some. by rewrite list_lookup_fmap, Hb.
  - apply lookup_ge_None in Hb. rewrite lookup_app_r by (rewrite length_map; lia).
    rewrite length_map. by replace (i - length blocks)%nat with 0%nat by lia.
Qed.

Section Client.
Context {T : ErrText}.

(** Receiving from the message after the [i]-th block on. *)
Lemma wp_receiveMore fuel qid blocks i tot h :
  let resp := match blocks !! i with Some b => Msg RESP_MT_DATA b | None => Msg RESP_MT_END [] end in
  (i <= length blocks)%nat -> (length blocks - i <= fuel)%nat ->
  received qid h = S i -> tot = Z.of_nat (length (concat (take (S i) blocks))) ->
  wp (queue_env qid (file_msgs blocks)) (receiveMore fuel qid resp tot (Z.of_nat (S i)))
    (fun o h' => o = Done (Z.of_nat (length (concat blocks)), Z.of_nat (S (length blocks)))) h.
Proof.
  intros resp. revert i tot h resp. induction fuel as [|fuel IH]; intros i tot h resp Hi Hf Hr Ht;
    subst resp; cbn [receiveMore]; destruct (blocks !! i) as [b|] eqn:Hb; cbn [mtype].
  - apply lookup_lt_Some in Hb. lia.
  - apply lookup_ge_None in Hb. assert (i = length blocks) as -> by lia.
    rewrite take_ge in Ht by lia. by subst.
  - pose proof (lookup_lt_Some _ _ _ Hb). change (RESP_MT_DATA =? RESP_MT_DATA) with true. cbv iota.
    apply wp_sys_bind. intros r Hrp. destruct (Hrp eq_refl) as (m & -> & Hm).
    rewrite Hr, file_msgs_lookup in Hm by lia. injection Hm as <-.
    replace (Z.of_nat (S i) + 1) with (Z.of_nat (S (S i))) by lia.
    apply (IH (S i)); [lia|lia| |].
    + simpl. rewrite Z.eqb_refl. lia.
    + subst tot. unfold strlen. destruct (blocks !! S i) as [b'|] eqn:Hb'; cbn [mtext].
      * rewrite (take_S_r _ _ _ Hb'), concat_app, length_app. simpl. rewrite app_nil_r. lia.
      * apply lookup_ge_None in Hb'. rewrite !take_ge by lia. simpl. lia.
  - apply lookup_ge_None in Hb. assert (i = length blocks) as -> by lia.
    rewrite take_ge in Ht by lia. by subst.
Qed.

(** ** Properties *)

(** What the server does with a request.  If the file cannot be opened, exactly one failure
    message goes to the client's queue and the child exits with a failure; otherwise
    the file is read and sent in messages of at most 8192 bytes, none of them empty, until
    the end of the file or a failing call, and one end message follows; the loop ends within
    as many rounds as bytes were read. *)
Definition serve_post (fuel : nat) (req : requestMsg) (o : outcome unit) (k : history) : Prop :=
  match o with
  | Done _ => exists fd blocks x r,
      rev k = Ev (Open (pathname req) O_RDONLY 0) (Ok fd) :: transfers (clientId req) fd blocks ++ ending_calls (clientId req) fd x ++
                [Ev (Msgsnd (clientId req) (Msg RESP_MT_END []) 0) r] /\
      Forall good_block blocks /\
      (forall data, reads_file fd data k -> match x with AtEof => concat blocks = data | _ => concat blocks `prefix_of` data end) /\
      (r = Ok tt -> delivered (clientId req) (rev k) = file_msgs blocks)
  | Stop OutOfFuel => exists fd, Ev (Open (pathname req) O_RDONLY 0) (Ok fd) ∈ k /\ (fuel <= length (input fd k))%nat
  | Stop st => st = Exit EXIT_FAILURE /\ exists e r,
      rev k = [Ev (Open (pathname req) O_RDONLY 0) (Err e); Ev (Msgsnd (clientId req) (Msg RESP_MT_FAILURE ($"Couldn't open" ++ [NUL])) 0) r]
  end.

(** The blocks are the file, or its beginning. *)
Lemma transferred_file qid fd blocks x k data :
  reads_file fd data (rev (ending_calls qid fd x) ++ rev (transfers qid fd blocks) ++ k) -> input fd k = [] ->
  match x with AtEof => concat blocks = data | _ => concat blocks `prefix_of` data end.
Proof.
  intros Hr Hk. assert (input fd (rev (transfers qid fd blocks) ++ k) = concat blocks) as Hi by (by rewrite input_app, Hk, input_transfers).
  assert (concat blocks `prefix_of` data) as Hp by (rewrite <- Hi; by eapply reads_file_prefix, reads_file_app). destruct x; try done.
  destruct Hr as [Hr _]. destruct (Hr eq_refl) as (rest & Hd & Hrest). rewrite (Hrest eq_refl) in Hd.
  change (data = input fd (rev (transfers qid fd blocks) ++ k) ++ [] ++ []) in Hd. by rewrite Hi, !app_nil_r in Hd.
Qed.

Lemma delivered_file qid path fd blocks x r :
  delivered qid (Ev (Open path O_RDONLY 0) (Ok fd) :: transfers qid fd blocks ++ ending_calls qid fd x ++ [Ev (Msgsnd qid (Msg RESP_MT_END []) 0) r]) =
  map (Msg RESP_MT_DATA) blocks ++ match r with Ok _ => [Msg RESP_MT_END []] | Err _ => [] end.
Proof.
  unfold delivered. cbn [map concat delivers app]. rewrite !map_app, !concat_app. change (concat (map (delivers qid) (transfers qid fd blocks))) with (delivered qid (transfers qid fd blocks)).
  rewrite delivered_transfers. f_equal. destruct x, r; cbn; by rewrite ?Z.eqb_refl.
Qed.

Lemma serveRequest_sends fuel req h : wp posix (serveRequest fuel req) (since h (serve_post fuel req)) h.
Proof.
  unfold serveRequest. wp_sys r Hr. destruct r as [fd|e].
  2:{ wp_sys x Hx. eexists [_; _]. split; [done|]. split; [done|]. by exists e, x. }
  eapply wp_call; [apply wp_sendBlocks| |].
  - intros [] h' (k & -> & blocks & x & Hk & Hf). wp_sys r Hx. apply (f_equal (@rev _)) in Hk. rewrite rev_involutive, rev_app_distr in Hk. subst k.
    eexists (_ :: (rev (ending_calls _ _ x) ++ rev (transfers _ _ blocks)) ++ [_]). split; [cbn [app]; f_equal; by rewrite <- (app_assoc (_ ++ _))|].
    exists fd, blocks, x, r. assert (forall a b (c d : history), rev (a :: (rev c ++ rev d) ++ [b]) = b :: d ++ c ++ [a]) as Hrev.
    { intros a b c d. cbn [rev]. rewrite !rev_app_distr, !rev_involutive. cbn. by rewrite <- app_assoc. }
    rewrite Hrev. split_and!; [done|done| |].
    + intros data [_ Hd]. rewrite <- app_assoc in Hd. by eapply transferred_file.
    + intros ->. by rewrite delivered_file.
  - intros st h' (k & -> & -> & Hk). exists (k ++ [Ev (Open (pathname req) O_RDONLY 0) (Ok fd)]).
    split; [by rewrite <- app_assoc|]. exists fd. rewrite input_app. split; [|done]. apply elem_of_app. right. by left.
Qed.

(** The client counts the file.  If its queue delivers the messages that the
    server sends for a file that was read in the given blocks, the client reports
    the number of bytes of the file and of the messages, the end message
    included, and exits successfully. *)
Lemma receiveFile_counts fuel qid blocks h :
  received qid h = 0%nat -> (length blocks <= fuel)%nat ->
  wp (queue_env qid (file_msgs blocks)) (receiveFile fuel qid) (fun o h' =>
    o = Stop (Exit EXIT_SUCCESS) /\ exists h'', h' = Ev (Out Stdout
      ($"Received " ++ dec (Z.of_nat (length (concat blocks))) ++ $" bytes ("
       ++ dec (Z.of_nat (S (length blocks))) ++ $" messages)" ++ [NL])) tt :: h'') h.
Proof.
  intros Hr Hf. unfold receiveFile. apply wp_sys_bind. intros r Hrp.
  destruct (Hrp eq_refl) as (m & -> & Hm). rewrite Hr, file_msgs_lookup in Hm by lia. injection Hm as <-.
  assert (mtype (match blocks !! 0%nat with Some b => Msg RESP_MT_DATA b
                 | None => Msg RESP_MT_END [] end) =? RESP_MT_FAILURE = false) as Hmt
    by (by destruct (blocks !! 0%nat)).
  rewrite Hmt. eapply wp_call; [apply (wp_receiveMore fuel qid blocks 0)| |].
  - lia.
  - lia.
  - simpl. rewrite Z.eqb_refl. lia.
  - unfold strlen. destruct blocks as [|b blocks]; simpl; [done|]. 
    by rewrite app_nil_r.
  - intros [t n] h' [= -> ->]. cbn. intros [] _. split; [done|]. by eexists.
  - by intros st h' Hd.
Qed.


End Client.

