(* ===== verification/Setenv.v ===== *)
(** * proc/setenv.c: setenv() and unsetenv() on the environ array

    [environ] is an array of pointers to strings that ends with a null pointer
    ([None]); what lies behind the null pointer is part of the array but not of
    the environment.  The functions are given the array and return the new one;
    [None] as a whole stands for an access outside the array.  getenv() and
    putenv() are modelled as the C library documents them. *)

From S2P Require Import Prelude Sys.

Abbreviation environ := (list (option (list ascii))).

(** ** The array operations *)

(** Is [e] an entry for [name]? *)
Definition entry_for (name e : list ascii) : bool :=
  strncmp_eq e name (length name) && Ascii.eqb (char_at e (length name)) "=".
Arguments entry_for : simpl never.

(** [for (sp = ep; *sp != NULL; sp++) *sp = *(sp + 1);] *)
Fixpoint shiftBack (fuel : nat) (a : environ) (sp : nat) : option environ :=
  match a !! sp with
  | None => None
  | Some None => Some a
  | Some (Some _) =>
      match fuel, a !! S sp with
      | S fuel', Some next => shiftBack fuel' (<[sp := next]> a) (S sp)
      | _, _ => None
      end
  end.

Fixpoint unsetLoop (fuel : nat) (a : environ) (name : list ascii) (ep : nat) : option environ :=
  match a !! ep with
  | None => None
  | Some None => Some a
  | Some (Some e) =>
      match fuel with
      | O => None
      | S fuel' =>
          if entry_for name e
          then match shiftBack (length a) a ep with
               | Some a' => unsetLoop fuel' a' name ep
               | None => None
               end
          else unsetLoop fuel' a name (S ep)
      end
  end.

Definition bad_name (name : option (list ascii)) : bool :=
  match name with
  | None => true
  | Some n => Ascii.eqb (char_at n 0) NUL || match strchr n "=" with Some _ => true | None => false end
  end.

Definition unsetenv (a : environ) (name : option (list ascii)) : option (environ * res unit) :=
  match name with
  | None => Some (a, Err EINVAL)
  | Some n =>
      if bad_name name then Some (a, Err EINVAL)
      else match unsetLoop (length a) a n 0 with
           | Some a' => Some (a', Ok tt)
           | None => None
           end
  end.

(** ** The environment that an array holds *)

Fixpoint entries (a : environ) : list (list ascii) :=
  match a with Some e :: a' => e :: entries a' | _ => [] end.

(** getenv(): the value in the first entry for the name. *)
Fixpoint env_lookup (l : list (list ascii)) (name : list ascii) : option (list ascii) :=
  match l with
  | [] => None
  | e :: l' => if entry_for name e then Some (drop (S (length name)) e) else env_lookup l' name
  end.

Definition getenv (a : environ) (name : list ascii) : option (list ascii) := env_lookup (entries a) name.

(** putenv(): the first entry for the name is replaced, or the string is added at
    the end, for which the C library may have to allocate a new array. *)
Fixpoint put_entry (l : list (list ascii)) (name es : list ascii) : list (list ascii) :=
  match l with
  | [] => [es]
  | e :: l' => if entry_for name e then es :: l' else e :: put_entry l' name es
  end.

Definition of_entries (l : list (list ascii)) : environ := map Some l ++ [None].

(** [mem] says whether malloc() and putenv() find memory. *)
Definition setenv (a : environ) (name value : option (list ascii)) (overwrite : Z) (mem : bool * bool) :
    option (environ * res unit) :=
  match name, value with
  | Some n, Some v =>
      if bad_name name then Some (a, Err EINVAL)
      else if match getenv a n with Some _ => overwrite =? 0 | None => false end then Some (a, Ok tt)
      else match unsetenv a name with
           | None => None
           | Some (a', _) =>
               if mem.1 then
                 let es := n ++ $"=" ++ v in
                 if mem.2 then Some (of_entries (put_entry (entries a') n es), Ok tt)
                 else Some (a', Err ENOMEM)
               else Some (a', Err ENOMEM)
           end
  | _, _ => Some (a, Err EINVAL)
  end.

(** ** Specifications *)

Lemma lookup_next {A} (pre : list A) x y l : (pre ++ x :: y :: l) !! S (length pre) = Some y.
Proof. rewrite lookup_app_r by lia. by replace (S (length pre) - length pre)%nat with 1%nat by lia. Qed.

Lemma insert_here {A} (pre : list A) x y l : <[length pre := y]> (pre ++ x :: l) = pre ++ y :: l.
Proof. rewrite insert_app_r_alt by lia. by rewrite Nat.sub_diag. Qed.

Lemma shiftBack_spec fuel pre x (l : list (list ascii)) junk :
  (length l < fuel)%nat ->
  shiftBack fuel (pre ++ Some x :: map Some l ++ None :: junk) (length pre) =
  Some (pre ++ map Some l ++ None :: None :: junk).
Proof.
  revert fuel pre x. induction l as [|y l IH]; intros [|fuel] pre x Hf; simpl in Hf; try lia;
    cbn [shiftBack map app]; rewrite list_lookup_middle by done; rewrite lookup_next, insert_here.
  - destruct fuel; cbn [shiftBack]; by rewrite lookup_next.
  - rewrite (cons_middle (Some y) pre). rewrite app_assoc.
    replace (S (length pre)) with (length (pre ++ [Some y])) by (rewrite length_app; simpl; lia).
    rewrite IH by lia. by rewrite <- app_assoc.
Qed.

Definition keep (name e : list ascii) : bool := negb (entry_for name e).

Lemma unsetLoop_spec fuel name (pre l : list (list ascii)) junk :
  (length l <= fuel)%nat ->
  exists junk', unsetLoop fuel (map Some pre ++ map Some l ++ None :: junk) name (length pre) =
    Some (map Some pre ++ map Some (List.filter (keep name) l) ++ None :: junk').
Proof.
  revert fuel pre junk. induction l as [|e l IH]; intros fuel pre junk Hf.
  - exists junk. destruct fuel; simpl; rewrite lookup_app_r by (by rewrite length_map);
      rewrite length_map, Nat.sub_diag; done.
  - destruct fuel as [|fuel]; simpl in Hf; [lia|]. cbn [unsetLoop map app].
    rewrite list_lookup_middle by (by rewrite length_map). cbn [List.filter].
    assert (keep name e = negb (entry_for name e)) as -> by done.
    destruct (entry_for name e); cbn [negb].
    + pose proof (shiftBack_spec (length (map Some pre ++ Some e :: map Some l ++ None :: junk))
        (map Some pre) e l junk) as Hs. rewrite length_map in Hs.
      rewrite Hs by (rewrite !length_app, !length_cons, !length_app, !length_map; lia). apply IH. lia.
    + destruct (IH fuel (pre ++ [e]) junk ltac:(lia)) as [junk' HI]. exists junk'.
      rewrite map_app, <- app_assoc, length_app, Nat.add_1_r in HI. simpl in HI. rewrite HI.
      by rewrite <- app_assoc.
Qed.

(** An array with a null pointer at its end, or before. *)
Definition terminated (a : environ) : Prop := None ∈ a.

Lemma entries_app (l : list (list ascii)) junk : entries (map Some l ++ None :: junk) = l.
Proof. induction l as [|e l IH]; simpl; [done|]. by rewrite IH. Qed.

Lemma terminated_split a : terminated a -> exists junk, a = map Some (entries a) ++ None :: junk.
Proof.
  induction a as [|[e|] a IH]; intros Ha; [by apply elem_of_nil in Ha| |by exists a].
  apply elem_of_cons in Ha as [?|Ha]; [done|]. destruct (IH Ha) as [junk Hj]. exists junk.
  simpl. by rewrite <- Hj.
Qed.

Lemma terminated_app (l : list (list ascii)) junk : terminated (map Some l ++ None :: junk).
Proof. apply elem_of_app. right. by left. Qed.

(** Names of variables: not empty and without an equals sign. *)
Lemma good_name n : bad_name (Some n) = false -> "="%char ∉ n.
Proof.
  unfold bad_name. intros [_ H]%orb_false_iff. apply strchr_None.
  by destruct (strchr n "=").
Qed.

Lemma entry_for_spec n e : entry_for n e = true <-> exists v, e = n ++ "="%char :: v.
Proof.
  unfold entry_for, strncmp_eq, char_at. rewrite andb_true_iff, bool_decide_eq_true, firstn_all.
  split.
  - intros [Ht Hc]. exists (drop (S (length n)) e). rewrite <- (take_drop (length n) e) at 1. rewrite Ht.
    f_equal. destruct (Ascii.eqb_spec (nth (length n) e NUL) "=") as [Hn|]; [|done].
    destruct (drop (length n) e) as [|c d] eqn:Hd.
    + assert (length e <= length n)%nat.
      { pose proof (length_drop e (length n)) as Hl. rewrite Hd in Hl. simpl in Hl. lia. }
      rewrite nth_overflow in Hn by done. done.
    + rewrite <- (take_drop (length n) e), Hd, Ht, app_nth2, Nat.sub_diag in Hn by lia. simpl in Hn. subst c.
      f_equal. rewrite <- Nat.add_1_r, <- drop_drop, Hd. done.
  - intros [v ->]. rewrite take_app_length. split; [done|].
    rewrite app_nth2, Nat.sub_diag by lia. done.
Qed.

(** An entry is for one name only. *)
Lemma entry_for_unique n m e :
  "="%char ∉ n -> "="%char ∉ m -> entry_for n e = true -> entry_for m e = true -> n = m.
Proof.
  intros Hn Hm [v ->]%entry_for_spec [w He]%entry_for_spec.
  pose proof (strchr_app n v _ Hn) as H1. rewrite He, strchr_app in H1 by done. congruence.
Qed.

Lemma lookup_filter n m l :
  "="%char ∉ n -> "="%char ∉ m ->
  env_lookup (List.filter (keep n) l) m = if decide (m = n) then None else env_lookup l m.
Proof.
  intros Hn Hm. induction l as [|e l IH]; simpl; [by case_decide|].
  assert (keep n e = negb (entry_for n e)) as -> by done.
  destruct (entry_for n e) eqn:He; cbn [negb].
  - rewrite IH. case_decide as Hd; [done|]. destruct (entry_for m e) eqn:Hme; [|done].
    destruct Hd. by apply (entry_for_unique m n e).
  - simpl. rewrite IH. destruct (entry_for m e) eqn:Hme; [|done].
    case_decide as Hd; [subst; congruence|done].
Qed.

Lemma put_entry_absent l n es : Forall (fun e => entry_for n e = false) l -> put_entry l n es = l ++ [es].
Proof. induction 1 as [|e l He _ IH]; simpl; [done|]. by rewrite He, IH. Qed.

Lemma filter_keep_absent n l : Forall (fun e => entry_for n e = false) (List.filter (keep n) l).
Proof.
  induction l as [|e l IH]; simpl; [constructor|]. destruct (keep n e) eqn:He; [|done].
  constructor; [|done]. unfold keep in He. by destruct (entry_for n e).
Qed.

Lemma env_lookup_snoc l n v m :
  "="%char ∉ n -> "="%char ∉ m ->
  env_lookup (l ++ [n ++ $"=" ++ v]) m =
  match env_lookup l m with Some w => Some w | None => if decide (m = n) then Some v else None end.
Proof.
  intros Hn Hm. induction l as [|e l IH]; simpl.
  - assert (entry_for n (n ++ "="%char :: v) = true) as Hself by (apply entry_for_spec; by exists v).
    case_decide as Hd.
    + subst m. rewrite Hself. f_equal. rewrite drop_app_ge by lia.
      replace (S (length n) - length n)%nat with 1%nat by lia. done.
    + destruct (entry_for m _) eqn:He; [|done]. destruct Hd. by eapply entry_for_unique.
  - destruct (entry_for m e); [done|apply IH].
Qed.

(** ** Properties *)

(** [unsetenv], which removes entries by shifting the pointers behind them
    while it walks through the array, is the removal of all entries for the name:
    it never leaves the array, keeps all other entries in order, and afterwards
    the name has no value and every other name the value it had; an empty name or
    one with an equals sign is refused with EINVAL. *)
Lemma unsetenv_correct a n :
  terminated a ->
  if bad_name (Some n) then unsetenv a (Some n) = Some (a, Err EINVAL)
  else exists a', unsetenv a (Some n) = Some (a', Ok tt) /\ terminated a' /\
    entries a' = List.filter (keep n) (entries a) /\
    (forall m, bad_name (Some m) = false ->
       getenv a' m = if decide (m = n) then None else getenv a m).
Proof.
  intros Ha. unfold unsetenv. destruct (bad_name (Some n)) eqn:Hb; [done|].
  destruct (terminated_split a Ha) as [junk Hj].
  destruct (unsetLoop_spec (length a) n [] (entries a) junk) as [junk' Hu].
  { rewrite Hj at 2. rewrite length_app, length_map. lia. }
  simpl in Hu. rewrite <- Hj in Hu. rewrite Hu. eexists. split; [done|].
  split; [apply terminated_app|]. rewrite entries_app. split; [done|].
  intros m Hm. unfold getenv. rewrite entries_app. apply lookup_filter; by apply good_name.
Qed.

(** [setenv] behaves as an update of the map from names to values.  With a
    good name, and if memory is available, the name then has the given value
    (unless it was set and [overwrite] is 0, when nothing changes), there is one
    entry for it, and every other name keeps its value; a null or bad name or a
    null value is refused with EINVAL. *)
Lemma setenv_correct a n v overwrite :
  terminated a -> bad_name (Some n) = false ->
  exists a', setenv a (Some n) (Some v) overwrite (true, true) = Some (a', Ok tt) /\ terminated a' /\
    (forall m, bad_name (Some m) = false ->
       getenv a' m = if decide (m = n)
                     then match getenv a n with
                          | Some w => if overwrite =? 0 then Some w else Some v
                          | None => Some v
                          end
                     else getenv a m) /\
    (getenv a n = None \/ overwrite <> 0 ->
       entries a' = List.filter (keep n) (entries a) ++ [n ++ $"=" ++ v]).
Proof.
  intros Ha Hb. unfold setenv, unsetenv. rewrite Hb.
  destruct (match getenv a n with Some _ => overwrite =? 0 | None => false end) eqn:Hskip.
  - exists a. destruct (getenv a n) as [w|] eqn:Hg; [|done]. rewrite Hskip. split_and!; [done..| |].
    + intros m Hm. case_decide as Hd; [by subst|done].
    + intros [?|?]; [done|]. apply Z.eqb_eq in Hskip. lia.
  - destruct (terminated_split a Ha) as [junk Hj].
    destruct (unsetLoop_spec (length a) n [] (entries a) junk) as [junk' Hu].
    { rewrite Hj at 2. rewrite length_app, length_map. lia. }
    simpl in Hu. rewrite <- Hj in Hu. rewrite Hu. cbn [fst snd]. rewrite entries_app.
    rewrite put_entry_absent by apply filter_keep_absent.
    eexists. split; [done|]. split; [apply terminated_app|]. split.
    + intros m Hm. unfold getenv, of_entries. rewrite entries_app.
      rewrite env_lookup_snoc, lookup_filter by (by apply good_name).
      case_decide as Hd; [|by destruct (env_lookup (entries a) m)].
      unfold getenv in Hskip. destruct (env_lookup (entries a) n); [by rewrite Hskip|done].
    + intros _. apply entries_app.
Qed.

(** C40: The environment as a map.  [unsetenv], which removes entries by shifting the
    pointers behind them while it walks through the array, removes all entries
    for the name, never leaves the array, keeps the others in order and keeps
    their values; [setenv] sets the name to the value (unless it was set and
    [overwrite] is 0), leaves one entry for it and keeps every other name; bad
    names are refused with EINVAL. *)
Theorem environment_updates :
  (forall a n,
   terminated a ->
    if bad_name (Some n) then unsetenv a (Some n) = Some (a, Err EINVAL)
    else exists a', unsetenv a (Some n) = Some (a', Ok tt) /\ terminated a' /\
      entries a' = List.filter (keep n) (entries a) /\
      (forall m, bad_name (Some m) = false ->
         getenv a' m = if decide (m = n) then None else getenv a m)) /\
  (forall a n v overwrite,
   terminated a -> bad_name (Some n) = false ->
    exists a', setenv a (Some n) (Some v) overwrite (true, true) = Some (a', Ok tt) /\ terminated a' /\
      (forall m, bad_name (Some m) = false ->
         getenv a' m = if decide (m = n)
                       then match getenv a n with
                            | Some w => if overwrite =? 0 then Some w else Some v
                            | None => Some v
                            end
                       else getenv a m) /\
      (getenv a n = None \/ overwrite <> 0 ->
         entries a' = List.filter (keep n) (entries a) ++ [n ++ $"=" ++ v])).
Proof. split_and!; [exact unsetenv_correct|exact setenv_correct]. Qed.

Lemma environment_updates_witness :
  (exists a', unsetenv [Some ($"A=1"); Some ($"B=2"); Some ($"A=3"); None] (Some ($"A")) = Some (a', Ok tt) /\
    entries a' = [$"B=2"]) /\
  (exists a', setenv [Some ($"A=1"); Some ($"B=2"); None] (Some ($"A")) (Some ($"7")) 1 (true, true) =
    Some (a', Ok tt) /\ getenv a' ($"A") = Some ($"7")).
Proof.
  destruct environment_updates as [Hunset Hset]. split.
  - assert (terminated [Some ($"A=1"); Some ($"B=2"); Some ($"A=3"); None]) as Ht
      by (unfold terminated; set_solver).
    pose proof (Hunset _ ($"A") Ht) as H. simpl in H.
    destruct H as (a' & Hu & _ & He & _). exists a'. split; [exact Hu|]. rewrite He. reflexivity.
  - assert (terminated [Some ($"A=1"); Some ($"B=2"); None]) as Ht by (unfold terminated; set_solver).
    destruct (Hset _ ($"A") ($"7") 1 Ht eq_refl) as (a' & Hs & _ & Hg & _).
    exists a'. split; [exact Hs|]. rewrite (Hg ($"A") eq_refl). reflexivity.
Defined.

