(* ===== verification/FileLock.v ===== *)
(** * filelock/region_locking.c and create_pid_file.c: record locks and PID files *)

From S2P Require Import Prelude Sys LibErrors StreamIO.

Definition F_RDLCK : Z := 0.
Definition F_WRLCK : Z := 1.
Definition F_UNLCK : Z := 2.
Definition F_GETLK : Z := 5.
Definition F_SETLK : Z := 6.
Definition F_SETLKW : Z := 7.
Definition SEEK_SET : Z := 0.
Definition FD_CLOEXEC : Z := 1.
Definition CPF_CLOEXEC : Z := 1.
Definition PID_BUF_SIZE : nat := 100.
Definition O_RDWR_CREAT : Z := Z.lor 2 64.

(** ** region_locking.c

    [l_pid] of the structure that is passed is not set by the functions; the
    kernel ignores it, and 0 stands for it. *)

Definition lockReg (fd cmd type whence start len : Z) : prog (res unit) :=
  r <- sys (Fcntl_lock fd cmd (Flock type whence start len 0)) ;;
  Ret (match r with Ok _ => Ok tt | Err e => Err e end).

Definition lockRegion (fd type whence start len : Z) : prog (res unit) :=
  lockReg fd F_SETLK type whence start len.

Definition lockRegionWait (fd type whence start len : Z) : prog (res unit) :=
  lockReg fd F_SETLKW type whence start len.

Definition regionIsLocked (fd type whence start len : Z) : prog Z :=
  r <- sys (Fcntl_lock fd F_GETLK (Flock type whence start len 0)) ;;
  Ret (match r with
       | Err _ => -1
       | Ok fl => if l_type fl =? F_UNLCK then 0 else l_pid fl
       end).

(** ** create_pid_file.c *)

Section PidFile.
Context {T : ErrText}.

Definition setCloexec (fd : Z) (pidFile : list ascii) : prog unit :=
  f <- sys (Fcntl_getfd fd) ;;
  match f with
  | Err e => errExit e ($"Could not get flags for PID file " ++ pidFile)
  | Ok flags =>
      s <- sys (Fcntl_setfd fd (Z.lor flags FD_CLOEXEC)) ;;
      match s with
      | Err e => errExit e ($"Could not set flags for PID file " ++ pidFile)
      | Ok _ => Ret tt
      end
  end.

Definition createPidFile (progName pidFile : list ascii) (flags : Z) : prog Z :=
  o <- sys (Open pidFile O_RDWR_CREAT 384) ;;
  match o with
  | Err e => errExit e ($"Could not open PID file " ++ pidFile)
  | Ok fd =>
      (if flag flags CPF_CLOEXEC then setCloexec fd pidFile else Ret tt) ;;;
      l <- lockRegion fd F_WRLCK SEEK_SET 0 0 ;;
      match l with
      | Err e =>
          if (e =? EAGAIN) || (e =? EACCES)
          then fatal ($"PID file '" ++ pidFile ++ $"' is locked; probably '" ++ progName
                      ++ $"' is already running")
          else errExit e ($"Unable to lock PID file '" ++ pidFile ++ $"'")
      | Ok _ =>
          t <- sys (Ftruncate fd 0) ;;
          match t with
          | Err e => errExit e ($"Could not truncate PID file '" ++ pidFile ++ $"'")
          | Ok _ =>
              pid <- sys Getpid ;;
              let buf := snprintf PID_BUF_SIZE (dec pid ++ [NL]) in
              w <- sys (Write fd buf) ;;
              if match w with Ok k => k =? strlen buf | Err _ => false end
              then Ret fd
              else fatal ($"Writing to PID file '" ++ pidFile ++ $"'")
          end
      end
  end.

End PidFile.

(** ** Specifications *)

(** What a piece of history did to a file that was opened at its start. *)
Definition modifies (e : event) : bool :=
  match e with
  | Ev c _ => match c with Ftruncate _ _ | Write _ _ => true | _ => false end
  end.

(** The whole file is locked for writing. *)
Definition whole_file : flock := Flock F_WRLCK SEEK_SET 0 0 0.

Definition locks (fd : Z) (e : event) : Prop :=
  exists fl, e = Ev (Fcntl_lock fd F_SETLK whole_file) (Ok fl).

(** The contents that a truncation and the writes after it leave. *)
Definition write_effect (fd : Z) {X} (c : call X) : X -> option (list ascii) -> option (list ascii) :=
  match c in call X return X -> option (list ascii) -> option (list ascii) with
  | Ftruncate fd' n => fun r old =>
      match r with Ok _ => if (fd' =? fd) && (n =? 0) then Some [] else old | Err _ => old end
  | Write fd' d => fun r old =>
      match r with Ok k => if fd' =? fd then option_map (fun s => s ++ take (Z.to_nat k) d) old else old
      | Err _ => old end
  | _ => fun _ old => old
  end.

Fixpoint contents (fd : Z) (k : history) : option (list ascii) :=
  match k with [] => None | Ev c r :: k' => write_effect fd c r (contents fd k') end.

(** Modifications only after the lock. *)
Fixpoint lock_first (fd : Z) (k : history) : Prop :=
  match k with
  | [] => True
  | e :: k' => lock_first fd k' /\ (modifies e = true -> exists e', e' ∈ k' /\ locks fd e')
  end.

Lemma lock_first_mono fd k k' :
  lock_first fd k' -> Forall (fun e => modifies e = false) k -> lock_first fd (k ++ k').
Proof.
  intros Hk'. induction 1 as [|e k He _ IH]; simpl; [done|]. split; [done|]. by rewrite He.
Qed.

Section PidFileSpecs.
Context {T : ErrText}.

(** Reporting an error and terminating modifies nothing. *)
Definition ends_quietly {A} (p : prog A) : Prop :=
  forall h, wp posix p (since h (fun o k => stops_failing o /\ Forall (fun e => modifies e = false) k)) h.

Lemma report_quiet {A} useErr err fl msg (useExit3 : bool) :
  useExit3 = true ->
  ends_quietly (A := A) (outputError useErr err fl msg ;;; terminate useExit3).
Proof.
  intros -> h. apply wp_bind, wp_outputError, wp_terminate. intros s.
  eexists (Ev (Getenv ($"EF_DUMPCORE")) s :: report useErr err fl msg). split; [done|].
  split; [unfold stops_failing; destruct (dumps_core s); auto|].
  constructor; [done|]. unfold report. destruct fl; repeat constructor.
Qed.

Lemma errExit_quiet {A} err msg : ends_quietly (A := A) (errExit err msg).
Proof. by apply report_quiet. Qed.

Lemma fatal_quiet {A} msg : ends_quietly (A := A) (fatal msg).
Proof. by apply report_quiet. Qed.

(** Before any modification the descriptor of the PID file was locked. *)
Definition careful (pidFile : list ascii) (k : history) : Prop :=
  Forall (fun e => modifies e = false) k \/
  exists fd, Ev (Open pidFile O_RDWR_CREAT 384) (Ok fd) ∈ k /\ lock_first fd k.

Definition pid_post (pidFile : list ascii) (flags : Z) (o : outcome Z) (k : history) : Prop :=
  match o with
  | Done fd =>
      Ev (Open pidFile O_RDWR_CREAT 384) (Ok fd) ∈ k /\ lock_first fd k /\
      (exists e, e ∈ k /\ locks fd e) /\
      (exists pid, Ev Getpid pid ∈ k /\ contents fd k = Some (dec pid ++ [NL])) /\
      (flag flags CPF_CLOEXEC = true ->
         exists old, Ev (Fcntl_setfd fd (Z.lor old FD_CLOEXEC)) (Ok tt) ∈ k)
  | Stop st => stops_failing o /\ careful pidFile k
  end.

Lemma wp_end pidFile flags (p : prog Z) k h :
  ends_quietly p -> careful pidFile k ->
  wp posix p (since h (pid_post pidFile flags)) (k ++ h).
Proof.
  intros Hp Hk. eapply wp_mono; [|apply Hp]. intros o h' (k' & -> & Hs & Hq).
  exists (k' ++ k). split; [by rewrite app_assoc|].
  assert (careful pidFile (k' ++ k)) as Hc.
  { destruct Hk as [Hk|(fd & Ho & Hl)]; [left; by apply Forall_app|right].
    exists fd. split; [apply elem_of_app; by right|by apply lock_first_mono]. }
  destruct o as [a|st]; [by destruct Hs as [|[|]]|by split].
Qed.

Lemma ends_quietly_bind {A B} (p : prog A) (f : A -> prog B) : ends_quietly p -> ends_quietly (bind p f).
Proof.
  intros Hp h. eapply wp_call; [apply Hp| |].
  - intros a h' (k & _ & [|[|]] & _); done.
  - intros s h' (k & -> & Hs & Hq). exists k. split; [done|]. split; [|done].
    destruct Hs as [[= ->]|[[= ->]|[= ->]]]; unfold stops_failing; auto.
Qed.

Definition no_change (k : history) : Prop := Forall (fun e => modifies e = false) k.

(** From the lock on: [k] is what happened since the file was opened. *)
Lemma wp_write_pid pidFile progName flags fd k h :
  no_change k -> Ev (Open pidFile O_RDWR_CREAT 384) (Ok fd) ∈ k ->
  (flag flags CPF_CLOEXEC = true -> exists old, Ev (Fcntl_setfd fd (Z.lor old FD_CLOEXEC)) (Ok tt) ∈ k) ->
  wp posix
    (l <- lockRegion fd F_WRLCK SEEK_SET 0 0 ;;
     match l with
     | Err e =>
         if (e =? EAGAIN) || (e =? EACCES)
         then fatal ($"PID file '" ++ pidFile ++ $"' is locked; probably '" ++ progName
                     ++ $"' is already running")
         else errExit e ($"Unable to lock PID file '" ++ pidFile ++ $"'")
     | Ok _ =>
         t <- sys (Ftruncate fd 0) ;;
         match t with
         | Err e => errExit e ($"Could not truncate PID file '" ++ pidFile ++ $"'")
         | Ok _ =>
             pid <- sys Getpid ;;
             let buf := snprintf PID_BUF_SIZE (dec pid ++ [NL]) in
             w <- sys (Write fd buf) ;;
             if match w with Ok k => k =? strlen buf | Err _ => false end
             then Ret fd
             else fatal ($"Writing to PID file '" ++ pidFile ++ $"'")
         end
     end)
    (since h (pid_post pidFile flags)) (k ++ h).
Proof.
  intros Hk Ho Hfl.
  assert (forall k', no_change k' -> lock_first fd k') as Hlf.
  { intros k' Hk'. rewrite <- (app_nil_r k'). by apply lock_first_mono. }
  apply wp_sys_bind. intros l _. destruct l as [fl|e].
  2:{ cbn [bind]. set (el := Ev _ _). change (el :: k ++ h) with ((el :: k) ++ h).
      assert (careful pidFile (el :: k)) by (left; by constructor).
      destruct ((e =? EAGAIN) || (e =? EACCES));
        (apply wp_end; [|done]); [apply fatal_quiet|apply errExit_quiet]. }
  cbn [bind]. set (el := Ev (Fcntl_lock _ _ _) _).
  assert (locks fd el) as Hel by (by exists fl).
  apply wp_sys_bind. intros t _. set (et := Ev (Ftruncate fd 0) t).
  assert (lock_first fd (et :: el :: k)) as Hlt.
  { split; [apply Hlf; by constructor|]. intros _. exists el. split; [by left|done]. }
  assert (forall k', Ev (Open pidFile O_RDWR_CREAT 384) (Ok fd) ∈ k' ++ et :: el :: k) as Hop.
  { intros k'. apply elem_of_app. right. by do 2 right. }
  destruct t as [[]|e].
  2:{ change (et :: el :: k ++ h) with ((et :: el :: k) ++ h). apply wp_end; [apply errExit_quiet|].
      right. exists fd. split; [apply (Hop [])|done]. }
  apply wp_sys_bind. intros pid Hpid. apply wp_sys_bind. intros w Hw.
  assert (snprintf PID_BUF_SIZE (dec pid ++ [NL]) = dec pid ++ [NL]) as Hbuf.
  { unfold snprintf, PID_BUF_SIZE. rewrite take_ge; [done|]. rewrite length_app.
    assert (is_int pid) as Hi by (unfold is_int; simpl in Hpid; unfold INT_MIN, INT_MAX in *; lia).
    pose proof (length_dec_int pid Hi). simpl. lia. }
  rewrite Hbuf. set (ew := Ev (Write _ _) w).
  change (ew :: Ev Getpid pid :: et :: el :: k ++ h) with ((ew :: Ev Getpid pid :: et :: el :: k) ++ h).
  assert (lock_first fd (ew :: Ev Getpid pid :: et :: el :: k)) as Hlw.
  { split; [split; [done|done]|]. intros _. exists el. split; [by do 2 right; left|done]. }
  destruct (match w with Ok k => _ | Err _ => _ end) eqn:Hfull.
  - destruct w as [n|e]; [|done]. apply Z.eqb_eq in Hfull. subst n.
    eexists. split; [done|]. split_and!; [apply (Hop [ew; _])|done| | |].
    + exists el. split; [by do 3 right; left|done].
    + exists pid. split; [by right; left|]. simpl. rewrite !Z.eqb_refl. simpl. unfold strlen.
      rewrite Nat2Z.id, take_ge by lia. done.
    + intros Hf. destruct (Hfl Hf) as [old Hin]. exists old. by do 4 right.
  - apply wp_end; [apply fatal_quiet|]. right. exists fd. split; [apply (Hop [ew; _])|done].
Qed.

(** ** Properties *)

(** A PID file keeps a second instance out.  [createPidFile] truncates and
    writes the file only after the whole file was locked for writing, so an
    instance that does not get the lock ends without touching it; and it returns
    only with the descriptor of a file that is locked, holds exactly its process
    identifier and a newline, and is marked close-on-exec if that was asked for.
    In every other case the process ends with a failure. *)
Lemma createPidFile_exclusive progName pidFile flags h :
  wp posix (createPidFile progName pidFile flags) (since h (pid_post pidFile flags)) h.
Proof.
  unfold createPidFile. apply wp_sys_bind. intros o _. destruct o as [fd|e].
  2:{ apply (wp_end _ _ _ [_]); [apply errExit_quiet|]. left. by repeat constructor. }
  set (eo := Ev (Open _ _ _) _). destruct (flag flags CPF_CLOEXEC) eqn:Hf.
  2:{ apply (wp_write_pid _ _ _ _ [eo]); [by repeat constructor|by left|congruence]. }
  unfold setCloexec. apply wp_sys_bind. intros f _. destruct f as [old|e].
  2:{ apply (wp_end _ _ _ [_; eo]); [apply ends_quietly_bind, errExit_quiet|]. left. by repeat constructor. }
  apply wp_sys_bind. intros s _. destruct s as [[]|e].
  - apply (wp_write_pid _ _ _ _ [_; _; eo]); [by repeat constructor|by do 2 right; left|].
    intros _. exists old. by left.
  - apply (wp_end _ _ _ [_; _; eo]); [apply ends_quietly_bind, errExit_quiet|]. left. by repeat constructor.
Qed.

End PidFileSpecs.
