(* ===== verification/Itimerspec.v ===== *)
(** * timers/itimerspec_from_str.c: timer settings from a string

    [str] is the contents of the C string.  The function works on a duplicate
    that it cuts at the separators by storing null bytes; [strchr] yields the
    text before and after the separator, which are the two C strings that the
    store leaves.  [strdup] is assumed to succeed: the source does not test its
    result. *)

From S2P Require Import Prelude.

Record timespec := Timespec { tv_sec : Z; tv_nsec : Z }.
Record itimerspec := Itimerspec { it_value : timespec; it_interval : timespec }.

(** Seconds and nanoseconds of the C string [s]: the two pairs of assignments
    of the function, which differ in the string only. *)
Definition timespec_of (s : list ascii) : timespec :=
  match strchr s "/" with
  | Some (sec, nsec) => Timespec (atoi sec) (atoi nsec)
  | None => Timespec (atoi s) 0
  end.

Definition itimerspecFromStr (str : list ascii) : itimerspec :=
  match strchr str ":" with
  | None => Itimerspec (timespec_of str) (Timespec 0 0)
  | Some (dupstr, rest) => Itimerspec (timespec_of dupstr) (timespec_of rest)
  end.

(** ** Specification: the notation of the comment above the function

    [value.sec[/value.nanosec][:interval.sec[/interval.nanosec]]]; a bracketed
    part may be left out if it is 0. *)

Inductive part : timespec -> list ascii -> Prop :=
| part_sec sec : is_int sec -> part (Timespec sec 0) (dec sec)
| part_nsec sec nsec : is_int sec -> is_int nsec ->
    part (Timespec sec nsec) (dec sec ++ "/"%char :: dec nsec).

Inductive notation : itimerspec -> list ascii -> Prop :=
| not_value v s : part v s -> notation (Itimerspec v (Timespec 0 0)) s
| not_interval v i s t : part v s -> part i t ->
    notation (Itimerspec v i) (s ++ ":"%char :: t).

Lemma dec_avoids z c : isdigit c = false -> c <> "-"%char -> c ∉ dec z.
Proof. intros Hd Hm Hc. apply elem_of_dec in Hc as [?|?]; congruence. Qed.

Lemma atoi_dec_all z : is_int z -> atoi (dec z) = z.
Proof. intros Hz. rewrite <- (app_nil_r (dec z)). by apply atoi_dec. Qed.

Lemma part_no_colon v s : part v s -> ":"%char ∉ s.
Proof.
  destruct 1; [by apply dec_avoids|]. rewrite not_elem_of_app, not_elem_of_cons.
  split_and!; [by apply dec_avoids|done|by apply dec_avoids].
Qed.

Lemma timespec_of_part v s : part v s -> timespec_of s = v.
Proof.
  unfold timespec_of. destruct 1.
  - rewrite (proj2 (strchr_None _ _)) by (by apply dec_avoids). by rewrite atoi_dec_all.
  - rewrite strchr_app by (by apply dec_avoids). by rewrite !atoi_dec_all.
Qed.

(** ** Property *)

(** [itimerspecFromStr] reads the documented notation.  For every setting
    whose four numbers are ints, each way of writing it that the comment above
    the function allows (nanoseconds left out when they are 0, the interval left
    out when it is 0) is read back as that setting. *)
Theorem itimerspecFromStr_roundtrip ts s : notation ts s -> itimerspecFromStr s = ts.
Proof.
  unfold itimerspecFromStr. destruct 1 as [v s Hs|v i s t Hs Ht].
  - rewrite (proj2 (strchr_None _ _)) by (by eapply part_no_colon). by rewrite (timespec_of_part v).
  - rewrite strchr_app by (by eapply part_no_colon).
    by rewrite (timespec_of_part v), (timespec_of_part i).
Qed.

Lemma itimerspecFromStr_roundtrip_witness :
  itimerspecFromStr ($"3:1/500") = Itimerspec (Timespec 3 0) (Timespec 1 500).
Proof.
  apply itimerspecFromStr_roundtrip.
  apply (not_interval (Timespec 3 0) (Timespec 1 500) ($"3") ($"1/500")).
  - apply (part_sec 3). unfold is_int, INT_MIN, INT_MAX. lia.
  - apply (part_nsec 1 500); unfold is_int, INT_MIN, INT_MAX; lia.
Defined.
