(* ===== verification/ProcExec.v ===== *)
(** * procexec/system.c and execlp.c: running commands

    [system] is an implementation of system(3), [execlp] one of execlp(3) on
    top of execve().  A successful [fork] is one reply of the kernel: 0 in the
    child, the identifier of the child in the parent, so a theorem about every
    reply is a theorem about both processes.  The results of [strdup] and of the
    [malloc] of a pathname are not tested by the source and are assumed to be
    storage. *)

From S2P Require Import Prelude Sys StreamIO.

Definition SIGINT : Z := 2.
Definition SIGQUIT : Z := 3.
Definition SIGCHLD : Z := 17.
Definition SHELL_PATH : list ascii := $"/bin/sh".

(** ** system.c

    The loop around [waitpid] is bounded by [fuel].  A [sigaction] that fails
    leaves the old disposition indeterminate. *)

Fixpoint waitLoop (fuel : nat) (childPid : Z) : prog Z :=
  match fuel with
  | O => Halt OutOfFuel
  | S fuel =>
      w <- sys (Waitpid childPid 0) ;;
      match w with
      | Ok (_, status) => Ret status
      | Err errno => if negb (errno =? EINTR) then Ret (-1) else waitLoop fuel childPid
      end
  end.

Definition oldAction (r : res sigact) : prog sigact :=
  match r with Ok a => Ret a | Err _ => Halt (Undefined "indeterminate disposition") end.

Definition is_ignored (a : sigact) : bool :=
  match sa_handler a with SIG_IGN => true | _ => false end.

(** The child: [envp] is the environment that execl() passes on. *)
Definition execCommand (command : list ascii) (envp : list (list ascii))
    (saOrigInt saOrigQuit : sigact) (origMask : list Z) : prog Z :=
  let saDefault := Sigact SIG_DFL [] 0 in
  (if negb (is_ignored saOrigInt)
   then sys (Sigaction SIGINT saDefault) ;;; Ret tt else Ret tt) ;;;
  (if negb (is_ignored saOrigQuit)
   then sys (Sigaction SIGQUIT saDefault) ;;; Ret tt else Ret tt) ;;;
  sys (Sigprocmask SIG_SETMASK origMask) ;;;
  execve ($"/bin/sh") [$"sh"; $"-c"; command] envp ;;;
  Halt (Exit_ 127).

(** [system(command)] for a command that is not NULL. *)
Definition systemCommand (fuel : nat) (envp : list (list ascii)) (command : list ascii) : prog Z :=
  origMask <- sys (Sigprocmask SIG_BLOCK [SIGCHLD]) ;;
  let saIgnore := Sigact SIG_IGN [] 0 in
  ri <- sys (Sigaction SIGINT saIgnore) ;;
  saOrigInt <- oldAction ri ;;
  rq <- sys (Sigaction SIGQUIT saIgnore) ;;
  saOrigQuit <- oldAction rq ;;
  childPid <- sys Fork ;;
  status <- match childPid with
            | Err _ => Ret (-1)
            | Ok pid =>
                if pid =? 0
                then execCommand command envp saOrigInt saOrigQuit origMask
                else waitLoop fuel pid
            end ;;
  sys (Sigprocmask SIG_SETMASK origMask) ;;;
  sys (Sigaction SIGINT saOrigInt) ;;;
  sys (Sigaction SIGQUIT saOrigQuit) ;;;
  Ret status.

Definition system (fuel : nat) (envp : list (list ascii)) (command : option (list ascii)) : prog Z :=
  match command with
  | None => status <- systemCommand fuel envp ($":") ;; Ret (if status =? 0 then 1 else 0)
  | Some command => systemCommand fuel envp command
  end.

(** ** execlp.c

    An array of pointers is a list of slots, [None] for NULL; a store outside
    the array is undefined behaviour. *)

Abbreviation ptrs := (list (option (list ascii))).

Definition store (a : ptrs) (i : nat) (p : option (list ascii)) : prog ptrs :=
  if (i <? length a)%nat then Ret (<[i := p]> a) else Halt (Undefined "store outside an array").

(** The strings before the first NULL: what execve() sees of an array. *)
Fixpoint strings (a : ptrs) : list (list ascii) :=
  match a with Some s :: a' => s :: strings a' | _ => [] end.

(** for (j = 0; j <= argc; j++) shArgv[j + 1] = argv[j], [n] iterations left. *)
Fixpoint copyArgv (n j : nat) (argv shArgv : ptrs) : prog ptrs :=
  match n with
  | O => Ret shArgv
  | S n =>
      match argv !! j with
      | None => Halt (Undefined "read outside an array")
      | Some p => shArgv' <- store shArgv (j + 1) p ;; copyArgv n (j + 1) argv shArgv'
      end
  end.

Definition execShScript (argc : nat) (argv : ptrs) (envp : list (list ascii)) : prog unit :=
  shArgv <- store (replicate (argc + 1) None) 0 (Some SHELL_PATH) ;;
  shArgv <- copyArgv (argc + 1) 0 argv shArgv ;;
  execve SHELL_PATH (strings shArgv) envp ;;;
  Ret tt.

(** The arguments after [arg], then the NULL that ends them: [va_arg].  The
    result is the array and [argc], or an error. *)
Fixpoint buildArgv (rest : ptrs) (argv : ptrs) (argc argvSize : nat) : prog (res (ptrs * nat)) :=
  match argv !! (argc - 1)%nat with
  | None => Halt (Undefined "read outside an array")
  | Some None => Ret (Ok (argv, argc))
  | Some (Some _) =>
      match rest with
      | [] => Halt (Undefined "va_arg without an argument")
      | next :: rest =>
          if (argvSize <=? argc + 1)%nat then
            ok <- sys (Alloc 8) ;;
            if negb ok then Ret (Err ENOMEM)
            else argv' <- store (take 1 argv) argc next ;; buildArgv rest argv' (argc + 1) (argvSize + 100)
          else argv' <- store argv argc next ;; buildArgv rest argv' (argc + 1) argvSize
      end
  end.

(** One prefix of PATH with the file name: an empty prefix is the current
    directory. *)
Definition pathnameOf (prefix filename : list ascii) : list ascii :=
  (match prefix with [] => $"." | _ => prefix end) ++ $"/" ++ filename.

(** The search loop: [fuel] bounds the prefixes, the result is the last errno
    and whether EACCES occurred. *)
Fixpoint searchPath (fuel : nat) (prStart filename : list ascii) (argc : nat) (argv : ptrs)
    (envp : list (list ascii)) (fndEACCES : bool) : prog (Z * bool) :=
  match fuel with
  | O => Halt OutOfFuel
  | S fuel =>
      let '(prefix, next) := match strchr prStart ":" with
                             | None => (prStart, None)
                             | Some (a, b) => (a, Some b)
                             end in
      savedErrno <- execve (pathnameOf prefix filename) (strings argv) envp ;;
      fndEACCES <- (if savedErrno =? EACCES then Ret true
                    else if savedErrno =? ENOEXEC
                    then execShScript argc argv envp ;;; Ret fndEACCES
                    else Ret fndEACCES) ;;
      match next with
      | None => Ret (savedErrno, fndEACCES)
      | Some prStart => searchPath fuel prStart filename argc argv envp fndEACCES
      end
  end.

(** [execlp(filename, arg, ..., NULL)]: [args] are the arguments before the
    NULL, [environ] the environment; the function returns only with an error. *)
Definition execlp (environ : list (list ascii)) (filename : list ascii) (args : list (list ascii)) :
    prog (res unit) :=
  ok <- sys (Alloc 800) ;;
  if negb ok then Ret (Err ENOMEM)
  else
    match map Some args ++ [None] with
    | [] => Halt (Undefined "va_arg without an argument")
    | arg :: rest =>
        argv <- store (replicate 100 None) 0 arg ;;
        b <- buildArgv rest argv 1 100 ;;
        match b with
        | Err e => Ret (Err e)
        | Ok (argv, argc) =>
            ok <- sys (Alloc (8 * Z.of_nat (length environ + 1))) ;;
            if negb ok then Ret (Err ENOMEM)
            else
              let envp := environ in
              '(savedErrno, fndEACCES) <-
                match strchr filename "/" with
                | Some _ =>
                    savedErrno <- execve filename (strings argv) envp ;;
                    (if savedErrno =? ENOEXEC then execShScript argc argv envp else Ret tt) ;;;
                    Ret (savedErrno, false)
                | None =>
                    p <- sys (Getenv ($"PATH")) ;;
                    let PATH := match p with
                                | None => $"."
                                | Some v => if strlen v =? 0 then $"." else v
                                end in
                    searchPath (S (length PATH)) PATH filename argc argv envp false
                end ;;
              Ret (Err (if fndEACCES then EACCES else savedErrno))
        end
    end.

(** ** Signal state of the process

    The mask and the dispositions follow from the calls made so far; [m0] and
    [a0] are the ones before them. *)

Section Signals.
Context (m0 : gset Z) (a0 : Z -> sigact).

Fixpoint mask (h : history) : gset Z :=
  match h with
  | [] => m0
  | Ev (Sigprocmask SIG_BLOCK set) _ :: h' => list_to_set set ∪ mask h'
  | Ev (Sigprocmask SIG_SETMASK set) _ :: _ => list_to_set set
  | _ :: h' => mask h'
  end.

Fixpoint action (h : history) (sig : Z) : sigact :=
  match h with
  | [] => a0 sig
  | Ev (Sigaction s act) _ :: h' => if s =? sig then act else action h' sig
  | _ :: h' => action h' sig
  end.

(** [sigprocmask] and [sigaction] report what was in force before the call; for
    the signals and arguments of [system] they have no error to report. *)
Definition signals : env := fun h X c r =>
  posix h X c r /\
  match c in call X return X -> Prop with
  | Sigprocmask _ _ => fun r => list_to_set r = mask h
  | Sigaction sig _ => fun r => r = Ok (action h sig)
  | _ => fun _ => True
  end r.

Definition signals_kernel : kernel := fun h X c =>
  match c in call X return X with
  | Sigprocmask _ _ => elements (mask h)
  | Sigaction sig _ => Ok (action h sig)
  | c => failing_kernel h _ c
  end.

Lemma signals_inhabited h X (c : call X) : signals h X c (signals_kernel h X c).
Proof.
  split; [|destruct c; simpl; try done; apply list_to_set_elements_L].
  destruct c; try apply (posix_inhabited h); done.
Qed.

(** While the child is created and awaited, SIGCHLD is blocked and SIGINT and
    SIGQUIT are ignored. *)
Definition protected (h : history) : Prop :=
  SIGCHLD ∈ mask h /\ sa_handler (action h SIGINT) = SIG_IGN /\ sa_handler (action h SIGQUIT) = SIG_IGN.

Definition awaits (e : event) : bool :=
  match e with Ev c _ => match c with Fork | Waitpid _ _ => true | _ => false end end.

Fixpoint guarded (h k : history) : Prop :=
  match k with
  | [] => True
  | e :: k' => guarded h k' /\ (awaits e = true -> protected (k' ++ h))
  end.

Definition restored (h k : history) : Prop :=
  mask (k ++ h) = mask h /\ forall sig, action (k ++ h) sig = action h sig.

(** What the child has when it executes the command. *)
Definition child_signals (h k : history) : Prop :=
  mask (k ++ h) = mask h /\
  forall sig, action (k ++ h) sig =
    if (sig =? SIGINT) || (sig =? SIGQUIT)
    then if is_ignored (action h sig) then Sigact SIG_IGN [] 0 else Sigact SIG_DFL [] 0
    else action h sig.

Definition shell_argv (command : list ascii) : list (list ascii) := [$"sh"; $"-c"; command].

Fixpoint interrupted_waits (k : history) : nat :=
  match k with
  | [] => 0
  | Ev (Waitpid _ _) (Err e) :: k' =>
      (if (e =? EINTR)%Z then 1 else 0) + interrupted_waits k'
  | _ :: k' => interrupted_waits k'
  end.
End Signals.

Section SystemSpecs.
Context (m0 : gset Z) (a0 : Z -> sigact).
Notation mask := (mask m0).
Notation action := (action a0).
Notation signals := (signals m0 a0).

(** What [system] returns for a command: the status of the child that it
    created, or -1 when the child could not be created or awaited. *)
Definition status_of (status : Z) (k : history) : Prop :=
  (exists pid p, 0 < pid /\ Ev Fork (Ok pid) ∈ k /\ Ev (Waitpid pid 0) (Ok (p, status)) ∈ k) \/
  status = -1 /\
    ((exists e, Ev Fork (Err e) ∈ k) \/
     exists pid e, e <> EINTR /\ Ev Fork (Ok pid) ∈ k /\ Ev (Waitpid pid 0) (Err e) ∈ k).

Definition system_post (fuel : nat) (envp : list (list ascii)) (command : list ascii)
    (h : history) (result : Z -> Z -> Prop) (o : outcome Z) (k : history) : Prop :=
  guarded m0 a0 h k /\
  match o with
  | Done r => restored m0 a0 h k /\ exists status, status_of status k /\ result status r
  | Stop (Execed path argv) =>
      child_signals m0 a0 h k /\ Ev Fork (Ok 0) ∈ k /\
      path = $"/bin/sh" /\ argv = shell_argv command /\
      head k = Some (Ev (Execve path argv envp) None)
  | Stop (Exit_ status) =>
      child_signals m0 a0 h k /\ Ev Fork (Ok 0) ∈ k /\ status = 127 /\
      exists e, head k = Some (Ev (Execve ($"/bin/sh") (shell_argv command) envp) (Some e))
  | Stop OutOfFuel => interrupted_waits k = fuel
  | Stop _ => False
  end.

Lemma wait_neutral k h :
  Forall (fun e => exists pid r, e = Ev (Waitpid pid 0) r) k ->
  mask (k ++ h) = mask h /\ (forall sig, action (k ++ h) sig = action h sig).
Proof.
  induction 1 as [|e k (pid & r & ->) _ [IHm IHa]]; [done|]. split; [done|]. apply IHa.
Qed.

Lemma wait_guarded k k' h :
  Forall (fun e => exists pid r, e = Ev (Waitpid pid 0) r) k ->
  guarded m0 a0 h k' -> protected m0 a0 (k' ++ h) -> guarded m0 a0 h (k ++ k').
Proof.
  intros Hk Hk' Hp. induction Hk as [|e k He Hk IH]; [done|]. split; [done|]. intros _.
  rewrite <- app_assoc. destruct (wait_neutral k (k' ++ h) Hk) as [Hm Ha].
  unfold protected. by rewrite Hm, !Ha.
Qed.

Lemma interrupted_waits_app k k' :
  interrupted_waits (k ++ k') = (interrupted_waits k + interrupted_waits k')%nat.
Proof.
  induction k as [|[X c r] k IH]; [done|]. destruct c; simpl; try exact IH.
  destruct r; [exact IH|]. rewrite IH. lia.
Qed.

Lemma wp_waitLoop fuel pid h :
  wp signals (waitLoop fuel pid) (since h (fun o k =>
    Forall (fun e => exists pid r, e = Ev (Waitpid pid 0) r) k /\
    match o with
    | Done st => (exists p, Ev (Waitpid pid 0) (Ok (p, st)) ∈ k) \/
                 st = -1 /\ exists e, e <> EINTR /\ Ev (Waitpid pid 0) (Err e) ∈ k
    | Stop s => s = OutOfFuel /\ interrupted_waits k = fuel
    end)) h.
Proof.
  revert h. induction fuel as [|fuel IH]; intros h; [by exists []|].
  apply wp_sys_bind. intros w _. destruct w as [[p st]|e].
  - eexists [_]. split; [done|]. split; [repeat constructor; eauto|]. left. exists p. by left.
  - destruct (Z.eqb_spec e EINTR) as [->|Hne]; simpl.
    + eapply wp_since_step; [|apply IH]. intros o k [Hk Ho]. split.
      { apply Forall_app. split; [done|repeat constructor; eauto]. }
      destruct o as [st|s].
      * destruct Ho as [(p & Hp)|(-> & e & He & Hin)]; [left; exists p|right; split; [done|]; exists e];
          try split; try done; apply elem_of_app; by left.
      * rewrite interrupted_waits_app. simpl. destruct Ho as [-> <-]. split; [done|]. lia.
    + eexists [_]. split; [done|]. split; [repeat constructor; eauto|]. right. split; [done|].
      exists e. split; [done|by left].
Qed.
Lemma quiet_guarded k k' h :
  Forall (fun e => awaits e = false) k -> guarded m0 a0 h k' -> guarded m0 a0 h (k ++ k').
Proof. intros Hk Hk'. induction Hk as [|e k He _ IH]; [done|]. split; [done|]. congruence. Qed.

Definition saDefault : sigact := Sigact SIG_DFL [] 0.

(** The child resets the two signals unless they were ignored, and the mask. *)
Definition child_post (command : list ascii) (envp : list (list ascii)) (oi oq : sigact)
    (om : list Z) (h : history) (o : outcome Z) (k : history) : Prop :=
  Forall (fun e => awaits e = false) k /\ mask (k ++ h) = list_to_set om /\
  (forall sig, action (k ++ h) sig =
     if (sig =? SIGINT) && negb (is_ignored oi) || (sig =? SIGQUIT) && negb (is_ignored oq)
     then saDefault else action h sig) /\
  exists r, head k = Some (Ev (Execve ($"/bin/sh") (shell_argv command) envp) r) /\
    o = match r with None => Stop (Execed ($"/bin/sh") (shell_argv command)) | Some _ => Stop (Exit_ 127) end.

Lemma wp_execCommand command envp oi oq om h :
  wp signals (execCommand command envp oi oq om) (since h (child_post command envp oi oq om h)) h.
Proof.
  unfold execCommand. assert (forall k r o,
    mask (k ++ h) = mask h -> Forall (fun e => awaits e = false) k ->
    (forall sig, action (k ++ h) sig =
       if (sig =? SIGINT) && negb (is_ignored oi) || (sig =? SIGQUIT) && negb (is_ignored oq)
       then saDefault else action h sig) ->
    o = match r with None => Stop (Execed ($"/bin/sh") (shell_argv command)) | Some _ => Stop (Exit_ 127) end ->
    forall m, since h (child_post command envp oi oq om h) o
      (Ev (Execve ($"/bin/sh") (shell_argv command) envp) r :: Ev (Sigprocmask SIG_SETMASK om) m :: k ++ h)) as Hend.
  { intros k r o Hm Hk Ha -> m. eexists (_ :: _ :: k). split; [done|].
    split_and!; [by repeat constructor|done|done|]. by exists r. }
  destruct (is_ignored oi) eqn:Hi, (is_ignored oq) eqn:Hq; cbn [negb bind];
    repeat first [apply wp_sys_bind; intros ? [_ ?]|cbn [bind sys wp]; intros ? [_ ?]];
    (match goal with r : option Z |- _ => destruct r end); cbn [wp bind].
  all: first [apply (Hend [])|apply (Hend [_])|apply (Hend [_; _])]; try done; try by repeat constructor.
  all: intros sig; cbn [ProcExec.action app negb]; rewrite ?andb_false_r, ?andb_true_r.
  all: rewrite ?(Z.eqb_sym SIGQUIT), ?(Z.eqb_sym SIGINT); by destruct (sig =? SIGINT), (sig =? SIGQUIT).
Qed.
(** The calls before [fork]: the signals are protected, and what was in force
    before is known. *)
Definition prologue (om : list Z) (oi oq : sigact) : history :=
  [Ev (Sigaction SIGQUIT (Sigact SIG_IGN [] 0)) (Ok oq);
   Ev (Sigaction SIGINT (Sigact SIG_IGN [] 0)) (Ok oi);
   Ev (Sigprocmask SIG_BLOCK [SIGCHLD]) om].

Lemma prologue_protected om oi oq h : protected m0 a0 (prologue om oi oq ++ h).
Proof. split; [cbn; set_solver|done]. Qed.

(** The calls after it undo them. *)
Lemma epilogue_restored om h k a b c :
  list_to_set om = mask h -> (forall sig, sig <> SIGINT -> sig <> SIGQUIT -> action (k ++ h) sig = action h sig) ->
  restored m0 a0 h
    (Ev (Sigaction SIGQUIT (action h SIGQUIT)) a :: Ev (Sigaction SIGINT (action h SIGINT)) b
     :: Ev (Sigprocmask SIG_SETMASK om) c :: k).
Proof.
  intros Hm Hk. split; [done|]. intros sig. cbn [ProcExec.action app].
  destruct (Z.eqb_spec SIGQUIT sig) as [<-|]; [done|]. destruct (Z.eqb_spec SIGINT sig) as [<-|]; [done|].
  by apply Hk.
Qed.

Lemma prologue_others om oi oq h sig :
  sig <> SIGINT -> sig <> SIGQUIT -> action (prologue om oi oq ++ h) sig = action h sig.
Proof.
  intros Hi Hq. cbn [ProcExec.action app prologue]. destruct (Z.eqb_spec SIGQUIT sig); [congruence|].
  by destruct (Z.eqb_spec SIGINT sig); [congruence|].
Qed.

(** The child, from the fork on. *)
Lemma wp_child fuel command envp om h result :
  list_to_set om = mask h ->
  let k0 := Ev Fork (Ok 0) :: prologue om (action h SIGINT) (action h SIGQUIT) in
  wp signals (execCommand command envp (action h SIGINT) (action h SIGQUIT) om)
    (fun o h' => match o with
                 | Done _ => False
                 | Stop s => since h (system_post fuel envp command h result) (Stop s) h'
                 end) (k0 ++ h).
Proof.
  intros Hom k0. eapply wp_mono; [|apply wp_execCommand].
  intros o h' (k & -> & Hq & Hm & Ha & r & Hr & Ho).
  assert (guarded m0 a0 h (k ++ k0)) as Hg.
  { apply quiet_guarded; [done|]. split; [done|]. intros _. apply prologue_protected. }
  assert (child_signals m0 a0 h (k ++ k0)) as Hc.
  { split; rewrite <- app_assoc; [by rewrite Hm|]. intros sig. rewrite Ha.
    destruct (Z.eqb_spec sig SIGINT) as [->|]; [by destruct (is_ignored (action h SIGINT))|].
    destruct (Z.eqb_spec sig SIGQUIT) as [->|]; [by destruct (is_ignored (action h SIGQUIT))|].
    cbn [andb orb]. by apply (prologue_others om (action h SIGINT) (action h SIGQUIT)). }
  assert (Ev Fork (Ok 0) ∈ k ++ k0) by (apply elem_of_app; right; by left).
  assert (head (k ++ k0) = head k) as Hhd by (by destruct k).
  destruct o as [st|s]; [by destruct r|]. exists (k ++ k0). split; [by rewrite <- app_assoc|].
  split; [done|]. destruct r as [e|]; injection Ho as ->; split_and!; try done; rewrite Hhd, Hr; eauto.
Qed.
Lemma status_of_mono st k k' : k ⊆ k' -> status_of st k -> status_of st k'.
Proof. unfold status_of. intros Hk. naive_solver. Qed.

(** The parent, from the fork on: the wait and what it reports. *)
Lemma wp_parent fuel pid om oi oq h :
  0 < pid ->
  let k0 := Ev Fork (Ok pid) :: prologue om oi oq in
  wp signals (waitLoop fuel pid) (since h (fun o k =>
    guarded m0 a0 h k /\
    (forall sig, sig <> SIGINT -> sig <> SIGQUIT -> action (k ++ h) sig = action h sig) /\
    match o with
    | Done st => status_of st k
    | Stop s => s = OutOfFuel /\ interrupted_waits k = fuel
    end)) (k0 ++ h).
Proof.
  intros Hpid k0. eapply wp_mono; [|apply wp_waitLoop]. intros o h' (k & -> & Hk & Ho).
  exists (k ++ k0). split; [by rewrite app_assoc|]. split_and!.
  - apply wait_guarded; [done| |apply (prologue_protected om oi oq)].
    split; [done|]. intros _. apply prologue_protected.
  - intros sig Hi Hq. rewrite <- app_assoc. destruct (wait_neutral k (k0 ++ h) Hk) as [_ ->].
    by apply (prologue_others om oi oq).
  - assert (Ev Fork (Ok pid) ∈ k ++ k0) by (apply elem_of_app; right; by left).
    destruct o as [st|s]; [|by rewrite interrupted_waits_app, Nat.add_0_r].
    destruct Ho as [(p & Hp)|(-> & e & He & Hin)].
    + left. exists pid, p. split_and!; [done..|]. apply elem_of_app; by left.
    + right. split; [done|]. right. exists pid, e. split_and!; [done..|]. apply elem_of_app; by left.
Qed.

Lemma wp_systemCommand fuel envp command h :
  wp signals (systemCommand fuel envp command)
     (since h (system_post fuel envp command h eq)) h.
Proof.
  unfold systemCommand. apply wp_sys_bind. intros om [_ Hom].
  apply wp_sys_bind. intros ri [_ ->]. cbn [oldAction bind].
  apply wp_sys_bind. intros rq [_ ->]. cbn [oldAction bind].
  set (oi := action _ SIGINT). set (oq := action _ SIGQUIT).
  change oi with (action h SIGINT). change oq with (action h SIGQUIT). clear oi oq.
  apply wp_sys_bind. intros f [Hf _]. set (k0 := Ev Fork f :: prologue om (action h SIGINT) (action h SIGQUIT)).
  change (Ev Fork f :: _) with (k0 ++ h).
  assert (forall st k, guarded m0 a0 h k ->
    (forall sig, sig <> SIGINT -> sig <> SIGQUIT -> action (k ++ h) sig = action h sig) -> status_of st k ->
    wp signals (sys (Sigprocmask SIG_SETMASK om) ;;; sys (Sigaction SIGINT (action h SIGINT)) ;;;
                sys (Sigaction SIGQUIT (action h SIGQUIT)) ;;; Ret st)
      (since h (system_post fuel envp command h eq)) (k ++ h)) as Hend.
  { intros st k Hg Ha Hst. do 3 (apply wp_sys_bind; intros ? _). eexists (_ :: _ :: _ :: k). split; [done|].
    split; [by split_and!|]. split; [by apply epilogue_restored|]. exists st. split; [|done].
    eapply status_of_mono; [|done]. intros e He. by do 3 right. }
  destruct f as [pid|e].
  - destruct (Z.eqb_spec pid 0) as [->|Hne].
    + eapply wp_call; [by apply wp_child| |]; simpl; done.
    + simpl in Hf. eapply wp_call; [apply wp_parent; lia| |].
      * intros st h' (k & -> & Hg & Ha & Hst). by apply Hend.
      * intros s h' (k & -> & Hg & _ & -> & Hi). by exists k.
  - apply Hend.
    + split; [done|]. intros _. apply prologue_protected.
    + intros sig Hi Hq. by apply (prologue_others om (action h SIGINT) (action h SIGQUIT) h).
    + right. split; [done|]. left. exists e. by left.
Qed.
(** [system] leaves the signals of its caller as they were.  In the caller
    the blocked signals and every disposition are the ones before the call
    whether the command ran, the fork failed or the wait failed, and SIGCHLD was
    blocked and SIGINT and SIGQUIT were ignored from before the fork to after the
    wait; the result is the status of the very child that was created, or -1 if
    it could not be created or awaited ([system(NULL)] is 1 exactly if the null
    command succeeds).  The child has the original mask and default dispositions
    unless they were to ignore, executes [sh -c command] in the caller's
    environment, and exits with 127 if there is no shell.  Only interruptions
    keep the wait going. *)
Lemma system_correct fuel envp command h :
  wp signals (system fuel envp command)
     (since h (system_post fuel envp (default ($":") command) h
        (fun status r => r = match command with
                             | Some _ => status
                             | None => if status =? 0 then 1 else 0
                             end))) h.
Proof.
  destruct command as [command|]; cbn [system default].
  - eapply wp_mono; [|apply wp_systemCommand]. intros o h' (k & -> & Hg & Ho).
    exists k. split; [done|]. split; [done|]. destruct o as [r|]; [|done]. naive_solver.
  - eapply wp_call; [apply wp_systemCommand| |]; [|done].
    intros r h' (k & -> & Hg & Hr & st & Hst & <-). exists k. do 3 (split; [done|]). by exists st.
Qed.
End SystemSpecs.

(** ** Specification of execlp *)

(** The execve() calls of a history, the oldest first. *)
Record attempt := Attempt
  { at_path : list ascii; at_argv : list (list ascii); at_envp : list (list ascii); at_reply : option Z }.

Fixpoint attempts (k : history) : list attempt :=
  match k with
  | [] => []
  | Ev (Execve p a e) r :: k' => attempts k' ++ [Attempt p a e r]
  | _ :: k' => attempts k'
  end.

Lemma attempts_app k k' : attempts (k ++ k') = attempts k' ++ attempts k.
Proof.
  induction k as [|[X c r] k IH]; simpl; [by rewrite app_nil_r|].
  destruct c; rewrite IH; try done. by rewrite app_assoc.
Qed.

(** The pathnames that POSIX prescribes: the name itself if it has a slash,
    otherwise the name in each directory of PATH, an empty one being the current
    directory, as is a PATH that is unset or empty. *)
Definition search_order (filename : list ascii) (k : history) (cs : list (list ascii)) : Prop :=
  if bool_decide ("/"%char ∈ filename) then cs = [filename]
  else exists v, Ev (Getenv ($"PATH")) v ∈ k /\
         cs = map (fun dir => (if bool_decide (dir = []) then $"." else dir) ++ $"/" ++ filename)
                  (split ":" (if bool_decide (default [] v = []) then $"." else default [] v)).

(** Attempts that failed, none of them because the file is a script. *)
Definition failures (args envp : list (list ascii)) (ps : list (list ascii)) (errs : list Z)
    (l : list attempt) : Prop :=
  length ps = length errs /\ ENOEXEC ∉ errs /\
  l = zip_with (fun p e => Attempt p args envp (Some e)) ps errs.

(** How a search through [cs] that made the calls [l] may end. *)
Definition search_post (args envp cs : list (list ascii)) (l : list attempt)
    (o : outcome (list Z)) : Prop :=
  match o with
  | Done errs => failures args envp cs errs l
  | Stop (Execed p a) =>
      a = args /\ exists pre post errs l', cs = pre ++ p :: post /\ failures args envp pre errs l' /\
        l = l' ++ [Attempt p args envp None]
  | Stop (Undefined _) =>
      exists pre p post errs l', cs = pre ++ p :: post /\ failures args envp pre errs l' /\
        l = l' ++ [Attempt p args envp (Some ENOEXEC)]
  | Stop _ => False
  end.

Lemma search_post_cons args envp p cs e l (o : outcome (list Z)) :
  e <> ENOEXEC -> search_post args envp cs l o ->
  search_post args envp (p :: cs) (Attempt p args envp (Some e) :: l)
    (match o with Done errs => Done (e :: errs) | Stop s => Stop s end).
Proof.
  intros He. assert (forall ps errs l', failures args envp ps errs l' ->
    failures args envp (p :: ps) (e :: errs) (Attempt p args envp (Some e) :: l')) as Hf.
  { intros ps errs l' (Hl & Hn & ->). split_and!; [simpl; lia|set_solver|done]. }
  destruct o as [errs|[]]; simpl; try done; [apply Hf| |].
  - intros (-> & pre & post & errs & l' & -> & Hl' & ->). split; [done|].
    eexists (p :: pre), post, (e :: errs), _. split; [done|]. split; [by apply Hf|done].
  - intros (pre & q & post & errs & l' & -> & Hl' & ->).
    eexists (p :: pre), q, post, (e :: errs), _. split; [done|]. split; [by apply Hf|done].
Qed.

Lemma search_post_exec args envp p cs :
  search_post args envp (p :: cs) [Attempt p args envp None] (Stop (Execed p args)).
Proof.
  split; [done|]. exists [], cs, [], []. split_and!; try done. split_and!; [done| |done].
  apply not_elem_of_nil.
Qed.

Lemma search_post_script args envp p cs why :
  search_post args envp (p :: cs) [Attempt p args envp (Some ENOEXEC)] (Stop (Undefined why)).
Proof.
  exists [], p, cs, [], []. split_and!; try done. split_and!; [done| |done]. apply not_elem_of_nil.
Qed.

(** *** The array that execShScript copies the arguments to is one slot short *)

Lemma wp_copyArgv {E Q h} n j argv shArgv :
  (0 < n)%nat -> length shArgv = (j + n)%nat -> (j + n <= length argv)%nat ->
  Q (Stop (Undefined "store outside an array")) h ->
  wp E (copyArgv n j argv shArgv) Q h.
Proof.
  intros Hn. revert j shArgv. destruct n as [|n]; [lia|]. clear Hn.
  induction n as [|n IH]; intros j sh Hsh Hargv HQ; simpl.
  - destruct (lookup_lt_is_Some_2 argv j) as [p ->]; [lia|]. unfold store.
    by rewrite (proj2 (Nat.ltb_ge _ _)) by lia.
  - destruct (lookup_lt_is_Some_2 argv j) as [p ->]; [lia|]. unfold store.
    rewrite (proj2 (Nat.ltb_lt _ _)) by lia. cbn [bind]. apply (IH (j + 1)%nat); [|lia|done].
    rewrite length_insert. lia.
Qed.

Lemma wp_execShScript {E} {B} (f : unit -> prog B) {Q h} argc argv envp :
  (argc < length argv)%nat ->
  Q (Stop (Undefined "store outside an array")) h ->
  wp E (bind (execShScript argc argv envp) f) Q h.
Proof.
  intros Hargc HQ. unfold execShScript. apply wp_bind. unfold store at 1. rewrite length_replicate.
  rewrite (proj2 (Nat.ltb_lt _ _)) by lia. cbn [bind]. apply wp_bind.
  apply wp_copyArgv; [lia| |lia|done]. rewrite length_insert, length_replicate. lia.
Qed.

(** *** Building the argument array *)

(** The arguments and the NULL that ends them, in an array of 100 slots. *)
Definition argv_of (args : list (list ascii)) : ptrs :=
  map Some args ++ None :: replicate (99 - length args) None.

Lemma strings_map args rest : strings (map Some args ++ None :: rest) = args.
Proof. induction args as [|a args IH]; simpl; by f_equal. Qed.

Lemma strings_argv args : strings (argv_of args) = args.
Proof. apply strings_map. Qed.

Lemma length_argv_of args : (length args <= 99)%nat -> length (argv_of args) = 100%nat.
Proof. intros H. unfold argv_of. rewrite length_app, length_map. simpl. rewrite length_replicate. lia. Qed.

(** The array when the first [argc] pointers of [all] are stored. *)
Definition partial (all : ptrs) (argc : nat) : ptrs := take argc all ++ replicate (100 - argc) None.

Lemma store_partial all argc p :
  (argc < length all)%nat -> (argc < 100)%nat -> all !! argc = Some p ->
  store (partial all argc) argc p = Ret (partial all (argc + 1)).
Proof.
  intros Ha H100 Hp. unfold store, partial.
  rewrite (proj2 (Nat.ltb_lt _ _)) by (rewrite length_app, length_take, length_replicate; lia).
  f_equal. rewrite insert_app_r_alt by (rewrite length_take; lia).
  rewrite length_take_le by lia. replace (argc - argc)%nat with 0%nat by lia.
  replace (100 - argc)%nat with (S (100 - (argc + 1)))%nat by lia. simpl.
  rewrite Nat.add_1_r, (take_S_r _ _ _ Hp), <- app_assoc. done.
Qed.

Lemma wp_buildArgv E Q h args argc :
  let all := map Some args ++ [None] in
  (1 <= argc <= 99)%nat -> (argc <= length args + 1)%nat ->
  (if (length args <=? 98)%nat then Q (Done (Ok (argv_of args, (length args + 1)%nat))) h
   else forall ok, Q (if ok : bool then Stop (Undefined "store outside an array") else Done (Err ENOMEM))
                     (Ev (Alloc 8) ok :: h)) ->
  wp E (buildArgv (drop argc all) (partial all argc) argc 100) Q h.
Proof.
  intros all H1 H2 HQ. assert (length all = length args + 1)%nat as Hlen
    by (unfold all; rewrite length_app, length_map; done).
  assert (forall i, (i < length args)%nat -> exists a, all !! i = Some (Some a)) as Harg.
  { intros i Hi. destruct (lookup_lt_is_Some_2 args i Hi) as [a Ha]. exists a. unfold all.
    rewrite lookup_app_l by (rewrite length_map; lia). rewrite list_lookup_fmap, Ha. done. }
  remember (99 - argc)%nat as m eqn:Hm. revert argc H1 H2 Hm. induction m as [|m IH]; intros argc H1 H2 Hm.
  all: assert (partial all argc !! (argc - 1)%nat = all !! (argc - 1)%nat) as Hlast
    by (unfold partial; rewrite lookup_app_l by (rewrite length_take; lia); rewrite lookup_take_lt by lia; done).
  all: destruct (decide (argc = length args + 1)%nat) as [Hend|Hmore].
  1, 3: rewrite (proj2 (Nat.leb_le _ _)) in HQ by lia; subst argc;
    rewrite drop_ge by lia; cbn [buildArgv]; rewrite Hlast; unfold all at 1;
    rewrite lookup_app_r by (rewrite length_map; lia); rewrite length_map;
    replace (length args + 1 - 1 - length args)%nat with 0%nat by lia; simpl.
  1, 2: unfold partial; rewrite take_ge by lia; unfold all; rewrite <- app_assoc;
    replace (100 - (length args + 1))%nat with (99 - length args)%nat by lia; exact HQ.
  all: destruct (Harg (argc - 1)%nat) as [a Ha]; [lia|].
  all: destruct (lookup_lt_is_Some_2 all argc) as [next Hnext]; [lia|].
  all: rewrite (drop_S _ _ _ Hnext); cbn [buildArgv]; rewrite Hlast, Ha.
  - replace argc with 99%nat in * by lia. rewrite (proj2 (Nat.leb_gt _ _)) in HQ by lia.
    cbn [Nat.leb Nat.add]. intros ok _. specialize (HQ ok). destruct ok; [|exact HQ].
    cbn [bind negb]. unfold store. by rewrite (proj2 (Nat.ltb_ge _ _)) by (rewrite length_take; lia).
  - rewrite (proj2 (Nat.leb_gt _ _)) by lia. rewrite store_partial by (done || lia). cbn [bind].
    rewrite <- Nat.add_1_r. apply IH; lia.
Qed.

(** *** The search *)

(** The errors of the attempts so far are all that the search keeps of them. *)
Definition summary (acc : bool) (r : Z * bool) (errs : list Z) : Prop :=
  last errs = Some (fst r) /\ snd r || (fst r =? EACCES) = acc || bool_decide (EACCES ∈ errs).

Lemma summary_cons acc e errs r :
  summary (acc || (e =? EACCES)) r errs -> summary acc r (e :: errs).
Proof.
  intros [Hl Hb]. split; [destruct errs; [done|exact Hl]|]. rewrite Hb, <- orb_assoc. f_equal.
  destruct (Z.eqb_spec e EACCES) as [->|Hne]; cbn [orb]; symmetry.
  - apply bool_decide_eq_true_2. by left.
  - apply bool_decide_ext. set_solver.
Qed.

Definition search_ends (args envp cs : list (list ascii)) (acc : bool) (o : outcome (Z * bool))
    (k : history) : Prop :=
  match o with
  | Done r => exists errs, search_post args envp cs (attempts k) (Done errs) /\ summary acc r errs
  | Stop s => search_post args envp cs (attempts k) (Stop s)
  end.

Lemma search_ends_step args envp p cs acc e h P :
  e <> ENOEXEC ->
  wp posix P (since (Ev (Execve p args envp) (Some e) :: h) (search_ends args envp cs (acc || (e =? EACCES))))
     (Ev (Execve p args envp) (Some e) :: h) ->
  wp posix P (since h (search_ends args envp (p :: cs) acc)) (Ev (Execve p args envp) (Some e) :: h).
Proof.
  intros He. apply wp_since_step. intros o k Ho. unfold search_ends in *. rewrite attempts_app. simpl.
  destruct o as [r|s].
  - destruct Ho as (errs & Ho & Hs). exists (e :: errs). split; [|by apply summary_cons].
    by apply (search_post_cons _ _ _ _ _ _ (Done errs)).
  - by apply (search_post_cons _ _ _ _ _ _ (Stop s)).
Qed.

Lemma search_ends_last args envp p acc e b h :
  e <> ENOEXEC -> b || (e =? EACCES) = acc || (e =? EACCES) ->
  since h (search_ends args envp [p] acc) (Done (e, b))
    (Ev (Execve p args envp) (Some e) :: h).
Proof.
  intros He Hb. eexists [_]. split; [done|]. exists [e]. split.
  - split_and!; [done|set_solver|done].
  - split; [done|]. simpl. rewrite Hb. f_equal. apply Bool.eq_iff_eq_true.
    rewrite bool_decide_eq_true, Z.eqb_eq. set_solver.
Qed.

(** One call of execve(): a script makes [f] overflow the array. *)
Lemma wp_attempt args envp p cs acc (f : Z -> prog (Z * bool)) h :
  (forall e, e <> ENOEXEC ->
     wp posix (f e) (since h (search_ends args envp (p :: cs) acc)) (Ev (Execve p args envp) (Some e) :: h)) ->
  (forall Q h', Q (Stop (Undefined "store outside an array")) h' -> wp posix (f ENOEXEC) Q h') ->
  wp posix (bind (execve p (strings (argv_of args)) envp) f)
     (since h (search_ends args envp (p :: cs) acc)) h.
Proof.
  intros Hother Hscript. rewrite strings_argv. intros r _. destruct r as [e|]; simpl.
  - destruct (decide (e = ENOEXEC)) as [->|Hne]; [|by apply Hother].
    apply Hscript. eexists [_]. split; [done|]. apply search_post_script.
  - eexists [_]. split; [done|]. apply search_post_exec.
Qed.

Lemma wp_searchPath fuel prStart filename args envp acc h :
  (length args <= 98)%nat -> (length prStart < fuel)%nat ->
  wp posix (searchPath fuel prStart filename (length args + 1) (argv_of args) envp acc)
     (since h (search_ends args envp (map (fun p => pathnameOf p filename) (split ":" prStart)) acc)) h.
Proof.
  intros Hargs. revert prStart acc h. induction fuel as [|fuel IH]; intros prStart acc h Hf; [lia|].
  cbn [searchPath]. rewrite split_strchr.
  assert ((length args + 1 < length (argv_of args))%nat) as Hlen by (rewrite length_argv_of; lia).
  assert (forall next : option (list ascii), forall cs,
    match next with
    | Some b => cs = map (fun p => pathnameOf p filename) (split ":" b) /\ (length b < fuel)%nat
    | None => cs = []
    end ->
    forall prefix h, wp posix
      (savedErrno <- execve (pathnameOf prefix filename) (strings (argv_of args)) envp ;;
       fndEACCES <- (if savedErrno =? EACCES then Ret true
                     else if savedErrno =? ENOEXEC
                     then execShScript (length args + 1) (argv_of args) envp ;;; Ret acc
                     else Ret acc) ;;
       match next with
       | None => Ret (savedErrno, fndEACCES)
       | Some b => searchPath fuel b filename (length args + 1) (argv_of args) envp fndEACCES
       end) (since h (search_ends args envp (pathnameOf prefix filename :: cs) acc)) h) as Hone.
  { intros next cs Hnext prefix h'. apply wp_attempt.
    - intros e He. destruct (Z.eqb_spec e ENOEXEC); [done|].
      replace (if e =? EACCES then Ret true else Ret acc) with (Ret (acc || (e =? EACCES)))
        by (destruct (e =? EACCES); by rewrite ?orb_true_r, ?orb_false_r).
      cbn [bind]. destruct next as [b|].
      + destruct Hnext as [-> Hb]. apply search_ends_step; [done|]. by apply IH.
      + subst cs. apply search_ends_last; [done|]. by destruct acc, (e =? EACCES).
    - intros Q h'' HQ. apply wp_bind. simpl. by apply wp_execShScript. }
  destruct (strchr prStart ":") as [[a b]|] eqn:Hc.
  - apply (Hone (Some b)). split; [done|]. apply strchr_Some in Hc as [-> _].
    rewrite length_app in Hf. simpl in Hf. lia.
  - by apply (Hone None).
Qed.

(** How [execlp] may end after the calls [k]. *)
Definition execlp_post (environ : list (list ascii)) (filename : list ascii) (args : list (list ascii))
    (o : outcome (res unit)) (k : history) : Prop :=
  match o with
  | Done (Ok _) => False
  | Done (Err e) =>
      e = ENOMEM /\ attempts k = [] /\ (exists n, Ev (Alloc n) false ∈ k) \/
      (length args <= 98)%nat /\ exists cs errs, search_order filename k cs /\
        search_post args environ cs (attempts k) (Done errs) /\
        Some e = if bool_decide (EACCES ∈ errs) then Some EACCES else last errs
  | Stop s =>
      (exists why, s = Undefined why) /\ (99 <= length args)%nat /\ attempts k = [] \/
      (length args <= 98)%nat /\ exists cs, search_order filename k cs /\
        search_post args environ cs (attempts k) (Stop s)
  end.

Lemma execlp_array E Q h args (f : res (ptrs * nat) -> prog (res unit)) :
  ((length args <= 98)%nat -> wp E (f (Ok (argv_of args, (length args + 1)%nat))) Q h) ->
  ((99 <= length args)%nat -> forall ok, wp E (if ok : bool then Halt (Undefined "store outside an array")
                                           else f (Err ENOMEM)) Q (Ev (Alloc 8) ok :: h)) ->
  wp E match map Some args ++ [None] with
       | [] => Halt (Undefined "va_arg without an argument")
       | arg :: rest => argv <- store (replicate 100 None) 0 arg ;; b <- buildArgv rest argv 1 100 ;; f b
       end Q h.
Proof.
  intros Hfew Hmany. destruct (map Some args ++ [None]) as [|arg rest] eqn:Hall; [by destruct args|].
  assert (store (replicate 100 None) 0 arg = Ret (partial (map Some args ++ [None]) 1)) as -> by (by rewrite Hall).
  cbn [bind]. apply wp_bind. replace rest with (drop 1 (map Some args ++ [None])) by (by rewrite Hall).
  apply wp_buildArgv; [lia..|]. destruct (Nat.leb_spec (length args) 98) as [Hl|Hl]; [by apply Hfew|].
  intros ok. specialize (Hmany ltac:(lia) ok). by destruct ok.
Qed.

Lemma search_order_path filename v k :
  "/"%char ∉ filename -> Ev (Getenv ($"PATH")) v ∈ k ->
  search_order filename k
    (map (fun p => pathnameOf p filename)
       (split ":" match v with None => $"." | Some v => if strlen v =? 0 then $"." else v end)).
Proof.
  intros Hf Hv. unfold search_order. rewrite bool_decide_false by done. exists v. split; [done|].
  replace (match v with None => _ | Some _ => _ end)
    with (if bool_decide (default [] v = []) then $"." else default [] v)
    by (destruct v as [[|? ?]|]; done).
  apply map_ext. by intros [|? ?].
Qed.

Lemma search_order_mono filename k k' cs :
  search_order filename k cs -> search_order filename (k' ++ k) cs.
Proof.
  unfold search_order. destruct (bool_decide _); [done|]. intros (v & Hv & ->). exists v.
  split; [apply elem_of_app; by right|done].
Qed.

(** From the end of the search to the end of the function. *)
Lemma wp_search_done environ filename args cs k h (p : prog (Z * bool)) :
  (length args <= 98)%nat -> attempts k = [] -> search_order filename k cs ->
  wp posix p (since (k ++ h) (search_ends args environ cs false)) (k ++ h) ->
  wp posix ('(savedErrno, fndEACCES) <- p ;; Ret (Err (if fndEACCES then EACCES else savedErrno)))
     (since h (execlp_post environ filename args)) (k ++ h).
Proof.
  intros Hl Hk Hcs Hp.
  assert (forall k', attempts (k' ++ k) = attempts k') as Ha by (intros; by rewrite attempts_app, Hk).
  eapply wp_call; [exact Hp| |].
  - intros [e b] h' (k' & -> & errs & Hpost & Hlast & Hacc). exists (k' ++ k). split; [by rewrite app_assoc|].
    right. split; [done|]. rewrite Ha. exists cs, errs. split_and!; [by apply search_order_mono|done|].
    simpl in *. rewrite Hlast, <- Hacc. destruct b; [done|]. simpl. by destruct (Z.eqb_spec e EACCES) as [->|].
  - intros s h' (k' & -> & Hpost). exists (k' ++ k). split; [by rewrite app_assoc|].
    right. split; [done|]. rewrite Ha. exists cs. split; [by apply search_order_mono|done].
Qed.

(** [execlp] searches as POSIX says.  For up to 98 arguments it calls
    execve() with exactly these arguments and the caller's environment on the
    name itself, if it has a slash, or on the name in each directory of PATH, in
    order (the current directory for an empty entry or an empty or unset PATH),
    until one call does not return; if all fail the error is EACCES if any failed
    with it and the last one otherwise.  A failed allocation gives ENOMEM before
    any attempt.  The array of arguments is overrun in exactly two cases, which
    the theorem names: more than 98 arguments, or a file that is a script without
    an interpreter line, for which the array passed to the shell is too short. *)
Lemma execlp_searches environ filename args h :
  wp posix (execlp environ filename args) (since h (execlp_post environ filename args)) h.
Proof.
  unfold execlp. apply wp_sys_bind. intros ok _. destruct ok; cbn [negb].
  2:{ eexists [_]. split; [done|]. left. split_and!; [done..|]. eexists. by left. }
  apply execlp_array.
  2:{ intros Hl [|]; (eexists [_; _]; split; [done|]); left; split_and!; eauto. eexists. by left. }
  intros Hl. apply wp_sys_bind. intros ok _. destruct ok; cbn [negb].
  2:{ eexists [_; _]. split; [done|]. left. split_and!; [done..|]. eexists. by left. }
  set (ea := Ev (Alloc (8 * _)) true). set (e0 := Ev (Alloc 800) true).
  assert ((length args + 1 < length (argv_of args))%nat) as Hlen by (rewrite length_argv_of; lia).
  destruct (strchr filename "/") as [[a b]|] eqn:Hf.
  - apply (wp_search_done environ filename args [filename] [ea; e0]); [done..| |].
    + apply strchr_Some in Hf as [-> _]. unfold search_order. rewrite bool_decide_true; [done|].
      apply elem_of_app. right. by left.
    + apply wp_attempt.
      * intros e He. destruct (Z.eqb_spec e ENOEXEC); [done|]. by apply search_ends_last.
      * intros Q h' HQ. by apply wp_execShScript.
  - rewrite strchr_None in Hf. intros v _. set (eg := Ev _ v).
    eapply (wp_search_done environ filename args _ [eg; ea; e0]); [done..| |].
    + apply search_order_path; [done|by left].
    + apply wp_searchPath; [done|lia].
Qed.

(** C32: The replacements of two library functions.  [system] leaves the signals of its
    caller as they were: in the caller the blocked signals and every disposition
    are the ones before the call whether the command ran, the fork failed or the
    wait failed, and SIGCHLD was blocked and SIGINT and SIGQUIT were ignored from
    before the fork to after the wait; the result is the status of the very child
    that was created, or -1 if it could not be created or awaited ([system(NULL)]
    is 1 exactly if the null command succeeds).  The child has the original mask
    and default dispositions unless they were to ignore, executes [sh -c command]
    in the caller's environment, and exits with 127 if there is no shell.
    [execlp] searches as POSIX says: for up to 98 arguments it calls execve() with
    exactly these arguments and the caller's environment on the name itself, if it
    has a slash, or on the name in each directory of PATH, in order (the current
    directory for an empty entry or an empty or unset PATH), until one call does
    not return; if all fail the error is EACCES if any failed with it and the last
    one otherwise.  A failed allocation gives ENOMEM before any attempt.  The array
    of arguments is overrun in exactly two cases, which the theorem names: more than
    98 arguments, or a file that is a script without an interpreter line, for which
    the array passed to the shell is too short. *)
Theorem exec_functions :
  (forall m0 a0 fuel envp command h,
   wp (signals m0 a0) (system fuel envp command)
       (since h (system_post m0 a0 fuel envp (default ($":") command) h
          (fun status r => r = match command with
                               | Some _ => status
                               | None => if status =? 0 then 1 else 0
                               end))) h) /\
  (forall environ filename args h,
   wp posix (execlp environ filename args) (since h (execlp_post environ filename args)) h).
Proof. split; [exact system_correct|exact execlp_searches]. Qed.
