(* ===== verification/AclUpdate.v ===== *)
(** * acl/acl_update.c and users_groups/ugid_functions.c: updating access control lists

    [parseACL] reads the entries named on the command line, [main] applies them
    to the ACL of each file.  The password and group files are a parameter
    ([UserDb]), and so is libacl ([LibAcl]): the program only calls it.  An ACL in
    working storage is passed explicitly, as the library functions update it. *)

From S2P Require Import Prelude Sys LibErrors.

(** ** ugid_functions.c

    User and group identifiers are 32-bit unsigned numbers; -1 is [ID_ERR]. *)

Class UserDb := {
  getpwnam : list ascii -> option Z;
  getgrnam : list ascii -> option Z;
  getpwuid : Z -> option (list ascii);
  getgrgid : Z -> option (list ascii)
}.

Definition ID_ERR : Z := wrapu 32 (-1).

Section Ids.
Context {U : UserDb}.

Definition userNameFromId (uid : Z) : option (list ascii) :=
  match getpwuid uid with None => None | Some pw_name => Some pw_name end.

Definition userIdFromName (name : option (list ascii)) : Z :=
  match name with
  | None | Some [] => ID_ERR
  | Some s =>
      let r := strtol s 10 in
      match st_end r with
      | [] => wrapu 32 (st_val r)
      | _ => match getpwnam s with None => ID_ERR | Some pw_uid => pw_uid end
      end
  end.

Definition groupNameFromId (gid : Z) : option (list ascii) :=
  match getgrgid gid with None => None | Some gr_name => Some gr_name end.

Definition groupIdFromName (name : option (list ascii)) : Z :=
  match name with
  | None | Some [] => ID_ERR
  | Some s =>
      let r := strtol s 10 in
      match st_end r with
      | [] => wrapu 32 (st_val r)
      | _ => match getgrnam s with None => ID_ERR | Some gr_gid => gr_gid end
      end
  end.
End Ids.

(** ** Entries *)

Inductive acl_tag := ACL_USER_OBJ | ACL_USER | ACL_GROUP_OBJ | ACL_GROUP | ACL_MASK | ACL_OTHER.
#[export] Instance acl_tag_eq_dec : EqDecision acl_tag.
Proof. solve_decision. Defined.

Definition ACL_READ : Z := 4.
Definition ACL_WRITE : Z := 2.
Definition ACL_EXECUTE : Z := 1.
Definition ACL_TYPE_ACCESS : Z := 0x8000.
Definition ACL_TYPE_DEFAULT : Z := 0x4000.
Definition MAX_ENTRIES : nat := 10000.

(** [perms] is [None] while it is not assigned. *)
Record AccessControlEntry := Ace { tag : acl_tag; qual : Z; perms : option Z }.

(** ** Parsing *)

Section Parse.
Context {U : UserDb}.

Definition tagOf (tagStr : list ascii) (hasQual : bool) : option acl_tag :=
  if strcmp_eq tagStr ($"u") || strcmp_eq tagStr ($"user")
  then Some (if hasQual then ACL_USER else ACL_USER_OBJ)
  else if strcmp_eq tagStr ($"g") || strcmp_eq tagStr ($"group")
  then Some (if hasQual then ACL_GROUP else ACL_GROUP_OBJ)
  else if strcmp_eq tagStr ($"o") || strcmp_eq tagStr ($"other") then Some ACL_OTHER
  else if strcmp_eq tagStr ($"m") || strcmp_eq tagStr ($"mask") then Some ACL_MASK
  else None.

(** The loop over the permissions: the mask, or the bad character. *)
Fixpoint permBits (p : list ascii) (perms : Z) : Z + ascii :=
  match p with
  | [] => inl perms
  | c :: p' =>
      if Ascii.eqb c "r" then permBits p' (Z.lor perms ACL_READ)
      else if Ascii.eqb c "w" then permBits p' (Z.lor perms ACL_WRITE)
      else if Ascii.eqb c "x" then permBits p' (Z.lor perms ACL_EXECUTE)
      else if negb (Ascii.eqb c "-") then inr c
      else permBits p' perms
  end.

(** FALSE, after a message on standard error. *)
Definition reject {A} (msg : list ascii) : prog (option A) := print Stderr msg ;;; Ret None.

(** The identifier that goes with a tag, and the message if it is bad. *)
Definition qualOf (tag : acl_tag) (qualStr : list ascii) : Z :=
  match tag with
  | ACL_USER => userIdFromName (Some qualStr)
  | ACL_GROUP => groupIdFromName (Some qualStr)
  | _ => 0
  end.

Definition badQual (tag : acl_tag) (qual : Z) (qualStr : list ascii) : option (list ascii) :=
  match tag with
  | ACL_USER => if qual =? ID_ERR then Some ($"Bad user ID: " ++ qualStr ++ [NL]) else None
  | ACL_GROUP => if qual =? ID_ERR then Some ($"Bad group ID: " ++ qualStr ++ [NL]) else None
  | _ => None
  end.

(** Is the optional qualifier present? *)
Definition hasQual (rest : list ascii) : bool :=
  negb (Ascii.eqb (char_at rest 0) NUL) && negb (Ascii.eqb (char_at rest 0) ":").

(** [entryStr] is cut at the first colon and, after it, at the second one;
    the result is [None] for FALSE.  [permStr] is the text after the second
    colon if it is not empty. *)
Definition parseEntrySpec (entryStr : list ascii) (permsReqd : bool) :
    prog (option AccessControlEntry) :=
  match strchr entryStr ":" with
  | None => reject ($"Missing initial colon in ACL entry: " ++ entryStr ++ [NL])
  | Some (tagStr, rest) =>
      let '(qualStr, permStr) := match strchr rest ":" with
                                 | None => (rest, None)
                                 | Some (q, []) => (q, None)
                                 | Some (q, p) => (q, Some p)
                                 end in
      let hasPerms := match permStr with Some _ => true | None => false end in
      if hasPerms && negb permsReqd then reject ($"Cannot specify permissions here" ++ [NL])
      else if negb hasPerms && permsReqd then reject ($"Must specify permissions" ++ [NL])
      else
        match tagOf tagStr (hasQual rest) with
        | None => reject ($"Bad tag: " ++ tagStr ++ [NL])
        | Some tag =>
            let qual := qualOf tag qualStr in
            match badQual tag qual qualStr with
            | Some msg => reject msg
            | None =>
                match permStr with
                | None => Ret (Some (Ace tag qual None))
                | Some p =>
                    match permBits p 0 with
                    | inl bits => Ret (Some (Ace tag qual (Some bits)))
                    | inr c => reject ($"Bad character in permissions string: " ++ [c] ++ [NL])
                    end
                end
            end
        end
  end.

(** The entries from the [n]th on; [fuel] bounds the commas. *)
Fixpoint parseEntries (fuel : nat) (nextEntry : list ascii) (n : nat) (permsReqd : bool) :
    prog (option (list AccessControlEntry)) :=
  match fuel with
  | O => Halt OutOfFuel
  | S fuel =>
      if (MAX_ENTRIES <=? n)%nat then reject ($"Too many entries in ACL" ++ [NL])
      else
        let '(entryStr, comma) := match strchr nextEntry "," with
                                  | None => (nextEntry, None)
                                  | Some (a, b) => (a, Some b)
                                  end in
        e <- parseEntrySpec entryStr permsReqd ;;
        match e with
        | None => Ret None
        | Some ace =>
            match comma with
            | None => Ret (Some [ace])
            | Some next =>
                r <- parseEntries fuel next (n + 1) permsReqd ;;
                Ret (option_map (cons ace) r)
            end
        end
  end.

(** The parsed entries; -1 is [None]. *)
Definition parseACL (aclStr : list ascii) (permsReqd : bool) : prog (option (list AccessControlEntry)) :=
  parseEntries (S (length aclStr)) aclStr 0 permsReqd.
End Parse.

(** ** libacl

    The functions of the library as the program calls them: an ACL in working
    storage is updated by returning the new one, an entry descriptor is a
    pointer, [fs] is the state of the file system. *)

Class LibAcl := {
  acl : Type;
  fs : Type;
  acl_permset : Type;
  acl_get_file : fs -> list ascii -> Z -> res acl;
  acl_set_file : fs -> list ascii -> Z -> acl -> res fs;
  acl_delete_def_file : fs -> list ascii -> res fs;
  acl_get_entry : acl -> bool -> res (option Z * acl);
  acl_get_tag_type : acl -> Z -> res acl_tag;
  acl_get_qualifier : acl -> Z -> res Z;
  acl_create_entry : acl -> res (acl * Z);
  acl_delete_entry : acl -> Z -> res acl;
  acl_set_tag_type : acl -> Z -> acl_tag -> res acl;
  acl_set_qualifier : acl -> Z -> Z -> res acl;
  acl_get_permset : acl -> Z -> res acl_permset;
  acl_clear_perms : acl -> acl_permset -> res acl;
  acl_add_perm : acl -> acl_permset -> Z -> res acl;
  acl_set_permset : acl -> Z -> acl_permset -> res acl;
  acl_calc_mask : acl -> res acl;
  acl_valid : acl -> res unit;
  acl_free_qualifier : acl -> Z -> res unit;
  acl_free : acl -> res unit
}.

(** ** Updating *)

Section Update.
Context {T : ErrText} {U : UserDb} {L : LibAcl}.

(** if (call == -1) errExit(what) *)
Definition ok_or {A} (r : res A) (what : list ascii) : prog A :=
  match r with Ok a => Ret a | Err e => errExit e what end.

(** [first] is ACL_FIRST_ENTRY; [fuel] bounds the entries. *)
Fixpoint findLoop (fuel : nat) (first : bool) (a : acl) (tag : acl_tag) (qaul : Z) :
    prog (acl * option Z) :=
  match fuel with
  | O => Halt OutOfFuel
  | S fuel =>
      '(ent, a) <- ok_or (acl_get_entry a first) ($"acl_get_entry") ;;
      match ent with
      | None => Ret (a, None)
      | Some entry =>
          entryTag <- ok_or (acl_get_tag_type a entry) ($"acl_get_tag_type") ;;
          if bool_decide (tag = entryTag) then
            match tag with
            | ACL_USER | ACL_GROUP =>
                id <- ok_or (acl_get_qualifier a entry) ($"acl_get_qualifier") ;;
                ok_or (acl_free_qualifier a id) ($"acl_free") ;;;
                if qaul =? id then Ret (a, Some entry) else findLoop fuel false a tag qaul
            | _ => Ret (a, Some entry)
            end
          else findLoop fuel false a tag qaul
      end
  end.

Definition findEntry (fuel : nat) (a : acl) (tag : acl_tag) (qaul : Z) : prog (acl * option Z) :=
  findLoop fuel true a tag qaul.

Definition setPerms (a : acl) (entry perms : Z) : prog acl :=
  permset <- ok_or (acl_get_permset a entry) ($"acl_get_permset") ;;
  a <- ok_or (acl_clear_perms a permset) ($"acl_clear_perms") ;;
  a <- (if flag perms ACL_READ then ok_or (acl_add_perm a permset ACL_READ) ($"acl_add_perm") else Ret a) ;;
  a <- (if flag perms ACL_WRITE then ok_or (acl_add_perm a permset ACL_WRITE) ($"acl_add_perm") else Ret a) ;;
  a <- (if flag perms ACL_EXECUTE then ok_or (acl_add_perm a permset ACL_EXECUTE) ($"acl_add_perm") else Ret a) ;;
  ok_or (acl_set_permset a entry permset) ($"acl_set_permset").

(** A new entry with the tag and the qualifier of [ace]. *)
Definition createEntry (a : acl) (ace : AccessControlEntry) : prog (acl * Z) :=
  '(a, entry) <- ok_or (acl_create_entry a) ($"acl_create_entry") ;;
  a <- ok_or (acl_set_tag_type a entry (tag ace)) ($"acl_set_tag_type") ;;
  a <- match tag ace with
       | ACL_USER | ACL_GROUP => ok_or (acl_set_qualifier a entry (qual ace)) ($"acl_set_qualifier")
       | _ => Ret a
       end ;;
  Ret (a, entry).

(** One entry of the list on one file. *)
Definition applyEntry (fuel : nat) (removeACL recalcMask : bool) (file : list ascii) (type : Z)
    (w : fs) (a : acl) (ace : AccessControlEntry) : prog (fs * acl) :=
  '(a, entry) <- findEntry fuel a (tag ace) (qual ace) ;;
  a <- (if removeACL then
          match entry with
          | Some entry => ok_or (acl_delete_entry a entry) ($"acl_delete_entry")
          | None => Ret a
          end
        else
          '(a, entry) <- match entry with
                         | None => createEntry a ace
                         | Some entry => Ret (a, entry)
                         end ;;
          match perms ace with
          | None => Halt (Undefined "permissions not assigned")
          | Some p => setPerms a entry p
          end) ;;
  a <- (if recalcMask then ok_or (acl_calc_mask a) ($"acl_calc_mask") else Ret a) ;;
  ok_or (acl_valid a) ($"acl_valid") ;;;
  w <- ok_or (acl_set_file w file type a) ($"acl_set_file") ;;
  Ret (w, a).

Fixpoint applyEntries (fuel : nat) (removeACL recalcMask : bool) (file : list ascii) (type : Z)
    (w : fs) (a : acl) (aclist : list AccessControlEntry) : prog (fs * acl) :=
  match aclist with
  | [] => Ret (w, a)
  | ace :: aclist' =>
      '(w, a) <- applyEntry fuel removeACL recalcMask file type w a ace ;;
      applyEntries fuel removeACL recalcMask file type w a aclist'
  end.

(** The operation on one file argument. *)
Definition updateFile (fuel : nat) (removeDefaultACL modifyACL removeACL recalcMask : bool) (type : Z)
    (aclist : list AccessControlEntry) (w : fs) (file : list ascii) : prog fs :=
  if removeDefaultACL then ok_or (acl_delete_def_file w file) ($"acl_delete_def_file: " ++ file)
  else if modifyACL || removeACL then
    a <- ok_or (acl_get_file w file type) ($"acl_get_file") ;;
    '(w, a) <- applyEntries fuel removeACL recalcMask file type w a aclist ;;
    ok_or (acl_free a) ($"acl_free") ;;;
    Ret w
  else fatal ($"Bad logic!").

Fixpoint updateFiles (fuel : nat) (removeDefaultACL modifyACL removeACL recalcMask : bool) (type : Z)
    (aclist : list AccessControlEntry) (w : fs) (files : list (list ascii)) : prog fs :=
  match files with
  | [] => Ret w
  | file :: files' =>
      w <- updateFile fuel removeDefaultACL modifyACL removeACL recalcMask type aclist w file ;;
      updateFiles fuel removeDefaultACL modifyACL removeACL recalcMask type aclist w files'
  end.

(** *** Command line *)

Definition usageError_acl {A} (progName : list ascii) (msg : option (list ascii)) (shortUsage : bool) : prog A :=
  let fpe m := print Stderr ($"      " ++ m) in
  match msg with Some m => print Stderr (m ++ [NL]) | None => Ret tt end ;;;
  (if shortUsage then
     print Stderr ($"Type '" ++ progName ++ $" --help' for usage information" ++ [NL]) ;;;
     Halt (Exit EXIT_FAILURE)
   else Ret tt) ;;;
  print Stderr ($"Usage: " ++ progName ++ $" -m acl [-d] [-n] file..." ++ [NL]) ;;;
  print Stderr ($"   or: " ++ progName ++ $" -x acl [-d] [-n] file..." ++ [NL]) ;;;
  print Stderr ($"   or: " ++ progName ++ $" -k file..." ++ [NL; NL]) ;;;
  print Stderr ($"   or: " ++ progName ++ $" -V acl" ++ [NL; NL]) ;;;
  fpe ($"-m  Modify/create ACL entries" ++ [NL]) ;;;
  fpe ($"-x  Remove ACL entries" ++ [NL]) ;;;
  fpe ($"-k  Remove default ACL" ++ [NL; NL]) ;;;
  fpe ($"-V  Check validity of 'acl'" ++ [NL; NL]) ;;;
  fpe ($"'acl' consists of one or more comma-separated entries of the form:" ++ [NL]) ;;;
  fpe ([NL] ++ $"            tag:[qualifier][:[perms]]" ++ [NL; NL]) ;;;
  fpe ($"'perms' are specified only for -m" ++ [NL; NL]) ;;;
  fpe ($"-d  Apply operation to default ACL" ++ [NL]) ;;;
  fpe ($"-n  Don't recalculate mask entry" ++ [NL]) ;;;
  fpe ($"      NOTE: if you specify this option and have specified" ++ [NL]) ;;;
  fpe ($"      the -m option, then you may encounter errors if the" ++ [NL]) ;;;
  fpe ($"      file does not already have a mask entry." ++ [NL]) ;;;
  Halt (Exit EXIT_FAILURE).

Record acl_options := Options
  { recalcMask : bool; useDefaultACL : bool; modifyACL : bool; removeACL : bool;
    removeDefaultACL : bool; checkValidity : bool; aclSpec : list ascii; optCnt : Z }.

Definition no_options : acl_options := Options true false false false false false [] 0.

(** [opts] are the options that getopt returns one by one, with their
    arguments; any other character is an option it does not know. *)
Fixpoint parseAclOptions (progName : list ascii) (o : acl_options) (opts : list (ascii * list ascii)) :
    prog acl_options :=
  match opts with
  | [] => Ret o
  | (opt, optarg) :: opts' =>
      o <- (if Ascii.eqb opt "m" then
              Ret (Options (recalcMask o) (useDefaultACL o) true (removeACL o) (removeDefaultACL o)
                     (checkValidity o) optarg (optCnt o + 1))
            else if Ascii.eqb opt "x" then
              Ret (Options (recalcMask o) (useDefaultACL o) (modifyACL o) true (removeDefaultACL o)
                     (checkValidity o) optarg (optCnt o + 1))
            else if Ascii.eqb opt "k" then
              Ret (Options (recalcMask o) (useDefaultACL o) (modifyACL o) (removeACL o) true
                     (checkValidity o) (aclSpec o) (optCnt o + 1))
            else if Ascii.eqb opt "V" then
              Ret (Options (recalcMask o) (useDefaultACL o) (modifyACL o) (removeACL o) (removeDefaultACL o)
                     true optarg (optCnt o + 1))
            else if Ascii.eqb opt "d" then
              Ret (Options (recalcMask o) true (modifyACL o) (removeACL o) (removeDefaultACL o)
                     (checkValidity o) (aclSpec o) (optCnt o))
            else if Ascii.eqb opt "n" then
              Ret (Options false (useDefaultACL o) (modifyACL o) (removeACL o) (removeDefaultACL o)
                     (checkValidity o) (aclSpec o) (optCnt o))
            else usageError_acl progName (Some ($"Bad option" ++ [NL])) true) ;;
      parseAclOptions progName o opts'
  end.

(** [files] are the arguments that getopt leaves. *)
Definition acl_update_main (fuel : nat) (w : fs) (argv : list (list ascii))
    (opts : list (ascii * list ascii)) (files : list (list ascii)) : prog unit :=
  let progName := nth 0 argv [] in
  (if (length argv <? 2)%nat || strcmp_eq (nth 1 argv []) ($"--help")
   then usageError_acl progName None false else Ret tt) ;;;
  o <- parseAclOptions progName no_options opts ;;
  (if negb (optCnt o =? 1)
   then usageError_acl progName (Some ($"Specify exactly one of -m, -x, -k, or -V" ++ [NL])) true
   else Ret tt) ;;;
  (if checkValidity o && useDefaultACL o
   then usageError_acl progName (Some ($"Can't specify -d with -V" ++ [NL])) true else Ret tt) ;;;
  (if checkValidity o then
     r <- parseACL (aclSpec o) true ;;
     match r with
     | None => fatal ($"Bad ACL entry specification")
     | Some _ => print Stdout ($"ACL is valid" ++ [NL]) ;;; Halt (Exit EXIT_SUCCESS)
     end
   else Ret tt) ;;;
  aclist <- (if modifyACL o || removeACL o then
               r <- parseACL (aclSpec o) (modifyACL o) ;;
               match r with
               | None => usageError_acl progName (Some ($"Bad ACL specification" ++ [NL])) true
               | Some l => Ret l
               end
             else Ret []) ;;
  let type := if useDefaultACL o then ACL_TYPE_DEFAULT else ACL_TYPE_ACCESS in
  updateFiles fuel (removeDefaultACL o) (modifyACL o) (removeACL o) (recalcMask o) type aclist w files ;;;
  Halt (Exit EXIT_SUCCESS).

End Update.

(** ** The notation of access control lists

    [tag:[qualifier][:[perms]]], entries separated by commas. *)

Definition tag_names (t : acl_tag) : list (list ascii) :=
  match t with
  | ACL_USER_OBJ | ACL_USER => [$"u"; $"user"]
  | ACL_GROUP_OBJ | ACL_GROUP => [$"g"; $"group"]
  | ACL_OTHER => [$"o"; $"other"]
  | ACL_MASK => [$"m"; $"mask"]
  end.

Definition perm_chars : list ascii := ["r"; "w"; "x"; "-"]%char.

Definition perm_mask (p : list ascii) : Z :=
  (if bool_decide ("r"%char ∈ p) then 4 else 0) + (if bool_decide ("w"%char ∈ p) then 2 else 0)
  + (if bool_decide ("x"%char ∈ p) then 1 else 0).

Section Notation_of_ACLs.
Context {U : UserDb}.

(** A qualifier makes the difference between the owner and another user; after
    the other two tags any qualifier is accepted and ignored. *)
Definition qualifies (t : acl_tag) (q : list ascii) (id : Z) : Prop :=
  match t with
  | ACL_USER => q <> [] /\ id = userIdFromName (Some q) /\ id <> ID_ERR
  | ACL_GROUP => q <> [] /\ id = groupIdFromName (Some q) /\ id <> ID_ERR
  | ACL_USER_OBJ | ACL_GROUP_OBJ => q = [] /\ id = 0
  | ACL_OTHER | ACL_MASK => id = 0
  end.

(** With permissions they must be given, without them only the colon may be. *)
Definition perms_part (permsReqd : bool) (s : list ascii) (ps : option Z) : Prop :=
  if permsReqd
  then exists p, s = ":"%char :: p /\ p <> [] /\ Forall (fun c => c ∈ perm_chars) p /\ ps = Some (perm_mask p)
  else (s = [] \/ s = [":"%char]) /\ ps = None.

Inductive entry_text (permsReqd : bool) : list ascii -> AccessControlEntry -> Prop :=
| entry_text_intro t name q id s ps :
    name ∈ tag_names t -> ":"%char ∉ q -> NUL ∉ q -> qualifies t q id -> perms_part permsReqd s ps ->
    entry_text permsReqd (name ++ ":"%char :: q ++ s) (Ace t id ps).

Definition acl_text (permsReqd : bool) (s : list ascii) (l : list AccessControlEntry) : Prop :=
  Forall2 (entry_text permsReqd) (split "," s) l /\ (length l <= MAX_ENTRIES)%nat.

Definition perm_bit (c : ascii) : Z :=
  if Ascii.eqb c "r" then ACL_READ else if Ascii.eqb c "w" then ACL_WRITE
  else if Ascii.eqb c "x" then ACL_EXECUTE else 0.

Lemma perm_mask_cons c p : c ∈ perm_chars -> perm_mask (c :: p) = Z.lor (perm_bit c) (perm_mask p).
Proof.
  assert (forall d, d <> c -> bool_decide (d ∈ c :: p) = bool_decide (d ∈ p)) as Hne
    by (intros d Hd; apply bool_decide_ext; set_solver).
  assert (bool_decide (c ∈ c :: p) = true) as Heq by (apply bool_decide_eq_true_2; by left).
  intros Hc. unfold perm_chars in Hc. unfold perm_mask.
  repeat (apply elem_of_cons in Hc as [->|Hc]; [
    rewrite ?Heq; rewrite ?Hne by done;
    by destruct (bool_decide ("r"%char ∈ p)), (bool_decide ("w"%char ∈ p)), (bool_decide ("x"%char ∈ p))|]).
  by apply elem_of_nil in Hc.
Qed.

Lemma permBits_cons c p acc :
  permBits (c :: p) acc = if bool_decide (c ∈ perm_chars) then permBits p (Z.lor acc (perm_bit c)) else inr c.
Proof.
  cbn [permBits]. unfold perm_bit.
  destruct (Ascii.eqb_spec c "r") as [->|]; [done|]. destruct (Ascii.eqb_spec c "w") as [->|]; [done|].
  destruct (Ascii.eqb_spec c "x") as [->|]; [done|].
  destruct (Ascii.eqb_spec c "-") as [->|]; cbn [negb]; [by rewrite Z.lor_0_r|].
  rewrite bool_decide_false; [done|]. unfold perm_chars. set_solver.
Qed.

Lemma permBits_ok p acc :
  Forall (fun c => c ∈ perm_chars) p -> permBits p acc = inl (Z.lor acc (perm_mask p)).
Proof.
  intros Hp. revert acc. induction Hp as [|c p Hc _ IH]; intros acc; [by rewrite Z.lor_0_r|].
  rewrite permBits_cons, bool_decide_true, IH, perm_mask_cons by done. by rewrite Z.lor_assoc.
Qed.

Lemma permBits_chars p acc bits : permBits p acc = inl bits -> Forall (fun c => c ∈ perm_chars) p.
Proof.
  revert acc. induction p as [|c p IH]; intros acc; [by constructor|]. rewrite permBits_cons.
  destruct (bool_decide_reflect (c ∈ perm_chars)); [|done]. intros H. constructor; [done|by eapply IH].
Qed.

Definition needs_qual (t : acl_tag) (hasQual : bool) : Prop :=
  match t with
  | ACL_USER | ACL_GROUP => hasQual = true
  | ACL_USER_OBJ | ACL_GROUP_OBJ => hasQual = false
  | ACL_OTHER | ACL_MASK => True
  end.

Lemma elem_of_pair {A} (x a b : A) : x ∈ [a; b] -> x = a \/ x = b.
Proof. set_solver. Qed.

Lemma tagOf_spec s hasQual t : tagOf s hasQual = Some t <-> s ∈ tag_names t /\ needs_qual t hasQual.
Proof.
  unfold tagOf, strcmp_eq. split.
  - repeat (case_bool_decide; cbn [orb]; [subst; destruct hasQual; intros [= <-]; split; done || set_solver|]).
    done.
  - intros [Hs Hq]. destruct t; apply elem_of_pair in Hs as [-> | ->]; cbn in Hq; subst; done.
Qed.

Lemma name_no_colon t name : name ∈ tag_names t -> ":"%char ∉ name.
Proof.
  intros Hn Hc. destruct t; apply elem_of_pair in Hn as [-> | ->]; vm_compute in Hc; set_solver.
Qed.

Lemma has_qual_spec q s :
  ":"%char ∉ q -> NUL ∉ q -> s = [] \/ (exists p, s = ":"%char :: p) ->
  hasQual (q ++ s) = match q with [] => false | _ => true end.
Proof.
  intros Hc Hn Hs. unfold hasQual. destruct q as [|x q].
  - by destruct Hs as [->|[p ->]].
  - unfold char_at. cbn [app nth]. destruct (Ascii.eqb_spec x NUL); [set_solver|]. by destruct (Ascii.eqb_spec x ":"); [set_solver|].
Qed.

Lemma qualifies_spec t q id :
  qualifies t q id <->
  needs_qual t (match q with [] => false | _ => true end) /\ id = qualOf t q /\ badQual t id q = None.
Proof.
  destruct t, q; simpl; try (destruct (Z.eqb_spec id ID_ERR)); naive_solver.
Qed.

Lemma parseEntrySpec_complete permsReqd s ace :
  entry_text permsReqd s ace -> parseEntrySpec s permsReqd = Ret (Some ace).
Proof.
  intros [t name q id s' ps Hname Hcol Hnul Hq Hps]. apply qualifies_spec in Hq as (Hneed & -> & Hbad).
  assert (forall s, s = [] \/ (exists p, s = ":"%char :: p) -> tagOf name (hasQual (q ++ s)) = Some t) as Htag.
  { intros s1 Hs1. rewrite has_qual_spec by done. by apply tagOf_spec. }
  unfold parseEntrySpec. rewrite strchr_app by (by eapply name_no_colon).
  destruct permsReqd.
  - destruct Hps as (p & -> & Hp & Hc & ->). rewrite strchr_app by done.
    destruct p as [|c p]; [done|]. cbn [andb negb]. rewrite Htag by eauto. rewrite Hbad, permBits_ok by done. done.
  - destruct Hps as [Hs ->].
    assert (match strchr (q ++ s') ":" with Some (q0, []) => (q0, None) | Some (q0, p) => (q0, Some p)
            | None => (q ++ s', None) end = (q, None)) as ->.
    { destruct Hs as [-> | ->]; [|by rewrite strchr_app].
      rewrite app_nil_r. by rewrite (proj2 (strchr_None _ _)). }
    cbn [andb negb]. rewrite Htag by (destruct Hs; eauto). by rewrite Hbad.
Qed.

Lemma parseEntrySpec_sound permsReqd s ace :
  NUL ∉ s -> parseEntrySpec s permsReqd = Ret (Some ace) -> entry_text permsReqd s ace.
Proof.
  intros Hnul. unfold parseEntrySpec. destruct (strchr s ":") as [[name rest]|] eqn:Hs; [|done].
  apply strchr_Some in Hs as [-> Hname].
  assert (exists q s' permStr,
    rest = q ++ s' /\ ":"%char ∉ q /\
    (s' = [] /\ permStr = None \/ s' = [":"%char] /\ permStr = None \/
     exists c p, s' = ":"%char :: c :: p /\ permStr = Some (c :: p)) /\
    match strchr rest ":" with Some (q0, []) => (q0, None) | Some (q0, p) => (q0, Some p)
    | None => (rest, None) end = (q, permStr)) as (q & s' & permStr & -> & Hcol & Hs' & ->).
  { destruct (strchr rest ":") as [[q p]|] eqn:Hr.
    - apply strchr_Some in Hr as [-> Hq]. exists q, (":"%char :: p). destruct p as [|c p]; eexists; naive_solver.
    - apply strchr_None in Hr. exists rest, [], None. rewrite app_nil_r. naive_solver. }
  assert (NUL ∉ q) as Hq by set_solver.
  rewrite has_qual_spec by naive_solver.
  set (hp := match permStr with Some _ => true | None => false end).
  destruct (hp && negb permsReqd) eqn:H1; [done|]. destruct (negb hp && permsReqd) eqn:H2; [done|].
  destruct (tagOf name _) as [t|] eqn:Ht; [|done]. apply tagOf_spec in Ht as [Hnames Hneed].
  destruct (badQual t (qualOf t q) q) eqn:Hbad; [done|].
  assert (qualifies t q (qualOf t q)) by (by apply qualifies_spec).
  destruct Hs' as [[-> ->]|[[-> ->]|(c & p & -> & ->)]]; destruct permsReqd; try done.
  1, 2: intros [= <-]; constructor; try done; split; naive_solver.
  destruct (permBits (c :: p) 0) as [bits|] eqn:Hbits; [|done]. intros [= <-].
  constructor; try done. pose proof (permBits_chars _ _ _ Hbits) as Hchars.
  rewrite permBits_ok in Hbits by done. injection Hbits as <-. by exists (c :: p).
Qed.

(** Apart from the entry, the result is one message. *)
Lemma parseEntrySpec_shape permsReqd s :
  (exists ace, parseEntrySpec s permsReqd = Ret (Some ace)) \/
  (exists msg, parseEntrySpec s permsReqd = reject msg).
Proof. unfold parseEntrySpec. repeat case_match; eauto. Qed.

Lemma wp_parseEntrySpec E permsReqd s h :
  NUL ∉ s ->
  wp E (parseEntrySpec s permsReqd) (fun o h' =>
    match o with
    | Done (Some ace) => h' = h /\ entry_text permsReqd s ace
    | Done None => (forall ace, ~ entry_text permsReqd s ace) /\ exists msg, h' = Ev (Out Stderr msg) tt :: h
    | Stop _ => False
    end) h.
Proof.
  intros Hnul. destruct (parseEntrySpec_shape permsReqd s) as [[ace Hp]|[msg Hp]]; rewrite Hp.
  - split; [done|]. by apply parseEntrySpec_sound.
  - intros [] _. split; [|by exists msg]. intros ace Ha.
    apply parseEntrySpec_complete in Ha. by rewrite Ha in Hp.
Qed.

Lemma wp_parseEntries E fuel permsReqd s n h :
  NUL ∉ s -> (length s < fuel)%nat ->
  wp E (parseEntries fuel s n permsReqd) (fun o h' =>
    let accepts l := Forall2 (entry_text permsReqd) (split "," s) l /\ (n + length l <= MAX_ENTRIES)%nat in
    match o with
    | Done (Some l) => h' = h /\ accepts l
    | Done None => (forall l, ~ accepts l) /\ exists msg, h' = Ev (Out Stderr msg) tt :: h
    | Stop _ => False
    end) h.
Proof.
  revert s n h. induction fuel as [|fuel IH]; intros s n h Hnul Hf; [lia|]. cbn [parseEntries].
  destruct (Nat.leb_spec MAX_ENTRIES n) as [Hmax|Hmax].
  { intros [] _. split; [|eauto]. intros l [Hl Hlen]. rewrite split_strchr in Hl.
    destruct (strchr s ",") as [[]|]; inversion Hl; subst; simpl in Hlen; lia. }
  rewrite split_strchr. destruct (strchr s ",") as [[a b]|] eqn:Hs.
  - apply strchr_Some in Hs as [-> _]. rewrite length_app in Hf. simpl in Hf.
    eapply wp_call; [apply wp_parseEntrySpec; set_solver| |done].
    intros [ace|] h' Hace.
    + destruct Hace as [-> Hace]. eapply wp_call; [apply IH; [set_solver|lia]| |done].
      intros [l|] h'; cbn [option_map wp].
      * intros (-> & Hl & Hlen). split; [done|]. split; [by constructor|simpl; lia].
      * intros (Hno & Hmsg). split; [|done]. intros l [Hl Hlen]. inversion Hl as [|? ace' ? l' ? Hl']; subst.
        apply (Hno l'). split; [done|]. simpl in Hlen. lia.
    + destruct Hace as [Hno Hmsg]. split; [|done]. intros l [Hl _]. inversion Hl; subst. by eapply Hno.
  - eapply wp_call; [by apply wp_parseEntrySpec| |done]. intros [ace|] h'; cbn [wp].
    + intros [-> Hace]. split; [done|]. split; [by repeat constructor|simpl; lia].
    + intros [Hno Hmsg]. split; [|done]. intros l [Hl _]. inversion Hl; subst. by eapply Hno.
Qed.
End Notation_of_ACLs.

(** ** What libacl documents

    [entry]: an entry as the library keeps it; its key is the tag with, for a
    named user or group, the qualifier. *)

Record entry := Entry { e_tag : acl_tag; e_qual : Z; e_perms : Z }.

Abbreviation key := (acl_tag * Z)%type.

#[export] Instance acl_tag_countable : Countable acl_tag.
Proof.
  refine (inj_countable'
    (fun t => match t with ACL_USER_OBJ => 0 | ACL_USER => 1 | ACL_GROUP_OBJ => 2 | ACL_GROUP => 3
              | ACL_MASK => 4 | ACL_OTHER => 5 end%nat)
    (fun n => match n with 0 => ACL_USER_OBJ | 1 => ACL_USER | 2 => ACL_GROUP_OBJ | 3 => ACL_GROUP
              | 4 => ACL_MASK | _ => ACL_OTHER end%nat) _).
  by intros [].
Defined.

Definition key_of (t : acl_tag) (q : Z) : key :=
  (t, match t with ACL_USER | ACL_GROUP => q | _ => 0 end).
Definition e_key (x : entry) : key := key_of (e_tag x) (e_qual x).

(** An ACL as a map from keys to permissions, and the entries in working
    storage (by descriptor) that represent it. *)
Abbreviation aclmap := (gmap (acl_tag * Z) Z).

Record rep (c : gmap Z entry) (m : aclmap) : Prop := {
  rep_in : forall d x, c !! d = Some x -> m !! e_key x = Some (e_perms x);
  rep_out : forall k p, m !! k = Some p -> exists d x, c !! d = Some x /\ e_key x = k /\ e_perms x = p;
  rep_inj : forall d d' x x', c !! d = Some x -> c !! d' = Some x' -> e_key x = e_key x' -> d = d'
}.

(** The permissions of the group class, which the mask limits. *)
Definition group_class (k : key) : bool :=
  match fst k with ACL_USER | ACL_GROUP | ACL_GROUP_OBJ => true | _ => false end.

Definition group_perms (m : aclmap) : Z :=
  map_fold (fun k p acc => if group_class k then Z.lor p acc else acc) 0 m.

Definition with_mask (m : aclmap) : aclmap := <[(ACL_MASK, 0) := group_perms m]> m.

(** One step of an iteration over the descriptors [order]. *)
Definition visits {A} (remaining : A -> list Z) (order : list Z) (ent : option Z) (a' : A) : Prop :=
  match order, ent with
  | [], None => True
  | d :: order', Some d' => d = d' /\ remaining a' = order'
  | _, _ => False
  end.

Class LibAclSpec {L : LibAcl} := {
  contents : acl -> gmap Z entry;
  remaining : acl -> list Z;
  owner : acl_permset -> Z;
  file_acl : fs -> list ascii -> Z -> aclmap;
  get_file_ok w file type a : acl_get_file w file type = Ok a -> rep (contents a) (file_acl w file type);
  set_file_ok w file type a w' m : acl_set_file w file type a = Ok w' -> rep (contents a) m ->
    file_acl w' file type = m;
  get_first_ok a ent a' : acl_get_entry a true = Ok (ent, a') ->
    contents a' = contents a /\
    exists order, order ≡ₚ elements (dom (contents a)) /\ visits remaining order ent a';
  get_next_ok a ent a' : acl_get_entry a false = Ok (ent, a') ->
    contents a' = contents a /\ visits remaining (remaining a) ent a';
  get_tag_ok a d x t : contents a !! d = Some x -> acl_get_tag_type a d = Ok t -> t = e_tag x;
  get_qualifier_ok a d x q : contents a !! d = Some x -> acl_get_qualifier a d = Ok q -> q = e_qual x;
  create_ok a a' d : acl_create_entry a = Ok (a', d) ->
    contents a !! d = None /\ exists x, contents a' = <[d := x]> (contents a);
  delete_ok a d a' : acl_delete_entry a d = Ok a' -> contents a' = delete d (contents a);
  set_tag_ok a d x t a' : contents a !! d = Some x -> acl_set_tag_type a d t = Ok a' ->
    contents a' = <[d := Entry t (e_qual x) (e_perms x)]> (contents a);
  set_qualifier_ok a d x q a' : contents a !! d = Some x -> acl_set_qualifier a d q = Ok a' ->
    contents a' = <[d := Entry (e_tag x) q (e_perms x)]> (contents a);
  get_permset_ok a d p : acl_get_permset a d = Ok p -> owner p = d;
  clear_perms_ok a p x a' : contents a !! owner p = Some x -> acl_clear_perms a p = Ok a' ->
    contents a' = <[owner p := Entry (e_tag x) (e_qual x) 0]> (contents a);
  add_perm_ok a p b x a' : contents a !! owner p = Some x -> acl_add_perm a p b = Ok a' ->
    contents a' = <[owner p := Entry (e_tag x) (e_qual x) (Z.lor (e_perms x) b)]> (contents a);
  set_permset_ok a p a' : acl_set_permset a (owner p) p = Ok a' -> contents a' = contents a;
  calc_mask_ok a m a' : rep (contents a) m -> acl_calc_mask a = Ok a' -> rep (contents a') (with_mask m)
}.

(** ** What acl_update does to an ACL *)

Definition updated (removeACL recalcMask : bool) (m : aclmap) (ace : AccessControlEntry) : aclmap :=
  let k := key_of (tag ace) (qual ace) in
  let m := if removeACL then delete k m else <[k := default 0 (perms ace)]> m in
  if recalcMask then with_mask m else m.

Lemma rep_none c m k : rep c m -> (forall d x, c !! d = Some x -> e_key x <> k) -> m !! k = None.
Proof.
  intros Hr Hk. destruct (m !! k) as [p|] eqn:Hm; [|done].
  destruct (rep_out _ _ Hr _ _ Hm) as (d & x & Hd & Hx & _). by destruct (Hk d x).
Qed.

Lemma rep_set c m d x y :
  rep c m -> c !! d = Some x -> e_key y = e_key x ->
  rep (<[d := y]> c) (<[e_key x := e_perms y]> m).
Proof.
  intros [Hin Hout Hinj] Hd Hy. split.
  - intros d' x'. destruct (decide (d' = d)) as [->|Hne].
    + rewrite lookup_insert_eq. intros [= <-]. by rewrite Hy, lookup_insert_eq.
    + rewrite lookup_insert_ne by done. intros Hd'. rewrite lookup_insert_ne; [by eapply Hin|].
      intros Hk. apply Hne. by eapply Hinj.
  - intros k q. destruct (decide (k = e_key x)) as [->|Hne].
    + rewrite lookup_insert_eq. intros [= <-]. exists d. eexists. by rewrite lookup_insert_eq.
    + rewrite lookup_insert_ne by done. intros Hk. destruct (Hout _ _ Hk) as (d' & x' & Hd' & <- & <-).
      exists d', x'. rewrite lookup_insert_ne; [done|]. intros ->. congruence.
  - intros d1 d2 x1 x2. rewrite !lookup_insert_Some.
    intros [[<- <-]|[Hn1 H1]] [[<- <-]|[Hn2 H2]] Hk; try done; [exfalso; apply Hn2|exfalso; apply Hn1|];
      eapply Hinj; eauto; congruence.
Qed.

Lemma rep_add c m d x :
  rep c m -> c !! d = None -> m !! e_key x = None -> rep (<[d := x]> c) (<[e_key x := e_perms x]> m).
Proof.
  intros [Hin Hout Hinj] Hd Hm.
  assert (forall d' x', c !! d' = Some x' -> e_key x' <> e_key x) as Hfresh.
  { intros d' x' H1 H2. apply Hin in H1. congruence. }
  split.
  - intros d' x'. rewrite lookup_insert_Some. intros [[<- <-]|[Hne Hd']]; [by rewrite lookup_insert_eq|].
    rewrite lookup_insert_ne; [by eapply Hin|]. by apply not_eq_sym, (Hfresh d').
  - intros k p. rewrite lookup_insert_Some. intros [[<- <-]|[Hne Hk]].
    + exists d, x. by rewrite lookup_insert_eq.
    + destruct (Hout _ _ Hk) as (d' & x' & Hd' & <- & <-). exists d', x'.
      rewrite lookup_insert_ne; [done|]. intros ->. congruence.
  - intros d1 d2 x1 x2. rewrite !lookup_insert_Some.
    intros [[<- <-]|[Hn1 H1]] [[<- <-]|[Hn2 H2]] Hk; try done; [| |by eapply Hinj];
      exfalso; eapply Hfresh; eauto.
Qed.

Lemma rep_remove c m d x : rep c m -> c !! d = Some x -> rep (delete d c) (delete (e_key x) m).
Proof.
  intros [Hin Hout Hinj] Hd. split.
  - intros d' x'. rewrite lookup_delete_Some. intros [Hne Hd']. rewrite lookup_delete_ne; [by eapply Hin|].
    intros Hk. apply Hne. by eapply Hinj.
  - intros k p. rewrite lookup_delete_Some. intros [Hne Hk]. destruct (Hout _ _ Hk) as (d' & x' & Hd' & <- & <-).
    exists d', x'. rewrite lookup_delete_ne; [done|]. intros ->. congruence.
  - intros d1 d2 x1 x2. rewrite !lookup_delete_Some. intros [_ H1] [_ H2] Hk. by eapply Hinj.
Qed.

Lemma rep_size c m : rep c m -> (size c <= size m)%nat.
Proof.
  intros Hr. rewrite <- (size_dom c), <- (size_dom m).
  assert (forall s : gset Z, s ⊆ dom c -> exists t : gset key, size t = size s /\ t ⊆ dom m /\
    forall k, k ∈ t <-> exists d x, d ∈ s /\ c !! d = Some x /\ e_key x = k) as H.
  { intros s. induction s as [|d s Hd IH] using set_ind_L; intros Hs.
    - exists ∅. split_and!; [by rewrite !size_empty|set_solver|set_solver].
    - destruct IH as (t & Ht & Htm & Hkt); [set_solver|].
      assert (is_Some (c !! d)) as [x Hx] by (apply elem_of_dom; set_solver).
      assert (e_key x ∉ t) as Hni.
      { rewrite Hkt. intros (d' & x' & Hd' & Hx' & He). apply Hd. by rewrite (rep_inj _ _ Hr _ _ _ _ Hx Hx' (eq_sym He)). }
      exists ({[e_key x]} ∪ t). split_and!.
      + rewrite !size_union, !size_singleton by set_solver. lia.
      + apply union_subseteq. split; [|done]. apply singleton_subseteq_l, elem_of_dom.
        eexists. by eapply rep_in.
      + intros k. rewrite elem_of_union, elem_of_singleton, Hkt. set_solver. }
  destruct (H (dom c)) as (t & <- & Ht & _); [done|]. by apply subseteq_size.
Qed.

Section UpdateSpecs.
Context {T : ErrText} {U : UserDb} {L : LibAcl} {S : LibAclSpec}.

(** A program that returns a value with property [P], or terminates the process
    with a failure. *)
Definition yields {A} (P : A -> Prop) (p : prog A) : Prop :=
  forall h, wp posix p (fun o _ => match o with Done a => P a | Stop _ => stops_failing o end) h.

Lemma yields_ret {A} (P : A -> Prop) a : P a -> yields P (Ret a).
Proof. by intros HP h. Qed.

Lemma yields_mono {A} (P Q : A -> Prop) p : (forall a, P a -> Q a) -> yields P p -> yields Q p.
Proof. intros HPQ Hp h. eapply wp_mono; [|apply Hp]. intros [a|s] h' H; auto. Qed.

Lemma yields_bind {A B} (P : A -> Prop) (Q : B -> Prop) p f :
  yields P p -> (forall a, P a -> yields Q (f a)) -> yields Q (bind p f).
Proof.
  intros Hp Hf h. eapply wp_call; [apply Hp| |].
  - intros a h' Ha. by apply Hf.
  - intros s h' Hs. unfold stops_failing in *. destruct Hs as [[= ->]|[[= ->]|[= ->]]]; auto.
Qed.

Lemma yields_ok_or {A} (P : A -> Prop) r what : (forall a, r = Ok a -> P a) -> yields P (ok_or r what).
Proof.
  intros HP. destruct r as [a|e]; [by apply yields_ret, HP|]. intros h. unfold ok_or, errExit.
  apply wp_bind, wp_outputError, wp_terminate. intros s. unfold stops_failing. destruct (dumps_core s); auto.
Qed.

Lemma key_match t q x :
  e_key x = key_of t q <-> t = e_tag x /\ match t with ACL_USER | ACL_GROUP => q = e_qual x | _ => True end.
Proof.
  unfold e_key, key_of. destruct x as [t' q' p']. simpl. split.
  - intros [= -> H]. split; [done|]. by destruct t.
  - intros [-> H]. by destruct t'; subst.
Qed.

Definition found (c : gmap Z entry) (order : list Z) (k : key) (r : option Z) : Prop :=
  match r with
  | Some d => exists x, c !! d = Some x /\ e_key x = k
  | None => forall d x, d ∈ order -> c !! d = Some x -> e_key x <> k
  end.

(** The loop visits [order], whatever decides about its first step. *)
Lemma findLoop_yields fuel first a t q order :
  (forall ent a', acl_get_entry a first = Ok (ent, a') ->
     contents a' = contents a /\ visits remaining order ent a') ->
  (forall d, d ∈ order -> is_Some (contents a !! d)) -> (length order < fuel)%nat ->
  yields (fun r => contents (fst r) = contents a /\ found (contents a) order (key_of t q) (snd r))
         (findLoop fuel first a t q).
Proof.
  revert first a order. induction fuel as [|fuel IH]; intros first a order Hstep Hdom Hlen; [lia|].
  cbn [findLoop].
  eapply yields_bind; [apply (yields_ok_or (fun r => contents (snd r) = contents a /\ visits remaining order (fst r) (snd r)))|].
  { intros [ent a'] Ha. by apply Hstep. }
  intros [ent a'] [Hc Hv]. simpl in Hc, Hv. destruct order as [|d order], ent as [d'|]; try done.
  { apply yields_ret. split; [done|]. intros d x Hd. by apply elem_of_nil in Hd. }
  destruct Hv as [<- Hrem]. destruct (Hdom d) as [x Hx]; [by left|].
  assert (e_key x <> key_of t q -> yields (fun r => contents (fst r) = contents a /\
    found (contents a) (d :: order) (key_of t q) (snd r)) (findLoop fuel false a' t q)) as Hgo.
  { intros Hne. eapply yields_mono; [|apply (IH false a' order)].
    - intros [a2 r] [Hc2 Hr]. simpl in *. rewrite Hc in *. split; [done|]. destruct r as [d2|]; [done|].
      intros d2 x2 [->|Hd2]%elem_of_cons Hx2; [congruence|by eapply Hr].
    - intros ent a2 H2. rewrite <- Hrem. by apply get_next_ok.
    - intros d2 Hd2. rewrite Hc. apply Hdom. by right.
    - simpl in Hlen. lia. }
  assert (e_key x = key_of t q -> yields (fun r => contents (fst r) = contents a /\
    found (contents a) (d :: order) (key_of t q) (snd r)) (Ret (a', Some d))) as Hret.
  { intros Hk. apply yields_ret. split; [done|]. by exists x. }
  eapply yields_bind; [apply (yields_ok_or (fun t' => t' = e_tag x))|].
  { intros t' Ht'. eapply get_tag_ok; [|done]. by rewrite Hc. }
  intros ? ->. destruct (bool_decide_reflect (t = e_tag x)) as [Ht|Ht].
  2:{ apply Hgo. rewrite key_match. naive_solver. }
  assert (forall q', q' = e_qual x -> (t = ACL_USER \/ t = ACL_GROUP) ->
    yields (fun r => contents (fst r) = contents a /\ found (contents a) (d :: order) (key_of t q) (snd r))
      (ok_or (acl_free_qualifier a' q') ($"acl_free") ;;;
       if q =? q' then Ret (a', Some d) else findLoop fuel false a' t q)) as Hqual.
  { intros q' -> Htt. eapply yields_bind; [by apply (yields_ok_or (fun _ => True))|]. intros _ _.
    destruct (Z.eqb_spec q (e_qual x)) as [Hq|Hq]; [apply Hret|apply Hgo]; rewrite key_match.
    - split; [done|]. by destruct t.
    - intros [_ H]. by destruct Htt as [-> | ->]. }
  assert (forall q', acl_get_qualifier a' d = Ok q' -> q' = e_qual x) as Hget.
  { intros q' Hq'. eapply get_qualifier_ok; [|done]. by rewrite Hc. }
  destruct t; try (apply Hret; rewrite key_match; done);
    (eapply yields_bind; [by apply (yields_ok_or (fun q' => q' = e_qual x))|]; intros q' Hq'; apply Hqual; auto).
Qed.

Lemma findEntry_yields fuel a t q :
  (size (contents a) < fuel)%nat ->
  yields (fun r => contents (fst r) = contents a /\
            match snd r with
            | Some d => exists x, contents a !! d = Some x /\ e_key x = key_of t q
            | None => forall d x, contents a !! d = Some x -> e_key x <> key_of t q
            end) (findEntry fuel a t q).
Proof.
  intros Hf. unfold findEntry.
  assert (exists order, order ≡ₚ elements (dom (contents a)) /\
    forall ent a', acl_get_entry a true = Ok (ent, a') ->
      contents a' = contents a /\ visits remaining order ent a') as (order & Hperm & Hstep).
  { destruct (acl_get_entry a true) as [[ent a']|e] eqn:Ha.
    - destruct (get_first_ok _ _ _ Ha) as (Hc & order & Hp & Hv). exists order. split; [done|].
      by intros ? ? [= <- <-].
    - by exists (elements (dom (contents a))). }
  eapply yields_mono; [|apply (findLoop_yields _ _ _ _ _ order)].
  - intros [a' r] [Hc Hr]. split; [done|]. destruct r as [d|]; [done|]. intros d x Hd.
    cbn in Hr. apply (Hr d x); [|done]. rewrite Hperm, elem_of_elements, elem_of_dom. eauto.
  - done.
  - intros d. rewrite Hperm, elem_of_elements. apply elem_of_dom.
  - rewrite Hperm. change (length (elements (dom (contents a)))) with (size (dom (contents a))).
    by rewrite size_dom.
Qed.

Lemma flags_all p :
  0 <= p < 8 ->
  Z.lor (Z.lor (Z.lor 0 (if flag p ACL_READ then ACL_READ else 0)) (if flag p ACL_WRITE then ACL_WRITE else 0))
    (if flag p ACL_EXECUTE then ACL_EXECUTE else 0) = p.
Proof.
  intros Hp. assert (p = 0 \/ p = 1 \/ p = 2 \/ p = 3 \/ p = 4 \/ p = 5 \/ p = 6 \/ p = 7) as H by lia.
  repeat destruct H as [-> | H]; subst; done.
Qed.

(** Adding one permission if it is asked for. *)
Lemma add_yields (b : bool) a p v x y :
  contents a = <[owner p := Entry (e_tag x) (e_qual x) y]> (contents a) ->
  contents a !! owner p = Some (Entry (e_tag x) (e_qual x) y) ->
  yields (fun a' => contents a' = <[owner p := Entry (e_tag x) (e_qual x) (Z.lor y (if b then v else 0))]> (contents a))
    (if b then ok_or (acl_add_perm a p v) ($"acl_add_perm") else Ret a).
Proof.
  intros Hself Hx. destruct b.
  - apply yields_ok_or. intros a' Ha'. by rewrite (add_perm_ok _ _ _ _ _ Hx Ha').
  - apply yields_ret. by rewrite Z.lor_0_r.
Qed.

Lemma setPerms_yields a d x p :
  contents a !! d = Some x -> 0 <= p < 8 ->
  yields (fun a' => contents a' = <[d := Entry (e_tag x) (e_qual x) p]> (contents a)) (setPerms a d p).
Proof.
  intros Hx Hp. unfold setPerms.
  eapply yields_bind; [apply (yields_ok_or (fun ps => owner ps = d)), get_permset_ok|]. intros ps <-.
  eapply yields_bind; [apply (yields_ok_or (fun a1 => contents a1 = <[owner ps := Entry (e_tag x) (e_qual x) 0]> (contents a)));
    intros a1; by apply clear_perms_ok|]. intros a1 H1.
  assert (forall a2 y, contents a2 = <[owner ps := Entry (e_tag x) (e_qual x) y]> (contents a) ->
    contents a2 !! owner ps = Some (Entry (e_tag x) (e_qual x) y)) as Hat by (intros a2 y ->; by rewrite lookup_insert_eq).
  assert (forall a2 y (b : bool) v, contents a2 = <[owner ps := Entry (e_tag x) (e_qual x) y]> (contents a) ->
    yields (fun a' => contents a' = <[owner ps := Entry (e_tag x) (e_qual x) (Z.lor y (if b then v else 0))]> (contents a))
      (if b then ok_or (acl_add_perm a2 ps v) ($"acl_add_perm") else Ret a2)) as Hadd.
  { intros a2 y b v H2. eapply yields_mono; [|apply add_yields; [|by apply Hat]].
    - intros a' ->. by rewrite H2, insert_insert_eq.
    - by rewrite H2, insert_insert_eq. }
  eapply yields_bind; [exact (Hadd _ _ _ _ H1)|]. intros a2 H2.
  eapply yields_bind; [exact (Hadd _ _ _ _ H2)|]. intros a3 H3.
  eapply yields_bind; [exact (Hadd _ _ _ _ H3)|]. intros a4 H4.
  apply yields_ok_or. intros a5 H5. by rewrite (set_permset_ok _ _ _ H5), H4, flags_all.
Qed.

Lemma createEntry_yields a ace :
  yields (fun r => exists x, contents a !! snd r = None /\ e_key x = key_of (tag ace) (qual ace) /\
            contents (fst r) = <[snd r := x]> (contents a)) (createEntry a ace).
Proof.
  unfold createEntry.
  eapply yields_bind; [apply (yields_ok_or (fun r => contents a !! snd r = None /\
    exists x, contents (fst r) = <[snd r := x]> (contents a)));
    intros [a1 d] H1; by apply create_ok|].
  intros [a1 d] (Hd & x & H1). simpl in Hd, H1.
  eapply yields_bind; [apply (yields_ok_or (fun a2 => contents a2 =
    <[d := Entry (tag ace) (e_qual x) (e_perms x)]> (contents a)))|].
  { intros a2 H2. rewrite (set_tag_ok _ _ x _ _ ltac:(by rewrite H1, lookup_insert_eq) H2), H1.
    apply insert_insert_eq. }
  intros a2 H2. eapply (yields_bind (fun a3 => exists y,
    e_key y = key_of (tag ace) (qual ace) /\ contents a3 = <[d := y]> (contents a))).
  - assert (forall what, yields (fun a3 => exists y, e_key y = key_of (tag ace) (qual ace) /\
      contents a3 = <[d := y]> (contents a)) (ok_or (acl_set_qualifier a2 d (qual ace)) what)) as Hq.
    { intros what. apply yields_ok_or. intros a3 H3. eexists (Entry _ _ _).
      rewrite (set_qualifier_ok _ _ _ _ _ ltac:(by rewrite H2, lookup_insert_eq) H3), H2, insert_insert_eq.
      by split. }
    assert (match tag ace with ACL_USER | ACL_GROUP => False | _ => True end ->
      exists y, e_key y = key_of (tag ace) (qual ace) /\ contents a2 = <[d := y]> (contents a)) as Hr.
    { intros Ht. eexists. split; [|exact H2]. unfold e_key, key_of. simpl. by destruct (tag ace). }
    destruct (tag ace); try (apply yields_ret, Hr; done); apply Hq.
  - intros a3 (y & Hy & H3). apply yields_ret. by exists y.
Qed.

(** What an entry must have for the operation: permissions to set. *)
Definition usable (removeACL : bool) (ace : AccessControlEntry) : Prop :=
  removeACL = true \/ exists p, perms ace = Some p /\ 0 <= p < 8.

Lemma size_updated removeACL recalcMask m ace :
  (size (updated removeACL recalcMask m ace) <= size m + 2)%nat.
Proof.
  assert (forall k p (m : aclmap), size (<[k := p]> m) <= size m + 1)%nat as Hi.
  { intros k p m'. destruct (m' !! k) eqn:Hk; [rewrite map_size_insert_Some by eauto; lia|].
    rewrite map_size_insert_None by done. lia. }
  assert (forall k (m : aclmap), size (delete k m) <= size m)%nat as Hd.
  { intros k m'. destruct (m' !! k) eqn:Hk; [rewrite map_size_delete_Some by eauto; lia|].
    rewrite map_size_delete_None by done. lia. }
  unfold updated, with_mask. set (k := key_of _ _).
  pose proof (Hi k (default 0 (perms ace)) m). pose proof (Hd k m).
  destruct removeACL, recalcMask; try (etrans; [apply Hi|]); lia.
Qed.

(** The descriptor that findEntry found, if any. *)
Definition located (c : gmap Z entry) (k : key) (r : option Z) : Prop :=
  match r with
  | Some d => exists x, c !! d = Some x /\ e_key x = k
  | None => forall d x, c !! d = Some x -> e_key x <> k
  end.

Lemma remove_yields a d m k :
  rep (contents a) m -> located (contents a) k d ->
  yields (fun a' => rep (contents a') (delete k m))
    match d with
    | Some d => ok_or (acl_delete_entry a d) ($"acl_delete_entry")
    | None => Ret a
    end.
Proof.
  intros Hrep Hd. destruct d as [d|].
  - destruct Hd as (x & Hx & <-). apply yields_ok_or. intros a' Ha'. rewrite (delete_ok _ _ _ Ha').
    by apply rep_remove.
  - apply yields_ret. rewrite delete_id; [done|]. by eapply rep_none.
Qed.

Lemma modify_yields a d m ace p :
  rep (contents a) m -> located (contents a) (key_of (tag ace) (qual ace)) d -> 0 <= p < 8 ->
  yields (fun a' => rep (contents a') (<[key_of (tag ace) (qual ace) := p]> m))
    ('(a, d) <- match d with None => createEntry a ace | Some d => Ret (a, d) end ;; setPerms a d p).
Proof.
  intros Hrep Hd Hp. destruct d as [d|]; cbn [bind].
  - destruct Hd as (x & Hx & <-). eapply yields_mono; [|by apply setPerms_yields].
    intros a' ->. by apply (rep_set _ _ _ x (Entry (e_tag x) (e_qual x) p)).
  - eapply yields_bind; [apply createEntry_yields|]. intros [a1 d] (x & Hnone & Hk & Ha1). simpl in *.
    assert (m !! key_of (tag ace) (qual ace) = None) as Hm by (by eapply rep_none).
    eapply yields_mono; [|apply (setPerms_yields _ _ x); [by rewrite Ha1, lookup_insert_eq|done]].
    intros a' ->. rewrite Ha1, insert_insert_eq. change p with (e_perms (Entry (e_tag x) (e_qual x) p)) at 2.
    rewrite <- Hk. change (e_key x) with (e_key (Entry (e_tag x) (e_qual x) p)).
    apply rep_add; [done..|]. by change (m !! e_key x = None); rewrite Hk.
Qed.

Lemma applyEntry_yields fuel removeACL recalcMask file type w a ace m :
  rep (contents a) m -> (size m < fuel)%nat -> usable removeACL ace ->
  yields (fun r => let m' := updated removeACL recalcMask m ace in
            rep (contents (snd r)) m' /\ file_acl (fst r) file type = m')
    (applyEntry fuel removeACL recalcMask file type w a ace).
Proof.
  intros Hrep Hf Hu. unfold applyEntry.
  eapply yields_bind; [apply findEntry_yields; pose proof (rep_size _ _ Hrep); lia|].
  intros [a1 d] [H1 Hd]. simpl in H1, Hd.
  rewrite <- H1 in Hrep, Hd. set (k := key_of _ _) in Hd.
  eapply (yields_bind (fun a2 => rep (contents a2)
    (if removeACL then delete k m else <[k := default 0 (perms ace)]> m))).
  { destruct removeACL; [by apply remove_yields|]. destruct Hu as [|(p & Hps & Hp)]; [done|]. rewrite Hps.
    by apply modify_yields. }
  intros a2 H2. eapply (yields_bind (fun a3 => rep (contents a3) (updated removeACL recalcMask m ace))).
  { unfold updated. destruct recalcMask; [|by apply yields_ret]. apply yields_ok_or. intros a3. by apply calc_mask_ok. }
  intros a3 H3. eapply yields_bind; [by apply (yields_ok_or (fun _ => True))|]. intros _ _.
  eapply yields_bind; [apply (yields_ok_or (fun w' => file_acl w' file type = updated removeACL recalcMask m ace))|].
  { intros w' Hw. by eapply set_file_ok. }
  intros w' Hw. by apply yields_ret.
Qed.

Lemma applyEntries_yields fuel removeACL recalcMask file type w a aclist m :
  rep (contents a) m -> file_acl w file type = m -> (size m + 2 * length aclist < fuel)%nat ->
  Forall (usable removeACL) aclist ->
  yields (fun r => file_acl (fst r) file type = foldl (updated removeACL recalcMask) m aclist)
    (applyEntries fuel removeACL recalcMask file type w a aclist).
Proof.
  intros Hrep Hw Hf Hu. revert w a m Hrep Hw Hf.
  induction Hu as [|ace aclist Hace _ IH]; intros w a m Hrep Hw Hf; [by apply yields_ret|].
  simpl in Hf. cbn [applyEntries foldl].
  eapply yields_bind; [apply (applyEntry_yields _ _ _ _ _ _ _ _ m); [done|lia|done]|].
  intros [w' a'] [Hrep' Hw']. apply IH; [done..|].
  pose proof (size_updated removeACL recalcMask m ace). lia.
Qed.

Lemma acl_text_usable removeACL s aclist :
  acl_text (negb removeACL) s aclist -> Forall (usable removeACL) aclist.
Proof.
  intros [H _]. eapply Forall2_Forall_r; [exact H|]. apply Forall_forall. intros x _ ace.
  destruct 1 as [t name q id s' ps _ _ _ _ Hps]. destruct removeACL; [by left|right]. simpl in *.
  destruct Hps as (p & _ & _ & _ & ->). exists (perm_mask p). split; [done|]. unfold perm_mask.
  repeat case_bool_decide; lia.
Qed.
End UpdateSpecs.

(** ** A library that keeps its promises

    ACLs are finite maps from descriptors to entries; a file system gives the
    entries of every file.  Entries with the same key are an error. *)

Module Reference.

Definition distinct (c : gmap Z entry) : Prop :=
  map_Forall (fun d x => map_Forall (fun d' x' => e_key x = e_key x' -> d = d') c) c.

Definition abs (c : gmap Z entry) : aclmap :=
  map_fold (fun _ x m => <[e_key x := e_perms x]> m) ∅ c.

Lemma rep_abs c : distinct c -> rep c (abs c).
Proof.
  unfold abs. apply (map_fold_weak_ind (fun m c => distinct c -> rep c m)).
  - intros _. split; [intros d x H|intros k p H|intros d d' x x' H]; by rewrite lookup_empty in H.
  - intros d x c' m Hd IH Hdis. assert (rep c' m) as Hr.
    { apply IH. intros d1 x1 H1 d2 x2 H2. apply (Hdis d1 x1); rewrite lookup_insert_ne; congruence. }
    apply rep_add; [done..|]. eapply rep_none; [done|]. intros d' x' Hd' Hk.
    assert (d' = d); [|congruence].
    apply (Hdis d' x' ltac:(rewrite lookup_insert_ne; congruence) d x); [by rewrite lookup_insert_eq|done].
Qed.

Lemma rep_distinct c m : rep c m -> distinct c.
Proof. intros Hr d x Hd d' x' Hd' Hk. by eapply rep_inj. Qed.

Lemma rep_unique c m m' : rep c m -> rep c m' -> m = m'.
Proof.
  intros Hm Hm'. apply map_eq. intros k. apply option_eq. intros p. split; intros H;
    [destruct (rep_out _ _ Hm _ _ H) as (d & x & Hd & <- & <-)|destruct (rep_out _ _ Hm' _ _ H) as (d & x & Hd & <- & <-)];
    by eapply rep_in.
Qed.

Record storage := Storage { st_entries : gmap Z entry; st_rest : list Z }.

Definition step (c : gmap Z entry) (l : list Z) : res (option Z * storage) :=
  match l with
  | [] => Ok (None, Storage c [])
  | d :: l' => Ok (Some d, Storage c l')
  end.

(** Change the entry of a descriptor. *)
Definition change_entry (a : storage) (d : Z) (f : entry -> entry) : res storage :=
  match st_entries a !! d with
  | None => Err EINVAL
  | Some x => Ok (Storage (<[d := f x]> (st_entries a)) (st_rest a))
  end.

Definition mask_of (c : gmap Z entry) : option Z :=
  fst <$> head (filter (fun dx => e_key (snd dx) = (ACL_MASK, 0)) (map_to_list c)).

Definition calc_mask (a : storage) : res storage :=
  let c := st_entries a in
  let d := default (fresh (dom c)) (mask_of c) in
  Ok (Storage (<[d := Entry ACL_MASK 0 (group_perms (abs c))]> c) (st_rest a)).

Definition files : Type := list ascii -> Z -> gmap Z entry.

Definition set_file (w : files) (file : list ascii) (type : Z) (a : storage) : res files :=
  Ok (fun f t => if bool_decide (f = file /\ t = type) then st_entries a else w f t).

#[export] Instance lib : LibAcl := {
  acl := storage;
  fs := files;
  acl_permset := Z;
  acl_get_file w file type :=
    if decide (distinct (w file type)) then Ok (Storage (w file type) []) else Err EINVAL;
  acl_set_file := set_file;
  acl_delete_def_file w file := set_file w file ACL_TYPE_DEFAULT (Storage ∅ []);
  acl_get_entry a first := step (st_entries a) (if first : bool then elements (dom (st_entries a)) else st_rest a);
  acl_get_tag_type a d := match st_entries a !! d with Some x => Ok (e_tag x) | None => Err EINVAL end;
  acl_get_qualifier a d := match st_entries a !! d with Some x => Ok (e_qual x) | None => Err EINVAL end;
  acl_create_entry a :=
    let d := fresh (dom (st_entries a)) in
    Ok (Storage (<[d := Entry ACL_OTHER 0 0]> (st_entries a)) (st_rest a), d);
  acl_delete_entry a d := Ok (Storage (delete d (st_entries a)) (st_rest a));
  acl_set_tag_type a d t := change_entry a d (fun x => Entry t (e_qual x) (e_perms x));
  acl_set_qualifier a d q := change_entry a d (fun x => Entry (e_tag x) q (e_perms x));
  acl_get_permset a d := Ok d;
  acl_clear_perms a p := change_entry a p (fun x => Entry (e_tag x) (e_qual x) 0);
  acl_add_perm a p b := change_entry a p (fun x => Entry (e_tag x) (e_qual x) (Z.lor (e_perms x) b));
  acl_set_permset a d p := Ok a;
  acl_calc_mask := calc_mask;
  acl_valid a := if decide (distinct (st_entries a)) then Ok tt else Err EINVAL;
  acl_free_qualifier a q := Ok tt;
  acl_free a := Ok tt
}.

Lemma mask_of_Some c d : mask_of c = Some d -> exists x, c !! d = Some x /\ e_key x = (ACL_MASK, 0).
Proof.
  unfold mask_of. destruct (filter _ _) as [|[d' x] l] eqn:Hf; [done|]. intros [= <-].
  assert ((d', x) ∈ filter (fun dx => e_key (snd dx) = (ACL_MASK, 0)) (map_to_list c)) as Hin by (rewrite Hf; by left).
  apply list_elem_of_filter in Hin as [Hk Hin]. exists x. split; [by apply elem_of_map_to_list|done].
Qed.

Lemma mask_of_None c d x : mask_of c = None -> c !! d = Some x -> e_key x <> (ACL_MASK, 0).
Proof.
  unfold mask_of. destruct (filter _ _) eqn:Hf; [|done]. intros _ Hd Hk.
  assert ((d, x) ∈ filter (fun dx => e_key (snd dx) = (ACL_MASK, 0)) (map_to_list c)) as Hin.
  { apply list_elem_of_filter. split; [done|by apply elem_of_map_to_list]. }
  rewrite Hf in Hin. by apply elem_of_nil in Hin.
Qed.

Lemma calc_mask_rep a a' m :
  rep (st_entries a) m -> calc_mask a = Ok a' -> rep (st_entries a') (with_mask m).
Proof.
  intros Hr [= <-]. rewrite (rep_unique _ _ _ (rep_abs _ (rep_distinct _ _ Hr)) Hr). cbn [st_entries].
  unfold with_mask. set (y := Entry ACL_MASK 0 (group_perms m)).
  change (group_perms m) with (e_perms y). destruct (mask_of (st_entries a)) as [d|] eqn:Hd; cbn [default].
  - destruct (mask_of_Some _ _ Hd) as (x & Hx & Hk). rewrite <- Hk. by apply rep_set.
  - apply (rep_add _ _ _ y); [done| |].
    + apply not_elem_of_dom, is_fresh.
    + eapply rep_none; [done|]. intros d' x'. by apply mask_of_None.
Qed.

Lemma change_entry_ok a d f x a' :
  st_entries a !! d = Some x -> change_entry a d f = Ok a' -> st_entries a' = <[d := f x]> (st_entries a).
Proof. unfold change_entry. by intros -> [= <-]. Qed.

#[export] Program Instance lib_spec : LibAclSpec := {
  contents := st_entries;
  remaining := st_rest;
  owner p := p;
  file_acl w file type := abs (w file type)
}.
Next Obligation. intros w file type a. simpl. case_decide; [|done]. intros [= <-]. by apply rep_abs. Qed.
Next Obligation.
  intros w file type a w' m [= <-] Hr. cbn. rewrite bool_decide_true by done.
  eapply rep_unique; [|done]. by eapply rep_abs, rep_distinct.
Qed.
Next Obligation.
  intros a ent a' H. split; [|exists (elements (dom (st_entries a))); split; [done|]]; revert H; cbn; unfold step;
    destruct (elements _); by intros [= <- <-].
Qed.
Next Obligation. intros a ent a'. cbn. unfold step. destruct (st_rest a); by intros [= <- <-]. Qed.
Next Obligation. intros a d x t H. cbn in *. rewrite H. by intros [= <-]. Qed.
Next Obligation. intros a d x t H. cbn in *. rewrite H. by intros [= <-]. Qed.
Next Obligation.
  intros a a' d [= <- <-]. split; [apply not_elem_of_dom, is_fresh|]. by eexists.
Qed.
Next Obligation. by intros a d a' [= <-]. Qed.
Next Obligation. intros a d x t a' Hx H. exact (change_entry_ok _ _ _ _ _ Hx H). Qed.
Next Obligation. intros a d x q a' Hx H. exact (change_entry_ok _ _ _ _ _ Hx H). Qed.
Next Obligation. by intros a d p [= <-]. Qed.
Next Obligation. intros a p x a' Hx H. exact (change_entry_ok _ _ _ _ _ Hx H). Qed.
Next Obligation. intros a p b x a' Hx H. exact (change_entry_ok _ _ _ _ _ Hx H). Qed.
Next Obligation. by intros a p a' [= <-]. Qed.
Next Obligation. intros a m a' Hr H. by eapply calc_mask_rep. Qed.
End Reference.

(** ** Properties *)

(** [parseACL] accepts exactly the documented notation.  It returns the
    entries if and only if the string is a comma-separated list of at most
    [MAX_ENTRIES] entries [tag:[qualifier][:[perms]]], where a user or group is
    named by an existing identifier or account, permissions are letters of
    [rwx-] and are given exactly when they are required; otherwise the result is
    -1 after one message on standard error. *)
Lemma parseACL_grammar {U : UserDb} E s permsReqd h :
  NUL ∉ s ->
  wp E (parseACL s permsReqd) (fun o h' =>
    match o with
    | Done (Some l) => h' = h /\ acl_text permsReqd s l
    | Done None => (forall l, ~ acl_text permsReqd s l) /\ exists msg, h' = Ev (Out Stderr msg) tt :: h
    | Stop _ => False
    end) h.
Proof. intros Hnul. apply (wp_parseEntries E _ permsReqd s 0); [done|lia]. Qed.

(** [acl_update] edits the ACL of a file as a map from users and groups to
    permissions.  For entries that were parsed from the command line, if the
    process does not terminate with a failure, the ACL of the file is the old one
    with the entries set (option -m) or removed (-x) one after the other and,
    unless -n was given, the mask recalculated as the union of the permissions of
    the group class; the search for an entry ends within the number of entries. *)
Lemma updateFile_refines {T : ErrText} {U : UserDb} {L : LibAcl} {S : LibAclSpec}
    fuel removeACL recalcMask type spec aclist w file :
  acl_text (negb removeACL) spec aclist ->
  (size (file_acl w file type) + 2 * length aclist < fuel)%nat ->
  yields (fun w' => file_acl w' file type =
            foldl (updated removeACL recalcMask) (file_acl w file type) aclist)
    (updateFile fuel false (negb removeACL) removeACL recalcMask type aclist w file).
Proof.
  intros Htext Hf. apply acl_text_usable in Htext. unfold updateFile.
  replace (negb removeACL || removeACL) with true by (by destruct removeACL).
  eapply yields_bind; [apply (yields_ok_or (fun a => rep (contents a) (file_acl w file type)))|].
  { intros a. apply get_file_ok. }
  intros a Ha. eapply yields_bind; [by apply (applyEntries_yields _ _ _ _ _ _ _ _ (file_acl w file type))|]. intros [w' a'] Hw'.
  eapply yields_bind; [by apply (yields_ok_or (fun _ => True))|]. intros _ _. by apply yields_ret.
Qed.

(** C35: acl_update.  It edits the ACL of a file as a map from users and groups to
    permissions: for entries that were parsed from the command line, if the process
    does not terminate with a failure, the ACL of the file is the old one with the
    entries set (option -m) or removed (-x) one after the other and, unless -n was
    given, the mask recalculated as the union of the permissions of the group
    class; the search for an entry ends within the number of entries.  [parseACL]
    accepts exactly the documented notation: it returns the entries if and only if
    the string is a comma-separated list of at most [MAX_ENTRIES] entries
    [tag:[qualifier][:[perms]]], where a user or group is named by an existing
    identifier or account, permissions are letters of [rwx-] and are given exactly
    when they are required; otherwise the result is -1 after one message on
    standard error. *)
Theorem acl_update_correct :
  (forall (T : ErrText) (U : UserDb) (L : LibAcl) (S : LibAclSpec)
    fuel removeACL recalcMask type spec aclist w file,
   acl_text (negb removeACL) spec aclist ->
    (size (file_acl w file type) + 2 * length aclist < fuel)%nat ->
    yields (fun w' => file_acl w' file type =
              foldl (updated removeACL recalcMask) (file_acl w file type) aclist)
      (updateFile fuel false (negb removeACL) removeACL recalcMask type aclist w file)) /\
  (forall (U : UserDb) E s permsReqd h,
   NUL ∉ s ->
    wp E (parseACL s permsReqd) (fun o h' =>
      match o with
      | Done (Some l) => h' = h /\ acl_text permsReqd s l
      | Done None => (forall l, ~ acl_text permsReqd s l) /\ exists msg, h' = Ev (Out Stderr msg) tt :: h
      | Stop _ => False
      end) h).
Proof. split; [exact @updateFile_refines|exact @parseACL_grammar]. Qed.

(** ** Witnesses *)

Definition no_users : UserDb := {| getpwnam _ := None; getgrnam _ := None; getpwuid _ := None; getgrgid _ := None |}.


#[local] Existing Instance Reference.lib.
#[local] Existing Instance Reference.lib_spec.

(** The file has the entries that its mode gives it: rw-r--r--. *)
Definition plain_file : Reference.files := fun _ _ =>
  {[1 := Entry ACL_USER_OBJ 0 6; 2 := Entry ACL_GROUP_OBJ 0 4; 3 := Entry ACL_OTHER 0 4]}.

Lemma acl_update_correct_witness :
  let aclist := [Ace ACL_USER_OBJ 0 (Some 6); Ace ACL_GROUP 50 (Some 4)] in
  run failing_kernel (parseACL (U := no_users) ($"u::rw-,g:50:r") true) [] = (Done (Some aclist), []) /\
  acl_text (U := no_users) true ($"u::rw-,g:50:r") aclist /\
  yields (fun w' => file_acl w' ($"f") ACL_TYPE_ACCESS =
            foldl (updated false true) (file_acl plain_file ($"f") ACL_TYPE_ACCESS) aclist)
    (updateFile (T := demo_text) (L := Reference.lib) 20 false true false true ACL_TYPE_ACCESS aclist plain_file ($"f")).
Proof.
  intros aclist. assert (NUL ∉ $"u::rw-,g:50:r") as Hnul by (vm_compute; set_solver).
  pose proof (wp_run posix failing_kernel _ _ [] posix_inhabited
    (proj2 acl_update_correct no_users posix ($"u::rw-,g:50:r") true [] Hnul)) as H.
  assert (run failing_kernel (parseACL (U := no_users) ($"u::rw-,g:50:r") true) [] = (Done (Some aclist), [])) as Hrun
    by (vm_compute; reflexivity).
  rewrite Hrun in H. destruct H as [_ Htext].
  split; [exact Hrun|]. split; [exact Htext|].
  apply (proj1 acl_update_correct demo_text no_users Reference.lib _ 20%nat false true ACL_TYPE_ACCESS ($"u::rw-,g:50:r")
           aclist plain_file ($"f") Htext).
  vm_compute. lia.
Defined.

(** The update itself, evaluated: the group entry and the mask are added. *)
Example updateFile_runs :
  match fst (run failing_kernel
    (updateFile (T := demo_text) 20 false true false true ACL_TYPE_ACCESS
       [Ace ACL_GROUP 50 (Some 6)] plain_file ($"f")) []) with
  | Done w' => file_acl w' ($"f") ACL_TYPE_ACCESS =
      {[(ACL_USER_OBJ, 0) := 6; (ACL_GROUP_OBJ, 0) := 4; (ACL_OTHER, 0) := 4;
        (ACL_GROUP, 50) := 6; (ACL_MASK, 0) := 6]}
  | Stop _ => False
  end.
Proof. vm_compute. reflexivity. Qed.
