(* ===== verification/FilePerms.v ===== *)
(** * files/file_perms.c: permission strings

    [filePermStr] displays a file mode in the style of ls(1); the static buffer
    is returned by value. *)

From S2P Require Import Prelude.

Definition S_ISUID : Z := 0x800.
Definition S_ISGID : Z := 0x400.
Definition S_ISVTX : Z := 0x200.
Definition S_IRUSR : Z := 0x100.
Definition S_IWUSR : Z := 0x80.
Definition S_IXUSR : Z := 0x40.
Definition S_IRGRP : Z := 0x20.
Definition S_IWGRP : Z := 0x10.
Definition S_IXGRP : Z := 0x8.
Definition S_IROTH : Z := 0x4.
Definition S_IWOTH : Z := 0x2.
Definition S_IXOTH : Z := 0x1.
Definition FP_SPECIAL : Z := 1.

(** sizeof("rwxrwxrwx") *)
Definition STR_SIZE : nat := 10.

Definition filePermStr (perm flags : Z) : list ascii :=
  snprintf STR_SIZE
    [(if flag perm S_IRUSR then "r" else "-")%char; (if flag perm S_IWUSR then "w" else "-")%char;
     (if flag perm S_IXUSR
      then (if flag perm S_ISUID && flag flags FP_SPECIAL then "s" else "x")
      else (if flag perm S_ISUID && flag flags FP_SPECIAL then "S" else "-"))%char;
     (if flag perm S_IRGRP then "r" else "-")%char; (if flag perm S_IWGRP then "w" else "-")%char;
     (if flag perm S_IXGRP
      then (if flag perm S_ISGID && flag flags FP_SPECIAL then "s" else "x")
      else (if flag perm S_ISGID && flag flags FP_SPECIAL then "S" else "-"))%char;
     (if flag perm S_IROTH then "r" else "-")%char; (if flag perm S_IWOTH then "w" else "-")%char;
     (if flag perm S_IXOTH
      then (if flag perm S_ISVTX && flag flags FP_SPECIAL then "t" else "x")
      else (if flag perm S_ISVTX && flag flags FP_SPECIAL then "T" else "-"))%char].

(** ** How ls(1) strings are read

    A letter stands for the permission of its place; a lower-case s or t for
    execute permission with the special bit, an upper-case one for the special
    bit alone. *)

Definition letter_value (bit special : Z) (c : ascii) : Z :=
  if decide (c ∈ ["r"; "w"; "x"]%char) then bit
  else if decide (c ∈ ["s"; "t"]%char) then bit + special
  else if decide (c ∈ ["S"; "T"]%char) then special
  else 0.

Definition places : list (Z * Z) :=
  [(0x100, 0); (0x80, 0); (0x40, 0x800); (0x20, 0); (0x10, 0); (0x8, 0x400);
   (0x4, 0); (0x2, 0); (0x1, 0x200)].

Definition mode_of (s : list ascii) : Z :=
  fold_right Z.add 0 (zip_with (fun '(bit, special) c => letter_value bit special c) places s).

Lemma flag_land perm m b : Z.land m b = b -> flag (Z.land perm m) b = flag perm b.
Proof. intros Hm. unfold flag. by rewrite <- Z.land_assoc, Hm. Qed.

(** Only the twelve low bits matter. *)
Lemma filePermStr_low perm flags : filePermStr (Z.land perm 0xfff) flags = filePermStr perm flags.
Proof. unfold filePermStr. by rewrite !(flag_land perm 0xfff). Qed.

Definition reads_back (special : bool) (perm : Z) : bool :=
  let s := filePermStr perm (if special then FP_SPECIAL else 0) in
  (mode_of s =? Z.land perm (if special then 0xfff else 0x1ff)) && (length s =? 9)%nat.

Lemma reads_back_all special : forallb (reads_back special) (seqZ 0 0x1000) = true.
Proof. destruct special; vm_compute; reflexivity. Qed.

Lemma filePermStr_flags perm flags :
  filePermStr perm flags = filePermStr perm (if flag flags FP_SPECIAL then FP_SPECIAL else 0).
Proof. unfold filePermStr. by destruct (flag flags FP_SPECIAL). Qed.

(** ** Property *)

(** The string that [filePermStr] returns can be read back.  It has nine
    characters, and reading it the way ls(1) strings are read gives the nine
    permission bits of the mode and, if FP_SPECIAL was asked for, the
    set-user-ID, set-group-ID and sticky bits; the other bits of the mode do not
    matter. *)
Theorem filePermStr_roundtrip perm flags :
  length (filePermStr perm flags) = 9%nat /\
  mode_of (filePermStr perm flags) =
    Z.land perm (if flag flags FP_SPECIAL then 0xfff else 0x1ff).
Proof.
  rewrite filePermStr_flags. set (special := flag flags FP_SPECIAL).
  assert (0 <= Z.land perm 0xfff < 0x1000) as Hr
    by (change 0xfff with (Z.ones 12); rewrite Z.land_ones by lia; apply Z.mod_pos_bound; lia).
  assert (reads_back special (Z.land perm 0xfff) = true) as Hb.
  { assert (Forall (fun p => reads_back special p = true) (seqZ 0 0x1000)) as Hall
      by (apply Forall_forall; intros p Hp; apply (proj1 (forallb_forall _ _) (reads_back_all special));
          by apply list_elem_of_In).
    rewrite Forall_forall in Hall. apply Hall, elem_of_seqZ. lia. }
  unfold reads_back in Hb. rewrite filePermStr_low in Hb.
  apply andb_true_iff in Hb as [Hm%Z.eqb_eq Hl%Nat.eqb_eq]. split; [done|]. rewrite Hm, <- Z.land_assoc.
  by destruct special.
Qed.
