(* ===== verification/Seccomp.v ===== *)
(** * seccomp/: system call filters

    The programs install filters written in the language of the classic BSD
    packet filter (linux/filter.h, bpf(4), seccomp(2)): an array of instructions
    that load words of the description of a system call into an accumulator,
    compare, jump forward and return an action.  This file models the
    instructions that the filters use, the filters, and the programs. *)

From S2P Require Import Prelude Sys LibErrors.

(** ** The filter language *)

Definition BPF_LD : Z := 0x00.
Definition BPF_JMP : Z := 0x05.
Definition BPF_RET : Z := 0x06.
Definition BPF_W : Z := 0x00.
Definition BPF_ABS : Z := 0x20.
Definition BPF_JA : Z := 0x00.
Definition BPF_JEQ : Z := 0x10.
Definition BPF_JGT : Z := 0x20.
Definition BPF_JGE : Z := 0x30.
Definition BPF_JSET : Z := 0x40.
Definition BPF_K : Z := 0x00.

Infix "'|'" := Z.lor (at level 35, right associativity) : Z_scope.

Definition BPF_STMT (code k : Z) : sock_filter := Sock_filter code 0 0 k.
Definition BPF_JUMP (code k jt jf : Z) : sock_filter := Sock_filter code jt jf k.

(** struct seccomp_data: the six arguments are 64-bit values. *)
Record seccomp_data := Data
  { sd_nr : Z; sd_arch : Z; sd_ip : Z;
    sd_arg0 : Z; sd_arg1 : Z; sd_arg2 : Z; sd_arg3 : Z; sd_arg4 : Z; sd_arg5 : Z }.

Definition offsetof_nr : Z := 0.
Definition offsetof_arch : Z := 4.
Definition offsetof_args (i : Z) : Z := 16 + 8 * i.

(** The structure as little-endian 32-bit words. *)
Definition words (d : seccomp_data) : list Z :=
  let halves v := [wrapu 32 v; wrapu 32 (v / 2 ^ 32)] in
  [wrapu 32 (sd_nr d); wrapu 32 (sd_arch d)] ++ halves (sd_ip d)
  ++ halves (sd_arg0 d) ++ halves (sd_arg1 d) ++ halves (sd_arg2 d)
  ++ halves (sd_arg3 d) ++ halves (sd_arg4 d) ++ halves (sd_arg5 d).

Definition load (d : seccomp_data) (k : Z) : option Z :=
  if (0 <=? k) && (k mod 4 =? 0) then words d !! Z.to_nat (k / 4) else None.

(** Where a jump instruction goes: the number of instructions it skips. *)
Definition bpf_jump (i : sock_filter) (a : Z) : option Z :=
  let c := bpf_code i in
  let cond (b : bool) := Some (if b then bpf_jt i else bpf_jf i) in
  if c =? BPF_JMP '|' BPF_JA then Some (bpf_k i)
  else if c =? BPF_JMP '|' BPF_JEQ '|' BPF_K then cond (a =? bpf_k i)
  else if c =? BPF_JMP '|' BPF_JGT '|' BPF_K then cond (bpf_k i <? a)
  else if c =? BPF_JMP '|' BPF_JGE '|' BPF_K then cond (bpf_k i <=? a)
  else if c =? BPF_JMP '|' BPF_JSET '|' BPF_K then cond (flag a (bpf_k i))
  else None.

(** [pc] is the rest of the program, [a] the accumulator; [None] for a load
    outside the data, an instruction that is not modelled, or the end of the
    program. *)
Fixpoint bpf_run (fuel : nat) (d : seccomp_data) (pc : list sock_filter) (a : Z) : option Z :=
  match fuel, pc with
  | S fuel, i :: rest =>
      if bpf_code i =? BPF_RET '|' BPF_K then Some (bpf_k i)
      else if bpf_code i =? BPF_LD '|' BPF_W '|' BPF_ABS
      then match load d (bpf_k i) with Some w => bpf_run fuel d rest w | None => None end
      else match bpf_jump i a with
           | Some n => bpf_run fuel d (drop (Z.to_nat n) rest) a
           | None => None
           end
  | _, _ => None
  end.

(** The action that a filter returns for a system call. *)
Definition action_of (filter : list sock_filter) (d : seccomp_data) : option Z :=
  bpf_run (length filter) d filter 0.

(** What the kernel checks before it accepts a filter: known instructions,
    aligned loads inside the data, jumps to an instruction behind, and a return
    at the end. *)
Definition insn_ok (i : sock_filter) (behind : nat) : bool :=
  if bpf_code i =? BPF_RET '|' BPF_K then true
  else if bpf_code i =? BPF_LD '|' BPF_W '|' BPF_ABS
  then (0 <? behind)%nat && (0 <=? bpf_k i) && (bpf_k i <? 64) && (bpf_k i mod 4 =? 0)
  else
    let inside n := (0 <=? n) && (n <? Z.of_nat behind) in
    match bpf_jump i 0 with
    | None => false
    | Some _ =>
        if bpf_code i =? BPF_JMP '|' BPF_JA then inside (bpf_k i)
        else inside (bpf_jt i) && inside (bpf_jf i) && (bpf_jt i <? 256) && (bpf_jf i <? 256)
    end.

Fixpoint insns_ok (pc : list sock_filter) : bool :=
  match pc with
  | [] => true
  | i :: rest => insn_ok i (length rest) && insns_ok rest
  end.

Definition BPF_MAXINSNS : nat := 4096.

Definition filter_ok (filter : list sock_filter) : bool :=
  match filter with [] => false | _ => (length filter <=? BPF_MAXINSNS)%nat && insns_ok filter end.

(** ** Constants of the filters *)

Definition AUDIT_ARCH_X86_64 : Z := 0xC000003E.
Definition AUDIT_ARCH_I386 : Z := 0x40000003.
Definition X32_SYSCALL_BIT : Z := 0x40000000.

Definition SECCOMP_RET_KILL_PROCESS : Z := 0x80000000.
Definition SECCOMP_RET_KILL : Z := 0.
Definition SECCOMP_RET_TRAP : Z := 0x00030000.
Definition SECCOMP_RET_ERRNO : Z := 0x00050000.
Definition SECCOMP_RET_LOG : Z := 0x7ffc0000.
Definition SECCOMP_RET_ALLOW : Z := 0x7fff0000.
Definition SECCOMP_RET_DATA : Z := 0xffff.
Definition SECCOMP_SET_MODE_FILTER : Z := 1.
Definition PR_SET_NO_NEW_PRIVS : Z := 38.

(** System call numbers of x86-64. *)
Definition NR_open : Z := 2.
Definition NR_lseek : Z := 8.
Definition NR_getppid : Z := 110.
Definition NR_openat : Z := 257.

Definition ENOTSUP : Z := 95.
Definition EBADF : Z := 9.
Definition O_RDONLY : Z := 0.
Definition O_WRONLY : Z := 1.
Definition O_RDWR : Z := 2.
Definition O_CREAT : Z := 64.
Definition SEEK_SET : Z := 0.
Definition SIGSYS : Z := 31.

(** ** The filters *)

Definition LDW (k : Z) : sock_filter := BPF_STMT (BPF_LD '|' BPF_W '|' BPF_ABS) k.
Definition RET (k : Z) : sock_filter := BPF_STMT (BPF_RET '|' BPF_K) k.
Definition JEQ (k jt jf : Z) : sock_filter := BPF_JUMP (BPF_JMP '|' BPF_JEQ '|' BPF_K) k jt jf.
Definition JGE (k jt jf : Z) : sock_filter := BPF_JUMP (BPF_JMP '|' BPF_JGE '|' BPF_K) k jt jf.
Definition JGT (k jt jf : Z) : sock_filter := BPF_JUMP (BPF_JMP '|' BPF_JGT '|' BPF_K) k jt jf.
Definition JSET (k jt jf : Z) : sock_filter := BPF_JUMP (BPF_JMP '|' BPF_JSET '|' BPF_K) k jt jf.
Definition JA (k : Z) : sock_filter := BPF_JUMP (BPF_JMP '|' BPF_JA) k 0 0.

Definition deny_open_filter : list sock_filter :=
  [LDW offsetof_arch;
   JEQ AUDIT_ARCH_X86_64 1 0;
   RET SECCOMP_RET_KILL_PROCESS;
   LDW offsetof_nr;
   JGE X32_SYSCALL_BIT 0 1;
   RET SECCOMP_RET_KILL_PROCESS;
   JEQ NR_open 2 0;
   JEQ NR_openat 1 0;
   RET SECCOMP_RET_ALLOW;
   RET SECCOMP_RET_KILL_PROCESS].

Definition control_open_filter : list sock_filter :=
  [LDW offsetof_arch;
   JEQ AUDIT_ARCH_X86_64 0 2;
   LDW offsetof_nr;
   JGE X32_SYSCALL_BIT 0 1;
   RET SECCOMP_RET_KILL_PROCESS;
   JEQ NR_open 2 0;
   JEQ NR_openat 3 0;
   RET SECCOMP_RET_ALLOW;
   LDW (offsetof_args 1);
   JA 1;
   LDW (offsetof_args 2);
   JSET O_CREAT 0 1;
   RET SECCOMP_RET_KILL_PROCESS;
   JSET (O_WRONLY '|' O_RDWR) 0 1;
   RET (SECCOMP_RET_ERRNO '|' Z.land ENOTSUP SECCOMP_RET_DATA);
   RET SECCOMP_RET_ALLOW].

Definition arg64_filter : list sock_filter :=
  [LDW offsetof_arch;
   JEQ AUDIT_ARCH_X86_64 0 2;
   LDW offsetof_nr;
   JGE X32_SYSCALL_BIT 0 1;
   RET SECCOMP_RET_KILL_PROCESS;
   JEQ NR_lseek 1 0;
   RET SECCOMP_RET_ALLOW;
   LDW (offsetof_args 1 + 4);
   JEQ 0 1 0;
   RET (SECCOMP_RET_ERRNO '|' 2);
   LDW (offsetof_args 1);
   JGT 1000 0 1;
   RET (SECCOMP_RET_ERRNO '|' 1);
   RET SECCOMP_RET_ALLOW].

Definition NR_mq_notify_x86_64 : Z := 244.
Definition NR_mq_notify_i386 : Z := 281.
Definition NR_mq_notify_x32 : Z := 527.

Definition multiarch_filter : list sock_filter :=
  [LDW offsetof_arch;
   JEQ AUDIT_ARCH_X86_64 2 0;
   JEQ AUDIT_ARCH_I386 1 0;
   RET SECCOMP_RET_KILL_PROCESS;
   LDW offsetof_nr;
   JEQ NR_mq_notify_x86_64 0 1;
   RET (SECCOMP_RET_ERRNO '|' NR_mq_notify_x86_64);
   JEQ NR_mq_notify_i386 0 1;
   RET (SECCOMP_RET_ERRNO '|' NR_mq_notify_i386);
   JEQ (NR_mq_notify_x32 + X32_SYSCALL_BIT) 0 1;
   RET (SECCOMP_RET_ERRNO '|' NR_mq_notify_x32);
   RET SECCOMP_RET_ALLOW].

Definition logging_filter : list sock_filter :=
  [LDW offsetof_arch;
   JEQ AUDIT_ARCH_X86_64 0 2;
   LDW offsetof_nr;
   JGE X32_SYSCALL_BIT 0 1;
   RET SECCOMP_RET_KILL_PROCESS;
   RET SECCOMP_RET_LOG].

Definition perf_filter : list sock_filter :=
  [LDW offsetof_arch;
   JEQ AUDIT_ARCH_X86_64 0 2;
   LDW offsetof_nr;
   JGE X32_SYSCALL_BIT 0 1;
   RET SECCOMP_RET_KILL_PROCESS;
   JEQ NR_open 1 0;
   RET SECCOMP_RET_ALLOW;
   RET SECCOMP_RET_KILL_PROCESS].

Definition trap_filter : list sock_filter :=
  [LDW offsetof_arch;
   JEQ AUDIT_ARCH_X86_64 1 0;
   RET SECCOMP_RET_KILL;
   LDW offsetof_nr;
   JEQ NR_getppid 0 1;
   RET SECCOMP_RET_TRAP;
   RET SECCOMP_RET_ALLOW].

(** ** The programs *)

Section Programs.
Context {T : ErrText}.

(** [die] is the errExit of the program: the function of the library, or the
    macro with perror(). *)
Definition install_filter (die : Z -> list ascii -> prog unit) (filter : list sock_filter) : prog unit :=
  r <- sys (Seccomp SECCOMP_SET_MODE_FILTER 0 filter) ;;
  match r with Err e => die e ($"seccomp") | Ok _ => Ret tt end.

Definition no_new_privs (die : Z -> list ascii -> prog unit) : prog unit :=
  r <- sys (Prctl PR_SET_NO_NEW_PRIVS 1 0) ;;
  match r with
  | Err e => die e ($"prctl")
  | Ok n => if n =? 0 then Ret tt else die 0 ($"prctl")
  end.

Definition deny_open_main : prog unit :=
  no_new_privs errExit ;;;
  install_filter errExit deny_open_filter ;;;
  r <- sys (Open ($"/tmp/a") O_RDONLY 0) ;;
  match r with
  | Err e => errExit e ($"open")
  | Ok _ =>
      print Stdout ($"We shouldn't see this message" ++ [NL]) ;;;
      Halt (Exit EXIT_SUCCESS)
  end.

(** if (open(...) == -1) perror(msg) *)
Definition try_open (path : list ascii) (flags mode : Z) (msg : list ascii) : prog unit :=
  r <- sys (Open path flags mode) ;;
  match r with Err e => perror e msg | Ok _ => Ret tt end.

Definition control_open_main : prog unit :=
  no_new_privs errExit ;;;
  install_filter errExit control_open_filter ;;;
  try_open ($"/tmp/a") O_RDONLY 0 ($"open1") ;;;
  try_open ($"/tmp/a") O_WRONLY 0 ($"open2") ;;;
  try_open ($"/tmp/a") O_RDWR 0 ($"open3") ;;;
  try_open ($"/tmp/a") (O_CREAT '|' O_RDWR) 384 ($"open4") ;;;
  Halt (Exit EXIT_SUCCESS).

(** A result other than 0, the offset that was asked for included, counts as a
    failure; errno is then what the last failed call left. *)
Definition seek_test (fd offset : Z) (errno : Z) : prog Z :=
  print Stdout ($"Seek to byte " ++ dec offset ++ $": ") ;;;
  r <- sys (Lseek fd offset SEEK_SET) ;;
  match r with
  | Ok ret =>
      (if ret =? 0 then print Stdout ($"succeeded" ++ [NL])
       else print Stdout ($"failed with errno = " ++ dec errno ++ [NL])) ;;;
      Ret errno
  | Err e => print Stdout ($"failed with errno = " ++ dec e ++ [NL]) ;;; Ret e
  end.

Definition arg64_main : prog unit :=
  no_new_privs errExit ;;;
  install_filter errExit arg64_filter ;;;
  r <- sys (Open ($"/dev/zero") O_RDWR 0) ;;
  match r with
  | Err e => errExit e ($"open")
  | Ok fd =>
      errno <- seek_test fd 0 0 ;;
      errno <- seek_test fd 10000 errno ;;
      seek_test fd 0x100000001 errno ;;;
      Halt (Exit EXIT_SUCCESS)
  end.

Definition logging_main : prog unit :=
  no_new_privs errExit ;;;
  install_filter errExit logging_filter ;;;
  sys Geteuid ;;;
  sys Getppid ;;;
  Halt (Exit EXIT_SUCCESS).

Fixpoint getppid_loop (n : nat) : prog unit :=
  match n with O => Ret tt | S n => sys Getppid ;;; getppid_loop n end.

Definition perf_main (argv : list (list ascii)) : prog unit :=
  (if (length argv <? 2)%nat then
     print Stderr ($"Usage: " ++ nth 0 argv [] ++ $" <num-loops> [x]" ++ [NL]) ;;;
     print Stderr ($"       (use 'x' to run with BPF filter applied)" ++ [NL]) ;;;
     Halt (Exit EXIT_FAILURE)
   else Ret tt) ;;;
  (if (2 <? length argv)%nat then
     print Stdout ($"Appling BPF filter" ++ [NL]) ;;;
     no_new_privs perrorExit ;;;
     install_filter perrorExit perf_filter
   else Ret tt) ;;;
  getppid_loop (Z.to_nat (atoi (nth 1 argv []))) ;;;
  Halt (Exit EXIT_SUCCESS).

Definition trap_main : prog unit :=
  no_new_privs errExit ;;;
  install_filter errExit trap_filter ;;;
  r <- sys (Sigaction SIGSYS (Sigact (Handler "sigHandler") [] 0)) ;;
  match r with
  | Err e => errExit e ($"sigaction")
  | Ok _ =>
      print Stdout ($"About to call getppid()" ++ [NL]) ;;;
      sys Getppid ;;;
      print Stdout ($"Bye" ++ [NL]) ;;;
      Halt (Exit EXIT_SUCCESS)
  end.

Definition TAB : ascii := "009"%char.

Definition not_failed : prog unit :=
  print Stdout ($"mq_notify() was not failed by seccomp() filter!" ++ [NL]) ;;;
  print Stdout ($"*** Make sure that the NO_SECCOMP_FILTER environment variable is not set" ++ [NL]) ;;;
  print Stdout ($"    when running this program." ++ [NL]) ;;;
  print Stdout ($"*** Otherwise, check the syscall numbers in kernel headers" ++ [NL]) ;;;
  print Stdout ($"    to see that they are correct" ++ [NL]) ;;;
  Halt (Exit EXIT_FAILURE).

Definition multiarch_main (argv : list (list ascii)) : prog unit :=
  v <- sys (Getenv ($"NO_SECCOMP_FILTER")) ;;
  match v with
  | None =>
      no_new_privs perrorExit ;;;
      print Stdout ($"Initial execution; installing seccomp filter" ++ [NL]) ;;;
      install_filter perrorExit multiarch_filter
  | Some _ => Ret tt
  end ;;;
  pid <- sys Getpid ;;
  print Stdout ([TAB] ++ $"argv[0] = " ++ nth 0 argv [] ++ $"; PID = " ++ dec pid ++ [NL]) ;;;
  pid <- sys Getpid ;;
  sys (Shell (snprintf 1024 ($"echo -n '" ++ [TAB] ++ $"'; grep Seccomp /proc/" ++ dec pid ++ $"/status"))) ;;;
  pid <- sys Getpid ;;
  sys (Shell (snprintf 1024 ($"echo -n '" ++ [TAB] ++ $"'; file -L /proc/" ++ dec pid
                               ++ $"/exe | sed 's/,.*//'"))) ;;;
  m <- sys (Mq_notify 0) ;;
  match m with
  | Err e =>
      if e =? EBADF then not_failed
      else print Stdout ($"mq_notify() failed with errno = " ++ dec e ++ [NL])
  | Ok _ => not_failed
  end ;;;
  (if (1 <? length argv)%nat then
     sys (Set_env ($"NO_SECCOMP_FILTER") ($"y") 1) ;;;
     print Stdout [NL] ;;;
     print Stdout ($"About to exec: " ++ nth 1 argv [] ++ [NL]) ;;;
     e <- execv (nth 1 argv []) (drop 1 argv) ;;
     perrorExit e ($"execvp")
   else Ret tt) ;;;
  Halt (Exit EXIT_SUCCESS).
End Programs.

(** ** Every accepted filter returns *)

Lemma insns_ok_drop n pc : insns_ok pc = true -> insns_ok (drop n pc) = true.
Proof.
  revert n. induction pc as [|i pc IH]; intros [|n] H; [done..|].
  simpl in *. apply andb_true_iff in H as [_ H]. by apply IH.
Qed.

Lemma load_inside d k : 0 <= k -> k < 64 -> k mod 4 = 0 -> is_Some (load d k).
Proof.
  intros H0 H64 Hmod. unfold load. rewrite (proj2 (Z.leb_le _ _) H0), Hmod. simpl.
  apply lookup_lt_is_Some_2. change (length (words d)) with 16%nat.
  assert (k / 4 < 16) by (apply Z.div_lt_upper_bound; lia). lia.
Qed.

(** An accepted jump lands on an instruction behind. *)
Lemma jump_inside i a n :
  insn_ok i n = true -> bpf_code i <> BPF_RET '|' BPF_K -> bpf_code i <> BPF_LD '|' BPF_W '|' BPF_ABS ->
  exists k, bpf_jump i a = Some k /\ 0 <= k < Z.of_nat n.
Proof.
  unfold insn_ok. intros H Hr Hl. apply Z.eqb_neq in Hr, Hl. rewrite Hr, Hl in H.
  unfold bpf_jump in *. destruct (bpf_code i =? BPF_JMP '|' BPF_JA) eqn:Hja.
  { apply andb_true_iff in H as [H1 H2]. exists (bpf_k i). split; [done|]. lia. }
  assert (forall b : bool, exists k, Some (if b then bpf_jt i else bpf_jf i) = Some k /\
    (0 <= bpf_jt i < Z.of_nat n -> 0 <= bpf_jf i < Z.of_nat n -> 0 <= k < Z.of_nat n)) as Hc
    by (intros []; eauto).
  destruct (bpf_code i =? BPF_JMP '|' BPF_JEQ '|' BPF_K), (bpf_code i =? BPF_JMP '|' BPF_JGT '|' BPF_K),
    (bpf_code i =? BPF_JMP '|' BPF_JGE '|' BPF_K), (bpf_code i =? BPF_JMP '|' BPF_JSET '|' BPF_K); try done;
    repeat (let Hb := fresh "Hb" in apply andb_true_iff in H as [H Hb]);
    match goal with |- exists k, Some (if ?b then _ else _) = _ /\ _ => destruct (Hc b) as (k & Hk & Hin) end;
    exists k; (split; [exact Hk|apply Hin; lia]).
Qed.

Lemma bpf_run_returns fuel d pc a :
  insns_ok pc = true -> pc <> [] -> (length pc <= fuel)%nat ->
  exists i, i ∈ pc /\ bpf_code i = BPF_RET '|' BPF_K /\ bpf_run fuel d pc a = Some (bpf_k i).
Proof.
  revert pc a. induction fuel as [|fuel IH]; intros pc a Hok Hne Hf; (destruct pc as [|i rest]; [done|]); simpl in Hf; [lia|].
  pose proof Hok as Hok'. simpl in Hok'. apply andb_true_iff in Hok' as [Hi Hrest].
  assert (forall pc' b, (exists n, pc' = drop n rest) -> pc' <> [] ->
    exists j, j ∈ i :: rest /\ bpf_code j = BPF_RET '|' BPF_K /\ bpf_run fuel d pc' b = Some (bpf_k j)) as Hgo.
  { intros pc' b [n ->] Hne'. destruct (IH (drop n rest) b) as (j & Hj & Hc & Hr).
    - by apply insns_ok_drop.
    - done.
    - rewrite length_drop. lia.
    - exists j. split; [right; by apply (subseteq_drop n rest)|done]. }
  cbn [bpf_run]. destruct (Z.eqb_spec (bpf_code i) (BPF_RET '|' BPF_K)) as [Hret|Hret].
  { exists i. split; [by left|done]. }
  destruct (Z.eqb_spec (bpf_code i) (BPF_LD '|' BPF_W '|' BPF_ABS)) as [Hld|Hld].
  - unfold insn_ok in Hi. rewrite (proj2 (Z.eqb_neq _ _) Hret), Hld, Z.eqb_refl in Hi.
    apply andb_true_iff in Hi as [[[H1 H2]%andb_true_iff H3]%andb_true_iff H4].
    destruct (load_inside d (bpf_k i)) as [w Hw]; [by apply Z.leb_le|by apply Z.ltb_lt|by apply Z.eqb_eq|]. rewrite Hw. apply Hgo; [by exists 0%nat|].
    by destruct rest.
  - destruct (jump_inside i a _ Hi Hret Hld) as (k & Hk & Hrange). rewrite Hk.
    apply Hgo; [by eexists|]. intros Hnil. apply (f_equal length) in Hnil. rewrite length_drop in Hnil.
    simpl in Hnil. lia.
Qed.

(** ** What the filters decide *)

(** Symbolic execution, one instruction at a time. *)
Lemma run_LDW f d k rest a :
  bpf_run (S f) d (LDW k :: rest) a = match load d k with Some w => bpf_run f d rest w | None => None end.
Proof. done. Qed.
Lemma run_RET f d k rest a : bpf_run (S f) d (RET k :: rest) a = Some k.
Proof. done. Qed.
Lemma run_JA f d k rest a : bpf_run (S f) d (JA k :: rest) a = bpf_run f d (drop (Z.to_nat k) rest) a.
Proof. done. Qed.
Lemma run_JEQ f d k jt jf rest a :
  bpf_run (S f) d (JEQ k jt jf :: rest) a = bpf_run f d (drop (Z.to_nat (if a =? k then jt else jf)) rest) a.
Proof. done. Qed.
Lemma run_JGE f d k jt jf rest a :
  bpf_run (S f) d (JGE k jt jf :: rest) a = bpf_run f d (drop (Z.to_nat (if k <=? a then jt else jf)) rest) a.
Proof. done. Qed.
Lemma run_JGT f d k jt jf rest a :
  bpf_run (S f) d (JGT k jt jf :: rest) a = bpf_run f d (drop (Z.to_nat (if k <? a then jt else jf)) rest) a.
Proof. done. Qed.
Lemma run_JSET f d k jt jf rest a :
  bpf_run (S f) d (JSET k jt jf :: rest) a = bpf_run f d (drop (Z.to_nat (if flag a k then jt else jf)) rest) a.
Proof. done. Qed.

Lemma load_arch d : load d offsetof_arch = Some (wrapu 32 (sd_arch d)).
Proof. done. Qed.
Lemma load_nr d : load d offsetof_nr = Some (wrapu 32 (sd_nr d)).
Proof. done. Qed.
Lemma load_arg1 d : load d (offsetof_args 1) = Some (wrapu 32 (sd_arg1 d)).
Proof. done. Qed.
Lemma load_arg1_high d : load d (offsetof_args 1 + 4) = Some (wrapu 32 (sd_arg1 d / 2 ^ 32)).
Proof. done. Qed.
Lemma load_arg2 d : load d (offsetof_args 2) = Some (wrapu 32 (sd_arg2 d)).
Proof. done. Qed.

Create HintDb bpf.
#[local] Hint Rewrite run_LDW run_RET run_JA run_JEQ run_JGE run_JGT run_JSET
  load_arch load_nr load_arg1 load_arg1_high load_arg2 : bpf.

(** Execute up to the next comparison and split on it. *)
Ltac bpf_exec :=
  unfold action_of; cbn [length];
  repeat (autorewrite with bpf; cbv iota;
          try match goal with
              | |- context [Z.to_nat (if ?b then _ else _)] =>
                  let Hb := fresh "Hb" in destruct b eqn:Hb
              end;
          change (Z.to_nat 0) with 0%nat; change (Z.to_nat 1) with 1%nat;
          change (Z.to_nat 2) with 2%nat; change (Z.to_nat 3) with 3%nat; cbn [drop]).

(** A system call of the x86-64 architecture proper. *)
Definition native (d : seccomp_data) : bool :=
  (wrapu 32 (sd_arch d) =? AUDIT_ARCH_X86_64) && negb (X32_SYSCALL_BIT <=? wrapu 32 (sd_nr d)).

Definition is_nr (d : seccomp_data) (nr : Z) : bool := wrapu 32 (sd_nr d) =? nr.

(** The flags of open() and openat(). *)
Definition open_flags (d : seccomp_data) : option Z :=
  if is_nr d NR_open then Some (wrapu 32 (sd_arg1 d))
  else if is_nr d NR_openat then Some (wrapu 32 (sd_arg2 d)) else None.

Lemma deny_open_decides d :
  action_of deny_open_filter d =
  Some (if native d && negb (is_nr d NR_open || is_nr d NR_openat)
        then SECCOMP_RET_ALLOW else SECCOMP_RET_KILL_PROCESS).
Proof. unfold native, is_nr, deny_open_filter. by bpf_exec. Qed.

Lemma control_open_decides d :
  action_of control_open_filter d =
  Some (if native d
        then match open_flags d with
             | None => SECCOMP_RET_ALLOW
             | Some fl => if flag fl O_CREAT then SECCOMP_RET_KILL_PROCESS
                          else if flag fl (O_WRONLY '|' O_RDWR) then SECCOMP_RET_ERRNO '|' ENOTSUP
                          else SECCOMP_RET_ALLOW
             end
        else SECCOMP_RET_KILL_PROCESS).
Proof. unfold native, is_nr, open_flags, is_nr, control_open_filter. by bpf_exec. Qed.

Lemma perf_decides d :
  action_of perf_filter d =
  Some (if native d && negb (is_nr d NR_open) then SECCOMP_RET_ALLOW else SECCOMP_RET_KILL_PROCESS).
Proof. unfold native, is_nr, perf_filter. by bpf_exec. Qed.

Lemma logging_decides d :
  action_of logging_filter d =
  Some (if native d then SECCOMP_RET_LOG else SECCOMP_RET_KILL_PROCESS).
Proof. unfold native, logging_filter. by bpf_exec. Qed.

Lemma trap_decides d :
  action_of trap_filter d =
  Some (if wrapu 32 (sd_arch d) =? AUDIT_ARCH_X86_64
        then if is_nr d NR_getppid then SECCOMP_RET_TRAP else SECCOMP_RET_ALLOW
        else SECCOMP_RET_KILL).
Proof. unfold is_nr, trap_filter. by bpf_exec. Qed.

Lemma multiarch_decides d :
  action_of multiarch_filter d =
  Some (if (wrapu 32 (sd_arch d) =? AUDIT_ARCH_X86_64) || (wrapu 32 (sd_arch d) =? AUDIT_ARCH_I386)
        then if is_nr d NR_mq_notify_x86_64 then SECCOMP_RET_ERRNO '|' NR_mq_notify_x86_64
             else if is_nr d NR_mq_notify_i386 then SECCOMP_RET_ERRNO '|' NR_mq_notify_i386
             else if is_nr d (NR_mq_notify_x32 + X32_SYSCALL_BIT) then SECCOMP_RET_ERRNO '|' NR_mq_notify_x32
             else SECCOMP_RET_ALLOW
        else SECCOMP_RET_KILL_PROCESS).
Proof. unfold is_nr, multiarch_filter. by bpf_exec. Qed.

(** A 64-bit comparison in two halves: the upper half is zero exactly for the
    offsets from 0 to 2^32 - 1, which the lower half then holds. *)
Lemma upper_half off :
  is_long off -> (wrapu 32 (wrapu 64 off / 2 ^ 32) =? 0) = (0 <=? off) && (off <? 2 ^ 32).
Proof.
  unfold is_long, LONG_MIN, LONG_MAX, wrapu. intros Hoff.
  assert (off mod 2 ^ 64 = off \/ off mod 2 ^ 64 = off + 2 ^ 64 /\ off < 0) as [Hm|[Hm Hneg]].
  { destruct (Z.leb_spec 0 off); [left; apply Z.mod_small; lia|right; split; [|done]].
    rewrite <- (Z.mod_add off 1 (2 ^ 64)) by done. apply Z.mod_small. lia. }
  all: rewrite Hm.
  - pose proof (Z.mod_pos_bound off (2 ^ 64)). apply eq_true_iff_eq. rewrite andb_true_iff, Z.eqb_eq, Z.leb_le, Z.ltb_lt.
    rewrite Z.mod_small by (split; [apply Z.div_pos; lia|apply Z.div_lt_upper_bound; lia]). split.
    + intros H0. apply Z.div_small_iff in H0; lia.
    + intros H0. apply Z.div_small. lia.
  - destruct (Z.leb_spec 0 off); [lia|]. simpl. apply Z.eqb_neq.
    rewrite Z.mod_small by (split; [apply Z.div_pos; lia|apply Z.div_lt_upper_bound; lia]).
    intros H0. apply Z.div_small_iff in H0; lia.
Qed.

Lemma lower_half off : 0 <= off < 2 ^ 32 -> wrapu 32 (wrapu 64 off) = off.
Proof. intros H. rewrite (wrapu_id 64) by lia. by apply wrapu_id. Qed.

Lemma arg64_decides d off :
  is_long off -> sd_arg1 d = wrapu 64 off ->
  action_of arg64_filter d =
  Some (if native d
        then if is_nr d NR_lseek
             then if (0 <=? off) && (off <=? 1000) then SECCOMP_RET_ALLOW
                  else if (0 <=? off) && (off <? 2 ^ 32) then SECCOMP_RET_ERRNO '|' 1
                  else SECCOMP_RET_ERRNO '|' 2
             else SECCOMP_RET_ALLOW
        else SECCOMP_RET_KILL_PROCESS).
Proof.
  intros Hoff Harg. unfold native, is_nr, arg64_filter.
  bpf_exec; try done; rewrite Harg, upper_half in * by done; cbn [andb negb].
  3:{ rewrite Hb2. destruct (0 <=? off) eqn:H0; [|done]. simpl in *. apply Z.ltb_ge in Hb2.
      by rewrite (proj2 (Z.leb_gt off 1000)) by lia. }
  all: rewrite Hb2; apply andb_true_iff in Hb2 as [H0%Z.leb_le H1%Z.ltb_lt];
    rewrite lower_half, Z.ltb_antisym in Hb3 by lia; rewrite (proj2 (Z.leb_le _ _) H0); cbn [andb].
  - apply negb_true_iff in Hb3. by rewrite Hb3.
  - apply negb_false_iff in Hb3. by rewrite Hb3.
Qed.

Lemma arg64_negative d off :
  native d = true -> is_nr d NR_lseek = true -> LONG_MIN <= off < 0 -> sd_arg1 d = wrapu 64 off ->
  action_of arg64_filter d = Some (SECCOMP_RET_ERRNO '|' 2).
Proof.
  intros Hn Hl Hoff Harg. rewrite (arg64_decides d off) by (done || unfold is_long, LONG_MAX; lia).
  rewrite Hn, Hl, (proj2 (Z.leb_gt 0 off)) by lia. done.
Qed.

(** ** Enforcement

    The kernel runs every installed filter on the description of a system call
    and takes the most severe action: the one whose value, without its data, is
    least as a signed 32-bit number. *)
Definition severity (a : Z) : Z :=
  let v := Z.land a 0xffff0000 in if v <? 2 ^ 31 then v else v - 2 ^ 32.

(** The filters, the latest first. *)
Fixpoint verdict (fs : list (list sock_filter)) (d : seccomp_data) : Z :=
  match fs with
  | [] => SECCOMP_RET_ALLOW
  | f :: fs' =>
      let a := default SECCOMP_RET_KILL_PROCESS (action_of f d) in
      let b := verdict fs' d in
      if severity a <=? severity b then a else b
  end.

Inductive fate (A : Type) := Ended (o : outcome A) | Killed.
Arguments Ended {A} o.
Arguments Killed {A}.

Section Enforcement.
(** The kernel, the description of the system call that a function of the C
    library makes ([None] if it makes none), and what a call returns that a
    filter refuses with an error. *)
Context (K : kernel) (D : history -> forall X, call X -> option seccomp_data)
  (F : forall X, call X -> Z -> X).

(** [None]: the process is killed (SECCOMP_RET_TRAP sends SIGSYS, which kills
    unless it is handled; handlers are not covered here). *)
Definition reply (fs : list (list sock_filter)) (h : history) {X} (c : call X) : option X :=
  match D h X c with
  | None => Some (K h X c)
  | Some d =>
      let a := verdict fs d in
      if (severity a =? SECCOMP_RET_ALLOW) || (severity a =? SECCOMP_RET_LOG) then Some (K h X c)
      else if severity a =? SECCOMP_RET_ERRNO then Some (F X c (Z.land a SECCOMP_RET_DATA))
      else None
  end.

Definition installs {X} (c : call X) : X -> list (list sock_filter) :=
  match c in call X return X -> list (list sock_filter) with
  | Seccomp _ _ f => fun r => match r with Ok _ => [f] | Err _ => [] end
  | _ => fun _ => []
  end.

Fixpoint run_filtered {A} (fs : list (list sock_filter)) (p : prog A) (h : history)
    : fate A * list (list sock_filter) * history :=
  match p with
  | Ret a => (Ended (Done a), fs, h)
  | Halt s => (Ended (Stop s), fs, h)
  | Sys c k =>
      match reply fs h c with
      | None => (Killed, fs, h)
      | Some r => run_filtered (installs c r ++ fs) (k r) (Ev c r :: h)
      end
  end.

(** open() makes the system call open or openat, with its flags as an
    argument; lseek() and mq_notify() make the calls of their names. *)
Definition described : Prop :=
  forall h X (c : call X),
    match c with
    | Open _ flags _ => exists d, D h X c = Some d /\ sd_arch d = AUDIT_ARCH_X86_64 /\
        (sd_nr d = NR_open /\ sd_arg1 d = wrapu 64 flags \/
         sd_nr d = NR_openat /\ sd_arg2 d = wrapu 64 flags)
    | Lseek _ offset _ => exists d, D h X c = Some d /\ sd_arch d = AUDIT_ARCH_X86_64 /\
        sd_nr d = NR_lseek /\ sd_arg1 d = wrapu 64 offset
    | _ => True
    end.

Definition refusing : Prop :=
  (forall path flags mode e, F _ (Open path flags mode) e = Err e) /\
  (forall fd offset whence e, F _ (Lseek fd offset whence) e = Err e).

Definition sandboxed {A} (p : prog A) (Q : fate A -> list (list sock_filter) -> history -> Prop)
    (fs : list (list sock_filter)) (h : history) : Prop :=
  let '(o, fs', h') := run_filtered fs p h in Q o fs' h'.

Lemma sandboxed_bind {A B} (p : prog A) (f : A -> prog B) Q fs h :
  sandboxed p (fun o fs' h' => match o with
                               | Ended (Done a) => sandboxed (f a) Q fs' h'
                               | Ended (Stop s) => Q (Ended (Stop s)) fs' h'
                               | Killed => Q Killed fs' h'
                               end) fs h ->
  sandboxed (bind p f) Q fs h.
Proof.
  unfold sandboxed. revert fs h. induction p as [a|s|X c k IH]; intros fs h; simpl; [done..|].
  destruct (reply fs h c); [apply IH|done].
Qed.

Lemma sandboxed_mono {A} (p : prog A) (P Q : fate A -> list (list sock_filter) -> history -> Prop) fs h :
  (forall o fs' h', P o fs' h' -> Q o fs' h') -> sandboxed p P fs h -> sandboxed p Q fs h.
Proof. unfold sandboxed. intros HPQ. destruct (run_filtered fs p h) as [[o fs'] h']. apply HPQ. Qed.

Lemma sandboxed_sys {X B} (c : call X) (f : X -> prog B) (Q : fate B -> list (list sock_filter) -> history -> Prop) fs h :
  (reply fs h c = None -> Q Killed fs h) ->
  (forall r, reply fs h c = Some r -> sandboxed (f r) Q (installs c r ++ fs) (Ev c r :: h)) ->
  sandboxed (bind (sys c) f) Q fs h.
Proof.
  unfold sandboxed. simpl. destruct (reply fs h c) as [r|].
  - intros _ H. exact (H r eq_refl).
  - intros H _. exact (H eq_refl).
Qed.

(** No filter can be overruled by the others. *)
Lemma verdict_le fs f d a :
  f ∈ fs -> action_of f d = Some a -> severity (verdict fs d) <= severity a.
Proof.
  intros Hin Ha. induction fs as [|g fs IH]; [by apply not_elem_of_nil in Hin|].
  cbn [verdict]. apply elem_of_cons in Hin as [<-|Hin].
  - rewrite Ha. unfold default. simpl. unfold id. case_match; lia.
  - specialize (IH Hin). case_match; lia.
Qed.

Lemma reply_refused fs f h X (c : call X) d a r :
  f ∈ fs -> D h X c = Some d -> action_of f d = Some a -> severity a <= SECCOMP_RET_ERRNO ->
  reply fs h c = Some r -> SECCOMP_RET_ERRNO <= severity a /\ exists e, r = F X c e.
Proof.
  intros Hin Hd Ha Hsev. pose proof (verdict_le fs f d a Hin Ha) as Hle. unfold reply. rewrite Hd.
  rewrite !(proj2 (Z.eqb_neq _ _)) by (unfold SECCOMP_RET_ALLOW, SECCOMP_RET_LOG, SECCOMP_RET_ERRNO in *; lia).
  cbn [orb]. destruct (Z.eqb_spec (severity (verdict fs d)) SECCOMP_RET_ERRNO) as [He|]; [|done].
  intros [= <-]. split; [lia|by eexists].
Qed.

(** What the filters of seccomp_deny_open, seccomp_control_open and
    seccomp_arg64 leave of a call, wherever they are in the list. *)
Definition confined (fs : list (list sock_filter)) (e : event) : Prop :=
  match e with
  | Ev c r =>
      match c in call X return X -> Prop with
      | Open _ flags _ => fun r =>
          deny_open_filter ∉ fs /\
          (control_open_filter ∈ fs ->
             flag (wrapu 32 flags) O_CREAT = false /\
             (flag (wrapu 32 flags) (O_WRONLY '|' O_RDWR) = true -> exists e, r = Err e))
      | Lseek _ offset _ => fun r =>
          arg64_filter ∈ fs -> is_long offset -> ~ 0 <= offset <= 1000 -> exists e, r = Err e
      | _ => fun _ => True
      end r
  end.

Lemma wrapu_32_64 v : wrapu 32 (wrapu 64 v) = wrapu 32 v.
Proof. unfold wrapu. apply Z.mod_mod_divide. by exists (2 ^ 32). Qed.

Lemma open_described (HD : described) h path flags mode :
  exists d, D h _ (Open path flags mode) = Some d /\ native d = true /\
    open_flags d = Some (wrapu 32 flags) /\ is_nr d NR_open || is_nr d NR_openat = true.
Proof.
  destruct (HD h _ (Open path flags mode)) as (d & Hd & Ha & Hn). exists d. split; [done|].
  unfold native, open_flags, is_nr. rewrite Ha.
  rewrite (wrapu_id 32 AUDIT_ARCH_X86_64) by done.
  destruct Hn as [[-> ->]|[-> ->]]; rewrite wrapu_32_64;
    rewrite ?(wrapu_id 32 NR_open), ?(wrapu_id 32 NR_openat) by done; done.
Qed.

Lemma reply_confined (HD : described) (HF : refusing) fs h X (c : call X) r :
  reply fs h c = Some r -> confined fs (Ev c r).
Proof.
  destruct HF as [HFo HFl]. destruct c; try done; intros Hr.
  - destruct (open_described HD h path flags mode) as (d & Hd & Hn & Hf & Hnr). split.
    + intros Hin. pose proof (deny_open_decides d) as Hdec. rewrite Hn, Hnr in Hdec.
      by destruct (reply_refused fs _ h _ _ d _ r Hin Hd Hdec) as [? _].
    + intros Hin. pose proof (control_open_decides d) as Hdec. rewrite Hn, Hf in Hdec.
      destruct (flag (wrapu 32 flags) O_CREAT).
      { by destruct (reply_refused fs _ h _ _ d _ r Hin Hd Hdec) as [? _]. }
      split; [done|]. intros Hw. rewrite Hw in Hdec.
      destruct (reply_refused fs _ h _ _ d _ r Hin Hd Hdec) as [_ [e ->]]; [done..|]. exists e. apply HFo.
  - intros Hin Hl Hoff. destruct (HD h _ (Lseek fd offset whence)) as (d & Hd & Ha & Hn & Harg).
    pose proof (arg64_decides d offset Hl Harg) as Hdec.
    unfold native, is_nr in Hdec. rewrite Ha, Hn in Hdec. simpl in Hdec.
    destruct ((0 <=? offset) && (offset <=? 1000)) eqn:Hr'; [exfalso; lia|].
    destruct ((0 <=? offset) && (offset <? 2 ^ 32));
      (destruct (reply_refused fs _ h _ _ d _ r Hin Hd Hdec) as [_ [e ->]]; [done..|]; exists e; apply HFl).
Qed.

Lemma confined_more fs fs' e : fs ⊆ fs' -> confined fs' e -> confined fs e.
Proof.
  intros Hsub. destruct e as [X c r]. destruct c; simpl; try done.
  - intros [H1 H2]. split; [set_solver|]. intros Hin. apply H2. set_solver.
  - intros H Hin. apply H. set_solver.
Qed.

Lemma run_confined (HD : described) (HF : refusing) {A} (p : prog A) fs h :
  sandboxed p (fun _ fs' h' => fs ⊆ fs' /\ exists k, h' = k ++ h /\ Forall (confined fs) k) fs h.
Proof.
  unfold sandboxed. revert fs h. induction p as [a|s|X c k IH]; intros fs h; simpl.
  1,2: split; [done|]; by exists [].
  destruct (reply fs h c) as [r|] eqn:Hr; [|split; [done|]; by exists []].
  specialize (IH r (installs c r ++ fs) (Ev c r :: h)).
  destruct (run_filtered _ _ _) as [[o fs'] h']. destruct IH as (Hsub & k' & -> & Hall).
  split; [set_solver|]. exists (k' ++ [Ev c r]). split; [by rewrite <- app_assoc|].
  apply Forall_app. split; [|repeat constructor; by eapply reply_confined].
  eapply Forall_impl; [exact Hall|]. intros e. apply confined_more. set_solver.
Qed.

(** The programs that test the filters. *)
Section Tests.
Context {T : ErrText} (HD : described) (HF : refusing).

Definition failed {A} (o : fate A) : Prop :=
  match o with Killed => True | Ended o => stops_failing o end.

Definition silent (e : event) : Prop :=
  match e with Ev c _ => match c with Out Stdout _ => False | _ => True end end.

(** The process failed without a word on stdout. *)
Definition gone {A} (o : fate A) (fs : list (list sock_filter)) (h : history) : Prop :=
  failed o /\ Forall silent h.

Lemma sandboxed_out (c : call unit) {B} (f : unit -> prog B) (Q : fate B -> list (list sock_filter) -> history -> Prop) fs h :
  (forall r, installs c r = []) -> Q Killed fs h -> sandboxed (f tt) Q fs (Ev c tt :: h) ->
  sandboxed (bind (sys c) f) Q fs h.
Proof. intros Hc HK H. apply sandboxed_sys; [done|]. intros [] _. by rewrite Hc. Qed.

Lemma sandboxed_errExit {A} fs e msg h : Forall silent h -> sandboxed (errExit (A:=A) e msg) gone fs h.
Proof.
  intros Hh. unfold errExit. apply sandboxed_bind. unfold outputError, print.
  assert (forall h, Forall silent h -> gone (A:=A) Killed fs h) as Hk by done.
  repeat (apply sandboxed_out; [done|by apply Hk; repeat constructor|]).
  unfold terminate. apply sandboxed_sys; [by intros _; apply Hk; repeat constructor|]. intros r _.
  unfold sandboxed, gone, failed, stops_failing.
  destruct r as [[|]|]; simpl; (split; [auto|by repeat constructor]).
Qed.

Lemma sandboxed_die {A B} (k : A -> prog B) fs e msg (Q : fate B -> list (list sock_filter) -> history -> Prop) h :
  Forall silent h -> (forall o fs' h', gone o fs' h' -> Q o fs' h') ->
  sandboxed (errExit (A:=A) e msg) (fun o fs' h' => match o with
    | Ended (Done a) => sandboxed (k a) Q fs' h'
    | Ended (Stop s) => Q (Ended (Stop s)) fs' h'
    | Killed => Q Killed fs' h'
    end) fs h.
Proof.
  intros Hh Hg. eapply sandboxed_mono; [|by apply sandboxed_errExit].
  intros [[a|s]|] fs' h' [Ho Hs]; [|apply Hg; split; [|done]|by apply Hg].
  - by destruct Ho as [|[|]].
  - destruct Ho as [[= ->]|[[= ->]|[= ->]]]; unfold failed, stops_failing; auto.
Qed.

(** [prctl] and [seccomp] succeed and the filter is installed, or the process
    is gone. *)
Lemma sandboxed_setup {B} filter (p : prog B) (Q : fate B -> list (list sock_filter) -> history -> Prop) fs h :
  Forall silent h -> (forall o fs' h', gone o fs' h' -> Q o fs' h') ->
  (forall h', Forall silent h' -> sandboxed p Q (filter :: fs) h') ->
  sandboxed (no_new_privs errExit ;;; install_filter errExit filter ;;; p) Q fs h.
Proof.
  intros Hh Hg Hp. apply sandboxed_bind. unfold no_new_privs.
  apply sandboxed_sys; [intros _; by apply Hg|]. intros r _.
  assert (Forall silent (Ev (Prctl PR_SET_NO_NEW_PRIVS 1 0) r :: h)) as Hh1 by by repeat constructor.
  pose proof (fun e => sandboxed_die (fun _ : unit => install_filter errExit filter ;;; p) fs e ($"prctl") Q _ Hh1 Hg) as He.
  destruct r as [n|e]; [|apply He]. destruct (n =? 0); [|apply He]. clear He.
  match goal with |- sandboxed _ _ _ ?h1 => change (sandboxed (install_filter errExit filter ;;; p) Q fs h1) end.
  apply sandboxed_bind, sandboxed_sys; [intros _; by apply Hg|]. intros [[]|e] _.
  - apply Hp. by repeat constructor.
  - apply (sandboxed_die (fun _ => p)); [by repeat constructor|done].
Qed.

Lemma deny_open_ends : sandboxed deny_open_main gone [] [].
Proof.
  apply sandboxed_setup; [done..|]. intros h Hh. apply sandboxed_sys; [by intros _|].
  intros r Hr. apply reply_confined in Hr as [Hr _]; [|done..]. by destruct Hr; left.
Qed.

Lemma sandboxed_try_open {B} fs path flags mode msg (p : prog B) (Q : fate B -> list (list sock_filter) -> history -> Prop) h :
  (forall h', Q Killed fs h') ->
  (forall h', (control_open_filter ∈ fs -> flag (wrapu 32 flags) O_CREAT = false) -> sandboxed p Q fs h') ->
  sandboxed (try_open path flags mode msg ;;; p) Q fs h.
Proof.
  intros HK Hp. apply sandboxed_bind, sandboxed_sys; [intros _; apply HK|]. intros r Hr.
  pose proof (reply_confined HD HF fs h _ _ r Hr) as [_ Hc].
  assert (control_open_filter ∈ fs -> flag (wrapu 32 flags) O_CREAT = false) as Hf by (intros; by apply Hc).
  destruct r as [fd|e]; [by apply Hp|].
  unfold sandboxed at 1. cbn [perror print sys run_filtered installs app].
  destruct (reply fs _ (Out _ _)) as [[]|]; [by apply Hp|apply HK].
Qed.

Lemma control_open_ends : sandboxed control_open_main (fun o _ _ => failed o) [] [].
Proof.
  apply sandboxed_setup; [done|by intros ??? []|]. intros h Hh.
  do 4 (apply sandboxed_try_open; [done|]; clear h Hh; intros h Hh).
  specialize (Hh ltac:(by left)). done.
Qed.

End Tests.
End Enforcement.

(** ** Properties *)

Definition filters : list (list sock_filter) :=
  [deny_open_filter; control_open_filter; arg64_filter; multiarch_filter; logging_filter;
   perf_filter; trap_filter].

(** A filter that passes the checks of the kernel always returns: on every
    system call it executes at most as many instructions as it has and ends
    with the value of one of its own return instructions.  The filters of the
    seven programs pass the checks. *)
Lemma filters_return :
  Forall (fun f => filter_ok f = true) filters /\
  forall f d, filter_ok f = true ->
    exists i, i ∈ f /\ bpf_code i = BPF_RET '|' BPF_K /\ action_of f d = Some (bpf_k i).
Proof.
  split; [by repeat constructor|]. intros f d Hok. apply bpf_run_returns; [|by destruct f|done].
  destruct f as [|i f]; [done|]. by apply andb_true_iff in Hok as [_ Hok].
Qed.

(** What the filters decide, for every description of a system call.  Calls
    of another architecture or of the x32 ABI kill the process.  For the rest,
    seccomp_deny_open kills on open and openat; seccomp_control_open kills if
    their flags have O_CREAT, fails them with ENOTSUP if they ask for writing
    and allows everything else; seccomp_perf kills on open; seccomp_logging logs
    every call; and seccomp_arg64, though it compares the 64-bit offset of lseek
    in two halves, allows exactly the offsets from 0 to 1000 and fails the
    others with errno 1 if the offset is below 2^32 and not negative, and 2
    otherwise.  The filters of seccomp_trap_sigsys and seccomp_multiarch test the
    architecture, but not the x32 ABI. *)
Lemma filters_decide d :
  action_of deny_open_filter d =
    Some (if native d && negb (is_nr d NR_open || is_nr d NR_openat)
          then SECCOMP_RET_ALLOW else SECCOMP_RET_KILL_PROCESS) /\
  action_of control_open_filter d =
    Some (if native d
          then match open_flags d with
               | None => SECCOMP_RET_ALLOW
               | Some fl => if flag fl O_CREAT then SECCOMP_RET_KILL_PROCESS
                            else if flag fl (O_WRONLY '|' O_RDWR) then SECCOMP_RET_ERRNO '|' ENOTSUP
                            else SECCOMP_RET_ALLOW
               end
          else SECCOMP_RET_KILL_PROCESS) /\
  action_of perf_filter d =
    Some (if native d && negb (is_nr d NR_open) then SECCOMP_RET_ALLOW else SECCOMP_RET_KILL_PROCESS) /\
  action_of logging_filter d =
    Some (if native d then SECCOMP_RET_LOG else SECCOMP_RET_KILL_PROCESS) /\
  action_of trap_filter d =
    Some (if wrapu 32 (sd_arch d) =? AUDIT_ARCH_X86_64
          then if is_nr d NR_getppid then SECCOMP_RET_TRAP else SECCOMP_RET_ALLOW
          else SECCOMP_RET_KILL) /\
  action_of multiarch_filter d =
    Some (if (wrapu 32 (sd_arch d) =? AUDIT_ARCH_X86_64) || (wrapu 32 (sd_arch d) =? AUDIT_ARCH_I386)
          then if is_nr d NR_mq_notify_x86_64 then SECCOMP_RET_ERRNO '|' NR_mq_notify_x86_64
               else if is_nr d NR_mq_notify_i386 then SECCOMP_RET_ERRNO '|' NR_mq_notify_i386
               else if is_nr d (NR_mq_notify_x32 + X32_SYSCALL_BIT) then SECCOMP_RET_ERRNO '|' NR_mq_notify_x32
               else SECCOMP_RET_ALLOW
          else SECCOMP_RET_KILL_PROCESS) /\
  (forall off, is_long off -> sd_arg1 d = wrapu 64 off ->
    action_of arg64_filter d =
    Some (if native d
          then if is_nr d NR_lseek
               then if (0 <=? off) && (off <=? 1000) then SECCOMP_RET_ALLOW
                    else if (0 <=? off) && (off <? 2 ^ 32) then SECCOMP_RET_ERRNO '|' 1
                    else SECCOMP_RET_ERRNO '|' 2
               else SECCOMP_RET_ALLOW
          else SECCOMP_RET_KILL_PROCESS)).
Proof.
  split_and!; [apply deny_open_decides|apply control_open_decides|apply perf_decides|apply logging_decides|apply trap_decides|apply multiarch_decides|].
  intros off. apply arg64_decides.
Qed.

(** A process cannot escape its filters.  Whatever a program does while
    filters are installed, installing more of them included, and whatever the
    kernel replies to the calls that reach it: with the filter of
    seccomp_deny_open no open() is ever answered; with that of
    seccomp_control_open every open() that is answered is without O_CREAT, and
    fails if it asked for writing; with that of seccomp_arg64 every lseek()
    outside 0..1000 fails.  So the main functions of the first two programs end
    killed or with an error, and the first never prints its message. *)
Lemma run_filtered_confines {T : ErrText} K D F (HD : described D) (HF : refusing F) :
  (forall A (p : prog A) fs h,
     let '(_, fs', h') := run_filtered K D F fs p h in
     fs ⊆ fs' /\ exists k, h' = k ++ h /\ Forall (confined fs) k) /\
  (let '(o, _, h) := run_filtered K D F [] deny_open_main [] in failed o /\ Forall silent h) /\
  (let '(o, _, _) := run_filtered K D F [] control_open_main [] in failed o).
Proof.
  split_and!.
  - intros A p fs h. apply (run_confined K D F HD HF p fs h).
  - apply (deny_open_ends K D F HD HF).
  - apply (control_open_ends K D F HD HF).
Qed.

(** C17: seccomp filters.  A filter that passes the checks of the kernel always returns:
    on every system call it executes at most as many instructions as it has and ends
    with the value of one of its own return instructions; the filters of the seven
    programs pass the checks.  What each of the seven filters decides, for every
    description of a system call: calls of another architecture or of the x32 ABI kill
    the process, except as said for the last two.  For the rest, seccomp_deny_open kills
    on open and openat; seccomp_control_open kills if their flags have O_CREAT, fails
    them with ENOTSUP if they ask for writing and allows everything else; seccomp_perf
    kills on open; seccomp_logging logs every call; and seccomp_arg64, though it
    compares the 64-bit offset of lseek in two halves, allows exactly the offsets from 0
    to 1000 and fails the others with errno 1 if the offset is below 2^32 and not
    negative, and 2 otherwise: so every negative offset fails with errno 2, although the
    comment of the program only announces that offsets greater than 1000 fail.
    seccomp_trap_sigsys traps getppid and allows the rest, the x32 ABI included, which
    it does not tell apart, and kills only on another architecture.  seccomp_multiarch
    fails the numbers of mq_notify of x86-64, i386 and x32, each with its own error, in
    whichever of the architectures x86-64 and i386 the number is used, allows the rest
    and kills on other architectures.  And a process cannot escape its filters: whatever
    a program does while filters are installed, installing more of them included, and
    whatever the kernel replies to the calls that reach it, no open() is answered under
    the filter of seccomp_deny_open; under that of seccomp_control_open every open()
    that is answered is without O_CREAT, and fails if it asked for writing; under that
    of seccomp_arg64 every lseek() outside 0..1000 fails; so the main functions of
    seccomp_deny_open and seccomp_control_open end killed or with an error, and the
    first never prints its message. *)
Theorem seccomp_confines :
  (Forall (fun f => filter_ok f = true) filters /\
    forall f d, filter_ok f = true ->
      exists i, i ∈ f /\ bpf_code i = BPF_RET '|' BPF_K /\ action_of f d = Some (bpf_k i)) /\
  (forall d,
   action_of deny_open_filter d =
      Some (if native d && negb (is_nr d NR_open || is_nr d NR_openat)
            then SECCOMP_RET_ALLOW else SECCOMP_RET_KILL_PROCESS) /\
    action_of control_open_filter d =
      Some (if native d
            then match open_flags d with
                 | None => SECCOMP_RET_ALLOW
                 | Some fl => if flag fl O_CREAT then SECCOMP_RET_KILL_PROCESS
                              else if flag fl (O_WRONLY '|' O_RDWR) then SECCOMP_RET_ERRNO '|' ENOTSUP
                              else SECCOMP_RET_ALLOW
                 end
            else SECCOMP_RET_KILL_PROCESS) /\
    action_of perf_filter d =
      Some (if native d && negb (is_nr d NR_open) then SECCOMP_RET_ALLOW else SECCOMP_RET_KILL_PROCESS) /\
    action_of logging_filter d =
      Some (if native d then SECCOMP_RET_LOG else SECCOMP_RET_KILL_PROCESS) /\
    action_of trap_filter d =
      Some (if wrapu 32 (sd_arch d) =? AUDIT_ARCH_X86_64
            then if is_nr d NR_getppid then SECCOMP_RET_TRAP else SECCOMP_RET_ALLOW
            else SECCOMP_RET_KILL) /\
    action_of multiarch_filter d =
      Some (if (wrapu 32 (sd_arch d) =? AUDIT_ARCH_X86_64) || (wrapu 32 (sd_arch d) =? AUDIT_ARCH_I386)
            then if is_nr d NR_mq_notify_x86_64 then SECCOMP_RET_ERRNO '|' NR_mq_notify_x86_64
                 else if is_nr d NR_mq_notify_i386 then SECCOMP_RET_ERRNO '|' NR_mq_notify_i386
                 else if is_nr d (NR_mq_notify_x32 + X32_SYSCALL_BIT) then SECCOMP_RET_ERRNO '|' NR_mq_notify_x32
                 else SECCOMP_RET_ALLOW
            else SECCOMP_RET_KILL_PROCESS) /\
    (forall off, is_long off -> sd_arg1 d = wrapu 64 off ->
      action_of arg64_filter d =
      Some (if native d
            then if is_nr d NR_lseek
                 then if (0 <=? off) && (off <=? 1000) then SECCOMP_RET_ALLOW
                      else if (0 <=? off) && (off <? 2 ^ 32) then SECCOMP_RET_ERRNO '|' 1
                      else SECCOMP_RET_ERRNO '|' 2
                 else SECCOMP_RET_ALLOW
            else SECCOMP_RET_KILL_PROCESS))) /\
  (forall d off, native d = true -> is_nr d NR_lseek = true -> LONG_MIN <= off < 0 -> sd_arg1 d = wrapu 64 off ->
    action_of arg64_filter d = Some (SECCOMP_RET_ERRNO '|' 2)) /\
  (forall (T : ErrText) K D F, described D -> refusing F ->
    (forall A (p : prog A) fs h,
       let '(_, fs', h') := run_filtered K D F fs p h in
       fs ⊆ fs' /\ exists k, h' = k ++ h /\ Forall (confined fs) k) /\
    (let '(o, _, h) := run_filtered K D F [] deny_open_main [] in failed o /\ Forall silent h) /\
    (let '(o, _, _) := run_filtered K D F [] control_open_main [] in failed o)).
Proof. split; [exact filters_return|]. split; [exact filters_decide|]. split; [exact arg64_negative|exact @run_filtered_confines]. Qed.

(** open() as the C library makes it, and a kernel in which everything succeeds
    that the programs need. *)
Definition demo_describe : history -> forall X, call X -> option seccomp_data := fun _ X c =>
  match c with
  | Open _ flags _ => Some (Data NR_openat AUDIT_ARCH_X86_64 0 0 0 (wrapu 64 flags) 0 0 0)
  | Lseek _ offset _ => Some (Data NR_lseek AUDIT_ARCH_X86_64 0 0 (wrapu 64 offset) 0 0 0 0)
  | _ => None
  end.

Definition demo_refuse : forall X, call X -> Z -> X := fun X c =>
  match c in call X return Z -> X with
  | Open _ _ _ | Lseek _ _ _ => fun e => Err e
  | c => fun _ => failing_kernel [] _ c
  end.

Definition demo_seccomp_kernel : kernel := fun h X c =>
  match c in call X return X with
  | Prctl _ _ _ => Ok 0
  | Seccomp _ _ _ => Ok tt
  | Open _ _ _ => Ok 3
  | Lseek _ offset _ => Ok offset
  | c => failing_kernel h _ c
  end.

Lemma seccomp_confines_witness :
  run_filtered demo_seccomp_kernel demo_describe demo_refuse [] (deny_open_main (T:=demo_text)) [] =
    (Killed, [deny_open_filter],
     [Ev (Seccomp SECCOMP_SET_MODE_FILTER 0 deny_open_filter) (Ok tt);
      Ev (Prctl PR_SET_NO_NEW_PRIVS 1 0) (Ok 0)]) /\
  (let '(o, _, _) := run_filtered demo_seccomp_kernel demo_describe demo_refuse [] (control_open_main (T:=demo_text)) [] in
   failed o) /\
  action_of arg64_filter (Data NR_lseek AUDIT_ARCH_X86_64 0 3 (wrapu 64 (-1)) 0 0 0 0) = Some (SECCOMP_RET_ERRNO '|' 2).
Proof.
  destruct seccomp_confines as (_ & Hdecide & _ & Hrun). split; [reflexivity|]. split.
  2: { apply (Hdecide (Data NR_lseek AUDIT_ARCH_X86_64 0 3 (wrapu 64 (-1)) 0 0 0 0)) with (off := -1); [|reflexivity]. unfold is_long, LONG_MIN, LONG_MAX. lia. }
  refine (proj2 (proj2 (Hrun demo_text demo_seccomp_kernel demo_describe demo_refuse _ _))).
  - intros h X c. destruct c; try done; eexists; split_and!; [done..| |done|done|done|done]. by right.
  - by split.
Defined.
