(* ===== verification/RawUdp.v ===== *)
(** * sockets/raw_send_udp.c: a UDP datagram sent through a raw socket

    The program builds the IP header and the UDP datagram byte by byte in a
    buffer of its own and computes the checksum of the datagram.  Buffers are
    lists of bytes of fixed length; an access outside of one is undefined
    behaviour.  The contents of a fresh buffer, from malloc() or on the stack,
    are arguments.  Numbers are stored as on a little-endian machine. *)

From S2P Require Import Prelude Sys LibErrors.

Definition IP_MAXPACKET : nat := Z.to_nat 65535.
Definition IPv4_HEADER_LEN : nat := 20.
Definition UDP_HEADER_LEN : nat := 8.
Definition UDP_PSEUDOHEADER_SIZE : nat := 12.
Definition INET_ADDRSTRLEN : nat := 16.
Definition IPPROTO_UDP : Z := 17.
Definition IPPROTO_RAW : Z := 255.
Definition AF_INET : Z := 2.
Definition SOCK_DGRAM : Z := 2.
Definition SOCK_RAW : Z := 3.

(** ** 16-bit numbers in memory *)

Definition get16 (b : list ascii) : Z := ord (nth 0 b NUL) + 256 * ord (nth 1 b NUL).
Definition put16 (z : Z) : list ascii := [chr (z mod 256); chr (z / 256 mod 256)].
Definition htons (z : Z) : Z := 256 * (z mod 256) + z / 256 mod 256.
Definition ntohs (z : Z) : Z := htons z.

(** ** Buffers *)

Definition upd (mem : list ascii) (off : nat) (b : list ascii) : list ascii :=
  take off mem ++ b ++ drop (off + length b) mem.

Definition poke (mem : list ascii) (off : nat) (b : list ascii) : prog (list ascii) :=
  if (off + length b <=? length mem)%nat then Ret (upd mem off b)
  else Halt (Undefined "write outside a buffer").

Definition peek (mem : list ascii) (off n : nat) : prog (list ascii) :=
  if (off + n <=? length mem)%nat then Ret (take n (drop off mem))
  else Halt (Undefined "read outside a buffer").

(** ** The program *)

Fixpoint sum16 (b : list ascii) (sum : Z) : Z :=
  match b with
  | lo :: hi :: b' => sum16 b' (wrapu 32 (sum + (ord lo + 256 * ord hi)))
  | [c] => wrapu 32 (sum + ord c)
  | [] => sum
  end.

Fixpoint fold16 (fuel : nat) (sum : Z) : option Z :=
  match fuel with
  | O => None
  | S fuel =>
      if Z.shiftr sum 16 =? 0 then Some sum
      else fold16 fuel (wrapu 32 (Z.land sum 0xffff + Z.shiftr sum 16))
  end.

(** Three tests of the loop are enough: see [fold16_returns]. *)
Definition checksum (b : list ascii) : option Z :=
  match fold16 3 (sum16 b 0) with
  | Some sum => Some (wrapu 16 (Z.lnot sum))
  | None => None
  end.

Definition udpChecksum (stack dgram : list ascii) : prog Z :=
  srcAddress <- peek dgram 12 4 ;;
  buf <- poke stack 0 srcAddress ;;
  dstAddress <- peek dgram 16 4 ;;
  buf <- poke buf 4 dstAddress ;;
  buf <- poke buf 8 [NUL] ;;
  protocol <- peek dgram 9 1 ;;
  buf <- poke buf 9 protocol ;;
  udpLength <- peek dgram 24 2 ;;
  buf <- poke buf 10 udpLength ;;
  bytes <- peek dgram IPv4_HEADER_LEN (Z.to_nat (get16 udpLength)) ;;
  buf <- poke buf UDP_PSEUDOHEADER_SIZE bytes ;;
  buf <- poke buf (UDP_PSEUDOHEADER_SIZE + 6) [NUL; NUL] ;;
  let checksumLen := Z.of_nat UDP_PSEUDOHEADER_SIZE + ntohs (get16 udpLength) in
  '(buf, checksumLen) <-
    (if checksumLen mod 2 =? 0 then Ret (buf, checksumLen)
     else buf <- poke buf (Z.to_nat checksumLen) [NUL] ;; Ret (buf, checksumLen + 1)) ;;
  print Stdout ($"Buffer length for UDP checksum = " ++ dec checksumLen ++ [NL]) ;;;
  bytes <- peek buf 0 (Z.to_nat checksumLen) ;;
  match checksum bytes with Some c => Ret c | None => Halt OutOfFuel end.

Section Program.
Context {T : ErrText} (gai_strerror : Z -> list ascii).

(** A struct sockaddr_in is 16 bytes: family, port, address, padding. *)
Definition getIPv4Addr (host : list ascii) : prog (list ascii) :=
  r <- sys (Getaddrinfo_host host (Hints 0 AF_INET SOCK_DGRAM)) ;;
  match r with
  | inl s => fatal ($"getaddrinfo() failed: " ++ gai_strerror s)
  | inr [] => Halt (Undefined "null pointer")
  | inr (ai :: l) =>
      addr <- peek (ai_addr ai) 0 16 ;;
      sys (Freeaddrinfo (ai :: l)) ;;;
      Ret addr
  end.

Definition sin_addr (addr : list ascii) : list ascii := take 4 (drop 4 addr).

Definition buildIpHeader (dgram : list ascii) (srcIpStr dstIpAddr : list ascii) : prog (list ascii) :=
  b <- peek dgram 0 1 ;;
  dgram <- poke dgram 0 [chr (Z.lor (Z.land (ord (nth 0 b NUL)) 0xf0) (Z.of_nat IPv4_HEADER_LEN / 4))] ;;
  b <- peek dgram 0 1 ;;
  dgram <- poke dgram 0 [chr (Z.lor (Z.land (ord (nth 0 b NUL)) 0x0f) (Z.shiftl 4 4))] ;;
  dgram <- poke dgram 1 [chr 0] ;;
  dgram <- poke dgram 4 (put16 (htons 0)) ;;
  dgram <- poke dgram 6 (put16 (htons (Z.shiftl 0 15 + Z.shiftl 0 14 + Z.shiftl 0 13 + 0))) ;;
  dgram <- poke dgram 8 [chr 255] ;;
  dgram <- poke dgram 9 [chr IPPROTO_UDP] ;;
  src <- getIPv4Addr srcIpStr ;;
  dgram <- poke dgram 12 (sin_addr src) ;;
  poke dgram 16 (sin_addr dstIpAddr).

Definition buildUdpDatagram (stack dgram : list ascii) (srcPort dstPort data : list ascii)
    : prog (list ascii) :=
  let udpDataLen := wrapu 16 (strlen data) in
  dgram <- poke dgram (IPv4_HEADER_LEN + UDP_HEADER_LEN) (take (Z.to_nat udpDataLen) data) ;;
  dgram <- poke dgram IPv4_HEADER_LEN (put16 (htons (wrapu 16 (atoi srcPort)))) ;;
  dgram <- poke dgram (IPv4_HEADER_LEN + 2) (put16 (htons (wrapu 16 (atoi dstPort)))) ;;
  dgram <- poke dgram (IPv4_HEADER_LEN + 4)
             (put16 (htons (wrapu 16 (Z.of_nat UDP_HEADER_LEN + udpDataLen)))) ;;
  len <- peek dgram (IPv4_HEADER_LEN + 4) 2 ;;
  print Stdout ($"UDP header length = " ++ dec (ntohs (get16 len)) ++ [NL]) ;;;
  c <- udpChecksum stack dgram ;;
  poke dgram (IPv4_HEADER_LEN + 6) (put16 c).

Definition raw_send_udp_main (heap stack : list ascii) (argv : list (list ascii)) : prog unit :=
  if (length argv <? 6)%nat
  then usageErr (nth 0 argv [] ++ $" src-IP dest-host src-port dest-port data" ++ [NL])
  else
    let srcIpStr := nth 1 argv [] in
    let dstHost := nth 2 argv [] in
    let srcPort := nth 3 argv [] in
    let dstPort := nth 4 argv [] in
    let data := nth 5 argv [] in
    ok <- sys (Alloc (Z.of_nat IP_MAXPACKET)) ;;
    if negb ok then errExit ENOMEM ($"malloc-ipDatagram")
    else
      let datagramLen := Z.of_nat (IPv4_HEADER_LEN + UDP_HEADER_LEN) + strlen data in
      dstIpAddr <- getIPv4Addr dstHost ;;
      r <- sys (Inet_ntop (sin_addr dstIpAddr)) ;;
      match r with
      | Err e => errExit e ($"inet_ntop")
      | Ok dstIpStr =>
          print Stdout ($"Destination IP: " ++ pad_left INET_ADDRSTRLEN dstIpStr ++ [NL]) ;;;
          dgram <- buildIpHeader heap srcIpStr dstIpAddr ;;
          dgram <- buildUdpDatagram stack dgram srcPort dstPort data ;;
          r <- sys (Socket AF_INET SOCK_RAW IPPROTO_RAW) ;;
          match r with
          | Err e => errExit e ($"socket")
          | Ok sockfd =>
              print Stdout ($"Sending datagram (" ++ dec datagramLen ++ $" bytes)" ++ [NL]) ;;;
              bytes <- peek dgram 0 (Z.to_nat datagramLen) ;;
              r <- sys (Sendto sockfd bytes dstIpAddr) ;;
              match r with
              | Err e => errExit e ($"sendto")
              | Ok _ => sys (Close sockfd) ;;; Halt (Exit EXIT_SUCCESS)
              end
          end
      end.
End Program.

(** ** The checksum *)

(** RFC 1071: 16-bit ones'-complement addition, with the end-around carry, over
    big-endian words; an odd last byte is padded with zero on the right. *)
Definition oc_add (a b : Z) : Z := let s := a + b in if s <? 65536 then s else s - 65535.

Fixpoint rfc1071_sum (b : list ascii) (acc : Z) : Z :=
  match b with
  | hi :: lo :: b' => rfc1071_sum b' (oc_add acc (256 * ord hi + ord lo))
  | [c] => oc_add acc (256 * ord c)
  | [] => acc
  end.

Definition rfc1071 (b : list ascii) : Z := 65535 - rfc1071_sum b 0.

(** [v] is the ones'-complement representative of the sum [s]: the values 0 and
    65535 are both congruent to 0, and 0 stands for the sum 0 alone. *)
Definition repr (v s : Z) : Prop :=
  0 <= v <= 65535 /\ 0 <= s /\ (v = 0 <-> s = 0) /\ (exists k, s - v = k * 65535).

Lemma repr_unique v w s : repr v s -> repr w s -> v = w.
Proof. intros (? & ? & ? & k & ?) (? & ? & ? & j & ?). nia. Qed.

Lemma repr_add v s w : repr v s -> 0 <= w <= 65535 -> repr (oc_add v w) (s + w).
Proof.
  intros (? & ? & ? & k & ?) ?. unfold repr, oc_add. destruct (Z.ltb_spec (v + w) 65536).
  - split_and!; try lia. exists k. lia.
  - split_and!; try lia. exists (k + 1). lia.
Qed.

Lemma list_pair_ind {A} (P : list A -> Prop) :
  P [] -> (forall a, P [a]) -> (forall a b l, P l -> P (a :: b :: l)) -> forall l, P l.
Proof.
  intros H0 H1 H2 l. enough (P l /\ forall a, P (a :: l)) by tauto.
  induction l as [|b l [IH1 IH2]]; split; auto.
Qed.

(** The sums without bounds, in the order of the machine and of the network. *)
Fixpoint le_sum (b : list ascii) : Z :=
  match b with lo :: hi :: b' => ord lo + 256 * ord hi + le_sum b' | [c] => ord c | [] => 0 end.

Fixpoint be_sum (b : list ascii) : Z :=
  match b with hi :: lo :: b' => 256 * ord hi + ord lo + be_sum b' | [c] => 256 * ord c | [] => 0 end.

(** The bytes of each word swap places: the sums differ by a factor of 256 in
    ones'-complement arithmetic. *)
Lemma be_le_sum b :
  0 <= le_sum b <= 65535 * ((Z.of_nat (length b) + 1) / 2) /\ 0 <= be_sum b /\
  (be_sum b = 0 <-> le_sum b = 0) /\ exists k, be_sum b - 256 * le_sum b = k * 65535.
Proof.
  induction b as [|c|x y b (H1 & H2 & H3 & k & H4)] using list_pair_ind; simpl le_sum; simpl be_sum.
  - split_and!; try done. by exists 0.
  - pose proof (ord_range c). change ((Z.of_nat (length [c]) + 1) / 2) with 1.
    split_and!; try lia. exists 0. lia.
  - pose proof (ord_range x). pose proof (ord_range y).
    assert ((Z.of_nat (length (x :: y :: b)) + 1) / 2 = (Z.of_nat (length b) + 1) / 2 + 1) as ->.
    { rewrite <- Z.div_add by done. f_equal. simpl length. lia. }
    split_and!; try lia. exists (k - ord y). lia.
Qed.

Lemma sum16_le_sum b s :
  0 <= s -> s + le_sum b < 2 ^ 32 -> sum16 b s = s + le_sum b.
Proof.
  revert s. induction b as [|c|x y b IH] using list_pair_ind; intros s Hs Hb; cbn [sum16 le_sum] in *.
  - lia.
  - pose proof (ord_range c). apply wrapu_id. lia.
  - pose proof (ord_range x). pose proof (ord_range y). pose proof (proj1 (be_le_sum b)).
    rewrite wrapu_id by lia. rewrite IH by lia. lia.
Qed.

Lemma fold_step s : 0 <= s -> Z.land s 0xffff + Z.shiftr s 16 = s - 65535 * (s / 65536).
Proof.
  intros Hs. assert (Z.land s 0xffff = s mod 2 ^ 16) as -> by (apply (Z.land_ones s 16); lia).
  rewrite Z.shiftr_div_pow2 by lia.
  change (2 ^ 16) with 65536. pose proof (Z.div_mod s 65536). lia.
Qed.

(** Two rounds fold any 32-bit sum. *)
Lemma fold16_returns s : 0 <= s < 2 ^ 32 -> exists v, fold16 3 s = Some v /\ repr v s.
Proof.
  intros Hs. unfold repr.
  assert (forall f s, 0 <= s < 65536 -> fold16 (S f) s = Some s) as Hstop.
  { intros f t Ht. cbn [fold16]. rewrite Z.shiftr_div_pow2, Z.div_small by lia. done. }
  assert (forall f s, 65536 <= s < 2 ^ 32 -> fold16 (S f) s = fold16 f (s - 65535 * (s / 65536)) /\
    1 <= s / 65536 < 65536 /\ 65536 * (s / 65536) <= s < 65536 * (s / 65536) + 65536) as Hgo.
  { intros f t Ht. assert (1 <= t / 65536 < 65536) by (split; [apply Z.div_le_lower_bound|apply Z.div_lt_upper_bound]; lia).
    pose proof (Z.mul_div_le t 65536). pose proof (Z.mul_succ_div_gt t 65536). split; [|lia].
    cbn [fold16]. rewrite Z.shiftr_div_pow2 at 1 by lia. change (2 ^ 16) with 65536.
    rewrite (proj2 (Z.eqb_neq _ _)) by lia. rewrite fold_step, wrapu_id by lia. done. }
  destruct (Z.ltb_spec s 65536) as [Hlt|Hge].
  { rewrite Hstop by lia. exists s. split_and!; try lia; [done|]. by exists 0; lia. }
  destruct (Hgo 2%nat s) as (-> & Hq & Hr); [lia|]. set (s1 := s - 65535 * (s / 65536)) in *.
  destruct (Z.ltb_spec s1 65536) as [Hlt|Hge1].
  { rewrite Hstop by lia. exists s1. split_and!; try lia; [done|]. exists (s / 65536). lia. }
  destruct (Hgo 1%nat s1) as (-> & Hq1 & Hr1); [lia|].
  rewrite Hstop by lia. eexists. split; [done|]. split_and!; try lia.
  exists (s / 65536 + s1 / 65536). lia.
Qed.

Lemma htons_val v : 0 <= v <= 65535 -> htons v = 256 * v - 65535 * (v / 256) /\ 0 <= v / 256 < 256.
Proof.
  intros Hv. unfold htons. pose proof (Z.div_mod v 256).
  assert (0 <= v / 256 < 256) by (split; [apply Z.div_pos|apply Z.div_lt_upper_bound]; lia).
  rewrite (Z.mod_small (v / 256)) by lia. lia.
Qed.

Lemma htons_range v : 0 <= v <= 65535 -> 0 <= htons v <= 65535.
Proof.
  intros Hv. unfold htons. pose proof (Z.mod_pos_bound v 256). pose proof (Z.mod_pos_bound (v / 256) 256). lia.
Qed.

Lemma htons_htons v : 0 <= v <= 65535 -> htons (htons v) = v.
Proof.
  intros Hv. destruct (htons_val v Hv) as [_ Hq]. pose proof (Z.mod_pos_bound v 256).
  unfold htons at 2. rewrite (Z.mod_small (v / 256)) by lia. unfold htons.
  rewrite <- (Z.mod_unique_pos (256 * (v mod 256) + v / 256) 256 (v mod 256) (v / 256)) by lia.
  rewrite <- (Z.div_unique_pos (256 * (v mod 256) + v / 256) 256 (v mod 256) (v / 256)) by lia.
  rewrite Z.mod_mod by done. pose proof (Z.div_mod v 256). lia.
Qed.

Lemma htons_lnot v : 0 <= v <= 65535 -> htons (wrapu 16 (Z.lnot v)) = 65535 - htons v.
Proof.
  intros Hv. assert (wrapu 16 (Z.lnot v) = 65535 - v) as ->.
  { unfold wrapu, Z.lnot. rewrite <- (Z.mod_add _ 1) by done. rewrite Z.mod_small; lia. }
  destruct (htons_val v Hv) as [-> ?]. destruct (htons_val (65535 - v)) as [-> ?]; [lia|].
  pose proof (Z.mul_div_le v 256). pose proof (Z.mul_succ_div_gt v 256).
  pose proof (Z.mul_div_le (65535 - v) 256). pose proof (Z.mul_succ_div_gt (65535 - v) 256). lia.
Qed.

Lemma repr_swap v s t :
  repr v s -> 0 <= t -> (t = 0 <-> s = 0) -> (exists k, t - 256 * s = k * 65535) -> repr (htons v) t.
Proof.
  intros (Hv & Hs & H0 & k & Hk) Ht H0' [j Hj]. destruct (htons_val v Hv) as [Hh Hq].
  pose proof (htons_range v Hv). pose proof (Z.mul_div_le v 256).
  split_and!; try lia.
  exists (j + 256 * k + v / 256). lia.
Qed.

Lemma rfc1071_sum_repr b v s : repr v s -> repr (rfc1071_sum b v) (s + be_sum b).
Proof.
  revert v s. induction b as [|c|x y b IH] using list_pair_ind; intros v s H; cbn [rfc1071_sum be_sum].
  - by rewrite Z.add_0_r.
  - pose proof (ord_range c). apply repr_add; [done|lia].
  - pose proof (ord_range x). pose proof (ord_range y). rewrite Z.add_assoc. apply IH, repr_add; [done|lia].
Qed.

Lemma rfc1071_range b : 0 <= rfc1071 b <= 65535.
Proof.
  unfold rfc1071. assert (repr (rfc1071_sum b 0) (0 + be_sum b)) as [? _]; [|lia].
  apply rfc1071_sum_repr. split_and!; try done. by exists 0.
Qed.

Lemma checksum_spec b :
  (length b <= Z.to_nat 131074)%nat -> exists c, checksum b = Some c /\ 0 <= c <= 65535 /\ htons c = rfc1071 b.
Proof.
  intros Hlen. destruct (be_le_sum b) as (Hle & Hbe & H0 & Hk).
  assert ((Z.of_nat (length b) + 1) / 2 <= 65537) by (apply Z.lt_succ_r, Z.div_lt_upper_bound; lia).
  unfold checksum. rewrite sum16_le_sum by lia.
  destruct (fold16_returns (0 + le_sum b)) as (v & -> & Hv); [lia|]. eexists. split; [done|].
  pose proof (wrapu_range 16 (Z.lnot v)). split; [lia|].
  pose proof Hv as (Hr & _). rewrite htons_lnot by done. unfold rfc1071. f_equal.
  apply (repr_unique _ _ (0 + be_sum b)).
  - apply (repr_swap _ (0 + le_sum b)); try done; lia.
  - apply rfc1071_sum_repr. split_and!; try done. by exists 0.
Qed.

(** ** Buffers: what the updates write *)

Lemma upd_app p q b : upd (p ++ q) (length p) b = p ++ b ++ drop (length b) q.
Proof.
  unfold upd. rewrite take_app_length, drop_app, drop_ge, app_nil_l by lia. do 3 f_equal. lia.
Qed.

Lemma upd_app_off p q off b : upd (p ++ q) (length p + off) b = p ++ upd q off b.
Proof.
  unfold upd. rewrite take_app_add, <- app_assoc. do 3 f_equal.
  by rewrite <- Nat.add_assoc, drop_app_add.
Qed.

Lemma length_upd mem off b : (off + length b <= length mem)%nat -> length (upd mem off b) = length mem.
Proof. intros H. unfold upd. rewrite !length_app, length_take, length_drop. lia. Qed.

Lemma take_upd n mem off b :
  (off + length b <= n)%nat -> (n <= length mem)%nat -> take n (upd mem off b) = upd (take n mem) off b.
Proof.
  intros H Hm. unfold upd. rewrite take_app, length_take_le by lia.
  rewrite (take_ge (take off mem)) by (rewrite length_take; lia). f_equal.
  - rewrite take_take. f_equal. lia.
  - rewrite take_app, take_ge by lia. f_equal. rewrite skipn_firstn_comm. f_equal. lia.
Qed.

Section Rules.
Context (E : env).

Lemma wp_poke {B} mem off b (k : list ascii -> prog B) Q h :
  (off + length b <= length mem)%nat -> wp E (k (upd mem off b)) Q h -> wp E (bind (poke mem off b) k) Q h.
Proof. intros H. unfold poke. by rewrite (proj2 (Nat.leb_le _ _) H). Qed.

Lemma wp_peek {B} mem off n (k : list ascii -> prog B) Q h :
  (off + n <= length mem)%nat -> wp E (k (take n (drop off mem))) Q h -> wp E (bind (peek mem off n) k) Q h.
Proof. intros H. unfold peek. by rewrite (proj2 (Nat.leb_le _ _) H). Qed.

(** A write at the end of what is written already. *)
Lemma wp_poke_next {B} p q off n b (k : list ascii -> prog B) Q h :
  length p = off -> length b = n -> (n <= length q)%nat -> wp E (k ((p ++ b) ++ drop n q)) Q h ->
  wp E (bind (poke (p ++ q) off b) k) Q h.
Proof.
  intros <- <- H Hk. apply wp_poke; [rewrite length_app; lia|]. by rewrite upd_app, app_assoc.
Qed.

End Rules.

(** ** The bytes that udpChecksum sums *)

(** The length field as the machine reads it, and in host order. *)
Definition raw_len (dgram : list ascii) : nat := Z.to_nat (get16 (take 2 (drop 24 dgram))).
Definition udp_len (dgram : list ascii) : nat := Z.to_nat (ntohs (get16 (take 2 (drop 24 dgram)))).

Definition pseudoheader (dgram : list ascii) : list ascii :=
  take 4 (drop 12 dgram) ++ take 4 (drop 16 dgram) ++ [NUL] ++ take 1 (drop 9 dgram)
  ++ take 2 (drop 24 dgram).

(** The datagram with a zero checksum field: what RFC 768 has summed. *)
Definition zero_check (udp : list ascii) : list ascii := upd udp 6 [NUL; NUL].

(** memcpy() is given the length in network order: behind so many bytes of the
    datagram there is what the stack held. *)
Definition copied (stack dgram : list ascii) : list ascii :=
  let n := raw_len dgram in
  take n (drop IPv4_HEADER_LEN dgram) ++ drop n (drop UDP_PSEUDOHEADER_SIZE stack).

Definition summed (stack dgram : list ascii) : list ascii :=
  pseudoheader dgram ++ take (udp_len dgram) (zero_check (copied stack dgram)).

Lemma be_sum_app a b : Nat.even (length a) = true -> be_sum (a ++ b) = be_sum a + be_sum b.
Proof.
  induction a as [|c|x y a IH] using list_pair_ind; intros Ha; simpl in *; [done..|]. rewrite IH by done. lia.
Qed.

Lemma rfc1071_be_sum a b : be_sum a = be_sum b -> rfc1071 a = rfc1071 b.
Proof.
  intros H. unfold rfc1071. f_equal. assert (repr 0 0) as H0 by (split_and!; try done; by exists 0).
  apply (repr_unique _ _ (0 + be_sum b)); [rewrite <- H|]; by apply rfc1071_sum_repr.
Qed.

Lemma be_sum_pad a : Nat.even (length a) = false -> be_sum (a ++ [NUL]) = be_sum a.
Proof.
  induction a as [|c|x y a IH] using list_pair_ind; intros Ha; simpl in *; [done| |by rewrite IH].
  change (ord NUL) with 0. lia.
Qed.

Lemma get16_range b : 0 <= get16 b <= 65535.
Proof. unfold get16. pose proof (ord_range (nth 0 b NUL)). pose proof (ord_range (nth 1 b NUL)). lia. Qed.

(** The end of udpChecksum: padding to an even length and the sum. *)
Lemma wp_sum E buf n (Q : outcome Z -> history -> Prop) h :
  0 <= n -> (Z.to_nat n + 2 <= length buf <= IP_MAXPACKET)%nat ->
  (forall c t, 0 <= c <= 65535 -> htons c = rfc1071 (take (Z.to_nat n) buf) ->
     Q (Done c) (Ev (Out Stdout t) tt :: h)) ->
  wp E ('(buf, checksumLen) <-
    (if n mod 2 =? 0 then Ret (buf, n)
     else buf <- poke buf (Z.to_nat n) [NUL] ;; Ret (buf, n + 1)) ;;
  print Stdout ($"Buffer length for UDP checksum = " ++ dec checksumLen ++ [NL]) ;;;
  bytes <- peek buf 0 (Z.to_nat checksumLen) ;;
  match checksum bytes with Some c => Ret c | None => Halt OutOfFuel end) Q h.
Proof.
  intros Hn Hlen HQ. unfold IP_MAXPACKET in *.
  assert (forall b, (length b <= Z.to_nat 131074)%nat -> rfc1071 b = rfc1071 (take (Z.to_nat n) buf) ->
    forall t, wp E (match checksum b with Some c => Ret c | None => Halt OutOfFuel end) Q (Ev (Out Stdout t) tt :: h)) as Hsum.
  { intros b Hb Heq t. destruct (checksum_spec b Hb) as (c & -> & Hr & Hc). apply HQ; [done|]. by rewrite Hc. }
  destruct (Z.eqb_spec (n mod 2) 0) as [Heven|Hodd].
  - intros [] _. apply wp_peek; [lia|]. apply Hsum; [rewrite length_take, length_drop; lia|done].
  - rewrite bind_assoc. apply wp_poke; [simpl; lia|]. intros [] _.
    apply wp_peek; [rewrite length_upd by (simpl; lia); lia|].
    apply Hsum; [rewrite length_take, length_drop, length_upd by (simpl; lia); lia|]. apply rfc1071_be_sum.
    assert (take (Z.to_nat (n + 1)) (drop 0 (upd buf (Z.to_nat n) [NUL])) = take (Z.to_nat n) buf ++ [NUL]) as ->.
    { unfold upd. rewrite drop_0, Z2Nat.inj_add by lia. rewrite <- (length_take_le buf (Z.to_nat n)) at 1 by lia.
      rewrite take_app_add. done. }
    apply be_sum_pad. rewrite length_take_le by lia.
    destruct (Nat.even (Z.to_nat n)) eqn:He; [|done]. destruct Hodd.
    apply Nat.even_spec in He as [m Hm]. replace n with (Z.of_nat m * 2) by lia. by apply Z.mod_mul.
Qed.

Section UdpChecksum.
Context (E : env) (stack dgram : list ascii)
  (Hstack : length stack = IP_MAXPACKET) (Hdgram : length dgram = IP_MAXPACKET).

Lemma length_pseudoheader : length (pseudoheader dgram) = 12%nat.
Proof.
  unfold pseudoheader, IP_MAXPACKET in *. rewrite !length_app, !length_take, !length_drop, Hdgram. simpl. lia.
Qed.

Lemma length_copied :
  (20 + raw_len dgram <= IP_MAXPACKET)%nat -> length (copied stack dgram) = (IP_MAXPACKET - 12)%nat.
Proof.
  unfold copied, IP_MAXPACKET, IPv4_HEADER_LEN, UDP_PSEUDOHEADER_SIZE in *. intros H.
  rewrite length_app, length_take, !length_drop, Hstack, Hdgram. lia.
Qed.

#[local] Ltac len' := rewrite ?length_app, ?length_take, ?length_drop, ?Hstack, ?Hdgram;
  unfold IP_MAXPACKET, IPv4_HEADER_LEN, UDP_HEADER_LEN, UDP_PSEUDOHEADER_SIZE in *; simpl length; lia.

(** Up to the copy. *)
Lemma wp_pseudoheader {B} (k : list ascii -> list ascii -> prog B) Q h :
  wp E (k (take 2 (drop 24 dgram)) (pseudoheader dgram ++ drop 12 stack)) Q h ->
  wp E (srcAddress <- peek dgram 12 4 ;; buf <- poke stack 0 srcAddress ;;
        dstAddress <- peek dgram 16 4 ;; buf <- poke buf 4 dstAddress ;;
        buf <- poke buf 8 [NUL] ;;
        protocol <- peek dgram 9 1 ;; buf <- poke buf 9 protocol ;;
        udpLength <- peek dgram 24 2 ;; buf <- poke buf 10 udpLength ;; k udpLength buf) Q h.
Proof.
  intros Hk. assert (forall off n, (off + n <= 26)%nat -> length (take n (drop off dgram)) = n) as Hl.
  { intros off n Hn. rewrite length_take, length_drop, Hdgram. unfold IP_MAXPACKET. lia. }
  assert (forall n, (n <= 26)%nat -> (n <= length dgram)%nat) as Hin by (unfold IP_MAXPACKET in *; lia).
  assert (forall n m, (n + m <= 26)%nat -> (n <= length (drop m stack))%nat) as Hs.
  { intros n m Hn. rewrite length_drop, Hstack. unfold IP_MAXPACKET. lia. }
  apply wp_peek; [apply Hin; lia|].
  apply (wp_poke_next _ [] (drop 0 stack) 0 4); [done|apply Hl; lia|apply Hs; lia|].
  apply wp_peek; [apply Hin; lia|]. rewrite drop_drop.
  apply (wp_poke_next _ _ _ 4 4); [len'|apply Hl; lia|apply Hs; lia|]. rewrite drop_drop.
  apply (wp_poke_next _ _ _ 8 1); [len'|done|apply Hs; lia|]. rewrite drop_drop.
  apply wp_peek; [apply Hin; lia|].
  apply (wp_poke_next _ _ _ 9 1); [len'|apply Hl; lia|apply Hs; lia|]. rewrite drop_drop.
  apply wp_peek; [apply Hin; lia|].
  apply (wp_poke_next _ _ _ 10 2); [len'|apply Hl; lia|apply Hs; lia|]. rewrite drop_drop.
  unfold pseudoheader in Hk. rewrite <- !app_assoc in *. exact Hk.
Qed.

(** The read outside the datagram. *)
Lemma udpChecksum_overrun Q h :
  (IP_MAXPACKET < 20 + raw_len dgram)%nat ->
  Q (Stop (Undefined "read outside a buffer")) h -> wp E (udpChecksum stack dgram) Q h.
Proof.
  intros Hn HQ. unfold udpChecksum. apply wp_pseudoheader. unfold peek.
  rewrite (proj2 (Nat.leb_gt _ _)); [done|]. unfold raw_len, IPv4_HEADER_LEN in *. lia.
Qed.

Lemma wp_udpChecksum Q h :
  (20 + raw_len dgram <= IP_MAXPACKET)%nat -> (20 + udp_len dgram <= IP_MAXPACKET)%nat ->
  (forall c t, 0 <= c <= 65535 -> htons c = rfc1071 (summed stack dgram) ->
     Q (Done c) (Ev (Out Stdout t) tt :: h)) ->
  wp E (udpChecksum stack dgram) Q h.
Proof.
  intros Hraw Hudp HQ. unfold udpChecksum. apply wp_pseudoheader.
  pose proof length_pseudoheader as Hp. pose proof (length_copied Hraw) as Hc.
  pose proof (get16_range (take 2 (drop 24 dgram))) as Hg.
  apply wp_peek; [unfold raw_len, IPv4_HEADER_LEN in *; lia|].
  apply (wp_poke_next _ _ _ _ (raw_len dgram)); [done|..].
  1,2: unfold raw_len, IPv4_HEADER_LEN in *; len'.
  rewrite <- app_assoc. fold (raw_len dgram). change (_ ++ drop _ (drop 12 stack)) with (copied stack dgram).
  apply wp_poke; [len'|].
  assert (forall x, upd (pseudoheader dgram ++ x) (UDP_PSEUDOHEADER_SIZE + 6) [NUL; NUL] =
    pseudoheader dgram ++ zero_check x) as -> by (intros x; change UDP_PSEUDOHEADER_SIZE with 12%nat; rewrite <- Hp; apply upd_app_off).
  assert (length (zero_check (copied stack dgram)) = length (copied stack dgram)) as Hz.
  { apply length_upd. len'. }
  assert (Z.of_nat UDP_PSEUDOHEADER_SIZE + ntohs (get16 (take 2 (drop 24 dgram))) = Z.of_nat (12 + udp_len dgram)) as ->.
  { pose proof (htons_range _ Hg). unfold udp_len, ntohs, UDP_PSEUDOHEADER_SIZE in *. lia. }
  apply wp_sum; [lia|len'|]. intros c t Hr Hs. apply HQ; [done|]. rewrite Hs, Nat2Z.id, <- Hp at 1.
  by rewrite take_app_add.
Qed.
End UdpChecksum.

(** ** The datagram *)

Definition be16 (z : Z) : list ascii := [chr (z / 256 mod 256); chr (z mod 256)].

(** A UDP datagram with a valid checksum: the receiver's sum over the
    pseudoheader and the datagram, its checksum field included, is the
    ones'-complement zero. *)
Definition udp_valid (src dst udp : list ascii) : Prop :=
  rfc1071 (src ++ dst ++ [NUL; chr IPPROTO_UDP] ++ be16 (Z.of_nat (length udp)) ++ udp) = 0.

(** An IPv4 packet with a UDP datagram, as RFC 791 and RFC 768 have it.  The
    total length and the header checksum are left to the kernel. *)
Definition udp_packet (src dst : list ascii) (sport dport : Z) (data pkt : list ascii) : Prop :=
  exists len0 len1 sum0 sum1 check,
    let udp := be16 sport ++ be16 dport ++ be16 (8 + strlen data) ++ check ++ data in
    pkt = [chr 0x45; NUL; len0; len1; NUL; NUL; NUL; NUL; chr 255; chr IPPROTO_UDP; sum0; sum1]
          ++ src ++ dst ++ udp /\
    length check = 2%nat /\ udp_valid src dst udp.

Lemma put16_htons z : 0 <= z <= 65535 -> put16 (htons z) = be16 z.
Proof.
  intros Hz. unfold put16, htons, be16. destruct (htons_val z Hz) as [_ Hq]. pose proof (Z.mod_pos_bound z 256).
  rewrite (Z.mod_small (z / 256)) by lia.
  rewrite <- (Z.mod_unique_pos (256 * (z mod 256) + z / 256) 256 (z mod 256) (z / 256)) by lia.
  rewrite <- (Z.div_unique_pos (256 * (z mod 256) + z / 256) 256 (z mod 256) (z / 256)) by lia.
  by rewrite Z.mod_mod by done.
Qed.

Lemma get16_put16 z : 0 <= z <= 65535 -> get16 (put16 z) = z.
Proof.
  intros Hz. unfold get16, put16. cbn [nth]. destruct (htons_val z Hz) as [_ Hq]. pose proof (Z.mod_pos_bound z 256).
  rewrite (Z.mod_small (z / 256)), !ord_chr by lia. pose proof (Z.div_mod z 256). lia.
Qed.

Lemma be_sum_put16 z : 0 <= z <= 65535 -> be_sum (put16 z) = htons z.
Proof.
  intros Hz. unfold put16, htons. cbn [be_sum]. pose proof (Z.mod_pos_bound z 256).
  pose proof (Z.mod_pos_bound (z / 256) 256). rewrite !ord_chr by lia. lia.
Qed.

(** Putting the checksum in place of the zeroes makes the sum zero. *)
Lemma checksum_verifies a b c :
  Nat.even (length a) = true -> 0 <= c <= 65535 -> htons c = rfc1071 (a ++ [NUL; NUL] ++ b) ->
  rfc1071 (a ++ put16 c ++ b) = 0.
Proof.
  intros Ha Hc Hs. assert (repr 0 0) as H0 by (split_and!; try done; by exists 0).
  pose proof (rfc1071_sum_repr (a ++ [NUL; NUL] ++ b) 0 0 H0) as (Hv & Hs0 & Hz & k & Hk).
  unfold rfc1071 in *. enough (rfc1071_sum (a ++ put16 c ++ b) 0 = 65535) by lia.
  apply (repr_unique _ _ (0 + be_sum (a ++ put16 c ++ b))); [by apply rfc1071_sum_repr|].
  pose proof (be_sum_put16 c Hc). pose proof (be_sum_app a) as Happ. pose proof (proj1 (proj2 (be_le_sum a))).
  pose proof (proj1 (proj2 (be_le_sum b))).
  rewrite Happ in * by done. change ([NUL; NUL] ++ b) with (NUL :: NUL :: b) in *.
  cbn [be_sum] in *. change (ord NUL) with 0 in *.
  rewrite (be_sum_app (put16 c)) by done. split_and!; try lia. exists k. lia.
Qed.

(** ** Which datagrams are built right *)

(** The copy has to take in the whole datagram and stay inside the buffers. *)
Definition copy_fits (data : list ascii) : Prop :=
  let L := 8 + strlen data in L <= htons L /\ htons L <= 65515 /\ L <= 65515.

Lemma short_fits data : strlen data <= 247 -> copy_fits data.
Proof.
  intros H. unfold copy_fits, htons, strlen in *. rewrite (Z.mod_small (8 + _)), Z.div_small by lia.
  change (0 mod 256) with 0. lia.
Qed.

Section Build.
Context (E : env).

Lemma upd_mid p m q off b : length p = off -> length b = length m -> upd (p ++ m ++ q) off b = p ++ b ++ q.
Proof. intros <- H. by rewrite upd_app, H, drop_app_length. Qed.

Lemma wp_poke_mid {B} p m q mem off b (k : list ascii -> prog B) Q h :
  mem = p ++ m ++ q -> length p = off -> length b = length m -> wp E (k (p ++ b ++ q)) Q h ->
  wp E (bind (poke mem off b) k) Q h.
Proof.
  intros -> Hp Hb Hk. apply wp_poke; [rewrite !length_app; lia|]. by rewrite upd_mid.
Qed.

(** The buffer with the datagram of RFC 768 but for the checksum. *)
Definition filled (H : list ascii) (sport dport : Z) (check data rest : list ascii) : list ascii :=
  H ++ be16 sport ++ be16 dport ++ be16 (8 + strlen data) ++ check ++ data ++ rest.

Lemma summed_filled stack H sport dport check data rest :
  length stack = IP_MAXPACKET -> length (filled H sport dport check data rest) = IP_MAXPACKET ->
  length H = 20%nat -> length check = 2%nat -> copy_fits data -> nth 9 H NUL = chr IPPROTO_UDP ->
  let dgram := filled H sport dport check data rest in
  (raw_len dgram <= Z.to_nat 65515)%nat /\ (udp_len dgram <= Z.to_nat 65515)%nat /\
  summed stack dgram =
    (take 4 (drop 12 H) ++ take 4 (drop 16 H) ++ [NUL; chr IPPROTO_UDP] ++ be16 (8 + strlen data)
     ++ be16 sport ++ be16 dport ++ be16 (8 + strlen data)) ++ [NUL; NUL] ++ data.
Proof.
  intros Hstack Hlen HH Hc (HL & HL1 & HL2) H9 dgram. unfold strlen in *.
  do 20 (destruct H as [|? H]; [done|]). destruct H; [|done].
  destruct check as [|c0 [|c1 [|]]]; try done. simpl in H9. subst.
  assert (raw_len dgram = Z.to_nat (htons (8 + Z.of_nat (length data))) /\
          udp_len dgram = (8 + length data)%nat) as [Hraw Hudp].
  { unfold raw_len, udp_len. change (take 2 (drop 24 dgram)) with (be16 (8 + Z.of_nat (length data))).
    rewrite <- put16_htons, get16_put16 by (try apply htons_range; lia). unfold ntohs.
    rewrite htons_htons by lia. split; [done|lia]. }
  split_and!; [lia..|]. unfold summed. rewrite Hudp.
  assert (length (copied stack dgram) = (IP_MAXPACKET - 12)%nat) as Hcop.
  { apply length_copied; [done..|]. unfold IP_MAXPACKET. lia. }
  unfold zero_check. rewrite take_upd by (rewrite ?Hcop; unfold IP_MAXPACKET; simpl length; lia).
  unfold copied. rewrite Hraw. set (N := Z.to_nat (htons _)) in *.
  assert ((8 + length data <= N)%nat) as HN by lia.
  rewrite take_app_le, take_take, Nat.min_l; [|lia|].
  2: { rewrite length_take, length_drop. subst dgram. rewrite Hlen. unfold IP_MAXPACKET, IPv4_HEADER_LEN. lia. }
  unfold dgram, filled, upd. simpl. rewrite take_app_length. by rewrite drop_0.
Qed.

(** A buffer in pieces: the IP header, the four fields of the UDP header, the
    rest. *)
Lemma pieces (dgram : list ascii) :
  length dgram = IP_MAXPACKET -> exists s d l c x,
    dgram = take 20 dgram ++ s ++ d ++ l ++ c ++ x /\
    length s = 2%nat /\ length d = 2%nat /\ length l = 2%nat /\ length c = 2%nat /\
    length x = (IP_MAXPACKET - 28)%nat.
Proof.
  intros H. exists (take 2 (drop 20 dgram)), (take 2 (drop 22 dgram)), (take 2 (drop 24 dgram)),
    (take 2 (drop 26 dgram)), (drop 28 dgram).
  rewrite !length_take, !length_drop, H. unfold IP_MAXPACKET. split_and!; try lia.
  assert (forall n m, m = (n + 2)%nat -> take 2 (drop n dgram) ++ drop m dgram = drop n dgram) as Hp.
  { intros n m ->. rewrite <- (take_drop 2 (drop n dgram)) at 2. f_equal. by rewrite drop_drop. }
  by rewrite (Hp 26%nat), (Hp 24%nat), (Hp 22%nat), (Hp 20%nat), take_drop.
Qed.

(** The data and the fields of the UDP header but for the checksum. *)
Lemma wp_fill {B} dgram sport dport data (k : list ascii -> prog B) Q h :
  length dgram = IP_MAXPACKET -> 8 + strlen data <= 65515 -> 0 <= sport <= 65535 -> 0 <= dport <= 65535 ->
  (forall check rest, length check = 2%nat ->
     (forall b, length b = 2%nat -> length (filled (take 20 dgram) sport dport b data rest) = IP_MAXPACKET) ->
     wp E (k (filled (take 20 dgram) sport dport check data rest)) Q h) ->
  wp E (dgram <- poke dgram (IPv4_HEADER_LEN + UDP_HEADER_LEN) data ;;
        dgram <- poke dgram IPv4_HEADER_LEN (put16 (htons sport)) ;;
        dgram <- poke dgram (IPv4_HEADER_LEN + 2) (put16 (htons dport)) ;;
        dgram <- poke dgram (IPv4_HEADER_LEN + 4) (put16 (htons (8 + strlen data))) ;; k dgram) Q h.
Proof.
  intros Hdgram HL Hsp Hdp Hk. unfold strlen in HL.
  destruct (pieces dgram Hdgram) as (s & d & l & c & x & Hd & Hs & Hdl & Hl & Hc & Hx).
  set (H := take 20 dgram) in *. assert (length H = 20%nat) as HH.
  { unfold H. rewrite length_take, Hdgram. unfold IP_MAXPACKET. lia. }
  set (rest := drop (length data) x).
  assert (length (H ++ s ++ d ++ l ++ c) = 28%nat) as H28 by (rewrite !length_app; lia).
  apply (wp_poke_mid (H ++ s ++ d ++ l ++ c) (take (length data) x) rest); [|exact H28|..].
  { unfold rest. by rewrite take_drop, <- !app_assoc. }
  { rewrite length_take, Hx. unfold IP_MAXPACKET. lia. }
  rewrite !put16_htons by (unfold strlen; lia).
  apply (wp_poke_mid H s (d ++ l ++ c ++ data ++ rest)); [by rewrite <- !app_assoc|exact HH|by rewrite Hs|].
  apply (wp_poke_mid (H ++ be16 sport) d (l ++ c ++ data ++ rest)); [by rewrite <- !app_assoc|rewrite length_app, HH; reflexivity|by rewrite Hdl|].
  apply (wp_poke_mid ((H ++ be16 sport) ++ be16 dport) l (c ++ data ++ rest));
    [by rewrite <- !app_assoc|rewrite !length_app, HH; reflexivity|by rewrite Hl|].
  rewrite <- !app_assoc. apply (Hk c rest); [done|].
  intros b Hb. unfold filled, rest. rewrite !length_app, length_drop, Hx, HH, Hb. cbn [length be16]. unfold IP_MAXPACKET. lia.
Qed.

Lemma wp_buildUdpDatagram stack dgram srcPort dstPort data Q h :
  length stack = IP_MAXPACKET -> length dgram = IP_MAXPACKET ->
  nth 9 (take 20 dgram) NUL = chr IPPROTO_UDP -> copy_fits data ->
  let sport := wrapu 16 (atoi srcPort) in let dport := wrapu 16 (atoi dstPort) in
  (forall check rest t t', length check = 2%nat ->
     length (filled (take 20 dgram) sport dport check data rest) = IP_MAXPACKET ->
     udp_valid (take 4 (drop 12 (take 20 dgram))) (take 4 (drop 16 (take 20 dgram)))
       (be16 sport ++ be16 dport ++ be16 (8 + strlen data) ++ check ++ data) ->
     Q (Done (filled (take 20 dgram) sport dport check data rest))
       (Ev (Out Stdout t') tt :: Ev (Out Stdout t) tt :: h)) ->
  wp E (buildUdpDatagram stack dgram srcPort dstPort data) Q h.
Proof.
  intros Hstack Hdgram H9 Hfit sport dport HQ. unfold buildUdpDatagram.
  pose proof Hfit as (HL & HL1 & HL2). unfold strlen in HL, HL1, HL2.
  assert (wrapu 16 (strlen data) = strlen data) as -> by (apply wrapu_id; unfold strlen; lia).
  rewrite (take_ge data) by (unfold strlen; lia).
  rewrite (wrapu_id 16 (Z.of_nat _ + _)) by (unfold strlen, UDP_HEADER_LEN; lia).
  assert (forall w, 0 <= wrapu 16 w <= 65535) as Hw by (intros w; pose proof (wrapu_range 16 w); lia).
  apply (wp_fill dgram sport dport data); [done|unfold strlen; lia|apply Hw..|]. intros c rest Hc HD.
  set (H := take 20 dgram) in *. assert (length H = 20%nat) as HH.
  { unfold H. rewrite length_take, Hdgram. unfold IP_MAXPACKET. lia. }
  apply wp_peek; [rewrite HD by done; unfold IP_MAXPACKET, IPv4_HEADER_LEN; lia|].
  intros [] _. apply wp_bind, wp_bind.
  destruct (summed_filled stack H sport dport c data rest) as (Hr & Hu & Hsum); [by auto..|].
  apply wp_udpChecksum; [by auto|by auto|unfold IP_MAXPACKET; lia..|]. intros v t Hv Hs. unfold poke.
  rewrite HD by done. rewrite (proj2 (Nat.leb_le _ _)) by (unfold IP_MAXPACKET, IPv4_HEADER_LEN; simpl; lia).
  assert (upd (filled H sport dport c data rest) (IPv4_HEADER_LEN + 6) (put16 v) =
          filled H sport dport (put16 v) data rest) as ->.
  { unfold filled. rewrite !(app_assoc H), !(app_assoc (H ++ _)), !(app_assoc ((H ++ _) ++ _)).
    apply upd_mid; [rewrite !length_app, HH; reflexivity|rewrite Hc; reflexivity]. }
  apply HQ; [done|by apply HD|]. unfold udp_valid. rewrite !length_app.
  replace (Z.of_nat (_ + _)) with (8 + strlen data) by (unfold strlen; simpl; lia).
  rewrite Hsum in Hs. apply checksum_verifies in Hs; [by rewrite <- !app_assoc in *| |done].
  rewrite !length_app, !length_take, !length_drop, HH. done.
Qed.
End Build.

(** ** The whole program *)

Definition not_send (e : event) : Prop :=
  match e with Ev c _ => match c with Sendto _ _ _ => False | _ => True end end.

Lemma reporting_not_send k : Forall reporting k -> Forall not_send k.
Proof. intros H. eapply Forall_impl; [exact H|]. intros [X c r]. by destruct c. Qed.

(** getaddrinfo() succeeds with at least one address, and those of AF_INET are
    structures of 16 bytes. *)
Definition resolves : env := fun h X c r =>
  posix h X c r /\
  match c in call X return X -> Prop with
  | Getaddrinfo_host _ _ => fun r =>
      match r with inl _ => True | inr l => exists ai l', l = ai :: l' /\ length (ai_addr ai) = 16%nat end
  | _ => fun _ => True
  end r.

Definition lookup_addr (host : list ascii) : call (Z + list addrinfo) :=
  Getaddrinfo_host host (Hints 0 AF_INET SOCK_DGRAM).

Section Sends.
Context {T : ErrText} (gai_strerror : Z -> list ascii).

Lemma wp_getIPv4Addr host (Q : outcome (list ascii) -> history -> Prop) h :
  (forall o k, stops_failing o -> Forall not_send k -> Q o (k ++ h)) ->
  (forall ai l, length (ai_addr ai) = 16%nat ->
     Q (Done (ai_addr ai)) (Ev (Freeaddrinfo (ai :: l)) tt :: Ev (lookup_addr host) (inr (ai :: l)) :: h)) ->
  wp resolves (getIPv4Addr gai_strerror host) Q h.
Proof.
  intros Hf Hd. unfold getIPv4Addr. apply wp_sys_bind. intros r [_ Hr]. destruct r as [s|l].
  - apply wp_reporting. intros o k Ho Hk. change (k ++ ?e :: h) with (k ++ [e] ++ h). rewrite app_assoc.
    apply Hf; [done|]. apply Forall_app. split; [by apply reporting_not_send|by repeat constructor].
  - destruct Hr as (ai & l' & -> & Hlen). apply wp_peek; [lia|]. intros [] _.
    rewrite drop_0, take_ge by lia. by apply Hd.
Qed.

Lemma ip_nibbles b :
  chr (Z.lor (Z.land (ord (chr (Z.lor (Z.land (ord b) 0xf0) (Z.of_nat IPv4_HEADER_LEN / 4)))) 0x0f) (Z.shiftl 4 4))
  = chr 0x45.
Proof. by destruct b as [[] [] [] [] [] [] [] []]. Qed.

(** The header that the program builds, with the fields that it leaves alone. *)
Definition ip_header (len0 len1 sum0 sum1 : ascii) (src dst : list ascii) : list ascii :=
  [chr 0x45; NUL; len0; len1; NUL; NUL; NUL; NUL; chr 255; chr IPPROTO_UDP; sum0; sum1] ++ src ++ dst.

Lemma wp_buildIpHeader dgram host dst (Q : outcome (list ascii) -> history -> Prop) h :
  length dgram = IP_MAXPACKET -> length dst = 16%nat ->
  (forall o k, stops_failing o -> Forall not_send k -> Q o (k ++ h)) ->
  (forall ai l l0 l1 s0 s1, length (ai_addr ai) = 16%nat ->
     Q (Done (ip_header l0 l1 s0 s1 (sin_addr (ai_addr ai)) (sin_addr dst) ++ drop 20 dgram))
       (Ev (Freeaddrinfo (ai :: l)) tt :: Ev (lookup_addr host) (inr (ai :: l)) :: h)) ->
  wp resolves (buildIpHeader gai_strerror dgram host dst) Q h.
Proof.
  intros Hlen Hdst Hf Hd.
  do 20 (destruct dgram as [|? dgram]; [unfold IP_MAXPACKET in Hlen; simpl length in Hlen; lia|]).
  unfold buildIpHeader. cbn [peek poke bind length Nat.add Nat.leb drop take upd app nth put16].
  rewrite ip_nibbles. apply wp_bind, wp_getIPv4Addr.
  { intros o k Ho Hk. destruct Ho as [->|[->| ->]]; apply Hf; try done; unfold stops_failing; auto. }
  intros ai l Hai. specialize (Hd ai l a1 a2 a9 a10 Hai).
  do 16 (destruct dst as [|? dst]; [done|]). destruct (ai_addr ai) as [|x0 x] eqn:Hx; [done|].
  do 7 (destruct x as [|? x]; [done|]).
  cbn [peek poke bind length Nat.add Nat.leb drop take upd app nth sin_addr] in *.
  exact Hd.
Qed.
(** What is passed to sendto(): a packet with the ports and the data of the
    command line between the addresses to which the names resolved, and the
    destination address. *)
Definition sent_ok (argv : list (list ascii)) (h : history) (e : event) : Prop :=
  match e with
  | Ev c _ =>
      match c with
      | Sendto _ pkt to => exists src l dst l',
          Ev (lookup_addr (nth 1 argv [])) (inr (src :: l)) ∈ h /\
          Ev (lookup_addr (nth 2 argv [])) (inr (dst :: l')) ∈ h /\
          to = ai_addr dst /\
          udp_packet (sin_addr (ai_addr src)) (sin_addr (ai_addr dst))
            (wrapu 16 (atoi (nth 3 argv []))) (wrapu 16 (atoi (nth 4 argv []))) (nth 5 argv []) pkt
      | _ => True
      end
  end.

Definition sends (argv : list (list ascii)) (o : outcome unit) (h : history) : Prop :=
  Forall (sent_ok argv h) h /\
  (stops_failing o \/
   o = Stop (Exit EXIT_SUCCESS) /\ exists sd pkt to n, Ev (Sendto sd pkt to) (Ok n) ∈ h).

Lemma not_send_ok argv h h' : Forall not_send h -> Forall (sent_ok argv h') h.
Proof. intros H. eapply Forall_impl; [exact H|]. intros [X c r]. by destruct c. Qed.

Lemma sends_failing argv (o : outcome unit) k h :
  stops_failing o -> Forall not_send k -> Forall not_send h -> sends argv o (k ++ h).
Proof. intros. split; [|by left]. apply not_send_ok, Forall_app. done. Qed.

(** From the call of sendto() on. *)
Lemma wp_sendto argv fd pkt to h :
  Forall not_send h -> (forall h', (forall e, e ∈ h -> e ∈ h') -> sent_ok argv h' (Ev (Sendto fd pkt to) (Ok 0))) ->
  wp resolves (r <- sys (Sendto fd pkt to) ;;
    match r with
    | Err e => errExit e ($"sendto")
    | Ok _ => sys (Close fd) ;;; Halt (Exit EXIT_SUCCESS)
    end) (sends argv) h.
Proof.
  intros Hh Hok. apply wp_sys_bind. intros r _.
  assert (forall k, Forall not_send k -> Forall (sent_ok argv (k ++ Ev (Sendto fd pkt to) r :: h)) (k ++ Ev (Sendto fd pkt to) r :: h)) as Hall.
  { intros k Hk. apply Forall_app. split; [by apply not_send_ok|]. constructor; [|by apply not_send_ok].
    apply Hok. intros e He. apply elem_of_app. right. by right. }
  destruct r as [n|e].
  - intros r _. split; [apply (Hall [_]); by repeat constructor|]. right. split; [done|].
    do 4 eexists. right. by left.
  - apply wp_errExit_trace. intros o k Ho Hk. split; [apply Hall; by apply reporting_not_send|by left].
Qed.

Lemma take_filled H sport dport check data rest :
  length H = 20%nat -> length check = 2%nat ->
  take (Z.to_nat (Z.of_nat (IPv4_HEADER_LEN + UDP_HEADER_LEN) + strlen data)) (filled H sport dport check data rest)
  = H ++ be16 sport ++ be16 dport ++ be16 (8 + strlen data) ++ check ++ data.
Proof.
  intros HH Hc. unfold filled. rewrite !app_assoc. rewrite <- !app_assoc, !(app_assoc _ _ rest).
  apply take_app_length'. rewrite !length_app, HH, Hc. unfold strlen, IPv4_HEADER_LEN, UDP_HEADER_LEN.
  cbn [length be16]. lia.
Qed.

Lemma header_addresses l0 l1 s0 s1 src dst :
  length src = 4%nat -> length dst = 4%nat ->
  take 4 (drop 12 (ip_header l0 l1 s0 s1 src dst)) = src /\ take 4 (drop 16 (ip_header l0 l1 s0 s1 src dst)) = dst.
Proof.
  intros Hs Hd. do 4 (destruct src as [|? src]; [done|]). destruct src; [|done].
  do 4 (destruct dst as [|? dst]; [done|]). by destruct dst.
Qed.

(** From the UDP datagram on. *)
Lemma wp_deliver argv stack dgram l0 l1 s0 s1 src ls dst ld n h :
  length stack = IP_MAXPACKET ->
  length (ip_header l0 l1 s0 s1 (sin_addr (ai_addr src)) (sin_addr (ai_addr dst)) ++ dgram) = IP_MAXPACKET ->
  length (ai_addr src) = 16%nat -> length (ai_addr dst) = 16%nat -> copy_fits (nth 5 argv []) ->
  Forall not_send h ->
  Ev (lookup_addr (nth 1 argv [])) (inr (src :: ls)) ∈ h -> Ev (lookup_addr (nth 2 argv [])) (inr (dst :: ld)) ∈ h ->
  wp resolves (
    dgram <- buildUdpDatagram stack (ip_header l0 l1 s0 s1 (sin_addr (ai_addr src)) (sin_addr (ai_addr dst)) ++ dgram)
      (nth 3 argv []) (nth 4 argv []) (nth 5 argv []) ;;
    r <- sys (Socket AF_INET SOCK_RAW IPPROTO_RAW) ;;
    match r with
    | Err e => errExit e ($"socket")
    | Ok sockfd =>
        print Stdout ($"Sending datagram (" ++ dec n ++ $" bytes)" ++ [NL]) ;;;
        bytes <- peek dgram 0 (Z.to_nat (Z.of_nat (IPv4_HEADER_LEN + UDP_HEADER_LEN) + strlen (nth 5 argv []))) ;;
        r <- sys (Sendto sockfd bytes (ai_addr dst)) ;;
        match r with
        | Err e => errExit e ($"sendto")
        | Ok _ => sys (Close sockfd) ;;; Halt (Exit EXIT_SUCCESS)
        end
    end) (sends argv) h.
Proof.
  intros Hstack Hlen Hsrc Hdst Hfit Hh Hes Hed.
  assert (forall a, length a = 16%nat -> length (sin_addr a) = 4%nat) as H4.
  { intros a Ha. unfold sin_addr. rewrite length_take, length_drop, Ha. done. }
  set (S := sin_addr (ai_addr src)) in *. set (D := sin_addr (ai_addr dst)) in *.
  assert (length S = 4%nat /\ length D = 4%nat) as [HS HD] by (split; by apply H4).
  set (H := ip_header l0 l1 s0 s1 S D) in *.
  assert (length H = 20%nat) as HH by (unfold H, ip_header; rewrite !length_app, HS, HD; done).
  assert (take 20 (H ++ dgram) = H) as Htake by (rewrite <- HH; apply take_app_length).
  apply wp_bind, wp_buildUdpDatagram; [done..|rewrite Htake; reflexivity|done|].
  rewrite Htake. intros check rest t t' Hc Hfill Hvalid. apply wp_sys_bind. intros [fd|e] _.
  2: { apply wp_errExit_trace. intros o k Ho Hk. apply sends_failing; [done|by apply reporting_not_send|by repeat constructor]. }
  intros [] _. apply wp_bind. apply wp_peek; [rewrite Hfill; destruct Hfit as (_ & _ & ?); unfold IP_MAXPACKET, IPv4_HEADER_LEN, UDP_HEADER_LEN, strlen in *; lia|].
  apply wp_sendto; [by repeat constructor|]. intros h' Hsub. exists src, ls, dst, ld.
  split_and!; [apply Hsub; by repeat right|apply Hsub; by repeat right|done|].
  exists l0, l1, s0, s1, check. destruct (header_addresses l0 l1 s0 s1 S D HS HD) as [E1 E2].
  fold H in E1, E2. rewrite E1, E2 in Hvalid. split_and!; [|done|exact Hvalid].
  rewrite drop_0, take_filled by done. unfold H, ip_header. by rewrite <- !app_assoc.
Qed.

Lemma main_sends heap stack argv :
  length heap = IP_MAXPACKET -> length stack = IP_MAXPACKET -> copy_fits (nth 5 argv []) ->
  wp resolves (raw_send_udp_main gai_strerror heap stack argv) (sends argv) [].
Proof.
  intros Hheap Hstack Hfit. unfold raw_send_udp_main. destruct (length argv <? 6)%nat.
  { simpl. repeat (intros [] _). split; [by repeat constructor|]. left. unfold stops_failing. auto. }
  assert (forall e msg h, Forall not_send h -> wp resolves (errExit e msg) (sends argv) h) as Hdie.
  { intros e msg h Hh. apply wp_errExit_trace. intros o k Ho Hk.
    apply sends_failing; [done|by apply reporting_not_send|done]. }
  assert (forall (f : list ascii -> prog unit) o k h, stops_failing o -> Forall not_send k -> Forall not_send h ->
    match o with Done a => wp resolves (f a) (sends argv) (k ++ h) | Stop s => sends argv (Stop s) (k ++ h) end) as Hstop.
  { intros f o k h Ho Hk Hh. destruct Ho as [->|[->| ->]]; apply sends_failing; try done; unfold stops_failing; auto. }
  apply wp_sys_bind. intros [] _; [|apply Hdie; by repeat constructor].
  apply wp_bind, wp_getIPv4Addr; [intros o k Ho Hk; apply Hstop; try done; by repeat constructor|].
  intros dst ld Hdst. apply wp_sys_bind. intros [str|e] _; [|apply Hdie; by repeat constructor].
  intros [] _. apply wp_bind, wp_bind, wp_buildIpHeader; [done..| |].
  { intros o k Ho Hk. apply Hstop; [done..|]. by repeat constructor. }
  intros src ls l0 l1 s0 s1 Hsrc. apply (wp_deliver argv stack _ l0 l1 s0 s1 src ls dst ld); try done.
  - rewrite length_app, length_drop, Hheap. unfold ip_header. rewrite !length_app.
    unfold sin_addr. rewrite !length_take, !length_drop, Hsrc, Hdst. unfold IP_MAXPACKET. cbn [length Nat.min Nat.sub]. lia.
  - by repeat constructor.
  - right. by left.
  - do 5 right. by left.
Qed.

End Sends.

(** ** A copy that is too short *)

Lemma upd_app_l p q off b : (off + length b <= length p)%nat -> upd (p ++ q) off b = upd p off b ++ q.
Proof.
  intros H. unfold upd. rewrite take_app_le, drop_app_le by lia. by rewrite <- !app_assoc.
Qed.

(** The contents of the stack with one byte chosen. *)
Definition stack_with (off : nat) (x : ascii) : list ascii :=
  replicate off NUL ++ x :: replicate (IP_MAXPACKET - off - 1) NUL.

Lemma summed_stack_with dgram x :
  length dgram = IP_MAXPACKET -> (9 <= udp_len dgram)%nat -> (20 + udp_len dgram <= IP_MAXPACKET)%nat ->
  (raw_len dgram < udp_len dgram)%nat ->
  let a := pseudoheader dgram ++ upd (take (raw_len dgram) (drop 20 dgram)
             ++ drop (12 + raw_len dgram) (replicate (11 + udp_len dgram) NUL)) 6 [NUL; NUL] in
  summed (stack_with (11 + udp_len dgram) x) dgram = a ++ [x].
Proof.
  intros Hd HL HL' Hn a. unfold summed. set (L := udp_len dgram) in *. set (n := raw_len dgram) in *.
  unfold a, IP_MAXPACKET in *. rewrite <- app_assoc. f_equal. unfold zero_check, copied. fold n.
  rewrite drop_drop. change (UDP_PSEUDOHEADER_SIZE + n)%nat with (12 + n)%nat. unfold stack_with.
  rewrite drop_app_le by (rewrite length_replicate; lia).
  set (B := take n (drop 20 dgram) ++ drop (12 + n) (replicate (11 + L) NUL)).
  assert (length B = L - 1)%nat as HB.
  { unfold B. rewrite length_app, length_take, !length_drop, length_replicate. lia. }
  rewrite app_assoc. change (take n (drop IPv4_HEADER_LEN dgram) ++ _) with B.
  rewrite upd_app_l by (simpl length; lia).
  assert (length (upd B 6 [NUL; NUL]) = L - 1)%nat as HB' by (rewrite length_upd; simpl length; lia).
  rewrite take_app, HB', take_ge by lia. f_equal. replace (L - (L - 1))%nat with 1%nat by lia. done.
Qed.

Lemma be_sum_last a x :
  be_sum (a ++ [x]) = be_sum (a ++ [NUL]) + (if Nat.even (length a) then 256 else 1) * ord x.
Proof.
  induction a as [|c|y z a IH] using list_pair_ind; [change (256 * ord x = 256 * ord NUL + 256 * ord x); change (ord NUL) with 0; lia| |].
  - cbn [app be_sum length Nat.even]. change (ord NUL) with 0. lia.
  - cbn [app be_sum length]. rewrite IH. change (Nat.even (S (S (length a)))) with (Nat.even (length a)). lia.
Qed.

(** A different byte gives a different checksum. *)
Lemma rfc1071_last a x : 0 < ord x < 255 -> rfc1071 (a ++ [x]) <> rfc1071 (a ++ [NUL]).
Proof.
  intros Hx Heq. assert (repr 0 0) as H0 by (split_and!; try done; by exists 0). unfold rfc1071 in Heq.
  destruct (rfc1071_sum_repr (a ++ [x]) 0 0 H0) as (_ & _ & _ & k & Hk).
  destruct (rfc1071_sum_repr (a ++ [NUL]) 0 0 H0) as (_ & _ & _ & j & Hj).
  rewrite be_sum_last in Hk. destruct (Nat.even (length a)); lia.
Qed.

(** ** Properties *)

(** [checksum] is the Internet checksum: on up to 131074 bytes its loops end,
    its 32-bit sum does not overflow, and the 16-bit result, stored in memory as
    the machine stores it, is the big-endian value of RFC 1071's definition
    (ones'-complement sum of big-endian words with end-around carry).  Storing it
    at an even offset in place of two zero bytes makes the checksum of the whole
    zero, which is the test of the receiver. *)
Lemma checksum_rfc1071 b :
  (length b <= Z.to_nat 131074)%nat ->
  exists c, checksum b = Some c /\ 0 <= c <= 65535 /\ put16 c = be16 (rfc1071 b) /\
    forall p q, b = p ++ [NUL; NUL] ++ q -> Nat.even (length p) = true -> rfc1071 (p ++ put16 c ++ q) = 0.
Proof.
  intros Hb. destruct (checksum_spec b Hb) as (c & Hc & Hr & Hs). exists c. split_and!; try done; [lia..| |].
  - rewrite <- Hs, <- put16_htons by (by apply htons_range). by rewrite htons_htons.
  - intros p q -> Hp. by apply checksum_verifies.
Qed.

(** The packet that the program sends.  For every data string of the command
    line that the copy of udpChecksum covers (in particular every string of at
    most 247 bytes), whatever the buffers held before, the program commits no
    undefined behaviour; it exits with success only after sendto() accepted the
    packet; and what it passes to sendto() is an IPv4 packet of protocol UDP
    between the resolved addresses, with the ports, the length and the data of
    the command line and a checksum that the receiver accepts. *)
Lemma raw_send_udp_sends {T : ErrText} gai_strerror heap stack argv :
  length heap = IP_MAXPACKET -> length stack = IP_MAXPACKET ->
  (copy_fits (nth 5 argv []) \/ strlen (nth 5 argv []) <= 247) ->
  wp resolves (raw_send_udp_main gai_strerror heap stack argv) (sends argv) [].
Proof.
  intros Hh Hs Hfit. apply main_sends; [done..|]. destruct Hfit; [done|by apply short_fits].
Qed.

Definition demo_argv : list (list ascii) :=
  [$"raw_send_udp"; $"127.0.0.1"; $"localhost"; $"5000"; $"7"; $"hello"].


(** The bounds of the copy in udpChecksum, whose length is the length field
    in network byte order.  If that many bytes lie outside the buffer the
    function reads out of bounds; otherwise it returns the checksum of the
    pseudoheader and a datagram of which only that many bytes are the real one
    and the rest is what the stack held.  When that is fewer than the datagram
    has (256 bytes, for one) the result depends on the uninitialised stack. *)
Lemma udpChecksum_copies E stack dgram h :
  length stack = IP_MAXPACKET -> length dgram = IP_MAXPACKET -> (20 + udp_len dgram <= IP_MAXPACKET)%nat ->
  wp E (udpChecksum stack dgram) (fun o _ =>
    if (20 + raw_len dgram <=? IP_MAXPACKET)%nat
    then exists c, o = Done c /\ put16 c = be16 (rfc1071 (summed stack dgram))
    else o = Stop (Undefined "read outside a buffer")) h /\
  ((9 <= udp_len dgram)%nat -> (raw_len dgram < udp_len dgram)%nat ->
   exists stack1 stack2, length stack1 = IP_MAXPACKET /\ length stack2 = IP_MAXPACKET /\
     rfc1071 (summed stack1 dgram) <> rfc1071 (summed stack2 dgram)).
Proof.
  intros Hstack Hd Hu. split.
  - destruct (Nat.leb_spec (20 + raw_len dgram) IP_MAXPACKET) as [Hr|Hr].
    + apply wp_udpChecksum; try done. intros c t Hc Hs. exists c. split; [done|].
      rewrite <- Hs, <- put16_htons by (by apply htons_range). by rewrite htons_htons.
    + by apply udpChecksum_overrun.
  - intros HL Hn. exists (stack_with (11 + udp_len dgram) (chr 1)), (stack_with (11 + udp_len dgram) NUL).
    assert (forall x, length (stack_with (11 + udp_len dgram) x) = IP_MAXPACKET) as Hlen.
    { intros x. unfold stack_with. rewrite length_app. cbn [length]. rewrite !length_replicate. unfold IP_MAXPACKET in *. lia. }
    split_and!; [apply Hlen..|]. rewrite !summed_stack_with by done. by apply rfc1071_last.
Qed.

(** C27: The Internet checksum and the packet that raw_send_udp sends.  [checksum] ends on up
    to 131074 bytes without overflow of its 32-bit sum, and its 16-bit result, as the machine
    stores it, is the big-endian value of RFC 1071's definition; stored at an even offset in
    place of two zero bytes it makes the checksum of the whole zero, which is the test of the
    receiver.  For every data string of the command line that the copy of udpChecksum covers (in
    particular every string of at most 247 bytes), whatever the buffers held
    before, the program commits no undefined behaviour, exits with success only
    after sendto() accepted the packet, and passes to sendto() an IPv4 packet of
    protocol UDP between the resolved addresses, with the ports, the length and
    the data of the command line and a checksum that the receiver accepts.  The
    length that udpChecksum copies is the length field in network byte order: if
    that many bytes lie outside the buffer the function reads out of bounds;
    otherwise it returns the checksum of the pseudoheader and of a datagram of
    which only that many bytes are the real one.  When that is fewer than the
    datagram has (256 bytes, for one) the result depends on the uninitialised
    stack. *)
Theorem raw_send_udp_correct :
  (forall b, (length b <= Z.to_nat 131074)%nat ->
  exists c, checksum b = Some c /\ 0 <= c <= 65535 /\ put16 c = be16 (rfc1071 b) /\
    forall p q, b = p ++ [NUL; NUL] ++ q -> Nat.even (length p) = true -> rfc1071 (p ++ put16 c ++ q) = 0) /\
  (forall (T : ErrText) gai_strerror heap stack argv,
   length heap = IP_MAXPACKET -> length stack = IP_MAXPACKET ->
    (copy_fits (nth 5 argv []) \/ strlen (nth 5 argv []) <= 247) ->
    wp resolves (raw_send_udp_main gai_strerror heap stack argv) (sends argv) []) /\
  (forall E stack dgram h,
   length stack = IP_MAXPACKET -> length dgram = IP_MAXPACKET -> (20 + udp_len dgram <= IP_MAXPACKET)%nat ->
    wp E (udpChecksum stack dgram) (fun o _ =>
      if (20 + raw_len dgram <=? IP_MAXPACKET)%nat
      then exists c, o = Done c /\ put16 c = be16 (rfc1071 (summed stack dgram))
      else o = Stop (Undefined "read outside a buffer")) h /\
    ((9 <= udp_len dgram)%nat -> (raw_len dgram < udp_len dgram)%nat ->
     exists stack1 stack2, length stack1 = IP_MAXPACKET /\ length stack2 = IP_MAXPACKET /\
       rfc1071 (summed stack1 dgram) <> rfc1071 (summed stack2 dgram))).
Proof. split; [exact checksum_rfc1071|]. split; [exact @raw_send_udp_sends|exact udpChecksum_copies]. Qed.

(** A buffer whose length field says 256. *)
Definition demo_dgram : list ascii := replicate 24 NUL ++ [chr 1; NUL] ++ replicate (IP_MAXPACKET - 26) NUL.

Lemma raw_send_udp_correct_witness :
  (exists c, checksum [chr 1; chr 2; NUL; NUL; chr 255] = Some c /\ 0 <= c <= 65535 /\
    put16 c = be16 (rfc1071 [chr 1; chr 2; NUL; NUL; chr 255]) /\
    rfc1071 ([chr 1; chr 2] ++ put16 c ++ [chr 255]) = 0) /\
  wp resolves (raw_send_udp_main (T:=demo_text) (fun _ => $"error") (replicate IP_MAXPACKET NUL)
                 (replicate IP_MAXPACKET "X"%char) demo_argv) (sends demo_argv) [] /\
  raw_len demo_dgram = 1%nat /\ udp_len demo_dgram = 256%nat /\
  exists stack1 stack2, length stack1 = IP_MAXPACKET /\ length stack2 = IP_MAXPACKET /\
    rfc1071 (summed stack1 demo_dgram) <> rfc1071 (summed stack2 demo_dgram).
Proof.
  assert (raw_len demo_dgram = 1%nat) as H1 by reflexivity.
  assert (udp_len demo_dgram = 256%nat) as H2 by reflexivity.
  split_and!; [| |exact H1|exact H2|].
  - destruct (proj1 raw_send_udp_correct [chr 1; chr 2; NUL; NUL; chr 255]) as (c & Hc1 & Hc2 & Hc3 & Hc4); [simpl length; lia|].
    exists c. split_and!; try done; try lia. by apply (Hc4 [chr 1; chr 2] [chr 255]).
  - apply (proj1 (proj2 raw_send_udp_correct) demo_text).
    + apply length_replicate.
    + apply length_replicate.
    + right. reflexivity || (unfold strlen; simpl; lia).
  - apply (proj2 (proj2 (proj2 raw_send_udp_correct) posix (replicate IP_MAXPACKET NUL) demo_dgram []
      ltac:(apply length_replicate)
      ltac:(unfold demo_dgram; rewrite !length_app, !length_replicate; unfold IP_MAXPACKET; simpl length; lia)
      ltac:(rewrite H2; unfold IP_MAXPACKET; lia))); lia.
Defined.
