(* ===== verification/NsCapable.v ===== *)
(** * namespaces/ns_capable.c: the capabilities of a process in a namespace

    The program answers whether a process may have capabilities in a namespace:
    it walks from the user namespace that governs the namespace towards the
    initial one, holding one descriptor at a time, and compares user
    identifiers where it meets the user namespace of the process. *)

From S2P Require Import Prelude Sys LibErrors.

Definition NS_GET_USERNS : Z := 0xb701.
Definition NS_GET_PARENT : Z := 0xb702.
Definition NS_GET_NSTYPE : Z := 0xb703.
Definition NS_GET_OWNER_UID : Z := 0xb704.
Definition CLONE_NEWUSER : Z := 0x10000000.
Definition O_RDONLY : Z := 0.
Definition PATH_MAX : nat := 4096.

(** User namespaces nest at most 32 deep (user_namespaces(7)), so the walk up
    makes at most 33 rounds. *)
Definition MAX_USERNS_LEVEL : nat := 33.

Section Program.
Context {T : ErrText}.

Definition display_process_capabilities (pid : Z) : prog unit :=
  r <- sys (Cap_get_pid pid) ;;
  match r with
  | Err e => perrorExit e ($"cap_get_proc")
  | Ok caps =>
      r <- sys (Cap_to_text caps) ;;
      match r with
      | Err e => perrorExit e ($"cap_to_text")
      | Ok cap_string =>
          print Stdout ($"Capabilities: " ++ cap_string ++ [NL]) ;;;
          sys (Cap_free (inl caps)) ;;;
          sys (Cap_free (inr cap_string)) ;;;
          Ret tt
      end
  end.

(** sscanf(line, "Uid: %*d %d %*d %*d", &uid); [None] if no value is stored. *)
Definition scan_int (s : list ascii) : option (Z * list ascii) :=
  let r := strtol s 10 in
  if (length (st_end r) <? length s)%nat then Some (int_of (st_val r), st_end r) else None.

Definition scan_uid (line : list ascii) : option Z :=
  match scan_int (drop 4 line) with
  | None => None
  | Some (_, rest) => option_map fst (scan_int rest)
  end.

Definition uid_line (line : list ascii) : bool := strncmp_eq ($"Uid:") line 4.

(** [fuel] bounds the lines of the file. *)
Fixpoint scan_status (fuel : nat) (path : list ascii) (fp : Z) : prog Z :=
  match fuel with
  | O => Halt OutOfFuel
  | S fuel =>
      r <- sys (Fgets fp 1024) ;;
      match r with
      | None =>
          print Stderr ($"Failure scanning " ++ path ++ [NL]) ;;;
          Halt (Exit EXIT_FAILURE)
      | Some line =>
          if uid_line line
          then match scan_uid line with
               | Some uid => sys (Fclose fp) ;;; Ret (wrapu 32 uid)
               | None => Halt (Undefined "uid is not initialised")
               end
          else scan_status fuel path fp
      end
  end.

Definition euid_of_process (fuel : nat) (pid : Z) : prog Z :=
  let path := snprintf PATH_MAX ($"/proc/" ++ dec pid ++ $"/status") in
  r <- sys (Fopen path ($"r")) ;;
  match r with
  | Err e => perrorExit e ($"fopen-/proc/PID/status")
  | Ok fp => scan_status fuel path fp
  end.

Definition ns_equal (nsfd1 nsfd2 : Z) : prog bool :=
  r <- sys (Fstat nsfd1) ;;
  match r with
  | Err e => perrorExit e ($"fstat-nsfd1")
  | Ok sb1 =>
      r <- sys (Fstat nsfd2) ;;
      match r with
      | Err e => perrorExit e ($"fstat-nsfd2")
      | Ok sb2 => Ret ((st_dev sb1 =? st_dev sb2) && (st_ino sb1 =? st_ino sb2))
      end
  end.

Definition ns_type (ns_fd : Z) : prog Z :=
  r <- sys (Ioctl ns_fd NS_GET_NSTYPE) ;;
  match r with Err e => perrorExit e ($"ioctl-NS_GET_NSTYPE") | Ok nstype => Ret nstype end.

Definition owning_userns_of (ns_fd : Z) : prog Z :=
  r <- sys (Ioctl ns_fd NS_GET_USERNS) ;;
  match r with Err e => perrorExit e ($"ioctl-NS_GET_USERNS") | Ok userns_fd => Ret userns_fd end.

Definition uid_of_userns_owner (userns_fd : Z) : prog Z :=
  r <- sys (Ioctl userns_fd NS_GET_OWNER_UID) ;;
  match r with Err e => perrorExit e ($"ioctl-NS_GET_OWNER_UID") | Ok owner_uid => Ret (int_of owner_uid) end.

Fixpoint search_ancestors (fuel : nat) (desc_userns_fd pid_userns_fd : Z) : prog Z :=
  match fuel with
  | O => Halt OutOfFuel
  | S fuel =>
      r <- sys (Ioctl desc_userns_fd NS_GET_PARENT) ;;
      match r with
      | Err e => if negb (e =? EPERM) then perrorExit e ($"ioctl-NS_GET_PARENT") else Ret (-1)
      | Ok parent_userns_fd =>
          same <- ns_equal parent_userns_fd pid_userns_fd ;;
          if (same : bool) then sys (Close parent_userns_fd) ;;; Ret desc_userns_fd
          else sys (Close desc_userns_fd) ;;; search_ancestors fuel parent_userns_fd pid_userns_fd
      end
  end.

(** What the program prints after it has found a descendant namespace. *)
Definition compare_owner (fuel : nat) (pid : Z) (desc_userns_fd : Z) : prog unit :=
  owner <- uid_of_userns_owner desc_userns_fd ;;
  euid <- euid_of_process fuel pid ;;
  (if wrapu 32 owner =? euid then
     print Stdout ($"And its effective UID matches the owner of the immediate child user namespace" ++ [NL]
                   ++ $"of that namespace" ++ [NL]) ;;;
     print Stdout ($"Subject to LSM checks, it has all capabilities in that namespace!" ++ [NL])
   else
     print Stdout ($"But its effective UID does not match the owner of the immediate child user namespace" ++ [NL]
                   ++ $"of that namespace" ++ [NL]) ;;;
     print Stdout ($"Subject to LSM checks, it has the following capabilities" ++ [NL]) ;;;
     display_process_capabilities pid) ;;;
  sys (Close desc_userns_fd) ;;;
  Halt (Exit EXIT_SUCCESS).

Definition ns_capable_main (fuel : nat) (argv : list (list ascii)) : prog unit :=
  if negb (length argv =? 3)%nat then
    print Stderr ($"Usage: " ++ nth 0 argv [] ++ $" PID ns-file" ++ [NL]) ;;;
    print Stderr (["009"%char] ++ $"'ns-file' is a /proc/PID/ns/xxxx file" ++ [NL]) ;;;
    Halt (Exit EXIT_FAILURE)
  else
    let pid_str := nth 1 argv [] in
    let pid := atoi pid_str in
    r <- sys (Open (nth 2 argv []) O_RDONLY 0) ;;
    match r with
    | Err e => perrorExit e ($"open-ns-file")
    | Ok ns_fd =>
        t <- ns_type ns_fd ;;
        target_userns_fd <-
          (if t =? CLONE_NEWUSER then Ret ns_fd
           else u <- owning_userns_of ns_fd ;; sys (Close ns_fd) ;;; Ret u) ;;
        let path := snprintf PATH_MAX ($"/proc/" ++ pid_str ++ $"/ns/user") in
        r <- sys (Open path O_RDONLY 0) ;;
        match r with
        | Err e => perrorExit e ($"open-PID")
        | Ok pid_userns_fd =>
            same <- ns_equal pid_userns_fd target_userns_fd ;;
            if (same : bool) then
              print Stdout ($"PID " ++ pid_str ++ $" is in the target namespace" ++ [NL]) ;;;
              print Stdout ($"Subject to LSM checks, it has the following capabilities" ++ [NL]) ;;;
              display_process_capabilities pid ;;;
              Halt (Exit EXIT_SUCCESS)
            else
              desc_userns_fd <- search_ancestors MAX_USERNS_LEVEL target_userns_fd pid_userns_fd ;;
              if desc_userns_fd =? -1 then
                print Stdout ($"PID " ++ pid_str ++ $" is not in an ancestor namespace" ++ [NL]) ;;;
                print Stdout ($"It has no capabilities in the target namespace" ++ [NL]) ;;;
                Halt (Exit EXIT_SUCCESS)
              else
                print Stdout ($"PID " ++ pid_str ++ $" is in an ancestor namespace" ++ [NL]) ;;;
                compare_owner fuel pid desc_userns_fd
        end
    end.
End Program.

(** ** Namespaces *)

(** A namespace is identified by the device and inode numbers of its file. *)
Abbreviation ns := (Z * Z)%type.

(** The namespaces and the files under /proc that name them.  [parent] is
    [None] for the initial user namespace and for namespaces outside the
    caller's scope, for which the kernel gives EPERM (ioctl_ns(2)). *)
Record world := World
  { ns_file : list ascii -> option ns;
    kind : ns -> Z;
    userns : ns -> ns;
    parent : ns -> option ns;
    owner : ns -> Z;
    status : list ascii -> list (list ascii) }.

Section Spec.
Context (W : world).

(** [below p t d]: [p] is a proper ancestor of [t], and [d] is the namespace
    just below [p] on the way from [t] up to [p]. *)
Inductive below (p : ns) : ns -> ns -> Prop :=
| below_here t : parent W t = Some p -> below p t t
| below_up t q d : parent W t = Some q -> q <> p -> below p q d -> below p t d.

(** The chain of ancestors of [t] has at most [n] links. *)
Fixpoint rooted (n : nat) (t : ns) : bool :=
  match parent W t, n with
  | None, _ => true
  | Some _, O => false
  | Some q, S n => rooted n q
  end.

(** The namespace to which a descriptor refers after a history. *)
Fixpoint fd_ns (h : history) (fd : Z) : option ns :=
  match h with
  | [] => None
  | Ev c r :: h' =>
      match c in call X return X -> option ns with
      | Open path _ _ => fun r =>
          match r with Ok n => if n =? fd then ns_file W path else fd_ns h' fd | Err _ => fd_ns h' fd end
      | Ioctl fd0 req => fun r =>
          match r with
          | Ok n =>
              if (req =? NS_GET_PARENT) && (n =? fd) then match fd_ns h' fd0 with Some x => parent W x | None => None end
              else if (req =? NS_GET_USERNS) && (n =? fd) then option_map (userns W) (fd_ns h' fd0)
              else fd_ns h' fd
          | Err _ => fd_ns h' fd
          end
      | Close fd' => fun _ => if fd' =? fd then None else fd_ns h' fd
      | _ => fun _ => fd_ns h' fd
      end r
  end.

(** The file that a stream reads, and how many lines it has read. *)
Fixpoint fp_pos (h : history) (fp : Z) : option (list ascii * nat) :=
  match h with
  | [] => None
  | Ev c r :: h' =>
      match c in call X return X -> option (list ascii * nat) with
      | Fopen path _ => fun r =>
          match r with Ok f => if f =? fp then Some (path, O) else fp_pos h' fp | Err _ => fp_pos h' fp end
      | Fgets f _ => fun _ =>
          if f =? fp then match fp_pos h' fp with Some (p, n) => Some (p, S n) | None => None end else fp_pos h' fp
      | _ => fun _ => fp_pos h' fp
      end r
  end.

(** What the kernel says about namespaces (ioctl_ns(2), namespaces(7)) and
    status files.  Descriptors are new; calls may fail for want of resources,
    but EPERM from NS_GET_PARENT means that there is no parent. *)
Definition nsworld : env := fun h X c r =>
  posix h X c r /\
  match c in call X return X -> Prop with
  | Open path _ _ => fun r => match r with Ok fd => fd_ns h fd = None /\ is_Some (ns_file W path) | Err _ => True end
  | Fstat fd => fun r =>
      match r, fd_ns h fd with Ok st, Some n => (st_dev st, st_ino st) = n | _, _ => True end
  | Ioctl fd req => fun r =>
      match fd_ns h fd with
      | None => True
      | Some n =>
          if req =? NS_GET_PARENT then
            match r with
            | Ok fd' => is_Some (parent W n) /\ 0 <= fd' /\ fd_ns h fd' = None
            | Err e => e = EPERM <-> parent W n = None
            end
          else if req =? NS_GET_USERNS then
            match r with Ok fd' => 0 <= fd' /\ fd_ns h fd' = None | Err _ => True end
          else if req =? NS_GET_NSTYPE then
            match r with Ok t => t = kind W n | Err _ => True end
          else if req =? NS_GET_OWNER_UID then
            match r with Ok u => u = owner W n | Err _ => True end
          else True
      end
  | Fgets fp _ => fun r =>
      match fp_pos h fp with Some (path, n) => r = status W path !! n | None => True end
  | _ => fun _ => True
  end r.

(** The effective user ID in a status file. *)
Definition uid_in (lines : list (list ascii)) : option Z :=
  match filter (fun l => uid_line l = true) lines with
  | l :: _ => option_map (wrapu 32) (scan_uid l)
  | [] => None
  end.
(** ** The functions *)

(** What has been written to stdout. *)
Fixpoint said (h : history) : list (list ascii) :=
  match h with
  | [] => []
  | Ev c _ :: h' => match c with Out Stdout t => said h' ++ [t] | _ => said h' end
  end.

Context {T : ErrText}.

Abbreviation fails Q := (forall h', Q (Stop (Exit EXIT_FAILURE)) h').

Lemma wp_fail {A} (E : env) e msg (Q : outcome A -> history -> Prop) h : fails Q -> wp E (perrorExit e msg) Q h.
Proof. intros HQ [] _. apply HQ. Qed.

Lemma wp_ns_equal f1 f2 a b (Q : outcome bool -> history -> Prop) h :
  fails Q -> fd_ns h f1 = Some a -> fd_ns h f2 = Some b ->
  (forall st1 st2, Q (Done (bool_decide (a = b))) (Ev (Fstat f2) (Ok st2) :: Ev (Fstat f1) (Ok st1) :: h)) ->
  wp nsworld (ns_equal f1 f2) Q h.
Proof.
  intros Hf H1 H2 HQ. unfold ns_equal. apply wp_sys_bind. intros [st1|e] [_ Hr1]; [|by apply wp_fail].
  apply wp_sys_bind. intros [st2|e] [_ Hr2]; [|by apply wp_fail].
  rewrite H1 in Hr1. simpl in Hr2. rewrite H2 in Hr2. subst a b. specialize (HQ st1 st2). cbn [wp].
  replace ((st_dev st1 =? st_dev st2) && (st_ino st1 =? st_ino st2))
    with (bool_decide ((st_dev st1, st_ino st1) = (st_dev st2, st_ino st2))); [done|].
  apply eq_true_iff_eq. rewrite bool_decide_eq_true, andb_true_iff, !Z.eqb_eq. split; [by intros [=]|by intros [-> ->]].
Qed.
(** What a search tells: the descriptor of the namespace below [p], or -1 if there is
    none.  Of the descriptors that it used exactly one is left open: the one returned or,
    with the result -1, that of the last namespace of the walk, which has no parent. *)
Definition search_result (h : history) (df : Z) (t p : ns) (fd : Z) (h' : history) : Prop :=
  said h' = said h /\
  exists left d, 0 <= left /\ fd_ns h' left = Some d /\
    (forall fd', fd' <> left -> fd_ns h' fd' = if fd' =? df then None else fd_ns h fd') /\
    (fd = -1 /\ ~ (exists d', below p t d') /\ parent W d = None \/ fd = left /\ below p t d).

Lemma below_step p t q d : parent W t = Some q -> q <> p -> below p t d <-> below p q d.
Proof.
  intros Hq Hne. split; [|by apply below_up]. intros Hb. destruct Hb as [t Ht|t q' d Ht _ Hb]; [congruence|].
  by replace q with q' by congruence.
Qed.

Lemma wp_search_ancestors fuel df pf t p (Q : outcome Z -> history -> Prop) h n :
  fails Q -> 0 <= df -> df <> pf -> fd_ns h df = Some t -> fd_ns h pf = Some p ->
  rooted n t = true -> (n < fuel)%nat ->
  (forall fd h', search_result h df t p fd h' -> Q (Done fd) h') ->
  wp nsworld (search_ancestors fuel df pf) Q h.
Proof.
  revert df t h n. induction fuel as [|fuel IH]; [lia|].
  intros df t h n Hf Hdf Hne Ht Hp Hroot Hfuel HQ. cbn [search_ancestors].
  apply wp_sys_bind. intros r [_ Hr]. cbn in Hr. rewrite Ht in Hr. destruct r as [f|e].
  2:{ destruct (Z.eqb_spec e EPERM) as [He|]; [|by apply wp_fail]. apply Hr in He. apply HQ. split; [done|].
      exists df, t. split_and!; [done|done|intros fd' Hn; cbn; by rewrite (proj2 (Z.eqb_neq fd' df))|]. left.
      split_and!; [done| |done]. intros [d Hb]. destruct Hb; congruence. }
  destruct Hr as ([q Hq] & Hf0 & Hnew).
  assert (f <> pf /\ f <> df) as [Hfp Hfd] by (split; congruence).
  assert (fd_ns (Ev (Ioctl df NS_GET_PARENT) (Ok f) :: h) f = Some q) as Hfq.
  { cbn. rewrite Z.eqb_refl. cbn. by rewrite Ht. }
  assert (forall fd', fd' <> f -> fd_ns (Ev (Ioctl df NS_GET_PARENT) (Ok f) :: h) fd' = fd_ns h fd') as Hold.
  { intros fd' Hn. cbn. by rewrite (proj2 (Z.eqb_neq f fd')) by congruence. }
  assert (said (Ev (Ioctl df NS_GET_PARENT) (Ok f) :: h) = said h) as Hs by done.
  set (h1 := Ev (Ioctl df NS_GET_PARENT) (Ok f) :: h) in *. clearbody h1.
  apply wp_bind, (wp_ns_equal _ _ q p); [intros h'; apply Hf|done|rewrite Hold; [done|congruence]|].
  intros st1 st2. case_bool_decide as Heq; [subst q|]; apply wp_sys_bind; intros r _.
  - apply HQ. split; [done|]. exists df, t. split_and!; [done| | |right; split; [done|by constructor]].
    + cbn. rewrite (proj2 (Z.eqb_neq f df)) by done. by rewrite Hold.
    + intros fd' Hn. cbn. destruct (Z.eqb_spec f fd') as [->|].
      * rewrite Hnew. by destruct (fd' =? df).
      * rewrite (proj2 (Z.eqb_neq fd' df)) by done. by apply Hold.
  - destruct n as [|n]; cbn in Hroot; rewrite Hq in Hroot; [done|].
    apply (IH f q _ n); try done; try lia.
    + cbn. by rewrite (proj2 (Z.eqb_neq df f)) by done.
    + cbn. rewrite (proj2 (Z.eqb_neq df pf)) by done. by rewrite Hold.
    + intros fd h' (Hsaid & lft & d & Hl0 & Hld & Hrest & Hres). apply HQ. split; [by rewrite Hsaid|]. exists lft, d. split_and!; [done..| |].
      * intros fd' Hn. rewrite Hrest by done. cbn. rewrite (Z.eqb_sym fd' df). destruct (Z.eqb_spec fd' f) as [->|Hnf].
        { rewrite (proj2 (Z.eqb_neq df f)), Hnew by done. done. }
        destruct (df =? fd'); [done|by apply Hold].
      * destruct Hres as [(-> & Hno & Hroot')|[-> Hb]]; [left|right]; split_and!; try done; [|by apply (below_step p t q)].
        intros [d' Hb]. apply Hno. exists d'. by apply (below_step p t q).
Qed.

(** Every Uid line of a status file has the numbers. *)
Definition status_ok : Prop :=
  forall path l, l ∈ status W path -> uid_line l = true -> is_Some (scan_uid l).

Lemma uid_in_cons l ls :
  uid_in (l :: ls) = if uid_line l then option_map (wrapu 32) (scan_uid l) else uid_in ls.
Proof.
  unfold uid_in. rewrite filter_cons. destruct (uid_line l); by case_decide.
Qed.

Lemma wp_scan_status (Hok : status_ok) fuel msg path fp n (Q : outcome Z -> history -> Prop) h :
  fails Q -> fp_pos h fp = Some (path, n) -> (length (status W path) - n < fuel)%nat ->
  (forall u h', uid_in (drop n (status W path)) = Some u -> said h' = said h ->
     (forall fd, fd_ns h' fd = fd_ns h fd) -> Q (Done u) h') ->
  wp nsworld (scan_status fuel msg fp) Q h.
Proof.
  intros Hf. revert n h. induction fuel as [|fuel IH]; [lia|]. intros n h Hpos Hfuel HQ. cbn [scan_status].
  apply wp_sys_bind. intros r [_ Hr]. cbn in Hr. rewrite Hpos in Hr. subst r.
  destruct (status W path !! n) as [l|] eqn:Hl; [|intros [] _; apply Hf].
  assert (uid_in (drop n (status W path)) =
    if uid_line l then option_map (wrapu 32) (scan_uid l) else uid_in (drop (S n) (status W path))) as Huid.
  { by rewrite (drop_S _ l n Hl), uid_in_cons. }
  destruct (uid_line l) eqn:Hul.
  - destruct (Hok path l) as [u Hu]; [by eapply list_elem_of_lookup_2|done|]. rewrite Hu in *.
    intros [] _. by apply HQ.
  - apply lookup_lt_Some in Hl as Hlt. apply (IH (S n)); [cbn; by rewrite Z.eqb_refl, Hpos|lia|].
    intros u h' Hu Hs Hfd. apply HQ; [by rewrite Huid|done..].
Qed.

Definition status_file (pid : Z) : list ascii := snprintf PATH_MAX ($"/proc/" ++ dec pid ++ $"/status").

Lemma wp_euid_of_process (Hok : status_ok) fuel pid (Q : outcome Z -> history -> Prop) h :
  fails Q -> (length (status W (status_file pid)) < fuel)%nat ->
  (forall u h', uid_in (status W (status_file pid)) = Some u -> said h' = said h ->
     (forall fd, fd_ns h' fd = fd_ns h fd) -> Q (Done u) h') ->
  wp nsworld (euid_of_process fuel pid) Q h.
Proof.
  intros Hf Hfuel HQ. unfold euid_of_process. apply wp_sys_bind. intros [fp|e] _; [|by apply wp_fail].
  apply (wp_scan_status Hok _ _ (status_file pid) _ 0); [done|cbn; by rewrite Z.eqb_refl|lia|].
  intros u h' Hu Hs Hfd. by apply HQ.
Qed.

Lemma wp_display pid (Q : outcome unit -> history -> Prop) h :
  fails Q -> (forall caps h', said h' = said h ++ [$"Capabilities: " ++ caps ++ [NL]] -> Q (Done tt) h') ->
  wp nsworld (display_process_capabilities pid) Q h.
Proof.
  intros Hf HQ. unfold display_process_capabilities.
  apply wp_sys_bind. intros [c|e] _; [|by apply wp_fail].
  apply wp_sys_bind. intros [caps|e] _; [|by apply wp_fail].
  intros [] _ r1 _ r2 _. by apply (HQ caps).
Qed.

(** ** The answer of the program *)

Inductive answer := InTarget | NoAncestor | OwnerOfChild | InAncestor.

(** user_namespaces(7): a process in the namespace or in an ancestor of it has
    the capabilities of its own sets there, and all of them if it is in the
    parent of a namespace on the way whose owner is its effective user ID. *)
Inductive decides (t p : ns) (euid : option Z) : answer -> Prop :=
| in_target : p = t -> decides t p euid InTarget
| no_ancestor : p <> t -> ~ (exists d, below p t d) -> decides t p euid NoAncestor
| owner_of_child d : p <> t -> below p t d -> euid = Some (wrapu 32 (owner W d)) -> decides t p euid OwnerOfChild
| in_ancestor d u : p <> t -> below p t d -> euid = Some u -> u <> wrapu 32 (owner W d) -> decides t p euid InAncestor.

Definition answer_lines (pid_str : list ascii) (a : answer) (caps : list ascii) : list (list ascii) :=
  match a with
  | InTarget =>
      [$"PID " ++ pid_str ++ $" is in the target namespace" ++ [NL];
       $"Subject to LSM checks, it has the following capabilities" ++ [NL];
       $"Capabilities: " ++ caps ++ [NL]]
  | NoAncestor =>
      [$"PID " ++ pid_str ++ $" is not in an ancestor namespace" ++ [NL];
       $"It has no capabilities in the target namespace" ++ [NL]]
  | OwnerOfChild =>
      [$"PID " ++ pid_str ++ $" is in an ancestor namespace" ++ [NL];
       $"And its effective UID matches the owner of the immediate child user namespace" ++ [NL]
         ++ $"of that namespace" ++ [NL];
       $"Subject to LSM checks, it has all capabilities in that namespace!" ++ [NL]]
  | InAncestor =>
      [$"PID " ++ pid_str ++ $" is in an ancestor namespace" ++ [NL];
       $"But its effective UID does not match the owner of the immediate child user namespace" ++ [NL]
         ++ $"of that namespace" ++ [NL];
       $"Subject to LSM checks, it has the following capabilities" ++ [NL];
       $"Capabilities: " ++ caps ++ [NL]]
  end.

(** The user namespace that governs a namespace. *)
Definition governing (n : ns) : ns := if kind W n =? CLONE_NEWUSER then n else userns W n.

Definition answers (argv : list (list ascii)) (o : outcome unit) (h : history) : Prop :=
  o = Stop (Exit EXIT_FAILURE) \/
  o = Stop (Exit EXIT_SUCCESS) /\
  exists n p a caps,
    ns_file W (nth 2 argv []) = Some n /\
    ns_file W (snprintf PATH_MAX ($"/proc/" ++ nth 1 argv [] ++ $"/ns/user")) = Some p /\
    decides (governing n) p (uid_in (status W (status_file (atoi (nth 1 argv []))))) a /\
    said h = answer_lines (nth 1 argv []) a caps.

Lemma wrapu_int_of z : wrapu 32 (int_of z) = wrapu 32 z.
Proof.
  unfold wrapu, int_of, wraps. rewrite Zminus_mod_idemp_l. f_equal. lia.
Qed.

Lemma wp_compare_owner (Hok : status_ok) fuel argv n p d fd h :
  (length (status W (status_file (atoi (nth 1 argv [])))) < fuel)%nat ->
  ns_file W (nth 2 argv []) = Some n ->
  ns_file W (snprintf PATH_MAX ($"/proc/" ++ nth 1 argv [] ++ $"/ns/user")) = Some p ->
  p <> governing n -> below p (governing n) d -> fd_ns h fd = Some d ->
  said h = [$"PID " ++ nth 1 argv [] ++ $" is in an ancestor namespace" ++ [NL]] ->
  wp nsworld (compare_owner fuel (atoi (nth 1 argv [])) fd) (answers argv) h.
Proof.
  intros Hfuel Hn Hp Hne Hb Hfd Hsaid. unfold compare_owner.
  assert (fails (answers argv)) as Hf by (by left).
  apply wp_bind, wp_sys_bind. intros [o|e] [_ Hr]; [|by apply wp_fail]. cbn in Hr. rewrite Hfd in Hr. subst o.
  apply wp_bind, (wp_euid_of_process Hok); [by left|done|]. intros u h' Hu Hs Hns.
  rewrite wrapu_int_of. destruct (Z.eqb_spec (wrapu 32 (owner W d)) u) as [Heq|Hneq].
  - intros [] _ [] _ r _. right. split; [done|]. exists n, p, OwnerOfChild, []. split_and!; [done..| |].
    + apply (owner_of_child _ _ _ d); [done..|]. by rewrite Hu, Heq.
    + cbn. rewrite Hs. cbn. by rewrite Hsaid.
  - intros [] _ [] _. apply wp_bind, wp_bind.
    cbn [wp]. apply wp_display; [by left|]. intros caps h2 Hs2 r _. right. split; [done|].
    exists n, p, InAncestor, caps. split_and!; [done..| |].
    + by apply (in_ancestor _ _ _ d u).
    + cbn. rewrite Hs2. cbn. rewrite Hs. cbn. by rewrite Hsaid.
Qed.

(** From the comparison of the two namespaces on. *)
Lemma wp_decide (Hok : status_ok) fuel argv n p tf pf h :
  (length (status W (status_file (atoi (nth 1 argv [])))) < fuel)%nat ->
  ns_file W (nth 2 argv []) = Some n ->
  ns_file W (snprintf PATH_MAX ($"/proc/" ++ nth 1 argv [] ++ $"/ns/user")) = Some p ->
  rooted 32 (governing n) = true -> 0 <= tf ->
  fd_ns h tf = Some (governing n) -> fd_ns h pf = Some p -> said h = [] ->
  wp nsworld (
    same <- ns_equal pf tf ;;
    if (same : bool) then
      print Stdout ($"PID " ++ nth 1 argv [] ++ $" is in the target namespace" ++ [NL]) ;;;
      print Stdout ($"Subject to LSM checks, it has the following capabilities" ++ [NL]) ;;;
      display_process_capabilities (atoi (nth 1 argv [])) ;;;
      Halt (Exit EXIT_SUCCESS)
    else
      desc_userns_fd <- search_ancestors MAX_USERNS_LEVEL tf pf ;;
      if desc_userns_fd =? -1 then
        print Stdout ($"PID " ++ nth 1 argv [] ++ $" is not in an ancestor namespace" ++ [NL]) ;;;
        print Stdout ($"It has no capabilities in the target namespace" ++ [NL]) ;;;
        Halt (Exit EXIT_SUCCESS)
      else
        print Stdout ($"PID " ++ nth 1 argv [] ++ $" is in an ancestor namespace" ++ [NL]) ;;;
        compare_owner fuel (atoi (nth 1 argv [])) desc_userns_fd) (answers argv) h.
Proof.
  intros Hfuel Hn Hp Hroot Htf Ht Hpf Hsaid.
  apply wp_bind, (wp_ns_equal _ _ p (governing n)); [by left|done..|]. intros st1 st2.
  case_bool_decide as Heq.
  - intros [] _ [] _. apply wp_bind. cbn [wp]. apply wp_bind, wp_display; [by left|]. intros caps h' Hs. right. split; [done|].
    exists n, p, InTarget, caps. split_and!; [done..|by constructor|]. rewrite Hs. cbn. by rewrite Hsaid.
  - apply wp_bind, (wp_search_ancestors _ _ _ (governing n) p _ _ 32); try done; [by left|congruence|unfold MAX_USERNS_LEVEL; lia|].
    intros fd h' (Hs & lft & d & Hfd0 & Hfd & _ & Hres). cbn in Hs. destruct Hres as [(-> & Hno & _)|[-> Hb]].
    + intros [] _ [] _. right. split; [done|]. exists n, p, NoAncestor, []. split_and!; [done..|by constructor|].
      cbn. by rewrite Hs, Hsaid.
    + rewrite (proj2 (Z.eqb_neq lft (-1))) by lia. intros [] _. apply wp_bind. cbn [wp].
      apply (wp_compare_owner Hok _ _ n p d); try done. cbn. by rewrite Hs, Hsaid.
Qed.

Lemma wp_target nf n (Q : outcome Z -> history -> Prop) h :
  fails Q -> 0 <= nf -> fd_ns h nf = Some n ->
  (forall tf h', 0 <= tf -> fd_ns h' tf = Some (governing n) -> said h' = said h -> Q (Done tf) h') ->
  wp nsworld (if kind W n =? CLONE_NEWUSER then Ret nf
              else u <- owning_userns_of nf ;; sys (Close nf) ;;; Ret u) Q h.
Proof.
  intros Hf Hnf Hn HQ. unfold governing in HQ. destruct (kind W n =? CLONE_NEWUSER); [by apply HQ|].
  apply wp_bind, wp_sys_bind. intros [u|e] [_ Hr]; [|by apply wp_fail]. cbn in Hr. rewrite Hn in Hr.
  destruct Hr as [Hu Hnew]. intros r _. apply HQ; [done| |done].
  assert (nf <> u) by congruence. cbn. rewrite (proj2 (Z.eqb_neq nf u)), Z.eqb_refl by done. cbn. by rewrite Hn.
Qed.

Lemma ns_capable_answers (Hok : status_ok) fuel argv :
  (forall t, rooted 32 t = true) -> (length (status W (status_file (atoi (nth 1 argv [])))) < fuel)%nat ->
  wp nsworld (ns_capable_main fuel argv) (answers argv) [].
Proof.
  intros Hroot Hfuel. unfold ns_capable_main. destruct (negb (length argv =? 3)%nat).
  { intros [] _ [] _. by left. }
  apply wp_sys_bind. intros [nf|e] [Hpos Hr]; [|apply wp_fail; by left]. destruct Hr as [_ [n Hn]]. destruct Hpos as [Hnf0 _].
  assert (fd_ns [Ev (Open (nth 2 argv []) O_RDONLY 0) (Ok nf)] nf = Some n) as Hnf by (cbn; by rewrite Z.eqb_refl).
  apply wp_bind, wp_sys_bind. intros [t|e] [_ Ht]; [|apply wp_fail; by left]. cbn in Ht. rewrite Z.eqb_refl, Hn in Ht. subst t.
  cbn [wp]. apply wp_bind, wp_target; [by left|done|done|]. intros tf h' Htf Hgov Hs.
  apply wp_sys_bind. intros [pf|e] [_ Hr]; [|apply wp_fail; by left]. destruct Hr as [Hnew [p Hp]].
  apply (wp_decide Hok _ _ n p); try done; [|cbn; by rewrite Z.eqb_refl].
  cbn. by rewrite (proj2 (Z.eqb_neq pf tf)) by congruence.
Qed.
End Spec.

(** ** Properties *)


(** A namespace (0,2) whose parent (0,1) is the initial one, owned by user 1000;
    process 7 is in the initial one with that effective user ID. *)
Definition demo_world : world :=
  {| ns_file := fun path => if strcmp_eq path ($"f") then Some (0, 2)
                            else if strcmp_eq path ($"/proc/7/ns/user") then Some (0, 1) else None;
     kind := fun _ => CLONE_NEWUSER;
     userns := fun n => n;
     parent := fun n => if bool_decide (n = (0, 2)) then Some (0, 1) else None;
     owner := fun n => if bool_decide (n = (0, 2)) then 1000 else 0;
     status := fun _ => [$"Name: x" ++ [NL]; $"Uid: 0 1000 0 0" ++ [NL]] |}.

Definition demo_argv : list (list ascii) := [$"ns_capable"; $"7"; $"f"].


(** The documented behaviour leaves a reply to every call, and a run on the
    example prints the answer. *)
Definition ns_kernel (W : world) : kernel := fun h X c =>
  match c in call X return X with
  | Ioctl fd req =>
      match fd_ns W h fd with
      | Some n => if (req =? NS_GET_PARENT) && bool_decide (parent W n = None) then Err EPERM else Err EIO
      | None => Err EIO
      end
  | Fgets fp _ => match fp_pos h fp with Some (path, n) => status W path !! n | None => None end
  | c => failing_kernel h _ c
  end.

Lemma nsworld_inhabited W h X (c : call X) : nsworld W h X c (ns_kernel W h X c).
Proof.
  destruct c; (split; [try apply posix_inhabited|try done]).
  - simpl. destruct (fd_ns W h fd); [|done]. by case_match.
  - simpl. destruct (fd_ns W h fd) as [n|]; [|done].
    destruct (Z.eqb_spec request NS_GET_PARENT); cbn [andb]; repeat case_match; try done.
    all: case_bool_decide; simplify_eq; done.
  - done.
  - simpl. by destruct (fp_pos h fp) as [[]|].
Qed.

Definition demo_ns_kernel : kernel := fun h X c =>
  match c in call X return X with
  | Open _ _ _ => Ok (3 + Z.of_nat (length h))
  | Fstat fd => match fd_ns demo_world h fd with Some (d, i) => Ok (Stat false i d) | None => Err EIO end
  | Ioctl fd req =>
      match fd_ns demo_world h fd with
      | None => Err EIO
      | Some n =>
          if req =? NS_GET_PARENT
          then match parent demo_world n with Some _ => Ok (3 + Z.of_nat (length h)) | None => Err EPERM end
          else if req =? NS_GET_OWNER_UID then Ok (owner demo_world n)
          else Ok (kind demo_world n)
      end
  | Fopen _ _ => Ok 1
  | c => ns_kernel demo_world h _ c
  end.

Example ns_capable_demo :
  let '(o, h) := run demo_ns_kernel (ns_capable_main (T:=demo_text) 3 demo_argv) [] in
  o = Stop (Exit EXIT_SUCCESS) /\ said h = answer_lines ($"7") OwnerOfChild [].
Proof. vm_compute. done. Qed.
