(* ===== verification/Userns.v ===== *)
(** * User namespaces: namespaces/userns_functions.c,
      namespaces/userns_child_exec.c and cap/cap_functions.c

    The program creates a child in new namespaces and writes the user and group
    mappings of the child's user namespace while the child waits; the end of
    file on a pipe tells the child to go on and execute the command.  The file
    models the two processes as two programs that run side by side, each with
    its own history; only the pipe connects them. *)

From S2P Require Import Prelude Sys LibErrors.

Definition O_RDWR : Z := 2.
Definition PATH_MAX : nat := 4096.
Definition CLONE_NEWNS : Z := 0x00020000.
Definition CLONE_NEWCGROUP : Z := 0x02000000.
Definition CLONE_NEWUTS : Z := 0x04000000.
Definition CLONE_NEWIPC : Z := 0x08000000.
Definition CLONE_NEWUSER : Z := 0x10000000.
Definition CLONE_NEWPID : Z := 0x20000000.
Definition CLONE_NEWNET : Z := 0x40000000.
Definition SIGCHLD : Z := 17.
Definition SECBIT_NOROOT : Z := 1.
Definition SECBIT_NO_SETUID_FIXUP : Z := 4.
Definition PR_SET_SECUREBITS : Z := 28.
Definition PR_CAP_AMBIENT : Z := 47.
Definition PR_CAP_AMBIENT_RAISE : Z := 2.
Definition CAP_INHERITABLE : Z := 2.
Definition CAP_SET : Z := 1.
Definition CAP_LAST_CAP : nat := 40.
Definition STACK_SIZE : Z := 1024 * 1024.
Definition MAP_BUF_SIZE : nat := 100.

Section Program.
Context {T : ErrText}.

(** ** cap/cap_functions.c *)

Definition modifyCapSetting (flag capability setting : Z) : prog Z :=
  r <- sys Cap_get_proc ;;
  match r with
  | Err _ => Ret (-1)
  | Ok caps =>
      r <- sys (Cap_set_flag caps flag capability setting) ;;
      match r with
      | Err _ => sys (Cap_free (inl caps)) ;;; Ret (-1)
      | Ok _ =>
          r <- sys (Cap_set_proc caps) ;;
          match r with
          | Err _ => sys (Cap_free (inl caps)) ;;; Ret (-1)
          | Ok _ =>
              r <- sys (Cap_free (inl caps)) ;;
              match r with Err _ => Ret (-1) | Ok _ => Ret 0 end
          end
      end
  end.

(** ** namespaces/userns_functions.c *)

Definition display_creds_and_caps (str : list ascii) : prog unit :=
  euid <- sys Geteuid ;;
  egid <- sys Getegid ;;
  print Stdout (str ++ $"eUID = " ++ dec euid ++ $"; eGID=" ++ dec egid ++ $";  ") ;;;
  r <- sys Cap_get_proc ;;
  match r with
  | Err e => errExit e ($"cap_get_proc")
  | Ok caps =>
      r <- sys (Cap_to_text caps) ;;
      match r with
      | Err e => errExit e ($"cap_to_text")
      | Ok s =>
          print Stdout ($"capabilities: " ++ s ++ [NL]) ;;;
          sys (Cap_free (inl caps)) ;;;
          sys (Cap_free (inr s)) ;;;
          Ret tt
      end
  end.

Definition newlines (mapping : list ascii) : list ascii :=
  map (fun c => if Ascii.eqb c "," then NL else c) mapping.

(** The status, and errno: [errno] at the call, or the last error. *)
Definition update_map (errno : Z) (mapping map_file : list ascii) : prog (Z * Z) :=
  let mapping := newlines mapping in
  r <- sys (Open map_file O_RDWR 0) ;;
  match r with
  | Err e =>
      print Stderr ($"ERROR: open " ++ map_file ++ $": " ++ strerror e ++ [NL]) ;;;
      Ret (-1, e)
  | Ok fd =>
      r <- sys (Write fd mapping) ;;
      let '(ok, errno) := match r with Ok n => (n =? strlen mapping, errno) | Err e => (false, e) end in
      status <- (if (ok : bool) then Ret 0
                 else print Stderr ($"ERROR: writing to " ++ map_file ++ $": " ++ strerror errno ++ [NL]) ;;; Ret (-1)) ;;
      r <- sys (Close fd) ;;
      Ret (status, match r with Ok _ => errno | Err e => e end)
  end.

Definition proc_setgroups_write (child_pid : Z) (str : list ascii) : prog (Z * Z) :=
  let setgroups_path := snprintf PATH_MAX ($"/proc/" ++ dec child_pid ++ $"/setgroups") in
  r <- sys (Open setgroups_path O_RDWR 0) ;;
  match r with
  | Err e =>
      if e =? ENOENT then Ret (0, e)
      else
        print Stderr ($"ERROR: open " ++ setgroups_path ++ $": " ++ strerror e ++ [NL]) ;;;
        Ret (-1, e)
  | Ok fd =>
      r <- sys (Write fd str) ;;
      status <- match r with
                | Ok _ => Ret 0
                | Err e =>
                    print Stderr ($"ERROR: writing to " ++ setgroups_path ++ $": " ++ strerror e ++ [NL]) ;;;
                    Ret (-1)
                end ;;
      c <- sys (Close fd) ;;
      Ret (status, match c, r with Err e, _ => e | Ok _, Err e => e | Ok _, Ok _ => 0 end)
  end.

(** ** namespaces/userns_child_exec.c *)

(** The options, the file's static variables included. *)
Record options := Options
  { flags : Z; verbose : bool; secbits : Z; newuid : Z; useAmbient : bool;
    uid_map : option (list ascii); gid_map : option (list ascii);
    create_root_mappings : bool; deny_setgroups : bool }.

Definition defaults : options := Options 0 false 0 (-1) false None None false true.

Definition fpe (str : list ascii) : prog unit := print Stderr ($"    " ++ str).

Fixpoint fpes (l : list (list ascii)) : prog unit :=
  match l with [] => Ret tt | s :: l => fpe s ;;; fpes l end.

Definition usage {A} (pname : list ascii) : prog A :=
  print Stderr ($"Usage: " ++ pname ++ $" [options] cmd [arg...]" ++ [NL; NL]) ;;;
  print Stderr ($"Create a child process that executes a shell command in a new user namespace," ++ [NL]
                ++ $"and possibly also other new namespaces." ++ [NL; NL]) ;;;
  print Stderr ($"Options can be:" ++ [NL; NL]) ;;;
  fpes (map (fun s => s ++ [NL])
    [$"-C          New cgroup namespace"; $"-i          New IPC namespace";
     $"-m          New mount namespace"; $"-n          New network namespace";
     $"-p          New PID namespace"; $"-u          New UTS namespace";
     $"-U          New user namespace"; $"-M uid_map  Specify UID map for user namespace";
     $"-G gid_map  Specify GID map for user namespace";
     $"-D          Do not write " ++ [chr 34] ++ $"deny" ++ [chr 34] ++ $" to /proc/PID/setgroups before";
     $"            updating GID map";
     $"-r          Create 'root' mappings: map user's UID and GID to 0 in user";
     $"            namespace (equivalent to: -M '0 <uid> 1' -G '0 <gid> 1')";
     $"-z          Synonym for '-r'";
     $"-a          Use ambient capability set to preserve all possible";
     $"            capabilities across execve()";
     $"-s <uid>    Set process UIDs to <uid> before exec()";
     $"            (useful for some experiments with user namespaces)";
     $"-b <bits>   Set securebits flags before modifying process UIDs ('-s'):";
     $"                'r' - SECBIT_NOROOT"; $"                's' - SECBIT_NO_SETUID_FIXUP";
     $"-v          Display verbose messages"; [];
     $"If -r, -M, or -G is specified, -U is required.";
     $"It is not permitted to specify both -r and either -M or -G."; [];
     $"Map strings for -M and -G consist of records of the form:"; [];
     $"    ID-inside-ns   ID-outside-ns   len"; [];
     $"A map string can contain multiple records, separated by commas;";
     $"the commas are replaced by newlines before writing to map files."]) ;;;
  Halt (Exit EXIT_FAILURE).

Fixpoint raiseLoop (n : nat) (cap cnt : Z) : prog Z :=
  match n with
  | O => Ret cnt
  | S n =>
      modifyCapSetting CAP_INHERITABLE cap CAP_SET ;;;
      r <- sys (Prctl PR_CAP_AMBIENT PR_CAP_AMBIENT_RAISE cap) ;;
      raiseLoop n (cap + 1) (match r with Ok 0 => cnt + 1 | _ => cnt end)
  end.

Definition raiseAmbientCaps : prog Z := raiseLoop (S CAP_LAST_CAP) 0 0.

Definition TAB : ascii := "009"%char.

Definition childFunc (o : options) (argv : list (list ascii)) (pipe_fd : Z * Z) : prog unit :=
  sys (Close (snd pipe_fd)) ;;;
  r <- sys (Read (fst pipe_fd) 1) ;;
  match r with
  | Ok [] =>
      sys (Close (fst pipe_fd)) ;;;
      (if negb (secbits o =? 0) then
         r <- sys (Prctl PR_SET_SECUREBITS (secbits o) 0) ;;
         match r with Err e => perrorExit e ($"prctl") | Ok _ => Ret tt end
       else Ret tt) ;;;
      (if 0 <=? newuid o then
         r <- sys (Setresuid (newuid o) (newuid o) (newuid o)) ;;
         match r with
         | Err e => perrorExit e ($"setresuid")
         | Ok _ => if verbose o then display_creds_and_caps ([TAB] ++ $"[child after setresuid()] ") else Ret tt
         end
       else Ret tt) ;;;
      (if useAmbient o then raiseAmbientCaps ;;; Ret tt else Ret tt) ;;;
      (if verbose o then print Stdout ($"About to exec: " ++ nth 0 argv [] ++ [NL]) else Ret tt) ;;;
      e <- execvp (nth 0 argv []) argv ;;
      perrorExit e ($"execvp")
  | _ =>
      print Stderr ($"Failure in child: read from pipe returned != 0" ++ [NL]) ;;;
      Halt (Exit EXIT_FAILURE)
  end.
Fixpoint secbitsOf (pname p : list ascii) (bits : Z) : prog Z :=
  match p with
  | [] => Ret bits
  | c :: p =>
      if Ascii.eqb c "r" then secbitsOf pname p (Z.lor bits SECBIT_NOROOT)
      else if Ascii.eqb c "s" then secbitsOf pname p (Z.lor bits SECBIT_NO_SETUID_FIXUP)
      else usage pname
  end.

Definition add_flag (f : Z) (o : options) : options :=
  Options (Z.lor (flags o) f) (verbose o) (secbits o) (newuid o) (useAmbient o) (uid_map o) (gid_map o)
    (create_root_mappings o) (deny_setgroups o).

Definition set_secbits (b : Z) (o : options) : options :=
  Options (flags o) (verbose o) b (newuid o) (useAmbient o) (uid_map o) (gid_map o)
    (create_root_mappings o) (deny_setgroups o).

(** One round of the switch. *)
Definition setOption (pname : list ascii) (o : options) (opt : ascii) (optarg : list ascii) : prog options :=
  let '(Options fl vb sb nu am um gm cr ds) := o in
  let o_is c := Ascii.eqb opt c in
  if o_is "C"%char then Ret (add_flag CLONE_NEWCGROUP o)
  else if o_is "i"%char then Ret (add_flag CLONE_NEWIPC o)
  else if o_is "m"%char then Ret (add_flag CLONE_NEWNS o)
  else if o_is "n"%char then Ret (add_flag CLONE_NEWNET o)
  else if o_is "p"%char then Ret (add_flag CLONE_NEWPID o)
  else if o_is "u"%char then Ret (add_flag CLONE_NEWUTS o)
  else if o_is "U"%char then Ret (add_flag CLONE_NEWUSER o)
  else if o_is "M"%char then Ret (Options fl vb sb nu am (Some optarg) gm cr ds)
  else if o_is "G"%char then Ret (Options fl vb sb nu am um (Some optarg) cr ds)
  else if o_is "r"%char || o_is "z"%char then Ret (Options fl vb sb nu am um gm true ds)
  else if o_is "D"%char then Ret (Options fl vb sb nu am um gm cr false)
  else if o_is "v"%char then Ret (Options fl true sb nu am um gm cr ds)
  else if o_is "a"%char then Ret (Options fl vb sb nu true um gm cr ds)
  else if o_is "s"%char then Ret (Options fl vb sb (atoi optarg) am um gm cr ds)
  else if o_is "b"%char then (bits <- secbitsOf pname optarg 0 ;; Ret (set_secbits bits o))
  else usage pname.

Fixpoint parseOpts (pname : list ascii) (o : options) (opts : list (ascii * list ascii)) : prog options :=
  match opts with
  | [] => Ret o
  | (opt, optarg) :: opts => o <- setOption pname o opt optarg ;; parseOpts pname o opts
  end.

Definition is_some {A} (x : option A) : bool := match x with Some _ => true | None => false end.

Definition bad_options (o : options) : bool :=
  (is_some (uid_map o) || is_some (gid_map o) || create_root_mappings o) && negb (flag (flags o) CLONE_NEWUSER)
  || create_root_mappings o && (is_some (uid_map o) || is_some (gid_map o)).

(** The user map. *)
Definition write_uid_map (o : options) (child_pid : Z) : prog unit :=
  if is_some (uid_map o) || create_root_mappings o then
    let map_path := snprintf PATH_MAX ($"/proc/" ++ dec child_pid ++ $"/uid_map") in
    uid_map <- (if create_root_mappings o then
                  uid <- sys Getuid ;; Ret (snprintf MAP_BUF_SIZE ($"0 " ++ dec uid ++ $" 1"))
                else Ret (default [] (uid_map o))) ;;
    '(status, errno) <- update_map 0 uid_map map_path ;;
    if status =? -1 then perrorExit errno ($"update_map: uid_map") else Ret tt
  else Ret tt.

(** The group map. *)
Definition write_gid_map (o : options) (child_pid : Z) : prog unit :=
  if is_some (gid_map o) || create_root_mappings o then
    (if deny_setgroups o then
       '(status, errno) <- proc_setgroups_write child_pid ($"deny") ;;
       if status =? -1 then perrorExit errno ($"proc_setgroups_write") else Ret tt
     else Ret tt) ;;;
    let map_path := snprintf PATH_MAX ($"/proc/" ++ dec child_pid ++ $"/gid_map") in
    gid_map <- (if create_root_mappings o then
                  gid <- sys Getgid ;; Ret (snprintf MAP_BUF_SIZE ($"0 " ++ dec gid ++ $" 1"))
                else Ret (default [] (gid_map o))) ;;
    '(status, errno) <- update_map 0 gid_map map_path ;;
    if status =? -1 then perrorExit errno ($"update_map: gid_map") else Ret tt
  else Ret tt.

(** The parent after clone(). *)
Definition parent (o : options) (pname : list ascii) (pipe_fd : Z * Z) (child_pid : Z) : prog unit :=
  (if verbose o then
     print Stdout (pname ++ $": PID of child created by clone() is " ++ dec child_pid ++ [NL])
   else Ret tt) ;;;
  write_uid_map o child_pid ;;;
  write_gid_map o child_pid ;;;
  sys (Close (snd pipe_fd)) ;;;
  r <- sys (Waitpid child_pid 0) ;;
  match r with
  | Err e => perrorExit e ($"waitpid")
  | Ok _ =>
      (if verbose o then print Stdout (pname ++ $": terminating" ++ [NL]) else Ret tt) ;;;
      Halt (Exit EXIT_SUCCESS)
  end.

(** [opts] is what getopt() returns, [args] what follows the options. *)
Definition userns_child_exec_main (pname : list ascii) (opts : list (ascii * list ascii))
    (args : list (list ascii)) : prog unit :=
  o <- parseOpts pname defaults opts ;;
  if bad_options o then usage pname
  else match args with
       | [] => usage pname
       | _ :: _ =>
           r <- sys Pipe ;;
           match r with
           | Err e => perrorExit e ($"pipe")
           | Ok pipe_fd =>
               ok <- sys (Alloc STACK_SIZE) ;;
               if negb ok then perrorExit ENOMEM ($"malloc")
               else
                 r <- sys (Clone (Z.lor (flags o) SIGCHLD)) ;;
                 match r with
                 | Err e => perrorExit e ($"clone")
                 | Ok child_pid => parent o pname pipe_fd child_pid
                 end
           end
       end.
End Program.

(** ** Two processes

    After clone() the parent runs [parent] and the child [childFunc], in any
    order.  Each has its own descriptors and its own history since clone(). *)
Record config := Config
  { parent_prog : prog unit; parent_hist : history;
    child_prog : prog unit; child_hist : history }.

Fixpoint has_closed (h : history) (fd : Z) : Prop :=
  match h with
  | [] => False
  | Ev c _ :: h' => match c with Close f => f = fd | _ => False end \/ has_closed h' fd
  end.

(** A descriptor that open() returns is not one of the pipe's, as long as those
    are open. *)
Definition with_pipe (fds : Z * Z) : env := fun h X c r =>
  posix h X c r /\
  match c in call X return X -> Prop with
  | Open _ _ _ => fun r =>
      match r with Ok fd => fd = snd fds -> has_closed h (snd fds) | Err _ => True end
  | _ => fun _ => True
  end r.

Definition ended (p : prog unit) : Prop := match p with Sys _ _ => False | _ => True end.

(** The end of file of the pipe: nobody holds the write end any more.  The end
    of a process closes its descriptors. *)
Definition eof_ready (fds : Z * Z) (s : config) : Prop :=
  (has_closed (parent_hist s) (snd fds) \/ ended (parent_prog s)) /\ has_closed (child_hist s) (snd fds).

Definition at_eof {X} (fds : Z * Z) (c : call X) : X -> Prop :=
  match c in call X return X -> Prop with
  | Read fd _ => fun r => fd = fst fds /\ r = Ok []
  | _ => fun _ => False
  end.

Inductive step (fds : Z * Z) : config -> config -> Prop :=
| step_parent X (c : call X) k r ph cp ch :
    with_pipe fds ph X c r ->
    step fds (Config (Sys c k) ph cp ch) (Config (k r) (Ev c r :: ph) cp ch)
| step_child X (c : call X) k r pp ph ch :
    posix ch X c r -> (at_eof fds c r -> eof_ready fds (Config pp ph (Sys c k) ch)) ->
    step fds (Config pp ph (Sys c k) ch) (Config pp ph (k r) (Ev c r :: ch)).

Inductive reach (fds : Z * Z) (s : config) : config -> Prop :=
| reach_refl : reach fds s s
| reach_step s1 s2 : reach fds s s1 -> step fds s1 s2 -> reach fds s s2.

(** ** The map files *)

(** A file was opened and all of the text written to it, in this order. *)
Definition wrote (h : history) (path text : list ascii) : Prop :=
  exists a b fd, h = a ++ Ev (Write fd text) (Ok (strlen text)) :: Ev (Open path O_RDWR 0) (Ok fd) :: b.

Lemma wrote_more h k path text : wrote h path text -> wrote (k ++ h) path text.
Proof. intros (a & b & fd & ->). exists (k ++ a), b, fd. by rewrite app_assoc. Qed.

Definition keeps_open (fd : Z) (e : event) : Prop :=
  match e with Ev c _ => match c with Close f => f <> fd | _ => True end end.

Section Functions.
Context {T : ErrText}.

Lemma fresh_fd_closed fd h : fd ∉ open_fds h -> ({[fd]} ∪ open_fds h) ∖ {[fd]} = open_fds h.
Proof. set_solver. Qed.

(** Every path through update_map. *)
Lemma wp_update_map (E : env) errno mapping path (Q : outcome (Z * Z) -> history -> Prop) h :
  (forall h X (c : call X) r, E h X c r -> posix h X c r) ->
  (forall e t, 0 < e -> Q (Done (-1, e)) (Ev (Out Stderr t) tt :: Ev (Open path O_RDWR 0) (Err e) :: h)) ->
  (forall fd e r, E h _ (Open path O_RDWR 0) (Ok fd) ->
     Q (Done (0, e)) (Ev (Close fd) r :: Ev (Write fd (newlines mapping)) (Ok (strlen (newlines mapping)))
                      :: Ev (Open path O_RDWR 0) (Ok fd) :: h)) ->
  (forall fd e t r w, E h _ (Open path O_RDWR 0) (Ok fd) -> w <> Ok (strlen (newlines mapping)) ->
     Q (Done (-1, e)) (Ev (Close fd) r :: Ev (Out Stderr t) tt :: Ev (Write fd (newlines mapping)) w
                       :: Ev (Open path O_RDWR 0) (Ok fd) :: h)) ->
  wp E (update_map errno mapping path) Q h.
Proof.
  intros HE Hopen Hok Hbad. unfold update_map. apply wp_sys_bind. intros [fd|e] Hr.
  2: { intros [] _. apply HE in Hr. by apply Hopen. }
  apply wp_sys_bind. intros [n|e] Hw.
  - destruct (Z.eqb_spec n (strlen (newlines mapping))) as [->|Hn]; [intros r _; by apply Hok|].
    intros [] _ r _. apply Hbad; [done|]. by intros [= ->].
  - intros [] _ r _. by apply Hbad.
Qed.

Definition full_write (text : list ascii) (e : event) : Prop :=
  match e with
  | Ev c r =>
      match c in call X return X -> Prop with
      | Write _ d => fun r => d = text /\ r = Ok (strlen text)
      | _ => fun _ => False
      end r
  end.

Lemma update_map_spec errno mapping path h :
  wp posix (update_map errno mapping path) (fun o h' =>
    exists st e k, o = Done (st, e) /\ h' = k ++ h /\ open_fds h' = open_fds h /\
      (st = 0 /\ wrote h' path (newlines mapping) \/
       st = -1 /\ Forall (fun e => ~ full_write (newlines mapping) e) k)) h.
Proof.
  apply wp_update_map; [done|..].
  - intros e t _. exists (-1), e, [Ev (Out Stderr t) tt; Ev (Open path O_RDWR 0) (Err e)].
    split_and!; [done..|]. right. split; [done|]. repeat constructor; by intros [].
  - intros fd e r [_ Hfd]. exists 0, e. eexists [_; _; _]. split_and!; [done..| |].
    + cbn. by apply fresh_fd_closed.
    + left. split; [done|]. by exists [Ev (Close fd) r], h, fd.
  - intros fd e t r w [_ Hfd] Hw. exists (-1), e. eexists [_; _; _; _]. split_and!; [done..| |].
    + cbn. by apply fresh_fd_closed.
    + right. split; [done|]. repeat constructor; by intros [].
Qed.

Lemma proc_setgroups_write_spec pid str h :
  let path := snprintf PATH_MAX ($"/proc/" ++ dec pid ++ $"/setgroups") in
  wp posix (proc_setgroups_write pid str) (fun o h' =>
    exists st e, o = Done (st, e) /\ open_fds h' = open_fds h /\
      (st = 0 /\ (h' = Ev (Open path O_RDWR 0) (Err ENOENT) :: h \/
                  exists fd n r, h' = Ev (Close fd) r :: Ev (Write fd str) (Ok n) :: Ev (Open path O_RDWR 0) (Ok fd) :: h) \/
       st = -1 /\ exists t, Ev (Out Stderr t) tt ∈ h')) h.
Proof.
  intros path. unfold proc_setgroups_write. fold path. apply wp_sys_bind. intros [fd|e] Hr.
  - destruct Hr as [_ Hfd]. apply wp_sys_bind. intros [n|e] _.
    + intros r _. do 2 eexists. split_and!; [done|cbn; by apply fresh_fd_closed|]. left. split; [done|]. right. by do 3 eexists.
    + intros [] _ r _. do 2 eexists. split_and!; [done|cbn; by apply fresh_fd_closed|]. right. split; [done|]. eexists. right. by left.
  - destruct (Z.eqb_spec e ENOENT) as [->|Hne].
    + do 2 eexists. split_and!; [done..|]. left. split; [done|]. by left.
    + intros [] _. do 2 eexists. split_and!; [done..|]. right. split; [done|]. eexists. by left.
Qed.

(** The capability states that were allocated and not freed. *)
Fixpoint caps_held (h : history) : list Z :=
  match h with
  | [] => []
  | Ev c r :: h' =>
      match c in call X return X -> list Z with
      | Cap_get_proc | Cap_get_pid _ => fun r => match r with Ok caps => caps :: caps_held h' | Err _ => caps_held h' end
      | Cap_free obj => fun _ =>
          match obj with
          | inl caps => match caps_held h' with x :: l => if x =? caps then l else x :: l | [] => [] end
          | inr _ => caps_held h'
          end
      | _ => fun _ => caps_held h'
      end r
  end.

Lemma modifyCapSetting_spec fl capability setting h :
  wp posix (modifyCapSetting fl capability setting) (fun o h' =>
    caps_held h' = caps_held h /\
    (o = Done 0 /\ (exists caps, h' = Ev (Cap_free (inl caps)) (Ok tt) :: Ev (Cap_set_proc caps) (Ok tt)
                      :: Ev (Cap_set_flag caps fl capability setting) (Ok tt) :: Ev Cap_get_proc (Ok caps) :: h) \/
     o = Done (-1))) h.
Proof.
  unfold modifyCapSetting. apply wp_sys_bind. intros [caps|e] _; [|split; [done|by right]].
  assert (forall r, caps_held (Ev (Cap_free (inl caps)) r :: Ev Cap_get_proc (Ok caps) :: h) = caps_held h) as Hfree.
  { intros r. cbn. by rewrite Z.eqb_refl. }
  apply wp_sys_bind. intros [[]|e] _; [|intros r _; split; [apply (Hfree r)|by right]].
  apply wp_sys_bind. intros [[]|e] _; [|intros r _; split; [apply (Hfree r)|by right]].
  apply wp_sys_bind. intros [[]|e] _; (split; [exact (Hfree (Ok tt))|]); [left|by right]. split; [done|]. by exists caps.
Qed.

(** Comma-separated records become lines. *)
Lemma newlines_join ws :
  Forall (fun w => ","%char ∉ w) ws -> newlines (join "," ws) = join NL ws.
Proof.
  intros H. unfold newlines. assert (forall w, ","%char ∉ w -> map (fun c => if Ascii.eqb c "," then NL else c) w = w) as Hid.
  { intros w. induction w as [|c w IH]; intros Hw; [done|]. apply not_elem_of_cons in Hw as [Hc Hw]. cbn.
    rewrite IH by done. by destruct (Ascii.eqb_spec c ","). }
  induction H as [|w ws Hw Hws IH]; [done|]. destruct ws as [|w' ws]; [by apply Hid|].
  cbn [join] in *. rewrite map_app, Hid by done. cbn [map Ascii.eqb]. by rewrite IH.
Qed.
End Functions.

(** ** The order of the parent *)

Definition map_file (pid : Z) (name : list ascii) : list ascii := snprintf PATH_MAX ($"/proc/" ++ dec pid ++ $"/" ++ name).

Definition uid_text (o : options) (h : history) (t : list ascii) : Prop :=
  if create_root_mappings o
  then exists uid, Ev Getuid uid ∈ h /\ t = snprintf MAP_BUF_SIZE ($"0 " ++ dec uid ++ $" 1")
  else t = default [] (uid_map o).

Definition gid_text (o : options) (h : history) (t : list ascii) : Prop :=
  if create_root_mappings o
  then exists gid, Ev Getgid gid ∈ h /\ t = snprintf MAP_BUF_SIZE ($"0 " ++ dec gid ++ $" 1")
  else t = default [] (gid_map o).

(** setgroups() is denied, or the file that controls it does not exist. *)
Definition denied (pid : Z) (h : history) : Prop :=
  (exists a b fd n, h = a ++ Ev (Write fd ($"deny")) (Ok n) :: Ev (Open (map_file pid ($"setgroups")) O_RDWR 0) (Ok fd) :: b) \/
  (exists a b, h = a ++ Ev (Open (map_file pid ($"setgroups")) O_RDWR 0) (Err ENOENT) :: b).

Definition uid_done (o : options) (pid : Z) (h : history) : Prop :=
  is_some (uid_map o) || create_root_mappings o = true ->
  exists t, uid_text o h t /\ wrote h (map_file pid ($"uid_map")) (newlines t).

Definition gid_done (o : options) (pid : Z) (h : history) : Prop :=
  is_some (gid_map o) || create_root_mappings o = true ->
  exists t a b fd, gid_text o h t /\
    h = a ++ Ev (Write fd (newlines t)) (Ok (strlen (newlines t))) :: Ev (Open (map_file pid ($"gid_map")) O_RDWR 0) (Ok fd) :: b /\
    (deny_setgroups o = true -> denied pid b).

Definition maps_written (o : options) (pid : Z) (h : history) : Prop := uid_done o pid h /\ gid_done o pid h.

Lemma uid_done_more o pid h k : uid_done o pid h -> uid_done o pid (k ++ h).
Proof.
  intros H Ha. destruct (H Ha) as (t & Ht & Hw). exists t. split; [|by apply wrote_more].
  unfold uid_text in *. destruct (create_root_mappings o); [|done]. destruct Ht as (uid & Hin & ->).
  exists uid. split; [|done]. apply elem_of_app. by right.
Qed.

Lemma denied_more pid h k : denied pid h -> denied pid (k ++ h).
Proof.
  intros [(a & b & fd & n & ->)|(a & b & ->)]; [left|right].
  - exists (k ++ a), b, fd, n. by rewrite app_assoc.
  - exists (k ++ a), b. by rewrite app_assoc.
Qed.

Lemma gid_done_more o pid h k : gid_done o pid h -> gid_done o pid (k ++ h).
Proof.
  intros H Ha. destruct (H Ha) as (t & a & b & fd & Ht & -> & Hd). exists t, (k ++ a), b, fd.
  split_and!; [|by rewrite app_assoc|done].
  unfold gid_text in *. destruct (create_root_mappings o); [|done]. destruct Ht as (gid & Hin & ->).
  exists gid. split; [|done]. apply elem_of_app. by right.
Qed.

Section Parent.
Context {T : ErrText} (fds : Z * Z).

Lemma with_pipe_posix h X (c : call X) r : with_pipe fds h X c r -> posix h X c r.
Proof. by intros []. Qed.

Lemma has_closed_app k h fd : has_closed (k ++ h) fd <-> has_closed k fd \/ has_closed h fd.
Proof. induction k as [|[X c r] k IH]; cbn; [tauto|]. rewrite IH. tauto. Qed.

(** update_map as the parent uses it. *)
Lemma wp_parent_map mapping path msg (Q : outcome unit -> history -> Prop) h :
  ~ has_closed h (snd fds) ->
  (forall h', ~ has_closed h' (snd fds) -> Q (Stop (Exit EXIT_FAILURE)) h') ->
  (forall fd r,
     let h' := Ev (Close fd) r :: Ev (Write fd (newlines mapping)) (Ok (strlen (newlines mapping)))
                :: Ev (Open path O_RDWR 0) (Ok fd) :: h in
     ~ has_closed h' (snd fds) -> Q (Done tt) h') ->
  wp (with_pipe fds) ('(status, errno) <- update_map 0 mapping path ;;
    if status =? -1 then perrorExit errno msg else Ret tt) Q h.
Proof.
  intros Hh Hf Hok.
  assert (forall fd, with_pipe fds h _ (Open path O_RDWR 0) (Ok fd) -> fd <> snd fds) as Hfd.
  { intros fd [_ Hfd] ->. by apply Hh, Hfd. }
  apply wp_bind, wp_update_map; [apply with_pipe_posix|..].
  - intros e t _ [] _. apply Hf. cbn. tauto.
  - intros fd e r Hr%Hfd. apply Hok. cbn. tauto.
  - intros fd e t r w Hr%Hfd _ [] _. apply Hf. cbn. tauto.
Qed.

Lemma wp_write_uid_map o pid (Q : outcome unit -> history -> Prop) h :
  ~ has_closed h (snd fds) ->
  (forall h', ~ has_closed h' (snd fds) -> Q (Stop (Exit EXIT_FAILURE)) h') ->
  (forall h', ~ has_closed h' (snd fds) -> uid_done o pid h' -> Q (Done tt) h') ->
  wp (with_pipe fds) (write_uid_map o pid) Q h.
Proof.
  intros Hh Hf Hok. unfold write_uid_map.
  destruct (is_some (uid_map o) || create_root_mappings o) eqn:Ha; [|apply Hok; [done|]; unfold uid_done; by rewrite Ha].
  destruct (create_root_mappings o) eqn:Hr.
  - apply wp_bind, wp_sys_bind. intros uid _. apply wp_parent_map; [cbn; tauto|done|].
    intros fd r h' Hc. apply Hok; [done|]. intros _. eexists. split; [|by eexists [_], _, fd].
    unfold uid_text. rewrite Hr. exists uid. split; [|done]. do 3 right. by left.
  - apply wp_parent_map; [done..|]. intros fd r h' Hc. apply Hok; [done|]. intros _.
    eexists. split; [|by eexists [_], _, fd]. unfold uid_text. by rewrite Hr.
Qed.
(** The part of the parent that denies setgroups(). *)
Lemma wp_deny o pid (Q : outcome unit -> history -> Prop) h :
  ~ has_closed h (snd fds) ->
  (forall h', ~ has_closed h' (snd fds) -> Q (Stop (Exit EXIT_FAILURE)) h') ->
  (forall k, ~ has_closed (k ++ h) (snd fds) -> (deny_setgroups o = true -> denied pid (k ++ h)) -> Q (Done tt) (k ++ h)) ->
  wp (with_pipe fds) (if deny_setgroups o then
       '(status, errno) <- proc_setgroups_write pid ($"deny") ;;
       if status =? -1 then perrorExit errno ($"proc_setgroups_write") else Ret tt
     else Ret tt) Q h.
Proof.
  intros Hh Hf Hok. destruct (deny_setgroups o); [|by apply (Hok [])].
  apply wp_bind, wp_sys_bind. intros [fd|e] [_ Hfd].
  - assert (fd <> snd fds) as Hne by (intros ->; by apply Hh, Hfd). apply wp_sys_bind. intros [n|e] _.
    + intros r _. apply (Hok [_; _; _]); [cbn; tauto|]. intros _. left. eexists [_], _, fd, n. done.
    + intros [] _ r _ [] _. apply Hf. cbn. tauto.
  - destruct (Z.eqb_spec e ENOENT) as [->|].
    + apply (Hok [_]); [cbn; tauto|]. intros _. right. by eexists [], _.
    + intros [] _ [] _. apply Hf. cbn. tauto.
Qed.

Lemma wp_write_gid_map o pid (Q : outcome unit -> history -> Prop) h :
  ~ has_closed h (snd fds) -> uid_done o pid h ->
  (forall h', ~ has_closed h' (snd fds) -> Q (Stop (Exit EXIT_FAILURE)) h') ->
  (forall h', ~ has_closed h' (snd fds) -> maps_written o pid h' -> Q (Done tt) h') ->
  wp (with_pipe fds) (write_gid_map o pid) Q h.
Proof.
  intros Hh Hu Hf Hok. unfold write_gid_map.
  destruct (is_some (gid_map o) || create_root_mappings o) eqn:Ha.
  2: { apply Hok; [done|]. split; [done|]. unfold gid_done. by rewrite Ha. }
  apply wp_bind, wp_deny; [done..|]. intros k Hk Hden.
  destruct (create_root_mappings o) eqn:Hr.
  - apply wp_bind, wp_sys_bind. intros gid _. apply wp_parent_map; [cbn; tauto|done|].
    intros fd r h' Hc. apply Hok; [done|]. split; [apply (uid_done_more _ _ _ (_ :: _ :: _ :: _ :: k)); done|].
    intros _. eexists _, [_], _, fd. split_and!; [|done|intros H; by apply (denied_more _ _ [_]), Hden].
    unfold gid_text. rewrite Hr. exists gid. split; [|done]. do 3 right. by left.
  - apply wp_parent_map; [done..|]. intros fd r h' Hc. apply Hok; [done|].
    split; [apply (uid_done_more _ _ _ (_ :: _ :: _ :: k)); done|].
    intros _. eexists _, [_], _, fd. split_and!; [|done|done]. unfold gid_text. by rewrite Hr.
Qed.

(** The write end is closed only after the maps are written. *)
Fixpoint ordered (o : options) (pid : Z) (h : history) : Prop :=
  match h with
  | [] => True
  | Ev c _ :: h' => match c with Close f => f = snd fds -> maps_written o pid h' | _ => True end /\ ordered o pid h'
  end.

Lemma ordered_open o pid h : ~ has_closed h (snd fds) -> ordered o pid h.
Proof. induction h as [|[X c r] h IH]; cbn; [done|]. intros H. split; [destruct c; tauto|]. apply IH. tauto. Qed.

Lemma ordered_closed o pid h : ordered o pid h -> has_closed h (snd fds) -> maps_written o pid h.
Proof.
  induction h as [|[X c r] h IH]; cbn; [done|]. intros [H1 H2] Hc.
  enough (maps_written o pid h) as [Hu Hg] by (split; [by apply (uid_done_more _ _ _ [_])|by apply (gid_done_more _ _ _ [_])]).
  destruct Hc as [Hc|Hc]; [|by apply IH]. destruct c; try done. by apply H1.
Qed.

Definition parent_post (o : options) (pid : Z) (out : outcome unit) (h : history) : Prop :=
  ordered o pid h /\
  (out = Stop (Exit EXIT_SUCCESS) /\ has_closed h (snd fds) \/ out = Stop (Exit EXIT_FAILURE)).

Lemma wp_parent_side o pname pid : wp (with_pipe fds) (parent o pname fds pid) (parent_post o pid) [].
Proof.
  assert (forall h, ~ has_closed h (snd fds) -> parent_post o pid (Stop (Exit EXIT_FAILURE)) h) as Hf.
  { intros h Hh. split; [by apply ordered_open|by right]. }
  unfold parent. apply wp_bind.
  eapply (wp_mono _ _ (fun out h => out = Done tt /\ ~ has_closed h (snd fds))).
  2: { destruct (verbose o); [intros [] _|]; split; try done; cbn; tauto. }
  intros out h [-> Hh]. apply wp_bind, wp_write_uid_map; [done..|]. clear h Hh. intros h Hh Hu.
  apply wp_bind, wp_write_gid_map; [done..|]. clear h Hh Hu. intros h Hh Hm r _.
  assert (forall k, ~ has_closed k (snd fds) -> ordered o pid (k ++ Ev (Close (snd fds)) r :: h)) as Hord.
  { intros k. induction k as [|[X c r'] k IH]; cbn; [|intros Hk; split; [destruct c; tauto|apply IH; tauto]].
    intros _. split; [done|]. by apply ordered_open. }
  intros [w|e] _.
  - assert (forall k, ~ has_closed k (snd fds) -> parent_post o pid (Stop (Exit EXIT_SUCCESS))
      (k ++ Ev (Waitpid pid 0) (Ok w) :: Ev (Close (snd fds)) r :: h)) as Hend.
    { intros k Hk. split.
      - change (k ++ ?a :: ?b :: h) with (k ++ [a] ++ b :: h). rewrite app_assoc. apply Hord.
        rewrite has_closed_app. cbn. tauto.
      - left. split; [done|]. rewrite has_closed_app. cbn. tauto. }
    destruct (verbose o); [intros [] _; apply (Hend [_]); cbn; tauto|apply (Hend []); cbn; tauto].
  - intros [] _. split; [|by right]. apply (Hord [_; _]). cbn. tauto.
Qed.
(** ** The child *)

Fixpoint passed (h : history) : Prop :=
  match h with [] => False | Ev c r :: h' => at_eof fds c r \/ passed h' end.

Lemma passed_more k h : passed h -> passed (k ++ h).
Proof. intros H. induction k as [|[X c r] k IH]; [done|]. by right. Qed.

Definition stays {A} (out : outcome A) : Prop := match out with Stop (Execed _ _) => False | _ => True end.

Lemma stops_stays {A} (out : outcome A) : stops_failing out -> stays out.
Proof. by intros [->|[->| ->]]. Qed.

Lemma wp_stays {A B} E (p : prog A) (f : A -> prog B) (Q : outcome B -> history -> Prop) h :
  (forall h, wp E p (fun out _ => stays out) h) -> (forall s h', stays (Stop (A:=B) s) -> Q (Stop s) h') ->
  (forall a h', wp E (f a) Q h') -> wp E (bind p f) Q h.
Proof.
  intros Hp Hs Hf. eapply wp_call; [apply Hp|by intros a h' _; apply Hf|]. intros s h' H. apply Hs. exact H.
Qed.

Lemma display_stays E str h : wp E (display_creds_and_caps str) (fun out _ => stays out) h.
Proof.
  unfold display_creds_and_caps. intros u _ g _ [] _.
  intros [caps|e] _; [|apply wp_errExit; intros; by apply stops_stays].
  intros [t|e] _; [by intros [] _ r _ r' _|apply wp_errExit; intros; by apply stops_stays].
Qed.

Lemma raise_stays E n cap cnt h : wp E (raiseLoop n cap cnt) (fun out _ => stays out) h.
Proof.
  revert cap cnt h. induction n as [|n IH]; intros cap cnt h; [done|]. cbn [raiseLoop].
  apply wp_stays; [|by destruct s|intros a h' r _; apply IH].
  clear h. intros h. unfold modifyCapSetting. intros [caps|e] _; [|done].
  intros [[]|e] _; [|by intros r _]. intros [[]|e] _; [|by intros r _]. by intros [[]|e] _.
Qed.

Definition runs_command (argv : list (list ascii)) (out : outcome unit) (_ : history) : Prop :=
  match out with Stop (Execed f a) => f = nth 0 argv [] /\ a = argv | _ => True end.

Lemma child_runs E o argv h : wp E (childFunc o argv fds) (runs_command argv) h.
Proof.
  assert (forall s h', stays (Stop (A:=unit) s) -> runs_command argv (Stop s) h') as Hs by (by intros []).
  unfold childFunc. intros r1 _ [[|c d]|e] _; [|by intros [] _..]. intros r2 _. apply wp_bind. cbn [wp].
  apply wp_stays; [|done|].
  { intros h'. case_match; [|done]. intros [|e] _; [done|by intros [] _]. }
  intros _ h1. apply wp_stays; [|done|].
  { intros h'. case_match; [|done]. intros [|e] _; [|by intros [] _]. case_match; [apply display_stays|done]. }
  intros _ h2. apply wp_stays; [|done|].
  { intros h'. case_match; [|done]. apply wp_stays; [apply raise_stays|by destruct s|done]. }
  intros _ h3. apply wp_stays; [|done|].
  { intros h'. case_match; [by intros [] _|done]. }
  intros _ h4 [e|] _; [by intros [] _|done].
Qed.

Definition child_post (argv : list (list ascii)) (out : outcome unit) (h : history) : Prop :=
  match out with Stop (Execed f a) => passed h /\ f = nth 0 argv [] /\ a = argv | _ => True end.

Lemma wp_childFunc E o argv : wp E (childFunc o argv fds) (child_post argv) [].
Proof.
  eapply (wp_mono _ _ (fun out h => runs_command argv out h /\ (stays out \/ passed h))).
  { intros [a|[]] h [Hr [Hs|Hp]]; try done. }
  apply wp_conj; [apply child_runs|]. unfold childFunc. intros r1 _ [[|c d]|e] _; [|by intros [] _; left..].
  eapply wp_mono; [|apply wp_extends]. intros out h [k ->]. right. apply passed_more. by left.
Qed.

(** ** The two together *)

Lemma ordered_suffix o pid k h : ordered o pid (k ++ h) -> ordered o pid h.
Proof. induction k as [|[X c r] k IH]; [done|]. intros [_ H]. by apply IH. Qed.

Lemma with_pipe_inhabited h X (c : call X) : with_pipe fds h X c (failing_kernel h X c).
Proof. split; [apply posix_inhabited|]. by destruct c. Qed.

Lemma ordered_now o pid p h : wp (with_pipe fds) p (parent_post o pid) h -> ordered o pid h.
Proof.
  intros H. pose proof (wp_run _ failing_kernel p _ h with_pipe_inhabited H) as [Ho _].
  destruct (wp_run _ failing_kernel p _ h with_pipe_inhabited (wp_extends (with_pipe fds) p h)) as [k Hk].
  rewrite Hk in Ho. by eapply ordered_suffix.
Qed.

Definition inv (o : options) (pid : Z) (argv : list (list ascii)) (s : config) : Prop :=
  wp (with_pipe fds) (parent_prog s) (parent_post o pid) (parent_hist s) /\
  wp posix (child_prog s) (child_post argv) (child_hist s) /\
  (passed (child_hist s) -> has_closed (parent_hist s) (snd fds) \/ ended (parent_prog s)).

Lemma us_inv_step o pid argv s s' : inv o pid argv s -> step fds s s' -> inv o pid argv s'.
Proof.
  intros (Hp & Hc & Hpass) Hstep. destruct Hstep as [X c k r ph cp ch Hr|X c k r pp ph ch Hr Heof]; cbn in *.
  - split_and!; [by apply Hp|done|]. intros H. left. right. by destruct (Hpass H).
  - split_and!; [done|by apply Hc|]. intros [H|H]; [|by apply Hpass]. apply (Heof H).
Qed.

Lemma us_inv_reach o pid argv s s' : inv o pid argv s -> reach fds s s' -> inv o pid argv s'.
Proof. intros H Hr. induction Hr; [done|]. by eapply us_inv_step. Qed.

Lemma inv_exec o pid argv s f a :
  inv o pid argv s -> child_prog s = Halt (Execed f a) ->
  f = nth 0 argv [] /\ a = argv /\
  (maps_written o pid (parent_hist s) \/ parent_prog s = Halt (Exit EXIT_FAILURE)).
Proof.
  intros (Hp & Hc & Hpass) Hx. rewrite Hx in Hc. destruct Hc as (Hr & -> & ->). split_and!; [done..|].
  pose proof (ordered_now _ _ _ _ Hp) as Hord.
  destruct (Hpass Hr) as [Hcl|Hend]; [left; by apply ordered_closed|].
  destruct (parent_prog s) as [x|x|]; [|..]; [|destruct Hp as [_ [[Hx' Hcl]|Hx']]|done].
  - by destruct Hp as [_ [[]|]].
  - left. by apply ordered_closed.
  - right. congruence.
Qed.
(** ** Runs *)

Lemma reach_cons s s1 s2 : step fds s s1 -> reach fds s1 s2 -> reach fds s s2.
Proof. intros H Hr. induction Hr; eapply reach_step; [apply reach_refl|done..]. Qed.

Lemma reach_trans s s1 s2 : reach fds s s1 -> reach fds s1 s2 -> reach fds s s2.
Proof. intros H Hr. induction Hr; [done|]. by eapply reach_step. Qed.

Lemma reach_parent K p ph cp ch s h' :
  (forall h X (c : call X), with_pipe fds h X c (K h X c)) -> run K p ph = (Stop s, h') ->
  reach fds (Config p ph cp ch) (Config (Halt s) h' cp ch).
Proof.
  intros HK. revert ph. induction p as [a|x|X c k IH]; intros ph Hr; cbn in Hr; simplify_eq; [apply reach_refl|].
  eapply reach_cons; [apply step_parent, HK|]. by apply IH.
Qed.

Lemma reach_child K p pp ph ch s h' :
  (forall h X (c : call X), posix h X c (K h X c)) -> ended pp -> has_closed ch (snd fds) -> run K p ch = (Stop s, h') ->
  reach fds (Config pp ph p ch) (Config pp ph (Halt s) h').
Proof.
  intros HK Hend. revert ch. induction p as [a|x|X c k IH]; intros ch Hc Hr; cbn in Hr; simplify_eq; [apply reach_refl|].
  eapply reach_cons; [apply step_child; [apply HK|]|].
  - intros _. split; [by right|done].
  - apply IH; [by right|done].
Qed.
End Parent.

(** A kernel under which the command is executed as soon as the pipe is at its
    end. *)
Definition child_kernel : kernel := fun h X c =>
  match c in call X return X with
  | Read _ n => if 0 <=? n then Ok [] else Err EIO
  | Execvp _ _ => None
  | c => failing_kernel h _ c
  end.

Lemma child_kernel_posix h X (c : call X) : posix h X c (child_kernel h X c).
Proof. destruct c; try apply posix_inhabited; [|done]. cbn. zcase; cbn; [lia|done]. Qed.

(** -U -r *)
Definition root_options : options := Options CLONE_NEWUSER false 0 (-1) false None None true true.

Lemma not_full_wrote h path text : Forall (fun e => ~ full_write text e) h -> ~ wrote h path text.
Proof.
  intros H (a & b & fd & ->). apply Forall_app in H as [_ H]. apply Forall_cons in H as [H _]. by apply H.
Qed.

(** The parent cannot open the map file and exits. *)
Lemma exec_without_maps {T : ErrText} fds pname pid argv :
  exists s, reach fds (Config (parent root_options pname fds pid) [] (childFunc root_options argv fds) []) s /\
    child_prog s = Halt (Execed (nth 0 argv []) argv) /\ parent_prog s = Halt (Exit EXIT_FAILURE) /\
    ~ uid_done root_options pid (parent_hist s).
Proof.
  destruct (run failing_kernel (parent root_options pname fds pid) []) as [op hp] eqn:Hp.
  destruct (run child_kernel (childFunc root_options argv fds) []) as [oc hc] eqn:Hc.
  exists (Config (Halt (Exit EXIT_FAILURE)) hp (Halt (Execed (nth 0 argv []) argv)) hc).
  cbn in Hp, Hc. injection Hp as <- <-. injection Hc as <- <-.
  split_and!; [|done..|].
  - eapply reach_trans; [eapply (reach_parent fds failing_kernel); [apply with_pipe_inhabited|reflexivity]|].
    eapply reach_cons.
    { apply (step_child fds _ (Close (snd fds)) _ (Err EIO)); [done|by intros []]. }
    eapply (reach_child fds child_kernel); [apply child_kernel_posix|done|by left|reflexivity].
  - intros H. destruct H as (t & _ & Hw); [done|]. eapply not_full_wrote; [|exact Hw].
    repeat constructor; by intros [].
Qed.

(** ** Properties *)

(** The mappings come first.  However the two processes interleave, when the
    child has executed the command (which is the one of the command line) the
    parent has written in full the user and group maps that were asked for, the
    latter after denying setgroups() unless -D was given, or the parent has
    failed and exited.  The last case does occur: its exit closes the pipe, and
    the child then executes the command in a user namespace without mappings. *)
Lemma userns_maps_first {T : ErrText} fds o pname pid argv :
  (forall s f a,
     reach fds (Config (parent o pname fds pid) [] (childFunc o argv fds) []) s ->
     child_prog s = Halt (Execed f a) ->
     f = nth 0 argv [] /\ a = argv /\
     (maps_written o pid (parent_hist s) \/ parent_prog s = Halt (Exit EXIT_FAILURE))) /\
  (exists s,
     reach fds (Config (parent root_options pname fds pid) [] (childFunc root_options argv fds) []) s /\
     child_prog s = Halt (Execed (nth 0 argv []) argv) /\ parent_prog s = Halt (Exit EXIT_FAILURE) /\
     ~ uid_done root_options pid (parent_hist s)).
Proof.
  split; [|apply exec_without_maps]. intros s f a Hr Hx. eapply (inv_exec fds); [|done].
  eapply us_inv_reach; [|exact Hr]. split_and!; [apply wp_parent_side|apply wp_childFunc|by intros []].
Qed.


(** The functions that change files and capabilities keep their promises.
    [update_map] writes the mapping with its comma-separated records as lines;
    it returns 0 exactly if the whole text was written at once, -1 otherwise,
    and leaves no descriptor open.  [proc_setgroups_write] returns 0 if the
    write was accepted or the file does not exist and -1, with a message,
    otherwise.  [modifyCapSetting] frees the capability state on every path and
    returns 0 only after the changed state was put in force. *)
Lemma userns_functions_correct {T : ErrText} errno mapping path pid str fl capability setting h :
  wp posix (update_map errno mapping path) (fun o h' =>
    exists st e k, o = Done (st, e) /\ h' = k ++ h /\ open_fds h' = open_fds h /\
      (st = 0 /\ wrote h' path (newlines mapping) \/
       st = -1 /\ Forall (fun e => ~ full_write (newlines mapping) e) k)) h /\
  (forall ws, Forall (fun w => ","%char ∉ w) ws -> newlines (join "," ws) = join NL ws) /\
  wp posix (proc_setgroups_write pid str) (fun o h' =>
    let sg := snprintf PATH_MAX ($"/proc/" ++ dec pid ++ $"/setgroups") in
    exists st e, o = Done (st, e) /\ open_fds h' = open_fds h /\
      (st = 0 /\ (h' = Ev (Open sg O_RDWR 0) (Err ENOENT) :: h \/
                  exists fd n r, h' = Ev (Close fd) r :: Ev (Write fd str) (Ok n) :: Ev (Open sg O_RDWR 0) (Ok fd) :: h) \/
       st = -1 /\ exists t, Ev (Out Stderr t) tt ∈ h')) h /\
  wp posix (modifyCapSetting fl capability setting) (fun o h' =>
    caps_held h' = caps_held h /\
    (o = Done 0 /\ (exists caps, h' = Ev (Cap_free (inl caps)) (Ok tt) :: Ev (Cap_set_proc caps) (Ok tt)
                      :: Ev (Cap_set_flag caps fl capability setting) (Ok tt) :: Ev Cap_get_proc (Ok caps) :: h) \/
     o = Done (-1))) h.
Proof.
  split_and!; [apply update_map_spec|apply newlines_join|apply proc_setgroups_write_spec|apply modifyCapSetting_spec].
Qed.

(** C15: The user namespace programs.  The mappings come first: however the two
    processes interleave, when the child has executed the command (which is the
    one of the command line) the parent has written in full the user and group
    maps that were asked for, the latter after denying setgroups() unless -D was
    given, or the parent has failed and exited.  The last case does occur: its
    exit closes the pipe, and the child then executes the command in a user
    namespace without mappings.  The functions keep their promises: [update_map]
    writes the mapping with its comma-separated records as lines, returns 0
    exactly if the whole text was written at once and -1 otherwise, and leaves no
    descriptor open; [proc_setgroups_write] returns 0 if the write was accepted or
    the file does not exist and -1, with a message, otherwise;
    [modifyCapSetting] frees the capability state on every path and returns 0
    only after the changed state was put in force. *)
Theorem userns_correct :
  (forall (T : ErrText) fds o pname pid argv,
   (forall s f a,
       reach fds (Config (parent o pname fds pid) [] (childFunc o argv fds) []) s ->
       child_prog s = Halt (Execed f a) ->
       f = nth 0 argv [] /\ a = argv /\
       (maps_written o pid (parent_hist s) \/ parent_prog s = Halt (Exit EXIT_FAILURE))) /\
    (exists s,
       reach fds (Config (parent root_options pname fds pid) [] (childFunc root_options argv fds) []) s /\
       child_prog s = Halt (Execed (nth 0 argv []) argv) /\ parent_prog s = Halt (Exit EXIT_FAILURE) /\
       ~ uid_done root_options pid (parent_hist s))) /\
  (forall (T : ErrText) errno mapping path pid str fl capability setting h,
   wp posix (update_map errno mapping path) (fun o h' =>
      exists st e k, o = Done (st, e) /\ h' = k ++ h /\ open_fds h' = open_fds h /\
        (st = 0 /\ wrote h' path (newlines mapping) \/
         st = -1 /\ Forall (fun e => ~ full_write (newlines mapping) e) k)) h /\
    (forall ws, Forall (fun w => ","%char ∉ w) ws -> newlines (join "," ws) = join NL ws) /\
    wp posix (proc_setgroups_write pid str) (fun o h' =>
      let sg := snprintf PATH_MAX ($"/proc/" ++ dec pid ++ $"/setgroups") in
      exists st e, o = Done (st, e) /\ open_fds h' = open_fds h /\
        (st = 0 /\ (h' = Ev (Open sg O_RDWR 0) (Err ENOENT) :: h \/
                    exists fd n r, h' = Ev (Close fd) r :: Ev (Write fd str) (Ok n) :: Ev (Open sg O_RDWR 0) (Ok fd) :: h) \/
         st = -1 /\ exists t, Ev (Out Stderr t) tt ∈ h')) h /\
    wp posix (modifyCapSetting fl capability setting) (fun o h' =>
      caps_held h' = caps_held h /\
      (o = Done 0 /\ (exists caps, h' = Ev (Cap_free (inl caps)) (Ok tt) :: Ev (Cap_set_proc caps) (Ok tt)
                        :: Ev (Cap_set_flag caps fl capability setting) (Ok tt) :: Ev Cap_get_proc (Ok caps) :: h) \/
       o = Done (-1))) h).
Proof. split; [exact @userns_maps_first|exact @userns_functions_correct]. Qed.

Lemma userns_correct_witness :
  exists s, reach (3, 4) (Config (parent (T:=demo_text) root_options ($"p") (3, 4) 7) []
                                 (childFunc (T:=demo_text) root_options [$"sh"] (3, 4)) []) s /\
    child_prog s = Halt (Execed ($"sh") [$"sh"]) /\
    (maps_written root_options 7 (parent_hist s) \/ parent_prog s = Halt (Exit EXIT_FAILURE)).
Proof.
  destruct (proj1 userns_correct demo_text (3, 4) root_options ($"p") 7 [$"sh"]) as [H1 (s & Hr & Hx & _)].
  exists s. split; [exact Hr|]. split; [exact Hx|]. apply (H1 s _ _ Hr Hx).
Defined.
