(* ===== verification/Daemon.v ===== *)
(** * daemons/become_daemon.c: becoming a daemon

    [becomeDaemon] is run by three processes in turn, the caller, its child and
    its grandchild: fork() replies 0 in the child and a process identifier in
    the parent, so a history of the function ends in one of them.  What the
    function achieves is read off the history: the session, the creation mask,
    the working directory and the table of open descriptors. *)

From S2P Require Import Prelude Sys.

Definition BD_NO_CHDIR : Z := 1.
Definition BD_NO_CLOSE_FILES : Z := 2.
Definition BD_NO_REOPEN_STD_FDS : Z := 4.
Definition BD_NO_UMASK0 : Z := 8.
Definition BD_MAX_CLOSE : Z := 8192.

Definition STDERR_FILENO : Z := 2.
Definition O_RDWR : Z := 2.

Fixpoint closeAll (n : nat) (fd : Z) : prog unit :=
  match n with
  | O => Ret tt
  | S n => sys (Close fd) ;;; closeAll n (fd + 1)
  end.

Definition forkOn {A} (k : prog A) (fail : prog A) : prog A :=
  r <- sys Fork ;;
  match r with
  | Err _ => fail
  | Ok pid => if pid =? 0 then k else Halt (Exit_ EXIT_SUCCESS)
  end.

Definition closeFiles (flags : Z) : prog unit :=
  if negb (flag flags BD_NO_CLOSE_FILES) then
    m <- sys Sysconf_open_max ;;
    let maxfd := int_of m in
    let maxfd := if maxfd =? -1 then BD_MAX_CLOSE else maxfd in
    closeAll (Z.to_nat maxfd) 0
  else Ret tt.

(** [dup2(STDIN_FILENO, fd) != fd] *)
Definition dup2Fails (r : res Z) (fd : Z) : bool :=
  match r with Ok n => negb (n =? fd) | Err _ => true end.

Definition reopenStd : prog Z :=
  sys (Close STDIN_FILENO) ;;;
  fd <- sys (Open ($"/dev/null") O_RDWR 0) ;;
  if match fd with Ok fd => negb (fd =? STDIN_FILENO) | Err _ => true end then Ret (-1)
  else
    r <- sys (Dup2 STDIN_FILENO STDOUT_FILENO) ;;
    if dup2Fails r STDOUT_FILENO then Ret (-1)
    else
      r <- sys (Dup2 STDIN_FILENO STDERR_FILENO) ;;
      if dup2Fails r STDERR_FILENO then Ret (-1) else Ret 0.

Definition becomeDaemon (flags : Z) : prog Z :=
  forkOn (
    r <- sys Setsid ;;
    match r with
    | Err _ => Ret (-1)
    | Ok _ =>
        forkOn (
          (if negb (flag flags BD_NO_UMASK0) then sys (Umask 0) else Ret tt) ;;;
          (if negb (flag flags BD_NO_CHDIR) then sys (Chdir ($"/")) ;;; Ret tt else Ret tt) ;;;
          closeFiles flags ;;;
          if negb (flag flags BD_NO_REOPEN_STD_FDS) then reopenStd else Ret 0)
        (Ret (-1))
    end) (Ret (-1)).

(** ** The state of the process *)

(** The member of a session and whether it leads it.  A new process is not a
    leader. *)
Record session := Session { is_new : bool; leader : bool }.

Definition session_step (e : event) (s : session) : session :=
  match e with
  | Ev c r =>
      match c in call X return X -> session with
      | Setsid => fun r => match r with Ok _ => Session true true | Err _ => s end
      | Fork => fun r => match r with Ok pid => if pid =? 0 then Session (is_new s) false else s | Err _ => s end
      | _ => fun _ => s
      end r
  end.

(** The open descriptors and the names of their files. *)
Definition fd_step (e : event) (t : Z -> option (list ascii)) : Z -> option (list ascii) := fun x =>
  match e with
  | Ev c r =>
      match c in call X return X -> option (list ascii) with
      | Close fd => fun _ => if x =? fd then None else t x
      | Open path _ _ => fun r => match r with Ok fd => if x =? fd then Some path else t x | Err _ => t x end
      | Posix_openpt _ => fun r => match r with Ok fd => if x =? fd then Some ($"/dev/ptmx") else t x | Err _ => t x end
      | Dup2 old new => fun r => match r with Ok fd => if x =? fd then t old else t x | Err _ => t x end
      | _ => fun _ => t x
      end r
  end.

Definition umask_step (e : event) (m : Z) : Z :=
  match e with Ev c _ => match c with Umask v => v | _ => m end end.

Definition cwd_step (e : event) (d : list ascii) : list ascii :=
  match e with
  | Ev c r =>
      match c in call X return X -> list ascii with
      | Chdir p => fun r => match r with Ok _ => p | Err _ => d end
      | _ => fun _ => d
      end r
  end.

Section State.
Context (t0 : Z -> option (list ascii)) (m0 : Z) (d0 : list ascii).

Definition session_of (h : history) : session := fold_right session_step (Session false true) h.
Definition fds_of (h : history) : Z -> option (list ascii) := fold_right fd_step t0 h.
Definition umask_of (h : history) : Z := fold_right umask_step m0 h.
Definition cwd_of (h : history) : list ascii := fold_right cwd_step d0 h.

(** open() and posix_openpt() return the lowest descriptor that is not in use
    (open(2), posix_openpt(3)). *)
Definition lowest_fd : env := fun h X c r =>
  posix h X c r /\
  match c in call X return X -> Prop with
  | Open _ _ _ | Posix_openpt _ => fun r =>
      match r with
      | Ok fd => 0 <= fd /\ fds_of h fd = None /\ forall f, 0 <= f < fd -> fds_of h f <> None
      | Err _ => True
      end
  | _ => fun _ => True
  end r.

(** How many descriptors [closeFiles] closes, from the reply of sysconf(). *)
Definition close_limit (m : Z) : Z :=
  let maxfd := int_of m in if maxfd =? -1 then BD_MAX_CLOSE else maxfd.

(** A call failed whose failure the function reports. *)
Definition reported (e : event) : Prop :=
  match e with
  | Ev c r =>
      match c in call X return X -> Prop with
      | Fork => fun r => match r with Err _ => True | Ok _ => False end
      | Setsid => fun r => match r with Err _ => True | Ok _ => False end
      | Open _ _ _ => fun r => match r with Err _ => True | Ok _ => False end
      | Dup2 _ _ => fun r => match r with Err _ => True | Ok _ => False end
      | _ => fun _ => False
      end r
  end.

(** What a daemon is. *)
Definition daemon (flags : Z) (h : history) : Prop :=
  session_of h = Session true false /\
  umask_of h = (if flag flags BD_NO_UMASK0 then m0 else 0) /\
  (flag flags BD_NO_CHDIR = true -> cwd_of h = d0) /\
  (flag flags BD_NO_CHDIR = false -> cwd_of h = $"/" \/ exists e, Ev (Chdir ($"/")) (Err e) ∈ h) /\
  (flag flags BD_NO_REOPEN_STD_FDS = false ->
     forall fd, 0 <= fd <= 2 -> fds_of h fd = Some ($"/dev/null")) /\
  (flag flags BD_NO_CLOSE_FILES = true ->
     forall fd, (fd < 0 \/ 2 < fd \/ flag flags BD_NO_REOPEN_STD_FDS = true) -> fds_of h fd = t0 fd) /\
  (flag flags BD_NO_CLOSE_FILES = false ->
     exists m, Ev Sysconf_open_max m ∈ h /\
       forall fd, 0 <= fd < close_limit m -> (2 < fd \/ flag flags BD_NO_REOPEN_STD_FDS = true) -> fds_of h fd = None).
(** ** Proofs *)

Lemma wp_closeAll E n fd (Q : outcome unit -> history -> Prop) h :
  (forall k, session_of (k ++ h) = session_of h -> umask_of (k ++ h) = umask_of h -> cwd_of (k ++ h) = cwd_of h ->
     (forall x, fds_of (k ++ h) x = if (fd <=? x) && (x <? fd + Z.of_nat n) then None else fds_of h x) ->
     Q (Done tt) (k ++ h)) ->
  wp E (closeAll n fd) Q h.
Proof.
  revert fd h. induction n as [|n IH]; intros fd h HQ; cbn [closeAll].
  - apply (HQ []); try done. intros x. rewrite (proj2 (andb_false_iff _ _)); [done|]. rewrite Z.leb_gt, Z.ltb_ge. lia.
  - intros r _. apply IH. intros k Hs Hm Hd Hf. change (k ++ ?e :: h) with (k ++ [e] ++ h). rewrite app_assoc.
    apply HQ; rewrite <- app_assoc; [done..|]. intros x. rewrite Hf. cbn.
    destruct (Z.eqb_spec x fd) as [->|Hne].
    + rewrite (proj2 (Z.leb_le fd fd)), (proj2 (Z.ltb_lt fd (fd + Z.of_nat (S n)))) by lia. cbn [andb]. by case_match.
    + replace ((fd <=? x) && (x <? fd + Z.of_nat (S n))) with ((fd + 1 <=? x) && (x <? fd + 1 + Z.of_nat n)); [done|].
      apply eq_true_iff_eq. rewrite !andb_true_iff, !Z.leb_le, !Z.ltb_lt. lia.
Qed.

(** What holds after the second fork(). *)
Definition forked (h : history) : Prop :=
  session_of h = Session true false /\ umask_of h = m0 /\ cwd_of h = d0 /\ forall x, fds_of h x = t0 x.

(** What holds before the standard descriptors are opened again. *)
Definition prepared (flags : Z) (h : history) : Prop :=
  session_of h = Session true false /\
  umask_of h = (if flag flags BD_NO_UMASK0 then m0 else 0) /\
  (flag flags BD_NO_CHDIR = true -> cwd_of h = d0) /\
  (flag flags BD_NO_CHDIR = false -> cwd_of h = $"/" \/ exists e, Ev (Chdir ($"/")) (Err e) ∈ h) /\
  (flag flags BD_NO_CLOSE_FILES = true -> forall x, fds_of h x = t0 x) /\
  (flag flags BD_NO_CLOSE_FILES = false ->
     exists m, Ev Sysconf_open_max m ∈ h /\ forall x, 0 <= x < close_limit m -> fds_of h x = None).

Lemma wp_prepare E flags (p : prog Z) (Q : outcome Z -> history -> Prop) h :
  forked h -> (forall h', prepared flags h' -> wp E p Q h') ->
  wp E ((if negb (flag flags BD_NO_UMASK0) then sys (Umask 0) else Ret tt) ;;;
        (if negb (flag flags BD_NO_CHDIR) then sys (Chdir ($"/")) ;;; Ret tt else Ret tt) ;;;
        closeFiles flags ;;; p) Q h.
Proof.
  intros (Hs & Hm & Hd & Hf) HQ. apply wp_bind.
  eapply (wp_mono _ _ (fun o h1 => o = Done tt /\ session_of h1 = Session true false /\ cwd_of h1 = d0 /\
    (forall x, fds_of h1 x = t0 x) /\ umask_of h1 = if flag flags BD_NO_UMASK0 then m0 else 0)).
  2: { destruct (flag flags BD_NO_UMASK0); [|intros [] _]; by split_and!. }
  clear h Hs Hm Hd Hf. intros o h (-> & Hs & Hd & Hf & Hm). apply wp_bind.
  eapply (wp_mono _ _ (fun o h1 => o = Done tt /\ session_of h1 = Session true false /\
    (forall x, fds_of h1 x = t0 x) /\ umask_of h1 = (if flag flags BD_NO_UMASK0 then m0 else 0) /\
    (flag flags BD_NO_CHDIR = true -> cwd_of h1 = d0) /\
    (flag flags BD_NO_CHDIR = false -> cwd_of h1 = $"/" \/ exists e, Ev (Chdir ($"/")) (Err e) ∈ h1))).
  2: { destruct (flag flags BD_NO_CHDIR); [by split_and!|]. intros r _. split_and!; try done. intros _.
       destruct r as [[]|e]; [by left|]. right. exists e. by left. }
  clear h Hs Hd Hf Hm. intros o h (-> & Hs & Hf & Hm & Hd1 & Hd2). apply wp_bind. unfold closeFiles.
  destruct (flag flags BD_NO_CLOSE_FILES) eqn:Hc; [apply HQ; unfold prepared; rewrite Hc; by split_and!|].
  apply wp_sys_bind. intros m _. apply wp_closeAll. intros k Hs' Hm' Hd' Hf'. apply HQ.
  split_and!; [by rewrite Hs'|by rewrite Hm'|by rewrite Hd'| |by rewrite Hc|].
  - intros Hcd. destruct (Hd2 Hcd) as [H|[e H]]; [left; by rewrite Hd'|]. right. exists e. apply elem_of_app. right. by right.
  - intros _. exists m. split; [apply elem_of_app; right; by left|]. intros x Hx. rewrite Hf'.
    unfold close_limit in Hx. cbn zeta in *. rewrite (proj2 (andb_true_iff _ _)); [done|].
    rewrite Z.leb_le, Z.ltb_lt. lia.
Qed.

Definition result (flags : Z) (o : outcome Z) (h : history) : Prop :=
  o = Stop (Exit_ EXIT_SUCCESS) /\ (exists pid k, 0 < pid /\ h = Ev Fork (Ok pid) :: k) \/
  o = Done (-1) /\ Exists reported h \/
  o = Done 0 /\ daemon flags h.
(** Since descriptor 0 is closed, open() returns it. *)
Lemma wp_reopenStd flags h :
  prepared flags h -> flag flags BD_NO_REOPEN_STD_FDS = false -> wp lowest_fd reopenStd (result flags) h.
Proof.
  intros (Hs & Hm & Hd1 & Hd2 & Hf1 & Hf2) Hfl. unfold reopenStd. intros c _.
  intros [fd|e] [_ Hr]; [|right; left; split; [done|by left]].
  assert (fd = 0) as ->. { destruct Hr as (H0 & _ & Hlow). destruct (Z.eq_dec fd 0); [done|]. by destruct (Hlow 0); [lia|]. }
  intros [n1|e] [Hn1 _]; [|right; left; split; [done|by left]]. cbn in Hn1. subst n1.
  intros [n2|e] [Hn2 _]; [|right; left; split; [done|by left]]. cbn in Hn2. subst n2.
  set (h' := _ :: _).
  assert (forall x, fds_of h' x = if (0 <=? x) && (x <=? 2) then Some ($"/dev/null") else fds_of h x) as Hfds.
  { intros x. unfold h', STDOUT_FILENO, STDERR_FILENO, STDIN_FILENO. cbn.
    destruct (Z.eqb_spec x 2) as [->|]; [done|]. destruct (Z.eqb_spec x 1) as [->|]; [done|].
    destruct (Z.eqb_spec x 0) as [->|]; [done|]. rewrite (proj2 (andb_false_iff _ _)); [done|]. rewrite !Z.leb_gt. lia. }
  right. right. split; [done|]. split_and!; [done..| | | |].
  - intros Hc. destruct (Hd2 Hc) as [H|[e H]]; [by left|]. right. exists e. by repeat right.
  - intros _ x Hx. rewrite Hfds, (proj2 (andb_true_iff _ _)); [done|]. rewrite !Z.leb_le. lia.
  - intros Hc x Hx. rewrite Hfds, (proj2 (andb_false_iff _ _)); [by apply Hf1|]. rewrite !Z.leb_gt. rewrite Hfl in Hx. lia.
  - intros Hc. destruct (Hf2 Hc) as (m & Hin & Hclosed). exists m. split; [by repeat right|].
    intros x Hx Hx2. rewrite Hfds, (proj2 (andb_false_iff _ _)); [by apply Hclosed|]. rewrite !Z.leb_gt. rewrite Hfl in Hx2. lia.
Qed.

Lemma wp_forkOn flags (k : prog Z) h :
  (wp lowest_fd k (result flags) (Ev Fork (Ok 0) :: h)) -> wp lowest_fd (forkOn k (Ret (-1))) (result flags) h.
Proof.
  intros Hk. unfold forkOn. apply wp_sys_bind. intros [pid|e] [Hpid _]; [|right; left; split; [done|by left]]. destruct (Z.eqb_spec pid 0) as [->|Hne]; [done|].
  left. split; [done|]. cbn in Hpid. exists pid, h. split; [lia|done].
Qed.

Lemma becomeDaemon_result flags : wp lowest_fd (becomeDaemon flags) (result flags) [].
Proof.
  unfold becomeDaemon. apply wp_forkOn. intros [sid|e] _; [|right; left; split; [done|by left]].
  apply wp_forkOn, wp_prepare; [by split_and!|]. intros h Hp.
  destruct (flag flags BD_NO_REOPEN_STD_FDS) eqn:Hr; [|by apply wp_reopenStd].
  right. right. split; [done|]. destruct Hp as (Hs & Hm & Hd1 & Hd2 & Hf1 & Hf2). split_and!; try done; [by rewrite Hr|..].
  - intros Hc x _. by apply Hf1.
  - intros Hc. destruct (Hf2 Hc) as (m & Hin & Hclosed). exists m. split; [done|]. intros x Hx _. by apply Hclosed.
Qed.
End State.

(** C30: [becomeDaemon] makes a daemon.  For every table of open descriptors,
    creation mask and working directory at the call: the caller and its child
    end by _exit(EXIT_SUCCESS); a return of -1 comes from a call that failed; and
    the process in which it returns 0 belongs to a new session that it does not
    lead, has the creation mask 0 and the root as working directory (or chdir()
    failed) unless the flags say otherwise, has no descriptor open below the
    limit of sysconf() but the standard ones, and these refer to /dev/null,
    unless the flags say otherwise, in which case the descriptors are as they
    were. *)
Theorem becomeDaemon_correct t0 m0 d0 flags :
  wp (lowest_fd t0) (becomeDaemon flags) (fun o h =>
    o = Stop (Exit_ EXIT_SUCCESS) /\ (exists pid k, 0 < pid /\ h = Ev Fork (Ok pid) :: k) \/
    o = Done (-1) /\ Exists reported h \/
    o = Done 0 /\ daemon t0 m0 d0 flags h) [].
Proof. apply becomeDaemon_result. Qed.

(** A kernel under which it succeeds: the documented behaviour can be had. *)
Definition demo_daemon_kernel : kernel := fun h X c =>
  match c in call X return X with
  | Fork => Ok 0
  | Setsid => Ok 1
  | Open _ _ _ => Ok 0
  | Dup2 _ new => Ok new
  | Sysconf_open_max => 4
  | c => failing_kernel h _ c
  end.

Example becomeDaemon_demo :
  let '(o, h) := run demo_daemon_kernel (becomeDaemon 0) [] in
  o = Done 0 /\ map (fds_of (fun _ => Some ($"tty")) h) [0; 1; 2; 3; 4] =
    [Some ($"/dev/null"); Some ($"/dev/null"); Some ($"/dev/null"); None; Some ($"tty")].
Proof. vm_compute. done. Qed.
