(* ===== verification/Tty.v ===== *)
(** * tty/tty_functions.c: cbreak and raw mode *)

From S2P Require Import Prelude Sys.

Definition ISIG : Z := 0x1.
Definition ICANON : Z := 0x2.
Definition ECHO : Z := 0x8.
Definition IEXTEN : Z := 0x8000.
Definition IGNBRK : Z := 0x1.
Definition BRKINT : Z := 0x2.
Definition PARMRK : Z := 0x8.
Definition INPCK : Z := 0x10.
Definition ISTRIP : Z := 0x20.
Definition INLCR : Z := 0x40.
Definition IGNCR : Z := 0x80.
Definition ICRNL : Z := 0x100.
Definition IXON : Z := 0x400.
Definition OPOST : Z := 0x1.
Definition VTIME : nat := 5.
Definition VMIN : nat := 6.
Definition TCSAFLUSH : Z := 2.

Infix "'|'" := Z.lor (at level 35, right associativity) : Z_scope.

(** [flags &= ~mask] on a 32-bit unsigned field. *)
Definition clear (flags mask : Z) : Z := Z.land flags (wrapu 32 (Z.lnot mask)).

Definition cbreak (t : termios) : termios :=
  {| c_lflag := Z.lor (clear (c_lflag t) (ICANON '|' ECHO)) ISIG;
     c_iflag := clear (c_iflag t) ICRNL;
     c_oflag := c_oflag t;
     c_cflag := c_cflag t;
     c_cc := <[VTIME := 0]> (<[VMIN := 1]> (c_cc t)) |}.

(** The result, and what is stored through prevTermios ([want] is whether it is
    not NULL). *)
Definition ttySetCbreak (fd : Z) (want : bool) : prog (Z * option termios) :=
  r <- sys (Tcgetattr fd) ;;
  match r with
  | Err _ => Ret (-1, None)
  | Ok t =>
      let prev := if want then Some t else None in
      r <- sys (Tcsetattr fd TCSAFLUSH (cbreak t)) ;;
      match r with Err _ => Ret (-1, prev) | Ok _ => Ret (0, prev) end
  end.

Definition raw (t : termios) : termios :=
  {| c_lflag := clear (c_lflag t) (ICANON '|' ISIG '|' IEXTEN '|' ECHO);
     c_iflag := clear (c_iflag t) (BRKINT '|' ICRNL '|' IGNBRK '|' IGNCR '|' INLCR '|' INPCK '|' ISTRIP '|' IXON '|' PARMRK);
     c_oflag := clear (c_oflag t) OPOST;
     c_cflag := c_cflag t;
     c_cc := <[VTIME := 0]> (<[VMIN := 1]> (c_cc t)) |}.

Definition ttySetRaw (fd : Z) (want : bool) : prog (Z * option termios) :=
  r <- sys (Tcgetattr fd) ;;
  match r with
  | Err _ => Ret (-1, None)
  | Ok t =>
      let prev := if want then Some t else None in
      r <- sys (Tcsetattr fd TCSAFLUSH (raw t)) ;;
      match r with Err _ => Ret (-1, prev) | Ok _ => Ret (0, prev) end
  end.

(** ** Flag by flag *)

Lemma clear_testbit flags mask i :
  0 <= i < 32 -> Z.testbit (clear flags mask) i = Z.testbit flags i && negb (Z.testbit mask i).
Proof.
  intros Hi. unfold clear, wrapu. rewrite Z.land_spec, Z.mod_pow2_bits_low, Z.lnot_spec by lia. done.
Qed.

(** The bits of a mask, by their positions. *)
Lemma mask_bits M L :
  forallb (fun n => Bool.eqb (Z.testbit M (Z.of_nat n)) (existsb (Z.eqb (Z.of_nat n)) L)) (seq 0 32) = true ->
  forall i, 0 <= i < 32 -> Z.testbit M i = existsb (Z.eqb i) L.
Proof.
  intros H i Hi. rewrite forallb_forall in H. specialize (H (Z.to_nat i)).
  rewrite Z2Nat.id in H by lia. apply Bool.eqb_prop, H, in_seq. lia.
Qed.

Lemma clear_bits flags mask L i :
  forallb (fun n => Bool.eqb (Z.testbit mask (Z.of_nat n)) (existsb (Z.eqb (Z.of_nat n)) L)) (seq 0 32) = true ->
  0 <= i < 32 -> Z.testbit (clear flags mask) i = Z.testbit flags i && negb (existsb (Z.eqb i) L).
Proof. intros HL Hi. by rewrite clear_testbit, (mask_bits _ _ HL). Qed.

Lemma clear_high flags mask i : 32 <= i -> Z.testbit (clear flags mask) i = false.
Proof.
  intros Hi. unfold clear, wrapu. rewrite Z.land_spec, Z.mod_pow2_bits_high by lia. apply andb_false_r.
Qed.

(** Clearing more flags absorbs clearing fewer, and setting one of them. *)
Lemma clear_absorb flags a b s :
  (forall i, 0 <= i < 32 -> Z.testbit a i = true \/ Z.testbit s i = true -> Z.testbit b i = true) ->
  clear (Z.lor (clear flags a) s) b = clear flags b.
Proof.
  intros H. apply Z.bits_inj'. intros i Hi. destruct (Z.ltb_spec i 32); [|by rewrite !clear_high by lia].
  rewrite !clear_testbit, Z.lor_spec, clear_testbit by lia. specialize (H i).
  destruct (Z.testbit b i); [by rewrite !andb_false_r|].
  destruct (Z.testbit a i); [by specialize (H ltac:(lia) (or_introl eq_refl))|].
  destruct (Z.testbit s i); [by specialize (H ltac:(lia) (or_intror eq_refl))|].
  by rewrite !andb_true_r, orb_false_r.
Qed.

Lemma modes_cc (cc : list Z) :
  <[VTIME := 0]> (<[VMIN := 1]> (<[VTIME := 0]> (<[VMIN := 1]> cc))) = <[VTIME := 0]> (<[VMIN := 1]> cc).
Proof.
  rewrite (list_insert_insert_ne _ VMIN VTIME) by done. by rewrite !list_insert_insert_eq.
Qed.

(** What a mode function does to the terminal, whichever mode [f] sets. *)
Definition sets_mode (f : termios -> termios) (fd : Z) (want : bool) (h : history)
    (o : outcome (Z * option termios)) (h' : history) : Prop :=
  (exists e, o = Done (-1, None) /\ h' = Ev (Tcgetattr fd) (Err e) :: h) \/
  (exists t r, h' = Ev (Tcsetattr fd TCSAFLUSH (f t)) r :: Ev (Tcgetattr fd) (Ok t) :: h /\
     o = Done (match r with Ok _ => 0 | Err _ => -1 end, if want then Some t else None)).

Lemma wp_set_mode (f : termios -> termios) fd (want : bool) h :
  wp (A:=Z * option termios) posix (
    r <- sys (Tcgetattr fd) ;;
    match r with
    | Err _ => Ret (-1, None)
    | Ok t =>
        let prev := if want then Some t else None in
        r <- sys (Tcsetattr fd TCSAFLUSH (f t)) ;;
        match r with Err _ => Ret (-1, prev) | Ok _ => Ret (0, prev) end
    end) (sets_mode f fd want h) h.
Proof. intros [a|e] _; [|left; by exists e]. intros r _. destruct r as [[]|e]; right; by eexists _, _. Qed.

Lemma cbreak_flags t i :
  0 <= i < 32 ->
  Z.testbit (c_lflag (cbreak t)) i = (i =? 0) || Z.testbit (c_lflag t) i && negb (existsb (Z.eqb i) [1; 3]) /\
  Z.testbit (c_iflag (cbreak t)) i = Z.testbit (c_iflag t) i && negb (existsb (Z.eqb i) [8]).
Proof.
  intros Hi. cbn [c_lflag c_iflag cbreak]. rewrite Z.lor_spec. split.
  - rewrite (clear_bits _ _ [1; 3]), (mask_bits ISIG [0]) by done. rewrite orb_comm. cbn [existsb]. by rewrite orb_false_r.
  - by apply clear_bits.
Qed.

Lemma raw_flags t i :
  0 <= i < 32 ->
  Z.testbit (c_lflag (raw t)) i = Z.testbit (c_lflag t) i && negb (existsb (Z.eqb i) [0; 1; 3; 15]) /\
  Z.testbit (c_iflag (raw t)) i = Z.testbit (c_iflag t) i && negb (existsb (Z.eqb i) [0; 1; 3; 4; 5; 6; 7; 8; 10]) /\
  Z.testbit (c_oflag (raw t)) i = Z.testbit (c_oflag t) i && negb (existsb (Z.eqb i) [0]).
Proof. intros Hi. split_and!; by apply clear_bits. Qed.

Lemma clear_clear flags m : clear (clear flags m) m = clear flags m.
Proof. unfold clear. by rewrite <- Z.land_assoc, Z.land_diag. Qed.

(** A subset of the flags, checked bit by bit. *)
Lemma submask a b :
  forallb (fun n => implb (Z.testbit a (Z.of_nat n)) (Z.testbit b (Z.of_nat n))) (seq 0 32) = true ->
  forall i, 0 <= i < 32 -> Z.testbit a i = true -> Z.testbit b i = true.
Proof.
  intros H i Hi Ha. rewrite forallb_forall in H. specialize (H (Z.to_nat i)).
  rewrite Z2Nat.id, Ha in H by lia. apply H, in_seq. lia.
Qed.

Lemma modes_compose t :
  cbreak (cbreak t) = cbreak t /\ raw (raw t) = raw t /\ raw (cbreak t) = raw t.
Proof.
  unfold cbreak, raw. cbn [c_lflag c_iflag c_oflag c_cflag c_cc]. rewrite !modes_cc, !clear_clear.
  split_and!; [|done|].
  - f_equal. apply Z.bits_inj'. intros i Hi. rewrite !Z.lor_spec.
    destruct (Z.ltb_spec i 32); [|by rewrite !clear_high by lia].
    rewrite !clear_testbit, Z.lor_spec, clear_testbit by lia.
    destruct (Z.testbit (c_lflag t) i), (Z.testbit (ICANON '|' ECHO) i), (Z.testbit ISIG i); done.
  - f_equal.
    + rewrite <- (Z.lor_0_r (clear (c_iflag t) ICRNL)). apply clear_absorb. intros i Hi [H|H]; [|by rewrite Z.bits_0 in H].
      revert i Hi H. by apply submask.
    + apply clear_absorb. intros i Hi [H|H]; revert i Hi H; by apply submask.
Qed.

(** The two mode functions.  [ttySetCbreak] and [ttySetRaw] read the
    attributes, write them back once, changed, with the old ones reported if
    they were asked for, and return 0 exactly if that write succeeded.  Cbreak
    mode clears ICANON, ECHO and ICRNL and sets ISIG; raw mode clears ICANON,
    ISIG, IEXTEN, ECHO, nine input flags and OPOST; no other flag changes; and
    reads return single characters.  Setting a mode twice is setting it once,
    raw mode after cbreak mode is raw mode, and cbreak mode after raw mode does
    not bring back output processing, as the comment warns. *)
Lemma tty_modes t (i : Z) :
  0 <= i < 32 ->
  (forall fd want h, wp posix (ttySetCbreak fd want) (sets_mode cbreak fd want h) h /\
                     wp posix (ttySetRaw fd want) (sets_mode raw fd want h) h) /\
  (Z.testbit (c_lflag (cbreak t)) i = (i =? 0) || Z.testbit (c_lflag t) i && negb (existsb (Z.eqb i) [1; 3]) /\
   Z.testbit (c_iflag (cbreak t)) i = Z.testbit (c_iflag t) i && negb (existsb (Z.eqb i) [8]) /\
   c_oflag (cbreak t) = c_oflag t /\ c_cflag (cbreak t) = c_cflag t) /\
  (Z.testbit (c_lflag (raw t)) i = Z.testbit (c_lflag t) i && negb (existsb (Z.eqb i) [0; 1; 3; 15]) /\
   Z.testbit (c_iflag (raw t)) i = Z.testbit (c_iflag t) i && negb (existsb (Z.eqb i) [0; 1; 3; 4; 5; 6; 7; 8; 10]) /\
   Z.testbit (c_oflag (raw t)) i = Z.testbit (c_oflag t) i && negb (existsb (Z.eqb i) [0]) /\
   c_cflag (raw t) = c_cflag t) /\
  c_cc (raw t) = c_cc (cbreak t) /\
  (length (c_cc t) = 32%nat -> c_cc (raw t) !! VMIN = Some 1 /\ c_cc (raw t) !! VTIME = Some 0) /\
  cbreak (cbreak t) = cbreak t /\ raw (raw t) = raw t /\ raw (cbreak t) = raw t /\
  c_oflag (cbreak (raw t)) = c_oflag (raw t).
Proof.
  intros Hi. destruct (cbreak_flags t i Hi), (raw_flags t i Hi) as (? & ? & ?), (modes_compose t) as (? & ? & ?).
  split_and!; try done.
  - intros fd want h. split; apply wp_set_mode.
  - intros Hlen. cbn [c_cc raw]. split.
    + rewrite list_lookup_insert_ne by done. apply list_lookup_insert_eq. unfold VMIN. lia.
    + apply list_lookup_insert_eq. rewrite length_insert. unfold VTIME. lia.
Qed.
