(* ===== verification/Multijoin.v ===== *)
(** * threads/thread_multijoin.c: joining threads as they terminate

    The main thread creates a thread for each argument and joins them in the
    order in which they terminate.  Under a mutex each thread counts itself and
    marks itself as terminated; afterwards it signals a condition variable.
    Every statement between two synchronization points is a step of its thread,
    the steps interleave in any order, a wait may end spuriously, and a pthread
    call may fail, which ends the process.  The messages are left out. *)

From S2P Require Import Prelude.

(** ** State *)

Inductive tstate := TS_ALIVE | TS_TERMINATED | TS_JOINED.

(** The next statement of a thread: not yet created, the sleep, the lock, the
    two assignments, the unlock and the signal of threadFunc. *)
Inductive tpc := TNone | TSleep | TLock | TCount | TMark | TUnlock | TSignal | TEnd.

(** The next statement of main: creation of a thread, the test of the outer
    loop, the lock, the test of the inner loop, asleep and awake in
    pthread_cond_wait(), the test of the for loop, the join, the unlock. *)
Inductive mpc :=
| MCreate (idx : nat) | MLoop | MLock | MTest | MWait | MRelock
| MScan (idx : nat) | MJoin (idx : nat) | MUnlock.

#[export] Instance tstate_eq_dec : EqDecision tstate.
Proof. solve_decision. Defined.
#[export] Instance tpc_eq_dec : EqDecision tpc.
Proof. solve_decision. Defined.
#[export] Instance mpc_eq_dec : EqDecision mpc.
Proof. solve_decision. Defined.

(** An element of the array [thread], with the program counter of its thread. *)
Record slot := Slot { state : tstate; sleepTime : Z; pc : tpc }.

Record mj := Mj {
  thread : list slot;
  totThreads : Z; numLive : Z; numUnjoined : Z;
  mutex : bool; main_pc : mpc; exited : option Z }.

(** After calloc(), with the numbers that getInt() returned for the arguments. *)
Definition mj_init (sleepTimes : list Z) : mj :=
  Mj (map (fun t => Slot TS_ALIVE t TNone) sleepTimes) 0 0 0 false (MCreate 0) None.

(** ** Steps *)

Definition set_main (p : mpc) (s : mj) : mj :=
  Mj (thread s) (totThreads s) (numLive s) (numUnjoined s) (mutex s) p (exited s).
Definition set_mutex (b : bool) (s : mj) : mj :=
  Mj (thread s) (totThreads s) (numLive s) (numUnjoined s) b (main_pc s) (exited s).
Definition set_slot (i : nat) (x : slot) (s : mj) : mj :=
  Mj (<[i := x]> (thread s)) (totThreads s) (numLive s) (numUnjoined s) (mutex s) (main_pc s) (exited s).
Definition set_unjoined (n : Z) (s : mj) : mj :=
  Mj (thread s) (totThreads s) (numLive s) n (mutex s) (main_pc s) (exited s).
Definition set_live (n : Z) (s : mj) : mj :=
  Mj (thread s) (totThreads s) n (numUnjoined s) (mutex s) (main_pc s) (exited s).
Definition set_tot (n : Z) (s : mj) : mj :=
  Mj (thread s) n (numLive s) (numUnjoined s) (mutex s) (main_pc s) (exited s).
Definition set_exit (st : Z) (s : mj) : mj :=
  Mj (thread s) (totThreads s) (numLive s) (numUnjoined s) (mutex s) (main_pc s) (Some st).

(** The next step of main; [None] if it is blocked. *)
Definition main_step (s : mj) : option mj :=
  match main_pc s with
  | MCreate idx =>
      match thread s !! idx with
      | Some x => Some (set_main (MCreate (S idx)) (set_slot idx (Slot TS_ALIVE (sleepTime x) TSleep) s))
      | None =>
          let n := Z.of_nat (length (thread s)) in
          Some (set_main MLoop (set_live n (set_tot n s)))
      end
  | MLoop => if 0 <? numLive s then Some (set_main MLock s) else Some (set_exit 0 s)
  | MLock => if mutex s then None else Some (set_main MTest (set_mutex true s))
  | MTest =>
      if numUnjoined s =? 0 then Some (set_main MWait (set_mutex false s))
      else Some (set_main (MScan 0) s)
  | MWait => None
  | MRelock => if mutex s then None else Some (set_main MTest (set_mutex true s))
  | MScan idx =>
      if Z.of_nat idx <? totThreads s then
        match thread s !! idx with
        | Some x => if bool_decide (state x = TS_TERMINATED) then Some (set_main (MJoin idx) s)
                    else Some (set_main (MScan (S idx)) s)
        | None => None
        end
      else Some (set_main MUnlock s)
  | MJoin idx =>
      match thread s !! idx with
      | Some x =>
          if bool_decide (pc x = TEnd) then
            Some (set_main (MScan (S idx))
                   (set_unjoined (numUnjoined s - 1)
                     (set_live (numLive s - 1)
                       (set_slot idx (Slot TS_JOINED (sleepTime x) (pc x)) s))))
          else None
      | None => None
      end
  | MUnlock => Some (set_main MLoop (set_mutex false s))
  end.

Definition wake (p : mpc) : mpc := match p with MWait => MRelock | p => p end.

(** The next step of thread [i]. *)
Definition thread_step (i : nat) (s : mj) : option mj :=
  match thread s !! i with
  | None => None
  | Some x =>
      let goto p := set_slot i (Slot (state x) (sleepTime x) p) in
      match pc x with
      | TNone => None
      | TSleep => Some (goto TLock s)
      | TLock => if mutex s then None else Some (goto TCount (set_mutex true s))
      | TCount => Some (goto TMark (set_unjoined (numUnjoined s + 1) s))
      | TMark => Some (set_slot i (Slot TS_TERMINATED (sleepTime x) TUnlock) s)
      | TUnlock => Some (goto TSignal (set_mutex false s))
      | TSignal => Some (goto TEnd (set_main (wake (main_pc s)) s))
      | TEnd => None
      end
  end.

(** The statements that can end the process: those that make a pthread call, and
    the creation of a thread, whose argument getInt() may refuse. *)
Definition main_calls (s : mj) : bool :=
  match main_pc s with
  | MCreate idx => (idx <? length (thread s))%nat
  | MTest => numUnjoined s =? 0
  | MLock | MWait | MRelock | MJoin _ | MUnlock => true
  | MLoop | MScan _ => false
  end.
Definition thread_calls (p : tpc) : bool :=
  match p with TLock | TUnlock | TSignal => true | _ => false end.

(** A step of a thread of the program that does not fail and is not a spurious
    wakeup. *)
Inductive progress (s : mj) : mj -> Prop :=
| by_main s' : exited s = None -> main_step s = Some s' -> progress s s'
| by_thread i s' : exited s = None -> thread_step i s = Some s' -> progress s s'.

Inductive mj_step (s : mj) : mj -> Prop :=
| step_progress s' : progress s s' -> mj_step s s'
| step_spurious : exited s = None -> main_pc s = MWait -> mj_step s (set_main MRelock s)
| step_main_fails : exited s = None -> main_calls s = true -> mj_step s (set_exit 1 s)
| step_thread_fails i x :
    exited s = None -> thread s !! i = Some x -> thread_calls (pc x) = true -> mj_step s (set_exit 1 s).

Inductive mj_reach (s0 : mj) : mj -> Prop :=
| mj_reach_refl : mj_reach s0 s0
| mj_reach_step s s' : mj_reach s0 s -> mj_step s s' -> mj_reach s0 s'.

(** ** The invariant *)

Definition inside (x : slot) : Z := match pc x with TCount | TMark | TUnlock => 1 | _ => 0 end.
Definition main_inside (p : mpc) : Z := match p with MTest | MScan _ | MJoin _ | MUnlock => 1 | _ => 0 end.
Definition terminated (x : slot) : Z := match state x with TS_TERMINATED => 1 | _ => 0 end.
Definition counted (x : slot) : Z := match pc x with TMark => 1 | _ => 0 end.
Definition live (x : slot) : Z := match state x with TS_JOINED => 0 | _ => 1 end.
Definition pending (x : slot) : Z := match pc x with TMark | TUnlock | TSignal => 1 | _ => 0 end.

(** The recorded state and where the thread is. *)
Definition slot_ok (x : slot) : bool :=
  match state x, pc x with
  | TS_ALIVE, (TNone | TSleep | TLock | TCount | TMark) => true
  | TS_TERMINATED, (TUnlock | TSignal | TEnd) => true
  | TS_JOINED, TEnd => true
  | _, _ => false
  end.

Definition main_ok (s : mj) : Prop :=
  match main_pc s with
  | MCreate k =>
      (k <= length (thread s))%nat /\ total live (thread s) = Z.of_nat (length (thread s)) /\
      forall i x, thread s !! i = Some x -> (pc x = TNone <-> (k <= i)%nat)
  | p =>
      (forall i x, thread s !! i = Some x -> pc x <> TNone) /\
      totThreads s = Z.of_nat (length (thread s)) /\ numLive s = total live (thread s) /\
      match p with
      | MLock | MTest | MWait | MRelock => 0 < numLive s
      | MScan k => (k <= length (thread s))%nat
      | MJoin k => exists x, thread s !! k = Some x /\ state x = TS_TERMINATED
      | _ => True
      end
  end.

Record inv (s : mj) : Prop := {
  inv_slots : forall i x, thread s !! i = Some x -> slot_ok x = true;
  inv_mutex : (if mutex s then 1 else 0) = main_inside (main_pc s) + total inside (thread s);
  inv_unjoined : numUnjoined s = total terminated (thread s) + total counted (thread s);
  inv_main : main_ok s;
  inv_wait : main_pc s = MWait -> 0 < numUnjoined s -> 0 < total pending (thread s);
  inv_exit : exited s = Some 0 -> main_pc s = MLoop /\ numLive s <= 0
}.

Lemma mj_inv_init ts : inv (mj_init ts).
Proof.
  assert (forall i x, thread (mj_init ts) !! i = Some x -> exists t, x = Slot TS_ALIVE t TNone) as Hx.
  { intros i x Hi. cbn in Hi. rewrite list_lookup_fmap in Hi. destruct (ts !! i); simplify_eq/=. by eexists. }
  split; cbn [mj_init mutex main_pc numUnjoined exited thread]; try done.
  - intros i x Hi. by destruct (Hx i x Hi) as [t ->].
  - by rewrite total_map_zero.
  - by rewrite !total_map_zero.
  - split; [cbn; lia|]. split.
    + cbn. clear Hx. induction ts as [|t ts IH]; [done|]. cbn [map total length]. rewrite IH. unfold live. cbn. lia.
    + intros i x Hi. destruct (Hx i x Hi) as [t ->]. split; [lia|done].
Qed.

Ltac slots := unfold inside, terminated, counted, live, pending, slot_ok in *; cbn [pc state sleepTime] in *.

(** A thread changes its slot from [x] to [y]. *)
Lemma inv_update s s' i x y :
  inv s -> thread s !! i = Some x -> thread s' = <[i := y]> (thread s) ->
  pc x <> TNone -> pc y <> TNone -> slot_ok y = true -> live y = live x ->
  (state x = TS_TERMINATED -> state y = TS_TERMINATED) ->
  totThreads s' = totThreads s -> numLive s' = numLive s -> exited s' = None ->
  (main_pc s' = main_pc s \/ main_pc s = MWait /\ main_pc s' = MRelock) ->
  (if mutex s' then 1 else 0) - (if mutex s then 1 else 0) = inside y - inside x ->
  numUnjoined s' - numUnjoined s = terminated y - terminated x + (counted y - counted x) ->
  (main_pc s' = MWait -> 0 < total pending (thread s) - pending x + pending y \/
                         numUnjoined s' = numUnjoined s /\ pending y = pending x) ->
  inv s'.
Proof.
  intros [Hs Hm Hu Hmain Hw He] Hi Ht Hx Hy Hok Hlive Hst Htot Hnl Hex Hpc Hmut Hunj Hwait.
  assert (main_inside (main_pc s') = main_inside (main_pc s)) as Hin.
  { destruct Hpc as [->|[-> ->]]; done. }
  split.
  - intros j z. rewrite Ht. intros [[-> ->]|[_ Hj]]%lookup_changed; [done|by eapply Hs].
  - rewrite Hin, Ht, (total_insert _ _ _ _ _ Hi). lia.
  - rewrite Ht, !(total_insert _ _ _ _ _ Hi). lia.
  - unfold main_ok in *. rewrite Ht, length_insert, (total_insert _ _ _ _ _ Hi), Htot, Hnl, Hlive.
    replace (total live (thread s) - live x + live x) with (total live (thread s)) by lia.
    assert ((forall j z, thread s !! j = Some z -> pc z <> TNone) ->
      forall j z, <[i:=y]> (thread s) !! j = Some z -> pc z <> TNone) as Hnn.
    { intros H j z [[-> ->]|[_ Hj]]%lookup_changed; [done|by eapply H]. }
    destruct Hpc as [->|[Hp ->]]; [|rewrite Hp in Hmain; tauto].
    destruct (main_pc s) as [k| | | | | |k|k|]; try tauto.
    + destruct Hmain as (Hk & Hl & Hc). split_and!; [done..|]. intros j z [[-> ->]|[_ Hj]]%lookup_changed; [|by apply Hc].
      specialize (Hc i x Hi). tauto.
    + destruct Hmain as (H1 & H2 & H3 & z & Hz & Hzs). split_and!; [by apply Hnn|done..|].
      destruct (decide (k = i)) as [->|Hne]; [|exists z; by rewrite list_lookup_insert_ne].
      exists y. rewrite list_lookup_insert_eq by (by eapply lookup_lt_Some). split; [done|]. apply Hst. congruence.
  - intros Hp Hpos. rewrite Ht, (total_insert _ _ _ _ _ Hi). destruct (Hwait Hp) as [H|[H1 H2]]; [lia|].
    destruct Hpc as [Hpc|[_ Hpc]]; [|congruence]. specialize (Hw ltac:(congruence) ltac:(lia)). lia.
  - congruence.
Qed.

Lemma pending_nonneg x : 0 <= pending x.
Proof. unfold pending. destruct (pc x); lia. Qed.

Lemma inv_thread s i s' : inv s -> exited s = None -> thread_step i s = Some s' -> inv s'.
Proof.
  intros Hinv Hex Hstep. unfold thread_step in Hstep.
  destruct (thread s !! i) as [x|] eqn:Hi; [|done]. pose proof (inv_slots s Hinv i x Hi) as Hx.
  pose proof (total_ge _ _ _ _ pending_nonneg Hi) as Hge.
  destruct x as [st sl p]. cbn [state sleepTime pc] in *.
  assert (0 <= main_inside (main_pc s)) as Hmi by (by destruct (main_pc s)).
  assert (mutex s = false -> total inside (thread s) <= 0) as Hfree.
  { intros H. pose proof (inv_mutex s Hinv) as Hm. rewrite H in Hm. lia. }
  assert (forall x, 0 <= inside x) as Hin0 by (intros x; unfold inside; destruct (pc x); lia).
  pose proof (total_ge _ _ _ _ Hin0 Hi) as Hgi. pose proof (inv_mutex s Hinv) as Hmut.
  destruct p; try done; try (destruct (mutex s) eqn:Hmx; [done|]); injection Hstep as <-;
    destruct st; try done; (eapply inv_update; [exact Hinv|exact Hi|reflexivity|try done..]);
    cbn [set_slot set_mutex set_unjoined set_main mutex numUnjoined main_pc thread pc state]; slots; try lia; auto.
  all: try (destruct (mutex s) eqn:Hmx2; [lia|]; specialize (Hfree eq_refl); lia).
  all: destruct (main_pc s); auto; done.
Qed.

(** main holds the mutex, so no thread is inside. *)
Lemma main_alone s : inv s -> main_inside (main_pc s) = 1 -> total inside (thread s) = 0 /\ mutex s = true.
Proof.
  intros Hinv Hp. pose proof (inv_mutex s Hinv) as Hm. rewrite Hp in Hm.
  assert (0 <= total inside (thread s)).
  { apply total_nonneg. intros x. unfold inside. destruct (pc x); lia. }
  destruct (mutex s); [|lia]. split; [lia|done].
Qed.

(** main joins thread [i]. *)
Lemma inv_join s i x s' :
  inv s -> main_pc s = MJoin i -> thread s !! i = Some x -> pc x = TEnd ->
  s' = set_main (MScan (S i)) (set_unjoined (numUnjoined s - 1) (set_live (numLive s - 1)
         (set_slot i (Slot TS_JOINED (sleepTime x) (pc x)) s))) ->
  exited s = None -> inv s'.
Proof.
  intros [Hs Hm Hu Hmain Hw He] Hp Hi Hx -> Hex. unfold main_ok in Hmain. rewrite Hp in *.
  destruct Hmain as (Hnn & Htot & Hlive & z & Hz & Hzs). assert (z = x) as -> by congruence. clear Hz.
  assert (i < length (thread s))%nat by (by eapply lookup_lt_Some).
  split; cbn [set_main set_unjoined set_live set_slot thread mutex main_pc numUnjoined exited]; try done.
  - intros j y [[-> ->]|[_ Hj]]%lookup_changed; [by rewrite Hx|by eapply Hs].
  - rewrite (total_insert _ _ _ _ _ Hi). cbn [main_inside] in *. slots. rewrite Hx. lia.
  - rewrite !(total_insert _ _ _ _ _ Hi). slots. rewrite Hx, Hzs. lia.
  - unfold main_ok. cbn [set_main set_unjoined set_live set_slot thread main_pc numLive totThreads].
    rewrite length_insert, (total_insert _ _ _ _ _ Hi). slots. rewrite Hzs. split_and!; [|done|lia|lia].
    intros j y [[-> ->]|[_ Hj]]%lookup_changed; [by rewrite Hx|by eapply Hnn].
  - congruence.
Qed.

(** main creates thread [i]. *)
Lemma inv_create s i x s' :
  inv s -> main_pc s = MCreate i -> thread s !! i = Some x -> exited s = None ->
  s' = set_main (MCreate (S i)) (set_slot i (Slot TS_ALIVE (sleepTime x) TSleep) s) -> inv s'.
Proof.
  intros [Hs Hm Hu Hmain Hw He] Hp Hi Hex ->. unfold main_ok in Hmain. rewrite Hp in *. destruct Hmain as (Hk & Hl & Hc).
  assert (i < length (thread s))%nat by (by eapply lookup_lt_Some).
  assert (pc x = TNone) as Hx by (by apply (Hc i x)). pose proof (Hs i x Hi) as Hok.
  assert (state x = TS_ALIVE) as Hst by (unfold slot_ok in Hok; rewrite Hx in Hok; by destruct (state x)).
  split; cbn [set_main set_slot thread mutex main_pc numUnjoined exited]; try done.
  - intros j y [[-> ->]|[_ Hj]]%lookup_changed; [done|by eapply Hs].
  - rewrite (total_insert _ _ _ _ _ Hi). cbn [main_inside] in *. slots. rewrite Hx. lia.
  - rewrite !(total_insert _ _ _ _ _ Hi). slots. rewrite Hx, Hst. lia.
  - unfold main_ok. cbn [set_main set_slot thread main_pc]. rewrite length_insert. split; [lia|].
    split; [rewrite (total_insert _ _ _ _ _ Hi); slots; rewrite Hst; lia|].
    intros j y [[-> ->]|[Hne Hj]]%lookup_changed; [split; [done|lia]|]. rewrite (Hc j y Hj). lia.
  - congruence.
Qed.

(** main changes nothing but its program counter and the mutex. *)
Lemma inv_moves s s' :
  inv s -> thread s' = thread s -> numUnjoined s' = numUnjoined s -> exited s' = None -> main_ok s' ->
  (if mutex s' then 1 else 0) - (if mutex s then 1 else 0) = main_inside (main_pc s') - main_inside (main_pc s) ->
  (main_pc s' = MWait -> numUnjoined s = 0) -> inv s'.
Proof.
  intros [Hs Hm Hu Hmain Hw He] Ht Hn Hex Hok Hmut Hwait. split; rewrite ?Ht, ?Hn; try done; [lia| |congruence].
  intros Hp Hpos. specialize (Hwait Hp). lia.
Qed.

Ltac main_moves :=
  eapply inv_moves; [eassumption|reflexivity|reflexivity|assumption|unfold main_ok; cbn; try done| |cbn; try done];
  cbn; repeat match goal with
              | H : main_pc _ = _ |- _ => rewrite H in *
              | H : mutex _ = _ |- _ => rewrite H in *
              end; cbn in *; try lia.

Lemma inv_main_step s s' : inv s -> exited s = None -> main_step s = Some s' -> inv s'.
Proof.
  intros Hinv Hex Hstep. pose proof (inv_main s Hinv) as Hmain. unfold main_step in Hstep. unfold main_ok in Hmain.
  pose proof (inv_mutex s Hinv) as Hmut.
  assert (0 <= total inside (thread s)) as Hin0.
  { apply total_nonneg. intros x. unfold inside. destruct (pc x); lia. }
  destruct (main_pc s) as [k| | | | | |k|k|] eqn:Hp; try done.
  - destruct Hmain as (Hk & Hl & Hc). destruct (thread s !! k) as [x|] eqn:Hx; injection Hstep as <-; [by eapply inv_create|].
    apply lookup_ge_None in Hx. main_moves. split_and!; try done.
    intros i x Hi Hn. apply lookup_lt_Some in Hi as Hlt. apply (Hc i x Hi) in Hn. lia.
  - destruct Hmain as (H1 & H2 & H3 & _). destruct (Z.ltb_spec 0 (numLive s)); injection Hstep as <-; [main_moves|].
    destruct Hinv. by split.
  - destruct (mutex s) eqn:Hmx; [done|]. injection Hstep as <-. main_moves.
  - destruct (main_alone s Hinv) as [_ Hmx]; [by rewrite Hp|]. destruct Hmain as (?&?&?&?).
    destruct (Z.eqb_spec (numUnjoined s) 0); injection Hstep as <-; main_moves. split_and!; try done; lia.
  - destruct (mutex s) eqn:Hmx; [done|]. injection Hstep as <-. main_moves.
  - destruct Hmain as (H1 & H2 & H3 & H4). destruct (Z.ltb_spec (Z.of_nat k) (totThreads s)).
    + destruct (thread s !! k) as [x|] eqn:Hx; [|done].
      case_bool_decide; injection Hstep as <-; main_moves; split_and!; try done; [by eexists|lia].
    + injection Hstep as <-. main_moves.
  - destruct (thread s !! k) as [x|] eqn:Hx; [|done]. case_bool_decide; [|done]. injection Hstep as <-. by eapply inv_join.
  - destruct (main_alone s Hinv) as [_ Hmx]; [by rewrite Hp|]. destruct Hmain as (H1 & H2 & H3 & _). injection Hstep as <-.
    main_moves.
Qed.

Lemma inv_set_exit s : inv s -> inv (set_exit 1 s).
Proof. intros []. by split. Qed.

Lemma mj_inv_step s s' : inv s -> mj_step s s' -> inv s'.
Proof.
  intros Hinv Hstep. destruct Hstep as [s' Hprog|Hex Hp| |]; [|..]; [|..]; try by apply inv_set_exit.
  - destruct Hprog; [by eapply inv_main_step|by eapply inv_thread].
  - pose proof (inv_main s Hinv) as Hmain. unfold main_ok in Hmain. rewrite Hp in Hmain. main_moves.
Qed.

Lemma mj_inv_reach s0 s : inv s0 -> mj_reach s0 s -> inv s.
Proof. intros H Hr. induction Hr; [done|]. by eapply mj_inv_step. Qed.

Lemma length_step s s' : mj_step s s' -> length (thread s') = length (thread s).
Proof.
  intros Hstep. destruct Hstep as [s' Hprog| | |]; try done. destruct Hprog as [s' _ H|i s' _ H].
  - unfold main_step in H. repeat case_match; simplify_eq; cbn; by rewrite ?length_insert.
  - unfold thread_step in H. repeat case_match; simplify_eq; cbn; by rewrite ?length_insert.
Qed.

Lemma length_reach s0 s : mj_reach s0 s -> length (thread s) = length (thread s0).
Proof. intros Hr. induction Hr; [done|]. by rewrite (length_step _ _ H). Qed.

(** ** No deadlock *)

Definition runnable (i : nat) (s : mj) : Prop := is_Some (thread_step i s).

Lemma inside_runs s : 0 < total inside (thread s) -> exists i, runnable i s.
Proof.
  intros H. destruct (total_positive inside (thread s)) as (i & x & Hi & Hx); [|done|].
  { intros x. unfold inside. destruct (pc x); lia. }
  exists i. unfold runnable, thread_step, inside in *. rewrite Hi. destruct (pc x); try lia; by eexists.
Qed.

Lemma pending_runs s : 0 < total pending (thread s) -> exists i, runnable i s.
Proof.
  intros H. destruct (total_positive pending (thread s)) as (i & x & Hi & Hx); [apply pending_nonneg|done|].
  exists i. unfold runnable, thread_step, pending in *. rewrite Hi. destruct (pc x); try lia; by eexists.
Qed.

(** A thread that has begun and not ended runs, or waits for one that does. *)
Lemma started_runs s i x :
  inv s -> main_inside (main_pc s) = 0 -> thread s !! i = Some x -> pc x <> TNone -> pc x <> TEnd ->
  exists j, runnable j s.
Proof.
  intros Hinv Hp Hi Hn He. destruct (mutex s) eqn:Hm.
  { apply inside_runs. pose proof (inv_mutex s Hinv) as H. rewrite Hm, Hp in H. lia. }
  exists i. unfold runnable, thread_step. rewrite Hi, Hm. destruct (pc x); try done; by eexists.
Qed.

Lemma waiting_runs s : inv s -> main_pc s = MWait -> exists i, runnable i s.
Proof.
  intros Hinv Hp. pose proof (inv_main s Hinv) as Hmain. unfold main_ok in Hmain. rewrite Hp in Hmain.
  destruct Hmain as (Hnn & _ & Hlive & Hpos).
  destruct (total_positive live (thread s)) as (i & x & Hi & Hx); [|lia|].
  { intros x. unfold live. destruct (state x); lia. }
  destruct (decide (pc x = TEnd)) as [He|He]; [|eapply started_runs; try done; [by rewrite Hp|by eapply Hnn]].
  apply pending_runs, (inv_wait s Hinv Hp). rewrite (inv_unjoined s Hinv).
  pose proof (inv_slots s Hinv i x Hi) as Hok. unfold slot_ok, live in *. rewrite He in Hok.
  assert (terminated x <= total terminated (thread s)).
  { apply (total_ge _ _ i); [|done]. intros y. unfold terminated. destruct (state y); lia. }
  assert (0 <= total counted (thread s)).
  { apply total_nonneg. intros y. unfold counted. destruct (pc y); lia. }
  unfold terminated in *. destruct (state x); try done; lia.
Qed.

Lemma no_deadlock s : inv s -> exited s = None -> exists s', progress s s'.
Proof.
  intros Hinv Hex.
  assert ((exists i, runnable i s) -> exists s', progress s s') as Ht.
  { intros (i & s' & Hs'). exists s'. by eapply by_thread. }
  assert (is_Some (main_step s) -> exists s', progress s s') as Hm.
  { intros (s' & Hs'). exists s'. by eapply by_main. }
  pose proof (inv_main s Hinv) as Hmain. unfold main_ok in Hmain. pose proof (inv_mutex s Hinv) as Hmut.
  unfold main_step in Hm. destruct (main_pc s) as [k| | | | | |k|k|] eqn:Hp.
  - apply Hm. destruct (thread s !! k); eauto.
  - apply Hm. destruct (0 <? numLive s); eauto.
  - destruct (mutex s); [apply Ht, inside_runs; cbn in Hmut; lia|apply Hm; by eexists].
  - apply Hm. destruct (numUnjoined s =? 0); eauto.
  - apply Ht. by apply waiting_runs.
  - destruct (mutex s); [apply Ht, inside_runs; cbn in Hmut; lia|apply Hm; by eexists].
  - apply Hm. destruct Hmain as (_ & Htot & _). destruct (Z.ltb_spec (Z.of_nat k) (totThreads s)); [|by eexists].
    destruct (lookup_lt_is_Some_2 (thread s) k) as [x ->]; [lia|]. destruct (bool_decide _); eauto.
  - destruct Hmain as (_ & _ & _ & x & Hx & Hst). rewrite Hx in Hm. pose proof (inv_slots s Hinv k x Hx) as Hok.
    unfold slot_ok in Hok. rewrite Hst in Hok.
    destruct (pc x) eqn:Hpc; try done; [apply Ht; exists k; unfold runnable, thread_step; rewrite Hx, Hpc; by eexists..|].
    apply Hm. rewrite bool_decide_true by done. by eexists.
  - apply Hm. by eexists.
Qed.

(** ** Termination *)

(** The steps that a thread has left. *)
Definition remaining (x : slot) : Z :=
  match pc x with
  | TNone => 7 | TSleep => 6 | TLock => 5 | TCount => 4 | TMark => 3 | TUnlock => 2 | TSignal => 1 | TEnd => 0
  end.

(** The terminated threads from index [k] on, which the for loop will join. *)
Definition to_join (k : nat) (s : mj) : Z := total terminated (drop k (thread s)).

(** A round of the outer loop costs less than [round]; it joins at least one
    thread. *)
Definition round (s : mj) : Z := 2 * Z.of_nat (length (thread s)) + 12.

Definition main_cost (s : mj) : Z :=
  let n := Z.of_nat (length (thread s)) in
  let C := round s in
  match main_pc s with
  | MCreate k => C * n + 2 * n + 10 + (n - Z.of_nat k)
  | MLoop => C * numLive s + 2 * n + 9
  | MLock | MRelock => C * numLive s + 2 * n + 8
  | MTest => C * numLive s + 2 * n + 7
  | MWait => C * numLive s + 2 * n + 6
  | MScan k => C * (numLive s - to_join k s) + C + 2 * (n - Z.of_nat k) + 3
  | MJoin k => C * (numLive s - to_join k s) + C + 2 * (n - Z.of_nat k) + 2
  | MUnlock => C * numLive s + C + 2
  end.

Definition cost (s : mj) : Z :=
  match exited s with
  | Some _ => 0
  | None => 1 + 3 * total remaining (thread s) + main_cost s
  end.

Lemma remaining_nonneg x : 0 <= remaining x.
Proof. unfold remaining. destruct (pc x); lia. Qed.

Lemma terminated_nonneg x : 0 <= terminated x.
Proof. unfold terminated. destruct (state x); lia. Qed.

Lemma to_join_live k s : 0 <= to_join k s <= total live (thread s).
Proof.
  unfold to_join. split; [apply total_nonneg, terminated_nonneg|].
  etrans; [apply total_drop, terminated_nonneg|]. apply total_le. intros x. unfold terminated, live. destruct (state x); lia.
Qed.

Lemma to_join_step k s x : thread s !! k = Some x -> to_join k s = terminated x + to_join (S k) s.
Proof. intros H. unfold to_join. by rewrite (drop_S _ _ _ H). Qed.

Lemma total_drop_insert (f : slot -> Z) k l i x y :
  l !! i = Some x -> f y = f x -> total f (drop k (<[i := y]> l)) = total f (drop k l).
Proof.
  revert k i. induction l as [|z l IH]; intros [|k] [|i] H He; simpl in *; simplify_eq; try done; try lia.
  - rewrite <- (drop_0 (<[i:=y]> l)), (IH 0%nat i H He), drop_0. done.
  - by apply IH.
Qed.

Lemma cost_positive s : inv s -> exited s = None -> 0 < cost s.
Proof.
  intros Hinv Hex. unfold cost. rewrite Hex.
  pose proof (total_nonneg remaining (thread s) remaining_nonneg). pose proof (inv_main s Hinv) as Hmain.
  assert (forall k, 0 <= to_join k s <= total live (thread s)) as Hj by (intros k; apply to_join_live).
  unfold main_cost, main_ok, round in *. pose proof (Hj 0%nat).
  destruct (main_pc s) as [k| | | | | |k|k|]; try nia.
  - specialize (Hj k). nia.
  - specialize (Hj k). destruct Hmain as (_ & _ & H3 & x & Hx & _). apply lookup_lt_Some in Hx. nia.
Qed.

Lemma thread_decreases s i s' : inv s -> exited s = None -> thread_step i s = Some s' -> cost s' < cost s.
Proof.
  intros Hinv Hex Hstep. unfold thread_step in Hstep.
  destruct (thread s !! i) as [x|] eqn:Hi; [|done]. pose proof (inv_slots s Hinv i x Hi) as Hok.
  assert (forall y s1, thread s1 = <[i := y]> (thread s) -> exited s1 = None -> numLive s1 = numLive s ->
    (main_pc s1 = main_pc s \/ main_pc s = MWait /\ main_pc s1 = MRelock) ->
    (terminated y = terminated x \/ main_inside (main_pc s) = 0) -> remaining y = remaining x - 1 -> cost s1 < cost s) as Hcost.
  { intros y s1 Ht Hex1 Hl Hp Hterm Hrem. unfold cost. rewrite Hex, Hex1, Ht, (total_insert _ _ _ _ _ Hi).
    enough (main_cost s1 <= main_cost s + 2) by lia. unfold main_cost, round, to_join. rewrite Ht, length_insert, Hl.
    destruct Hp as [->|[-> ->]]; [|lia].
    destruct (main_pc s) as [k| | | | | |k|k|]; try lia;
      (destruct Hterm as [Hterm|Hterm]; [|done]; rewrite (total_drop_insert _ _ _ _ _ _ Hi Hterm); lia). }
  pose proof (inv_mutex s Hinv) as Hmut.
  assert (forall x, 0 <= inside x) as Hin0 by (intros y; unfold inside; destruct (pc y); lia).
  pose proof (total_ge _ _ _ _ Hin0 Hi) as Hgi.
  assert (0 <= main_inside (main_pc s)) as Hmi by (by destruct (main_pc s)).
  destruct x as [st sl p]. cbn [state sleepTime pc] in *.
  destruct p; try done; try (destruct (mutex s) eqn:Hmx; [done|]); injection Hstep as <-;
    (eapply Hcost; [reflexivity|assumption|reflexivity|..]); cbn; auto.
  - right. destruct (mutex s); cbn in *; lia.
  - destruct (main_pc s); auto.
Qed.

Lemma counted_inside x : counted x <= inside x.
Proof. unfold counted, inside. destruct (pc x); lia. Qed.

Lemma main_decreases s s' : inv s -> exited s = None -> main_step s = Some s' -> cost s' < cost s.
Proof.
  intros Hinv Hex Hstep. pose proof (inv_main s Hinv) as Hmain. pose proof (cost_positive s Hinv Hex) as Hpos.
  unfold main_step in Hstep. unfold main_ok in Hmain. unfold cost, main_cost in *. rewrite Hex in *.
  destruct (main_pc s) as [k| | | | | |k|k|] eqn:Hp; try done.
  - destruct Hmain as (Hk & Hl & Hc). destruct (thread s !! k) as [x|] eqn:Hx; injection Hstep as <-;
      cbn [set_main set_slot set_live set_tot exited thread main_pc numLive]; unfold round; cbn [set_main set_slot set_live set_tot thread].
    + rewrite Hex, length_insert, (total_insert _ _ _ _ _ Hx). unfold remaining at 2 3. cbn [pc].
      rewrite (proj2 (Hc k x Hx)) by lia. apply lookup_lt_Some in Hx. lia.
    + rewrite Hex. apply lookup_ge_None in Hx. lia.
  - destruct (0 <? numLive s); injection Hstep as <-; cbn; [rewrite Hex; unfold round in *; cbn; lia|lia].
  - destruct (mutex s); [done|]. injection Hstep as <-. cbn. rewrite Hex. unfold round. cbn. lia.
  - destruct (main_alone s Hinv) as [Hin _]; [by rewrite Hp|]. pose proof (inv_unjoined s Hinv) as Hu.
    assert (total counted (thread s) <= 0) by (rewrite <- Hin; apply total_le, counted_inside).
    assert (0 <= total terminated (thread s)) by (apply total_nonneg, terminated_nonneg).
    assert (0 <= total counted (thread s)) by (apply total_nonneg; intros y; unfold counted; destruct (pc y); lia).
    destruct (Z.eqb_spec (numUnjoined s) 0); injection Hstep as <-; cbn; rewrite Hex; unfold round, to_join; cbn; [lia|].
    rewrite drop_0. assert (1 <= total terminated (thread s)) by lia. nia.
  - destruct (mutex s); [done|]. injection Hstep as <-. cbn. rewrite Hex. unfold round. cbn. lia.
  - destruct Hmain as (_ & Htot & _ & Hk). destruct (Z.ltb_spec (Z.of_nat k) (totThreads s)).
    + destruct (thread s !! k) as [x|] eqn:Hx; [|done]. pose proof (to_join_step k s x Hx) as Hj.
      case_bool_decide as Hst; injection Hstep as <-; cbn; rewrite Hex; unfold round, to_join in *; cbn; [lia|].
      assert (terminated x = 0) by (unfold terminated; by destruct (state x)). nia.
    + injection Hstep as <-. cbn. rewrite Hex. unfold round, to_join in *. rewrite drop_ge by lia. cbn. lia.
  - destruct Hmain as (_ & _ & _ & x & Hx & Hst). rewrite Hx in Hstep. case_bool_decide as Hpc; [|done]. injection Hstep as <-.
    pose proof (to_join_step k s x Hx) as Hj. unfold terminated in Hj. rewrite Hst in Hj.
    cbn [set_main set_unjoined set_live set_slot exited main_pc numLive]. rewrite Hex. unfold round, to_join in *.
    cbn [set_main set_unjoined set_live set_slot thread]. rewrite length_insert, (total_insert _ _ _ _ _ Hx).
    rewrite drop_insert_lt by lia. unfold remaining at 2 3. cbn [pc]. nia.
  - injection Hstep as <-. cbn. rewrite Hex. unfold round. cbn. lia.
Qed.

Lemma progress_decreases s s' : inv s -> progress s s' -> cost s' < cost s.
Proof. intros Hinv []; [by eapply main_decreases|by eapply thread_decreases]. Qed.

Lemma nsteps_cost k s s' : inv s -> nsteps progress k s s' -> Z.of_nat k + cost s' <= cost s /\ inv s'.
Proof.
  intros Hinv Hn. induction Hn as [s|k s1 s2 s3 Hp Hn IH]; [split; [lia|done]|].
  pose proof (progress_decreases _ _ Hinv Hp).
  destruct IH as [H1 H2]; [eapply mj_inv_step; [done|by apply step_progress]|]. split; [lia|done].
Qed.

(** ** The properties *)

Lemma terminated_ended s i x : inv s -> thread s !! i = Some x -> state x = TS_JOINED -> pc x = TEnd.
Proof.
  intros Hinv Hi Hx. pose proof (inv_slots s Hinv i x Hi) as Hok. unfold slot_ok in Hok. rewrite Hx in Hok.
  by destruct (pc x).
Qed.

(** All slots are joined when nothing is live. *)
Lemma none_live s i x : inv s -> total live (thread s) <= 0 -> thread s !! i = Some x -> state x = TS_JOINED.
Proof.
  intros Hinv Hl Hi. assert (live x <= total live (thread s)) as H.
  { apply (total_ge _ _ i); [|done]. intros y. unfold live. destruct (state y); lia. }
  assert (live x <= 0) as H0 by lia. unfold live in H0. destruct (state x); [lia..|done].
Qed.

Lemma exit_unjoined s : inv s -> exited s = Some 0 -> (forall i x, thread s !! i = Some x -> state x = TS_JOINED /\ pc x = TEnd) ->
  numUnjoined s = 0.
Proof.
  intros Hinv Hex Hall. rewrite (inv_unjoined s Hinv).
  assert (forall f, (forall x, state x = TS_JOINED /\ pc x = TEnd -> f x = 0) -> total f (thread s) = 0) as Hz.
  { intros f Hf. induction (thread s) as [|x l IH] in Hall |- *; simpl; [done|].
    rewrite (Hf x (Hall 0%nat x eq_refl)), IH; [done|]. intros i y Hi. apply (Hall (S i) y Hi). }
  rewrite !Hz; [done| |]; intros x [H1 H2]; unfold counted, terminated; by rewrite ?H1, ?H2.
Qed.

(** Whatever the interleaving, with failing pthread calls and spurious
    wakeups, when thread_multijoin exits with EXIT_SUCCESS there is one slot
    for each argument, each slot is TS_JOINED and its thread has returned from
    threadFunc(), numLive and numUnjoined are zero; a thread is never joined
    before it has returned; at most one thread is in a critical section; and
    until the process exits some thread can always take a step, so that the
    signal sent after the mutex is released is never lost. *)
Lemma multijoin_joins_all sleepTimes s :
  mj_reach (mj_init sleepTimes) s ->
  length (thread s) = length sleepTimes /\
  (exited s = Some 0 ->
     numLive s = 0 /\ numUnjoined s = 0 /\
     forall i x, thread s !! i = Some x -> state x = TS_JOINED /\ pc x = TEnd) /\
  (forall i x, thread s !! i = Some x -> state x = TS_JOINED -> pc x = TEnd) /\
  0 <= main_inside (main_pc s) + total inside (thread s) <= 1 /\
  (exited s = None -> exists s', progress s s').
Proof.
  intros Hr. pose proof (mj_inv_reach _ _ (mj_inv_init sleepTimes) Hr) as Hinv. split_and!.
  - rewrite (length_reach _ _ Hr). cbn. by rewrite length_map.
  - intros Hex. destruct (inv_exit s Hinv Hex) as [Hp Hl]. pose proof (inv_main s Hinv) as Hmain.
    unfold main_ok in Hmain. rewrite Hp in Hmain. destruct Hmain as (_ & _ & Hlive & _).
    assert (forall i x, thread s !! i = Some x -> state x = TS_JOINED /\ pc x = TEnd) as Hall.
    { intros i x Hi. assert (state x = TS_JOINED) as Hx by (eapply none_live; [done|lia|done]).
      split; [done|by eapply terminated_ended]. }
    split_and!; [|by apply exit_unjoined|done].
    assert (0 <= total live (thread s)) by (apply total_nonneg; intros y; unfold live; destruct (state y); lia). lia.
  - intros i x Hi. by eapply terminated_ended.
  - rewrite <- (inv_mutex s Hinv). destruct (mutex s); lia.
  - rewrite <- (inv_mutex s Hinv). destruct (mutex s); lia.
  - by apply no_deadlock.
Qed.

(** Thread_multijoin terminates: from a reachable state no run without
    spurious wakeups takes more than [cost] steps, for a program started with
    n threads that is at most n * (2 n + 36) + 11 steps, and together with the
    absence of deadlock every such run that cannot be extended has exited. *)
Lemma multijoin_terminates sleepTimes k s :
  nsteps progress k (mj_init sleepTimes) s ->
  let n := Z.of_nat (length sleepTimes) in
  Z.of_nat k <= n * (2 * n + 36) + 11 /\ ((forall s', ~ progress s s') -> exited s <> None).
Proof.
  intros Hn n. destruct (nsteps_cost _ _ _ (mj_inv_init sleepTimes) Hn) as [Hk Hinv]. split.
  - assert (0 <= cost s) by (destruct (exited s) eqn:He; [unfold cost; rewrite He; lia|pose proof (cost_positive s Hinv He); lia]).
    assert (cost (mj_init sleepTimes) = n * (2 * n + 36) + 11) as Hc; [|lia].
    unfold cost, main_cost, round, mj_init. cbn [exited thread main_pc]. rewrite length_map. fold n.
    assert (total remaining (map (fun t => Slot TS_ALIVE t TNone) sleepTimes) = 7 * n) as ->; [|lia].
    unfold n. clear. induction sleepTimes as [|t ts IH]; [done|]. cbn [map total length]. rewrite IH. cbn. lia.
  - intros Hstuck He. destruct (no_deadlock s Hinv He) as [s' Hs']. by apply (Hstuck s').
Qed.

(** C31: thread_multijoin joins all its threads and ends.  Whatever the
    interleaving, with failing pthread calls and spurious wakeups, when it exits
    with EXIT_SUCCESS there is one slot for each argument, each slot is TS_JOINED
    and its thread has returned from threadFunc(), and numLive and numUnjoined
    are zero; a thread is never joined before it has returned; at most one thread
    is in a critical section; until the process exits some thread can take a
    step, so that the signal sent after the mutex is released is never lost; and
    without spurious wakeups n threads take at most n * (2 n + 36) + 11 steps. *)
Theorem multijoin_correct :
  (forall sleepTimes s,
   mj_reach (mj_init sleepTimes) s ->
    length (thread s) = length sleepTimes /\
    (exited s = Some 0 ->
       numLive s = 0 /\ numUnjoined s = 0 /\
       forall i x, thread s !! i = Some x -> state x = TS_JOINED /\ pc x = TEnd) /\
    (forall i x, thread s !! i = Some x -> state x = TS_JOINED -> pc x = TEnd) /\
    0 <= main_inside (main_pc s) + total inside (thread s) <= 1 /\
    (exited s = None -> exists s', progress s s')) /\
  (forall sleepTimes k s,
   nsteps progress k (mj_init sleepTimes) s ->
    let n := Z.of_nat (length sleepTimes) in
    Z.of_nat k <= n * (2 * n + 36) + 11 /\ ((forall s', ~ progress s s') -> exited s <> None)).
Proof. split_and!; [exact multijoin_joins_all|exact multijoin_terminates]. Qed.

(** ** Example run *)

(** Runs a schedule: [None] is a step of main, [Some i] one of thread [i]. *)
Fixpoint schedule (l : list (option nat)) (s : mj) : option mj :=
  match l with
  | [] => Some s
  | who :: l =>
      if bool_decide (exited s = None) then
        match (match who with None => main_step s | Some i => thread_step i s end) with
        | Some s' => schedule l s'
        | None => None
        end
      else None
  end.

Lemma schedule_nsteps l s s' : schedule l s = Some s' -> nsteps progress (length l) s s'.
Proof.
  revert s. induction l as [|who l IH]; intros s; cbn [schedule length]; [intros [= ->]; constructor|].
  case_bool_decide as Hex; [|done]. destruct who as [i|].
  - destruct (thread_step i s) eqn:E; [|done]. intros H. econstructor; [by eapply by_thread|by apply IH].
  - destruct (main_step s) eqn:E; [|done]. intros H. econstructor; [by eapply by_main|by apply IH].
Qed.

Lemma nsteps_reach k s0 s s' : mj_reach s0 s -> nsteps progress k s s' -> mj_reach s0 s'.
Proof.
  intros Hr Hn. induction Hn as [|k s1 s2 s3 Hp Hn IH]; [done|]. apply IH. eapply mj_reach_step; [done|by apply step_progress].
Qed.

(** Two threads; the second terminates while main waits, the first when main
    waits again. *)
Definition demo_schedule : list (option nat) :=
  replicate 6 None ++ replicate 6 (Some 1%nat) ++ replicate 10 None ++
  replicate 6 (Some 0%nat) ++ replicate 8 None.

Definition demo_end : mj := default (mj_init []) (schedule demo_schedule (mj_init [5; 2])).

Lemma demo_runs : nsteps progress 36 (mj_init [5; 2]) demo_end.
Proof. apply (schedule_nsteps demo_schedule). vm_compute. reflexivity. Qed.

Lemma multijoin_correct_witness :
  exited demo_end = Some 0 /\ numUnjoined demo_end = 0 /\ length (thread demo_end) = 2%nat /\ 36 <= 2 * (2 * 2 + 36) + 11.
Proof.
  destruct multijoin_correct as [Hsafe Hends]. destruct (Hsafe [5; 2] demo_end) as (Hlen & Hex & _).
  { eapply nsteps_reach; [apply mj_reach_refl|exact demo_runs]. }
  destruct (Hends [5; 2] 36%nat demo_end demo_runs) as [Hk _].
  destruct Hex as (_ & H & _); [vm_compute; reflexivity|]. split; [vm_compute; reflexivity|]. split; [exact H|]. split; [exact Hlen|exact Hk].
Defined.
