(* ===== verification/Pty.v ===== *)
(** * pty/: pseudoterminals

    pty_master_open.c and pty_fork.c open a pseudoterminal and start a child on
    its slave side; script.c and unbuffer.c relay bytes between the terminal and
    the master side, in raw mode.  As in Daemon.v, fork() replies 0 in the child,
    so a history is that of the parent or of the child.  Exit handlers are run
    by [at_exit]. *)

From S2P Require Import Prelude Sys LibErrors StreamIO Daemon Tty.

Definition O_NOCTTY : Z := 0x100.
Definition TIOCSCTTY : Z := 0x540e.
Definition TCSANOW : Z := 0.
Definition MAX_SNAME : Z := 1000.
Definition RELAY_BUF_SIZE : Z := 256.

Section Pty.
Context {T : ErrText}.

(** ** pty_master_open.c *)

(** [savedErrno = errno; close(masterFd); errno = savedErrno; return -1] *)
Definition closeAndFail {A} (masterFd errno : Z) : prog (res A) :=
  sys (Close masterFd) ;;; Ret (Err errno).

(** The master and the name that is stored in [slaveName]. *)
Definition ptyMasterOpen (snLen : Z) : prog (res (Z * list ascii)) :=
  m <- sys (Posix_openpt (Z.lor O_RDWR O_NOCTTY)) ;;
  match m with
  | Err e => Ret (Err e)
  | Ok masterFd =>
      g <- sys (Grantpt masterFd) ;;
      match g with
      | Err e => closeAndFail masterFd e
      | Ok _ =>
          u <- sys (Unlockpt masterFd) ;;
          match u with
          | Err e => closeAndFail masterFd e
          | Ok _ =>
              p <- sys (Ptsname masterFd) ;;
              match p with
              | Err e => closeAndFail masterFd e
              | Ok p =>
                  if strlen p <? snLen then Ret (Ok (masterFd, p))
                  else closeAndFail masterFd EOVERFLOW
              end
          end
      end
  end.

(** ** pty_fork.c *)

Definition check {A} (r : res A) (msg : list ascii) : prog unit :=
  match r with Ok _ => Ret tt | Err e => err_exit e msg end.

(** [if (dup2(slaveFd, fd) != fd) err_exit(...)] *)
Definition dupSlave (slaveFd fd : Z) (msg : list ascii) : prog unit :=
  r <- sys (Dup2 slaveFd fd) ;;
  match r with
  | Err e => err_exit e msg
  | Ok n => if negb (n =? fd) then err_exit 0 msg else Ret tt
  end.

(** Attributes and window size of the slave. *)
Definition setSlave (slaveFd : Z) (slaveTermios : option termios) (slaveWS : option winsize) : prog unit :=
  match slaveTermios with
  | Some t => r <- sys (Tcsetattr slaveFd TCSANOW t) ;; check r ($"ptyFork:tcsetattr")
  | None => Ret tt
  end ;;;
  match slaveWS with
  | Some ws => r <- sys (Tiocswinsz slaveFd ws) ;; check r ($"ptyFork:ioctl-TIOCSWINSZ")
  | None => Ret tt
  end.

(** The slave becomes standard input, output and error. *)
Definition slaveToStd (slaveFd : Z) : prog unit :=
  dupSlave slaveFd STDIN_FILENO ($"ptyFork:dup2-STDIN_FILENO") ;;;
  dupSlave slaveFd STDOUT_FILENO ($"ptyFork:dup2-STDOUT_FILENO") ;;;
  dupSlave slaveFd STDERR_FILENO ($"ptyFork:dup2-STDERR_FILENO") ;;;
  if STDERR_FILENO <? slaveFd then sys (Close slaveFd) ;;; Ret tt else Ret tt.

(** The child. *)
Definition slaveSide (mfd : Z) (slname : list ascii) (slaveTermios : option termios)
    (slaveWS : option winsize) : prog unit :=
  r <- sys Setsid ;;
  check r ($"ptyFork:setsid") ;;;
  sys (Close mfd) ;;;
  s <- sys (Open slname O_RDWR 0) ;;
  match s with
  | Err e => err_exit e ($"ptyFork:open-slave")
  | Ok slaveFd =>
      r <- sys (Ioctl slaveFd TIOCSCTTY) ;;
      check r ($"ptyFork:ioctl-TIOCSCTTY") ;;;
      setSlave slaveFd slaveTermios slaveWS ;;;
      slaveToStd slaveFd
  end.

(** The result, what is stored in [masterFd] (only in the parent) and in
    [slaveName]; [slaveName] is the size of that buffer, [None] for NULL. *)
Record pty := Pty { childPid : Z; ptyMaster : option Z; ptySlave : option (list ascii) }.

Definition ptyFork (slaveName : option Z) (slaveTermios : option termios) (slaveWS : option winsize) :
    prog (res pty) :=
  m <- ptyMasterOpen MAX_SNAME ;;
  match m with
  | Err e => Ret (Err e)
  | Ok (mfd, slname) =>
      if match slaveName with Some snLen => negb (strlen slname <? snLen) | None => false end
      then closeAndFail mfd EOVERFLOW
      else
        let name := match slaveName with Some _ => Some slname | None => None end in
        f <- sys Fork ;;
        match f with
        | Err e => closeAndFail mfd e
        | Ok childPid =>
            if negb (childPid =? 0) then Ret (Ok (Pty childPid (Some mfd) name))
            else slaveSide mfd slname slaveTermios slaveWS ;;; Ret (Ok (Pty 0 None name))
        end
  end.

(** ** script.c and unbuffer.c *)

(** A program after it has registered [f] with atexit(). *)
Fixpoint at_exit {A} (f : prog unit) (p : prog A) : prog A :=
  match p with
  | Ret a => Ret a
  | Halt (Exit status) => f ;;; Halt (Exit status)
  | Halt h => Halt h
  | Sys c k => Sys c (fun x => at_exit f (k x))
  end.

Definition ttyReset (ttyOrig : termios) : prog unit :=
  r <- sys (Tcsetattr STDIN_FILENO TCSANOW ttyOrig) ;;
  match r with Err e => errExit e ($"tcsetattr") | Ok _ => Ret tt end.

Definition writeAll (fd : Z) (name : list ascii) (buf : list ascii) : prog unit :=
  r <- sys (Write fd buf) ;;
  if match r with Ok n => n =? strlen buf | Err _ => false end then Ret tt
  else fatal ($"partial/failed write (" ++ name ++ $")").

(** [numRead = read(...); if (numRead <= 0) exit(EXIT_SUCCESS);] *)
Definition readSome (fd : Z) : prog (list ascii) :=
  r <- sys (Read fd RELAY_BUF_SIZE) ;;
  match r with
  | Ok (c :: l) => Ret (c :: l)
  | _ => Halt (Exit EXIT_SUCCESS)
  end.

(** The loop of both programs: script.c also writes to the descriptor [script]
    of the typescript. *)
Fixpoint relay (fuel : nat) (masterFd : Z) (script : option Z) : prog unit :=
  match fuel with
  | O => Halt OutOfFuel
  | S fuel =>
      r <- sys (Select [STDIN_FILENO; masterFd]) ;;
      match r with
      | Err e => errExit e ($"select")
      | Ok inFds =>
          (if bool_decide (STDIN_FILENO ∈ inFds) then
             buf <- readSome STDIN_FILENO ;;
             writeAll masterFd ($"masterFd") buf
           else Ret tt) ;;;
          (if bool_decide (masterFd ∈ inFds) then
             buf <- readSome masterFd ;;
             writeAll STDOUT_FILENO ($"STDOUT_FILENO") buf ;;;
             match script with
             | Some scriptFd => writeAll scriptFd ($"scriptFd") buf
             | None => Ret tt
             end
           else Ret tt) ;;;
          relay fuel masterFd script
      end
  end.

(** [ttySetRaw(STDIN_FILENO, &ttyOrig); if (atexit(ttyReset) != 0) errExit;]
    and the loop.  ttySetRaw() stores the attributes in [ttyOrig] again. *)
Definition relayRaw (fuel : nat) (ttyOrig : termios) (masterFd : Z) (script : option Z) : prog unit :=
  '(_, prev) <- ttySetRaw STDIN_FILENO true ;;
  let ttyOrig := match prev with Some t => t | None => ttyOrig end in
  a <- sys (Atexit "ttyReset") ;;
  match a with
  | Err e => errExit e ($"atexit")
  | Ok _ => at_exit (ttyReset ttyOrig) (relay fuel masterFd script)
  end.

Definition withTerminal (k : termios -> winsize -> prog unit) (msg : list ascii) : prog unit :=
  t <- sys (Tcgetattr STDIN_FILENO) ;;
  match t with
  | Err e => errExit e ($"tcgetattr")
  | Ok ttyOrig =>
      w <- sys (Tiocgwinsz STDIN_FILENO) ;;
      match w with
      | Err e => errExit e msg
      | Ok ws => k ttyOrig ws
      end
  end.

Definition RW_RW_RW : Z := 0x1b6.
Definition O_WRONLY_CREAT_TRUNC : Z := 0x241.

(** The shell that script.c starts; execlp() with the list [shell, NULL]. *)
Definition execShell : prog unit :=
  s <- sys (Getenv ($"SHELL")) ;;
  let shell := match s with Some (c :: s) => c :: s | _ => $"/bin/sh" end in
  e <- execvp shell [shell] ;;
  errExit e ($"execlp").

(** The parent of script.c. *)
Definition scriptParent (fuel : nat) (argv : list (list ascii)) (ttyOrig : termios) (masterFd : Z) : prog unit :=
  s <- sys (Open (match argv with _ :: f :: _ => f | _ => $"typescript" end) O_WRONLY_CREAT_TRUNC RW_RW_RW) ;;
  match s with
  | Err e => errExit e ($"open typescript")
  | Ok scriptFd => relayRaw fuel ttyOrig masterFd (Some scriptFd)
  end.

Definition script_main (fuel : nat) (argv : list (list ascii)) : prog unit :=
  withTerminal (fun ttyOrig ws =>
    r <- ptyFork (Some MAX_SNAME) (Some ttyOrig) (Some ws) ;;
    match r with
    | Err e => errExit e ($"ptyFork")
    | Ok (Pty pid master _) =>
        if pid =? 0 then execShell
        else scriptParent fuel argv ttyOrig (match master with Some m => m | None => -1 end)
    end) ($"ioctl-TIOCGWINSZ").

Definition unbuffer_main (fuel : nat) (argv : list (list ascii)) : prog unit :=
  withTerminal (fun ttyOrig ws =>
    r <- ptyFork (Some MAX_SNAME) (Some ttyOrig) (Some ws) ;;
    match r with
    | Err e => errExit e ($"ptyFork")
    | Ok (Pty pid master _) =>
        if pid =? 0 then
          e <- match argv with
               | _ :: f :: args => execvp f (f :: args)
               | _ => Halt (Undefined "argv[1] is NULL")
               end ;;
          errExit e ($"execvp")
        else relayRaw fuel ttyOrig (match master with Some m => m | None => -1 end) None
    end) ($"TIOCGWINSZ error").
End Pty.

(** ** The state of the process and of the terminal *)

Section State.
Context {T : ErrText} (t0 : Z -> option (list ascii)) (a0 : termios).

(** The controlling terminal of the session that the process has created. *)
Fixpoint ctty_of (h : history) : option (list ascii) :=
  match h with
  | [] => None
  | Ev c r :: h =>
      match c in call X return X -> option (list ascii) with
      | Setsid => fun r => match r with Ok _ => None | Err _ => ctty_of h end
      | Ioctl fd request => fun r =>
          match r with Ok _ => if request =? TIOCSCTTY then fds_of t0 h fd else ctty_of h | Err _ => ctty_of h end
      | _ => fun _ => ctty_of h
      end r
  end.

(** The attributes of the terminal on the standard input, [a0] at the start. *)
Definition tty_step (e : event) (t : termios) : termios :=
  match e with
  | Ev c r =>
      match c in call X return X -> termios with
      | Tcsetattr fd _ a => fun r => match r with Ok _ => if fd =? STDIN_FILENO then a else t | Err _ => t end
      | _ => fun _ => t
      end r
  end.
Definition tty_of (h : history) : termios := fold_right tty_step a0 h.

(** tcgetattr() reports the attributes that were set last (termios(3)). *)
Definition tty_env : env := fun h X c r =>
  lowest_fd t0 h X c r /\
  match c in call X return X -> Prop with
  | Tcgetattr fd => fun r => match r with Ok a => fd = STDIN_FILENO -> a = tty_of h | Err _ => True end
  | _ => fun _ => True
  end r.

(** No bytes are transferred and no attributes are set. *)
Definition calm (e : event) : Prop :=
  match e with Ev c _ => match c with Read _ _ | Write _ _ | Tcsetattr _ _ _ => False | _ => True end end.

Lemma calm_no_bytes h fd : Forall calm h -> input fd h = [] /\ output fd h = [] /\ tty_of h = a0.
Proof.
  induction 1 as [|[X c r] h He _ (IHi & IHo & IHt)]; [done|]. cbn [input output tty_of fold_right].
  fold (tty_of h). rewrite IHi, IHo, IHt. by destruct c.
Qed.

Lemma reporting_calm k : Forall reporting k -> Forall calm k.
Proof. intros H. eapply Forall_impl; [exact H|]. intros [X c r]. by destruct c. Qed.

(** What is known when [ptyFork] is called. *)
Definition fresh (h : history) : Prop := Forall calm h /\ forall x, fds_of t0 h x = t0 x.

(** ** ptyMasterOpen *)

Definition opened_master (snLen : Z) (o : outcome (res (Z * list ascii))) (h : history) : Prop :=
  Forall calm h /\
  ((exists e, o = Done (Err e) /\ forall x, fds_of t0 h x = t0 x) \/
   (exists m p, o = Done (Ok (m, p)) /\ 0 <= m /\ t0 m = None /\ (forall x, 0 <= x < m -> t0 x <> None) /\
      strlen p < snLen /\ Ev (Ptsname m) (Ok p) ∈ h /\
      forall x, fds_of t0 h x = if x =? m then Some ($"/dev/ptmx") else t0 x)).

Lemma wp_ptyMasterOpen snLen h :
  fresh h -> wp (lowest_fd t0) (ptyMasterOpen snLen) (opened_master snLen) h.
Proof.
  intros [Hc Hf]. unfold ptyMasterOpen. apply wp_sys_bind. intros [m|e] [_ Hm].
  2: { split; [by constructor|]. left. by exists e. }
  destruct Hm as (Hm0 & Hm & Hlow). rewrite Hf in Hm.
  assert (forall x, fds_of t0 (Ev (Posix_openpt (Z.lor O_RDWR O_NOCTTY)) (Ok m) :: h) x =
    if x =? m then Some ($"/dev/ptmx") else t0 x) as Ho by (intros x; cbn; by rewrite Hf).
  assert (forall k r, Forall calm k -> (forall x, fds_of t0 k x = if x =? m then Some ($"/dev/ptmx") else t0 x) ->
    forall e, opened_master snLen (Done (Err e)) (Ev (Close m) r :: k)) as Hclose.
  { intros k r Hk Hx e. split; [by constructor|]. left. exists e. split; [done|]. intros x. cbn.
    destruct (Z.eqb_spec x m) as [->|Hne]; [done|]. rewrite Hx. by rewrite (proj2 (Z.eqb_neq x m)). }
  intros [g|e] _; [|intros r _; apply Hclose; [by repeat constructor|done]].
  intros [u|e] _; [|intros r _; apply Hclose; [by repeat constructor|done]].
  intros [p|e] _; [|intros r _; apply Hclose; [by repeat constructor|done]].
  cbn [bind]. destruct (Z.ltb_spec (strlen p) snLen); [|intros r _; apply Hclose; [by repeat constructor|done]].
  split; [by repeat constructor|]. right. exists m, p. split_and!; try done; [|by left].
  intros x Hx. rewrite <- Hf. by apply Hlow.
Qed.

(** ** ptyFork *)

(** The child after a successful [ptyFork]: it leads a new session whose
    controlling terminal is the slave, the standard descriptors refer to the
    slave, every other descriptor is as before. *)
Definition on_slave (name : list ascii) (h : history) : Prop :=
  session_of h = Session true true /\ ctty_of h = Some name /\
  forall x, fds_of t0 h x = if (0 <=? x) && (x <=? 2) then Some name else t0 x.

Definition slave_post (name : list ascii) (slaveTermios : option termios) (slaveWS : option winsize)
    (o : outcome unit) (h : history) : Prop :=
  stops_failing o \/
  o = Done tt /\ on_slave name h /\ exists fd,
    match slaveTermios with Some t => Ev (Tcsetattr fd TCSANOW t) (Ok tt) ∈ h | None => True end /\
    match slaveWS with Some ws => Ev (Tiocswinsz fd ws) (Ok tt) ∈ h | None => True end.

(** The rule for statements that return or fail. *)
Lemma wp_or_fails {A B} (E : env) (p : prog A) (f : A -> prog B) (P : A -> history -> Prop)
    (Q : outcome B -> history -> Prop) h :
  wp E p (fun o h' => stops_failing o \/ exists a, o = Done a /\ P a h') h ->
  (forall o h', stops_failing o -> Q o h') -> (forall a h', P a h' -> wp E (f a) Q h') ->
  wp E (bind p f) Q h.
Proof.
  intros Hp Hf Hd. eapply wp_call; [exact Hp|..].
  - intros a h' [H|(a' & [= <-] & H)]; [|by apply Hd]. by destruct H as [?|[?|?]].
  - intros s h' [H|(a' & ? & _)]; [|done]. apply Hf. by destruct H as [[= ->]|[[= ->]|[= ->]]]; unfold stops_failing; auto.
Qed.

Lemma wp_check {A} (E : env) (r : res A) msg h :
  wp E (check r msg) (fun o h' => stops_failing o \/ exists a, o = Done a /\ ((exists v, r = Ok v) /\ h' = h)) h.
Proof. destruct r as [v|e]; [right; exists tt; eauto|]. apply wp_err_exit. by left. Qed.

(** An optional setting of the slave. *)
Lemma wp_setting {A} (E : env) (x : option A) (c : A -> call (res unit)) msg h :
  wp E (match x with Some t => r <- sys (c t) ;; check r msg | None => Ret tt end)
    (fun o h' => stops_failing o \/ exists a, o = Done a /\
       h' = match x with Some t => Ev (c t) (Ok tt) :: h | None => h end) h.
Proof.
  destruct x as [t|]; [|right; by exists tt]. apply wp_sys_bind. intros [[]|e] _; [right; by exists tt|].
  apply wp_err_exit. by left.
Qed.

Lemma wp_setSlave (E : env) slaveFd x y h :
  wp E (setSlave slaveFd x y) (fun o h' => stops_failing o \/ exists a, o = Done a /\
    h' = match y with Some ws => [Ev (Tiocswinsz slaveFd ws) (Ok tt)] | None => [] end ++
         match x with Some t => [Ev (Tcsetattr slaveFd TCSANOW t) (Ok tt)] | None => [] end ++ h) h.
Proof.
  eapply wp_or_fails; [apply wp_setting|by left|]. intros a h' ->.
  eapply wp_mono; [|apply wp_setting]. intros o h' [H|(b & -> & ->)]; [by left|]. right. exists b. split; [done|].
  by destruct x, y.
Qed.

Lemma wp_dupSlave (E : env) slaveFd fd msg h :
  (forall h X (c : call X) r, E h X c r -> posix h X c r) ->
  wp E (dupSlave slaveFd fd msg)
    (fun o h' => stops_failing o \/ exists a, o = Done a /\ h' = Ev (Dup2 slaveFd fd) (Ok fd) :: h) h.
Proof.
  intros HE. apply wp_sys_bind. intros [n|e] Hr; [|apply wp_err_exit; by left]. apply HE in Hr. cbn in Hr. subst n.
  cbn [bind]. rewrite Z.eqb_refl. right. by exists tt.
Qed.

Lemma wp_slaveToStd (E : env) slaveFd name h :
  (forall h X (c : call X) r, E h X c r -> posix h X c r) ->
  0 <= slaveFd -> (2 < slaveFd -> t0 slaveFd = None) ->
  (forall x, fds_of t0 h x = if x =? slaveFd then Some name else t0 x) ->
  wp E (slaveToStd slaveFd) (fun o h' => stops_failing o \/ exists a, o = Done a /\
    (exists k, h' = k ++ h) /\ session_of h' = session_of h /\ ctty_of h' = ctty_of h /\
    forall x, fds_of t0 h' x = if (0 <=? x) && (x <=? 2) then Some name else t0 x) h.
Proof.
  intros HE Hs Ht Hf. unfold slaveToStd.
  eapply wp_or_fails; [by apply wp_dupSlave|by left|]. intros _ h1 ->.
  eapply wp_or_fails; [by apply wp_dupSlave|by left|]. intros _ h2 ->.
  eapply wp_or_fails; [by apply wp_dupSlave|by left|]. intros _ h3 ->.
  assert (forall x, fds_of t0 (Ev (Dup2 slaveFd STDERR_FILENO) (Ok STDERR_FILENO) ::
    Ev (Dup2 slaveFd STDOUT_FILENO) (Ok STDOUT_FILENO) :: Ev (Dup2 slaveFd STDIN_FILENO) (Ok STDIN_FILENO) :: h) x =
    if (0 <=? x) && (x <=? 2) then Some name else if x =? slaveFd then Some name else t0 x) as Hd.
  { intros x. unfold STDERR_FILENO, STDOUT_FILENO, STDIN_FILENO. cbn.
    change (fold_right fd_step t0 h) with (fds_of t0 h). rewrite !Hf, !Z.eqb_refl.
    destruct (Z.eqb_spec x 2) as [->|]; [by repeat case_match|]. destruct (Z.eqb_spec x 1) as [->|]; [by repeat case_match|].
    destruct (Z.eqb_spec x 0) as [->|]; [by repeat case_match|]. rewrite (proj2 (andb_false_iff _ _)); [done|].
    rewrite !Z.leb_gt. lia. }
  destruct (Z.ltb_spec STDERR_FILENO slaveFd) as [Hlt|Hge].
  - intros r _. right. exists tt. split_and!; try done; [by eexists [_; _; _; _]|]. intros x.
    transitivity (if x =? slaveFd then None else fds_of t0 (Ev (Dup2 slaveFd STDERR_FILENO) (Ok STDERR_FILENO) ::
      Ev (Dup2 slaveFd STDOUT_FILENO) (Ok STDOUT_FILENO) :: Ev (Dup2 slaveFd STDIN_FILENO) (Ok STDIN_FILENO) :: h) x); [done|].
    rewrite Hd.
    unfold STDERR_FILENO in Hlt. destruct (Z.eqb_spec x slaveFd) as [->|]; [|done].
    rewrite (proj2 (andb_false_iff _ _)); [by rewrite Ht|]. rewrite !Z.leb_gt. lia.
  - right. exists tt. split_and!; try done; [by eexists [_; _; _]|]. intros x. rewrite Hd.
    unfold STDERR_FILENO in Hge. destruct ((0 <=? x) && (x <=? 2)) eqn:Hx; [done|].
    destruct (Z.eqb_spec x slaveFd) as [->|]; [|done]. apply andb_false_iff in Hx. rewrite !Z.leb_gt in Hx. lia.
Qed.

Lemma wp_slaveSide mfd name slaveTermios slaveWS h :
  0 <= mfd -> t0 mfd = None -> (forall x, fds_of t0 h x = if x =? mfd then Some ($"/dev/ptmx") else t0 x) ->
  wp (lowest_fd t0) (slaveSide mfd name slaveTermios slaveWS) (slave_post name slaveTermios slaveWS) h.
Proof.
  intros Hm Hm0 Hf. unfold slaveSide. apply wp_sys_bind. intros r _.
  eapply wp_or_fails; [apply wp_check|by left|]. intros _ h1 [[sid ->] ->].
  apply wp_sys_bind. intros c _. apply wp_sys_bind.
  set (h1 := Ev (Close mfd) c :: _).
  assert (forall x, fds_of t0 h1 x = t0 x) as Hf1.
  { intros x. unfold h1. cbn. destruct (Z.eqb_spec x mfd) as [->|Hne]; [done|]. change (fold_right fd_step t0 h x) with (fds_of t0 h x).
    by rewrite Hf, (proj2 (Z.eqb_neq x mfd)). }
  intros [s|e] [_ Hs]; [|apply wp_err_exit; by left]. destruct Hs as (Hs0 & Hs & _). rewrite Hf1 in Hs.
  apply wp_sys_bind. intros r _. eapply wp_or_fails; [apply wp_check|by left|]. intros _ h2 [[v ->] ->].
  set (h2 := Ev (Ioctl s TIOCSCTTY) (Ok v) :: _).
  assert (forall x, fds_of t0 h2 x = if x =? s then Some name else t0 x) as Hf2 by (intros x; unfold h2; cbn; by rewrite <- Hf1).
  assert (ctty_of h2 = Some name) as Hc by (unfold h2; cbn; by rewrite Z.eqb_refl).
  eapply wp_or_fails; [apply wp_setSlave|by left|]. intros _ h3 ->. set (h3 := _ ++ _ ++ h2).
  assert (forall x, fds_of t0 h3 x = fds_of t0 h2 x) as Hf3 by (intros x; unfold h3; by destruct slaveTermios, slaveWS).
  assert (ctty_of h3 = ctty_of h2 /\ session_of h3 = session_of h2) as [Hc3 Hs3] by (unfold h3; by destruct slaveTermios, slaveWS).
  eapply wp_mono; [|apply (wp_slaveToStd _ s name); [by intros ? ? ? ? []|done|done|]].
  2: { intros x. by rewrite Hf3, Hf2. }
  intros o h4 [H|(a & -> & (k & ->) & Hses & Hct & Hf4)]; [by left|]. right. destruct a. split; [done|].
  split; [split_and!; [by rewrite Hses, Hs3|by rewrite Hct, Hc3|done]|]. exists s. unfold h3.
  destruct slaveTermios, slaveWS; split; try done; set_solver.
Qed.

(** What [ptyFork] has done when it returns or the child stops. *)
Definition pty_post (slaveName : option Z) (slaveTermios : option termios) (slaveWS : option winsize)
    (o : outcome (res pty)) (h : history) : Prop :=
  (exists e, o = Done (Err e) /\ Forall calm h /\ forall x, fds_of t0 h x = t0 x) \/
  (exists m name, 0 <= m /\ t0 m = None /\ (forall x, 0 <= x < m -> t0 x <> None) /\ Ev (Ptsname m) (Ok name) ∈ h /\
    strlen name < MAX_SNAME /\
    ((exists pid, 0 < pid /\ o = Done (Ok (Pty pid (Some m) (const name <$> slaveName))) /\ Forall calm h /\
        forall x, fds_of t0 h x = if x =? m then Some ($"/dev/ptmx") else t0 x) \/
     Ev Fork (Ok 0) ∈ h /\
       (stops_failing o \/
        o = Done (Ok (Pty 0 None (const name <$> slaveName))) /\ on_slave name h /\ exists fd,
          match slaveTermios with Some t => Ev (Tcsetattr fd TCSANOW t) (Ok tt) ∈ h | None => True end /\
          match slaveWS with Some ws => Ev (Tiocswinsz fd ws) (Ok tt) ∈ h | None => True end))).

(** The program keeps what is in the history. *)
Lemma wp_keeps {A} (E : env) (p : prog A) (Q : outcome A -> history -> Prop) e h :
  e ∈ h -> wp E p Q h -> wp E p (fun o h' => e ∈ h' /\ Q o h') h.
Proof.
  intros He Hp. eapply wp_mono; [|apply wp_conj; [apply wp_extends|exact Hp]]. intros o h' [[k ->] HQ].
  split; [|done]. apply elem_of_app. by right.
Qed.

Lemma wp_ptyFork slaveName slaveTermios slaveWS h :
  fresh h -> wp (lowest_fd t0) (ptyFork slaveName slaveTermios slaveWS) (pty_post slaveName slaveTermios slaveWS) h.
Proof.
  intros Hfr. unfold ptyFork. eapply wp_call; [by apply wp_ptyMasterOpen| |].
  2: { intros s h1 [_ [(e & ? & _)|(m & p & ? & _)]]; done. }
  clear h Hfr. intros a h [Hcalm [(e & [= ->] & Hf)|(m & name & [= ->] & Hm & Hm0 & Hlow & Hlen & Hpts & Hf)]].
  { left. by exists e. }
  assert (forall k r, Forall calm k -> (forall x, fds_of t0 k x = if x =? m then Some ($"/dev/ptmx") else t0 x) ->
    forall e, pty_post slaveName slaveTermios slaveWS (Done (Err e)) (Ev (Close m) r :: k)) as Hclose.
  { intros k r Hk Hx e. left. exists e. split; [done|]. split; [by constructor|]. intros x. cbn.
    destruct (Z.eqb_spec x m) as [->|Hne]; [done|]. change (fold_right fd_step t0 k x) with (fds_of t0 k x).
    by rewrite Hx, (proj2 (Z.eqb_neq x m)). }
  assert ((match slaveName with Some _ => Some name | None => None end) = const name <$> slaveName) as Hname
    by (by destruct slaveName).
  cbn beta iota. rewrite Hname.
  destruct (match slaveName with Some n => negb (strlen name <? n) | None => false end); [intros r _; by apply Hclose|].
  apply wp_sys_bind. intros [pid|e] [Hpid _]; [|intros r _; apply Hclose; [by constructor|done]].
  cbn in Hpid. destruct (Z.eqb_spec pid 0) as [->|Hne]; cbn [negb].
  2: { right. exists m, name. split_and!; try done; [by right|]. left. exists pid. split_and!; [lia|done|by constructor|done]. }
  eapply wp_call; [eapply wp_keeps; [|eapply (wp_keeps _ _ _ (Ev Fork (Ok 0)))]|..]; [by right; exact Hpts|by left|by apply wp_slaveSide|..].
  - intros [] h' (Hp & Hfk & [Hst|(_ & Hon & Hx)]); [by destruct Hst as [?|[?|?]]|].
    right. exists m, name. split_and!; try done. right. split; [done|]. by right.
  - intros s h' (Hp & Hfk & [Hst|(? & _)]); [|done]. right. exists m, name. split_and!; try done. right. split; [done|]. left.
    by destruct Hst as [[= ->]|[[= ->]|[= ->]]]; unfold stops_failing; auto.
Qed.

End State.

(** [ptyFork] starts a child on a pseudoterminal, and [ptyMasterOpen] opens
    one.  For every table of open descriptors: if it reports an error, no
    descriptor was opened or lost; the parent gets the pid and exactly one new
    descriptor, the master; the child returns 0 only as leader of a new session
    whose controlling terminal is the slave whose name was reported, with the
    attributes and the window size that were asked for, with standard input,
    output and error on the slave and every other descriptor as it was (the
    master included), even if the standard descriptors were closed; otherwise
    the child ends with a failure status. *)
Lemma ptyFork_correct {T : ErrText} t0 slaveName slaveTermios slaveWS :
  wp (lowest_fd t0) (ptyFork slaveName slaveTermios slaveWS) (fun o h =>
    (exists e, o = Done (Err e) /\ forall x, fds_of t0 h x = t0 x) \/
    exists m name, t0 m = None /\ Ev (Ptsname m) (Ok name) ∈ h /\
      ((exists pid, 0 < pid /\ o = Done (Ok (Pty pid (Some m) (const name <$> slaveName))) /\
          forall x, fds_of t0 h x = if x =? m then Some ($"/dev/ptmx") else t0 x) \/
       Ev Fork (Ok 0) ∈ h /\
         (stops_failing o \/
          o = Done (Ok (Pty 0 None (const name <$> slaveName))) /\
          session_of h = Session true true /\ ctty_of t0 h = Some name /\
          (forall x, fds_of t0 h x = if (0 <=? x) && (x <=? 2) then Some name else t0 x) /\
          exists fd,
            match slaveTermios with Some t => Ev (Tcsetattr fd TCSANOW t) (Ok tt) ∈ h | None => True end /\
            match slaveWS with Some ws => Ev (Tiocswinsz fd ws) (Ok tt) ∈ h | None => True end))) [].
Proof.
  eapply wp_mono; [|apply wp_ptyFork; by split]. intros o h [(e & -> & _ & Hf)|(m & name & Hm & Hm0 & _ & Hp & _ & H)].
  - left. by exists e.
  - right. exists m, name. split_and!; try done. destruct H as [(pid & Hpid & -> & _ & Hf)|(Hfk & H)].
    + left. by exists pid.
    + right. split; [done|]. destruct H as [H|(-> & (Hs & Hc & Hf) & Hfd)]; [by left|]. right. by split_and!.
Qed.

(** ** The relay *)

Section Relay.
Context {T : ErrText} (t0 : Z -> option (list ascii)) (a0 : termios).
Context (E : env) (HE : forall h X (c : call X) r, E h X c r -> posix h X c r).

(** The history grows by events that leave the terminal alone, [part] is
    written to [fd]. *)
Definition wrote (fd : Z) (part : list ascii) (h h' : history) : Prop :=
  (forall x, output x h' = output x h ++ if x =? fd then part else []) /\
  (forall x, input x h' = input x h) /\ tty_of a0 h' = tty_of a0 h.

Lemma wp_writeAll fd name buf h :
  wp E (writeAll fd name buf) (fun o h' => exists part, part `prefix_of` buf /\ wrote fd part h h' /\
    (stops_failing o \/ o = Done tt /\ part = buf)) h.
Proof.
  apply wp_sys_bind. intros r Hr. apply HE in Hr. cbn in Hr.
  set (part := match r with Ok n => take (Z.to_nat n) buf | Err _ => [] end).
  assert (forall k, Forall calm k -> wrote fd part h (k ++ Ev (Write fd buf) r :: h)) as Hw.
  { intros k Hk. split_and!; [intros x; rewrite output_app|intros x; rewrite input_app|unfold tty_of; rewrite foldr_app].
    - destruct (calm_no_bytes a0 k x Hk) as (_ & -> & _). rewrite app_nil_r. unfold part. cbn [output put].
      rewrite (Z.eqb_sym x fd). destruct r as [n|e]; by destruct (fd =? x).
    - destruct (calm_no_bytes a0 k x Hk) as (-> & _ & _). rewrite app_nil_r. cbn. by rewrite app_nil_r.
    - cbn [fold_right tty_step]. clear -Hk. induction Hk as [|[X c v] k Hc Hk IH]; [done|]. cbn [fold_right].
      rewrite IH. by destruct c. }
  assert (part `prefix_of` buf) as Hpre.
  { unfold part. destruct r; [|apply prefix_nil]. exists (drop (Z.to_nat a) buf). by rewrite take_drop. }
  destruct (match r with Ok n => n =? strlen buf | Err _ => false end) eqn:Hn.
  - exists part. split_and!; [done|by apply (Hw [])|]. right. split; [done|]. destruct r as [n|]; [|done].
    apply Z.eqb_eq in Hn. unfold part, strlen in *. rewrite Hn, Nat2Z.id. apply firstn_all.
  - apply wp_reporting. intros o k Ho Hk. exists part. split_and!; [done|by apply Hw, reporting_calm|by left].
Qed.

Definition received (fd : Z) (buf : list ascii) (h h' : history) : Prop :=
  (forall x, input x h' = input x h ++ if x =? fd then buf else []) /\
  (forall x, output x h' = output x h) /\ tty_of a0 h' = tty_of a0 h.

Lemma wp_readSome fd h :
  wp E (readSome fd) (fun o h' => exists buf, received fd buf h h' /\
    (o = Stop (Exit EXIT_SUCCESS) /\ buf = [] \/ o = Done buf)) h.
Proof.
  apply wp_sys_bind. intros r _. set (buf := match r with Ok d => d | Err _ => [] end).
  assert (received fd buf h (Ev (Read fd RELAY_BUF_SIZE) r :: h)) as Hr.
  { split_and!; [|intros x; cbn; by rewrite app_nil_r|done]. intros x. cbn [input got]. unfold buf.
    rewrite (Z.eqb_sym x fd). destruct r; by destruct (fd =? x). }
  unfold buf in *. clear buf. destruct r as [[|c l]|e]; (eexists; split; [exact Hr|auto]).
Qed.

Context (m : Z) (script : option Z).
Context (Hm : m <> 0 /\ m <> 1) (Hs : forall s, script = Some s -> s <> m /\ s <> 1).

(** Everything that was read has been passed on; a prefix of it has. *)
Definition passed_on (h : history) : Prop :=
  output m h = input STDIN_FILENO h /\ output STDOUT_FILENO h = input m h /\
  forall s, script = Some s -> output s h = input m h.
Definition passed_prefix (h : history) : Prop :=
  output m h `prefix_of` input STDIN_FILENO h /\ output STDOUT_FILENO h `prefix_of` input m h /\
  forall s, script = Some s -> output s h `prefix_of` input m h.

Definition relayed (a : termios) {A} (o : outcome A) (h : history) : Prop :=
  passed_prefix h /\ tty_of a0 h = a /\
  (stops_failing o \/
   (match o with Done _ => True | Stop s => s = Exit EXIT_SUCCESS \/ s = OutOfFuel end) /\ passed_on h).

Lemma passed_is_prefix h : passed_on h -> passed_prefix h.
Proof. intros (H1 & H2 & H3). split_and!; [by rewrite H1|by rewrite H2|]. intros s Hx. by rewrite (H3 s Hx). Qed.

Lemma relayed_bind {A} (p : prog unit) (q : prog A) a h :
  wp E p (relayed a) h -> (forall h', passed_on h' -> tty_of a0 h' = a -> wp E q (relayed a) h') ->
  wp E (p ;;; q) (relayed a) h.
Proof.
  intros Hp Hq. eapply wp_call; [exact Hp|..].
  - intros [] h' (_ & Ht & [H|[_ H]]); [by destruct H as [?|[?|?]]|]. by apply Hq.
  - intros s h' (H1 & H2 & [H|[H H3]]); split_and!; try done; [left|by right].
    by destruct H as [[= ->]|[[= ->]|[= ->]]]; unfold stops_failing; auto.
Qed.

Lemma wp_fromStdin h : passed_on h ->
  wp E (buf <- readSome STDIN_FILENO ;; writeAll m ($"masterFd") buf) (relayed (tty_of a0 h)) h.
Proof.
  intros Hp. pose proof (passed_is_prefix h Hp) as Hpre. destruct Hp as (Hp1 & Hp2 & Hp3). destruct Hpre as (_ & _ & Hq3).
  eapply wp_call; [apply wp_readSome|..].
  - intros buf h1 (buf' & (Hi & Ho & Ht) & [[? _]|[= <-]]); [done|].
    eapply wp_mono; [|apply wp_writeAll]. intros o h2 (part & Hpart & (Hwo & Hwi & Hwt) & H).
    assert (output m h2 = output m h ++ part /\ input STDIN_FILENO h2 = input STDIN_FILENO h ++ buf) as [E1 E2].
    { by rewrite Hwo, Ho, Hwi, Hi, !Z.eqb_refl. }
    assert (forall x, x <> m -> output x h2 = output x h) as E3.
    { intros x Hx. by rewrite Hwo, Ho, (proj2 (Z.eqb_neq x m)), app_nil_r. }
    assert (input m h2 = input m h) as E4.
    { rewrite Hwi, Hi, (proj2 (Z.eqb_neq m STDIN_FILENO)), app_nil_r; [done|]. unfold STDIN_FILENO. tauto. }
    unfold relayed, passed_prefix, passed_on. rewrite E1, E2, E4, (E3 STDOUT_FILENO), Hwt, Ht, Hp1, Hp2 by (unfold STDOUT_FILENO; lia).
    split_and!; [by apply prefix_app|done|intros s Hx; rewrite E3 by (by destruct (Hs s Hx)); by apply Hq3|done|].
    destruct H as [H|[-> ->]]; [by left|]. right. split_and!; try done. intros s Hx. rewrite E3 by (by destruct (Hs s Hx)). by apply Hp3.
  - intros s h1 (buf & (Hi & Ho & Ht) & [[[= ->] ->]|?]); [|done].
    assert (forall x, input x h1 = input x h) as Hi' by (intros x; rewrite Hi; destruct (x =? _); apply app_nil_r).
    unfold relayed, passed_prefix, passed_on. rewrite !Ho, !Hi', Hp1, Hp2, Ht. split_and!; try done.
    + intros x Hx. rewrite Ho, (Hp3 x Hx). done.
    + right. split_and!; auto. intros x Hx. by rewrite Ho, Hp3.
Qed.
Lemma prefix_grow {A} (l a b : list A) : l `prefix_of` a -> l `prefix_of` a ++ b.
Proof. intros [k ->]. exists (k ++ b). by rewrite app_assoc. Qed.

Lemma wp_fromMaster h : passed_on h ->
  wp E (buf <- readSome m ;; writeAll STDOUT_FILENO ($"STDOUT_FILENO") buf ;;;
        match script with Some scriptFd => writeAll scriptFd ($"scriptFd") buf | None => Ret tt end)
    (relayed (tty_of a0 h)) h.
Proof.
  intros (Hp1 & Hp2 & Hp3). eapply wp_call; [apply wp_readSome|..].
  2: { intros s h1 (buf & (Hi & Ho & Ht) & [[[= ->] ->]|?]); [|done].
    assert (passed_on h1) as Hok.
    { assert (forall x, input x h1 = input x h) as Hi' by (intros x; rewrite Hi; destruct (x =? _); apply app_nil_r).
      split_and!; [by rewrite Ho, Hi'|by rewrite Ho, Hi'|]. intros x Hx. by rewrite Ho, Hi', Hp3. }
    split_and!; [by apply passed_is_prefix|done|]. right. split; [by left|done]. }
  intros buf h1 (buf' & (Hi & Ho & Ht) & [[? _]|[= <-]]); [done|].
  assert (input m h1 = input m h ++ buf /\ input STDIN_FILENO h1 = input STDIN_FILENO h) as [Em E0].
  { rewrite !Hi, Z.eqb_refl, (proj2 (Z.eqb_neq STDIN_FILENO m)) by (unfold STDIN_FILENO; lia). by rewrite app_nil_r. }
  eapply wp_call; [apply wp_writeAll|..].
  - intros [] h2 (part & _ & (Hwo & Hwi & Hwt) & [H|[_ ->]]); [by destruct H as [?|[?|?]]|].
    assert (output STDOUT_FILENO h2 = input m h ++ buf /\ output m h2 = input STDIN_FILENO h) as [O1 Om].
    { rewrite !Hwo, !Ho, Z.eqb_refl, (proj2 (Z.eqb_neq m STDOUT_FILENO)) by (unfold STDOUT_FILENO; lia).
      by rewrite Hp1, Hp2, app_nil_r. }
    destruct script as [s|] eqn:Hsc.
    + destruct (Hs s eq_refl) as [Hsm Hs1]. eapply wp_mono; [|apply wp_writeAll].
      intros o h3 (part & Hpart & (Hwo' & Hwi' & Hwt') & H).
      assert (output s h3 = input m h ++ part) as Os.
      { rewrite Hwo', Hwo, Ho, Z.eqb_refl, (proj2 (Z.eqb_neq s STDOUT_FILENO)) by (unfold STDOUT_FILENO; lia).
        by rewrite app_nil_r, (Hp3 s). }
      assert (output STDOUT_FILENO h3 = input m h ++ buf /\ output m h3 = input STDIN_FILENO h) as [O1' Om'].
      { rewrite !Hwo', O1, Om, (proj2 (Z.eqb_neq m s)), (proj2 (Z.eqb_neq STDOUT_FILENO s)) by (unfold STDOUT_FILENO; lia).
        by rewrite !app_nil_r. }
      unfold relayed, passed_prefix, passed_on. rewrite O1', Om', !Hwi', !Hwi, Em, E0, Hwt', Hwt, Ht. rewrite Hsc.
      split_and!; try done; [intros ? [= <-]; rewrite Os; by apply prefix_app|]. destruct H as [H|[-> ->]]; [by left|].
      right. split_and!; try done. by intros ? [= <-].
    + assert (passed_on h2) as Hok.
      { split_and!; [by rewrite Om, Hwi, E0|by rewrite O1, Hwi, Em|]. by rewrite Hsc. }
      split_and!; [by apply passed_is_prefix|by rewrite Hwt, Ht|]. right. by split.
  - intros s h2 (part & Hpart & (Hwo & Hwi & Hwt) & [H|[? _]]); [|done].
    split_and!; [|by rewrite Hwt, Ht|left; by destruct H as [[= ->]|[[= ->]|[= ->]]]; unfold stops_failing; auto].
    split_and!.
    + rewrite Hwo, Ho, Hwi, E0, (proj2 (Z.eqb_neq m STDOUT_FILENO)), app_nil_r, Hp1 by (unfold STDOUT_FILENO; lia). done.
    + rewrite Hwo, Ho, Hwi, Em, Z.eqb_refl, Hp2. by apply prefix_app.
    + intros x Hx. destruct (Hs x Hx) as [_ Hx1].
      rewrite Hwo, Ho, Hwi, Em, (proj2 (Z.eqb_neq x STDOUT_FILENO)), app_nil_r, (Hp3 x Hx) by (unfold STDOUT_FILENO; lia).
      by apply prefix_grow.
Qed.
Lemma calm_keeps k h :
  Forall calm k -> (passed_on h -> passed_on (k ++ h)) /\ tty_of a0 (k ++ h) = tty_of a0 h.
Proof.
  intros Hk. assert (forall x, input x (k ++ h) = input x h /\ output x (k ++ h) = output x h) as Hx.
  { intros x. rewrite input_app, output_app. destruct (calm_no_bytes a0 k x Hk) as (-> & -> & _). by rewrite !app_nil_r. }
  split.
  - intros (H1 & H2 & H3). split_and!; [by rewrite !(proj1 (Hx _)), !(proj2 (Hx _))..|].
    intros s Hsc. by rewrite (proj1 (Hx _)), (proj2 (Hx _)), H3.
  - clear -Hk. induction Hk as [|[X c v] k Hc Hk IH]; [done|]. cbn. unfold tty_of in *. rewrite IH. by destruct c.
Qed.

Lemma wp_relay fuel h : passed_on h -> wp E (relay fuel m script) (relayed (tty_of a0 h)) h.
Proof.
  revert h. induction fuel as [|fuel IH]; intros h Hp; cbn [relay].
  { split_and!; [by apply passed_is_prefix|done|]. right. auto. }
  apply wp_sys_bind. intros [inFds|e] _.
  2: { apply wp_errExit_trace. intros o k Ho Hk. change (k ++ ?e :: h) with (k ++ [e] ++ h). rewrite app_assoc.
    destruct (calm_keeps (k ++ [Ev (Select [STDIN_FILENO; m]) (Err e)]) h) as [Hok Ht].
    { apply Forall_app. split; [by apply reporting_calm|by repeat constructor]. }
    split_and!; [by apply passed_is_prefix, Hok|done|by left]. }
  destruct (calm_keeps [Ev (Select [STDIN_FILENO; m]) (Ok inFds)] h) as [Hok Ht]; [by repeat constructor|].
  specialize (Hok Hp). cbn [app] in Hok, Ht. rewrite <- Ht. revert Hok. generalize (Ev (Select [STDIN_FILENO; m]) (Ok inFds) :: h).
  clear h Hp Ht. intros h Hp.
  assert (forall h', passed_on h' -> relayed (tty_of a0 h') (Done tt) h') as Hskip.
  { intros h' H. split_and!; [by apply passed_is_prefix|done|]. right. by split. }
  apply relayed_bind; [destruct (bool_decide _); [by apply wp_fromStdin|by apply Hskip]|]. intros h1 Hp1 <-.
  apply relayed_bind; [destruct (bool_decide _); [by apply wp_fromMaster|by apply Hskip]|]. intros h2 Hp2 <-.
  by apply IH.
Qed.

Lemma wp_at_exit {A} (f : prog unit) (p : prog A) (Q : outcome A -> history -> Prop) h :
  wp E p (fun o h' => match o with Stop (Exit st) => wp E (f ;;; Halt (Exit st)) Q h' | o => Q o h' end) h ->
  wp E (at_exit f p) Q h.
Proof. revert h. induction p as [a|s|X c k IH]; intros h H; cbn in *; [done|by destruct s|]. intros r Hr. by apply IH, H. Qed.

(** What the terminal is like at the end: restored if the process exits, unless
    a call failed; raw while it runs, unless the mode could not be set. *)
Definition tty_ends (o : outcome unit) (h : history) : Prop :=
  (forall st, o = Stop (Exit st) -> tty_of a0 h = a0 \/
     (exists e, Ev (Tcsetattr STDIN_FILENO TCSANOW a0) (Err e) ∈ h) \/ exists e, Ev (Atexit "ttyReset") (Err e) ∈ h) /\
  (o = Stop OutOfFuel -> tty_of a0 h = raw a0 \/
     (exists e, Ev (Tcgetattr STDIN_FILENO) (Err e) ∈ h) \/
     exists e, Ev (Tcsetattr STDIN_FILENO TCSAFLUSH (raw a0)) (Err e) ∈ h).

Definition parent_ends (o : outcome unit) (h : history) : Prop :=
  passed_prefix h /\ (stops_failing o \/ (o = Stop (Exit EXIT_SUCCESS) \/ o = Stop OutOfFuel) /\ passed_on h) /\
  tty_ends o h.
Lemma no_bytes_keep k h :
  Forall no_bytes k -> (passed_on h -> passed_on (k ++ h)) /\ (passed_prefix h -> passed_prefix (k ++ h)).
Proof.
  intros Hk. assert (forall x, input x (k ++ h) = input x h /\ output x (k ++ h) = output x h) as Hx.
  { intros x. by apply no_bytes_app. }
  split; intros (H1 & H2 & H3); (split_and!; [by rewrite !(proj1 (Hx _)), !(proj2 (Hx _))..|]);
    intros s Hsc; rewrite (proj1 (Hx _)), (proj2 (Hx _)); by apply H3.
Qed.

Lemma reporting_no_bytes k : Forall reporting k -> Forall no_bytes k.
Proof. intros H. eapply Forall_impl; [exact H|]. intros [X c r]. by destruct c. Qed.

Lemma wp_reset st h :
  passed_prefix h -> st = EXIT_FAILURE \/ st = EXIT_SUCCESS /\ passed_on h ->
  wp E (ttyReset a0 ;;; Halt (Exit st)) parent_ends h.
Proof.
  intros Hpre Hst. unfold ttyReset. apply bind_assoc, wp_sys_bind. intros [[]|e] _.
  - destruct (no_bytes_keep [Ev (Tcsetattr STDIN_FILENO TCSANOW a0) (Ok tt)] h) as [H1 H2]; [by repeat constructor|].
    split_and!; [by apply H2| |split; [|done]; intros s _; by left]. destruct Hst as [->|[-> Hok]]; [left; unfold stops_failing; auto|].
    right. split; [by left|by apply H1].
  - apply wp_bind, wp_errExit_trace. intros o k Ho Hk. change (k ++ ?e :: h) with (k ++ [e] ++ h).
    destruct (no_bytes_keep (k ++ [Ev (Tcsetattr STDIN_FILENO TCSANOW a0) (Err e)]) h) as [_ H2].
    { apply Forall_app. split; [by apply reporting_no_bytes|by repeat constructor]. }
    assert (parent_ends o (k ++ [Ev (Tcsetattr STDIN_FILENO TCSANOW a0) (Err e)] ++ h)) as H.
    { split_and!; [rewrite app_assoc; by apply H2|by left|]. split; [|intros ->; by destruct Ho as [?|[?|?]]].
      intros s _. right. left. exists e. apply elem_of_app. right. by left. }
    by destruct Ho as [->|[->| ->]].
Qed.

(** The mode has been set, or a call has failed. *)
Definition raw_or_failed (h : history) : Prop :=
  tty_of a0 h = raw a0 \/ (exists e, Ev (Tcgetattr STDIN_FILENO) (Err e) ∈ h) \/
  exists e, Ev (Tcsetattr STDIN_FILENO TCSAFLUSH (raw a0)) (Err e) ∈ h.

(** The loop has no end of its own. *)
Definition is_stop {A} (o : outcome A) (h : history) : Prop := exists s, o = Stop s.

Lemma wp_stops {A B} (p : prog A) (f : A -> prog B) h :
  (forall a h', wp E (f a) is_stop h') -> wp E (bind p f) is_stop h.
Proof. intros Hf. revert h. induction p as [a|s|X c k IH]; intros h; cbn; [apply Hf|by exists s|auto]. Qed.

Lemma wp_relay_stops fuel h : wp E (relay fuel m script) is_stop h.
Proof.
  revert h. induction fuel as [|fuel IH]; intros h; cbn [relay]; [by exists OutOfFuel|].
  apply wp_stops. intros [inFds|e] h'; [do 2 (apply wp_stops; intros _ ?); apply IH|].
  apply wp_errExit. by intros o h1 [->|[->| ->]]; eexists.
Qed.

Lemma wp_relay_at_exit fuel h :
  passed_on h -> raw_or_failed h -> wp E (at_exit (ttyReset a0) (relay fuel m script)) parent_ends h.
Proof.
  intros Hp Hraw. apply wp_at_exit.
  eapply wp_mono; [|apply wp_conj; [apply wp_extends|apply wp_conj; [apply wp_relay_stops|by apply wp_relay]]].
  intros o h' [[k ->] [[s ->] (Hpre & Ht & H)]].
  assert (forall e, e ∈ h -> e ∈ k ++ h) as Hk by (intros; apply elem_of_app; by right).
  assert (raw_or_failed (k ++ h)) as Hraw'.
  { destruct Hraw as [Hr|[[e Hr]|[e Hr]]]; [left; congruence|right; left; eauto|right; right; eauto]. }
  destruct H as [[[= ->]|[[= ->]|[= ->]]]|[[-> | ->] Hok]].
  - split_and!; [done|left; unfold stops_failing; auto|by split].
  - apply wp_reset; auto.
  - split_and!; [done|left; unfold stops_failing; auto|by split].
  - apply wp_reset; auto.
  - split_and!; [done|right; auto|by split].
Qed.

Context (Htty : forall h r, E h _ (Tcgetattr STDIN_FILENO) r -> match r with Ok a => a = tty_of a0 h | Err _ => True end).

Lemma wp_relayRaw fuel h : Forall calm h -> wp E (relayRaw fuel a0 m script) parent_ends h.
Proof.
  intros Hh. assert (tty_of a0 h = a0) as Ht by (by apply (calm_no_bytes a0 h 0)).
  assert (passed_on h) as Hp.
  { assert (forall x, output x h = [] /\ input x h = []) as Hx by (intros x; destruct (calm_no_bytes a0 h x Hh); tauto).
    split_and!; intros; by rewrite (proj1 (Hx _)), (proj2 (Hx _)). }
  assert (forall k, Forall no_bytes k -> raw_or_failed (k ++ h) -> forall a : res unit,
    wp E (match a with
          | Err e => errExit e ($"atexit")
          | Ok _ => at_exit (ttyReset a0) (relay fuel m script)
          end) parent_ends (Ev (Atexit "ttyReset") a :: k ++ h)) as Hrun.
  { intros k Hk Hraw a. change (?e :: k ++ h) with (([e] ++ k) ++ h).
    destruct (no_bytes_keep ([Ev (Atexit "ttyReset") a] ++ k) h) as [H1 _]; [by repeat constructor|]. destruct a as [[]|e].
    - apply wp_relay_at_exit; [by apply H1|]. destruct Hraw as [Hr|[[e Hr]|[e Hr]]]; [by left|right; left|right; right];
        exists e; by right.
    - apply wp_errExit_trace. intros o k' Ho Hk'. destruct (no_bytes_keep k' (([Ev (Atexit "ttyReset") (Err e)] ++ k) ++ h)) as [_ H2];
        [by apply reporting_no_bytes|]. split_and!; [by apply H2, passed_is_prefix, H1|by left|].
      split; [|intros ->; by destruct Ho as [?|[?|?]]]. intros s _. right. right. exists e. apply elem_of_app. right. by left. }
  unfold relayRaw, ttySetRaw. apply bind_assoc, wp_sys_bind. intros [t|e] Hr.
  - apply Htty in Hr. rewrite Ht in Hr. subst t. apply bind_assoc, wp_sys_bind. intros r _.
    assert (raw_or_failed (Ev (Tcsetattr STDIN_FILENO TCSAFLUSH (raw a0)) r :: Ev (Tcgetattr STDIN_FILENO) (Ok a0) :: h)) as Hraw.
    { destruct r as [[]|e]; [by left|]. right. right. exists e. by left. }
    destruct r as [[]|e]; cbn [bind]; apply wp_sys_bind; intros a _; by apply (Hrun [_; _]); [repeat constructor|].
  - cbn [bind]. apply wp_sys_bind. intros a _. apply (Hrun [_]); [by repeat constructor|]. right. left. exists e. by left.
Qed.
End Relay.

(** ** script and unbuffer *)

Section Programs.
Context {T : ErrText} (t0 : Z -> option (list ascii)) (a0 : termios).
Context (H0 : t0 STDIN_FILENO <> None) (H1 : t0 STDOUT_FILENO <> None).

(** What the programs end with: a failure before anything happened, the child,
    the parent, whose typescript (or nothing) is described by [named]. *)
Definition relay_post (execs : halt -> Prop) (named : option Z -> history -> Prop)
    (o : outcome unit) (h : history) : Prop :=
  (stops_failing o /\ Forall calm h) \/
  (Ev Fork (Ok 0) ∈ h /\ (stops_failing o \/ exists s, o = Stop s /\ (execs s /\ exists name, on_slave t0 name h))) \/
  (exists m name script, Ev (Ptsname m) (Ok name) ∈ h /\ named script h /\ parent_ends a0 m script o h).

Lemma tty_env_posix h X (c : call X) r : tty_env t0 a0 h X c r -> posix h X c r.
Proof. by intros [[H _] _]. Qed.

Lemma failed_early execs named o k h :
  stops_failing o -> Forall reporting k -> Forall calm h -> relay_post execs named o (k ++ h).
Proof. intros Ho Hk Hh. left. split; [done|]. apply Forall_app. split; [by apply reporting_calm|done]. Qed.

Lemma wp_withTerminal (k : termios -> winsize -> prog unit) msg execs named :
  (forall ws h, fresh t0 h -> wp (tty_env t0 a0) (k a0 ws) (relay_post execs named) h) ->
  wp (tty_env t0 a0) (withTerminal k msg) (relay_post execs named) [].
Proof.
  intros Hk. unfold withTerminal. apply wp_sys_bind. intros [t|e] [_ Hr].
  2: { apply wp_errExit_trace. intros o k' Ho Hk'. apply failed_early; [done..|by repeat constructor]. }
  rewrite (Hr eq_refl). apply wp_sys_bind. intros [ws|e] _.
  - apply Hk. split; [by repeat constructor|done].
  - apply wp_errExit_trace. intros o k' Ho Hk'. apply failed_early; [done..|by repeat constructor].
Qed.

(** The rest of both programs, after [ptyFork]. *)
Lemma wp_after_fork (child : prog unit) (parent : Z -> prog unit) execs named ws h :
  fresh t0 h ->
  (forall name h', on_slave t0 name h' -> wp (tty_env t0 a0) child
     (fun o h2 => stops_failing o \/ exists s, o = Stop s /\ (execs s /\ exists n, on_slave t0 n h2)) h') ->
  (forall m name h', m <> 0 /\ m <> 1 -> Forall calm h' -> Ev (Ptsname m) (Ok name) ∈ h' ->
     (forall x, fds_of t0 h' x = if x =? m then Some ($"/dev/ptmx") else t0 x) ->
     wp (tty_env t0 a0) (parent m) (relay_post execs named) h') ->
  wp (tty_env t0 a0)
    (r <- ptyFork (Some MAX_SNAME) (Some a0) (Some ws) ;;
     match r with
     | Err e => errExit e ($"ptyFork")
     | Ok (Pty pid master _) =>
         if pid =? 0 then child else parent (match master with Some m => m | None => -1 end)
     end) (relay_post execs named) h.
Proof.
  intros Hfr Hchild Hparent. eapply wp_call.
  { eapply wp_env; [|by apply wp_ptyFork]. by intros ? ? ? ? []. }
  - intros r h' [(e & [= ->] & Hc & _)|(m & name & Hm & Hm0 & _ & Hp & _ & [(pid & Hpid & [= ->] & Hc & Hf)|(Hfk & [H|([= ->] & Hon & _)])])].
    + apply wp_errExit_trace. intros o k Ho Hk. by apply failed_early.
    + rewrite (proj2 (Z.eqb_neq pid 0)) by lia. eapply Hparent; try done.
      unfold STDIN_FILENO, STDOUT_FILENO in *. split; intros ->; done.
    + by destruct H as [?|[?|?]].
    + eapply wp_mono; [|eapply (wp_keeps _ _ _ (Ev Fork (Ok 0))); [done|by apply (Hchild name)]]. intros o h2 [Hk H]. right. by left.
  - intros s h' [(e & ? & _)|(m & name & _ & _ & _ & _ & _ & [(pid & _ & ? & _)|(Hfk & [H|(? & _)])])]; try done.
    right. left. split; [done|]. left. by destruct H as [[= ->]|[[= ->]|[= ->]]]; unfold stops_failing; auto.
Qed.

Lemma on_slave_same name h X (c : call X) r :
  match c with Getenv _ | Execvp _ _ => True | _ => False end -> on_slave t0 name h -> on_slave t0 name (Ev c r :: h).
Proof. intros Hc (Hs & Hct & Hf). by destruct c. Qed.

Lemma wp_execvp_slave f argv msg name (execs : halt -> Prop) h :
  on_slave t0 name h -> execs (Execed f argv) ->
  wp (A:=unit) (tty_env t0 a0) (e <- execvp f argv ;; errExit e msg)
    (fun o h2 => stops_failing o \/ exists s, o = Stop s /\ (execs s /\ exists n, on_slave t0 n h2)) h.
Proof.
  intros Hon Hex. unfold execvp. apply bind_assoc, wp_sys_bind. intros [e|] _; [apply wp_errExit; by left|].
  right. exists (Execed f argv). split; [done|]. split; [done|]. exists name. by apply on_slave_same.
Qed.
End Programs.

(** Script and unbuffer relay faithfully.  They are started with standard
    input and output open.  The child, on the slave, executes the shell or the
    given program.  In the parent, bytes are passed on in order and unchanged:
    what is written to the master is a prefix of what was read from the
    terminal, what is written to the terminal, and by script to the typescript,
    is a prefix of what was read from the master, and unless an error was
    reported nothing is missing.  While they run, the terminal is in raw mode,
    unless the mode could not be set, and when they exit, with either status, it
    has the attributes it had at the start, unless resetting them failed or the
    exit handler could not be registered. *)
Lemma script_unbuffer_relay {T : ErrText} t0 a0 fuel argv :
  t0 STDIN_FILENO <> None -> t0 STDOUT_FILENO <> None ->
  wp (tty_env t0 a0) (script_main fuel argv)
    (relay_post t0 a0 (fun s => exists shell, s = Execed shell [shell])
       (fun script h => exists file s, script = Some s /\ Ev (Open file O_WRONLY_CREAT_TRUNC RW_RW_RW) (Ok s) ∈ h)) [] /\
  wp (tty_env t0 a0) (unbuffer_main fuel argv)
    (relay_post t0 a0 (fun s => match argv with _ :: f :: args => s = Execed f (f :: args) | _ => exists w, s = Undefined w end)
       (fun script _ => script = None)) [].
Proof.
  intros H0 H1. split.
  - apply wp_withTerminal. intros ws h Hfr. apply (wp_after_fork t0 a0 H0 H1 execShell (scriptParent fuel argv a0) _ _ ws h Hfr).
    + intros name h' Hon. apply wp_sys_bind. intros s _. apply (wp_execvp_slave _ _ _ _ _ name); [by apply on_slave_same|by eexists].
    + intros m name h' Hm Hc Hp Hf. apply wp_sys_bind. intros [s|e] [[_ Hs] _].
      2: { apply wp_errExit_trace. intros o k Ho Hk. apply failed_early; [done..|by constructor]. }
      destruct Hs as (_ & Hs & _). rewrite Hf in Hs.
      assert (s <> m /\ s <> 1) as Hne.
      { unfold STDOUT_FILENO in *. split; intros ->; [by rewrite Z.eqb_refl in Hs|]. by rewrite (proj2 (Z.eqb_neq 1 m)) in Hs by lia. }
      eapply wp_mono; [|eapply wp_keeps; [|eapply wp_keeps; [|apply wp_relayRaw]]].
      all: try apply tty_env_posix; try done; try (by intros ? [= <-]).
      * intros o h2 (Hk1 & Hk2 & Hend). right. right. exists m, name, (Some s). split_and!; [exact Hk1| |exact Hend].
        eexists _, s. split; [done|exact Hk2].
      * by right.
      * by left.
      * intros h2 r [_ Hr]. destruct r; [by apply Hr|done].
      * by constructor.
  - apply wp_withTerminal. intros ws h Hfr. apply (wp_after_fork t0 a0 H0 H1 _ (fun m => relayRaw fuel a0 m None) _ _ ws h Hfr).
    + intros name h' Hon. destruct argv as [|a [|f args]]; [right; eexists; split; [done|]; split; eauto..|].
      by apply (wp_execvp_slave _ _ _ _ _ name).
    + intros m name h' Hm Hc Hp Hf. eapply wp_mono; [|eapply wp_keeps; [exact Hp|apply wp_relayRaw]].
      all: try apply tty_env_posix; try done.
      * intros o h2 (Hk1 & Hend). right. right. by exists m, name, None.
      * intros h2 r [_ Hr]. destruct r; [by apply Hr|done].
Qed.

(** C18: terminals and pseudoterminals.  [ttySetCbreak] and [ttySetRaw] read the
    attributes, write them back once, changed, with the old ones reported if they
    were asked for, and return 0 exactly if that write succeeded; cbreak mode clears
    ICANON, ECHO and ICRNL and sets ISIG, raw mode clears ICANON, ISIG, IEXTEN, ECHO,
    nine input flags and OPOST, no other flag changes, and reads return single
    characters; setting a mode twice is setting it once, raw mode after cbreak mode
    is raw mode, and cbreak mode after raw mode does not bring back output
    processing, as the comment warns.  [ptyFork] leaks no descriptor when it fails, gives the
    parent the pid and exactly one new descriptor, the master, and the child 0 only
    as leader of a new session whose controlling terminal is the slave whose name
    was reported, with the attributes and the window size that were asked for, with
    standard input, output and error on the slave and every other descriptor as it
    was, even if the standard descriptors were closed; otherwise the child ends
    with a failure status.  script and unbuffer, started with standard input and
    output open, execute the shell or the given program on the slave; in the
    parent what is written to the master is a prefix of what was read from the
    terminal, what is written to the terminal, and by script to the typescript, is
    a prefix of what was read from the master, and unless an error was reported
    nothing is missing.  While they run, the terminal is in raw mode, unless the
    mode could not be set, and when they exit it has the attributes it had at the
    start, unless resetting them failed or the exit handler could not be
    registered. *)
Theorem pty_programs {T : ErrText} t0 :
  (forall t (i : Z),
    0 <= i < 32 ->
    (forall fd want h, wp posix (ttySetCbreak fd want) (sets_mode cbreak fd want h) h /\
                       wp posix (ttySetRaw fd want) (sets_mode raw fd want h) h) /\
    (Z.testbit (c_lflag (cbreak t)) i = (i =? 0) || Z.testbit (c_lflag t) i && negb (existsb (Z.eqb i) [1; 3]) /\
     Z.testbit (c_iflag (cbreak t)) i = Z.testbit (c_iflag t) i && negb (existsb (Z.eqb i) [8]) /\
     c_oflag (cbreak t) = c_oflag t /\ c_cflag (cbreak t) = c_cflag t) /\
    (Z.testbit (c_lflag (raw t)) i = Z.testbit (c_lflag t) i && negb (existsb (Z.eqb i) [0; 1; 3; 15]) /\
     Z.testbit (c_iflag (raw t)) i = Z.testbit (c_iflag t) i && negb (existsb (Z.eqb i) [0; 1; 3; 4; 5; 6; 7; 8; 10]) /\
     Z.testbit (c_oflag (raw t)) i = Z.testbit (c_oflag t) i && negb (existsb (Z.eqb i) [0]) /\
     c_cflag (raw t) = c_cflag t) /\
    c_cc (raw t) = c_cc (cbreak t) /\
    (length (c_cc t) = 32%nat -> c_cc (raw t) !! VMIN = Some 1 /\ c_cc (raw t) !! VTIME = Some 0) /\
    cbreak (cbreak t) = cbreak t /\ raw (raw t) = raw t /\ raw (cbreak t) = raw t /\
    c_oflag (cbreak (raw t)) = c_oflag (raw t)) /\
  (forall slaveName slaveTermios slaveWS,
   wp (lowest_fd t0) (ptyFork slaveName slaveTermios slaveWS) (fun o h =>
      (exists e, o = Done (Err e) /\ forall x, fds_of t0 h x = t0 x) \/
      exists m name, t0 m = None /\ Ev (Ptsname m) (Ok name) ∈ h /\
        ((exists pid, 0 < pid /\ o = Done (Ok (Pty pid (Some m) (const name <$> slaveName))) /\
            forall x, fds_of t0 h x = if x =? m then Some ($"/dev/ptmx") else t0 x) \/
         Ev Fork (Ok 0) ∈ h /\
           (stops_failing o \/
            o = Done (Ok (Pty 0 None (const name <$> slaveName))) /\
            session_of h = Session true true /\ ctty_of t0 h = Some name /\
            (forall x, fds_of t0 h x = if (0 <=? x) && (x <=? 2) then Some name else t0 x) /\
            exists fd,
              match slaveTermios with Some t => Ev (Tcsetattr fd TCSANOW t) (Ok tt) ∈ h | None => True end /\
              match slaveWS with Some ws => Ev (Tiocswinsz fd ws) (Ok tt) ∈ h | None => True end))) []) /\
  (forall a0 fuel argv,
   t0 STDIN_FILENO <> None -> t0 STDOUT_FILENO <> None ->
    wp (tty_env t0 a0) (script_main fuel argv)
      (relay_post t0 a0 (fun s => exists shell, s = Execed shell [shell])
         (fun script h => exists file s, script = Some s /\ Ev (Open file O_WRONLY_CREAT_TRUNC RW_RW_RW) (Ok s) ∈ h)) [] /\
    wp (tty_env t0 a0) (unbuffer_main fuel argv)
      (relay_post t0 a0 (fun s => match argv with _ :: f :: args => s = Execed f (f :: args) | _ => exists w, s = Undefined w end)
         (fun script _ => script = None)) []).
Proof. split; [exact tty_modes|]. split; intros; [apply ptyFork_correct|by apply script_unbuffer_relay]. Qed.

(** ** Example *)

Definition demo_tty : termios := Termios 0x500 5 0xbf 0x8a3b (replicate 32 0).
Definition demo_fds (x : Z) : option (list ascii) := if (0 <=? x) && (x <=? 2) then Some ($"/dev/tty1") else None.

Definition demo_pty_kernel : kernel := fun h X c =>
  match c in call X return X with
  | Tcgetattr _ => Ok (tty_of demo_tty h)
  | Tiocgwinsz _ => Ok (Winsize 24 80 0 0)
  | Posix_openpt _ => Ok 3
  | Grantpt _ | Unlockpt _ | Tcsetattr _ _ _ | Atexit _ => Ok tt
  | Ptsname _ => Ok ($"/dev/pts/7")
  | Fork => Ok 42
  | Open _ _ _ => Ok 4
  | Select fds => Ok fds
  | Read fd _ => if fd =? 3 then Ok ($"out") else match input 0 h with [] => Ok ($"ls") | _ => Ok [] end
  | Write _ d => Ok (Z.of_nat (length d))
  | c => failing_kernel h _ c
  end.

Example script_demo :
  let '(o, h) := run demo_pty_kernel (script_main (T := demo_text) 5 [$"script"; $"log"]) [] in
  o = Stop (Exit EXIT_SUCCESS) /\ output 3 h = $"ls" /\ output 1 h = $"out" /\ output 4 h = $"out" /\
  tty_of demo_tty h = demo_tty /\ fds_of demo_fds h 4 = Some ($"log").
Proof. vm_compute. done. Qed.

Lemma pty_programs_witness :
  demo_fds STDIN_FILENO <> None /\
  wp (tty_env demo_fds demo_tty) (unbuffer_main (T := demo_text) 7 [$"unbuffer"; $"ls"])
    (relay_post demo_fds demo_tty (fun s => s = Execed ($"ls") [$"ls"]) (fun script _ => script = None)) [].
Proof.
  split; [done|]. exact (proj2 (proj2 (proj2 (pty_programs (T := demo_text) demo_fds)) demo_tty 7%nat [$"unbuffer"; $"ls"]
                                  ltac:(discriminate) ltac:(discriminate))).
Defined.

(** Environments that satisfy the assumptions on the kernel exist. *)
Lemma tty_env_inhabited t0 a0 h X (c : call X) : tty_env t0 a0 h X c (failing_kernel h X c).
Proof. split; [split; [apply posix_inhabited|by destruct c]|by destruct c]. Qed.
