(* ===== verification/OneTimeInit.v ===== *)
(** * threads/one_time_init.c: one-time initialization

    [one_time_init] is called by any number of threads, any number of times
    each; in the program two threads call it twice.  Every statement between two
    synchronization points is a step of its thread, and init() is two steps, its
    beginning and its end.  A mutex knows its owner.  A pthread function returns
    0 or a positive error number, so the tests for -1 of the source never succeed
    and a failed lock goes unnoticed: [ot_step false] has such failures,
    [ot_step true] has not. *)

From S2P Require Import Prelude.

(** The next statement of a thread in one_time_init(): lock, test of [called],
    the end of init(), the assignment, unlock; before its creation and after its
    end. *)
Inductive opc := ONone | OLock | OTest | OInit | OSet | OUnlock | OEnd.

#[export] Instance opc_eq_dec : EqDecision opc.
Proof. solve_decision. Defined.

(** [left]: the calls that follow the current one; [returned]: how many calls
    have returned. *)
Record caller := Caller { opc_of : opc; left : nat; returned : nat }.

(** The next statement of main: creation of a thread, joining a thread. *)
Inductive main_pc := MCreate (i : nat) | MJoin (i : nat).

Record once := Once {
  mtx : option nat; called : Z; started : nat; inits : nat;
  callers : list caller; mpc : main_pc; exited : option Z }.

(** [s = f(...); if (s == -1) errExitEN(s, ...)] for the result of a pthread
    function: whether the process goes on. *)
Definition goes_on (s : Z) : bool := negb (s =? -1).

(** The program, with [calls !! i] calls in thread [i] + 1; ONCE_INITIALISER. *)
Definition ot_init (calls : list nat) : once :=
  Once None 0 0 0 (map (fun n => Caller ONone n 0) calls) (MCreate 0) None.

Definition set_caller (i : nat) (x : caller) (s : once) : once :=
  Once (mtx s) (called s) (started s) (inits s) (<[i := x]> (callers s)) (mpc s) (exited s).
Definition set_mtx (o : option nat) (s : once) : once :=
  Once o (called s) (started s) (inits s) (callers s) (mpc s) (exited s).
Definition set_once (c : Z) (b n : nat) (s : once) : once :=
  Once (mtx s) c b n (callers s) (mpc s) (exited s).
Definition set_mpc (p : main_pc) (s : once) : once :=
  Once (mtx s) (called s) (started s) (inits s) (callers s) p (exited s).
Definition set_exited (st : Z) (s : once) : once :=
  Once (mtx s) (called s) (started s) (inits s) (callers s) (mpc s) (Some st).

(** A call returns, and threadFunc() makes the next one or ends. *)
Definition after_call (x : caller) : caller :=
  match left x with
  | O => Caller OEnd 0 (S (returned x))
  | S n => Caller OLock n (S (returned x))
  end.

(** The step of thread [i] if no pthread function fails. *)
Definition caller_step (i : nat) (s : once) : option once :=
  match callers s !! i with
  | None => None
  | Some x =>
      let goto p := set_caller i (Caller p (left x) (returned x)) in
      match opc_of x with
      | OLock => match mtx s with None => Some (goto OTest (set_mtx (Some i) s)) | Some _ => None end
      | OTest => if called s =? 0 then Some (goto OInit (set_once (called s) (S (started s)) (inits s) s))
                 else Some (goto OUnlock s)
      | OInit => Some (goto OSet (set_once (called s) (started s) (S (inits s)) s))
      | OSet => Some (goto OUnlock (set_once 1 (started s) (inits s) s))
      | OUnlock =>
          (* a thread that does not own the mutex does not release it *)
          let s' := if bool_decide (mtx s = Some i) then set_mtx None s else s in
          Some (set_caller i (after_call x) s')
      | ONone | OEnd => None
      end
  end.

(** The step of a thread whose lock fails with [e]. *)
Definition lock_fails (i : nat) (e : Z) (s : once) : option once :=
  match callers s !! i with
  | Some x =>
      if bool_decide (opc_of x = OLock) then
        Some (if goes_on e then set_caller i (Caller OTest (left x) (returned x)) s else set_exited 1 s)
      else None
  | None => None
  end.

Definition main_step (s : once) : option once :=
  match mpc s with
  | MCreate i =>
      match callers s !! i with
      | Some x => Some (set_mpc (MCreate (S i)) (set_caller i
                    (match left x with O => Caller OEnd 0 0 | S n => Caller OLock n 0 end) s))
      | None => Some (set_mpc (MJoin 0) s)
      end
  | MJoin i =>
      match callers s !! i with
      | Some x => if bool_decide (opc_of x = OEnd) then Some (set_mpc (MJoin (S i)) s) else None
      | None => Some (set_exited 0 s)
      end
  end.

Inductive ot_step (ok : bool) (s : once) : once -> Prop :=
| step_caller i s' : exited s = None -> caller_step i s = Some s' -> ot_step ok s s'
| step_main s' : exited s = None -> main_step s = Some s' -> ot_step ok s s'
(* pthread_create() or pthread_join() fails *)
| step_main_fails i : exited s = None -> (i < length (callers s))%nat -> mpc s = MCreate i \/ mpc s = MJoin i ->
    ot_step ok s (set_exited 1 s)
| step_lock_fails i e s' : ok = false -> exited s = None -> 0 < e -> lock_fails i e s = Some s' -> ot_step ok s s'.

Inductive ot_reach (ok : bool) (s0 : once) : once -> Prop :=
| ot_refl : ot_reach ok s0 s0
| ot_next s s' : ot_reach ok s0 s -> ot_step ok s s' -> ot_reach ok s0 s'.

(** ** The invariant *)

Definition holds (x : caller) : Z := match opc_of x with OTest | OInit | OSet | OUnlock => 1 | _ => 0 end.
Definition initing (x : caller) : Z := match opc_of x with OInit | OSet => 1 | _ => 0 end.
Definition setting (x : caller) : Z := match opc_of x with OSet => 1 | _ => 0 end.

Arguments holds !x /.
Arguments initing !x /.
Arguments setting !x /.

(** How many calls the thread makes in all. *)
Definition all_calls (x : caller) : nat :=
  (returned x + left x + match opc_of x with ONone | OEnd => 0 | _ => 1 end)%nat.

Definition main_ok (s : once) : Prop :=
  match mpc s with
  | MCreate k => forall i x, callers s !! i = Some x -> (opc_of x = ONone <-> (k <= i)%nat)
  | MJoin k => forall i x, callers s !! i = Some x -> opc_of x <> ONone /\ ((i < k)%nat -> opc_of x = OEnd)
  end.
Arguments all_calls !x /.

Definition caller_ok (s : once) (x : caller) : Prop :=
  (opc_of x = OUnlock \/ (0 < returned x)%nat -> called s = 1) /\
  (opc_of x = OEnd -> left x = 0%nat) /\ (opc_of x = ONone -> returned x = 0%nat).

Record ot_inv (calls : list nat) (s : once) : Prop := {
  o_calls : map all_calls (callers s) = calls;
  o_owner : forall i x, callers s !! i = Some x -> (holds x = 1 <-> mtx s = Some i);
  o_valid : forall i, mtx s = Some i -> (i < length (callers s))%nat;
  o_called : 0 <= called s /\ called s + total initing (callers s) <= 1;
  o_started : Z.of_nat (started s) = called s + total initing (callers s);
  o_inits : Z.of_nat (inits s) = called s + total setting (callers s);
  o_callers : forall i x, callers s !! i = Some x -> caller_ok s x;
  o_main : main_ok s;
  o_exit : exited s = Some 0 -> forall i x, callers s !! i = Some x -> opc_of x = OEnd
}.

Lemma initing_nonneg x : 0 <= initing x.
Proof. unfold initing. destruct (opc_of x); lia. Qed.
Lemma setting_nonneg x : 0 <= setting x.
Proof. unfold setting. destruct (opc_of x); lia. Qed.
Lemma setting_initing x : setting x <= initing x.
Proof. unfold setting, initing. destruct (opc_of x); lia. Qed.

Lemma ot_inv_init calls : ot_inv calls (ot_init calls).
Proof.
  assert (forall i x, callers (ot_init calls) !! i = Some x -> exists n, x = Caller ONone n 0) as Hx.
  { intros i x Hi. cbn in Hi. rewrite list_lookup_fmap in Hi. destruct (calls !! i); simplify_eq/=. by eexists. }
  split; cbn [ot_init mtx called started inits callers exited]; try done.
  - clear Hx. induction calls as [|n l IH]; [done|]. cbn [map]. rewrite IH. cbn. by rewrite Nat.add_0_r.
  - intros i x Hi. destruct (Hx i x Hi) as [n ->]. by split.
  - rewrite total_map_zero by done. lia.
  - by rewrite total_map_zero.
  - by rewrite total_map_zero.
  - intros i x Hi. destruct (Hx i x Hi) as [n ->]. split_and!; cbn; try done. intros [?|?]; [done|lia].
  - intros i x Hi. destruct (Hx i x Hi) as [n ->]. split; [lia|done].
Qed.

(** ** Example runs *)

Inductive move := Main | Thread (i : nat) | LockFails (i : nat) (e : Z).

Definition do_move (m : move) (s : once) : option once :=
  match m with
  | Main => main_step s
  | Thread i => caller_step i s
  | LockFails i e => if 0 <? e then lock_fails i e s else None
  end.

Definition is_failure (m : move) : bool := match m with LockFails _ _ => true | _ => false end.

Fixpoint moves (l : list move) (s : once) : option once :=
  match l with
  | [] => Some s
  | m :: l => match exited s, do_move m s with None, Some s' => moves l s' | _, _ => None end
  end.

Lemma moves_reach ok l s0 s s' :
  (ok = true -> forallb (fun m => negb (is_failure m)) l = true) ->
  ot_reach ok s0 s -> moves l s = Some s' -> ot_reach ok s0 s'.
Proof.
  revert s. induction l as [|m l IH]; intros s Hok Hr H; cbn in H; [congruence|].
  destruct (exited s) eqn:He; [done|]. destruct (do_move m s) as [s1|] eqn:Hm; [|done].
  apply (IH s1); [|eapply ot_next; [exact Hr|]|done].
  - intros Hk. specialize (Hok Hk). by apply andb_true_iff in Hok as [_ Hok].
  - destruct m as [|i|i e]; cbn in Hm; [by apply step_main|by eapply step_caller|].
    destruct (Z.ltb_spec 0 e); [|done]. eapply step_lock_fails; try done. destruct ok; [|done]. by specialize (Hok eq_refl).
Qed.

(** The program: two threads, two calls each. *)
Definition demo_moves : list move :=
  [Main; Main; Main] ++ replicate 5 (Thread 1) ++ replicate 3 (Thread 0) ++ replicate 3 (Thread 1) ++
  replicate 3 (Thread 0) ++ [Main; Main; Main].
Definition demo_once : once := default (ot_init []) (moves demo_moves (ot_init [2; 2]%nat)).

(** If both locks fail, unnoticed, init() is called twice. *)
Lemma init_twice : exists s, ot_reach false (ot_init [2; 2]%nat) s /\ inits s = 2%nat /\ exited s = None.
Proof.
  set (l := [Main; Main; LockFails 0 22; LockFails 1 22; Thread 0; Thread 1; Thread 0; Thread 1]).
  exists (default (ot_init []) (moves l (ot_init [2; 2]%nat))). split; [|vm_compute; by split].
  apply (moves_reach false l _ (ot_init [2; 2]%nat)); [intros H; discriminate H|apply ot_refl|]. vm_compute. reflexivity.
Qed.

(** Changing a thread's record keeps the number of its calls. *)
Lemma map_insert_same {A B} (f : A -> B) l i x y : l !! i = Some x -> f y = f x -> map f (<[i := y]> l) = map f l.
Proof.
  intros Hi He. change (map f (<[i:=y]> l)) with (f <$> <[i:=y]> l). rewrite list_fmap_insert.
  apply list_insert_id. change (map f l) with (f <$> l). by rewrite list_lookup_fmap, Hi, He.
Qed.

(** A thread changes from [x] to [y]. *)
Lemma ot_inv_update calls s s' i x y :
  ot_inv calls s -> callers s !! i = Some x -> callers s' = <[i := y]> (callers s) -> mpc s' = mpc s -> exited s' = None ->
  opc_of x <> ONone -> opc_of x <> OEnd -> opc_of y <> ONone -> all_calls y = all_calls x ->
  (mtx s' = mtx s /\ holds y = holds x \/ mtx s = None /\ mtx s' = Some i /\ holds y = 1 \/
   mtx s = Some i /\ mtx s' = None /\ holds y = 0) ->
  called s <= called s' -> called s' + (total initing (callers s) - initing x + initing y) <= 1 ->
  Z.of_nat (started s') - Z.of_nat (started s) = called s' - called s + (initing y - initing x) ->
  Z.of_nat (inits s') - Z.of_nat (inits s) = called s' - called s + (setting y - setting x) ->
  caller_ok s' y -> ot_inv calls s'.
Proof.
  intros [Hca Hown Hval Hcal Hst Hin Hok Hmain Hex] Hi Ht Hmpc He Hx1 Hx2 Hy Hall Hm Hle Hsum Hs Hn Hyok.
  assert (i < length (callers s))%nat as Hlt by (by eapply lookup_lt_Some).
  assert (forall z, holds z = 1 \/ holds z = 0) as Hh by (intros z; unfold holds; destruct (opc_of z); auto).
  pose proof (Hown i x Hi) as Hxo.
  split; rewrite ?Ht, ?length_insert, ?(total_insert _ _ _ _ _ Hi).
  - by rewrite (map_insert_same _ _ _ _ _ Hi Hall).
  - intros j z [[-> ->]|[Hne Hj]]%lookup_changed.
    + destruct Hm as [[-> ->]|[(_ & -> & ->)|(_ & -> & ->)]]; [done|by split|done].
    + specialize (Hown j z Hj). destruct Hm as [[-> _]|[(E1 & -> & _)|(E1 & -> & _)]]; [done|..]; rewrite E1 in Hown; split; intros H; try done.
      * by apply Hown in H.
      * congruence.
      * apply Hown in H. congruence.
  - intros j Hj. destruct Hm as [[E1 _]|[(E1 & E2 & _)|(E1 & E2 & _)]]; [apply Hval; congruence|congruence|congruence].
  - lia.
  - lia.
  - lia.
  - intros j z [[-> ->]|[Hne Hj]]%lookup_changed; [done|]. destruct (Hok j z Hj) as (H1 & H2 & H3). split_and!; try done.
    intros H. specialize (H1 H). pose proof (total_nonneg initing (callers s) initing_nonneg).
    pose proof (total_ge initing _ _ _ initing_nonneg Hi). pose proof (initing_nonneg y). lia.
  - unfold main_ok in *. rewrite Hmpc, Ht. destruct (mpc s) as [k|k]; intros j z [[-> ->]|[Hne Hj]]%lookup_changed; try by apply Hmain.
    + specialize (Hmain i x Hi). tauto.
    + split; [done|]. intros Hk. by destruct (Hmain i x Hi) as [_ H]; specialize (H Hk).
  - congruence.
Qed.

(** Only the owner of the mutex is in init(). *)
Lemma owner_only calls s i x :
  ot_inv calls s -> callers s !! i = Some x -> holds x = 1 -> total initing (callers s) = initing x.
Proof.
  intros Hinv Hi Hh. apply (o_owner _ _ Hinv i x Hi) in Hh.
  pose proof (total_insert initing _ _ _ (Caller OEnd 0 0) Hi) as Ht. cbn in Ht.
  pose proof (total_nonneg initing (<[i:=Caller OEnd 0 0]> (callers s)) initing_nonneg) as Hnn.
  destruct (Z.ltb_spec 0 (total initing (<[i:=Caller OEnd 0 0]> (callers s)))) as [Hpos|]; [|lia].
  apply total_positive in Hpos as (j & y & [[-> ->]|[Hne Hj]]%lookup_changed & Hy); [cbn in Hy; lia| |apply initing_nonneg].
  assert (holds y = 1) as Hhy by (unfold initing, holds in *; by destruct (opc_of y)).
  apply (o_owner _ _ Hinv j y Hj) in Hhy. congruence.
Qed.

Ltac update Hinv Hi :=
  eapply ot_inv_update; [exact Hinv|exact Hi|reflexivity|..]; cbn; unfold caller_ok; cbn; try done; try lia.

Lemma ot_inv_caller calls s i s' : ot_inv calls s -> exited s = None -> caller_step i s = Some s' -> ot_inv calls s'.
Proof.
  intros Hinv Hex Hstep. unfold caller_step in Hstep. destruct (callers s !! i) as [x|] eqn:Hi; [|done].
  pose proof (proj1 (o_owner _ _ Hinv i x Hi)) as Hown. destruct (o_callers _ _ Hinv i x Hi) as (Hret & _ & _).
  pose proof (o_called _ _ Hinv) as [Hc0 Hc1]. pose proof (total_nonneg initing (callers s) initing_nonneg) as Hnn.
  pose proof (owner_only _ _ i x Hinv Hi) as Hone. destruct x as [p n r]. cbn [opc_of left returned] in *.
  destruct p; try done.
  - destruct (mtx s) eqn:Hm; [done|]. injection Hstep as <-. update Hinv Hi; [auto|]. split_and!; try done. intros [?|?]; [done|tauto].
  - specialize (Hown eq_refl). specialize (Hone eq_refl). cbn in Hone.
    destruct (Z.eqb_spec (called s) 0) as [Hcz|Hcz]; injection Hstep as <-; update Hinv Hi; auto; split_and!; try done; [|lia].
    intros [?|?]; [done|tauto].
  - injection Hstep as <-. specialize (Hone eq_refl). cbn in Hone. update Hinv Hi; [auto|]. split_and!; try done. intros [?|?]; [done|tauto].
  - injection Hstep as <-. specialize (Hone eq_refl). cbn in Hone. update Hinv Hi; auto; split_and!; try done.
  - specialize (Hown eq_refl). specialize (Hone eq_refl). cbn in Hone. rewrite (bool_decide_true _ Hown) in Hstep.
    injection Hstep as <-. destruct n; cbn [after_call left returned] in *; update Hinv Hi; auto; split_and!; try done; auto.
Qed.

Lemma ot_inv_main calls s s' : ot_inv calls s -> exited s = None -> main_step s = Some s' -> ot_inv calls s'.
Proof.
  intros Hinv Hex Hstep. pose proof (o_main _ _ Hinv) as Hmain. unfold main_step in Hstep. unfold main_ok in Hmain.
  destruct (mpc s) as [k|k] eqn:Hp; destruct (callers s !! k) as [x|] eqn:Hx.
  - injection Hstep as <-. assert (opc_of x = ONone) as Hn by (by apply (Hmain k x Hx)).
    destruct (o_callers _ _ Hinv k x Hx) as (_ & _ & Hr). specialize (Hr Hn). destruct x as [p n r]. cbn in Hn, Hr. subst p r.
    set (y := match left _ with O => _ | S n => _ end). assert (all_calls y = n) as Hall by (unfold y; destruct n; cbn; lia).
    assert (initing y = 0 /\ setting y = 0 /\ holds y = 0 /\ returned y = 0%nat) as (Hi0 & Hs0 & Hh0 & Hr0) by (unfold y; by destruct n).
    assert (opc_of y <> ONone /\ opc_of y <> OUnlock /\ (opc_of y = OEnd -> left y = 0%nat)) as (Hy1 & Hy2 & Hy3) by (unfold y; by destruct n).
    destruct Hinv as [Hca Hown Hval Hcal Hst Hin Hok _ He].
    split; cbn [set_mpc set_caller callers mtx called started inits exited]; rewrite ?length_insert, ?(total_insert _ _ _ _ _ Hx), ?Hi0, ?Hs0; cbn; try lia.
    + rewrite (map_insert_same _ _ _ _ _ Hx); [done|]. rewrite Hall. cbn. lia.
    + intros j z [[-> ->]|[Hne Hj]]%lookup_changed; [|by apply Hown]. rewrite Hh0. apply (Hown k) in Hx. cbn in Hx.
      split; [done|]. intros Hm. by apply Hx in Hm.
    + exact Hval.
    + intros j z [[-> ->]|[Hne Hj]]%lookup_changed; [|by eapply Hok]. split_and!; try done. intros [?|?]; [done|lia].
    + intros j z [[-> ->]|[Hne Hj]]%lookup_changed; [split; [done|lia]|]. rewrite (Hmain j z Hj). lia.
    + congruence.
  - injection Hstep as <-. apply lookup_ge_None in Hx. destruct Hinv. split; try done.
    intros i y Hi. cbn in Hi. split; [|lia]. intros Hn. apply (Hmain i y Hi) in Hn. apply lookup_lt_Some in Hi. lia.
  - case_bool_decide as He; [|done]. injection Hstep as <-. destruct Hinv. split; try done.
    intros i y Hi. cbn in Hi. destruct (Hmain i y Hi) as [H1 H2]. split; [done|]. intros Hlt. destruct (decide (i = k)) as [->|]; [congruence|].
    apply H2. lia.
  - injection Hstep as <-. apply lookup_ge_None in Hx. destruct Hinv. split; try done.
    intros _ i y Hi. cbn in Hi. apply (Hmain i y Hi). apply lookup_lt_Some in Hi. lia.
Qed.

Lemma ot_inv_step calls s s' : ot_inv calls s -> ot_step true s s' -> ot_inv calls s'.
Proof.
  intros Hinv Hstep. destruct Hstep as [i s' He H|s' He H|i He Hlt Hp|i e s' ? _ _ _]; [..|done].
  - by eapply ot_inv_caller.
  - by eapply ot_inv_main.
  - destruct Hinv. by split.
Qed.

Lemma ot_inv_reach calls s : ot_reach true (ot_init calls) s -> ot_inv calls s.
Proof. intros H. induction H; [apply ot_inv_init|]. by eapply ot_inv_step. Qed.

(** ** Progress and termination *)

(** A step of a thread or of main without a failure. *)
Definition goes (s s' : once) : Prop :=
  exited s = None /\ ((exists i, caller_step i s = Some s') \/ main_step s = Some s').

Lemma ot_no_deadlock calls s : ot_inv calls s -> exited s = None -> exists s', goes s s'.
Proof.
  intros Hinv Hex. unfold goes.
  assert (forall i x, callers s !! i = Some x -> opc_of x <> ONone -> opc_of x <> OEnd -> exists s', goes s s') as Hrun.
  { intros i x Hi Hn He. destruct (mtx s) as [j|] eqn:Hm.
    - destruct (lookup_lt_is_Some_2 (callers s) j) as [y Hy]; [by apply (o_valid _ _ Hinv)|].
      apply (o_owner _ _ Hinv j y Hy) in Hm. enough (is_Some (caller_step j s)) as [s' Hs'] by (exists s'; split; eauto).
      unfold caller_step. rewrite Hy. destruct y as [p n r]. destruct p; cbn in Hm; try done; [|eauto..].
      cbn. destruct (called s =? 0); eauto.
    - enough (is_Some (caller_step i s)) as [s' Hs'] by (exists s'; split; eauto).
      unfold caller_step. rewrite Hi, Hm. destruct (opc_of x); try done; eauto. destruct (called s =? 0); eauto. }
  pose proof (o_main _ _ Hinv) as Hmain. unfold main_ok in Hmain.
  assert (is_Some (main_step s) -> exists s', goes s s') as Hm by (intros [s' Hs']; exists s'; split; eauto).
  unfold main_step in Hm. destruct (mpc s) as [k|k]; destruct (callers s !! k) as [x|] eqn:Hx; try (apply Hm; by eauto).
  destruct (decide (opc_of x = OEnd)) as [He|He]; [apply Hm; rewrite bool_decide_true by done; by eauto|].
  apply (Hrun k x Hx); [|done]. by apply (Hmain k x Hx).
Qed.

(** The steps that a thread, and main, have left at most. *)
Definition caller_cost (x : caller) : Z :=
  5 * Z.of_nat (left x) +
  match opc_of x with ONone | OEnd => 0 | OLock => 5 | OTest => 4 | OInit => 3 | OSet => 2 | OUnlock => 1 end.
Definition once_cost (s : once) : Z :=
  match exited s with
  | Some _ => 0
  | None => total caller_cost (callers s) + 1 +
      let n := Z.of_nat (length (callers s)) in
      match mpc s with MCreate k => 2 * n + 1 - Z.of_nat k | MJoin k => n - Z.of_nat k end
  end.

Definition main_in_range (s : once) : Prop :=
  match mpc s with MCreate k | MJoin k => (k <= length (callers s))%nat end.

Lemma goes_decreases s s' :
  main_in_range s -> goes s s' -> main_in_range s' /\ 0 <= once_cost s' < once_cost s.
Proof.
  intros Hr [Hex Hstep]. unfold main_in_range in *.
  assert (forall l, 0 <= total caller_cost l) as Hnn by (intros l; apply total_nonneg; intros x; unfold caller_cost; destruct (opc_of x); lia).
  pose proof (Hnn (callers s)) as Hs0. pose proof (Hnn (callers s')) as Hs1. destruct Hstep as [[i Hstep]|Hstep].
  - unfold caller_step in Hstep. destruct (callers s !! i) as [x|] eqn:Hi; [|done].
    assert (forall y, callers s' = <[i := y]> (callers s) -> mpc s' = mpc s -> exited s' = None -> caller_cost y < caller_cost x ->
      (match mpc s' with MCreate k | MJoin k => (k <= length (callers s'))%nat end) /\ 0 <= once_cost s' < once_cost s) as H.
    { intros y Ht Hm He Hlt. rewrite Ht in Hs1. unfold once_cost. rewrite Hex, He, Hm, Ht, length_insert in *.
      rewrite (total_insert _ _ _ _ _ Hi) in *. split; [done|]. destruct (mpc s); lia. }
    destruct x as [p n r]. cbn [opc_of left returned] in Hstep. destruct p; try done; [destruct (mtx s); [done|]|destruct (called s =? 0)|..];
      try destruct (bool_decide _); injection Hstep as <-; (eapply H; [reflexivity|reflexivity|assumption|]);
      try destruct n; unfold caller_cost; cbn; lia.
  - unfold main_step in Hstep. unfold once_cost. rewrite Hex. destruct (mpc s) as [k|k] eqn:Hp; destruct (callers s !! k) as [x|] eqn:Hx.
    + injection Hstep as <-. apply lookup_lt_Some in Hx as Hlt. cbn in *. rewrite Hex, length_insert, (total_insert _ _ _ _ _ Hx) in *.
      set (y := match left x with O => _ | S n => _ end) in *. assert (caller_cost y <= caller_cost x).
      { unfold y, caller_cost. destruct (left x); cbn; destruct (opc_of x); lia. }
      split; [lia|]. lia.
    + injection Hstep as <-. cbn in *. rewrite Hex. split; lia.
    + case_bool_decide; [|done]. injection Hstep as <-. apply lookup_lt_Some in Hx. cbn in *. rewrite Hex. split; lia.
    + injection Hstep as <-. cbn. rewrite Hp. split; lia.
Qed.

Lemma range_reach ok calls s : ot_reach ok (ot_init calls) s -> main_in_range s.
Proof.
  intros H. induction H as [|s s' _ IH Hstep]; [cbn; lia|]. destruct Hstep as [i s' He H|s' He H| |i e s' _ He _ H].
  - apply (goes_decreases s s'); [done|]. split; eauto.
  - apply (goes_decreases s s'); [done|]. split; eauto.
  - done.
  - unfold lock_fails in H. destruct (callers s !! i) as [x|]; [|done]. case_bool_decide; [|done]. injection H as <-.
    unfold main_in_range in *. destruct (goes_on e); cbn; by rewrite ?length_insert.
Qed.

Lemma nsteps_goes k s s' : main_in_range s -> nsteps goes k s s' -> Z.of_nat k <= once_cost s - once_cost s'.
Proof.
  intros Hr Hn. induction Hn as [s|k s1 s2 s3 Hg Hn IH]; [lia|].
  destruct (goes_decreases _ _ Hr Hg) as [Hr' H]. specialize (IH Hr'). lia.
Qed.

Lemma once_cost_nonneg s : main_in_range s -> 0 <= once_cost s.
Proof.
  intros Hr. unfold once_cost, main_in_range in *. destruct (exited s); [done|].
  assert (0 <= total caller_cost (callers s)) by (apply total_nonneg; intros x; unfold caller_cost; destruct (opc_of x); lia).
  destruct (mpc s); lia.
Qed.

Lemma nsteps_range k s s' : main_in_range s -> nsteps goes k s s' -> main_in_range s'.
Proof. intros Hr Hn. induction Hn as [|k s1 s2 s3 Hg Hn IH]; [done|]. apply IH. by eapply goes_decreases. Qed.

(** C24: one-time initialization, for any number of threads that call
    one_time_init() any number of times each, in every interleaving in which no
    lock fails (thread creation and joining may).  init() is begun at most once,
    and whenever a call of one_time_init() has returned, init() has ended exactly
    once; if the program exits successfully, every thread has made all its calls;
    until it exits some thread can go on, and it takes a bounded number of
    steps.  If locks fail, which the program does not notice, two threads can
    both call init(). *)
Theorem one_time_init_once calls s :
  ot_reach true (ot_init calls) s ->
  (inits s <= started s <= 1)%nat /\
  (forall i x, callers s !! i = Some x -> (0 < returned x)%nat -> inits s = 1%nat) /\
  (exited s = Some 0 -> map returned (callers s) = calls) /\
  (exited s = None -> exists s', goes s s') /\
  (forall k s', nsteps goes k s s' -> Z.of_nat k <= once_cost s) /\
  (exists s', ot_reach false (ot_init [2; 2]%nat) s' /\ inits s' = 2%nat /\ exited s' = None).
Proof.
  intros Hr. pose proof (ot_inv_reach _ _ Hr) as Hinv. pose proof (range_reach _ _ _ Hr) as Hrange.
  destruct (o_called _ _ Hinv) as [Hc0 Hc1]. pose proof (o_started _ _ Hinv) as Hst. pose proof (o_inits _ _ Hinv) as Hin.
  pose proof (total_le _ _ (callers s) setting_initing). pose proof (total_nonneg _ (callers s) setting_nonneg).
  split_and!; [lia|lia|..].
  - intros i x Hi Hx. destruct (o_callers _ _ Hinv i x Hi) as (H1 & _). specialize (H1 (or_intror Hx)). lia.
  - intros He. transitivity (map all_calls (callers s)); [|apply (o_calls _ _ Hinv)]. apply map_ext_in. intros x Hx.
    apply list_elem_of_In, list_elem_of_lookup in Hx as [i Hi].
    pose proof (o_exit _ _ Hinv He i x Hi) as Hpc. destruct (o_callers _ _ Hinv i x Hi) as (_ & H2 & _).
    unfold all_calls. rewrite Hpc, (H2 Hpc). lia.
  - by apply (ot_no_deadlock calls).
  - intros k s' Hn. pose proof (nsteps_goes _ _ _ Hrange Hn). pose proof (once_cost_nonneg s' (nsteps_range _ _ _ Hrange Hn)). lia.
  - exact init_twice.
Qed.

Lemma one_time_init_once_witness : exited demo_once = Some 0 /\ inits demo_once = 1%nat /\ map returned (callers demo_once) = [2; 2]%nat.
Proof.
  destruct (one_time_init_once [2; 2]%nat demo_once) as (_ & Hin & Hex & _).
  { apply (moves_reach true demo_moves _ (ot_init [2; 2]%nat)); [intros _; vm_compute; reflexivity|apply ot_refl|].
    vm_compute. reflexivity. }
  split; [vm_compute; reflexivity|]. split; [apply (Hin 0%nat (Caller OEnd 0 2)); [vm_compute; reflexivity|cbn; lia]|].
  apply Hex. vm_compute. reflexivity.
Defined.
