(* ===== verification/SemInit.v ===== *)
(** * svsem/svsem_good_init.c, svsem_bad_init.c: initializing a semaphore

    Any number of processes run one of the programs at the same time.  They
    share the semaphore set of key 12345: its value and the time of the last
    semop(), 0 if there was none.  Every system call is a step, the steps
    interleave in any order, and every call may fail, which ends its process.
    The messages and the sleeping are left out. *)

From S2P Require Import Prelude Sys SvSem.

Definition SEMVMX : Z := 32767.
Definition ERANGE : Z := 34.
Definition MAX_TRIES : nat := 10.

(** ** The semaphore *)

Record sem := Sem { sval : Z; sem_otime : Z }.

(** semop() with one operation at time [t]; [None] if it blocks. *)
Definition semop1 (t op : Z) (s : sem) : option (res sem) :=
  if 0 <? op then
    if SEMVMX <? sval s + op then Some (Err ERANGE) else Some (Ok (Sem (sval s + op) t))
  else if op =? 0 then
    if sval s =? 0 then Some (Ok (Sem (sval s) t)) else None
  else if 0 <=? sval s + op then Some (Ok (Sem (sval s + op) t)) else None.

(** ** The programs *)

(** The next call of a process: semget() with IPC_EXCL, SETVAL, the dummy
    semop(), semget() of the existing set, IPC_STAT in round [j], the semop();
    exit with EXIT_SUCCESS, exit after an error. *)
Inductive ipc := IGet | ISetval | INoop | IGet2 | IPoll (j : nat) | IOp | IEnd | IFail.

#[export] Instance ipc_eq_dec : EqDecision ipc.
Proof. solve_decision. Defined.

(** [arg] is the number that getInt() returns for argv[1]; sem_op is a short. *)
Record process := Process { ipc_of : ipc; arg : Z }.
Definition semOp (p : process) : Z := to_short (arg p).

Definition goto (pc : ipc) (p : process) : process := Process pc (arg p).

(** The semop() at the end of both programs. *)
Definition finalOp (t op : Z) (ss : option sem) (p : process) : option (option sem * process) :=
  match ss with
  | None => Some (ss, goto IFail p)
  | Some s =>
      match semop1 t op s with
      | None => None
      | Some (Err _) => Some (ss, goto IFail p)
      | Some (Ok s') => Some (Some s', goto IEnd p)
      end
  end.

(** A call of svsem_good_init at time [t]; a semaphore that is created has an
    arbitrary value [v0]. *)
Definition good_step (t v0 : Z) (ss : option sem) (p : process) : option (option sem * process) :=
  match ipc_of p with
  | IGet =>
      match ss with
      | None => Some (Some (Sem v0 0), goto ISetval p)
      | Some _ => Some (ss, goto IGet2 p)
      end
  | ISetval => match ss with Some s => Some (Some (Sem 0 (sem_otime s)), goto INoop p) | None => Some (ss, goto IFail p) end
  | INoop =>
      match ss with
      | None => Some (ss, goto IFail p)
      | Some s =>
          match semop1 t 0 s with
          | None => None
          | Some (Err _) => Some (ss, goto IFail p)
          | Some (Ok s') => Some (Some s', goto IOp p)
          end
      end
  | IGet2 => match ss with Some _ => Some (ss, goto (IPoll 0) p) | None => Some (ss, goto IFail p) end
  | IPoll j =>
      if (j <? MAX_TRIES)%nat then
        match ss with
        | None => Some (ss, goto IFail p)
        | Some s => if negb (sem_otime s =? 0) then Some (ss, goto IOp p) else Some (ss, goto (IPoll (S j)) p)
        end
      else Some (ss, goto IFail p)
  | IOp => finalOp t (semOp p) ss p
  | IEnd | IFail => None
  end.

(** svsem_bad_init, which adds 1 whatever its arguments. *)
Definition bad_step (t v0 : Z) (ss : option sem) (p : process) : option (option sem * process) :=
  match ipc_of p with
  | IGet =>
      match ss with
      | None => Some (Some (Sem v0 0), goto ISetval p)
      | Some _ => Some (ss, goto IGet2 p)
      end
  | ISetval => match ss with Some s => Some (Some (Sem 0 (sem_otime s)), goto IOp p) | None => Some (ss, goto IFail p) end
  | IGet2 => match ss with Some _ => Some (ss, goto IOp p) | None => Some (ss, goto IFail p) end
  | IOp => finalOp t 1 ss p
  | INoop | IPoll _ | IEnd | IFail => None
  end.

(** ** All processes *)

Record world := World { sem_set : option sem; procs : list process }.

Definition si_init (args : list Z) : world := World None (map (Process IGet) args).

Section Steps.
Context (prog_step : Z -> Z -> option sem -> process -> option (option sem * process)).

Inductive si_step (w : world) : world -> Prop :=
| si_call i p t v0 ss p' :
    procs w !! i = Some p -> 0 < t -> 0 <= v0 <= SEMVMX ->
    prog_step t v0 (sem_set w) p = Some (ss, p') -> si_step w (World ss (<[i := p']> (procs w)))
| si_fails i p :
    procs w !! i = Some p -> ipc_of p <> IEnd -> ipc_of p <> IFail -> si_step w (World (sem_set w) (<[i := goto IFail p]> (procs w))).

Inductive si_reach (w0 : world) : world -> Prop :=
| si_refl : si_reach w0 w0
| si_next w w' : si_reach w0 w -> si_step w w' -> si_reach w0 w'.
End Steps.

(** ** The invariant of svsem_good_init *)

Definition creating (p : process) : Z := match ipc_of p with ISetval | INoop => 1 | _ => 0 end.
(** What a process has added to the semaphore. *)
Definition added (p : process) : Z := match ipc_of p with IEnd => semOp p | _ => 0 end.
Arguments creating !p /.
Arguments added !p /.

Definition proc_ok (ss : option sem) (p : process) : Prop :=
  match ss, ipc_of p with
  | _, (IGet | IFail) => True
  | None, _ => False
  | Some s, ISetval => sem_otime s = 0
  | Some s, INoop => sem_otime s = 0 /\ sval s = 0
  | Some s, IGet2 => True
  | Some s, IPoll j => (j <= MAX_TRIES)%nat
  | Some s, (IOp | IEnd) => 0 < sem_otime s
  end.

Record si_inv (w : world) : Prop := {
  s_procs : forall i p, procs w !! i = Some p -> proc_ok (sem_set w) p;
  s_creating : total creating (procs w) <= match sem_set w with None => 0 | Some _ => 1 end;
  s_value : forall s, sem_set w = Some s ->
    0 <= sem_otime s /\ 0 <= sval s <= SEMVMX /\ (sem_otime s <> 0 -> total creating (procs w) = 0 /\ sval s = total added (procs w))
}.

Lemma creating_nonneg p : 0 <= creating p.
Proof. unfold creating. destruct (ipc_of p); lia. Qed.

Lemma total_zero {A} (f : A -> Z) l : (forall i x, l !! i = Some x -> f x = 0) -> total f l = 0.
Proof.
  induction l as [|x l IH]; intros H; [done|]. cbn. rewrite (H 0%nat x eq_refl), IH; [done|]. intros i y Hi. apply (H (S i) y Hi).
Qed.

Lemma si_inv_init args : si_inv (si_init args).
Proof.
  split; cbn; [|rewrite total_map_zero; by try lia|done]. intros i p Hi. rewrite list_lookup_fmap in Hi.
  destruct (args !! i); simplify_eq/=. done.
Qed.

(** Process [i] goes from [p] to [p'], the set from [sem_set w] to [ss]. *)
Lemma si_inv_update w i p ss p' :
  si_inv w -> procs w !! i = Some p -> proc_ok ss p' ->
  (forall j q, j <> i -> procs w !! j = Some q -> proc_ok (sem_set w) q -> proc_ok ss q) ->
  total creating (procs w) - creating p + creating p' <= match ss with None => 0 | Some _ => 1 end ->
  (forall s, ss = Some s -> 0 <= sem_otime s /\ 0 <= sval s <= SEMVMX /\
     (sem_otime s <> 0 -> total creating (procs w) - creating p + creating p' = 0 /\
                          sval s = total added (procs w) - added p + added p')) ->
  si_inv (World ss (<[i := p']> (procs w))).
Proof.
  intros Hinv Hi Hp Hothers Hc Hv. split; cbn [sem_set procs]; rewrite ?(total_insert _ _ _ _ _ Hi); [|done|done].
  intros j q [[-> ->]|[Hne Hj]]%lookup_changed; [done|]. eapply Hothers; try done. by apply (s_procs w Hinv j).
Qed.

(** Nothing but the process changes. *)
Lemma si_inv_move w i p p' :
  si_inv w -> procs w !! i = Some p -> proc_ok (sem_set w) p' ->
  creating p' <= creating p -> added p' = added p ->
  si_inv (World (sem_set w) (<[i := p']> (procs w))).
Proof.
  intros Hinv Hi Hp Hc Ha. pose proof (s_creating w Hinv) as Hc0. eapply si_inv_update; try done; [lia|].
  intros s Hs. destruct (s_value w Hinv s Hs) as (H1 & H2 & H3). split_and!; try lia. intros Ht. destruct (H3 Ht) as [H4 H5].
  pose proof (total_ge creating _ _ _ creating_nonneg Hi). pose proof (creating_nonneg p'). pose proof (creating_nonneg p).
  split; lia.
Qed.

(** A process other than the one that creates the set is not creating it. *)
Lemma creator_alone w i p j q :
  si_inv w -> procs w !! i = Some p -> creating p = 1 -> j <> i -> procs w !! j = Some q -> creating q = 0.
Proof.
  intros Hinv Hi Hp Hne Hj. pose proof (s_creating w Hinv) as Hc.
  pose proof (total_insert creating _ _ _ (goto IFail p) Hi) as Ht. cbn in Ht.
  assert (creating q <= total creating (<[i:=goto IFail p]> (procs w))).
  { apply (total_ge _ _ j); [apply creating_nonneg|]. by rewrite list_lookup_insert_ne. }
  pose proof (creating_nonneg q). destruct (sem_set w); lia.
Qed.

Lemma semop1_ok t op s s' :
  0 <= sval s <= SEMVMX -> semop1 t op s = Some (Ok s') -> sem_otime s' = t /\ sval s' = sval s + op /\ 0 <= sval s' <= SEMVMX.
Proof.
  unfold semop1. intros Hs. destruct (Z.ltb_spec 0 op).
  - destruct (Z.ltb_spec SEMVMX (sval s + op)); [done|]. intros [= <-]. cbn. lia.
  - destruct (Z.eqb_spec op 0) as [->|].
    + destruct (Z.eqb_spec (sval s) 0); [|done]. intros [= <-]. cbn. lia.
    + destruct (Z.leb_spec 0 (sval s + op)); [|done]. intros [= <-]. cbn. lia.
Qed.

Lemma nobody_added w s : si_inv w -> sem_set w = Some s -> sem_otime s = 0 -> total added (procs w) = 0.
Proof.
  intros Hinv Hs H0. apply total_zero. intros i x Hi. pose proof (s_procs w Hinv i x Hi) as Hok. rewrite Hs in Hok.
  unfold proc_ok, added in *. destruct (ipc_of x); try done. lia.
Qed.

(** semget() creates the set. *)
Lemma si_inv_create w i a v0 :
  si_inv w -> procs w !! i = Some (Process IGet a) -> sem_set w = None -> 0 <= v0 <= SEMVMX ->
  si_inv (World (Some (Sem v0 0)) (<[i := Process ISetval a]> (procs w))).
Proof.
  intros Hinv Hi Hs Hv0. pose proof (s_creating w Hinv) as Hc. rewrite Hs in Hc.
  eapply (si_inv_update w i _ _ _ Hinv Hi); [done| |cbn; lia|intros s [= <-]; by cbn].
  intros j q _ Hj. rewrite Hs. unfold proc_ok. by destruct (ipc_of q).
Qed.

(** SETVAL. *)
Lemma si_inv_setval w i a s :
  si_inv w -> procs w !! i = Some (Process ISetval a) -> sem_set w = Some s ->
  si_inv (World (Some (Sem 0 (sem_otime s))) (<[i := Process INoop a]> (procs w))).
Proof.
  intros Hinv Hi Hs. pose proof (s_creating w Hinv) as Hc. pose proof (s_procs w Hinv i _ Hi) as Hp. rewrite Hs in Hc, Hp. cbn in Hp.
  eapply (si_inv_update w i _ _ _ Hinv Hi); [done| |cbn; lia|].
  - intros j q Hne Hj. rewrite Hs. unfold proc_ok. destruct (ipc_of q); cbn; tauto.
  - intros s' [= <-]. cbn. unfold SEMVMX. split_and!; lia.
Qed.

(** The dummy semop(): the set becomes usable for the others. *)
Lemma si_inv_noop w i a s t :
  si_inv w -> procs w !! i = Some (Process INoop a) -> sem_set w = Some s -> 0 < t ->
  sval s = 0 /\ si_inv (World (Some (Sem 0 t)) (<[i := Process IOp a]> (procs w))).
Proof.
  intros Hinv Hi Hs Ht. pose proof (s_creating w Hinv) as Hc. pose proof (s_procs w Hinv i _ Hi) as Hp. rewrite Hs in Hc, Hp.
  destruct Hp as [Hp1 Hp2]. split; [done|]. pose proof (total_ge creating _ _ _ creating_nonneg Hi) as Hge. cbn in Hge.
  eapply (si_inv_update w i _ _ _ Hinv Hi); [done| |cbn; lia|].
  - intros j q Hne Hj. rewrite Hs. pose proof (creator_alone w i _ j q Hinv Hi eq_refl Hne Hj) as Hq.
    unfold proc_ok, creating in *. destruct (ipc_of q); cbn; try done; lia.
  - intros s' [= <-]. cbn. unfold SEMVMX. rewrite (nobody_added w s Hinv Hs Hp1). split_and!; lia.
Qed.

(** The operation itself. *)
Lemma si_inv_op w i a s s' t :
  si_inv w -> procs w !! i = Some (Process IOp a) -> sem_set w = Some s -> 0 < t ->
  semop1 t (to_short a) s = Some (Ok s') -> si_inv (World (Some s') (<[i := Process IEnd a]> (procs w))).
Proof.
  intros Hinv Hi Hs Ht Hop. pose proof (s_procs w Hinv i _ Hi) as Hp. rewrite Hs in Hp. cbn in Hp.
  destruct (s_value w Hinv s Hs) as (_ & Hv & Hv2). destruct (Hv2 ltac:(lia)) as [Hc Ha].
  destruct (semop1_ok _ _ _ _ Hv Hop) as (H1 & H2 & H3).
  eapply (si_inv_update w i _ _ _ Hinv Hi); [cbn; lia| |cbn; lia|].
  - intros j q Hne Hj. rewrite Hs. pose proof (total_ge creating _ _ _ creating_nonneg Hj) as Hq. rewrite Hc in Hq.
    unfold proc_ok, creating in *. destruct (ipc_of q); try done; lia.
  - intros s1 [= <-]. cbn. unfold semOp. cbn. split_and!; try lia.
Qed.

Lemma si_inv_fail w i p :
  si_inv w -> procs w !! i = Some p -> ipc_of p <> IEnd -> si_inv (World (sem_set w) (<[i := goto IFail p]> (procs w))).
Proof.
  intros Hinv Hi Hp. destruct p as [pc a]. apply (si_inv_move w i _ _ Hinv Hi); [by destruct (sem_set w)|destruct pc; cbn; lia|].
  by destruct pc.
Qed.

Lemma si_inv_call w i p t v0 ss p' :
  si_inv w -> procs w !! i = Some p -> 0 < t -> 0 <= v0 <= SEMVMX ->
  good_step t v0 (sem_set w) p = Some (ss, p') -> si_inv (World ss (<[i := p']> (procs w))).
Proof.
  intros Hinv Hi Ht Hv0 Hstep. pose proof (s_procs w Hinv i p Hi) as Hp. pose proof (si_inv_fail w i p Hinv Hi) as Hfail.
  destruct p as [pc a]. unfold good_step in Hstep. cbn [ipc_of arg goto] in *.
  destruct (sem_set w) as [s|] eqn:Hs.
  2: { destruct pc; try done. injection Hstep as <- <-. by apply si_inv_create. }
  pose proof (si_inv_move w i _ (Process (match pc with IGet => IGet2 | IGet2 => IPoll 0 | pc => pc end) a) Hinv Hi) as Hmove.
  rewrite Hs in Hmove. destruct pc as [| | | |j| | |]; try done; cbn [goto arg] in Hstep.
  - injection Hstep as <- <-. by apply Hmove.
  - injection Hstep as <- <-. by apply si_inv_setval.
  - destruct (si_inv_noop w i a s t Hinv Hi Hs Ht) as [H0 H]. unfold semop1 in Hstep. cbn in Hstep. rewrite H0 in Hstep.
    injection Hstep as <- <-. done.
  - injection Hstep as <- <-. apply Hmove; try done. cbn. lia.
  - cbn in Hp. destruct (Nat.ltb_spec j MAX_TRIES); [|injection Hstep as <- <-; by apply Hfail].
    destruct (Z.eqb_spec (sem_otime s) 0) as [H0|H0]; injection Hstep as <- <-; rewrite <- Hs;
      (apply (si_inv_move w i _ _ Hinv Hi); rewrite ?Hs; [|done|done]).
    + cbn. lia.
    + cbn. destruct (s_value w Hinv s Hs). lia.
  - unfold finalOp, semOp in Hstep. cbn [arg goto] in Hstep. destruct (semop1 t (to_short a) s) as [[s'|e]|] eqn:Hop; [| |done];
      injection Hstep as <- <-; [by eapply si_inv_op|by apply Hfail].
Qed.

Lemma si_inv_reach args w : si_reach good_step (si_init args) w -> si_inv w.
Proof.
  intros H. induction H as [|w w' _ IH Hstep]; [apply si_inv_init|]. destruct Hstep as [i p t v0 ss p' Hi Ht Hv Hs|i p Hi Hp _].
  - by eapply si_inv_call.
  - by apply si_inv_fail.
Qed.

(** ** Schedules *)

(** Process [i] makes its next call at time 1; a created semaphore is 7. *)
Fixpoint si_run (f : Z -> Z -> option sem -> process -> option (option sem * process)) (l : list nat) (w : world) : option world :=
  match l with
  | [] => Some w
  | i :: l =>
      match procs w !! i with
      | Some p => match f 1 7 (sem_set w) p with
                  | Some (ss, p') => si_run f l (World ss (<[i := p']> (procs w)))
                  | None => None
                  end
      | None => None
      end
  end.

Lemma si_run_reach f l w0 w w' : si_reach f w0 w -> si_run f l w = Some w' -> si_reach f w0 w'.
Proof.
  revert w. induction l as [|i l IH]; intros w Hr H; cbn in H; [congruence|].
  destruct (procs w !! i) as [p|] eqn:Hi; [|done]. destruct (f 1 7 (sem_set w) p) as [[ss p']|] eqn:Hs; [|done].
  eapply IH; [|exact H]. eapply si_next; [exact Hr|]. eapply si_call; [exact Hi| | |exact Hs]; unfold SEMVMX; lia.
Qed.

Definition demo_bad : world := default (si_init []) (si_run bad_step [0; 1; 1; 1; 0; 0]%nat (si_init [1; 1])).
Definition demo_good : world := default (si_init []) (si_run good_step [0; 1; 1; 1; 0; 0; 1; 1; 0]%nat (si_init [3; 5])).

(** The calls that a process has left. *)
Definition calls_left (p : process) : nat :=
  match ipc_of p with
  | IGet => 13 | IGet2 => 12 | IPoll j => 1 + (MAX_TRIES - j) | ISetval => 3 | INoop => 2 | IOp => 1 | IEnd | IFail => 0
  end.

Lemma good_step_calls t v0 ss p ss' p' :
  proc_ok ss p -> good_step t v0 ss p = Some (ss', p') -> (calls_left p' < calls_left p)%nat.
Proof.
  intros Hok Hstep. unfold good_step, finalOp, proc_ok, calls_left in *. destruct p as [pc a]. cbn [ipc_of goto arg] in *.
  destruct pc as [| | | |j| | |]; [| | | |destruct (Nat.ltb_spec j MAX_TRIES)|..]; repeat case_match; simplify_eq; cbn in *;
    unfold MAX_TRIES in *; simplify_eq; try lia; try congruence.
Qed.

(** Svsem_good_init initializes its semaphore without a race.  For any number
    of processes, in every interleaving, whatever value a new semaphore has and
    whichever calls fail: at most one process initializes the set; no process
    operates on it before it has been set to zero; from then on its value is the
    sum of the operations of the processes that succeeded, so none is lost; no
    process blocks before its own operation, and it makes at most thirteen calls
    (giving up after ten looks at sem_otime).  svsem_bad_init has the race: two
    processes can both succeed in adding one and leave the value at one. *)
Lemma good_init_race_free args w :
  si_reach good_step (si_init args) w ->
  total creating (procs w) <= 1 /\
  (forall i p, procs w !! i = Some p -> ipc_of p = IOp \/ ipc_of p = IEnd ->
     exists s, sem_set w = Some s /\ 0 < sem_otime s) /\
  (forall s, sem_set w = Some s -> 0 < sem_otime s -> sval s = total added (procs w) /\ 0 <= sval s <= SEMVMX) /\
  (forall i p t v0, procs w !! i = Some p -> ipc_of p <> IEnd -> ipc_of p <> IFail ->
     (ipc_of p <> IOp -> is_Some (good_step t v0 (sem_set w) p)) /\
     (forall ss p', good_step t v0 (sem_set w) p = Some (ss, p') -> (calls_left p' < calls_left p <= 13)%nat)) /\
  si_reach bad_step (si_init [1; 1]) demo_bad /\
  map ipc_of (procs demo_bad) = [IEnd; IEnd] /\ option_map sval (sem_set demo_bad) = Some 1.
Proof.
  intros Hr. pose proof (si_inv_reach _ _ Hr) as Hinv. split_and!; [..|done|done].
  - pose proof (s_creating w Hinv). destruct (sem_set w); lia.
  - intros i p Hi Hp. pose proof (s_procs w Hinv i p Hi) as Hok. unfold proc_ok in Hok.
    destruct (sem_set w) as [s|]; [exists s|]; destruct Hp as [Hp|Hp]; rewrite Hp in Hok; done.
  - intros s Hs H0. destruct (s_value w Hinv s Hs) as (_ & Hv & H). destruct (H ltac:(lia)) as [_ Ha]. done.
  - intros i p t v0 Hi H1 H2. pose proof (s_procs w Hinv i p Hi) as Hok. split.
    + intros H3. unfold good_step, proc_ok in *. destruct (ipc_of p); try done; repeat case_match; try done; try by eexists.
      unfold semop1 in *. cbn in *. destruct Hok as [_ Hv]. by rewrite Hv in *.
    + intros ss p' Hs. split; [by eapply good_step_calls|]. unfold calls_left, MAX_TRIES. destruct (ipc_of p); lia.
  - eapply (si_run_reach _ [0; 1; 1; 1; 0; 0]%nat); [apply si_refl|]. vm_compute. reflexivity.
Qed.
