(* ===== verification/FileIO.v ===== *)
(** * fileio/copy.c, fileio/seek_io.c: reading, writing and seeking

    copy.c is a loop of read() and write(); seek_io.c interprets its arguments
    as operations on a file.  For seek_io the kernel keeps the contents and the
    offset of the open file: [file_of] computes them from the history. *)

From S2P Require Import Prelude Sys LibErrors GetNum StreamIO.

Definition O_RDONLY : Z := 0.
Definition O_RDWR_CREAT : Z := 0x42.
Definition O_CREAT_WRONLY_TRUNC : Z := 0x241.
Definition RW_FOR_ALL : Z := 0x1b6.
Definition COPY_BUF_SIZE : Z := 1024.
Definition SEEK_SET : Z := 0.

Section FileIO.
Context {T : ErrText}.

Definition argv_nth (argv : list (list ascii)) (i : nat) : list ascii := nth i argv [].
Definition is_help (argv : list (list ascii)) : bool := strcmp_eq (argv_nth argv 1) ($"--help").

(** ** copy.c *)

Fixpoint copyLoop (fuel : nat) (inputFd outputFd : Z) : prog unit :=
  match fuel with
  | O => Halt OutOfFuel
  | S fuel =>
      r <- sys (Read inputFd COPY_BUF_SIZE) ;;
      match r with
      | Ok (c :: l) =>
          let buf := c :: l in
          w <- sys (Write outputFd buf) ;;
          if match w with Ok n => n =? strlen buf | Err _ => false end then copyLoop fuel inputFd outputFd
          else fatal ($"couldn't write whole buffer")
      | Ok [] => Ret tt
      | Err e => errExit e ($"read")
      end
  end.

Definition closeOrExit (fd : Z) (msg : list ascii) : prog unit :=
  r <- sys (Close fd) ;; match r with Ok _ => Ret tt | Err e => errExit e msg end.

Definition copy_main (fuel : nat) (argv : list (list ascii)) : prog unit :=
  if negb (length argv =? 3)%nat || is_help argv then usageErr (argv_nth argv 0 ++ $" old-file new-file" ++ [NL])
  else
    i <- sys (Open (argv_nth argv 1) O_RDONLY 0) ;;
    match i with
    | Err e => errExit e ($"opening file " ++ argv_nth argv 1)
    | Ok inputFd =>
        o <- sys (Open (argv_nth argv 2) O_CREAT_WRONLY_TRUNC RW_FOR_ALL) ;;
        match o with
        | Err e => errExit e ($"opening file " ++ argv_nth argv 2)
        | Ok outputFd =>
            copyLoop fuel inputFd outputFd ;;;
            closeOrExit inputFd ($"close input") ;;;
            closeOrExit outputFd ($"close output") ;;;
            Halt (Exit EXIT_SUCCESS)
        end
    end.

(** ** seek_io.c *)

Definition isprint (c : ascii) : bool := (32 <=? ord c) && (ord c <=? 126).

Definition hexdigit (n : Z) : ascii := chr (if n <? 10 then 48 + n else 87 + n).

(** ["%02x "] of (unsigned int) of a char, which is signed. *)
Definition hex_of (c : ascii) : list ascii :=
  (if 128 <=? ord c then $"ffffff" else []) ++ [hexdigit (ord c / 16); hexdigit (ord c mod 16)] ++ $" ".

(** What is displayed for [numRead] bytes; [asText] for r, not for R. *)
Definition display (arg : list ascii) (asText : bool) (buf : list ascii) : list ascii :=
  match buf with
  | [] => arg ++ $": end-of-file" ++ [NL]
  | _ => arg ++ $": " ++
         concat (map (fun c => if asText then [if isprint c then c else "?"%char] else hex_of c) buf) ++ [NL]
  end.

Definition ioArg (fd : Z) (arg : list ascii) : prog unit :=
  match arg with
  | [] => cmdLineErr ($"Argument must start with [rRws]: " ++ arg ++ [NL])
  | c :: rest =>
      if Ascii.eqb c "r" || Ascii.eqb c "R" then
        v <- getLong (Some rest) GN_ANY_BASE (Some arg) ;;
        let len := wrapu 64 v in
        ok <- sys (Alloc len) ;;
        if negb ok then errExit ENOMEM ($"malloc")
        else
          r <- sys (Read fd len) ;;
          match r with
          | Err e => errExit e ($"read")
          | Ok buf => print Stdout (display arg (Ascii.eqb c "r") buf)
          end
      else if Ascii.eqb c "w" then
        w <- sys (Write fd rest) ;;
        match w with
        | Err e => errExit e ($"write")
        | Ok n => print Stdout (arg ++ $": wrote " ++ dec n ++ $" bytes" ++ [NL])
        end
      else if Ascii.eqb c "s" then
        v <- getLong (Some rest) GN_ANY_BASE (Some arg) ;;
        l <- sys (Lseek fd v SEEK_SET) ;;
        match l with
        | Err e => errExit e ($"lseek")
        | Ok _ => print Stdout (arg ++ $": seek succeeded" ++ [NL])
        end
      else cmdLineErr ($"Argument must start with [rRws]: " ++ arg ++ [NL])
  end.

Fixpoint ioArgs (fd : Z) (args : list (list ascii)) : prog unit :=
  match args with [] => Ret tt | arg :: args => ioArg fd arg ;;; ioArgs fd args end.

Definition seek_io_main (argv : list (list ascii)) : prog unit :=
  if (length argv <? 3)%nat || is_help argv then
    usageErr (argv_nth argv 0 ++ $" file {r<length>|R<length>|w<string>|s<offset>}..." ++ [NL])
  else
    o <- sys (Open (argv_nth argv 1) O_RDWR_CREAT RW_FOR_ALL) ;;
    match o with
    | Err e => errExit e ($"open")
    | Ok fd =>
        ioArgs fd (drop 2 argv) ;;;
        closeOrExit fd ($"close") ;;;
        Halt (Exit EXIT_SUCCESS)
    end.
End FileIO.

(** ** The file *)

(** Contents and offset. *)
Record file := File { contents : list ascii; offset : Z }.

(** The contents after [d] has been written at [off]; a gap is filled with null
    bytes. *)
Definition put_at (data : list ascii) (off : Z) (d : list ascii) : list ascii :=
  let n := Z.to_nat off in
  match d with
  | [] => data
  | _ => take n data ++ replicate (n - length data) NUL ++ d ++ drop (n + length d) data
  end.

Section Kernel.
Context (fd : Z) (data0 : list ascii).

Definition file_step (e : event) (f : file) : file :=
  match e with
  | Ev c r =>
      match c in call X return X -> file with
      | Read x _ => fun r => match r with
          | Ok d => if x =? fd then File (contents f) (offset f + strlen d) else f | Err _ => f end
      | Write x d => fun r => match r with
          | Ok n => if x =? fd then File (put_at (contents f) (offset f) (take (Z.to_nat n) d)) (offset f + n) else f
          | Err _ => f end
      | Lseek x _ _ => fun r => match r with Ok o => if x =? fd then File (contents f) o else f | Err _ => f end
      | _ => fun _ => f
      end r
  end.

Definition file_of (h : history) : file := fold_right file_step (File data0 0) h.

(** read() delivers bytes at the offset, none only at the end of the file or if
    none are asked for; lseek() with SEEK_SET sets the offset and refuses a
    negative one (read(2), lseek(2)).  [fd] is the descriptor that open()
    returns. *)
Definition file_env : env := fun h X c r =>
  posix h X c r /\
  match c in call X return X -> Prop with
  | Open _ _ _ => fun r => match r with Ok x => x = fd | Err _ => True end
  | Read x n => fun r =>
      match r with
      | Ok d => x = fd -> d `prefix_of` drop (Z.to_nat (offset (file_of h))) (contents (file_of h)) /\
                (d = [] -> n = 0 \/ strlen (contents (file_of h)) <= offset (file_of h))
      | Err _ => True
      end
  | Lseek x o whence => fun r => match r with Ok o' => x = fd -> whence = SEEK_SET -> o' = o /\ 0 <= o | Err _ => True end
  | _ => fun _ => True
  end r.
End Kernel.

(** ** What the arguments of seek_io mean *)

(** The file before and after, and the text displayed. *)
Inductive io_spec (f : file) : list ascii -> list ascii -> file -> Prop :=
| spec_read c rest v d :
    c = "r"%char \/ c = "R"%char -> accepted rest GN_ANY_BASE v ->
    d `prefix_of` drop (Z.to_nat (offset f)) (contents f) -> strlen d <= wrapu 64 v ->
    (d = [] -> wrapu 64 v = 0 \/ strlen (contents f) <= offset f) ->
    io_spec f (c :: rest) (display (c :: rest) (Ascii.eqb c "r") d) (File (contents f) (offset f + strlen d))
| spec_write rest n :
    0 <= n <= strlen rest ->
    io_spec f ("w"%char :: rest) (("w"%char :: rest) ++ $": wrote " ++ dec n ++ $" bytes" ++ [NL])
      (File (put_at (contents f) (offset f) (take (Z.to_nat n) rest)) (offset f + n))
| spec_seek rest v :
    accepted rest GN_ANY_BASE v -> 0 <= v ->
    io_spec f ("s"%char :: rest) (("s"%char :: rest) ++ $": seek succeeded" ++ [NL]) (File (contents f) v).

Inductive io_specs : file -> list (list ascii) -> list ascii -> file -> Prop :=
| specs_nil f : io_specs f [] [] f
| specs_snoc f args text f1 arg t f2 :
    io_specs f args text f1 -> io_spec f1 arg t f2 -> io_specs f (args ++ [arg]) (text ++ t) f2.

(** The text on the standard output. *)
Fixpoint said (h : history) : list ascii :=
  match h with
  | [] => []
  | Ev c _ :: h => said h ++ match c with Out Stdout t => t | _ => [] end
  end.

(** ** Proofs *)

Section Proofs.
Context {T : ErrText} (fd : Z) (data0 : list ascii).

Abbreviation file_of := (file_of fd data0) (only parsing).

(** Events that change neither the file nor the standard output. *)
Definition unseen (e : event) : Prop :=
  forall h, said (e :: h) = said h /\ FileIO.file_of fd data0 (e :: h) = FileIO.file_of fd data0 h.

Lemma unseen_app k h :
  Forall unseen k -> said (k ++ h) = said h /\ FileIO.file_of fd data0 (k ++ h) = FileIO.file_of fd data0 h.
Proof. induction 1 as [|e k He _ [IH1 IH2]]; [done|]. destruct (He (k ++ h)) as [H1 H2]. cbn [app]. by rewrite H1, H2. Qed.

Lemma reporting_unseen e : reporting e -> unseen e.
Proof.
  destruct e as [X c r]. intros H h. destruct c; try done; cbn; [|by rewrite app_nil_r..].
  destruct s; try done. by rewrite app_nil_r.
Qed.

Lemma wp_gnFail_trace {A} (E : env) fname msg arg name (Q : outcome A -> history -> Prop) h :
  (forall o k, stops_failing o -> Forall reporting k -> Q o (k ++ h)) -> wp E (gnFail fname msg arg name) Q h.
Proof.
  intros HQ. assert (stops_failing (A := A) (Stop (Exit EXIT_FAILURE))) as Hs by (unfold stops_failing; auto).
  unfold gnFail. destruct name, arg as [[|]|]; cbn; repeat (intros [] _);
    [apply (HQ _ [_; _; _])|apply (HQ _ [_; _; _; _])|apply (HQ _ [_; _; _])|apply (HQ _ [_; _])|apply (HQ _ [_; _; _])|apply (HQ _ [_; _])];
    try done; by repeat constructor.
Qed.

Lemma wp_cmdLineErr_trace {A} (E : env) msg (Q : outcome A -> history -> Prop) h :
  (forall o k, stops_failing o -> Forall reporting k -> Q o (k ++ h)) -> wp E (cmdLineErr msg) Q h.
Proof.
  intros HQ. unfold cmdLineErr. cbn. repeat (intros [] _). apply (HQ _ [_; _; _; _]); [unfold stops_failing; auto|by repeat constructor].
Qed.

Context (f0 : file).

(** The arguments [done] have been carried out. *)
Definition carried_out (done : list (list ascii)) (h : history) : Prop :=
  io_specs f0 done (said h) (FileIO.file_of fd data0 h).

Definition arg_post (done : list (list ascii)) (arg : list ascii) (o : outcome unit) (h : history) : Prop :=
  stops_failing o /\ carried_out done h \/ o = Done tt /\ carried_out (done ++ [arg]) h.

Lemma failed_arg done arg o k k' h :
  carried_out done h -> stops_failing o -> Forall reporting k -> Forall unseen k' -> arg_post done arg o (k ++ k' ++ h).
Proof.
  intros Hd Ho Hk Hk'. left. split; [done|]. unfold carried_out.
  assert (Forall unseen (k ++ k')) as Hall.
  { apply Forall_app. split; [|done]. eapply Forall_impl; [exact Hk|]. intros e He. by apply reporting_unseen. }
  rewrite app_assoc. by destruct (unseen_app (k ++ k') h Hall) as [-> ->].
Qed.

(** A call was made, [e], and its text printed. *)
Lemma done_arg done arg t e k h f2 :
  carried_out done h -> Forall unseen k -> said (e :: k ++ h) = said (k ++ h) ->
  FileIO.file_of fd data0 (e :: k ++ h) = f2 -> io_spec (FileIO.file_of fd data0 h) arg t f2 ->
  arg_post done arg (Done tt) (Ev (Out Stdout t) tt :: e :: k ++ h).
Proof.
  intros Hd Hk Hs Hf Hspec. right. split; [done|]. unfold carried_out. destruct (unseen_app k h Hk) as [Hs' Hf'].
  cbn [said]. cbn in Hf |- *. rewrite Hf. fold (said (e :: k ++ h)) in *. eapply specs_snoc; [|exact Hspec].
  change (match e with Ev _ _ => _ end) with (said (e :: k ++ h)). rewrite Hs, Hs'. exact Hd.
Qed.

Lemma unseen_alloc n r : unseen (Ev (Alloc n) r).
Proof. intros h. cbn. by rewrite app_nil_r. Qed.

Lemma wp_getLong (E : env) rest arg (Q : outcome Z -> history -> Prop) h :
  (forall o k, stops_failing o -> Forall reporting k -> Q o (k ++ h)) ->
  (forall v, accepted rest GN_ANY_BASE v -> Q (Done v) h) ->
  wp E (getLong (Some rest) GN_ANY_BASE (Some arg)) Q h.
Proof.
  intros Hf Hd. unfold getLong. destruct (getNum_cases ($"getLong") (Some rest) GN_ANY_BASE (Some arg)) as [(s & v & [= <-] & Ha & ->)|[[msg ->] _]].
  - by apply Hd.
  - by apply wp_gnFail_trace.
Qed.

Lemma wp_ioArg done arg h :
  carried_out done h -> wp (file_env fd data0) (ioArg fd arg) (arg_post done arg) h.
Proof.
  intros Hd. assert (forall o k, stops_failing o -> Forall reporting k -> arg_post done arg o (k ++ h)) as Hfail.
  { intros o k Ho Hk. by apply (failed_arg done arg o k []). }
  assert (forall (o : outcome Z) (k : history), stops_failing o -> Forall reporting k ->
    match o with Done _ => False | Stop s => arg_post done arg (Stop s) (k ++ h) end) as Hfail'.
  { intros o k Ho Hk. destruct Ho as [->|[->| ->]]; apply Hfail; unfold stops_failing; auto. }
  destruct arg as [|c rest]; cbn [ioArg]; [by apply wp_cmdLineErr_trace|].
  destruct (Ascii.eqb c "r" || Ascii.eqb c "R") eqn:Hc.
  - apply wp_bind, wp_getLong; [intros o k Ho Hk; specialize (Hfail' o k Ho Hk); by destruct o|]. intros v Hv.
    apply wp_sys_bind. intros ok _. destruct ok; cbn [negb].
    2: { apply wp_errExit_trace. intros o k Ho Hk. apply (failed_arg _ _ _ k [_]); try done. by apply Forall_singleton, unseen_alloc. }
    apply wp_sys_bind. intros [buf|e] [Hn Hr].
    + intros [] _. specialize (Hr eq_refl) as [Hpre Heof].
      assert (FileIO.file_of fd data0 (Ev (Alloc (wrapu 64 v)) true :: h) = FileIO.file_of fd data0 h) as Hf by done. rewrite Hf in *.
      eapply (done_arg _ _ _ _ [Ev (Alloc (wrapu 64 v)) true] _ (File (contents (FileIO.file_of fd data0 h)) _));
        [exact Hd|by apply Forall_singleton, unseen_alloc|cbn; by rewrite app_nil_r| |].
      * cbn. by rewrite Z.eqb_refl.
      * apply (spec_read _ c rest v); try done. destruct (Ascii.eqb_spec c "r"); [by left|]. destruct (Ascii.eqb_spec c "R"); [by right|done].
    + apply wp_errExit_trace. intros o k Ho Hk. apply (failed_arg _ _ _ k [_; _]); try done. apply Forall_cons. split; [|by apply Forall_singleton, unseen_alloc].
      intros h'. cbn. by rewrite app_nil_r.
  - destruct (Ascii.eqb_spec c "w") as [->|Hw].
    + apply wp_sys_bind. intros [n|e] [Hn _].
      * intros [] _. cbn in Hn. eapply (done_arg _ _ _ _ []); [exact Hd|constructor|cbn; by rewrite app_nil_r|reflexivity|].
        cbn. rewrite Z.eqb_refl. by apply spec_write.
      * apply wp_errExit_trace. intros o k Ho Hk. apply (failed_arg _ _ _ k [_]); try done. apply Forall_singleton. intros h'. cbn. by rewrite app_nil_r.
    + destruct (Ascii.eqb_spec c "s") as [->|Hs]; [|by apply wp_cmdLineErr_trace].
      apply wp_bind, wp_getLong; [intros o k Ho Hk; specialize (Hfail' o k Ho Hk); by destruct o|]. intros v Hv.
      apply wp_sys_bind. intros [off|e] [_ Hr].
      * destruct (Hr eq_refl eq_refl) as [-> Hpos]. intros [] _.
        eapply (done_arg _ _ _ _ []); [exact Hd|constructor|cbn; by rewrite app_nil_r|reflexivity|].
        cbn. rewrite Z.eqb_refl. by apply spec_seek.
      * apply wp_errExit_trace. intros o k Ho Hk. apply (failed_arg _ _ _ k [_]); try done. apply Forall_singleton. intros h'. cbn. by rewrite app_nil_r.
Qed.
Lemma wp_ioArgs done args h :
  carried_out done h ->
  wp (file_env fd data0) (ioArgs fd args) (fun o h' =>
    exists done' rest, args = done' ++ rest /\ carried_out (done ++ done') h' /\
      (stops_failing o \/ o = Done tt /\ rest = [])) h.
Proof.
  revert done h. induction args as [|arg args IH]; intros done h Hd; cbn [ioArgs].
  { exists [], []. split_and!; [done|by rewrite app_nil_r|auto]. }
  eapply wp_call; [by apply wp_ioArg|..].
  - intros [] h' [[H _]|[_ H]]; [by destruct H as [?|[?|?]]|]. eapply wp_mono; [|by apply IH].
    intros o h2 (done' & rest & -> & Hc & Ho). exists (arg :: done'), rest. rewrite <- app_assoc in Hc. by split_and!.
  - intros s h' [[H Hc]|[? _]]; [|done]. exists [], (arg :: args). rewrite app_nil_r. split_and!; try done. left.
    by destruct H as [[= ->]|[[= ->]|[= ->]]]; unfold stops_failing; auto.
Qed.
End Proofs.

(** Events that an error exit makes leave the file and the output alone. *)
Lemma reporting_keeps fd data0 k h :
  Forall reporting k -> said (k ++ h) = said h /\ file_of fd data0 (k ++ h) = file_of fd data0 h.
Proof. intros Hk. apply unseen_app. eapply Forall_impl; [exact Hk|]. intros e He. by apply reporting_unseen. Qed.

Lemma wp_usageErr_trace {A} (E : env) msg (Q : outcome A -> history -> Prop) h :
  (forall o k, stops_failing o -> Forall reporting k -> Q o (k ++ h)) -> wp E (usageErr msg) Q h.
Proof.
  intros HQ. unfold usageErr. cbn. repeat (intros [] _). apply (HQ _ [_; _; _; _]); [unfold stops_failing; auto|by repeat constructor].
Qed.

(** seek_io carries out its arguments in order on the file it has opened, from
    the first one to the one that fails, if any. *)
Lemma seek_io_refines {T : ErrText} fd data0 argv :
  wp (file_env fd data0) (seek_io_main argv) (fun o h =>
    exists done rest, drop 2 argv = done ++ rest /\
      io_specs (File data0 0) done (said h) (file_of fd data0 h) /\
      (stops_failing o \/ o = Stop (Exit EXIT_SUCCESS) /\ rest = [] /\ (3 <= length argv)%nat)) [].
Proof.
  assert (forall o k h, carried_out fd data0 (File data0 0) [] h -> stops_failing o -> Forall reporting k ->
    exists done rest, drop 2 argv = done ++ rest /\ io_specs (File data0 0) done (said (k ++ h)) (file_of fd data0 (k ++ h)) /\
      (stops_failing (A := unit) o \/ o = Stop (Exit EXIT_SUCCESS) /\ rest = [] /\ (3 <= length argv)%nat)) as Hfail.
  { intros o k h Hd Ho Hk. exists [], (drop 2 argv). destruct (reporting_keeps fd data0 k h Hk) as [-> ->]. auto. }
  unfold seek_io_main. destruct ((length argv <? 3)%nat || is_help argv) eqn:Hu.
  { apply wp_usageErr_trace. intros o k Ho Hk. by apply (Hfail o k []); [constructor|..]. }
  apply orb_false_iff in Hu as [Hlen%Nat.ltb_ge _]. apply wp_sys_bind. intros [x|e] [_ Hx].
  2: { apply wp_errExit_trace. intros o k Ho Hk. by apply Hfail; [constructor|..]. }
  subst x. eapply wp_call; [apply (wp_ioArgs fd data0 (File data0 0) []); constructor|..].
  - intros [] h (done & rest & Hdr & Hc & [H|[_ ->]]); [by destruct H as [?|[?|?]]|].
    unfold closeOrExit. apply bind_assoc, wp_sys_bind. intros [[]|e] _.
    + exists done, []. split_and!; auto. cbn. by rewrite app_nil_r.
    + apply wp_bind, wp_errExit_trace. intros o k Ho Hk.
      assert (exists done rest, drop 2 argv = done ++ rest /\
        io_specs (File data0 0) done (said (k ++ Ev (Close fd) (Err e) :: h)) (file_of fd data0 (k ++ Ev (Close fd) (Err e) :: h)) /\
        stops_failing o) as (d & rs & H1 & H2 & H3).
      { exists done, []. destruct (reporting_keeps fd data0 k (Ev (Close fd) (Err e) :: h) Hk) as [-> ->]. split_and!; [done| |done]. cbn [said]. rewrite app_nil_r. exact Hc. }
      destruct Ho as [->|[->| ->]]; exists d, rs; split_and!; try done; left; unfold stops_failing; auto.
  - intros s h (dn & rest & Hdr & Hc & [H|[? _]]); [|done]. exists dn, rest. split_and!; try done. left.
    by destruct H as [[= ->]|[[= ->]|[= ->]]]; unfold stops_failing; auto.
Qed.

(** ** copy *)

Section Copy.
Context {T : ErrText} (i u : Z).

Lemma reporting_moves_nothing k : Forall reporting k -> Forall no_bytes k.
Proof. intros H. eapply Forall_impl; [exact H|]. intros [X c r]. by destruct c. Qed.

Lemma reporting_bytes k h x : Forall reporting k -> input x (k ++ h) = input x h /\ output x (k ++ h) = output x h.
Proof. intros Hk. by apply no_bytes_app, reporting_moves_nothing. Qed.

Definition copied (fuel : nat) (h0 : history) (o : outcome unit) (h : history) : Prop :=
  output u h `prefix_of` input i h /\
  (stops_failing o \/
   o = Stop OutOfFuel /\ output u h = input i h /\ (fuel + length (input i h0) <= length (input i h))%nat \/
   o = Done tt /\ output u h = input i h /\ open_fds h = open_fds h0 /\ exists k, h = Ev (Read i COPY_BUF_SIZE) (Ok []) :: k).

Lemma copied_fails fuel h0 o k h :
  stops_failing o -> Forall reporting k -> output u h `prefix_of` input i h -> copied fuel h0 o (k ++ h).
Proof. intros Ho Hk Hp. unfold copied. destruct (reporting_bytes k h i Hk) as [-> _], (reporting_bytes k h u Hk) as [_ ->]. auto. Qed.

Lemma wp_copyLoop fuel h : output u h = input i h -> wp posix (copyLoop fuel i u) (copied fuel h) h.
Proof.
  revert h. induction fuel as [|fuel IH]; intros h Hh; cbn [copyLoop].
  { split; [by rewrite Hh|]. right. left. split_and!; [done|done|lia]. }
  apply wp_sys_bind. intros [[|c l]|e] Hr.
  - cbn. assert (output u (Ev (Read i COPY_BUF_SIZE) (Ok []) :: h) = input i (Ev (Read i COPY_BUF_SIZE) (Ok []) :: h)) as He.
    { cbn. by rewrite Z.eqb_refl, !app_nil_r. }
    split; [by rewrite He|]. right. right. split_and!; [done|done|done|by eexists].
  - set (buf := c :: l). apply wp_sys_bind. intros w Hw.
    assert (input i (Ev (Write u buf) w :: Ev (Read i COPY_BUF_SIZE) (Ok buf) :: h) = input i h ++ buf) as Hin.
    { cbn. by rewrite Z.eqb_refl, app_nil_r. }
    assert (output u (Ev (Write u buf) w :: Ev (Read i COPY_BUF_SIZE) (Ok buf) :: h) =
      input i h ++ match w with Ok n => take (Z.to_nat n) buf | Err _ => [] end) as Hout.
    { cbn [output put]. rewrite Z.eqb_refl, app_nil_r, Hh. by destruct w. }
    set (h2 := Ev (Write u buf) w :: _) in *.
    destruct (match w with Ok n => n =? strlen buf | Err _ => false end) eqn:Hn.
    + destruct w as [n|]; [|done]. apply Z.eqb_eq in Hn. unfold strlen in Hn. rewrite Hn, Nat2Z.id, firstn_all in Hout.
      eapply wp_mono; [|apply IH; congruence]. intros o h3 [Hpre [H|[(-> & H1 & H2)|(-> & H1 & H2 & H3)]]]; (split; [done|]); [by left| |].
      * right. left. split_and!; try done. rewrite Hin, length_app in H2. unfold buf in H2. cbn in H2. lia.
      * right. right. by split_and!.
    + apply wp_reporting. intros o k Ho Hk. apply copied_fails; [done..|]. rewrite Hin, Hout. apply prefix_app.
      destruct w as [n|]; [|apply prefix_nil]. exists (drop (Z.to_nat n) buf). by rewrite take_drop.
  - apply wp_errExit_trace. intros o k Ho Hk. apply copied_fails; [done..|]. cbn. by rewrite !app_nil_r, Hh.
Qed.
End Copy.

(** The bytes that the program moves: none before both files are open. *)
Definition copy_post (fuel : nat) (argv : list (list ascii)) (o : outcome unit) (h : history) : Prop :=
  stops_failing o /\ (forall x, input x h = [] /\ output x h = []) \/
  exists i u, i <> u /\ Ev (Open (argv_nth argv 1) O_RDONLY 0) (Ok i) ∈ h /\
    Ev (Open (argv_nth argv 2) O_CREAT_WRONLY_TRUNC RW_FOR_ALL) (Ok u) ∈ h /\
    output u h `prefix_of` input i h /\
    (stops_failing o \/
     o = Stop OutOfFuel /\ output u h = input i h /\ (fuel <= length (input i h))%nat \/
     o = Stop (Exit EXIT_SUCCESS) /\ output u h = input i h /\ open_fds h = ∅ /\
       Ev (Read i COPY_BUF_SIZE) (Ok []) ∈ h).

(** Both files are closed at the end. *)
Lemma wp_copy_close {T : ErrText} i u fuel argv h :
  i <> u -> Ev (Open (argv_nth argv 1) O_RDONLY 0) (Ok i) ∈ h ->
  Ev (Open (argv_nth argv 2) O_CREAT_WRONLY_TRUNC RW_FOR_ALL) (Ok u) ∈ h ->
  output u h = input i h -> open_fds h = {[u]} ∪ ({[i]} ∪ ∅) -> Ev (Read i COPY_BUF_SIZE) (Ok []) ∈ h ->
  wp posix (closeOrExit i ($"close input") ;;; closeOrExit u ($"close output") ;;; Halt (Exit EXIT_SUCCESS))
    (copy_post fuel argv) h.
Proof.
  intros Hne Hi Hu Heq Hop Hrd.
  assert (forall k o, Forall no_bytes k ->
    (stops_failing o \/ o = Stop (Exit EXIT_SUCCESS) /\ open_fds (k ++ h) = ∅) -> copy_post fuel argv o (k ++ h)) as Hend.
  { intros k o Hk Ho. right. exists i, u. destruct (no_bytes_app k h i Hk) as [-> _], (no_bytes_app k h u Hk) as [_ ->].
    rewrite !elem_of_app, Heq. split_and!; auto. destruct Ho as [?|[-> ?]]; auto. right. right. auto. }
  assert (forall k1 k2 (o : outcome unit), Forall no_bytes k1 -> Forall reporting k2 -> stops_failing o ->
    match o with Done a => False | Stop s => copy_post fuel argv (Stop s) (k2 ++ k1 ++ h) end) as Hfail.
  { intros k1 k2 o H1 H2 Ho. rewrite app_assoc. destruct Ho as [->|[->| ->]]; (apply Hend;
      [apply Forall_app; split; [by apply reporting_moves_nothing|done]|left; unfold stops_failing; auto]). }
  unfold closeOrExit. apply bind_assoc, wp_sys_bind. intros [[]|e] _.
  2: { apply wp_bind, wp_errExit_trace. intros o k Ho Hk. specialize (Hfail [Ev (Close i) (Err e)] k o). destruct o; [exfalso|];
         apply Hfail; try done; by repeat constructor. }
  cbn [bind]. apply bind_assoc, wp_sys_bind. intros [[]|e] _.
  2: { apply wp_bind, wp_errExit_trace. intros o k Ho Hk. specialize (Hfail [Ev (Close u) (Err e); Ev (Close i) (Ok tt)] k o).
       destruct o; [exfalso|]; apply Hfail; try done; by repeat constructor. }
  apply (Hend [_; _]); [by repeat constructor|]. right. split; [done|]. cbn. rewrite Hop. set_solver.
Qed.

Lemma copy_faithful {T : ErrText} fuel argv : wp posix (copy_main fuel argv) (copy_post fuel argv) [].
Proof.
  assert (forall o k h, stops_failing o -> Forall reporting k -> (forall x, input x h = [] /\ output x h = []) ->
    copy_post fuel argv o (k ++ h)) as Hearly.
  { intros o k h Ho Hk Hh. left. split; [done|]. intros x. by destruct (reporting_bytes k h x Hk) as [-> ->]. }
  unfold copy_main. destruct (_ || _); [apply wp_usageErr_trace; intros o k Ho Hk; by apply Hearly|].
  apply wp_sys_bind. intros [i|e] Hi; [|apply wp_errExit_trace; intros o k Ho Hk; by apply Hearly].
  apply wp_sys_bind. intros [u|e] Hu; [|apply wp_errExit_trace; intros o k Ho Hk; by apply Hearly].
  set (h0 := Ev _ (Ok u) :: _) in *. assert (i <> u) as Hne by (destruct Hu as [_ Hu]; cbn in Hu; set_solver).
  assert (open_fds h0 = {[u]} ∪ ({[i]} ∪ ∅)) as Hfds by done.
  assert (forall k, Ev (Open (argv_nth argv 1) O_RDONLY 0) (Ok i) ∈ k ++ h0 /\
    Ev (Open (argv_nth argv 2) O_CREAT_WRONLY_TRUNC RW_FOR_ALL) (Ok u) ∈ k ++ h0) as Hin.
  { intros k. rewrite !elem_of_app. unfold h0. split; right; [by right; left|by left]. }
  assert (forall k, output u (k ++ h0) `prefix_of` input i (k ++ h0) -> forall o, stops_failing o -> copy_post fuel argv o (k ++ h0)) as Hlate.
  { intros k Hp o Ho. right. exists i, u. destruct (Hin k). split_and!; auto. }
  eapply wp_call; [apply wp_conj; [apply wp_extends|by apply (wp_copyLoop i u fuel h0)]|..].
  - intros [] h [[k ->] [Hpre [H|[[? _]|(_ & Heq & Hop & k' & Hk')]]]]; [by destruct H as [?|[?|?]]|done|].
    assert (Ev (Read i COPY_BUF_SIZE) (Ok []) ∈ k ++ h0) as Hrd by (rewrite Hk'; by left).
    apply (wp_copy_close i u fuel argv (k ++ h0)); try done; try apply Hin.
  - intros s h [[k ->] [Hpre H]]. destruct H as [H|[([= ->] & H1 & H2)|[? _]]]; [|right; exists i, u|done].
    + apply Hlate; [done|]. by destruct H as [[= ->]|[[= ->]|[= ->]]]; unfold stops_failing; auto.
    + destruct (Hin k). split_and!; auto. right. left. split_and!; try done. lia.
Qed.

(** C28: the file programs.  copy moves the bytes of the old file to the new one:
    what has been written is always a prefix of what was read, a failure is
    reported whenever they differ at the end, and an exit with EXIT_SUCCESS means
    that the end of the old file was reached, everything was written and both
    files are closed; the loop ends unless the kernel goes on delivering bytes.
    seek_io carries out its arguments in order: for every initial contents, what
    it has displayed and what the file and its offset are at the end, also after
    an error, is what [io_spec] says of the arguments up to the one that failed:
    bytes at the offset, as text or in hexadecimal, bytes stored at the offset
    with gaps filled by null bytes, the offset set to the given number. *)
Theorem fileio_programs {T : ErrText} fuel argv fd data0 :
  wp posix (copy_main fuel argv) (copy_post fuel argv) [] /\
  wp (file_env fd data0) (seek_io_main argv) (fun o h =>
    exists done rest, drop 2 argv = done ++ rest /\
      io_specs (File data0 0) done (said h) (file_of fd data0 h) /\
      (stops_failing o \/ o = Stop (Exit EXIT_SUCCESS) /\ rest = [] /\ (3 <= length argv)%nat)) [].
Proof. split; [apply copy_faithful|apply seek_io_refines]. Qed.

(** ** Examples *)

Definition demo_io_kernel (data0 : list ascii) : kernel := fun h X c =>
  match c in call X return X with
  | Open _ _ _ => Ok 3
  | Alloc _ => true
  | Read _ n => let f := file_of 3 data0 h in Ok (take (Z.to_nat n) (drop (Z.to_nat (offset f)) (contents f)))
  | Write _ d => Ok (strlen d)
  | Lseek _ o _ => Ok o
  | Close _ => Ok tt
  | c => failing_kernel h _ c
  end.

Example seek_io_demo :
  let '(o, h) := run (demo_io_kernel ($"hello")) (seek_io_main (T := demo_text) [$"seek_io"; $"f"; $"s2"; $"r0x2"; $"wXY"; $"s8"; $"w!"; $"s5"; $"R4"]) [] in
  o = Stop (Exit EXIT_SUCCESS) /\ contents (file_of 3 ($"hello") h) = $"hellXY" ++ [NUL; NUL] ++ $"!" /\
  said h = $"s2: seek succeeded" ++ [NL] ++ $"r0x2: ll" ++ [NL] ++ $"wXY: wrote 2 bytes" ++ [NL] ++
    $"s8: seek succeeded" ++ [NL] ++ $"w!: wrote 1 bytes" ++ [NL] ++ $"s5: seek succeeded" ++ [NL] ++
    $"R4: 59 00 00 21 " ++ [NL].
Proof. vm_compute. done. Qed.

(** A byte above 127 is displayed with its sign. *)
Example hex_of_high_byte : hex_of (chr 0xe9) = $"ffffffe9 ".
Proof. reflexivity. Qed.

Lemma file_env_inhabited fd data0 h X (c : call X) : file_env fd data0 h X c (failing_kernel h X c).
Proof. split; [apply posix_inhabited|by destruct c]. Qed.
