(* ===== verification/Scm.v ===== *)
(** * sockets/scm_*.c: passing descriptors and credentials

    scm_functions.c, scm_rights_send.c and _recv.c, scm_multi_send.c and
    _recv.c.  Ancillary data are bytes in memory: [peek] and [poke] (RawUdp.v)
    read and write them, and an access outside the buffer is [Undefined].  The
    macros of cmsg(3) are written out for a 64-bit system as glibc defines them.
    sendmsg() and recvmsg() get and deliver these bytes; which bytes the kernel
    delivers is a hypothesis of the theorems. *)

From S2P Require Import Prelude Sys LibErrors StreamIO Sockets RawUdp FileIO.

Definition SOL_SOCKET : Z := 1.
Definition SCM_RIGHTS : Z := 1.
Definition SCM_CREDENTIALS : Z := 2.
Definition MSG_CTRUNC : Z := 8.
Definition MAX_FDS : Z := 1024.
Definition SIZEOF_CMSGHDR : Z := 16.
Definition SIZEOF_UCRED : Z := 12.
Definition RIGHTS_PATH : list ascii := $"scm_rights".
Definition MULTI_PATH : list ascii := $"scm_multi".
Definition CAT_BUF_SIZE : Z := 100.

(** ** Words in memory *)

Definition word32 (b : list ascii) : Z :=
  match b with [a; b; c; d] => le32 a b c d | _ => 0 end.
Definition word64 (b : list ascii) : Z := word32 (take 4 b) + 2 ^ 32 * word32 (drop 4 b).
Definition put64 (z : Z) : list ascii := put32 (z mod 2 ^ 32) ++ put32 (z / 2 ^ 32).

Definition get_int (mem : list ascii) (off : nat) : prog Z := b <- peek mem off 4 ;; Ret (int_of (word32 b)).

(** ** cmsg(3) *)

Definition CMSG_ALIGN (n : Z) : Z := (n + 7) / 8 * 8.
Definition CMSG_LEN (n : Z) : Z := CMSG_ALIGN SIZEOF_CMSGHDR + n.
Definition CMSG_SPACE (n : Z) : Z := CMSG_ALIGN n + CMSG_ALIGN SIZEOF_CMSGHDR.

(** Headers are offsets into the buffer of [controllen] bytes. *)
Definition CMSG_FIRSTHDR (controllen : Z) : option nat :=
  if SIZEOF_CMSGHDR <=? controllen then Some 0%nat else None.

Definition cmsg_len (mem : list ascii) (hdr : nat) : prog Z := b <- peek mem hdr 8 ;; Ret (word64 b).
Definition cmsg_level (mem : list ascii) (hdr : nat) : prog Z := get_int mem (hdr + 8).
Definition cmsg_type (mem : list ascii) (hdr : nat) : prog Z := get_int mem (hdr + 12).
Definition CMSG_DATA (hdr : nat) : nat := (hdr + 16)%nat.

Definition CMSG_NXTHDR (mem : list ascii) (controllen : Z) (hdr : nat) : prog (option nat) :=
  len <- cmsg_len mem hdr ;;
  if len <? SIZEOF_CMSGHDR then Ret None
  else
    let next := Z.of_nat hdr + CMSG_ALIGN len in
    if controllen <? next + SIZEOF_CMSGHDR then Ret None
    else
      nlen <- cmsg_len mem (Z.to_nat next) ;;
      if controllen <? next + CMSG_ALIGN nlen then Ret None else Ret (Some (Z.to_nat next)).

Section Scm.
Context {T : ErrText}.

(** ** scm_functions.c *)

(** The four assignments to the header and the data of a message with one
    descriptor, in the order of sendfd(). *)
Definition fillRights (mem : list ascii) (hdr : nat) (fd : Z) : prog (list ascii) :=
  mem <- poke mem (hdr + 8) (put_int SOL_SOCKET) ;;
  mem <- poke mem (hdr + 12) (put_int SCM_RIGHTS) ;;
  mem <- poke mem hdr (put64 (CMSG_LEN 4)) ;;
  poke mem (CMSG_DATA hdr) (put_int fd).

(** A pointer that the code dereferences without a test. *)
Definition deref {A} (p : option nat) (k : nat -> prog A) : prog A :=
  match p with Some hdr => k hdr | None => Halt (Undefined "null pointer") end.

(** [stack]: what controlMsg holds at first. *)
Definition sendfd (stack : list ascii) (sockfd fd : Z) : prog Z :=
  deref (CMSG_FIRSTHDR (CMSG_SPACE 4)) (fun cmsgp =>
    mem <- fillRights stack cmsgp fd ;;
    r <- sys (Sendmsg sockfd (put_int 12345) mem) ;;
    Ret (match r with Err _ => -1 | Ok _ => 0 end)).

(** The buffer after recvmsg() has stored [control] in it. *)
Definition received (control buf : list ascii) : list ascii := control ++ drop (length control) buf.

(** The tests of the header in recvfd(); the descriptor if they succeed. *)
Definition rightsOf (mem : list ascii) (hdr : nat) : prog (option Z) :=
  len <- cmsg_len mem hdr ;;
  if negb (len =? CMSG_LEN 4) then Ret None
  else
    level <- cmsg_level mem hdr ;;
    if negb (level =? SOL_SOCKET) then Ret None
    else
      type <- cmsg_type mem hdr ;;
      if negb (type =? SCM_RIGHTS) then Ret None
      else fd <- get_int mem (CMSG_DATA hdr) ;; Ret (Some fd).

Definition recvfd (stack : list ascii) (sockfd : Z) : prog (res Z) :=
  r <- sys (Recvmsg sockfd 4 (CMSG_SPACE 4)) ;;
  match r with
  | Err e => Ret (Err e)
  | Ok (_, control, _) =>
      match CMSG_FIRSTHDR (strlen control) with
      | None => Ret (Err EINVAL)
      | Some cmsgp =>
          fd <- rightsOf (received control stack) cmsgp ;;
          match fd with None => Ret (Err EINVAL) | Some fd => Ret (Ok fd) end
      end
  end.

(** ** scm_rights_send.c, scm_rights_recv.c *)

Definition O_READ : Z := 0.

(** [useDatagramSocket] after the options, [None] for an option that is not d. *)
Fixpoint datagramOption (opts : list (ascii * list ascii)) (useDatagramSocket : bool) : option bool :=
  match opts with
  | [] => Some useDatagramSocket
  | (c, _) :: opts => if Ascii.eqb c "d" then datagramOption opts true else None
  end.

Definition sockType (useDatagramSocket : bool) : Z := if useDatagramSocket then SOCK_DGRAM else SOCK_STREAM.

Definition rights_send_main (pname : list ascii) (opts : list (ascii * list ascii)) (args : list (list ascii)) : prog unit :=
  match datagramOption opts false with
  | None => usageErr (pname ++ $" [-d] file" ++ [NL] ++ $"        -d    use datagram socket" ++ [NL])
  | Some useDatagramSocket =>
      match args with
      | [path] =>
          f <- sys (Open path O_READ 0) ;;
          match f with
          | Err e => errExit e ($"open")
          | Ok fd =>
              print Stderr ($"Sending data = 12345" ++ [NL]) ;;;
              deref (CMSG_FIRSTHDR (CMSG_SPACE 4)) (fun cmsgp =>
                mem <- poke (replicate (Z.to_nat (CMSG_SPACE 4)) NUL) cmsgp (put64 (CMSG_LEN 4)) ;;
                mem <- poke mem (cmsgp + 8) (put_int SOL_SOCKET) ;;
                mem <- poke mem (cmsgp + 12) (put_int SCM_RIGHTS) ;;
                mem <- poke mem (CMSG_DATA cmsgp) (put_int fd) ;;
                s <- unixConnect (Some RIGHTS_PATH) (sockType useDatagramSocket) ;;
                match s with
                | Err e => errExit e ($"unixConnect")
                | Ok sfd =>
                    print Stderr ($"Sending FD " ++ dec fd ++ [NL]) ;;;
                    r <- sys (Sendmsg sfd (put_int 12345) mem) ;;
                    match r with
                    | Err e => errExit e ($"sendmsg")
                    | Ok ns =>
                        print Stderr ($"sendmsg() returned " ++ dec ns ++ [NL]) ;;;
                        Halt (Exit EXIT_SUCCESS)
                    end
                end)
          end
      | _ => usageErr (pname ++ $" [-d] file" ++ [NL])
      end
  end.

(** The socket on which both receivers get their message. *)
Definition receiverSocket (path : list ascii) (useDatagramSocket : bool) : prog Z :=
  r <- sys (Remove path) ;;
  match r with
  | Err e => if negb (e =? ENOENT) then errExit e ($"remove-" ++ path) else Ret tt
  | Ok _ => Ret tt
  end ;;;
  if useDatagramSocket then
    s <- unixBind (Some path) SOCK_DGRAM ;;
    match s with Err e => errExit e ($"unixBind") | Ok sfd => Ret sfd end
  else
    l <- unixBind (Some path) SOCK_STREAM ;;
    match l with
    | Err e => errExit e ($"unixBind")
    | Ok lfd =>
        r <- sys (Listen lfd 5) ;;
        match r with
        | Err e => errExit e ($"listen")
        | Ok _ =>
            a <- sys (Accept lfd) ;;
            match a with Err e => errExit e ($"accept") | Ok (sfd, _) => Ret sfd end
        end
    end.

(** Display of the contents of a file; the result of write() is not used. *)
Fixpoint catFd (fuel : nat) (fd : Z) : prog unit :=
  match fuel with
  | O => Halt OutOfFuel
  | S fuel =>
      r <- sys (Read fd CAT_BUF_SIZE) ;;
      match r with
      | Err e => errExit e ($"read")
      | Ok [] => Ret tt
      | Ok buf => sys (Write STDOUT_FILENO buf) ;;; catFd fuel fd
      end
  end.

(** [stack] and [data0]: what controlMsg and data hold at first. *)
Definition rights_recv_main (fuel : nat) (stack data0 : list ascii) (pname : list ascii) (opts : list (ascii * list ascii)) : prog unit :=
  match datagramOption opts false with
  | None => usageErr (pname ++ $" [-d]" ++ [NL] ++ $"        -d    use datagram socket" ++ [NL])
  | Some useDatagramSocket =>
      sfd <- receiverSocket RIGHTS_PATH useDatagramSocket ;;
      r <- sys (Recvmsg sfd 4 (CMSG_SPACE 4)) ;;
      match r with
      | Err e => errExit e ($"recvmsg")
      | Ok (data, control, _) =>
          print Stderr ($"recvmsg() returned " ++ dec (strlen data) ++ [NL]) ;;;
          (if 0 <? strlen data then print Stderr ($"Received data = " ++ dec (int_of (word32 (received data data0))) ++ [NL]) else Ret tt) ;;;
          let mem := received control stack in
          match CMSG_FIRSTHDR (strlen control) with
          | None => fatal ($"bad cmsg header / message length")
          | Some cmsgp =>
              len <- cmsg_len mem cmsgp ;;
              if negb (len =? CMSG_LEN 4) then fatal ($"bad cmsg header / message length")
              else
                level <- cmsg_level mem cmsgp ;;
                if negb (level =? SOL_SOCKET) then fatal ($"cmsg_level != SOL_SOCKET")
                else
                  type <- cmsg_type mem cmsgp ;;
                  if negb (type =? SCM_RIGHTS) then fatal ($"cmsg_type != SCM_RIGHTS")
                  else
                    fd <- get_int mem (CMSG_DATA cmsgp) ;;
                    print Stderr ($"Received FD " ++ dec fd ++ [NL]) ;;;
                    catFd fuel fd ;;;
                    Halt (Exit EXIT_SUCCESS)
          end
      end
  end.

(** ** scm_multi_send.c *)

Definition TAB : ascii := "009"%char.

Definition multiUsage (pname : list ascii) : prog unit :=
  print Stderr ($"Usage: " ++ pname ++ $" [options] file..." ++ [NL]) ;;;
  print Stderr ($"    Options:" ++ [NL]) ;;;
  print Stderr ([TAB] ++ $"-d        Use datagram (instead of stream) socket" ++ [NL]) ;;;
  print Stderr ([TAB] ++ $"-n        Don't send any real data with the ancillary data" ++ [NL]) ;;;
  print Stderr ([TAB] ++ $"-p <pid>  Use this PID when sending credentials" ++ [NL]) ;;;
  print Stderr ([TAB] ++ $"-u <uid>  Use this UID when sending credentials" ++ [NL]) ;;;
  print Stderr ([TAB] ++ $"-g <gid>  Use this GID when sending credentials" ++ [NL]) ;;;
  print Stderr ($"    If any of any of -p/-u/-g is absent, the corresponding real" ++ [NL] ++
                $"    credential is used." ++ [NL]) ;;;
  Halt (Exit EXIT_FAILURE).

Record send_options := SendOptions
  { use_dgram : bool; send_data : bool; o_pid : Z; o_uid : Z; o_gid : Z }.

Fixpoint sendOptions (opts : list (ascii * list ascii)) (o : send_options) : option send_options :=
  match opts with
  | [] => Some o
  | (c, optarg) :: opts =>
      if Ascii.eqb c "d" then sendOptions opts (SendOptions true (send_data o) (o_pid o) (o_uid o) (o_gid o))
      else if Ascii.eqb c "n" then sendOptions opts (SendOptions (use_dgram o) false (o_pid o) (o_uid o) (o_gid o))
      else if Ascii.eqb c "p" then sendOptions opts (SendOptions (use_dgram o) (send_data o) (atoi optarg) (o_uid o) (o_gid o))
      else if Ascii.eqb c "u" then sendOptions opts (SendOptions (use_dgram o) (send_data o) (o_pid o) (wrapu 32 (atoi optarg)) (o_gid o))
      else if Ascii.eqb c "g" then sendOptions opts (SendOptions (use_dgram o) (send_data o) (o_pid o) (o_uid o) (wrapu 32 (atoi optarg)))
      else None
  end.

(** Open the files and store their descriptors from [off] on. *)
Fixpoint openFiles (mem : list ascii) (off : nat) (paths : list (list ascii)) : prog (list ascii) :=
  match paths with
  | [] => Ret mem
  | path :: paths =>
      f <- sys (Open path O_READ 0) ;;
      match f with
      | Err e => errExit e ($"open")
      | Ok fd => mem <- poke mem off (put_int fd) ;; openFiles mem (off + 4) paths
      end
  end.

(** The ancillary data: headers and credentials, and the place of the list of
    descriptors. *)
Definition buildControl (fdCnt : Z) (o : send_options) : prog (list ascii * nat) :=
  let controlMsgSize := CMSG_SPACE (4 * fdCnt) + CMSG_SPACE SIZEOF_UCRED in
  ok <- sys (Alloc controlMsgSize) ;;
  if negb ok then errExit ENOMEM ($"malloc")
  else
    let mem := replicate (Z.to_nat controlMsgSize) NUL in
    deref (CMSG_FIRSTHDR controlMsgSize) (fun cmsgp =>
      mem <- poke mem (cmsgp + 8) (put_int SOL_SOCKET) ;;
      mem <- poke mem (cmsgp + 12) (put_int SCM_RIGHTS) ;;
      mem <- poke mem cmsgp (put64 (CMSG_LEN (4 * fdCnt))) ;;
      print Stdout ($"cmsg_len 1: " ++ dec (CMSG_LEN (4 * fdCnt)) ++ [NL]) ;;;
      let fdList := CMSG_DATA cmsgp in
      next <- CMSG_NXTHDR mem controlMsgSize cmsgp ;;
      deref next (fun cmsgp =>
        mem <- poke mem (cmsgp + 8) (put_int SOL_SOCKET) ;;
        mem <- poke mem (cmsgp + 12) (put_int SCM_CREDENTIALS) ;;
        mem <- poke mem cmsgp (put64 (CMSG_LEN SIZEOF_UCRED)) ;;
        print Stdout ($"cmsg_len 2: " ++ dec (CMSG_LEN SIZEOF_UCRED) ++ [NL]) ;;;
        let ucredp := CMSG_DATA cmsgp in
        mem <- poke mem ucredp (put_int (o_pid o)) ;;
        mem <- poke mem (ucredp + 4) (put_int (o_uid o)) ;;
        mem <- poke mem (ucredp + 8) (put_int (o_gid o)) ;;
        Ret (mem, fdList))).

Definition multi_send_main (pname : list ascii) (opts : list (ascii * list ascii)) (args : list (list ascii)) : prog unit :=
  pid <- sys Getpid ;; uid <- sys Getuid ;; gid <- sys Getgid ;;
  match sendOptions opts (SendOptions false true pid uid gid) with
  | None => multiUsage pname
  | Some o =>
      let fdCnt := Z.of_nat (length args) in
      if fdCnt <=? 0 then multiUsage pname
      else
        '(mem, fdList) <- buildControl fdCnt o ;;
        mem <- openFiles mem fdList args ;;
        s <- unixConnect (Some MULTI_PATH) (sockType (use_dgram o)) ;;
        match s with
        | Err e => errExit e ($"unixConnect")
        | Ok sfd =>
            r <- sys (Sendmsg sfd (if send_data o then put_int 12345 else []) mem) ;;
            match r with
            | Err e => errExit e ($"sendmsg")
            | Ok numSent =>
                print Stdout ($"sendmsg() returned " ++ dec numSent ++ [NL]) ;;;
                Halt (Exit EXIT_SUCCESS)
            end
        end
  end.

(** ** scm_multi_recv.c *)

Definition separator : list ascii := $"=================================" ++ [NL].

Fixpoint showFds (fuel : nat) (mem : list ascii) (off j fdCnt : nat) : prog unit :=
  match fdCnt with
  | O => Ret tt
  | S n =>
      fd <- get_int mem off ;;
      print Stdout ($"--- [" ++ dec (Z.of_nat j) ++ $"] Received FD " ++ dec fd ++ [NL]) ;;;
      catFd fuel fd ;;;
      closeOrExit fd ($"close") ;;;
      showFds fuel mem (off + 4) (S j) n
  end.

Definition credLine (pid uid gid : Z) : list ascii :=
  $"SCM_CREDENTIALS: pid=" ++ dec pid ++ $", uid=" ++ dec uid ++ $", gid=" ++ dec gid ++ [NL].

(** The body of the loop over the headers. *)
Definition showHeader (fuel : nat) (mem : list ascii) (cmsgp : nat) : prog unit :=
  print Stdout separator ;;;
  len <- cmsg_len mem cmsgp ;;
  print Stdout ($"cmsg_len: " ++ dec len ++ [NL]) ;;;
  level <- cmsg_level mem cmsgp ;;
  if negb (level =? SOL_SOCKET) then fatal ($"cmsg_level != SOL_SOCKET")
  else
    type <- cmsg_type mem cmsgp ;;
    if type =? SCM_RIGHTS then
      let fdCnt := int_of (wrapu 64 (len - CMSG_LEN 0) / 4) in
      print Stdout ($"SCM_RIGHTS: received " ++ dec fdCnt ++ $" file descriptors" ++ [NL]) ;;;
      showFds fuel mem (CMSG_DATA cmsgp) 0 (Z.to_nat fdCnt)
    else if type =? SCM_CREDENTIALS then
      if negb (len =? CMSG_LEN SIZEOF_UCRED) then fatal ($"cmsg data has incorrect size")
      else
        pid <- get_int mem (CMSG_DATA cmsgp) ;;
        uid <- get_int mem (CMSG_DATA cmsgp + 4) ;;
        gid <- get_int mem (CMSG_DATA cmsgp + 8) ;;
        print Stdout (credLine pid (wrapu 32 uid) (wrapu 32 gid))
    else fatal ($"Bad cmsg_type (" ++ dec type ++ $")").

Fixpoint walkHeaders (steps fuel : nat) (mem : list ascii) (controllen : Z) (cmsgp : option nat) : prog unit :=
  match cmsgp with
  | None => Ret tt
  | Some hdr =>
      match steps with
      | O => Halt OutOfFuel
      | S steps =>
          showHeader fuel mem hdr ;;;
          next <- CMSG_NXTHDR mem controllen hdr ;;
          walkHeaders steps fuel mem controllen next
      end
  end.

Fixpoint recvOptions (opts : list (ascii * list ascii)) (dgram : bool) (size : Z) : option (bool * Z) :=
  match opts with
  | [] => Some (dgram, size)
  | (c, optarg) :: opts =>
      if Ascii.eqb c "d" then recvOptions opts true size
      else if Ascii.eqb c "n" then recvOptions opts dgram (atoi optarg)
      else None
  end.

(** [heap] and [data0]: what the allocated buffer and data hold at first. *)
Definition multi_recv_main (fuel : nat) (heap data0 : list ascii) (pname : list ascii)
    (opts : list (ascii * list ascii)) : prog unit :=
  let controlMsgSize := CMSG_SPACE (4 * MAX_FDS) + CMSG_SPACE SIZEOF_UCRED in
  ok <- sys (Alloc controlMsgSize) ;;
  if negb ok then errExit ENOMEM ($"malloc")
  else match recvOptions opts false (-1) with
  | None => usageErr (pname ++ $" [-d]" ++ [NL] ++ $"        -d           use datagram socket" ++ [NL] ++
                      $"        -n nbytes    limit on size of received ancillary data" ++ [NL])
  | Some (useDatagramSocket, optControlMsgSize) =>
      sfd <- receiverSocket MULTI_PATH useDatagramSocket ;;
      p <- sys (Setsockopt_passcred sfd 1) ;;
      match p with
      | Err e => errExit e ($"setsockopt")
      | Ok _ =>
          r <- sys (Recvmsg sfd 4 (if optControlMsgSize =? -1 then controlMsgSize else wrapu 64 optControlMsgSize)) ;;
          match r with
          | Err e => errExit e ($"recvmsg")
          | Ok (data, control, msg_flags) =>
              if controlMsgSize <? strlen control then Halt (Undefined "write outside a buffer")
              else
                print Stdout ($"recvmsg() returned " ++ dec (strlen data) ++ [NL]) ;;;
                (if 0 <? strlen data
                 then print Stdout ($"Received data = " ++ dec (int_of (word32 (received data data0))) ++ [NL]) else Ret tt) ;;;
                (if negb (optControlMsgSize =? -1) then
                   print Stdout separator ;;;
                   pid <- sys Getpid ;;
                   sys (Shell ($"ls -l /proc/" ++ dec pid ++ $"/fd")) ;;;
                   print Stdout separator
                 else Ret tt) ;;;
                (if flag msg_flags MSG_CTRUNC
                 then print Stdout ($"********** Ancillary data was truncated!!! **********" ++ [NL]) else Ret tt) ;;;
                walkHeaders (S (length control)) fuel (received control heap) (strlen control) (CMSG_FIRSTHDR (strlen control)) ;;;
                Halt (Exit EXIT_SUCCESS)
          end
      end
  end.
End Scm.

(** ** What the bytes stand for *)

Inductive block := Rights (fds : list Z) | Creds (pid uid gid : Z).

Definition block_data (b : block) : list ascii :=
  match b with
  | Rights fds => concat (map put_int fds)
  | Creds pid uid gid => put_int pid ++ put_int uid ++ put_int gid
  end.
Definition block_type (b : block) : Z := match b with Rights _ => SCM_RIGHTS | Creds _ _ _ => SCM_CREDENTIALS end.

(** The ids have their types. *)
Definition block_ok (b : block) : Prop :=
  match b with
  | Rights fds => Forall is_int fds
  | Creds pid uid gid => is_int pid /\ 0 <= uid < 2 ^ 32 /\ 0 <= gid < 2 ^ 32
  end.

(** Header, data and padding up to a multiple of eight bytes. *)
Definition encodes (b : block) (bytes : list ascii) : Prop :=
  exists pad,
    bytes = put64 (CMSG_LEN (strlen (block_data b))) ++ put_int SOL_SOCKET ++ put_int (block_type b) ++ block_data b ++ pad /\
    strlen bytes = CMSG_SPACE (strlen (block_data b)).

(** ** Words *)

Lemma length_put32 z : length (put32 z) = 4%nat.
Proof. done. Qed.
Lemma length_put_int z : length (put_int z) = 4%nat.
Proof. done. Qed.
Lemma length_put64 z : length (put64 z) = 8%nat.
Proof. done. Qed.

Lemma word32_put32 z : 0 <= z < 2 ^ 32 -> word32 (put32 z) = z.
Proof. intros Hz. unfold word32, put32. by apply le32_put32. Qed.

Lemma int_of_word z : is_int z -> int_of (word32 (put_int z)) = z.
Proof. intros Hz. unfold put_int. rewrite word32_put32 by (apply wrapu_range; lia). by apply int_of_wrapu. Qed.

Lemma word64_put64 z : 0 <= z < 2 ^ 64 -> word64 (put64 z) = z.
Proof.
  intros Hz. unfold word64, put64. change (take 4 (put32 ?a ++ put32 ?b)) with (put32 a). change (drop 4 (put32 ?a ++ put32 ?b)) with (put32 b).
  rewrite !word32_put32; [pose proof (Z.div_mod z (2 ^ 32)); lia|..].
  - split; [apply Z.div_pos; lia|apply Z.div_lt_upper_bound; lia].
  - apply Z.mod_pos_bound. lia.
Qed.

Lemma uid_word z : 0 <= z < 2 ^ 32 -> wrapu 32 (int_of (word32 (put_int z))) = z.
Proof.
  intros Hz. unfold put_int. rewrite word32_put32 by (apply wrapu_range; lia).
  unfold int_of, wraps, wrapu. rewrite (Z.mod_small z) by done. rewrite Zminus_mod, Zmod_mod, <- Zminus_mod.
  replace (z + 2 ^ (32 - 1) - 2 ^ (32 - 1)) with z by lia. by apply Z.mod_small.
Qed.

Lemma peek_mid p b q off n : length p = off -> length b = n -> peek (p ++ b ++ q) off n = Ret b.
Proof.
  intros <- <-. unfold peek. rewrite (proj2 (Nat.leb_le _ _)) by (rewrite !length_app; lia).
  by rewrite drop_app_length, take_app_length.
Qed.

(** Reading the header of a block in memory. *)
Lemma read_header b bytes pre post :
  encodes b bytes -> strlen bytes < 2 ^ 63 ->
  cmsg_len (pre ++ bytes ++ post) (length pre) = Ret (CMSG_LEN (strlen (block_data b))) /\
  cmsg_level (pre ++ bytes ++ post) (length pre) = Ret SOL_SOCKET /\
  cmsg_type (pre ++ bytes ++ post) (length pre) = Ret (block_type b).
Proof.
  intros (pad & -> & Hsz) Hlt. rewrite Hsz in Hlt. unfold CMSG_SPACE, CMSG_ALIGN, SIZEOF_CMSGHDR in Hlt. unfold cmsg_len, cmsg_level, cmsg_type, get_int.
  assert (0 <= strlen (block_data b)) by (unfold strlen; lia).
  rewrite <- !app_assoc. split_and!.
  - rewrite peek_mid by done. cbn [bind]. rewrite word64_put64; [done|]. unfold CMSG_LEN, CMSG_ALIGN, SIZEOF_CMSGHDR.
    change ((16 + 7) / 8 * 8) with 16 in *. Z.div_mod_to_equations. lia.
  - rewrite (app_assoc pre), peek_mid by (rewrite ?length_app, ?length_put64; done). cbn [bind]. by rewrite int_of_word.
  - rewrite (app_assoc pre), (app_assoc (pre ++ _)), peek_mid by (rewrite ?length_app, ?length_put64, ?length_put_int; lia).
    cbn [bind]. rewrite int_of_word; [done|]. by destruct b.
Qed.

Lemma encodes_size b bytes : encodes b bytes -> strlen bytes = CMSG_ALIGN (CMSG_LEN (strlen (block_data b))) /\ 16 <= strlen bytes.
Proof.
  intros (pad & _ & ->). assert (0 <= strlen (block_data b)) by (unfold strlen; lia).
  unfold CMSG_SPACE, CMSG_LEN, CMSG_ALIGN, SIZEOF_CMSGHDR. change ((16 + 7) / 8 * 8) with 16. split; Z.div_mod_to_equations; lia.
Qed.

(** From one block to the next. *)
Lemma next_header b bytes bs rest pre tail :
  encodes b bytes -> Forall2 encodes bs rest -> strlen (pre ++ bytes ++ concat rest) < 2 ^ 63 ->
  CMSG_NXTHDR (pre ++ bytes ++ concat rest ++ tail) (strlen (pre ++ bytes ++ concat rest)) (length pre) =
  Ret (match rest with [] => None | _ => Some (length (pre ++ bytes)) end).
Proof.
  intros Hb Hr Hlt. destruct (encodes_size _ _ Hb) as [Hsz Hge]. unfold strlen in Hlt. rewrite !length_app in Hlt.
  unfold CMSG_NXTHDR. destruct (read_header b bytes pre (concat rest ++ tail) Hb) as (-> & _); [unfold strlen; lia|]. cbn [bind].
  rewrite (proj2 (Z.ltb_ge _ _)) by (unfold CMSG_LEN, CMSG_ALIGN, SIZEOF_CMSGHDR, strlen; change ((16 + 7) / 8 * 8) with 16; lia).
  rewrite <- Hsz. destruct Hr as [|b2 bytes2 bs rest Hb2 Hr].
  { cbn [concat]. rewrite (proj2 (Z.ltb_lt _ _)); [done|]. unfold strlen, SIZEOF_CMSGHDR. rewrite !length_app. simpl. lia. }
  destruct (encodes_size _ _ Hb2) as [Hsz2 Hge2]. cbn [concat] in *. rewrite length_app in Hlt.
  rewrite (proj2 (Z.ltb_ge _ _)) by (unfold strlen, SIZEOF_CMSGHDR in *; rewrite !length_app; lia).
  replace (Z.to_nat (Z.of_nat (length pre) + strlen bytes)) with (length (pre ++ bytes)) by (unfold strlen; rewrite length_app; lia).
  rewrite <- app_assoc, (app_assoc pre bytes).
  destruct (read_header b2 bytes2 (pre ++ bytes) (concat rest ++ tail) Hb2) as (-> & _); [unfold strlen; lia|]. cbn [bind].
  rewrite <- Hsz2, (proj2 (Z.ltb_ge _ _)); [done|]. unfold strlen. rewrite !length_app. lia.
Qed.

(** ** What a receiver has shown *)

(** Bytes read, bytes given to write() for the standard output, descriptors
    closed, in order. *)
Fixpoint fetched (h : history) : list ascii :=
  match h with
  | [] => []
  | Ev c r :: h => fetched h ++ match c in call X return X -> list ascii with
                                | Read _ _ => fun r => match r with Ok d => d | Err _ => [] end
                                | _ => fun _ => []
                                end r
  end.

Fixpoint offered (h : history) : list ascii :=
  match h with
  | [] => []
  | Ev c _ :: h => offered h ++ match c with Write fd d => if fd =? STDOUT_FILENO then d else [] | _ => [] end
  end.

Fixpoint closes (h : history) : list Z :=
  match h with
  | [] => []
  | Ev c _ :: h => closes h ++ match c with Close fd => [fd] | _ => [] end
  end.

(** From [h] to [h']: the text [t] has been printed, the descriptors [fds] have
    been read up to the end of the file and closed, and what was read has been
    written to the standard output. *)
Definition shown (h h' : history) (t : list ascii) (fds : list Z) : Prop :=
  said h' = said h ++ t /\ closes h' = closes h ++ fds /\
  (exists d, fetched h' = fetched h ++ d /\ offered h' = offered h ++ d) /\
  (exists k, h' = k ++ h) /\ Forall (fun fd => Ev (Read fd CAT_BUF_SIZE) (Ok []) ∈ h') fds.

Lemma shown_refl h : shown h h [] [].
Proof. unfold shown. rewrite !app_nil_r. split_and!; eauto; by exists []; rewrite ?app_nil_r. Qed.

Lemma shown_trans h1 h2 h3 t1 t2 f1 f2 :
  shown h1 h2 t1 f1 -> shown h2 h3 t2 f2 -> shown h1 h3 (t1 ++ t2) (f1 ++ f2).
Proof.
  unfold shown. intros (Hs & Hc & (d1 & Hf & Ho) & (k1 & Hk1) & H1) (-> & -> & (d2 & -> & ->) & (k2 & Hk2) & H2). rewrite Hs, Hc, Hf, Ho.
  subst h2 h3. split_and!; [by rewrite app_assoc..|exists (d1 ++ d2); by rewrite !app_assoc|exists (k2 ++ k1); by rewrite app_assoc|].
  apply Forall_app. split; [|done]. eapply Forall_impl; [exact H1|]. intros fd H. apply elem_of_app. by right.
Qed.

Lemma shown_print t h : shown h (Ev (Out Stdout t) tt :: h) t [].
Proof. unfold shown. cbn. rewrite !app_nil_r. split_and!; eauto; [exists []; by rewrite !app_nil_r|by exists [Ev (Out Stdout t) tt]]. Qed.

Section Receivers.
Context {T : ErrText} (E : env).

(** A file read to its end: every read but the last delivers bytes, so the loop
    runs out of fuel only if the kernel delivers [fuel] bytes. *)
Definition catFd_post (fuel : nat) (fd : Z) (h : history) (o : outcome unit) (h' : history) : Prop :=
  stops_failing o \/
  o = Stop OutOfFuel /\ (fuel + length (fetched h) <= length (fetched h'))%nat \/
  o = Done tt /\ said h' = said h /\ closes h' = closes h /\
    (exists d, fetched h' = fetched h ++ d /\ offered h' = offered h ++ d) /\
    exists k, h' = Ev (Read fd CAT_BUF_SIZE) (Ok []) :: k ++ h.

Lemma wp_catFd fuel fd h : wp E (catFd fuel fd) (catFd_post fuel fd h) h.
Proof.
  revert h. induction fuel as [|fuel IH]; intros h; cbn [catFd]; [right; left; auto|].
  apply wp_sys_bind. intros [[|a d]|e] _.
  - right. right. cbn. rewrite !app_nil_r. split_and!; eauto; exists []; by rewrite ?app_nil_r.
  - apply wp_sys_bind. intros w _. eapply wp_mono; [|apply IH].
    intros o h' [H|[[-> H]|(-> & Hs & Hc & (d' & Hf & Ho) & k & Hk)]]; [by left|right; left|right; right].
    + split; [done|]. cbn in H. rewrite app_nil_r, length_app in H. simpl in H. lia.
    + cbn in Hs, Hc, Hf, Ho. rewrite !app_nil_r in Hs, Hc, Hf, Ho. rewrite Hs, Hc, Hf, Ho. split_and!; [done|by rewrite ?app_nil_r|by rewrite ?app_nil_r| |].
      * exists ((a :: d) ++ d'). by rewrite <- !app_assoc.
      * rewrite Hk. exists (k ++ [Ev (Write STDOUT_FILENO (a :: d)) w; Ev (Read fd CAT_BUF_SIZE) (Ok (a :: d))]). by rewrite <- app_assoc.
  - apply wp_errExit. intros o h' Ho. by left.
Qed.

Definition rightsText (j : nat) (fd : Z) : list ascii := $"--- [" ++ dec (Z.of_nat j) ++ $"] Received FD " ++ dec fd ++ [NL].
Definition rightsLines (j : nat) (fds : list Z) : list ascii := concat (imap (fun i fd => rightsText (j + i) fd) fds).

Lemma rightsLines_cons j fd fds : rightsLines j (fd :: fds) = rightsText j fd ++ rightsLines (S j) fds.
Proof.
  unfold rightsLines. cbn [imap concat]. rewrite Nat.add_0_r. f_equal. f_equal. apply imap_ext. intros i x _. cbn. by rewrite Nat.add_succ_r.
Qed.

(** [t] has been printed and [fds] copied, unless something failed; [OutOfFuel]
    only after [fuel] bytes of input. *)
Definition shows (fuel : nat) (h : history) (t : list ascii) (fds : list Z) (o : outcome unit) (h' : history) : Prop :=
  stops_failing o \/
  o = Stop OutOfFuel /\ (fuel <= length (fetched h'))%nat \/
  o = Done tt /\ shown h h' t fds.

Lemma shows_seq fuel h t t2 fds fds2 p q :
  wp E p (shows fuel h t fds) h ->
  (forall h', wp E q (shows fuel h' t2 fds2) h') ->
  wp E (p ;;; q) (shows fuel h (t ++ t2) (fds ++ fds2)) h.
Proof.
  intros Hp Hq. eapply wp_call; [exact Hp|..].
  - intros [] h' [[?|[?|?]]|[[? _]|[_ H]]]; try done. eapply wp_mono; [|apply Hq]. intros o h2 [H2|[H2|[-> H2]]]; [by left|by right; left|].
    right. right. split; [done|]. by eapply shown_trans.
  - intros s h' [H|[[[= ->] H]|[? _]]]; [left|right; by left|done]. unfold stops_failing in *. by destruct H as [[= ->]|[[= ->]|[= ->]]]; auto.
Qed.

Lemma shows_print fuel h t t2 fds2 q :
  (forall h', wp E q (shows fuel h' t2 fds2) h') -> wp E (print Stdout t ;;; q) (shows fuel h (t ++ t2) fds2) h.
Proof.
  intros Hq. apply (shows_seq fuel h t t2 [] fds2 (print Stdout t)); [|done]. intros [] _. right. right. split; [done|]. apply shown_print.
Qed.

Lemma shows_nil fuel h : wp E (Ret tt) (shows fuel h [] []) h.
Proof. right. right. split; [done|apply shown_refl]. Qed.

(** One descriptor: read, copied, closed. *)
Lemma shows_file fuel h fd : wp E (catFd fuel fd ;;; closeOrExit fd ($"close")) (shows fuel h [] [fd]) h.
Proof.
  eapply wp_call; [apply wp_catFd|..].
  - intros [] h' [[?|[?|?]]|[[? _]|(_ & Hs & Hc & (d & Hf & Ho) & k & Hk)]]; try done.
    apply wp_sys_bind. intros [[]|e] _; [|apply wp_errExit; intros o h2 H2; by left].
    right. right. split; [done|]. unfold shown. cbn. rewrite Hs, Hc, Hf, Ho, !app_nil_r. split_and!; eauto.
    + exists (Ev (Close fd) (Ok tt) :: Ev (Read fd CAT_BUF_SIZE) (Ok []) :: k). by rewrite Hk.
    + apply Forall_singleton. rewrite Hk. right. by left.
  - intros s h' [H|[[[= ->] H]|[? _]]]; [left|right; left; split; [done|lia]|done].
    unfold stops_failing in *. by destruct H as [[= ->]|[[= ->]|[= ->]]]; auto.
Qed.

Lemma get_int_mid p z q off : is_int z -> length p = off -> get_int (p ++ put_int z ++ q) off = Ret z.
Proof. intros Hz Hp. unfold get_int. rewrite peek_mid by done. cbn [bind]. by rewrite int_of_word. Qed.

Lemma wp_showFds fuel p fds q j h :
  Forall is_int fds ->
  wp E (showFds fuel (p ++ concat (map put_int fds) ++ q) (length p) j (length fds)) (shows fuel h (rightsLines j fds) fds) h.
Proof.
  revert p j h. induction fds as [|fd fds IH]; intros p j h Hfds; [apply shows_nil|]. apply Forall_cons in Hfds as [Hfd Hfds].
  cbn [map concat length showFds]. rewrite <- app_assoc, get_int_mid by done. cbn [bind].
  rewrite rightsLines_cons. apply shows_print. intros h1.
  apply bind_assoc. apply (shows_seq fuel h1 [] _ [fd] fds (catFd fuel fd ;;; closeOrExit fd ($"close"))); [apply shows_file|]. intros h2.
  rewrite app_assoc. replace (length p + 4)%nat with (length (p ++ put_int fd)) by (by rewrite length_app).
  by apply IH.
Qed.

(** What is displayed for a block. *)
Definition block_text (b : block) : list ascii :=
  separator ++ ($"cmsg_len: " ++ dec (CMSG_LEN (strlen (block_data b))) ++ [NL]) ++
  match b with
  | Rights fds => ($"SCM_RIGHTS: received " ++ dec (Z.of_nat (length fds)) ++ $" file descriptors" ++ [NL]) ++ rightsLines 0 fds
  | Creds pid uid gid => credLine pid uid gid
  end.
Definition block_fds (b : block) : list Z := match b with Rights fds => fds | Creds _ _ _ => [] end.

Lemma length_put_ints fds : length (concat (map put_int fds)) = (4 * length fds)%nat.
Proof. induction fds as [|fd fds IH]; [done|]. cbn [map concat]. rewrite length_app, IH, length_put_int. simpl. lia. Qed.

Lemma wp_showHeader fuel b bytes pre post h :
  encodes b bytes -> block_ok b -> strlen bytes < 2 ^ 31 ->
  wp E (showHeader fuel (pre ++ bytes ++ post) (length pre)) (shows fuel h (block_text b) (block_fds b)) h.
Proof.
  intros Hb Hok Hlt. unfold showHeader, block_text. apply shows_print. intros h1.
  destruct (read_header b bytes pre post Hb) as (-> & -> & ->); [lia|]. cbn [bind].
  apply shows_print. intros h2. cbn [Z.eqb negb]. change (SOL_SOCKET =? SOL_SOCKET) with true. cbn [negb].
  destruct (encodes_size _ _ Hb) as [Hsz _]. 
  set (p := pre ++ put64 (CMSG_LEN (strlen (block_data b))) ++ put_int SOL_SOCKET ++ put_int (block_type b)).
  assert (exists pad, pre ++ bytes ++ post = p ++ block_data b ++ pad) as [pad ->].
  { destruct Hb as (pad & -> & _). exists (pad ++ post). unfold p. by rewrite <- !app_assoc. }
  replace (CMSG_DATA (length pre)) with (length p).
  2: { unfold p, CMSG_DATA. by rewrite !length_app, length_put64, !length_put_int. }
  assert (0 <= strlen (block_data b) < 2 ^ 31) as Hn.
  { unfold CMSG_LEN, CMSG_ALIGN, SIZEOF_CMSGHDR, strlen in *. change ((16 + 7) / 8 * 8) with 16 in *. Z.div_mod_to_equations. lia. }
  clearbody p. clear Hb Hsz Hlt. destruct b as [fds|pid uid gid]; cbn [block_data block_type block_ok block_fds] in *.
  - change (SCM_RIGHTS =? SCM_RIGHTS) with true. cbv iota.
    unfold strlen in *. rewrite length_put_ints in *.
    assert (int_of (wrapu 64 (CMSG_LEN (Z.of_nat (4 * length fds)) - CMSG_LEN 0) / 4) = Z.of_nat (length fds)) as ->.
    { unfold CMSG_LEN, CMSG_ALIGN, SIZEOF_CMSGHDR. change ((16 + 7) / 8 * 8) with 16. unfold wrapu. rewrite Z.mod_small by lia.
      replace ((16 + Z.of_nat (4 * length fds) - (16 + 0)) / 4) with (Z.of_nat (length fds)) by (Z.div_mod_to_equations; lia).
      apply int_of_id. unfold is_int, INT_MIN, INT_MAX. lia. }
    apply shows_print. intros h3. rewrite Nat2Z.id. by apply wp_showFds.
  - change (SCM_CREDENTIALS =? SCM_RIGHTS) with false. change (SCM_CREDENTIALS =? SCM_CREDENTIALS) with true. cbv iota.
    change (strlen (put_int pid ++ put_int uid ++ put_int gid)) with SIZEOF_UCRED. rewrite Z.eqb_refl. cbn [negb].
    destruct Hok as (Hp & Hu & Hg). rewrite <- !app_assoc, get_int_mid by done. cbn [bind]. unfold get_int.
    rewrite (app_assoc p), peek_mid by (rewrite ?length_app; done). cbn [bind].
    rewrite (app_assoc (p ++ _)), peek_mid by (rewrite ?length_app, ?length_put_int; lia). cbn [bind]. rewrite !uid_word by done.
    intros [] _. right. right. split; [done|apply shown_print].
Qed.

(** The loop visits every block once, in order. *)
Lemma wp_walkHeaders steps fuel bs bytes pre tail h :
  Forall2 encodes bs bytes -> Forall block_ok bs -> strlen (pre ++ concat bytes) < 2 ^ 31 -> (length bs < steps)%nat ->
  wp E (walkHeaders steps fuel (pre ++ concat bytes ++ tail) (strlen (pre ++ concat bytes))
          (match bytes with [] => None | _ => Some (length pre) end))
    (shows fuel h (concat (map block_text bs)) (concat (map block_fds bs))) h.
Proof.
  intros Hbs. revert steps pre h. induction Hbs as [|b by_ bs bytes Hb Hbs IH]; intros steps pre h Hok Hlt Hsteps.
  { destruct steps; apply shows_nil. }
  destruct steps as [|steps]; [simpl in Hsteps; lia|]. apply Forall_cons in Hok as [Hok1 Hok]. cbn [walkHeaders concat map] in *.
  assert (strlen by_ < 2 ^ 31) by (unfold strlen in *; rewrite !length_app in Hlt; lia).
  apply shows_seq; [rewrite <- app_assoc; by apply wp_showHeader|]. intros h'.
  rewrite <- app_assoc, (next_header b by_ bs bytes) by (try done; lia). cbn [bind].
  rewrite (app_assoc pre by_ (concat bytes ++ tail)), (app_assoc pre by_ (concat bytes)). apply IH; [done| |simpl in Hsteps; lia].
  by rewrite <- app_assoc.
Qed.
End Receivers.

(** ** The kernel *)

(** What the message carries (unix(7), cmsg(3)). *)
Definition delivers (bs : list block) : env := fun h X c r =>
  posix h X c r /\
  match c in call X return X -> Prop with
  | Recvmsg _ _ _ => fun r =>
      match r with Ok (_, control, _) => exists bytes, control = concat bytes /\ Forall2 encodes bs bytes | Err _ => True end
  | _ => fun _ => True
  end r.

Lemma size_of_blocks bs bytes : Forall2 encodes bs bytes -> (16 * length bs <= length (concat bytes))%nat.
Proof.
  induction 1 as [|b by_ bs bytes Hb _ IH]; [simpl; lia|]. destruct (encodes_size _ _ Hb) as [_ H]. unfold strlen in H.
  cbn [concat length]. rewrite length_app. lia.
Qed.

Lemma first_header bs bytes :
  Forall2 encodes bs bytes ->
  CMSG_FIRSTHDR (strlen (concat bytes)) = match bytes with [] => None | _ => Some (@length ascii []) end.
Proof.
  intros H. unfold CMSG_FIRSTHDR. destruct H as [|b by_ bs bytes Hb Hbs]; [done|]. destruct (encodes_size _ _ Hb) as [_ Hge].
  rewrite (proj2 (Z.leb_le _ _)); [done|]. unfold strlen, SIZEOF_CMSGHDR in *. cbn [concat]. rewrite length_app. lia.
Qed.

Section Programs.
Context {T : ErrText}.

(** Events that neither print nor move bytes nor close. *)
Definition quiet (e : event) : Prop := forall h, shown h (e :: h) [] [].

Lemma quiet_app k h : Forall quiet k -> shown h (k ++ h) [] [].
Proof. induction 1 as [|e k He _ IH]; [apply shown_refl|]. exact (shown_trans _ _ _ _ _ _ _ IH (He (k ++ h))). Qed.

Lemma quiet_event {X} (c : call X) r :
  match c with Out Stdout _ | Read _ _ | Write _ _ | Close _ => False | _ => True end -> quiet (Ev c r).
Proof.
  intros Hc h. unfold shown. assert (exists k, Ev c r :: h = k ++ h) by (by exists [Ev c r]).
  destruct c; try done; try (destruct s; try done); cbn; rewrite !app_nil_r; split_and!; eauto; exists []; by rewrite !app_nil_r.
Qed.

Lemma shown_more e h0 h t fds : quiet e -> shown h0 h t fds -> shown h0 (e :: h) t fds.
Proof. intros He Hh. pose proof (shown_trans _ _ _ _ _ _ _ Hh (He h)) as H. by rewrite !app_nil_r in H. Qed.

Lemma wp_unixBind E path type (Q : outcome (res Z) -> history -> Prop) h :
  (forall sd k, Forall quiet k -> Q (Done (Ok sd)) (k ++ h)) -> (forall e h', Q (Done (Err e)) h') ->
  wp E (unixBind (Some path) type) Q h.
Proof.
  intros Hok Herr. unfold unixBind, unixBuildAddress. destruct (strlen path <? SUN_PATH); [|apply Herr].
  apply wp_sys_bind. intros [sd|e] _; [|apply Herr]. apply wp_sys_bind. intros [u|e] _; [|intros r _; apply Herr].
  apply (Hok sd [_; _]). apply Forall_cons. split; [by apply quiet_event|]. by apply Forall_singleton, quiet_event.
Qed.

Lemma stops_any {A B} s : stops_failing (A := A) (Stop s) -> stops_failing (A := B) (Stop s).
Proof. unfold stops_failing. by intros [[= ->]|[[= ->]|[= ->]]]; auto. Qed.

(** The receiver's socket, or a reported failure. *)
Lemma wp_receiverSocket {B} E path dgram (k : Z -> prog B) Q h :
  (forall o h', stops_failing o -> Q o h') -> (forall sd h', shown h h' [] [] -> wp E (k sd) Q h') ->
  wp E (sfd <- receiverSocket path dgram ;; k sfd) Q h.
Proof.
  intros HQ Hk. apply wp_call with (P := fun o h' => stops_failing o \/ exists sd, o = Done sd /\ shown h h' [] []).
  2: { intros sd h' [[?|[?|?]]|(x & [= <-] & H)]; try done. by apply Hk. }
  2: { intros s h' [H|(x & ? & _)]; [|done]. by apply HQ, (stops_any (A := Z)). }
  unfold receiverSocket. apply wp_sys_bind. intros r _. set (h0 := Ev (Remove path) r :: h).
  assert (shown h h0 [] []) as H0 by (apply quiet_event; done).
  assert (forall k', Forall quiet k' -> shown h (k' ++ h0) [] []) as Hq by (intros k' Hk'; exact (shown_trans _ _ _ _ _ _ _ H0 (quiet_app k' h0 Hk'))).
  apply wp_call with (P := fun o h' => stops_failing o \/ o = Done tt /\ h' = h0).
  { destruct r as [u|e]; [by right|]. destruct (negb (e =? ENOENT)); [|by right]. apply wp_errExit. intros o h' Ho. by left. }
  2: { intros s h' [H|[? _]]; [|done]. left. by apply (stops_any (A := unit)). }
  intros [] h' [[?|[?|?]]|[_ ->]]; try done.
  destruct dgram; apply wp_bind, wp_unixBind.
  - intros sd k' Hk'. right. exists sd. auto.
  - intros e h2. apply wp_errExit. by left.
  - intros lfd k' Hk'. apply wp_sys_bind. intros [u|e] _; [|apply wp_errExit; by left]. apply wp_sys_bind. intros [[sd a]|e] _; [|apply wp_errExit; by left].
    right. exists sd. split; [done|]. apply (Hq (_ :: _ :: k')). apply Forall_cons. split; [by apply quiet_event|].
    apply Forall_cons. split; [by apply quiet_event|done].
  - intros e h2. apply wp_errExit. by left.
Qed.

(** A piece of code that only prints. *)
Definition prints (E : env) (p : prog unit) : Prop := forall h, wp E p (fun o h' => o = Done tt /\ exists t, shown h h' t []) h.

Lemma prints_nothing E : prints E (Ret tt).
Proof. intros h. split; [done|]. exists []. apply shown_refl. Qed.

Lemma prints_text E t : prints E (print Stdout t).
Proof. intros h [] _. split; [done|]. exists t. apply shown_print. Qed.

Lemma prints_stderr E t : prints E (print Stderr t).
Proof. intros h [] _. split; [done|]. exists []. by apply quiet_event. Qed.

Lemma wp_prints {B} E (p : prog unit) (q : prog B) Q h0 h :
  prints E p -> (exists t, shown h0 h t []) -> (forall h', (exists t, shown h0 h' t []) -> wp E q Q h') -> wp E (p ;;; q) Q h.
Proof.
  intros Hp [t Ht] Hq. eapply wp_call; [apply Hp|..]; [|by intros s h' [? _]].
  intros [] h' [_ [t' Ht']]. apply Hq. exists (t ++ t'). exact (shown_trans _ _ _ _ _ _ _ Ht Ht').
Qed.

(** scm_multi_recv: displays the blocks, copies the files, closes them. *)
Definition multi_recv_post (fuel : nat) (opts : list (ascii * list ascii)) (bs : list block) (o : outcome unit) (h : history) : Prop :=
  stops_failing o \/
  o = Stop OutOfFuel /\ (fuel <= length (fetched h))%nat \/
  (exists why dgram n, o = Stop (Undefined why) /\ recvOptions opts false (-1) = Some (dgram, n) /\ n <> -1 /\ 4144 < wrapu 64 n) \/
  o = Stop (Exit EXIT_SUCCESS) /\ exists t, shown [] h (t ++ concat (map block_text bs)) (concat (map block_fds bs)).

Lemma multi_recv_shows fuel heap data0 pname opts bs :
  Forall block_ok bs ->
  wp (delivers bs) (multi_recv_main fuel heap data0 pname opts) (multi_recv_post fuel opts bs) [].
Proof.
  intros Hok. unfold multi_recv_main. set (E := delivers bs).
  assert (forall o h, stops_failing o -> multi_recv_post fuel opts bs o h) as Hfail by (by left).
  change (CMSG_SPACE (4 * MAX_FDS) + CMSG_SPACE SIZEOF_UCRED) with 4144.
  apply wp_sys_bind. intros [] _; cbn [negb]; [|by apply wp_errExit].
  destruct (recvOptions opts false (-1)) as [[dgram n]|] eqn:Hopts; [|by apply wp_usageErr].
  apply wp_receiverSocket; [done|]. intros sfd h0 H0. apply wp_sys_bind. intros [u|e] _; [|by apply wp_errExit].
  apply wp_sys_bind. intros [[[data control] flags]|e] [Hlen Hmsg]; [|by apply wp_errExit]. cbn in Hlen.
  destruct Hmsg as (bytes & -> & Henc). destruct (Z.ltb_spec 4144 (strlen (concat bytes))) as [Hbig|Hsmall].
  { right. right. left. eexists _, dgram, n. split_and!; [done|done| |]; destruct (Z.eqb_spec n (-1)) as [->|Hn]; try done; unfold strlen in Hbig; lia. }
  apply (wp_prints E _ _ _ []); [apply prints_text| |].
  { exists []. do 2 (apply shown_more; [by apply quiet_event|]). exact (shown_trans _ _ _ [] [] [] [] (quiet_event (Alloc 4144) true I []) H0). }
  intros h1 H1. eapply (wp_prints E _ _ _ [] h1); [|done|]; [destruct (0 <? strlen data); [apply prints_text|apply prints_nothing]|].
  intros h2 H2. eapply (wp_prints E _ _ _ [] h2); [|done|].
  { destruct (negb (n =? -1)); [|apply prints_nothing]. intros h. intros [] _ pid _ st _ [] _. split; [done|]. exists (separator ++ separator).
    eapply (shown_trans _ _ _ _ _ [] []); [apply shown_print|]. eapply (shown_trans _ _ _ [] _ [] []); [|apply shown_print].
    do 2 (apply shown_more; [by apply quiet_event|]). apply shown_refl. }
  intros h3 H3. eapply (wp_prints E _ _ _ [] h3); [|done|]; [destruct (flag flags MSG_CTRUNC); [apply prints_text|apply prints_nothing]|].
  intros h4 [t H4]. rewrite (first_header bs bytes Henc). eapply wp_call.
  { apply (wp_walkHeaders E _ fuel bs bytes [] _ h4 Henc Hok); [cbn [app]; lia|]. pose proof (size_of_blocks _ _ Henc). lia. }
  - intros [] h5 [[?|[?|?]]|[[? _]|[_ H5]]]; try done. right. right. right. split; [done|]. exists t. exact (shown_trans _ _ _ _ _ _ _ H4 H5).
  - intros s h5 [H|[[[= ->] H]|[? _]]]; [by apply Hfail|right; by left|done].
Qed.

(** recvfd() returns the descriptor of a message that carries one, and EINVAL
    for any other; it never reads outside its buffer. *)
Definition recvfd_post (sockfd : Z) (h : history) (o : outcome (res Z)) (h' : history) : Prop :=
  exists reply r, h' = Ev (Recvmsg sockfd 4 24) reply :: h /\ o = Done r /\
    match reply with
    | Err e => r = Err e
    | Ok (_, control, _) =>
        (strlen control < 16 -> r = Err EINVAL) /\
        forall b, encodes b control -> block_ok b -> r = match b with Rights [fd] => Ok fd | _ => Err EINVAL end
    end.

Lemma length_received control buf : (length control <= length buf)%nat -> length (received control buf) = length buf.
Proof. intros H. unfold received. rewrite length_app, length_drop. lia. Qed.

Lemma rightsOf_total mem : length mem = 24%nat -> exists fd, rightsOf mem 0 = Ret fd.
Proof.
  intros Hm. unfold rightsOf, cmsg_len, cmsg_level, cmsg_type, get_int, peek. rewrite Hm. cbn [bind Nat.leb Nat.add CMSG_DATA].
  repeat (case_match; eauto).
Qed.

Lemma get_right fd control tail : encodes (Rights [fd]) control -> is_int fd -> get_int (control ++ tail) (CMSG_DATA 0) = Ret fd.
Proof.
  intros (pad & -> & _) Hfd. cbn [block_data map concat block_type].
  by rewrite app_nil_r, <- !app_assoc, (app_assoc (put64 _)), (app_assoc (_ ++ _) (put_int SCM_RIGHTS)), get_int_mid.
Qed.

Lemma rightsOf_encoded b control tail :
  encodes b control -> block_ok b -> strlen control < 2 ^ 63 ->
  rightsOf (control ++ tail) 0 = Ret (match b with Rights [fd] => Some fd | _ => None end).
Proof.
  intros Hb Hok Hlt. unfold rightsOf. destruct (read_header b control [] tail Hb Hlt) as (H1 & H2 & H3). cbn [app length] in H1, H2, H3.
  rewrite H1, H2, H3. cbn [bind]. destruct b as [[|fd [|fd2 fds]]|pid uid gid]; cbn [block_data block_type map concat].
  - done.
  - change (CMSG_LEN (strlen (put_int fd ++ [])) =? CMSG_LEN 4) with true. cbn [negb].
    change (SOL_SOCKET =? SOL_SOCKET) with true. change (SCM_RIGHTS =? SCM_RIGHTS) with true. cbn [negb].
    by rewrite (get_right fd) by (try done; exact (proj1 (Forall_singleton _ _) Hok)).
  - rewrite (proj2 (Z.eqb_neq _ _)); [done|]. unfold CMSG_LEN, strlen. rewrite !length_app, !length_put_int. lia.
  - done.
Qed.

Lemma recvfd_returns stack sockfd h : length stack = 24%nat -> wp posix (recvfd stack sockfd) (recvfd_post sockfd h) h.
Proof.
  intros Hst. unfold recvfd. change (CMSG_SPACE 4) with 24. apply wp_sys_bind. intros [[[data control] flags]|e] Hr; [|eexists _, _; by split_and!].
  cbn in Hr. unfold CMSG_FIRSTHDR, SIZEOF_CMSGHDR. destruct (Z.leb_spec 16 (strlen control)) as [Hge|Hlt].
  2: { exists (Ok (data, control, flags)), (Err EINVAL). split; [done|]. split; [done|]. split; [done|]. intros b Hb. destruct (encodes_size _ _ Hb). lia. }
  destruct (rightsOf_total (received control stack)) as [fd Hfd]; [rewrite length_received; lia|]. rewrite Hfd. cbn [bind].
  replace (match fd with None => Ret (Err EINVAL) | Some fd => Ret (Ok fd) end) with (Ret (match fd with Some fd => Ok fd | None => Err EINVAL end)) by (by destruct fd).
  exists (Ok (data, control, flags)), (match fd with Some fd => Ok fd | None => Err EINVAL end). split; [done|]. split; [done|]. split; [lia|].
  intros b Hb Hok. unfold received in Hfd. rewrite (rightsOf_encoded b) in Hfd; [|done..|unfold strlen; lia]. injection Hfd as <-.
  by destruct b as [[|? []]|].
Qed.

(** scm_rights_recv copies the file of the descriptor it receives. *)
Definition rights_recv_post (fuel : nat) (fd : Z) (o : outcome unit) (h : history) : Prop :=
  stops_failing o \/
  o = Stop OutOfFuel /\ (fuel <= length (fetched h))%nat \/
  o = Stop (Exit EXIT_SUCCESS) /\ offered h = fetched h /\ exists k, h = Ev (Read fd CAT_BUF_SIZE) (Ok []) :: k.

Lemma rights_recv_copies fuel stack data0 pname opts fd :
  is_int fd ->
  wp (delivers [Rights [fd]]) (rights_recv_main fuel stack data0 pname opts) (rights_recv_post fuel fd) [].
Proof.
  intros Hfd. assert (forall o h, stops_failing o -> rights_recv_post fuel fd o h) as Hfail by (by left).
  unfold rights_recv_main. destruct (datagramOption opts false) as [dgram|]; [|by apply wp_usageErr].
  apply wp_receiverSocket; [done|]. intros sfd h0 H0. change (CMSG_SPACE 4) with 24.
  apply wp_sys_bind. intros [[[data control] flags]|e] [Hlen Hmsg]; [|by apply wp_errExit]. cbn in Hlen.
  destruct Hmsg as (bytes & -> & Henc). rewrite (first_header _ _ Henc).
  inversion Henc as [|? by_ ? l Hb Hnil]; subst. inversion Hnil; subst. cbn [concat] in *. rewrite app_nil_r in *. unfold received.
  destruct (read_header _ by_ [] (drop (length by_) stack) Hb) as (H1 & H2 & H3); [unfold strlen; lia|]. cbn [app length] in H1, H2, H3.
  eapply (wp_prints _ _ _ _ []); [apply prints_stderr|exists []; apply shown_more; [by apply quiet_event|done]|]. intros h1 Hh1.
  eapply (wp_prints _ _ _ _ [] h1); [|done|]; [destruct (0 <? strlen data); [apply prints_stderr|apply prints_nothing]|]. intros h2 Hh2.
  cbn [length]. rewrite H1, H2, H3. cbn [bind]. change (CMSG_LEN (strlen (block_data (Rights [fd]))) =? CMSG_LEN 4) with true.
  change (SOL_SOCKET =? SOL_SOCKET) with true. change (block_type (Rights [fd]) =? SCM_RIGHTS) with true. cbn [negb].
  rewrite (get_right fd by_) by done. cbn [bind]. eapply (wp_prints _ _ _ _ [] h2); [apply prints_stderr|done|].
  intros h3 (t & _ & _ & (d & Hf & Ho) & _). cbn in Hf, Ho. eapply wp_call; [apply wp_catFd|..].
  - intros [] h4 [[?|[?|?]]|[[? _]|(_ & _ & _ & (d' & Hf' & Ho') & k & Hk)]]; try done. right. right. split_and!; [done| |by eexists].
    by rewrite Hf', Ho', Hf, Ho.
  - intros s h4 [H|[[[= ->] H]|[? _]]]; [by apply Hfail|right; left; split; [done|lia]|done].
Qed.
End Programs.

(** ** Senders *)

(** Stores that replace a whole piece of the buffer. *)
Lemma poke_chunk cs i old b off :
  cs !! i = Some old -> length old = length b -> length (concat (take i cs)) = off ->
  poke (concat cs) off b = Ret (concat (<[i:=b]> cs)).
Proof.
  intros Hi Hlen <-. assert (i < length cs)%nat as Hlt by (by eapply lookup_lt_Some).
  rewrite insert_take_drop by done. rewrite <- (take_drop_middle cs i old Hi) at 1. rewrite !concat_app. cbn [concat].
  unfold poke. rewrite (proj2 (Nat.leb_le _ _)) by (rewrite !length_app; lia).
  unfold upd. rewrite take_app_length, <- Hlen, <- length_app. do 2 f_equal. f_equal. by rewrite app_assoc, drop_app_length.
Qed.

(** Store over the piece number [i], which is [old]. *)
Ltac store i old :=
  rewrite (poke_chunk _ i old) by
    first [reflexivity|assumption|cbn [take concat]; unfold CMSG_DATA; rewrite ?length_app, ?length_put64, ?length_put_int, ?length_replicate; cbn [length]; lia];
  cbn [bind insert list_insert].

Lemma chunks_of_24 mem :
  length mem = 24%nat ->
  exists a b c d e : list ascii, mem = concat [a; b; c; d; e] /\ length a = 8%nat /\ length b = 4%nat /\ length c = 4%nat /\ length d = 4%nat /\ length e = 4%nat.
Proof.
  intros H. exists (take 8 mem), (take 4 (drop 8 mem)), (take 4 (drop 12 mem)), (take 4 (drop 16 mem)), (drop 20 mem).
  split_and!; rewrite ?length_take, ?length_drop; try lia. cbn [concat]. rewrite app_nil_r.
  rewrite <- (take_drop 8 mem) at 1. f_equal. rewrite <- (take_drop 4 (drop 8 mem)) at 1. f_equal. rewrite drop_drop.
  rewrite <- (take_drop 4 (drop (8 + 4) mem)) at 1. f_equal. rewrite drop_drop.
  rewrite <- (take_drop 4 (drop (8 + 4 + 4) mem)) at 1. f_equal. by rewrite drop_drop.
Qed.

(** The control message with one descriptor. *)
Definition oneRight (fd : Z) (pad : list ascii) : list ascii :=
  concat [put64 (CMSG_LEN 4); put_int SOL_SOCKET; put_int SCM_RIGHTS; put_int fd; pad].

Lemma oneRight_encodes fd pad : length pad = 4%nat -> encodes (Rights [fd]) (oneRight fd pad).
Proof.
  intros Hp. exists pad. cbn [block_data map concat]. unfold oneRight. cbn [concat]. rewrite !app_nil_r. split; [done|].
  unfold strlen. by rewrite !length_app, Hp.
Qed.

Lemma fillRights_one mem fd : length mem = 24%nat -> exists pad, length pad = 4%nat /\ fillRights mem 0 fd = Ret (oneRight fd pad).
Proof.
  intros (a & b & c & d & e & -> & Ha & Hb & Hc & Hd & He)%chunks_of_24. exists e. split; [done|]. unfold fillRights.
  store 1%nat b. store 2%nat c. store 0%nat a. store 3%nat d. done.
Qed.

Section Senders.
Context {T : ErrText}.

Definition sendfd_post (sockfd fd : Z) (h : history) (o : outcome Z) (h' : history) : Prop :=
  exists control reply, h' = Ev (Sendmsg sockfd (put_int 12345) control) reply :: h /\ encodes (Rights [fd]) control /\
    o = Done (match reply with Err _ => -1 | Ok _ => 0 end).

Lemma sendfd_sends E stack sockfd fd h : length stack = 24%nat -> wp E (sendfd stack sockfd fd) (sendfd_post sockfd fd h) h.
Proof.
  intros Hst. destruct (fillRights_one stack fd Hst) as (pad & Hp & Hf). unfold sendfd. cbn [deref CMSG_FIRSTHDR].
  change (CMSG_FIRSTHDR (CMSG_SPACE 4)) with (Some 0%nat). cbn [deref]. rewrite Hf. apply wp_sys_bind. intros r _.
  exists (oneRight fd pad), r. split_and!; [done|by apply oneRight_encodes|done].
Qed.

(** No message has been sent. *)
Definition nosend (h : history) : Prop :=
  Forall (fun e => match e with Ev c _ => match c with Sendmsg _ _ _ => False | _ => True end end) h.

Lemma nosend_report k h : Forall reporting k -> nosend h -> nosend (k ++ h).
Proof. intros Hk Hh. apply Forall_app. split; [|done]. eapply Forall_impl; [exact Hk|]. intros [X c r]. by destruct c. Qed.

Lemma nosend_cons {X} (c : call X) r h :
  match c with Sendmsg _ _ _ => False | _ => True end -> nosend h -> nosend (Ev c r :: h).
Proof. intros Hc Hh. by apply Forall_cons. Qed.

(** Failures before the message. *)
Lemma wp_fail_unsent {A} (E : env) err msg (Q : outcome A -> history -> Prop) h :
  nosend h -> (forall o h', stops_failing o -> nosend h' -> Q o h') -> wp E (errExit err msg) Q h.
Proof. intros Hh HQ. apply wp_errExit_trace. intros o k Ho Hk. apply HQ; [done|]. by apply nosend_report. Qed.

Lemma wp_unixConnect E path type (Q : outcome (res Z) -> history -> Prop) h :
  (forall r k, nosend k -> Q (Done r) (k ++ h)) -> wp E (unixConnect path type) Q h.
Proof.
  intros HQ. unfold unixConnect. destruct (unixBuildAddress path) as [addr|e]; [|apply (HQ _ []); constructor].
  intros [sd|e] _; [|apply (HQ _ [_])]; [|repeat (apply nosend_cons; [done|]); constructor].
  intros [u|e] _; [apply (HQ _ [_; _])|intros r _; apply (HQ _ [_; _; _])]; repeat (apply nosend_cons; [done|]); constructor.
Qed.

Lemma wp_openFiles E p old q paths h :
  length old = (4 * length paths)%nat -> nosend h ->
  wp E (openFiles (p ++ old ++ q) (length p) paths) (fun o h' =>
    nosend h' /\ (stops_failing o \/
      exists fds k, o = Done (p ++ concat (map put_int fds) ++ q) /\ h' = k ++ h /\
        Forall2 (fun path fd => Ev (Open path O_READ 0) (Ok fd) ∈ k) paths fds)) h.
Proof.
  revert p old h. induction paths as [|path paths IH]; intros p old h Hlen Hh; cbn [openFiles].
  { split; [done|]. right. exists [], []. split_and!; [|done|constructor]. by destruct old. }
  apply wp_sys_bind. intros [fd|e] _.
  2: { apply wp_fail_unsent; [by apply nosend_cons|]. auto. }
  cbn [length] in Hlen. rewrite <- (take_drop 4 old), <- app_assoc.
  assert (length (take 4 old) = 4%nat) as H4 by (rewrite length_take; lia).
  pose proof (poke_chunk [p; take 4 old; drop 4 old ++ q] 1 (take 4 old) (put_int fd) (length p)) as Hp. cbn [concat] in Hp. rewrite app_nil_r in Hp.
  rewrite Hp by (try done; cbn; by rewrite app_nil_r). cbn [bind insert list_insert concat]. rewrite app_nil_r, app_assoc.
  replace (length p + 4)%nat with (length (p ++ put_int fd)) by (by rewrite length_app).
  eapply wp_mono; [|apply IH; [rewrite length_drop; lia|by apply nosend_cons]].
  intros o h' [Hn [Ho|(fds & k & -> & -> & Hall)]]; split; auto. right. exists (fd :: fds), (k ++ [Ev (Open path O_READ 0) (Ok fd)]).
  cbn [map concat]. rewrite <- !app_assoc. split_and!; [done..|]. constructor; [apply elem_of_app; right; by left|].
  eapply Forall2_impl; [exact Hall|]. intros x y H. apply elem_of_app. by left.
Qed.

(** What a sender has sent: [bs] depends on the history. *)
Definition send_post (bs : history -> list ascii -> list ascii -> Prop) (o : outcome unit) (h : history) : Prop :=
  (stops_failing o \/ o = Stop (Exit EXIT_SUCCESS) /\ exists sd data control n, Ev (Sendmsg sd data control) (Ok n) ∈ h) /\
  (forall sd data control r, Ev (Sendmsg sd data control) r ∈ h -> bs h data control).

Definition rights_sent (path : list ascii) (h : history) (data control : list ascii) : Prop :=
  exists fd, Ev (Open path O_READ 0) (Ok fd) ∈ h /\ encodes (Rights [fd]) control /\ data = put_int 12345.

Definition multi_sent (opts : list (ascii * list ascii)) (args : list (list ascii)) (h : history) (data control : list ascii) : Prop :=
  exists pid uid gid o fds b1 b2,
    Ev Getpid pid ∈ h /\ Ev Getuid uid ∈ h /\ Ev Getgid gid ∈ h /\
    sendOptions opts (SendOptions false true pid uid gid) = Some o /\
    Forall2 (fun path fd => Ev (Open path O_READ 0) (Ok fd) ∈ h) args fds /\
    control = b1 ++ b2 /\ encodes (Rights fds) b1 /\ encodes (Creds (o_pid o) (o_uid o) (o_gid o)) b2 /\
    data = if send_data o then put_int 12345 else [].

Lemma not_sent h sd data control r : nosend h -> Ev (Sendmsg sd data control) r ∈ h -> False.
Proof. unfold nosend. rewrite Forall_forall. intros H Hin. by apply H in Hin. Qed.

Lemma unsent_post bs o h : stops_failing o -> nosend h -> send_post bs o h.
Proof. intros Ho Hh. split; [by left|]. intros sd data control r H. by apply not_sent in H. Qed.

(** The message and its result. *)
Lemma wp_send (E : env) (bs : history -> list ascii -> list ascii -> Prop) sfd data control (done : Z -> prog unit) h :
  nosend h -> (forall k, bs (k ++ h) data control) ->
  (forall n, exists s text, done n = (print s text ;;; Halt (Exit EXIT_SUCCESS))) ->
  wp E (r <- sys (Sendmsg sfd data control) ;; match r with Err e => errExit e ($"sendmsg") | Ok n => done n end) (send_post bs) h.
Proof.
  intros Hh Hbs Hdone.
  assert (forall k r, nosend k -> forall sd d c x, Ev (Sendmsg sd d c) x ∈ k ++ Ev (Sendmsg sfd data control) r :: h -> bs (k ++ Ev (Sendmsg sfd data control) r :: h) d c) as Hall.
  { intros k r Hk sd d c x [H|H]%elem_of_app; [by apply not_sent in H|]. apply elem_of_cons in H as [H|H]; [|by apply not_sent in H].
    rewrite (cons_middle _ k h), app_assoc. simplify_eq. apply Hbs. }
  apply wp_sys_bind. intros [n|e] _.
  - destruct (Hdone n) as (s & text & ->). intros [] _. split.
    + right. split; [done|]. exists sfd, data, control, n. right. by left.
    + apply (Hall [Ev (Out s text) tt]). apply nosend_cons; [done|constructor].
  - apply wp_errExit_trace. intros o k Ho Hk. split; [by left|]. apply Hall. pose proof (nosend_report k [] Hk (Forall_nil_2 _)) as H. by rewrite app_nil_r in H.
Qed.

Lemma rights_send_sends (E : env) pname opts path : wp E (rights_send_main pname opts [path]) (send_post (rights_sent path)) [].
Proof.
  unfold rights_send_main. destruct (datagramOption opts false) as [dgram|].
  2: { apply wp_usageErr_trace. intros o k Ho Hk. apply unsent_post; [done|]. apply nosend_report; [done|constructor]. }
  apply wp_sys_bind. intros [fd|e] _; [|apply wp_fail_unsent; [by repeat constructor|apply unsent_post]].
  apply wp_sys_bind. intros [] _. change (CMSG_FIRSTHDR (CMSG_SPACE 4)) with (Some 0%nat). cbn [deref].
  change (replicate (Z.to_nat (CMSG_SPACE 4)) NUL) with (concat [replicate 8 NUL; replicate 4 NUL; replicate 4 NUL; replicate 4 NUL; replicate 4 NUL]).
  store 0%nat (replicate 8 NUL). store 1%nat (replicate 4 NUL). store 2%nat (replicate 4 NUL). store 3%nat (replicate 4 NUL).
  set (h1 := Ev _ _ :: Ev _ _ :: []). assert (nosend h1) as Hh1 by (repeat (apply nosend_cons; [done|]); constructor).
  apply wp_bind, wp_unixConnect. intros [sfd|e] k Hk; assert (nosend (k ++ h1)) as Hh by (by apply Forall_app).
  - apply wp_sys_bind. intros [] _. apply wp_send; [by apply nosend_cons| |by eexists _, _]. intros k'. exists fd.
    split_and!; [|by apply (oneRight_encodes fd (replicate 4 NUL))|done]. apply elem_of_app. right. right. apply elem_of_app. right. right. by left.
  - apply wp_fail_unsent; [done|apply unsent_post].
Qed.

(** The buffer of scm_multi_send before the files are opened. *)
Definition twoBlocks (n : nat) (pad : list ascii) (o : send_options) (data : list ascii) : list (list ascii) :=
  [put64 (CMSG_LEN (4 * Z.of_nat n)); put_int SOL_SOCKET; put_int SCM_RIGHTS; data; pad;
   put64 (CMSG_LEN SIZEOF_UCRED); put_int SOL_SOCKET; put_int SCM_CREDENTIALS;
   put_int (o_pid o); put_int (o_uid o); put_int (o_gid o); replicate 4 NUL].

Lemma peek_chunk cs i b off n :
  cs !! i = Some b -> length (concat (take i cs)) = off -> length b = n -> peek (concat cs) off n = Ret b.
Proof.
  intros Hi Hoff Hn. rewrite <- (take_drop_middle cs i b Hi), concat_app. cbn [concat]. by apply peek_mid.
Qed.

(** The second header follows the padding of the first block. *)
Lemma second_header n padn size (z2 z3 z4 z5 z6 z7 : list ascii) :
  0 < Z.of_nat n <= INT_MAX -> Z.of_nat (4 * n + padn) = CMSG_ALIGN (4 * Z.of_nat n) -> size = 16 + Z.of_nat (4 * n + padn) + 32 ->
  CMSG_NXTHDR (concat [put64 (CMSG_LEN (4 * Z.of_nat n)); put_int SOL_SOCKET; put_int SCM_RIGHTS; replicate (4 * n) NUL; replicate padn NUL;
    replicate 8 NUL; z2; z3; z4; z5; z6; z7]) size 0 = Ret (Some (16 + 4 * n + padn)%nat).
Proof.
  intros Hn Hpad ->. unfold INT_MAX in Hn.
  assert (CMSG_ALIGN (CMSG_LEN (4 * Z.of_nat n)) = 16 + Z.of_nat (4 * n + padn)) as Hal.
  { rewrite Hpad. unfold CMSG_LEN, CMSG_ALIGN, SIZEOF_CMSGHDR. change ((16 + 7) / 8 * 8) with 16. Z.div_mod_to_equations. lia. }
  assert (CMSG_LEN (4 * Z.of_nat n) = 16 + 4 * Z.of_nat n) as Hl by done.
  unfold CMSG_NXTHDR, cmsg_len. rewrite (peek_chunk _ 0 (put64 (CMSG_LEN (4 * Z.of_nat n)))) by done. cbn [bind].
  rewrite word64_put64 by lia. rewrite (proj2 (Z.ltb_ge _ _)) by (unfold SIZEOF_CMSGHDR; lia). rewrite Hal.
  rewrite (proj2 (Z.ltb_ge _ _)) by (unfold SIZEOF_CMSGHDR; lia).
  replace (Z.to_nat (Z.of_nat 0 + (16 + Z.of_nat (4 * n + padn)))) with (16 + 4 * n + padn)%nat by lia.
  rewrite (peek_chunk _ 5 (replicate 8 NUL)); [|done| |done].
  2: { cbn [take concat]. rewrite !length_app, length_put64, !length_put_int, !length_replicate. cbn [length]. lia. }
  cbn [bind]. change (CMSG_ALIGN (word64 (replicate 8 NUL))) with 0. rewrite (proj2 (Z.ltb_ge _ _)) by lia. done.
Qed.

Lemma wp_buildControl E n o h :
  0 < Z.of_nat n <= INT_MAX -> nosend h ->
  wp E (buildControl (Z.of_nat n) o) (fun out h' => nosend h' /\ (exists k, h' = k ++ h) /\
    (stops_failing out \/ exists pad, out = Done (concat (twoBlocks n pad o (replicate (4 * n) NUL)), 16%nat) /\
       Z.of_nat (4 * n + length pad) = CMSG_ALIGN (4 * Z.of_nat n))) h.
Proof.
  intros Hn Hh. unfold buildControl. set (size := CMSG_SPACE (4 * Z.of_nat n) + CMSG_SPACE SIZEOF_UCRED).
  apply wp_sys_bind. intros [] _; cbn [negb].
  2: { apply wp_errExit_trace. intros out k Ho Hk. split_and!; [by apply nosend_report; [done|apply nosend_cons]| |by left]. exists (k ++ [Ev (Alloc size) false]). by rewrite <- app_assoc. }
  set (padn := Z.to_nat (CMSG_ALIGN (4 * Z.of_nat n) - 4 * Z.of_nat n)).
  assert (Z.of_nat (4 * n + padn) = CMSG_ALIGN (4 * Z.of_nat n)) as Hpad by (unfold padn, CMSG_ALIGN; Z.div_mod_to_equations; lia).
  assert (size = 16 + Z.of_nat (4 * n + padn) + 32) as Hsize by (rewrite Hpad; unfold size, CMSG_SPACE; change (CMSG_ALIGN SIZEOF_CMSGHDR) with 16; change (CMSG_ALIGN SIZEOF_UCRED) with 16; lia).
  assert (replicate (Z.to_nat size) NUL = concat [replicate 8 NUL; replicate 4 NUL; replicate 4 NUL; replicate (4 * n) NUL; replicate padn NUL;
    replicate 8 NUL; replicate 4 NUL; replicate 4 NUL; replicate 4 NUL; replicate 4 NUL; replicate 4 NUL; replicate 4 NUL]) as ->.
  { cbn [concat]. rewrite app_nil_r, <- !replicate_add. f_equal. rewrite Hsize. lia. }
  unfold CMSG_FIRSTHDR. rewrite (proj2 (Z.leb_le _ _)) by (unfold SIZEOF_CMSGHDR; lia). cbn [deref].
  store 1%nat (replicate 4 NUL). store 2%nat (replicate 4 NUL). store 0%nat (replicate 8 NUL).
  apply wp_sys_bind. intros [] _. rewrite (second_header n padn size) by done. cbn [bind deref].
  store 6%nat (replicate 4 NUL). store 7%nat (replicate 4 NUL). store 5%nat (replicate 8 NUL).
  apply wp_sys_bind. intros [] _. store 8%nat (replicate 4 NUL). store 9%nat (replicate 4 NUL). store 10%nat (replicate 4 NUL).
  split_and!; [repeat (apply nosend_cons; [done|]); done|by eexists [_; _; _]|]. right. exists (replicate padn NUL). split; [done|].
  by rewrite length_replicate.
Qed.

Lemma twoBlocks_encode fds pad o :
  Z.of_nat (4 * length fds + length pad) = CMSG_ALIGN (4 * Z.of_nat (length fds)) ->
  exists b1 b2, concat (twoBlocks (length fds) pad o (concat (map put_int fds))) = b1 ++ b2 /\
    encodes (Rights fds) b1 /\ encodes (Creds (o_pid o) (o_uid o) (o_gid o)) b2.
Proof.
  intros Hpad. assert (strlen (concat (map put_int fds)) = 4 * Z.of_nat (length fds)) as Hl by (unfold strlen; rewrite length_put_ints; lia).
  eexists (concat (take 5 (twoBlocks _ _ _ _))), (concat (drop 5 (twoBlocks _ _ _ _))). split_and!.
  - by rewrite <- concat_app, take_drop.
  - exists pad. cbn [twoBlocks take concat block_data block_type]. rewrite app_nil_r, Hl. split; [done|]. unfold strlen.
    rewrite !length_app, length_put64, !length_put_int, length_put_ints. unfold CMSG_SPACE. change (CMSG_ALIGN SIZEOF_CMSGHDR) with 16. lia.
  - exists (replicate 4 NUL). cbn [twoBlocks drop concat block_data block_type]. rewrite app_nil_r, <- !app_assoc. done.
Qed.

Lemma wp_multiUsage E pname bs h : nosend h -> wp E (multiUsage pname) (send_post bs) h.
Proof.
  intros Hh. unfold multiUsage. do 8 (apply wp_sys_bind; intros [] _). apply unsent_post; [unfold stops_failing; auto|].
  repeat (apply nosend_cons; [done|]). done.
Qed.

Lemma multi_send_sends (E : env) pname opts args :
  Z.of_nat (length args) <= INT_MAX -> wp E (multi_send_main pname opts args) (send_post (multi_sent opts args)) [].
Proof.
  intros Hn. unfold multi_send_main. apply wp_sys_bind. intros pid _. apply wp_sys_bind. intros uid _. apply wp_sys_bind. intros gid _.
  set (h0 := [Ev Getgid gid; Ev Getuid uid; Ev Getpid pid]). assert (nosend h0) as Hh0 by (repeat (apply nosend_cons; [done|]); constructor).
  destruct (sendOptions opts _) as [o|] eqn:Hopts; [|by apply wp_multiUsage].
  destruct (Z.leb_spec (Z.of_nat (length args)) 0) as [Hz|Hpos]; [by apply wp_multiUsage|].
  eapply wp_call; [by apply wp_buildControl|..].
  2: { intros s h (Hs & _ & [Ho|(pad & ? & _)]); [|done]. by eapply unsent_post; [eapply stops_any|]. }
  intros [mem fdList] h (Hs & (k & ->) & [[?|[?|?]]|(pad & Heq & Hpad)]); try done.
  assert (mem = concat (twoBlocks (length args) pad o (replicate (4 * length args) NUL)) /\ fdList = 16%nat) as [-> ->] by (split; congruence).
  clear Heq.
  set (p := concat (take 3 (twoBlocks (length args) pad o []))). set (q := concat (drop 4 (twoBlocks (length args) pad o []))).
  assert (forall d, concat (twoBlocks (length args) pad o d) = p ++ d ++ q) as Hsplit.
  { intros d. unfold p, q. cbn [twoBlocks take drop concat]. by rewrite app_nil_r, <- !app_assoc. }
  rewrite Hsplit. change 16%nat with (length p).
  eapply wp_call; [apply wp_openFiles; [by rewrite length_replicate|done]|..].
  2: { intros s h (Hs' & [Ho|(fds & k' & ? & _)]); [|done]. by eapply unsent_post; [eapply stops_any|]. }
  intros mem h (Hs' & [[?|[?|?]]|(fds & k' & Heq & -> & Hall)]); try done.
  assert (mem = p ++ concat (map put_int fds) ++ q) as -> by congruence. clear Heq.
  assert (length args = length fds) as Hlen by (by eapply Forall2_length).
  destruct (twoBlocks_encode fds pad o) as (b1 & b2 & Hb & H1 & H2); [by rewrite <- Hlen|].
  apply wp_bind, wp_unixConnect. intros [sfd|e] k2 Hk2; assert (nosend (k2 ++ k' ++ k ++ h0)) as Hh by (by apply Forall_app).
  - apply wp_send; [done| |by eexists _, _]. intros k3.
    assert (forall e, e ∈ h0 -> e ∈ k3 ++ k2 ++ k' ++ k ++ h0) as Hin by (intros e He; rewrite !elem_of_app; auto).
    exists pid, uid, gid, o, fds, b1, b2. split_and!; try done; try (apply Hin; unfold h0; set_solver).
    + eapply Forall2_impl; [exact Hall|]. intros path fd H. rewrite !elem_of_app. auto.
    + by rewrite <- Hsplit, Hlen.
  - apply wp_fail_unsent; [done|apply unsent_post].
Qed.
End Senders.

(** Descriptors and credentials pass through the ancillary data unchanged.  sendfd(),
    scm_rights_send and scm_multi_send build, inside their buffers, bytes that
    encode exactly the descriptors that they opened and the chosen credentials,
    and report success only after sendmsg() succeeded; a failure before it sends
    nothing.  recvfd() returns the descriptor of a message that carries just one
    and EINVAL for any other, and reads nothing outside its buffer.
    scm_rights_recv and scm_multi_recv, on bytes that encode blocks, visit every
    block once and in order, display the descriptors and credentials in it, read
    every file to its end, pass what they read to write() in order and close the
    files in order (scm_multi_recv); the loops end unless the kernel goes on
    delivering bytes.  scm_multi_recv writes outside its buffer only if -n gives
    a size above the 4144 bytes that it allocates. *)
Lemma scm_passing {T : ErrText} fuel stack heap data0 pname opts :
  length stack = 24%nat ->
  (forall E sockfd fd h, wp E (sendfd stack sockfd fd) (sendfd_post sockfd fd h) h) /\
  (forall sockfd h, wp posix (recvfd stack sockfd) (recvfd_post sockfd h) h) /\
  (forall E path, wp E (rights_send_main pname opts [path]) (send_post (rights_sent path)) []) /\
  (forall fd, is_int fd ->
    wp (delivers [Rights [fd]]) (rights_recv_main fuel stack data0 pname opts) (rights_recv_post fuel fd) []) /\
  (forall E args, Z.of_nat (length args) <= INT_MAX ->
    wp E (multi_send_main pname opts args) (send_post (multi_sent opts args)) []) /\
  (forall bs, Forall block_ok bs ->
    wp (delivers bs) (multi_recv_main fuel heap data0 pname opts) (multi_recv_post fuel opts bs) []).
Proof.
  intros Hst. split_and!; intros; [by apply sendfd_sends|by apply recvfd_returns|apply rights_send_sends|by apply rights_recv_copies|
    by apply multi_send_sends|by apply multi_recv_shows].
Qed.

(** ** Examples *)

(** A message with two descriptors and credentials; the files are empty. *)
Definition demo_blocks : list block := [Rights [5; 6]; Creds 7 1000 100].
Definition demo_bytes : list (list ascii) :=
  [put64 24 ++ put_int 1 ++ put_int 1 ++ put_int 5 ++ put_int 6;
   put64 28 ++ put_int 1 ++ put_int 2 ++ put_int 7 ++ put_int 1000 ++ put_int 100 ++ replicate 4 NUL].

Definition demo_scm_kernel : kernel := fun h X c =>
  match c in call X return X with
  | Alloc _ => true
  | Socket _ _ _ => if decide (3 ∈ open_fds h) then Err 24 else Ok 3
  | Accept _ => if decide (4 ∈ open_fds h) then Err 24 else Ok (4, [])
  | Remove _ => Err ENOENT
  | Bind _ _ _ | Listen _ _ | Setsockopt_passcred _ _ | Close _ => Ok tt
  | Connect _ _ _ => Ok tt
  | Read _ n => if 0 <=? n then Ok [] else Err EINVAL
  | Recvmsg _ n m => if (4 <=? n) && (56 <=? m) then Ok (put_int 12345, concat demo_bytes, 0) else Err EINVAL
  | Open p _ _ => let fd := 5 + Z.of_nat (length p) in if decide (fd ∈ open_fds h) then Err 24 else Ok fd
  | Sendmsg _ d _ => Ok (strlen d)
  | c => failing_kernel h _ c
  end.

Lemma demo_scm_legal h X (c : call X) : delivers demo_blocks h X c (demo_scm_kernel h X c).
Proof.
  split.
  - destruct c; try apply posix_inhabited; cbn; try done; repeat (case_decide || case_match; cbn; try done; try lia).
    + split; [lia|done].
    + unfold strlen. lia.
  - destruct c; try done. cbn [demo_scm_kernel]. destruct ((4 <=? n) && (56 <=? controllen)); [|done]. exists demo_bytes. split; [done|].
    repeat constructor; [by exists []|by exists (replicate 4 NUL)].
Qed.

(** The receiver on that message. *)
Example multi_recv_demo :
  let '(o, h) := run demo_scm_kernel (multi_recv_main (T := demo_text) 10 [] [] ($"recv") []) [] in
  o = Stop (Exit EXIT_SUCCESS) /\ closes h = [5; 6] /\
  said h = $"recvmsg() returned 4" ++ [NL] ++ $"Received data = 12345" ++ [NL] ++
    separator ++ $"cmsg_len: 24" ++ [NL] ++ $"SCM_RIGHTS: received 2 file descriptors" ++ [NL] ++
    $"--- [0] Received FD 5" ++ [NL] ++ $"--- [1] Received FD 6" ++ [NL] ++
    separator ++ $"cmsg_len: 28" ++ [NL] ++ $"SCM_CREDENTIALS: pid=7, uid=1000, gid=100" ++ [NL].
Proof. vm_compute. done. Qed.

(** The sender produces the same bytes for the descriptors 5 and 6. *)
Example multi_send_demo :
  match snd (run demo_scm_kernel (multi_send_main (T := demo_text) ($"send") [("p"%char, $"7"); ("u"%char, $"1000"); ("g"%char, $"100")] [[]; $"f"]) []) with
  | _ :: Ev (Sendmsg 3 d control) _ :: _ => d = put_int 12345 /\ control = concat demo_bytes
  | _ => False
  end.
Proof. vm_compute. done. Qed.
