(* ===== verification/ThreadIncr.v ===== *)
(** * Threads that increment a shared variable

    threads/thread_incr.c, thread_incr_mutex.c, thread_incr_spinlock.c,
    thread_incr_rwlock.c, thread_lock_speed.c and psem/thread_incr_psem.c.  The
    six programs run the same loops under different locks: [Lock] is what they
    rely on, with the mutex, the spin lock, the read/write lock and the
    semaphore as instances.  Every access to [glob], every operation on a lock
    and every call of main is a step; the steps of the threads and of main
    interleave freely, and a pthread or semaphore function may fail, which ends
    the process.  An increment beyond INT_MAX is undefined behaviour and ends it
    too. *)

From S2P Require Import Prelude Sys LibErrors GetNum.

(** ** Locks *)

(** [acquire] is [None] where the caller blocks. *)
Class Lock (L : Type) := {
  unlocked : L;
  acquire : L -> option L;
  release : L -> L;
  held : L -> bool;
  lock_valid : L -> Prop;
  unlocked_valid : lock_valid unlocked /\ held unlocked = false;
  acquire_free l : lock_valid l -> held l = false -> exists l', acquire l = Some l' /\ lock_valid l' /\ held l' = true;
  acquire_held l : lock_valid l -> held l = true -> acquire l = None;
  release_held l : lock_valid l -> held l = true -> lock_valid (release l) /\ held (release l) = false
}.

Inductive mutex := MutexFree | MutexLocked.

#[export, program] Instance mutex_lock : Lock mutex := {
  unlocked := MutexFree;
  acquire l := match l with MutexFree => Some MutexLocked | MutexLocked => None end;
  release _ := MutexFree;
  held l := match l with MutexFree => false | MutexLocked => true end;
  lock_valid _ := True
}.
Next Obligation. done. Qed.
Next Obligation. intros [] _ ?; [by eexists|done]. Qed.
Next Obligation. by intros [] _ ?. Qed.
Next Obligation. done. Qed.

(** The word of a spin lock: 0 or 1. *)
Record spinlock := Spin { spin_word : Z }.

#[export, program] Instance spin_lock : Lock spinlock := {
  unlocked := Spin 0;
  acquire l := if spin_word l =? 0 then Some (Spin 1) else None;
  release _ := Spin 0;
  held l := negb (spin_word l =? 0);
  lock_valid l := spin_word l = 0 \/ spin_word l = 1
}.
Next Obligation. split; [by left|done]. Qed.
Next Obligation. intros [w] _ H. cbn in *. apply negb_false_iff in H. rewrite H. eexists. split_and!; [done|by right|done]. Qed.
Next Obligation. intros [w] _ H. cbn in *. apply negb_true_iff in H. by rewrite H. Qed.
Next Obligation. intros l _ _. split; [by left|done]. Qed.

(** Readers and at most one writer; the programs lock for writing only. *)
Record rwlock := Rwlock { writer : bool; readers : nat }.

#[export, program] Instance rw_lock : Lock rwlock := {
  unlocked := Rwlock false 0;
  acquire l := if writer l || (0 <? readers l)%nat then None else Some (Rwlock true 0);
  release l := if writer l then Rwlock false (readers l) else Rwlock false (pred (readers l));
  held l := writer l;
  lock_valid l := readers l = 0%nat
}.
Next Obligation. done. Qed.
Next Obligation. intros [w r] Hr Hw. cbn in *. subst. by eexists. Qed.
Next Obligation. intros [w r] Hr Hw. cbn in *. by subst. Qed.
Next Obligation. intros [w r] Hr Hw. cbn in *. by subst. Qed.

(** sem_wait() and sem_post() on a semaphore initialized with 1. *)
Record semaphore := Sem { sem_value : Z }.

#[export, program] Instance sem_lock : Lock semaphore := {
  unlocked := Sem 1;
  acquire l := if 0 <? sem_value l then Some (Sem (sem_value l - 1)) else None;
  release l := Sem (sem_value l + 1);
  held l := negb (0 <? sem_value l);
  lock_valid l := 0 <= sem_value l <= 1
}.
Next Obligation. done. Qed.
Next Obligation.
  intros [v] Hv H. cbn in *. apply negb_false_iff in H. rewrite H. apply Z.ltb_lt in H. eexists. split; [done|]. cbn.
  split; [lia|]. apply negb_true_iff, Z.ltb_ge. lia.
Qed.
Next Obligation. intros [v] Hv H. cbn in *. apply negb_true_iff in H. by rewrite H. Qed.
Next Obligation.
  intros [v] Hv H. cbn in *. apply negb_true_iff, Z.ltb_ge in H. split; [lia|]. apply negb_false_iff, Z.ltb_lt. lia.
Qed.

(** ** The programs *)

(** The next statement of a thread: lock (the head of the outer loop), [loc =
    glob], [loc++], [glob = loc], unlock; before its creation and after its end.
    [glob++] of thread_lock_speed.c is the same three accesses. *)
Inductive incr_pc := INone | ILock | ILoad | IAdd | IStore | IUnlock | IEnd.

#[export] Instance ipc_eq_dec : EqDecision incr_pc.
Proof. solve_decision. Defined.

(** Iterations of the outer and of the inner loop that are left, the current one
    included. *)
Record ithread := Ithread { ipc_of : incr_pc; outer_left : nat; inner_left : nat; loc : Z }.

Inductive imain := JInit | JCreate (i : nat) | JJoin (i : nat).

Inductive ending := Exits (status : Z) | Overflows | Killed.

(** What differs between the programs.  [protects]: there is a lock;
    [initializes]: main initializes it by a call that may fail; [reports]: main
    prints [glob] at the end; [alarmed]: a SIGALRM may kill the process. *)
Record config := Config {
  protects : bool; initializes : bool; nthreads : nat; outer : nat; inner : nat; reports : bool; alarmed : bool }.

Definition thread_incr (loops : nat) := Config false false 2 loops 1 true false.
Definition thread_incr_mutex (loops : nat) := Config true false 2 loops 1 true false.
Definition thread_incr_spinlock (loops : nat) := Config true true 2 loops 1 true false.
Definition thread_incr_rwlock (loops : nat) := Config true true 2 loops 1 true false.
Definition thread_incr_psem (loops : nat) := Config true true 2 loops 1 true false.
Definition thread_lock_speed (numThreads numInnerLoops numOuterLoops : Z) (verbose : bool) :=
  Config true true (Z.to_nat numThreads) (Z.to_nat numOuterLoops) (Z.to_nat numInnerLoops) verbose true.

Section Incr.
Context {L : Type} `{!Lock L} (cfg : config).

Record incr := Incr {
  glob : Z; lck : L; threads : list ithread; jpc : imain; printed : option Z; ended : option ending }.

Definition incr_init : incr :=
  Incr 0 unlocked (replicate (nthreads cfg) (Ithread INone (outer cfg) 0 0))
    (if initializes cfg then JInit else JCreate 0) None None.

Definition set_thread (i : nat) (x : ithread) (s : incr) : incr :=
  Incr (glob s) (lck s) (<[i := x]> (threads s)) (jpc s) (printed s) (ended s).
Definition set_glob (g : Z) (s : incr) : incr := Incr g (lck s) (threads s) (jpc s) (printed s) (ended s).
Definition set_lck (l : L) (s : incr) : incr := Incr (glob s) l (threads s) (jpc s) (printed s) (ended s).
Definition set_jpc (p : imain) (s : incr) : incr := Incr (glob s) (lck s) (threads s) p (printed s) (ended s).
Definition finish (e : ending) (s : incr) : incr := Incr (glob s) (lck s) (threads s) (jpc s) (printed s) (Some e).

(** The test of the outer loop with [n] iterations left. *)
Definition outer_test (n : nat) : ithread :=
  match n with O => Ithread IEnd 0 0 0 | S _ => Ithread ILock n 0 0 end.

(** The test of the inner loop with [k] iterations left. *)
Definition inner_test (n k : nat) : ithread :=
  match k with O => Ithread IUnlock n 0 0 | S _ => Ithread ILoad n k 0 end.

Definition incr_thread_step (i : nat) (s : incr) : option incr :=
  match threads s !! i with
  | None => None
  | Some (Ithread p n k l) =>
      match p with
      | ILock =>
          match (if protects cfg then acquire (lck s) else Some (lck s)) with
          | None => None
          | Some l' => Some (set_thread i (inner_test n (inner cfg)) (set_lck l' s))
          end
      | ILoad => Some (set_thread i (Ithread IAdd n k (glob s)) s)
      | IAdd => if l =? INT_MAX then Some (finish Overflows s) else Some (set_thread i (Ithread IStore n k (l + 1)) s)
      | IStore => Some (set_thread i (inner_test n (pred k)) (set_glob l s))
      | IUnlock =>
          Some (set_thread i (outer_test (pred n)) (set_lck (if protects cfg then release (lck s) else lck s) s))
      | INone | IEnd => None
      end
  end.

Definition incr_main_step (s : incr) : option incr :=
  match jpc s with
  | JInit => Some (set_jpc (JCreate 0) s)
  | JCreate i =>
      match threads s !! i with
      | Some x => Some (set_jpc (JCreate (S i)) (set_thread i (outer_test (outer_left x)) s))
      | None => Some (set_jpc (JJoin 0) s)
      end
  | JJoin i =>
      match threads s !! i with
      | Some x => if bool_decide (ipc_of x = IEnd) then Some (set_jpc (JJoin (S i)) s) else None
      | None => Some (Incr (glob s) (lck s) (threads s) (jpc s) (if reports cfg then Some (glob s) else None) (Some (Exits 0)))
      end
  end.

(** Which calls may fail: locking and unlocking, initialization, creation,
    joining. *)
Definition may_fail (s : incr) : bool :=
  protects cfg && existsb (fun x => bool_decide (ipc_of x = ILock) || bool_decide (ipc_of x = IUnlock)) (threads s) ||
  match jpc s with JInit => true | JCreate i | JJoin i => (i <? length (threads s))%nat end.

(** Steps without a failure. *)
Definition incr_forward (s s' : incr) : Prop :=
  ended s = None /\ ((exists i, incr_thread_step i s = Some s') \/ incr_main_step s = Some s').

Inductive incr_step (s : incr) : incr -> Prop :=
| incr_goes s' : incr_forward s s' -> incr_step s s'
| incr_fails : ended s = None -> may_fail s = true -> incr_step s (finish (Exits 1) s)
| incr_alarm : ended s = None -> alarmed cfg = true -> incr_step s (finish Killed s).

Definition incr_reach (s : incr) : Prop := rtc incr_step incr_init s.
End Incr.
Arguments incr L : clear implicits.

(** ** Arguments *)

(** [loops = (argc > 1) ? getInt(argv[1], GN_GT_0, "num-loops") : 10000000]. *)
Definition loopsArg (argv : list (list ascii)) : prog Z :=
  match argv with
  | _ :: arg :: _ => getInt (Some arg) GN_GT_0 (Some ($"num-loops"))
  | _ => Ret 10000000
  end.

Section LockSpeed.
Context {T : ErrText}.

Definition speedUsage {A} (pname : list ascii) : prog A :=
  print Stderr ($"Usage: " ++ pname ++ $" [-s] num-threads [num-inner-loops [num-outer-loops]]" ++ [NL]) ;;;
  print Stderr ($"    -q   Don't print verbose messages" ++ [NL]) ;;;
  print Stderr ($"    -s   Use spin locks (instead of the default mutexes)" ++ [NL]) ;;;
  Halt (Exit EXIT_FAILURE).

(** [useMutex] and [verbose] after the options. *)
Fixpoint speedOptions (opts : list ascii) (useMutex verbose : bool) : option (bool * bool) :=
  match opts with
  | [] => Some (useMutex, verbose)
  | c :: opts =>
      if Ascii.eqb c "q" then speedOptions opts useMutex false
      else if Ascii.eqb c "s" then speedOptions opts false verbose
      else None
  end.

(** main of thread_lock_speed.c up to the initialization of the lock: [useMutex]
    and the program to run. *)
Definition lockSpeedArgs (pname : list ascii) (opts : list ascii) (args : list (list ascii)) : prog (bool * config) :=
  match speedOptions opts true true, args with
  | Some (useMutex, verbose), a :: rest =>
      let numThreads := atoi a in
      let numInnerLoops := match rest with b :: _ => atoi b | _ => 1 end in
      let numOuterLoops := match rest with _ :: c :: _ => atoi c | _ => 10000000 end in
      (if verbose then
         print Stdout ($"Using " ++ (if useMutex then $"mutexes" else $"spin locks") ++ [NL]) ;;;
         print Stdout (["009"%char] ++ $"threads: " ++ dec numThreads ++ $"; outer loops: " ++ dec numOuterLoops ++
                       $"; inner loops: " ++ dec numInnerLoops ++ [NL])
       else Ret tt) ;;;
      ok <- sys (Alloc (wrapu 64 numThreads * 8)) ;;
      if negb ok then errExit ENOMEM ($"calloc")
      else Ret (useMutex, thread_lock_speed numThreads numInnerLoops numOuterLoops verbose)
  | _, _ => speedUsage pname
  end.
End LockSpeed.

(** ** The invariant *)

Definition inside (x : ithread) : Z := match ipc_of x with ILoad | IAdd | IStore | IUnlock => 1 | _ => 0 end.

(** Increments that a thread has still to make. *)
Definition due (m : nat) (x : ithread) : Z :=
  match ipc_of x with
  | INone | ILock => Z.of_nat (outer_left x) * Z.of_nat m
  | ILoad | IAdd | IStore | IUnlock => Z.of_nat (pred (outer_left x)) * Z.of_nat m + Z.of_nat (inner_left x)
  | IEnd => 0
  end.

Definition thread_wf (m : nat) (x : ithread) : Prop :=
  match ipc_of x with
  | ILock => (0 < outer_left x)%nat
  | ILoad | IAdd | IStore => (0 < outer_left x)%nat /\ (0 < inner_left x <= m)%nat
  | IUnlock => (0 < outer_left x)%nat /\ inner_left x = 0%nat
  | INone | IEnd => True
  end.

Definition main_ok {L} (s : incr L) : Prop :=
  match jpc s with
  | JInit => forall i x, threads s !! i = Some x -> ipc_of x = INone
  | JCreate k => (k <= length (threads s))%nat /\ forall i x, threads s !! i = Some x -> (ipc_of x = INone <-> (k <= i)%nat)
  | JJoin k => (k <= length (threads s))%nat /\
      forall i x, threads s !! i = Some x -> ipc_of x <> INone /\ ((i < k)%nat -> ipc_of x = IEnd)
  end.

(** Increments in all. *)
Definition goal (cfg : config) : Z := Z.of_nat (nthreads cfg) * (Z.of_nat (outer cfg) * Z.of_nat (inner cfg)).

(** What the unprotected program keeps too: [made] increments have been stored,
    and no thread has seen more. *)
Definition seen_ok (made : Z) (x : ithread) : Prop :=
  match ipc_of x with IAdd => 0 <= loc x <= made | IStore => 0 < loc x <= made + 1 | _ => True end.

Record incr_inv {L} (cfg : config) (s : incr L) : Prop := {
  i_length : length (threads s) = nthreads cfg;
  i_wf : forall i x, threads s !! i = Some x -> thread_wf (inner cfg) x;
  i_main : main_ok s;
  i_glob : 0 <= glob s <= goal cfg - total (due (inner cfg)) (threads s);
  i_seen : forall i x, threads s !! i = Some x -> seen_ok (goal cfg - total (due (inner cfg)) (threads s)) x;
  i_max : glob s <= INT_MAX /\ forall i x, threads s !! i = Some x -> ipc_of x = IAdd \/ ipc_of x = IStore -> loc x <= INT_MAX;
  i_exit : forall st, ended s = Some (Exits st) ->
    st = 1 \/ st = 0 /\ (forall i x, threads s !! i = Some x -> ipc_of x = IEnd) /\
      printed s = if reports cfg then Some (glob s) else None;
  i_over : ended s = Some Overflows -> INT_MAX < goal cfg
}.

(** With a lock: mutual exclusion, and what the thread inside has read. *)
Record lock_inv {L} `{!Lock L} (cfg : config) (s : incr L) : Prop := {
  k_valid : lock_valid (lck s);
  k_held : total inside (threads s) = if held (lck s) then 1 else 0;
  k_glob : glob s = goal cfg - total (due (inner cfg)) (threads s);
  k_loc : forall i x, threads s !! i = Some x ->
    match ipc_of x with IAdd => loc x = glob s | IStore => loc x = glob s + 1 | _ => True end
}.

Lemma due_nonneg m x : 0 <= due m x.
Proof. unfold due. destruct (ipc_of x); nia. Qed.

Lemma inside_nonneg x : 0 <= inside x.
Proof. unfold inside. destruct (ipc_of x); lia. Qed.

Lemma seen_mono a b x : a <= b -> seen_ok a x -> seen_ok b x.
Proof. unfold seen_ok. destruct (ipc_of x); lia. Qed.

Lemma outer_test_facts m n :
  let y := outer_test n in
  thread_wf m y /\ due m y = Z.of_nat n * Z.of_nat m /\ inside y = 0 /\ ipc_of y <> INone /\ ipc_of y <> IAdd /\ ipc_of y <> IStore.
Proof. destruct n; cbn; split_and!; try done; lia. Qed.

Lemma inner_test_facts m n k :
  (0 < n)%nat -> (k <= m)%nat -> let y := inner_test n k in
  thread_wf m y /\ due m y = Z.of_nat (pred n) * Z.of_nat m + Z.of_nat k /\ inside y = 1 /\ ipc_of y <> INone /\ ipc_of y <> IAdd /\ ipc_of y <> IStore.
Proof. intros Hn Hk. destruct k; cbn; split_and!; try done; lia. Qed.

Section Proofs.
Context {L : Type} `{!Lock L} (cfg : config).
Implicit Types s : incr L.

Lemma total_replicate {A} (f : A -> Z) n x : total f (replicate n x) = Z.of_nat n * f x.
Proof. induction n as [|n IH]; [done|]. cbn [replicate total]. rewrite IH, Nat2Z.inj_succ, Z.mul_succ_l. lia. Qed.

Lemma incr_inv_init : incr_inv cfg (incr_init (L := L) cfg) /\ (lock_inv cfg (incr_init (L := L) cfg)).
Proof.
  assert (forall i x, threads (incr_init (L := L) cfg) !! i = Some x -> x = Ithread INone (outer cfg) 0 0) as Hx.
  { intros i x Hi. by apply lookup_replicate_1 in Hi as [-> _]. }
  split; split; cbn [incr_init glob lck threads jpc printed ended]; rewrite ?length_replicate, ?total_replicate; cbn; try done.
  - intros i x Hi. by rewrite (Hx i x Hi).
  - unfold main_ok. cbn. destruct (initializes cfg); [intros i x Hi; by rewrite (Hx i x Hi)|]. split; [lia|].
    intros i x Hi. rewrite (Hx i x Hi). split; [lia|done].
  - unfold goal. lia.
  - intros i x Hi. by rewrite (Hx i x Hi).
  - split; [done|]. intros i x Hi. rewrite (Hx i x Hi). by intros [|].
  - apply unlocked_valid.
  - destruct (unlocked_valid) as [_ ->]. lia.
  - unfold goal. lia.
  - intros i x Hi. by rewrite (Hx i x Hi).
Qed.

(** Thread [i] changes from [x] to [y]. *)
Lemma incr_inv_update s s' i x y :
  incr_inv cfg s -> threads s !! i = Some x -> threads s' = <[i := y]> (threads s) -> jpc s' = jpc s -> ended s' = None ->
  ipc_of x <> INone -> ipc_of x <> IEnd -> ipc_of y <> INone -> thread_wf (inner cfg) y ->
  due (inner cfg) y <= due (inner cfg) x ->
  0 <= glob s' <= goal cfg - (total (due (inner cfg)) (threads s) - due (inner cfg) x + due (inner cfg) y) -> glob s' <= INT_MAX ->
  seen_ok (goal cfg - (total (due (inner cfg)) (threads s) - due (inner cfg) x + due (inner cfg) y)) y ->
  (ipc_of y = IAdd \/ ipc_of y = IStore -> loc y <= INT_MAX) ->
  incr_inv cfg s'.
Proof.
  intros [Hlen Hwf Hmain Hglob Hseen Hmax Hex Hov] Hi Ht Hj He Hx1 Hx2 Hy Hwy Hdue Hg Hgm Hsy Hly.
  split; rewrite ?Ht, ?length_insert, ?(total_insert _ _ _ _ _ Hi); try done.
  - intros j z [[-> ->]|[_ Hz]]%lookup_changed; eauto.
  - unfold main_ok in *. rewrite Hj, Ht, length_insert. destruct (jpc s) as [|k|k].
    + by specialize (Hmain i x Hi).
    + destruct Hmain as [Hk Hmain]. split; [done|]. intros j z [[-> ->]|[_ Hz]]%lookup_changed; [|by apply Hmain]. rewrite <- (Hmain i x Hi). tauto.
    + destruct Hmain as [Hk Hmain]. split; [done|]. intros j z [[-> ->]|[_ Hz]]%lookup_changed; [|by apply Hmain]. split; [done|].
      intros Hlt. by destruct (Hmain i x Hi) as [_ H]; specialize (H Hlt).
  - intros j z [[-> ->]|[_ Hz]]%lookup_changed; [done|]. eapply seen_mono; [|by eapply Hseen]. lia.
  - split; [done|]. intros j z [[-> ->]|[_ Hz]]%lookup_changed; [done|]. by apply (proj2 Hmax j).
  - congruence.
  - congruence.
Qed.

Lemma incr_inv_finish s e :
  incr_inv cfg s -> (forall st, e = Exits st -> st = 1) -> (e = Overflows -> INT_MAX < goal cfg) -> incr_inv cfg (finish e s).
Proof. intros [] H1 H2. split; try done; cbn; [|intros [= ->]; auto]. intros st [= ->]. left. auto. Qed.

Lemma incr_inv_thread s i s' : incr_inv cfg s -> ended s = None -> incr_thread_step cfg i s = Some s' -> incr_inv cfg s'.
Proof.
  intros Hinv He Hs. unfold incr_thread_step in Hs. destruct (threads s !! i) as [[p n k l]|] eqn:Hi; [|done].
  pose proof (i_wf _ _ Hinv i _ Hi) as Hwf. pose proof (i_glob _ _ Hinv) as Hg. pose proof (i_seen _ _ Hinv i _ Hi) as Hsn.
  pose proof (i_max _ _ Hinv) as [Hgm Hlm]. specialize (Hlm i _ Hi).
  pose proof (total_ge _ _ _ _ (due_nonneg (inner cfg)) Hi) as Htot.
  unfold thread_wf, seen_ok in Hwf, Hsn. unfold due at 1 in Htot. cbn [ipc_of outer_left inner_left loc] in *.
  destruct p; try done.
  - destruct (if protects cfg then acquire (lck s) else Some (lck s)) as [l'|]; [|done]. injection Hs as <-.
    destruct (inner_test_facts (inner cfg) n (inner cfg) Hwf (le_n _)) as (H1 & H2 & _ & H3 & H4 & H5).
    assert (due (inner cfg) (Ithread ILock n k l) = Z.of_nat n * Z.of_nat (inner cfg)) as Hd by done.
    eapply incr_inv_update; [exact Hinv|exact Hi|reflexivity|..]; try done; cbn [set_thread set_lck glob]; rewrite ?H2, ?Hd; try lia; try nia.
    + unfold seen_ok. by destruct (ipc_of (inner_test _ _)).
    + by intros [?|?].
  - injection Hs as <-. eapply incr_inv_update; [exact Hinv|exact Hi|reflexivity|..]; try done; cbn; try lia.
  - destruct (Z.eqb_spec l INT_MAX) as [->|Hl]; injection Hs as <-.
    + apply incr_inv_finish; [done|done|]. intros _. nia.
    + eapply incr_inv_update; [exact Hinv|exact Hi|reflexivity|..]; try done; cbn; try lia. intros _. specialize (Hlm (or_introl eq_refl)). lia.
  - injection Hs as <-. destruct Hwf as [Hn Hk]. specialize (Hlm (or_intror eq_refl)).
    destruct (inner_test_facts (inner cfg) n (pred k) Hn ltac:(lia)) as (H1 & H2 & _ & H3 & H4 & H5).
    assert (due (inner cfg) (Ithread IStore n k l) = Z.of_nat (pred n) * Z.of_nat (inner cfg) + Z.of_nat k) as Hd by done.
    eapply incr_inv_update; [exact Hinv|exact Hi|reflexivity|..]; try done; cbn [set_thread set_glob glob]; rewrite ?H2, ?Hd; try lia.
    + unfold seen_ok. by destruct (ipc_of (inner_test _ _)).
    + by intros [?|?].
  - injection Hs as <-. destruct Hwf as [Hn ->].
    destruct (outer_test_facts (inner cfg) (pred n)) as (H1 & H2 & _ & H3 & H4 & H5).
    assert (due (inner cfg) (Ithread IUnlock n 0 l) = Z.of_nat (pred n) * Z.of_nat (inner cfg)) as Hd by (cbn; lia).
    eapply incr_inv_update; [exact Hinv|exact Hi|reflexivity|..]; try done; cbn [set_thread set_lck glob]; rewrite ?H2, ?Hd; try lia.
    + unfold seen_ok. by destruct (ipc_of (outer_test _)).
    + by intros [?|?].
Qed.

Lemma incr_inv_main s s' : incr_inv cfg s -> ended s = None -> incr_main_step cfg s = Some s' -> incr_inv cfg s'.
Proof.
  intros [Hlen Hwf Hmain Hglob Hseen Hmax Hex Hov] He Hs. unfold incr_main_step in Hs. unfold main_ok in Hmain.
  destruct (jpc s) as [|k|k] eqn:Hj.
  - injection Hs as <-. split; try done. cbn. split; [lia|]. intros i x Hi. rewrite (Hmain i x Hi). split; [lia|done].
  - destruct Hmain as [Hk Hmain]. destruct (threads s !! k) as [x|] eqn:Hx.
    + injection Hs as <-. pose proof (Hmain k x Hx) as Hxn. assert (ipc_of x = INone) as Hn by (by apply Hxn).
      destruct (outer_test_facts (inner cfg) (outer_left x)) as (H1 & H2 & _ & H3 & H4 & H5).
      assert (due (inner cfg) (outer_test (outer_left x)) = due (inner cfg) x) as Hd by (rewrite H2; unfold due; by rewrite Hn).
      apply lookup_lt_Some in Hx as Hlt.
      split; cbn [set_jpc set_thread glob threads jpc ended]; rewrite ?length_insert, ?(total_insert _ _ _ _ _ Hx), ?Hd; try done; try lia.
      * intros j z [[-> ->]|[_ Hz]]%lookup_changed; eauto.
      * unfold main_ok. cbn. rewrite length_insert. split; [lia|].
        intros j z [[-> ->]|[Hne Hz]]%lookup_changed; [split; [done|lia]|]. rewrite (Hmain j z Hz). lia.
      * intros j z [[-> ->]|[_ Hz]]%lookup_changed; [unfold seen_ok; by destruct (ipc_of (outer_test _))|].
        eapply seen_mono; [|by eapply Hseen]. lia.
      * split; [apply Hmax|]. intros j z [[-> ->]|[_ Hz]]%lookup_changed; [by intros [?|?]|]. by apply (proj2 Hmax j).
      * congruence.
    + injection Hs as <-. apply lookup_ge_None in Hx. split; try done. cbn. split; [lia|].
      intros i x Hi. apply lookup_lt_Some in Hi as Hlt. split; [|lia]. intros Hn. apply (Hmain i x Hi) in Hn. lia.
  - destruct Hmain as [Hk Hmain]. destruct (threads s !! k) as [x|] eqn:Hx.
    + case_bool_decide as Hend; [|done]. injection Hs as <-. apply lookup_lt_Some in Hx as Hlt. split; try done. cbn. split; [lia|].
      intros i y Hi. destruct (Hmain i y Hi) as [H1 H2]. split; [done|]. intros Hik. destruct (decide (i = k)) as [->|]; [congruence|]. apply H2. lia.
    + injection Hs as <-. apply lookup_ge_None in Hx. split; try done.
      intros st [= <-]. right. split_and!; [done| |done]. intros i y Hi. cbn in Hi. apply (Hmain i y Hi). apply lookup_lt_Some in Hi. lia.
Qed.

Lemma incr_inv_reach s : incr_reach cfg s -> incr_inv cfg s.
Proof.
  intros Hr. unfold incr_reach in Hr. refine (rtc_ind_r (fun s => incr_inv cfg s) _ _ _ s Hr); [apply incr_inv_init|].
  intros s1 s2 _ Hs IH. destruct Hs as [s2 [He [[i Hs]|Hs]]|He _|He _].
  - by eapply incr_inv_thread.
  - by eapply incr_inv_main.
  - apply incr_inv_finish; [done|by intros st [= <-]|done].
  - by apply incr_inv_finish.
Qed.

(** *** Mutual exclusion *)

Lemma only_one s i x j z :
  lock_inv cfg s -> threads s !! i = Some x -> inside x = 1 -> threads s !! j = Some z -> j <> i -> inside z = 0.
Proof.
  intros Hk Hi Hx Hj Hne. pose proof (k_held _ _ Hk) as Hh. pose proof (total_insert inside _ _ _ (Ithread IEnd 0 0 0) Hi) as Ht.
  assert (<[i:=Ithread IEnd 0 0 0]> (threads s) !! j = Some z) as Hj' by (by rewrite list_lookup_insert_ne).
  pose proof (total_ge inside _ _ _ inside_nonneg Hj'). pose proof (inside_nonneg z). cbn in Ht. destruct (held (lck s)); lia.
Qed.

Lemma inside_held s i x : lock_inv cfg s -> threads s !! i = Some x -> inside x = 1 -> held (lck s) = true.
Proof.
  intros Hk Hi Hx. pose proof (k_held _ _ Hk) as Hh. pose proof (total_ge inside _ _ _ inside_nonneg Hi). destruct (held (lck s)); [done|lia].
Qed.

(** Thread [i], which is inside or takes or gives up the lock, changes from [x]
    to [y]. *)
Lemma lock_inv_update s s' i x y :
  lock_inv cfg s -> threads s !! i = Some x -> threads s' = <[i := y]> (threads s) -> inside x = 1 \/ glob s' = glob s ->
  lock_valid (lck s') -> (if held (lck s') then 1 else 0) = (if held (lck s) then 1 else 0) - inside x + inside y ->
  glob s' - glob s = due (inner cfg) x - due (inner cfg) y ->
  match ipc_of y with IAdd => loc y = glob s' | IStore => loc y = glob s' + 1 | _ => True end ->
  lock_inv cfg s'.
Proof.
  intros Hk Hi Ht Hin Hv Hh Hg Hy. pose proof Hk as [Hv0 Hh0 Hg0 Hl0]. split; rewrite ?Ht, ?(total_insert _ _ _ _ _ Hi); try done; try lia.
  intros j z [[-> ->]|[Hne Hz]]%lookup_changed; [done|]. specialize (Hl0 j z Hz). destruct Hin as [Hin| ->]; [|done].
  pose proof (only_one s i x j z Hk Hi Hin Hz Hne) as Hout. unfold inside in Hout. by destruct (ipc_of z).
Qed.

Lemma lock_inv_thread s i s' :
  protects cfg = true -> incr_inv cfg s -> lock_inv cfg s -> incr_thread_step cfg i s = Some s' -> lock_inv cfg s'.
Proof.
  intros Hp Hinv Hk Hs. unfold incr_thread_step in Hs. rewrite Hp in Hs. destruct (threads s !! i) as [[p n k l]|] eqn:Hi; [|done].
  pose proof (i_wf _ _ Hinv i _ Hi) as Hwf. pose proof (k_loc _ _ Hk i _ Hi) as Hl. pose proof (inside_held s i _ Hk Hi) as Hih.
  pose proof (k_valid _ _ Hk) as Hv. unfold thread_wf in Hwf. cbn [ipc_of outer_left inner_left loc] in *.
  destruct p; try done.
  - destruct (held (lck s)) eqn:Hh; [by rewrite acquire_held in Hs|]. destruct (acquire_free _ Hv Hh) as (l' & Ha & Hv' & Hh').
    rewrite Ha in Hs. injection Hs as <-. destruct (inner_test_facts (inner cfg) n (inner cfg) Hwf (le_n _)) as (_ & H2 & H3 & _ & H4 & H5).
    assert (due (inner cfg) (Ithread ILock n k l) = Z.of_nat n * Z.of_nat (inner cfg)) as Hd by done.
    eapply lock_inv_update; [exact Hk|exact Hi|reflexivity|..]; cbn [set_thread set_lck glob lck]; rewrite ?H2, ?H3, ?Hd, ?Hh, ?Hh'; auto.
    + nia.
    + by destruct (ipc_of (inner_test _ _)).
  - injection Hs as <-. eapply lock_inv_update; [exact Hk|exact Hi|reflexivity|..]; cbn; auto; lia.
  - destruct (l =? INT_MAX); injection Hs as <-; [by destruct Hk|].
    eapply lock_inv_update; [exact Hk|exact Hi|reflexivity|..]; cbn; auto; lia.
  - injection Hs as <-. destruct Hwf as [Hn Hkn]. destruct (inner_test_facts (inner cfg) n (pred k) Hn ltac:(lia)) as (_ & H2 & H3 & _ & H4 & H5).
    assert (due (inner cfg) (Ithread IStore n k l) = Z.of_nat (pred n) * Z.of_nat (inner cfg) + Z.of_nat k) as Hd by done.
    eapply lock_inv_update; [exact Hk|exact Hi|reflexivity|..]; cbn [set_thread set_glob glob lck]; rewrite ?H2, ?H3, ?Hd; auto; cbn; try lia.
    by destruct (ipc_of (inner_test _ _)).
  - injection Hs as <-. destruct Hwf as [Hn ->]. specialize (Hih eq_refl). destruct (release_held _ Hv Hih) as [Hv' Hh'].
    destruct (outer_test_facts (inner cfg) (pred n)) as (_ & H2 & H3 & _ & H4 & H5).
    assert (due (inner cfg) (Ithread IUnlock n 0 l) = Z.of_nat (pred n) * Z.of_nat (inner cfg)) as Hd by (cbn; lia).
    eapply lock_inv_update; [exact Hk|exact Hi|reflexivity|..]; cbn [set_thread set_lck glob lck]; rewrite ?H2, ?H3, ?Hd, ?Hih, ?Hh'; auto; try lia.
    by destruct (ipc_of (outer_test _)).
Qed.

Lemma lock_inv_main s s' : incr_inv cfg s -> lock_inv cfg s -> incr_main_step cfg s = Some s' -> lock_inv cfg s'.
Proof.
  intros Hinv Hk Hs. unfold incr_main_step in Hs. pose proof (i_main _ _ Hinv) as Hmain. unfold main_ok in Hmain.
  destruct (jpc s) as [|k|k]; [injection Hs as <-; by destruct Hk|..]; destruct (threads s !! k) as [x|] eqn:Hx;
    try (injection Hs as <-; by destruct Hk); [|case_bool_decide; [injection Hs as <-; by destruct Hk|done]].
  injection Hs as <-. destruct (outer_test_facts (inner cfg) (outer_left x)) as (_ & H2 & H3 & _ & H4 & H5).
  assert (ipc_of x = INone) as Hn by (by apply (proj2 Hmain k x Hx)).
  assert (inside x = 0 /\ due (inner cfg) x = Z.of_nat (outer_left x) * Z.of_nat (inner cfg)) as [Hx1 Hx2] by (unfold inside, due; by rewrite Hn).
  eapply lock_inv_update; [exact Hk|exact Hx|reflexivity|..]; cbn [set_jpc set_thread glob lck]; rewrite ?H2, ?H3, ?Hx1, ?Hx2; auto; try lia; [apply Hk|].
  by destruct (ipc_of (outer_test _)).
Qed.

Lemma lock_inv_reach s : protects cfg = true -> incr_reach cfg s -> lock_inv cfg s.
Proof.
  intros Hp Hr. unfold incr_reach in Hr. refine (rtc_ind_r (fun s => lock_inv cfg s) _ _ _ s Hr); [apply incr_inv_init|].
  intros s1 s2 Hr1 Hs IH. pose proof (incr_inv_reach s1 Hr1) as Hi. destruct Hs as [s2 [He [[i Hs]|Hs]]|He _|He _].
  - by eapply lock_inv_thread.
  - by eapply lock_inv_main.
  - by destruct IH.
  - by destruct IH.
Qed.

(** *** Progress *)

Lemma thread_can_go s i x :
  protects cfg = true -> lock_inv cfg s -> ended s = None -> threads s !! i = Some x -> ipc_of x <> INone -> ipc_of x <> IEnd ->
  exists s', incr_forward cfg s s'.
Proof.
  intros Hp Hk He Hi Hn Hd.
  assert (forall j z, threads s !! j = Some z -> inside z = 1 -> exists s', incr_forward cfg s s') as Hin.
  { intros j z Hj Hz. enough (is_Some (incr_thread_step cfg j s)) as [s' Hs'] by (exists s'; split; eauto).
    unfold incr_thread_step. rewrite Hj. destruct z as [p n k l]. destruct p; cbn in Hz; try done; eauto. destruct (l =? INT_MAX); eauto. }
  destruct (held (lck s)) eqn:Hh.
  - pose proof (k_held _ _ Hk) as Ht. rewrite Hh in Ht. destruct (total_positive inside (threads s) inside_nonneg) as (j & z & Hj & Hz); [lia|].
    apply (Hin j z Hj). unfold inside in *. by destruct (ipc_of z).
  - destruct (decide (inside x = 1)) as [H1|H1]; [by apply (Hin i x)|].
    enough (is_Some (incr_thread_step cfg i s)) as [s' Hs'] by (exists s'; split; eauto).
    unfold incr_thread_step. rewrite Hi, Hp. destruct x as [p n k l]. destruct p; cbn in *; try done.
    destruct (acquire_free _ (k_valid _ _ Hk) Hh) as (l' & -> & _). eauto.
Qed.

Lemma incr_no_deadlock s : protects cfg = true -> incr_reach cfg s -> ended s = None -> exists s', incr_forward cfg s s'.
Proof.
  intros Hp Hr He. pose proof (lock_inv_reach s Hp Hr) as Hk. pose proof (i_main _ _ (incr_inv_reach s Hr)) as Hmain. unfold main_ok in Hmain.
  assert (is_Some (incr_main_step cfg s) -> exists s', incr_forward cfg s s') as Hm by (intros [s' Hs']; exists s'; split; eauto).
  unfold incr_main_step in Hm. destruct (jpc s) as [|k|k]; [apply Hm; eauto|..]; destruct (threads s !! k) as [x|] eqn:Hx; try (apply Hm; by eauto).
  destruct (decide (ipc_of x = IEnd)) as [Hd|Hd]; [apply Hm; rewrite bool_decide_true by done; by eauto|].
  apply (thread_can_go s k x); try done. by apply (proj2 Hmain k x).
Qed.

(** Steps left. *)
Definition round : Z := 3 * Z.of_nat (inner cfg) + 2.
Definition thread_cost (x : ithread) : Z :=
  let n := Z.of_nat (outer_left x) in
  let k := 3 * Z.of_nat (inner_left x) in
  match ipc_of x with
  | INone | ILock => n * round
  | ILoad => (n - 1) * round + k + 1
  | IAdd => (n - 1) * round + k
  | IStore => (n - 1) * round + k - 1
  | IUnlock => (n - 1) * round + 1
  | IEnd => 0
  end.
Definition incr_cost (s : incr L) : Z :=
  match ended s with
  | Some _ => 0
  | None => total thread_cost (threads s) +
      let n := Z.of_nat (nthreads cfg) in
      match jpc s with JInit => 2 * n + 3 | JCreate k => 2 * n + 2 - Z.of_nat k | JJoin k => n + 1 - Z.of_nat k end
  end.

Lemma thread_cost_nonneg x : thread_wf (inner cfg) x -> 0 <= thread_cost x.
Proof. unfold thread_wf, thread_cost, round. destruct (ipc_of x); intros; nia. Qed.

Lemma total_cost_nonneg l : (forall i x, l !! i = Some x -> thread_wf (inner cfg) x) -> 0 <= total thread_cost l.
Proof.
  induction l as [|x l IH]; intros Hl; cbn [total]; [lia|]. pose proof (thread_cost_nonneg x (Hl 0%nat x eq_refl)).
  specialize (IH (fun i => Hl (S i))). lia.
Qed.

Lemma outer_test_cost n : thread_cost (outer_test n) = Z.of_nat n * round.
Proof. by destruct n. Qed.
Lemma inner_test_cost n k : (0 < n)%nat -> thread_cost (inner_test n k) = (Z.of_nat n - 1) * round + 3 * Z.of_nat k + 1.
Proof. intros Hn. destruct k; cbn; lia. Qed.

Lemma thread_step_cost s i s' :
  incr_inv cfg s -> ended s = None -> incr_thread_step cfg i s = Some s' ->
  ended s' <> None \/ jpc s' = jpc s /\ ended s' = None /\ total thread_cost (threads s') < total thread_cost (threads s).
Proof.
  intros Hinv He Hs. unfold incr_thread_step in Hs. destruct (threads s !! i) as [[p n k l]|] eqn:Hi; [|done].
  pose proof (i_wf _ _ Hinv i _ Hi) as Hwf. unfold thread_wf in Hwf. cbn [ipc_of outer_left inner_left loc] in *.
  assert (forall y, threads s' = <[i:=y]> (threads s) -> jpc s' = jpc s -> ended s' = None -> thread_cost y < thread_cost (Ithread p n k l) ->
    jpc s' = jpc s /\ ended s' = None /\ total thread_cost (threads s') < total thread_cost (threads s)) as Hgo.
  { intros y Ht Hj He' Hlt. rewrite Ht, (total_insert _ _ _ _ _ Hi). split_and!; [done..|lia]. }
  destruct p; try done.
  - destruct (if protects cfg then acquire (lck s) else Some (lck s)) as [l'|]; [|done]. injection Hs as <-. right.
    eapply Hgo; [done..|]. rewrite inner_test_cost by done. cbn. unfold round. nia.
  - injection Hs as <-. right. eapply Hgo; [done..|]. cbn. lia.
  - destruct (l =? INT_MAX); injection Hs as <-; [by left|]. right. eapply Hgo; [done..|]. cbn. lia.
  - injection Hs as <-. right. eapply Hgo; [done..|]. rewrite inner_test_cost by lia. cbn. lia.
  - injection Hs as <-. right. eapply Hgo; [done..|]. rewrite outer_test_cost. cbn [thread_cost ipc_of outer_left].
    replace (Z.of_nat (pred n)) with (Z.of_nat n - 1) by lia. lia.
Qed.

(** Every step makes the bound smaller. *)
Lemma incr_cost_decreases s s' : incr_reach cfg s -> incr_forward cfg s s' -> 0 <= incr_cost s' < incr_cost s.
Proof.
  intros Hr Hg. assert (incr_inv cfg s') as Hinv' by (apply incr_inv_reach; eapply rtc_r; [exact Hr|by apply incr_goes]).
  pose proof (incr_inv_reach s Hr) as Hinv. destruct Hg as [He Hs].
  pose proof (total_cost_nonneg _ (i_wf _ _ Hinv)) as H0. pose proof (total_cost_nonneg _ (i_wf _ _ Hinv')) as H0'.
  pose proof (i_main _ _ Hinv) as Hm. pose proof (i_main _ _ Hinv') as Hm'. pose proof (i_length _ _ Hinv) as Hl. pose proof (i_length _ _ Hinv') as Hl'.
  unfold main_ok in Hm, Hm'. unfold incr_cost. rewrite He.
  assert (0 < match jpc s with JInit => 2 * Z.of_nat (nthreads cfg) + 3 | JCreate k => 2 * Z.of_nat (nthreads cfg) + 2 - Z.of_nat k
    | JJoin k => Z.of_nat (nthreads cfg) + 1 - Z.of_nat k end) as Hpos by (destruct (jpc s); lia).
  destruct Hs as [[i Hs]|Hs].
  - destruct (thread_step_cost _ _ _ Hinv He Hs) as [Hd|(Hj & Hd & Hlt)]; [by destruct (ended s'); [lia|]|]. rewrite Hd, Hj. lia.
  - unfold incr_main_step in Hs. destruct (jpc s) as [|k|k].
    + injection Hs as <-. cbn in *. rewrite He. lia.
    + destruct (threads s !! k) as [x|] eqn:Hx; injection Hs as <-; cbn in *; rewrite He; [|apply lookup_ge_None in Hx; lia].
      assert (ipc_of x = INone) as Hn by (by apply (proj2 Hm k x Hx)). apply lookup_lt_Some in Hx as Hlt.
      rewrite (total_insert _ _ _ _ _ Hx), outer_test_cost in *. assert (thread_cost x = Z.of_nat (outer_left x) * round) as Hc by (unfold thread_cost; by rewrite Hn). lia.
    + destruct (threads s !! k) as [x|] eqn:Hx; [case_bool_decide; [|done]|]; injection Hs as <-; cbn in *; rewrite ?He; lia.
Qed.
End Proofs.

(** ** What the programs promise *)

(** Threads are inside one at a time, no run deadlocks or goes on for more than
    [incr_cost] steps, and the value displayed at the end is the number of
    increments; [glob] overflows only if there are more than INT_MAX. *)
Definition counts_exactly (L : Type) `{!Lock L} (cfg : config) : Prop :=
  forall s : incr L, incr_reach cfg s ->
    total inside (threads s) <= 1 /\
    (ended s = Some (Exits 0) -> glob s = goal cfg /\ printed s = if reports cfg then Some (goal cfg) else None) /\
    (ended s = Some Overflows -> INT_MAX < goal cfg) /\
    (ended s = None -> exists s', incr_forward cfg s s') /\
    (forall s', incr_forward cfg s s' -> 0 <= incr_cost cfg s' < incr_cost cfg s).

Lemma locked_counts (L : Type) `{!Lock L} cfg : protects cfg = true -> counts_exactly L cfg.
Proof.
  intros Hp s Hr. pose proof (incr_inv_reach cfg s Hr) as Hi. pose proof (lock_inv_reach cfg s Hp Hr) as Hk. split_and!.
  - rewrite (k_held _ _ Hk). destruct (held (lck s)); lia.
  - intros He. destruct (i_exit _ _ Hi _ He) as [?|(_ & Hend & Hpr)]; [done|].
    assert (glob s = goal cfg) as Hg; [|by rewrite <- Hg].
    rewrite (k_glob _ _ Hk). enough (total (due (inner cfg)) (threads s) = 0) by lia. clear -Hend.
    induction (threads s) as [|x l IH]; [done|]. cbn [total]. rewrite IH by (intros i y Hy; apply (Hend (S i) y Hy)).
    unfold due. by rewrite (Hend 0%nat x eq_refl).
  - apply (i_over _ _ Hi).
  - by apply incr_no_deadlock.
  - intros s' Hg. by apply incr_cost_decreases.
Qed.

Lemma loopsArg_range argv :
  wp posix (loopsArg argv) (fun o h => stops_failing o \/
    exists loops, o = Done loops /\ 0 < loops <= INT_MAX /\ ((length argv <= 1)%nat -> loops = 10000000)) [].
Proof.
  destruct argv as [|a [|arg l]]; [right; by exists 10000000..|]. cbn [loopsArg].
  destruct (getInt_correct (Some arg) GN_GT_0 (Some ($"num-loops"))) as [(s & v & [= <-] & Ha & Hv & ->)|[[msg ->] _]].
  - right. exists v. destruct Ha as (_ & _ & _ & Hpos). split_and!; [done|by apply Hpos|apply Hv|simpl; lia].
  - apply wp_gnFail. intros h. left. unfold stops_failing. auto.
Qed.

(** *** Runs *)

(** A run of threads ([Some i]) and main ([None]). *)
Fixpoint schedule {L} `{!Lock L} (cfg : config) (l : list (option nat)) (s : incr L) : option (incr L) :=
  match l with
  | [] => Some s
  | m :: l =>
      match ended s, match m with Some i => incr_thread_step cfg i s | None => incr_main_step cfg s end with
      | None, Some s' => schedule cfg l s'
      | _, _ => None
      end
  end.

Lemma schedule_reach {L} `{!Lock L} cfg l (s s' : incr L) :
  incr_reach cfg s -> schedule cfg l s = Some s' -> incr_reach cfg s'.
Proof.
  revert s. induction l as [|m l IH]; intros s Hr H; cbn in H; [congruence|]. destruct (ended s) eqn:He; [done|].
  destruct (match m with Some i => incr_thread_step cfg i s | None => incr_main_step cfg s end) as [s1|] eqn:Hs; [|done].
  apply (IH s1); [|done]. eapply rtc_r; [exact Hr|]. apply incr_goes. split; [done|]. destruct m; eauto.
Qed.

(** An update is lost: thread 0 stores 1 after thread 1 has counted to 2, and
    thread 1 stores 2 after thread 0 has made its last increment. *)
Definition losing : list (option nat) :=
  [None; None; None] ++ replicate 3 (Some 0%nat) ++ replicate 10 (Some 1%nat) ++ replicate 2 (Some 0%nat) ++
  replicate 3 (Some 1%nat) ++ replicate 10 (Some 0%nat) ++ replicate 2 (Some 1%nat) ++ [None; None; None].

Definition lost_state : incr mutex := default (incr_init (thread_incr 3)) (schedule (thread_incr 3) losing (incr_init (thread_incr 3))).

Lemma updates_lost : incr_reach (thread_incr 3) lost_state /\ ended lost_state = Some (Exits 0) /\ printed lost_state = Some 2.
Proof.
  split; [|vm_compute; by split]. apply (schedule_reach _ losing (incr_init (thread_incr 3))); [apply rtc_refl|]. vm_compute. reflexivity.
Qed.

(** C13: increments under a lock are exact.  In the programs that use a mutex, a spin
    lock, a read/write lock or a semaphore, in every interleaving and whatever
    call fails, at most one thread is between taking and giving up the lock; the
    process never deadlocks and ends after a bounded number of steps; and if it
    exits with EXIT_SUCCESS, [glob] is the number of all increments, 2 * loops or
    threads * outer * inner, and that is what it displays.  Undefined behaviour,
    the overflow of [glob], occurs only if that number exceeds INT_MAX.  Without
    a lock (thread_incr.c) [glob] never exceeds 2 * loops, but updates can be lost:
    with three loops the program can display 2.  The number of loops is what
    getInt() accepts, or 10000000. *)
Theorem increments_exact :
  (forall loops,
    counts_exactly mutex (thread_incr_mutex loops) /\ counts_exactly spinlock (thread_incr_spinlock loops) /\
    counts_exactly rwlock (thread_incr_rwlock loops) /\ counts_exactly semaphore (thread_incr_psem loops)) /\
  (forall numThreads numInnerLoops numOuterLoops verbose,
    counts_exactly mutex (thread_lock_speed numThreads numInnerLoops numOuterLoops verbose) /\
    counts_exactly spinlock (thread_lock_speed numThreads numInnerLoops numOuterLoops verbose)) /\
  (forall loops (s : incr mutex), incr_reach (thread_incr loops) s -> 0 <= glob s <= 2 * Z.of_nat loops) /\
  (exists s : incr mutex, incr_reach (thread_incr 3) s /\ ended s = Some (Exits 0) /\ printed s = Some 2) /\
  (forall argv, wp posix (loopsArg argv) (fun o h => stops_failing o \/
    exists loops, o = Done loops /\ 0 < loops <= INT_MAX /\ ((length argv <= 1)%nat -> loops = 10000000)) []).
Proof.
  split; [intros loops; split_and!; by apply locked_counts|]. split; [intros; split; by apply locked_counts|]. split_and!.
  - intros loops s Hr. pose proof (incr_inv_reach _ s Hr) as Hi. pose proof (i_glob _ _ Hi) as [H1 H2].
    pose proof (total_nonneg _ (threads s) (due_nonneg (inner (thread_incr loops)))). unfold goal in H2. cbn [thread_incr nthreads outer inner] in *. lia.
  - exists lost_state. exact updates_lost.
  - exact loopsArg_range.
Qed.

(** ** Witness *)

Definition fair : list (option nat) :=
  [None; None; None; None] ++ replicate 10 (Some 1%nat) ++ replicate 10 (Some 0%nat) ++ [None; None; None].
Definition fair_state : incr semaphore := default (incr_init (thread_incr_psem 2)) (schedule (thread_incr_psem 2) fair (incr_init (thread_incr_psem 2))).

Lemma increments_exact_witness : ended fair_state = Some (Exits 0) /\ printed fair_state = Some 4.
Proof.
  assert (incr_reach (thread_incr_psem 2) fair_state) as Hr.
  { apply (schedule_reach _ fair (incr_init (thread_incr_psem 2))); [apply rtc_refl|]. vm_compute. reflexivity. }
  assert (ended fair_state = Some (Exits 0)) as He by (vm_compute; reflexivity). split; [exact He|].
  destruct increments_exact as [H _]. destruct (H 2%nat) as (_ & _ & _ & Hs). destruct (Hs fair_state Hr) as (_ & Hd & _).
  destruct (Hd He) as [_ ->]. reflexivity.
Defined.

(** The front end of thread_lock_speed. *)
Example lock_speed_args :
  fst (run failing_kernel (lockSpeedArgs (T := demo_text) ($"p") ["x"%char] [$"4"]) []) = Stop (Exit EXIT_FAILURE).
Proof. vm_compute. reflexivity. Qed.
