(* ===== verification/Relay.v ===== *)
(** * Programs that pass bytes on

    sockets/us_xfr_sv.c, us_xfr_cl.c, us_xfr_v2_sv.c, us_xfr_v2_cl.c,
    is_echo_sv.c, is_echo_inetd_sv.c, is_echo_v2_sv.c, is_echo_cl.c, id_echo_sv.c,
    id_echo_cl.c, ud_ucase_sv.c, ud_ucase_cl.c.  The streams are copied by one
    loop, [copyTo]; the datagram servers answer every datagram.  [errno] is what
    errno holds where a message shows it after a call that the model does not
    give an error number for. *)

From S2P Require Import Prelude Sys LibErrors StreamIO Sockets SeqNum RawUdp SvmsgFile Daemon FileIO Scm.

Definition US_XFR_PATH : list ascii := $"/tmp/us_xfr".
Definition US_XFR_V2_PATH : list ascii := $"us_xfr_v2".
Definition XFR_BUF_SIZE : Z := 100.
Definition ECHO_BUF_SIZE : Z := 4096.
Definition ECHO_SERVICE : list ascii := $"echo".
Definition ECHO_CL_BUF_SIZE : Z := 100.
Definition ID_ECHO_BUF_SIZE : Z := 500.
Definition UCASE_PATH : list ascii := $"/tmp/ud_ucase".
Definition UCASE_BUF_SIZE : Z := 10.
Definition SHUT_WR : Z := 1.
Definition US_BACKLOG : Z := 5.

(** toupper() in the C locale. *)
Definition toupper (c : ascii) : ascii :=
  if (97 <=? ord c) && (ord c <=? 122) then chr (ord c - 32) else c.

(** What "%.*s" shows of a buffer: the bytes before a null byte. *)
Fixpoint upto_nul (b : list ascii) : list ascii :=
  match b with [] => [] | c :: b => if Ascii.eqb c NUL then [] else c :: upto_nul b end.

Section Relay.
Context {T : ErrText}.

(** ** The loop *)

(** [while ((n = read(rd, buf, size)) > 0) { ...; if (write(wr, buf, n) != n)
    short } if (n == -1) bad]: [g] is applied to every byte in between. *)
Fixpoint copyTo (fuel : nat) (rd wr size : Z) (g : ascii -> ascii) (short : res Z -> prog unit) (bad : Z -> prog unit) : prog unit :=
  match fuel with
  | O => Halt OutOfFuel
  | S fuel =>
      r <- sys (Read rd size) ;;
      match r with
      | Err e => bad e
      | Ok [] => Ret tt
      | Ok buf =>
          w <- sys (Write wr (map g buf)) ;;
          if match w with Ok n => n =? strlen buf | Err _ => false end then copyTo fuel rd wr size g short bad
          else short w
      end
  end.

Definition xfrCopy (fuel : nat) (rd wr : Z) : prog unit :=
  copyTo fuel rd wr XFR_BUF_SIZE id (fun _ => fatal ($"partial/failed write")) (fun e => errExit e ($"read")).

(** ** us_xfr_sv.c, us_xfr_v2_sv.c, us_xfr_cl.c, us_xfr_v2_cl.c *)

(** The loop over the clients. *)
Fixpoint xfrServe (n fuel : nat) (sfd : Z) : prog unit :=
  match n with
  | O => Halt OutOfFuel
  | S n =>
      a <- sys (Accept sfd) ;;
      match a with
      | Err e => errExit e ($"accept")
      | Ok (cfd, _) =>
          xfrCopy fuel cfd STDOUT_FILENO ;;;
          r <- sys (Close cfd) ;;
          match r with Err e => errMsg e ($"close") | Ok _ => Ret tt end ;;;
          xfrServe n fuel sfd
      end
  end.

Definition us_xfr_sv_main (n fuel : nat) : prog unit :=
  s <- sys (Socket AF_UNIX SOCK_STREAM 0) ;;
  match s with
  | Err e => errExit e ($"socket")
  | Ok sfd =>
      if SUN_PATH - 1 <? strlen US_XFR_PATH then fatal ($"Server socket path too long: " ++ US_XFR_PATH)
      else
        r <- sys (Remove US_XFR_PATH) ;;
        match r with
        | Err e => if negb (e =? ENOENT) then errExit e ($"remove-" ++ US_XFR_PATH) else Ret tt
        | Ok _ => Ret tt
        end ;;;
        b <- sys (Bind sfd (sockaddr_un US_XFR_PATH) SIZEOF_SOCKADDR_UN) ;;
        match b with
        | Err e => errExit e ($"bind")
        | Ok _ =>
            l <- sys (Listen sfd US_BACKLOG) ;;
            match l with
            | Err e => errExit e ($"listen")
            | Ok _ => xfrServe n fuel sfd
            end
        end
  end.

Definition us_xfr_v2_sv_main (n fuel : nat) : prog unit :=
  s <- unixBind (Some US_XFR_V2_PATH) SOCK_STREAM ;;
  match s with
  | Err e => errExit e ($"unixBind")
  | Ok sfd =>
      l <- sys (Listen sfd 5) ;;
      match l with
      | Err e => errExit e ($"listen")
      | Ok _ => xfrServe n fuel sfd
      end
  end.

Definition us_xfr_cl_main (fuel : nat) : prog unit :=
  s <- sys (Socket AF_UNIX SOCK_STREAM 0) ;;
  match s with
  | Err e => errExit e ($"socket")
  | Ok sfd =>
      c <- sys (Connect sfd (sockaddr_un US_XFR_PATH) SIZEOF_SOCKADDR_UN) ;;
      match c with
      | Err e => errExit e ($"connect")
      | Ok _ => xfrCopy fuel STDIN_FILENO sfd ;;; Halt (Exit EXIT_SUCCESS)
      end
  end.

Definition us_xfr_v2_cl_main (fuel : nat) : prog unit :=
  s <- unixConnect (Some US_XFR_V2_PATH) SOCK_STREAM ;;
  match s with
  | Err e => errExit e ($"unixConnect")
  | Ok sfd => xfrCopy fuel STDIN_FILENO sfd ;;; Halt (Exit EXIT_SUCCESS)
  end.

(** ** is_echo_sv.c, is_echo_inetd_sv.c, is_echo_v2_sv.c *)

Definition logExit {A} (text : list ascii) : prog A := sys (Syslog text) ;;; Halt (Exit EXIT_FAILURE).

Definition echoCopy (fuel : nat) (errno rd wr : Z) : prog unit :=
  copyTo fuel rd wr ECHO_BUF_SIZE id
    (fun w => logExit ($"write() failed: " ++ strerror (match w with Err e => e | Ok _ => errno end)))
    (fun e => logExit ($"Error from read(): " ++ strerror e)).

Definition handleRequest (fuel : nat) (errno cfd : Z) : prog unit := echoCopy fuel errno cfd cfd.

Definition is_echo_inetd_main (fuel : nat) (errno : Z) : prog unit :=
  echoCopy fuel errno STDIN_FILENO STDOUT_FILENO ;;; Halt (Exit EXIT_SUCCESS).

(** One client: the child answers, the parent goes on ([next]). *)
Definition echoClient (fuel : nat) (errno lfd cfd : Z) (next : prog unit) : prog unit :=
  f <- sys Fork ;;
  match f with
  | Err e => sys (Syslog ($"Can't create child (" ++ strerror e ++ $")")) ;;; sys (Close cfd) ;;; next
  | Ok pid =>
      if pid =? 0 then
        sys (Close lfd) ;;; handleRequest fuel errno cfd ;;; Halt (Exit_ EXIT_SUCCESS)
      else sys (Close cfd) ;;; next
  end.

(** [tries]: is_echo_v2_sv.c goes on after an error of accept(). *)
Fixpoint echoServe (tries : bool) (n fuel : nat) (errno lfd : Z) : prog unit :=
  match n with
  | O => Halt OutOfFuel
  | S n =>
      a <- sys (Accept lfd) ;;
      match a with
      | Err e =>
          sys (Syslog ($"Failure in accept(): " ++ strerror e)) ;;;
          if tries then echoServe tries n fuel errno lfd else Halt (Exit EXIT_FAILURE)
      | Ok (cfd, _) => echoClient fuel errno lfd cfd (echoServe tries n fuel errno lfd)
      end
  end.

(** Both servers from the call of becomeDaemon() on. *)
Definition echoDaemon (tries : bool) (n fuel : nat) (errno : Z) : prog unit :=
  d <- becomeDaemon 0 ;;
  if d =? -1 then errExit errno ($"becomeDaemon")
  else
    s <- sys (Sigaction SIGCHLD (Sigact (Handler "grimReaper") [] SA_RESTART)) ;;
    match s with
    | Err e => logExit ($"Error from sigaction(): " ++ strerror e)
    | Ok _ =>
        '(lfd, _) <- inetListen ECHO_SERVICE 10 false ;;
        if lfd =? -1 then logExit ($"Could not create server socket (" ++ strerror errno ++ $")")
        else echoServe tries n fuel errno lfd
    end.

Definition is_echo_sv_main (n fuel : nat) (errno : Z) : prog unit := echoDaemon false n fuel errno.

Definition is_echo_v2_sv_main (n fuel : nat) (errno : Z) (argv : list (list ascii)) : prog unit :=
  match argv with
  | _ :: a :: _ =>
      if strcmp_eq a ($"-i") then handleRequest fuel errno STDIN_FILENO ;;; Halt (Exit EXIT_SUCCESS)
      else echoDaemon true n fuel errno
  | _ => echoDaemon true n fuel errno
  end.

(** ** is_echo_cl.c *)

Fixpoint showResponse (fuel : nat) (sfd : Z) : prog unit :=
  match fuel with
  | O => Halt OutOfFuel
  | S fuel =>
      r <- sys (Read sfd ECHO_CL_BUF_SIZE) ;;
      match r with
      | Err _ | Ok [] => Ret tt
      | Ok buf => print Stdout (upto_nul buf) ;;; showResponse fuel sfd
      end
  end.

Definition is_echo_cl_main (fuel : nat) (errno : Z) (argv : list (list ascii)) : prog unit :=
  if negb (length argv =? 2)%nat || is_help argv then usageErr (argv_nth argv 0 ++ $" host" ++ [NL])
  else
    sfd <- inetConnect (Some (argv_nth argv 1)) ($"echo") SOCK_STREAM ;;
    if sfd =? -1 then errExit errno ($"inetConnect")
    else
      f <- sys Fork ;;
      match f with
      | Err e => errExit e ($"fork")
      | Ok pid =>
          if pid =? 0 then showResponse fuel sfd ;;; Halt (Exit EXIT_SUCCESS)
          else
            copyTo fuel STDIN_FILENO sfd ECHO_CL_BUF_SIZE id (fun _ => fatal ($"write() failed")) (fun _ => Ret tt) ;;;
            r <- sys (Shutdown sfd SHUT_WR) ;;
            match r with
            | Err e => errExit e ($"shutdown")
            | Ok _ => Halt (Exit EXIT_SUCCESS)
            end
      end.

(** ** Datagrams: id_echo_sv.c, id_echo_cl.c, ud_ucase_sv.c, ud_ucase_cl.c *)


Fixpoint idEchoServe (n : nat) (errno sfd : Z) : prog unit :=
  match n with
  | O => Halt OutOfFuel
  | S n =>
      r <- sys (Recvfrom sfd ID_ECHO_BUF_SIZE) ;;
      match r with
      | Err e => errExit e ($"recvfrom")
      | Ok (buf, claddr) =>
          s <- sys (Sendto sfd buf claddr) ;;
          (if match s with Ok k => k =? strlen buf | Err _ => false end then Ret tt
           else
             text <- inetAddressStr claddr IS_ADDR_STR_LEN ;;
             sys (Syslog ($"Error echoing response to " ++ text ++ $" (" ++
                          strerror (match s with Err e => e | Ok _ => errno end) ++ $")"))) ;;;
          idEchoServe n errno sfd
      end
  end.

Definition id_echo_sv_main (n : nat) (errno : Z) : prog unit :=
  d <- becomeDaemon 0 ;;
  if d =? -1 then errExit errno ($"becomeDaemon")
  else
    '(sfd, _) <- inetBind ECHO_SERVICE SOCK_DGRAM false ;;
    if sfd =? -1 then logExit ($"Could not create server socket (" ++ strerror errno ++ $")")
    else idEchoServe n errno sfd.

Fixpoint idEchoArgs (sfd : Z) (args : list (list ascii)) : prog unit :=
  match args with
  | [] => Ret tt
  | arg :: args =>
      w <- sys (Write sfd arg) ;;
      if match w with Ok n => negb (n =? strlen arg) | Err _ => true end then fatal ($"partial/failed write")
      else
        r <- sys (Read sfd ID_ECHO_BUF_SIZE) ;;
        match r with
        | Err e => errExit e ($"read")
        | Ok buf =>
            print Stdout ($"[" ++ dec (strlen buf) ++ $" bytes] " ++ upto_nul buf ++ [NL]) ;;;
            idEchoArgs sfd args
        end
  end.

Definition id_echo_cl_main (argv : list (list ascii)) : prog unit :=
  if (length argv <? 2)%nat || is_help argv then usageErr (argv_nth argv 0 ++ $" host msg..." ++ [NL])
  else
    sfd <- inetConnect (Some (argv_nth argv 1)) ECHO_SERVICE SOCK_DGRAM ;;
    if sfd =? -1 then fatal ($"Could not connect to server socket")
    else idEchoArgs sfd (drop 2 argv) ;;; Halt (Exit EXIT_SUCCESS).

(** The text that "%s" shows of sun_path. *)
Definition sunPath (claddr : list ascii) : prog (list ascii) :=
  let p := drop 2 claddr in
  if bool_decide (NUL ∈ p) then Ret (upto_nul p) else Halt (Undefined "unterminated string").

(** [claddr]: what the address structure holds. *)
Fixpoint ucaseServe (n : nat) (sfd : Z) (claddr : list ascii) : prog unit :=
  match n with
  | O => Halt OutOfFuel
  | S n =>
      r <- sys (Recvfrom sfd UCASE_BUF_SIZE) ;;
      match r with
      | Err e => errExit e ($"recvfrom")
      | Ok (buf, addr) =>
          let claddr := received addr claddr in
          path <- sunPath claddr ;;
          print Stdout ($"Server received " ++ dec (strlen buf) ++ $" bytes from " ++ path ++ [NL]) ;;;
          s <- sys (Sendto sfd (map toupper buf) addr) ;;
          if match s with Ok k => negb (k =? strlen buf) | Err _ => true end then fatal ($"sendto")
          else ucaseServe n sfd claddr
      end
  end.

Definition ud_ucase_sv_main (n : nat) (stack : list ascii) : prog unit :=
  s <- sys (Socket AF_UNIX SOCK_DGRAM 0) ;;
  match s with
  | Err e => errExit e ($"socket")
  | Ok sfd =>
      if SUN_PATH - 1 <? strlen UCASE_PATH then fatal ($"Server socket path too long: " ++ UCASE_PATH)
      else
        r <- sys (Remove UCASE_PATH) ;;
        match r with
        | Err e => if negb (e =? ENOENT) then errExit e ($"remove-" ++ UCASE_PATH) else Ret tt
        | Ok _ => Ret tt
        end ;;;
        b <- sys (Bind sfd (sockaddr_un UCASE_PATH) SIZEOF_SOCKADDR_UN) ;;
        match b with
        | Err e => errExit e ($"bind")
        | Ok _ => ucaseServe n sfd stack
        end
  end.

Fixpoint ucaseArgs (sfd : Z) (j : Z) (args : list (list ascii)) : prog unit :=
  match args with
  | [] => Ret tt
  | arg :: args =>
      s <- sys (Sendto sfd arg (sockaddr_un UCASE_PATH)) ;;
      if match s with Ok n => negb (n =? strlen arg) | Err _ => true end then fatal ($"sendto")
      else
        r <- sys (Recvfrom sfd UCASE_BUF_SIZE) ;;
        match r with
        | Err e => errExit e ($"recvfrom")
        | Ok (resp, _) =>
            print Stdout ($"Response " ++ dec j ++ $": " ++ upto_nul resp ++ [NL]) ;;;
            ucaseArgs sfd (j + 1) args
        end
  end.

Definition ud_ucase_cl_main (argv : list (list ascii)) : prog unit :=
  if (length argv <? 2)%nat || is_help argv then usageErr (argv_nth argv 0 ++ $" msg..." ++ [NL])
  else
    s <- sys (Socket AF_UNIX SOCK_DGRAM 0) ;;
    match s with
    | Err e => errExit e ($"socket")
    | Ok sfd =>
        pid <- sys Getpid ;;
        let path := snprintf 108 ($"/tmp/ud_ucase_cl." ++ dec pid) in
        b <- sys (Bind sfd (sockaddr_un path) SIZEOF_SOCKADDR_UN) ;;
        match b with
        | Err e => errExit e ($"bind")
        | Ok _ =>
            ucaseArgs sfd 1 (drop 1 argv) ;;;
            sys (Remove path) ;;;
            Halt (Exit EXIT_SUCCESS)
        end
    end.
End Relay.

(** ** Streams *)

(** The number of connections accepted, and of reads that found the end of the input. *)
Fixpoint clients (h : history) : nat :=
  match h with
  | [] => 0
  | Ev c r :: h => match c in call X return X -> nat with
                   | Accept _ => fun r => match r with Ok _ => 1%nat | Err _ => 0%nat end
                   | _ => fun _ => 0%nat
                   end r + clients h
  end.

Fixpoint ends (h : history) : nat :=
  match h with
  | [] => 0
  | Ev c r :: h => match c in call X return X -> nat with
                   | Read _ _ => fun r => match r with Ok [] => 1%nat | _ => 0%nat end
                   | _ => fun _ => 0%nat
                   end r + ends h
  end.

(** From [h0] to [h]: [d] was read from [rd] and [d'] written to [wr]; no
    descriptor was opened or closed, and no connection accepted. *)
Definition moved (rd wr : Z) (h0 h : history) (d d' : list ascii) : Prop :=
  input rd h = input rd h0 ++ d /\ output wr h = output wr h0 ++ d' /\ open_fds h = open_fds h0 /\
  fetched h = fetched h0 ++ d /\ clients h = clients h0 /\ exists k, h = k ++ h0.

(** A read from [rd] that failed, or a write to [wr] that failed or was partial. *)
Definition trouble (rd wr : Z) (e : event) : Prop :=
  match e with
  | Ev c r => match c in call X return X -> Prop with
              | Read fd _ => fun r => fd = rd /\ exists e, r = Err e
              | Write fd b => fun r => fd = wr /\ r <> Ok (strlen b)
              | _ => fun _ => False
              end r
  end.

(** There was trouble after [h0]. *)
Definition troubled (rd wr : Z) (h0 h : history) : Prop := exists k, h = k ++ h0 /\ Exists (trouble rd wr) k.

Lemma troubled_more rd wr k h0 h1 h : h1 = k ++ h0 -> troubled rd wr h1 h -> troubled rd wr h0 h.
Proof. intros -> (k' & -> & H). exists (k' ++ k). split; [by rewrite <- app_assoc|]. apply Exists_app. by left. Qed.

Lemma moved_refl rd wr h : moved rd wr h h [] [].
Proof. unfold moved. rewrite !app_nil_r. split_and!; try done. by exists []. Qed.

(** Events that neither move bytes nor open or close descriptors. *)
Definition idle (e : event) : Prop :=
  match e with
  | Ev c _ => match c with
              | Out _ _ | Fflush _ | Getenv _ | Syslog _ => True
              | _ => False end
  end.

Lemma reporting_idle k : Forall reporting k -> Forall idle k.
Proof. intros H. eapply Forall_impl; [exact H|]. intros [X c r]. by destruct c. Qed.

Lemma idle_app k h rd wr : Forall idle k -> moved rd wr h (k ++ h) [] [].
Proof.
  intros Hk. unfold moved. rewrite !app_nil_r. assert (exists k', k ++ h = k' ++ h) as Hx by (by exists k).
  induction Hk as [|[X c r] k He Hk IH]; [done|]. destruct IH as (H1 & H2 & H3 & H4 & H5 & _); [by exists k|]. cbn [app input output open_fds fetched clients].
  rewrite H1, H2, H4, H5. destruct c; try done; cbn; by rewrite !app_nil_r.
Qed.

Lemma moved_trans rd wr h1 h2 h3 d1 d2 e1 e2 :
  moved rd wr h1 h2 d1 e1 -> moved rd wr h2 h3 d2 e2 -> moved rd wr h1 h3 (d1 ++ d2) (e1 ++ e2).
Proof.
  intros (H1 & H2 & H3 & H4 & H5 & k & Hk) (G1 & G2 & G3 & G4 & G5 & k' & Gk). unfold moved. rewrite G1, H1, G2, H2, G3, H3, G4, H4, G5, H5, !app_assoc.
  split_and!; try done. exists (k' ++ k). rewrite Gk, Hk. by rewrite app_assoc.
Qed.

(** Code that reports an error and ends the process. *)
Definition quits (p : prog unit) : Prop :=
  forall E (Q : outcome unit -> history -> Prop) h,
    (forall o k, stops_failing o -> Forall idle k -> Q o (k ++ h)) -> wp E p Q h.

Section Streams.
Context {T : ErrText}.

Lemma quits_errExit e msg : quits (errExit e msg).
Proof. intros E Q h HQ. apply wp_errExit_trace. intros o k Ho Hk. by apply HQ, reporting_idle. Qed.
Lemma quits_fatal msg : quits (fatal msg).
Proof. intros E Q h HQ. apply wp_reporting. intros o k Ho Hk. by apply HQ, reporting_idle. Qed.
Lemma quits_logExit text : quits (logExit text).
Proof. intros E Q h HQ. intros [] _. apply (HQ _ [Ev (Syslog text) tt]); [unfold stops_failing; auto|by apply Forall_singleton]. Qed.
Lemma quits_usageErr msg : quits (usageErr msg).
Proof. intros E Q h HQ. apply wp_usageErr_trace. intros o k Ho Hk. by apply HQ, reporting_idle. Qed.

(** What has been copied when the loop ends; it ends unless the kernel goes on
    delivering bytes. *)
Definition copied_by (fuel : nat) (rd wr size : Z) (g : ascii -> ascii) (bad : Z -> prog unit) (h0 : history) (o : outcome unit) (h : history) : Prop :=
  exists d d', moved rd wr h0 h d d' /\ d' `prefix_of` map g d /\
    (stops_failing o /\ troubled rd wr h0 h \/
     o = Stop OutOfFuel /\ d' = map g d /\ (fuel <= length d)%nat \/
     o = Done tt /\ d' = map g d /\ exists r k, h = Ev (Read rd size) r :: k ++ h0 /\
       (r = Ok [] /\ ends h = S (ends h0) \/ exists e, r = Err e /\ bad e = Ret tt)).

Lemma copied_more fuel rd wr size g bad h0 h1 o h d :
  moved rd wr h0 h1 d (map g d) -> (0 < length d)%nat -> ends h1 = ends h0 ->
  copied_by fuel rd wr size g bad h1 o h -> copied_by (S fuel) rd wr size g bad h0 o h.
Proof.
  intros Hm Hd He (d1 & d2 & Hm2 & Hp & Ho). exists (d ++ d1), (map g d ++ d2). rewrite map_app. split; [by eapply moved_trans|].
  rewrite He in Ho. split; [by apply prefix_app|]. destruct Hm as (_ & _ & _ & _ & _ & k & Hk).
  destruct Ho as [[Ho Ht]|[(-> & -> & Hf)|(-> & -> & r & k' & Hx & Hr)]]; [left|right; left|right; right].
  - split; [done|]. by eapply troubled_more.
  - rewrite length_app. split_and!; [done..|lia].
  - split_and!; [done..|]. exists r, (k' ++ k). split; [|done]. by rewrite <- app_assoc, <- Hk.
Qed.

Lemma wp_copyTo fuel rd wr size g short bad h :
  (forall w, quits (short w)) -> (forall e, quits (bad e) \/ bad e = Ret tt) ->
  wp posix (copyTo fuel rd wr size g short bad) (copied_by fuel rd wr size g bad h) h.
Proof.
  intros Hshort Hbad. revert h. induction fuel as [|fuel IH]; intros h; cbn [copyTo].
  { exists [], []. split; [apply moved_refl|]. split; [done|]. right. left. split_and!; [done..|simpl; lia]. }
  apply wp_sys_bind. intros [[|a d]|e] Hr.
  - exists [], []. split; [unfold moved; cbn; rewrite !app_nil_r; rewrite Z.eqb_refl, ?app_nil_r; split_and!; try done; by eexists [_]|].
    split; [done|]. right. right. split_and!; try done. eexists _, []. split; [done|]. left. by split.
  - set (h1 := Ev (Read rd size) (Ok (a :: d)) :: h).
    assert (moved rd wr h h1 (a :: d) []) as H1 by (unfold moved; cbn; rewrite Z.eqb_refl, !app_nil_r; split_and!; try done; by eexists [_]).
    apply wp_sys_bind. intros w Hw. set (h2 := Ev (Write wr (map g (a :: d))) w :: h1).
    assert (exists n, moved rd wr h h2 (a :: d) (take n (map g (a :: d))) /\
      (match w with Ok n => n =? strlen (a :: d) | Err _ => false end = true -> take n (map g (a :: d)) = map g (a :: d))) as (n & H2 & Hfull).
    { destruct w as [n|e]; [exists (Z.to_nat n)|exists 0%nat]; (split; [unfold moved; cbn; rewrite ?Z.eqb_refl, ?app_nil_r; split_and!; try done; by eexists [_; _]|]); [|done].
      intros Hn%Z.eqb_eq. rewrite Hn. unfold strlen. rewrite Nat2Z.id. apply take_ge. by rewrite length_map. }
    destruct (match w with Ok n => n =? strlen (a :: d) | Err _ => false end) eqn:Hw'.
    + rewrite Hfull in H2 by done. eapply wp_mono; [|apply IH]. intros o h' Ho. eapply copied_more; [exact H2|simpl; lia|done|exact Ho].
    + apply Hshort. intros o k Ho Hk. exists (a :: d), (take n (map g (a :: d))). split.
      * pose proof (moved_trans _ _ _ _ _ _ _ _ _ H2 (idle_app k h2 rd wr Hk)) as H3. by rewrite !app_nil_r in H3.
      * split; [exists (drop n (map g (a :: d))); by rewrite take_drop|]. left. split; [done|]. exists (k ++ [Ev (Write wr (map g (a :: d))) w; Ev (Read rd size) (Ok (a :: d))]).
        split; [by rewrite <- app_assoc|]. apply Exists_app. right. left. split; [done|]. intros ->. unfold strlen in Hw'. by rewrite length_map, Z.eqb_refl in Hw'.
  - set (h1 := Ev (Read rd size) (Err e) :: h).
    assert (moved rd wr h h1 [] []) as H1 by (unfold moved; cbn; rewrite !app_nil_r; split_and!; try done; by eexists [_]).
    destruct (Hbad e) as [Hq|Hret].
    + apply Hq. intros o k Ho Hk. exists [], []. split; [exact (moved_trans _ _ _ _ _ _ _ _ _ H1 (idle_app k h1 rd wr Hk))|]. split; [done|left].
      split; [done|]. exists (k ++ [Ev (Read rd size) (Err e)]). split; [by rewrite <- app_assoc|]. apply Exists_app. right. left. split; [done|by exists e].
    + rewrite Hret. exists [], []. split; [done|]. split; [done|]. right. right. split_and!; try done. eexists _, []. split; [done|]. right. by exists e.
Qed.

(** A client: everything on the standard input goes to the socket, which was connected to
    the address [path]; it fails after the connection only if a call failed. *)
Definition client_post (path : list ascii) (fuel : nat) (o : outcome unit) (h : history) : Prop :=
  stops_failing o /\ fetched h = [] /\ (forall x, output x h = []) \/
  exists sfd h0, Ev (Connect sfd (sockaddr_un path) SIZEOF_SOCKADDR_UN) (Ok tt) ∈ h0 /\ fetched h0 = [] /\
    output sfd h `prefix_of` input STDIN_FILENO h /\
    (stops_failing o /\ troubled STDIN_FILENO sfd h0 h \/
     o = Stop OutOfFuel /\ output sfd h = input STDIN_FILENO h /\ (fuel <= length (input STDIN_FILENO h))%nat \/
     o = Stop (Exit EXIT_SUCCESS) /\ output sfd h = input STDIN_FILENO h /\
       exists k, h = Ev (Read STDIN_FILENO XFR_BUF_SIZE) (Ok []) :: k ++ h0).

Lemma wp_client fuel sfd path h :
  fetched h = [] -> input STDIN_FILENO h = [] -> output sfd h = [] -> Ev (Connect sfd (sockaddr_un path) SIZEOF_SOCKADDR_UN) (Ok tt) ∈ h ->
  wp posix (xfrCopy fuel STDIN_FILENO sfd ;;; Halt (Exit EXIT_SUCCESS)) (client_post path fuel) h.
Proof.
  intros Hf Hi Ho Hc. eapply wp_call; [apply wp_copyTo; [intros w; apply quits_fatal|intros e; left; apply quits_errExit]|..].
  - intros [] h' (d & d' & (H1 & H2 & _ & _ & _ & k & Hk0) & Hp & [[[?|[?|?]] _]|[[? _]|(_ & -> & r & k' & Hk & Hr)]]); try done.
    rewrite Hi in H1. rewrite Ho in H2. right. exists sfd, h. rewrite H1, H2, map_id. cbn [app]. split_and!; try done. right. right. split_and!; try done.
    destruct Hr as [[-> He]|(e & _ & Hr)]; [|done]. by exists k'.
  - intros st h' (d & d' & (H1 & H2 & _) & Hp & H). rewrite Hi in H1. rewrite Ho in H2. rewrite map_id in Hp, H. cbn [app] in *.
    right. exists sfd, h. rewrite H1, H2. split_and!; try done. destruct H as [[H Ht]|[([= ->] & -> & Hl)|[? _]]]; [left|right; left|done]; [|by split_and!].
    split; [by apply (stops_any (A := unit))|done].
Qed.

Lemma early_client path fuel o h : stops_failing o -> fetched h = [] -> (forall x, output x h = []) -> client_post path fuel o h.
Proof. intros Ho Hf Hh. by left. Qed.

Lemma client_errExit path fuel e msg h :
  fetched h = [] -> (forall x, output x h = []) -> wp posix (errExit e msg) (client_post path fuel) h.
Proof.
  intros Hf Hh. apply quits_errExit. intros o k Ho Hk. apply early_client; [done|..].
  - destruct (idle_app k h 0 0 Hk) as (_ & _ & _ & H & _). by rewrite H, Hf.
  - intros x. destruct (idle_app k h 0 x Hk) as (_ & H & _). by rewrite H, Hh.
Qed.

Lemma us_xfr_cl_copies fuel : wp posix (us_xfr_cl_main fuel) (client_post US_XFR_PATH fuel) [].
Proof.
  unfold us_xfr_cl_main. apply wp_sys_bind. intros [sfd|e] _; [|by apply client_errExit]. apply wp_sys_bind. intros [[]|e] _; [|by apply client_errExit].
  apply wp_client; [done..|by left].
Qed.

Lemma us_xfr_v2_cl_copies fuel : wp posix (us_xfr_v2_cl_main fuel) (client_post US_XFR_V2_PATH fuel) [].
Proof.
  unfold us_xfr_v2_cl_main, unixConnect. change (unixBuildAddress (Some US_XFR_V2_PATH)) with (Ok (sockaddr_un US_XFR_V2_PATH)).
  apply bind_assoc, wp_sys_bind. intros [sfd|e] _; [|by apply client_errExit]. apply bind_assoc, wp_sys_bind. intros [[]|e] _.
  - apply wp_client; [done..|by left].
  - apply bind_assoc, wp_sys_bind. intros r _. by apply client_errExit.
Qed.

(** *** The server *)

(** What the clients sent goes to the standard output, in order. *)
Definition serve_post (n fuel : nat) (h0 : history) (o : outcome unit) (h : history) : Prop :=
  exists d d', fetched h = fetched h0 ++ d /\ output STDOUT_FILENO h = output STDOUT_FILENO h0 ++ d' /\ d' `prefix_of` d /\
    (stops_failing o \/
     o = Stop OutOfFuel /\ d' = d /\ ((fuel <= length d)%nat \/
       open_fds h = open_fds h0 /\ (clients h0 + n <= clients h)%nat /\ (ends h + clients h0 = ends h0 + clients h)%nat)).

Lemma idle_counts k h : Forall idle k -> clients (k ++ h) = clients h /\ ends (k ++ h) = ends h.
Proof. induction 1 as [|[X c r] k Hc _ [IH1 IH2]]; [done|]. cbn [app clients ends]. rewrite IH1, IH2. by destruct c. Qed.

Lemma serve_more n fuel h0 h1 o h d :
  fetched h1 = fetched h0 ++ d -> output STDOUT_FILENO h1 = output STDOUT_FILENO h0 ++ d -> open_fds h1 = open_fds h0 ->
  clients h1 = S (clients h0) -> ends h1 = S (ends h0) -> serve_post n fuel h1 o h -> serve_post (S n) fuel h0 o h.
Proof.
  intros H1 H2 H3 H4 H5 (e & e' & G1 & G2 & Gp & Go). exists (d ++ e), (d ++ e'). rewrite G1, H1, G2, H2, !app_assoc. split_and!; try done.
  { by apply prefix_app. }
  destruct Go as [Go|(-> & -> & Gx)]; [by left|right]. split_and!; [done..|]. rewrite length_app. destruct Gx as [?|[Ge Gc]]; [left; lia|right].
  split; [by rewrite Ge|]. rewrite H4, H5 in Gc. lia.
Qed.

Lemma serve_fails n fuel h0 h1 o d d' :
  fetched h1 = fetched h0 ++ d -> output STDOUT_FILENO h1 = output STDOUT_FILENO h0 ++ d' -> d' `prefix_of` d ->
  stops_failing o -> serve_post n fuel h0 o h1.
Proof. intros H1 H2 Hp Ho. exists d, d'. auto. Qed.

Lemma wp_errMsg {B} E e msg (q : prog B) Q h :
  (forall k, Forall idle k -> wp E q Q (k ++ h)) -> wp E (errMsg e msg ;;; q) Q h.
Proof.
  intros HQ. apply wp_bind, wp_outputError. apply HQ. unfold report. by repeat constructor.
Qed.

Lemma wp_xfrServe n fuel sfd h : wp posix (xfrServe n fuel sfd) (serve_post n fuel h) h.
Proof.
  revert h. induction n as [|n IH]; intros h; cbn [xfrServe].
  { exists [], []. rewrite !app_nil_r. split_and!; try done. right. split_and!; try done. right. split_and!; [done|lia|done]. }
  apply wp_sys_bind. intros [[cfd a]|e] Ha; cbn in Ha.
  2: { apply quits_errExit. intros o k Ho Hk. set (h1 := Ev (Accept sfd) (Err e) :: h). destruct (idle_app k h1 0 STDOUT_FILENO Hk) as (_ & H1 & _ & H2 & _).
       eapply (serve_fails _ _ _ _ _ [] []); rewrite ?H1, ?H2; cbn; by rewrite ?app_nil_r. }
  destruct Ha as [_ Hnew]. set (h1 := Ev (Accept sfd) (Ok (cfd, a)) :: h). assert (open_fds h1 = {[cfd]} ∪ open_fds h) as Hop1 by done.
  assert (fetched h1 = fetched h /\ output STDOUT_FILENO h1 = output STDOUT_FILENO h) as [Hf1 Ho1] by (cbn; by rewrite !app_nil_r).
  assert (clients h1 = S (clients h) /\ ends h1 = ends h) as [Hc1 He1] by done. clearbody h1.
  eapply wp_call; [apply wp_copyTo; [intros w; apply quits_fatal|intros e; left; apply quits_errExit]|..].
  2: { intros s h' (d & d' & (H1 & H2 & _ & H4 & _) & Hp & H). rewrite map_id in Hp, H. rewrite Hf1 in H4. rewrite Ho1 in H2.
       destruct H as [[H _]|[([= ->] & -> & Hlen)|[? _]]]; [|exists d, d; split_and!; auto|done].
       by eapply serve_fails. }
  intros [] h2 (d & d' & (_ & H2 & H3 & H4 & H5 & _) & Hp & [[[?|[?|?]] _]|[[? _]|(_ & -> & r0 & k0 & _ & [[_ He2]|(e & _ & ?)])]]); try done.
  rewrite map_id in *. rewrite Hf1 in H4. rewrite Ho1 in H2.
  apply wp_sys_bind. intros r _. set (h3 := Ev (Close cfd) r :: h2).
  assert (open_fds h3 = open_fds h) as Hop3 by (cbn; rewrite H3, Hop1; by apply open_close).
  assert (fetched h3 = fetched h ++ d /\ output STDOUT_FILENO h3 = output STDOUT_FILENO h ++ d) as [Hf3 Ho3] by (cbn; by rewrite !app_nil_r).
  assert (clients h3 = S (clients h) /\ ends h3 = S (ends h)) as [Hc3 He3] by (cbn; by rewrite H5, He2, He1). clearbody h3.
  destruct r as [[]|e]; [cbn [bind]; eapply wp_mono; [|apply IH]; intros o h' Ho; by eapply serve_more|].
  apply wp_errMsg. intros k' Hk'. destruct (idle_app k' h3 0 STDOUT_FILENO Hk') as (_ & G2 & G3 & G4 & _). rewrite app_nil_r in G2, G4.
  destruct (idle_counts k' h3 Hk') as [G5 G6]. eapply wp_mono; [|apply IH]. intros o h' Ho.
  eapply serve_more; [..|exact Ho]; [by rewrite G4|by rewrite G2|by rewrite G3|by rewrite G5|by rewrite G6].
Qed.

(** The server programs: until its end, a server has written to its standard
    output what the clients sent, in order; when it waits for the next client it has read
    to the end of every connection that it accepted, and keeps only the listening socket. *)
Definition server_post (n fuel : nat) (o : outcome unit) (h : history) : Prop :=
  output STDOUT_FILENO h `prefix_of` fetched h /\
  (stops_failing o \/
   o = Stop OutOfFuel /\ output STDOUT_FILENO h = fetched h /\
     ((fuel <= length (fetched h))%nat \/ (n <= clients h)%nat /\ ends h = clients h /\ exists sfd, open_fds h = {[sfd]})).

Lemma server_fails n fuel p h :
  quits p -> fetched h = [] -> output STDOUT_FILENO h = [] -> wp posix p (server_post n fuel) h.
Proof.
  intros Hq H1 H2. apply Hq. intros o k Ho Hk. destruct (idle_app k h 0 STDOUT_FILENO Hk) as (_ & G2 & _ & G4 & _).
  rewrite app_nil_r in G2, G4. split; [rewrite G2, G4, H1, H2; apply prefix_nil|by left].
Qed.

Lemma wp_server n fuel sfd h :
  fetched h = [] -> output STDOUT_FILENO h = [] -> open_fds h = {[sfd]} -> clients h = 0%nat /\ ends h = 0%nat ->
  wp posix (xfrServe n fuel sfd) (server_post n fuel) h.
Proof.
  intros H1 H2 H3 [H4 H5]. eapply wp_mono; [|apply wp_xfrServe]. intros o h' (d & d' & G1 & G2 & Gp & Go). rewrite H1 in G1. rewrite H2 in G2. cbn in G1, G2.
  split; [by rewrite G1, G2|]. destruct Go as [?|(-> & -> & Gx)]; [by left|right]. rewrite G1, G2. split_and!; try done.
  destruct Gx as [?|[Ge Gc]]; [by left|right]. split_and!; [lia|lia|]. exists sfd. by rewrite Ge.
Qed.

Lemma us_xfr_sv_serves n fuel : wp posix (us_xfr_sv_main n fuel) (server_post n fuel) [].
Proof.
  unfold us_xfr_sv_main. apply wp_sys_bind. intros [sfd|e] _; [|by apply server_fails; [apply quits_errExit|..]].
  change (SUN_PATH - 1 <? strlen US_XFR_PATH) with false. cbv iota.
  apply wp_sys_bind. intros r _. set (h1 := Ev (Remove US_XFR_PATH) r :: _).
  assert (fetched h1 = [] /\ output STDOUT_FILENO h1 = [] /\ open_fds h1 = {[sfd]} /\ clients h1 = 0%nat /\ ends h1 = 0%nat) as (H1 & H2 & H3 & H45)
    by (split_and!; try done; cbn; by rewrite union_empty_r_L).
  clearbody h1.
  assert (wp posix (b <- sys (Bind sfd (sockaddr_un US_XFR_PATH) SIZEOF_SOCKADDR_UN) ;;
    match b with Ok _ => l <- sys (Listen sfd US_BACKLOG) ;; match l with Ok _ => xfrServe n fuel sfd | Err e => errExit e ($"listen") end
    | Err e => errExit e ($"bind") end) (server_post n fuel) h1) as Hgo.
  { apply wp_sys_bind. intros [[]|e] _; [|apply server_fails; [apply quits_errExit|cbn; by rewrite ?H1, ?H2..]].
    apply wp_sys_bind. intros [[]|e] _; [|apply server_fails; [apply quits_errExit|cbn; by rewrite ?H1, ?H2..]].
    apply wp_server; [cbn; by rewrite ?H1, ?H2, ?H3..|exact H45]. }
  destruct r as [u|e]; [exact Hgo|]. destruct (negb (e =? ENOENT)); [|exact Hgo]. apply wp_bind, wp_errExit_trace.
  intros o k Ho Hk. pose proof (reporting_idle k Hk) as Hk'. destruct (idle_app k h1 0 STDOUT_FILENO Hk') as (_ & G2 & _ & G4 & _). rewrite app_nil_r in G2, G4.
  destruct Ho as [->|[->| ->]]; (split; [rewrite G2, G4, H1, H2; apply prefix_nil|left; unfold stops_failing; auto]).
Qed.

Lemma us_xfr_v2_sv_serves n fuel : wp posix (us_xfr_v2_sv_main n fuel) (server_post n fuel) [].
Proof.
  unfold us_xfr_v2_sv_main, unixBind. change (unixBuildAddress (Some US_XFR_V2_PATH)) with (Ok (sockaddr_un US_XFR_V2_PATH)).
  assert (forall e msg h, fetched h = [] -> output STDOUT_FILENO h = [] -> wp posix (errExit e msg) (server_post n fuel) h) as Hfail by (intros; by apply server_fails; [apply quits_errExit|..]).
  apply bind_assoc, wp_sys_bind. intros [sfd|e] _; [|by apply Hfail]. apply bind_assoc, wp_sys_bind. intros [[]|e] _.
  - apply wp_sys_bind. intros [[]|e] _; [|by apply Hfail]. apply wp_server; try done. cbn. by rewrite union_empty_r_L.
  - apply bind_assoc, wp_sys_bind. intros r _. by apply Hfail.
Qed.

(** *** Echo *)

(** Everything read from [rd] goes to [wr], up to the end of the file, after which the process
    ends with [stop]; it ends otherwise only after a call that failed. *)
Definition echo_post (fuel : nat) (rd wr : Z) (stop : halt) (h0 : history) (o : outcome unit) (h : history) : Prop :=
  exists d d', input rd h = input rd h0 ++ d /\ output wr h = output wr h0 ++ d' /\ d' `prefix_of` d /\ open_fds h = open_fds h0 /\
    (stops_failing o /\ troubled rd wr h0 h \/ o = Stop OutOfFuel /\ d' = d /\ (fuel <= length d)%nat \/
     o = Stop stop /\ d' = d /\ exists k, h = Ev (Read rd ECHO_BUF_SIZE) (Ok []) :: k ++ h0).

Lemma wp_echo fuel errno rd wr stop h :
  wp posix (echoCopy fuel errno rd wr ;;; Halt stop) (echo_post fuel rd wr stop h) h.
Proof.
  eapply wp_call; [apply wp_copyTo; [intros w; apply quits_logExit|intros e; left; apply quits_logExit]|..].
  - intros [] h' (d & d' & (H1 & H2 & H3 & _ & _ & k & Hk0) & Hp & [[[?|[?|?]] _]|[[? _]|(_ & -> & r & k' & Hk & Hr)]]); try done. rewrite map_id in *.
    exists d, d. split_and!; try done. right. right. split_and!; try done. destruct Hr as [[-> He]|(e & _ & Hr)]; [|done]. by exists k'.
  - intros st h' (d & d' & (H1 & H2 & H3 & _) & Hp & H). rewrite map_id in *. exists d, d'. split_and!; try done.
    destruct H as [[H Ht]|[([= ->] & H & Hl)|[? _]]]; [by left|right; by left|done].
Qed.

(** The calls of accept(), failed ones included. *)
Fixpoint accepts (h : history) : nat :=
  match h with [] => 0 | Ev c _ :: h => (match c with Accept _ => 1 | _ => 0 end + accepts h)%nat end.

Lemma accepts_app k h : accepts (k ++ h) = (accepts k + accepts h)%nat.
Proof. induction k as [|[X c r] k IH]; [done|]. cbn. lia. Qed.

(** The server from [h0] on.  The parent calls accept() again and again, moves no byte and
    has closed every connection that it accepted; it ends only after a failure of
    accept(), and only if it does not try again.  A child echoes on the connection that was
    accepted, with the listening socket closed. *)
Definition echo_server_post (tries : bool) (n fuel : nat) (lfd : Z) (h0 : history) (o : outcome unit) (h : history) : Prop :=
  (exists k, h = k ++ h0 /\ open_fds h = open_fds h0 /\ fetched h = fetched h0 /\ (forall x, output x h = output x h0) /\
     (o = Stop OutOfFuel /\ accepts k = n \/
      tries = false /\ o = Stop (Exit EXIT_FAILURE) /\ exists e, Ev (Accept lfd) (Err e) ∈ k)) \/
  exists cfd a k, let h1 := k ++ h0 in
    Ev (Accept lfd) (Ok (cfd, a)) ∈ k /\ Ev Fork (Ok 0) ∈ k /\
    open_fds h1 = ({[cfd]} ∪ open_fds h0) ∖ {[lfd]} /\ fetched h1 = fetched h0 /\ (forall x, output x h1 = output x h0) /\
    echo_post fuel cfd cfd (Exit_ EXIT_SUCCESS) h1 o h.

Lemma echo_server_more tries n fuel lfd k h0 o h :
  open_fds (k ++ h0) = open_fds h0 -> fetched (k ++ h0) = fetched h0 -> (forall x, output x (k ++ h0) = output x h0) -> accepts k = 1%nat ->
  echo_server_post tries n fuel lfd (k ++ h0) o h -> echo_server_post tries (S n) fuel lfd h0 o h.
Proof.
  intros H1 H2 H3 H4 [(k' & -> & G1 & G2 & G3 & Ho)|(cfd & a & k' & G1 & G2 & G3 & G4 & G5 & G6)]; [left|right].
  - exists (k' ++ k). rewrite <- app_assoc. split_and!; [done|by rewrite G1|by rewrite G2|intros x; by rewrite G3|].
    destruct Ho as [[-> Ho]|(-> & -> & e & He)]; [left|right]; split_and!; try done; [rewrite accepts_app; lia|].
    exists e. apply elem_of_app. by left.
  - exists cfd, a, (k' ++ k). rewrite <- app_assoc. rewrite H1 in G3. rewrite H2 in G4.
    split_and!; [apply elem_of_app; by left..|done|done|intros x; by rewrite G5|done].
Qed.

(** What the parent does between accept() and the close of the connection. *)
Definition forking (e : event) : Prop := match e with Ev c _ => match c with Fork | Syslog _ => True | _ => False end end.

Lemma after_accept k lfd cfd a h :
  Forall forking k -> let h1 := k ++ Ev (Accept lfd) (Ok (cfd, a)) :: h in
  open_fds h1 = {[cfd]} ∪ open_fds h /\ fetched h1 = fetched h /\ (forall x, output x h1 = output x h) /\ accepts k = 0%nat.
Proof.
  intros Hk. induction Hk as [|[X c r] k Hc _ (IH1 & IH2 & IH3 & IH4)]; [cbn; rewrite app_nil_r; split_and!; try done; intros x; by rewrite app_nil_r|].
  destruct c; try done; cbn; rewrite IH1, IH2, IH4, app_nil_r; split_and!; try done; intros x; by rewrite IH3, app_nil_r.
Qed.

Lemma wp_echoServe tries n fuel errno lfd h : wp posix (echoServe tries n fuel errno lfd) (echo_server_post tries n fuel lfd h) h.
Proof.
  revert h. induction n as [|n IH]; intros h; cbn [echoServe]; [left; exists []; split_and!; try done; by left|].
  apply wp_sys_bind. intros [[cfd a]|e] Ha; cbn in Ha.
  - destruct Ha as [_ Hnew]. set (acc := Ev (Accept lfd) (Ok (cfd, a))). unfold echoClient.
    assert (forall k r, Forall forking k ->
      wp posix (echoServe tries n fuel errno lfd) (echo_server_post tries (S n) fuel lfd h) (Ev (Close cfd) r :: k ++ acc :: h)) as Hnext.
    { intros k r Hall. destruct (after_accept k lfd cfd a h Hall) as (H1 & H2 & H3 & H4). fold acc in H1, H2, H3. eapply wp_mono; [|apply IH]. intros o h' Ho.
      refine (echo_server_more _ _ _ _ (Ev (Close cfd) r :: k ++ [acc]) h o h' _ _ _ _ _); rewrite <- ?app_comm_cons, <- ?app_assoc; cbn [app].
      - cbn. rewrite H1. by apply open_close.
      - cbn. by rewrite H2, app_nil_r.
      - intros x. cbn. by rewrite H3, app_nil_r.
      - cbn. rewrite accepts_app, H4. done.
      - exact Ho. }
    apply wp_sys_bind. intros [pid|e] _.
    + destruct (Z.eqb_spec pid 0) as [->|_].
      * apply wp_sys_bind. intros r _. eapply wp_mono; [|apply wp_echo]. intros o h' Ho. right.
        exists cfd, a, [Ev (Close lfd) r; Ev Fork (Ok 0); acc]. cbn [app].
        split_and!; [right; right; by left|right; by left|done|cbn; by rewrite !app_nil_r|intros x; cbn; by rewrite !app_nil_r|exact Ho].
      * apply wp_sys_bind. intros r _. apply (Hnext [Ev Fork (Ok pid)]). by apply Forall_singleton.
    + apply wp_sys_bind. intros [] _. apply wp_sys_bind. intros r _.
      apply (Hnext [Ev (Syslog _) tt; Ev Fork (Err e)]). apply Forall_cons. split; [done|by apply Forall_singleton].
  - apply wp_sys_bind. intros [] _. set (k := [Ev (Syslog ($"Failure in accept(): " ++ strerror e)) tt; Ev (Accept lfd) (Err e)]).
    assert (fetched (k ++ h) = fetched h /\ forall x, output x (k ++ h) = output x h) as [Hf Hout] by (cbn; split; [|intros x]; by rewrite !app_nil_r).
    destruct tries; [eapply wp_mono; [|apply IH]; intros o h' Ho; by apply (echo_server_more _ _ _ _ k h o h')|].
    left. exists k. split_and!; try done. right. split_and!; try done. exists e. right. by left.
Qed.

(** *** The echo daemons *)

Lemma wp_closeAll_any E n fd (Q : outcome unit -> history -> Prop) h : (forall h', Q (Done tt) h') -> wp E (closeAll n fd) Q h.
Proof. intros HQ. revert fd h. induction n as [|n IH]; intros fd h; [apply HQ|]. cbn [closeAll]. apply wp_sys_bind. intros r _. apply IH. Qed.

Lemma only_closeAll (P : forall X, call X -> Prop) n fd : (forall fd, P _ (Close fd)) -> only P (closeAll n fd).
Proof. intros HP. revert fd. induction n as [|n IH]; intros fd; [done|]. cbn [closeAll]. split; [done|]. intros r. apply IH. Qed.

(** The calls of becomeDaemon(), inetListen() and inetBind(). *)
Definition set_up X (c : call X) : Prop :=
  match c with
  | Fork | Setsid | Umask _ | Chdir _ | Sysconf_open_max | Close _ | Open _ _ _ | Dup2 _ _
  | Getaddrinfo _ _ _ | Freeaddrinfo _ | Socket _ _ _ | Setsockopt_reuseaddr _ _ | Bind _ _ _ | Listen _ _ => True
  | _ => False
  end.

Lemma inetPassive_only service type addrlen doListen backlog : only set_up (inetPassiveSocket service type addrlen doListen backlog).
Proof.
  unfold inetPassiveSocket. split; [exact I|]. intros [e|l]; [exact I|]. cbn [bind]. apply only_bind.
  - induction l as [|rp l IH]; [exact I|]. cbn [bindFirst]. split; [exact I|]. intros [sfd|e]; [|exact IH]. cbn [bind]. apply only_bind; [by destruct doListen|].
    intros [u|e]; [|by split]. split; [exact I|]. intros [v|e]; [exact I|]. split; [exact I|]. intros r. exact IH.
  - intros [sfd rp| |]; [|by split..]. apply only_bind; [by destruct doListen|]. intros [u|e]; by split.
Qed.

Lemma becomeDaemon_only flags : only set_up (becomeDaemon flags).
Proof.
  unfold becomeDaemon, forkOn. split; [exact I|]. intros [pid|e]; [|exact I]. cbn [bind]. destruct (pid =? 0); [|exact I]. split; [exact I|].
  intros [sid|e]; [|exact I]. split; [exact I|]. intros [pid2|e]; [|exact I]. cbn [bind]. destruct (pid2 =? 0); [|exact I].
  apply only_bind; [destruct (negb _); [by split|exact I]|]. intros _. apply only_bind; [destruct (negb _); [by split|exact I]|]. intros _.
  apply only_bind; [unfold closeFiles; destruct (negb _); [split; [exact I|]; intros m; by apply only_closeAll|exact I]|]. intros _.
  destruct (negb _); [|exact I]. unfold reopenStd. split; [exact I|]. intros r1. split; [exact I|]. intros [fd|e]; [|exact I]. cbn [bind].
  destruct (negb _); [exact I|]. split; [exact I|]. intros r2. cbn [bind]. destruct (dup2Fails r2 _); [exact I|]. split; [exact I|]. intros r3.
  cbn [bind]. by destruct (dup2Fails r3 _).
Qed.

Lemma wp_becomeDaemon E (Q : outcome Z -> history -> Prop) h :
  (forall d k, Forall (fun e => match e with Ev c _ => set_up _ c end) k -> Q (Done d) (k ++ h)) ->
  (forall k, Forall (fun e => match e with Ev c _ => set_up _ c end) k -> Q (Stop (Exit_ EXIT_SUCCESS)) (k ++ h)) -> wp E (becomeDaemon 0) Q h.
Proof.
  intros Hd Hs. assert (wp E (becomeDaemon 0) (fun o _ => (exists d, o = Done d) \/ o = Stop (Exit_ EXIT_SUCCESS)) h) as Ho.
  { unfold becomeDaemon, forkOn. apply wp_sys_bind. intros [pid|e] _; [|left; by eexists]. destruct (pid =? 0); [|by right].
    apply wp_sys_bind. intros [sid|e] _; [|left; by eexists]. apply wp_sys_bind. intros [pid2|e] _; [|left; by eexists].
    destruct (pid2 =? 0); [|by right]. cbn [flag]. change (negb (flag 0 BD_NO_UMASK0)) with true. change (negb (flag 0 BD_NO_CHDIR)) with true.
    change (negb (flag 0 BD_NO_REOPEN_STD_FDS)) with true. cbv iota. apply wp_sys_bind. intros [] _. apply bind_assoc, wp_sys_bind. intros r _. cbn [bind].
    unfold closeFiles. change (negb (flag 0 BD_NO_CLOSE_FILES)) with true. cbv iota. apply bind_assoc, wp_sys_bind. intros m _. apply wp_bind, wp_closeAll_any. intros h1.
    unfold reopenStd. apply wp_sys_bind. intros r1 _. apply wp_sys_bind. intros [fd|e] _; [|left; by eexists]. destruct (negb (fd =? STDIN_FILENO)); [left; by eexists|].
    apply wp_sys_bind. intros r2 _. destruct (dup2Fails r2 STDOUT_FILENO); [left; by eexists|]. apply wp_sys_bind. intros r3 _.
    destruct (dup2Fails r3 STDERR_FILENO); left; by eexists. }
  eapply wp_mono; [|apply wp_conj; [exact Ho|apply (wp_only E set_up), becomeDaemon_only]].
  intros o h' [[[d ->]| ->] (k & -> & Hk)]; [by apply Hd|by apply Hs].
Qed.

(** The events of the start: no connection is accepted and no byte moves. *)
Definition starting (e : event) : Prop :=
  idle e \/ match e with Ev c _ => set_up _ c \/ match c with Sigaction _ _ => True | _ => False end end.

Lemma set_up_starting k : Forall (fun e => match e with Ev c _ => set_up _ c end) k -> Forall starting k.
Proof. intros H. eapply Forall_impl; [exact H|]. intros [X c r] Hc. right. by left. Qed.

(** A process that ends before the server listens accepts nothing and moves no byte: it is a
    parent left behind by becomeDaemon(), or it fails.  From then on [echo_server_post]. *)
Definition daemon_post (tries : bool) (n fuel : nat) (o : outcome unit) (h : history) : Prop :=
  (o = Stop (Exit_ EXIT_SUCCESS) \/ stops_failing o) /\ Forall starting h \/
  exists lfd h0 result rp, Forall starting h0 /\ lfd ∈ open_fds h0 /\
    Ev (Getaddrinfo None ECHO_SERVICE (Hints AI_PASSIVE AF_UNSPEC SOCK_STREAM)) (inr result) ∈ h0 /\
    rp ∈ result /\ ev_bound lfd rp ∈ h0 /\ Ev (Listen lfd 10) (Ok tt) ∈ h0 /\ echo_server_post tries n fuel lfd h0 o h.

Lemma daemon_quits tries n fuel p h : Forall starting h -> quits p -> wp posix p (daemon_post tries n fuel) h.
Proof.
  intros Hh Hp. apply Hp. intros o k Ho Hk. left. split; [by right|]. apply Forall_app. split; [|done]. eapply Forall_impl; [exact Hk|]. by left.
Qed.

Lemma wp_echoDaemon tries n fuel errno : wp posix (echoDaemon tries n fuel errno) (daemon_post tries n fuel) [].
Proof.
  unfold echoDaemon. apply wp_bind, wp_becomeDaemon; intros; [|left; split; [by left|]; rewrite app_nil_r; by apply set_up_starting].
  rewrite app_nil_r. apply set_up_starting in H. destruct (d =? -1); [apply daemon_quits; [done|apply quits_errExit]|].
  apply wp_sys_bind. intros r _. set (h1 := Ev (Sigaction _ _) r :: k).
  assert (Forall starting h1) as Hh1 by (constructor; [right; by right|done]). clearbody h1. destruct r as [act|e]; [|apply daemon_quits; [done|apply quits_logExit]].
  eapply wp_call; [apply wp_conj; [apply inetPassiveSocket_fds|apply (wp_only posix set_up), inetPassive_only]|..]; [|by intros st h' [(? & _ & []) _]].
  intros [lfd len] h' [(k1 & -> & H1) (k2 & Hk2 & Hset)]. apply app_inv_tail in Hk2 as <-.
  assert (Forall starting (k1 ++ h1)) as Hh2 by (apply Forall_app; split; [by apply set_up_starting|done]).
  destruct (Z.eqb_spec lfd (-1)) as [->|Hne]; [apply daemon_quits; [done|apply quits_logExit]|].
  destruct H1 as [[? _]|(_ & _ & Hop & result & rp & Hg & Hrp & _ & Hb & _ & Hl)]; [done|]. eapply wp_mono; [|apply wp_echoServe]. intros o h2 Ho. right.
  exists lfd, (k1 ++ h1), result, rp. split_and!; [done|rewrite Hop; set_solver|apply elem_of_app; by left|done|apply elem_of_app; by left| |done].
  apply elem_of_app. left. by apply Hl.
Qed.

(** *** is_echo_cl: the parent sends the standard input, the child displays what
    comes back. *)

Definition echo_child (sfd : Z) (fuel : nat) (h0 : history) (o : outcome unit) (h : history) : Prop :=
  (forall x, output x h = []) /\
  (o = Stop OutOfFuel /\ (fuel <= length (input sfd h))%nat \/
   o = Stop (Exit EXIT_SUCCESS) /\ (NUL ∉ input sfd h -> said h = input sfd h) /\
     exists r k, h = Ev (Read sfd ECHO_CL_BUF_SIZE) r :: k ++ h0 /\ (r = Ok [] \/ exists e, r = Err e)).

Definition echo_parent (sfd : Z) (fuel : nat) (h0 : history) (o : outcome unit) (h : history) : Prop :=
  output sfd h `prefix_of` input STDIN_FILENO h /\
  (stops_failing o /\ (troubled STDIN_FILENO sfd h0 h \/ exists e, Ev (Shutdown sfd SHUT_WR) (Err e) ∈ h) \/
   o = Stop OutOfFuel /\ output sfd h = input STDIN_FILENO h /\ (fuel <= length (input STDIN_FILENO h))%nat \/
   o = Stop (Exit EXIT_SUCCESS) /\ output sfd h = input STDIN_FILENO h /\
     exists r k, h = Ev (Shutdown sfd SHUT_WR) (Ok tt) :: Ev (Read STDIN_FILENO ECHO_CL_BUF_SIZE) r :: k ++ h0 /\ (r = Ok [] \/ exists e, r = Err e)).

(** [sfd] was connected to an address of the echo service of the host; the reply of fork()
    tells parent and child apart. *)
Definition echo_client_post (host : list ascii) (fuel : nat) (o : outcome unit) (h : history) : Prop :=
  stops_failing o /\ fetched h = [] /\ (forall x, output x h = []) \/
  exists sfd pid h0 result rp, Ev (Getaddrinfo (Some host) ECHO_SERVICE (Hints 0 AF_UNSPEC SOCK_STREAM)) (inr result) ∈ h0 /\
    rp ∈ result /\ ev_connected sfd rp ∈ h0 /\ Ev Fork (Ok pid) ∈ h0 /\ fetched h0 = [] /\
    (if pid =? 0 then echo_child else echo_parent) sfd fuel h0 o h.

Lemma upto_nul_id b : NUL ∉ b -> upto_nul b = b.
Proof.
  induction b as [|c b IH]; [done|]. intros H. apply not_elem_of_cons in H as [H1 H2]. cbn. destruct (Ascii.eqb_spec c NUL) as [->|_]; [done|].
  by rewrite IH.
Qed.

Lemma wp_showResponse fuel sfd h1 :
  (NUL ∉ input sfd h1 -> said h1 = input sfd h1) ->
  wp posix (showResponse fuel sfd) (fun o h2 => (forall x, output x h2 = output x h1) /\
    (o = Stop OutOfFuel /\ (fuel + length (input sfd h1) <= length (input sfd h2))%nat \/
     o = Done tt /\ (NUL ∉ input sfd h2 -> said h2 = input sfd h2) /\
       exists r k, h2 = Ev (Read sfd ECHO_CL_BUF_SIZE) r :: k ++ h1 /\ (r = Ok [] \/ exists e, r = Err e))) h1.
Proof.
  revert h1. induction fuel as [|fuel IH]; intros h1 H1; cbn [showResponse]; [split; [done|by left]|].
  apply wp_sys_bind. intros [[|a d]|e] _.
  1,3: split; [intros x; cbn; by rewrite app_nil_r|right]; split_and!; [done|cbn; rewrite ?Z.eqb_refl, !app_nil_r; exact H1|];
    eexists _, []; split; [done|]; eauto.
  apply wp_sys_bind. intros [] _. eapply wp_mono; [|apply IH].
  - cbn. rewrite Z.eqb_refl, app_nil_r. intros o h2 [Hout [[-> H]|(-> & H & r & k & -> & Hr)]]; (split; [intros x; rewrite Hout; by rewrite !app_nil_r|]); [left|right].
    + rewrite length_app in H. simpl in H. split; [done|lia].
    + split_and!; [done..|]. eexists r, (k ++ [_; _]). split; [cbn; by rewrite <- app_assoc|done].
  - cbn [input said got]. rewrite Z.eqb_refl, !app_nil_r. intros Hn. apply not_elem_of_app in Hn as [Hn1 Hn2]. rewrite H1 by done. f_equal. by apply (upto_nul_id (a :: d)).
Qed.

(** The calls of inetConnect() move no bytes. *)
Definition connecting (e : event) : Prop :=
  match e with
  | Ev c _ => match c with Getaddrinfo _ _ _ | Freeaddrinfo _ | Socket _ _ _ | Connect _ _ _ | Close _ | Fork => True | _ => False end
  end.

Lemma connecting_app k h x : Forall connecting k ->
  input x (k ++ h) = input x h /\ output x (k ++ h) = output x h /\ said (k ++ h) = said h /\ fetched (k ++ h) = fetched h.
Proof.
  induction 1 as [|[X c r] k Hc _ (IH1 & IH2 & IH3 & IH4)]; [done|]. cbn [app input output said fetched]. rewrite IH1, IH2, IH3, IH4.
  destruct c; try done; cbn; by rewrite !app_nil_r.
Qed.

Lemma wp_inetConnect E host service type (Q : outcome Z -> history -> Prop) h :
  (forall r k, Forall connecting k -> Q (Done r) (k ++ h)) -> wp E (inetConnect host service type) Q h.
Proof.
  intros HQ. unfold inetConnect. apply wp_sys_bind. intros [e|l] _; [apply (HQ _ [_]); by apply Forall_singleton|].
  assert (forall k, Forall connecting k -> wp E (sfd <- connectFirst l ;; sys (Freeaddrinfo l) ;;; Ret sfd) Q (k ++ h)) as Hw.
  2: { apply (Hw [_]). by apply Forall_singleton. }
  set (all := l) at 2. clearbody all. induction l as [|rp l IH]; intros k Hk; cbn [connectFirst].
  { apply wp_sys_bind. intros [] _. apply (HQ _ (_ :: k)). by apply Forall_cons. }
  apply bind_assoc, wp_sys_bind. intros [sfd|e] _; [|apply (IH (_ :: k)); by apply Forall_cons].
  apply bind_assoc, wp_sys_bind. intros [[]|e] _.
  - apply wp_sys_bind. intros [] _. apply (HQ _ (_ :: _ :: _ :: k)). by repeat (apply Forall_cons; split; [done|]).
  - apply bind_assoc, wp_sys_bind. intros r _. apply (IH (_ :: _ :: _ :: k)). by repeat (apply Forall_cons; split; [done|]).
Qed.

Lemma echo_client_quits host fuel p h :
  fetched h = [] -> (forall x, output x h = []) -> quits p -> wp posix p (echo_client_post host fuel) h.
Proof.
  intros Hf Hh Hp. apply Hp. intros o k Ho Hk. left. split; [done|]. split.
  - destruct (idle_app k h 0 0 Hk) as (_ & _ & _ & H & _). by rewrite H, Hf.
  - intros x. destruct (idle_app k h 0 x Hk) as (_ & H & _). by rewrite H, Hh.
Qed.

Lemma wp_echo_child fuel sfd h1 :
  (forall x, input x h1 = [] /\ output x h1 = [] /\ said h1 = [] /\ fetched h1 = []) ->
  wp posix (showResponse fuel sfd ;;; Halt (Exit EXIT_SUCCESS)) (echo_child sfd fuel h1) h1.
Proof.
  intros Hh1. destruct (Hh1 sfd) as (H1 & _ & H3 & _). eapply wp_call; [apply wp_showResponse; by rewrite H1, H3|..].
  - intros [] h2 [Hout [[? _]|(_ & H & He)]]; [done|]. split; [intros x; rewrite Hout; apply Hh1|]. right. by split_and!.
  - intros s h2 [Hout [[[= ->] H]|[? _]]]; [|done]. split; [intros x; rewrite Hout; apply Hh1|]. left. split; [done|]. lia.
Qed.

Lemma wp_echo_parent fuel sfd h1 :
  (forall x, input x h1 = [] /\ output x h1 = [] /\ said h1 = [] /\ fetched h1 = []) ->
  wp posix (copyTo fuel STDIN_FILENO sfd ECHO_CL_BUF_SIZE id (fun _ => fatal ($"write() failed")) (fun _ => Ret tt) ;;;
            r <- sys (Shutdown sfd SHUT_WR) ;;
            match r with Err e => errExit e ($"shutdown") | Ok _ => Halt (Exit EXIT_SUCCESS) end) (echo_parent sfd fuel h1) h1.
Proof.
  intros Hh1. destruct (Hh1 STDIN_FILENO) as (H1 & _ & _). destruct (Hh1 sfd) as (_ & H2 & _).
  eapply wp_call; [apply wp_copyTo; [intros w; apply quits_fatal|intros e; by right]|..].
  - intros [] h2 (d & d' & (G1 & G2 & _) & Hp & [[[?|[?|?]] _]|[[? _]|(_ & -> & r & k3 & Hk3 & Hr)]]); try done.
    rewrite map_id in *. rewrite H1 in G1. rewrite H2 in G2. cbn [app] in G1, G2. apply wp_sys_bind. intros [[]|e] _.
    + unfold echo_parent. cbn. rewrite !app_nil_r, G1, G2. split; [done|]. right. right. split_and!; [done..|].
      exists r, k3. split; [by rewrite Hk3|]. destruct Hr as [[-> _]|(e & -> & _)]; eauto.
    + apply quits_errExit. intros o k4 Ho Hk4. set (h3 := Ev (Shutdown sfd SHUT_WR) (Err e) :: h2). unfold echo_parent.
      destruct (idle_app k4 h3 STDIN_FILENO sfd Hk4) as (F1 & F2 & _). rewrite F1, F2, !app_nil_r. cbn. rewrite !app_nil_r, G1, G2. split; [done|]. left.
      split; [done|]. right. exists e. apply elem_of_app. right. by left.
  - intros s h2 (d & d' & (G1 & G2 & _) & Hp & H). rewrite map_id in *. rewrite H1 in G1. rewrite H2 in G2. cbn [app] in G1, G2. unfold echo_parent. rewrite G1, G2. split; [done|].
    destruct H as [[H Ht]|[([= ->] & -> & Hl)|[? _]]]; [left|right; left|done]; [|by split_and!]. split; [done|by left].
Qed.

Lemma is_echo_cl_copies fuel errno argv : wp posix (is_echo_cl_main fuel errno argv) (echo_client_post (argv_nth argv 1) fuel) [].
Proof.
  unfold is_echo_cl_main. destruct (_ || _); [apply echo_client_quits; [done..|apply quits_usageErr]|].
  eapply wp_call; [apply wp_conj; [apply inetConnect_no_leak|apply (wp_inetConnect posix _ _ _ (fun o h => exists k, h = k ++ [] /\ Forall connecting k)); by eauto]|..];
    [|by intros st h' [(? & _ & []) _]].
  intros sfd h' [(k1 & -> & H1) (k & Hk & Hcon)]. apply app_inv_tail in Hk as ->.
  assert (forall x, input x (k ++ []) = [] /\ output x (k ++ []) = [] /\ said (k ++ []) = [] /\ fetched (k ++ []) = []) as Hh.
  { intros x. by apply connecting_app. }
  destruct (Z.eqb_spec sfd (-1)) as [_|Hne]; [apply echo_client_quits; [by apply (Hh 0)|intros x; by apply Hh|apply quits_errExit]|].
  destruct H1 as [[? _]|(_ & _ & _ & result & rp & Hg & Hrp & _ & Hc)]; [done|]. rewrite app_nil_r in *.
  apply wp_sys_bind. intros [pid|e] _; [|apply echo_client_quits; [cbn; rewrite app_nil_r; by apply (Hh 0)|intros x; cbn; rewrite app_nil_r; by apply Hh|apply quits_errExit]].
  set (h1 := Ev Fork (Ok pid) :: k). assert (forall x, input x h1 = [] /\ output x h1 = [] /\ said h1 = [] /\ fetched h1 = []) as Hh1 by (intros x; cbn; rewrite !app_nil_r; apply Hh).
  eapply (wp_mono _ _ ((if pid =? 0 then echo_child else echo_parent) sfd fuel h1)).
  { intros o h H. right. exists sfd, pid, h1, result, rp. split_and!; [by right|done|by right|by left|by apply (Hh1 0)|exact H]. }
  destruct (pid =? 0); [by apply wp_echo_child|by apply wp_echo_parent].
Qed.
End Streams.

(** ** Datagrams *)

(** The datagrams received and sent, with their addresses, in order. *)
Fixpoint dgrams_in (h : history) : list (list ascii * list ascii) :=
  match h with
  | [] => []
  | Ev c r :: h => dgrams_in h ++ match c in call X return X -> list (list ascii * list ascii) with
                                  | Recvfrom _ _ => fun r => match r with Ok p => [p] | Err _ => [] end
                                  | _ => fun _ => []
                                  end r
  end.

Fixpoint dgrams_out (h : history) : list (list ascii * list ascii) :=
  match h with
  | [] => []
  | Ev c _ :: h => dgrams_out h ++ match c with Sendto _ d a => [(d, a)] | _ => [] end
  end.

(** The answer to a datagram goes back to its sender. *)
Definition answer (g : ascii -> ascii) (p : list ascii * list ascii) : list ascii * list ascii := (map g (fst p), snd p).

Definition no_dgram (e : event) : Prop :=
  match e with Ev c _ => match c with Recvfrom _ _ | Sendto _ _ _ => False | _ => True end end.

Lemma no_dgram_app k h : Forall no_dgram k -> dgrams_in (k ++ h) = dgrams_in h /\ dgrams_out (k ++ h) = dgrams_out h.
Proof.
  induction 1 as [|[X c r] k Hc _ [IH1 IH2]]; [done|]. cbn [app dgrams_in dgrams_out]. rewrite IH1, IH2.
  destruct c; try done; by rewrite !app_nil_r.
Qed.

Lemma reporting_no_dgram k : Forall reporting k -> Forall no_dgram k.
Proof. intros H. eapply Forall_impl; [exact H|]. intros [X c r]. by destruct c. Qed.

Section Datagrams.
Context {T : ErrText}.

(** Every datagram received so far has been answered, once and in order. *)
Definition all_answered (g : ascii -> ascii) (h : history) : Prop := dgrams_out h = map (answer g) (dgrams_in h).

Lemma answered_report g k h : Forall reporting k -> all_answered g h -> all_answered g (k ++ h).
Proof. intros Hk Hh. unfold all_answered. by destruct (no_dgram_app k h (reporting_no_dgram k Hk)) as [-> ->]. Qed.

Lemma answered_step g fd fd' n d a (r : res Z) k h :
  all_answered g h -> Forall no_dgram k ->
  all_answered g (Ev (Sendto fd (map g d) a) r :: k ++ Ev (Recvfrom fd' n) (Ok (d, a)) :: h).
Proof.
  intros Hh Hk. unfold all_answered in *. cbn [dgrams_in dgrams_out]. destruct (no_dgram_app k (Ev (Recvfrom fd' n) (Ok (d, a)) :: h) Hk) as [-> ->].
  cbn [dgrams_in dgrams_out]. by rewrite !app_nil_r, map_app, Hh.
Qed.

(** id_echo_sv answers for ever: it ends only if recvfrom() fails. *)
Lemma wp_idEchoServe E n errno sfd h :
  all_answered id h ->
  wp E (idEchoServe n errno sfd) (fun o h' => all_answered id h' /\
    (stops_failing o \/ o = Stop OutOfFuel /\ length (dgrams_in h') = (length (dgrams_in h) + n)%nat)) h.
Proof.
  revert h. induction n as [|n IH]; intros h Hh; cbn [idEchoServe]; [split; [done|]; right; split; [done|lia]|].
  apply wp_sys_bind. intros [[buf a]|e] _.
  2: { apply wp_errExit_trace. intros o k Ho Hk. split; [|by left]. apply answered_report; [done|]. unfold all_answered in *. cbn. by rewrite !app_nil_r. }
  apply wp_sys_bind. intros s _. set (h1 := Ev (Sendto sfd buf a) s :: _).
  assert (all_answered id h1) as H1 by (pose proof (answered_step id sfd sfd ID_ECHO_BUF_SIZE buf a s [] h Hh (Forall_nil_2 _)) as H; by rewrite map_id in H).
  assert (length (dgrams_in h1) = S (length (dgrams_in h))) as Hl by (cbn; rewrite app_nil_r, length_app; simpl; lia). clearbody h1.
  assert (forall k, Forall no_dgram k -> wp E (idEchoServe n errno sfd) (fun o h' => all_answered id h' /\
    (stops_failing o \/ o = Stop OutOfFuel /\ length (dgrams_in h') = (length (dgrams_in h) + S n)%nat)) (k ++ h1)) as Hgo.
  { intros k Hk. destruct (no_dgram_app k h1 Hk) as [Hi Ho]. eapply wp_mono; [|apply IH].
    - intros o h' [Ha [?|[-> Hx]]]; (split; [done|]); [by left|right]. split; [done|]. rewrite Hi in Hx. lia.
    - unfold all_answered. by rewrite Hi, Ho. }
  destruct (match s with Ok k => k =? strlen buf | Err _ => false end); [apply (Hgo [])|]; [constructor|].
  unfold inetAddressStr. apply bind_assoc, bind_assoc, wp_sys_bind. intros x _. cbn [bind]. apply wp_sys_bind. intros [] _. apply (Hgo [_; _]).
  apply Forall_cons. split; [done|by apply Forall_singleton].
Qed.

(** ud_ucase_sv: with every address that the kernel stores, the string in the
    structure ends. *)
Definition terminated : env := fun h X c r =>
  posix h X c r /\
  match c in call X return X -> Prop with
  | Recvfrom _ _ => fun r => match r with Ok (_, a) => NUL ∈ drop 2 a | Err _ => True end
  | _ => fun _ => True
  end r.

Lemma wp_ucaseServe n sfd claddr h :
  all_answered toupper h ->
  wp terminated (ucaseServe n sfd claddr) (fun o h' => all_answered toupper h' /\
    (stops_failing o \/ o = Stop OutOfFuel /\ length (dgrams_in h') = (length (dgrams_in h) + n)%nat)) h.
Proof.
  revert claddr h. induction n as [|n IH]; intros claddr h Hh; cbn [ucaseServe]; [split; [done|]; right; split; [done|lia]|].
  apply wp_sys_bind. intros [[buf a]|e] [_ Hr].
  2: { apply wp_errExit_trace. intros o k Ho Hk. split; [|by left]. apply answered_report; [done|]. unfold all_answered in *. cbn. by rewrite !app_nil_r. }
  assert (NUL ∈ drop 2 (received a claddr)) as Hnul.
  { unfold received. destruct a as [|x [|y a]]; [by apply elem_of_nil in Hr..|]. cbn in Hr |- *. apply elem_of_app. by left. }
  unfold sunPath. rewrite bool_decide_true by done. cbn [bind]. apply wp_sys_bind. intros [] _. apply wp_sys_bind. intros s _.
  match goal with |- wp _ _ _ ?hh => set (h1 := hh) end.
  assert (all_answered toupper h1) as H1 by (apply (answered_step toupper sfd sfd UCASE_BUF_SIZE buf a s [_] h Hh); by apply Forall_singleton).
  assert (length (dgrams_in h1) = S (length (dgrams_in h))) as Hl by (cbn; rewrite !app_nil_r, length_app; simpl; lia). clearbody h1.
  destruct (match s with Ok k => negb (k =? strlen buf) | Err _ => true end).
  - apply wp_reporting. intros o k Ho Hk. split; [by apply answered_report|by left].
  - eapply wp_mono; [|by apply IH]. intros o h' [Ha [?|[-> Hx]]]; (split; [done|]); [by left|right]. split; [done|lia].
Qed.

(** *** The clients *)

(** The replies of a server that answers every datagram with [g] applied to its
    first [size] bytes, as received into [n] bytes. *)
Definition served (g : ascii -> ascii) (size : Z) : env := fun h X c r =>
  posix h X c r /\
  match c in call X return X -> Prop with
  | Recvfrom _ n => fun r =>
      match r with
      | Ok (d, _) => forall x a, last (dgrams_out h) = Some (x, a) -> d = take (Z.to_nat n) (map g (take (Z.to_nat size) x))
      | Err _ => True
      end
  | _ => fun _ => True
  end r.

Definition responseLine (j : Z) (arg : list ascii) : list ascii :=
  $"Response " ++ dec j ++ $": " ++ upto_nul (map toupper (take 10 arg)) ++ [NL].

Fixpoint responseLines (j : Z) (args : list (list ascii)) : list ascii :=
  match args with [] => [] | arg :: args => responseLine j arg ++ responseLines (j + 1) args end.

(** The lines for the first [m] arguments have been displayed; all of them, if
    nothing failed. *)
Lemma wp_ucaseArgs sfd j args h :
  wp (served toupper UCASE_BUF_SIZE) (ucaseArgs sfd j args) (fun o h' => exists m, said h' = said h ++ responseLines j (take m args) /\
    (stops_failing o \/ o = Done tt /\ m = length args)) h.
Proof.
  revert j h. induction args as [|arg args IH]; intros j h; cbn [ucaseArgs].
  { exists 0%nat. cbn. rewrite app_nil_r. auto. }
  assert (forall (o : outcome unit) k h1, said h1 = said h -> stops_failing o -> Forall reporting k -> exists m, said (k ++ h1) = said h ++ responseLines j (take m (arg :: args)) /\
    (stops_failing o \/ o = Done tt /\ m = length (arg :: args))) as Hfail.
  { intros o k h1 H1 Ho Hk. exists 0%nat. destruct (reporting_keeps 0 [] k h1 Hk) as [-> _]. cbn. rewrite app_nil_r. auto. }
  apply wp_sys_bind. intros s _. destruct (match s with Ok n => negb (n =? strlen arg) | Err _ => true end).
  { apply wp_reporting. intros o k Ho Hk. apply Hfail; [cbn; by rewrite app_nil_r|done..]. }
  apply wp_sys_bind. intros [[resp a]|e] [_ Hr].
  2: { apply wp_errExit_trace. intros o k Ho Hk. apply Hfail; [cbn; by rewrite !app_nil_r|done..]. }
  specialize (Hr arg (sockaddr_un UCASE_PATH)). cbn [dgrams_out] in Hr. rewrite last_snoc in Hr. specialize (Hr eq_refl). subst resp.
  apply wp_sys_bind. intros [] _. eapply wp_mono; [|apply IH]. intros o h' (m & Hs & Ho). exists (S m). cbn [take responseLines length].
  rewrite Hs. cbn [said]. rewrite !app_nil_r, <- app_assoc. unfold responseLine.
  change (Z.to_nat UCASE_BUF_SIZE) with 10%nat. rewrite (take_ge (map toupper (take 10 arg))) by (rewrite length_map, length_take; lia).
  split; [done|]. destruct Ho as [?|[-> ->]]; auto.
Qed.

Lemma ud_ucase_cl_shows argv :
  wp (served toupper UCASE_BUF_SIZE) (ud_ucase_cl_main argv) (fun o h => exists m, said h = responseLines 1 (take m (drop 1 argv)) /\
    (stops_failing o \/ o = Stop (Exit EXIT_SUCCESS) /\ m = length (drop 1 argv))) [].
Proof.
  assert (forall (o : outcome unit) k h1, said h1 = [] -> stops_failing o -> Forall reporting k -> exists m, said (k ++ h1) = responseLines 1 (take m (drop 1 argv)) /\
    (stops_failing o \/ o = Stop (Exit EXIT_SUCCESS) /\ m = length (drop 1 argv))) as Hfail.
  { intros o k h1 H1 Ho Hk. exists 0%nat. destruct (reporting_keeps 0 [] k h1 Hk) as [-> _]. auto. }
  unfold ud_ucase_cl_main. destruct (_ || _); [apply wp_usageErr_trace; intros; by apply Hfail|].
  apply wp_sys_bind. intros [sfd|e] _; [|apply wp_errExit_trace; intros; by apply Hfail].
  apply wp_sys_bind. intros pid _. apply wp_sys_bind. intros [[]|e] _; [|apply wp_errExit_trace; intros; by apply Hfail].
  eapply wp_call; [apply wp_ucaseArgs|..].
  - intros [] h (m & Hs & [[?|[?|?]]|[_ ->]]); try done. apply wp_sys_bind. intros r _. exists (length (drop 1 argv)). cbn [said].
    rewrite Hs, app_nil_r. auto.
  - intros st h (m & Hs & [H|[? _]]); [|done]. exists m. auto.
Qed.

(** id_echo_cl: every argument is sent as one datagram and its answer displayed. *)
Lemma wp_idEchoArgs E sfd args h :
  wp E (idEchoArgs sfd args) (fun o h' => exists m replies, length replies = m /\
    said h' = said h ++ concat (map (fun b => $"[" ++ dec (strlen b) ++ $" bytes] " ++ upto_nul b ++ [NL]) replies) /\
    (stops_failing o \/ o = Done tt /\ m = length args /\ Forall (fun arg => Ev (Write sfd arg) (Ok (strlen arg)) ∈ h') args)) h.
Proof.
  revert h. induction args as [|arg args IH]; intros h; cbn [idEchoArgs].
  { exists 0%nat, []. cbn. rewrite app_nil_r. split_and!; auto. }
  assert (forall (o : outcome unit) k h1, said h1 = said h -> stops_failing o -> Forall reporting k -> exists m replies, length replies = m /\
    said (k ++ h1) = said h ++ concat (map (fun b => $"[" ++ dec (strlen b) ++ $" bytes] " ++ upto_nul b ++ [NL]) replies) /\
    (stops_failing o \/ o = Done tt /\ m = length (arg :: args) /\ Forall (fun arg => Ev (Write sfd arg) (Ok (strlen arg)) ∈ k ++ h1) (arg :: args))) as Hfail.
  { intros o k h1 H1 Ho Hk. exists 0%nat, []. destruct (reporting_keeps 0 [] k h1 Hk) as [-> _]. cbn. rewrite app_nil_r. split_and!; auto. }
  apply wp_sys_bind. intros w _. destruct (match w with Ok n => negb (n =? strlen arg) | Err _ => true end) eqn:Hw.
  { apply wp_reporting. intros o k Ho Hk. apply Hfail; [cbn; by rewrite app_nil_r|done..]. }
  destruct w as [n|]; [|done]. apply negb_false_iff, Z.eqb_eq in Hw as ->.
  apply wp_sys_bind. intros [buf|e] _.
  2: { apply wp_errExit_trace. intros o k Ho Hk. apply Hfail; [cbn; by rewrite !app_nil_r|done..]. }
  apply wp_sys_bind. intros [] _. eapply wp_mono; [|apply wp_conj; [apply wp_extends|apply IH]].
  intros o h' [[k ->] (m & replies & Hm & Hs & Ho)]. exists (S m), (buf :: replies). cbn [length map concat]. split; [by rewrite Hm|].
  split; [rewrite Hs; cbn [said]; by rewrite !app_nil_r, <- app_assoc|]. destruct Ho as [?|(-> & -> & Hall)]; [by left|right]. split_and!; try done.
  apply Forall_cons. split; [|done]. apply elem_of_app. right. right. right. by left.
Qed.

(** The servers from their beginning. *)
Definition answers (g : ascii -> ascii) (n : nat) (o : outcome unit) (h : history) : Prop :=
  all_answered g h /\ (stops_failing o \/ o = Stop (Exit_ EXIT_SUCCESS) \/ o = Stop OutOfFuel /\ length (dgrams_in h) = n).

Lemma idle_answered g k h : Forall idle k -> all_answered g h -> all_answered g (k ++ h).
Proof.
  intros Hk Hh. unfold all_answered. assert (Forall no_dgram k) as Hn by (eapply Forall_impl; [exact Hk|]; intros [X c r]; by destruct c).
  by destruct (no_dgram_app k h Hn) as [-> ->].
Qed.

Lemma answers_quits g n E p h : quits p -> all_answered g h -> wp E p (answers g n) h.
Proof. intros Hq Hh. apply Hq. intros o k Ho Hk. split; [by apply idle_answered|by left]. Qed.

Lemma set_up_dgrams k h :
  Forall (fun e => match e with Ev c _ => set_up _ c end) k -> dgrams_in (k ++ h) = dgrams_in h /\ dgrams_out (k ++ h) = dgrams_out h.
Proof. intros Hk. apply no_dgram_app. eapply Forall_impl; [exact Hk|]. intros [X c r]. by destruct c. Qed.

Lemma id_echo_sv_answers n errno : wp posix (id_echo_sv_main n errno) (answers id n) [].
Proof.
  unfold id_echo_sv_main. assert (wp posix (becomeDaemon 0) (fun o h => dgrams_in h = [] /\ dgrams_out h = [] /\ ((exists d, o = Done d) \/ o = Stop (Exit_ EXIT_SUCCESS))) []) as Hd.
  { eapply wp_mono; [|apply wp_conj; [apply (wp_becomeDaemon posix (fun o _ => (exists d, o = Done d) \/ o = Stop (Exit_ EXIT_SUCCESS))); eauto|apply (wp_only posix set_up), becomeDaemon_only]].
    intros o h [Ho (k & -> & Hk)]. destruct (set_up_dgrams k [] Hk) as [-> ->]. auto. }
  eapply wp_call; [exact Hd|..].
  2: { intros s h (H1 & H2 & [[d ?]|[= ->]]); [done|]. split; [unfold all_answered; by rewrite H1, H2|auto]. }
  intros d h (H1 & H2 & _). destruct (d =? -1); [apply answers_quits; [apply quits_errExit|unfold all_answered; by rewrite H1, H2]|].
  eapply wp_call; [apply wp_conj; [apply (inetPassiveSocket_fds ECHO_SERVICE SOCK_DGRAM false false 0)|apply (wp_only posix set_up), inetPassive_only]|..]; [|by intros s h' [(? & _ & []) _]].
  intros [sfd len] h' [_ (k & -> & Hk)]. destruct (set_up_dgrams k h Hk) as [H3 H4]. rewrite H1 in H3. rewrite H2 in H4.
  assert (all_answered id (k ++ h)) as Ha by (unfold all_answered; by rewrite H3, H4).
  destruct (sfd =? -1); [by apply answers_quits; [apply quits_logExit|]|]. eapply wp_mono; [|by apply wp_idEchoServe].
  intros o h2 [Ha2 Ho]. rewrite H3 in Ho. split; [done|]. destruct Ho as [?|[-> Hl]]; auto.
Qed.

Lemma ud_ucase_sv_answers n stack : wp terminated (ud_ucase_sv_main n stack) (answers toupper n) [].
Proof.
  assert (forall e msg h, all_answered toupper h -> wp terminated (errExit e msg) (answers toupper n) h) as Hfail by (intros; by apply answers_quits; [apply quits_errExit|]).
  unfold ud_ucase_sv_main. apply wp_sys_bind. intros [sfd|e] _; [|by apply Hfail].
  change (SUN_PATH - 1 <? strlen UCASE_PATH) with false. cbv iota. apply wp_sys_bind. intros r _. set (h1 := Ev (Remove UCASE_PATH) r :: _).
  assert (wp terminated (b <- sys (Bind sfd (sockaddr_un UCASE_PATH) SIZEOF_SOCKADDR_UN) ;;
    match b with Ok _ => ucaseServe n sfd stack | Err e => errExit e ($"bind") end) (answers toupper n) h1) as Hgo.
  { apply wp_sys_bind. intros [[]|e] _; [|by apply Hfail]. eapply wp_mono; [|by apply wp_ucaseServe]. intros o h' [Ha Ho]. split; [done|].
    destruct Ho as [?|[-> Hl]]; auto. }
  destruct r as [u|e]; [exact Hgo|]. destruct (negb (e =? ENOENT)); [|exact Hgo]. apply wp_bind, wp_errExit_trace. intros o k Ho Hk.
  destruct Ho as [->|[->| ->]]; (split; [by apply answered_report|left; unfold stops_failing; auto]).
Qed.
End Datagrams.


(** ** Examples *)

(** The standard input holds "hello", the socket is 3. *)
Definition demo_relay_kernel : kernel := fun h X c =>
  match c in call X return X with
  | Socket _ _ _ => Ok 3
  | Connect _ _ _ => Ok tt
  | Read _ n => Ok (take (Z.to_nat n) (drop (length (fetched h)) ($"hello")))
  | Write _ d => Ok (strlen d)
  | Getpid => 7
  | Bind _ _ _ => Ok tt
  | Sendto _ d _ => Ok (strlen d)
  | Recvfrom _ n => match last (dgrams_out h) with
                    | Some (d, a) => Ok (take (Z.to_nat n) (map toupper (take 10 d)), a)
                    | None => Err EIO end
  | c => failing_kernel h _ c
  end.

Example xfr_demo :
  let '(o, h) := run demo_relay_kernel (us_xfr_cl_main (T := demo_text) 5) [] in
  o = Stop (Exit EXIT_SUCCESS) /\ output 3 h = $"hello".
Proof. vm_compute. done. Qed.

Example ucase_demo :
  let '(o, h) := run demo_relay_kernel (ud_ucase_cl_main (T := demo_text) [$"cl"; $"abc"; $"Long message"]) [] in
  o = Stop (Exit EXIT_SUCCESS) /\ said h = $"Response 1: ABC" ++ [NL] ++ $"Response 2: LONG MESSA" ++ [NL].
Proof. vm_compute. done. Qed.
