(* ===== verification/Pipes.v ===== *)
(** * pipes/: simple_pipe.c, change_case.c, pipe_sync.c

    After fork() the parent and the child of simple_pipe and change_case are two
    programs of calls that run side by side, connected by pipes: every call is a step,
    the steps interleave freely, every call may fail and each process may be killed at
    any time.  pipe_sync is a system of processes that share a pipe: every call is a
    step, the processes interleave freely and every call may fail. *)

From S2P Require Import Prelude Sys LibErrors GetNum StreamIO FileIO Scm Relay.

Definition SIMPLE_BUF_SIZE : Z := 10.
Definition CASE_BUF_SIZE : Z := 100.

Section Pipes.
Context {T : ErrText}.

(** ** simple_pipe.c *)

(** The child's loop: like [copyTo] but with its own tests. *)
Fixpoint pipeToStdout (fuel : nat) (fd : Z) : prog unit :=
  match fuel with
  | O => Halt OutOfFuel
  | S fuel =>
      r <- sys (Read fd SIMPLE_BUF_SIZE) ;;
      match r with
      | Err e => errExit e ($"read")
      | Ok [] => Ret tt
      | Ok buf =>
          w <- sys (Write STDOUT_FILENO buf) ;;
          if match w with Ok n => negb (n =? strlen buf) | Err _ => true end then fatal ($"child - partial/failed write")
          else pipeToStdout fuel fd
      end
  end.

Definition simple_pipe_child (fuel : nat) (pfd0 pfd1 : Z) : prog unit :=
  closeOrExit pfd1 ($"close - child") ;;;
  pipeToStdout fuel pfd0 ;;;
  sys (Write STDOUT_FILENO [NL]) ;;;
  closeOrExit pfd0 ($"close") ;;;
  Halt (Exit_ EXIT_SUCCESS).

Definition simple_pipe_parent (text : list ascii) (pfd0 pfd1 : Z) : prog unit :=
  closeOrExit pfd0 ($"close - parent") ;;;
  w <- sys (Write pfd1 text) ;;
  if match w with Ok n => negb (n =? strlen text) | Err _ => true end
  then fatal ($"parent - partial/failed write")
  else
    closeOrExit pfd1 ($"close") ;;;
    sys (Waitpid (-1) 0) ;;;
    Halt (Exit EXIT_SUCCESS).

Definition simple_pipe_main (fuel : nat) (argv : list (list ascii)) : prog unit :=
  if negb (length argv =? 2)%nat || is_help argv then usageErr (argv_nth argv 0 ++ $" string" ++ [NL])
  else
    p <- sys Pipe ;;
    match p with
    | Err e => errExit e ($"pipe")
    | Ok (pfd0, pfd1) =>
        f <- sys Fork ;;
        match f with
        | Err e => errExit e ($"fork")
        | Ok pid => if pid =? 0 then simple_pipe_child fuel pfd0 pfd1 else simple_pipe_parent (argv_nth argv 1) pfd0 pfd1
        end
    end.

(** ** change_case.c *)

Fixpoint caseLoop (fuel : nat) (outbound1 inbound0 : Z) : prog unit :=
  match fuel with
  | O => Halt OutOfFuel
  | S fuel =>
      r <- sys (Read STDIN_FILENO CASE_BUF_SIZE) ;;
      match r with
      | Err e => errExit e ($"read")
      | Ok [] => Ret tt
      | Ok buf =>
          w <- sys (Write outbound1 buf) ;;
          if match w with Ok n => negb (n =? strlen buf) | Err _ => true end then fatal ($"failed/partial write(): outbound pipe")
          else
            r <- sys (Read inbound0 CASE_BUF_SIZE) ;;
            match r with
            | Err e => errExit e ($"read")
            | Ok [] => caseLoop fuel outbound1 inbound0
            | Ok buf =>
                w <- sys (Write STDOUT_FILENO buf) ;;
                if match w with Ok n => negb (n =? strlen buf) | Err _ => true end then fatal ($"failed/partial write(): STDOUT_FILENO")
                else caseLoop fuel outbound1 inbound0
            end
      end
  end.

(** The child reads from [outbound0] and writes to [inbound1]. *)
Definition change_case_child (fuel : nat) (outbound0 outbound1 inbound0 inbound1 : Z) : prog unit :=
  closeOrExit outbound1 ($"close") ;;;
  closeOrExit inbound0 ($"close") ;;;
  copyTo fuel outbound0 inbound1 CASE_BUF_SIZE toupper
    (fun _ => fatal ($"failed/partial write(): inbound pipe")) (fun e => errExit e ($"read")) ;;;
  Halt (Exit_ EXIT_SUCCESS).

Definition change_case_parent (fuel : nat) (outbound0 outbound1 inbound0 inbound1 : Z) : prog unit :=
  closeOrExit outbound0 ($"close") ;;;
  closeOrExit inbound1 ($"close") ;;;
  caseLoop fuel outbound1 inbound0 ;;;
  Halt (Exit EXIT_SUCCESS).

Definition change_case_main (fuel : nat) : prog unit :=
  p <- sys Pipe ;;
  match p with
  | Err e => errExit e ($"pipe")
  | Ok (outbound0, outbound1) =>
      q <- sys Pipe ;;
      match q with
      | Err e => errExit e ($"pipe")
      | Ok (inbound0, inbound1) =>
          f <- sys Fork ;;
          match f with
          | Err e => errExit e ($"fork")
          | Ok pid => (if pid =? 0 then change_case_child else change_case_parent) fuel outbound0 outbound1 inbound0 inbound1
          end
      end
  end.
End Pipes.

(** ** pipe_sync.c *)

(** A child: closing the read end, the work, closing the write end, the end. *)
Inductive sync_cpc := CCloseR | CWork | CCloseW | CExit.

#[export] Instance cpc_eq_dec : EqDecision sync_cpc.
Proof. solve_decision. Defined.

(** The parent: [PFork j] creates the child for argument [j]; its copy of the
    write end is open until [PRead]. *)
Inductive sync_ppc := PFork (j : nat) | PCloseW | PRead | PReady | PFailed.

Record psync := Psync { parent : sync_ppc; children : list sync_cpc; nargs : nat }.

Definition sync_init (n : nat) : psync := Psync (PFork 0) [] n.

(** A child has the write end open until it has closed it or exited. *)
Definition child_writes (c : sync_cpc) : bool := match c with CExit => false | _ => true end.
Definition parent_writes (s : psync) : bool := match parent s with PFork _ | PCloseW => true | _ => false end.

(** end-of-file: no process has the write end open. *)
Definition eof (s : psync) : bool := negb (parent_writes s) && negb (existsb child_writes (children s)).

Definition child_next (c : sync_cpc) : option sync_cpc :=
  match c with CCloseR => Some CWork | CWork => Some CCloseW | CCloseW => Some CExit | CExit => None end.

Definition set_child (i : nat) (c : sync_cpc) (s : psync) : psync := Psync (parent s) (<[i := c]> (children s)) (nargs s).
Definition set_parent (p : sync_ppc) (s : psync) : psync := Psync p (children s) (nargs s).

Definition child_step (i : nat) (s : psync) : option psync :=
  match children s !! i with
  | None => None
  | Some c => match child_next c with None => None | Some c' => Some (set_child i c' s) end
  end.

Definition parent_step (s : psync) : option psync :=
  match parent s with
  | PFork j =>
      if (j <? nargs s)%nat then Some (Psync (PFork (S j)) (children s ++ [CCloseR]) (nargs s))
      else Some (set_parent PCloseW s)
  | PCloseW => Some (set_parent PRead s)
  (* read() blocks until end-of-file: nothing is ever written *)
  | PRead => if eof s then Some (set_parent PReady s) else None
  | PReady | PFailed => None
  end.

(** A call fails: a child exits (a bad sleep time included), the parent exits. *)
Inductive sync_step (s : psync) : psync -> Prop :=
| sync_child i s' : child_step i s = Some s' -> sync_step s s'
| sync_parent s' : parent_step s = Some s' -> sync_step s s'
| sync_child_fails i c : children s !! i = Some c -> sync_step s (set_child i CExit s)
| sync_parent_fails : parent s <> PReady -> sync_step s (set_parent PFailed s).

Definition sync_goes (s s' : psync) : Prop := (exists i, child_step i s = Some s') \/ parent_step s = Some s'.

(** ** Two processes connected by pipes

    A pipe is named by its two ends, a pair of a read end and a write end. *)
Fixpoint write_end (l : list (Z * Z)) (fd : Z) : option Z :=
  match l with [] => None | (r, w) :: l => if r =? fd then Some w else write_end l fd end.
Fixpoint read_end (l : list (Z * Z)) (fd : Z) : option Z :=
  match l with [] => None | (r, w) :: l => if w =? fd then Some r else read_end l fd end.

(** A process: what it has still to do, and its open pipe ends; a process that has ended
    has none. *)
Record runner := Process { prg : prog unit; kept : gset Z }.
Definition ended (p : runner) : bool := match prg p with Sys _ _ => false | _ => true end.
Definition holds (p : runner) : gset Z := if ended p then ∅ else kept p.

(** What the pipes hold (by their read ends), what was read from the standard input, what
    was written to the standard output, whether a read found the end of the standard
    input, and whether something went wrong: a call failed, a write was partial, or a process
    was killed. *)
Record shared := Shared { data : Z -> list ascii; given : list ascii; shown : list ascii; input_over : bool; wrong : bool }.
Definition fill (fd : Z) (b : list ascii) (s : shared) : shared :=
  Shared (fun x => if x =? fd then b else data s x) (given s) (shown s) (input_over s) (wrong s).
Definition note (b : bool) (s : shared) : shared := if b then Shared (data s) (given s) (shown s) (input_over s) true else s.

Section Duo.
Context (pipes : list (Z * Z)).

(** pipe(7), read(2), write(2), waitpid(2): a read from a pipe takes what is there, up to
    the size asked for; it finds the end of the file when the pipe is empty and no process
    has the write end open, and does not return before there is data or the end of the file
    (unless it fails); a write may be partial and needs a reader; waitpid() returns
    when the other process has ended. *)
Definition may_reply {X} (p q : runner) (s : shared) (c : call X) : X -> Prop :=
  match c in call X return X -> Prop with
  | Read fd n => fun r =>
      match r with
      | Err _ => True
      | Ok d => match write_end pipes fd with
                | Some w => fd ∈ holds p /\
                    (data s fd <> [] /\ d = take (Z.to_nat n) (data s fd) \/ data s fd = [] /\ d = [] /\ w ∉ holds p /\ w ∉ holds q)
                | None => Z.of_nat (length d) <= n
                end
      end
  | Write fd d => fun r =>
      match r with
      | Err _ => True
      | Ok k => 0 <= k <= strlen d /\
                match read_end pipes fd with Some rd => fd ∈ holds p /\ (rd ∈ holds p \/ rd ∈ holds q) | None => True end
      end
  | Waitpid _ _ => fun r => match r with Err _ => True | Ok _ => ended q = true end
  | _ => fun _ => True
  end.

Definition changes {X} (s : shared) (c : call X) : X -> shared :=
  match c in call X return X -> shared with
  | Read fd n => fun r =>
      match r with
      | Err _ => s
      | Ok d => match write_end pipes fd with
                | Some _ => fill fd (drop (length d) (data s fd)) s
                | None => if fd =? STDIN_FILENO then Shared (data s) (given s ++ d) (shown s) (input_over s || (length d =? 0)%nat) (wrong s) else s
                end
      end
  | Write fd d => fun r =>
      match r with
      | Err _ => s
      | Ok k => match read_end pipes fd with
                | Some rd => fill rd (data s rd ++ take (Z.to_nat k) d) s
                | None => if fd =? STDOUT_FILENO then Shared (data s) (given s) (shown s ++ take (Z.to_nat k) d) (input_over s) (wrong s) else s
                end
      end
  | _ => fun _ => s
  end.

Definition fails {X} (c : call X) : X -> bool :=
  match c in call X return X -> bool with
  | Read _ _ => fun r => match r with Err _ => true | Ok _ => false end
  | Write _ d => fun r => match r with Err _ => true | Ok k => negb (k =? strlen d) end
  | Close _ => fun r => match r with Err _ => true | Ok _ => false end
  | Waitpid _ _ => fun r => match r with Err _ => true | Ok _ => false end
  | _ => fun _ => false
  end.

Definition keeps {X} (fds : gset Z) (c : call X) : X -> gset Z :=
  match c in call X return X -> gset Z with
  | Close fd => fun r => match r with Ok _ => fds ∖ {[fd]} | Err _ => fds end
  | _ => fun _ => fds
  end.

(** One call of [p]; the other process is [q]. *)
Definition goes (q : runner) (s : shared) (p p' : runner) (s' : shared) : Prop :=
  match prg p with
  | Sys c k => exists r, may_reply p q s c r /\ p' = Process (k r) (keeps (kept p) c r) /\ s' = note (fails c r) (changes s c r)
  | _ => False
  end.

Record duo := Duo { par : runner; chl : runner; world : shared }.

Inductive duo_step : duo -> duo -> Prop :=
| ParentGoes p c s p' s' : goes c s p p' s' -> duo_step (Duo p c s) (Duo p' c s')
| ChildGoes p c s c' s' : goes p s c c' s' -> duo_step (Duo p c s) (Duo p c' s')
| ParentKilled p c s : ended p = false -> duo_step (Duo p c s) (Duo (Process (Halt Aborted) ∅) c (note true s))
| ChildKilled p c s : ended c = false -> duo_step (Duo p c s) (Duo p (Process (Halt Aborted) ∅) (note true s)).

(** A process waits for data in an empty pipe whose write end is open, perhaps for room in
    a pipe that is not empty and that the other process can read, or for the end of the
    other process. *)
Definition blocked (p q : runner) (s : shared) : Prop :=
  match prg p with
  | Sys (Read fd _) _ => match write_end pipes fd with Some w => data s fd = [] /\ (w ∈ holds p \/ w ∈ holds q) | None => False end
  | Sys (Write fd _) _ => match read_end pipes fd with Some rd => data s rd <> [] /\ rd ∈ holds q | None => False end
  | Sys (Waitpid _ _) _ => ended q = false
  | _ => False
  end.

(** As long as a process has not ended, some process can go on. *)
Definition can_go (x : duo) : Prop :=
  ended (par x) = false \/ ended (chl x) = false ->
  ended (par x) = false /\ ~ blocked (par x) (chl x) (world x) \/ ended (chl x) = false /\ ~ blocked (chl x) (par x) (world x).

(** Every run is finite: a program is consumed by its calls. *)
Abbreviation finite := (Acc (fun y z => duo_step z y)).

Lemma goes_ended q s p p' s' : ended p = true -> ~ goes q s p p' s'.
Proof. unfold ended, goes. destruct (prg p); [by intros _ []..|done]. Qed.

Lemma finite_both p c s : ended p = true -> ended c = true -> finite (Duo p c s).
Proof.
  intros Hp Hc. constructor. intros y Hs. inversion Hs as [? ? ? ? ? Hg|? ? ? ? ? Hg|? ? ? He|? ? ? He]; subst; try congruence;
    by apply goes_ended in Hg.
Qed.

Lemma finite_parent_ended p c fc s : ended p = true -> finite (Duo p (Process c fc) s).
Proof.
  intros Hp. revert fc s. induction c as [a|h|X b k IH]; intros fc s; [by apply finite_both..|].
  constructor. intros y Hs. inversion Hs as [? ? ? ? ? Hg|? ? ? ? ? Hg|? ? ? He|? ? ? He]; subst; try congruence.
  - by apply goes_ended in Hg.
  - destruct Hg as (r & _ & -> & ->). apply IH.
  - by apply finite_both.
Qed.

Lemma finite_child_ended p fp c s : ended c = true -> finite (Duo (Process p fp) c s).
Proof.
  intros Hc. revert fp s. induction p as [a|h|X b k IH]; intros fp s; [by apply finite_both..|].
  constructor. intros y Hs. inversion Hs as [? ? ? ? ? Hg|? ? ? ? ? Hg|? ? ? He|? ? ? He]; subst; try congruence.
  - destruct Hg as (r & _ & -> & ->). apply IH.
  - by apply goes_ended in Hg.
  - by apply finite_both.
Qed.

Lemma duo_terminates x : finite x.
Proof.
  destruct x as [[p fp] [c fc] s]. revert c fp fc s. induction p as [a|h|X b k IHp]; [intros; by apply finite_parent_ended..|].
  intros c. induction c as [a'|h'|Y b' k' IHc]; intros fp fc s; [by apply finite_child_ended..|].
  constructor. intros y Hs. inversion Hs as [? ? ? ? ? Hg|? ? ? ? ? Hg|? ? ? He|? ? ? He]; subst.
  - destruct Hg as (r & _ & -> & ->). apply IHp.
  - destruct Hg as (r & _ & -> & ->). apply IHc.
  - by apply finite_parent_ended.
  - by apply finite_child_ended.
Qed.

(** A process that only reports its failure changes nothing that is shared. *)
Lemma dead_goes q s p p' s' : dead (prg p) -> goes q s p p' s' -> dead (prg p') /\ kept p' = kept p /\ s' = s.
Proof.
  unfold goes. destruct p as [[a|h|X c k] fds]; try done. intros [Hc Hk] (r & _ & -> & ->). cbn in *.
  by destruct c.
Qed.

Lemma dead_halt (p : prog unit) h : dead p -> p = Halt h -> h <> Exit EXIT_SUCCESS /\ h <> Exit_ EXIT_SUCCESS /\ h <> OutOfFuel.
Proof. by intros Hd ->; destruct Hd as [->|[->| ->]]. Qed.

Lemma dead_not_blocked p q s : dead (prg p) -> ~ blocked p q s.
Proof. unfold blocked. destruct (prg p) as [a|h|X c k]; [by intros _ []..|]. intros [Hc _]. destruct c; try done; by intros []. Qed.
End Duo.

Lemma drop_take_length {A} (n : nat) (l : list A) : drop (length (take n l)) l = drop n l.
Proof. rewrite length_take. destruct (Nat.le_ge_cases n (length l)); [by rewrite Nat.min_l|]. rewrite Nat.min_r by done. by rewrite !drop_ge. Qed.

Lemma prefix_here (a b c : list ascii) : a ++ b = c -> a `prefix_of` c.
Proof. intros <-. by exists b. Qed.

(** ** simple_pipe *)

Section SimplePipe.
Context {T : ErrText} (fuel : nat) (text : list ascii) (p0 p1 : Z).
Context (Hdistinct : NoDup [STDOUT_FILENO; p0; p1]).

Definition simple_ends : list (Z * Z) := [(p0, p1)].

(** After fork(): both processes have both ends open, the pipe is empty. *)
Definition simple_start : duo :=
  Duo (Process (simple_pipe_parent text p0 p1) {[p0; p1]}) (Process (simple_pipe_child fuel p0 p1) {[p0; p1]})
    (Shared (fun _ => []) [] [] false false).

Abbreviation stepS := (duo_step simple_ends).
Abbreviation goesS := (goes simple_ends).

Lemma simple_facts :
  write_end simple_ends p0 = Some p1 /\ read_end simple_ends p1 = Some p0 /\ read_end simple_ends STDOUT_FILENO = None /\
  p1 ∈ ({[p0; p1]} : gset Z) /\ p1 ∈ ({[p0; p1]} ∖ {[p0]} : gset Z).
Proof.
  pose proof Hdistinct as H. repeat (apply NoDup_cons in H as [?H H]). unfold write_end, read_end, simple_ends.
  split_and!; [..|set_solver|set_solver]; repeat match goal with |- context [?a =? ?b] => destruct (Z.eqb_spec a b) end; try done; exfalso; subst; set_solver.
Qed.

(** Where the parent is. *)
Inductive qstage := QClose0 | QWrite | QClose1 | QWait | QEnd | QDead.

Definition qrest : prog unit := closeOrExit p1 ($"close") ;;; sys (Waitpid (-1) 0) ;;; Halt (Exit EXIT_SUCCESS).
Definition qwrite : prog unit :=
  w <- sys (Write p1 text) ;;
  if match w with Ok n => negb (n =? strlen text) | Err _ => true end then fatal ($"parent - partial/failed write") else qrest.

Definition qat (x : qstage) (p : runner) : Prop :=
  match x with
  | QClose0 => p = Process (simple_pipe_parent text p0 p1) {[p0; p1]}
  | QWrite => p = Process qwrite ({[p0; p1]} ∖ {[p0]})
  | QClose1 => p = Process qrest ({[p0; p1]} ∖ {[p0]})
  | QWait => p = Process (sys (Waitpid (-1) 0) ;;; Halt (Exit EXIT_SUCCESS)) ({[p0; p1]} ∖ {[p0]} ∖ {[p1]})
  | QEnd => prg p = Halt (Exit EXIT_SUCCESS)
  | QDead => dead (prg p)
  end.

(** What a call of the parent can do; [q] is the child. *)
Inductive qtrans (q : runner) (s : shared) : qstage -> qstage -> shared -> Prop :=
| qt_close0 : qtrans q s QClose0 QWrite s
| qt_write : qtrans q s QWrite QClose1 (fill p0 (data s p0 ++ text) s)
| qt_part k : qtrans q s QWrite QDead (note true (fill p0 (data s p0 ++ take k text) s))
| qt_close1 : qtrans q s QClose1 QWait s
| qt_waited : ended q = true -> qtrans q s QWait QEnd s
| qt_unwaited : qtrans q s QWait QEnd (note true s)
| qt_fails x : qtrans q s x QDead (note true s)
| qt_dead : qtrans q s QDead QDead s.

Lemma simple_parent_goes q s x p p' s' :
  qat x p -> goesS q s p p' s' -> exists x', qat x' p' /\ qtrans q s x x' s'.
Proof.
  destruct simple_facts as (We & Re & Ro & _).
  assert (forall p' s', dead (prg p') -> s' = note true s -> exists x', qat x' p' /\ qtrans q s x x' s') as Hdead.
  { intros p1' s1 Hd ->. exists QDead. split; [done|apply qt_fails]. }
  intros Hat Hg. destruct x; cbn [qat] in Hat.
  - subst p. destruct Hg as ([[]|e] & _ & -> & ->); [|by apply Hdead; [apply dead_bind, dead_errExit|]]. exists QWrite. split; [done|constructor].
  - subst p. destruct Hg as (w & Hr & -> & ->). cbn [changes fails].
    destruct (match w with Ok n => negb (n =? strlen text) | Err _ => true end) eqn:Hw.
    + exists QDead. split; [cbn; rewrite Hw; apply dead_fatal|]. destruct w as [k|e]; [rewrite Re; apply qt_part|apply qt_fails].
    + exists QClose1. split; [cbn; by rewrite Hw|]. destruct w as [n|e]; [|done]. apply negb_false_iff, Z.eqb_eq in Hw as ->. rewrite Re.
      unfold strlen. rewrite Nat2Z.id, take_ge by done. constructor.
  - subst p. destruct Hg as ([[]|e] & _ & -> & ->); [|by apply Hdead; [apply dead_bind, dead_errExit|]]. exists QWait. split; [done|constructor].
  - subst p. destruct Hg as (r & Hr & -> & ->). exists QEnd. split; [done|]. destruct r; [by constructor|apply qt_unwaited].
  - exfalso. unfold goes in Hg. by rewrite Hat in Hg.
  - destruct (dead_goes _ _ _ _ _ _ Hat Hg) as (Hd & _ & ->). exists QDead. split; [done|constructor].
Qed.

(** Where the child is. *)
Inductive dstage := DClose | DLoop (f : nat) | DShow (f : nat) (b : list ascii) | DNewline | DClose0 | DEnd | DDead.

Definition drest : prog unit := closeOrExit p0 ($"close") ;;; Halt (Exit_ EXIT_SUCCESS).
Definition dtail : prog unit := sys (Write STDOUT_FILENO [NL]) ;;; drest.
Definition dshow (f : nat) (b : list ascii) : prog unit :=
  w <- sys (Write STDOUT_FILENO b) ;;
  if match w with Ok n => negb (n =? strlen b) | Err _ => true end then fatal ($"child - partial/failed write") else pipeToStdout f p0.

Definition dat (y : dstage) (p : runner) : Prop :=
  match y with
  | DClose => p = Process (simple_pipe_child fuel p0 p1) {[p0; p1]}
  | DLoop f => p = Process (pipeToStdout f p0 ;;; dtail) ({[p0; p1]} ∖ {[p1]})
  | DShow f b => p = Process (dshow f b ;;; dtail) ({[p0; p1]} ∖ {[p1]}) /\ b <> []
  | DNewline => p = Process dtail ({[p0; p1]} ∖ {[p1]})
  | DClose0 => p = Process drest ({[p0; p1]} ∖ {[p1]})
  | DEnd => prg p = Halt (Exit_ EXIT_SUCCESS)
  | DDead => dead (prg p)
  end.

(** What a call of the child can do; [q] is the parent. *)
Inductive dtrans (q : runner) (s : shared) : dstage -> dstage -> shared -> Prop :=
| dt_close : dtrans q s DClose (DLoop fuel) s
| dt_read f : data s p0 <> [] -> dtrans q s (DLoop (S f)) (DShow f (take 10 (data s p0))) (fill p0 (drop 10 (data s p0)) s)
| dt_eof f : data s p0 = [] -> p1 ∉ holds q -> dtrans q s (DLoop (S f)) DNewline (fill p0 [] s)
| dt_shown f b : dtrans q s (DShow f b) (DLoop f) (Shared (data s) (given s) (shown s ++ b) (input_over s) (wrong s))
| dt_part f b k : dtrans q s (DShow f b) DDead (note true (Shared (data s) (given s) (shown s ++ take k b) (input_over s) (wrong s)))
| dt_newline : dtrans q s DNewline DClose0 (Shared (data s) (given s) (shown s ++ [NL]) (input_over s) (wrong s))
| dt_nonl : dtrans q s DNewline DClose0 (note true s)
| dt_close0 : dtrans q s DClose0 DEnd s
| dt_fails y : dtrans q s y DDead (note true s)
| dt_dead : dtrans q s DDead DDead s.

Lemma simple_child_goes q s y p p' s' :
  dat y p -> goesS q s p p' s' -> exists y', dat y' p' /\ dtrans q s y y' s'.
Proof.
  destruct simple_facts as (We & Re & Ro & _).
  assert (forall p' s', dead (prg p') -> s' = note true s -> exists y', dat y' p' /\ dtrans q s y y' s') as Hdead.
  { intros p1' s1 Hd ->. exists DDead. split; [done|apply dt_fails]. }
  intros Hat Hg. destruct y as [|[|f]|f b| | | |]; cbn [dat] in Hat.
  - subst p. destruct Hg as ([[]|e] & _ & -> & ->); [|by apply Hdead; [apply dead_bind, dead_errExit|]]. exists (DLoop fuel). split; [done|constructor].
  - by subst p.
  - subst p. destruct Hg as ([b|e] & Hr & -> & ->); [|by apply Hdead; [apply dead_bind, dead_errExit|]]. cbn [may_reply] in Hr. rewrite We in Hr. cbn [changes fails]. rewrite We.
    destruct Hr as (_ & [[Hne ->]|(He & -> & _ & Hq)]).
    + change (Z.to_nat SIMPLE_BUF_SIZE) with 10%nat. exists (DShow f (take 10 (data s p0))). destruct (take 10 (data s p0)) as [|a d] eqn:Hd.
      { by destruct (data s p0). }
      split; [done|]. rewrite <- Hd, drop_take_length. by constructor.
    + exists DNewline. split; [done|]. rewrite He. by constructor.
  - destruct Hat as (-> & Hb). destruct Hg as (w & Hr & -> & ->). cbn [changes fails].
    destruct (match w with Ok n => negb (n =? strlen b) | Err _ => true end) eqn:Hw.
    + exists DDead. split; [cbn; rewrite Hw; apply dead_bind, dead_fatal|]. destruct w as [k|e]; [rewrite Ro; apply dt_part|apply dt_fails].
    + exists (DLoop f). split; [cbn; by rewrite Hw|]. destruct w as [n|e]; [|done]. apply negb_false_iff, Z.eqb_eq in Hw as ->. rewrite Ro, Z.eqb_refl.
      unfold strlen. rewrite Nat2Z.id, take_ge by done. constructor.
  - subst p. destruct Hg as (w & Hr & -> & ->). exists DClose0. split; [by destruct w|]. destruct w as [k|e]; [|apply dt_nonl].
    cbn [changes fails]. rewrite Ro, Z.eqb_refl. destruct Hr as [Hk _]. change (strlen [NL]) with 1 in Hk. assert (k = 0 \/ k = 1) as [->| ->] by lia; cbn.
    + rewrite app_nil_r. destruct s. apply dt_nonl.
    + constructor.
  - subst p. destruct Hg as ([[]|e] & _ & -> & ->); [|by apply Hdead; [apply dead_bind, dead_errExit|]]. exists DEnd. split; [done|constructor].
  - exfalso. unfold goes in Hg. by rewrite Hat in Hg.
  - destruct (dead_goes _ _ _ _ _ _ Hat Hg) as (Hd & _ & ->). exists DDead. split; [done|constructor].
Qed.

(** *** The invariant *)

Definition unwritten (x : qstage) : bool := match x with QClose0 | QWrite => true | _ => false end.
Definition left_d (y : dstage) : option nat :=
  match y with DClose => Some fuel | DLoop f | DShow f _ => Some f | _ => None end.

(** [sent]: what the parent has written to the pipe. *)
Record simple_inv (x : qstage) (y : dstage) (c : runner) (s : shared) (sent : list ascii) : Prop := {
  sp_prefix : sent `prefix_of` text;
  sp_none : unwritten x = true -> sent = [];
  sp_all : unwritten x = false -> x = QDead \/ sent = text;
  sp_bytes : match y with
             | DClose | DLoop _ => shown s ++ data s p0 = sent
             | DShow _ b => shown s ++ b ++ data s p0 = sent
             | DNewline => shown s = sent /\ unwritten x = false
             | DClose0 | DEnd => unwritten x = false /\ (shown s = sent ++ [NL] \/ shown s = sent /\ wrong s = true)
             | DDead => shown s `prefix_of` sent \/ unwritten x = false /\ shown s = sent ++ [NL]
             end;
  sp_right : wrong s = false -> x <> QDead /\ y <> DDead;
  sp_waited : x = QEnd -> ended c = true \/ wrong s = true;
  sp_fuel : forall f, left_d y = Some f -> (fuel + length (data s p0) <= f + length sent)%nat
}.

Lemma written_bytes y q s sent t :
  simple_inv QWrite y q s sent ->
  match y with
  | DClose | DLoop _ => shown s ++ data s p0 ++ t = t
  | DShow _ b => shown s ++ b ++ data s p0 ++ t = t
  | DDead => shown s `prefix_of` t
  | _ => False
  end /\ forall f, left_d y = Some f -> (fuel + length (data s p0 ++ t) <= f + length t)%nat.
Proof.
  intros [H1 H2 H3 H4 H5 H6 H7]. specialize (H2 eq_refl) as ->. split.
  - destruct y as [|f|f b| | | |].
    1-2: by rewrite app_assoc, H4.
    + by rewrite (app_assoc b), app_assoc, H4.
    + by destruct H4 as [_ H4].
    + by destruct H4 as [H4 _].
    + by destruct H4 as [H4 _].
    + destruct H4 as [H4|[H4 _]]; [|done]. apply prefix_nil_inv in H4 as ->. apply prefix_nil.
  - intros f Hf. specialize (H7 f Hf). cbn in H7. rewrite length_app. lia.
Qed.

Lemma simple_parent_inv q s x x' y s' sent :
  simple_inv x y q s sent -> qtrans q s x x' s' -> exists sent', simple_inv x' y q s' sent'.
Proof.
  intros Hi Ht. destruct Ht as [| |k| |He| |x|].
  2: { exists text. destruct (written_bytes _ _ _ _ text Hi) as [Hb Hf]. destruct Hi as [H1 H2 H3 H4 H5 H6 H7].
    split; cbn [fill shown data wrong]; rewrite ?Z.eqb_refl; first [done|by auto|by intros Hr; destruct (H5 Hr)|idtac]. destruct y; auto; by destruct Hb. }
  2: { exists (take k text). destruct (written_bytes _ _ _ _ (take k text) Hi) as [Hb Hf]. destruct Hi as [H1 H2 H3 H4 H5 H6 H7].
    split; cbn [note fill shown data wrong]; rewrite ?Z.eqb_refl; first [done|by auto|by exists (drop k text); rewrite take_drop|idtac]. destruct y; auto; by destruct Hb. }
  all: exists sent; destruct Hi as [H1 H2 H3 H4 H5 H6 H7]; cbn [note] in *.
  all: split; cbn [unwritten shown data wrong] in *; first [done|by auto|by intros Hr; destruct (H5 Hr)|by intros _; destruct (H3 eq_refl); auto|idtac].
  all: destruct y; try done; intuition auto.
Qed.

Lemma parent_closed x p : qat x p -> p1 ∉ holds p -> unwritten x = false.
Proof.
  destruct simple_facts as (_ & _ & _ & H1 & H2). intros Hat Hn. destruct x; cbn [qat] in Hat; auto; by subst.
Qed.

Lemma simple_child_inv q s x y c c' y' s' sent :
  simple_inv x y c s sent -> qat x q -> ended c = false -> dtrans q s y y' s' -> simple_inv x y' c' s' sent.
Proof.
  intros [H1 H2 H3 H4 H5 H6 H7] Hat He Ht.
  assert (x = QEnd -> ended c' = true \/ wrong s = true) as H6' by (intros Hx; destruct (H6 Hx); [congruence|auto]). clear H6.
  destruct Ht as [|f Hne|f Hd Hq|f b|f b k| | | |y|].
  all: split; cbn [fill note shown data wrong left_d] in *; rewrite ?Z.eqb_refl; first [done|by auto|by intros Hr; destruct (H5 Hr)|by intros ? [= <-]; auto|idtac].
  - by rewrite take_drop.
  - intros ? [= <-]. specialize (H7 _ eq_refl). assert (length (data s p0) <> 0)%nat by (by destruct (data s p0)). rewrite length_drop. lia.
  - rewrite Hd, app_nil_r in H4. split; [done|by eapply parent_closed].
  - by rewrite <- app_assoc.
  - left. rewrite <- H4. exists (drop k b ++ data s p0). by rewrite <- app_assoc, (app_assoc (take k b)), take_drop.
  - destruct H4 as [-> ?]. auto.
  - destruct H4 as [-> ?]. auto.
  - destruct y; try (by left; rewrite <- H4; eexists); try (by auto); try (by destruct H4 as [-> _]; left); destruct H4 as [? [->|[-> _]]]; auto.
Qed.

Lemma simple_reach z : rtc stepS simple_start z -> exists x y sent, qat x (par z) /\ dat y (chl z) /\ simple_inv x y (chl z) (world z) sent.
Proof.
  intros Hr. refine (rtc_ind_r (fun z => exists x y sent, qat x (par z) /\ dat y (chl z) /\ simple_inv x y (chl z) (world z) sent) _ _ _ z Hr).
  - exists QClose0, DClose, []. split_and!; [done..|]. split; try done; [apply prefix_nil|]. intros f [= <-]. cbn. lia.
  - intros z1 z2 _ Hs (x & y & sent & Hx & Hy & Hi). destruct Hs as [p c s p' s' Hg|p c s c' s' Hg|p c s He|p c s He]; cbn [par chl world] in *.
    + destruct (simple_parent_goes _ _ _ _ _ _ Hx Hg) as (x' & Hx' & Ht). destruct (simple_parent_inv _ _ _ _ _ _ _ Hi Ht) as [sent' Hi']. by exists x', y, sent'.
    + destruct (simple_child_goes _ _ _ _ _ _ Hy Hg) as (y' & Hy' & Ht). exists x, y', sent. split_and!; [done..|]. eapply simple_child_inv; [done..| |done].
      destruct (ended c) eqn:He; [by apply goes_ended in Hg|done].
    + destruct (simple_parent_inv _ _ _ _ _ _ _ Hi (qt_fails _ _ x)) as [sent' Hi']. exists QDead, y, sent'. split_and!; [by left|done..].
    + exists x, DDead, sent. split_and!; [done|by left|]. eapply simple_child_inv; [done..|apply dt_fails].
Qed.

(** When a process cannot be blocked. *)
Lemma simple_parent_free x p q s :
  qat x p -> match x with QWrite => data s p0 = [] \/ ended q = true | QWait => ended q = true | _ => True end -> ~ blocked simple_ends p q s.
Proof.
  destruct simple_facts as (We & Re & Ro & _). intros Hat Hfree. destruct x; cbn [qat] in Hat; try (by apply dead_not_blocked); unfold blocked.
  - subst. cbn. by intros [].
  - subst. cbn -[read_end]. rewrite Re. intros [Hne Hq]. destruct Hfree as [?|He]; [done|]. unfold holds in Hq. rewrite He in Hq. set_solver.
  - subst. cbn. by intros [].
  - subst. cbn. congruence.
  - rewrite Hat. by intros [].
Qed.

Lemma simple_child_free y p q s :
  dat y p -> match y with DLoop _ => data s p0 <> [] \/ p1 ∉ holds q | _ => True end -> ~ blocked simple_ends p q s.
Proof.
  destruct simple_facts as (We & Re & Ro & _). intros Hat Hfree. destruct y as [|[|f]|f b| | | |]; cbn [dat] in Hat; try (by apply dead_not_blocked); unfold blocked.
  1-2: subst; cbn; by intros [].
  - subst. cbn -[write_end]. rewrite We. intros [He [Hp|Hq]]; [set_solver|]. by destruct Hfree.
  - destruct Hat as [-> _]. cbn -[read_end]. rewrite Ro. by intros [].
  - subst. cbn -[read_end]. rewrite Ro. by intros [].
  - subst. cbn. by intros [].
  - rewrite Hat. by intros [].
Qed.

Lemma simple_can_go z : rtc stepS simple_start z -> can_go simple_ends z.
Proof.
  intros Hr Hrun. destruct (simple_reach _ Hr) as (x & y & sent & Hx & Hy & Hi).
  assert (p1 ∉ holds (par z) -> ended (chl z) = false -> ended (chl z) = false /\ ~ blocked simple_ends (chl z) (par z) (world z)) as Hchild.
  { intros Hn He. split; [done|]. eapply simple_child_free; [done|]. destruct y; auto. }
  destruct (ended (par z)) eqn:Hep.
  { right. destruct Hrun as [?|Hec]; [done|]. apply Hchild; [|done]. unfold holds. rewrite Hep. set_solver. }
  destruct (ended (chl z)) eqn:Hec.
  { left. split; [done|]. eapply simple_parent_free; [done|]. destruct x; auto. }
  destruct x; try (left; split; [done|]; by eapply simple_parent_free).
  - destruct (written_bytes _ _ _ _ [] Hi) as [Hb _].
    assert (data (world z) p0 = [] \/ y = DDead) as [Hd| ->].
    { destruct y; auto; left; rewrite ?app_nil_r in Hb; repeat apply app_eq_nil in Hb as [? Hb]; done. }
    + left. split; [done|]. eapply simple_parent_free; [done|]. by left.
    + right. split; [done|]. by eapply simple_child_free.
  - right. apply Hchild; [|done]. cbn in Hx. rewrite Hx. cbn. set_solver.
Qed.

(** What the programs promise, in every reachable state: [sent] is what the parent has
    written. *)
Definition simple_promise (z : duo) : Prop :=
  exists sent, sent `prefix_of` text /\ shown (world z) `prefix_of` (sent ++ [NL]) /\
    (prg (chl z) = Halt (Exit_ EXIT_SUCCESS) -> (sent = text \/ dead (prg (par z))) /\
       (shown (world z) = sent ++ [NL] \/ shown (world z) = sent /\ wrong (world z) = true)) /\
    (prg (par z) = Halt (Exit EXIT_SUCCESS) -> sent = text /\ (ended (chl z) = true \/ wrong (world z) = true)) /\
    (ended (par z) = true -> prg (par z) = Halt (Exit EXIT_SUCCESS) \/ wrong (world z) = true) /\
    (ended (chl z) = true -> prg (chl z) = Halt (Exit_ EXIT_SUCCESS) \/ prg (chl z) = Halt OutOfFuel \/ wrong (world z) = true) /\
    (prg (chl z) = Halt OutOfFuel -> (fuel <= length text)%nat).

Lemma simple_keeps_promise z : rtc stepS simple_start z -> simple_promise z.
Proof.
  intros Hr. destruct (simple_reach _ Hr) as (x & y & sent & Hx & Hy & [H1 H2 H3 H4 H5 H6 H7]). exists sent. split_and!; [done|..].
  - assert (shown (world z) `prefix_of` sent \/ shown (world z) = sent ++ [NL]) as [Hs| ->]; [|by apply prefix_app_r|done].
    destruct y; try (by left; eapply prefix_here); [left; by destruct H4 as [-> _]|destruct H4 as [_ [->|[-> _]]]; auto..|destruct H4 as [?|[_ ->]]; auto].
  - intros Hc. destruct y as [|[|f]|f b| | | |]; cbn [dat] in Hy; try (by rewrite Hy in Hc); [by destruct Hy as [Hy _]; rewrite Hy in Hc| |by destruct (dead_halt _ _ Hy Hc) as (_ & ? & _)].
    destruct H4 as [Hu H4]. split; [|done]. destruct (H3 Hu) as [->| ->]; auto.
  - intros Hp. destruct x; cbn [qat] in Hx; try (by rewrite Hx in Hp); [|by destruct (dead_halt _ _ Hx Hp)]. split; [by destruct (H3 eq_refl)|by auto].
  - intros He. destruct (wrong (world z)); [by auto|]. left. destruct x; cbn [qat] in Hx; try (by rewrite Hx in He); [done|by destruct (H5 eq_refl)].
  - intros He. destruct (wrong (world z)); [by auto|]. destruct y as [|[|f]|f b| | | |]; cbn [dat] in Hy; try (by rewrite Hy in He).
    + right. left. by rewrite Hy.
    + by destruct Hy as [Hy _]; rewrite Hy in He.
    + by left.
    + by destruct (H5 eq_refl).
  - intros Hc. destruct y as [|[|f]|f b| | | |]; cbn [dat] in Hy; try (by rewrite Hy in Hc); [|by destruct Hy as [Hy _]; rewrite Hy in Hc|by destruct (dead_halt _ _ Hy Hc) as (_ & _ & ?)].
    specialize (H7 0%nat eq_refl). apply prefix_length in H1. lia.
Qed.
End SimplePipe.

(** ** change_case *)

Section ChangeCase.
Context {T : ErrText} (fuel : nat) (o0 o1 i0 i1 : Z).
Context (Hdistinct : NoDup [STDIN_FILENO; STDOUT_FILENO; o0; o1; i0; i1]).

Definition case_pipes : list (Z * Z) := [(o0, o1); (i0, i1)].
Definition case_all : gset Z := {[o0; o1; i0; i1]}.

(** After fork(): both processes have all ends open, the pipes are empty. *)
Definition case_start : duo :=
  Duo (Process (change_case_parent fuel o0 o1 i0 i1) case_all) (Process (change_case_child fuel o0 o1 i0 i1) case_all)
    (Shared (fun _ => []) [] [] false false).

Abbreviation stepC := (duo_step case_pipes).
Abbreviation goesC := (goes case_pipes).

Lemma case_ends :
  write_end case_pipes o0 = Some o1 /\ write_end case_pipes i0 = Some i1 /\ write_end case_pipes STDIN_FILENO = None /\
  read_end case_pipes o1 = Some o0 /\ read_end case_pipes i1 = Some i0 /\ read_end case_pipes STDOUT_FILENO = None /\
  (o0 =? i0) = false /\ (i0 =? o0) = false.
Proof.
  repeat (apply NoDup_cons in Hdistinct as [?H Hdistinct]). unfold write_end, read_end, case_pipes.
  split_and!; repeat match goal with |- context [?a =? ?b] => destruct (Z.eqb_spec a b) end; try done; exfalso; subst; set_solver.
Qed.

(** The blocks of the parent's loop. *)
Definition showBlock (f : nat) (buf : list ascii) : prog unit :=
  w <- sys (Write STDOUT_FILENO buf) ;;
  if match w with Ok n => negb (n =? strlen buf) | Err _ => true end then fatal ($"failed/partial write(): STDOUT_FILENO")
  else caseLoop f o1 i0.
Definition recvBlock (f : nat) : prog unit :=
  r <- sys (Read i0 CASE_BUF_SIZE) ;;
  match r with Err e => errExit e ($"read") | Ok [] => caseLoop f o1 i0 | Ok buf => showBlock f buf end.
Definition sendBlock (f : nat) (buf : list ascii) : prog unit :=
  w <- sys (Write o1 buf) ;;
  if match w with Ok n => negb (n =? strlen buf) | Err _ => true end then fatal ($"failed/partial write(): outbound pipe")
  else recvBlock f.

Abbreviation success p := (p ;;; Halt (Exit EXIT_SUCCESS)) (only parsing).

(** Where the parent is: the number is the fuel that is left. *)
Inductive pstage := PClose0 | PClose1 | PLoop (f : nat) | PSend (f : nat) (b : list ascii) | PWait (f : nat) | PShow (f : nat) (d : list ascii)
                  | PEnd | PDead.

Abbreviation open_p := (case_all ∖ {[o0]} ∖ {[i1]}).

Definition parent_at (x : pstage) (p : runner) : Prop :=
  match x with
  | PClose0 => p = Process (change_case_parent fuel o0 o1 i0 i1) case_all
  | PClose1 => p = Process (closeOrExit i1 ($"close") ;;; caseLoop fuel o1 i0 ;;; Halt (Exit EXIT_SUCCESS)) (case_all ∖ {[o0]})
  | PLoop f => p = Process (caseLoop f o1 i0 ;;; Halt (Exit EXIT_SUCCESS)) open_p
  | PSend f b => p = Process (sendBlock f b ;;; Halt (Exit EXIT_SUCCESS)) open_p /\ b <> [] /\ (length b <= 100)%nat
  | PWait f => p = Process (recvBlock f ;;; Halt (Exit EXIT_SUCCESS)) open_p
  | PShow f d => p = Process (showBlock f d ;;; Halt (Exit EXIT_SUCCESS)) open_p /\ d <> []
  | PEnd => prg p = Halt (Exit EXIT_SUCCESS)
  | PDead => dead (prg p)
  end.

(** What a call of the parent can do; [q] is the child. *)
Inductive ptrans (q : runner) (s : shared) : pstage -> pstage -> shared -> Prop :=
| pt_close0 : ptrans q s PClose0 PClose1 s
| pt_close1 : ptrans q s PClose1 (PLoop fuel) s
| pt_read f b : b <> [] -> (length b <= 100)%nat -> ptrans q s (PLoop (S f)) (PSend f b) (Shared (data s) (given s ++ b) (shown s) (input_over s) (wrong s))
| pt_eof f : ptrans q s (PLoop (S f)) PEnd (Shared (data s) (given s) (shown s) true (wrong s))
| pt_sent f b : b <> [] -> (length b <= 100)%nat -> ptrans q s (PSend f b) (PWait f) (fill o0 (data s o0 ++ b) s)
| pt_part f b k : ptrans q s (PSend f b) PDead (note true (fill o0 (data s o0 ++ take k b) s))
| pt_recv f : data s i0 <> [] -> ptrans q s (PWait f) (PShow f (take 100 (data s i0))) (fill i0 (drop 100 (data s i0)) s)
| pt_gone f : data s i0 = [] -> i1 ∉ holds q -> ptrans q s (PWait f) (PLoop f) (fill i0 [] s)
| pt_shown f d : ptrans q s (PShow f d) (PLoop f) (Shared (data s) (given s) (shown s ++ d) (input_over s) (wrong s))
| pt_showpart f d k : ptrans q s (PShow f d) PDead (note true (Shared (data s) (given s) (shown s ++ take k d) (input_over s) (wrong s)))
| pt_fails x : ptrans q s x PDead (note true s)
| pt_dead : ptrans q s PDead PDead s.

Lemma parent_goes q s x p p' s' :
  parent_at x p -> goesC q s p p' s' -> exists x', parent_at x' p' /\ ptrans q s x x' s'.
Proof.
  destruct case_ends as (We0 & We1 & We2 & Re0 & Re1 & Re2 & _).
  assert (forall p' s', dead (prg p') -> s' = note true s -> exists x', parent_at x' p' /\ ptrans q s x x' s') as Hdead.
  { intros p1 s1 Hd ->. exists PDead. split; [done|apply pt_fails]. }
  assert (forall (w : res Z) b, (match w with Ok n => negb (n =? strlen b) | Err _ => true end) = false -> exists n, w = Ok n /\ take (Z.to_nat n) b = b) as Hfull.
  { intros [n|e] b Hn; [|done]. apply negb_false_iff, Z.eqb_eq in Hn as ->. exists (strlen b). split; [done|]. unfold strlen. rewrite Nat2Z.id. by apply take_ge. }
  intros Hat Hg. destruct x as [| |[|f]|f b|f|f d| |]; cbn [parent_at] in Hat.
  - subst p. destruct Hg as ([[]|e] & _ & -> & ->); [|by apply Hdead; [apply dead_bind, dead_errExit|]]. exists PClose1. split; [done|constructor].
  - subst p. destruct Hg as ([[]|e] & _ & -> & ->); [|by apply Hdead; [apply dead_bind, dead_errExit|]]. exists (PLoop fuel). split; [done|constructor].
  - by subst p.
  - subst p. destruct Hg as ([b|e] & Hr & -> & ->); [|by apply Hdead; [apply dead_bind, dead_errExit|]]. cbn [may_reply] in Hr. rewrite We2 in Hr. cbn [changes fails]. rewrite We2, Z.eqb_refl.
    destruct b as [|a d]; [exists PEnd; split; [done|]; rewrite app_nil_r, orb_true_r; constructor|].
    exists (PSend f (a :: d)). rewrite orb_false_r. split; [split_and!; [done..|]|constructor; [done|]]; unfold CASE_BUF_SIZE in Hr; lia.
  - destruct Hat as (-> & Hb & Hlb). destruct Hg as (w & Hr & -> & ->). cbn [changes fails].
    destruct (match w with Ok n => negb (n =? strlen b) | Err _ => true end) eqn:Hw.
    + exists PDead. split; [cbn; rewrite Hw; apply dead_bind, dead_fatal|]. destruct w as [k|e]; [rewrite Re0; apply pt_part|apply pt_fails].
    + destruct (Hfull w b Hw) as (n & -> & Ht). exists (PWait f). split; [cbn; by rewrite Hw|]. rewrite Re0, Ht. by constructor.
  - subst p. destruct Hg as ([d|e] & Hr & -> & ->); [|by apply Hdead; [apply dead_bind, dead_errExit|]]. cbn [may_reply] in Hr. rewrite We1 in Hr. cbn [changes fails]. rewrite We1.
    destruct Hr as (_ & [[Hne ->]|(He & -> & _ & Hq)]).
    + change (Z.to_nat CASE_BUF_SIZE) with 100%nat. exists (PShow f (take 100 (data s i0))). destruct (take 100 (data s i0)) as [|a d] eqn:Hd.
      { destruct (data s i0); done. }
      split; [done|]. rewrite <- Hd, drop_take_length. by constructor.
    + exists (PLoop f). split; [done|]. rewrite He. by constructor.
  - destruct Hat as (-> & Hd). destruct Hg as (w & Hr & -> & ->). cbn [changes fails].
    destruct (match w with Ok n => negb (n =? strlen d) | Err _ => true end) eqn:Hw.
    + exists PDead. split; [cbn; rewrite Hw; apply dead_bind, dead_fatal|]. destruct w as [k|e]; [rewrite Re2; apply pt_showpart|apply pt_fails].
    + destruct (Hfull w d Hw) as (n & -> & Ht). exists (PLoop f). split; [cbn; by rewrite Hw|]. rewrite Re2, Z.eqb_refl, Ht. constructor.
  - exfalso. unfold goes in Hg. by rewrite Hat in Hg.
  - destruct (dead_goes _ _ _ _ _ _ Hat Hg) as (Hd & _ & ->). exists PDead. split; [done|constructor].
Qed.

(** Where the child is. *)
Inductive cstage := CClose0 | CClose1 | CLoop (f : nat) | CBack (f : nat) (b : list ascii) | CEnd | CDead.

Definition case_copy (f : nat) : prog unit :=
  copyTo f o0 i1 CASE_BUF_SIZE toupper (fun _ => fatal ($"failed/partial write(): inbound pipe")) (fun e => errExit e ($"read")).
Definition backBlock (f : nat) (b : list ascii) : prog unit :=
  w <- sys (Write i1 (map toupper b)) ;;
  if match w with Ok n => n =? strlen b | Err _ => false end then case_copy f else fatal ($"failed/partial write(): inbound pipe").

Abbreviation open_c := (case_all ∖ {[o1]} ∖ {[i0]}).

Definition child_at (y : cstage) (p : runner) : Prop :=
  match y with
  | CClose0 => p = Process (change_case_child fuel o0 o1 i0 i1) case_all
  | CClose1 => p = Process (closeOrExit i0 ($"close") ;;; case_copy fuel ;;; Halt (Exit_ EXIT_SUCCESS)) (case_all ∖ {[o1]})
  | CLoop f => p = Process (case_copy f ;;; Halt (Exit_ EXIT_SUCCESS)) open_c
  | CBack f b => p = Process (backBlock f b ;;; Halt (Exit_ EXIT_SUCCESS)) open_c /\ b <> []
  | CEnd => prg p = Halt (Exit_ EXIT_SUCCESS)
  | CDead => dead (prg p)
  end.

#[local] Instance cstage_eq_dec : EqDecision cstage.
Proof. solve_decision. Defined.

(** What a call of the child can do; [q] is the parent. *)
Inductive ctrans (q : runner) (s : shared) : cstage -> cstage -> shared -> Prop :=
| ct_close0 : ctrans q s CClose0 CClose1 s
| ct_close1 : ctrans q s CClose1 (CLoop fuel) s
| ct_read f : data s o0 <> [] -> ctrans q s (CLoop (S f)) (CBack f (take 100 (data s o0))) (fill o0 (drop 100 (data s o0)) s)
| ct_eof f : data s o0 = [] -> o1 ∉ holds q -> ctrans q s (CLoop (S f)) CEnd (fill o0 [] s)
| ct_back f b : b <> [] -> ctrans q s (CBack f b) (CLoop f) (fill i0 (data s i0 ++ map toupper b) s)
| ct_part f b k : ctrans q s (CBack f b) CDead (note true (fill i0 (data s i0 ++ take k (map toupper b)) s))
| ct_fails y : ctrans q s y CDead (note true s)
| ct_dead : ctrans q s CDead CDead s.

Lemma child_goes q s y p p' s' :
  child_at y p -> goesC q s p p' s' -> exists y', child_at y' p' /\ ctrans q s y y' s'.
Proof.
  destruct case_ends as (We0 & We1 & We2 & Re0 & Re1 & Re2 & _).
  assert (forall p' s', dead (prg p') -> s' = note true s -> exists y', child_at y' p' /\ ctrans q s y y' s') as Hdead.
  { intros p1 s1 Hd ->. exists CDead. split; [done|apply ct_fails]. }
  intros Hat Hg. destruct y as [| |[|f]|f b| |]; cbn [child_at] in Hat.
  - subst p. destruct Hg as ([[]|e] & _ & -> & ->); [|by apply Hdead; [apply dead_bind, dead_errExit|]]. exists CClose1. split; [done|constructor].
  - subst p. destruct Hg as ([[]|e] & _ & -> & ->); [|by apply Hdead; [apply dead_bind, dead_errExit|]]. exists (CLoop fuel). split; [done|constructor].
  - by subst p.
  - subst p. destruct Hg as ([b|e] & Hr & -> & ->); [|by apply Hdead; [apply dead_bind, dead_errExit|]]. cbn [may_reply] in Hr. rewrite We0 in Hr. cbn [changes fails]. rewrite We0.
    destruct Hr as (_ & [[Hne ->]|(He & -> & _ & Hq)]).
    + change (Z.to_nat CASE_BUF_SIZE) with 100%nat. rewrite drop_take_length. exists (CBack f (take 100 (data s o0))). destruct (take 100 (data s o0)) as [|a d] eqn:Hd.
      { by destruct (data s o0). }
      split; [done|]. rewrite <- Hd. by constructor.
    + exists CEnd. split; [done|]. rewrite He. by constructor.
  - destruct Hat as (-> & Hb). destruct Hg as (w & Hr & -> & ->). cbn [changes fails]. assert (strlen (map toupper b) = strlen b) as -> by (unfold strlen; by rewrite length_map).
    destruct (match w with Ok n => n =? strlen b | Err _ => false end) eqn:Hw.
    + destruct w as [n|e]; [|done]. exists (CLoop f). split; [cbn; by rewrite Hw|]. rewrite Re1, Hw. apply Z.eqb_eq in Hw as ->.
      unfold strlen. rewrite Nat2Z.id, take_ge by (by rewrite length_map). by constructor.
    + exists CDead. split; [cbn; rewrite Hw; apply dead_bind, dead_fatal|]. destruct w as [k|e]; [rewrite Re1, Hw; apply ct_part|apply ct_fails].
  - exfalso. unfold goes in Hg. by rewrite Hat in Hg.
  - destruct (dead_goes _ _ _ _ _ _ Hat Hg) as (Hd & _ & ->). exists CDead. split; [done|constructor].
Qed.

(** *** The invariant: conservation of the bytes *)

Definition cur (x : pstage) : list ascii := match x with PShow _ d => d | _ => [] end.
Definition pend (x : pstage) : list ascii := match x with PSend _ b => b | _ => [] end.
Definition back (y : cstage) : list ascii := match y with CBack _ b => b | _ => [] end.
Definition alive_p (x : pstage) : Prop := x <> PDead.
Definition alive_c (y : cstage) : Prop := y <> CDead /\ y <> CLoop 0.

(** A block is on its way: in the outbound pipe, with the child, or in the inbound pipe. *)
Definition on_its_way (ob bk ib : list ascii) : Prop :=
  exists b, b <> [] /\ (length b <= 100)%nat /\
    (ob = b /\ bk = [] /\ ib = [] \/ ob = [] /\ bk = b /\ ib = [] \/ ob = [] /\ bk = [] /\ ib = map toupper b).

(** The fuel that the child has left. *)
Definition left_c (y : cstage) : option nat :=
  match y with CClose0 | CClose1 => Some fuel | CLoop f | CBack f _ => Some f | _ => None end.

Record case_inv (x : pstage) (y : cstage) (s : shared) : Prop := {
  ci_prefix : shown s `prefix_of` map toupper (given s);
  ci_more : alive_p x -> shown s ++ cur x ++ data s i0 `prefix_of` map toupper (given s);
  ci_exact : alive_p x -> alive_c y ->
    shown s ++ cur x ++ data s i0 ++ map toupper (back y ++ data s o0 ++ pend x) = map toupper (given s);
  ci_phase : alive_p x -> alive_c y ->
    match x with PWait _ => on_its_way (data s o0) (back y) (data s i0) | _ => data s o0 = [] /\ back y = [] /\ data s i0 = [] end;
  ci_right : wrong s = false -> x <> PDead /\ y <> CDead;
  ci_over : x = PEnd -> input_over s = true;
  ci_end : y = CEnd -> x = PEnd \/ x = PDead \/ x = PLoop 0;
  ci_fuel_p : match x with PLoop f | PWait f | PShow f _ | PSend f _ => (fuel <= f + length (given s))%nat | _ => True end;
  ci_fuel_c : forall f, left_c y = Some f -> (fuel + length (data s o0) + length (pend x) <= f + length (given s))%nat
}.

(** As long as they run in their loops, the processes hold the ends that they use. *)
Lemma case_holds :
  o1 ∈ case_all /\ o1 ∈ case_all ∖ {[o0]} /\ o1 ∈ open_p /\ i0 ∈ open_p /\ i1 ∈ case_all /\ i1 ∈ case_all ∖ {[o1]} /\ i1 ∈ open_c /\
  i1 ∉ open_p /\ o1 ∉ open_c.
Proof.
  pose proof Hdistinct as H. repeat (apply NoDup_cons in H as [?H H]). unfold case_all. split_and!; set_solver.
Qed.

Lemma parent_holds x p : parent_at x p -> o1 ∉ holds p -> x = PEnd \/ x = PDead \/ x = PLoop 0.
Proof.
  destruct case_holds as (H1 & H2 & H3 & _). intros Hat Hn. destruct x as [| |[|f]|f b|f|f d| |]; cbn [parent_at] in Hat; auto; exfalso; apply Hn; subst;
    try destruct Hat as [-> _]; done.
Qed.

Lemma child_holds y p : child_at y p -> alive_c y -> i1 ∉ holds p -> y = CEnd.
Proof.
  destruct case_holds as (_ & _ & _ & _ & H1 & H2 & H3 & _). intros Hat [Ha Hb] Hn. destruct y as [| |[|f]|f b| |]; cbn [child_at] in Hat; try done; exfalso; apply Hn; subst;
    try destruct Hat as [-> _]; done.
Qed.

(** Reduce the contents of the pipes. *)
Ltac pipe_simpl :=
  destruct case_ends as (_ & _ & _ & _ & _ & _ & Hoi & Hio);
  cbn [fill note data given shown input_over wrong cur pend back app left_c] in *; rewrite ?Z.eqb_refl, ?Hoi, ?Hio in *; rewrite ?app_nil_r in *.

Ltac lengths := intros; repeat match goal with H : forall f, _ = Some f -> _ |- _ => specialize (H _ ltac:(eassumption || reflexivity)) end;
  rewrite ?length_app, ?length_take, ?length_drop in *; cbn [length] in *; lia.

Lemma case_parent_inv q s x x' y s' : case_inv x y s -> child_at y q -> ptrans q s x x' s' -> case_inv x' y s'.
Proof.
  intros [H1 H2 H3 H4 Hw H0 H5 H6 H7] Hat Ht.
  assert (y = CEnd -> x' = PEnd \/ x' = PDead \/ x' = PLoop 0) as Hend.
  { intros Hy. destruct Ht; try (by auto); destruct (H5 Hy) as [?|[?|?]]; simplify_eq. }
  destruct Ht as [| |f b Hb Hl|f|f b Hb Hl|f b k|f Hne|f He Hq|f d|f d k|x|].
  all: try (specialize (H2 ltac:(done)); specialize (H3 ltac:(done)); specialize (H4 ltac:(done))).
  all: split; pipe_simpl; first [done|exact Hend|by intros Hr; destruct (Hw Hr)|lengths|idtac].
  - rewrite map_app. by apply prefix_app_r.
  - intros _. rewrite map_app. by apply prefix_app_r.
  - intros _ Hy. rewrite (map_app _ (given s)), <- H3 by done. by rewrite !map_app, <- !app_assoc.
  - assert (length b <> 0)%nat by (by destruct b). lengths.
  - intros _ Hy. destruct (H4 Hy) as (-> & -> & ->). exists b. split_and!; [done..|]. by left.
  - intros _. by rewrite take_drop.
  - intros _ Hy. rewrite <- H3 by done. f_equal. by rewrite app_assoc, take_drop.
  - intros _ Hy. destruct (H4 Hy) as (b & Hb & Hl & [(_ & _ & He)|[(_ & _ & He)|(-> & -> & ->)]]); [by rewrite He in Hne..|].
    split_and!; [done..|]. apply drop_ge. by rewrite length_map.
  - intros _ Hy. destruct (H5 (child_holds _ _ Hat Hy Hq)) as [?|[?|?]]; done.
  - intros _ Hy. destruct (H5 (child_holds _ _ Hat Hy Hq)) as [?|[?|?]]; done.
  - etrans; [|exact H2]. rewrite app_assoc. by exists (data s i0).
  - intros _. by rewrite <- app_assoc.
  - intros _ Hy. by rewrite <- app_assoc, H3.
  - etrans; [|exact H2]. exists (drop k d ++ data s i0). by rewrite <- !app_assoc, (app_assoc (take k d)), take_drop.
Qed.

Lemma case_child_inv q s x y y' s' : case_inv x y s -> parent_at x q -> ctrans q s y y' s' -> case_inv x y' s'.
Proof.
  intros [H1 H2 H3 H4 Hw H0 H5 H6 H7] Hat Ht.
  assert (alive_c y' -> alive_c y) as Hal.
  { intros [Hy _]. destruct Ht; try done; by split. }
  destruct Ht as [| |f Hne|f He Hq|f b Hb|f b k|y|].
  all: split; pipe_simpl; first [done|by intros Hx Hy; auto|by intros Hr; destruct (Hw Hr)|by intros _ []|by intros _; apply (parent_holds x q)|lengths|idtac].
  all: try intros Hx; try (intros Hy; specialize (H3 Hx (Hal Hy)); specialize (H4 Hx (Hal Hy))).
  all: cbn [back] in *.
  - exact H4.
  - exact H4.
  - rewrite <- H3. by rewrite (app_assoc (take 100 _)), take_drop.
  - destruct x; try (destruct H4 as (H4 & _); by rewrite H4 in Hne). destruct H4 as (b & Hb & Hl & [(-> & _ & ->)|[(He & _)|(He & _)]]); [|by rewrite He in Hne..].
    exists b. rewrite drop_ge, take_ge by done. split_and!; [done..|]. right. by left.
  - intros Hf. injection Hf as <-. assert (length (data s o0) <> 0)%nat by (by destruct (data s o0)). lengths.
  - rewrite <- H3, He. done.
  - rewrite He in H4. exact H4.
  - specialize (H3 Hx ltac:(by split)). rewrite <- H3, map_app. exists (map toupper (data s o0 ++ pend x)). by rewrite <- !app_assoc.
  - by rewrite <- H3, (map_app _ b), <- !app_assoc.
  - destruct x; try (by destruct H4 as (_ & -> & _)). destruct H4 as (b' & Hb' & Hl & [(_ & -> & _)|[(-> & -> & ->)|(_ & -> & _)]]); [done| |done].
    exists b'. split_and!; [done..|]. right. by right.
  - specialize (H3 Hx ltac:(by split)). rewrite <- H3, map_app. exists (drop k (map toupper b) ++ map toupper (data s o0 ++ pend x)).
    rewrite <- !app_assoc. do 3 f_equal. by rewrite app_assoc, take_drop.
Qed.
(** Every state that can be reached, whatever fails and whoever is killed. *)
Lemma case_reach z : rtc stepC case_start z -> exists x y, parent_at x (par z) /\ child_at y (chl z) /\ case_inv x y (world z).
Proof.
  intros Hr. refine (rtc_ind_r (fun z => exists x y, parent_at x (par z) /\ child_at y (chl z) /\ case_inv x y (world z)) _ _ _ z Hr).
  - exists PClose0, CClose0. split_and!; [done..|]. split; cbn; first [done|apply prefix_nil|intros _; apply prefix_nil|intros f [= <-]; lia].
  - intros z1 z2 _ Hs (x & y & Hx & Hy & Hi). destruct Hs as [p c s p' s' Hg|p c s c' s' Hg|p c s He|p c s He]; cbn [par chl world] in *.
    + destruct (parent_goes _ _ _ _ _ _ Hx Hg) as (x' & Hx' & Ht). exists x', y. split_and!; [done..|]. by eapply case_parent_inv.
    + destruct (child_goes _ _ _ _ _ _ Hy Hg) as (y' & Hy' & Ht). exists x, y'. split_and!; [done..|]. by eapply case_child_inv.
    + exists PDead, y. split_and!; [by left|done|]. eapply case_parent_inv; [done..|apply pt_fails].
    + exists x, CDead. split_and!; [done|by left|]. eapply case_child_inv; [done..|apply ct_fails].
Qed.

(** When a process cannot be blocked. *)
Lemma parent_free x p q s :
  parent_at x p -> match x with PSend _ _ => data s o0 = [] \/ ended q = true | PWait _ => data s i0 <> [] \/ ended q = true | _ => True end ->
  ~ blocked case_pipes p q s.
Proof.
  destruct case_ends as (We0 & We1 & We2 & Re0 & Re1 & Re2 & _). destruct case_holds as (_ & _ & _ & _ & _ & _ & _ & Hi1 & _).
  intros Hat Hfree. destruct x as [| |[|f]|f b|f|f d| |]; cbn [parent_at] in Hat; try (by apply dead_not_blocked); unfold blocked.
  1-3: subst; cbn; by intros [].
  - subst. cbn -[write_end]. rewrite We2. by intros [].
  - destruct Hat as [-> _]. cbn -[read_end]. rewrite Re0. intros [Hne Hq]. destruct Hfree as [?|He]; [done|]. unfold holds in Hq. rewrite He in Hq. set_solver.
  - subst. cbn -[write_end]. rewrite We1. intros [He [Hp|Hq]]; [done|]. destruct Hfree as [?|Hen]; [done|]. unfold holds in Hq. rewrite Hen in Hq. set_solver.
  - destruct Hat as [-> _]. cbn -[read_end]. rewrite Re2. by intros [].
  - rewrite Hat. by intros [].
Qed.

Lemma child_free y p q s :
  child_at y p -> match y with CBack _ _ => data s i0 = [] \/ ended q = true | CLoop _ => data s o0 <> [] \/ ended q = true | _ => True end ->
  ~ blocked case_pipes p q s.
Proof.
  destruct case_ends as (We0 & We1 & We2 & Re0 & Re1 & Re2 & _). destruct case_holds as (_ & _ & _ & _ & _ & _ & _ & _ & Ho1).
  intros Hat Hfree. destruct y as [| |[|f]|f b| |]; cbn [child_at] in Hat; try (by apply dead_not_blocked); unfold blocked.
  1-3: subst; cbn; by intros [].
  - subst. cbn -[write_end]. rewrite We0. intros [He [Hp|Hq]]; [done|]. destruct Hfree as [?|Hen]; [done|]. unfold holds in Hq. rewrite Hen in Hq. set_solver.
  - destruct Hat as [-> _]. cbn -[read_end]. rewrite Re1. intros [Hne Hq]. destruct Hfree as [?|He]; [done|]. unfold holds in Hq. rewrite He in Hq. set_solver.
  - rewrite Hat. by intros [].
Qed.

Lemma case_can_go z : rtc stepC case_start z -> can_go case_pipes z.
Proof.
  intros Hr Hrun. destruct (case_reach _ Hr) as (x & y & Hx & Hy & [_ _ _ Hphase _ _ Hend _ _]).
  destruct (ended (par z)) eqn:Hep.
  { right. destruct Hrun as [?|Hec]; [done|]. split; [done|]. eapply child_free; [done|]. destruct y; auto. }
  destruct (ended (chl z)) eqn:Hec.
  { left. split; [done|]. eapply parent_free; [done|]. destruct x; auto. }
  assert (x = PDead \/ alive_p x) as [->|Hxa] by (unfold alive_p; destruct x; auto); [left; split; [done|]; by eapply parent_free|].
  assert (y = CDead \/ alive_c y) as [->|Hya].
  { unfold alive_c. destruct y as [| |[|f]|f b| |]; auto. by rewrite Hy in Hec. }
  { right. split; [done|]. by eapply child_free. }
  specialize (Hphase Hxa Hya). destruct x as [| |f|f b|f|f d| |]; try (left; split; [done|]; eapply parent_free; [done|]; by try (left; apply Hphase)).
  destruct Hphase as (b & Hb & Hl & [(Ho & Hbk & Hi)|[(Ho & Hbk & Hi)|(Ho & Hbk & Hi)]]).
  - right. split; [done|]. eapply child_free; [done|]. destruct y; auto; left; by rewrite ?Ho, ?Hi.
  - right. split; [done|]. eapply child_free; [done|]. destruct y; cbn [back] in Hbk; auto; congruence.
  - left. split; [done|]. eapply parent_free; [done|]. left. rewrite Hi. by destruct b.
Qed.

(** What the programs promise, in every reachable state. *)
Definition case_promise (z : duo) : Prop :=
  shown (world z) `prefix_of` map toupper (given (world z)) /\
  (prg (par z) = Halt (Exit EXIT_SUCCESS) -> input_over (world z) = true /\
    (shown (world z) = map toupper (given (world z)) \/ dead (prg (chl z)) \/ prg (chl z) = Halt OutOfFuel)) /\
  (ended (par z) = true -> prg (par z) = Halt (Exit EXIT_SUCCESS) \/ prg (par z) = Halt OutOfFuel \/ wrong (world z) = true) /\
  (ended (chl z) = true -> prg (chl z) = Halt (Exit_ EXIT_SUCCESS) \/ prg (chl z) = Halt OutOfFuel \/ wrong (world z) = true) /\
  (prg (par z) = Halt OutOfFuel \/ prg (chl z) = Halt OutOfFuel -> (fuel <= length (given (world z)))%nat).

Lemma case_keeps_promise z : rtc stepC case_start z -> case_promise z.
Proof.
  intros Hr. destruct (case_reach _ Hr) as (x & y & Hx & Hy & [H1 H2 H3 H4 Hw H0 H5 H6 H7]). split_and!; [done| | | |].
  - intros Hp. assert (x = PEnd) as ->.
    { destruct x as [| |[|f]|f b|f|f d| |]; cbn [parent_at] in Hx; try done; try (by subst; rewrite Hx in Hp); try (by destruct Hx as [Hx _]; rewrite Hx in Hp). by destruct (dead_halt _ _ Hx Hp). }
    split; [by apply H0|]. destruct (decide (y = CDead)) as [->|Hd]; [by right; left|]. destruct (decide (y = CLoop 0)) as [->|Hl]; [right; right; by cbn in Hy; rewrite Hy|]. left.
    specialize (H3 ltac:(done) (conj Hd Hl)). destruct (H4 ltac:(done) (conj Hd Hl)) as (Ho & Hb & Hi). rewrite Ho, Hb, Hi in H3. cbn in H3. by rewrite app_nil_r in H3.
  - intros He. destruct (wrong (world z)); [by auto|]. destruct x as [| |[|f]|f b|f|f d| |]; cbn [parent_at] in Hx; try (by rewrite Hx in He); try (by destruct Hx as [Hx _]; rewrite Hx in He).
    + right. left. by rewrite Hx.
    + by left.
    + by destruct (Hw eq_refl).
  - intros He. destruct (wrong (world z)); [by auto|]. destruct y as [| |[|f]|f b| |]; cbn [child_at] in Hy; try (by rewrite Hy in He); try (by destruct Hy as [Hy _]; rewrite Hy in He).
    + right. left. by rewrite Hy.
    + by left.
    + by destruct (Hw eq_refl).
  - intros [Hp|Hc].
    + destruct x as [| |[|f]|f b|f|f d| |]; cbn [parent_at] in Hx; try lia; try (by rewrite Hx in Hp); try (by destruct Hx as [Hx _]; rewrite Hx in Hp).
      by destruct (dead_halt _ _ Hx Hp) as (_ & _ & ?).
    + destruct y as [| |[|f]|f b| |]; cbn [child_at] in Hy; try (by rewrite Hy in Hc); try (by destruct Hy as [Hy _]; rewrite Hy in Hc);
        [|by destruct (dead_halt _ _ Hy Hc) as (_ & _ & ?)]. specialize (H7 0%nat eq_refl). lia.
Qed.
End ChangeCase.

(** ** pipe_sync *)

Record sync_inv (n : nat) (s : psync) : Prop := {
  s_nargs : nargs s = n;
  s_forks : match parent s with
            | PFork j => (j <= n)%nat /\ length (children s) = j
            | PFailed => True
            | _ => length (children s) = n
            end;
  s_ready : parent s = PReady -> Forall (fun c => c = CExit) (children s)
}.

Lemma sync_inv_step n s s' : sync_inv n s -> sync_step s s' -> sync_inv n s'.
Proof.
  intros [Hn Hf Hr] Hs. destruct Hs as [i s' Hs|s' Hs|i c Hc|Hp].
  - unfold child_step in Hs. destruct (children s !! i) as [c|] eqn:Hi; [|done]. destruct (child_next c) as [c'|] eqn:Hc; [|done]. injection Hs as <-.
    split; cbn; rewrite ?length_insert; try done. intros Hp. specialize (Hr Hp). rewrite Forall_lookup in Hr. by rewrite (Hr i c Hi) in Hc.
  - unfold parent_step in Hs. destruct (parent s) as [j| | | |] eqn:Hp; try done.
    + destruct Hf as [Hj Hl]. destruct (Nat.ltb_spec j (nargs s)) as [Hlt|Hge]; injection Hs as <-; split; cbn; try done; [|lia].
      rewrite length_app. simpl. split; lia.
    + injection Hs as <-. by split.
    + destruct (eof s) eqn:He; [|done]. injection Hs as <-. split; try done. intros _. cbn. apply andb_true_iff in He as [_ He].
      apply negb_true_iff in He. apply Forall_lookup. intros i c Hi. destruct (decide (c = CExit)) as [->|Hne]; [done|].
      assert (existsb child_writes (children s) = true) as Hx; [|congruence]. apply existsb_exists. exists c. split; [by apply list_elem_of_In, (list_elem_of_lookup_2 _ i)|by destruct c].
  - split; cbn; rewrite ?length_insert; try done. intros Hp. apply Forall_insert; [by apply Hr|done].
  - by split.
Qed.

Definition child_cost (c : sync_cpc) : Z := match c with CCloseR => 3 | CWork => 2 | CCloseW => 1 | CExit => 0 end.
Definition sync_cost (s : psync) : Z :=
  total child_cost (children s) +
  match parent s with PFork j => 4 * (Z.of_nat (nargs s) - Z.of_nat j) + 3 | PCloseW => 2 | PRead => 1 | PReady | PFailed => 0 end.

Lemma child_cost_nonneg c : 0 <= child_cost c.
Proof. destruct c; cbn; lia. Qed.

Lemma sync_goes_cost n s s' : sync_inv n s -> sync_goes s s' -> 0 <= sync_cost s' < sync_cost s.
Proof.
  intros Hinv Hg. assert (sync_inv n s') as Hinv' by (eapply sync_inv_step; [exact Hinv|destruct Hg as [[i H]|H]; [by eapply sync_child|by apply sync_parent]]).
  unfold sync_cost. pose proof (total_nonneg _ (children s') child_cost_nonneg) as H0. pose proof (s_forks _ _ Hinv') as Hf'. pose proof (s_nargs _ _ Hinv') as Hn'.
  destruct Hg as [[i Hs]|Hs].
  - unfold child_step in Hs. destruct (children s !! i) as [c|] eqn:Hi; [|done]. destruct (child_next c) as [c'|] eqn:Hc; [|done]. injection Hs as <-.
    cbn in *. rewrite (total_insert _ _ _ _ _ Hi) in *. assert (child_cost c' < child_cost c) by (destruct c; simplify_eq/=; lia).
    destruct (parent s); lia.
  - unfold parent_step in Hs. destruct (parent s) as [j| | | |] eqn:Hp; try done.
    + pose proof (s_forks _ _ Hinv) as Hf. pose proof (s_nargs _ _ Hinv) as Hn. rewrite Hp in Hf.
      destruct (Nat.ltb_spec j (nargs s)); injection Hs as <-; cbn [set_parent parent children nargs] in *; rewrite ?total_app in *; cbn [total child_cost] in *; lia.
    + injection Hs as <-. cbn [set_parent parent children nargs] in *. lia.
    + destruct (eof s); [|done]. injection Hs as <-. cbn [set_parent parent children nargs] in *. lia.
Qed.

Lemma sync_no_deadlock s : parent s <> PReady -> parent s <> PFailed -> exists s', sync_goes s s'.
Proof.
  intros H1 H2. assert (is_Some (parent_step s) -> exists s', sync_goes s s') as Hp by (intros [s' Hs']; exists s'; by right).
  unfold parent_step in Hp. destruct (parent s) as [j| | | |] eqn:Hpp; try done; [apply Hp; destruct (j <? nargs s)%nat; by eauto|apply Hp; by eauto|].
  destruct (eof s) eqn:He; [apply Hp; by eauto|]. unfold eof, parent_writes in He. rewrite Hpp in He. cbn in He. apply negb_false_iff, existsb_exists in He as (c & Hc & Hw).
  apply list_elem_of_In, list_elem_of_lookup in Hc as [i Hi]. exists (set_child i (default CExit (child_next c)) s). left. exists i. unfold child_step. rewrite Hi.
  by destruct c.
Qed.

(** After pipe() and fork() the main programs go on as the child and as the parent. *)
Definition splits (parent child : prog unit) (k : res Z -> prog unit) : Prop := k (Ok 0) = child /\ forall pid, pid <> 0 -> k (Ok pid) = parent.

Definition simple_splits {T : ErrText} (fuel : nat) (argv : list (list ascii)) (p0 p1 : Z) : Prop :=
  exists kp kf, simple_pipe_main fuel argv = Sys Pipe kp /\ kp (Ok (p0, p1)) = Sys Fork kf /\
    splits (simple_pipe_parent (argv_nth argv 1) p0 p1) (simple_pipe_child fuel p0 p1) kf.

Definition case_splits {T : ErrText} (fuel : nat) (o0 o1 i0 i1 : Z) : Prop :=
  exists kp kq kf, change_case_main fuel = Sys Pipe kp /\ kp (Ok (o0, o1)) = Sys Pipe kq /\ kq (Ok (i0, i1)) = Sys Fork kf /\
    splits (change_case_parent fuel o0 o1 i0 i1) (change_case_child fuel o0 o1 i0 i1) kf.

Lemma simple_main_splits {T : ErrText} fuel argv p0 p1 : length argv = 2%nat -> is_help argv = false -> simple_splits fuel argv p0 p1.
Proof.
  intros Hl Hh. unfold simple_splits, simple_pipe_main. rewrite Hl, Hh. eexists _, _. do 2 (split; [reflexivity|]). split; [reflexivity|].
  intros pid Hp%Z.eqb_neq. cbn. by rewrite Hp.
Qed.

Lemma case_main_splits {T : ErrText} fuel o0 o1 i0 i1 : case_splits fuel o0 o1 i0 i1.
Proof. eexists _, _, _. do 3 (split; [reflexivity|]). split; [reflexivity|]. intros pid Hp%Z.eqb_neq. cbn. by rewrite Hp. Qed.

Ltac parent_call r := eapply rtc_l; [eapply ParentGoes; cbn; exists r; split; [|split; reflexivity]|].
Ltac child_call r := eapply rtc_l; [eapply ChildGoes; cbn; exists r; split; [|split; reflexivity]|].

(** The child is killed when it has read the first block: the parent takes the end of the
    inbound pipe for an empty answer and goes on. *)
Lemma case_loses {T : ErrText} :
  exists z, rtc (duo_step (case_pipes 3 4 5 6)) (case_start 2 3 4 5 6) z /\
    prg (par z) = Halt (Exit EXIT_SUCCESS) /\ given (world z) = $"a" /\ shown (world z) = [].
Proof.
  eexists. split.
  - do 2 (parent_call (Ok tt); [exact I|]).
    do 2 (child_call (Ok tt); [exact I|]).
    parent_call (Ok ($"a")); [by vm_compute|].
    parent_call (Ok 1).
    { split; [by vm_compute|]. split; [by vm_compute|]. right. by vm_compute. }
    child_call (Ok ($"a")).
    { split; [by vm_compute|]. left. by vm_compute. }
    eapply rtc_l; [by apply ChildKilled|].
    parent_call (Ok ([] : list ascii)).
    { split; [by vm_compute|]. right. split_and!; [by vm_compute..|set_solver|set_solver]. }
    parent_call (Ok ([] : list ascii)); [by vm_compute|].
    apply rtc_refl.
  - split_and!; by vm_compute.
Qed.

(** C29: the programs with pipes.  In simple_pipe and change_case the two processes that
    fork() leaves run side by side, their calls interleave in every way, any call may
    fail or write only a part and each process may be killed at any time.  simple_pipe:
    at every moment the standard output is a prefix of what the parent has written to
    the pipe and a newline, which is a prefix of the argument; a child that exits with
    success has displayed all that was written, which is the whole argument unless the
    parent failed; a parent that exits with success has written the whole argument and
    waited for the child.  change_case: at every moment the standard output is a prefix
    of the standard input in upper case; a parent that exits with success has found the
    end of its input, and has displayed the whole input in upper case unless the child
    failed: the last run shows that the parent does not notice it.  In both programs a
    process that ends without success means that a call failed, a write was partial or a
    process was killed; there is no deadlock: as long as a process runs, one that runs
    is not blocked; every run is finite; the fuel of the loops runs out only on an input
    that is at least as long.  pipe_sync: in every interleaving and whatever fails, the
    parent is ready only after every child has closed the pipe; the parent and the
    children never deadlock and end after a bounded number of steps. *)
Theorem pipe_programs {T : ErrText} fuel argv n o0 o1 i0 i1 :
  NoDup [STDIN_FILENO; STDOUT_FILENO; o0; o1; i0; i1] ->
  (length argv = 2%nat -> is_help argv = false -> simple_splits fuel argv o0 o1) /\
  (forall z, rtc (duo_step (simple_ends o0 o1)) (simple_start fuel (argv_nth argv 1) o0 o1) z ->
    simple_promise fuel (argv_nth argv 1) z /\ can_go (simple_ends o0 o1) z /\ Acc (fun y z => duo_step (simple_ends o0 o1) z y) z) /\
  case_splits fuel o0 o1 i0 i1 /\
  (forall z, rtc (duo_step (case_pipes o0 o1 i0 i1)) (case_start fuel o0 o1 i0 i1) z ->
    case_promise fuel z /\ can_go (case_pipes o0 o1 i0 i1) z /\ Acc (fun y z => duo_step (case_pipes o0 o1 i0 i1) z y) z) /\
  (exists z, rtc (duo_step (case_pipes 3 4 5 6)) (case_start 2 3 4 5 6) z /\
    prg (par z) = Halt (Exit EXIT_SUCCESS) /\ given (world z) = $"a" /\ shown (world z) = []) /\
  (forall s, rtc sync_step (sync_init n) s ->
    (parent s = PReady -> length (children s) = n /\ Forall (fun c => c = CExit) (children s)) /\
    (parent s <> PReady -> parent s <> PFailed -> exists s', sync_goes s s') /\
    (forall s', sync_goes s s' -> 0 <= sync_cost s' < sync_cost s)).
Proof.
  intros Hd. assert (NoDup [STDOUT_FILENO; o0; o1]) as Hd'.
  { repeat (apply NoDup_cons in Hd as [?H Hd]). repeat (apply NoDup_cons; split; [set_solver|]). apply NoDup_nil_2. }
  split_and!; [apply simple_main_splits| |apply case_main_splits| |apply case_loses|].
  { intros z Hz. split_and!; [by eapply simple_keeps_promise|by eapply simple_can_go|apply duo_terminates]. }
  { intros z Hz. split_and!; [by eapply case_keeps_promise|by eapply case_can_go|apply duo_terminates]. }
  intros s Hr.
  assert (sync_inv n s) as Hinv.
  { refine (rtc_ind_r (fun s => sync_inv n s) _ _ _ s Hr); [split; try done; cbn; split; [lia|done]|]. intros s1 s2 _ Hs IH. by eapply sync_inv_step. }
  split_and!; [|apply sync_no_deadlock|intros s'; by eapply sync_goes_cost]. intros Hp. split; [|by apply (s_ready _ _ Hinv)].
  pose proof (s_forks _ _ Hinv) as Hf. by rewrite Hp in Hf.
Qed.

(** ** Witness *)

(** The two children of a run with two arguments close the pipe in reverse
    order. *)
Definition demo_sync : psync := Psync PReady [CExit; CExit] 2.

Lemma demo_sync_reach : rtc sync_step (sync_init 2) demo_sync.
Proof.
  do 4 (eapply rtc_l; [by apply sync_parent|]). do 3 (eapply rtc_l; [by apply (sync_child _ 1)|]).
  do 3 (eapply rtc_l; [by apply (sync_child _ 0)|]). eapply rtc_l; [by apply sync_parent|]. apply rtc_refl.
Qed.

(** change_case on one byte. *)
Lemma demo_case : exists z, rtc (duo_step (case_pipes 3 4 5 6)) (@case_start demo_text 2 3 4 5 6) z /\ shown (world z) = $"A" /\ given (world z) = $"a".
Proof.
  eexists. split.
  - do 2 (parent_call (Ok tt); [exact I|]).
    do 2 (child_call (Ok tt); [exact I|]).
    parent_call (Ok ($"a")); [by vm_compute|].
    parent_call (Ok 1).
    { split; [by vm_compute|]. split; [by vm_compute|]. right. by vm_compute. }
    child_call (Ok ($"a")).
    { split; [by vm_compute|]. left. by vm_compute. }
    child_call (Ok 1).
    { split; [by vm_compute|]. split; [by vm_compute|]. right. by vm_compute. }
    parent_call (Ok ($"A")).
    { split; [by vm_compute|]. left. by vm_compute. }
    parent_call (Ok 1).
    { split; by vm_compute. }
    apply rtc_refl.
  - split; by vm_compute.
Qed.

Lemma pipe_programs_witness :
  (exists z, rtc (duo_step (case_pipes 3 4 5 6)) (@case_start demo_text 2 3 4 5 6) z /\ shown (world z) = $"A" /\ case_promise 2 z) /\
  parent demo_sync = PReady /\ Forall (fun c => c = CExit) (children demo_sync).
Proof.
  destruct (pipe_programs (T := demo_text) 2 [] 2 3 4 5 6) as (_ & _ & _ & Hc & _ & H); [by apply (bool_decide_unpack _)|].
  destruct demo_case as (z & Hz & Hs & _). split; [exists z; split_and!; [done..|by apply Hc]|].
  split; [reflexivity|]. by apply (H demo_sync demo_sync_reach).
Defined.
