(* ===== verification/SigSync.v ===== *)
(** * Waiting for signals: procexec/multi_SIGCHLD.c, procexec/fork_sig_sync.c and
      the command loop of namespaces/simple_init.c

    The three programs sleep until a handler has run for a signal that their
    children cause.  One machine models what they share: a process with a signal
    mask, one pending bit for the signal (signals do not queue), a handler that
    runs with the signal blocked, and children that change state on their own.
    A program is an instance of [SigProgram]: what it does at each of its points,
    as one action per call, and what its handler does. *)

From S2P Require Import Prelude Sys LibErrors.

(** What a program does at a point: compute, make a call that may fail, install
    the handler, set the signal mask, fork, or sleep in sigsuspend() with an
    empty mask or in pause(). *)
Inductive act (PC G : Type) :=
  | ATau (g : G) (k : PC)
  | ATry (k kfail : PC)
  | AInstall (k kfail : PC)
  | AMask (b : bool) (k kfail : PC)
  | AFork (g : G) (k kfail : PC)
  | ASuspend (k : PC)
  | APause (k : PC)
  | AEnd.
Arguments ATau {PC G}. Arguments ATry {PC G}. Arguments AInstall {PC G}. Arguments AMask {PC G}.
Arguments AFork {PC G}. Arguments ASuspend {PC G}. Arguments APause {PC G}. Arguments AEnd {PC G}.

(** [code]: the action at a point.  [reaps]: the handler calls waitpid() with
    WNOHANG until there is nothing to report, and runs [reap] for every child it
    gets.  [on_stop]: the signal is also sent when a child stops.  [lossy]: a
    child can terminate without sending the signal. *)
Class SigProgram (PC G : Type) := {
  code : PC -> G -> act PC G;
  reaps : bool;
  reap : G -> G;
  on_stop : bool;
  lossy : bool }.

(** A child has yet to send its signal, has sent it, or is no more to be waited
    for. *)
Inductive kid := Alive | Changed | Gone.

#[export] Instance kid_eq_dec : EqDecision kid.
Proof. solve_decision. Defined.

(** The handler is about to call waitpid() or about to account for a child. *)
Inductive hpc := HWait | HReap.

Record proc (PC G : Type) := Proc {
  pc : PC;
  glob : G;
  installed : bool;
  blocked : bool;
  pending : bool;
  asleep : option bool;          (* in sigsuspend() or pause(); the mask to restore *)
  handler : option (hpc * bool); (* where the handler is; the mask to restore *)
  kids : list kid }.
Arguments Proc {PC G}. Arguments pc {PC G}. Arguments glob {PC G}. Arguments installed {PC G}.
Arguments blocked {PC G}. Arguments pending {PC G}. Arguments asleep {PC G}.
Arguments handler {PC G}. Arguments kids {PC G}.

Section Machine.
Context {PC G : Type} {P : SigProgram PC G}.
Abbreviation st := (proc PC G).

Definition goto (k : PC) (s : st) : st :=
  Proc k (glob s) (installed s) (blocked s) (pending s) (asleep s) (handler s) (kids s).
Definition set_glob (g : G) (s : st) : st :=
  Proc (pc s) g (installed s) (blocked s) (pending s) (asleep s) (handler s) (kids s).
Definition set_mask (b : bool) (s : st) : st :=
  Proc (pc s) (glob s) (installed s) b (pending s) (asleep s) (handler s) (kids s).
Definition set_pending (b : bool) (s : st) : st :=
  Proc (pc s) (glob s) (installed s) (blocked s) b (asleep s) (handler s) (kids s).
Definition set_asleep (m : option bool) (s : st) : st :=
  Proc (pc s) (glob s) (installed s) (blocked s) (pending s) m (handler s) (kids s).
Definition set_handler (h : option (hpc * bool)) (s : st) : st :=
  Proc (pc s) (glob s) (installed s) (blocked s) (pending s) (asleep s) h (kids s).
Definition set_kids (l : list kid) (s : st) : st :=
  Proc (pc s) (glob s) (installed s) (blocked s) (pending s) (asleep s) (handler s) l.
Definition install (s : st) : st :=
  Proc (pc s) (glob s) true (blocked s) (pending s) (asleep s) (handler s) (kids s).

(** The signal is generated: it stays pending until it is delivered, once however
    often it is generated; it is discarded if there is no handler. *)
Definition raise (s : st) : st := if installed s then set_pending true s else s.

Definition perform (a : act PC G) (s : st) : list st :=
  match a with
  | ATau g k => [goto k (set_glob g s)]
  | ATry k kf => [goto k s; goto kf s]
  | AInstall k kf => [goto k (install s); goto kf s]
  | AMask b k kf => [goto k (set_mask b s); goto kf s]
  | AFork g k kf => [goto k (set_glob g (set_kids (kids s ++ [Alive]) s)); goto kf s]
  | ASuspend k => [set_mask false (set_asleep (Some (blocked s)) s)]
  | APause k => [set_asleep (Some (blocked s)) s]
  | AEnd => []
  end.

(** The point after the call that the process sleeps in. *)
Definition wake_point (s : st) : PC :=
  match code (pc s) (glob s) with ASuspend k | APause k => k | _ => pc s end.

(** The handler returns: the mask is restored, and a sleeping call returns with
    EINTR and restores the mask that it replaced. *)
Definition handler_returns (m : bool) (s : st) : st :=
  match asleep s with
  | Some m' => goto (wake_point s) (set_asleep None (set_mask m' (set_handler None s)))
  | None => set_mask m (set_handler None s)
  end.

(** waitpid(-1, ..., WNOHANG) reports one of the children that changed. *)
Definition changed (l : list kid) : list nat := filter (fun i => l !! i = Some Changed) (seq 0 (length l)).

Definition handler_steps (h : hpc) (m : bool) (s : st) : list st :=
  match h with
  | HWait =>
      match (if reaps then changed (kids s) else []) with
      | [] => [handler_returns m s]
      | found => map (fun i => set_handler (Some (HReap, m)) (set_kids (<[i := Gone]> (kids s)) s)) found
      end
  | HReap => [set_handler (Some (HWait, m)) (set_glob (reap (glob s)) s)]
  end.

Definition ended (s : st) : bool := match code (pc s) (glob s) with AEnd => true | _ => false end.

(** Who takes a step: the process, its handler (delivery of the signal included),
    or a child, which sends its signal, stops, or ends without a signal. *)
Inductive label := LMain | LHandler | LSend (i : nat) | LStop (i : nat) | LLose (i : nat).

Definition next (l : label) (s : st) : list st :=
  match l with
  | LMain =>
      match handler s, asleep s with
      | None, None => perform (code (pc s) (glob s)) s
      | _, _ => []
      end
  | LHandler =>
      match handler s with
      | None =>
          if installed s && pending s && negb (blocked s) && negb (ended s)
          then [set_handler (Some (HWait, blocked s)) (set_mask true (set_pending false s))]
          else []
      | Some (h, m) => handler_steps h m s
      end
  | LSend i =>
      match kids s !! i with
      | Some Alive => [raise (set_kids (<[i := Changed]> (kids s)) s)]
      | _ => []
      end
  | LStop i =>
      match kids s !! i with
      | Some Alive => if on_stop then [raise s] else []
      | _ => []
      end
  | LLose i =>
      match kids s !! i with
      | Some Alive => if lossy then [set_kids (<[i := Gone]> (kids s)) s] else []
      | _ => []
      end
  end.

Definition moves (l : label) (s s' : st) : Prop := s' ∈ next l s.

(** A run with the labels of its steps. *)
Inductive run : st -> list label -> st -> Prop :=
  | run_nil s : run s [] s
  | run_snoc s ls s' l s'' : run s ls s' -> moves l s' s'' -> run s (ls ++ [l]) s''.

(** The process itself can do nothing more until a child does something. *)
Definition idle (s : st) : Prop := next LMain s = [] /\ next LHandler s = [].

End Machine.

(** ** multi_SIGCHLD.c *)
Module Multi.

Inductive multi_pc :=
  | MSigaction | MSigprocmask | MFork (j : nat) | MTest | MSigsuspend | MCount | MExit | MFail.

(** The static numLiveChildren and the local sigCnt. *)
Record counts := Counts { numLiveChildren : Z; sigCnt : Z }.

(** [nkids] is argc - 1. *)
Definition multi_main (nkids : nat) (p : multi_pc) (g : counts) : act multi_pc counts :=
  match p with
  | MSigaction => AInstall MSigprocmask MFail
  | MSigprocmask => AMask true (MFork 1) MFail
  | MFork j => if (j <=? nkids)%nat then AFork g (MFork (S j)) MFail else ATau g MTest
  | MTest => if 0 <? numLiveChildren g then ATau g MSigsuspend else ATau g MExit
  | MSigsuspend => ASuspend MCount
  | MCount => ATau (Counts (numLiveChildren g) (sigCnt g + 1)) MTest
  | MExit | MFail => AEnd
  end.

Definition sigchldHandler_reap (g : counts) : counts := Counts (numLiveChildren g - 1) (sigCnt g).

Definition multi_SIGCHLD (nkids : nat) : SigProgram multi_pc counts := {|
  code := multi_main nkids;
  reaps := true;
  reap := sigchldHandler_reap;
  on_stop := true;
  lossy := false |}.

Definition multi_start (nkids : nat) : proc multi_pc counts :=
  Proc MSigaction (Counts (Z.of_nat nkids) 0) false false false None None [].

End Multi.

(** ** fork_sig_sync.c *)
Module ForkSync.

Inductive fork_pc := FSigprocmask | FSigaction | FFork | FSigsuspend | FGot | FExit | FFail.

(** The global is origMask: whether SYNC_SIG was blocked before. *)
Definition fork_sync_main (p : fork_pc) (origMask : bool) : act fork_pc bool :=
  match p with
  | FSigprocmask => AMask true FSigaction FFail
  | FSigaction => AInstall FFork FFail
  | FFork => AFork origMask FSigsuspend FFail
  | FSigsuspend => ASuspend FGot
  | FGot => AMask origMask FExit FFail
  | FExit | FFail => AEnd
  end.

(** The child sends SYNC_SIG when its work is done; kill() can fail. *)
Definition fork_sig_sync : SigProgram fork_pc bool := {|
  code := fork_sync_main;
  reaps := false;
  reap := fun g => g;
  on_stop := false;
  lossy := true |}.

Definition fork_sync_start (origMask : bool) : proc fork_pc bool :=
  Proc FSigprocmask origMask false origMask false None None [].

End ForkSync.

(** ** simple_init.c *)
Module Init.

Inductive init_pc :=
  | ISigaction | ISetpgid | ITcsetpgrp | IMount | IRead | IFork | IPause | IForeground
  | IUmount | IExit | IFail | IUndefined.

(** The lines that fgets() will return, the command in cmd, and the commands that
    the children were created for. *)
Record shell := Shell { lines : list (list ascii); cmd : list ascii; started : list (list ascii) }.

(** Strip the trailing newline; cmd[strlen(cmd) - 1] is outside the array when the
    line starts with a null byte. *)
Definition stripNewline (line : list ascii) : option (list ascii) :=
  match last line with
  | None => None
  | Some c => Some (if Ascii.eqb c NL then take (length line - 1) line else line)
  end.

Definition init_main (proc_path : bool) (p : init_pc) (g : shell) : act init_pc shell :=
  match p with
  | ISigaction => AInstall ISetpgid IFail
  | ISetpgid => ATry ITcsetpgrp IFail
  | ITcsetpgrp => ATry (if proc_path then IMount else IRead) IFail
  | IMount => ATry IRead IFail
  | IRead =>
      match lines g with
      | [] => ATau g (if proc_path then IUmount else IExit)
      | line :: rest =>
          match stripNewline (cstring_of line) with
          | None => ATau g IUndefined
          | Some [] => ATau (Shell rest [] (started g)) IRead
          | Some c => ATau (Shell rest c (started g)) IFork
          end
      end
  | IFork => AFork (Shell (lines g) (cmd g) (started g ++ [cmd g])) IPause (if proc_path then IUmount else IExit)
  | IPause => APause IForeground
  | IForeground => ATry IRead IFail
  | IUmount => ATry IExit IFail
  | IExit | IFail | IUndefined => AEnd
  end.

Definition simple_init (proc_path : bool) : SigProgram init_pc shell := {|
  code := init_main proc_path;
  reaps := true;
  reap := fun g => g;
  on_stop := false;
  lossy := false |}.

Section Child.
Context {T : ErrText}.

(** The words of the command, NULL if word expansion fails; the array has one
    element more for the null pointer. *)
Definition expand_words (cmd : list ascii) : prog (option (list (list ascii))) :=
  s <- sys (Wordexp cmd) ;;
  match s with
  | inl _ =>
      print Stderr ($"Word expansion failed." ++ [NL] ++ ["009"%char] ++ $"Note that only simple commands plus arguments are supported" ++
                    [NL] ++ ["009"%char] ++ $"(no pipelines, I/O redirection, and so on)" ++ [NL]) ;;;
      Ret None
  | inr words =>
      ok <- sys (Alloc ((Z.of_nat (length words) + 1) * 8)) ;;
      if negb ok then perrorExit ENOMEM ($"calloc") else Ret (Some words)
  end.

(** The child: it never returns.  The file name is a null pointer if there are no
    words. *)
Definition init_child (cmd : list ascii) : prog unit :=
  arg_vec <- expand_words cmd ;;
  match arg_vec with
  | None => Halt (Exit EXIT_FAILURE)
  | Some words =>
      r <- sys (Setpgid 0 0) ;;
      match r with
      | Err e => perrorExit e ($"setpgid")
      | Ok _ =>
          pgrp <- sys Getpgrp ;;
          r <- sys (Tcsetpgrp STDIN_FILENO pgrp) ;;
          match r with
          | Err e => perrorExit e ($"tcsetpgrp-child")
          | Ok _ =>
              match words with
              | [] => Halt (Undefined "null file name")
              | file :: _ => e <- execvp file words ;; perrorExit e ($"execvp")
              end
          end
      end
  end.

Definition init_usage {A} (pname : list ascii) : prog A :=
  print Stderr ($"Usage: " ++ pname ++ $" [-v] [-p proc-mount]" ++ [NL]) ;;;
  print Stderr (["009"%char] ++ $"-v              Provide verbose logging" ++ [NL]) ;;;
  print Stderr (["009"%char] ++ $"-p proc-mount   Mount a procfs at specified path" ++ [NL]) ;;;
  Halt (Exit EXIT_FAILURE).

(** verbose and proc_path after the options that getopt() returned. *)
Fixpoint initOptions (pname : list ascii) (opts : list (ascii * list ascii)) (verbose : bool) (proc_path : option (list ascii)) :
    prog (bool * option (list ascii)) :=
  match opts with
  | [] => Ret (verbose, proc_path)
  | (c, optarg) :: opts =>
      if Ascii.eqb c "p" then initOptions pname opts verbose (Some optarg)
      else if Ascii.eqb c "v" then initOptions pname opts true proc_path
      else init_usage pname
  end.
End Child.

Definition init_start (input : list (list ascii)) : proc init_pc shell :=
  Proc ISigaction (Shell input [] []) false false false None None [].

End Init.

(** ** The machine *)

(** A step with no result, or with one. *)
Ltac no_more H := (by apply elem_of_nil in H).
Ltac only_one H := (apply list_elem_of_singleton in H as ->).

Section MachineFacts.
Context {PC G : Type} {P : SigProgram PC G}.
Abbreviation st := (proc PC G).

Lemma elem_of_changed l i : i ∈ changed l <-> l !! i = Some Changed.
Proof.
  unfold changed. rewrite list_elem_of_filter, elem_of_seq. split; [tauto|].
  intros H. split; [done|]. pose proof (lookup_lt_Some _ _ _ H). lia.
Qed.

Lemma changed_nil l : changed l = [] -> Changed ∉ l.
Proof.
  intros H [i Hi]%list_elem_of_lookup. apply elem_of_changed in Hi. rewrite H in Hi. by apply elem_of_nil in Hi.
Qed.

(** Invariants of runs, which may refer to the steps taken. *)
Lemma run_inv (I : list label -> st -> Prop) s0 ls s :
  I [] s0 -> (forall ls l s s', I ls s -> moves l s s' -> I (ls ++ [l]) s') -> run s0 ls s -> I ls s.
Proof. intros H0 Hstep. induction 1 as [s|s ls s' l s'' _ IH Hm]; [done|]. eapply Hstep; [by apply IH|done]. Qed.

(** A run whose every step is chosen by a label and an index into its results. *)
Fixpoint follow (path : list (label * nat)) (s : st) : option st :=
  match path with
  | [] => Some s
  | (l, k) :: path => match next l s !! k with Some s' => follow path s' | None => None end
  end.

Lemma follow_run_from path : forall s0 ls s s',
  run s0 ls s -> follow path s = Some s' -> run s0 (ls ++ map fst path) s'.
Proof.
  induction path as [|[l k] path IH]; intros s0 ls s s' Hr Hf; cbn [follow map fst] in *.
  - injection Hf as <-. by rewrite app_nil_r.
  - destruct (next l s !! k) as [s1|] eqn:Hn; [|done].
    rewrite (cons_middle l ls), app_assoc. apply (IH _ _ s1); [|done].
    apply run_snoc with s; [done|]. by apply list_elem_of_lookup_2 with k.
Qed.

Lemma follow_run path s s' : follow path s = Some s' -> run s (map fst path) s'.
Proof. apply (follow_run_from path s []), run_nil. Qed.

(** Steps that a child takes without changing its state do not count. *)
Definition stops (ls : list label) : Z := total (fun l => match l with LStop _ => 1 | _ => 0 end) ls.

Lemma stops_snoc ls l : stops (ls ++ [l]) = stops ls + (match l with LStop _ => 1 | _ => 0 end).
Proof. unfold stops. rewrite total_app. simpl. lia. Qed.

(** A measure that every step decreases, apart from the stops, which increase it by
    less than [K], bounds the length of the runs. *)
Lemma run_bound (I : st -> Prop) (mu : st -> Z) K s0 ls s :
  I s0 -> (forall s l s', I s -> moves l s s' -> I s') -> (forall s, I s -> 0 <= mu s) ->
  (forall s l s', I s -> moves l s s' -> mu s' + 1 <= mu s + (match l with LStop _ => K | _ => 0 end)) ->
  run s0 ls s -> Z.of_nat (length ls) <= mu s0 + K * stops ls.
Proof.
  intros H0 HI Hpos Hdec Hr.
  enough (I s /\ Z.of_nat (length ls) + mu s <= mu s0 + K * stops ls) as [HIs Hle] by (specialize (Hpos s HIs); lia).
  revert Hr. apply (run_inv (fun ls s => I s /\ Z.of_nat (length ls) + mu s <= mu s0 + K * stops ls)).
  - split; [done|]. unfold stops. simpl. lia.
  - intros ls' l s1 s' [Hs Hl] Hm. split; [by eapply HI|].
    rewrite length_app, stops_snoc. simpl length. specialize (Hdec _ _ _ Hs Hm). destruct l; nia.
Qed.

(** No wake-up is lost: a child that has changed is known to the handler, which is
    running, or the signal is pending. *)
Definition covered (s : st) : Prop :=
  (kids s <> [] -> installed s = true) /\ (Changed ∈ kids s -> pending s = true \/ handler s <> None).

Lemma lookup_installed s i x : covered s -> kids s !! i = Some x -> installed s = true.
Proof. intros [Hi _] Hk. apply Hi. intros E. by rewrite E in Hk. Qed.

Lemma covered_handler s s' : reaps = true -> covered s -> moves LHandler s s' -> covered s'.
Proof.
  unfold moves. intros Hreaps Hcov Hm. pose proof Hcov as [Hi Hc]. cbn [next] in Hm.
  destruct (handler s) as [[[] m]|] eqn:Hh; cbn [handler_steps] in Hm.
  - rewrite Hreaps in Hm. destruct (changed (kids s)) as [|j js] eqn:Hch.
    + only_one Hm. apply changed_nil in Hch. unfold handler_returns, covered. by destruct (asleep s); cbn.
    + rewrite <- Hch in Hm. apply list_elem_of_fmap in Hm as (k & -> & Hk). apply elem_of_changed in Hk.
      split; cbn; [|by right]. intros _. by eapply lookup_installed.
  - only_one Hm. split; cbn; [done|by right].
  - destruct (installed s && pending s && negb (blocked s) && negb (ended s)); [|no_more Hm].
    only_one Hm. split; cbn; [done|by right].
Qed.

(** [covered] is kept by every step of a program that installs the handler before
    it forks. *)
Lemma covered_step l s s' :
  reaps = true -> (forall g k kf, code (pc s) (glob s) = AFork g k kf -> installed s = true) ->
  covered s -> moves l s s' -> covered s'.
Proof.
  intros Hreaps Hfork Hcov Hm. pose proof Hcov as [Hi Hc]. destruct l as [| |i|i|i]; [|by eapply covered_handler|..];
    unfold moves in Hm; cbn [next] in Hm.
  - destruct (handler s) as [h|] eqn:Hh; [no_more Hm|]. destruct (asleep s); [no_more Hm|].
    unfold covered. destruct (code (pc s) (glob s)) eqn:Ha; cbn [perform] in Hm;
      repeat (apply elem_of_cons in Hm as [->|Hm]; [cbn; rewrite ?Hh|]); try no_more Hm; try done.
    split; [by intros _; eapply Hfork|]. intros [H|H%list_elem_of_singleton]%elem_of_app; [by apply Hc|done].
  - destruct (kids s !! i) as [[]|] eqn:Hk; try no_more Hm. only_one Hm. apply lookup_installed in Hk; [|done].
    unfold raise, covered. cbn. rewrite Hk. cbn. split; [done|by left].
  - destruct (kids s !! i) as [[]|] eqn:Hk; try no_more Hm. destruct on_stop; [|no_more Hm]. only_one Hm.
    unfold raise, covered. destruct (installed s) eqn:Hin; cbn; auto.
  - destruct (kids s !! i) as [[]|] eqn:Hk; try no_more Hm. destruct lossy; [|no_more Hm]. only_one Hm.
    unfold covered. cbn. split; [intros _; by eapply lookup_installed|]. intros [j Hj]%list_elem_of_lookup. apply Hc.
    apply lookup_changed in Hj as [[-> ?]|[_ Hj]]; [done|]. by eapply list_elem_of_lookup_2.
Qed.

End MachineFacts.

(** ** multi_SIGCHLD: the invariant *)
Module MultiFacts.
Import Multi.

Section Facts.
Context (n : nat).
#[local] Existing Instance multi_SIGCHLD.
Abbreviation mst := (proc multi_pc counts).
Abbreviation gone := (total (fun k => match k with Gone => 1 | _ => 0 end)).

(** What holds at each point. *)
Definition awake (s : mst) : Prop := asleep s = None /\ handler s = None.

Definition at_point (s : mst) : Prop :=
  match pc s with
  | MSigaction => kids s = [] /\ awake s /\ pending s = false
  | MSigprocmask => kids s = [] /\ awake s /\ installed s = true /\ pending s = false
  | MFork j => (1 <= j <= S n)%nat /\ length (kids s) = (j - 1)%nat /\ awake s /\ installed s = true /\ blocked s = true
  | MTest | MCount => length (kids s) = n /\ awake s /\ installed s = true /\ blocked s = true
  | MSigsuspend =>
      length (kids s) = n /\ installed s = true /\ (handler s = None -> 0 < numLiveChildren (glob s)) /\
      match asleep s, handler s with
      | None, None => blocked s = true
      | Some true, None => blocked s = false
      | Some true, Some (_, false) => blocked s = true
      | _, _ => False
      end
  | MExit => length (kids s) = n /\ awake s /\ blocked s = true /\ numLiveChildren (glob s) <= 0
  | MFail => awake s
  end.

Definition reaping (s : mst) : Z := match handler s with Some (HReap, _) => 1 | _ => 0 end.

Definition inv (s : mst) : Prop :=
  covered s /\ at_point s /\ numLiveChildren (glob s) + gone (kids s) = Z.of_nat n + reaping s.

Lemma multi_inv_start : inv (multi_start n).
Proof. split_and!; [split; [done|by intros ?%elem_of_nil]|by split_and!|unfold reaping; simpl; lia]. Qed.

Lemma multi_inv_covered l s s' : inv s -> moves (P := multi_SIGCHLD n) l s s' -> covered s'.
Proof.
  intros (Hc & Ha & _) Hm. eapply (covered_step (P := multi_SIGCHLD n)); [done| |exact Hc|exact Hm].
  intros g k kf Hcode. unfold at_point in Ha. cbn in Hcode. destruct (pc s); cbn in Hcode; try discriminate; try tauto.
Qed.

Lemma multi_inv_main s s' : inv s -> moves (P := multi_SIGCHLD n) LMain s s' -> inv s'.
Proof.
  intros Hinv Hm. split; [by eapply multi_inv_covered|]. destruct Hinv as (_ & Ha & Hn).
  unfold moves in Hm. cbn [next] in Hm.
  destruct (handler s) as [h|] eqn:Hh; [no_more Hm|]. destruct (asleep s) as [a|] eqn:Has; [no_more Hm|].
  unfold at_point, awake, reaping in *. rewrite Hh in *. cbn in Hm.
  destruct (pc s) as [| |j| | | | |] eqn:Hpc; cbn in Hm.
  all: try (destruct (Nat.leb_spec j n)); try (destruct (Z.ltb_spec 0 (numLiveChildren (glob s)))); cbn in Hm.
  all: repeat (apply elem_of_cons in Hm as [->|Hm]; [cbn; rewrite ?Has, ?Hh, ?Hpc|]); try no_more Hm.
  all: rewrite ?total_app; cbn; rewrite ?length_app; cbn; rewrite ?Has in Ha; destruct_and?; try (split_and!; try done; try lia).
  all: by repeat match goal with H : kids _ = _ |- _ => rewrite H | H : blocked _ = _ |- _ => rewrite H end.
Qed.

(** The handler runs only while the process sleeps. *)
Lemma sleeping s :
  inv s -> handler s <> None \/ blocked s = false /\ pending s = true /\ ended (P := multi_SIGCHLD n) s = false ->
  pc s = MSigsuspend /\ length (kids s) = n /\ installed s = true /\ asleep s = Some true /\
  match handler s with None => blocked s = false | Some (_, m) => blocked s = true /\ m = false end.
Proof.
  intros (_ & Ha & _) H. unfold at_point, awake, ended in *. cbn in H.
  destruct (pc s); cbn in H; destruct_and?; try (destruct H; destruct_and?; congruence).
  destruct (asleep s) as [[]|], (handler s) as [[h []]|]; destruct H; destruct_and?; try done; congruence.
Qed.

Lemma multi_inv_handler s s' : inv s -> moves (P := multi_SIGCHLD n) LHandler s s' -> inv s'.
Proof.
  intros Hinv Hm. split; [by eapply multi_inv_covered|]. pose proof (sleeping s Hinv) as Hs.
  destruct Hinv as (_ & _ & Hn). unfold moves in Hm. cbn [next] in Hm. unfold reaping in Hn.
  destruct (handler s) as [[[] m]|] eqn:Hh; cbn [handler_steps reaps multi_SIGCHLD] in Hm.
  - destruct Hs as (Hpc & Hl & Hi & Has & Hb & ->); [by left|].
    destruct (changed (kids s)) as [|j js] eqn:Hch.
    + only_one Hm. unfold handler_returns, wake_point, at_point, awake, reaping. rewrite Has. cbn. by rewrite Hpc.
    + rewrite <- Hch in Hm. apply list_elem_of_fmap in Hm as (k & -> & Hk). apply elem_of_changed in Hk.
      unfold at_point, reaping. cbn. rewrite Hpc, length_insert, Has, (total_insert _ _ _ _ Gone Hk). split_and!; try done; lia.
  - destruct Hs as (Hpc & Hl & Hi & Has & Hb & ->); [by left|]. only_one Hm.
    unfold at_point, reaping. cbn. rewrite Hpc, Has. split_and!; try done; lia.
  - destruct (installed s && pending s && negb (blocked s) && negb (ended s)) eqn:Hd; [|no_more Hm].
    apply andb_true_iff in Hd as [[[_ Hp]%andb_true_iff Hb%negb_true_iff]%andb_true_iff He%negb_true_iff].
    destruct Hs as (Hpc & Hl & Hi & Has & _); [by right|]. only_one Hm.
    unfold at_point, reaping. cbn. rewrite Hpc, Has, Hb. split_and!; try done; lia.
Qed.

(** A child never changes more than its own state and the pending bit. *)
Lemma multi_inv_frame s s' :
  inv s -> covered s' -> pc s' = pc s -> glob s' = glob s -> installed s' = installed s -> blocked s' = blocked s ->
  asleep s' = asleep s -> handler s' = handler s -> length (kids s') = length (kids s) -> kids s <> [] ->
  gone (kids s') = gone (kids s) -> inv s'.
Proof.
  intros (_ & Ha & Hn) Hc Hpc Hg Hi Hb Has Hh Hl Hk Hgo. split; [done|]. unfold reaping. rewrite Hg, Hgo, Hh.
  split; [|done]. unfold at_point, awake in *. rewrite Hpc, Hg, Hi, Hb, Has, Hh, Hl.
  destruct (pc s); tauto.
Qed.

Lemma multi_inv_step s l s' : inv s -> moves (P := multi_SIGCHLD n) l s s' -> inv s'.
Proof.
  intros Hinv Hm. pose proof (multi_inv_covered _ _ _ Hinv Hm) as Hc.
  destruct l as [| |i|i|i]; [by eapply multi_inv_main|by eapply multi_inv_handler|..];
    unfold moves in Hm; cbn [next on_stop lossy multi_SIGCHLD] in Hm;
    destruct (kids s !! i) as [[]|] eqn:Hk; try no_more Hm; only_one Hm.
  all: assert (kids s <> []) by (intros E; by rewrite E in Hk).
  all: apply (multi_inv_frame s); try done; unfold raise; cbn; destruct (installed s) eqn:Hin; cbn; rewrite ?length_insert; try done.
  all: rewrite (total_insert _ _ _ _ Changed Hk); lia.
Qed.

Lemma run_keeps_inv ls s : run (P := multi_SIGCHLD n) (multi_start n) ls s -> inv s.
Proof.
  apply (run_inv (fun _ => inv)); [apply multi_inv_start|]. intros _ l s1 s2. apply multi_inv_step.
Qed.

(** *** The number of signals caught *)

Definition sent : list kid -> Z := total (fun k => match k with Alive => 0 | _ => 1 end).
Definition inFlight (s : mst) : Z :=
  (if pending s then 1 else 0) + (if handler s then 1 else 0) + (match pc s with MCount => 1 | _ => 0 end).

(** Every signal caught was sent by a child that terminated or stopped, and a child
    is reaped only by a handler that is then counted. *)
Definition count_inv (ls : list label) (s : mst) : Prop :=
  0 <= sigCnt (glob s) /\ sigCnt (glob s) + inFlight s <= sent (kids s) + stops ls /\
  (sigCnt (glob s) = 0 -> handler s = None -> pc s <> MCount -> gone (kids s) = 0).

Lemma count_main ls s s' :
  inv s -> count_inv ls s -> moves (P := multi_SIGCHLD n) LMain s s' -> count_inv (ls ++ [LMain]) s'.
Proof.
  intros _ (H0 & H1 & H2) Hm. unfold moves in Hm. cbn [next] in Hm.
  destruct (handler s) as [h|] eqn:Hh; [no_more Hm|]. destruct (asleep s) as [a|] eqn:Has; [no_more Hm|].
  unfold count_inv, inFlight in *. rewrite stops_snoc. rewrite Hh in *. cbn in Hm.
  destruct (pc s) as [| |j| | | | |] eqn:Hpc; cbn in Hm.
  all: try (destruct (Nat.leb_spec j n)); try (destruct (Z.ltb_spec 0 (numLiveChildren (glob s)))); cbn in Hm.
  all: repeat (apply elem_of_cons in Hm as [->|Hm]; [cbn; rewrite ?Hh, ?Hpc; unfold sent; rewrite ?total_app; cbn; fold sent|]); try no_more Hm.
  all: split_and!; try done; try lia.
  all: intros ? ? _; rewrite ?H2; done || lia.
Qed.

Lemma count_handler ls s s' :
  inv s -> count_inv ls s -> moves (P := multi_SIGCHLD n) LHandler s s' -> count_inv (ls ++ [LHandler]) s'.
Proof.
  intros Hinv (H0 & H1 & H2) Hm. pose proof (sleeping s Hinv) as Hs. unfold moves in Hm. cbn [next] in Hm.
  unfold count_inv, inFlight in *. rewrite stops_snoc.
  destruct (handler s) as [[[] m]|] eqn:Hh; cbn [handler_steps reaps multi_SIGCHLD] in Hm.
  - destruct Hs as (Hpc & Hl & Hi & Has & Hb & ->); [by left|]. rewrite Hpc in *.
    destruct (changed (kids s)) as [|j js] eqn:Hch.
    + only_one Hm. unfold handler_returns, wake_point. rewrite Has. cbn. rewrite Hpc. cbn. split_and!; try done; lia.
    + rewrite <- Hch in Hm. apply list_elem_of_fmap in Hm as (k & -> & Hk). apply elem_of_changed in Hk.
      cbn. rewrite Hpc. unfold sent. rewrite (total_insert _ _ _ _ Gone Hk). fold sent. split_and!; try done; lia.
  - only_one Hm. cbn. split_and!; try done; lia.
  - destruct (installed s && pending s && negb (blocked s) && negb (ended s)) eqn:Hd; [|no_more Hm].
    apply andb_true_iff in Hd as [[[_ Hp]%andb_true_iff _]%andb_true_iff _]. rewrite Hp in H1.
    only_one Hm. cbn. split_and!; try done; lia.
Qed.

Lemma count_step ls l s s' :
  inv s -> count_inv ls s -> moves (P := multi_SIGCHLD n) l s s' -> count_inv (ls ++ [l]) s'.
Proof.
  intros Hinv Hcnt Hm. destruct l as [| |i|i|i]; [by eapply count_main|by eapply count_handler|..];
    destruct Hcnt as (H0 & H1 & H2);
    unfold moves in Hm; cbn [next on_stop lossy multi_SIGCHLD] in Hm;
    destruct (kids s !! i) as [[]|] eqn:Hk; try no_more Hm; only_one Hm.
  all: unfold count_inv, inFlight in *; rewrite stops_snoc; unfold raise; cbn; destruct (installed s); cbn; unfold sent in *;
    rewrite ?(total_insert _ _ _ _ Changed Hk); split_and!; try done; try (destruct (pending s); lia).
  all: intros; rewrite H2 by done; lia.
Qed.

(** *** Runs *)

Lemma not_gone (l : list kid) : total (fun k => match k with Gone => 0 | _ => 1 end) l + gone l = Z.of_nat (length l).
Proof. induction l as [|[] l IH]; simpl in *; lia. Qed.

Lemma some_alive (l : list kid) : gone l < Z.of_nat (length l) -> Changed ∉ l -> Alive ∈ l.
Proof.
  intros Hl Hc. pose proof (not_gone l) as Hn.
  destruct (total_positive (fun k => match k with Gone => 0 | _ => 1 end) l) as (i & x & Hi & Hx); [by intros []|lia|].
  apply list_elem_of_lookup_2 in Hi. by destruct x.
Qed.

(** A process that can do nothing has ended or waits for a child that lives. *)
Lemma progress s :
  inv s -> idle (P := multi_SIGCHLD n) s ->
  pc s = MExit \/ pc s = MFail \/ pc s = MSigsuspend /\ asleep s = Some true /\ Alive ∈ kids s.
Proof.
  intros Hinv [Hm Hh]. pose proof Hinv as ((_ & Hc) & Ha & Hn). cbn [next] in Hm, Hh.
  unfold at_point, awake in Ha. destruct (pc s) as [| |j| | | | |] eqn:Hpc; try tauto; destruct_and?;
    repeat match goal with H : handler s = _ |- _ => rewrite H in * | H : asleep s = _ |- _ => rewrite H in * end;
    cbn in Hm; rewrite ?Hpc in Hm; cbn in Hm; try discriminate Hm.
  - destruct (j <=? n)%nat; discriminate Hm.
  - destruct (0 <? numLiveChildren (glob s)); discriminate Hm.
  - destruct (handler s) as [[h m]|] eqn:Hs.
    { destruct h; cbn in Hh; [destruct (changed (kids s))|]; discriminate Hh. }
    destruct (asleep s) as [[]|] eqn:Has; try done. right; right. split_and!; [done..|].
    apply some_alive; [unfold reaping in Hn; rewrite Hs in Hn; assert (0 < numLiveChildren (glob s)) by auto; lia|].
    intros [Hp|?]%Hc; [|done]. unfold ended in Hh. cbn in Hh. rewrite Hpc, Hp in Hh.
    repeat match goal with H : _ s = _ |- _ => rewrite H in Hh end. discriminate Hh.
Qed.

(** The steps that remain: a round of the loop takes five, a terminated child two
    more in the handler. *)
Definition pcWeight (p : multi_pc) : Z :=
  match p with
  | MSigaction => 9 * Z.of_nat n + 5
  | MSigprocmask => 9 * Z.of_nat n + 4
  | MFork j => 9 * (Z.of_nat n + 1 - Z.of_nat j) + 3
  | MCount => 3
  | MTest => 2
  | MSigsuspend => 1
  | MExit | MFail => 0
  end.
Definition kidWeight (k : kid) : Z := match k with Alive => 8 | Changed => 2 | Gone => 0 end.
Definition mu (s : mst) : Z :=
  match handler s, asleep s with
  | Some (HWait, _), _ => 4
  | Some (HReap, _), _ => 5
  | None, Some _ => 0
  | None, None => pcWeight (pc s)
  end + (if pending s then 5 else 0) + total kidWeight (kids s).

Lemma mu_nonneg s : inv s -> 0 <= mu s.
Proof.
  intros (_ & Ha & _). unfold mu. pose proof (total_nonneg kidWeight (kids s) ltac:(by intros [])).
  assert (0 <= pcWeight (pc s)). { unfold at_point, pcWeight in *. destruct (pc s); lia. }
  destruct (handler s) as [[[] ?]|], (asleep s), (pending s); lia.
Qed.

Lemma mu_main s s' : inv s -> moves (P := multi_SIGCHLD n) LMain s s' -> mu s' + 1 <= mu s.
Proof.
  intros (_ & Ha & _) Hm. unfold moves in Hm. cbn [next] in Hm. unfold mu.
  destruct (handler s) as [h|] eqn:Hh; [no_more Hm|]. destruct (asleep s) as [a|] eqn:Has; [no_more Hm|].
  unfold at_point in Ha. cbn in Hm. pose proof (total_nonneg kidWeight (kids s) ltac:(by intros [])).
  destruct (pc s) as [| |j| | | | |] eqn:Hpc; cbn in Hm.
  all: try (destruct (Nat.leb_spec j n)); try (destruct (Z.ltb_spec 0 (numLiveChildren (glob s)))); cbn in Hm.
  all: repeat (apply elem_of_cons in Hm as [->|Hm]; [cbn; rewrite ?Has, ?Hh, ?Hpc; rewrite ?total_app; cbn|]); try no_more Hm.
  all: destruct (pending s); unfold pcWeight; lia.
Qed.

Lemma mu_handler s s' : inv s -> moves (P := multi_SIGCHLD n) LHandler s s' -> mu s' + 1 <= mu s.
Proof.
  intros Hinv Hm. pose proof (sleeping s Hinv) as Hs. unfold moves in Hm. cbn [next] in Hm. unfold mu.
  destruct (handler s) as [[[] m]|] eqn:Hh; cbn [handler_steps reaps multi_SIGCHLD] in Hm.
  - destruct Hs as (Hpc & _ & _ & Has & _); [by left|].
    destruct (changed (kids s)) as [|j js] eqn:Hch.
    + only_one Hm. unfold handler_returns, wake_point. rewrite Has. cbn. rewrite Hpc. destruct (pending s); simpl; lia.
    + rewrite <- Hch in Hm. apply list_elem_of_fmap in Hm as (k & -> & Hk). apply elem_of_changed in Hk.
      cbn. rewrite (total_insert _ _ _ _ Gone Hk). simpl. destruct (pending s); lia.
  - only_one Hm. cbn. destruct (pending s); lia.
  - destruct (installed s && pending s && negb (blocked s) && negb (ended s)) eqn:Hd; [|no_more Hm].
    apply andb_true_iff in Hd as [[[_ Hp]%andb_true_iff Hb%negb_true_iff]%andb_true_iff He%negb_true_iff].
    destruct Hs as (_ & _ & _ & Has & _); [by right|]. only_one Hm. cbn. rewrite Has, Hp. lia.
Qed.

Lemma mu_step s l s' :
  inv s -> moves (P := multi_SIGCHLD n) l s s' -> mu s' + 1 <= mu s + (match l with LStop _ => 6 | _ => 0 end).
Proof.
  intros Hinv Hm. destruct l as [| |i|i|i].
  - pose proof (mu_main _ _ Hinv Hm). lia.
  - pose proof (mu_handler _ _ Hinv Hm). lia.
  - unfold moves in Hm; cbn [next] in Hm. destruct (kids s !! i) as [[]|] eqn:Hk; try no_more Hm. only_one Hm.
    unfold mu, raise. cbn. destruct (installed s); cbn; rewrite (total_insert _ _ _ _ Changed Hk); simpl; destruct (pending s); lia.
  - unfold moves in Hm; cbn [next on_stop multi_SIGCHLD] in Hm. destruct (kids s !! i) as [[]|] eqn:Hk; try no_more Hm. only_one Hm.
    unfold mu, raise. destruct (installed s); cbn; destruct (pending s); lia.
  - unfold moves in Hm; cbn [next lossy multi_SIGCHLD] in Hm. destruct (kids s !! i) as [[]|]; no_more Hm.
Qed.

(** All that the program promises. *)
Lemma multi_SIGCHLD_runs ls s :
  run (P := multi_SIGCHLD n) (multi_start n) ls s ->
  (pc s = MExit -> kids s = replicate n Gone /\ numLiveChildren (glob s) = 0 /\
     sigCnt (glob s) <= Z.of_nat n + stops ls /\ (n <> O -> 1 <= sigCnt (glob s))) /\
  (idle (P := multi_SIGCHLD n) s -> pc s = MExit \/ pc s = MFail \/ asleep s = Some true /\ Alive ∈ kids s) /\
  Z.of_nat (length ls) <= 9 * Z.of_nat n + 5 + 6 * stops ls.
Proof.
  intros Hr. pose proof (run_keeps_inv _ _ Hr) as Hinv. split_and!.
  - intros Hpc. assert (inv s /\ count_inv ls s) as [_ (H0 & H1 & H2)].
    { revert Hr. apply (run_inv (fun ls s => inv s /\ count_inv ls s)).
      - split; [apply multi_inv_start|]. by split_and!.
      - intros ls' l s1 s2 [Hi Hc] Hm. split; [by eapply multi_inv_step|by eapply count_step]. }
    destruct Hinv as (_ & Ha & Hn). unfold at_point, awake, reaping, inFlight in *. rewrite Hpc in *.
    destruct Ha as (Hl & (_ & Hh) & _ & Hle). rewrite Hh in *. pose proof (not_gone (kids s)) as Hng.
    pose proof (total_nonneg (fun k => match k with Gone => 0 | _ => 1 end) (kids s) ltac:(by intros [])).
    assert (sent (kids s) <= Z.of_nat n) as Hsent.
    { rewrite <- Hl. clear. unfold sent. induction (kids s) as [|[] l IH]; simpl in *; lia. }
    split_and!; [|lia|destruct (pending s); lia|intros Hn0; destruct (decide (sigCnt (glob s) = 0)) as [E|]; [|lia]].
    + assert (total (fun k => match k with Gone => 0 | _ => 1 end) (kids s) = 0) as Hz by lia.
      rewrite <- Hl. clear -Hz. induction (kids s) as [|k l IH]; [done|]. simpl in *.
      pose proof (total_nonneg (fun k => match k with Gone => 0 | _ => 1 end) l ltac:(by intros [])).
      destruct k; try lia. by rewrite <- IH.
    + specialize (H2 E eq_refl ltac:(discriminate)). lia.
  - intros Hid. pose proof (progress s Hinv Hid). tauto.
  - pose proof (run_bound inv mu 6 (multi_start n) ls s multi_inv_start multi_inv_step mu_nonneg mu_step Hr) as Hb.
    unfold mu in Hb. simpl in Hb. lia.
Qed.

End Facts.
End MultiFacts.

(** ** fork_sig_sync: the invariant *)
Module ForkSyncFacts.
Import ForkSync.
#[local] Existing Instance fork_sig_sync.
Abbreviation fst := (proc fork_pc bool).

(** The signal has been sent but not delivered, or the handler has run. *)
Definition at_point (s : fst) : Prop :=
  match pc s with
  | FSigprocmask => kids s = [] /\ asleep s = None /\ handler s = None /\ pending s = false /\ installed s = false
  | FSigaction => kids s = [] /\ asleep s = None /\ handler s = None /\ pending s = false /\ installed s = false /\ blocked s = true
  | FFork => kids s = [] /\ asleep s = None /\ handler s = None /\ pending s = false /\ installed s = true /\ blocked s = true
  | FSigsuspend => exists k, kids s = [k] /\ installed s = true /\
      match asleep s, handler s with
      | None, None => blocked s = true /\ pending s = bool_decide (k = Changed)
      | Some true, None => blocked s = false /\ pending s = bool_decide (k = Changed)
      | Some true, Some (HWait, false) => blocked s = true /\ k = Changed /\ pending s = false
      | _, _ => False
      end
  | FGot => kids s = [Changed] /\ asleep s = None /\ handler s = None /\ pending s = false /\ installed s = true
  | FExit => kids s = [Changed] /\ asleep s = None /\ handler s = None /\ blocked s = glob s
  | FFail => handler s = None /\ (length (kids s) <= 1)%nat
  end.

Definition mu (s : fst) : Z :=
  match handler s, asleep s with
  | Some _, _ => 2
  | None, Some _ => 3
  | None, None =>
      match pc s with FSigprocmask => 8 | FSigaction => 7 | FFork => 6 | FSigsuspend => 4 | FGot => 1 | FExit | FFail => 0 end
  end + total (fun k => match k with Alive => 1 | _ => 0 end) (kids s).

Lemma one_kid (l : list kid) i x : (length l <= 1)%nat -> l !! i = Some x -> l = [x] /\ i = O.
Proof. destruct l as [|k [|k' l]], i as [|[|i]]; simpl; intros; try done; try lia. split; congruence. Qed.

Lemma alive_point s j :
  at_point s -> kids s !! j = Some Alive -> kids s = [Alive] /\ j = O /\ (pc s = FSigsuspend \/ pc s = FFail).
Proof.
  intros Ha Hk. assert (length (kids s) <= 1)%nat as Hl.
  { unfold at_point in Ha. destruct (pc s); destruct_and?; try (match goal with H : kids s = _ |- _ => rewrite H end; simpl; lia); try done.
    destruct Ha as (k & -> & _). simpl. lia. }
  apply one_kid in Hk as [Hk ->]; [|done]. split_and!; [done..|].
  unfold at_point in Ha. destruct (pc s); destruct_and?; try congruence; auto.
Qed.

Lemma sync_main s s' : at_point s -> moves LMain s s' -> at_point s' /\ mu s' + 1 <= mu s.
Proof.
  unfold moves. intros Ha Hm. destruct s as [p g i b pe a h ks]. unfold at_point, mu in *. cbn in Ha.
  cbn [next pc glob asleep handler] in Hm. destruct h; [no_more Hm|]. destruct a; [no_more Hm|].
  destruct p; cbn in Hm, Ha; repeat (apply elem_of_cons in Hm as [->|Hm]; [cbn|]); try no_more Hm;
    destruct_and?; simplify_eq; cbn; split_and!; try done; try lia.
  all: naive_solver.
Qed.

Lemma sync_handler s s' : at_point s -> moves LHandler s s' -> at_point s' /\ mu s' + 1 <= mu s.
Proof.
  unfold moves. intros Ha Hm. destruct s as [p g i b pe a h ks]. unfold at_point, mu in *. cbn in Ha.
  cbn [next pc glob installed blocked pending asleep handler kids] in Hm. destruct h as [[[] m]|].
  - destruct p; cbn in Ha; destruct_and?; try done. destruct Ha as (k & -> & -> & Ha).
    destruct a as [[]|]; try done. destruct m; [done|]. destruct Ha as (-> & -> & ->).
    cbn in Hm. only_one Hm. cbn. split_and!; try done; lia.
  - destruct p; cbn in Ha; destruct_and?; try done. destruct Ha as (k & -> & -> & Ha). by destruct a as [[]|].
  - destruct (i && pe && negb b && negb (ended (Proc p g i b pe a None ks))) eqn:Hd; [|no_more Hm]. only_one Hm.
    apply andb_true_iff in Hd as [[[-> ->]%andb_true_iff Hb%negb_true_iff]%andb_true_iff He%negb_true_iff].
    simplify_eq. destruct p; cbn in Ha, He; destruct_and?; try done. destruct Ha as (k & -> & _ & Ha).
    destruct a as [[]|]; destruct_and?; try done. cbn. split; [|lia]. exists k. split_and!; try done.
    by eapply bool_decide_eq_true.
Qed.

Lemma sync_step s l s' : at_point s -> moves l s s' -> at_point s' /\ mu s' + 1 <= mu s.
Proof.
  intros Ha Hm. destruct l as [| |j|j|j]; [by apply sync_main|by apply sync_handler|..];
    unfold moves in Hm; cbn [next on_stop lossy fork_sig_sync] in Hm;
    destruct (kids s !! j) as [[]|] eqn:Hk; try no_more Hm; only_one Hm;
    destruct (alive_point s j Ha Hk) as (Hks & -> & Hp); destruct s as [p g i b pe a h ks]; cbn in *; subst ks.
  all: unfold at_point, mu, raise in *; destruct Hp; simplify_eq/=; [destruct Ha as (? & [= <-] & -> & Ha)|]; cbn.
  - destruct a as [[]|], h as [[[] []]|]; destruct_and?; try done; cbn; split; try lia; eauto.
  - destruct i; cbn; destruct Ha as [-> _], a; split; auto; lia.
  - destruct a as [[]|], h as [[[] []]|]; destruct_and?; try done; cbn; split; try lia; eauto 10.
  - destruct Ha as [-> _], a; split; auto; lia.
Qed.

Lemma glob_step s l s' : moves (P := fork_sig_sync) l s s' -> glob s' = glob s.
Proof.
  unfold moves. intros Hm. destruct l as [| |j|j|j]; cbn [next on_stop lossy fork_sig_sync] in Hm.
  - destruct (handler s), (asleep s); try no_more Hm.
    cbn in Hm. destruct (pc s); cbn in Hm; repeat (apply elem_of_cons in Hm as [->|Hm]; [done|]); no_more Hm.
  - destruct (handler s) as [[[] m]|]; [only_one Hm; unfold handler_returns; by destruct (asleep s)|by only_one Hm|].
    destruct (installed s && pending s && negb (blocked s) && negb (ended s)); [by only_one Hm|no_more Hm].
  - destruct (kids s !! j) as [[]|]; try no_more Hm. only_one Hm. unfold raise. by destruct (installed _).
  - destruct (kids s !! j) as [[]|]; no_more Hm.
  - destruct (kids s !! j) as [[]|]; try no_more Hm. by only_one Hm.
Qed.

Lemma fork_sig_sync_runs orig ls s :
  run (P := fork_sig_sync) (fork_sync_start orig) ls s ->
  (pc s = FGot \/ pc s = FExit -> kids s = [Changed]) /\
  (pc s = FExit -> blocked s = orig) /\
  (idle (P := fork_sig_sync) s -> pc s = FExit \/ pc s = FFail \/ asleep s = Some true /\ kids s <> [Changed]) /\
  (length ls <= 8)%nat.
Proof.
  intros Hr. assert (at_point s /\ glob s = orig /\ Z.of_nat (length ls) + mu s <= 8) as (Ha & Hg & Hl).
  { revert Hr. apply (run_inv (fun ls s => at_point s /\ glob s = orig /\ Z.of_nat (length ls) + mu s <= 8)).
    - by split_and!.
    - intros ls' l s1 s2 (Hi & Hg & Hb) Hm. pose proof (glob_step _ _ _ Hm). apply sync_step in Hm as [Hi' Hmu]; [|done].
      rewrite length_app. simpl length. split_and!; [done|congruence|lia]. }
  clear Hr. unfold at_point, mu, idle in *. split_and!.
  - intros [E|E]; rewrite E in Ha; tauto.
  - intros E; rewrite E in Ha. destruct_and?. congruence.
  - intros [Hm Hh]. destruct s as [p g i b pe a h ks]; cbn in *.
    destruct p; auto; destruct_and?; subst; try discriminate Hm.
    destruct Ha as (k & -> & -> & Ha). destruct a as [[]|], h as [[[] []]|]; destruct_and?; try done; subst; cbn in *.
    right; right. split; [done|]. intros [= ->]. done.
  - pose proof (total_nonneg (fun k => match k with Alive => 1 | _ => 0 end) (kids s) ltac:(by intros [])).
    destruct (handler s), (asleep s), (pc s); lia.
Qed.
End ForkSyncFacts.

(** ** simple_init: the invariant *)
Module InitFacts.
Import Init.

(** The commands in the lines of input, up to a line that starts with a null
    byte. *)
Fixpoint commandsOf (ls : list (list ascii)) : list (list ascii) :=
  match ls with
  | [] => []
  | line :: ls =>
      match stripNewline (cstring_of line) with
      | None => []
      | Some [] => commandsOf ls
      | Some c => c :: commandsOf ls
      end
  end.

Section Facts.
Context (proc_path : bool) (input : list (list ascii)).
#[local] Existing Instance simple_init.
Abbreviation ist := (proc init_pc shell).

Definition in_hand (s : ist) : list (list ascii) := match pc s with IFork => [cmd (glob s)] | _ => [] end.

Definition inv (s : ist) : Prop :=
  covered s /\
  (match pc s with ISigaction => kids s = [] /\ handler s = None /\ installed s = false | IFail => True | _ => installed s = true end) /\
  (asleep s <> None -> pc s = IPause) /\
  length (kids s) = length (started (glob s)) /\
  exists rest, commandsOf input = started (glob s) ++ in_hand s ++ rest /\
    (match pc s with IUndefined | IExit | IUmount | IFail => True | _ => rest = commandsOf (lines (glob s)) end).

Lemma init_inv_start : inv (init_start input).
Proof. split_and!; try done; [split; [done|by intros ?%elem_of_nil]|]. by exists (commandsOf input). Qed.

Lemma init_inv_covered l s s' : inv s -> moves (P := simple_init proc_path) l s s' -> covered s'.
Proof.
  intros (Hc & Ha & _) Hm. eapply (covered_step (P := simple_init proc_path)); [done| |exact Hc|exact Hm].
  intros g k kf Hcode. cbn in Hcode. destruct (pc s); cbn in Hcode; try discriminate; try done.
Qed.

Lemma init_inv_main s s' : inv s -> moves (P := simple_init proc_path) LMain s s' -> inv s'.
Proof.
  intros Hinv Hm. split; [by eapply init_inv_covered|]. destruct Hinv as (_ & Ha & Has & Hl & rest & Hr & Hrest).
  unfold moves in Hm. cbn [next] in Hm. unfold in_hand in *.
  destruct (handler s) as [h|] eqn:Hh; [no_more Hm|]. destruct (asleep s) as [a|] eqn:Hs; [no_more Hm|].
  cbn in Hm. destruct (pc s) eqn:Hpc; cbn in Hm.
  5: { destruct (lines (glob s)) as [|line ls] eqn:Hls; [destruct proc_path|]; cbn in Hrest.
       3: destruct (stripNewline (cstring_of line)) as [[|c w]|] eqn:Hstrip.
       all: only_one Hm; cbn; rewrite Hs; subst rest; split_and!; try done; eauto. }
  5: { repeat (apply elem_of_cons in Hm as [->|Hm]; [cbn; rewrite ?Hs|]); [| |no_more Hm].
       - rewrite !length_app, Hl. split_and!; try done. exists rest. by rewrite <- app_assoc.
       - destruct proc_path; split_and!; try done; exists (cmd (glob s) :: rest); by split. }
  all: try destruct proc_path; repeat (apply elem_of_cons in Hm as [->|Hm]; [cbn; rewrite ?Hs, ?Hpc|]); try no_more Hm;
    split_and!; try done; exists rest; by split.
Qed.

(** Steps of the handler and of the children. *)
Lemma init_inv_frame s s' :
  inv s -> covered s' -> pc s' = pc s -> glob s' = glob s -> installed s' = installed s ->
  asleep s' = asleep s -> (pc s = ISigaction -> handler s' = None) -> length (kids s') = length (kids s) -> inv s'.
Proof.
  intros (_ & Ha & Has & Hl & rest & Hr & Hrest) Hc Hpc Hg Hi Hs Hh Hk. split; [done|].
  unfold in_hand in *. rewrite Hpc, Hg, Hi, Hs, Hk. split_and!; [|done..|by exists rest].
  destruct (pc s); try done. destruct Ha as (Hks & Hh' & ?). split_and!; [|by apply Hh|done].
  rewrite Hks in Hk. by apply nil_length_inv.
Qed.

Lemma init_inv_handler s s' : inv s -> moves (P := simple_init proc_path) LHandler s s' -> inv s'.
Proof.
  intros Hinv Hm. pose proof (init_inv_covered _ _ _ Hinv Hm) as Hc. unfold moves in Hm. cbn [next] in Hm.
  assert (pc s = ISigaction -> handler s = None /\ installed s = false) as Hp.
  { destruct Hinv as (_ & Ha & _). intros E. rewrite E in Ha. tauto. }
  destruct (handler s) as [[[] m]|] eqn:Hh; cbn [handler_steps reaps simple_init] in Hm.
  - destruct (changed (kids s)) as [|j js] eqn:Hch.
    + only_one Hm. unfold handler_returns in *. destruct (asleep s) as [m'|] eqn:Hs.
      * split; [done|]. destruct Hinv as (_ & Ha & Has & Hl & rest & Hr & Hrest).
        unfold wake_point, in_hand in *. cbn. rewrite Has in * by congruence. cbn. split_and!; try done. by exists rest.
      * by apply (init_inv_frame s).
    + rewrite <- Hch in Hm. apply list_elem_of_fmap in Hm as (k & -> & Hk).
      apply (init_inv_frame s); try done; [intros [? _]%Hp; congruence|cbn; by rewrite length_insert].
  - only_one Hm. apply (init_inv_frame s); try done. intros [? _]%Hp; congruence.
  - destruct (installed s) eqn:Hi; [|no_more Hm].
    destruct (true && pending s && negb (blocked s) && negb (ended s)); [|no_more Hm]. only_one Hm.
    apply (init_inv_frame s); try done. by intros [_ ?]%Hp.
Qed.

Lemma init_inv_step s l s' : inv s -> moves (P := simple_init proc_path) l s s' -> inv s'.
Proof.
  intros Hinv Hm. pose proof (init_inv_covered _ _ _ Hinv Hm) as Hc.
  assert (pc s = ISigaction -> handler s = None) as Hp.
  { destruct Hinv as (_ & Ha & _). intros E. rewrite E in Ha. tauto. }
  destruct l as [| |i|i|i]; [by apply (init_inv_main s)|by apply (init_inv_handler s)|..];
    unfold moves in Hm; cbn [next on_stop lossy simple_init] in Hm;
    destruct (kids s !! i) as [[]|] eqn:Hk; try no_more Hm. only_one Hm.
  apply (init_inv_frame s); unfold raise in *; cbn in *; destruct (installed s) eqn:Hi; cbn in *; rewrite ?length_insert; try done.
Qed.

(** What the child has done when it executes the command. *)
Definition child_post (command : list ascii) (o : outcome unit) (h : history) : Prop :=
  stops_failing o \/
  exists words size pgrp rest,
    h = rest ++ [Ev (Tcsetpgrp STDIN_FILENO pgrp) (Ok tt); Ev Getpgrp pgrp; Ev (Setpgid 0 0) (Ok tt);
                 Ev (Alloc size) true; Ev (Wordexp command) (inr words)] /\
    match words with
    | [] => o = Stop (Undefined "null file name")
    | file :: _ => o = Stop (Execed file words)
    end.

Lemma wp_init_child {T : ErrText} command : wp posix (init_child command) (child_post command) [].
Proof.
  unfold init_child, expand_words. apply wp_bind, wp_sys_bind. intros [e|words] _.
  { apply wp_sys_bind. intros [] _. left. unfold stops_failing. auto. }
  apply wp_sys_bind. intros [] _; cbn [negb].
  2: { apply wp_perrorExit. intros [a|s] k Ho _; [destruct Ho as [?|[?|?]]; discriminate|].
       left. unfold stops_failing in *. naive_solver. }
  apply wp_sys_bind. intros [[]|e] _; [|by apply wp_perrorExit; left].
  apply wp_sys_bind. intros pgrp _. apply wp_sys_bind. intros [[]|e] _; [|by apply wp_perrorExit; left].
  destruct words as [|file words].
  - right. by exists [], ((Z.of_nat 0 + 1) * 8), pgrp, [].
  - apply wp_bind, wp_sys_bind. intros [e|] _; [by apply wp_perrorExit; left|].
    right. exists (file :: words), ((Z.of_nat (length (file :: words)) + 1) * 8), pgrp. by eexists [_].
Qed.

Lemma simple_init_runs ls s :
  run (P := simple_init proc_path) (init_start input) ls s ->
  (exists rest, commandsOf input = started (glob s) ++ rest /\ (pc s = IRead -> rest = commandsOf (lines (glob s)))) /\
  length (kids s) = length (started (glob s)) /\
  (Changed ∈ kids s -> pending s = true \/ handler s <> None).
Proof.
  intros Hr. assert (inv s) as ((_ & Hc) & _ & _ & Hl & rest & Hrest & He).
  { revert Hr. apply (run_inv (fun _ => inv)); [apply init_inv_start|]. intros _ l s1 s2. apply init_inv_step. }
  split_and!; [|done..]. exists (in_hand s ++ rest). split; [done|]. intros E. unfold in_hand. by rewrite E in *.
Qed.


End Facts.
End InitFacts.

(** ** The theorem *)

(** All three children terminate before the parent looks; one signal is caught. *)
Definition oneSignal : list (label * nat) :=
  map (fun l => (l, O)) [LMain; LMain; LMain; LMain; LMain; LMain; LSend 0; LSend 1; LSend 2; LMain; LMain;
    LHandler; LHandler; LHandler; LHandler; LHandler; LHandler; LHandler; LHandler; LMain; LMain].

(** The child terminates between fork() and pause(). *)
Definition lostWakeup : list (label * nat) :=
  map (fun l => (l, O)) [LMain; LMain; LMain; LMain; LMain; LSend 0; LHandler; LHandler; LHandler; LHandler; LMain].

(** C7: Waiting for signals from children.  multi_SIGCHLD, with any number of
    children and in every interleaving of the parent, its handler and the
    children: it reports the end of its work only when every child has been
    reaped and numLiveChildren is zero, having caught at least one and at most as
    many signals as children ended or stopped; no wake-up is lost, that is, if the
    process can do nothing it has ended or sleeps while a child is alive; and it
    takes at most 9 steps per child and 6 per stop of a child, and 5 more.
    Signals do not queue: three children may cause one signal.  In fork_sig_sync the
    parent goes on only after the child has sent its signal, with the original
    mask at the end, does not wait for ever unless the child could not send it, and
    both take at most 8 steps.  simple_init starts exactly the commands of its
    input in order and leaves no child that ended unnoticed; a child executes the
    words of its command in a process group of its own in the foreground of the
    terminal, or exits with failure (without words it passes a null pointer to
    execvp()); but because SIGCHLD is not blocked, a child that ends before
    pause() makes simple_init sleep for ever. *)
Theorem signal_waits {T : ErrText} :
  (forall n ls s,
    run (P := Multi.multi_SIGCHLD n) (Multi.multi_start n) ls s ->
    (pc s = Multi.MExit -> kids s = replicate n Gone /\ Multi.numLiveChildren (glob s) = 0 /\
       Multi.sigCnt (glob s) <= Z.of_nat n + stops ls /\ (n <> O -> 1 <= Multi.sigCnt (glob s))) /\
    (idle (P := Multi.multi_SIGCHLD n) s ->
       pc s = Multi.MExit \/ pc s = Multi.MFail \/ asleep s = Some true /\ Alive ∈ kids s) /\
    Z.of_nat (length ls) <= 9 * Z.of_nat n + 5 + 6 * stops ls) /\
  (exists ls s, run (P := Multi.multi_SIGCHLD 3) (Multi.multi_start 3) ls s /\ pc s = Multi.MExit /\ Multi.sigCnt (glob s) = 1) /\
  (forall orig ls s,
    run (P := ForkSync.fork_sig_sync) (ForkSync.fork_sync_start orig) ls s ->
    (pc s = ForkSync.FGot \/ pc s = ForkSync.FExit -> kids s = [Changed]) /\
    (pc s = ForkSync.FExit -> blocked s = orig) /\
    (idle (P := ForkSync.fork_sig_sync) s ->
       pc s = ForkSync.FExit \/ pc s = ForkSync.FFail \/ asleep s = Some true /\ kids s <> [Changed]) /\
    (length ls <= 8)%nat) /\
  (forall proc_path input ls s,
    run (P := Init.simple_init proc_path) (Init.init_start input) ls s ->
    (exists rest, InitFacts.commandsOf input = Init.started (glob s) ++ rest /\
       (pc s = Init.IRead -> rest = InitFacts.commandsOf (Init.lines (glob s)))) /\
    length (kids s) = length (Init.started (glob s)) /\
    (Changed ∈ kids s -> pending s = true \/ handler s <> None)) /\
  (forall command, wp posix (Init.init_child command) (InitFacts.child_post command) []) /\
  (exists ls s,
    run (P := Init.simple_init false) (Init.init_start [$"ls" ++ [NL]; $"ps" ++ [NL]]) ls s /\
    pc s = Init.IPause /\ Init.lines (glob s) = [$"ps" ++ [NL]] /\ kids s = [Gone] /\
    forall l, next (P := Init.simple_init false) l s = []).
Proof.
  split_and!.
  - exact MultiFacts.multi_SIGCHLD_runs.
  - eexists _, _. split; [apply (follow_run (P := Multi.multi_SIGCHLD 3) oneSignal); vm_compute; reflexivity|]. done.
  - exact ForkSyncFacts.fork_sig_sync_runs.
  - exact InitFacts.simple_init_runs.
  - exact InitFacts.wp_init_child.
  - eexists _, _. split; [apply (follow_run (P := Init.simple_init false) lostWakeup); vm_compute; reflexivity|].
    split_and!; [done..|]. by intros [| |[|i]|[|i]|[|i]].
Qed.

Lemma signal_waits_witness :
  exists ls s, run (P := Multi.multi_SIGCHLD 3) (Multi.multi_start 3) ls s /\ pc s = Multi.MExit /\
    kids s = replicate 3 Gone /\ length ls = 21%nat.
Proof.
  eassert (run (P := Multi.multi_SIGCHLD 3) (Multi.multi_start 3) _ _) as Hr.
  { apply (follow_run (P := Multi.multi_SIGCHLD 3) oneSignal). vm_compute. reflexivity. }
  eexists _, _. split; [exact Hr|]. split; [reflexivity|]. split; [|reflexivity].
  apply (proj1 (signal_waits (T := demo_text)) 3%nat _ _ Hr). reflexivity.
Defined.
