(* ===== verification/LockShell.v ===== *)
(** * filelock/i_fcntl_locking.c: the interactive locking program

    The files of the command line are opened, then each line of standard input
    is a command that is parsed with sscanf() and carried out by one call of
    fcntl().  The variables that sscanf() fills are declared outside the loop: a
    field that a line lacks keeps the value of an earlier line, and has none
    before the first. *)

From S2P Require Import Prelude Sys LibErrors StreamIO FileLock FileIO.

Definition LOCK_LINE : Z := 100.
Definition EDEADLK : Z := 35.
Definition SEEK_CUR : Z := 1.
Definition SEEK_END : Z := 2.
Definition F_OFD_GETLK : Z := 36.
Definition F_OFD_SETLK : Z := 37.
Definition F_OFD_SETLKW : Z := 38.
Definition S_ISGID : Z := 1024.
Definition S_IXGRP : Z := 8.
Definition O_RDWR : Z := 2.
Definition TAB : ascii := "009"%char.

(** "%-10s": padded on the right. *)
Definition pad_right (n : nat) (s : list ascii) : list ascii := s ++ replicate (n - length s) " "%char.

(** ** The fields of a command *)

Record vars := Vars {
  v_fileNum : option Z; v_cmdCh : option ascii; v_lock : option ascii; v_st : option Z; v_len : option Z; v_whence : ascii }.

(** The variables before the first line. *)
Definition no_vars : vars := Vars None None None None None "s"%char.

Inductive field := FNum | FCmd | FLock | FStart | FLen | FWhence.

(** " %c" and "%lld" (a value outside the range of long long is the nearest one). *)
Definition scan_char (s : list ascii) : option (ascii * list ascii) :=
  match skip_space s with [] => None | c :: s => Some (c, s) end.
Definition scan_long (s : list ascii) : option (Z * list ascii) :=
  let r := strtol s 10 in if (length (st_end r) =? length s)%nat then None else Some (st_val r, st_end r).

Definition set_num (x : Z) (v : vars) := Vars (Some (int_of x)) (v_cmdCh v) (v_lock v) (v_st v) (v_len v) (v_whence v).
Definition set_cmd (c : ascii) (v : vars) := Vars (v_fileNum v) (Some c) (v_lock v) (v_st v) (v_len v) (v_whence v).
Definition set_lock (c : ascii) (v : vars) := Vars (v_fileNum v) (v_cmdCh v) (Some c) (v_st v) (v_len v) (v_whence v).
Definition set_st (x : Z) (v : vars) := Vars (v_fileNum v) (v_cmdCh v) (v_lock v) (Some x) (v_len v) (v_whence v).
Definition set_len (x : Z) (v : vars) := Vars (v_fileNum v) (v_cmdCh v) (v_lock v) (v_st v) (Some x) (v_whence v).
Definition set_whence (c : ascii) (v : vars) := Vars (v_fileNum v) (v_cmdCh v) (v_lock v) (v_st v) (v_len v) c.

(** One conversion: the rest of the line and the variables. *)
Definition convert (f : field) (s : list ascii) (v : vars) : option (list ascii * vars) :=
  let char set := match scan_char s with Some (c, r) => Some (r, set c v) | None => None end in
  let long set := match scan_long s with Some (x, r) => Some (r, set x v) | None => None end in
  match f with
  | FNum => long set_num
  | FCmd => char set_cmd
  | FLock => char set_lock
  | FStart => long set_st
  | FLen => long set_len
  | FWhence => char set_whence
  end.

(** sscanf(): the number of conversions (the end of the input before the first one
    is -1 for the caller, who only tests for a minimum). *)
Fixpoint sscanf (fs : list field) (s : list ascii) (v : vars) : Z * vars :=
  match fs with
  | [] => (0, v)
  | f :: fs =>
      match convert f s v with
      | None => (0, v)
      | Some (r, v) => let '(n, v) := sscanf fs r v in (n + 1, v)
      end
  end.

Definition file_format : list field := [FCmd; FLock; FStart; FLen; FWhence].
Definition files_format : list field := FNum :: file_format.

(** ** Commands *)

Definition cmd_of (cmdCh : ascii) : Z :=
  if Ascii.eqb cmdCh "G" then F_OFD_GETLK else if Ascii.eqb cmdCh "S" then F_OFD_SETLK
  else if Ascii.eqb cmdCh "W" then F_OFD_SETLKW
  else if Ascii.eqb cmdCh "g" then F_GETLK else if Ascii.eqb cmdCh "s" then F_SETLK else F_SETLKW.
Definition type_of (lock : ascii) : Z :=
  if Ascii.eqb lock "r" then F_RDLCK else if Ascii.eqb lock "w" then F_WRLCK else F_UNLCK.
Definition whence_of (whence : ascii) : Z :=
  if Ascii.eqb whence "c" then SEEK_CUR else if Ascii.eqb whence "e" then SEEK_END else SEEK_SET.

(** [strchr(s, c) != NULL], which also holds for the null byte. *)
Definition in_set (s : list ascii) (c : ascii) : bool := bool_decide (c ∈ s) || Ascii.eqb c NUL.

Section LockShell.
Context {T : ErrText}.

Definition say (pid : Z) (text : list ascii) : prog unit := print Stdout ($"[PID=" ++ dec pid ++ $"] " ++ text ++ [NL]).

(** What is displayed after the call of fcntl(). *)
Definition showResult (cmd : Z) (lock : ascii) (status : res flock) : prog unit :=
  if (cmd =? F_GETLK) || (cmd =? F_OFD_GETLK) then
    match status with
    | Err e => errMsg e ($"fcntl")
    | Ok fl =>
        pid <- sys Getpid ;;
        if l_type fl =? F_UNLCK then say pid ($"Lock can be placed")
        else say pid ($"Denied by " ++ (if l_type fl =? F_RDLCK then $"READ" else $"WRITE") ++ $" lock on " ++
                      dec (l_start fl) ++ $":" ++ dec (l_len fl) ++ $" (held by PID " ++ dec (l_pid fl) ++ $")")
    end
  else
    match status with
    | Ok _ => pid <- sys Getpid ;; say pid (if Ascii.eqb lock "u" then $"unlocked" else $"got lock")
    | Err e =>
        if (e =? EAGAIN) || (e =? EACCES) then pid <- sys Getpid ;; say pid ($"failed (incompatible lock)")
        else if e =? EDEADLK then pid <- sys Getpid ;; say pid ($"failed (deadlock)")
        else errMsg e ($"fcntl")
    end.

(** The part of the loop after sscanf(); [fds] are the descriptors of the files. *)
Definition lockCommand (fds : list Z) (numRead : Z) (v : vars) : prog unit :=
  let argc := Z.of_nat (length fds) + 1 in
  match v_fileNum v with
  | None => Halt (Undefined "fileNum is not initialized")
  | Some fileNum =>
      if (fileNum <? 1) || (argc <=? fileNum) then
        print Stdout ($"File number must be in range 1 to " ++ dec (argc - 1) ++ [NL])
      else
        let fd := nth (Z.to_nat (fileNum - 1)) fds 0 in
        match (if ((4 <=? numRead) && (argc =? 2)) || ((5 <=? numRead) && (2 <? argc)) then Some tt else None),
              v_cmdCh v, v_lock v, v_st v, v_len v with
        | Some _, Some cmdCh, Some lock, Some st, Some len =>
            if in_set ($"gswGSW") cmdCh && in_set ($"rwu") lock && in_set ($"sce") (v_whence v) then
              status <- sys (Fcntl_lock fd (cmd_of cmdCh) (Flock (type_of lock) (whence_of (v_whence v)) st len 0)) ;;
              showResult (cmd_of cmdCh) lock status
            else print Stdout ($"Invalid command!" ++ [NL])
        | _, _, _, _, _ => print Stdout ($"Invalid command!" ++ [NL])
        end
  end.

Definition mandLockingEnabled (fd : Z) : prog bool :=
  s <- sys (Fstat_mode fd) ;;
  match s with
  | Err e => errExit e ($"stat")
  | Ok mode => Ret (flag mode S_ISGID && negb (flag mode S_IXGRP))
  end.

Fixpoint displayFiles (j : Z) (files : list (list ascii * Z)) : prog unit :=
  match files with
  | [] => Ret tt
  | (name, fd) :: files =>
      m <- mandLockingEnabled fd ;;
      print Stdout ($"        " ++ pad_left 2 (dec j) ++ $"  " ++ pad_right 10 name ++ $" [" ++
                    (if m : bool then $"mandatory" else $"advisory") ++ $" locking]" ++ [NL]) ;;;
      displayFiles (j + 1) files
  end.

(** [files]: the names and descriptors; there is at least one. *)
Definition displayCmdFmt (files : list (list ascii * Z)) : prog unit :=
  match files with
  | [_] => print Stdout ([NL] ++ $"Format: cmd lock start length [whence]" ++ [NL; NL])
  | _ =>
      print Stdout ([NL] ++ $"Format: file-num cmd lock start length [whence]" ++ [NL; NL]) ;;;
      print Stdout ($"    file-num is a number from the following list" ++ [NL]) ;;;
      displayFiles 1 files
  end ;;;
  print Stdout ($"    'cmd' is 'g' (GETLK), 's' (SETLK), or 'w' (SETLKW)" ++ [NL]) ;;;
  print Stdout ($"        or for OFD locks: 'G' (OFD_GETLK), 'S' (OFD_SETLK), or 'W' (OFD_SETLKW)" ++ [NL]) ;;;
  print Stdout ($"    'lock' is 'r' (READ), 'w' (WRITE), or 'u' (UNLOCK)" ++ [NL]) ;;;
  print Stdout ($"    'start' and 'length' specify byte range to lock" ++ [NL]) ;;;
  print Stdout ($"    'whence' is 's' (SEEK_SET, default), 'c' (SEEK_CUR), or 'e' (SEEK_END)" ++ [NL; NL]).

(** One line of input; the last character is removed, whatever it is. *)
Definition lockLine (files : list (list ascii * Z)) (v : vars) (input : list ascii) : prog vars :=
  match cstring_of input with
  | [] => Halt (Undefined "write before the line buffer")
  | s =>
      let line := take (length s - 1) s in
      match line with
      | [] => Ret v
      | c :: _ =>
          if Ascii.eqb c "?" then displayCmdFmt files ;;; Ret v
          else
            let v := set_whence "s" v in
            let '(numRead, v) :=
              match files with
              | [_] => sscanf file_format line (set_num 1 v)
              | _ => sscanf files_format line v
              end in
            lockCommand (map snd files) numRead v ;;; Ret v
      end
  end.

Fixpoint lockLoop (n : nat) (files : list (list ascii * Z)) (v : vars) : prog unit :=
  match n with
  | O => Halt OutOfFuel
  | S n =>
      pid <- sys Getpid ;;
      print Stdout ($"PID=" ++ dec pid ++ $"> ") ;;;
      sys (Fflush Stdout) ;;;
      r <- sys (Fgets STDIN_FILENO LOCK_LINE) ;;
      match r with
      | None => Halt (Exit EXIT_SUCCESS)
      | Some line => v <- lockLine files v line ;; lockLoop n files v
      end
  end.

Fixpoint openAll (names : list (list ascii)) : prog (list (list ascii * Z)) :=
  match names with
  | [] => Ret []
  | name :: names =>
      o <- sys (Open name O_RDWR 0) ;;
      match o with
      | Err e => errExit e ($"open (" ++ name ++ $")")
      | Ok fd => files <- openAll names ;; Ret ((name, fd) :: files)
      end
  end.

Fixpoint showLocking (files : list (list ascii * Z)) : prog unit :=
  match files with
  | [] => Ret tt
  | (name, fd) :: files =>
      m <- mandLockingEnabled fd ;;
      print Stdout (pad_right 10 name ++ $" " ++ (if m : bool then $"mandatory" else $"advisory") ++ [NL]) ;;;
      showLocking files
  end.

Definition i_fcntl_locking_main (n : nat) (argv : list (list ascii)) : prog unit :=
  if (length argv <? 2)%nat || is_help argv then usageErr (argv_nth argv 0 ++ $" file..." ++ [NL])
  else
    ok <- sys (Alloc (Z.of_nat (length argv) * 4)) ;;
    if negb ok then errExit ENOMEM ($"calloc")
    else
      files <- openAll (drop 1 argv) ;;
      print Stdout ($"File       Locking" ++ [NL]) ;;;
      print Stdout ($"----       -------" ++ [NL]) ;;;
      showLocking files ;;;
      print Stdout [NL] ;;;
      print Stdout ($"Enter ? for help" ++ [NL]) ;;;
      lockLoop n files no_vars.
End LockShell.

(** ** The notation of commands *)

Definition SP : ascii := " "%char.

(** A command as the help text describes it; the fields are separated by one
    space. *)
Record lock_request := Request {
  q_num : Z; q_cmd : ascii; q_lock : ascii; q_start : Z; q_len : Z; q_whence : option ascii }.

Definition request_text (multi : bool) (q : lock_request) : list ascii :=
  (if multi then dec (q_num q) ++ [SP] else []) ++
  [q_cmd q; SP; q_lock q; SP] ++ dec (q_start q) ++ SP :: dec (q_len q) ++
  match q_whence q with None => [] | Some w => [SP; w] end.

(** [k] files are open. *)
Definition valid_request (k : nat) (q : lock_request) : Prop :=
  1 <= q_num q <= Z.of_nat k /\ is_int (q_num q) /\ q_cmd q ∈ $"gswGSW" /\ q_lock q ∈ $"rwu" /\
  is_long (q_start q) /\ is_long (q_len q) /\ match q_whence q with None => True | Some w => w ∈ $"sce" end.

Definition request_flock (q : lock_request) : flock :=
  Flock (type_of (q_lock q)) (whence_of (default "s"%char (q_whence q))) (q_start q) (q_len q) 0.

Lemma letters_plain c s : c ∈ s -> forallb (fun c => negb (isspace c) && negb (Ascii.eqb c NUL)) s = true -> isspace c = false /\ c <> NUL.
Proof.
  intros Hc Hs. rewrite forallb_forall in Hs. apply list_elem_of_In in Hc. specialize (Hs c Hc).
  apply andb_true_iff in Hs as [H1%negb_true_iff H2%negb_true_iff]. split; [done|]. by intros ->.
Qed.

Lemma scan_char_plain c r : isspace c = false -> scan_char (c :: r) = Some (c, r) /\ scan_char (SP :: c :: r) = Some (c, r).
Proof. intros Hc. unfold scan_char. cbn [skip_space]. by rewrite Hc. Qed.

Lemma strtol_space s z r : strtol s 10 = Strtol z r false -> (length r < length s)%nat -> strtol (SP :: s) 10 = Strtol z r false.
Proof.
  unfold strtol. cbn [skip_space]. change (isspace SP) with true. cbn iota.
  destruct (sign_of (skip_space s)) as [neg s1]. destruct (base_of 10 s1) as [b s2].
  destruct (digits b 0 s2) as [[v n] rest]. destruct n; [|done]. intros [= _ <-]. lia.
Qed.

Lemma dec_nonempty z : (0 < length (dec z))%nat.
Proof.
  destruct (Z.ltb_spec z 0) as [Hz|Hz].
  - unfold dec. destruct (z <? 0) eqn:E; [simpl; lia|]. apply Z.ltb_ge in E. lia.
  - destruct (dec_head z Hz) as (d & l & _ & ->). simpl. lia.
Qed.

(** A number in decimal, with or without a space before it. *)
Lemma scan_long_dec z r :
  is_long z -> (forall c r', r = c :: r' -> isdigit c = false) ->
  scan_long (dec z ++ r) = Some (z, r) /\ scan_long (SP :: dec z ++ r) = Some (z, r).
Proof.
  intros Hz Hr. pose proof (strtol_dec z r Hz Hr) as Hs. pose proof (dec_nonempty z) as Hn. unfold scan_long.
  rewrite (strtol_space _ _ _ Hs) by (rewrite length_app; lia). rewrite Hs. cbn [st_end st_val length].
  rewrite length_app. destruct (Nat.eqb_spec (length r) (length (dec z) + length r)); [lia|].
  destruct (Nat.eqb_spec (length r) (S (length (dec z) + length r))); [lia|done].
Qed.

Definition whence_text (w : option ascii) : list ascii := match w with None => [] | Some w => [SP; w] end.

Lemma head_space r c r' : SP :: r = c :: r' -> isdigit c = false.
Proof. by intros [= <- _]. Qed.

Lemma head_whence w c r' : whence_text w = c :: r' -> isdigit c = false.
Proof. destruct w; [apply head_space|done]. Qed.

Lemma sscanf_whence w v :
  match w with None => True | Some w => w ∈ $"sce" end ->
  sscanf [FWhence] (whence_text w) v = (match w with None => 0 | Some _ => 1 end, set_whence (default (v_whence v) w) v).
Proof.
  intros Hw. destruct w as [w|]; [|by destruct v]. destruct (letters_plain _ _ Hw eq_refl) as [Hw1 _].
  cbn [sscanf convert whence_text]. by rewrite (proj2 (scan_char_plain w [] Hw1)).
Qed.

(** The variables after a complete command. *)
Definition read_request (q : lock_request) (v : vars) : vars :=
  set_whence (default (v_whence v) (q_whence q)) (set_len (q_len q) (set_st (q_start q) (set_lock (q_lock q) (set_cmd (q_cmd q) v)))).

Lemma sscanf_request q v k s :
  valid_request k q -> s = request_text false q \/ s = SP :: request_text false q ->
  sscanf file_format s v = (match q_whence q with None => 4 | Some _ => 5 end, read_request q v).
Proof.
  intros (_ & _ & Hc & Hl & Hs & Hn & Hw) Htext. destruct q as [num c l st ln w]; cbn in Hc, Hl, Hs, Hn, Hw.
  destruct (letters_plain _ _ Hc eq_refl) as [Hc1 _]. destruct (letters_plain _ _ Hl eq_refl) as [Hl1 _].
  unfold request_text in Htext. cbn [q_cmd q_lock q_start q_len q_whence app] in Htext. fold (whence_text w) in Htext.
  assert (scan_char s = Some (c, SP :: l :: SP :: dec st ++ SP :: dec ln ++ whence_text w)) as Hsc
    by (destruct Htext as [-> | ->]; by apply scan_char_plain).
  unfold file_format, read_request. cbn [sscanf convert q_cmd q_lock q_start q_len q_whence]. rewrite Hsc.
  rewrite (proj2 (scan_char_plain l _ Hl1)), (proj2 (scan_long_dec st _ Hs (head_space _))).
  rewrite (proj2 (scan_long_dec ln _ Hn (head_whence w))).
  pose proof (sscanf_whence w (set_len ln (set_st st (set_lock l (set_cmd c v)))) Hw) as Hlast.
  cbn [sscanf convert] in Hlast. rewrite Hlast. by destruct w.
Qed.

Lemma sscanf_files q v k :
  valid_request k q ->
  sscanf files_format (request_text true q) v =
    (match q_whence q with None => 5 | Some _ => 6 end, read_request q (set_num (q_num q) v)).
Proof.
  intros Hq. pose proof Hq as (_ & Hi & _). change (request_text true q) with ((dec (q_num q) ++ [SP]) ++ request_text false q).
  rewrite <- app_assoc. change ([SP] ++ request_text false q) with (SP :: request_text false q).
  unfold files_format. cbn [sscanf convert].
  rewrite (proj1 (scan_long_dec (q_num q) (SP :: request_text false q) ltac:(unfold is_long, is_int, LONG_MIN, LONG_MAX, INT_MIN, INT_MAX in *; lia)
                   (head_space _))).
  fold file_format. rewrite (sscanf_request q _ k _ Hq (or_intror eq_refl)). by destruct (q_whence q).
Qed.

Lemma request_no_nul multi k q : valid_request k q -> NUL ∉ request_text multi q ++ [NL].
Proof.
  intros (_ & _ & Hc & Hl & _ & _ & Hw). destruct q as [num c l st ln w]; cbn in Hc, Hl, Hw.
  destruct (letters_plain _ _ Hc eq_refl) as [_ Hc1]. destruct (letters_plain _ _ Hl eq_refl) as [_ Hl1].
  unfold request_text. cbn [q_num q_cmd q_lock q_start q_len q_whence].
  rewrite !not_elem_of_app, !not_elem_of_cons, !not_elem_of_app.
  pose proof (dec_no_nul st). pose proof (dec_no_nul ln). pose proof (dec_no_nul num).
  split_and!; try done; try (by apply not_elem_of_nil).
  - destruct multi; [|by apply not_elem_of_nil]. rewrite not_elem_of_app. split; [done|]. by rewrite list_elem_of_singleton.
  - destruct w as [w|]; [|by apply not_elem_of_nil]. destruct (letters_plain _ _ Hw eq_refl) as [_ Hw1].
    rewrite !not_elem_of_cons. split_and!; try done. apply not_elem_of_nil.
Qed.

(** A command does not start with a question mark. *)
Lemma request_head multi k q : valid_request k q -> exists c r, request_text multi q = c :: r /\ Ascii.eqb c "?" = false.
Proof.
  intros (Hn & _ & Hc & _). destruct multi; unfold request_text.
  - destruct (dec_head (q_num q)) as (d & l & Hd & ->); [lia|]. eexists d, _. split; [done|].
    destruct (Ascii.eqb_spec d "?") as [->|]; [discriminate Hd|done].
  - eexists _, _. split; [done|]. cbn in Hc. destruct (Ascii.eqb_spec (q_cmd q) "?") as [E|]; [|done].
    rewrite E in Hc. apply list_elem_of_In in Hc. simpl in Hc. intuition discriminate.
Qed.

Lemma int_is_long z : is_int z -> is_long z.
Proof. unfold is_int, is_long, INT_MIN, INT_MAX, LONG_MIN, LONG_MAX. lia. Qed.

Section Commands.
Context {T : ErrText}.

(** The test of the fields succeeds. *)
Lemma lockCommand_request fds numRead q v :
  valid_request (length fds) q -> numRead = (if (length fds =? 1)%nat then 4 else 5) + (if q_whence q then 1 else 0) ->
  v_whence v = "s"%char ->
  lockCommand fds numRead (read_request q (set_num (q_num q) v)) =
    (status <- sys (Fcntl_lock (nth (Z.to_nat (q_num q - 1)) fds 0) (cmd_of (q_cmd q)) (request_flock q)) ;;
     showResult (cmd_of (q_cmd q)) (q_lock q) status).
Proof.
  intros (Hn & Hi & Hc & Hl & _ & _ & Hw) -> Hv. unfold lockCommand, read_request. cbn. rewrite int_of_id by done.
  destruct (Z.ltb_spec (q_num q) 1); [lia|]. destruct (Z.leb_spec (Z.of_nat (length fds) + 1) (q_num q)); [lia|]. cbn [orb].
  assert (in_set ($"gswGSW") (q_cmd q) = true) as -> by (unfold in_set; by rewrite bool_decide_eq_true_2).
  assert (in_set ($"rwu") (q_lock q) = true) as -> by (unfold in_set; by rewrite bool_decide_eq_true_2).
  assert (in_set ($"sce") (default (v_whence v) (q_whence q)) = true) as ->.
  { unfold in_set. rewrite bool_decide_eq_true_2; [done|]. destruct (q_whence q); [done|]. rewrite Hv. cbn. set_solver. }
  unfold request_flock. rewrite Hv. cbn [andb].
  destruct (Nat.eqb_spec (length fds) 1) as [E|E].
  - rewrite E. by destruct (q_whence q).
  - assert (2 <? Z.of_nat (length fds) + 1 = true) as -> by (apply Z.ltb_lt; lia).
    assert (Z.of_nat (length fds) + 1 =? 2 = false) as -> by (apply Z.eqb_neq; lia). by destruct (q_whence q).
Qed.

Lemma lockLine_request files v q :
  valid_request (length files) q ->
  lockLine files v (request_text (negb (length files =? 1)%nat) q ++ [NL]) =
    (status <- sys (Fcntl_lock (nth (Z.to_nat (q_num q - 1)) (map snd files) 0) (cmd_of (q_cmd q)) (request_flock q)) ;;
     showResult (cmd_of (q_cmd q)) (q_lock q) status ;;;
     Ret (read_request q (set_num (q_num q) (set_whence "s" v)))).
Proof.
  intros Hq. set (multi := negb _). unfold lockLine. rewrite cstring_of_id by (by eapply request_no_nul).
  destruct (request_head multi _ _ Hq) as (c & r & Htext & Hc). rewrite Htext. cbn [app].
  assert (take (length (c :: r ++ [NL]) - 1) (c :: r ++ [NL]) = c :: r) as ->.
  { change (c :: r ++ [NL]) with ((c :: r) ++ [NL]). rewrite take_app_le by (rewrite length_app; simpl; lia).
    apply take_ge. rewrite length_app. simpl. lia. }
  rewrite Hc, <- Htext. rewrite <- (length_map snd files) in Hq. subst multi.
  pose proof (lockCommand_request (map snd files)) as Hcmd. rewrite length_map in Hcmd, Hq.
  destruct files as [|f [|f' files]].
  - destruct Hq as (? & _). simpl in *. lia.
  - cbn [length Nat.eqb negb]. rewrite (sscanf_request q _ _ _ Hq (or_introl eq_refl)).
    assert (set_num 1 (set_whence "s" v) = set_num (q_num q) (set_whence "s" v)) as ->.
    { f_equal. destruct Hq as (? & _). simpl in *. lia. }
    rewrite Hcmd; [done|done| |done]. by destruct (q_whence q).
  - cbn [length Nat.eqb negb]. rewrite (sscanf_files q _ _ Hq). rewrite Hcmd; [done|done| |done]. by destruct (q_whence q).
Qed.
(** ** Arbitrary input *)

(** The calls of the loop: locks are requested only for the files of the command
    line and only in the documented ways. *)
Definition lock_call (fds : list Z) (X : Type) (c : call X) : Prop :=
  match c with
  | Fcntl_lock fd cmd fl =>
      fd ∈ fds /\ cmd ∈ [F_GETLK; F_SETLK; F_SETLKW; F_OFD_GETLK; F_OFD_SETLK; F_OFD_SETLKW] /\
      l_type fl ∈ [F_RDLCK; F_WRLCK; F_UNLCK] /\ l_whence fl ∈ [SEEK_SET; SEEK_CUR; SEEK_END] /\ l_pid fl = 0
  | Out _ _ | Fflush _ | Getpid | Getenv _ | Fgets _ _ | Fstat_mode _ => True
  | _ => False
  end.

Lemma cmd_of_set c : cmd_of c ∈ [F_GETLK; F_SETLK; F_SETLKW; F_OFD_GETLK; F_OFD_SETLK; F_OFD_SETLKW].
Proof. unfold cmd_of. repeat case_match; set_solver. Qed.

Lemma only_errMsg fds e msg : only (lock_call fds) (errMsg e msg).
Proof. by repeat (split; [exact I|intros []]). Qed.

Lemma only_errExit fds A e msg : only (lock_call fds) (errExit (A := A) e msg).
Proof.
  unfold errExit. apply only_bind; [apply (only_errMsg fds e msg)|]. intros _. unfold terminate. split; [exact I|].
  intros s. by destruct s as [[|]|].
Qed.

Lemma only_showResult fds cmd lock status : only (lock_call fds) (showResult cmd lock status).
Proof.
  unfold showResult, say. destruct ((cmd =? F_GETLK) || (cmd =? F_OFD_GETLK)), status as [fl|e];
    repeat case_match; try apply only_errMsg; split; try exact I; intros; repeat case_match; by split.
Qed.

Lemma only_lockCommand fds numRead v : only (lock_call fds) (lockCommand fds numRead v).
Proof.
  unfold lockCommand. destruct (v_fileNum v) as [num|]; [|exact I].
  destruct (Z.ltb_spec num 1); [by split|]. destruct (Z.leb_spec (Z.of_nat (length fds) + 1) num); [by split|]. cbn [orb].
  repeat case_match; try (by split). split; [|intros; apply only_showResult]. cbn. split_and!; [|apply cmd_of_set| | |done].
  - apply list_elem_of_In, nth_In. lia.
  - unfold type_of. repeat case_match; set_solver.
  - unfold whence_of. repeat case_match; set_solver.
Qed.

Lemma only_mandLocking fds fd : only (lock_call fds) (mandLockingEnabled fd).
Proof. split; [exact I|]. intros [m|e]; [exact I|apply only_errExit]. Qed.

Lemma only_displayFiles fds files : forall j, only (lock_call fds) (displayFiles j files).
Proof.
  induction files as [|[name fd] files IH]; intros j; [exact I|]. cbn [displayFiles].
  apply only_bind; [apply only_mandLocking|]. intros m. split; [exact I|]. intros []. apply IH.
Qed.

Lemma only_lockLine fds files v input : map snd files = fds -> only (lock_call fds) (lockLine files v input).
Proof.
  intros <-. unfold lockLine. destruct (cstring_of input) as [|x s]; [exact I|].
  destruct (take _ (x :: s)) as [|c line]; [exact I|]. destruct (Ascii.eqb c "?").
  - apply only_bind; [|intros []; exact I]. unfold displayCmdFmt. apply only_bind.
    + destruct files as [|f [|f' files]]; [|by split|]; repeat (split; [exact I|intros []]); [exact I|apply only_displayFiles].
    + intros _. by repeat (split; [exact I|intros []]).
  - destruct (match files with [_] => _ | _ => _ end) as [numRead v']. apply only_bind; [apply only_lockCommand|]. by intros [].
Qed.

Lemma only_lockLoop fds files n : map snd files = fds -> forall v, only (lock_call fds) (lockLoop n files v).
Proof.
  intros Hf. induction n as [|n IH]; intros v; [exact I|]. cbn [lockLoop]. split; [exact I|]. intros pid.
  split; [exact I|]. intros []. split; [exact I|]. intros []. split; [exact I|]. intros [line|]; [|exact I]. cbn [bind].
  apply only_bind; [by apply only_lockLine|]. intros v'. apply IH.
Qed.

Lemma only_showLocking fds files : only (lock_call fds) (showLocking files).
Proof.
  induction files as [|[name fd] files IH]; [exact I|]. cbn [showLocking].
  apply only_bind; [apply only_mandLocking|]. intros m. split; [exact I|]. by intros [].
Qed.

(** No locks are requested while the files are opened. *)
Definition no_locks (h : history) : Prop := forall fd cmd fl r, Ev (Fcntl_lock fd cmd fl) r ∉ h.

Definition open_call (X : Type) (c : call X) : Prop :=
  match c with Open _ _ _ | Alloc _ => True | _ => lock_call [] X c end.

Lemma only_weaken {A} (P Q : forall X, call X -> Prop) (p : prog A) : (forall X c, P X c -> Q X c) -> only P p -> only Q p.
Proof. intros HPQ. induction p as [a|s|X c k IH]; simpl; [done..|]. intros [Hc Hk]. split; [by apply HPQ|]. intros r. by apply IH. Qed.

Lemma only_openAll names : only open_call (openAll names).
Proof.
  induction names as [|name names IH]; [exact I|]. cbn [openAll]. split; [exact I|]. intros [fd|e]; cbn [bind].
  - apply only_bind; [apply IH|]. intros files. exact I.
  - eapply only_weaken; [|apply (only_errExit [])]. by intros X [].
Qed.

Lemma open_no_locks k : Forall (fun e => match e with Ev c _ => open_call _ c end) k -> no_locks k.
Proof.
  intros Hk fd cmd fl r He. rewrite Forall_forall in Hk. specialize (Hk _ He). cbn in Hk. destruct Hk as [Hk _].
  by apply elem_of_nil in Hk.
Qed.

Lemma openAll_opens names h :
  wp posix (openAll names) (fun o h' =>
    match o with Done files => map fst files = names /\ Forall (fun f => Ev (Open (fst f) O_RDWR 0) (Ok (snd f)) ∈ h') files | Stop _ => True end) h.
Proof.
  revert h. induction names as [|name names IH]; intros h; cbn [openAll]; [by split; [|constructor]|].
  apply wp_sys_bind. intros [fd|e] _; [|apply wp_errExit; intros o h' [->|[->| ->]]; exact I].
  eapply wp_call; [apply wp_conj; [apply IH|apply wp_extends]|..].
  - intros files h' [[Hn Hf] [k ->]]. split; [simpl; by rewrite Hn|]. apply Forall_cons. split; [|done]. cbn.
    apply elem_of_app. right. apply elem_of_cons. by left.
  - done.
Qed.

(** Every lock that is requested is on a file that the command line names. *)
Definition locks_ok (argv : list (list ascii)) (h : history) : Prop :=
  forall fd cmd fl r, Ev (Fcntl_lock fd cmd fl) r ∈ h ->
    lock_call [fd] _ (Fcntl_lock fd cmd fl) /\ exists name, name ∈ drop 1 argv /\ Ev (Open name O_RDWR 0) (Ok fd) ∈ h.

Lemma no_locks_ok argv h : no_locks h -> locks_ok argv h.
Proof. intros Hn fd cmd fl r He. by apply Hn in He. Qed.

Lemma no_locks_app k h : no_locks k -> no_locks h -> no_locks (k ++ h).
Proof. intros Hk Hh fd cmd fl r [He|He]%elem_of_app; [by apply Hk in He|by apply Hh in He]. Qed.

Lemma wp_no_locks {A} argv (p : prog A) h : no_locks h -> only open_call p -> wp posix p (fun _ h => locks_ok argv h) h.
Proof.
  intros Hh Hp. eapply wp_mono; [|by apply wp_only]. intros o h' (k & -> & Hk%open_no_locks). by apply no_locks_ok, no_locks_app.
Qed.

Lemma only_usageErr A text : only open_call (usageErr (A := A) text).
Proof. by repeat (split; [exact I|intros []]). Qed.

Lemma tail_locks argv files h (p : prog unit) :
  map fst files = drop 1 argv -> Forall (fun f => Ev (Open (fst f) O_RDWR 0) (Ok (snd f)) ∈ h) files -> no_locks h ->
  only (lock_call (map snd files)) p -> wp posix p (fun _ h => locks_ok argv h) h.
Proof.
  intros Hn Hf Hh Hp. eapply wp_mono; [|by apply wp_only]. intros o h' (k & -> & Hk) fd cmd fl r He.
  apply elem_of_app in He as [He|He]; [|by apply Hh in He].
  rewrite Forall_forall in Hk. specialize (Hk _ He). cbn in Hk. destruct Hk as [Hfd Hrest].
  split; [split; [by apply list_elem_of_singleton|done]|].
  apply list_elem_of_fmap in Hfd as ([name fd'] & -> & Hin). exists name. rewrite Forall_forall in Hf. split.
  - rewrite <- Hn. apply list_elem_of_fmap. by exists (name, fd').
  - apply elem_of_app. right. apply (Hf _ Hin).
Qed.

Lemma main_locks n argv : wp posix (i_fcntl_locking_main n argv) (fun _ h => locks_ok argv h) [].
Proof.
  assert (no_locks []) as H0 by (intros fd cmd fl r He; by apply elem_of_nil in He).
  unfold i_fcntl_locking_main. destruct ((length argv <? 2)%nat || is_help argv).
  { by apply wp_no_locks, only_usageErr. }
  apply wp_sys_bind. intros ok _.
  assert (no_locks [Ev (Alloc (Z.of_nat (length argv) * 4)) ok]) as H1.
  { intros fd cmd fl r He. by apply list_elem_of_singleton in He. }
  destruct ok; cbn [negb].
  2: { apply wp_no_locks; [done|]. eapply only_weaken; [|apply (only_errExit [])]. by intros X []. }
  eapply wp_call; [apply wp_conj; [apply openAll_opens|apply (wp_only posix open_call), only_openAll]|..].
  2: { intros s h (_ & k & -> & Hk%open_no_locks). by apply no_locks_ok, no_locks_app. }
  intros files h1 ((Hn & Hf) & k & -> & Hk%open_no_locks). eapply tail_locks; [done|done|by apply no_locks_app|].
  do 2 (split; [exact I|intros []; cbn [bind]]). apply only_bind; [apply only_showLocking|]. intros [].
  do 2 (split; [exact I|intros []; cbn [bind]]). by apply only_lockLoop.
Qed.

Lemma showResult_returns cmd lock status h : wp posix (showResult cmd lock status) (fun o _ => o = Done tt) h.
Proof.
  unfold showResult, say. destruct ((cmd =? F_GETLK) || (cmd =? F_OFD_GETLK)), status as [fl|e];
    repeat case_match; try (by apply wp_outputError); intros pid _; repeat case_match; by intros [] _.
Qed.

Lemma lockCommand_returns fds numRead v h :
  v_fileNum v <> None -> wp posix (lockCommand fds numRead v) (fun o _ => o = Done tt) h.
Proof.
  unfold lockCommand. destruct (v_fileNum v) as [num|]; [|done]. intros _.
  repeat case_match; try (by intros [] _). apply wp_sys_bind. intros status _. apply showResult_returns.
Qed.

Lemma sscanf_keeps_num fs : forall s v, v_fileNum v <> None -> v_fileNum (snd (sscanf fs s v)) <> None.
Proof.
  induction fs as [|f fs IH]; intros s v Hv; [done|]. cbn [sscanf].
  destruct (convert f s v) as [[r v1]|] eqn:Hc; [|done].
  assert (v_fileNum v1 <> None) as H1 by (destruct f; cbn in Hc; repeat case_match; simplify_eq; done).
  specialize (IH r v1 H1). by destruct (sscanf fs r v1).
Qed.

(** *** What a command means

    The letters are those of the help text of the program; the values of the commands,
    lock types and bases are those of fcntl(2) on Linux. *)
Inductive lock_op := GetLk | SetLk | SetLkw.
Inductive lock_kind := ReadLock | WriteLock | Unlock.
Inductive lock_base := FromStart | FromOffset | FromEnd.

Record lock_spec := Lock_spec {
  s_num : Z; s_ofd : bool; s_op : lock_op; s_kind : lock_kind; s_start : Z; s_len : Z; s_base : option lock_base }.

Definition op_letter (ofd : bool) (op : lock_op) : ascii :=
  match ofd, op with
  | false, GetLk => "g" | false, SetLk => "s" | false, SetLkw => "w"
  | true, GetLk => "G" | true, SetLk => "S" | true, SetLkw => "W"
  end.
Definition kind_letter (k : lock_kind) : ascii := match k with ReadLock => "r" | WriteLock => "w" | Unlock => "u" end.
Definition base_letter (b : lock_base) : ascii := match b with FromStart => "s" | FromOffset => "c" | FromEnd => "e" end.

Definition op_value (ofd : bool) (op : lock_op) : Z :=
  (if ofd then 36 else 5) + match op with GetLk => 0 | SetLk => 1 | SetLkw => 2 end.
Definition kind_value (k : lock_kind) : Z := match k with ReadLock => 0 | WriteLock => 1 | Unlock => 2 end.
Definition base_value (b : lock_base) : Z := match b with FromStart => 0 | FromOffset => 1 | FromEnd => 2 end.

(** The command as a line; the file number is given if there are several files. *)
Definition spec_text (multi : bool) (q : lock_spec) : list ascii :=
  (if multi then dec (s_num q) ++ $" " else []) ++
  [op_letter (s_ofd q) (s_op q)] ++ $" " ++ [kind_letter (s_kind q)] ++ $" " ++ dec (s_start q) ++ $" " ++ dec (s_len q) ++
  match s_base q with None => [] | Some b => $" " ++ [base_letter b] end.

Definition spec_ok (k : nat) (q : lock_spec) : Prop :=
  1 <= s_num q <= Z.of_nat k /\ is_int (s_num q) /\ is_long (s_start q) /\ is_long (s_len q).

Definition spec_flock (q : lock_spec) : flock :=
  Flock (kind_value (s_kind q)) (base_value (default FromStart (s_base q))) (s_start q) (s_len q) 0.

(** The line that shows the result; [None] if the error is reported on the standard error. *)
Definition result_text (q : lock_spec) (status : res flock) : option (list ascii) :=
  match s_op q, status with
  | GetLk, Ok fl =>
      Some (if l_type fl =? 2 then $"Lock can be placed"
            else $"Denied by " ++ (if l_type fl =? 0 then $"READ" else $"WRITE") ++ $" lock on " ++
                 dec (l_start fl) ++ $":" ++ dec (l_len fl) ++ $" (held by PID " ++ dec (l_pid fl) ++ $")")
  | GetLk, Err _ => None
  | _, Ok _ => Some (match s_kind q with Unlock => $"unlocked" | _ => $"got lock" end)
  | _, Err e => if (e =? 11) || (e =? 13) then Some ($"failed (incompatible lock)")
                else if e =? 35 then Some ($"failed (deadlock)") else None
  end.

(** One call of fcntl() on the descriptor of the file, and the display of its result. *)
Definition carried_out (fd : Z) (q : lock_spec) (v' : vars) (o : outcome vars) (k : history) : Prop :=
  o = Done v' /\ exists status,
    let call := Ev (Fcntl_lock fd (op_value (s_ofd q) (s_op q)) (spec_flock q)) status in
    match result_text q status with
    | Some t => exists pid, k = [Ev (Out Stdout ($"[PID=" ++ dec pid ++ $"] " ++ t ++ [NL])) tt; Ev Getpid pid; call]
    | None => exists k', k = k' ++ [call] /\ Forall reporting k' /\ k' <> []
    end.

(** The variables after a command. *)
Definition spec_vars (q : lock_spec) : vars :=
  Vars (Some (s_num q)) (Some (op_letter (s_ofd q) (s_op q))) (Some (kind_letter (s_kind q))) (Some (s_start q)) (Some (s_len q))
    (base_letter (default FromStart (s_base q))).

(** The fields as they are written. *)
Definition spec_request (q : lock_spec) : lock_request :=
  Request (s_num q) (op_letter (s_ofd q) (s_op q)) (kind_letter (s_kind q)) (s_start q) (s_len q) (base_letter <$> s_base q).

Lemma spec_request_ok k q : spec_ok k q -> valid_request k (spec_request q).
Proof.
  destruct q as [num ofd op kind st ln base]. intros ([H1 H1'] & H2 & H3 & H4). unfold valid_request. cbn in *.
  split_and!; try done; [destruct ofd, op|destruct kind|destruct base as [[]|]]; cbn; try done; set_solver.
Qed.

Lemma wp_showResult q status h :
  wp posix (showResult (op_value (s_ofd q) (s_op q)) (kind_letter (s_kind q)) status) (since h (fun o k => o = Done tt /\
    match result_text q status with
    | Some t => exists pid, k = [Ev (Out Stdout ($"[PID=" ++ dec pid ++ $"] " ++ t ++ [NL])) tt; Ev Getpid pid]
    | None => Forall reporting k /\ k <> []
    end)) h.
Proof.
  assert (forall e msg, wp posix (errMsg e msg) (since h (fun o k => o = Done tt /\ Forall reporting k /\ k <> [])) h) as Herr.
  { intros e msg. apply wp_outputError. eexists (report _ _ _ _). split; [done|]. split; [done|]. split; [by repeat constructor|done]. }
  assert (forall t, wp posix (pid <- sys Getpid ;; say pid t) (since h (fun o k => o = Done tt /\
    exists pid, k = [Ev (Out Stdout ($"[PID=" ++ dec pid ++ $"] " ++ t ++ [NL])) tt; Ev Getpid pid])) h) as Hsay.
  { intros t pid _ [] _. eexists [_; _]. split; [done|]. split; [done|]. by exists pid. }
  unfold showResult, result_text. destruct q as [num ofd op kind st ln base]. cbn [s_ofd s_op s_kind].
  destruct op.
  - assert ((op_value ofd GetLk =? F_GETLK) || (op_value ofd GetLk =? F_OFD_GETLK) = true) as -> by (by destruct ofd).
    destruct status as [fl|e]; [|apply Herr]. change F_UNLCK with 2. change F_RDLCK with 0. destruct (l_type fl =? 2); [apply Hsay|apply Hsay].
  - assert ((op_value ofd SetLk =? F_GETLK) || (op_value ofd SetLk =? F_OFD_GETLK) = false) as -> by (by destruct ofd).
    destruct status as [fl|e]; [destruct kind; apply Hsay|]. change EAGAIN with 11. change EACCES with 13. change EDEADLK with 35.
    destruct ((e =? 11) || (e =? 13)); [apply Hsay|]. destruct (e =? 35); [apply Hsay|apply Herr].
  - assert ((op_value ofd SetLkw =? F_GETLK) || (op_value ofd SetLkw =? F_OFD_GETLK) = false) as -> by (by destruct ofd).
    destruct status as [fl|e]; [destruct kind; apply Hsay|]. change EAGAIN with 11. change EACCES with 13. change EDEADLK with 35.
    destruct ((e =? 11) || (e =? 13)); [apply Hsay|]. destruct (e =? 35); [apply Hsay|apply Herr].
Qed.

Lemma lockLine_carries_out files v q h :
  spec_ok (length files) q ->
  wp posix (lockLine files v (spec_text (negb (length files =? 1)%nat) q ++ [NL]))
    (since h (carried_out (nth (Z.to_nat (s_num q - 1)) (map snd files) 0) q (spec_vars q))) h.
Proof.
  intros Hq. pose proof (lockLine_request files v (spec_request q) (spec_request_ok _ _ Hq)) as Hl.
  assert (request_text (negb (length files =? 1)%nat) (spec_request q) = spec_text (negb (length files =? 1)%nat) q) as Ht.
  { unfold request_text, spec_text. cbn. by destruct (s_base q). }
  rewrite Ht in Hl. rewrite Hl.
  assert (cmd_of (q_cmd (spec_request q)) = op_value (s_ofd q) (s_op q)) as Hc by (by destruct q as [? [] [] ? ? ? ?]).
  assert (request_flock (spec_request q) = spec_flock q) as Hf by (by destruct q as [? ? ? [] ? ? [[]|]]).
  assert (read_request (spec_request q) (set_num (q_num (spec_request q)) (set_whence "s" v)) = spec_vars q) as Hv.
  { unfold read_request, spec_vars, set_num. rewrite (int_of_id (q_num _)) by apply Hq. by destruct q as [? ? ? ? ? ? [[]|]]. }
  rewrite Hc, Hf, Hv. apply wp_sys_bind. intros status _. eapply wp_call; [apply wp_showResult|..]; [|by intros st h' (k & _ & ? & _)].
  intros [] h' (k & -> & _ & Hk). eexists (k ++ [_]). split; [by rewrite <- app_assoc|]. split; [done|]. exists status. cbn zeta.
  destruct (result_text q status) as [t|]; [destruct Hk as [pid ->]; by exists pid|by exists k].
Qed.

(** With one file, a line that does not start with a null byte is handled without
    undefined behaviour and without leaving the loop. *)
Lemma one_file name fd v input h :
  cstring_of input <> [] -> wp posix (lockLine [(name, fd)] v input) (fun o _ => exists v', o = Done v') h.
Proof.
  intros Hne. unfold lockLine. destruct (cstring_of input) as [|x s]; [done|]. clear Hne.
  destruct (take _ (x :: s)) as [|c line]; [by exists v|]. destruct (Ascii.eqb c "?").
  { unfold displayCmdFmt. by repeat (intros [] _); exists v. }
  pose proof (sscanf_keeps_num file_format (c :: line) (set_num 1 (set_whence "s" v)) ltac:(done)) as Hnum.
  destruct (sscanf file_format (c :: line) (set_num 1 (set_whence "s" v))) as [numRead v'].
  apply wp_bind. eapply wp_mono; [|by apply lockCommand_returns]. intros o h' ->. by exists v'.
Qed.

(** With several files, a first command that does not start with a number makes the
    program use a variable that has no value. *)
Lemma no_file_number f1 f2 files h :
  wp posix (lockLine (f1 :: f2 :: files) no_vars ($"g r 0 0" ++ [NL])) (fun o _ => o = Stop (Undefined "fileNum is not initialized")) h.
Proof. reflexivity. Qed.
End Commands.

(** C22: Programs that lock files.  [createPidFile] truncates and writes the file only
    after the whole file was locked for writing, so a second instance ends without
    touching it, and returns only with the descriptor of a file that is locked, holds
    exactly its process identifier and a newline, and is marked close-on-exec if that
    was asked for; otherwise the process ends with a failure.  In the interactive
    locking program a command in the documented notation, with any file number, range
    and whence, is carried out by exactly one call of fcntl(), on the descriptor of the
    named file, with the start and length given and the values of fcntl(2) for what the
    letters mean in the help text: g, s and w are F_GETLK, F_SETLK and F_SETLKW, in
    capitals their variants for open file descriptions, r, w and u are F_RDLCK, F_WRLCK
    and F_UNLCK, and s (the default), c and e are SEEK_SET, SEEK_CUR and SEEK_END.  Its
    result is displayed: whether the lock can be placed or who holds it, that it was set
    or removed, that it is incompatible, a deadlock, or another error.  Whatever the
    input is, every lock that the program requests is on a file of the command line that
    it has opened, in one of the documented ways.  With one file no line ends the loop,
    unless it starts with a null byte, which makes the program write before its buffer;
    with several files a first line without a file number is checked against a variable
    that has no value. *)
Theorem lock_programs {T : ErrText} :
  (forall progName pidFile flags h, wp posix (createPidFile progName pidFile flags) (since h (pid_post pidFile flags)) h) /\
  (forall files v q h, spec_ok (length files) q ->
    wp posix (lockLine files v (spec_text (negb (length files =? 1)%nat) q ++ [NL]))
      (since h (carried_out (nth (Z.to_nat (s_num q - 1)) (map snd files) 0) q (spec_vars q))) h) /\
  (forall n argv, wp posix (i_fcntl_locking_main n argv) (fun _ h => locks_ok argv h) []) /\
  (forall name fd v input h, cstring_of input <> [] ->
    wp posix (lockLine [(name, fd)] v input) (fun o _ => exists v', o = Done v') h) /\
  (forall f1 f2 files h,
    wp posix (lockLine (f1 :: f2 :: files) no_vars ($"g r 0 0" ++ [NL]))
      (fun o _ => o = Stop (Undefined "fileNum is not initialized")) h).
Proof. split_and!; [exact createPidFile_exclusive|exact lockLine_carries_out|exact main_locks|exact one_file|exact no_file_number]. Qed.

Lemma lock_programs_witness :
  let q := Lock_spec 2 false SetLk WriteLock (-5) 10 (Some FromEnd) in
  spec_text true q = $"2 s w -5 10 e" /\ spec_ok 2 q /\
  wp posix (lockLine (T := demo_text) [($"a", 3); ($"b", 4)] no_vars ($"2 s w -5 10 e" ++ [NL])) (since [] (fun o k =>
    carried_out 4 q (Vars (Some 2) (Some "s"%char) (Some "w"%char) (Some (-5)) (Some 10) "e"%char) o k)) [].
Proof.
  intros q. assert (spec_ok 2 q) as Hq.
  { unfold spec_ok, is_int, is_long, INT_MIN, INT_MAX, LONG_MIN, LONG_MAX. cbn. lia. }
  split; [reflexivity|]. split; [exact Hq|].
  exact (proj1 (proj2 (lock_programs (T := demo_text))) [($"a", 3); ($"b", 4)] no_vars q [] Hq).
Defined.
