(* ===== verification/ScmCred.v ===== *)
(** * sockets/scm_cred_send.c and scm_cred_recv.c: passing credentials

    The ancillary data and the macros of cmsg(3) are the ones of Scm.v; a message
    with credentials is the block [Creds]. *)

From S2P Require Import Prelude Sys LibErrors StreamIO Sockets RawUdp FileIO Scm.

Definition CRED_PATH : list ascii := $"scm_cred".

Section Cred.
Context {T : ErrText}.

(** ** scm_cred_send.c *)

(** useDatagramSocket and noExplicitCreds; [None] for any other option. *)
Fixpoint credOptions (opts : list (ascii * list ascii)) (useDatagramSocket noExplicitCreds : bool) : option (bool * bool) :=
  match opts with
  | [] => Some (useDatagramSocket, noExplicitCreds)
  | (c, _) :: opts =>
      if Ascii.eqb c "d" then credOptions opts true noExplicitCreds
      else if Ascii.eqb c "n" then credOptions opts useDatagramSocket true
      else None
  end.

(** [argc > optind + i && strcmp(argv[optind + i], "-") != 0]: the argument
    replaces the value that the system reports; it is stored in an unsigned int
    for the user and group. *)
Definition credArg (args : list (list ascii)) (i : nat) (own : Z) (conv : Z -> Z) : Z :=
  match args !! i with
  | Some a => if strcmp_eq a ($"-") then own else conv (atoi a)
  | None => own
  end.

(** The bytes of the control message; the buffer is cleared first. *)
Definition buildCreds (args : list (list ascii)) : prog (list ascii) :=
  let mem := replicate (Z.to_nat (CMSG_SPACE SIZEOF_UCRED)) NUL in
  deref (CMSG_FIRSTHDR (CMSG_SPACE SIZEOF_UCRED)) (fun cmsgp =>
    mem <- poke mem cmsgp (put64 (CMSG_LEN SIZEOF_UCRED)) ;;
    mem <- poke mem (cmsgp + 8) (put_int SOL_SOCKET) ;;
    mem <- poke mem (cmsgp + 12) (put_int SCM_CREDENTIALS) ;;
    let ucredp := CMSG_DATA cmsgp in
    own <- sys Getpid ;;
    let pid := credArg args 1 own id in
    mem <- poke mem ucredp (put_int pid) ;;
    own <- sys Getuid ;;
    let uid := credArg args 2 own (wrapu 32) in
    mem <- poke mem (ucredp + 4) (put_int uid) ;;
    own <- sys Getgid ;;
    let gid := credArg args 3 own (wrapu 32) in
    mem <- poke mem (ucredp + 8) (put_int gid) ;;
    print Stdout ($"Send credentials pid=" ++ dec pid ++ $", uid=" ++ dec uid ++ $", gid=" ++ dec gid ++ [NL]) ;;;
    Ret mem).

Definition cred_send_main (pname : list ascii) (opts : list (ascii * list ascii)) (args : list (list ascii)) : prog unit :=
  match credOptions opts false false with
  | None => usageErr (pname ++ $" [-d] [-n] [data [PID [UID [GID]]]]" ++ [NL] ++ $"        -d    use datagram socket" ++ [NL] ++
                      $"        -n    don't construct explicit credentials structure" ++ [NL])
  | Some (useDatagramSocket, noExplicitCreds) =>
      let data := match args with a :: _ => atoi a | [] => 12345 end in
      print Stderr ($"Sending data = " ++ dec data ++ [NL]) ;;;
      mem <- (if noExplicitCreds : bool then
                print Stdout ($"Not explicitly sending a credentials structure" ++ [NL]) ;;; Ret []
              else buildCreds args) ;;
      s <- unixConnect (Some CRED_PATH) (sockType useDatagramSocket) ;;
      match s with
      | Err e => errExit e ($"unixConnect")
      | Ok sfd =>
          r <- sys (Sendmsg sfd (put_int data) mem) ;;
          match r with
          | Err e => errExit e ($"sendmsg")
          | Ok ns =>
              print Stdout ($"sendmsg() returned " ++ dec ns ++ [NL]) ;;;
              Halt (Exit EXIT_SUCCESS)
          end
      end
  end.

(** ** scm_cred_recv.c *)

Definition credsLine (pid uid gid : Z) : list ascii :=
  $"Received credentials pid=" ++ dec pid ++ $", uid=" ++ dec uid ++ $", gid=" ++ dec gid ++ [NL].
Definition peerLine (pid uid gid : Z) : list ascii :=
  $"Credentials from SO_PEERCRED: pid=" ++ dec pid ++ $", euid=" ++ dec uid ++ $", egid=" ++ dec gid ++ [NL].

(** The tests of the header; the credentials are displayed if they succeed. *)
Definition showCreds (mem : list ascii) (cmsgp : nat) : prog unit :=
  len <- cmsg_len mem cmsgp ;;
  if negb (len =? CMSG_LEN SIZEOF_UCRED) then fatal ($"bad cmsg header / message length")
  else
    level <- cmsg_level mem cmsgp ;;
    if negb (level =? SOL_SOCKET) then fatal ($"cmsg_level != SOL_SOCKET")
    else
      type <- cmsg_type mem cmsgp ;;
      if negb (type =? SCM_CREDENTIALS) then fatal ($"cmsg_type != SCM_CREDENTIALS")
      else
        pid <- get_int mem (CMSG_DATA cmsgp) ;;
        uid <- get_int mem (CMSG_DATA cmsgp + 4) ;;
        gid <- get_int mem (CMSG_DATA cmsgp + 8) ;;
        print Stdout (credsLine pid (wrapu 32 uid) (wrapu 32 gid)).

(** [stack] and [data0]: what controlMsg and data hold at first. *)
Definition cred_recv_main (stack data0 : list ascii) (pname : list ascii) (opts : list (ascii * list ascii)) : prog unit :=
  match datagramOption opts false with
  | None => usageErr (pname ++ $" [-d]" ++ [NL] ++ $"        -d    use datagram socket" ++ [NL])
  | Some useDatagramSocket =>
      sfd <- receiverSocket CRED_PATH useDatagramSocket ;;
      p <- sys (Setsockopt_passcred sfd 1) ;;
      match p with
      | Err e => errExit e ($"setsockopt")
      | Ok _ =>
          r <- sys (Recvmsg sfd 4 (CMSG_SPACE SIZEOF_UCRED)) ;;
          match r with
          | Err e => errExit e ($"recvmsg")
          | Ok (data, control, _) =>
              print Stdout ($"recvmsg() returned " ++ dec (strlen data) ++ [NL]) ;;;
              (if 0 <? strlen data
               then print Stdout ($"Received data = " ++ dec (int_of (word32 (received data data0))) ++ [NL]) else Ret tt) ;;;
              match CMSG_FIRSTHDR (strlen control) with
              | None => fatal ($"bad cmsg header / message length")
              | Some cmsgp =>
                  showCreds (received control stack) cmsgp ;;;
                  g <- sys (Getsockopt_peercred sfd) ;;
                  match g with
                  | Err e => errExit e ($"getsockopt")
                  | Ok (pid, uid, gid) =>
                      print Stdout (peerLine pid uid gid) ;;;
                      Halt (Exit EXIT_SUCCESS)
                  end
              end
          end
      end
  end.
End Cred.

(** ** The sender *)

(** The control message with credentials. *)
Definition oneCred (pid uid gid : Z) : list ascii :=
  concat [put64 (CMSG_LEN SIZEOF_UCRED); put_int SOL_SOCKET; put_int SCM_CREDENTIALS; put_int pid; put_int uid; put_int gid; replicate 4 NUL].

Lemma oneCred_encodes pid uid gid : encodes (Creds pid uid gid) (oneCred pid uid gid).
Proof. exists (replicate 4 NUL). cbn [block_data]. unfold oneCred. cbn [concat]. rewrite !app_nil_r, <- !app_assoc. by split. Qed.

(** What scm_cred_send passes to sendmsg(): the data of the command line and the
    credentials that it chose, or none with -n. *)
Definition cred_sent (opts : list (ascii * list ascii)) (args : list (list ascii)) (h : history) (data control : list ascii) : Prop :=
  data = put_int (match args with a :: _ => atoi a | [] => 12345 end) /\
  exists dgram noExplicitCreds, credOptions opts false false = Some (dgram, noExplicitCreds) /\
    if noExplicitCreds : bool then control = []
    else exists pid uid gid, Ev Getpid pid ∈ h /\ Ev Getuid uid ∈ h /\ Ev Getgid gid ∈ h /\
      encodes (Creds (credArg args 1 pid id) (credArg args 2 uid (wrapu 32)) (credArg args 3 gid (wrapu 32))) control.

Section CredFacts.
Context {T : ErrText}.

Lemma wp_buildCreds (E : env) args (Q : outcome (list ascii) -> history -> Prop) h :
  (forall pid uid gid text, Q (Done (oneCred (credArg args 1 pid id) (credArg args 2 uid (wrapu 32)) (credArg args 3 gid (wrapu 32))))
     (Ev (Out Stdout text) tt :: Ev Getgid gid :: Ev Getuid uid :: Ev Getpid pid :: h)) ->
  wp E (buildCreds args) Q h.
Proof.
  intros HQ. unfold buildCreds. change (CMSG_FIRSTHDR (CMSG_SPACE SIZEOF_UCRED)) with (Some 0%nat). cbn [deref].
  change (replicate (Z.to_nat (CMSG_SPACE SIZEOF_UCRED)) NUL)
    with (concat [replicate 8 NUL; replicate 4 NUL; replicate 4 NUL; replicate 4 NUL; replicate 4 NUL; replicate 4 NUL; replicate 4 NUL]).
  store 0%nat (replicate 8 NUL). store 1%nat (replicate 4 NUL). store 2%nat (replicate 4 NUL).
  apply wp_sys_bind. intros pid _. store 3%nat (replicate 4 NUL).
  apply wp_sys_bind. intros uid _. store 4%nat (replicate 4 NUL).
  apply wp_sys_bind. intros gid _. store 5%nat (replicate 4 NUL).
  apply wp_sys_bind. intros [] _. apply HQ.
Qed.

Lemma cred_send_sends (E : env) pname opts args : wp E (cred_send_main pname opts args) (send_post (cred_sent opts args)) [].
Proof.
  unfold cred_send_main. destruct (credOptions opts false false) as [[dgram noCreds]|] eqn:Hopts.
  2: { apply wp_usageErr_trace. intros o k Ho Hk. apply unsent_post; [done|]. apply nosend_report; [done|constructor]. }
  apply wp_sys_bind. intros [] _. set (h0 := [Ev _ _]).
  assert (nosend h0) as Hn0 by (apply nosend_cons; [done|constructor]).
  assert (forall mem h, nosend h -> (forall k, cred_sent opts args (k ++ h) (put_int (match args with a :: _ => atoi a | [] => 12345 end)) mem) ->
    wp E (s <- unixConnect (Some CRED_PATH) (sockType dgram) ;;
          match s with
          | Err e => errExit e ($"unixConnect")
          | Ok sfd =>
              r <- sys (Sendmsg sfd (put_int (match args with a :: _ => atoi a | [] => 12345 end)) mem) ;;
              match r with
              | Err e => errExit e ($"sendmsg")
              | Ok ns => print Stdout ($"sendmsg() returned " ++ dec ns ++ [NL]) ;;; Halt (Exit EXIT_SUCCESS)
              end
          end) (send_post (cred_sent opts args)) h) as Hrest.
  { intros mem h Hh Hs. apply wp_bind, wp_unixConnect. intros [sfd|e] k Hk; assert (nosend (k ++ h)) as Hkh by (by apply Forall_app).
    - apply wp_send; [done| |by eexists _, _]. intros k'. rewrite app_assoc. apply Hs.
    - apply wp_fail_unsent; [done|apply unsent_post]. }
  apply wp_bind. destruct noCreds.
  - apply wp_sys_bind. intros [] _. apply Hrest; [by apply nosend_cons|]. intros k. split; [done|]. by exists dgram, true.
  - apply wp_buildCreds. intros pid uid gid text. apply Hrest; [by do 4 (apply nosend_cons; [done|])|]. intros k. split; [done|].
    exists dgram, false. split; [done|]. exists pid, uid, gid. split_and!; [..|apply oneCred_encodes]; rewrite elem_of_app, !elem_of_cons; tauto.
Qed.

(** ** The receiver *)

Lemma wp_fatal_any {A} (E : env) msg (Q : outcome A -> history -> Prop) h :
  (forall s h', stops_failing (A := A) (Stop s) -> Q (Stop s) h') -> wp E (fatal msg) Q h.
Proof. intros HQ. apply wp_fatal. intros [a|s] h' H; [by destruct H as [?|[?|?]]|by apply HQ]. Qed.

(** Reading a header of 32 bytes never leaves the buffer. *)
Lemma showCreds_total (E : env) mem h :
  length mem = 32%nat ->
  wp E (showCreds mem 0) (fun o h' => stops_failing o \/ o = Done tt) h.
Proof.
  intros Hm. assert (forall o (h' : history), stops_failing o -> stops_failing o \/ o = Done tt) as HQ by auto.
  unfold showCreds, cmsg_len, cmsg_level, cmsg_type, get_int, peek. rewrite Hm. cbn [bind Nat.leb Nat.add CMSG_DATA].
  repeat case_match; try (by apply wp_fatal). intros [] _. by right.
Qed.

Lemma showCreds_encoded (E : env) pid uid gid control tail h :
  encodes (Creds pid uid gid) control -> block_ok (Creds pid uid gid) ->
  wp E (showCreds (control ++ tail) 0) (fun o h' => o = Done tt /\ shown h h' (credsLine pid uid gid) []) h.
Proof.
  intros Hb (Hp & Hu & Hg). pose proof Hb as (pad & Hbytes & Hsz).
  destruct (read_header _ control [] tail Hb) as (H1 & H2 & H3); [rewrite Hsz; done|]. cbn [app length] in H1, H2, H3.
  unfold showCreds. rewrite H1, H2, H3. cbn [bind]. cbn [block_data block_type].
  change (CMSG_LEN (strlen (put_int pid ++ put_int uid ++ put_int gid)) =? CMSG_LEN SIZEOF_UCRED) with true.
  change (SOL_SOCKET =? SOL_SOCKET) with true. change (SCM_CREDENTIALS =? SCM_CREDENTIALS) with true. cbn [negb].
  rewrite Hbytes. cbn [block_data block_type].
  set (p := put64 (CMSG_LEN (strlen (put_int pid ++ put_int uid ++ put_int gid))) ++ put_int SOL_SOCKET ++ put_int SCM_CREDENTIALS).
  assert (length p = 16%nat) as Hlp by done.
  replace ((put64 (CMSG_LEN (strlen (put_int pid ++ put_int uid ++ put_int gid))) ++ put_int SOL_SOCKET ++ put_int SCM_CREDENTIALS ++
            (put_int pid ++ put_int uid ++ put_int gid) ++ pad) ++ tail)
    with (p ++ put_int pid ++ put_int uid ++ put_int gid ++ pad ++ tail) by (unfold p; by rewrite <- !app_assoc).
  clearbody p. unfold CMSG_DATA. cbn [Nat.add]. rewrite get_int_mid by done. cbn [bind]. unfold get_int.
  rewrite (app_assoc p), peek_mid by (rewrite ?length_app, ?length_put_int, ?Hlp; done). cbn [bind].
  rewrite (app_assoc (p ++ _)), peek_mid by (rewrite ?length_app, ?length_put_int, ?Hlp; done). cbn [bind].
  rewrite !uid_word by done. intros [] _. split; [done|apply shown_print].
Qed.

(** Displayed: the credentials of the message, then the ones of the peer. *)
Definition cred_recv_post (b : option block) (o : outcome unit) (h : history) : Prop :=
  stops_failing o \/
  o = Stop (Exit EXIT_SUCCESS) /\
  match b with
  | Some (Creds pid uid gid) => exists t sd p u g, Ev (Getsockopt_peercred sd) (Ok (p, u, g)) ∈ h /\
      shown [] h (t ++ credsLine pid uid gid ++ peerLine p u g) []
  | Some (Rights _) => False
  | None => True
  end.

(** The end of the receiver, once the message has been displayed. *)
Lemma wp_peer (E : env) b sfd h :
  match b with
  | Some (Creds pid uid gid) => exists t, shown [] h (t ++ credsLine pid uid gid) []
  | Some (Rights _) => False
  | None => True
  end ->
  wp E (g <- sys (Getsockopt_peercred sfd) ;;
        match g with
        | Err e => errExit e ($"getsockopt")
        | Ok (pid, uid, gid) => print Stdout (peerLine pid uid gid) ;;; Halt (Exit EXIT_SUCCESS)
        end) (cred_recv_post b) h.
Proof.
  intros Hb. apply wp_sys_bind. intros [[[p u] g]|e] _; [|apply wp_errExit; intros; by left].
  intros [] _. right. split; [done|]. destruct b as [[?|pid uid gid]|]; [done| |done]. destruct Hb as [t Ht].
  exists t, sfd, p, u, g. split; [right; by left|]. rewrite app_assoc.
  apply (shown_trans _ (Ev (Getsockopt_peercred sfd) (Ok (p, u, g)) :: h) _ _ _ [] []); [|apply shown_print].
  apply shown_more; [by apply quiet_event|done].
Qed.

(** What all runs of the receiver have in common: up to the header it only
    prints. *)
Lemma wp_cred_recv (E : env) b stack data0 pname opts :
  (forall sfd data control flags h, E h _ (Recvmsg sfd 4 32) (Ok (data, control, flags)) -> 16 <= strlen control ->
    forall h', (exists t, shown [] h' t []) ->
    wp E (showCreds (received control stack) 0) (fun o h'' => stops_failing o \/ o = Done tt /\
      match b with
      | Some (Creds pid uid gid) => exists t, shown [] h'' (t ++ credsLine pid uid gid) []
      | Some (Rights _) => False
      | None => True
      end) h') ->
  wp E (cred_recv_main stack data0 pname opts) (cred_recv_post b) [].
Proof.
  intros Hshow. assert (forall o h, stops_failing o -> cred_recv_post b o h) as Hfail by (by left).
  unfold cred_recv_main. destruct (datagramOption opts false) as [dgram|]; [|by apply wp_usageErr].
  apply wp_receiverSocket; [done|]. intros sfd h0 H0. apply wp_sys_bind. intros [u|e] _; [|by apply wp_errExit].
  change (CMSG_SPACE SIZEOF_UCRED) with 32. apply wp_sys_bind. intros [[[data control] flags]|e] Hr; [|by apply wp_errExit].
  apply (wp_prints E _ _ _ []); [apply prints_text| |].
  { exists []. do 2 (apply shown_more; [by apply quiet_event|]). exact H0. }
  intros h1 H1. eapply (wp_prints E _ _ _ [] h1); [|done|]; [destruct (0 <? strlen data); [apply prints_text|apply prints_nothing]|].
  intros h2 H2. unfold CMSG_FIRSTHDR, SIZEOF_CMSGHDR. destruct (Z.leb_spec 16 (strlen control)) as [Hge|Hlt]; [|by apply wp_fatal].
  eapply wp_call; [by eapply Hshow|..].
  - intros [] h3 [[?|[?|?]]|[_ H3]]; try done. by apply wp_peer.
  - intros s h3 [H|[? _]]; [by apply Hfail|done].
Qed.

Lemma cred_recv_any stack data0 pname opts : length stack = 32%nat -> wp posix (cred_recv_main stack data0 pname opts) (cred_recv_post None) [].
Proof.
  intros Hst. apply wp_cred_recv. intros sfd data control flags h Hr Hge h' _. cbn in Hr.
  eapply wp_mono; [|apply showCreds_total; rewrite length_received; lia]. intros o h'' [H|H]; auto.
Qed.

Lemma cred_recv_shows stack data0 pname opts pid uid gid :
  block_ok (Creds pid uid gid) ->
  wp (delivers [Creds pid uid gid]) (cred_recv_main stack data0 pname opts) (cred_recv_post (Some (Creds pid uid gid))) [].
Proof.
  intros Hok. apply wp_cred_recv. intros sfd data control flags h [_ (bytes & -> & Henc)] Hge h' [t Ht].
  inversion Henc as [|? by_ ? l Hb Hnil]; subst. inversion Hnil; subst. cbn [concat] in *. rewrite app_nil_r in *. unfold received.
  eapply wp_mono; [|by apply (showCreds_encoded _ pid uid gid)]. intros o h'' [-> H]. right. split; [done|]. exists t.
  exact (shown_trans _ _ _ _ _ _ _ Ht H).
Qed.
End CredFacts.

(** Credentials pass through the ancillary data unchanged.  scm_cred_send
    passes to sendmsg() the data of the command line and, unless -n is given, bytes
    that encode its own pid, uid and gid, each replaced by the argument given for
    it unless that is a dash; it reports success only after sendmsg() succeeded,
    and a failure before it sends nothing.  scm_cred_recv, on bytes that encode
    credentials, displays exactly these and then the ones that the kernel reports
    for the peer; whatever the message is, it reads nothing outside its buffer and
    either exits with success or reports a failure. *)
Lemma cred_passing {T : ErrText} stack data0 pname opts args :
  (forall E, wp E (cred_send_main pname opts args) (send_post (cred_sent opts args)) []) /\
  (forall pid uid gid, block_ok (Creds pid uid gid) ->
    wp (delivers [Creds pid uid gid]) (cred_recv_main stack data0 pname opts) (cred_recv_post (Some (Creds pid uid gid))) []) /\
  (length stack = 32%nat -> wp posix (cred_recv_main stack data0 pname opts) (cred_recv_post None) []).
Proof. split_and!; intros; [apply cred_send_sends|by apply cred_recv_shows|by apply cred_recv_any]. Qed.

(** C8: descriptors and credentials pass through the ancillary data unchanged.  sendfd(),
    scm_rights_send, scm_multi_send and scm_cred_send build, inside their buffers, bytes that
    encode exactly the descriptors that they opened and the chosen credentials, and report
    success only after sendmsg() succeeded; a failure before it sends nothing.  recvfd()
    returns the descriptor of a message that carries just one and EINVAL for any other, and
    reads nothing outside its buffer.  scm_rights_recv, scm_multi_recv and scm_cred_recv, on
    bytes that encode blocks, visit every block once and in order, display the descriptors
    and credentials in it, and the first two read every file to its end and pass what they
    read to write() in order; the loops end unless the kernel goes on delivering bytes.
    scm_multi_recv writes outside its buffer only if -n gives a size above the 4144 bytes
    that it allocates; scm_cred_recv reads nothing outside its buffer whatever the message
    is. *)
Theorem ancillary_data {T : ErrText} :
  (forall fuel stack heap data0 pname opts,
    length stack = 24%nat ->
    (forall E sockfd fd h, wp E (sendfd stack sockfd fd) (sendfd_post sockfd fd h) h) /\
    (forall sockfd h, wp posix (recvfd stack sockfd) (recvfd_post sockfd h) h) /\
    (forall E path, wp E (rights_send_main pname opts [path]) (send_post (rights_sent path)) []) /\
    (forall fd, is_int fd ->
      wp (delivers [Rights [fd]]) (rights_recv_main fuel stack data0 pname opts) (rights_recv_post fuel fd) []) /\
    (forall E args, Z.of_nat (length args) <= INT_MAX ->
      wp E (multi_send_main pname opts args) (send_post (multi_sent opts args)) []) /\
    (forall bs, Forall block_ok bs ->
      wp (delivers bs) (multi_recv_main fuel heap data0 pname opts) (multi_recv_post fuel opts bs) [])) /\
  (forall stack data0 pname opts args,
    (forall E, wp E (cred_send_main pname opts args) (send_post (cred_sent opts args)) []) /\
    (forall pid uid gid, block_ok (Creds pid uid gid) ->
      wp (delivers [Creds pid uid gid]) (cred_recv_main stack data0 pname opts) (cred_recv_post (Some (Creds pid uid gid))) []) /\
    (length stack = 32%nat -> wp posix (cred_recv_main stack data0 pname opts) (cred_recv_post None) [])).
Proof. split; [exact scm_passing|exact cred_passing]. Qed.

(** ** Example *)

Definition demo_cred_kernel : kernel := fun h X c =>
  match c in call X return X with
  | Socket _ _ _ => if decide (3 ∈ open_fds h) then Err 24 else Ok 3
  | Accept _ => if decide (4 ∈ open_fds h) then Err 24 else Ok (4, [])
  | Remove _ => Err ENOENT
  | Bind _ _ _ | Listen _ _ | Setsockopt_passcred _ _ => Ok tt
  | Recvmsg _ n m => if (4 <=? n) && (32 <=? m) then Ok (put_int 12345, oneCred 7 1000 100, 0) else Err EINVAL
  | Getsockopt_peercred _ => Ok (7, 1000, 100)
  | c => failing_kernel h _ c
  end.

Lemma demo_cred_legal h X (c : call X) : delivers [Creds 7 1000 100] h X c (demo_cred_kernel h X c).
Proof.
  split.
  - destruct c; try apply posix_inhabited; cbn; try done; repeat (case_decide || case_match; cbn; try done; try lia).
  - destruct c; try done. cbn [demo_cred_kernel]. destruct ((4 <=? n) && (32 <=? controllen)); [|done].
    exists [oneCred 7 1000 100]. split; [by rewrite <- (app_nil_r (oneCred 7 1000 100))|].
    constructor; [apply oneCred_encodes|constructor].
Qed.

Lemma ancillary_data_witness :
  length (replicate 24 NUL) = 24%nat /\
  multi_recv_post 10 [] demo_blocks
    (fst (run demo_scm_kernel (multi_recv_main (T := demo_text) 10 [] [] ($"recv") []) []))
    (snd (run demo_scm_kernel (multi_recv_main (T := demo_text) 10 [] [] ($"recv") []) [])) /\
  block_ok (Creds 7 1000 100) /\
  fst (run demo_cred_kernel (cred_recv_main (T := demo_text) (replicate 32 NUL) (replicate 4 NUL) ($"scm_cred_recv") []) []) = Stop (Exit 0) /\
  cred_recv_post (Some (Creds 7 1000 100)) (Stop (Exit 0))
    (snd (run demo_cred_kernel (cred_recv_main (T := demo_text) (replicate 32 NUL) (replicate 4 NUL) ($"scm_cred_recv") []) [])).
Proof.
  split; [done|]. split.
  { apply (wp_run (delivers demo_blocks)); [exact demo_scm_legal|].
    apply (proj1 (ancillary_data (T := demo_text)) 10%nat (replicate 24 NUL)); [done|].
    apply Forall_cons. split; [apply Forall_cons; split; [done|by apply Forall_singleton]|by apply Forall_singleton]. }
  assert (block_ok (Creds 7 1000 100)) as Hok by (cbn; unfold is_int, INT_MIN, INT_MAX; lia).
  pose proof (wp_run (delivers [Creds 7 1000 100]) demo_cred_kernel _ _ [] demo_cred_legal
    (proj1 (proj2 (proj2 (ancillary_data (T := demo_text)) (replicate 32 NUL) (replicate 4 NUL) ($"scm_cred_recv") [] [])) 7 1000 100 Hok)) as H.
  assert (fst (run demo_cred_kernel (cred_recv_main (T := demo_text) (replicate 32 NUL) (replicate 4 NUL) ($"scm_cred_recv") []) []) = Stop (Exit 0)) as Hrun
    by (vm_compute; reflexivity).
  split; [exact Hok|]. split; [exact Hrun|]. rewrite <- Hrun. 
  destruct (run demo_cred_kernel _ []) as [o h]. exact H.
Defined.
