(* ===== verification/PosixIpc.v ===== *)
(** * POSIX message queues, semaphores and shared memory: the objects

    The programs of pmsg/, psem/ and pshm/ work on objects that outlive them.
    [posix_ipc] is the state of these objects as mq_overview(7), sem_overview(7) and
    shm_overview(7) document it: names refer to objects, and an object lives on
    when its name is removed.  [effect] is what a successful call does, [legal]
    which replies are possible; every call may also fail, without effect. *)

From S2P Require Import Prelude Sys LibErrors GetNum FileIO.
From Stdlib Require Import Sorting.Sorted.

Definition O_WRONLY : Z := 1.
Definition O_RDWR : Z := 2.
Definition O_CREAT : Z := 64.
Definition O_EXCL : Z := 128.
Definition O_NONBLOCK : Z := 2048.
Definition PROT_READ : Z := 1.
Definition PROT_WRITE : Z := 2.
Definition USER_RW : Z := 384.
Definition SEM_VALUE_MAX : Z := INT_MAX.
Definition MQ_PRIO_MAX : Z := 32768.

(** ** Objects and names *)

(** The messages of a queue with their priorities, the next one first. *)
Record mqueue := Mqueue { q_maxmsg : Z; q_msgsize : Z; q_msgs : list (list ascii * Z) }.

(** A shared memory object may have a semaphore at its start. *)
Inductive object :=
  | OSem (v : Z)
  | OMq (q : mqueue)
  | OShm (data : list ascii) (sem : option Z).

Inductive space := NSem | NMq | NShm.

#[global] Instance space_eq_dec : EqDecision space.
Proof. solve_decision. Defined.

#[global] Instance space_countable : Countable space.
Proof.
  refine (inj_countable' (fun s => match s with NSem => 0%nat | NMq => 1%nat | NShm => 2%nat end)
    (fun n => match n with 0%nat => NSem | 1%nat => NMq | _ => NShm end) _). by intros [].
Defined.

Record posix_ipc := Ipc { names : gmap (space * list ascii) nat; objs : gmap nat object }.

(** What a process has open: descriptors of queues and shared memory objects,
    and addresses of semaphores and mappings. *)
Record table := Table { fds : gmap Z nat; ptrs : gmap Z nat }.

Definition no_table : table := Table ∅ ∅.

Definition named (sp : space) (name : list ascii) (s : posix_ipc) : option object := o ← names s !! (sp, name); objs s !! o.

(** A new message comes before those of lower priority. *)
Fixpoint enqueue (m : list ascii * Z) (l : list (list ascii * Z)) : list (list ascii * Z) :=
  match l with
  | [] => [m]
  | x :: l' => if snd x <? snd m then m :: l else x :: enqueue m l'
  end.

(** The object that an open call returns, created if the name is free. *)
Definition open_obj (sp : space) (name : list ascii) (new : object) (s : posix_ipc) : nat * posix_ipc :=
  match names s !! (sp, name) with
  | Some o => (o, s)
  | None => let o := fresh (dom (objs s)) in (o, Ipc (<[(sp, name) := o]> (names s)) (<[o := new]> (objs s)))
  end.

Definition may_open (sp : space) (name : list ascii) (flags : Z) (s : posix_ipc) : bool :=
  match names s !! (sp, name) with
  | Some _ => negb (flag flags O_CREAT && flag flags O_EXCL)
  | None => flag flags O_CREAT
  end.

Definition unlinked (sp : space) (name : list ascii) (s : posix_ipc) : posix_ipc := Ipc (delete (sp, name) (names s)) (objs s).
Definition set_obj (o : nat) (x : object) (s : posix_ipc) : posix_ipc := Ipc (names s) (<[o := x]> (objs s)).

(** Default attributes of a queue (/proc/sys/fs/mqueue). *)
Definition new_queue (create : option (Z * option (Z * Z))) : object :=
  match create with
  | Some (_, Some (maxmsg, msgsize)) => OMq (Mqueue maxmsg msgsize [])
  | _ => OMq (Mqueue 10 8192 [])
  end.

Definition new_sem (create : option (Z * Z)) : object := OSem (match create with Some (_, v) => v | None => 0 end).

(** ftruncate(): the bytes that are added are zero. *)
Definition resized (len : Z) (data : list ascii) : list ascii := take (Z.to_nat len) (data ++ replicate (Z.to_nat len) NUL).

Definition stored (off : nat) (new data : list ascii) : list ascii := take off data ++ new ++ drop (off + length new) data.

(** The value of the semaphore that an address refers to. *)
Definition sem_of (x : object) : option Z := match x with OSem v => Some v | OShm _ sem => sem | OMq _ => None end.
Definition set_sem (v : Z) (x : object) : object :=
  match x with OSem _ => OSem v | OShm data (Some _) => OShm data (Some v) | x => x end.

Definition at_fd (s : posix_ipc * table) (fd : Z) : option (nat * object) := o ← fds (snd s) !! fd; x ← objs (fst s) !! o; Some (o, x).
Definition at_ptr (s : posix_ipc * table) (p : Z) : option (nat * object) := o ← ptrs (snd s) !! p; x ← objs (fst s) !! o; Some (o, x).

(** ** What the calls do *)

Definition sem_delta (f : semfun) : Z := match f with SemPost => 1 | _ => -1 end.

Definition on_obj (f : object -> object) (at_ : option (nat * object)) (s : posix_ipc * table) : posix_ipc * table :=
  match at_ with Some (o, x) => (set_obj o (f x) (fst s), snd s) | None => s end.

Definition opens_fd (sp : space) (name : list ascii) (new : object) (r : res Z) (s : posix_ipc * table) : posix_ipc * table :=
  match r with
  | Ok fd => let '(o, s') := open_obj sp name new (fst s) in (s', Table (<[fd := o]> (fds (snd s))) (ptrs (snd s)))
  | Err _ => s
  end.

Definition on_ok {A} (r : res A) (f : posix_ipc * table -> posix_ipc * table) (s : posix_ipc * table) : posix_ipc * table :=
  match r with Ok _ => f s | Err _ => s end.

Definition effect {X} (c : call X) : X -> posix_ipc * table -> posix_ipc * table :=
  match c in call X return X -> posix_ipc * table -> posix_ipc * table with
  | Sem_open name _ create => fun r s =>
      match r with
      | Ok p => let '(o, s') := open_obj NSem name (new_sem create) (fst s) in (s', Table (fds (snd s)) (<[p := o]> (ptrs (snd s))))
      | Err _ => s
      end
  | Mq_open name _ create => opens_fd NMq name (new_queue create)
  | Shm_open name _ _ => opens_fd NShm name (OShm [] None)
  | Sem_unlink name => fun r => on_ok r (fun s => (unlinked NSem name (fst s), snd s))
  | Mq_unlink name => fun r => on_ok r (fun s => (unlinked NMq name (fst s), snd s))
  | Shm_unlink name => fun r => on_ok r (fun s => (unlinked NShm name (fst s), snd s))
  | Sem_call f p => fun r => on_ok r (fun s =>
      on_obj (fun x => match sem_of x with Some v => set_sem (v + sem_delta f) x | None => x end) (at_ptr s p) s)
  | Sem_timedwait p _ _ => fun r => on_ok r (fun s =>
      on_obj (fun x => match sem_of x with Some v => set_sem (v - 1) x | None => x end) (at_ptr s p) s)
  | Sem_init p _ v => fun r => on_ok r (fun s =>
      on_obj (fun x => match x with OShm data _ => OShm data (Some v) | x => x end) (at_ptr s p) s)
  | Mq_send d data prio => fun r => on_ok r (fun s =>
      on_obj (fun x => match x with OMq q => OMq (Mqueue (q_maxmsg q) (q_msgsize q) (enqueue (data, prio) (q_msgs q))) | x => x end) (at_fd s d) s)
  | Mq_receive d _ => fun r => on_ok r (fun s =>
      on_obj (fun x => match x with OMq q => OMq (Mqueue (q_maxmsg q) (q_msgsize q) (drop 1 (q_msgs q))) | x => x end) (at_fd s d) s)
  | Ftruncate fd len => fun r => on_ok r (fun s =>
      on_obj (fun x => match x with OShm data sem => OShm (resized len data) sem | x => x end) (at_fd s fd) s)
  | Mmap _ _ fd => fun r s =>
      match r, fds (snd s) !! fd with
      | Ok a, Some o => (fst s, Table (fds (snd s)) (<[a := o]> (ptrs (snd s))))
      | _, _ => s
      end
  | Store a off new => fun _ s =>
      on_obj (fun x => match x with
                       | OShm data sem => if off + strlen new <=? strlen data then OShm (stored (Z.to_nat off) new data) sem else x
                       | x => x end) (at_ptr s a) s
  | Close fd | Mq_close fd => fun _ s => (fst s, Table (delete fd (fds (snd s))) (ptrs (snd s)))
  | _ => fun _ s => s
  end.

(** ** Which replies are possible *)

Definition ok_if {A} (P : A -> Prop) (r : res A) : Prop := match r with Ok a => P a | Err _ => True end.

(** A new address is not in use for another object. *)
Definition fits_ptr (o : nat) (s : posix_ipc * table) (p : Z) : Prop := ptrs (snd s) !! p = None \/ ptrs (snd s) !! p = Some o.

Definition legal (s : posix_ipc * table) {X} (c : call X) : X -> Prop :=
  match c in call X return X -> Prop with
  | Sem_open name flags create => ok_if (fun p =>
      may_open NSem name flags (fst s) = true /\ (names (fst s) !! (NSem, name) = None -> match create with Some (_, v) => 0 <= v <= SEM_VALUE_MAX | None => False end) /\
      fits_ptr (fst (open_obj NSem name (new_sem create) (fst s))) s p)
  | Sem_init _ _ v => ok_if (fun _ => 0 <= v <= SEM_VALUE_MAX)
  | Mq_open name flags create => ok_if (fun fd => may_open NMq name flags (fst s) = true /\ fds (snd s) !! fd = None)
  | Shm_open name flags _ => ok_if (fun fd => may_open NShm name flags (fst s) = true /\ fds (snd s) !! fd = None)
  | Sem_unlink name => ok_if (fun _ => names (fst s) !! (NSem, name) <> None)
  | Mq_unlink name => ok_if (fun _ => names (fst s) !! (NMq, name) <> None)
  | Shm_unlink name => ok_if (fun _ => names (fst s) !! (NShm, name) <> None)
  | Sem_call SemPost p => ok_if (fun _ => forall o x, at_ptr s p = Some (o, x) -> exists v, sem_of x = Some v /\ v < SEM_VALUE_MAX)
  | Sem_call _ p | Sem_timedwait p _ _ => ok_if (fun _ => forall o x, at_ptr s p = Some (o, x) -> exists v, sem_of x = Some v /\ 0 < v)
  | Sem_getvalue p => ok_if (fun v => forall o x, at_ptr s p = Some (o, x) -> sem_of x = Some v)
  | Mq_send d data prio => ok_if (fun _ => forall o x, at_fd s d = Some (o, x) ->
      exists q, x = OMq q /\ Z.of_nat (length (q_msgs q)) < q_maxmsg q /\ strlen data <= q_msgsize q /\ prio < MQ_PRIO_MAX)
  | Mq_receive d n => ok_if (fun m => forall o x, at_fd s d = Some (o, x) ->
      exists q, x = OMq q /\ q_msgsize q <= n /\ hd_error (q_msgs q) = Some m)
  | Mq_getattr d => ok_if (fun a => forall o x, at_fd s d = Some (o, x) ->
      exists q, x = OMq q /\ a = (q_maxmsg q, q_msgsize q, Z.of_nat (length (q_msgs q))))
  | Fstat_size fd => ok_if (fun n => forall o data sem, at_fd s fd = Some (o, OShm data sem) -> n = strlen data)
  | Ftruncate _ len => ok_if (fun _ => 0 <= len)
  | Mmap len _ fd => ok_if (fun a => 0 < len /\ ptrs (snd s) !! a = None)
  | Load a off n => fun d => forall o data sem, at_ptr s a = Some (o, OShm data sem) ->
      0 <= off -> off + n <= strlen data -> d = take (Z.to_nat n) (drop (Z.to_nat off) data)
  | _ => fun _ => True
  end.

(** ** One process, without interference *)

(** The objects and what the process has open after a history. *)
Fixpoint after (s : posix_ipc) (h : history) : posix_ipc * table :=
  match h with [] => (s, no_table) | Ev c r :: h => effect c r (after s h) end.

Definition ipc_env (s : posix_ipc) : env := fun h X c r => posix h X c r /\ legal (after s h) c r.

(** Events that leave the objects alone. *)
Definition unaffecting (e : event) : Prop := match e with Ev c r => forall s, effect c r s = s end.

Lemma unaffecting_app s k h : Forall unaffecting k -> after s (k ++ h) = after s h.
Proof. induction 1 as [|[X c r] k Hc _ IH]; [done|]. cbn [app after]. by rewrite IH. Qed.

Lemma reporting_unaffecting k : Forall reporting k -> Forall unaffecting k.
Proof. intros H. eapply Forall_impl; [exact H|]. intros [X c r]. by destruct c. Qed.

(** ** The state stays consistent *)

Definition kind (x : object) : space := match x with OSem _ => NSem | OMq _ => NMq | OShm _ _ => NShm end.

(** A name of one kind refers to an object of that kind. *)
Definition well_typed (s : posix_ipc) : Prop :=
  forall sp name o, names s !! (sp, name) = Some o -> exists x, objs s !! o = Some x /\ kind x = sp.

(** No semaphore is negative, and a queue has its messages by priority, no more and
    none longer than its attributes say. *)
Definition object_ok (x : object) : Prop :=
  match x with
  | OSem v | OShm _ (Some v) => 0 <= v
  | OMq q => StronglySorted (fun a b => snd b <= snd a) (q_msgs q) /\
             (Z.of_nat (length (q_msgs q)) <= Z.max 0 (q_maxmsg q)) /\ Forall (fun m => strlen (fst m) <= q_msgsize q) (q_msgs q)
  | OShm _ None => True
  end.

Definition ipc_ok (s : posix_ipc) : Prop := well_typed s /\ forall o x, objs s !! o = Some x -> object_ok x.

Lemma enqueue_elem m l x : x ∈ enqueue m l <-> x = m \/ x ∈ l.
Proof. induction l as [|y l IH]; cbn; [set_solver|]. case_match; set_solver. Qed.

Lemma enqueue_length m l : length (enqueue m l) = S (length l).
Proof. induction l as [|y l IH]; cbn; [done|]. case_match; cbn; [done|by rewrite IH]. Qed.

Lemma enqueue_sorted m l :
  StronglySorted (fun a b => snd b <= snd a) l -> StronglySorted (fun a b => snd b <= snd a) (enqueue m l).
Proof.
  induction 1 as [|x l Hs IH Hx]; cbn; [by repeat constructor|]. destruct (Z.ltb_spec (snd x) (snd m)) as [Hlt|Hge].
  - constructor; [by constructor|]. constructor; [lia|]. eapply Forall_impl; [exact Hx|]. cbn. intros; lia.
  - constructor; [done|]. apply Forall_forall. intros y [->|Hy]%enqueue_elem; [done|]. by rewrite Forall_forall in Hx; apply Hx.
Qed.

(** Messages of the same priority stay in the order in which they were sent. *)
Lemma enqueue_fifo m l p :
  StronglySorted (fun a b => snd b <= snd a) l ->
  filter (fun x => snd x = p) (enqueue m l) = filter (fun x => snd x = p) l ++ (if snd m =? p then [m] else []).
Proof.
  induction 1 as [|x l Hs IH Hx]; cbn [enqueue].
  - rewrite filter_cons, filter_nil. case_decide; [by rewrite (proj2 (Z.eqb_eq _ _))|by rewrite (proj2 (Z.eqb_neq _ _))].
  - destruct (Z.ltb_spec (snd x) (snd m)) as [Hlt|Hge].
    + rewrite filter_cons. case_decide as Hp; [|rewrite (proj2 (Z.eqb_neq _ _)) by done; by rewrite app_nil_r].
      rewrite (proj2 (Z.eqb_eq _ _)) by done. enough (filter (fun y => snd y = p) (x :: l) = []) as -> by done.
      rewrite Forall_forall in Hx. apply elem_of_nil_inv. intros y [Hy1 [->|Hy2]%elem_of_cons]%list_elem_of_filter; [lia|].
      specialize (Hx _ Hy2). lia.
    + rewrite !filter_cons, IH. by case_decide.
Qed.

Lemma open_obj_spec sp name new s :
  let '(o, s') := open_obj sp name new s in
  match names s !! (sp, name) with
  | Some o' => o = o' /\ s' = s
  | None => objs s !! o = None /\ s' = Ipc (<[(sp, name) := o]> (names s)) (<[o := new]> (objs s))
  end.
Proof.
  unfold open_obj. destruct (names s !! (sp, name)) eqn:Hn; [done|]. split; [|done].
  apply not_elem_of_dom, is_fresh.
Qed.

Lemma open_obj_ok sp name new s : 
  ipc_ok s -> kind new = sp -> (names s !! (sp, name) = None -> object_ok new) -> ipc_ok (snd (open_obj sp name new s)).
Proof.
  intros [Ht Ho] Hk Hn. pose proof (open_obj_spec sp name new s) as H. destruct (open_obj sp name new s) as [o s'] eqn:He.
  cbn [snd]. destruct (names s !! (sp, name)) as [o'|] eqn:Hname; [by destruct H as [_ ->]|]. destruct H as [Hfr ->].
  specialize (Hn eq_refl). split.
  - intros sp' name' o'. cbn. rewrite lookup_insert_Some. intros [[[= -> ->] ->]|[Hne Hl]].
    + exists new. by rewrite lookup_insert_eq.
    + destruct (Ht _ _ _ Hl) as (x & Hx & <-). exists x. rewrite lookup_insert_ne; [done|]. intros ->. congruence.
  - intros o' x. cbn. rewrite lookup_insert_Some. intros [[<- <-]|[_ Hl]]; [done|by eapply Ho].
Qed.

Lemma set_obj_ok o x x' s : ipc_ok s -> objs s !! o = Some x -> kind x' = kind x -> object_ok x' -> ipc_ok (set_obj o x' s).
Proof.
  intros [Ht Ho] Hx Hk Hok. split.
  - intros sp name o' Hn. destruct (Ht _ _ _ Hn) as (y & Hy & <-). cbn. destruct (decide (o = o')) as [<-|Hne].
    + exists x'. rewrite lookup_insert_eq. split; [done|congruence].
    + exists y. by rewrite lookup_insert_ne.
  - intros o' y. cbn. rewrite lookup_insert_Some. intros [[<- <-]|[_ Hl]]; [done|by eapply Ho].
Qed.

Lemma on_obj_ok f at_ (s : posix_ipc * table) :
  (forall o x, at_ = Some (o, x) -> objs (fst s) !! o = Some x) ->
  (forall o x, at_ = Some (o, x) -> object_ok x -> kind (f x) = kind x /\ object_ok (f x)) ->
  ipc_ok (fst s) -> ipc_ok (fst (on_obj f at_ s)).
Proof.
  intros Hat Hf Hok. destruct at_ as [[o x]|]; [|done]. cbn. specialize (Hat _ _ eq_refl).
  destruct (Hf _ _ eq_refl) as [Hk Hx]; [by apply (proj2 Hok o)|]. by eapply set_obj_ok.
Qed.

Lemma at_fd_obj s fd o x : at_fd s fd = Some (o, x) -> fds (snd s) !! fd = Some o /\ objs (fst s) !! o = Some x.
Proof. unfold at_fd. by intros (o' & Ho & (y & Hy & [= -> ->])%bind_Some)%bind_Some. Qed.

Lemma at_ptr_obj s p o x : at_ptr s p = Some (o, x) -> ptrs (snd s) !! p = Some o /\ objs (fst s) !! o = Some x.
Proof. unfold at_ptr. by intros (o' & Ho & (y & Hy & [= -> ->])%bind_Some)%bind_Some. Qed.

Lemma unlinked_ok sp name s : ipc_ok s -> ipc_ok (unlinked sp name s).
Proof. intros [Ht Ho]. split; [|done]. intros sp' name' o. cbn. intros [_ H]%lookup_delete_Some. by eapply Ht. Qed.

Lemma opens_fd_ok sp name new r s :
  ipc_ok (fst s) -> kind new = sp -> object_ok new -> ipc_ok (fst (opens_fd sp name new r s)).
Proof.
  intros Hs Hk Hn. destruct r as [fd|e]; [|done]. cbn. pose proof (open_obj_ok sp name new (fst s) Hs Hk (fun _ => Hn)) as H.
  by destruct (open_obj sp name new (fst s)).
Qed.

Lemma new_queue_ok create : kind (new_queue create) = NMq /\ object_ok (new_queue create).
Proof. destruct create as [[mode [[a b]|]]|]; cbn; (split; [done|]); split_and!; try lia; constructor. Qed.

Lemma set_sem_ok v w x : sem_of x = Some v -> 0 <= w -> kind (set_sem w x) = kind x /\ object_ok (set_sem w x).
Proof. destruct x as [u|q|data [u|]]; cbn; intros; done. Qed.

Lemma sem_nonneg v x : sem_of x = Some v -> object_ok x -> 0 <= v.
Proof. destruct x as [u|q|data [u|]]; cbn; intros [= ->]; done. Qed.

(** Every reply that is possible leaves the objects consistent. *)
Lemma effect_ok {X} (c : call X) r s : ipc_ok (fst s) -> legal s c r -> ipc_ok (fst (effect c r s)).
Proof.
  intros Hs Hl. destruct c; try exact Hs; cbn [effect].
  all: try (apply opens_fd_ok; [done|by destruct (new_queue_ok create)..]).
  all: try (destruct r as [a|e]; [cbn [on_ok]|exact Hs]).
  all: try (apply unlinked_ok; exact Hs).
  all: try (apply on_obj_ok; [intros o x Hx; apply at_ptr_obj in Hx || apply at_fd_obj in Hx; apply Hx| |exact Hs]; intros o x Hx Hok).
  - by destruct x.
  - destruct (Hl _ _ Hx) as (q & -> & Hlen & Hsz & _). destruct Hok as (Hso & _ & Hall). split; [done|]. cbn. split_and!.
    + by apply enqueue_sorted.
    + rewrite enqueue_length. lia.
    + apply Forall_forall. intros m [->|Hm]%enqueue_elem; [done|]. rewrite Forall_forall in Hall. by apply Hall.
  - destruct (Hl _ _ Hx) as (q & -> & _ & Hh). destruct Hok as (Hso & Hlen & Hall). split; [done|]. cbn.
    destruct (q_msgs q) as [|m l]; [done|]. rewrite skipn_cons, drop_0. cbn [length] in Hlen. inversion Hso; subst. inversion Hall; subst. split_and!; [done|lia|done].
  - pose proof (open_obj_ok NSem name (new_sem create) (fst s) Hs eq_refl) as H. destruct Hl as (_ & Hv & _).
    destruct (open_obj NSem name (new_sem create) (fst s)) as [o s']. apply H. intros Hn. specialize (Hv Hn).
    destruct create as [[m v]|]; [|done]. cbn. lia.
  - destruct x; try done. cbn in *. split; [done|lia].
  - destruct (sem_of x) as [v|] eqn:Hv; [|done]. eapply set_sem_ok; [exact Hv|].
    destruct f; destruct (Hl _ _ Hx) as (v' & Hv' & Hpos); replace v' with v in * by congruence; cbn; try lia.
    pose proof (sem_nonneg _ _ Hv Hok). lia.
  - destruct (Hl _ _ Hx) as (v & Hv & Hpos). rewrite Hv. eapply set_sem_ok; [exact Hv|lia].
  - by apply opens_fd_ok.
  - by destruct (fds (snd s) !! fd).
  - destruct x as [| |data0 sem]; try done. by case_match.
Qed.

Lemma after_ok s h : ipc_ok s -> (forall k X (c : call X) r h', h = k ++ Ev c r :: h' -> legal (after s h') c r) -> ipc_ok (fst (after s h)).
Proof.
  intros Hs. induction h as [|[X c r] h IH]; intros Hl; [done|]. cbn [after]. apply effect_ok; [|by apply (Hl [])].
  apply IH. intros k Y c' r' h' ->. by apply (Hl (Ev c r :: k)).
Qed.

(** ** Opening an object that exists *)

Definition refers (s : posix_ipc) (sp : space) (name : list ascii) (o : nat) (x : object) : Prop :=
  names s !! (sp, name) = Some o /\ objs s !! o = Some x.

Lemma open_existing sp name flags new s :
  ipc_ok s -> may_open sp name flags s = true -> flag flags O_CREAT = false ->
  exists o x, refers s sp name o x /\ kind x = sp /\ open_obj sp name new s = (o, s).
Proof.
  intros [Ht _] Hm Hf. unfold may_open, open_obj in *. destruct (names s !! (sp, name)) as [o|] eqn:Hn; [|congruence].
  destruct (Ht _ _ _ Hn) as (x & Hx & Hk). by exists o, x.
Qed.

Lemma at_ptr_new s o x p m : objs s !! o = Some x -> at_ptr (s, Table m (<[p := o]> ∅)) p = Some (o, x).
Proof. intros H. unfold at_ptr. cbn. rewrite lookup_insert_eq. cbn. by rewrite H. Qed.

Lemma at_fd_new s o x fd m : objs s !! o = Some x -> at_fd (s, Table (<[fd := o]> ∅) m) fd = Some (o, x).
Proof. intros H. unfold at_fd. cbn. rewrite lookup_insert_eq. cbn. by rewrite H. Qed.
