(* ===== verification/PosixTools.v ===== *)
(** * The programs of psem/, pmsg/ and pshm/ that work on one object

    Each program opens an object by its name and carries out one operation on it.
    getopt() is replaced by the options that it returns, [opts], and the arguments
    after them, [args]; an option that getopt() does not know is '?'. *)

From S2P Require Import Prelude Sys LibErrors GetNum FileIO PosixIpc.

Section Tools.
Context {T : ErrText}.

Definition printLines (s : stream) (lines : list (list ascii)) : prog unit :=
  fold_right (fun l p => print s (l ++ [NL]) ;;; p) (Ret tt) lines.

(** usageError() of the programs. *)
Definition usageLines {A} (lines : list (list ascii)) : prog A :=
  printLines Stderr lines ;;; Halt (Exit EXIT_FAILURE).

Definition arg (args : list (list ascii)) (i : nat) : list ascii := nth i args [].

(** An optional number, converted to an unsigned int. *)
Definition intArg (args : list (list ascii)) (i : nat) (flags : Z) (name : list ascii) (dflt : Z) : prog Z :=
  match args !! i with
  | None => Ret dflt
  | Some a => v <- getInt (Some a) flags (Some name) ;; Ret (wrapu 32 v)
  end.

(** The permissions in argument [i], rw------- by default. *)
Definition permsArg (args : list (list ascii)) (i : nat) : prog Z := intArg args i GN_BASE_8 ($"octal-perms") USER_RW.

(** The loop over the options of psem_create and pshm_create. *)
Fixpoint openFlags (usageError : prog Z) (opts : list (ascii * list ascii)) (flags : Z) : prog Z :=
  match opts with
  | [] => Ret flags
  | (opt, _) :: opts =>
      if Ascii.eqb opt "c" then openFlags usageError opts (Z.lor flags O_CREAT)
      else if Ascii.eqb opt "x" then openFlags usageError opts (Z.lor flags O_EXCL)
      else usageError
  end.

(** The loop over the options of pmsg_send and pmsg_receive. *)
Fixpoint nonblockFlags (usageError : prog Z) (opts : list (ascii * list ascii)) (flags : Z) : prog Z :=
  match opts with
  | [] => Ret flags
  | (opt, _) :: opts => if Ascii.eqb opt "n" then nonblockFlags usageError opts (Z.lor flags O_NONBLOCK) else usageError
  end.

(** ** psem/ *)

Definition psemCreateUsage {A} (progName : list ascii) : prog A :=
  usageLines [$"Usage: " ++ progName ++ $" [-cx] name [octal-perms [value]]";
              $"    -c   Create semaphore (O_CREAT)"; $"    -x   Create exclusively (O_EXCL)"].

Definition psem_create_main (argv0 : list ascii) (opts : list (ascii * list ascii)) (args : list (list ascii)) : prog unit :=
  flags <- openFlags (psemCreateUsage argv0) opts 0 ;;
  match args with
  | [] => psemCreateUsage argv0
  | name :: _ =>
      perms <- permsArg args 1 ;;
      value <- intArg args 2 0 ($"value") 0 ;;
      sem <- sys (Sem_open name flags (Some (perms, value))) ;;
      match sem with
      | Err e => errExit e ($"sem_open")
      | Ok _ => Halt (Exit EXIT_SUCCESS)
      end
  end.

Definition psem_create_simple_main (argv : list (list ascii)) : prog unit :=
  if (length argv <? 2)%nat || is_help argv then usageErr (argv_nth argv 0 ++ $" /sem-name [init-value]" ++ [NL])
  else
    let value := match argv !! 2%nat with Some a => atoi a | None => 0 end in
    sem <- sys (Sem_open (argv_nth argv 1) (Z.lor O_CREAT O_EXCL) (Some (USER_RW, wrapu 32 value))) ;;
    match sem with
    | Err e => errExit e ($"sem_open")
    | Ok _ => Halt (Exit EXIT_SUCCESS)
    end.

Definition psem_getvalue_main (argv : list (list ascii)) : prog unit :=
  if negb (length argv =? 2)%nat then usageErr (argv_nth argv 0 ++ $" sem-name" ++ [NL])
  else
    sem <- sys (Sem_open (argv_nth argv 1) 0 None) ;;
    match sem with
    | Err e => errExit e ($"sem_open")
    | Ok sem =>
        value <- sys (Sem_getvalue sem) ;;
        match value with
        | Err e => errExit e ($"sem_getvalue")
        | Ok value => print Stdout (dec value ++ [NL]) ;;; Halt (Exit EXIT_SUCCESS)
        end
    end.

Definition psem_post_main (argv : list (list ascii)) : prog unit :=
  if negb (length argv =? 2)%nat then usageErr (argv_nth argv 0 ++ $" sem-name" ++ [NL])
  else
    sem <- sys (Sem_open (argv_nth argv 1) 0 None) ;;
    match sem with
    | Err e => errExit e ($"sem_open")
    | Ok sem =>
        r <- sys (Sem_call SemPost sem) ;;
        match r with
        | Err e => errExit e ($"sem_post")
        | Ok _ => Halt (Exit EXIT_SUCCESS)
        end
    end.

Definition psem_wait_main (argv : list (list ascii)) : prog unit :=
  if (length argv <? 2)%nat || is_help argv then usageErr (argv_nth argv 0 ++ $" sem-name" ++ [NL])
  else
    sem <- sys (Sem_open (argv_nth argv 1) 0 None) ;;
    match sem with
    | Err e => errExit e ($"sem_open")
    | Ok sem =>
        r <- sys (Sem_call SemWait sem) ;;
        match r with
        | Err e => errExit e ($"sem_wait")
        | Ok _ =>
            pid <- sys Getpid ;;
            print Stdout (dec pid ++ $" sem_wait() succeeded" ++ [NL]) ;;; Halt (Exit EXIT_SUCCESS)
        end
    end.

Definition psem_trywait_main (argv : list (list ascii)) : prog unit :=
  if (length argv <? 2)%nat || is_help argv then usageErr (argv_nth argv 0 ++ $" sem-name" ++ [NL])
  else
    sem <- sys (Sem_open (argv_nth argv 1) 0 None) ;;
    match sem with
    | Err e => errExit e ($"sem_open")
    | Ok sem =>
        r <- sys (Sem_call SemTrywait sem) ;;
        match r with
        | Err e => errExit e ($"sem_trywait")
        | Ok _ => Halt (Exit EXIT_SUCCESS)
        end
    end.

Definition psem_timedwait_main (argv : list (list ascii)) : prog unit :=
  if negb (length argv =? 3)%nat || is_help argv then usageErr (argv_nth argv 0 ++ $" sem-name num-secs" ++ [NL])
  else
    sem <- sys (Sem_open (argv_nth argv 1) 0 None) ;;
    match sem with
    | Err e => errExit e ($"sem_open")
    | Ok sem =>
        ts <- sys Clock_realtime ;;
        match ts with
        | Err e => errExit e ($"clock_gettime-CLOCK_REALTIME")
        | Ok (sec, nsec) =>
            r <- sys (Sem_timedwait sem (sec + atoi (argv_nth argv 2)) nsec) ;;
            match r with
            | Err e => errExit e ($"sem_timedwait")
            | Ok _ =>
                pid <- sys Getpid ;;
                print Stdout (dec pid ++ $" sem_wait() succeeded" ++ [NL]) ;;; Halt (Exit EXIT_SUCCESS)
            end
        end
    end.

Definition psem_unlink_main (argv : list (list ascii)) : prog unit :=
  if negb (length argv =? 2)%nat || is_help argv then usageErr (argv_nth argv 0 ++ $" sem-name" ++ [NL])
  else
    r <- sys (Sem_unlink (argv_nth argv 1)) ;;
    match r with
    | Err e => errExit e ($"sem_unlink")
    | Ok _ => Halt (Exit EXIT_SUCCESS)
    end.

(** ** pmsg/ *)

Definition pmsgCreateUsage {A} (progName : list ascii) : prog A :=
  usageLines [$"Usage: " ++ progName ++ $" [-cx] [-m maxmsg] [-s msgsize] mq-name [octal-perms]";
              $"    -c          Create queue (O_CREAT)"; $"    -m maxmsg   Set maximum # of messages";
              $"    -s msgsize  Set maximum message size"; $"    -x          Create exclusively (O_EXCL)"].

(** flags, attr.mq_maxmsg, attr.mq_msgsize, and whether [attrp] points to attr. *)
Fixpoint pmsgOptions (argv0 : list ascii) (opts : list (ascii * list ascii)) (flags mq_maxmsg mq_msgsize : Z) (attrp : bool)
    : prog (Z * option (Z * Z)) :=
  match opts with
  | [] => Ret (flags, if attrp then Some (mq_maxmsg, mq_msgsize) else None)
  | (opt, optarg) :: opts =>
      if Ascii.eqb opt "c" then pmsgOptions argv0 opts (Z.lor flags O_CREAT) mq_maxmsg mq_msgsize attrp
      else if Ascii.eqb opt "m" then pmsgOptions argv0 opts flags (atoi optarg) mq_msgsize true
      else if Ascii.eqb opt "s" then pmsgOptions argv0 opts flags mq_maxmsg (atoi optarg) true
      else if Ascii.eqb opt "x" then pmsgOptions argv0 opts (Z.lor flags O_EXCL) mq_maxmsg mq_msgsize attrp
      else pmsgCreateUsage argv0
  end.

Definition pmsg_create_main (argv0 : list ascii) (opts : list (ascii * list ascii)) (args : list (list ascii)) : prog unit :=
  '(flags, attr) <- pmsgOptions argv0 opts O_RDWR 10 2048 false ;;
  match args with
  | [] => pmsgCreateUsage argv0
  | name :: _ =>
      perms <- permsArg args 1 ;;
      mqd <- sys (Mq_open name flags (Some (perms, attr))) ;;
      match mqd with
      | Err e => errExit e ($"mq_open")
      | Ok _ => Halt (Exit EXIT_SUCCESS)
      end
  end.

Definition pmsg_create_simple_main (argv : list (list ascii)) : prog unit :=
  if (length argv <? 2)%nat || is_help argv then usageErr (argv_nth argv 0 ++ $" /mq-name [max-msg [msg-size]]" ++ [NL])
  else
    let mq_maxmsg := match argv !! 2%nat with Some a => atoi a | None => 5 end in
    let mq_msgsize := match argv !! 3%nat with Some a => atoi a | None => 1024 end in
    mqd <- sys (Mq_open (argv_nth argv 1) (Z.lor O_CREAT O_EXCL) (Some (USER_RW, Some (mq_maxmsg, mq_msgsize)))) ;;
    match mqd with
    | Err e => errExit e ($"mq_open")
    | Ok mqd =>
        r <- sys (Mq_close mqd) ;;
        match r with
        | Err e => errExit e ($"mq_close")
        | Ok _ => Halt (Exit EXIT_SUCCESS)
        end
    end.

Definition pmsgSendUsage {A} (progName : list ascii) : prog A :=
  usageLines [$"Usage: " ++ progName ++ $" [-n] mq-name msg [prio]"; $"    -n           Use O_NONBLOCK flag"].

Definition pmsg_send_main (argv0 : list ascii) (opts : list (ascii * list ascii)) (args : list (list ascii)) : prog unit :=
  flags <- nonblockFlags (pmsgSendUsage argv0) opts O_WRONLY ;;
  match args with
  | name :: text :: _ =>
      mqd <- sys (Mq_open name flags None) ;;
      match mqd with
      | Err e => errExit e ($"mq_open")
      | Ok mqd =>
          let prio := match args !! 2%nat with Some a => wrapu 32 (atoi a) | None => 0 end in
          r <- sys (Mq_send mqd text prio) ;;
          match r with
          | Err e => errExit e ($"mq_send")
          | Ok _ => Halt (Exit EXIT_SUCCESS)
          end
      end
  | _ => pmsgSendUsage argv0
  end.

Definition pmsgReceiveUsage {A} (progName : list ascii) : prog A :=
  usageLines [$"Usage: " ++ progName ++ $" [-n] mq-name"; $"    -n           Use O_NONBLOCK flag"].

Definition pmsg_receive_main (argv0 : list ascii) (opts : list (ascii * list ascii)) (args : list (list ascii)) : prog unit :=
  flags <- nonblockFlags (pmsgReceiveUsage argv0) opts O_RDONLY ;;
  match args with
  | [] => pmsgReceiveUsage argv0
  | name :: _ =>
      mqd <- sys (Mq_open name flags None) ;;
      match mqd with
      | Err e => errExit e ($"mq_open")
      | Ok mqd =>
          attr <- sys (Mq_getattr mqd) ;;
          match attr with
          | Err e => errExit e ($"mq_getattr")
          | Ok (_, mq_msgsize, _) =>
              buffer <- sys (Alloc mq_msgsize) ;;
              if negb buffer then errExit ENOMEM ($"malloc")
              else
                m <- sys (Mq_receive mqd mq_msgsize) ;;
                match m with
                | Err e => errExit e ($"mq_receive")
                | Ok (text, prio) =>
                    print Stdout ($"Read " ++ dec (strlen text) ++ $" bytes; priority = " ++ dec prio ++ [NL]) ;;;
                    w <- sys (Write STDOUT_FILENO text) ;;
                    match w with
                    | Err e => errExit e ($"write")
                    | Ok _ => sys (Write STDOUT_FILENO [NL]) ;;; Halt (Exit EXIT_SUCCESS)
                    end
                end
          end
      end
  end.

Definition pmsg_getattr_main (argv : list (list ascii)) : prog unit :=
  if negb (length argv =? 2)%nat || is_help argv then usageErr (argv_nth argv 0 ++ $" mq-name" ++ [NL])
  else
    mqd <- sys (Mq_open (argv_nth argv 1) O_RDONLY None) ;;
    match mqd with
    | Err e => errExit e ($"mq_open")
    | Ok mqd =>
        attr <- sys (Mq_getattr mqd) ;;
        match attr with
        | Err e => errExit e ($"mq_getattr")
        | Ok (mq_maxmsg, mq_msgsize, mq_curmsgs) =>
            print Stdout ($"Maximum # of messages on queue:   " ++ dec mq_maxmsg ++ [NL]) ;;;
            print Stdout ($"Maximum message size:             " ++ dec mq_msgsize ++ [NL]) ;;;
            print Stdout ($"# of messages currently on queue: " ++ dec mq_curmsgs ++ [NL]) ;;;
            Halt (Exit EXIT_SUCCESS)
        end
    end.

Definition pmsg_unlink_main (argv : list (list ascii)) : prog unit :=
  if negb (length argv =? 2)%nat || is_help argv then usageErr (argv_nth argv 0 ++ $" mq-name" ++ [NL])
  else
    r <- sys (Mq_unlink (argv_nth argv 1)) ;;
    match r with
    | Err e => errExit e ($"mq_unlink")
    | Ok _ => Halt (Exit EXIT_SUCCESS)
    end.

(** ** pshm/ *)

Definition pshmCreateUsage {A} (progName : list ascii) : prog A :=
  usageLines [$"Usage: " ++ progName ++ $" [-cx] shm-name size [octal-perms]";
              $"    -c   Create shared memory (O_CREAT)"; $"    -x   Create exclusively (O_EXCL)"].

(** A size_t passed as an off_t. *)
Definition off_t_of (size : Z) : Z := if size <? 2 ^ 63 then size else size - 2 ^ 64.

Definition sizeAndMap (fd size : Z) : prog unit :=
  r <- sys (Ftruncate fd (off_t_of size)) ;;
  match r with
  | Err e => errExit e ($"ftruncate")
  | Ok _ =>
      addr <- sys (Mmap size (Z.lor PROT_READ PROT_WRITE) fd) ;;
      match addr with
      | Err e => errExit e ($"mmap")
      | Ok _ => Halt (Exit EXIT_SUCCESS)
      end
  end.

Definition pshm_create_main (argv0 : list ascii) (opts : list (ascii * list ascii)) (args : list (list ascii)) : prog unit :=
  flags <- openFlags (pshmCreateUsage argv0) opts O_RDWR ;;
  match args with
  | name :: sizeArg :: _ =>
      size <- getLong (Some sizeArg) GN_ANY_BASE (Some ($"size")) ;;
      perms <- match args !! 2%nat with
               | None => Ret USER_RW
               | Some a => v <- getLong (Some a) GN_BASE_8 (Some ($"octal-perms")) ;; Ret (wrapu 32 v)
               end ;;
      fd <- sys (Shm_open name flags perms) ;;
      match fd with
      | Err e => errExit e ($"shm_open")
      | Ok fd => sizeAndMap fd (wrapu 64 size)
      end
  | _ => pshmCreateUsage argv0
  end.

Definition pshm_create_simple_main (argv : list (list ascii)) : prog unit :=
  if (length argv <? 3)%nat || is_help argv then usageErr (argv_nth argv 0 ++ $" /shm-object-name size" ++ [NL])
  else
    let size := wrapu 64 (atoi (argv_nth argv 2)) in
    fd <- sys (Shm_open (argv_nth argv 1) (Z.lor (Z.lor O_CREAT O_EXCL) O_RDWR) USER_RW) ;;
    match fd with
    | Err e => errExit e ($"shm_open")
    | Ok fd => sizeAndMap fd size
    end.

Definition pshm_write_main (argv : list (list ascii)) : prog unit :=
  if negb (length argv =? 3)%nat || is_help argv then usageErr (argv_nth argv 0 ++ $" shm-name string" ++ [NL])
  else
    fd <- sys (Shm_open (argv_nth argv 1) O_RDWR 0) ;;
    match fd with
    | Err e => errExit e ($"shm_open")
    | Ok fd =>
        let len := strlen (argv_nth argv 2) in
        r <- sys (Ftruncate fd len) ;;
        match r with
        | Err e => errExit e ($"ftruncate")
        | Ok _ =>
            print Stdout ($"Resized to " ++ dec len ++ $" bytes" ++ [NL]) ;;;
            addr <- sys (Mmap len (Z.lor PROT_READ PROT_WRITE) fd) ;;
            match addr with
            | Err e => errExit e ($"mmap")
            | Ok addr =>
                c <- sys (Close fd) ;;
                match c with
                | Err e => errExit e ($"close")
                | Ok _ =>
                    print Stdout ($"copying " ++ dec len ++ $" bytes" ++ [NL]) ;;;
                    sys (Store addr 0 (argv_nth argv 2)) ;;;
                    Halt (Exit EXIT_SUCCESS)
                end
            end
        end
    end.

(** The bytes of the mapping are loaded by write(). *)
Definition pshm_read_main (argv : list (list ascii)) : prog unit :=
  if negb (length argv =? 2)%nat || is_help argv then usageErr (argv_nth argv 0 ++ $" shm-name" ++ [NL])
  else
    fd <- sys (Shm_open (argv_nth argv 1) O_RDONLY 0) ;;
    match fd with
    | Err e => errExit e ($"shm_open")
    | Ok fd =>
        sb <- sys (Fstat_size fd) ;;
        match sb with
        | Err e => errExit e ($"fstat")
        | Ok st_size =>
            addr <- sys (Mmap st_size PROT_READ fd) ;;
            match addr with
            | Err e => errExit e ($"mmap")
            | Ok addr =>
                c <- sys (Close fd) ;;
                match c with
                | Err e => errExit e ($"close")
                | Ok _ =>
                    data <- sys (Load addr 0 st_size) ;;
                    sys (Write STDOUT_FILENO data) ;;;
                    print Stdout [NL] ;;;
                    Halt (Exit EXIT_SUCCESS)
                end
            end
        end
    end.

Definition pshm_unlink_main (argv : list (list ascii)) : prog unit :=
  if negb (length argv =? 2)%nat || is_help argv then usageErr (argv_nth argv 0 ++ $" shm-name" ++ [NL])
  else
    r <- sys (Shm_unlink (argv_nth argv 1)) ;;
    match r with
    | Err e => errExit e ($"shm_unlink")
    | Ok _ => Halt (Exit EXIT_SUCCESS)
    end.
End Tools.

(** ** What the programs do to the objects *)

Section Facts.
Context {T : ErrText} (s : posix_ipc) (Hs : ipc_ok s).

(** What a program hands to printf() or write() for its standard output. *)
Fixpoint asked (h : history) : list ascii :=
  match h with
  | [] => []
  | Ev c _ :: h =>
      asked h ++ match c with Out Stdout t => t | Write fd t => if fd =? STDOUT_FILENO then t else [] | _ => [] end
  end.

(** A program that succeeds leaves the objects and its output as [ok] says; one
    that fails leaves the objects as [partial] says. *)
Definition tool_post (ok : posix_ipc -> list ascii -> Prop) (partial : posix_ipc -> Prop) (o : outcome unit) (h : history) : Prop :=
  o = Stop (Exit EXIT_SUCCESS) /\ ok (fst (after s h)) (asked h) \/ stops_failing o /\ partial (fst (after s h)).

Lemma fails_any ok (partial : posix_ipc -> Prop) h :
  partial (fst (after s h)) -> forall o k, stops_failing o -> Forall reporting k -> tool_post ok partial o (k ++ h).
Proof. intros Hp o k Ho Hk. right. split; [done|]. by rewrite unaffecting_app by (by apply reporting_unaffecting). Qed.

(** The same for a failure in the first part of a sequence. *)
Ltac fails_bind :=
  let o := fresh "o" in let k := fresh "k" in let Ho := fresh "Ho" in let Hk := fresh "Hk" in
  intros o k Ho Hk; destruct Ho as [->|[->| ->]]; apply fails_any; [|unfold stops_failing; by auto|exact Hk| |unfold stops_failing; by auto|exact Hk
    | |unfold stops_failing; by auto|exact Hk].

Lemma wp_usageLines {A} E lines (Q : outcome A -> history -> Prop) h :
  (forall o k, stops_failing o -> Forall reporting k -> Q o (k ++ h)) -> wp E (usageLines lines) Q h.
Proof.
  intros HQ. unfold usageLines. apply wp_bind. revert h HQ. induction lines as [|l lines IH]; intros h HQ.
  - apply (HQ _ []); [unfold stops_failing; auto|done].
  - intros [] _. apply IH. intros o k Ho Hk. apply (HQ o (k ++ [Ev (Out Stderr (l ++ [NL])) tt])) in Ho; [by rewrite <- app_assoc in Ho|].
    apply Forall_app. split; [done|by repeat constructor].
Qed.

Lemma wp_getInt_trace E a flags name (Q : outcome Z -> history -> Prop) h :
  (forall o k, stops_failing o -> Forall reporting k -> Q o (k ++ h)) ->
  (forall v, accepted a flags v -> is_int v -> Q (Done v) h) -> wp E (getInt (Some a) flags name) Q h.
Proof.
  intros Hf Hd. unfold getInt. destruct (getNum_cases ($"getInt") (Some a) flags name) as [(b & v & [= <-] & Ha & ->)|[[msg ->] _]].
  - cbn [bind]. destruct ((v >? INT_MAX) || (v <? INT_MIN)) eqn:Hv; [by apply wp_gnFail_trace|].
    apply Hd; [done|]. unfold is_int. apply orb_false_iff in Hv as [H1 H2]. lia.
  - apply wp_bind, wp_gnFail_trace. intros o k Ho Hk. specialize (Hf (match o with Done _ => Stop Aborted | Stop x => Stop x end) k).
    destruct Ho as [->|[->| ->]]; apply Hf; unfold stops_failing; auto.
Qed.

(** What argument [i] gives: [dflt] if it is missing. *)
Definition int_arg (args : list (list ascii)) (i : nat) (flags dflt v : Z) : Prop :=
  match args !! i with None => v = dflt | Some a => exists w, accepted a flags w /\ is_int w /\ v = wrapu 32 w end.

Lemma wp_intArg E args i flags name dflt (Q : outcome Z -> history -> Prop) h :
  (forall o k, stops_failing o -> Forall reporting k -> Q o (k ++ h)) ->
  (forall v, int_arg args i flags dflt v -> Q (Done v) h) -> wp E (intArg args i flags name dflt) Q h.
Proof.
  intros Hf Hd. unfold intArg. unfold int_arg in Hd. destruct (args !! i) as [a|]; [|by apply Hd].
  apply wp_bind, wp_getInt_trace; [|intros v Ha Hv; apply Hd; by eauto]. intros o k Ho Hk.
  destruct Ho as [->|[->| ->]]; apply Hf; unfold stops_failing; auto.
Qed.

(** The value of the options -c and -x. *)
Definition has_opt (opts : list (ascii * list ascii)) (c : ascii) : bool := existsb (fun o => Ascii.eqb (fst o) c) opts.
Definition opt_flag (opts : list (ascii * list ascii)) (c : ascii) (bit : Z) : Z := if has_opt opts c then bit else 0.

Lemma lor_opt opts c bit opt arg f :
  Z.lor (Z.lor f (if Ascii.eqb opt c then bit else 0)) (opt_flag opts c bit) = Z.lor f (opt_flag ((opt, arg) :: opts) c bit).
Proof.
  unfold opt_flag, has_opt. cbn [existsb fst]. rewrite <- Z.lor_assoc. f_equal.
  destruct (Ascii.eqb opt c), (existsb _ opts); cbn; rewrite ?Z.lor_0_r, ?Z.lor_diag; done.
Qed.

Lemma wp_openFlags E usageError opts flags (Q : outcome Z -> history -> Prop) h :
  wp E usageError Q h ->
  (Forall (fun o => fst o = "c"%char \/ fst o = "x"%char) opts ->
   Q (Done (Z.lor (Z.lor flags (opt_flag opts "c" O_CREAT)) (opt_flag opts "x" O_EXCL))) h) ->
  wp E (openFlags usageError opts flags) Q h.
Proof.
  intros Hu. revert flags. induction opts as [|[opt a] opts IH]; intros flags Hd; cbn [openFlags].
  - rewrite !Z.lor_0_r in Hd. by apply Hd.
  - rewrite <- !lor_opt in Hd. destruct (Ascii.eqb_spec opt "c") as [->|Hc]; [|destruct (Ascii.eqb_spec opt "x") as [->|Hx]; [|done]]; cbn in Hd; rewrite ?Z.lor_0_r in Hd.
    + apply IH. intros H. apply Hd. constructor; auto.
    + apply IH. intros H. replace (Z.lor (Z.lor flags O_EXCL) (opt_flag opts "c" O_CREAT)) with (Z.lor (Z.lor flags (opt_flag opts "c" O_CREAT)) O_EXCL).
      * apply Hd. constructor; auto.
      * rewrite <- !Z.lor_assoc. f_equal. apply Z.lor_comm.
Qed.

Lemma wp_nonblockFlags E usageError opts flags (Q : outcome Z -> history -> Prop) h :
  wp E usageError Q h -> Q (Done (Z.lor flags (opt_flag opts "n" O_NONBLOCK))) h -> wp E (nonblockFlags usageError opts flags) Q h.
Proof.
  intros Hu. revert flags. induction opts as [|[opt a] opts IH]; intros flags Hd; cbn [nonblockFlags].
  - by rewrite Z.lor_0_r in Hd.
  - rewrite <- lor_opt in Hd. destruct (Ascii.eqb opt "n"); [by apply IH|done].
Qed.

(** ** Operations on the objects *)

Definition created (sp : space) (name : list ascii) (flags : Z) (new : object) (s' : posix_ipc) : Prop :=
  may_open sp name flags s = true /\ s' = snd (open_obj sp name new s).

Definition sem_posted (name : list ascii) (s' : posix_ipc) : Prop :=
  exists o v, refers s NSem name o (OSem v) /\ v < SEM_VALUE_MAX /\ s' = set_obj o (OSem (v + 1)) s.

Definition sem_taken (name : list ascii) (s' : posix_ipc) : Prop :=
  exists o v, refers s NSem name o (OSem v) /\ 0 < v /\ s' = set_obj o (OSem (v - 1)) s.

Definition removed (sp : space) (name : list ascii) (s' : posix_ipc) : Prop :=
  names s !! (sp, name) <> None /\ s' = unlinked sp name s.

Definition same (s' : posix_ipc) : Prop := s' = s.

(** ** psem/ *)

Lemma wp_named_sem name (f : Z -> prog unit) ok (partial : posix_ipc -> Prop) :
  partial s ->
  (forall p o v h, refers s NSem name o (OSem v) -> after s h = (s, Table ∅ (<[p := o]> ∅)) -> asked h = [] ->
    wp (ipc_env s) (f p) (tool_post ok partial) h) ->
  wp (ipc_env s) (sem <- sys (Sem_open name 0 None) ;; match sem with Err e => errExit e ($"sem_open") | Ok sem => f sem end) (tool_post ok partial) [].
Proof.
  intros Hp Hf. apply wp_sys_bind. intros [p|e] [_ Hl]; [|by apply wp_errExit_trace, fails_any].
  destruct Hl as (Hm & _). destruct (open_existing _ _ _ (new_sem None) _ Hs Hm eq_refl) as (o & x & Hr & Hk & Ho).
  destruct x as [v| |]; try done. apply (Hf p o v _ Hr); [|done]. cbn. unfold fst in Ho |- *. by rewrite Ho.
Qed.

(** The first argument of the programs that act on a semaphore. *)
Lemma wp_sem_call f name msg (k : prog unit) (ok : posix_ipc -> list ascii -> Prop) :
  (forall p o v h', refers s NSem name o (OSem v) -> (f = SemPost -> v < SEM_VALUE_MAX) -> (f <> SemPost -> 0 < v) ->
    after s h' = (set_obj o (OSem (v + sem_delta f)) s, Table ∅ (<[p := o]> ∅)) -> asked h' = [] ->
    wp (ipc_env s) k (tool_post ok same) h') ->
  wp (ipc_env s) (sem <- sys (Sem_open name 0 None) ;;
    match sem with
    | Err e => errExit e ($"sem_open")
    | Ok sem => r <- sys (Sem_call f sem) ;; match r with Err e => errExit e msg | Ok _ => k end
    end) (tool_post ok same) [].
Proof.
  intros Hk. apply (wp_named_sem name (fun sem => r <- sys (Sem_call f sem) ;; match r with Err e => errExit e msg | Ok _ => k end)); [done|].
  intros p o v h Hr Ha Hh. apply wp_sys_bind. intros [u|e] [_ Hl].
  - rewrite Ha in Hl. apply (Hk p o v); try done; [..|cbn [asked]; by rewrite Hh].
    + intros ->. by destruct (Hl o (OSem v)) as (v' & [= <-] & Hmax); [apply at_ptr_new, Hr|].
    + intros Hf. destruct f; try done; (destruct (Hl o (OSem v)) as (v' & [= <-] & Hmax); [apply at_ptr_new, Hr|done]).
    + cbn [after]. rewrite Ha. cbn [effect on_ok]. by rewrite (at_ptr_new s o (OSem v)) by apply Hr.
  - apply wp_errExit_trace, fails_any. cbn [after]. by rewrite Ha.
Qed.

Lemma psem_post_posts argv : wp (ipc_env s) (psem_post_main argv) (tool_post (fun s' out => sem_posted (argv_nth argv 1) s' /\ out = []) same) [].
Proof.
  unfold psem_post_main. destruct (negb _); [by apply wp_usageErr_trace, fails_any|].
  apply wp_sem_call. intros p o v h Hr Hmax _ Ha Hasked. left. split; [done|]. split; [|done]. exists o, v. rewrite Ha. auto.
Qed.

Lemma psem_trywait_takes argv : wp (ipc_env s) (psem_trywait_main argv) (tool_post (fun s' out => sem_taken (argv_nth argv 1) s' /\ out = []) same) [].
Proof.
  unfold psem_trywait_main. destruct (_ || _); [by apply wp_usageErr_trace, fails_any|].
  apply wp_sem_call. intros p o v h Hr _ Hpos Ha Hasked. left. split; [done|]. split; [|done]. exists o, v. rewrite Ha. auto.
Qed.

(** The line that the waiting programs display. *)
Definition waited (out : list ascii) : Prop := exists pid, out = dec pid ++ $" sem_wait() succeeded" ++ [NL].

Lemma wp_succeeded ok h s' :
  fst (after s h) = s' -> asked h = [] -> (forall out, waited out -> ok s' out) ->
  wp (ipc_env s) (pid <- sys Getpid ;; print Stdout (dec pid ++ $" sem_wait() succeeded" ++ [NL]) ;;; Halt (Exit EXIT_SUCCESS)) (tool_post ok same) h.
Proof.
  intros Ha Hasked Hok pid _ [] _. left. split; [done|]. cbn [after effect asked]. rewrite Hasked, Ha. apply Hok. by exists pid.
Qed.

Lemma psem_wait_takes argv : wp (ipc_env s) (psem_wait_main argv) (tool_post (fun s' out => sem_taken (argv_nth argv 1) s' /\ waited out) same) [].
Proof.
  unfold psem_wait_main. destruct (_ || _); [by apply wp_usageErr_trace, fails_any|].
  apply wp_sem_call. intros p o v h Hr _ Hpos Ha Hasked. eapply wp_succeeded; [by rewrite Ha|done|]. intros out Hout.
  split; [|done]. exists o, v. auto.
Qed.

Lemma psem_timedwait_takes argv : wp (ipc_env s) (psem_timedwait_main argv) (tool_post (fun s' out => sem_taken (argv_nth argv 1) s' /\ waited out) same) [].
Proof.
  unfold psem_timedwait_main. destruct (_ || _); [by apply wp_usageErr_trace, fails_any|].
  apply wp_named_sem; [done|]. intros p o v h Hr Ha Hh. apply wp_sys_bind. intros [[sec nsec]|e] _; [|apply wp_errExit_trace, fails_any; cbn [after effect]; by rewrite Ha].
  apply wp_sys_bind. intros [u|e] [_ Hl].
  - cbn [after effect] in Hl. rewrite Ha in Hl. destruct (Hl o (OSem v)) as (v' & [= <-] & Hpos); [apply at_ptr_new, Hr|].
    eapply wp_succeeded; [done|cbn [asked]; by rewrite Hh|]. intros out Hout. split; [|done]. exists o, v. split_and!; [done..|].
    cbn [after effect]. rewrite Ha. cbn [on_ok]. by rewrite (at_ptr_new s o (OSem v)) by apply Hr.
  - apply wp_errExit_trace, fails_any. cbn [after effect]. by rewrite Ha.
Qed.

Lemma psem_getvalue_shows argv :
  wp (ipc_env s) (psem_getvalue_main argv) (tool_post (fun s' out => s' = s /\
    exists o v, refers s NSem (argv_nth argv 1) o (OSem v) /\ out = dec v ++ [NL]) same) [].
Proof.
  unfold psem_getvalue_main. destruct (negb _); [by apply wp_usageErr_trace, fails_any|].
  apply wp_named_sem; [done|]. intros p o v h Hr Ha Hh. apply wp_sys_bind. intros [u|e] [_ Hl].
  - rewrite Ha in Hl. specialize (Hl o (OSem v) (at_ptr_new _ _ _ _ _ (proj2 Hr))). injection Hl as <-. intros [] _. left. split; [done|].
    cbn [after effect asked]. rewrite Ha, Hh. split; [done|]. by exists o, v.
  - apply wp_errExit_trace, fails_any. cbn [after effect]. by rewrite Ha.
Qed.

Lemma psem_unlink_removes argv : wp (ipc_env s) (psem_unlink_main argv) (tool_post (fun s' out => removed NSem (argv_nth argv 1) s' /\ out = []) same) [].
Proof.
  unfold psem_unlink_main. destruct (_ || _); [by apply wp_usageErr_trace, fails_any|].
  apply wp_sys_bind. intros [u|e] [_ Hl]; [|by apply wp_errExit_trace, fails_any]. left. by repeat split.
Qed.

Lemma sem_created name flags mode v (p : Z) h :
  after s h = (s, no_table) -> legal (after s h) (Sem_open name flags (Some (mode, v))) (Ok p) ->
  created NSem name flags (OSem v) (fst (after s (Ev (Sem_open name flags (Some (mode, v))) (Ok p) :: h))).
Proof.
  intros Ha Hl. cbn [after effect]. rewrite Ha in *. destruct Hl as (Hm & _). split; [done|]. change (new_sem (Some (mode, v))) with (OSem v). change (fst (s, no_table)) with s. by destruct (open_obj NSem name (OSem v) s).
Qed.

Lemma psem_create_simple_creates argv :
  wp (ipc_env s) (psem_create_simple_main argv) (tool_post (fun s' out => out = [] /\
    created NSem (argv_nth argv 1) (Z.lor O_CREAT O_EXCL) (OSem (wrapu 32 (match argv !! 2%nat with Some a => atoi a | None => 0 end))) s') same) [].
Proof.
  unfold psem_create_simple_main. destruct (_ || _); [by apply wp_usageErr_trace, fails_any|].
  apply wp_sys_bind. intros [p|e] [_ Hl]; [|by apply wp_errExit_trace, fails_any]. left. split; [done|]. split; [done|].
  by eapply sem_created.
Qed.

(** The flags that the options -c and -x ask for. *)
Definition flags_of (base : Z) (opts : list (ascii * list ascii)) : Z :=
  Z.lor (Z.lor base (opt_flag opts "c" O_CREAT)) (opt_flag opts "x" O_EXCL).

Lemma psem_create_creates argv0 opts args :
  wp (ipc_env s) (psem_create_main argv0 opts args) (tool_post (fun s' out => out = [] /\ exists name v,
    args !! 0%nat = Some name /\ int_arg args 2 0 0 v /\ created NSem name (flags_of 0 opts) (OSem v) s') same) [].
Proof.
  unfold psem_create_main. apply wp_bind, wp_openFlags; [apply wp_usageLines; by fails_bind|]. intros _.
  destruct args as [|name args]; [by apply wp_usageLines, fails_any|].
  apply wp_bind, wp_intArg; [by fails_bind|]. intros perms _. apply wp_bind, wp_intArg; [by fails_bind|]. intros v Hv.
  apply wp_sys_bind. intros [p|e] [_ Hl]; [|by apply wp_errExit_trace, fails_any]. left. split; [done|]. split; [done|].
  exists name, v. split_and!; [done..|]. by eapply sem_created.
Qed.

(** ** pmsg/ *)

(** The attributes that the options -m and -s ask for. *)
Fixpoint attr_of (opts : list (ascii * list ascii)) (maxmsg msgsize : Z) (given : bool) : option (Z * Z) :=
  match opts with
  | [] => if given then Some (maxmsg, msgsize) else None
  | (opt, a) :: opts =>
      if Ascii.eqb opt "m" then attr_of opts (atoi a) msgsize true
      else if Ascii.eqb opt "s" then attr_of opts maxmsg (atoi a) true
      else attr_of opts maxmsg msgsize given
  end.

Lemma wp_pmsgOptions E argv0 opts flags maxmsg msgsize given (Q : outcome (Z * option (Z * Z)) -> history -> Prop) h :
  (forall o k, stops_failing o -> Forall reporting k -> Q o (k ++ h)) ->
  Q (Done (flags_of flags opts, attr_of opts maxmsg msgsize given)) h -> wp E (pmsgOptions argv0 opts flags maxmsg msgsize given) Q h.
Proof.
  intros Hf. revert flags maxmsg msgsize given. unfold flags_of.
  induction opts as [|[opt a] opts IH]; intros flags maxmsg msgsize given Hd; cbn [pmsgOptions attr_of] in *.
  - by rewrite !Z.lor_0_r in Hd.
  - rewrite <- !lor_opt in Hd. destruct (Ascii.eqb_spec opt "c") as [->|Hc]; cbn in Hd; rewrite ?Z.lor_0_r in Hd; [by apply IH|].
    destruct (Ascii.eqb_spec opt "m") as [->|Hm]; cbn in Hd; rewrite ?Z.lor_0_r in Hd; [by apply IH|].
    destruct (Ascii.eqb_spec opt "s") as [->|Hsz]; cbn in Hd; rewrite ?Z.lor_0_r in Hd; [by apply IH|].
    destruct (Ascii.eqb_spec opt "x") as [->|Hx]; [|by apply wp_usageLines]. apply IH.
    replace (Z.lor (Z.lor flags O_EXCL) (opt_flag opts "c" O_CREAT)) with (Z.lor (Z.lor flags (opt_flag opts "c" O_CREAT)) O_EXCL); [done|].
    rewrite <- !Z.lor_assoc. f_equal. apply Z.lor_comm.
Qed.

Lemma obj_created sp name flags new fd h :
  after s h = (s, no_table) -> may_open sp name flags s = true ->
  created sp name flags new (fst (opens_fd sp name new (Ok fd) (after s h))).
Proof.
  intros -> Hm. split; [done|]. cbn [opens_fd]. change (fst (s, no_table)) with s. by destruct (open_obj sp name new s).
Qed.

Lemma pmsg_create_creates argv0 opts args :
  wp (ipc_env s) (pmsg_create_main argv0 opts args) (tool_post (fun s' out => out = [] /\ exists name perms,
    args !! 0%nat = Some name /\ int_arg args 1 GN_BASE_8 USER_RW perms /\
    created NMq name (flags_of O_RDWR opts) (new_queue (Some (perms, attr_of opts 10 2048 false))) s') same) [].
Proof.
  unfold pmsg_create_main. apply wp_bind, wp_pmsgOptions; [by fails_bind|].
  destruct args as [|name args]; [by apply wp_usageLines, fails_any|].
  apply wp_bind, wp_intArg; [by fails_bind|]. intros perms Hp.
  apply wp_sys_bind. intros [p|e] [_ Hl]; [destruct Hl as [Hl _]|by apply wp_errExit_trace, fails_any]. left. split; [done|]. split; [done|].
  exists name, perms. split_and!; [done..|]. by apply (obj_created NMq _ _ _ p []).
Qed.

Lemma pmsg_create_simple_creates argv :
  let new := new_queue (Some (USER_RW, Some (match argv !! 2%nat with Some a => atoi a | None => 5 end,
                                             match argv !! 3%nat with Some a => atoi a | None => 1024 end))) in
  let made := created NMq (argv_nth argv 1) (Z.lor O_CREAT O_EXCL) new in
  wp (ipc_env s) (pmsg_create_simple_main argv) (tool_post (fun s' out => out = [] /\ made s') (fun s' => s' = s \/ made s')) [].
Proof.
  intros new made. unfold pmsg_create_simple_main. destruct (_ || _); [apply wp_usageErr_trace, fails_any; by left|].
  apply wp_sys_bind. intros [p|e] [_ Hl]; [destruct Hl as [Hl _]|apply wp_errExit_trace, fails_any; by left].
  assert (made (fst (after s [Ev (Mq_open (argv_nth argv 1) (Z.lor O_CREAT O_EXCL) (Some (USER_RW, Some (match argv !! 2%nat with Some a => atoi a | None => 5 end,
    match argv !! 3%nat with Some a => atoi a | None => 1024 end)))) (Ok p)]))) as Hmade by (by apply (obj_created NMq _ _ new p [])).
  apply wp_sys_bind. intros [u|e] _; [left; split; [done|]; split; [done|exact Hmade]|]. apply wp_errExit_trace, fails_any. right. exact Hmade.
Qed.

Definition mq_sent (name text : list ascii) (prio : Z) (s' : posix_ipc) : Prop :=
  exists o q, refers s NMq name o (OMq q) /\ Z.of_nat (length (q_msgs q)) < q_maxmsg q /\ strlen text <= q_msgsize q /\
    s' = set_obj o (OMq (Mqueue (q_maxmsg q) (q_msgsize q) (enqueue (text, prio) (q_msgs q)))) s.

(** The message at the head of the queue is removed. *)
Definition mq_received (name text : list ascii) (prio : Z) (s' : posix_ipc) : Prop :=
  exists o q rest, refers s NMq name o (OMq q) /\ q_msgs q = (text, prio) :: rest /\
    s' = set_obj o (OMq (Mqueue (q_maxmsg q) (q_msgsize q) rest)) s.

Lemma wp_named_mq name flags (f : Z -> prog unit) ok (partial : posix_ipc -> Prop) :
  partial s -> flag flags O_CREAT = false ->
  (forall d o q h, refers s NMq name o (OMq q) -> after s h = (s, Table (<[d := o]> ∅) ∅) -> asked h = [] ->
    wp (ipc_env s) (f d) (tool_post ok partial) h) ->
  wp (ipc_env s) (mqd <- sys (Mq_open name flags None) ;; match mqd with Err e => errExit e ($"mq_open") | Ok mqd => f mqd end) (tool_post ok partial) [].
Proof.
  intros Hp Hfl Hf. apply wp_sys_bind. intros [d|e] [_ Hl]; [|by apply wp_errExit_trace, fails_any].
  destruct Hl as (Hm & _). destruct (open_existing _ _ _ (new_queue None) _ Hs Hm Hfl) as (o & x & Hr & Hk & Ho).
  destruct x as [|q|]; try done. apply (Hf d o q _ Hr); [|done]. cbn [after effect opens_fd]. change (fst (s, no_table)) with s. by rewrite Ho.
Qed.

Lemma nonblock_flags base opts : flag (Z.lor base (opt_flag opts "n" O_NONBLOCK)) O_CREAT = flag base O_CREAT.
Proof.
  unfold flag, opt_flag, O_CREAT, O_NONBLOCK. f_equal. destruct (has_opt opts "n"); [|by rewrite Z.lor_0_r].
  by rewrite Z.land_lor_distr_l, Z.lor_0_r.
Qed.

Lemma pmsg_send_sends argv0 opts args :
  wp (ipc_env s) (pmsg_send_main argv0 opts args) (tool_post (fun s' out => out = [] /\ exists name text,
    args !! 0%nat = Some name /\ args !! 1%nat = Some text /\
    mq_sent name text (match args !! 2%nat with Some a => wrapu 32 (atoi a) | None => 0 end) s') same) [].
Proof.
  unfold pmsg_send_main. apply wp_bind, wp_nonblockFlags; [apply wp_usageLines; by fails_bind|].
  destruct args as [|name [|text args]]; try (by apply wp_usageLines, fails_any).
  apply wp_named_mq; [done|by rewrite nonblock_flags|]. intros d o q h Hr Ha Hh. apply wp_sys_bind. intros [u|e] [_ Hl].
  - rewrite Ha in Hl. destruct (Hl o (OMq q)) as (q' & [= <-] & Hlen & Hsz & _); [apply at_fd_new, Hr|]. left. split; [done|].
    split; [cbn [asked]; by rewrite Hh|]. exists name, text. split_and!; [done..|]. exists o, q. split_and!; [done..|].
    cbn [after effect]. rewrite Ha. cbn [on_ok]. by rewrite (at_fd_new s o (OMq q)) by apply Hr.
  - apply wp_errExit_trace, fails_any. cbn [after effect]. by rewrite Ha.
Qed.

Lemma pmsg_receive_receives argv0 opts args :
  let gone name := fun s' => exists text prio, mq_received name text prio s' in
  wp (ipc_env s) (pmsg_receive_main argv0 opts args) (tool_post (fun s' out => exists name text prio,
    args !! 0%nat = Some name /\ mq_received name text prio s' /\
    out = $"Read " ++ dec (strlen text) ++ $" bytes; priority = " ++ dec prio ++ [NL] ++ text ++ [NL])
    (fun s' => s' = s \/ exists name, args !! 0%nat = Some name /\ gone name s')) [].
Proof.
  intros gone. unfold pmsg_receive_main. apply wp_bind, wp_nonblockFlags; [apply wp_usageLines; fails_bind; by left|].
  destruct args as [|name args]; [apply wp_usageLines, fails_any; by left|].
  apply wp_named_mq; [by left|by rewrite nonblock_flags|]. intros d o q h Hr Ha Hh.
  apply wp_sys_bind. intros [[[maxmsg msgsize] cur]|e] [_ Hl]; [|apply wp_errExit_trace, fails_any; left; cbn [after effect]; by rewrite Ha].
  apply wp_sys_bind. intros [|] _; cbn [negb]; [|apply wp_errExit_trace, fails_any; left; cbn [after effect]; by rewrite Ha].
  apply wp_sys_bind. intros [[text prio]|e] [_ Hm]; [|apply wp_errExit_trace, fails_any; left; cbn [after effect]; by rewrite Ha].
  cbn [after effect] in Hm. rewrite Ha in Hm. destruct (Hm o (OMq q)) as (q' & [= <-] & _ & Hhd); [apply at_fd_new, Hr|].
  set (h1 := Ev (Mq_receive d msgsize) (Ok (text, prio)) :: _).
  assert (mq_received name text prio (fst (after s h1))) as Hrec.
  { exists o, q, (drop 1 (q_msgs q)). split; [done|]. split; [by destruct (q_msgs q); [|injection Hhd as ->]|]. subst h1. cbn [after effect]. rewrite Ha. cbn [on_ok].
    by rewrite (at_fd_new s o (OMq q)) by apply Hr. }
  assert (asked h1 = []) as Hh1 by (subst h1; cbn [asked]; by rewrite Hh).
  intros [] _. apply wp_sys_bind. intros [n|e] _; [|apply wp_errExit_trace, fails_any; right; exists name; split; [done|]; by exists text, prio].
  intros r _. left. split; [done|]. exists name, text, prio. split_and!; [done..|]. cbn [asked]. rewrite Hh1. cbn [Z.eqb STDOUT_FILENO]. by rewrite <- !app_assoc.
Qed.

Lemma pmsg_getattr_shows argv :
  wp (ipc_env s) (pmsg_getattr_main argv) (tool_post (fun s' out => s' = s /\ exists o q, refers s NMq (argv_nth argv 1) o (OMq q) /\
    out = $"Maximum # of messages on queue:   " ++ dec (q_maxmsg q) ++ [NL] ++ $"Maximum message size:             " ++ dec (q_msgsize q) ++ [NL] ++
          $"# of messages currently on queue: " ++ dec (Z.of_nat (length (q_msgs q))) ++ [NL]) same) [].
Proof.
  unfold pmsg_getattr_main. destruct (_ || _); [by apply wp_usageErr_trace, fails_any|].
  apply wp_named_mq; [done..|]. intros d o q h Hr Ha Hh. apply wp_sys_bind. intros [[[maxmsg msgsize] cur]|e] [_ Hl].
  - rewrite Ha in Hl. destruct (Hl o (OMq q)) as (q' & [= <-] & [= -> -> ->]); [apply at_fd_new, Hr|]. repeat (intros [] _). left. split; [done|].
    cbn [after effect asked]. rewrite Ha, Hh. split; [done|]. exists o, q. split; [done|]. by rewrite <- !app_assoc.
  - apply wp_errExit_trace, fails_any. cbn [after effect]. by rewrite Ha.
Qed.

Lemma pmsg_unlink_removes argv : wp (ipc_env s) (pmsg_unlink_main argv) (tool_post (fun s' out => removed NMq (argv_nth argv 1) s' /\ out = []) same) [].
Proof.
  unfold pmsg_unlink_main. destruct (_ || _); [by apply wp_usageErr_trace, fails_any|].
  apply wp_sys_bind. intros [u|e] [_ Hl]; [|by apply wp_errExit_trace, fails_any]. left. by repeat split.
Qed.

(** ** pshm/ *)

(** The object has the given size, in a state [s1]. *)
Definition sized (s1 : posix_ipc) (name : list ascii) (len : Z) (s' : posix_ipc) : Prop :=
  exists o data sem, refers s1 NShm name o (OShm data sem) /\ 0 <= len /\ s' = set_obj o (OShm (resized len data) sem) s1.

Definition filled (name text : list ascii) (s' : posix_ipc) : Prop :=
  exists o data sem, refers s NShm name o (OShm data sem) /\ s' = set_obj o (OShm text sem) s.

Lemma wp_named_shm name flags mode (f : Z -> prog unit) ok (partial : posix_ipc -> Prop) :
  partial s -> flag flags O_CREAT = false ->
  (forall fd o data sem h, refers s NShm name o (OShm data sem) -> after s h = (s, Table (<[fd := o]> ∅) ∅) -> asked h = [] ->
    wp (ipc_env s) (f fd) (tool_post ok partial) h) ->
  wp (ipc_env s) (fd <- sys (Shm_open name flags mode) ;; match fd with Err e => errExit e ($"shm_open") | Ok fd => f fd end) (tool_post ok partial) [].
Proof.
  intros Hp Hfl Hf. apply wp_sys_bind. intros [d|e] [_ Hl]; [|by apply wp_errExit_trace, fails_any].
  destruct Hl as (Hm & _). destruct (open_existing _ _ _ (OShm [] None) _ Hs Hm Hfl) as (o & x & Hr & Hk & Ho).
  destruct x as [| |data sem]; try done. apply (Hf d o data sem _ Hr); [|done]. cbn [after effect opens_fd]. change (fst (s, no_table)) with s. by rewrite Ho.
Qed.

Lemma wp_created_shm name flags mode (f : Z -> prog unit) ok (partial : posix_ipc -> Prop) :
  partial s ->
  (forall fd o data sem s1 h, created NShm name flags (OShm [] None) s1 -> refers s1 NShm name o (OShm data sem) ->
    after s h = (s1, Table (<[fd := o]> ∅) ∅) -> asked h = [] -> wp (ipc_env s) (f fd) (tool_post ok partial) h) ->
  wp (ipc_env s) (fd <- sys (Shm_open name flags mode) ;; match fd with Err e => errExit e ($"shm_open") | Ok fd => f fd end) (tool_post ok partial) [].
Proof.
  intros Hp Hf. apply wp_sys_bind. intros [d|e] [_ Hl]; [|by apply wp_errExit_trace, fails_any].
  destruct Hl as (Hm & _). pose proof (open_obj_spec NShm name (OShm [] None) s) as Hspec.
  assert (created NShm name flags (OShm [] None) (snd (open_obj NShm name (OShm [] None) s))) as Hc by done.
  destruct (open_obj NShm name (OShm [] None) s) as [o s1] eqn:Ho. cbn [snd] in Hc.
  assert (exists data sem, refers s1 NShm name o (OShm data sem)) as (data & sem & Hr).
  { unfold refers. destruct (names s !! (NShm, name)) as [o'|] eqn:Hn.
    - destruct Hspec as [-> ->]. destruct (proj1 Hs _ _ _ Hn) as (x & Hx & Hk). destruct x as [| |data sem]; try done. by exists data, sem.
    - destruct Hspec as [_ ->]. exists [], None. cbn. by rewrite !lookup_insert_eq. }
  apply (Hf d o data sem s1); try done. cbn [after effect opens_fd]. change (fst (s, no_table)) with s. by rewrite Ho.
Qed.

Lemma wp_sizeAndMap fd o data sem s1 name size h ok (partial : posix_ipc -> Prop) :
  refers s1 NShm name o (OShm data sem) -> after s h = (s1, Table (<[fd := o]> ∅) ∅) -> asked h = [] -> partial s1 ->
  (forall s', sized s1 name (off_t_of size) s' -> ok s' [] /\ partial s') ->
  wp (ipc_env s) (sizeAndMap fd size) (tool_post ok partial) h.
Proof.
  intros Hr Ha Hh Hp Hz. unfold sizeAndMap. apply wp_sys_bind.
  intros [u|e] [_ Hl]; [|apply wp_errExit_trace, fails_any; cbn [after effect]; by rewrite Ha].
  set (len := off_t_of size) in *. set (h1 := Ev (Ftruncate fd len) (Ok u) :: h). cbn in Hl.
  assert (after s h1 = (set_obj o (OShm (resized len data) sem) s1, Table (<[fd := o]> ∅) ∅)) as Ha1.
  { subst h1. cbn [after effect]. rewrite Ha. cbn [on_ok]. by rewrite (at_fd_new s1 o (OShm data sem)) by apply Hr. }
  assert (sized s1 name len (set_obj o (OShm (resized len data) sem) s1)) as Hsz by (exists o, data, sem; done).
  destruct (Hz _ Hsz) as [Hok Hpart]. apply wp_sys_bind. intros [a|e] _.
  - left. split; [done|]. cbn [after effect asked]. rewrite Ha1. cbn [snd fds fst]. rewrite lookup_insert_eq. cbn [fst]. subst h1. cbn [asked]. by rewrite Hh.
  - apply wp_errExit_trace, fails_any. cbn [after effect]. by rewrite Ha1.
Qed.

Lemma off_t_long v : is_long v -> off_t_of (wrapu 64 v) = v.
Proof.
  unfold is_long, LONG_MIN, LONG_MAX, off_t_of, wrapu. intros Hv.
  destruct (Z.ltb_spec (v mod 2 ^ 64) (2 ^ 63)); Z.to_euclidean_division_equations; lia.
Qed.

Lemma pshm_create_simple_creates argv :
  let flags := Z.lor (Z.lor O_CREAT O_EXCL) O_RDWR in
  let made := created NShm (argv_nth argv 1) flags (OShm [] None) in
  let full s' := exists s1, made s1 /\ sized s1 (argv_nth argv 1) (atoi (argv_nth argv 2)) s' in
  wp (ipc_env s) (pshm_create_simple_main argv) (tool_post (fun s' out => out = [] /\ full s') (fun s' => s' = s \/ made s' \/ full s')) [].
Proof.
  intros flags made full. unfold pshm_create_simple_main. destruct (_ || _); [apply wp_usageErr_trace, fails_any; by left|].
  apply (wp_created_shm (argv_nth argv 1) flags USER_RW (fun fd => sizeAndMap fd (wrapu 64 (atoi (argv_nth argv 2))))); [by left|].
  intros fd o data sem s1 h Hc Hr Ha Hh. eapply wp_sizeAndMap; [done..|by right; left|]. intros s' Hsz.
  pose proof (atoi_range (argv_nth argv 2)) as Hat. rewrite off_t_long in Hsz by (unfold is_int, INT_MIN, INT_MAX in Hat; unfold is_long, LONG_MIN, LONG_MAX; lia).
  assert (full s') as Hfull by (by exists s1). auto.
Qed.

Lemma pshm_create_creates argv0 opts args :
  let flags := flags_of O_RDWR opts in
  let made s' := exists name, args !! 0%nat = Some name /\ created NShm name flags (OShm [] None) s' in
  let full s' := exists name a v s1, args !! 0%nat = Some name /\ args !! 1%nat = Some a /\ accepted a GN_ANY_BASE v /\
    created NShm name flags (OShm [] None) s1 /\ sized s1 name v s' in
  wp (ipc_env s) (pshm_create_main argv0 opts args) (tool_post (fun s' out => out = [] /\ full s') (fun s' => s' = s \/ made s' \/ full s')) [].
Proof.
  intros flags made full. unfold pshm_create_main. apply wp_bind, wp_openFlags; [apply wp_usageLines; fails_bind; by left|]. intros _.
  destruct args as [|name [|a args]]; try (apply wp_usageLines, fails_any; by left).
  apply wp_bind, wp_getLong; [fails_bind; by left|]. intros v Hv.
  apply wp_bind. eapply (wp_mono _ _ (fun o h => (exists p, o = Done p /\ h = []) \/ stops_failing o /\ Forall reporting h)).
  2: { destruct ((name :: a :: args) !! 2%nat) as [b|]; [|left; by eexists]. apply wp_bind.
       unfold getLong. destruct (getNum_cases ($"getLong") (Some b) GN_BASE_8 (Some ($"octal-perms"))) as [(c & w & [= <-] & _ & ->)|[[m ->] _]].
       - left. by eexists.
       - apply wp_gnFail_trace. intros o k Ho Hk. rewrite app_nil_r. destruct Ho as [->|[->| ->]]; right; unfold stops_failing; auto. }
  intros o h [(p & -> & ->)|[Ho Hk]].
  - apply (wp_created_shm name flags p (fun fd => sizeAndMap fd (wrapu 64 v))); [by left|].
    intros fd o data sem s1 h Hc Hr Ha Hh. eapply wp_sizeAndMap; [done..|right; left; by exists name|]. intros s' Hsz.
    assert (is_long v) as Hl by (destruct Hv as (_ & Hst & _); by eapply strtol_range).
    rewrite off_t_long in Hsz by done. assert (full s') as Hfull by (by exists name, a, v, s1). auto.
  - rewrite <- (app_nil_r h). destruct Ho as [->|[->| ->]]; apply fails_any; try done; [by left|unfold stops_failing; auto|by left|unfold stops_failing; auto|by left|unfold stops_failing; auto].
Qed.

Lemma stored_all data text : stored 0 text (resized (strlen text) data) = text.
Proof.
  unfold stored, resized, strlen. rewrite take_0, drop_ge, app_nil_r by (rewrite length_take; lia). done.
Qed.

Lemma length_resized len data : 0 <= len -> strlen (resized len data) = len.
Proof. intros H. unfold strlen, resized. rewrite length_take, length_app, length_replicate. lia. Qed.

Lemma pshm_write_writes argv :
  let name := argv_nth argv 1 in let text := argv_nth argv 2 in
  wp (ipc_env s) (pshm_write_main argv) (tool_post (fun s' out => filled name text s' /\
    out = $"Resized to " ++ dec (strlen text) ++ $" bytes" ++ [NL] ++ $"copying " ++ dec (strlen text) ++ $" bytes" ++ [NL])
    (fun s' => s' = s \/ sized s name (strlen text) s')) [].
Proof.
  intros name text. unfold pshm_write_main. destruct (_ || _); [apply wp_usageErr_trace, fails_any; by left|]. fold name text.
  apply (wp_named_shm name O_RDWR 0); [by left|done|]. intros fd o data sem h Hr Ha Hh.
  apply wp_sys_bind. intros [u|e] [_ Hl]; [|apply wp_errExit_trace, fails_any; left; cbn [after effect]; by rewrite Ha].
  set (h1 := Ev (Ftruncate fd (strlen text)) (Ok u) :: h). set (s1 := set_obj o (OShm (resized (strlen text) data) sem) s).
  assert (after s h1 = (s1, Table (<[fd := o]> ∅) ∅)) as Ha1.
  { subst h1. cbn [after effect]. rewrite Ha. cbn [on_ok]. by rewrite (at_fd_new s o (OShm data sem)) by apply Hr. }
  assert (asked h1 = []) as Hh1 by (subst h1; cbn [asked]; by rewrite Hh).
  assert (s1 = s \/ sized s name (strlen text) s1) as Hpart by (right; exists o, data, sem; split_and!; try done; unfold strlen; lia).
  intros [] _. apply wp_sys_bind. intros [a|e] [_ Hm]; [|apply wp_errExit_trace, fails_any; cbn [after effect]; by rewrite Ha1].
  set (h2 := Ev (Mmap _ _ _) _ :: _). assert (after s h2 = (s1, Table (<[fd := o]> ∅) (<[a := o]> ∅))) as Ha2.
  { subst h2. cbn [after effect]. rewrite Ha1. cbn [snd fds]. by rewrite lookup_insert_eq. }
  assert (asked h2 = $"Resized to " ++ dec (strlen text) ++ $" bytes" ++ [NL]) as Hh2 by (subst h2; cbn [asked]; by rewrite Hh1, !app_nil_r).
  apply wp_sys_bind. intros [c|e] _; [|apply wp_errExit_trace, fails_any; cbn [after effect]; by rewrite Ha2].
  intros [] _ [] _. left. split; [done|]. cbn [after effect asked]. rewrite Ha2, Hh2. cbn [fst snd ptrs fds].
  assert (objs s1 !! o = Some (OShm (resized (strlen text) data) sem)) as Hs1 by (subst s1; cbn; by rewrite lookup_insert_eq).
  rewrite (at_ptr_new s1 o (OShm (resized (strlen text) data) sem)) by done. split; [|by rewrite !app_nil_r, <- !app_assoc].
  exists o, data, sem. split; [done|]. cbn [on_obj]. rewrite length_resized by (unfold strlen; lia). rewrite (proj2 (Z.leb_le _ _)) by lia.
  change (Z.to_nat 0) with 0%nat. rewrite stored_all. subst s1. unfold set_obj. cbn. by rewrite insert_insert_eq.
Qed.

Lemma pshm_read_shows argv :
  wp (ipc_env s) (pshm_read_main argv) (tool_post (fun s' out => s' = s /\
    exists o data sem, refers s NShm (argv_nth argv 1) o (OShm data sem) /\ out = data ++ [NL]) same) [].
Proof.
  unfold pshm_read_main. destruct (_ || _); [by apply wp_usageErr_trace, fails_any|].
  apply wp_named_shm; [done..|]. intros fd o data sem h Hr Ha Hh.
  apply wp_sys_bind. intros [n|e] [_ Hn]; [|apply wp_errExit_trace, fails_any; cbn [after effect]; by rewrite Ha].
  rewrite Ha in Hn. specialize (Hn o data sem (at_fd_new _ _ _ _ _ (proj2 Hr))). subst n.
  apply wp_sys_bind. intros [a|e] [_ Hm]; [|apply wp_errExit_trace, fails_any; cbn [after effect]; by rewrite Ha].
  set (h2 := Ev (Mmap _ _ _) _ :: _). assert (after s h2 = (s, Table (<[fd := o]> ∅) (<[a := o]> ∅))) as Ha2.
  { subst h2. cbn [after effect]. rewrite Ha. cbn [snd fds]. by rewrite lookup_insert_eq. }
  assert (asked h2 = []) as Hh2 by (subst h2; cbn [asked]; by rewrite Hh).
  apply wp_sys_bind. intros [c|e] _; [|apply wp_errExit_trace, fails_any; cbn [after effect]; by rewrite Ha2].
  apply wp_sys_bind. intros d [_ Hd]. cbn [after effect] in Hd. rewrite Ha2 in Hd. cbn [fst snd ptrs] in Hd.
  specialize (Hd o data sem (at_ptr_new _ _ _ _ _ (proj2 Hr))). rewrite drop_0, take_ge in Hd by (unfold strlen; lia).
  rewrite Hd by lia. intros w _ [] _. left. split; [done|]. cbn [after effect asked]. rewrite Ha2, Hh2. split; [done|]. exists o, data, sem. split; [done|].
  cbn [Z.eqb STDOUT_FILENO]. by rewrite !app_nil_r.
Qed.

Lemma pshm_unlink_removes argv : wp (ipc_env s) (pshm_unlink_main argv) (tool_post (fun s' out => removed NShm (argv_nth argv 1) s' /\ out = []) same) [].
Proof.
  unfold pshm_unlink_main. destruct (_ || _); [by apply wp_usageErr_trace, fails_any|].
  apply wp_sys_bind. intros [u|e] [_ Hl]; [|by apply wp_errExit_trace, fails_any]. left. by repeat split.
Qed.
End Facts.

(** ** One program after another *)

Lemma refers_set s sp name o x x' : refers s sp name o x -> refers (set_obj o x' s) sp name o x'.
Proof. intros [Hn _]. split; [done|]. cbn. by rewrite lookup_insert_eq. Qed.

Lemma refers_fun s sp name o x o' x' : refers s sp name o x -> refers s sp name o' x' -> o' = o /\ x' = x.
Proof. intros [H1 H2] [H3 H4]. replace o' with o in * by congruence. split; [done|congruence]. Qed.

Lemma set_set o x x' s : set_obj o x (set_obj o x' s) = set_obj o x s.
Proof. unfold set_obj. cbn. by rewrite insert_insert_eq. Qed.

Lemma set_same o x s : objs s !! o = Some x -> set_obj o x s = s.
Proof. intros H. unfold set_obj. rewrite insert_id by done. by destruct s. Qed.

Lemma post_take s s1 s2 name : sem_posted s name s1 -> sem_taken s1 name s2 -> s2 = s.
Proof.
  intros (o & v & Hr & _ & ->) (o' & v' & Hr' & _ & ->). destruct (refers_fun _ _ _ _ _ _ _ (refers_set _ _ _ _ _ _ Hr) Hr') as [-> [= ->]].
  rewrite set_set. replace (v + 1 - 1) with v by lia. apply set_same, Hr.
Qed.

Lemma write_read s s1 name text o data sem : filled s name text s1 -> refers s1 NShm name o (OShm data sem) -> data = text.
Proof.
  intros (o' & d' & sem' & Hr & ->) Hr'. by destruct (refers_fun _ _ _ _ _ _ _ (refers_set _ _ _ _ _ _ Hr) Hr') as [-> [= -> ->]].
Qed.

(** What is received is the oldest message of the highest priority. *)
Lemma send_receive s s1 s2 name text prio text' prio' :
  ipc_ok s -> mq_sent s name text prio s1 -> mq_received s1 name text' prio' s2 ->
  exists o q, refers s NMq name o (OMq q) /\
    (forall m, m = (text, prio) \/ m ∈ q_msgs q -> snd m <= prio') /\
    (forall m, m ∈ q_msgs q -> snd m = prio' -> (text', prio') ∈ q_msgs q) /\
    (q_msgs q = [] -> text' = text /\ prio' = prio /\ s2 = s).
Proof.
  intros [_ Hok] (o & q & Hr & _ & _ & ->) (o' & q' & rest & Hr' & Hq & ->).
  destruct (refers_fun _ _ _ _ _ _ _ (refers_set _ _ _ _ _ _ Hr) Hr') as [-> [= ->]]. cbn in Hq. exists o, q.
  destruct (Hok o _ (proj2 Hr)) as (Hsort & _ & _). pose proof (enqueue_sorted (text, prio) _ Hsort) as Hs'. split_and!.
  - done.
  - intros m Hm%enqueue_elem. rewrite Hq in Hs', Hm. apply elem_of_cons in Hm as [->|Hm]; [done|].
    inversion Hs' as [|? ? _ Hall]; subst. rewrite Forall_forall in Hall. by apply Hall.
  - intros m Hm Hp. assert ((text', prio') ∈ filter (fun x => snd x = prio') (q_msgs q)) as [_ ?]%list_elem_of_filter; [|done].
    pose proof (enqueue_fifo (text, prio) _ prio' Hsort) as Hf. rewrite Hq, filter_cons in Hf. cbn in Hf. rewrite decide_True in Hf by done.
    assert (m ∈ filter (fun x => snd x = prio') (q_msgs q)) as Hm' by (by apply list_elem_of_filter).
    destruct (filter _ (q_msgs q)) as [|y l]; [by apply elem_of_nil in Hm'|]. injection Hf as <- _. by left.
  - intros He. rewrite He in Hq. cbn in Hq. injection Hq as <- <- <-. split_and!; [done..|]. rewrite set_set. cbn.
    replace (Mqueue (q_maxmsg q) (q_msgsize q) []) with q by (destruct q; cbn in *; by subst). apply set_same, Hr.
Qed.

(** C4: the programs of psem/, pmsg/ and pshm/ implement operations on named objects.
    If no other process interferes, whatever fails, each program either succeeds
    and has done its operation, with the output that shows its result, or fails
    and has left the objects unchanged, apart from the stages named here: post and
    the three kinds of wait change the semaphore of the given name by one, the
    creating programs create the object if -c (O_CREAT) is given and the name is
    free and accept an existing one unless -x (O_EXCL) is given too, send inserts
    the message by its priority, receive removes the first message and displays
    it (it is lost if write() fails), write makes the object exactly the string
    and read displays the whole object; creating shared memory and writing to it
    may stop with the object created or only resized.  Every reply keeps the
    objects consistent.  Posting and taking is the identity, what is read is what
    was written, and the message received is the oldest of the highest
    priority. *)
Theorem posix_tools {T : ErrText} s argv argv0 opts args :
  ipc_ok s ->
  (forall X (c : call X) r t, legal (s, t) c r -> ipc_ok (fst (effect c r (s, t)))) /\
  (wp (ipc_env s) (psem_post_main argv) (tool_post s (fun s' out => sem_posted s (argv_nth argv 1) s' /\ out = []) (same s)) [] /\
   wp (ipc_env s) (psem_trywait_main argv) (tool_post s (fun s' out => sem_taken s (argv_nth argv 1) s' /\ out = []) (same s)) [] /\
   wp (ipc_env s) (psem_wait_main argv) (tool_post s (fun s' out => sem_taken s (argv_nth argv 1) s' /\ waited out) (same s)) [] /\
   wp (ipc_env s) (psem_timedwait_main argv) (tool_post s (fun s' out => sem_taken s (argv_nth argv 1) s' /\ waited out) (same s)) [] /\
   wp (ipc_env s) (psem_getvalue_main argv) (tool_post s (fun s' out => s' = s /\
     exists o v, refers s NSem (argv_nth argv 1) o (OSem v) /\ out = dec v ++ [NL]) (same s)) [] /\
   wp (ipc_env s) (psem_unlink_main argv) (tool_post s (fun s' out => removed s NSem (argv_nth argv 1) s' /\ out = []) (same s)) [] /\
   wp (ipc_env s) (psem_create_simple_main argv) (tool_post s (fun s' out => out = [] /\ created s NSem (argv_nth argv 1) (Z.lor O_CREAT O_EXCL)
     (OSem (wrapu 32 (match argv !! 2%nat with Some a => atoi a | None => 0 end))) s') (same s)) [] /\
   wp (ipc_env s) (psem_create_main argv0 opts args) (tool_post s (fun s' out => out = [] /\ exists name v,
     args !! 0%nat = Some name /\ int_arg args 2 0 0 v /\ created s NSem name (flags_of 0 opts) (OSem v) s') (same s)) []) /\
  (wp (ipc_env s) (pmsg_create_main argv0 opts args) (tool_post s (fun s' out => out = [] /\ exists name perms,
     args !! 0%nat = Some name /\ int_arg args 1 GN_BASE_8 USER_RW perms /\
     created s NMq name (flags_of O_RDWR opts) (new_queue (Some (perms, attr_of opts 10 2048 false))) s') (same s)) [] /\
   wp (ipc_env s) (pmsg_create_simple_main argv)
     (let made := created s NMq (argv_nth argv 1) (Z.lor O_CREAT O_EXCL)
        (new_queue (Some (USER_RW, Some (match argv !! 2%nat with Some a => atoi a | None => 5 end,
                                         match argv !! 3%nat with Some a => atoi a | None => 1024 end)))) in
      tool_post s (fun s' out => out = [] /\ made s') (fun s' => s' = s \/ made s')) [] /\
   wp (ipc_env s) (pmsg_send_main argv0 opts args) (tool_post s (fun s' out => out = [] /\ exists name text,
     args !! 0%nat = Some name /\ args !! 1%nat = Some text /\
     mq_sent s name text (match args !! 2%nat with Some a => wrapu 32 (atoi a) | None => 0 end) s') (same s)) [] /\
   wp (ipc_env s) (pmsg_receive_main argv0 opts args) (tool_post s (fun s' out => exists name text prio,
     args !! 0%nat = Some name /\ mq_received s name text prio s' /\
     out = $"Read " ++ dec (strlen text) ++ $" bytes; priority = " ++ dec prio ++ [NL] ++ text ++ [NL])
     (fun s' => s' = s \/ exists name, args !! 0%nat = Some name /\ exists text prio, mq_received s name text prio s')) [] /\
   wp (ipc_env s) (pmsg_getattr_main argv) (tool_post s (fun s' out => s' = s /\ exists o q, refers s NMq (argv_nth argv 1) o (OMq q) /\
     out = $"Maximum # of messages on queue:   " ++ dec (q_maxmsg q) ++ [NL] ++ $"Maximum message size:             " ++ dec (q_msgsize q) ++ [NL] ++
           $"# of messages currently on queue: " ++ dec (Z.of_nat (length (q_msgs q))) ++ [NL]) (same s)) [] /\
   wp (ipc_env s) (pmsg_unlink_main argv) (tool_post s (fun s' out => removed s NMq (argv_nth argv 1) s' /\ out = []) (same s)) []) /\
  (wp (ipc_env s) (pshm_create_main argv0 opts args)
     (let made s' := exists name, args !! 0%nat = Some name /\ created s NShm name (flags_of O_RDWR opts) (OShm [] None) s' in
      let full s' := exists name a v s1, args !! 0%nat = Some name /\ args !! 1%nat = Some a /\ accepted a GN_ANY_BASE v /\
        created s NShm name (flags_of O_RDWR opts) (OShm [] None) s1 /\ sized s1 name v s' in
      tool_post s (fun s' out => out = [] /\ full s') (fun s' => s' = s \/ made s' \/ full s')) [] /\
   wp (ipc_env s) (pshm_create_simple_main argv)
     (let made := created s NShm (argv_nth argv 1) (Z.lor (Z.lor O_CREAT O_EXCL) O_RDWR) (OShm [] None) in
      let full s' := exists s1, made s1 /\ sized s1 (argv_nth argv 1) (atoi (argv_nth argv 2)) s' in
      tool_post s (fun s' out => out = [] /\ full s') (fun s' => s' = s \/ made s' \/ full s')) [] /\
   wp (ipc_env s) (pshm_write_main argv) (tool_post s (fun s' out => filled s (argv_nth argv 1) (argv_nth argv 2) s' /\
     out = $"Resized to " ++ dec (strlen (argv_nth argv 2)) ++ $" bytes" ++ [NL] ++ $"copying " ++ dec (strlen (argv_nth argv 2)) ++ $" bytes" ++ [NL])
     (fun s' => s' = s \/ sized s (argv_nth argv 1) (strlen (argv_nth argv 2)) s')) [] /\
   wp (ipc_env s) (pshm_read_main argv) (tool_post s (fun s' out => s' = s /\
     exists o data sem, refers s NShm (argv_nth argv 1) o (OShm data sem) /\ out = data ++ [NL]) (same s)) [] /\
   wp (ipc_env s) (pshm_unlink_main argv) (tool_post s (fun s' out => removed s NShm (argv_nth argv 1) s' /\ out = []) (same s)) []) /\
  (forall s1 s2 name text, (sem_posted s name s1 -> sem_taken s1 name s2 -> s2 = s) /\
    (forall o data sem, filled s name text s1 -> refers s1 NShm name o (OShm data sem) -> data = text) /\
    (forall prio text' prio', mq_sent s name text prio s1 -> mq_received s1 name text' prio' s2 -> exists o q, refers s NMq name o (OMq q) /\
      (forall m, m = (text, prio) \/ m ∈ q_msgs q -> snd m <= prio') /\ (forall m, m ∈ q_msgs q -> snd m = prio' -> (text', prio') ∈ q_msgs q) /\
      (q_msgs q = [] -> text' = text /\ prio' = prio /\ s2 = s))).
Proof.
  intros Hs. split; [intros X c r t Hl; by apply (effect_ok c r (s, t))|]. split_and!.
  - by apply psem_post_posts. - by apply psem_trywait_takes. - by apply psem_wait_takes. - by apply psem_timedwait_takes.
  - by apply psem_getvalue_shows. - by apply psem_unlink_removes. - by apply psem_create_simple_creates. - by apply psem_create_creates.
  - by apply pmsg_create_creates. - by apply pmsg_create_simple_creates. - by apply pmsg_send_sends. - by apply pmsg_receive_receives.
  - by apply pmsg_getattr_shows. - by apply pmsg_unlink_removes.
  - by apply pshm_create_creates. - by apply pshm_create_simple_creates. - by apply pshm_write_writes. - by apply pshm_read_shows.
  - by apply pshm_unlink_removes.
  - intros s1 s2 name text. split_and!; [apply post_take|intros o data sem; apply write_read|intros prio text' prio'; by apply send_receive].
Qed.

(** ** Witness *)

(** A queue /q with two messages, and a kernel that serves the readers of queues
    from a given state. *)
Definition demo_ipc : posix_ipc :=
  Ipc {[ (NMq, $"/q") := 0%nat ]} {[ 0%nat := OMq (Mqueue 10 2048 [($"high", 5); ($"low", 1)]) ]}.

Definition queue_kernel (s : posix_ipc) : kernel := fun h X c =>
  match c in call X return X with
  | Mq_open name flags _ =>
      if decide (may_open NMq name flags (fst (after s h)) = true /\ 3 ∉ open_fds h /\ fds (snd (after s h)) !! 3 = None) then Ok 3 else Err ENOENT
  | Mq_getattr d =>
      match at_fd (after s h) d with
      | Some (_, OMq q) =>
          if decide (0 < q_maxmsg q /\ 0 < q_msgsize q) then Ok (q_maxmsg q, q_msgsize q, Z.of_nat (length (q_msgs q))) else Err EIO
      | _ => Err EIO
      end
  | Mq_receive d n =>
      match at_fd (after s h) d with
      | Some (_, OMq q) => match q_msgs q with m :: _ => if decide (strlen (fst m) <= n /\ q_msgsize q <= n) then Ok m else Err EIO | [] => Err EAGAIN end
      | _ => Err EIO
      end
  | Load a off n =>
      match at_ptr (after s h) a with
      | Some (_, OShm data _) =>
          if decide (0 <= off /\ off + n <= strlen data) then take (Z.to_nat n) (drop (Z.to_nat off) data) else replicate (Z.to_nat n) NUL
      | _ => replicate (Z.to_nat n) NUL
      end
  | Alloc _ => true
  | Write _ d => Ok (strlen d)
  | c => failing_kernel h _ c
  end.

Lemma queue_kernel_legal s h X (c : call X) : ipc_env s h X c (queue_kernel s h X c).
Proof.
  split.
  - destruct c; try apply posix_inhabited; cbn; unfold strlen; try lia;
      repeat (case_decide || case_match; cbn; try done; try (destruct_and?; split_and?; done || (rewrite ?length_replicate, ?length_take, ?length_drop; lia))).
  - destruct c; try done; cbn [queue_kernel legal].
    + case_decide as Hd; [|done]. by destruct Hd as (? & _ & ?).
    + destruct (at_fd (after s h) mqd) as [[o [|q|]]|]; try done. case_decide; [|done]. intros o' x [= <- <-]. by exists q.
    + destruct (at_fd (after s h) mqd) as [[o [|q|]]|]; try done. destruct (q_msgs q) as [|m l] eqn:Hq; [done|]. case_decide as Hd; [|done].
      intros o' x [= <- <-]. exists q. rewrite Hq. by destruct Hd.
    + by destruct f.
    + intros o data sem ->. intros Ho Hn. by rewrite decide_True.
Qed.

Lemma demo_ipc_ok : ipc_ok demo_ipc.
Proof.
  split.
  - intros sp name o. cbn. intros [[= <- <-] <-]%lookup_singleton_Some. by eexists.
  - intros o x. cbn. intros [_ <-]%lookup_singleton_Some. cbn. split_and!; [repeat constructor; cbn; lia|done|].
    constructor; [done|]. constructor; [done|]. constructor.
Qed.

Definition demo_receive := run (queue_kernel demo_ipc) (pmsg_receive_main (T := demo_text) ($"pmsg_receive") [] [$"/q"]) [].

Lemma posix_tools_witness :
  asked (snd demo_receive) = $"Read 4 bytes; priority = 5" ++ [NL] ++ $"high" ++ [NL] /\
  exists text prio, mq_received demo_ipc ($"/q") text prio (fst (after demo_ipc (snd demo_receive))).
Proof.
  split; [vm_compute; reflexivity|].
  destruct (posix_tools (T := demo_text) demo_ipc [] ($"pmsg_receive") [] [$"/q"] demo_ipc_ok) as (_ & _ & (_ & _ & _ & H & _) & _).
  apply (wp_run _ (queue_kernel demo_ipc)) in H; [|apply queue_kernel_legal]. fold demo_receive in H.
  destruct H as [[_ (name & text & prio & [= <-] & Hm & _)]|[Ho _]]; [by exists text, prio|].
  assert (fst demo_receive = Stop (Exit EXIT_SUCCESS)) as He by (vm_compute; reflexivity). rewrite He in Ho. by destruct Ho as [?|[?|?]].
Defined.
