(* ===== verification/Lockstep.v ===== *)
(** * psem/psem_tty_lockstep_init.c and psem_tty_lockstep_second.c

    Two processes that print to the terminal in turn, with one semaphore each.
    The processes are programs of calls on the objects of PosixIpc.v: every call is
    a step, the steps interleave freely, and every call may fail.  The second
    process is started when the first one has come to its loop. *)

From S2P Require Import Prelude Sys LibErrors GetNum FileIO PosixIpc PosixTools.

Section Programs.
Context {T : ErrText}.

(** The loop: [n] rounds are left, [j] is the round. *)
Fixpoint turns (label : list ascii) (own other : Z) (tail : prog unit) (n : nat) (j : nat) : prog unit :=
  match n with
  | O => tail
  | S n =>
      r <- sys (Sem_call SemWait own) ;;
      match r with
      | Err e => errExit e ($"sem_wait")
      | Ok _ =>
          print Stdout (label ++ dec (Z.of_nat j) ++ [NL]) ;;;
          sys (Delay 250000) ;;;
          r <- sys (Sem_call SemPost other) ;;
          match r with
          | Err e => errExit e ($"sem_post")
          | Ok _ => turns label own other tail n (S j)
          end
      end
  end.

Definition nloops (argv : list (list ascii)) : nat := Z.to_nat (match argv !! 3%nat with Some a => atoi a | None => 5 end).

(** optind is 1 here. *)
Definition lockstep_usage (argv : list (list ascii)) : bool := (length argv <? 3)%nat || is_help argv.

Definition openSem (name : list ascii) (flags : Z) (create : option (Z * Z)) (msg : list ascii) : prog Z :=
  sem <- sys (Sem_open name flags create) ;;
  match sem with Err e => errExit e msg | Ok sem => Ret sem end.

Definition initSetup (argv : list (list ascii)) : prog (Z * Z) :=
  if lockstep_usage argv then usageErr (argv_nth argv 0 ++ $" /init-sem /second-sem [num-loops]" ++ [NL])
  else
    sys (Sem_unlink (argv_nth argv 1)) ;;;
    sys (Sem_unlink (argv_nth argv 2)) ;;;
    initSem <- openSem (argv_nth argv 1) (Z.lor O_CREAT O_EXCL) (Some (USER_RW, 0)) ($"sem_open-initSem") ;;
    secondSem <- openSem (argv_nth argv 2) (Z.lor O_CREAT O_EXCL) (Some (USER_RW, 1)) ($"sem_open-secondSem") ;;
    Ret (initSem, secondSem).

Definition initTail (argv : list (list ascii)) : prog unit :=
  sys (Sem_unlink (argv_nth argv 1)) ;;;
  sys (Sem_unlink (argv_nth argv 2)) ;;;
  Halt (Exit EXIT_SUCCESS).

Definition initLoop (argv : list (list ascii)) (sems : Z * Z) : prog unit :=
  turns ($"aaaa ") (fst sems) (snd sems) (initTail argv) (nloops argv) 0.

Definition secondSetup (argv : list (list ascii)) : prog (Z * Z) :=
  if lockstep_usage argv then usageErr (argv_nth argv 0 ++ $" /init-sem /second-sem [num-loops" ++ [NL])
  else
    initSem <- openSem (argv_nth argv 1) 0 None ($"sem_open-initSem") ;;
    secondSem <- openSem (argv_nth argv 2) 0 None ($"sem_open-secondSem") ;;
    Ret (initSem, secondSem).

Definition secondLoop (argv : list (list ascii)) (sems : Z * Z) : prog unit :=
  turns ($"bbbb ") (snd sems) (fst sems) (Halt (Exit EXIT_SUCCESS)) (nloops argv) 0.

Definition lockstep_second_main (argv : list (list ascii)) : prog unit := sems <- secondSetup argv ;; secondLoop argv sems.

(** ** The two processes *)

(** What the terminal shows, line by line, and the processes with what they have
    open.  The first process is in its set-up, or in its loop and what follows. *)
Record lsys := Lsys {
  shared : posix_ipc; tty : list (list ascii); procA : (prog (Z * Z) + prog unit) * table; procB : option (prog unit * table) }.

Definition shown_by {X} (c : call X) : list (list ascii) := match c with Out Stdout t => [t] | _ => [] end.

(** A step of one process: its next call gets one of the possible replies. *)
Definition pstep {A} (s : posix_ipc) (a : prog A * table) (s' : posix_ipc) (a' : prog A * table) (out : list (list ascii)) : Prop :=
  match fst a with
  | Sys c k => exists r, legal (s, snd a) c r /\ s' = fst (effect c r (s, snd a)) /\ a' = (k r, snd (effect c r (s, snd a))) /\ out = shown_by c
  | _ => False
  end.

(** The second process may start when the first has left its set-up. *)
Inductive lstep (argvA argvB : list (list ascii)) : lsys -> lsys -> Prop :=
| StepSetup s out p t s' p' t' o : pstep s (p, t) s' (p', t') o -> lstep argvA argvB (Lsys s out (inl p, t) None) (Lsys s' (out ++ o) (inl p', t') None)
| EnterLoop s out sems t : lstep argvA argvB (Lsys s out (inl (Ret sems), t) None) (Lsys s out (inr (initLoop argvA sems), t) None)
| StepA s out p t b s' p' t' o : pstep s (p, t) s' (p', t') o -> lstep argvA argvB (Lsys s out (inr p, t) b) (Lsys s' (out ++ o) (inr p', t') b)
| StepB s out a p t s' p' t' o : pstep s (p, t) s' (p', t') o -> lstep argvA argvB (Lsys s out a (Some (p, t))) (Lsys s' (out ++ o) a (Some (p', t')))
| Start s out p t : lstep argvA argvB (Lsys s out (inr p, t) None) (Lsys s out (inr p, t) (Some (lockstep_second_main argvB, no_table))).

Definition lstart (argvA : list (list ascii)) (s : posix_ipc) : lsys := Lsys s [] (inl (initSetup argvA), no_table) None.

(** ** Positions in the loop *)

Inductive phase := PWait | PPrint | PDelay | PPost | PEnd | PFail.

#[local] Instance phase_eq_dec : EqDecision phase.
Proof. solve_decision. Defined.

(** A call that neither prints nor changes an object or what is open, and may only
    remove names; one that leaves the names alone too. *)
Definition mild X (c : call X) : Prop :=
  shown_by c = [] /\ forall r s t, objs (fst (effect c r (s, t))) = objs s /\ snd (effect c r (s, t)) = t /\
    forall k o, names (fst (effect c r (s, t))) !! k = Some o -> names s !! k = Some o.

Definition harmless X (c : call X) : Prop := mild X c /\ forall r s t, names (fst (effect c r (s, t))) = names s.

Lemma harmless_mild X c : harmless X c -> mild X c.
Proof. by intros [H _]. Qed.

(** How a process can end, whatever the replies are. *)
Fixpoint ends_with (P : halt -> Prop) (p : prog unit) : Prop :=
  match p with Ret _ => False | Halt h => P h | Sys _ k => forall r, ends_with P (k r) end.

Definition failing (p : prog unit) : Prop := only harmless p /\ ends_with failure p.
Definition ending (calls : forall X, call X -> Prop) (p : prog unit) : Prop := only calls p /\ ends_with (fun h => h = Exit EXIT_SUCCESS) p.

Section Loop.
(** [calls]: the calls that the process makes after the loop. *)
Context (label : list ascii) (own other : Z) (tail : prog unit) (n : nat) (calls : forall X, call X -> Prop).

Definition line (j : nat) : list ascii := label ++ dec (Z.of_nat j) ++ [NL].

Definition prog_at (ph : phase) (j : nat) : prog unit :=
  let post := r <- sys (Sem_call SemPost other) ;;
              match r with Err e => errExit e ($"sem_post") | Ok _ => turns label own other tail (n - S j) (S j) end in
  match ph with
  | PWait => turns label own other tail (n - j) j
  | PPrint => print Stdout (line j) ;;; sys (Delay 250000) ;;; post
  | PDelay => sys (Delay 250000) ;;; post
  | _ => post
  end.

Definition sits (ph : phase) (j : nat) (p : prog unit) : Prop :=
  match ph with
  | PEnd => j = n /\ ending calls p
  | PFail => failing p
  | _ => (j < n)%nat /\ p = prog_at ph j
  end.

(** The lines printed so far; whether it is the turn of the process. *)
Definition printed (ph : phase) (j : nat) : nat := match ph with PDelay | PPost => S j | _ => j end.
Definition turn (ph : phase) : Z := match ph with PPrint | PDelay | PPost => 1 | _ => 0 end.

(** The moves of a process: [v] and [w] are the values of its own semaphore and of
    the other one. *)
Inductive move (v w : Z) : phase -> nat -> Z -> Z -> phase -> nat -> list (list ascii) -> Prop :=
| MWait j : 0 < v -> move v w PWait j (v - 1) w PPrint j []
| MPrint j : move v w PPrint j v w PDelay j [line j]
| MDelay j : move v w PDelay j v w PPost j []
| MPost j ph' : ph' = PWait \/ ph' = PEnd -> move v w PPost j v (w + 1) ph' (S j) []
| MFail ph j : ph <> PEnd -> move v w ph j v w PFail (printed ph j) []
| MRest ph j : ph = PEnd \/ ph = PFail -> move v w ph j v w ph j [].

Definition sems_at (s : posix_ipc) (oo ot : nat) (v w : Z) : Prop := objs s !! oo = Some (OSem v) /\ objs s !! ot = Some (OSem w).

(** Names are only removed, and only by a process that has left its loop. *)
Definition names_kept (s s' : posix_ipc) (ph : phase) : Prop :=
  (forall k o, names s' !! k = Some o -> names s !! k = Some o) /\ (ph <> PEnd \/ (forall X c, calls X c -> harmless X c) -> names s' = names s).

Lemma quiet_harmless X (c : call X) : quiet_call X c -> harmless X c.
Proof. destruct c; try done; try (by destruct s). Qed.

Lemma only_quiet {A} (p : prog A) : only quiet_call p -> only harmless p.
Proof. induction p as [a|h|X c k IH]; cbn [only]; [done..|]. intros [Hc Hk]. split; [by apply quiet_harmless|]. intros r. by apply IH. Qed.

Lemma dead_failing p : dead p -> failing p.
Proof.
  intros H. split.
  - apply only_quiet. induction p as [a|h|X c k IH]; [done..|]. destruct H as [Hc Hk]. split; [done|]. intros r. by apply IH.
  - induction p as [a|h|X c k IH]; [done..|]. destruct H as [Hc Hk]. intros r. by apply IH.
Qed.

Lemma errExit_failing e msg : failing (errExit e msg).
Proof. apply dead_failing, dead_errExit. Qed.

Lemma turns_sits j : ending calls tail -> (j <= n)%nat -> exists ph, (ph = PWait \/ ph = PEnd) /\ sits ph j (turns label own other tail (n - j) j).
Proof.
  intros Ht Hj. destruct (decide (j = n)) as [->|Hne].
  - exists PEnd. split; [auto|]. rewrite Nat.sub_diag. done.
  - exists PWait. split; [auto|]. split; [lia|done].
Qed.

Lemma rest_step (C : forall X, call X -> Prop) P s p t s' p' t' out :
  (forall X c, C X c -> mild X c) -> only C p -> ends_with P p -> pstep s (p, t) s' (p', t') out ->
  (only C p' /\ ends_with P p') /\ t' = t /\ out = [] /\ objs s' = objs s /\
  (forall k o, names s' !! k = Some o -> names s !! k = Some o) /\ ((forall X c, C X c -> harmless X c) -> names s' = names s).
Proof.
  intros HC Ho Hw Hp. unfold pstep in Hp. cbn [fst snd] in Hp. destruct p as [| |X c k]; try done. destruct Hp as (r & _ & -> & [= -> ->] & ->).
  cbn [only] in Ho. destruct Ho as [Hc Hk]. destruct (HC _ _ Hc) as [Hsh He]. destruct (He r s t) as (H1 & H2 & H3). split_and!; try done.
  intros HH. by apply (HH _ _ Hc).
Qed.

(** Every step of a process in its loop is one of the moves. *)
Lemma loop_step s t oo ot v w ph j p s' p' t' out :
  (forall X c, calls X c -> mild X c) -> ending calls tail -> sits ph j p -> ptrs t !! own = Some oo -> ptrs t !! other = Some ot -> oo <> ot -> sems_at s oo ot v w ->
  pstep s (p, t) s' (p', t') out ->
  t' = t /\ exists ph' j' v' w', sits ph' j' p' /\ move v w ph j v' w' ph' j' out /\ sems_at s' oo ot v' w' /\ names_kept s s' ph'.
Proof.
  intros HC Ht Hsits Hoo Hot Hne [Hv Hw] Hp.
  assert (at_ptr (s, t) own = Some (oo, OSem v)) as Hown by (unfold at_ptr; cbn; rewrite Hoo; cbn; by rewrite Hv).
  assert (at_ptr (s, t) other = Some (ot, OSem w)) as Hother by (unfold at_ptr; cbn; rewrite Hot; cbn; by rewrite Hw).
  assert (sems_at s oo ot v w) as Hsem by done. assert (forall ph, names_kept s s ph) as Hsame by done.
  destruct ph; cbn [sits] in Hsits.
  - destruct Hsits as [Hj ->]. cbn [prog_at] in Hp. replace (n - j)%nat with (S (n - S j)) in Hp by lia.
    destruct Hp as ([u|e] & Hl & -> & [= -> ->] & ->).
    + destruct (Hl _ _ Hown) as (v' & [= <-] & Hpos). cbn [snd effect on_ok]. rewrite Hown. split; [done|]. exists PPrint, j, (v - 1), w.
      split_and!; [by split|by apply MWait| |done]. split; cbn; [by rewrite lookup_insert_eq|by rewrite lookup_insert_ne].
    + split; [done|]. exists PFail, j, v, w. split_and!; [apply errExit_failing|by apply (MFail _ _ PWait)|done..].
  - destruct Hsits as [Hj ->]. destruct Hp as ([] & _ & -> & [= -> ->] & ->). split; [done|]. exists PDelay, j, v, w. split_and!; try done. apply MPrint.
  - destruct Hsits as [Hj ->]. destruct Hp as ([] & _ & -> & [= -> ->] & ->). split; [done|]. exists PPost, j, v, w. split_and!; try done. apply MDelay.
  - destruct Hsits as [Hj ->]. destruct Hp as ([u|e] & Hl & -> & [= -> ->] & ->).
    + destruct (turns_sits (S j) Ht Hj) as (ph & Hph & Hs'). cbn [snd effect on_ok]. rewrite Hother. split; [done|]. exists ph, (S j), v, (w + 1).
      split_and!; [done|by apply MPost| |done]. split; cbn; [by rewrite lookup_insert_ne|by rewrite lookup_insert_eq].
    + split; [done|]. exists PFail, (S j), v, w. split_and!; [apply errExit_failing|by apply (MFail _ _ PPost)|done..].
  - destruct Hsits as [Hj [Ho He]]. destruct (rest_step _ _ _ _ _ _ _ _ _ HC Ho He Hp) as (Hend & -> & -> & Hobj & Hn & Hh).
    split; [done|]. exists PEnd, j, v, w. unfold sems_at. rewrite Hobj. split_and!; try done; [apply MRest; auto|].
    split; [done|]. intros [?|HH]; [done|by apply Hh].
  - destruct Hsits as [Ho He]. destruct (rest_step harmless _ _ _ _ _ _ _ _ harmless_mild Ho He Hp) as (Hend & -> & -> & Hobj & Hn & Hh).
    split; [done|]. exists PFail, j, v, w. unfold sems_at. rewrite Hobj. split_and!; try done; [apply MRest; auto|]. split; [done|]. intros _. by apply Hh.
Qed.
End Loop.

(** ** The token *)

(** The lines in their order: first the second process, then the first one. *)
Definition alternate (k : nat) : list ascii := if Nat.even k then line ($"bbbb ") (Nat.div2 k) else line ($"aaaa ") (Nat.div2 k).

(** One semaphore is available or one process has its turn, unless a process that
    had its turn failed; the lines are printed alternately. *)
Record token (phA : phase) (jA : nat) (phB : phase) (jB : nat) (vi vs : Z) (out : list (list ascii)) : Prop := {
  t_nonneg : 0 <= vi /\ 0 <= vs;
  t_once : vi + vs + turn phA + turn phB <= 1;
  t_full : phA <> PFail -> phB <> PFail -> vi + vs + turn phA + turn phB = 1;
  t_counts : (printed phA jA <= printed phB jB <= S (printed phA jA))%nat;
  t_second : 0 < vs -> printed phB jB = printed phA jA;
  t_init : 0 < vi -> printed phB jB = S (printed phA jA);
  t_turnA : match phA with PPrint => printed phB jB = S (printed phA jA) | PDelay | PPost => printed phB jB = printed phA jA | _ => True end;
  t_turnB : match phB with PPrint => printed phB jB = printed phA jA | PDelay | PPost => printed phB jB = S (printed phA jA) | _ => True end;
  t_out : out = map alternate (seq 0 (printed phA jA + printed phB jB))
}.

Lemma turn_range ph : 0 <= turn ph <= 1.
Proof. destruct ph; cbn; lia. Qed.

Lemma alternate_even j : alternate (j + j) = line ($"bbbb ") j.
Proof. unfold alternate. replace (j + j)%nat with (2 * j)%nat by lia. by rewrite Nat.even_mul, Nat.div2_double. Qed.

Lemma alternate_odd j : alternate (j + S j) = line ($"aaaa ") j.
Proof.
  unfold alternate. replace (j + S j)%nat with (S (2 * j)) by lia. rewrite Nat.even_succ, <- Nat.negb_even, Nat.even_mul, Nat.div2_succ_double. done.
Qed.

Lemma alternate_snoc k : map alternate (seq 0 (S k)) = map alternate (seq 0 k) ++ [alternate k].
Proof. by rewrite seq_S, map_app. Qed.

(** The goals that are arithmetic, once the other process is at a known phase. *)
Ltac token_tac phase Hf :=
  destruct phase; cbn [turn printed] in *; try specialize (Hf ltac:(done) ltac:(done)); split; cbn [turn printed] in *;
  rewrite ?app_nil_r; try done; try lia.

Lemma token_A phA jA phB jB vi vs out vi' vs' phA' jA' o :
  token phA jA phB jB vi vs out -> move ($"aaaa ") vi vs phA jA vi' vs' phA' jA' o -> token phA' jA' phB jB vi' vs' (out ++ o).
Proof.
  intros [H0 H1 Hf H2 H3 H4 H5 H6 H7] Hm. rewrite H7. clear H7.
  destruct Hm as [j Hpos|j|j|j ph' Hph|ph j Hne|ph j Hph]; cbn [turn printed] in *.
  - token_tac phB Hf.
  - assert (map alternate (seq 0 (j + printed phB jB)) ++ [line ($"aaaa ") j] = map alternate (seq 0 (S j + printed phB jB))) as Hout.
    { rewrite H5. change (S j + S j)%nat with (S (j + S j)). by rewrite alternate_snoc, alternate_odd. }
    rewrite Hout. token_tac phB Hf.
  - token_tac phB Hf.
  - destruct Hph as [->| ->]; token_tac phB Hf.
  - destruct ph; cbn [turn printed] in *; try done; token_tac phB Hf.
  - destruct Hph as [->| ->]; token_tac phB Hf.
Qed.

Lemma token_B phA jA phB jB vi vs out vi' vs' phB' jB' o :
  token phA jA phB jB vi vs out -> move ($"bbbb ") vs vi phB jB vs' vi' phB' jB' o -> token phA jA phB' jB' vi' vs' (out ++ o).
Proof.
  intros [H0 H1 Hf H2 H3 H4 H5 H6 H7] Hm. rewrite H7. clear H7.
  destruct Hm as [j Hpos|j|j|j ph' Hph|ph j Hne|ph j Hph]; cbn [turn printed] in *.
  - token_tac phA Hf.
  - assert (map alternate (seq 0 (printed phA jA + j)) ++ [line ($"bbbb ") j] = map alternate (seq 0 (printed phA jA + S j))) as Hout.
    { rewrite <- H6, <- plus_n_Sm. by rewrite alternate_snoc, alternate_even. }
    rewrite Hout. token_tac phA Hf.
  - token_tac phA Hf.
  - destruct Hph as [->| ->]; token_tac phA Hf.
  - destruct ph; cbn [turn printed] in *; try done; token_tac phA Hf.
  - destruct Hph as [->| ->]; token_tac phA Hf.
Qed.

(** ** The set-up of the first process *)

Definition setup_env (s0 : posix_ipc) : env := fun h X c r => legal (after s0 h) c r.

(** The semaphores have been created and have their names. *)
Definition made (s0 : posix_ipc) (a1 a2 : list ascii) (st : posix_ipc * table) (sems : Z * Z) : Prop :=
  exists oi os, oi <> os /\ sems_at (fst st) oi os 0 1 /\ ptrs (snd st) !! fst sems = Some oi /\ ptrs (snd st) !! snd sems = Some os /\
    names (fst st) !! (NSem, a1) = Some oi /\ names (fst st) !! (NSem, a2) = Some os.

Lemma sem_open_new name v p s t :
  legal (s, t) (Sem_open name (Z.lor O_CREAT O_EXCL) (Some (USER_RW, v))) (Ok p) ->
  exists o, names s !! (NSem, name) = None /\ objs s !! o = None /\ (ptrs t !! p = None \/ ptrs t !! p = Some o) /\
    effect (Sem_open name (Z.lor O_CREAT O_EXCL) (Some (USER_RW, v))) (Ok p) (s, t) =
      (Ipc (<[(NSem, name) := o]> (names s)) (<[o := OSem v]> (objs s)), Table (fds t) (<[p := o]> (ptrs t))).
Proof.
  intros (Hm & _ & Hp). cbn [fst snd] in *. unfold may_open in Hm. cbn [effect new_sem fst snd] in *.
  pose proof (open_obj_spec NSem name (OSem v) s) as Hspec. destruct (names s !! (NSem, name)) as [o|] eqn:Hn; [done|].
  unfold fits_ptr in Hp. change (new_sem (Some (USER_RW, v))) with (OSem v) in *. destruct (open_obj NSem name (OSem v) s) as [o s'] eqn:Ho.
  destruct Hspec as [Hfr ->]. cbn [fst snd] in Hp. by exists o.
Qed.

Lemma initSetup_makes s0 argv :
  wp (setup_env s0) (initSetup argv) (fun o h => match o with Done sems => made s0 (argv_nth argv 1) (argv_nth argv 2) (after s0 h) sems | Stop x => failure x end) [].
Proof.
  unfold initSetup. destruct (lockstep_usage argv); [apply wp_usageErr; intros o h' Ho; destruct Ho as [->|[->| ->]]; unfold failure; auto|].
  assert (forall A e msg h (Q : A -> history -> Prop), wp (setup_env s0) (errExit e msg) (fun o h => match o with Done a => Q a h | Stop x => failure x end) h) as Hfail.
  { intros. apply wp_errExit. intros o h' Ho. destruct Ho as [->|[->| ->]]; unfold failure; auto. }
  intros r1 _ r2 _. set (h := Ev _ r2 :: _). clearbody h. unfold openSem.
  intros [p1|e] H1; [|apply wp_bind, (Hfail Z e)]. intros [p2|e] H2; [|apply wp_bind, (Hfail Z e)].
  change (made s0 (argv_nth argv 1) (argv_nth argv 2) (effect (Sem_open (argv_nth argv 2) (Z.lor O_CREAT O_EXCL) (Some (USER_RW, 1))) (Ok p2)
    (effect (Sem_open (argv_nth argv 1) (Z.lor O_CREAT O_EXCL) (Some (USER_RW, 0))) (Ok p1) (after s0 h))) (p1, p2)).
  unfold setup_env in *. cbn [after] in *. destruct (after s0 h) as [s t]. destruct (sem_open_new _ _ _ _ _ H1) as (o1 & Hn1 & Ho1 & _ & He1).
  rewrite He1 in *. destruct (sem_open_new _ _ _ _ _ H2) as (o2 & Hn2 & Ho2 & Hp2 & He2). rewrite He2. cbn [names objs ptrs] in *.
  apply lookup_insert_None in Hn2 as [_ Hne]. apply lookup_insert_None in Ho2 as [_ Hoo].
  assert (p1 <> p2) as Hpp by (intros ->; rewrite lookup_insert_eq in Hp2; destruct Hp2 as [?|[= ->]]; done).
  assert (o1 <> o2) by congruence. exists o1, o2. unfold sems_at. cbn [fst snd names objs ptrs].
  split_and!; [done|..]; rewrite ?lookup_insert_eq; try done; (rewrite lookup_insert_ne by congruence; by rewrite lookup_insert_eq).
Qed.

Definition says_nothing X (c : call X) : Prop := shown_by c = [].

Lemma initSetup_quiet argv : only says_nothing (initSetup argv).
Proof.
  unfold initSetup. destruct (lockstep_usage argv); [by repeat (split; [done|intros []])|].
  assert (forall A e msg, only says_nothing (errExit (A := A) e msg)) as Hf.
  { intros. apply only_bind; [by repeat (split; [done|intros []])|]. intros _. split; [done|]. by intros [[|]|]. }
  assert (forall name flags create msg, only says_nothing (openSem name flags create msg)) as Ho.
  { intros. split; [done|]. by intros [p|e]; [|apply (Hf Z)]. }
  do 2 (apply only_bind; [by split|intros _]). do 2 (apply only_bind; [apply Ho|intros ?]). done.
Qed.

(** ** The invariant of the two processes *)

Section System.
Context (argvA argvB : list (list ascii)) (s0 : posix_ipc).
Context (Hname1 : argv_nth argvB 1 = argv_nth argvA 1) (Hname2 : argv_nth argvB 2 = argv_nth argvA 2).

(** The calls that the processes make after their loops. *)
Definition unlinking X (c : call X) : Prop := match c with Sem_unlink _ => True | _ => False end.
Definition no_call X (c : call X) : Prop := False.

Abbreviation initName := (argv_nth argvA 1) (only parsing).
Abbreviation secondName := (argv_nth argvA 2) (only parsing).
Abbreviation sitsA p1 p2 := (sits ($"aaaa ") p1 p2 (initTail argvA) (nloops argvA) unlinking).
Abbreviation sitsB q1 q2 := (sits ($"bbbb ") q2 q1 (Halt (Exit EXIT_SUCCESS)) (nloops argvB) no_call).

(** The second process: not started, before its calls of sem_open(), in its loop, or
    failed. *)
Inductive sits_second (oi os : nat) : option (prog unit * table) -> phase -> nat -> Prop :=
| BNone : sits_second oi os None PWait 0
| BStart : lockstep_usage argvB = false -> sits_second oi os (Some (lockstep_second_main argvB, no_table)) PWait 0
| BOpened q1 :
    sits_second oi os (Some (sems <- (secondSem <- openSem secondName 0 None ($"sem_open-secondSem") ;; Ret (q1, secondSem)) ;; secondLoop argvB sems, Table ∅ (<[q1 := oi]> ∅))) PWait 0
| BLoop q1 q2 p t ph j :
    ptrs t !! q1 = Some oi -> ptrs t !! q2 = Some os -> sitsB q1 q2 ph j p -> sits_second oi os (Some (p, t)) ph j
| BFailed p t : failing p -> sits_second oi os (Some (p, t)) PFail 0.

Definition named_sems (s : posix_ipc) (oi os : nat) (ph : phase) : Prop :=
  (forall o, names s !! (NSem, initName) = Some o -> o = oi) /\ (forall o, names s !! (NSem, secondName) = Some o -> o = os) /\
  (ph <> PEnd -> names s !! (NSem, initName) = Some oi /\ names s !! (NSem, secondName) = Some os).

Inductive linv : lsys -> Prop :=
| LSetup p h :
    only says_nothing p ->
    wp (setup_env s0) p (fun o h => match o with Done sems => made s0 initName secondName (after s0 h) sems | Stop x => failure x end) h ->
    linv (Lsys (fst (after s0 h)) [] (inl p, snd (after s0 h)) None)
| LRun s out p1 p2 p t b oi os vi vs phA jA phB jB :
    oi <> os -> sems_at s oi os vi vs -> named_sems s oi os phA ->
    ptrs t !! p1 = Some oi -> ptrs t !! p2 = Some os -> sitsA p1 p2 phA jA p -> sits_second oi os b phB jB ->
    token phA jA phB jB vi vs out -> linv (Lsys s out (inr p, t) b).

Lemma unlink_mild name : mild _ (Sem_unlink name).
Proof. split; [done|]. intros [|] s t; [|done]. split_and!; [done..|]. cbn. by intros k o [_ H]%lookup_delete_Some. Qed.

Lemma unlinking_mild X c : unlinking X c -> mild X c.
Proof. destruct c; try done. intros _. apply unlink_mild. Qed.

Lemma initTail_ending : ending unlinking (initTail argvA).
Proof. split; [|by intros r1 r2]. do 2 (apply only_bind; [by split|intros _]). done. Qed.

Lemma second_ending : ending no_call (Halt (Exit EXIT_SUCCESS)).
Proof. done. Qed.

Lemma linv_start : linv (lstart argvA s0).
Proof. apply (LSetup _ []); [apply initSetup_quiet|apply initSetup_makes]. Qed.

Lemma linv_enter s out sems t : linv (Lsys s out (inl (Ret sems), t) None) -> linv (Lsys s out (inr (initLoop argvA sems), t) None).
Proof.
  intros H. inversion H as [p h Ho Hw|]; subst. destruct Hw as (oi & os & Hne & Hsem & Hp1 & Hp2 & Hn1 & Hn2).
  destruct (turns_sits ($"aaaa ") (fst sems) (snd sems) (initTail argvA) (nloops argvA) unlinking 0 initTail_ending) as (ph & Hph & Hsits); [lia|]. rewrite Nat.sub_0_r in Hsits.
  eapply (LRun _ _ (fst sems) (snd sems) _ _ None oi os 0 1 ph 0 PWait 0); try done.
  - split_and!; [congruence..|done].
  - constructor.
  - destruct Hph as [->| ->]; split; cbn; try done; try lia.
Qed.

Lemma linv_setup s out p t s' p' t' o :
  linv (Lsys s out (inl p, t) None) -> pstep s (p, t) s' (p', t') o -> linv (Lsys s' (out ++ o) (inl p', t') None).
Proof.
  intros H Hp. inversion H as [q h Ho Hw|]; subst. unfold pstep in Hp. cbn [fst snd] in Hp. destruct p as [| |X c k]; try done.
  rewrite <- surjective_pairing in Hp. destruct Hp as (r & Hl & -> & [= -> ->] & ->). destruct Ho as [Hc Hk]. rewrite Hc.
  apply (LSetup (k r) (Ev c r :: h)); [done|]. exact (Hw r Hl).
Qed.

Lemma named_sems_kept C s s' oi os ph ph' :
  named_sems s oi os ph -> names_kept C s s' ph' -> (ph = PEnd -> ph' = PEnd) -> named_sems s' oi os ph'.
Proof.
  intros (H1 & H2 & H3) [Hm Hs] He. split_and!; [intros o Ho; apply H1, Hm, Ho|intros o Ho; apply H2, Hm, Ho|].
  intros Hne. rewrite Hs by (by left). apply H3. intros ->. by apply Hne, He.
Qed.

Lemma move_keeps label v w ph j v' w' ph' j' o :
  move label v w ph j v' w' ph' j' o -> ph = PEnd -> ph' = PEnd.
Proof. destruct 1; intros; subst; done. Qed.

Lemma linv_A s out p t b s' p' t' o :
  linv (Lsys s out (inr p, t) b) -> pstep s (p, t) s' (p', t') o -> linv (Lsys s' (out ++ o) (inr p', t') b).
Proof.
  intros H Hp. inversion H as [|? ? p1 p2 ? ? ? oi os vi vs phA jA phB jB Hne Hsem Hn Hp1 Hp2 HsA HsB Htok]; subst.
  destruct (loop_step _ _ _ _ _ _ _ _ _ _ _ _ _ _ _ _ _ _ _ unlinking_mild initTail_ending HsA Hp1 Hp2 Hne Hsem Hp) as (-> & ph & j & v & w & Hs' & Hm & Hsem' & Hk).
  pose proof (move_keeps _ _ _ _ _ _ _ _ _ _ Hm) as He.
  eapply (LRun _ _ p1 p2 _ _ b oi os v w ph j phB jB); try done; [by eapply named_sems_kept|by eapply token_A].
Qed.

Lemma sem_open_old name q s t :
  legal (s, t) (Sem_open name 0 None) (Ok q) -> exists o, names s !! (NSem, name) = Some o /\ (ptrs t !! q = None \/ ptrs t !! q = Some o) /\
    effect (Sem_open name 0 None) (Ok q) (s, t) = (s, Table (fds t) (<[q := o]> (ptrs t))).
Proof.
  intros (Hm & _ & Hp). unfold may_open, fits_ptr, open_obj in *. cbn [fst snd effect] in *. destruct (names s !! (NSem, name)) as [o|] eqn:Hn; [|done].
  exists o. split_and!; [done..|]. unfold open_obj. by rewrite Hn.
Qed.

Lemma token_fails phA jA vi vs out : token phA jA PWait 0 vi vs out -> token phA jA PFail 0 vi vs out.
Proof. intros Ht. rewrite <- (app_nil_r out). eapply token_B; [exact Ht|]. by apply (MFail _ _ _ PWait 0). Qed.

Lemma token_enters phA jA ph vi vs out : ph = PWait \/ ph = PEnd -> token phA jA PWait 0 vi vs out -> token phA jA ph 0 vi vs out.
Proof. intros [->| ->] [H0 H1 Hf H2 H3 H4 H5 H6 H7]; split; try done. intros ? _. by apply Hf. Qed.

Abbreviation second_opens q1 :=
  (sems <- (secondSem <- openSem secondName 0 None ($"sem_open-secondSem") ;; Ret (q1, secondSem)) ;; secondLoop argvB sems).

(** The steps of the second process before its loop. *)
Lemma second_setup_step oi os s b ph j p t s' p' t' o phA :
  sits_second oi os b ph j -> b = Some (p, t) -> oi <> os -> named_sems s oi os phA -> pstep s (p, t) s' (p', t') o ->
  (exists q1 q2, ptrs t !! q1 = Some oi /\ ptrs t !! q2 = Some os /\ sitsB q1 q2 ph j p) \/
  (s' = s \/ objs s' = objs s /\ names s' = names s) /\ o = [] /\ ((ph = PWait \/ ph = PFail) /\ j = 0%nat) /\
  exists ph', sits_second oi os (Some (p', t')) ph' 0 /\ (ph' = PFail \/ ph = PWait /\ (ph' = PWait \/ ph' = PEnd)).
Proof.
  intros Hb Heq Hne (Hn1 & Hn2 & _) Hp. destruct Hb as [|Hu|q1|q1 q2 p0 t0 ph j Hq1 Hq2 Hs|p0 t0 Hf]; [done|..]; injection Heq as <- <-.
  - right. unfold pstep, lockstep_second_main, secondSetup in Hp. rewrite Hu in Hp. destruct Hp as ([q1|e] & Hl & -> & [-> ->]%pair_eq & ->).
    + cbn [snd] in *. destruct (sem_open_old _ _ _ _ Hl) as (o & Hno & _ & ->). rewrite Hname1 in Hno. apply Hn1 in Hno as ->.
      split_and!; auto. exists PWait. split; [|auto]. rewrite Hname2. apply BOpened.
    + split_and!; auto. exists PFail. split; [|auto]. apply BFailed, dead_failing, dead_bind, dead_bind, dead_errExit.
  - right. destruct Hp as ([q2|e] & Hl & -> & [-> ->]%pair_eq & ->).
    + cbn [snd] in *. destruct (sem_open_old _ _ _ _ Hl) as (o & Hno & Hfit & ->). apply Hn2 in Hno as ->. cbn [ptrs fds] in *.
      assert (q1 <> q2) as Hq by (intros ->; rewrite lookup_insert_eq in Hfit; destruct Hfit as [?|[= ?]]; done).
      split_and!; auto. destruct (turns_sits ($"bbbb ") q2 q1 (Halt (Exit EXIT_SUCCESS)) (nloops argvB) no_call 0 second_ending) as (ph & Hph & Hs); [lia|].
      rewrite Nat.sub_0_r in Hs. exists ph. split; [|destruct Hph; auto]. apply (BLoop _ _ q1 q2); [cbn; rewrite lookup_insert_ne by done; by rewrite lookup_insert_eq|cbn; by rewrite lookup_insert_eq|done].
    + split_and!; auto. exists PFail. split; [|auto]. apply BFailed, dead_failing, dead_bind, dead_bind, dead_errExit.
  - left. by exists q1, q2.
  - right. destruct Hf as [Ho He]. destruct (rest_step harmless _ _ _ _ _ _ _ _ harmless_mild Ho He Hp) as (Hend & -> & -> & Hobj & Hn & Hh).
    split_and!; auto. exists PFail. split; [by apply BFailed|auto].
Qed.

Lemma linv_B s out a p t s' p' t' o :
  linv (Lsys s out a (Some (p, t))) -> pstep s (p, t) s' (p', t') o -> linv (Lsys s' (out ++ o) a (Some (p', t'))).
Proof.
  intros H Hp. inversion H as [|? ? p1 p2 pA tA ? oi os vi vs phA jA phB jB Hne Hsem Hn Hp1 Hp2 HsA HsB Htok]; subst.
  destruct (second_setup_step _ _ _ _ _ _ _ _ _ _ _ _ _ HsB eq_refl Hne Hn Hp) as [(q1 & q2 & Hq1 & Hq2 & Hs)|(Hobj & -> & (Hph & ->) & ph & Hb & Hph')].
  - assert (sems_at s os oi vs vi) as Hsem' by (split; apply Hsem).
    destruct (loop_step _ _ _ _ _ _ _ _ _ _ _ _ _ _ _ _ _ _ _ (fun X c (H : no_call X c) => False_ind _ H) second_ending Hs Hq2 Hq1 (not_eq_sym Hne) Hsem' Hp) as (-> & ph & j & v & w & Hs' & Hm & Hsem2 & Hk).
    eapply (LRun _ _ p1 p2 _ _ _ oi os w v phA jA ph j); try done; [split; apply Hsem2| |by apply (BLoop _ _ q1 q2)|by eapply token_B].
    destruct Hk as [Hk1 Hk2]. destruct Hn as (Hn1 & Hn2 & Hn3). rewrite <- Hk2 in * by (right; by intros). done.
  - assert (objs s' = objs s /\ names s' = names s) as [Ho Hnm] by (destruct Hobj as [->|?]; done).
    rewrite app_nil_r. eapply (LRun _ _ p1 p2 _ _ _ oi os vi vs phA jA ph 0); try done; [by unfold sems_at; rewrite Ho|by unfold named_sems; rewrite Hnm|].
    destruct Hph' as [->|[-> Hph']]; [|by apply token_enters]. destruct Hph as [->| ->]; [by apply token_fails|done].
Qed.

Lemma linv_step st st' : linv st -> lstep argvA argvB st st' -> linv st'.
Proof.
  intros H Hs. destruct Hs as [s out p t s' p' t' o Hp|s out sems t|s out p t b s' p' t' o Hp|s out a p t s' p' t' o Hp|s out p t].
  - by eapply linv_setup. - by apply linv_enter. - by eapply linv_A. - by eapply linv_B.
  - inversion H as [|? ? p1 p2 pA tA ? oi os vi vs phA jA phB jB Hne Hsem Hn Hp1 Hp2 HsA HsB Htok]; subst. inversion HsB; subst.
    destruct (lockstep_usage argvB) eqn:Hu.
    + eapply (LRun _ _ p1 p2 _ _ _ oi os vi vs phA jA PFail 0); try done; [|by apply token_fails].
      apply BFailed, dead_failing. unfold lockstep_second_main, secondSetup. rewrite Hu. apply dead_bind, dead_usageErr.
    + eapply (LRun _ _ p1 p2 _ _ _ oi os vi vs phA jA PWait 0); try done. by apply BStart.
Qed.

Lemma linv_reach st : rtc (lstep argvA argvB) (lstart argvA s0) st -> linv st.
Proof. intros H. refine (rtc_ind_r (fun st => linv st) _ _ _ st H); [apply linv_start|]. intros st1 st2 _ Hs IH. by eapply linv_step. Qed.

(** ** What follows *)

Lemma linv_tty st : linv st -> exists k, tty st = map alternate (seq 0 k).
Proof. intros [p h _ _|s out p1 p2 p t b oi os vi vs phA jA phB jB _ _ _ _ _ _ _ Ht]; cbn; [by exists 0%nat|]. eexists. apply (t_out _ _ _ _ _ _ _ Ht). Qed.

Lemma halted_end label own other tail n C ph j : sits label own other tail n C ph j (Halt (Exit EXIT_SUCCESS)) -> ph = PEnd /\ j = n.
Proof.
  destruct ph; cbn [sits]; intros H; try (destruct H as [Hj Hp]); try done.
  - cbn [prog_at] in Hp. by replace (n - j)%nat with (S (n - S j)) in Hp by lia.
  - by destruct Hp as [?|[?|?]].
Qed.

Lemma linv_finished st t b tb :
  linv st -> procA st = (inr (Halt (Exit EXIT_SUCCESS)), t) -> procB st = b -> b = Some (Halt (Exit EXIT_SUCCESS), tb) ->
  tty st = map alternate (seq 0 (nloops argvA + nloops argvB)) /\ (nloops argvA <= nloops argvB <= S (nloops argvA))%nat.
Proof.
  intros [p h _ _|s out p1 p2 p t' b' oi os vi vs phA jA phB jB _ _ _ _ _ HsA HsB Ht]; cbn; intros [= -> ->]; intros -> ->.
  apply halted_end in HsA as [-> ->]. assert (phB = PEnd /\ jB = nloops argvB) as [-> ->].
  { inversion HsB as [|Hu Heq|q1 Heq|q1 q2 ? ? ? ? Hq1 Hq2 Hs|? ? Hf]; subst.
    - unfold lockstep_second_main, secondSetup in Heq. rewrite Hu in Heq. done.
    - by eapply halted_end.
    - destruct Hf as [_ Hf]. by destruct Hf as [?|[?|?]]. }
  split; [apply (t_out _ _ _ _ _ _ _ Ht)|]. apply (t_counts _ _ _ _ _ _ _ Ht).
Qed.

(** ** Progress *)

(** A process that can still succeed. *)
Definition alive (p : prog unit) : Prop := ~ ends_with failure p.

Lemma not_failure : ~ failure (Exit EXIT_SUCCESS).
Proof. by intros [?|[?|?]]. Qed.

Lemma ending_alive C p : ending C p -> alive p.
Proof.
  intros [_ He] Hf. induction p as [a|h|X c k IH]; [done|cbn in *; subst; by apply not_failure|].
  apply (IH (failing_kernel [] X c)); [apply He|apply Hf].
Qed.

Lemma turns_alive label own other tail n j : alive tail -> alive (turns label own other tail n j).
Proof. intros Ht. revert j. induction n as [|n IH]; intros j; [done|]. intros Hf. exact (IH (S j) (Hf (Ok tt) tt tt (Ok tt))). Qed.

Lemma sits_alive label own other tail n C ph j p : ending C tail -> sits label own other tail n C ph j p -> ph <> PFail -> alive p.
Proof.
  intros Ht%ending_alive Hs Hph. assert (forall j, alive (turns label own other tail (n - S j) (S j))) as Hn by (intros; by apply turns_alive).
  destruct ph; cbn [sits] in Hs; try done.
  - destruct Hs as [_ ->]. by apply turns_alive.
  - destruct Hs as [_ ->]. intros Hf. exact (Hn j (Hf tt tt (Ok tt))).
  - destruct Hs as [_ ->]. intros Hf. exact (Hn j (Hf tt (Ok tt))).
  - destruct Hs as [_ ->]. intros Hf. exact (Hn j (Hf (Ok tt))).
  - destruct Hs as [_ Hs]. by eapply ending_alive.
Qed.

Definition can_go (s : posix_ipc) (p : prog unit) (t : table) : Prop := exists s' p' t' o, pstep s (p, t) s' (p', t') o /\ alive p'.

(** Where a process in its loop does not block. *)
Lemma loop_can label own other tail n C s t oo ot v w ph j p :
  ending C tail -> sits label own other tail n C ph j p -> ptrs t !! own = Some oo -> ptrs t !! other = Some ot -> sems_at s oo ot v w -> w <= 1 ->
  turn ph = 1 \/ ph = PWait /\ 0 < v -> can_go s p t.
Proof.
  intros Ht Hs Hoo Hot [Hv Hw] Hle Hph.
  assert (forall f p o x, ptrs t !! p = Some o -> objs s !! o = Some (OSem x) -> (f = SemPost -> x <= 1) -> (f <> SemPost -> 0 < x) ->
    legal (s, t) (Sem_call f p) (Ok tt)) as Hleg.
  { intros f q o x Hq Hx H1 H2. assert (forall o' y, at_ptr (s, t) q = Some (o', y) -> y = OSem x) as Hy.
    { intros o' y [Ho' Hy]%at_ptr_obj. cbn in *. congruence. }
    destruct f; cbn; intros o' y ->%Hy; exists x; (split; [done|]); [by apply H2..|]. specialize (H1 eq_refl). unfold SEM_VALUE_MAX, INT_MAX. lia. }
  assert (forall j, alive (turns label own other tail (n - S j) (S j))) as Hal by (intros; apply turns_alive; by eapply ending_alive).
  destruct ph; cbn [sits turn] in *; try (destruct Hph as [?|[? ?]]; done).
  - destruct Hs as [Hj ->]. cbn [prog_at]. replace (n - j)%nat with (S (n - S j)) by lia. destruct Hph as [?|[_ Hpos]]; [done|].
    eexists _, _, _, _. split; [exists (Ok tt); split; [by eapply Hleg|by split_and!]|]. intros Hf. exact (Hal j (Hf tt tt (Ok tt))).
  - destruct Hs as [Hj ->]. eexists _, _, _, _. split; [exists tt; by split_and!|]. intros Hf. exact (Hal j (Hf tt (Ok tt))).
  - destruct Hs as [Hj ->]. eexists _, _, _, _. split; [exists tt; by split_and!|]. intros Hf. exact (Hal j (Hf (Ok tt))).
  - destruct Hs as [Hj ->]. eexists _, _, _, _. split; [exists (Ok tt); split; [by eapply Hleg|by split_and!]|]. apply Hal.
Qed.

Lemma open_can name o s t q :
  names s !! (NSem, name) = Some o -> ptrs t !! q = None -> legal (s, t) (Sem_open name 0 None) (Ok q).
Proof.
  intros Hn Hq. cbn. unfold may_open, fits_ptr, open_obj. rewrite Hn. split_and!; [done..|by left].
Qed.

Lemma unlinking_can s p t : ending unlinking p -> p = Halt (Exit EXIT_SUCCESS) \/ can_go s p t.
Proof.
  intros [Ho He]. destruct p as [a|h|X c k]; [done|left; by cbn in He; subst|right]. cbn [only ends_with] in *. destruct Ho as [Hc Hk]. destruct c; try done.
  eexists _, _, _, _. split; [exists (Err ENOENT); by split_and!|]. eapply ending_alive. by split.
Qed.

(** The second process blocks only where the first can go on. *)
Lemma second_can s oi os b q tb vi vs phA jA phB jB out :
  sits_second oi os b phB jB -> b = Some (q, tb) -> sems_at s oi os vi vs -> named_sems s oi os phA -> token phA jA phB jB vi vs out ->
  phA = PWait /\ (jA < nloops argvA)%nat /\ vi = 0 \/ phA = PEnd /\ jA = nloops argvA ->
  nloops argvA = nloops argvB -> (0 < nloops argvA)%nat -> phB <> PFail ->
  can_go s q tb \/ phA = PEnd /\ q = Halt (Exit EXIT_SUCCESS).
Proof.
  intros Hb Heq Hsem (_ & _ & Hn) [Hnn _ Hf Hc Hs2 Hi _ _ _] HA Hnl Hpos Hne.
  assert (phA <> PFail) as HnA by (destruct HA as [[-> _]|[-> _]]; done). specialize (Hf HnA Hne).
  assert (turn phA = 0) as HtA by (destruct HA as [[-> _]|[-> _]]; done).
  assert (printed phA jA = jA) as HpA by (destruct HA as [[-> _]|[-> _]]; done). rewrite HpA in *.
  assert (printed phB jB = 0%nat -> phA <> PEnd) as Hstart by (intros Hz ->; destruct HA as [[? _]|[_ ?]]; [done|lia]).
  destruct Hb as [|Hu|q1|q1 q2 p t ph j Hq1 Hq2 Hs|p t Hfail]; [done|..]; [..|done]; injection Heq as <- <-.
  - left. destruct (Hn (Hstart eq_refl)) as [H1 H2]. unfold lockstep_second_main, secondSetup. rewrite Hu.
    eexists _, _, _, _. split; [exists (Ok 0); split; [eapply open_can; [by rewrite Hname1|done]|by split_and!]|].
    intros Hd. specialize (Hd (Ok 0)). revert Hd. apply (turns_alive _ _ _ _ _ 0). intros H. by apply not_failure.
  - left. destruct (Hn (Hstart eq_refl)) as [H1 H2].
    eexists _, _, _, _. split; [exists (Ok (q1 + 1)); split; [eapply open_can; [done|cbn; by rewrite lookup_insert_ne by lia]|by split_and!]|].
    apply turns_alive. intros H. by apply not_failure.
  - assert (sems_at s os oi vs vi) as Hsem' by (split; apply Hsem).
    destruct (decide (turn ph = 1)) as [Ht|Ht]; [left; apply (loop_can _ _ _ _ _ _ _ _ _ _ _ _ _ _ _ second_ending Hs Hq2 Hq1 Hsem'); [lia|by left]|].
    destruct ph; try done; cbn [turn printed sits] in *.
    + destruct Hs as [Hj Hp]. assert (0 < vs) as Hvs.
      { destruct HA as [(-> & _ & ->)|[-> ->]]; [lia|]. destruct (decide (0 < vs)); [done|]. specialize (Hi ltac:(lia)). lia. }
      left. eapply (loop_can _ _ _ _ _ _ _ _ _ _ _ _ PWait j _ second_ending (conj Hj Hp) Hq2 Hq1 Hsem'); [lia|by right].
    + destruct Hs as [-> [Ho He]]. destruct p as [a|h|X c k]; [done| |by destruct Ho]. cbn in He. subst h.
      destruct HA as [(-> & Hj & ->)|[-> ->]]; [|by right]. specialize (Hs2 ltac:(lia)). lia.
Qed.

Lemma linv_progress st p t q tb :
  linv st -> procA st = (inr p, t) -> procB st = Some (q, tb) -> nloops argvA = nloops argvB -> (0 < nloops argvA)%nat -> alive p -> alive q ->
  p = Halt (Exit EXIT_SUCCESS) /\ q = Halt (Exit EXIT_SUCCESS) \/ can_go (shared st) p t \/ can_go (shared st) q tb.
Proof.
  intros [? h _ _|s out p1 p2 p' t' b oi os vi vs phA jA phB jB Hne Hsem Hn Hp1 Hp2 HsA HsB Ht]; cbn; intros [= -> ->] Hb Hnl Hpos Hp Hq.
  assert (phA <> PFail) as HnA by (intros ->; by apply Hp, HsA).
  assert (phB <> PFail) as HnB.
  { intros ->. subst b. inversion HsB as [| | |q1 q2 ? ? ? ? _ _ Hs|? ? Hf]; subst; [by apply Hq, Hs|by apply Hq, Hf]. }
  pose proof (t_once _ _ _ _ _ _ _ Ht) as Honce. pose proof (t_nonneg _ _ _ _ _ _ _ Ht) as Hnn. pose proof (turn_range phA). pose proof (turn_range phB).
  destruct (decide (turn phA = 1 \/ phA = PWait /\ 0 < vi)) as [Hgo|Hgo].
  { right. left. eapply (loop_can _ _ _ _ _ _ _ _ _ _ _ _ _ _ _ initTail_ending HsA Hp1 Hp2 Hsem); [lia|done]. }
  assert (phA = PWait /\ (jA < nloops argvA)%nat /\ vi = 0 \/ phA = PEnd /\ jA = nloops argvA) as HA.
  { destruct phA; cbn [sits turn] in *; try (exfalso; apply Hgo; by left); try done; [left|right; by destruct HsA]. destruct HsA. split_and!; try done.
    destruct (decide (0 < vi)); [|lia]. exfalso. apply Hgo. by right. }
  destruct (second_can _ _ _ _ _ _ _ _ _ _ _ _ _ HsB Hb Hsem Hn Ht HA Hnl Hpos HnB) as [Hcan|[-> ->]]; [by right; right|].
  destruct HsA as [_ HsA]. destruct (unlinking_can s p t HsA) as [->|Hc]; [by left|right; by left].
Qed.

(** ** Every run ends *)

Definition later (st' st : lsys) : Prop := lstep argvA argvB st st'.

Lemma acc_both p q : forall s out t tb, Acc later (Lsys s out (inr p, t) (Some (q, tb))).
Proof.
  revert q. induction p as [a|h|X c k IHp]; intros q; induction q as [a'|h'|X' c' k' IHq]; intros s out t tb; constructor; intros st' Hst'; inversion Hst'; subst;
    try (match goal with H : pstep _ _ _ _ _ |- _ => destruct H as (r & _ & -> & [-> ->]%pair_eq & ->) end; by auto); done.
Qed.

Lemma acc_alone p : forall s out t, Acc later (Lsys s out (inr p, t) None).
Proof.
  induction p as [a|h|X c k IHp]; intros s out t; constructor; intros st' Hst'; inversion Hst'; subst; first [apply acc_both|idtac];
    match goal with H : pstep _ _ _ _ _ |- _ => unfold pstep in H; cbn [fst] in H end; try contradiction.
  match goal with H : exists _, _ |- _ => destruct H as (r & _ & -> & [-> ->]%pair_eq & ->) end. apply IHp.
Qed.

Lemma acc_setup p : forall s out t, Acc later (Lsys s out (inl p, t) None).
Proof.
  induction p as [a|h|X c k IHp]; intros s out t; constructor; intros st' Hst'; inversion Hst'; subst; first [apply acc_alone|idtac];
    match goal with H : pstep _ _ _ _ _ |- _ => unfold pstep in H; cbn [fst] in H end; try contradiction.
  match goal with H : exists _, _ |- _ => destruct H as (r & _ & -> & [-> ->]%pair_eq & ->) end. apply IHp.
Qed.
End System.
End Programs.

(** C3: the two programs alternate.  In every interleaving, once the first program
    has created the semaphores and the second has been started with the same
    names, and whatever call fails, the lines on the terminal are an initial part
    of "bbbb 0", "aaaa 0", "bbbb 1", "aaaa 1" and so on; when both have exited with
    success, every line of both has been shown, and the numbers of rounds are
    equal or the second has one more.  With the same number of rounds the programs
    never wait for each other: as long as neither has failed, they have both
    finished or one of them can make a step after which it can still succeed.
    Every run ends. *)
Theorem lockstep_alternates {T : ErrText} argvA argvB s0 st :
  argv_nth argvB 1 = argv_nth argvA 1 -> argv_nth argvB 2 = argv_nth argvA 2 ->
  rtc (lstep argvA argvB) (lstart argvA s0) st ->
  (exists k, tty st = map alternate (seq 0 k)) /\
  (forall t tb, procA st = (inr (Halt (Exit EXIT_SUCCESS)), t) -> procB st = Some (Halt (Exit EXIT_SUCCESS), tb) ->
    tty st = map alternate (seq 0 (nloops argvA + nloops argvB)) /\ (nloops argvA <= nloops argvB <= S (nloops argvA))%nat) /\
  (forall p t q tb, procA st = (inr p, t) -> procB st = Some (q, tb) -> nloops argvA = nloops argvB -> (0 < nloops argvA)%nat -> alive p -> alive q ->
    p = Halt (Exit EXIT_SUCCESS) /\ q = Halt (Exit EXIT_SUCCESS) \/ can_go (shared st) p t \/ can_go (shared st) q tb) /\
  Acc (later argvA argvB) (lstart argvA s0).
Proof.
  intros H1 H2 Hr. pose proof (linv_reach _ _ _ H1 H2 _ Hr) as Hi. split_and!.
  - by eapply linv_tty.
  - intros t tb Ha Hb. by eapply linv_finished.
  - intros p t q tb. by eapply linv_progress.
  - apply acc_setup.
Qed.

(** ** Witness *)

(** A reply to the calls of these programs; [None] where the caller blocks. *)
Definition serve (st : posix_ipc * table) {X} (c : call X) : option X :=
  match c in call X return option X with
  | Sem_open name flags create =>
      let o := fst (open_obj NSem name (new_sem create) (fst st)) in
      if may_open NSem name flags (fst st) && match create with Some (_, v) => (0 <=? v) && (v <=? SEM_VALUE_MAX) | None => negb (flag flags O_CREAT) end
      then if decide (ptrs (snd st) !! (100 + Z.of_nat o) = None) then Some (Ok (100 + Z.of_nat o)) else None
      else Some (Err ENOENT)
  | Sem_call f p =>
      match at_ptr st p with
      | Some (_, OSem v) => if match f with SemPost => v <? SEM_VALUE_MAX | _ => 0 <? v end then Some (Ok tt) else None
      | _ => None
      end
  | Sem_unlink _ => Some (Err ENOENT)
  | Out _ _ | Delay _ => Some tt
  | _ => None
  end.

Lemma serve_legal st X (c : call X) r : serve st c = Some r -> legal st c r.
Proof.
  destruct c; try done; cbn [serve].
  - destruct (_ && _) eqn:Hok; [|by intros [= <-]]. case_decide as Hp; [|done]. intros [= <-]. apply andb_true_iff in Hok as [Hm Hc].
    cbn. split_and!; [done| |by left]. intros Hn. unfold may_open in Hm. rewrite Hn in Hm. destruct create as [[m v]|]; [lia|by rewrite Hm in Hc].
  - destruct (at_ptr st sem) as [[o [v| |]]|] eqn:Ha; try done. destruct f; zcase; try done; intros [= <-] o' x Hx; rewrite Ha in Hx; injection Hx as <- <-; by exists v.
  - by intros [= <-].
Qed.

Section Demo.
Context {T : ErrText} (argvA argvB : list (list ascii)).

Definition pexec {A} (s : posix_ipc) (p : prog A) (t : table) : option (posix_ipc * prog A * table * list (list ascii)) :=
  match p with
  | Sys c k => r ← serve (s, t) c; Some (fst (effect c r (s, t)), k r, snd (effect c r (s, t)), shown_by c)
  | _ => None
  end.

Inductive who := First | Second | StartSecond.

Definition lexec (w : who) (st : lsys) : option lsys :=
  match w, procA st, procB st with
  | First, (inl (Ret sems), t), None => Some (Lsys (shared st) (tty st) (inr (initLoop argvA sems), t) None)
  | First, (inl p, t), None => match pexec (shared st) p t with Some (s, p', t', o) => Some (Lsys s (tty st ++ o) (inl p', t') None) | None => None end
  | First, (inr p, t), b => match pexec (shared st) p t with Some (s, p', t', o) => Some (Lsys s (tty st ++ o) (inr p', t') b) | None => None end
  | Second, a, Some (p, t) => match pexec (shared st) p t with Some (s, p', t', o) => Some (Lsys s (tty st ++ o) a (Some (p', t'))) | None => None end
  | StartSecond, (inr p, t), None => Some (Lsys (shared st) (tty st) (inr p, t) (Some (lockstep_second_main argvB, no_table)))
  | _, _, _ => None
  end.

Lemma pexec_step {A} s (p : prog A) t s' p' t' o : pexec s p t = Some (s', p', t', o) -> pstep s (p, t) s' (p', t') o.
Proof.
  destruct p as [| |X c k]; try done. cbn. intros (r & Hr & Heq)%bind_Some. exists r. split; [by apply serve_legal|].
  injection Heq. intros <- <- <- <-. by split_and!.
Qed.

Lemma lexec_step w st st' : lexec w st = Some st' -> lstep argvA argvB st st'.
Proof.
  destruct st as [s out [[p|p] t] b]; destruct w, b as [[q tb]|]; cbn [lexec procA procB shared tty]; try done.
  all: try (destruct (pexec s _ _) as [[[[s' p'] t'] o]|] eqn:Hp; [|done]; apply pexec_step in Hp; intros [= <-]; by constructor).
  - by destruct p.
  - destruct p as [sems| |X c k]; [intros [= <-]; by constructor|done|].
    destruct (pexec s (Sys c k) t) as [[[[s' p'] t'] o]|] eqn:Hp; [|done]. apply pexec_step in Hp. intros [= <-]. by constructor.
  - intros [= <-]. by constructor.
Qed.

Fixpoint lexecs (l : list who) (st : lsys) : option lsys := match l with [] => Some st | w :: l => match lexec w st with Some st' => lexecs l st' | None => None end end.

Lemma lexecs_reach l st st' : lexecs l st = Some st' -> rtc (lstep argvA argvB) st st'.
Proof.
  revert st. induction l as [|w l IH]; intros st; cbn; [intros [= ->]; apply rtc_refl|]. destruct (lexec w st) as [st1|] eqn:Hw; [|done].
  intros Hl. eapply rtc_l; [by apply (lexec_step w)|by apply IH].
Qed.
End Demo.

Definition demo_argv : list (list ascii) := [$"lockstep"; $"/a"; $"/b"; $"1"].

(** The first program sets up and waits; the second prints and posts; the first prints. *)
Definition demo_turns : list who :=
  replicate 5 First ++ [StartSecond] ++ replicate 2 Second ++ replicate 4 Second ++ replicate 4 First ++ replicate 2 First.

Definition demo_lstart : lsys := lstart (T := demo_text) demo_argv (Ipc ∅ ∅).
Definition demo_end : lsys := default demo_lstart (lexecs (T := demo_text) demo_argv demo_argv demo_turns demo_lstart).

Lemma lockstep_alternates_witness :
  tty demo_end = [$"bbbb 0" ++ [NL]; $"aaaa 0" ++ [NL]] /\ exists k, tty demo_end = map alternate (seq 0 k).
Proof.
  split; [vm_compute; reflexivity|].
  assert (rtc (lstep (T := demo_text) demo_argv demo_argv) demo_lstart demo_end) as Hr.
  { apply (lexecs_reach demo_argv demo_argv demo_turns). unfold demo_end.
    destruct (lexecs (T := demo_text) demo_argv demo_argv demo_turns demo_lstart) as [st|] eqn:He; [done|].
    exfalso. assert (is_Some (lexecs (T := demo_text) demo_argv demo_argv demo_turns demo_lstart)) as [x Hx]; [|congruence].
    clear He. vm_compute. by eexists. }
  exact (proj1 (lockstep_alternates (T := demo_text) demo_argv demo_argv (Ipc ∅ ∅) demo_end eq_refl eq_refl Hr)).
Defined.
