(* ===== verification/SysvIpc.v ===== *)
(** * System V message queues, semaphores and shared memory: the objects

    The programs of svmsg/, svsem/ and svshm/ work on objects that have identifiers
    and may have keys.  [sysv] is the state of these objects as sysvipc(7)
    documents it, [sysv_effect] is what a successful call does to it, and
    [sysv_legal] which replies are possible; every call may also fail, without
    effect.  The state is that of one process without interference. *)

From S2P Require Import Prelude Sys LibErrors GetNum SvSem SvmsgFile.

Definition MSG_NOERROR : Z := 4096.
Definition MSG_EXCEPT : Z := 8192.
Definition IPC_RMID : Z := 0.
Definition SHM_LOCK : Z := 11.
Definition SHM_UNLOCK : Z := 12.
Definition SEMVMX : Z := 32767.

(** The default limit of a queue (/proc/sys/kernel/msgmnb). *)
Definition MSGMNB : Z := 16384.

(** ** Objects, identifiers and keys *)

Inductive ipc_kind := KMsg | KSem | KShm.

#[global] Instance ipc_kind_eq_dec : EqDecision ipc_kind.
Proof. solve_decision. Defined.

#[global] Instance ipc_kind_countable : Countable ipc_kind.
Proof.
  refine (inj_countable' (fun k => match k with KMsg => 0%nat | KSem => 1%nat | KShm => 2%nat end)
    (fun n => match n with 0%nat => KMsg | 1%nat => KSem | _ => KShm end) _). by intros [].
Defined.

(** A queue with its limit in bytes, the oldest message first; the values of a
    semaphore set; the size of a segment and whether it is locked into memory. *)
Inductive ipc_obj :=
  | Queue (qbytes : Z) (msgs : list msg)
  | SemSet (vals : list Z)
  | Segment (size : Z) (locked : bool).

Definition obj_kind (x : ipc_obj) : ipc_kind := match x with Queue _ _ => KMsg | SemSet _ => KSem | Segment _ _ => KShm end.

Record ipc_perm := Ipc_perm { p_uid : Z; p_gid : Z; p_mode : Z }.

(** [caller]: the effective user and group of the process; [ftoks]: the keys that
    ftok() computes from the files of the system. *)
Record sysv := Sysv
  { keyed : gmap (ipc_kind * Z) Z; ents : gmap (ipc_kind * Z) (ipc_perm * ipc_obj);
    caller : Z * Z; ftoks : list ascii -> Z -> option Z }.

Definition obj (s : sysv) (k : ipc_kind) (id : Z) : option ipc_obj := snd <$> ents s !! (k, id).

Definition put_ent (k : ipc_kind) (id : Z) (x : ipc_perm * ipc_obj) (s : sysv) : sysv :=
  Sysv (keyed s) (<[(k, id) := x]> (ents s)) (caller s) (ftoks s).

(** The identifier that a get call returns for [key]; [None] if it creates. *)
Definition found (s : sysv) (k : ipc_kind) (key : Z) : option Z := if key =? IPC_PRIVATE then None else keyed s !! (k, key).

(** A new object; the low nine bits of the flags are its mode. *)
Definition add_obj (k : ipc_kind) (key flags id : Z) (x : ipc_obj) (s : sysv) : sysv :=
  Sysv (if key =? IPC_PRIVATE then keyed s else <[(k, key) := id]> (keyed s))
       (<[(k, id) := (Ipc_perm (fst (caller s)) (snd (caller s)) (Z.land flags 511), x)]> (ents s)) (caller s) (ftoks s).

Definition got (k : ipc_kind) (key flags id : Z) (new : ipc_obj) (s : sysv) : sysv :=
  match found s k key with Some _ => s | None => add_obj k key flags id new s end.

Definition may_get (s : sysv) (k : ipc_kind) (key flags id : Z) (fits : ipc_obj -> Prop) (new : ipc_obj) : Prop :=
  match found s k key with
  | Some id' => id = id' /\ (flag flags IPC_CREAT && flag flags IPC_EXCL) = false /\ (forall x, obj s k id = Some x -> fits x)
  | None => (key = IPC_PRIVATE \/ flag flags IPC_CREAT = true) /\ 0 <= id /\ ents s !! (k, id) = None /\ fits new
  end.

(** The object is removed together with its key.  (A segment goes at once, because
    no other process has attached it.) *)
Definition del_obj (k : ipc_kind) (id : Z) (s : sysv) : sysv :=
  Sysv (filter (fun p => ~ (fst (fst p) = k /\ snd p = id)) (keyed s)) (delete (k, id) (ents s)) (caller s) (ftoks s).

(** ** Messages *)

Fixpoint take_first (p : msg -> bool) (l : list msg) : option (msg * list msg) :=
  match l with
  | [] => None
  | m :: l => if p m then Some (m, l) else match take_first p l with Some (x, l') => Some (x, m :: l') | None => None end
  end.

(** The lowest type up to [bound]. *)
Definition lowest (bound : Z) (l : list msg) : Z := fold_right (fun m a => Z.min (mtype m) a) bound l.

(** msgop(2): which message msgrcv() takes, and what is left. *)
Definition msg_select (type flags : Z) (l : list msg) : option (msg * list msg) :=
  if type =? 0 then take_first (fun _ => true) l
  else if 0 <? type then
    if flag flags MSG_EXCEPT then take_first (fun m => negb (mtype m =? type)) l else take_first (fun m => mtype m =? type) l
  else let t := lowest (- type) l in take_first (fun m => mtype m =? t) l.

(** What is copied to the buffer of the receiver. *)
Definition copied (max flags : Z) (m m' : msg) : Prop :=
  strlen (mtext m) <= max /\ m' = m \/ max < strlen (mtext m) /\ flag flags MSG_NOERROR = true /\ m' = Msg (mtype m) (take (Z.to_nat max) (mtext m)).

Definition used (l : list msg) : Z := fold_right (fun m a => strlen (mtext m) + a) 0 l.

(** ** Semaphore operations *)

(** One operation on a value; [None] where the caller waits or fails. *)
Definition sem_apply (v op : Z) : option Z :=
  if op =? 0 then if v =? 0 then Some v else None
  else if (0 <=? v + op) && (v + op <=? SEMVMX) then Some (v + op) else None.

Fixpoint sems_apply (sops : list sembuf) (vals : list Z) : option (list Z) :=
  match sops with
  | [] => Some vals
  | b :: sops =>
      v ← vals !! Z.to_nat (sem_num b); v' ← sem_apply v (sem_op b); sems_apply sops (<[Z.to_nat (sem_num b) := v']> vals)
  end.

(** ** Effects and replies *)

(** [f] is applied to the object [id]. *)
Definition on_ent (k : ipc_kind) (id : Z) (f : ipc_perm * ipc_obj -> ipc_perm * ipc_obj) (s : sysv) : sysv :=
  match ents s !! (k, id) with Some x => put_ent k id (f x) s | None => s end.

Definition with_obj (f : ipc_obj -> ipc_obj) (x : ipc_perm * ipc_obj) : ipc_perm * ipc_obj := (fst x, f (snd x)).

Definition if_ok {A B} (r : res A) (f : B -> B) (s : B) : B := match r with Ok _ => f s | Err _ => s end.

Definition take_msg (type flags : Z) (x : ipc_obj) : ipc_obj :=
  match x with Queue b l => match msg_select type flags l with Some (_, l') => Queue b l' | None => x end | x => x end.

Definition set_locked (b : bool) (x : ipc_obj) : ipc_obj := match x with Segment size _ => Segment size b | x => x end.

Definition sysv_effect {X} (c : call X) : X -> sysv -> sysv :=
  match c in call X return X -> sysv -> sysv with
  | Msgget key flags => fun r s => match r with Ok id => got KMsg key flags id (Queue MSGMNB []) s | Err _ => s end
  | Semget key n flags => fun r s => match r with Ok id => got KSem key flags id (SemSet (replicate (Z.to_nat n) 0)) s | Err _ => s end
  | Shmget key size flags => fun r s => match r with Ok id => got KShm key flags id (Segment size false) s | Err _ => s end
  | Msgsnd id m _ => fun r => if_ok r (on_ent KMsg id (with_obj (fun x => match x with Queue b l => Queue b (l ++ [m]) | x => x end)))
  | Msgrcv id _ type flags => fun r => if_ok r (on_ent KMsg id (with_obj (take_msg type flags)))
  | Msgctl_set id ds => fun r => if_ok r (on_ent KMsg id (fun x =>
      (Ipc_perm (msg_uid ds) (msg_gid ds) (msg_mode ds), match snd x with Queue _ l => Queue (msg_qbytes ds) l | x => x end)))
  | Msgctl_rmid id => fun r => if_ok r (del_obj KMsg id)
  | Semop id sops => fun r => if_ok r (on_ent KSem id (with_obj (fun x =>
      match x with SemSet vals => SemSet (default vals (sems_apply sops vals)) | x => x end)))
  | Semctl_setval id n v => fun r => if_ok r (on_ent KSem id (with_obj (fun x => match x with SemSet vals => SemSet (<[Z.to_nat n := v]> vals) | x => x end)))
  | Semctl_setall id vals => fun r => if_ok r (on_ent KSem id (with_obj (fun _ => SemSet vals)))
  | Semctl_rmid id => fun r => if_ok r (del_obj KSem id)
  | Shmctl id cmd => fun r => if_ok r (
      if cmd =? IPC_RMID then del_obj KShm id
      else if cmd =? SHM_LOCK then on_ent KShm id (with_obj (set_locked true))
      else if cmd =? SHM_UNLOCK then on_ent KShm id (with_obj (set_locked false)) else fun s => s)
  | _ => fun _ s => s
  end.

Definition reply {A} (P : A -> Prop) (r : res A) : Prop := match r with Ok a => P a | Err _ => True end.

Definition val_ok (v : Z) : Prop := 0 <= v <= SEMVMX.

Definition sysv_legal (s : sysv) {X} (c : call X) : X -> Prop :=
  match c in call X return X -> Prop with
  | Ftok path proj => reply (fun k => k <> -1 /\ ftoks s path proj = Some k)
  | Msgget key flags => fun r =>
      match r with
      | Ok id => may_get s KMsg key flags id (fun _ => True) (Queue MSGMNB [])
      | Err e => e = EEXIST -> found s KMsg key <> None /\ (flag flags IPC_CREAT && flag flags IPC_EXCL) = true
      end
  | Semget key n flags => reply (fun id => 0 <= n /\
      may_get s KSem key flags id (fun x => exists vals, x = SemSet vals /\ n <= Z.of_nat (length vals) /\ vals <> []) (SemSet (replicate (Z.to_nat n) 0)))
  | Shmget key size flags => reply (fun id => may_get s KShm key flags id (fun x => exists n b, x = Segment n b /\ size <= n /\ 0 < n) (Segment size false))
  | Msgsnd id m _ => reply (fun _ => 0 < mtype m /\ exists b l, obj s KMsg id = Some (Queue b l) /\ used l + strlen (mtext m) <= b)
  | Msgrcv id max type flags => reply (fun m' => 0 <= max /\ exists b l m l', obj s KMsg id = Some (Queue b l) /\ msg_select type flags l = Some (m, l') /\ copied max flags m m')
  | Msgctl_stat id => reply (fun ds => exists p b l, ents s !! (KMsg, id) = Some (p, Queue b l) /\ ds = Msqid_ds b (p_uid p) (p_gid p) (p_mode p))
  | Msgctl_set id _ | Msgctl_rmid id => reply (fun _ => ents s !! (KMsg, id) <> None)
  | Semop id sops => reply (fun _ => exists vals, obj s KSem id = Some (SemSet vals) /\ sems_apply sops vals <> None)
  | Semctl_setval id n v => reply (fun _ => exists vals, obj s KSem id = Some (SemSet vals) /\ 0 <= n < Z.of_nat (length vals) /\ val_ok v)
  | Semctl_stat id => reply (fun n => exists vals, obj s KSem id = Some (SemSet vals) /\ n = Z.of_nat (length vals))
  | Semctl_setall id new => reply (fun _ => exists vals, obj s KSem id = Some (SemSet vals) /\ length new = length vals /\ Forall val_ok new)
  | Semctl_rmid id => reply (fun _ => ents s !! (KSem, id) <> None)
  | Shmctl id _ => reply (fun _ => ents s !! (KShm, id) <> None)
  | Shmat id _ _ => reply (fun _ => ents s !! (KShm, id) <> None)
  | _ => fun _ => True
  end.

(** The objects after the calls of a process. *)
Fixpoint sysv_after (s : sysv) (h : history) : sysv :=
  match h with [] => s | Ev c r :: h => sysv_effect c r (sysv_after s h) end.

Definition sysv_env (s : sysv) : env := fun h X c r => posix h X c r /\ sysv_legal (sysv_after s h) c r.

(** ** The state stays consistent *)

Definition ipc_obj_ok (x : ipc_obj) : Prop :=
  match x with
  | Queue _ l => Forall (fun m => 0 < mtype m) l
  | SemSet vals => vals <> [] /\ Forall val_ok vals
  | Segment size _ => 0 < size
  end.

(** A key refers to an object of its kind that no other key refers to, objects have
    nonnegative identifiers, and IPC_PRIVATE is no key. *)
Record sysv_ok (s : sysv) : Prop := Sysv_ok
  { keys_exist : forall k key id, keyed s !! (k, key) = Some id -> key <> IPC_PRIVATE /\ ents s !! (k, id) <> None;
    keys_differ : forall k key key' id, keyed s !! (k, key) = Some id -> keyed s !! (k, key') = Some id -> key = key';
    ents_ok : forall k id p x, ents s !! (k, id) = Some (p, x) -> 0 <= id /\ obj_kind x = k /\ ipc_obj_ok x }.

Lemma found_ok s k key id : sysv_ok s -> found s k key = Some id -> exists p x, ents s !! (k, id) = Some (p, x) /\ 0 <= id /\ obj_kind x = k /\ ipc_obj_ok x.
Proof.
  intros Hs. unfold found. destruct (key =? IPC_PRIVATE); [done|]. intros [_ He]%(keys_exist s Hs).
  destruct (ents s !! (k, id)) as [[p x]|] eqn:Hx; [|done]. exists p, x. split; [done|]. by apply (ents_ok s Hs _ _ p).
Qed.

Lemma put_ent_ok s k id p x : sysv_ok s -> 0 <= id -> obj_kind x = k -> ipc_obj_ok x -> sysv_ok (put_ent k id (p, x) s).
Proof.
  intros Hs Hid Hk Hx. split; cbn.
  - intros k' key' id' Hl. destruct (keys_exist s Hs _ _ _ Hl) as [Hp He]. split; [done|].
    destruct (decide ((k, id) = (k', id'))) as [[= <- <-]|Hne]; [by rewrite lookup_insert_eq|by rewrite lookup_insert_ne].
  - apply (keys_differ s Hs).
  - intros k' id' p' x'. rewrite lookup_insert_Some. intros [[[= <- <-] [= <- <-]]|[_ Hl]]; [done|]. by eapply (ents_ok s Hs).
Qed.

Lemma add_obj_ok s k key flags id x :
  sysv_ok s -> found s k key = None -> ents s !! (k, id) = None -> 0 <= id -> obj_kind x = k -> ipc_obj_ok x -> sysv_ok (add_obj k key flags id x s).
Proof.
  intros Hs Hf Hn Hid Hk Hx.
  pose proof (put_ent_ok s k id (Ipc_perm (fst (caller s)) (snd (caller s)) (Z.land flags 511)) x Hs Hid Hk Hx) as [He Hd Ho].
  unfold found in Hf. unfold add_obj. destruct (Z.eqb_spec key IPC_PRIVATE) as [->|Hkey]; [by split|]. cbn in *. split; cbn; [| |done].
  - intros k' key' id'. rewrite lookup_insert_Some. intros [[[= <- <-] <-]|[_ Hl]]; [|by apply (He _ key')]. split; [done|]. by rewrite lookup_insert_eq.
  - intros k' key1 key2 id'. rewrite !lookup_insert_Some. intros [[[= <- <-] <-]|[Hne1 Hl1]] [[Heq Hid2]|[Hne2 Hl2]]; try congruence.
    + destruct (keys_exist s Hs _ _ _ Hl2) as [_ []]; done.
    + injection Heq as <- <-. subst id'. by destruct (keys_exist s Hs _ _ _ Hl1) as [_ []].
    + by eapply Hd.
Qed.

Lemma got_ok s k key flags id fits new :
  sysv_ok s -> may_get s k key flags id fits new -> (fits new -> obj_kind new = k /\ ipc_obj_ok new) -> sysv_ok (got k key flags id new s).
Proof.
  intros Hs Hm Hn. unfold may_get, got in *. destruct (found s k key) eqn:Hf; [done|]. destruct Hm as (_ & Hid & He & Hfits).
  destruct (Hn Hfits). by apply add_obj_ok.
Qed.

Lemma del_obj_ok s k id : sysv_ok s -> sysv_ok (del_obj k id s).
Proof.
  intros [He Hd Ho]. split; cbn.
  - intros k' key id' [Hl Hne]%map_lookup_filter_Some. destruct (He _ _ _ Hl) as [Hp Hx]. split; [done|]. rewrite lookup_delete_ne; [done|].
    intros [= <- <-]. by apply Hne.
  - intros k' key key' id' [Hl _]%map_lookup_filter_Some [Hl' _]%map_lookup_filter_Some. by eapply Hd.
  - intros k' id' p x [_ Hl]%lookup_delete_Some. by eapply Ho.
Qed.

Lemma on_ent_ok s k id f :
  sysv_ok s -> (forall p x, ents s !! (k, id) = Some (p, x) -> ipc_obj_ok x -> obj_kind (snd (f (p, x))) = k /\ ipc_obj_ok (snd (f (p, x)))) -> sysv_ok (on_ent k id f s).
Proof.
  intros Hs Hf. unfold on_ent. destruct (ents s !! (k, id)) as [[p x]|] eqn:He; [|done]. destruct (ents_ok s Hs _ _ _ _ He) as (Hid & _ & Hx).
  destruct (Hf p x eq_refl Hx) as [Hk Hx']. destruct (f (p, x)) as [p' x']. by apply put_ent_ok.
Qed.

Lemma take_first_in p l m l' : take_first p l = Some (m, l') -> m ∈ l /\ p m = true /\ l ≡ₚ m :: l'.
Proof.
  revert l'. induction l as [|x l IH]; intros l'; cbn; [done|]. destruct (p x) eqn:Hp; [intros [= -> ->]; split_and!; [by left|done|done]|].
  destruct (take_first p l) as [[y l1]|]; [|done]. intros [= -> <-]. destruct (IH _ eq_refl) as (Hin & Hm & Hperm).
  split_and!; [by right|done|]. rewrite Hperm. apply Permutation_swap.
Qed.

Lemma msg_select_perm type flags l m l' : msg_select type flags l = Some (m, l') -> l ≡ₚ m :: l'.
Proof. unfold msg_select. repeat case_match; by intros (_ & _ & ?)%take_first_in. Qed.

Lemma sem_apply_ok v op v' : val_ok v -> sem_apply v op = Some v' -> val_ok v'.
Proof. unfold sem_apply, val_ok. repeat case_match; intros Hv [= <-]; [done|]. destruct (andb_prop _ _ ltac:(eassumption)). lia. Qed.

Lemma sems_apply_ok sops vals vals' : Forall val_ok vals -> sems_apply sops vals = Some vals' -> Forall val_ok vals' /\ length vals' = length vals.
Proof.
  revert vals. induction sops as [|b sops IH]; intros vals Hv; cbn; [by intros [= <-]|].
  intros (v & Hv1 & (v' & Hv2 & Ha)%bind_Some)%bind_Some. destruct (IH _ ltac:(apply Forall_insert; [done|eapply sem_apply_ok; [|exact Hv2]; by eapply Forall_lookup_1]) Ha) as [H1 H2].
  split; [done|]. by rewrite H2, length_insert.
Qed.

Lemma obj_ent s k id x : obj s k id = Some x -> exists p, ents s !! (k, id) = Some (p, x).
Proof. unfold obj. destruct (ents s !! (k, id)) as [[p y]|]; [|done]. intros [= ->]. by exists p. Qed.

(** Every possible reply leaves the objects consistent. *)
Lemma sysv_effect_ok {X} (c : call X) r s : sysv_ok s -> sysv_legal s c r -> sysv_ok (sysv_effect c r s).
Proof.
  intros Hs Hl. destruct c; try exact Hs; cbn [sysv_effect]; try (destruct r as [a|e]; [cbn [if_ok]|exact Hs]).
  all: try (by apply del_obj_ok).
  all: try (apply on_ent_ok; [exact Hs|]; intros p x He Hx; cbn [with_obj fst snd]; destruct (ents_ok s Hs _ _ _ _ He) as (_ & Hk & _)).
  - destruct Hl as [_ Hl]. apply (got_ok _ _ _ _ _ _ _ Hs Hl). intros (vals & [= <-] & Hn & Hne). split; [done|]. split; [done|].
    apply Forall_replicate. unfold val_ok, SEMVMX. lia.
  - destruct x as [|vals|]; try done. split; [done|]. destruct Hx as [Hne Hv]. destruct (sems_apply sops vals) as [vals'|] eqn:Ha; [|done].
    destruct (sems_apply_ok _ _ _ Hv Ha) as [Hv' Hlen]. split; [|done]. by destruct vals, vals'.
  - destruct Hl as (vals & Ho & _ & Hval). destruct x as [|vals'|]; try done. destruct Hx as [Hne Hv]. split; [done|]. split.
    + intros H. apply (f_equal length) in H. rewrite length_insert in H. by destruct vals'.
    + by apply Forall_insert.
  - apply (got_ok _ _ _ _ _ _ _ Hs Hl). intros _. by split; [|constructor].
  - destruct x as [b l| |]; try done. split; [done|]. apply Forall_app. split; [done|]. constructor; [apply Hl|done].
  - destruct x as [b l| |]; try done. cbn. destruct (msg_select type flags l) as [[m l']|] eqn:Hm; [|done]. split; [done|].
    cbn in Hx |- *. rewrite (msg_select_perm _ _ _ _ _ Hm) in Hx. by inversion Hx.
  - by destruct x.
  - destruct Hl as (vals' & Ho & Hlen & Hv). apply obj_ent in Ho as [p' Ho]. rewrite He in Ho. injection Ho as -> ->. destruct Hx as [Hne _].
    split; [done|]. split; [|done]. by destruct vals, vals'.
  - apply (got_ok _ _ _ _ _ _ _ Hs Hl). intros (n & b & [= <- <-] & _ & Hpos). by split.
  - repeat case_match; [by apply del_obj_ok|..|done]; (apply on_ent_ok; [exact Hs|]; intros p x He Hx; destruct (ents_ok s Hs _ _ _ _ He) as (_ & Hk & _); by destruct x).
Qed.
