(* ===== verification/SysvTools.v ===== *)
(** * The programs of svmsg/, svsem/, svshm/ and svipc/ that work on System V objects

    Programs that create an object from a key, use it by its identifier, change it or
    remove it.  getopt() is replaced by the options that it returns, [opts], and the
    arguments after them, [args]; an option that getopt() does not know is '?'. *)

From S2P Require Import Prelude Sys LibErrors GetNum FileIO SvSem SvmsgFile PosixIpc PosixTools SysvIpc.
From Stdlib Require Import Btauto.

Definition MAX_MTEXT : Z := 1024.
Definition SHMLBA : Z := 4096.
Definition SHM_RDONLY : Z := 4096.
Definition SHM_RND : Z := 8192.

(** sscanf(s, "%li", &lkey) as glibc does it; [None] if it does not return 1. *)
Definition sscanf_li (s : list ascii) : option Z :=
  let r := strtol s 0 in if bool_decide (st_end r = s) then None else Some (st_val r).

(** printf("%#lx") and printf("%p") of a value other than 0. *)
Definition hex_char (d : Z) : ascii := if d <? 10 then chr (48 + d) else chr (87 + d).

Fixpoint hex_go (fuel : nat) (n : Z) (acc : list ascii) : list ascii :=
  match fuel with
  | O => acc
  | S f => if n <? 16 then hex_char n :: acc else hex_go f (n / 16) (hex_char (n mod 16) :: acc)
  end.

Definition hex (n : Z) : list ascii := $"0x" ++ hex_go 16 n [].
Definition pointer (n : Z) : list ascii := if n =? 0 then $"(nil)" else hex n.

Section Tools.
Context {T : ErrText}.

(** ** Creating objects *)

(** usageError() of svmsg_create, svsem_create and svshm_create. *)
Definition createUsage {A} (operands progName : list ascii) (msg : option (list ascii)) : prog A :=
  match msg with Some m => print Stderr m | None => Ret tt end ;;;
  usageLines [$"Usage: " ++ progName ++ $" [-cx] {-f pathname | -k key | -p} " ++ operands;
              $"    -c           Use IPC_CREAT flag"; $"    -x           Use IPC_EXCL flag";
              $"    -f pathname  Generate key using ftok()"; $"    -k key       Use 'key' as key"; $"    -p           Use IPC_PRIVATE key"].

(** The loop over the options: the number of key options, the flags, and the key,
    which has no value at first. *)
Fixpoint keyOptions (badOption : prog (Z * Z * option Z)) (opts : list (ascii * list ascii)) (numKeyFlags flags : Z) (key : option Z)
    : prog (Z * Z * option Z) :=
  match opts with
  | [] => Ret (numKeyFlags, flags, key)
  | (opt, optarg) :: opts =>
      if Ascii.eqb opt "c" then keyOptions badOption opts numKeyFlags (Z.lor flags IPC_CREAT) key
      else if Ascii.eqb opt "f" then
        k <- sys (Ftok optarg 1) ;;
        match k with
        | Err e => errExit e ($"ftok")
        | Ok k => keyOptions badOption opts (numKeyFlags + 1) flags (Some k)
        end
      else if Ascii.eqb opt "k" then
        match sscanf_li optarg with
        | None => cmdLineErr ($"-k option requires a numeric argument" ++ [NL])
        | Some lkey => keyOptions badOption opts (numKeyFlags + 1) flags (Some (int_of lkey))
        end
      else if Ascii.eqb opt "p" then keyOptions badOption opts (numKeyFlags + 1) flags (Some IPC_PRIVATE)
      else if Ascii.eqb opt "x" then keyOptions badOption opts numKeyFlags (Z.lor flags IPC_EXCL) key
      else badOption
  end.

(** The flags and the key of a program that creates an object. *)
Definition keyAndFlags (usageError : forall A, option (list ascii) -> prog A) (badOption : option (list ascii)) (opts : list (ascii * list ascii))
    : prog (Z * Z) :=
  '(numKeyFlags, flags, key) <- keyOptions (usageError _ badOption) opts 0 0 None ;;
  if negb (numKeyFlags =? 1) then usageError _ (Some ($"Exactly one of the options -f, -k, or -p must be supplied" ++ [NL]))
  else match key with
       | None => Halt (Undefined "key used without a value")
       | Some key => Ret (key, flags)
       end.

(** The last call of these programs, and what they display. *)
Definition showId (msg : list ascii) (c : call (res Z)) : prog unit :=
  id <- sys c ;;
  match id with
  | Err e => errExit e msg
  | Ok id => print Stdout (dec id ++ [NL]) ;;; Halt (Exit EXIT_SUCCESS)
  end.

Definition svmsg_create_main (argv0 : list ascii) (opts : list (ascii * list ascii)) (args : list (list ascii)) : prog unit :=
  '(key, flags) <- keyAndFlags (fun A => createUsage ($"[octal-perms]") argv0) (Some ($"Bad option" ++ [NL])) opts ;;
  perms <- permsArg args 0 ;;
  showId ($"msgget") (Msgget key (int_of (Z.lor flags perms))).

Definition svsem_create_main (argv0 : list ascii) (opts : list (ascii * list ascii)) (args : list (list ascii)) : prog unit :=
  '(key, flags) <- keyAndFlags (fun A => createUsage ($"num-sems [octal-perms]") argv0) None opts ;;
  match args with
  | [] => createUsage ($"num-sems [octal-perms]") argv0 (Some ($"Must specify number of semaphores" ++ [NL]))
  | a :: _ =>
      numSems <- getInt (Some a) 0 (Some ($"num-sems")) ;;
      perms <- permsArg args 1 ;;
      showId ($"semget") (Semget key numSems (int_of (Z.lor flags perms)))
  end.

(** segSize is an int, and shmget() takes a size_t. *)
Definition svshm_create_main (argv0 : list ascii) (opts : list (ascii * list ascii)) (args : list (list ascii)) : prog unit :=
  '(key, flags) <- keyAndFlags (fun A => createUsage ($"seg-size [octal-perms]") argv0) None opts ;;
  match args with
  | [] => createUsage ($"seg-size [octal-perms]") argv0 (Some ($"Size of segment must be specified" ++ [NL]))
  | a :: _ =>
      size <- getLong (Some a) GN_ANY_BASE (Some ($"seg-size")) ;;
      perms <- permsArg args 1 ;;
      showId ($"shmget") (Shmget key (wrapu 64 (int_of size)) (int_of (Z.lor flags perms)))
  end.

(** ** Removing and locking objects *)

(** [ctl] for every argument, with the message of an error. *)
Fixpoint ctlAll (what : list ascii) (ctl : Z -> call (res unit)) (msg : list ascii -> list ascii) (args : list (list ascii)) : prog unit :=
  match args with
  | [] => Ret tt
  | a :: args =>
      id <- getInt (Some a) 0 (Some what) ;;
      r <- sys (ctl id) ;;
      match r with
      | Err e => errExit e (msg a)
      | Ok _ => ctlAll what ctl msg args
      end
  end.

Definition rm_main (what fname : list ascii) (ctl : Z -> call (res unit)) (argv : list (list ascii)) : prog unit :=
  if (1 <? length argv)%nat && is_help argv then usageErr (argv_nth argv 0 ++ $" [" ++ what ++ $"...]" ++ [NL])
  else ctlAll what ctl (fun a => fname ++ $" " ++ a) (drop 1 argv) ;;; Halt (Exit EXIT_SUCCESS).

Definition svmsg_rm_main : list (list ascii) -> prog unit := rm_main ($"msqid") ($"msgctl") Msgctl_rmid.
Definition svsem_rm_main : list (list ascii) -> prog unit := rm_main ($"semid") ($"semctl") Semctl_rmid.
Definition svshm_rm_main : list (list ascii) -> prog unit := rm_main ($"shmid") ($"shmctl") (fun id => Shmctl id IPC_RMID).

Definition svshm_lock_main (argv : list (list ascii)) : prog unit :=
  ctlAll ($"shmid") (fun id => Shmctl id SHM_LOCK) (fun _ => $"shmctl") (drop 1 argv) ;;;
  sys (Delay 5000000) ;;; Halt (Exit EXIT_SUCCESS).

Definition svshm_unlock_main (argv : list (list ascii)) : prog unit :=
  ctlAll ($"shmid") (fun id => Shmctl id SHM_UNLOCK) (fun _ => $"shmctl") (drop 1 argv) ;;;
  Halt (Exit EXIT_SUCCESS).

(** ** Messages *)

Definition svmsgSendUsage {A} (progName : list ascii) (msg : option (list ascii)) : prog A :=
  match msg with Some m => print Stderr m | None => Ret tt end ;;;
  usageLines [$"Usage: " ++ progName ++ $" [-n] msqid msg-type [msg-text]"; $"    -n       Use IPC_NOWAIT flag"].

Fixpoint sendFlags (usageError : prog Z) (opts : list (ascii * list ascii)) (flags : Z) : prog Z :=
  match opts with
  | [] => Ret flags
  | (opt, _) :: opts => if Ascii.eqb opt "n" then sendFlags usageError opts (Z.lor flags IPC_NOWAIT) else usageError
  end.

Definition svmsg_send_main (argv0 : list ascii) (opts : list (ascii * list ascii)) (args : list (list ascii)) : prog unit :=
  flags <- sendFlags (svmsgSendUsage argv0 None) opts 0 ;;
  if (length args <? 2)%nat || (3 <? length args)%nat then svmsgSendUsage argv0 (Some ($"Wrong number of arguments" ++ [NL]))
  else
    msqid <- getInt (Some (arg args 0)) 0 (Some ($"msqid")) ;;
    mtype <- getInt (Some (arg args 1)) 0 (Some ($"msg-type")) ;;
    body <- match args !! 2%nat with
            | Some text =>
                if int_of (strlen text + 1) >? MAX_MTEXT
                then cmdLineErr ($"msg-text too long (max: " ++ dec MAX_MTEXT ++ $" characters)" ++ [NL])
                else Ret (text ++ [NUL])
            | None => Ret []
            end ;;
    r <- sys (Msgsnd msqid (Msg mtype body) flags) ;;
    match r with
    | Err e => errExit e ($"msgsnd")
    | Ok _ => Halt (Exit EXIT_SUCCESS)
    end.

Definition svmsgReceiveUsage {A} (progName : list ascii) (msg : option (list ascii)) : prog A :=
  match msg with Some m => print Stderr m | None => Ret tt end ;;;
  usageLines [$"Usage: " ++ progName ++ $" [options] msqid [max-bytes]"; $"Permitted options are:";
              $"    -e       Use MSG_NOERROR flag"; $"    -t type  Select message of given type";
              $"    -n       Use IPC_NOWAIT flag"; $"    -x       Use MSG_EXCEPT flag"].

Fixpoint receiveOptions (usageError : prog (Z * Z)) (opts : list (ascii * list ascii)) (flags type : Z) : prog (Z * Z) :=
  match opts with
  | [] => Ret (flags, type)
  | (opt, optarg) :: opts =>
      if Ascii.eqb opt "e" then receiveOptions usageError opts (Z.lor flags MSG_NOERROR) type
      else if Ascii.eqb opt "n" then receiveOptions usageError opts (Z.lor flags IPC_NOWAIT) type
      else if Ascii.eqb opt "t" then receiveOptions usageError opts flags (atoi optarg)
      else if Ascii.eqb opt "x" then receiveOptions usageError opts (Z.lor flags MSG_EXCEPT) type
      else usageError
  end.

(** The message in the buffer is displayed.  The bytes after it have no value. *)
Definition showMessage (m : msg) : prog unit :=
  if strlen (mtext m) >? MAX_MTEXT then Halt (Undefined "message longer than the buffer")
  else
    print Stdout ($"Received: type=" ++ dec (mtype m) ++ $"; length=" ++ dec (strlen (mtext m))) ;;;
    (if strlen (mtext m) >? 0 then
       if bool_decide (NUL ∈ mtext m) then print Stdout ($"; body=" ++ cstring_of (mtext m))
       else Halt (Undefined "string without terminating null byte")
     else Ret tt) ;;;
    print Stdout [NL] ;;; Halt (Exit EXIT_SUCCESS).

Definition svmsg_receive_main (argv0 : list ascii) (opts : list (ascii * list ascii)) (args : list (list ascii)) : prog unit :=
  '(flags, type) <- receiveOptions (svmsgReceiveUsage argv0 None) opts 0 0 ;;
  if (length args <? 1)%nat || (2 <? length args)%nat then svmsgReceiveUsage argv0 (Some ($"Wrong number of arguments" ++ [NL]))
  else
    msqid <- getInt (Some (arg args 0)) 0 (Some ($"msqid")) ;;
    maxBytes <- match args !! 1%nat with
                | Some a => n <- getInt (Some a) 0 (Some ($"max-bytes")) ;; Ret (wrapu 64 n)
                | None => Ret MAX_MTEXT
                end ;;
    m <- sys (Msgrcv msqid maxBytes type flags) ;;
    match m with
    | Err e => errExit e ($"msgrcv")
    | Ok m => showMessage m
    end.

Definition set_qbytes (n : Z) (ds : msqid_ds) : msqid_ds := Msqid_ds n (msg_uid ds) (msg_gid ds) (msg_mode ds).

Definition svmsg_chqbytes_main (argv : list (list ascii)) : prog unit :=
  if negb (length argv =? 3)%nat || is_help argv then usageErr (argv_nth argv 0 ++ $" msqid max-bytes" ++ [NL])
  else
    msqid <- getInt (Some (argv_nth argv 1)) 0 (Some ($"msqid")) ;;
    ds <- sys (Msgctl_stat msqid) ;;
    match ds with
    | Err e => errExit e ($"msgctl")
    | Ok ds =>
        n <- getInt (Some (argv_nth argv 2)) 0 (Some ($"max-bytes")) ;;
        r <- sys (Msgctl_set msqid (set_qbytes (wrapu 64 n) ds)) ;;
        match r with
        | Err e => errExit e ($"msgctl")
        | Ok _ => Halt (Exit EXIT_SUCCESS)
        end
    end.

Definition KEY_FILE : list ascii := $"/some-path/some-file".
Definition MQ_PERMS : Z := 400.

(** svipc/svmsg_demo_server.c: the loop that creates the queue exclusively. *)
Fixpoint createQueue (fuel : nat) (key : Z) : prog Z :=
  match fuel with
  | O => Halt OutOfFuel
  | S fuel =>
      q <- sys (Msgget key (Z.lor (Z.lor IPC_CREAT IPC_EXCL) MQ_PERMS)) ;;
      match q with
      | Ok msqid => Ret msqid
      | Err e =>
          if e =? EEXIST then
            q <- sys (Msgget key 0) ;;
            match q with
            | Err e => errExit e ($"msgget() failed to retrieve old queue ID")
            | Ok msqid =>
                r <- sys (Msgctl_rmid msqid) ;;
                match r with
                | Err e => errExit e ($"msgget() failed to delete old queue")
                | Ok _ => print Stdout ($"Removed old message queue (id=" ++ dec msqid ++ $")" ++ [NL]) ;;; createQueue fuel key
                end
            end
          else errExit e ($"msgget() failed")
      end
  end.

Definition svmsg_demo_server_main (fuel : nat) : prog unit :=
  k <- sys (Ftok KEY_FILE 1) ;;
  match k with
  | Err e => errExit e ($"ftok")
  | Ok key =>
      msqid <- createQueue fuel key ;;
      print Stdout ($"Queue created with id " ++ dec msqid ++ [NL]) ;;; Halt (Exit EXIT_SUCCESS)
  end.

(** ** Semaphores *)

Definition demoLine (text : list ascii) : prog unit :=
  pid <- sys Getpid ;;
  now <- currTime (Some ($"%T")) ;;
  print Stdout (dec pid ++ text ++ default ($"(null)") now ++ [NL]).

(** sem_op is a short. *)
Definition svsem_demo_main (argv : list (list ascii)) : prog unit :=
  if (length argv <? 2)%nat || (3 <? length argv)%nat || is_help argv
  then usageErr (argv_nth argv 0 ++ $" init-value" ++ [NL] ++ $"   or: " ++ argv_nth argv 0 ++ $" semid operation" ++ [NL])
  else if (length argv =? 2)%nat then
    id <- sys (Semget IPC_PRIVATE 1 USER_RW) ;;
    match id with
    | Err e => errExit e ($"semid")
    | Ok semid =>
        v <- getInt (Some (argv_nth argv 1)) 0 (Some ($"init-value")) ;;
        r <- sys (Semctl_setval semid 0 v) ;;
        match r with
        | Err e => errExit e ($"semctl")
        | Ok _ => print Stdout ($"Semaphore ID = " ++ dec semid ++ [NL]) ;;; Halt (Exit EXIT_SUCCESS)
        end
    end
  else
    semid <- getInt (Some (argv_nth argv 1)) 0 (Some ($"semid")) ;;
    op <- getInt (Some (argv_nth argv 2)) 0 (Some ($"operation")) ;;
    demoLine ($": about to semop at  ") ;;;
    r <- sys (Semop semid [Sembuf 0 (wraps 16 op) 0]) ;;
    match r with
    | Err e => errExit e ($"semop")
    | Ok _ => demoLine ($": semop completed at ") ;;; Halt (Exit EXIT_SUCCESS)
    end.

(** The values of the array, which are unsigned short. *)
Fixpoint semValues (args : list (list ascii)) : prog (list Z) :=
  match args with
  | [] => Ret []
  | a :: args => v <- getInt (Some a) 0 (Some ($"val")) ;; vals <- semValues args ;; Ret (wrapu 16 v :: vals)
  end.

Definition svsem_setall_main (argv : list (list ascii)) : prog unit :=
  if (length argv <? 3)%nat || is_help argv then usageErr (argv_nth argv 0 ++ $" semid val..." ++ [NL])
  else
    semid <- getInt (Some (argv_nth argv 1)) 0 (Some ($"semid")) ;;
    n <- sys (Semctl_stat semid) ;;
    match n with
    | Err e => errExit e ($"semctl")
    | Ok sem_nsems =>
        let nvals := Z.of_nat (length argv) - 2 in
        if negb (sem_nsems =? nvals)
        then cmdLineErr ($"Set contains " ++ dec sem_nsems ++ $" semaphores, but " ++ dec nvals ++ $" values were supplied" ++ [NL])
        else
          array <- sys (Alloc (2 * sem_nsems)) ;;
          if negb array then errExit ENOMEM ($"calloc")
          else
            vals <- semValues (drop 2 argv) ;;
            r <- sys (Semctl_setall semid vals) ;;
            match r with
            | Err e => errExit e ($"semctl-SETALL")
            | Ok _ =>
                pid <- sys Getpid ;;
                print Stdout ($"Semaphore values changed (PID=" ++ dec pid ++ $")" ++ [NL]) ;;; Halt (Exit EXIT_SUCCESS)
            end
    end.

(** ** Attaching segments *)

Definition svshmAttachUsage {A} (progName : list ascii) : prog A :=
  usageLines [$"Usage: " ++ progName ++ $" [shmid:address[rR]]..."; $"            r=SHM_RND; R=SHM_RDONLY"].

(** An argument: the identifier, the address and the flags. *)
Definition parseAttach (a : list ascii) : option (Z * Z * Z) :=
  let r := strtol a 0 in
  match st_end r with
  | c :: p =>
      if Ascii.eqb c ":"
      then Some (int_of (st_val r), st_val (strtol p 0),
                 Z.lor (if strchr p "r" then SHM_RND else 0) (if strchr p "R" then SHM_RDONLY else 0))
      else None
  | [] => None
  end.

Fixpoint attachAll (argv0 : list ascii) (j : nat) (args : list (list ascii)) : prog unit :=
  match args with
  | [] => Ret tt
  | a :: args =>
      match parseAttach a with
      | None => svshmAttachUsage argv0
      | Some (shmid, addr, flags) =>
          r <- sys (Shmat shmid addr flags) ;;
          match r with
          | Err e => errExit e ($"shmat: " ++ a)
          | Ok retAddr =>
              print Stdout (dec (Z.of_nat j) ++ $": " ++ a ++ $" ==> " ++ pointer retAddr ++ [NL]) ;;;
              attachAll argv0 (S j) args
          end
      end
  end.

Definition svshm_attach_main (argv : list (list ascii)) : prog unit :=
  pid <- sys Getpid ;;
  print Stdout ($"SHMLBA = " ++ dec SHMLBA ++ $" (" ++ hex SHMLBA ++ $"), PID = " ++ dec pid ++ [NL]) ;;;
  attachAll (argv_nth argv 0) 1 (drop 1 argv) ;;;
  print Stdout ($"Sleeping 5 seconds" ++ [NL]) ;;;
  sys (Delay 5000000) ;;;
  Halt (Exit EXIT_SUCCESS).
End Tools.

(** ** What the programs do to the objects *)

Definition is_key_opt (o : ascii * list ascii) : bool := Ascii.eqb (fst o) "f" || Ascii.eqb (fst o) "k" || Ascii.eqb (fst o) "p".

(** The key that an option selects. *)
Definition key_option (s : sysv) (o : ascii * list ascii) (key : Z) : Prop :=
  if Ascii.eqb (fst o) "f" then ftoks s (snd o) 1 = Some key
  else if Ascii.eqb (fst o) "k" then exists l, sscanf_li (snd o) = Some l /\ key = int_of l
  else key = IPC_PRIVATE.

(** Exactly one option selects the key; -c and -x give the flags. *)
Definition key_of (s : sysv) (opts : list (ascii * list ascii)) (key : Z) : Prop :=
  exists o, List.filter is_key_opt opts = [o] /\ key_option s o key.

Definition create_flags (opts : list (ascii * list ascii)) : Z := Z.lor (opt_flag opts "c" IPC_CREAT) (opt_flag opts "x" IPC_EXCL).

(** A get call returned [id]: that of the key, or that of a new object. *)
Definition gotten (s : sysv) (k : ipc_kind) (key flags : Z) (fits : ipc_obj -> Prop) (new : ipc_obj) (id : Z) (s' : sysv) : Prop :=
  may_get s k key flags id fits new /\ s' = got k key flags id new s.

(** [f] was applied to the objects [ids] in turn, which existed. *)
Inductive acts (k : ipc_kind) (f : Z -> sysv -> sysv) : sysv -> list Z -> sysv -> Prop :=
  | acts_nil s : acts k f s [] s
  | acts_cons s id ids s' : ents s !! (k, id) <> None -> acts k f (f id s) ids s' -> acts k f s (id :: ids) s'.

Definition applied (k : ipc_kind) (f : Z -> sysv -> sysv) (s : sysv) (args : list (list ascii)) (s' : sysv) : Prop :=
  exists ids, Forall2 (fun a id => accepted a 0 id /\ is_int id) args ids /\ acts k f s ids s'.

Definition msg_sent (s : sysv) (id : Z) (m : msg) (s' : sysv) : Prop :=
  exists p b l, ents s !! (KMsg, id) = Some (p, Queue b l) /\ 0 < mtype m /\ used l + strlen (mtext m) <= b /\
    s' = put_ent KMsg id (p, Queue b (l ++ [m])) s.

Definition msg_received (s : sysv) (id max type flags : Z) (m' : msg) (s' : sysv) : Prop :=
  exists p b l m l', ents s !! (KMsg, id) = Some (p, Queue b l) /\ msg_select type flags l = Some (m, l') /\ copied max flags m m' /\
    s' = put_ent KMsg id (p, Queue b l') s.

(** What svmsg_receive displays. *)
Definition received_line (m : msg) : list ascii :=
  $"Received: type=" ++ dec (mtype m) ++ $"; length=" ++ dec (strlen (mtext m)) ++
  (if strlen (mtext m) >? 0 then $"; body=" ++ cstring_of (mtext m) else []) ++ [NL].

(** A message that svmsg_receive can display: it fits the buffer and is a string. *)
Definition displayable (m : msg) : Prop := strlen (mtext m) <= MAX_MTEXT /\ (mtext m = [] \/ NUL ∈ mtext m).

Definition recv_type (opts : list (ascii * list ascii)) (dflt : Z) : Z :=
  fold_left (fun t o => if Ascii.eqb (fst o) "t" then atoi (snd o) else t) opts dflt.

Definition recv_flags (opts : list (ascii * list ascii)) : Z :=
  Z.lor (Z.lor (opt_flag opts "e" MSG_NOERROR) (opt_flag opts "n" IPC_NOWAIT)) (opt_flag opts "x" MSG_EXCEPT).

(** Removed objects are gone, with their keys; all others are as before. *)
Lemma removes_exactly k ids s1 s' :
  acts k (del_obj k) s1 ids s' ->
  NoDup ids /\ (forall i, i ∈ ids -> ents s1 !! (k, i) <> None) /\
  (forall k' i, ents s' !! (k', i) = if bool_decide (k' = k /\ i ∈ ids) then None else ents s1 !! (k', i)) /\
  (forall k' key, keyed s' !! (k', key) = match keyed s1 !! (k', key) with
                                          | Some i => if bool_decide (k' = k /\ i ∈ ids) then None else Some i
                                          | None => None end).
Proof.
  induction 1 as [s1|s1 id ids s' He Ha (Hn & Hex & Hents & Hkeys)]; [split_and!; [apply NoDup_nil_2|set_solver|..]|].
  { intros k' i. by rewrite bool_decide_false by set_solver. }
  { intros k' key. destruct (keyed s1 !! (k', key)); [by rewrite bool_decide_false by set_solver|done]. }
  assert (id ∉ ids) as Hid by (intros Hin; apply (Hex _ Hin); cbn; by rewrite lookup_delete_eq). split_and!.
  - by constructor.
  - intros i [->|Hi]%elem_of_cons; [done|]. specialize (Hex _ Hi). cbn in Hex. rewrite lookup_delete_ne in Hex; [done|]. intros [= <-]. done.
  - intros k' i. rewrite Hents. cbn. destruct (decide ((k, id) = (k', i))) as [[= <- <-]|Hne].
    + rewrite lookup_delete_eq, (bool_decide_true (k = k /\ id ∈ id :: ids)) by (split; [done|by left]). by case_bool_decide.
    + rewrite lookup_delete_ne by done. by rewrite (bool_decide_ext (k' = k /\ i ∈ ids) (k' = k /\ i ∈ id :: ids)) by set_solver.
  - intros k' key. rewrite Hkeys. cbn. destruct (keyed s1 !! (k', key)) as [i|] eqn:Hk.
    + destruct (decide (k' = k /\ i = id)) as [[-> ->]|Hne].
      * rewrite (proj2 (map_lookup_filter_None _ _ _)); [by rewrite bool_decide_true by (split; [done|by left])|]. right. intros x Hx Hc. apply Hc. cbn. split; [done|congruence].
      * rewrite (proj2 (map_lookup_filter_Some _ _ _ _)) by (split; [exact Hk|exact Hne]).
        by rewrite (bool_decide_ext (k' = k /\ i ∈ ids) (k' = k /\ i ∈ id :: ids)) by set_solver.
    + by rewrite (proj2 (map_lookup_filter_None _ _ _)) by (by left).
Qed.

Section Facts.
Context {T : ErrText} (s : sysv) (Hs : sysv_ok s).

Definition stool_post (ok : sysv -> list ascii -> Prop) (partial : sysv -> Prop) (o : outcome unit) (h : history) : Prop :=
  o = Stop (Exit EXIT_SUCCESS) /\ ok (sysv_after s h) (asked h) \/ stops_failing o /\ partial (sysv_after s h).

(** A history that has left the objects in [s'] and displayed [out]. *)
Definition reached (s' : sysv) (out : list ascii) (h : history) : Prop := sysv_after s h = s' /\ asked h = out.

Lemma reporting_after k h : Forall reporting k -> sysv_after s (k ++ h) = sysv_after s h.
Proof. induction 1 as [|[X c r] k Hc _ IH]; [done|]. cbn [app sysv_after]. rewrite IH. by destruct c. Qed.

Lemma sfails ok (partial : sysv -> Prop) s' out h :
  reached s' out h -> partial s' -> forall o k, stops_failing o -> Forall reporting k -> stool_post ok partial o (k ++ h).
Proof. intros [Ha _] Hp o k Ho Hk. right. split; [done|]. by rewrite reporting_after, Ha. Qed.

(** A failure in the first part of a sequence. *)
Lemma sfails_bind {A} (f : A -> prog unit) ok (partial : sysv -> Prop) s' out h :
  reached s' out h -> partial s' -> forall (o : outcome A) k, stops_failing o -> Forall reporting k ->
  match o with Done a => wp (sysv_env s) (f a) (stool_post ok partial) (k ++ h) | Stop e => stool_post ok partial (Stop e) (k ++ h) end.
Proof.
  intros Hr Hp o k Ho Hk. destruct Ho as [->|[->| ->]]; (eapply sfails; [exact Hr|exact Hp| |exact Hk]); unfold stops_failing; auto.
Qed.

Lemma wp_usage {A} E msg lines (Q : outcome A -> history -> Prop) h :
  (forall o k, stops_failing o -> Forall reporting k -> Q o (k ++ h)) ->
  wp E (match msg with Some m => print Stderr m | None => Ret tt end ;;; usageLines lines) Q h.
Proof.
  intros HQ. destruct msg as [m|]; [intros [] _|]; apply wp_usageLines; intros o k Ho Hk; [|by apply HQ].
  replace (k ++ Ev (Out Stderr m) tt :: h) with ((k ++ [Ev (Out Stderr m) tt]) ++ h) by (by rewrite <- app_assoc).
  apply HQ; [done|]. apply Forall_app. split; [done|]. by repeat constructor.
Qed.

(** One more call. *)
Lemma reached_call {X} (c : call X) r s' s'' out out' h :
  reached s' out h -> sysv_effect c r s' = s'' -> out ++ asked [Ev c r] = out' -> reached s'' out' (Ev c r :: h).
Proof. intros [Ha Hq] <- <-. split; cbn [sysv_after asked]; [by rewrite Ha|by rewrite Hq]. Qed.

Lemma reached_quiet {X} (c : call X) r s' out h :
  reached s' out h -> sysv_effect c r s' = s' -> asked [Ev c r] = [] -> reached s' out (Ev c r :: h).
Proof. intros Hr He Ha. eapply reached_call; [exact Hr|exact He|]. by rewrite Ha, app_nil_r. Qed.

Lemma reached_print t s' out h : reached s' out h -> reached s' (out ++ t) (Ev (Out Stdout t) tt :: h).
Proof. intros Hr. by eapply reached_call. Qed.

(** ** Creating *)

Lemma wp_keyOptions bad opts n flags key (Q : outcome (Z * Z * option Z) -> history -> Prop) h :
  reached s [] h ->
  (forall h', reached s [] h' -> wp (sysv_env s) bad Q h') ->
  (forall h' o k, reached s [] h' -> stops_failing o -> Forall reporting k -> Q o (k ++ h')) ->
  (forall h' keys, reached s [] h' -> Forall2 (key_option s) (List.filter is_key_opt opts) keys ->
    Q (Done (n + Z.of_nat (length keys), Z.lor (Z.lor flags (opt_flag opts "c" IPC_CREAT)) (opt_flag opts "x" IPC_EXCL),
             match last keys with Some k => Some k | None => key end)) h') ->
  wp (sysv_env s) (keyOptions bad opts n flags key) Q h.
Proof.
  intros Hh Hbad Hfail. revert n flags key h Hh. induction opts as [|[opt a] opts IH]; intros n flags key h Hh Hd; cbn [keyOptions].
  { specialize (Hd h [] Hh ltac:(constructor)). cbn in Hd. by rewrite Z.add_0_r, !Z.lor_0_r in Hd. }
  rewrite <- !lor_opt in Hd.
  assert (forall k n' h', reached s [] h' -> is_key_opt (opt, a) = true -> Ascii.eqb opt "c" = false -> Ascii.eqb opt "x" = false ->
    key_option s (opt, a) k -> n' = n + 1 -> wp (sysv_env s) (keyOptions bad opts n' flags (Some k)) Q h') as Hkey.
  { intros k n' h' Hh' Hk Hc Hx Ho ->. apply IH; [done|]. intros h2 keys Hh2 Hf. specialize (Hd h2 (k :: keys) Hh2). cbn [List.filter] in Hd.
    rewrite Hk, Hc, Hx, !Z.lor_0_r in Hd. cbn [length] in Hd.
    replace (n + 1 + Z.of_nat (length keys)) with (n + Z.of_nat (S (length keys))) by lia.
    replace (match last keys with Some k0 => Some k0 | None => Some k end) with (match last (k :: keys) with Some k0 => Some k0 | None => key end); [apply Hd; by constructor|].
    rewrite last_cons. by destruct (last keys). }
  destruct (Ascii.eqb_spec opt "c") as [->|Hc]; [apply IH; [done|]; cbn in Hd; by rewrite Z.lor_0_r in Hd|].
  destruct (Ascii.eqb_spec opt "f") as [->|Hf].
  { apply wp_sys_bind. intros [k|e] [_ Hl]; [|apply wp_errExit_trace; intros o t; by apply Hfail, reached_quiet].
    rewrite (proj1 Hh) in Hl. apply Hkey; [by apply reached_quiet|done..|apply Hl|done]. }
  destruct (Ascii.eqb_spec opt "k") as [->|Hk].
  { destruct (sscanf_li a) as [l|] eqn:Hl; [|apply wp_cmdLineErr_trace; intros o t; by apply Hfail]. apply Hkey; try done. by exists l. }
  destruct (Ascii.eqb_spec opt "p") as [->|Hp]; [by apply Hkey|].
  destruct (Ascii.eqb_spec opt "x") as [->|Hx]; [|by apply Hbad]. apply IH; [done|]. intros h2 keys Hh2 Hf2. cbn in Hd. rewrite Z.lor_0_r in Hd.
  replace (Z.lor (Z.lor flags IPC_EXCL) (opt_flag opts "c" IPC_CREAT)) with (Z.lor (Z.lor flags (opt_flag opts "c" IPC_CREAT)) IPC_EXCL); [by apply Hd|].
  rewrite <- !Z.lor_assoc. f_equal. apply Z.lor_comm.
Qed.

Lemma wp_keyAndFlags (usage : forall A, option (list ascii) -> prog A) bad opts (f : Z * Z -> prog unit) ok :
  (forall A msg (Q : outcome A -> history -> Prop) h, (forall o k, stops_failing o -> Forall reporting k -> Q o (k ++ h)) -> wp (sysv_env s) (usage A msg) Q h) ->
  (forall h key, reached s [] h -> key_of s opts key -> wp (sysv_env s) (f (key, create_flags opts)) (stool_post ok (eq s)) h) ->
  wp (sysv_env s) (kf <- keyAndFlags usage bad opts ;; f kf) (stool_post ok (eq s)) [].
Proof.
  intros Husage Hf. apply wp_bind, wp_bind. assert (reached s [] []) as H0 by done. revert H0. generalize (@nil event). intros h0 H0.
  apply wp_keyOptions; [done| | |].
  - intros h' Hh'. apply Husage. intros o k [->|[->| ->]] Hk; eapply sfails; unfold stops_failing; eauto.
  - intros h' o k Hh' [->|[->| ->]] Hk; eapply sfails; unfold stops_failing; eauto.
  - intros h' keys Hh' Hkeys. cbn. destruct (Z.eqb_spec (0 + Z.of_nat (length keys)) 1) as [Hn|Hn]; cbn [negb].
    + destruct keys as [|k [|k' keys]]; try (cbn in Hn; lia). cbn. apply Hf; [done|].
      destruct (List.filter is_key_opt opts) as [|o [|o' l]] eqn:Hl; inversion Hkeys as [|? ? ? ? Ho Hnil]; subst; [|inversion Hnil]. by exists o.
    + apply Husage. intros o k [->|[->| ->]] Hk; eapply sfails; unfold stops_failing; eauto.
Qed.

Lemma wp_showId msg c k key flags fits new ok (h : history) :
  (forall r s', sysv_legal s' c r -> reply (fun id => may_get s' k key flags id fits new) r) ->
  (forall r s', sysv_effect c r s' = match r with Ok id => got k key flags id new s' | Err _ => s' end) ->
  (forall r, asked [Ev c r] = []) -> reached s [] h ->
  (forall id, may_get s k key flags id fits new -> ok (got k key flags id new s) (dec id ++ [NL])) ->
  wp (sysv_env s) (showId msg c) (stool_post ok (eq s)) h.
Proof.
  intros Hl He Has Hh Hok. apply wp_sys_bind. intros [id|e] [_ Hr].
  - intros [] _. left. split; [done|]. rewrite (proj1 Hh) in Hr. apply Hl in Hr. specialize (Hok id Hr).
    assert (reached (got k key flags id new s) (dec id ++ [NL]) (Ev (Out Stdout (dec id ++ [NL])) tt :: Ev c (Ok id) :: h)) as [-> ->]; [|done].
    eapply (reached_call _ _ (got k key flags id new s) _ []); [|done|done]. eapply reached_call; [exact Hh|by rewrite He|by rewrite Has].
  - apply wp_errExit_trace. eapply (sfails _ _ s); [|done]. apply reached_quiet; [exact Hh|by rewrite He|by rewrite Has].
Qed.

Lemma wp_createUsage {A} operands progName msg (Q : outcome A -> history -> Prop) h :
  (forall o k, stops_failing o -> Forall reporting k -> Q o (k ++ h)) -> wp (sysv_env s) (createUsage operands progName msg) Q h.
Proof. intros HQ. unfold createUsage. by apply wp_usage. Qed.

Lemma svmsg_create_gets argv0 opts args :
  wp (sysv_env s) (svmsg_create_main argv0 opts args) (stool_post (fun s' out => exists key perms id,
    key_of s opts key /\ int_arg args 0 GN_BASE_8 USER_RW perms /\ out = dec id ++ [NL] /\
    gotten s KMsg key (int_of (Z.lor (create_flags opts) perms)) (fun _ => True) (Queue MSGMNB []) id s') (eq s)) [].
Proof.
  unfold svmsg_create_main. refine (wp_keyAndFlags _ _ _ (fun '(key, flags) => _) _ _ _); [intros; by apply wp_createUsage|].
  intros h key Hh Hkey. apply wp_bind, wp_intArg; [by eapply sfails_bind|]. intros perms Hp.
  eapply wp_showId; [by intros [id|e] s'|by intros [id|e] s'|done|done|]. intros id Hm. by exists key, perms, id.
Qed.

(** The sets that semget() accepts for [n] semaphores. *)
Definition holds_sems (n : Z) (x : ipc_obj) : Prop := exists vals, x = SemSet vals /\ n <= Z.of_nat (length vals) /\ vals <> [].

Lemma svsem_create_gets argv0 opts args :
  wp (sysv_env s) (svsem_create_main argv0 opts args) (stool_post (fun s' out => exists key n perms id,
    key_of s opts key /\ (exists a, args !! 0%nat = Some a /\ accepted a 0 n /\ is_int n) /\ int_arg args 1 GN_BASE_8 USER_RW perms /\ out = dec id ++ [NL] /\
    gotten s KSem key (int_of (Z.lor (create_flags opts) perms)) (holds_sems n) (SemSet (replicate (Z.to_nat n) 0)) id s') (eq s)) [].
Proof.
  unfold svsem_create_main. refine (wp_keyAndFlags _ _ _ (fun '(key, flags) => _) _ _ _); [intros; by apply wp_createUsage|].
  intros h key Hh Hkey. destruct args as [|a args]; [apply wp_createUsage; by eapply sfails|].
  apply wp_bind, wp_getInt_trace; [by eapply sfails_bind|]. intros n Ha Hn. apply wp_bind, wp_intArg; [by eapply sfails_bind|]. intros perms Hp.
  eapply (wp_showId _ _ _ _ _ (holds_sems n)); [|by intros [id|e] s'|done|done|].
  - intros [id|e] s'; [|done]. by intros [_ Hm].
  - intros id Hm. exists key, n, perms, id. split_and!; try done. by exists a.
Qed.

Definition holds_bytes (size : Z) (x : ipc_obj) : Prop := exists n b, x = Segment n b /\ size <= n /\ 0 < n.

Lemma svshm_create_gets argv0 opts args :
  wp (sysv_env s) (svshm_create_main argv0 opts args) (stool_post (fun s' out => exists key v perms id,
    key_of s opts key /\ (exists a, args !! 0%nat = Some a /\ accepted a GN_ANY_BASE v) /\ int_arg args 1 GN_BASE_8 USER_RW perms /\ out = dec id ++ [NL] /\
    gotten s KShm key (int_of (Z.lor (create_flags opts) perms)) (holds_bytes (wrapu 64 (int_of v))) (Segment (wrapu 64 (int_of v)) false) id s') (eq s)) [].
Proof.
  unfold svshm_create_main. refine (wp_keyAndFlags _ _ _ (fun '(key, flags) => _) _ _ _); [intros; by apply wp_createUsage|].
  intros h key Hh Hkey. destruct args as [|a args]; [apply wp_createUsage; by eapply sfails|].
  apply wp_bind, wp_getLong; [by eapply sfails_bind|]. intros v Hv. apply wp_bind, wp_intArg; [by eapply sfails_bind|]. intros perms Hp.
  eapply (wp_showId _ _ _ _ _ (holds_bytes (wrapu 64 (int_of v)))); [by intros [id|e] s'|by intros [id|e] s'|done|done|].
  intros id Hm. exists key, v, perms, id. split_and!; try done. by exists a.
Qed.

(** ** Removing and locking *)

Lemma applied_nil k f : applied k f s [] s.
Proof. exists []. split; constructor. Qed.

Lemma applied_snoc k f args a id s' :
  applied k f s args s' -> accepted a 0 id -> is_int id -> ents s' !! (k, id) <> None -> applied k f s (args ++ [a]) (f id s').
Proof.
  intros (ids & Hids & Ha) Hacc Hint He. exists (ids ++ [id]). split; [apply Forall2_app; [done|by apply Forall2_cons; split]|].
  clear Hids Hs. induction Ha as [s'|s0 i ids s' H1 H2 IH]; cbn; (apply acts_cons; [done|]); [apply acts_nil|by apply IH].
Qed.

Lemma wp_ctlAll k what ctl msg f args pre s' out (Q : outcome unit -> history -> Prop) h :
  (forall id r s1, sysv_effect (ctl id) r s1 = if_ok r (f id) s1) ->
  (forall id r s1, sysv_legal s1 (ctl id) r -> reply (fun _ => ents s1 !! (k, id) <> None) r) ->
  (forall id r, asked [Ev (ctl id) r] = []) ->
  reached s' out h -> applied k f s pre s' ->
  (forall h' s'' n o t, reached s'' out h' -> applied k f s (take n (pre ++ args)) s'' -> stops_failing o -> Forall reporting t -> Q o (t ++ h')) ->
  (forall h' s'', reached s'' out h' -> applied k f s (pre ++ args) s'' -> Q (Done tt) h') ->
  wp (sysv_env s) (ctlAll what ctl msg args) Q h.
Proof.
  intros He Hl Has. revert pre s' h. induction args as [|a args IH]; intros pre s' h Hh Hpre Hf Hd; cbn [ctlAll].
  { rewrite app_nil_r in Hd. by eapply Hd. }
  assert (applied k f s (take (length pre) (pre ++ a :: args)) s') as Hpart by (by rewrite take_app_length).
  assert (pre ++ a :: args = (pre ++ [a]) ++ args) as Hpre' by (by rewrite <- app_assoc). rewrite Hpre' in *.
  apply wp_bind, wp_getInt_trace; [intros o t [->|[->| ->]] Ht; (eapply Hf; [exact Hh|exact Hpart| |exact Ht]); unfold stops_failing; auto|].
  intros id Ha Hid. apply wp_sys_bind. intros [u|e] [_ Hr].
  - rewrite (proj1 Hh) in Hr. apply Hl in Hr. apply (IH (pre ++ [a]) (f id s')); [|by apply applied_snoc|done|done].
    eapply reached_call; [exact Hh|by rewrite He|by rewrite Has, app_nil_r].
  - apply wp_errExit_trace. intros o t Ho Ht. eapply Hf; [|exact Hpart|exact Ho|exact Ht].
    apply reached_quiet; [exact Hh|by rewrite He|by rewrite Has].
Qed.

(** All objects are treated, or those before the argument where the program fails. *)
Definition treats (k : ipc_kind) (f : Z -> sysv -> sysv) (argv : list (list ascii)) : outcome unit -> history -> Prop :=
  stool_post (fun s' out => out = [] /\ applied k f s (drop 1 argv) s') (fun s' => exists n, applied k f s (take n (drop 1 argv)) s').

Lemma wp_treats k what ctl msg f argv (p : prog unit) :
  (forall id r s1, sysv_effect (ctl id) r s1 = if_ok r (f id) s1) ->
  (forall id r s1, sysv_legal s1 (ctl id) r -> reply (fun _ => ents s1 !! (k, id) <> None) r) ->
  (forall id r, asked [Ev (ctl id) r] = []) ->
  (forall h s', reached s' [] h -> wp (sysv_env s) p (fun o h' => o = Stop (Exit EXIT_SUCCESS) /\ reached s' [] h') h) ->
  wp (sysv_env s) (ctlAll what ctl msg (drop 1 argv) ;;; p) (treats k f argv) [].
Proof.
  intros He Hl Has Hp. apply wp_bind, (wp_ctlAll k what ctl msg f _ [] s []); [done..|apply applied_nil| |].
  - intros h' s'' n o t Hh Ha [->|[->| ->]] Ht; (eapply sfails; [exact Hh|by exists n| |exact Ht]); unfold stops_failing; auto.
  - intros h' s'' Hh Ha. eapply wp_mono; [|by eapply Hp]. intros o h2 [-> [H1 H2]]. left. by rewrite H1, H2.
Qed.

Lemma rm_removes k what fname ctl argv :
  (forall id r s1, sysv_effect (ctl id) r s1 = if_ok r (del_obj k id) s1) ->
  (forall id r s1, sysv_legal s1 (ctl id) r -> reply (fun _ => ents s1 !! (k, id) <> None) r) ->
  (forall id r, asked [Ev (ctl id) r] = []) ->
  wp (sysv_env s) (rm_main what fname ctl argv) (treats k (del_obj k) argv) [].
Proof.
  intros He Hl Has. unfold rm_main. destruct (_ && _).
  - apply wp_usageErr_trace. eapply sfails; [done|]. exists 0%nat. apply applied_nil.
  - by apply wp_treats.
Qed.

Lemma svmsg_rm_removes argv : wp (sysv_env s) (svmsg_rm_main argv) (treats KMsg (del_obj KMsg) argv) [].
Proof. by apply rm_removes; intros id [u|e]. Qed.

Lemma svsem_rm_removes argv : wp (sysv_env s) (svsem_rm_main argv) (treats KSem (del_obj KSem) argv) [].
Proof. by apply rm_removes; intros id [u|e]. Qed.

Lemma svshm_rm_removes argv : wp (sysv_env s) (svshm_rm_main argv) (treats KShm (del_obj KShm) argv) [].
Proof. by apply rm_removes; intros id [u|e]. Qed.

Lemma svshm_lock_locks argv :
  wp (sysv_env s) (svshm_lock_main argv) (treats KShm (fun id => on_ent KShm id (with_obj (set_locked true))) argv) [].
Proof.
  apply wp_treats; [by intros id [u|e]..|]. intros h s' Hh [] _. split; [done|]. by apply reached_quiet.
Qed.

Lemma svshm_unlock_unlocks argv :
  wp (sysv_env s) (svshm_unlock_main argv) (treats KShm (fun id => on_ent KShm id (with_obj (set_locked false))) argv) [].
Proof. by apply wp_treats; [intros id [u|e]..|]. Qed.

(** ** Messages *)

Lemma on_ent_at k id f p x s1 : ents s1 !! (k, id) = Some (p, x) -> on_ent k id f s1 = put_ent k id (f (p, x)) s1.
Proof. intros H. unfold on_ent. by rewrite H. Qed.

Lemma wp_svmsgSendUsage {A} progName msg (Q : outcome A -> history -> Prop) h :
  (forall o k, stops_failing o -> Forall reporting k -> Q o (k ++ h)) -> wp (sysv_env s) (svmsgSendUsage progName msg) Q h.
Proof. intros HQ. unfold svmsgSendUsage. by apply wp_usage. Qed.

Lemma wp_svmsgReceiveUsage {A} progName msg (Q : outcome A -> history -> Prop) h :
  (forall o k, stops_failing o -> Forall reporting k -> Q o (k ++ h)) -> wp (sysv_env s) (svmsgReceiveUsage progName msg) Q h.
Proof. intros HQ. unfold svmsgReceiveUsage. by apply wp_usage. Qed.

Lemma wp_sendFlags E usageError opts flags (Q : outcome Z -> history -> Prop) h :
  wp E usageError Q h -> (forall flags', Q (Done flags') h) -> wp E (sendFlags usageError opts flags) Q h.
Proof.
  intros Hu Hd. revert flags. induction opts as [|[opt a] opts IH]; intros flags; cbn [sendFlags]; [apply Hd|].
  destruct (Ascii.eqb opt "n"); [apply IH|done].
Qed.

(** The body of the message: the string with its terminator, or nothing. *)
Definition sent_body (args : list (list ascii)) : list ascii := match args !! 2%nat with Some text => text ++ [NUL] | None => [] end.

Lemma svmsg_send_sends argv0 opts args :
  wp (sysv_env s) (svmsg_send_main argv0 opts args) (stool_post (fun s' out => out = [] /\ exists id ty,
    accepted (arg args 0) 0 id /\ accepted (arg args 1) 0 ty /\
    (strlen (sent_body args) <= INT_MAX -> strlen (sent_body args) <= MAX_MTEXT) /\ msg_sent s id (Msg ty (sent_body args)) s') (eq s)) [].
Proof.
  unfold svmsg_send_main. assert (reached s [] []) as Hh by done. apply wp_bind, wp_sendFlags; [apply wp_svmsgSendUsage; by eapply sfails_bind|].
  intros flags. destruct (_ || _); [apply wp_svmsgSendUsage; by eapply sfails|].
  apply wp_bind, wp_getInt_trace; [by eapply sfails_bind|]. intros id Hid _. apply wp_bind, wp_getInt_trace; [by eapply sfails_bind|]. intros ty Hty _.
  assert (forall body, body = sent_body args -> (strlen (sent_body args) <= INT_MAX -> strlen (sent_body args) <= MAX_MTEXT) ->
    wp (sysv_env s) (r <- sys (Msgsnd id (Msg ty body) flags) ;; match r with Err e => errExit e ($"msgsnd") | Ok _ => Halt (Exit EXIT_SUCCESS) end)
      (stool_post (fun s' out => out = [] /\ exists id ty, accepted (arg args 0) 0 id /\ accepted (arg args 1) 0 ty /\
        (strlen (sent_body args) <= INT_MAX -> strlen (sent_body args) <= MAX_MTEXT) /\ msg_sent s id (Msg ty (sent_body args)) s') (eq s)) []) as Hsend.
  { intros body -> Hlen. apply wp_sys_bind. intros [u|e] [_ Hl]; [|apply wp_errExit_trace; by eapply sfails].
    left. split; [done|]. split; [done|]. exists id, ty. split_and!; [done..|]. destruct Hl as (Hpos & b & l & Ho & Hu).
    apply obj_ent in Ho as [p Ho]. exists p, b, l. split_and!; [done..|]. cbn [sysv_after sysv_effect if_ok] in *. by rewrite (on_ent_at _ _ _ _ _ _ Ho). }
  apply wp_bind. unfold sent_body in *. destruct (args !! 2%nat) as [text|]; [|cbn [wp]; by apply Hsend].
  destruct (_ >? _) eqn:Hlong; [apply wp_cmdLineErr_trace; by eapply sfails_bind|]. cbn [wp]. apply Hsend; [done|].
  unfold strlen in *. rewrite length_app in *. cbn [length] in *. intros Hmax. rewrite int_of_id in Hlong by (unfold is_int, INT_MIN; lia).
  rewrite Z.gtb_ltb, Z.ltb_ge in Hlong. lia.
Qed.

Lemma wp_receiveOptions E usageError opts flags type (Q : outcome (Z * Z) -> history -> Prop) h :
  wp E usageError Q h ->
  Q (Done (Z.lor (Z.lor (Z.lor flags (opt_flag opts "e" MSG_NOERROR)) (opt_flag opts "n" IPC_NOWAIT)) (opt_flag opts "x" MSG_EXCEPT), recv_type opts type)) h ->
  wp E (receiveOptions usageError opts flags type) Q h.
Proof.
  intros Hu. revert flags type. induction opts as [|[opt a] opts IH]; intros flags type Hd; cbn [receiveOptions].
  - by rewrite !Z.lor_0_r in Hd.
  - rewrite <- !lor_opt in Hd. unfold recv_type in Hd. cbn [fold_left fst snd] in Hd.
    destruct (Ascii.eqb_spec opt "e") as [->|He]; [|destruct (Ascii.eqb_spec opt "n") as [->|Hn]; [|destruct (Ascii.eqb_spec opt "t") as [->|Ht];
      [|destruct (Ascii.eqb_spec opt "x") as [->|Hx]; [|done]]]]; cbn in Hd; rewrite ?Z.lor_0_r in Hd; apply IH;
      match goal with H : Q (Done (?a, _)) h |- Q (Done (?c, _)) h => replace c with a; [exact H|] end;
      apply Z.bits_inj'; intros i _; rewrite !Z.lor_spec; btauto.
Qed.

Lemma showMessage_shows m s' h :
  reached s' [] h ->
  wp (sysv_env s) (showMessage m) (fun o h' => o = Stop (Exit EXIT_SUCCESS) /\ displayable m /\ reached s' (received_line m) h' \/
    (exists why, o = Stop (Undefined why)) /\ ~ displayable m /\ sysv_after s h' = s') h.
Proof.
  intros Hh. unfold showMessage, displayable. destruct (_ >? MAX_MTEXT) eqn:Hlong.
  { right. split; [by eexists|]. split; [lia|]. apply Hh. }
  intros [] _. rewrite Z.gtb_ltb, Z.ltb_ge in Hlong. unfold received_line.
  destruct (strlen (mtext m) >? 0) eqn:Hz.
  - case_bool_decide as Hn.
    + intros [] _ [] _. left. split; [done|]. split; [auto|].
      pose proof (reached_print [NL] _ _ _ (reached_print ($"; body=" ++ cstring_of (mtext m)) _ _ _ (reached_print ($"Received: type=" ++ dec (mtype m) ++ $"; length=" ++ dec (strlen (mtext m))) _ _ _ Hh))) as Hp.
      rewrite <- !app_assoc in *. exact Hp.
    + right. split; [by eexists|]. split; [|apply Hh]. intros [_ [Hm|Hm]]; [|done]. rewrite Hm in Hz. done.
  - intros [] _. left. split; [done|]. split; [split; [done|]; left; revert Hz; by destruct (mtext m)|].
    pose proof (reached_print [NL] _ _ _ (reached_print ($"Received: type=" ++ dec (mtype m) ++ $"; length=" ++ dec (strlen (mtext m))) _ _ _ Hh)) as Hp. rewrite <- !app_assoc in *. exact Hp.
Qed.

(** What the program asks msgrcv() for. *)
Definition recv_max (args : list (list ascii)) (max : Z) : Prop :=
  match args !! 1%nat with None => max = MAX_MTEXT | Some a => exists n, accepted a 0 n /\ is_int n /\ max = wrapu 64 n end.

(** The message has been taken; the program displays it, or it is undefined what the
    program does with it. *)
Definition receive_post (opts : list (ascii * list ascii)) (args : list (list ascii)) (o : outcome unit) (h : history) : Prop :=
  stops_failing o /\ sysv_after s h = s \/
  exists id max m, accepted (arg args 0) 0 id /\ recv_max args max /\ msg_received s id max (recv_type opts 0) (recv_flags opts) m (sysv_after s h) /\
    (o = Stop (Exit EXIT_SUCCESS) /\ displayable m /\ asked h = received_line m \/ (exists why, o = Stop (Undefined why)) /\ ~ displayable m).

Lemma receive_fails opts args h : reached s [] h -> forall o k, stops_failing o -> Forall reporting k -> receive_post opts args o (k ++ h).
Proof. intros [Hh _] o k Ho Hk. left. by rewrite reporting_after. Qed.

Lemma receive_fails_bind {A} (f : A -> prog unit) opts args h :
  reached s [] h -> forall (o : outcome A) k, stops_failing o -> Forall reporting k ->
  match o with Done a => wp (sysv_env s) (f a) (receive_post opts args) (k ++ h) | Stop e => receive_post opts args (Stop e) (k ++ h) end.
Proof. intros Hh o k [->|[->| ->]] Hk; apply receive_fails; unfold stops_failing; auto. Qed.

Lemma svmsg_receive_receives argv0 opts args :
  wp (sysv_env s) (svmsg_receive_main argv0 opts args) (receive_post opts args) [].
Proof.
  unfold svmsg_receive_main. assert (reached s [] []) as Hh by done. apply wp_bind, wp_receiveOptions; [apply wp_svmsgReceiveUsage; by eapply receive_fails_bind|].
  destruct (_ || _); [apply wp_svmsgReceiveUsage; by eapply receive_fails|].
  apply wp_bind, wp_getInt_trace; [by eapply receive_fails_bind|]. intros id Hid _.
  assert (forall max, recv_max args max -> wp (sysv_env s) (m <- sys (Msgrcv id max (recv_type opts 0) (recv_flags opts)) ;;
    match m with Err e => errExit e ($"msgrcv") | Ok m => showMessage m end) (receive_post opts args) []) as Hrecv.
  { intros max Hmax. apply wp_sys_bind. intros [m|e] [_ Hl]; [|by apply wp_errExit_trace, receive_fails, reached_quiet].
    destruct Hl as (_ & b & l & m0 & l' & Ho & Hsel & Hc). apply obj_ent in Ho as [p Ho].
    eapply wp_mono; [|apply (showMessage_shows m (put_ent KMsg id (p, Queue b l') s))].
    - intros o h' [(-> & Hd & Ha & Hq)|(Hu & Hd & Ha)]; right; exists id, max, m; rewrite Ha; split_and!; try done; [by exists p, b, l, m0, l'|by left|by exists p, b, l, m0, l'|by right].
    - eapply reached_call; [exact Hh| |done]. cbn [sysv_after sysv_effect if_ok] in *. rewrite (on_ent_at _ _ _ _ _ _ Ho).
      unfold with_obj. cbn [fst snd take_msg]. by rewrite Hsel. }
  change (Z.lor (Z.lor (Z.lor 0 (opt_flag opts "e" MSG_NOERROR)) (opt_flag opts "n" IPC_NOWAIT)) (opt_flag opts "x" MSG_EXCEPT)) with (recv_flags opts).
  apply wp_bind. unfold recv_max in Hrecv. destruct (args !! 1%nat) as [a|]; [|cbn [wp]; by apply Hrecv].
  apply wp_bind, wp_getInt_trace; [|intros n Ha Hn; cbn [wp]; apply Hrecv; by exists n].
  intros o k [->|[->| ->]] Hk; apply receive_fails; unfold stops_failing; auto.
Qed.

Lemma svmsg_chqbytes_sets argv :
  wp (sysv_env s) (svmsg_chqbytes_main argv) (stool_post (fun s' out => out = [] /\ exists id n p b l,
    accepted (argv_nth argv 1) 0 id /\ accepted (argv_nth argv 2) 0 n /\ ents s !! (KMsg, id) = Some (p, Queue b l) /\
    s' = put_ent KMsg id (p, Queue (wrapu 64 n) l) s) (eq s)) [].
Proof.
  unfold svmsg_chqbytes_main. assert (reached s [] []) as Hh by done. destruct (_ || _); [apply wp_usageErr_trace; by eapply sfails|].
  apply wp_bind, wp_getInt_trace; [by eapply sfails_bind|]. intros id Hid _. apply wp_sys_bind. intros [ds|e] [_ Hl]; [|apply wp_errExit_trace; by eapply sfails].
  destruct Hl as (p & b & l & He & ->). assert (reached s [] [Ev (Msgctl_stat id) (Ok (Msqid_ds b (p_uid p) (p_gid p) (p_mode p)))]) as Hh1 by done.
  apply wp_bind, wp_getInt_trace; [by eapply sfails_bind|]. intros n Hn _. apply wp_sys_bind.
  intros [u|e] _; [|apply wp_errExit_trace; by eapply sfails]. left. split; [done|]. split; [done|]. exists id, n, p, b, l. split_and!; [done..|].
  cbn [sysv_after sysv_effect if_ok] in *. rewrite (on_ent_at _ _ _ _ _ _ He). by destruct p.
Qed.

(** The state without the queue that a key refers to. *)
Definition without (k : ipc_kind) (key : Z) (s1 : sysv) : sysv := match found s1 k key with Some id => del_obj k id s1 | None => s1 end.

Lemma found_del k key id s1 : found s1 k key = Some id -> found (del_obj k id s1) k key = None.
Proof.
  unfold found. destruct (key =? IPC_PRIVATE); [done|]. intros Hk. cbn. apply map_lookup_filter_None. right. intros id' Hid' Hn. apply Hn.
  cbn. split; [done|]. congruence.
Qed.

Definition demo_flags : Z := Z.lor (Z.lor IPC_CREAT IPC_EXCL) MQ_PERMS.

(** svmsg_demo_server ends with a new, empty queue for its key, if there was an old one
    or not: two rounds are enough. *)
Definition served (s' : sysv) (out : list ascii) : Prop :=
  exists key id, ftoks s KEY_FILE 1 = Some key /\ s' = add_obj KMsg key demo_flags id (Queue MSGMNB []) (without KMsg key s) /\
    ents (without KMsg key s) !! (KMsg, id) = None /\
    out = match found s KMsg key with Some old => $"Removed old message queue (id=" ++ dec old ++ $")" ++ [NL] | None => [] end ++
          $"Queue created with id " ++ dec id ++ [NL].

Definition serving (s' : sysv) : Prop := s' = s \/ exists key, ftoks s KEY_FILE 1 = Some key /\ s' = without KMsg key s.

(** A failure of the loop in a state that [P] allows. *)
Definition fails_in (P : sysv -> Prop) (Q : outcome Z -> history -> Prop) : Prop :=
  forall s' out h o k, P s' -> reached s' out h -> stops_failing o -> Forall reporting k -> Q o (k ++ h).

Lemma wp_newQueue fuel key s' out h (Q : outcome Z -> history -> Prop) :
  found s' KMsg key = None -> reached s' out h -> fails_in (eq s') Q ->
  (forall id h', ents s' !! (KMsg, id) = None -> reached (add_obj KMsg key demo_flags id (Queue MSGMNB []) s') out h' -> Q (Done id) h') ->
  wp (sysv_env s) (createQueue (S fuel) key) Q h.
Proof.
  intros Hf Hh Hfail Hk. cbn [createQueue]. apply wp_sys_bind. intros [id|e] [_ Hl]; rewrite (proj1 Hh) in Hl; unfold sysv_legal, may_get in Hl.
  - rewrite Hf in Hl. destruct Hl as (_ & _ & He & _). cbn [wp]. apply Hk; [done|]. eapply reached_call; [exact Hh| |by rewrite app_nil_r].
    cbn [sysv_effect]. unfold got. by rewrite Hf.
  - destruct (Z.eqb_spec e EEXIST) as [->|Hne]; [by destruct (Hl eq_refl) as [? _]|].
    apply wp_errExit_trace. intros o k. eapply Hfail; [done|]. by apply reached_quiet.
Qed.

(** With an old queue, the first round removes it. *)
Lemma wp_oldQueue fuel key old h (Q : outcome Z -> history -> Prop) :
  found s KMsg key = Some old -> reached s [] h -> fails_in (eq s) Q ->
  (forall h', reached (del_obj KMsg old s) ($"Removed old message queue (id=" ++ dec old ++ $")" ++ [NL]) h' -> wp (sysv_env s) (createQueue fuel key) Q h') ->
  wp (sysv_env s) (createQueue (S fuel) key) Q h.
Proof.
  intros Hf Hh Hfail Hk. cbn [createQueue]. apply wp_sys_bind. intros [id|e] [_ Hl]; rewrite (proj1 Hh) in Hl; unfold sysv_legal, may_get in Hl; rewrite Hf in Hl.
  { by destruct Hl as (_ & Hfl & _). }
  assert (forall X (c : call X) r, sysv_effect c r s = s -> asked [Ev c r] = [] -> forall h, reached s [] h -> reached s [] (Ev c r :: h)) as Hquiet
    by (intros; by apply reached_quiet).
  apply (Hquiet _ (Msgget key (Z.lor (Z.lor IPC_CREAT IPC_EXCL) MQ_PERMS)) (Err e)) in Hh; [|done..].
  destruct (e =? EEXIST); [|apply wp_errExit_trace; intros o k; by eapply Hfail].
  apply wp_sys_bind. intros [id|e2] [_ Hl2]; [|apply wp_errExit_trace; intros o k; eapply Hfail; [done|]; by apply reached_quiet].
  rewrite (proj1 Hh) in Hl2. unfold sysv_legal, may_get in Hl2. rewrite Hf in Hl2. destruct Hl2 as (-> & _ & _).
  apply (Hquiet _ (Msgget key 0) (Ok old)) in Hh; [|cbn [sysv_effect]; unfold got; by rewrite Hf|done].
  apply wp_sys_bind. intros [u|e3] _; [|apply wp_errExit_trace; intros o k; eapply Hfail; [done|]; by apply reached_quiet].
  intros [] _. apply Hk. eapply (reached_print _ _ []). by eapply reached_call.
Qed.

Lemma svmsg_demo_server_serves fuel : wp (sysv_env s) (svmsg_demo_server_main (S (S fuel))) (stool_post served serving) [].
Proof.
  assert (reached s [] []) as Hh by done. assert (serving s) as Hp by (by left). apply wp_sys_bind. intros [key|e] [_ Hl]; [|apply wp_errExit_trace; by eapply sfails].
  destruct Hl as [_ Hkey]. assert (reached s [] [Ev (Ftok KEY_FILE 1) (Ok key)]) as Hh1 by done. revert Hh1. generalize ([Ev (Ftok KEY_FILE 1) (Ok key)]). intros h Hh1.
  change (sysv_after s []) with s in Hkey. apply wp_bind.
  assert (forall out, out = match found s KMsg key with Some old => $"Removed old message queue (id=" ++ dec old ++ $")" ++ [NL] | None => [] end ->
    forall id h', ents (without KMsg key s) !! (KMsg, id) = None -> reached (add_obj KMsg key demo_flags id (Queue MSGMNB []) (without KMsg key s)) out h' ->
    wp (sysv_env s) (print Stdout ($"Queue created with id " ++ dec id ++ [NL]) ;;; Halt (Exit EXIT_SUCCESS)) (stool_post served serving) h') as Hend.
  { intros out -> id h' He [Ha Hq] [] _. left. split; [done|]. exists key, id. split_and!; [done|by cbn [sysv_after sysv_effect]; rewrite Ha|done|].
    cbn [asked]. by rewrite Hq. }
  assert (forall P : sysv -> Prop, (forall s', P s' -> serving s') -> fails_in P (fun o h' => match o with
    | Done id => wp (sysv_env s) (print Stdout ($"Queue created with id " ++ dec id ++ [NL]) ;;; Halt (Exit EXIT_SUCCESS)) (stool_post served serving) h'
    | Stop e => stool_post served serving (Stop e) h' end)) as Hfails.
  { intros P HP s' out h' o k Hs' Hr. by eapply (sfails_bind (fun id => print Stdout ($"Queue created with id " ++ dec id ++ [NL]) ;;; Halt (Exit EXIT_SUCCESS))), HP. }
  assert (without KMsg key s = match found s KMsg key with Some id => del_obj KMsg id s | None => s end) as Hw by done.
  destruct (found s KMsg key) as [old|] eqn:Hf.
  - eapply wp_oldQueue; [exact Hf|exact Hh1|by apply Hfails; intros s' <-|]. intros h' Hh2. eapply wp_newQueue; [by eapply found_del|exact Hh2| |].
    + apply Hfails. intros s' <-. right. by exists key.
    + rewrite <- Hw. intros id h2 He Hr. by eapply Hend.
  - eapply wp_newQueue; [exact Hf|exact Hh1|by apply Hfails; intros s' <-|]. rewrite <- Hw. intros id h2 He Hr. by eapply Hend.
Qed.

(** ** Semaphores and segments *)

Lemma wp_demoLine text s' out (Q : outcome unit -> history -> Prop) h :
  reached s' out h ->
  (forall pid now h', reached s' (out ++ dec pid ++ text ++ now ++ [NL]) h' -> Q (Done tt) h') -> wp (sysv_env s) (demoLine text) Q h.
Proof.
  intros Hh HQ pid _ now _ [] _. apply (HQ pid (default ($"(null)") now)). apply reached_print. by repeat apply reached_quiet.
Qed.

(** A new set, whose semaphore has the value that is given. *)
Definition demo_made (v : option Z) (id : Z) (s' : sysv) : Prop :=
  0 <= id /\ ents s !! (KSem, id) = None /\ s' = add_obj KSem IPC_PRIVATE USER_RW id (SemSet [default 0 v]) s.

Definition demo_op (argv : list (list ascii)) (s' : sysv) : Prop :=
  exists id op p vals vals', accepted (argv_nth argv 1) 0 id /\ accepted (argv_nth argv 2) 0 op /\ is_int op /\
    ents s !! (KSem, id) = Some (p, SemSet vals) /\ sems_apply [Sembuf 0 (wraps 16 op) 0] vals = Some vals' /\ s' = put_ent KSem id (p, SemSet vals') s.

Lemma svsem_demo_does argv :
  wp (sysv_env s) (svsem_demo_main argv) (stool_post (fun s' out =>
    (length argv = 2%nat /\ exists id v, accepted (argv_nth argv 1) 0 v /\ val_ok v /\ demo_made (Some v) id s' /\ out = $"Semaphore ID = " ++ dec id ++ [NL]) \/
    (length argv = 3%nat /\ demo_op argv s' /\ exists pid t1 t2 pid',
      out = dec pid ++ $": about to semop at  " ++ t1 ++ [NL] ++ dec pid' ++ $": semop completed at " ++ t2 ++ [NL]))
    (fun s' => s' = s \/ length argv = 2%nat /\ exists id, demo_made None id s')) [].
Proof.
  unfold svsem_demo_main. assert (reached s [] []) as Hh by done. destruct (_ || _ || _) eqn:Hargs; [apply wp_usageErr_trace; eapply sfails; [done|by left]|].
  apply orb_false_iff in Hargs as [[H1 H2]%orb_false_iff _]. apply Nat.ltb_ge in H1, H2. destruct (Nat.eqb_spec (length argv) 2) as [Hn|Hn].
  - apply wp_sys_bind. intros [id|e] [_ Hl]; [|apply wp_errExit_trace; eapply sfails; [done|by left]]. destruct Hl as [_ Hl].
    unfold may_get in Hl. cbn in Hl. destruct Hl as (_ & Hid & He & _).
    assert (reached (add_obj KSem IPC_PRIVATE USER_RW id (SemSet [0]) s) [] [Ev (Semget IPC_PRIVATE 1 USER_RW) (Ok id)]) as Hh1 by done.
    assert (add_obj KSem IPC_PRIVATE USER_RW id (SemSet [0]) s = s \/ length argv = 2%nat /\ exists i, demo_made None i (add_obj KSem IPC_PRIVATE USER_RW id (SemSet [0]) s)) as Hpart
      by (right; split; [done|]; by exists id).
    apply wp_bind, wp_getInt_trace; [by eapply sfails_bind|]. intros v Hv _. apply wp_sys_bind.
    intros [u|e] [_ Hl]; [|apply wp_errExit_trace; by eapply sfails]. destruct Hl as (vals & _ & _ & Hval).
    intros [] _. left. split; [done|]. left. split; [done|]. exists id, v. split_and!; [done..| |done]. split_and!; [done..|].
    cbn [sysv_after sysv_effect if_ok]. erewrite on_ent_at; [|cbn; by rewrite lookup_insert_eq]. unfold put_ent, add_obj. cbn. by rewrite insert_insert_eq.
  - assert (length argv = 3%nat) as Hn3 by lia. apply wp_bind, wp_getInt_trace; [eapply sfails_bind; [done|by left]|]. intros id Hid _.
    apply wp_bind, wp_getInt_trace; [eapply sfails_bind; [done|by left]|]. intros op Hop Hint. apply wp_bind. eapply wp_demoLine; [done|]. intros pid now h1 Hh1.
    apply wp_sys_bind. intros [u|e] [_ Hl]; [|apply wp_errExit_trace; eapply sfails; [by apply reached_quiet|by left]].
    rewrite (proj1 Hh1) in Hl. destruct Hl as (vals & Ho & Ha). apply obj_ent in Ho as [p Ho]. destruct (sems_apply _ vals) as [vals'|] eqn:Hvals; [|done].
    apply wp_bind. eapply (wp_demoLine _ (put_ent KSem id (p, SemSet vals') s)).
    { eapply reached_call; [exact Hh1| |by rewrite app_nil_r]. cbn [sysv_effect if_ok]. rewrite (on_ent_at _ _ _ _ _ _ Ho). unfold with_obj. cbn [fst snd]. by rewrite Hvals. }
    intros pid' now' h2 [Ha2 Hq2]. left. split; [done|]. right. rewrite Ha2, Hq2. split; [done|]. split; [by exists id, op, p, vals, vals'|].
    exists pid, now, now', pid'. by rewrite <- !app_assoc.
Qed.

(** The values of the arguments as unsigned short. *)
Definition short_values (args : list (list ascii)) (vals : list Z) : Prop :=
  Forall2 (fun a v => exists n, accepted a 0 n /\ is_int n /\ v = wrapu 16 n) args vals.

Lemma wp_semValues args (Q : outcome (list Z) -> history -> Prop) h :
  (forall o k, stops_failing o -> Forall reporting k -> Q o (k ++ h)) -> (forall vals, short_values args vals -> Q (Done vals) h) ->
  wp (sysv_env s) (semValues args) Q h.
Proof.
  revert Q. induction args as [|a args IH]; intros Q Hf Hd; cbn [semValues]; [apply Hd; constructor|].
  apply wp_bind, wp_getInt_trace; [intros o k [->|[->| ->]] Hk; apply Hf; unfold stops_failing; auto|]. intros v Hv Hint. apply wp_bind, IH.
  - intros o k [->|[->| ->]] Hk; apply Hf; unfold stops_failing; auto.
  - intros vals Hvals. apply Hd. constructor; [by exists v|done].
Qed.

Lemma svsem_setall_sets argv :
  wp (sysv_env s) (svsem_setall_main argv) (stool_post (fun s' out => exists id p old vals pid,
    accepted (argv_nth argv 1) 0 id /\ ents s !! (KSem, id) = Some (p, SemSet old) /\ short_values (drop 2 argv) vals /\
    length vals = length old /\ Forall val_ok vals /\ s' = put_ent KSem id (p, SemSet vals) s /\
    out = $"Semaphore values changed (PID=" ++ dec pid ++ $")" ++ [NL]) (eq s)) [].
Proof.
  unfold svsem_setall_main. assert (reached s [] []) as Hh by done. destruct (_ || _); [apply wp_usageErr_trace; by eapply sfails|].
  apply wp_bind, wp_getInt_trace; [by eapply sfails_bind|]. intros id Hid _. apply wp_sys_bind. intros [n|e] _; [|apply wp_errExit_trace; by eapply sfails].
  destruct (negb _); [apply wp_cmdLineErr_trace; by eapply (sfails _ _ s [])|]. apply wp_sys_bind. intros [] _; cbn [negb]; [|apply wp_errExit_trace; by eapply (sfails _ _ s [])].
  assert (reached s [] [Ev (Alloc (2 * n)) true; Ev (Semctl_stat id) (Ok n)]) as Hh1 by done.
  apply wp_bind, wp_semValues; [by eapply sfails_bind|]. intros vals Hvals. apply wp_sys_bind. intros [u|e] [_ Hl]; [|apply wp_errExit_trace; by eapply (sfails _ _ s [])].
  destruct Hl as (old & Ho & Hlen & Hok). apply obj_ent in Ho as [p Ho]. change (sysv_after s _) with s in Ho.
  intros pid _ [] _. left. split; [done|]. exists id, p, old, vals, pid. split_and!; [done..| |done]. cbn [sysv_after sysv_effect if_ok]. by rewrite (on_ent_at _ _ _ _ _ _ Ho).
Qed.

(** The attachments made, in order: identifier, address, flags and the address returned. *)
Fixpoint attachments (h : history) : list (Z * Z * Z * Z) :=
  match h with
  | [] => []
  | Ev c r :: h =>
      attachments h ++ match c in call X return X -> list (Z * Z * Z * Z) with
                       | Shmat id addr flags => fun r => match r with Ok p => [(id, addr, flags, p)] | Err _ => [] end
                       | _ => fun _ => [] end r
  end.

Lemma attachments_app k h : attachments (k ++ h) = attachments h ++ attachments k.
Proof. induction k as [|[X c r] k IH]; cbn; [by rewrite app_nil_r|]. by rewrite IH, app_assoc. Qed.

Lemma reporting_attachments k : Forall reporting k -> attachments k = [].
Proof. induction 1 as [|[X c r] k Hc _ IH]; [done|]. cbn [attachments]. rewrite IH. by destruct c. Qed.

(** What an argument shmid:addr[rR] asks for: after the colon, the letter r selects the
    flag SHM_RND (bit 13 in <sys/shm.h>), the letter R the flag SHM_RDONLY (bit 12), and no other is set. *)
Definition attach_arg (a : list ascii) (at_ : Z * Z * Z * Z) : Prop :=
  let '(id, addr, flags, p) := at_ in
  exists rest, st_end (strtol a 0) = ":"%char :: rest /\ id = int_of (st_val (strtol a 0)) /\ addr = st_val (strtol rest 0) /\
    (Z.testbit flags 13 = true <-> "r"%char ∈ rest) /\ (Z.testbit flags 12 = true <-> "R"%char ∈ rest) /\
    (forall i, 0 <= i -> i <> 12 -> i <> 13 -> Z.testbit flags i = false) /\ ents s !! (KShm, id) <> None.

Definition attach_line (j : nat) (x : list ascii * (Z * Z * Z * Z)) : list ascii :=
  dec (Z.of_nat j) ++ $": " ++ fst x ++ $" ==> " ++ pointer (snd (snd x)) ++ [NL].

(** The segments that the arguments [args] name were attached, as they ask. *)
Definition attached (args : list (list ascii)) (h : history) : Prop := Forall2 attach_arg args (attachments h).

Definition attach_post (argv : list (list ascii)) (o : outcome unit) (h : history) : Prop :=
  sysv_after s h = s /\
  (o = Stop (Exit EXIT_SUCCESS) /\ attached (drop 1 argv) h /\
   (exists pid, asked h = $"SHMLBA = 4096 (0x1000), PID = " ++ dec pid ++ [NL] ++
      concat (imap (fun j => attach_line (S j)) (zip (drop 1 argv) (attachments h))) ++ $"Sleeping 5 seconds" ++ [NL]) \/
   stops_failing o /\ exists n, attached (take n (drop 1 argv)) h).

Lemma shm_flags_bits b1 b2 i : 0 <= i ->
  Z.testbit (Z.lor (if b1 : bool then SHM_RND else 0) (if b2 : bool then SHM_RDONLY else 0)) i = (b1 && (i =? 13)) || (b2 && (i =? 12)).
Proof.
  intros Hi. rewrite Z.lor_spec. change SHM_RND with (2 ^ 13). change SHM_RDONLY with (2 ^ 12).
  destruct b1, b2; rewrite ?Z.bits_0, ?Z.pow2_bits_eqb by lia; cbn [andb]; by rewrite ?(Z.eqb_sym i).
Qed.

Lemma strchr_is_in t c : (if strchr t c then true else false) = true <-> c ∈ t.
Proof.
  pose proof (strchr_None t c) as H. destruct (strchr t c) as [[]|]; split; try done.
  - intros _. destruct (decide (c ∈ t)); [done|]. by apply H in n.
  - intros Hc. by destruct (proj1 H eq_refl).
Qed.

Lemma parseAttach_arg a id addr flags p :
  parseAttach a = Some (id, addr, flags) -> ents s !! (KShm, id) <> None -> attach_arg a (id, addr, flags, p).
Proof.
  unfold parseAttach. destruct (st_end (strtol a 0)) as [|c rest] eqn:He; [done|].
  destruct (Ascii.eqb_spec c ":") as [->|]; [|done]. intros [= <- <- <-] Hid. exists rest. rewrite <- !strchr_is_in.
  assert (forall (o : option (list ascii * list ascii)) n, (if o then n else 0) = if (if o then true else false) : bool then n else 0) as Hb by (by intros []).
  rewrite (Hb (strchr rest "r")), (Hb (strchr rest "R")). split_and!; [done..| | | |done].
  - by rewrite shm_flags_bits, andb_true_r, andb_false_r, orb_false_r.
  - by rewrite shm_flags_bits, andb_true_r, andb_false_r.
  - intros i Hi H12 H13. rewrite shm_flags_bits by done. apply Z.eqb_neq in H12, H13. by rewrite H12, H13, !andb_false_r.
Qed.

(** What the loop over [rest] does when [args] are done already. *)
Definition attach_loop (args rest : list (list ascii)) (h : history) (o : outcome unit) (h' : history) : Prop :=
  sysv_after s h' = s /\
  (o = Done tt /\ attached (args ++ rest) h' /\
     (exists new, attachments h' = attachments h ++ new /\ length new = length rest /\
        asked h' = asked h ++ concat (imap (fun j => attach_line (S (length args + j))) (zip rest new))) \/
   stops_failing o /\ exists n, attached (args ++ take n rest) h').

Lemma attach_fails args rest h0 h : sysv_after s h = s -> attached args h ->
  forall o k, stops_failing o -> Forall reporting k -> attach_loop args rest h0 o (k ++ h).
Proof.
  intros Hh Hat o k Ho Hk. split; [by rewrite reporting_after|]. right. split; [done|]. exists 0%nat. cbn [take]. rewrite app_nil_r.
  unfold attached. by rewrite attachments_app, (reporting_attachments k), app_nil_r.
Qed.

Lemma wp_attachAll argv0 args rest h :
  sysv_after s h = s -> attached args h -> wp (sysv_env s) (attachAll argv0 (S (length args)) rest) (attach_loop args rest h) h.
Proof.
  revert args h. induction rest as [|a rest IH]; intros args h Hh Hat; cbn [attachAll].
  { split; [done|]. left. rewrite app_nil_r. split_and!; [done..|]. exists []. by rewrite !app_nil_r. }
  destruct (parseAttach a) as [[[id addr] flags]|] eqn:Ha; [|by apply wp_usageLines, attach_fails].
  apply wp_sys_bind. intros [p|e] [_ Hl].
  2:{ apply wp_errExit_trace, attach_fails; [done|]. unfold attached. cbn [attachments]. by rewrite app_nil_r. }
  rewrite Hh in Hl. intros [] _. set (line := Ev (Out Stdout _) tt). set (h1 := line :: _). replace (S (length args)) with (length (args ++ [a])) by len.
  assert (attachments h1 = attachments h ++ [(id, addr, flags, p)]) as Hat1 by (cbn; by rewrite app_nil_r).
  assert (asked h1 = asked h ++ attach_line (S (length args)) (a, (id, addr, flags, p))) as Hq1 by (cbn; by rewrite app_nil_r).
  eapply wp_mono; [|apply (IH (args ++ [a]) h1)]; [|done|].
  - intros o h' [Hs' [(-> & Hat' & new & Hnew & Hlen & Hq)|[Ho [n Hn]]]]; (split; [done|]).
    + left. rewrite <- app_assoc in Hat'. split_and!; [done..|]. exists ((id, addr, flags, p) :: new).
      rewrite Hnew, Hat1, Hq, Hq1, <- !app_assoc. split_and!; [done|cbn; by rewrite Hlen|]. f_equal. cbn [zip_with imap concat]. rewrite Nat.add_0_r. f_equal. f_equal.
      apply imap_ext. intros i x _. cbn. f_equal. len.
    + right. split; [done|]. exists (S n). cbn [take]. by rewrite <- app_assoc in Hn.
  - unfold attached. rewrite Hat1. apply Forall2_app; [done|]. constructor; [|done]. by apply parseAttach_arg.
Qed.

Lemma svshm_attach_attaches argv : wp (sysv_env s) (svshm_attach_main argv) (attach_post argv) [].
Proof.
  intros pid _ [] _. apply wp_bind. cbn [wp]. apply wp_bind. eapply wp_mono; [|apply (wp_attachAll _ [] (drop 1 argv)); [done|constructor]].
  intros o h' [Hs' [(-> & Hat & new & Hnew & Hlen & Hq)|[Ho [n Hn]]]].
  - intros [] _ [] _. split; [done|]. left. cbn [app] in Hat. unfold attached in *. cbn [attachments]. rewrite !app_nil_r. split_and!; [done..|].
    exists pid. change (attachments h' = new) in Hnew. rewrite Hnew.
    assert (dec SHMLBA = $"4096" /\ hex SHMLBA = $"0x1000") as [Hd Hx] by (split; vm_compute; reflexivity).
    rewrite Hd, Hx in Hq. cbn [asked] in *. rewrite app_nil_r, Hq. cbn [app]. rewrite <- !app_assoc. reflexivity.
  - destruct Ho as [->|[->| ->]]; (split; [done|]; right; split; [unfold stops_failing; by auto|by exists n]).
Qed.

(** ** What follows from the operations *)

(** A string that svmsg_send put in an empty queue is what svmsg_receive displays. *)
Lemma sysv_send_receive p b id ty text max flags m s1 s2 :
  ents s !! (KMsg, id) = Some (p, Queue b []) -> NUL ∉ text -> strlen text < max -> max <= MAX_MTEXT ->
  msg_sent s id (Msg ty (text ++ [NUL])) s1 -> msg_received s1 id max 0 flags m s2 ->
  displayable m /\ received_line m = $"Received: type=" ++ dec ty ++ $"; length=" ++ dec (strlen text + 1) ++ $"; body=" ++ text ++ [NL] /\ ents s2 = ents s.
Proof.
  intros He Hnul Hlen Hmax (p' & b' & l & He' & Hty & _ & ->) (p2 & b2 & l2 & m0 & l' & He2 & Hsel & Hc & ->).
  rewrite He in He'. injection He' as <- <- <-. cbn in He2. rewrite lookup_insert_eq in He2. injection He2 as <- <- <-. cbn in Hsel. injection Hsel as <- <-.
  assert (strlen (text ++ [NUL]) = strlen text + 1) as Hl by (unfold strlen; rewrite length_app; cbn [length]; lia).
  destruct Hc as [[_ ->]|[Hlong _]]; [|cbn [mtext] in Hlong; lia]. split_and!.
  - split; cbn [mtext]; [lia|]. right. apply elem_of_app. right. by left.
  - unfold received_line. cbn [mtext mtype]. rewrite Hl, cstring_of_app by done.
    destruct (strlen text + 1 >? 0) eqn:Hz; [by rewrite <- !app_assoc|]. unfold strlen in Hz. rewrite Z.gtb_ltb, Z.ltb_ge in Hz. lia.
  - cbn. by rewrite insert_insert_eq, insert_id.
Qed.
End Facts.

(** C5: the programs on System V objects implement operations on queues, semaphore
    sets and segments.  If no other process interferes, whatever fails, each program
    either succeeds and has done its operation, with the output that shows its
    result, or fails and has left the objects as they were, apart from the stages
    named here.  The creating programs return the object of the key that exactly one
    option selects, or create it with the mode and flags of the arguments; the
    removing and locking programs treat their arguments in order, up to the one that
    fails; send appends a message, and receive takes the first one of the type it
    selects and displays it if it is a string that fits the buffer, and otherwise runs
    into undefined behaviour; chqbytes changes only the limit of the queue; setall and
    demo set the values after reducing them to 16 bits; the demonstration server needs
    two rounds to have a new and empty queue for its key, an old one being removed;
    attach leaves the objects as they were and attaches the segments that its arguments
    name, in order and up to one that fails, each at the address after the colon, with
    SHM_RND exactly if an r and SHM_RDONLY exactly if an R follows the colon, and
    displays the address that each shmat() call returned.
    Every possible reply keeps the objects consistent, exactly the objects given are
    removed, with their keys, and a string sent to an empty queue is displayed by
    receive, which leaves the queue as it was. *)
Theorem sysv_tools {T : ErrText} s argv argv0 opts args fuel :
  sysv_ok s ->
  (forall X (c : call X) r, sysv_legal s c r -> sysv_ok (sysv_effect c r s)) /\
  (wp (sysv_env s) (svmsg_create_main argv0 opts args) (stool_post s (fun s' out => exists key perms id,
     key_of s opts key /\ int_arg args 0 GN_BASE_8 USER_RW perms /\ out = dec id ++ [NL] /\
     gotten s KMsg key (int_of (Z.lor (create_flags opts) perms)) (fun _ => True) (Queue MSGMNB []) id s') (eq s)) [] /\
   wp (sysv_env s) (svsem_create_main argv0 opts args) (stool_post s (fun s' out => exists key n perms id,
     key_of s opts key /\ (exists a, args !! 0%nat = Some a /\ accepted a 0 n /\ is_int n) /\ int_arg args 1 GN_BASE_8 USER_RW perms /\ out = dec id ++ [NL] /\
     gotten s KSem key (int_of (Z.lor (create_flags opts) perms)) (holds_sems n) (SemSet (replicate (Z.to_nat n) 0)) id s') (eq s)) [] /\
   wp (sysv_env s) (svshm_create_main argv0 opts args) (stool_post s (fun s' out => exists key v perms id,
     key_of s opts key /\ (exists a, args !! 0%nat = Some a /\ accepted a GN_ANY_BASE v) /\ int_arg args 1 GN_BASE_8 USER_RW perms /\ out = dec id ++ [NL] /\
     gotten s KShm key (int_of (Z.lor (create_flags opts) perms)) (holds_bytes (wrapu 64 (int_of v))) (Segment (wrapu 64 (int_of v)) false) id s') (eq s)) []) /\
  (wp (sysv_env s) (svmsg_rm_main argv) (treats s KMsg (del_obj KMsg) argv) [] /\
   wp (sysv_env s) (svsem_rm_main argv) (treats s KSem (del_obj KSem) argv) [] /\
   wp (sysv_env s) (svshm_rm_main argv) (treats s KShm (del_obj KShm) argv) [] /\
   wp (sysv_env s) (svshm_lock_main argv) (treats s KShm (fun id => on_ent KShm id (with_obj (set_locked true))) argv) [] /\
   wp (sysv_env s) (svshm_unlock_main argv) (treats s KShm (fun id => on_ent KShm id (with_obj (set_locked false))) argv) []) /\
  (wp (sysv_env s) (svmsg_send_main argv0 opts args) (stool_post s (fun s' out => out = [] /\ exists id ty,
     accepted (arg args 0) 0 id /\ accepted (arg args 1) 0 ty /\
     (strlen (sent_body args) <= INT_MAX -> strlen (sent_body args) <= MAX_MTEXT) /\ msg_sent s id (Msg ty (sent_body args)) s') (eq s)) [] /\
   wp (sysv_env s) (svmsg_receive_main argv0 opts args) (receive_post s opts args) [] /\
   wp (sysv_env s) (svmsg_chqbytes_main argv) (stool_post s (fun s' out => out = [] /\ exists id n p b l,
     accepted (argv_nth argv 1) 0 id /\ accepted (argv_nth argv 2) 0 n /\ ents s !! (KMsg, id) = Some (p, Queue b l) /\
     s' = put_ent KMsg id (p, Queue (wrapu 64 n) l) s) (eq s)) [] /\
   wp (sysv_env s) (svmsg_demo_server_main (S (S fuel))) (stool_post s (served s) (serving s)) []) /\
  (wp (sysv_env s) (svsem_demo_main argv) (stool_post s (fun s' out =>
     (length argv = 2%nat /\ exists id v, accepted (argv_nth argv 1) 0 v /\ val_ok v /\ demo_made s (Some v) id s' /\ out = $"Semaphore ID = " ++ dec id ++ [NL]) \/
     (length argv = 3%nat /\ demo_op s argv s' /\ exists pid t1 t2 pid',
       out = dec pid ++ $": about to semop at  " ++ t1 ++ [NL] ++ dec pid' ++ $": semop completed at " ++ t2 ++ [NL]))
     (fun s' => s' = s \/ length argv = 2%nat /\ exists id, demo_made s None id s')) [] /\
   wp (sysv_env s) (svsem_setall_main argv) (stool_post s (fun s' out => exists id p old vals pid,
     accepted (argv_nth argv 1) 0 id /\ ents s !! (KSem, id) = Some (p, SemSet old) /\ short_values (drop 2 argv) vals /\
     length vals = length old /\ Forall val_ok vals /\ s' = put_ent KSem id (p, SemSet vals) s /\
     out = $"Semaphore values changed (PID=" ++ dec pid ++ $")" ++ [NL]) (eq s)) [] /\
   wp (sysv_env s) (svshm_attach_main argv) (attach_post s argv) []) /\
  (forall k ids s', acts k (del_obj k) s ids s' -> NoDup ids /\ (forall i, i ∈ ids -> ents s !! (k, i) <> None) /\
    (forall k' i, ents s' !! (k', i) = if bool_decide (k' = k /\ i ∈ ids) then None else ents s !! (k', i)) /\
    (forall k' key, keyed s' !! (k', key) = match keyed s !! (k', key) with
                                            | Some i => if bool_decide (k' = k /\ i ∈ ids) then None else Some i | None => None end)) /\
  (forall p b id ty text max flags m s1 s2, ents s !! (KMsg, id) = Some (p, Queue b []) -> NUL ∉ text -> strlen text < max -> max <= MAX_MTEXT ->
    msg_sent s id (Msg ty (text ++ [NUL])) s1 -> msg_received s1 id max 0 flags m s2 ->
    displayable m /\ received_line m = $"Received: type=" ++ dec ty ++ $"; length=" ++ dec (strlen text + 1) ++ $"; body=" ++ text ++ [NL] /\ ents s2 = ents s).
Proof.
  intros Hs. split; [intros; by apply sysv_effect_ok|]. split_and!.
  - by apply svmsg_create_gets. - by apply svsem_create_gets. - by apply svshm_create_gets.
  - by apply svmsg_rm_removes. - by apply svsem_rm_removes. - by apply svshm_rm_removes. - by apply svshm_lock_locks. - by apply svshm_unlock_unlocks.
  - by apply svmsg_send_sends. - by apply svmsg_receive_receives. - by apply svmsg_chqbytes_sets. - by apply svmsg_demo_server_serves.
  - by apply svsem_demo_does. - by apply svsem_setall_sets. - by apply svshm_attach_attaches.
  - intros k ids s'. by apply removes_exactly.
  - intros p b id ty text max flags m s1 s2. by apply sysv_send_receive.
Qed.

(** ** Witness *)

(** A queue with a string of type 3 behind one of type 2. *)
Definition demo_sysv : sysv :=
  Sysv {[ (KMsg, 77) := 5 ]} {[ (KMsg, 5) := (Ipc_perm 0 0 384, Queue MSGMNB [Msg 2 ($"two" ++ [NUL]); Msg 3 ($"three" ++ [NUL])]) ]} (0, 0) (fun _ _ => None).

Definition demo_sysv_kernel (h : history) {X} (c : call X) : X :=
  match c in call X return X with
  | Msgrcv id max type flags =>
      match obj (sysv_after demo_sysv h) KMsg id with
      | Some (Queue _ l) =>
          match msg_select type flags l with
          | Some (m, _) => if decide (0 <= max /\ strlen (mtext m) <= max) then Ok m else Err EIO
          | None => Err EIO
          end
      | _ => Err EIO
      end
  | c => failing_kernel h _ c
  end.

Lemma demo_sysv_legal h X (c : call X) : sysv_env demo_sysv h X c (demo_sysv_kernel h c).
Proof.
  split; destruct c; try apply posix_inhabited; try done; cbn [demo_sysv_kernel];
    destruct (obj (sysv_after demo_sysv h) KMsg qid) as [[b l|vals|n b]|] eqn:Ho; try done;
    destruct (msg_select type flags l) as [[m l']|] eqn:Hm; try done; case_decide as Hd; try done.
  - cbn. unfold strlen in Hd. lia.
  - split; [apply Hd|]. exists b, l, m, l'. split_and!; [done..|]. left. by split; [apply Hd|].
Qed.

Lemma demo_sysv_ok : sysv_ok demo_sysv.
Proof.
  split; cbn.
  - intros k key id [[= <- <-] <-]%lookup_singleton_Some. split; [done|]. by rewrite lookup_singleton_eq.
  - intros k key key' id [[= <- <-] <-]%lookup_singleton_Some [[= <-] _]%lookup_singleton_Some. done.
  - intros k id p x [[= <- <-] [= <- <-]]%lookup_singleton_Some. split_and!; [done..|]. repeat constructor; done.
Qed.

Definition demo_run := run (@demo_sysv_kernel) (svmsg_receive_main (T := demo_text) ($"svmsg_receive") [("t"%char, $"3")] [$"5"]) [].

Lemma sysv_tools_witness :
  asked (snd demo_run) = $"Received: type=3; length=6; body=three" ++ [NL] /\
  exists id max m, msg_received demo_sysv id max 3 0 m (sysv_after demo_sysv (snd demo_run)).
Proof.
  split; [vm_compute; reflexivity|].
  destruct (sysv_tools (T := demo_text) demo_sysv [] ($"svmsg_receive") [("t"%char, $"3")] [$"5"] 0 demo_sysv_ok) as (_ & _ & _ & (_ & H & _) & _).
  apply (wp_run _ (@demo_sysv_kernel)) in H; [|apply demo_sysv_legal]. fold demo_run in H.
  destruct H as [[Ho _]|(id & max & m & _ & _ & Hm & _)]; [|by exists id, max, m].
  assert (fst demo_run = Stop (Exit EXIT_SUCCESS)) as He by (vm_compute; reflexivity). rewrite He in Ho. by destruct Ho as [?|[?|?]].
Defined.
