(* ===== verification/CondVar.v ===== *)
(** * threads/prod_condvar.c and prod_no_condvar.c: one consumer, many producers

    Every argument is the number of units that one thread produces; main consumes
    them until it has as many as all arguments together.  In prod_condvar.c main
    sleeps on a condition variable while there is nothing to consume, in
    prod_no_condvar.c it polls.  Every statement between two synchronization
    points, every iteration of the inner loop and every pthread call is a step; the
    steps of the threads and of main interleave freely, main may wake up
    spuriously, and any pthread call may fail, which ends the process.  An int that
    leaves its range ends it too. *)

From S2P Require Import Prelude Sys LibErrors ProdCons ThreadIncr.

(** The next statement of a producer: not yet created, the head of its loop with
    sleep(1), pthread_mutex_lock, [avail++], pthread_mutex_unlock,
    pthread_cond_signal, the end. *)
Inductive prod_pc := UNone | ULoop | ULock | UAdd | UUnlock | USignal | UEnd.

(** main: pthread_create for thread [j], pthread_mutex_lock, the test of the loop
    around pthread_cond_wait, asleep in it, awake without the mutex, the loop that
    consumes, pthread_mutex_unlock. *)
Inductive main_pc := NCreate (j : nat) | NLock | NTest | NWait | NRelock | NTake | NUnlock.

#[export] Instance prod_pc_eq_dec : EqDecision prod_pc.
Proof. solve_decision. Defined.
#[export] Instance main_pc_eq_dec : EqDecision main_pc.
Proof. solve_decision. Defined.

(** [u_left]: iterations of the loop that are left, the current one included. *)
Record prod_thread := ProdThread { u_pc : prod_pc; u_left : nat }.

(** [consumed_log]: the values of numConsumed that have been printed, the last one
    first. *)
Record cv_state := CvState {
  units : Z; cv_mtx : bool; producers : list prod_thread; cv_main : main_pc;
  totRequired : Z; numConsumed : Z; cv_done : bool; consumed_log : list Z; cv_ended : option ending }.

Section CondVar.
(** [uses_cond]: prod_condvar.c; [counts]: atoi() of the arguments. *)
Context (uses_cond : bool) (counts : list Z).

Definition cv_init : cv_state :=
  CvState 0 false ((fun n => ProdThread UNone (Z.to_nat n)) <$> counts) (NCreate 0) 0 0 false [] None.

Definition set_units (u : Z) (s : cv_state) : cv_state :=
  CvState u (cv_mtx s) (producers s) (cv_main s) (totRequired s) (numConsumed s) (cv_done s) (consumed_log s) (cv_ended s).
Definition set_mtx (b : bool) (s : cv_state) : cv_state :=
  CvState (units s) b (producers s) (cv_main s) (totRequired s) (numConsumed s) (cv_done s) (consumed_log s) (cv_ended s).
Definition set_producer (i : nat) (t : prod_thread) (s : cv_state) : cv_state :=
  CvState (units s) (cv_mtx s) (<[i := t]> (producers s)) (cv_main s) (totRequired s) (numConsumed s) (cv_done s) (consumed_log s) (cv_ended s).
Definition set_main (p : main_pc) (s : cv_state) : cv_state :=
  CvState (units s) (cv_mtx s) (producers s) p (totRequired s) (numConsumed s) (cv_done s) (consumed_log s) (cv_ended s).
Definition ends (e : ending) (s : cv_state) : cv_state :=
  CvState (units s) (cv_mtx s) (producers s) (cv_main s) (totRequired s) (numConsumed s) (cv_done s) (consumed_log s) (Some e).

(** pthread_cond_signal(). *)
Definition signal (s : cv_state) : cv_state := match cv_main s with NWait => set_main NRelock s | _ => s end.

(** threadFunc(): the next statement of producer [i]; [None] where it waits. *)
Definition producer_step (i : nat) (s : cv_state) : option cv_state :=
  match producers s !! i with
  | None => None
  | Some (ProdThread pc n) =>
      let goto pc' := set_producer i (ProdThread pc' n) in
      match pc with
      | UNone | UEnd => None
      | ULoop => Some (goto (if (0 <? n)%nat then ULock else UEnd) s)
      | ULock => if cv_mtx s then None else Some (goto UAdd (set_mtx true s))
      | UAdd => if units s =? INT_MAX then Some (ends Overflows s) else Some (goto UUnlock (set_units (units s + 1) s))
      | UUnlock =>
          let s' := set_mtx false s in
          if uses_cond then Some (goto USignal s') else Some (set_producer i (ProdThread ULoop (pred n)) s')
      | USignal => Some (set_producer i (ProdThread ULoop (pred n)) (signal s))
      end
  end.

(** One iteration of the loop that consumes. *)
Definition take_unit (s : cv_state) : cv_state :=
  let n := numConsumed s + 1 in
  CvState (units s - 1) (cv_mtx s) (producers s) (cv_main s) (totRequired s) n (totRequired s <=? n) (n :: consumed_log s) (cv_ended s).

(** main(); spurious wake-ups are steps of their own. *)
Definition main_step (s : cv_state) : option cv_state :=
  match cv_main s with
  | NCreate j =>
      match producers s !! j, counts !! j with
      | Some t, Some n =>
          let tot := totRequired s + n in
          if (tot >? INT_MAX) || (tot <? INT_MIN) then Some (ends Overflows s)
          else Some (CvState (units s) (cv_mtx s) (<[j := ProdThread ULoop (u_left t)]> (producers s)) (NCreate (S j))
                             tot (numConsumed s) (cv_done s) (consumed_log s) (cv_ended s))
      | _, _ => Some (set_main NLock s)
      end
  | NLock => if cv_mtx s then None else Some (set_main (if uses_cond then NTest else NTake) (set_mtx true s))
  | NTest => Some (if units s =? 0 then set_main NWait (set_mtx false s) else set_main NTake s)
  | NWait => None
  | NRelock => if cv_mtx s then None else Some (set_main NTest (set_mtx true s))
  | NTake =>
      if 0 <? units s then
        if numConsumed s =? INT_MAX then Some (ends Overflows s) else Some (take_unit s)
      else Some (set_main NUnlock s)
  | NUnlock => let s' := set_mtx false s in Some (if cv_done s then ends (Exits EXIT_SUCCESS) s' else set_main NLock s')
  end.

(** The statements that make a pthread call. *)
Definition prod_calls (t : prod_thread) : bool := match u_pc t with ULock | UUnlock | USignal => true | _ => false end.
Definition main_calls (s : cv_state) : bool :=
  match cv_main s with NCreate j => (j <? length (producers s))%nat | NTest => units s =? 0 | NTake => false | _ => true end.

(** Steps in which nothing fails and nobody wakes up without a signal. *)
Inductive cv_regular (s : cv_state) : cv_state -> Prop :=
  | cv_producer i s' : cv_ended s = None -> producer_step i s = Some s' -> cv_regular s s'
  | cv_mains s' : cv_ended s = None -> main_step s = Some s' -> cv_regular s s'.

Inductive cv_step (s : cv_state) : cv_state -> Prop :=
  | cv_goes s' : cv_regular s s' -> cv_step s s'
  | cv_spurious : cv_ended s = None -> cv_main s = NWait -> cv_step s (set_main NRelock s)
  | cv_producer_fails i t : cv_ended s = None -> producers s !! i = Some t -> prod_calls t = true -> cv_step s (ends (Exits EXIT_FAILURE) s)
  | cv_main_fails : cv_ended s = None -> main_calls s = true -> cv_step s (ends (Exits EXIT_FAILURE) s).

Definition cv_reachable : cv_state -> Prop := rtc cv_step cv_init.

(** ** The invariant *)

Definition holds_mtx (t : prod_thread) : nat := match u_pc t with UAdd | UUnlock => 1 | _ => 0 end.
Definition main_holds (p : main_pc) : nat := match p with NTest | NTake | NUnlock => 1 | _ => 0 end.

(** Units that a producer has still to add. *)
Definition owed (t : prod_thread) : nat := match u_pc t with UUnlock | USignal => pred (u_left t) | _ => u_left t end.

Definition will_signal (t : prod_thread) : Prop := u_pc t = UUnlock \/ u_pc t = USignal.

Definition thread_ok (t : prod_thread) : Prop :=
  match u_pc t with ULock | UAdd | UUnlock | USignal => (0 < u_left t)%nat | UEnd => u_left t = 0%nat | _ => True end.

(** The values that main prints, the last one first. *)
Fixpoint countdown (n : nat) : list Z := match n with O => [] | S m => Z.of_nat (S m) :: countdown m end.

Definition in_wait (p : main_pc) : bool := match p with NTest | NWait | NRelock => true | _ => false end.

Definition all_units : nat := count Z.to_nat counts.
Definition zsum (l : list Z) : Z := fold_right Z.add 0 l.

Record cv_inv (s : cv_state) : Prop := CvInv {
  i_length : length (producers s) = length counts;
  i_units : units s + numConsumed s + Z.of_nat (count owed (producers s)) = Z.of_nat all_units;
  i_range : 0 <= units s /\ 0 <= numConsumed s;
  i_mutex : cv_ended s = None -> (count holds_mtx (producers s) + main_holds (cv_main s) = if cv_mtx s then 1 else 0)%nat;
  i_threads : forall i t, producers s !! i = Some t -> thread_ok t;
  i_log : consumed_log s = countdown (Z.to_nat (numConsumed s));
  i_create : match cv_main s with
             | NCreate j => numConsumed s = 0 /\ totRequired s = zsum (take j counts) /\ (forall i t, producers s !! i = Some t -> u_pc t = UNone <-> (j <= i)%nat)
             | _ => totRequired s = zsum counts /\ (forall i t, producers s !! i = Some t -> u_pc t <> UNone)
             end;
  i_done : cv_done s = (0 <? numConsumed s) && (totRequired s <=? numConsumed s);
  i_goes_on : cv_done s = true -> cv_main s = NTake \/ cv_main s = NUnlock;
  i_cond : in_wait (cv_main s) = true -> uses_cond = true;
  i_wait : cv_main s = NWait -> 0 < units s -> exists i t, producers s !! i = Some t /\ will_signal t;
  i_unlock : cv_main s = NUnlock -> units s = 0;
  i_exit : cv_ended s = Some (Exits EXIT_SUCCESS) -> units s = 0 /\ cv_done s = true
}.

Lemma count_map {A B} (f : B -> nat) (g : A -> B) (l : list A) : count f (g <$> l) = count (fun x => f (g x)) l.
Proof. induction l as [|x l IH]; [done|]. rewrite fmap_cons. cbn. by rewrite IH. Qed.

Lemma cv_inv_init : cv_inv cv_init.
Proof.
  split; cbn; try done.
  - by rewrite length_fmap.
  - by rewrite count_map, !Z.add_0_l.
  - intros _. enough (count holds_mtx ((fun n => ProdThread UNone (Z.to_nat n)) <$> counts) = 0%nat) by lia.
    by induction counts.
  - intros i t. rewrite list_lookup_fmap. intros (n & _ & ->)%fmap_Some. done.
  - split_and!; [done..|]. intros i t. rewrite list_lookup_fmap. intros (n & _ & ->)%fmap_Some. cbn. split; [lia|done].
Qed.

(** A producer changes its own state, the units, the mutex and main. *)
Lemma cv_inv_update s i t t' u (m : bool) p :
  cv_inv s -> cv_ended s = None -> producers s !! i = Some t -> u_pc t <> UNone -> u_pc t' <> UNone -> thread_ok t' ->
  u + Z.of_nat (owed t') = units s + Z.of_nat (owed t) -> 0 <= u ->
  (holds_mtx t' + main_holds p + (if cv_mtx s then 1 else 0) = holds_mtx t + main_holds (cv_main s) + (if m then 1 else 0))%nat ->
  p = cv_main s \/ cv_main s = NWait /\ p = NRelock ->
  (p = NWait -> 0 < u -> will_signal t' \/ 0 < units s /\ ~ will_signal t) -> (p = NUnlock -> u = units s) ->
  cv_inv (CvState u m (<[i := t']> (producers s)) p (totRequired s) (numConsumed s) (cv_done s) (consumed_log s) (cv_ended s)).
Proof.
  intros [Hlen Hu Hr Hm Ht Hlog Hc Hd Hg Hcv Hw Hun Hex] He Hi Hpc Hpc' Hok Hou H0 Hh Hp Hsig Hunl. specialize (Hm He).
  pose proof (count_insert owed _ _ _ t' Hi) as Hco. pose proof (count_insert holds_mtx _ _ _ t' Hi) as Hch.
  assert (forall j x, <[i := t']> (producers s) !! j = Some x -> j = i /\ x = t' \/ j <> i /\ producers s !! j = Some x) as Hins.
  { intros j x. rewrite list_lookup_insert_Some. intros [(-> & -> & _)|[? ?]]; auto. }
  split; cbn; try done.
  - by rewrite length_insert.
  - lia.
  - lia.
  - intros _. lia.
  - intros j x Hj. destruct (Hins _ _ Hj) as [[_ ->]|[_ Hx]]; [done|by eapply Ht].
  - assert (forall j x, <[i := t']> (producers s) !! j = Some x -> exists y, producers s !! j = Some y /\ (u_pc x = UNone <-> u_pc y = UNone)) as Hsame.
    { intros j x Hj. destruct (Hins _ _ Hj) as [[-> ->]|[_ Hx]]; [by exists t|by exists x]. }
    destruct Hp as [->|[Hmain ->]].
    + destruct (cv_main s); try (destruct Hc as [Hc1 Hc2]; split; [done|]; intros j0 x Hx; destruct (Hsame _ _ Hx) as (y & Hy & Hxy); rewrite Hxy; by eapply Hc2).
      destruct Hc as (Hc0 & Hc1 & Hc2). split_and!; [done..|]. intros j0 x Hx. destruct (Hsame _ _ Hx) as (y & Hy & Hxy). rewrite Hxy. by apply Hc2.
    + rewrite Hmain in Hc. destruct Hc as [Hc1 Hc2]. split; [done|]. intros j0 x Hx. destruct (Hsame _ _ Hx) as (y & Hy & Hxy). rewrite Hxy. by eapply Hc2.
  - intros Hdn. destruct (Hg Hdn) as [Hg'|Hg']; destruct Hp as [->|[Hp1 ->]]; auto; congruence.
  - destruct Hp as [->|[Hp ->]]; [done|]. rewrite Hp in Hcv. by apply Hcv.
  - intros -> Hpu. destruct Hp as [Hp|[_ [=]]]. symmetry in Hp. pose proof (Hw Hp) as Hpos.
    destruct (Hsig eq_refl Hpu) as [Hs|[Hus Hs]].
    + exists i, t'. split; [|done]. apply list_lookup_insert_eq. by eapply lookup_lt_Some.
    + destruct (Hpos Hus) as (j & x & Hj & Hx). exists j, x. split; [|done]. rewrite list_lookup_insert_ne; [done|]. intros ->. congruence.
  - intros ->. rewrite (Hunl eq_refl). destruct Hp as [Hp|[_ [=]]]. by apply Hun.
  - rewrite He. done.
Qed.

(** A step of a producer. *)
Lemma cv_inv_producer i s s' : cv_inv s -> cv_ended s = None -> producer_step i s = Some s' -> cv_inv s'.
Proof.
  intros Hinv He Hs. pose proof Hinv as [Hlen Hu Hr Hm Ht Hlog Hc Hd Hg Hcv Hw Hun Hex]. specialize (Hm He).
  unfold producer_step in Hs. destruct (producers s !! i) as [[pc n]|] eqn:Hi; [|done]. pose proof (Ht _ _ Hi) as Hti.
  pose proof (count_elem holds_mtx _ _ _ Hi) as Hle.
  destruct pc; try done; cbn in Hti.
  - injection Hs as <-. eapply (cv_inv_update s i _ _ (units s) (cv_mtx s) (cv_main s)); [done..| | | | | | | |]; destruct (Nat.ltb_spec 0 n); cbn; try done; try lia; auto;
      intros Hmain Hpos; right; (split; [done|]); intros [[=]|[=]].
  - destruct (cv_mtx s) eqn:Hmtx; [done|]. injection Hs as <-.
    eapply (cv_inv_update s i _ _ (units s) true (cv_main s)); try done; cbn; try lia; auto; [by rewrite Hmtx|].
    intros Hmain Hpos. right. split; [done|]. intros [[=]|[=]].
  - destruct (units s =? INT_MAX); injection Hs as <-; [by split|].
    eapply (cv_inv_update s i _ _ (units s + 1) (cv_mtx s) (cv_main s)); try done; cbn; try lia; auto.
    + intros _ _. left. by left.
    + intros Hmain. rewrite Hmain in Hm. cbn in Hm. cbn in Hle. destruct (cv_mtx s); lia.
  - destruct uses_cond; injection Hs as <-.
    + eapply (cv_inv_update s i _ _ (units s) false (cv_main s)); try done; cbn in *; try lia; auto; [destruct (cv_mtx s); lia|].
      intros _ _. left. by right.
    + eapply (cv_inv_update s i _ _ (units s) false (cv_main s)); try done; cbn in *; try lia; auto; [destruct (cv_mtx s); lia|].
      intros Hmain. rewrite Hmain in Hcv. by specialize (Hcv eq_refl).
  - injection Hs as <-. destruct (decide (cv_main s = NWait)) as [Hmain|Hmain].
    + unfold signal. rewrite Hmain. eapply (cv_inv_update s i _ _ (units s) (cv_mtx s) NRelock); try done; cbn in *; rewrite ?Hmain; try lia; auto.
    + replace (signal s) with s by (unfold signal; by destruct (cv_main s)).
      eapply (cv_inv_update s i _ _ (units s) (cv_mtx s) (cv_main s)); try done; cbn in *; try lia; auto.
Qed.

(** main moves on without touching the producers. *)
Lemma cv_inv_move s (m : bool) p :
  cv_inv s -> cv_ended s = None -> (forall j, cv_main s <> NCreate j) -> (forall j, p <> NCreate j) ->
  (main_holds p + (if cv_mtx s then 1 else 0) = main_holds (cv_main s) + (if m then 1 else 0))%nat ->
  (cv_done s = true -> p = NTake \/ p = NUnlock) -> (in_wait p = true -> uses_cond = true) -> (p = NWait -> units s = 0) -> (p = NUnlock -> units s = 0) ->
  cv_inv (set_main p (set_mtx m s)).
Proof.
  intros [Hlen Hu Hr Hm Ht Hlog Hc Hd Hg Hcv Hw Hun Hex] He Hnc Hnp Hh Hdn Hcond Hwait Hunl. specialize (Hm He). split; cbn; try done.
  - intros _. lia.
  - destruct p; try (by destruct (Hnp j)); destruct (cv_main s); try done; by destruct (Hnc j).
  - intros Hp. rewrite (Hwait Hp). lia.
Qed.

Lemma cv_inv_create s j t n :
  cv_inv s -> cv_ended s = None -> cv_main s = NCreate j -> producers s !! j = Some t -> counts !! j = Some n ->
  cv_inv (CvState (units s) (cv_mtx s) (<[j := ProdThread ULoop (u_left t)]> (producers s)) (NCreate (S j))
                  (totRequired s + n) (numConsumed s) (cv_done s) (consumed_log s) (cv_ended s)).
Proof.
  intros [Hlen Hu Hr Hm Ht Hlog Hc Hd Hg Hcv Hw Hun Hex] He Hmain Hj Hn. specialize (Hm He). rewrite Hmain in *. destruct Hc as (Hz & Htot & Hnone).
  assert (u_pc t = UNone) as Ht0 by (by apply (Hnone _ _ Hj)). destruct t as [pc l]. cbn in Ht0. subst pc. cbn [u_left].
  pose proof (count_insert owed _ _ _ (ProdThread ULoop l) Hj) as Hco. pose proof (count_insert holds_mtx _ _ _ (ProdThread ULoop l) Hj) as Hch. cbn in Hco, Hch.
  split; cbn; try done.
  - by rewrite length_insert.
  - lia.
  - intros _. cbn in Hm. lia.
  - intros i x. rewrite list_lookup_insert_Some. intros [(-> & <- & _)|[_ Hi]]; [done|by eapply Ht].
  - split_and!; [done| |].
    + rewrite (take_S_r _ _ _ Hn). unfold zsum. rewrite fold_right_app. cbn. rewrite Htot. unfold zsum. clear.
      induction (take j counts) as [|x l IH]; cbn; [lia|]. rewrite <- IH. lia.
    + intros i x. rewrite list_lookup_insert_Some. intros [(-> & <- & _)|[Hne Hi]]; cbn; [split; [done|lia]|]. rewrite (Hnone _ _ Hi). lia.
  - rewrite Hz in *. cbn in *. done.
  - intros Hdn. by destruct (Hg Hdn).
Qed.

(** A step of main. *)
Lemma cv_inv_main s s' : cv_inv s -> cv_ended s = None -> main_step s = Some s' -> cv_inv s'.
Proof.
  intros Hinv He Hs. pose proof Hinv as [Hlen Hu Hr Hm Ht Hlog Hc Hd Hg Hcv Hw Hun Hex]. specialize (Hm He). unfold main_step in Hs.
  assert (forall e, e <> Exits EXIT_SUCCESS -> cv_inv (ends e s)) as Hends by (intros e Hne; split; cbn; try done; by intros [= ->]).
  destruct (cv_main s) as [j| | | | | |] eqn:Hmain; cbn in Hm.
  - destruct (producers s !! j) as [t|] eqn:Hj; [destruct (counts !! j) as [n|] eqn:Hn|].
    + destruct (_ || _); injection Hs as <-; [by apply Hends|by apply cv_inv_create].
    + apply lookup_ge_None in Hn. apply lookup_lt_Some in Hj. lia.
    + injection Hs as <-. destruct Hc as (Hz & Htot & Hnone). apply lookup_ge_None in Hj. split; cbn; try done.
      * rewrite take_ge in Htot by lia. split; [done|]. intros i x Hi. rewrite (Hnone _ _ Hi). apply lookup_lt_Some in Hi. lia.
      * rewrite Hz in Hd. cbn in Hd. rewrite Hd. done.
  - destruct (cv_mtx s) eqn:Hmtx; [done|]. injection Hs as <-. apply cv_inv_move; try done; rewrite ?Hmain, ?Hmtx; try done; try (destruct uses_cond; done).
    intros Hdn. destruct (Hg Hdn); congruence.
  - injection Hs as <-. destruct (Z.eqb_spec (units s) 0) as [Hz|Hz].
    + apply cv_inv_move; try done; rewrite ?Hmain; try done; [destruct (cv_mtx s); cbn; lia|by intros Hdn; destruct (Hg Hdn)].
    + change (set_main NTake s) with (set_main NTake (set_mtx (cv_mtx s) s)). apply cv_inv_move; try done; rewrite ?Hmain; try done; auto.
  - done.
  - destruct (cv_mtx s) eqn:Hmtx; [done|]. injection Hs as <-. apply cv_inv_move; try done; rewrite ?Hmain, ?Hmtx; try done. by intros Hdn; destruct (Hg Hdn).
  - destruct (Z.ltb_spec 0 (units s)) as [Hpos|Hz].
    + destruct (Z.eqb_spec (numConsumed s) INT_MAX); injection Hs as <-; [by apply Hends|]. unfold take_unit. rewrite Hmain. split; cbn; try done; try lia; auto.
      * rewrite Hlog. replace (Z.to_nat (numConsumed s + 1)) with (S (Z.to_nat (numConsumed s))) by lia. cbn [countdown]. f_equal. lia.
      * congruence.
    + injection Hs as <-. change (set_main NUnlock s) with (set_main NUnlock (set_mtx (cv_mtx s) s)).
      apply cv_inv_move; try done; rewrite ?Hmain; try done; auto. lia.
  - injection Hs as <-. destruct (cv_done s) eqn:Hdn; [split; cbn; rewrite ?Hmain, ?Hdn; try done; auto|].
    apply cv_inv_move; try done; rewrite ?Hmain, ?Hdn; try done. destruct (cv_mtx s); cbn; lia.
Qed.

Lemma cv_inv_step s s' : cv_inv s -> cv_step s s' -> cv_inv s'.
Proof.
  intros Hinv Hs. assert (forall e, e <> Exits EXIT_SUCCESS -> cv_inv (ends e s)) as Hends.
  { intros e Hne. destruct Hinv. split; cbn; try done; by intros [= ->]. }
  destruct Hs as [s' [i s'' He Hs|s'' He Hs]|He Hmain|i t He Ht Hc|He Hc]; [by eapply cv_inv_producer|by eapply cv_inv_main| |by apply Hends|by apply Hends].
  change (set_main NRelock s) with (set_main NRelock (set_mtx (cv_mtx s) s)). pose proof (i_goes_on _ Hinv) as Hg. pose proof (i_cond _ Hinv) as Hcv.
  rewrite Hmain in *. apply cv_inv_move; try done; rewrite ?Hmain; try done. intros Hdn. by destruct (Hg Hdn).
Qed.

Lemma cv_inv_reachable s : cv_reachable s -> cv_inv s.
Proof.
  unfold cv_reachable. intros Hr. assert (cv_inv cv_init) as Hi by apply cv_inv_init. revert Hi.
  induction Hr as [|s1 s2 s3 H12 _ IH]; [done|]. intros Hi. by eapply IH, cv_inv_step.
Qed.

(** ** Progress *)

Lemma zsum_nonneg : Forall (fun n => 0 <= n) counts -> zsum counts = Z.of_nat all_units.
Proof. unfold zsum, all_units. induction 1 as [|n l Hn _ IH]; [done|]. cbn. rewrite IH. lia. Qed.

Lemma cv_consumed s : cv_inv s -> Forall (fun n => 0 <= n) counts ->
  cv_done s = (0 <? numConsumed s) && (Z.of_nat all_units <=? numConsumed s).
Proof.
  intros Hinv Hn. rewrite (i_done _ Hinv). pose proof (i_create _ Hinv) as Hc. rewrite <- zsum_nonneg by done.
  destruct (cv_main s); by destruct Hc as [-> _].
Qed.

(** While main sleeps and units are missing, a producer can make a step. *)
Lemma producer_goes s :
  cv_inv s -> cv_ended s = None -> cv_main s = NWait -> cv_mtx s = false -> (0 < count owed (producers s))%nat -> exists i s', producer_step i s = Some s'.
Proof.
  intros Hinv He Hmain Hmtx Ho. destruct (count_pos _ _ Ho) as (i & [pc n] & Hi & Hpos). exists i. unfold producer_step. rewrite Hi, Hmtx.
  pose proof (i_create _ Hinv) as Hc. rewrite Hmain in Hc. destruct Hc as [_ Hc]. specialize (Hc _ _ Hi). pose proof (i_threads _ Hinv _ _ Hi) as Ht. cbn in *.
  destruct pc; cbn in *; try done; try (by eexists); try (by case_match; eexists); lia.
Qed.

Lemma cv_no_deadlock s :
  Forall (fun n => 0 <= n) counts -> (0 < all_units)%nat -> cv_inv s -> cv_ended s = None -> exists s', cv_regular s s'.
Proof.
  intros Hn Hpos Hinv He. pose proof (i_mutex _ Hinv He) as Hm. destruct (cv_mtx s) eqn:Hmtx.
  - destruct (decide (main_holds (cv_main s) = 0)%nat) as [Hz|Hz].
    + destruct (count_pos holds_mtx (producers s)) as (i & [pc n] & Hi & Hh); [lia|].
      assert (exists s', producer_step i s = Some s') as [s' Hs']; [|exists s'; by eapply cv_producer].
      unfold producer_step. rewrite Hi. destruct pc; cbn in Hh; try lia; case_match; by eexists.
    + assert (exists s', main_step s = Some s') as [s' Hs']; [|exists s'; by apply cv_mains].
      unfold main_step. destruct (cv_main s); cbn in Hz; try done; try (by eexists). case_match; [case_match|]; by eexists.
  - assert (main_holds (cv_main s) = 0%nat) as Hz by lia. destruct (decide (cv_main s = NWait)) as [Hmain|Hmain].
    + assert (exists i s', producer_step i s = Some s') as (i & s' & Hs'); [|exists s'; by eapply cv_producer].
      destruct (decide (0 < count owed (producers s))%nat) as [Ho|Ho]; [by apply producer_goes|].
      assert (cv_done s = false) as Hdn by (destruct (cv_done s) eqn:Hd; [destruct (i_goes_on _ Hinv Hd); congruence|done]).
      rewrite cv_consumed in Hdn by done. pose proof (i_units _ Hinv). pose proof (i_range _ Hinv).
      destruct (i_wait _ Hinv Hmain) as (i & [pc n] & Hi & Hsig); [apply andb_false_iff in Hdn as [Hdn|Hdn]; [apply Z.ltb_ge in Hdn|apply Z.leb_gt in Hdn]; lia|].
      exists i. unfold producer_step. rewrite Hi. destruct Hsig as [Hpc|Hpc]; cbn in Hpc; subst pc; [|by eexists]. destruct uses_cond; by eexists.
    + assert (exists s', main_step s = Some s') as [s' Hs']; [|exists s'; by apply cv_mains].
      unfold main_step. rewrite Hmtx. destruct (cv_main s); cbn in Hz; try done; try (by eexists). repeat case_match; by eexists.
Qed.

(** ** Runs end *)

Definition rank (s : cv_state) : nat :=
  match cv_main s with
  | NCreate _ => 10 | NLock => 4 | NTest => 3 | NWait => 0 | NRelock => 4 | NTake => if 0 <? units s then 2 else 9 | NUnlock => 8
  end.

Definition thread_work (t : prod_thread) : nat :=
  match u_pc t with UNone => 6 * u_left t + 2 | ULoop => 6 * u_left t + 1 | ULock => 6 * u_left t | UAdd => 6 * u_left t - 1
  | UUnlock => 6 * u_left t - 2 | USignal => 6 * u_left t - 3 | UEnd => 0 end.

Definition work (s : cv_state) : nat :=
  12 * count thread_work (producers s) + 8 * Z.to_nat (units s) + rank s + match cv_ended s with None => 1 | Some _ => 0 end.

(** A regular step other than a poll in vain: main of prod_no_condvar.c locks the
    mutex while there is no unit. *)
Inductive cv_useful (s : cv_state) : cv_state -> Prop :=
  | useful_producer i s' : cv_ended s = None -> producer_step i s = Some s' -> cv_useful s s'
  | useful_main s' : cv_ended s = None -> main_step s = Some s' -> uses_cond = true \/ cv_main s <> NLock \/ units s <> 0 -> cv_useful s s'.

Lemma work_producer i s s' : cv_inv s -> cv_ended s = None -> producer_step i s = Some s' -> (work s' < work s)%nat.
Proof.
  intros Hinv He Hs. unfold producer_step in Hs. destruct (producers s !! i) as [[pc n]|] eqn:Hi; [|done].
  pose proof (i_mutex _ Hinv He) as Hm. pose proof (count_elem holds_mtx _ _ _ Hi) as Hle. pose proof (i_range _ Hinv). pose proof (i_threads _ Hinv _ _ Hi) as Ht.
  pose proof (fun y => count_insert thread_work _ _ _ y Hi) as Hw. unfold work. rewrite He.
  destruct pc; try done; cbn in Ht.
  - injection Hs as <-. destruct (Nat.ltb_spec 0 n); [specialize (Hw (ProdThread ULock n))|specialize (Hw (ProdThread UEnd n))]; cbn in *; rewrite He; unfold rank; cbn; lia.
  - destruct (cv_mtx s); [done|]. injection Hs as <-. specialize (Hw (ProdThread UAdd n)). cbn in *. rewrite He. unfold rank. cbn. lia.
  - destruct (units s =? INT_MAX); injection Hs as <-; [cbn; unfold rank; cbn; lia|]. specialize (Hw (ProdThread UUnlock n)). cbn in *. rewrite He.
    assert (cv_main s <> NTake) as Hne by (intros Hx; rewrite Hx in Hm; cbn in Hm; destruct (cv_mtx s); lia). unfold rank. cbn. destruct (cv_main s); try done; lia.
  - destruct uses_cond; injection Hs as <-.
    + specialize (Hw (ProdThread USignal n)). cbn in *. rewrite He. unfold rank. cbn. lia.
    + specialize (Hw (ProdThread ULoop (pred n))). cbn in *. rewrite He. unfold rank. cbn. lia.
  - injection Hs as <-. specialize (Hw (ProdThread ULoop (pred n))). cbn in Hw. unfold signal, rank. destruct (cv_main s) eqn:Hmain; cbn; rewrite ?Hmain, ?He; cbn; lia.
Qed.

Lemma work_main s s' :
  cv_inv s -> cv_ended s = None -> main_step s = Some s' -> uses_cond = true \/ cv_main s <> NLock \/ units s <> 0 -> (work s' < work s)%nat.
Proof.
  intros Hinv He Hs Huse. pose proof (i_range _ Hinv). pose proof (i_create _ Hinv) as Hc. unfold main_step in Hs. unfold work. rewrite He.
  destruct (cv_main s) as [j| | | | | |] eqn:Hmain.
  - destruct (producers s !! j) as [[pc n]|] eqn:Hj; [destruct (counts !! j) as [c|]|].
    + destruct (_ || _); injection Hs as <-; [cbn; unfold rank; cbn; lia|]. destruct Hc as (_ & _ & Hnone).
      assert (pc = UNone) as -> by (by apply (Hnone _ _ Hj)). pose proof (count_insert thread_work _ _ _ (ProdThread ULoop n) Hj) as Hw. cbn in *. rewrite He. unfold rank. cbn. rewrite Hmain. lia.
    + injection Hs as <-. cbn. rewrite He. unfold rank. cbn. rewrite Hmain. lia.
    + injection Hs as <-. cbn. rewrite He. unfold rank. cbn. rewrite Hmain. lia.
  - destruct (cv_mtx s); [done|]. injection Hs as <-. cbn. rewrite He. unfold rank. cbn. rewrite Hmain. destruct uses_cond; [lia|].
    destruct Huse as [?|[?|?]]; try done. rewrite (proj2 (Z.ltb_lt 0 (units s))) by lia. lia.
  - injection Hs as <-. unfold rank. destruct (Z.eqb_spec (units s) 0); cbn; rewrite He, Hmain; [lia|]. rewrite (proj2 (Z.ltb_lt 0 (units s))) by lia. lia.
  - done.
  - destruct (cv_mtx s); [done|]. injection Hs as <-. unfold rank. cbn. rewrite He, Hmain. lia.
  - destruct (Z.ltb_spec 0 (units s)) as [Hpos|Hz].
    + destruct (_ =? INT_MAX); injection Hs as <-; unfold rank; cbn; rewrite ?He, ?Hmain; [lia|]. rewrite (proj2 (Z.ltb_lt 0 (units s))) by lia. case_match; lia.
    + injection Hs as <-. unfold rank. cbn. rewrite He, Hmain. rewrite (proj2 (Z.ltb_ge 0 (units s))) by lia. lia.
  - injection Hs as <-. unfold rank. destruct (cv_done s); cbn; rewrite ?He, ?Hmain; lia.
Qed.

(** Runs without polls in vain and without spurious wake-ups end. *)
Lemma cv_ends s : cv_inv s -> Acc (fun s2 s1 => cv_useful s1 s2) s.
Proof.
  intros Hinv. remember (work s) as w eqn:Hw. revert s Hw Hinv. induction w as [w IH] using lt_wf_ind. intros s -> Hinv. constructor. intros s' Hs.
  assert (cv_inv s') as Hinv' by (destruct Hs; [by eapply cv_inv_producer|by eapply cv_inv_main]).
  eapply (IH (work s')); [|done|done]. destruct Hs; [by eapply work_producer|by eapply work_main].
Qed.
End CondVar.

(** prod_no_condvar.c has the same loops without the condition variable. *)
Definition no_condvar_thread : nat -> cv_state -> option cv_state := producer_step false.
Definition no_condvar_main : list Z -> cv_state -> option cv_state := main_step false.

(** Its main waits only for the mutex, and only while a producer that can go on holds it. *)
Lemma no_condvar_waits counts s : cv_inv false counts s -> cv_ended s = None -> no_condvar_main counts s = None ->
  exists i t, producers s !! i = Some t /\ holds_mtx t = 1%nat /\ exists s', no_condvar_thread i s = Some s'.
Proof.
  intros Hinv He Hm. pose proof (i_cond _ _ _ Hinv) as Hc. pose proof (i_mutex _ _ _ Hinv He) as Hmx. unfold no_condvar_main, main_step in Hm.
  assert (cv_mtx s = true /\ main_holds (cv_main s) = 0%nat) as [Hmt Hmh].
  { destruct (cv_main s) as [j| | | | | |] eqn:Hp; try (by specialize (Hc eq_refl)).
    - destruct (producers s !! j), (counts !! j); try done. by destruct (_ || _).
    - by destruct (cv_mtx s).
    - by destruct (0 <? units s), (numConsumed s =? INT_MAX).
    - done. }
  rewrite Hmt, Hmh in Hmx. destruct (count_pos holds_mtx (producers s)) as (i & [pc n] & Hi & Hh); [lia|]. exists i, (ProdThread pc n).
  split; [done|]. unfold holds_mtx in *. cbn in *. unfold no_condvar_thread, producer_step. rewrite Hi. destruct pc; try lia; (split; [done|]); [destruct (units s =? INT_MAX)|]; eexists; reflexivity.
Qed.

(** C10: one consumer and many producers.  Under every interleaving, with failing
    calls and spurious wake-ups: the units available, consumed and still to be
    produced are together those of the arguments, at most one thread is in a
    critical section, and main prints 1, 2, 3 and so on; main sleeps while there are
    units only if a producer is about to signal, so no wake-up is lost; and when the
    process exits with success, main has consumed all it requires and nothing is
    left, which are all units if no argument is negative.  If there is something to
    produce, the program never deadlocks, and all runs end in which main does not
    poll in vain and does not wake up spuriously.  The main of prod_no_condvar waits
    only for a producer that holds the mutex and can go on.  With nothing to produce,
    prod_condvar reaches a state in which main sleeps for ever. *)
Theorem prod_condvar_correct uses_cond counts s :
  cv_reachable uses_cond counts s ->
  (units s + numConsumed s + Z.of_nat (count owed (producers s)) = Z.of_nat (all_units counts) /\ 0 <= units s /\
   (cv_ended s = None -> (count holds_mtx (producers s) + main_holds (cv_main s) <= 1)%nat) /\
   consumed_log s = countdown (Z.to_nat (numConsumed s))) /\
  (cv_main s = NWait -> uses_cond = true /\ (0 < units s -> exists i t, producers s !! i = Some t /\ will_signal t)) /\
  (cv_ended s = Some (Exits EXIT_SUCCESS) -> units s = 0 /\ totRequired s = zsum counts /\ 0 < numConsumed s /\ zsum counts <= numConsumed s /\
    (Forall (fun n => 0 <= n) counts -> numConsumed s = Z.of_nat (all_units counts) /\ count owed (producers s) = 0%nat)) /\
  (Forall (fun n => 0 <= n) counts -> (0 < all_units counts)%nat -> cv_ended s = None -> exists s', cv_regular uses_cond counts s s') /\
  Acc (fun s2 s1 => cv_useful uses_cond counts s1 s2) s /\
  (uses_cond = false -> cv_ended s = None -> no_condvar_main counts s = None ->
    exists i t, producers s !! i = Some t /\ holds_mtx t = 1%nat /\ exists s', no_condvar_thread i s = Some s') /\
  (exists s0, cv_reachable true [] s0 /\ cv_ended s0 = None /\ forall s', ~ cv_regular true [] s0 s').
Proof.
  intros Hr. pose proof (cv_inv_reachable _ _ _ Hr) as Hinv. pose proof Hinv as [Hlen Hu Hrg Hm Ht Hlog Hc Hd Hg Hcv Hw Hun Hex]. split_and!.
  - exact Hu.
  - apply Hrg.
  - intros He. rewrite (Hm He). destruct (cv_mtx s); lia.
  - exact Hlog.
  - intros Hmain. rewrite Hmain in Hcv. by split; [apply Hcv|apply Hw].
  - intros He. destruct (Hex He) as [Hz Hdn]. split; [done|].
    assert (totRequired s = zsum counts) as Htot by (destruct (Hg Hdn) as [Hmain|Hmain]; rewrite Hmain in Hc; apply Hc).
    rewrite Hd, Htot in Hdn. apply andb_true_iff in Hdn as [H1%Z.ltb_lt H2%Z.leb_le]. split_and!; [done..|].
    intros Hn. rewrite zsum_nonneg in H2 by done. lia.
  - intros Hn Hp He. by apply cv_no_deadlock.
  - by apply cv_ends.
  - intros ->. by apply no_condvar_waits.
  - exists (CvState 0 false [] NWait 0 0 false [] None). split_and!; [|done|].
    + eapply rtc_l; [by apply cv_goes, cv_mains|]. eapply rtc_l; [by apply cv_goes, cv_mains|]. eapply rtc_l; [by apply cv_goes, cv_mains|]. apply rtc_refl.
    + intros s' [i s'' _ Hs|s'' _ Hs]; [|done]. unfold producer_step in Hs. by destruct i.
Qed.

(** ** Witness *)

(** A regular run: the first producer that can make a step, or main. *)
Fixpoint try_producers (uses_cond : bool) (n : nat) (s : cv_state) : option cv_state :=
  match n with
  | O => None
  | S n => match producer_step uses_cond n s with Some s' => Some s' | None => try_producers uses_cond n s end
  end.

Definition next_state (uses_cond : bool) (counts : list Z) (s : cv_state) : option cv_state :=
  match cv_ended s with
  | Some _ => None
  | None => match main_step uses_cond counts s with Some s' => Some s' | None => try_producers uses_cond (length (producers s)) s end
  end.

Fixpoint run_cv (fuel : nat) (uses_cond : bool) (counts : list Z) (s : cv_state) : cv_state :=
  match fuel with O => s | S f => match next_state uses_cond counts s with Some s' => run_cv f uses_cond counts s' | None => s end end.

Lemma run_cv_reaches fuel uses_cond counts s : rtc (cv_step uses_cond counts) s (run_cv fuel uses_cond counts s).
Proof.
  revert s. induction fuel as [|f IH]; intros s; cbn [run_cv]; [apply rtc_refl|]. destruct (next_state uses_cond counts s) as [s'|] eqn:Hs; [|apply rtc_refl].
  eapply rtc_l; [|apply IH]. unfold next_state in Hs. destruct (cv_ended s) eqn:He; [done|]. apply cv_goes.
  destruct (main_step uses_cond counts s) as [s1|] eqn:Hm; [injection Hs as <-; by apply cv_mains|].
  revert Hs. induction (length (producers s)) as [|n IHn]; cbn; [done|]. destruct (producer_step uses_cond n s) eqn:Hp; [|done]. intros [= <-]. by eapply cv_producer.
Qed.

Definition demo_condvar : cv_state := run_cv 60 true [2; 1] (cv_init [2; 1]).

Lemma prod_condvar_witness :
  cv_ended demo_condvar = Some (Exits EXIT_SUCCESS) /\ consumed_log demo_condvar = [3; 2; 1] /\ numConsumed demo_condvar = 3 /\ count owed (producers demo_condvar) = 0%nat.
Proof.
  assert (cv_ended demo_condvar = Some (Exits EXIT_SUCCESS)) as He by (vm_compute; reflexivity). split; [exact He|]. split; [vm_compute; reflexivity|].
  destruct (prod_condvar_correct true [2; 1] demo_condvar (run_cv_reaches 60 true [2; 1] _)) as (_ & _ & Hex & _).
  destruct (Hex He) as (_ & _ & _ & _ & Hall). destruct Hall as [Hn Ho]; [repeat constructor; discriminate|]. split; [exact Hn|exact Ho].
Defined.
