(* ===== verification/Strerror.v ===== *)
(** * threads/strerror.c, strerror_tls.c, strerror_tsd.c and strerror_test.c

    Three versions of strerror(): with one static buffer, with a buffer in
    thread-local storage, and with a buffer that the first call of a thread
    allocates and keeps as thread-specific data.  Threads call strerror() and keep
    the pointer that it returns.  Every pthread function, every allocation and every
    byte that is written is a step, and the steps of the threads interleave freely.
    (A function that fails ends the process.)  The table of messages is that of the C library. *)

From S2P Require Import Prelude Sys LibErrors.

(** _sys_nerr and _sys_errlist: C strings, or null pointers. *)
Class SysErrlist := {
  sys_nerr : Z;
  sys_errlist : Z -> option (list ascii);
  sys_errlist_string e t : sys_errlist e = Some t -> NUL ∉ t
}.

Definition MAX_ERROR_LEN : nat := 256.

Inductive version := Static | Tls | Tsd.

#[export] Instance version_eq_dec : EqDecision version.
Proof. solve_decision. Defined.

(** The next statement of a thread: none, in the caller; pthread_once(), and
    createKey() in it; pthread_getspecific(); malloc(); pthread_setspecific(); the
    byte [k] to write; after the end of the thread. *)
Inductive str_pc :=
  | SIdle | SOnce (err : Z) | SCreateKey (err : Z) | SGet (err : Z) | SAlloc (err : Z) | SSet (err : Z) (buf : nat)
  | SWrite (err : Z) (buf k : nat) | SEnd.

(** The argument of the last call and the pointer that it returned. *)
Record str_thread := StrThread { s_pc : str_pc; s_last : option (Z * nat) }.

Inductive once_state := OnceNever | OnceRunning (i : nat) | OnceDone.

(** The buffers in memory by their address; [specific]: the values of the key
    strerrorKey, by thread; [keys]: how often it was created. *)
Record str_state := StrState {
  bufs : gmap nat (list ascii); specific : gmap nat nat; s_once : once_state; keys : nat; callers : list str_thread }.

Section Strerror.
Context {L : SysErrlist} (v : version).

(** The text that strerror() puts into the buffer. *)
Definition error_text (err : Z) : list ascii :=
  match (if (err <? 0) || (sys_nerr <=? err) then None else sys_errlist err) with
  | None => snprintf MAX_ERROR_LEN ($"Unknown error " ++ dec err)
  | Some t => take (MAX_ERROR_LEN - 1) t
  end.

(** The bytes that are written: snprintf() ends with a null byte, strncpy() fills up
    with null bytes. *)
Definition error_bytes (err : Z) : list ascii :=
  match (if (err <? 0) || (sys_nerr <=? err) then None else sys_errlist err) with
  | None => error_text err ++ [NUL]
  | Some t => error_text err ++ replicate (MAX_ERROR_LEN - length (error_text err)) NUL
  end.

Definition zeros : list ascii := replicate MAX_ERROR_LEN NUL.

(** [n] threads; buffer 0 is the static one, buffer [S i] that of thread [i]. *)
Definition str_init (n : nat) : str_state :=
  StrState (match v with
            | Static => {[ 0%nat := zeros ]}
            | Tls => list_to_map ((fun i => (S i, zeros)) <$> seq 0 n)
            | Tsd => ∅
            end) ∅ OnceNever 0 (replicate n (StrThread SIdle None)).

Definition set_caller (i : nat) (t : str_thread) (s : str_state) : str_state :=
  StrState (bufs s) (specific s) (s_once s) (keys s) (<[i := t]> (callers s)).
Definition set_bufs (m : gmap nat (list ascii)) (s : str_state) : str_state := StrState m (specific s) (s_once s) (keys s) (callers s).
Definition set_once (o : once_state) (n : nat) (s : str_state) : str_state := StrState (bufs s) (specific s) o n (callers s).
Definition set_specific (m : gmap nat nat) (s : str_state) : str_state := StrState (bufs s) m (s_once s) (keys s) (callers s).

(** The first statement of strerror(). *)
Definition start_call (i : nat) (err : Z) : str_pc :=
  match v with Static => SWrite err 0 0 | Tls => SWrite err (S i) 0 | Tsd => SOnce err end.

(** The next statement of thread [i]; [None] where it waits for pthread_once() or is in
    the caller. *)
Definition strerror_step (i : nat) (s : str_state) : option str_state :=
  match callers s !! i with
  | None => None
  | Some (StrThread pc last) =>
      let goto pc' := set_caller i (StrThread pc' last) in
      match pc with
      | SIdle | SEnd => None
      | SOnce err =>
          match s_once s with
          | OnceNever => Some (goto (SCreateKey err) (set_once (OnceRunning i) (keys s) s))
          | OnceRunning _ => None
          | OnceDone => Some (goto (SGet err) s)
          end
      | SCreateKey err => Some (goto (SGet err) (set_once OnceDone (S (keys s)) s))
      | SGet err => match specific s !! i with
                    | None => Some (goto (SAlloc err) s)
                    | Some buf => Some (goto (SWrite err buf 0) s)
                    end
      | SAlloc err => let buf := fresh (dom (bufs s)) in Some (goto (SSet err buf) (set_bufs (<[buf := zeros]> (bufs s)) s))
      | SSet err buf => Some (goto (SWrite err buf 0) (set_specific (<[i := buf]> (specific s)) s))
      | SWrite err buf k =>
          match error_bytes err !! k, bufs s !! buf with
          | Some c, Some b => Some (goto (SWrite err buf (S k)) (set_bufs (<[buf := <[k := c]> b]> (bufs s)) s))
          | _, _ => Some (set_caller i (StrThread SIdle (Some (err, buf))) s)
          end
      end
  end.

(** The end of a thread: destructor(), or the end of its thread-local storage. *)
Definition thread_exit (i : nat) (s : str_state) : str_state :=
  set_caller i (StrThread SEnd None)
    (match v with
     | Static => s
     | Tls => set_bufs (delete (S i) (bufs s)) s
     | Tsd => match specific s !! i with
              | Some buf => set_specific (delete i (specific s)) (set_bufs (delete buf (bufs s)) s)
              | None => s
              end
     end).

Inductive str_step (s : str_state) : str_state -> Prop :=
  | str_call i err last : callers s !! i = Some (StrThread SIdle last) -> str_step s (set_caller i (StrThread (start_call i err) last) s)
  | str_goes i s' : strerror_step i s = Some s' -> str_step s s'
  | str_exit i last : callers s !! i = Some (StrThread SIdle last) -> str_step s (thread_exit i s).

Definition str_reachable (n : nat) : str_state -> Prop := rtc str_step (str_init n).

(** strerror_test.c: main calls strerror(EINVAL), another thread strerror(EPERM); what
    main finds at its pointer when the other thread has ended. *)
Fixpoint complete (fuel i : nat) (s : str_state) : str_state :=
  match fuel with O => s | S f => match strerror_step i s with Some s' => complete f i s' | None => s end end.

Definition call_strerror (i : nat) (err : Z) (s : str_state) : str_state :=
  match callers s !! i with
  | Some (StrThread SIdle last) => complete 300 i (set_caller i (StrThread (start_call i err) last) s)
  | _ => s
  end.

Definition held_text (i : nat) (s : str_state) : option (list ascii) :=
  p ← (callers s !! i) ≫= s_last; cstring_of <$> bufs s !! snd p.

Definition strerror_test (mainErr otherErr : Z) : option (list ascii) :=
  held_text 0 (thread_exit 1 (call_strerror 1 otherErr (call_strerror 0 mainErr (str_init 2)))).

(** ** The text *)

Lemma error_text_length err : (length (error_text err) < MAX_ERROR_LEN)%nat.
Proof. unfold error_text, snprintf, MAX_ERROR_LEN. case_match; rewrite length_take; lia. Qed.

Lemma error_text_string err : NUL ∉ error_text err.
Proof.
  unfold error_text, snprintf. destruct ((err <? 0) || (sys_nerr <=? err)); [|destruct (sys_errlist err) as [t|] eqn:Ht].
  2: intros (i & Hi & _)%elem_of_take; apply (sys_errlist_string _ _ Ht); by eapply list_elem_of_lookup_2.
  all: intros (i & Hi & _)%elem_of_take; apply list_elem_of_lookup_2, elem_of_app in Hi as [Hi|Hi]; [|by eapply dec_no_nul].
  all: revert Hi; apply (bool_decide_unpack (NUL ∉ _)); vm_compute; exact I.
Qed.

Lemma error_bytes_prefix err : exists r, error_bytes err = error_text err ++ NUL :: r.
Proof.
  unfold error_bytes. pose proof (error_text_length err). case_match; [|by exists []].
  destruct (MAX_ERROR_LEN - length (error_text err))%nat as [|n] eqn:Hn; [lia|]. by exists (replicate n NUL).
Qed.

Lemma error_bytes_length err : (length (error_bytes err) <= MAX_ERROR_LEN)%nat.
Proof. unfold error_bytes. pose proof (error_text_length err). case_match; rewrite length_app, ?length_replicate; cbn [length]; lia. Qed.

Lemma prefix_text err b : error_bytes err `prefix_of` b -> cstring_of b = error_text err.
Proof.
  intros [k ->]. destruct (error_bytes_prefix err) as [r ->]. rewrite <- app_assoc. apply cstring_of_app, error_text_string.
Qed.

(** ** The invariant of the versions with a buffer for each thread *)

(** The buffer of a thread. *)
Definition own (sp : gmap nat nat) (i : nat) (t : str_thread) : option nat :=
  match v with
  | Static => None
  | Tls => match s_pc t with SEnd => None | _ => Some (S i) end
  | Tsd => match s_pc t with SSet _ buf => Some buf | _ => sp !! i end
  end.

Definition owner (s : str_state) (i : nat) : option nat := t ← callers s !! i; own (specific s) i t.

Definition good_buf (m : gmap nat (list ascii)) (a : nat) (bytes : list ascii) : Prop :=
  exists b, m !! a = Some b /\ length b = MAX_ERROR_LEN /\ bytes `prefix_of` b.

(** What holds of thread [i]: after a call its buffer starts with the bytes of the
    message, and during a call with those written so far. *)
Definition thread_inv (m : gmap nat (list ascii)) (sp : gmap nat nat) (i : nat) (t : str_thread) : Prop :=
  (forall a, own sp i t = Some a -> good_buf m a []) /\
  match s_pc t with
  | SIdle => forall err a, s_last t = Some (err, a) -> own sp i t = Some a /\ good_buf m a (error_bytes err)
  | SWrite err a k => own sp i t = Some a /\ good_buf m a (take k (error_bytes err)) /\ (k <= length (error_bytes err))%nat
  | SAlloc _ => v = Tsd /\ sp !! i = None
  | SSet _ _ | SOnce _ | SCreateKey _ | SGet _ => v = Tsd
  | SEnd => own sp i t = None
  end.

Record str_inv (s : str_state) : Prop := StrInv {
  st_threads : forall i t, callers s !! i = Some t -> thread_inv (bufs s) (specific s) i t;
  st_apart : forall i j a, owner s i = Some a -> owner s j = Some a -> i = j;
  st_owned : forall a, a ∈ dom (bufs s) -> exists i, owner s i = Some a
}.

(** Thread [i] changes itself, and no buffer of another thread. *)
Lemma str_inv_update s i t t' m sp o ky :
  str_inv s -> callers s !! i = Some t ->
  (forall j, j <> i -> sp !! j = specific s !! j) ->
  (forall j a, j <> i -> owner s j = Some a -> m !! a = bufs s !! a /\ own sp i t' <> Some a) ->
  (forall a, a ∈ dom m -> own sp i t' = Some a \/ a ∈ dom (bufs s) /\ own (specific s) i t <> Some a) ->
  thread_inv m sp i t' -> str_inv (StrState m sp o ky (<[i := t']> (callers s))).
Proof.
  intros [Hth Hap Hown] Hi Hsp Hother Hdom Hinv.
  assert (forall j, owner (StrState m sp o ky (<[i := t']> (callers s))) j = if decide (j = i) then own sp i t' else owner s j) as Howner.
  { intros j. unfold owner. cbn. destruct (decide (j = i)) as [->|Hne].
    - by rewrite list_lookup_insert_eq by (by eapply lookup_lt_Some).
    - rewrite list_lookup_insert_ne by done. destruct (callers s !! j) as [tj|]; [|done]. cbn. unfold own. destruct v; try done. case_match; by rewrite ?Hsp. }
  split; cbn.
  - intros j tj. rewrite list_lookup_insert_Some. intros [(-> & -> & _)|[Hne Hj]]; [done|]. apply not_eq_sym in Hne.
    pose proof (Hth _ _ Hj) as Ht. assert (owner s j = own (specific s) j tj) as Ho by (unfold owner; by rewrite Hj).
    assert (own sp j tj = own (specific s) j tj) as Hsame by (unfold own; rewrite Hsp by done; done).
    assert (forall a bytes, own sp j tj = Some a -> good_buf (bufs s) a bytes -> good_buf m a bytes) as Hgood.
    { intros a bytes Ha (b & Hb & Hlb). exists b. split; [|done]. rewrite (proj1 (Hother j a Hne ltac:(by rewrite Ho, <- Hsame))). done. }
    destruct Ht as [Ht1 Ht2]. split; [intros a Ha; apply Hgood; [done|]; apply Ht1; congruence|].
    destruct (s_pc tj) eqn:Hpc; rewrite ?Hsp, ?Hsame by done; try done.
    + intros err a Hl. destruct (Ht2 _ _ Hl) as [H1 H2]. split; [done|]. apply Hgood; [congruence|done].
    + destruct Ht2 as (H1 & H2 & H3). split_and!; [done| |done]. apply Hgood; [congruence|done].
  - intros j k a. rewrite !Howner. repeat case_decide; subst; try done; intros H1 H2; [by destruct (Hother k a ltac:(done) H2)|by destruct (Hother j a ltac:(done) H1)|by eapply Hap].
  - intros a Ha. destruct (Hdom a Ha) as [Ho|[Hin Hne]]; [exists i; rewrite Howner; by rewrite decide_True|].
    destruct (Hown a Hin) as [j Hj]. exists j. rewrite Howner. rewrite decide_False; [done|]. intros ->. unfold owner in Hj. rewrite Hi in Hj. done.
Qed.

Lemma own_tsd sp i t : v = Tsd -> own sp i t = match s_pc t with SSet _ buf => Some buf | _ => sp !! i end.
Proof. intros Hv. unfold own. by rewrite Hv. Qed.

(** The buffers and the thread-specific data stay, and thread [i] keeps its buffer. *)
Lemma str_inv_goto s i t t' o ky :
  str_inv s -> callers s !! i = Some t -> own (specific s) i t' = own (specific s) i t -> thread_inv (bufs s) (specific s) i t' ->
  str_inv (StrState (bufs s) (specific s) o ky (<[i := t']> (callers s))).
Proof.
  intros Hinv Hi Ho Ht. assert (owner s i = own (specific s) i t) as Hoi by (unfold owner; by rewrite Hi). eapply str_inv_update; try done.
  - intros j a Hne Hj. split; [done|]. rewrite Ho, <- Hoi. intros Ha. apply Hne. by eapply (st_apart s Hinv).
  - intros a Ha. rewrite Ho, <- Hoi. destruct (decide (owner s i = Some a)); [by left|by right].
Qed.

Lemma write_prefix err (b : list ascii) k c :
  take k (error_bytes err) `prefix_of` b -> error_bytes err !! k = Some c -> length b = MAX_ERROR_LEN -> take (S k) (error_bytes err) `prefix_of` <[k := c]> b.
Proof.
  intros [r ->] Hk Hlen. assert (k < length (error_bytes err))%nat as Hlt by (by eapply lookup_lt_Some). pose proof (error_bytes_length err).
  rewrite (take_S_r _ _ _ Hk). assert (length (take k (error_bytes err)) = k) as Hk' by (rewrite length_take; lia).
  rewrite length_app, Hk' in Hlen. destruct r as [|x r]; [cbn in Hlen; lia|]. exists r. rewrite insert_app_r_alt by lia. rewrite Hk', Nat.sub_diag. cbn. by rewrite <- app_assoc.
Qed.

Lemma str_inv_step i s s' : v <> Static -> str_inv s -> strerror_step i s = Some s' -> str_inv s'.
Proof.
  intros Hv Hinv Hs. unfold strerror_step in Hs. destruct (callers s !! i) as [[pc last]|] eqn:Hi; [|done].
  pose proof (st_threads s Hinv _ _ Hi) as [Ht1 Ht2]. cbn in Ht2. assert (owner s i = own (specific s) i (StrThread pc last)) as Hoi by (unfold owner; by rewrite Hi).
  destruct pc; try done; cbn in Ht2.
  - destruct (s_once s); try done; injection Hs as <-; (eapply (str_inv_goto s); [done|exact Hi|by rewrite !own_tsd by done|]); rewrite own_tsd in Ht1 by done; (split; [by rewrite own_tsd by done|done]).
  - injection Hs as <-. (eapply (str_inv_goto s); [done|exact Hi|by rewrite !own_tsd by done|]); rewrite own_tsd in Ht1 by done; (split; [by rewrite own_tsd by done|done]).
  - unfold own in Ht1. rewrite Ht2 in Ht1. destruct (specific s !! i) as [a|] eqn:Hsp; injection Hs as <-.
    + eapply (str_inv_goto s); [done|exact Hi|by unfold own; rewrite Ht2|]. split; unfold own; rewrite Ht2; cbn; rewrite Hsp; [done|]. split_and!; [done| |lia].
      by apply Ht1.
    + eapply (str_inv_goto s); [done|exact Hi|by unfold own; rewrite Ht2|]. split; unfold own; rewrite Ht2; cbn; [by rewrite Hsp|done].
  - destruct Ht2 as [Hv' Hsp]. injection Hs as <-. set (a := fresh (dom (bufs s))) in *. assert (a ∉ dom (bufs s)) as Hfresh by apply is_fresh.
    eapply (str_inv_update s i _ _ (<[a := zeros]> (bufs s)) (specific s)); [done|exact Hi|done|..].
    + intros j x Hne Hj. assert (x ∈ dom (bufs s)) as Hx.
      { unfold owner in Hj. destruct (callers s !! j) as [tj|] eqn:Htj; [|done]. destruct (proj1 (st_threads s Hinv _ _ Htj) _ Hj) as (b & Hb & _). by eapply elem_of_dom_2. }
      split; [|unfold own; rewrite Hv'; cbn; congruence]. rewrite lookup_insert_ne; [done|]. congruence.
    + intros x. rewrite dom_insert, elem_of_union, elem_of_singleton. intros [->|Hx]; [left; unfold own; by rewrite Hv'|right]. split; [done|]. unfold own. rewrite Hv'. cbn. by rewrite Hsp.
    + split; unfold own; rewrite Hv'; cbn; [|done]. intros x [= <-]. exists zeros. rewrite lookup_insert_eq. split_and!; [done|apply length_replicate|apply prefix_nil].
  - injection Hs as <-. unfold own in Ht1, Hoi. rewrite Ht2 in Ht1, Hoi. cbn in Ht1, Hoi.
    eapply (str_inv_update s i _ _ (bufs s) (<[i := buf]> (specific s))); [done|exact Hi|..].
    + intros j Hne. by rewrite lookup_insert_ne.
    + intros j x Hne Hj. split; [done|]. unfold own. rewrite Ht2. cbn. rewrite lookup_insert_eq. intros [= ->]. apply Hne. by eapply (st_apart s Hinv).
    + intros x Hx. unfold own. rewrite Ht2. cbn. rewrite lookup_insert_eq. destruct (decide (buf = x)) as [->|Hne]; [by left|right]. split; [done|congruence].
    + split; unfold own; rewrite Ht2; cbn; rewrite lookup_insert_eq; [done|]. split_and!; [done|by apply Ht1|lia].
  - destruct Ht2 as (Ho & (b & Hb & Hlb & Hpre) & Hk). rewrite Hb in Hs. destruct (error_bytes err !! k) as [c|] eqn:Hc; injection Hs as <-.
    + assert (forall p', p' = SWrite err buf (S k) -> own (specific s) i (StrThread p' last) = Some buf) as Ho' by (intros p' ->; rewrite <- Ho; unfold own; by destruct v).
      eapply (str_inv_update s i _ _ (<[buf := <[k := c]> b]> (bufs s)) (specific s)); [done|exact Hi|done|..].
      * intros j x Hne Hj. rewrite Ho' by done. assert (x <> buf) as Hx by (intros ->; apply Hne; by eapply (st_apart s Hinv); [|rewrite Hoi]).
        split; [by rewrite lookup_insert_ne|congruence].
      * intros x. rewrite dom_insert, elem_of_union, elem_of_singleton, Ho' by done. intros [->|Hx]; [by left|]. destruct (decide (x = buf)) as [->|Hne]; [by left|right].
        split; [done|]. rewrite Ho. congruence.
      * assert (good_buf (<[buf := <[k := c]> b]> (bufs s)) buf (take (S k) (error_bytes err))) as Hg.
        { exists (<[k := c]> b). rewrite lookup_insert_eq, length_insert. split_and!; [done..|by apply write_prefix]. }
        split; cbn; rewrite Ho' by done; [intros x [= <-]; destruct Hg as (b' & ? & ? & ?); exists b'; split_and!; [done..|apply prefix_nil]|].
        split_and!; [done..|]. apply lookup_lt_Some in Hc. lia.
    + assert (own (specific s) i (StrThread SIdle (Some (err, buf))) = Some buf) as Ho' by (rewrite <- Ho; unfold own; by destruct v).
      eapply (str_inv_goto s); [done|exact Hi|by rewrite Ho, Ho'|]. split; cbn; rewrite Ho'; [intros x [= <-]; by eapply Ht1|]. intros err' a' [= <- <-]. split; [done|].
      exists b. split_and!; [done..|]. apply lookup_ge_None in Hc. by rewrite take_ge in Hpre.
Qed.

Lemma str_inv_exit i last s : v <> Static -> str_inv s -> callers s !! i = Some (StrThread SIdle last) -> str_inv (thread_exit i s).
Proof.
  intros Hv Hinv Hi. assert (owner s i = own (specific s) i (StrThread SIdle last)) as Hoi by (unfold owner; by rewrite Hi).
  unfold thread_exit. destruct v eqn:Hver; [done|..].
  - eapply (str_inv_update s i _ _ (delete (S i) (bufs s)) (specific s)); [done|exact Hi|done|..].
    + intros j x Hne Hj. unfold own. rewrite Hver. cbn. split; [|done]. rewrite lookup_delete_ne; [done|]. intros <-. apply Hne. eapply (st_apart s Hinv); [exact Hj|].
      rewrite Hoi. unfold own. by rewrite Hver.
    + intros x. rewrite dom_delete, elem_of_difference, elem_of_singleton. intros [Hx Hne]. right. split; [done|]. unfold own. rewrite Hver. cbn. congruence.
    + split; unfold own; rewrite Hver; done.
  - destruct (specific s !! i) as [a|] eqn:Hsp.
    + eapply (str_inv_update s i _ _ (delete a (bufs s)) (delete i (specific s))); [done|exact Hi|..].
      * intros j Hne. by rewrite lookup_delete_ne.
      * intros j x Hne Hj. unfold own. rewrite Hver. cbn. rewrite lookup_delete_eq. split; [|done]. rewrite lookup_delete_ne; [done|]. intros <-. apply Hne. eapply (st_apart s Hinv); [exact Hj|].
        rewrite Hoi. unfold own. by rewrite Hver.
      * intros x. rewrite dom_delete, elem_of_difference, elem_of_singleton. intros [Hx Hne]. right. split; [done|]. unfold own. rewrite Hver. cbn. congruence.
      * split; unfold own; rewrite Hver; cbn; by rewrite lookup_delete_eq.
    + eapply (str_inv_goto s); [done|exact Hi|unfold own; by rewrite Hver|]. split; unfold own; rewrite Hver; cbn; by rewrite Hsp.
Qed.

Lemma str_inv_call i err last s : v <> Static -> str_inv s -> callers s !! i = Some (StrThread SIdle last) -> str_inv (set_caller i (StrThread (start_call i err) last) s).
Proof.
  intros Hv Hinv Hi. pose proof (st_threads s Hinv _ _ Hi) as [Ht1 Ht2]. unfold own in Ht1.
  eapply (str_inv_goto s); [done|exact Hi|unfold own, start_call; by destruct v|]. unfold start_call. split; unfold own; destruct v; try done.
  cbn. split_and!; [done| |lia]. by apply Ht1.
Qed.

Lemma str_inv_init n : v <> Static -> str_inv (str_init n).
Proof.
  intros Hv. assert (forall i a, owner (str_init n) i = Some a <-> v = Tls /\ (i < n)%nat /\ a = S i) as Ho.
  { intros i a. unfold owner. cbn. destruct (replicate n (StrThread SIdle None) !! i) as [t|] eqn:Ht.
    - apply lookup_replicate in Ht as [-> Hlt]. cbn. unfold own. destruct v; cbn; rewrite ?lookup_empty; split; try done; [by intros [= <-]|by intros (_ & _ & ->)|by intros ([=] & _)].
    - split; [done|]. intros (_ & Hlt & _). by apply lookup_replicate_None in Ht; lia. }
  assert (forall i, v = Tls -> (i < n)%nat -> bufs (str_init n) !! S i = Some zeros) as Hb.
  { intros i Hver Hlt. unfold str_init. rewrite Hver. cbn. apply elem_of_list_to_map_1.
    - rewrite <- list_fmap_compose. cbn. apply NoDup_fmap_2_strong; [by intros x y _ _ [= ->]|apply NoDup_seq].
    - apply list_elem_of_fmap. exists i. split; [done|]. apply elem_of_seq. lia. }
  split.
  - intros i t Ht. pose proof Ht as Ht'. cbn in Ht'. apply lookup_replicate in Ht' as [-> Hlt]. split; [|done]. intros a Ha.
    assert (owner (str_init n) i = Some a) as (Hver & _ & ->)%Ho by (unfold owner; by rewrite Ht). exists zeros. rewrite Hb by done.
    split_and!; [done|apply length_replicate|apply prefix_nil].
  - intros i j a [_ [_ ->]]%Ho [_ [_ [= ->]]]%Ho. done.
  - intros a. unfold str_init. destruct v eqn:Hver; [done|..|by intros Ha%elem_of_dom_2 || (cbn; rewrite dom_empty; set_solver)]. cbn.
    rewrite dom_list_to_map, elem_of_list_to_set, list_elem_of_fmap. intros ((k & b) & -> & Hin). apply list_elem_of_fmap in Hin as (i & [= -> ->] & Hi%elem_of_seq).
    exists i. apply Ho. split_and!; [done|lia|done].
Qed.

Lemma str_inv_reachable n s : v <> Static -> str_reachable n s -> str_inv s.
Proof.
  intros Hv Hr. unfold str_reachable in Hr. pose proof (str_inv_init n Hv) as Hi. revert Hi. induction Hr as [|s1 s2 s3 H12 _ IH]; [done|]. intros Hi. apply IH.
  destruct H12; [by apply str_inv_call|by eapply str_inv_step|by eapply str_inv_exit].
Qed.

(** ** pthread_once() *)

Record once_inv (s : str_state) : Prop := OnceInv {
  oi_keys : keys s = match s_once s with OnceDone => 1%nat | _ => 0%nat end;
  oi_pc : forall i t, callers s !! i = Some t ->
    match s_pc t with SCreateKey _ => s_once s = OnceRunning i | SGet _ | SAlloc _ | SSet _ _ => s_once s = OnceDone | _ => True end;
  oi_runs : forall i, s_once s = OnceRunning i -> exists err last, callers s !! i = Some (StrThread (SCreateKey err) last)
}.

Lemma once_inv_update s i t t' m sp :
  once_inv s -> callers s !! i = Some t ->
  match s_pc t' with SCreateKey _ => False | SGet _ | SAlloc _ | SSet _ _ => s_once s = OnceDone | _ => True end ->
  (forall err, s_pc t <> SCreateKey err) -> once_inv (StrState m sp (s_once s) (keys s) (<[i := t']> (callers s))).
Proof.
  intros [Hk Hp Hr] Hi Ht' Hne. split; cbn; [done|..].
  - intros j tj. rewrite list_lookup_insert_Some. intros [(-> & <- & _)|[_ Hj]]; [by destruct (s_pc t')|by apply Hp].
  - intros j Hj. destruct (Hr j Hj) as (err & last & Hc). exists err, last. rewrite list_lookup_insert_ne; [done|]. intros ->. rewrite Hi in Hc. injection Hc as ->. by apply (Hne err).
Qed.

Lemma once_inv_step s s' : once_inv s -> str_step s s' -> once_inv s'.
Proof.
  intros Hinv Hs. destruct Hs as [i err last Hi|i s' Hs|i last Hi].
  - eapply (once_inv_update s); [done|exact Hi|by unfold start_call; destruct v|done].
  - unfold strerror_step in Hs. destruct (callers s !! i) as [[pc last]|] eqn:Hi; [|done]. pose proof (oi_pc s Hinv _ _ Hi) as Hpc. 
    destruct pc; try done; cbn in Hpc; repeat case_match; try done; injection Hs as <-; try (by eapply (once_inv_update s); [done|exact Hi|..]); destruct Hinv as [Hk Hp Hr].
    + rewrite H in Hk, Hp. split; cbn; [done|..].
      * intros j tj. rewrite list_lookup_insert_Some. intros [(-> & <- & _)|[Hne Hj]]; [done|]. specialize (Hp _ _ Hj). by destruct (s_pc tj).
      * intros j [= <-]. exists err, last. apply list_lookup_insert_eq. by eapply lookup_lt_Some.
    + split; cbn; [by rewrite Hk, Hpc|..|done]. intros j tj. rewrite list_lookup_insert_Some. intros [(-> & <- & _)|[Hne Hj]]; [done|]. specialize (Hp _ _ Hj). rewrite Hpc in Hp.
      destruct (s_pc tj); try done. by injection Hp.
  - unfold thread_exit. destruct v; [..|destruct (specific s !! i)]; by eapply (once_inv_update s); [done|exact Hi|..].
Qed.

Lemma once_inv_rtc s s' : once_inv s -> rtc str_step s s' -> once_inv s'.
Proof. intros Hi Hr. revert Hi. induction Hr as [|s1 s2 s3 H12 _ IH]; [done|]. intros Hi. by eapply IH, once_inv_step. Qed.

Lemma once_inv_reachable n s : str_reachable n s -> once_inv s.
Proof.
  apply once_inv_rtc. split; cbn; [done| |done]. intros i t [-> _]%lookup_replicate. done.
Qed.

(** ** Calls return *)

(** A bound on the steps that a thread has still to make in its call. *)
Definition steps_left (pc : str_pc) : nat :=
  match pc with
  | SIdle | SEnd => 0 | SOnce _ => 262 | SCreateKey _ => 261 | SGet _ => 260 | SAlloc _ => 259 | SSet _ _ => 258
  | SWrite err _ k => S (length (error_bytes err) - k)
  end.

Definition calling (pc : str_pc) : option Z :=
  match pc with SIdle | SEnd => None | SOnce e | SCreateKey e | SGet e | SAlloc e | SSet e _ | SWrite e _ _ => Some e end.

(** Thread [i] makes a step of its call for [err]: it comes closer to the end, or it
    returns; the other threads are as before. *)
Lemma strerror_step_closer i s s' pc last err :
  strerror_step i s = Some s' -> callers s !! i = Some (StrThread pc last) -> calling pc = Some err ->
  exists t', callers s' = <[i := t']> (callers s) /\ (steps_left (s_pc t') < steps_left pc)%nat /\
    (s_last t' = last /\ calling (s_pc t') = Some err \/ s_pc t' = SIdle /\ exists buf, s_last t' = Some (err, buf)).
Proof.
  intros Hs Hi Hc. unfold strerror_step in Hs. rewrite Hi in Hs. pose proof (error_bytes_length err) as Hlen. unfold MAX_ERROR_LEN in Hlen.
  destruct pc as [|e|e|e|e|e b|e b k|]; try done; injection Hc as <-; repeat case_match; try done; injection Hs as <-; (eexists; split; [cbn; reflexivity|]); cbn; try (split; [lia|by left]).
  - split; [|by left]. apply lookup_lt_Some in H. lia.
  - split; [lia|right]. eauto.
  - split; [lia|right]. eauto.
Qed.

(** A thread that waits waits for a thread that can go on. *)
Lemma waits_for_runner i s pc last err :
  once_inv s -> callers s !! i = Some (StrThread pc last) -> calling pc = Some err -> strerror_step i s = None ->
  exists j, s_once s = OnceRunning j /\ strerror_step j s <> None.
Proof.
  intros Hinv Hi Hc Hs. unfold strerror_step in Hs. rewrite Hi in Hs. destruct pc; try done; repeat case_match; try done.
  exists i0. split; [done|]. destruct (oi_runs s Hinv i0) as (e & l & Hr); [done|]. unfold strerror_step. by rewrite Hr.
Qed.

(** When no other thread is in createKey(), a call returns within 300 steps. *)
Lemma complete_returns fuel i s pc last err :
  once_inv s -> (forall j, s_once s = OnceRunning j -> j = i) -> callers s !! i = Some (StrThread pc last) -> calling pc = Some err -> (steps_left pc <= fuel)%nat ->
  exists buf, callers (complete fuel i s) = <[i := StrThread SIdle (Some (err, buf))]> (callers s) /\ rtc str_step s (complete fuel i s).
Proof.
  revert s pc last. induction fuel as [|fuel IH]; intros s pc last Hinv Honce Hi Hc Hle; [destruct pc; cbn in *; done || lia|]. cbn [complete].
  destruct (strerror_step i s) as [s'|] eqn:Hs.
  - destruct (strerror_step_closer _ _ _ _ _ _ Hs Hi Hc) as ([pc' last'] & Hcall & Hless & Hcase). cbn in Hless, Hcase.
    assert (callers s' !! i = Some (StrThread pc' last')) as Hi' by (rewrite Hcall; apply list_lookup_insert_eq; by eapply lookup_lt_Some).
    assert (str_step s s') as Hstep by (by eapply str_goes). assert (once_inv s') as Hinv' by (by eapply once_inv_step).
    destruct Hcase as [[-> Hc']|(-> & buf & ->)].
    + destruct (IH s' pc' last Hinv') as (buf & Hb & Hr); [|done|done|lia|].
      * intros j Hj. destruct (oi_runs s' Hinv' j Hj) as (e & l & Hl). rewrite Hcall in Hl. destruct (decide (j = i)) as [|Hne]; [done|].
        rewrite list_lookup_insert_ne in Hl by done. by apply Honce, (oi_pc s Hinv _ _ Hl).
      * exists buf. rewrite Hb, Hcall, list_insert_insert_eq. split; [done|]. by eapply rtc_l.
    + exists buf. assert (strerror_step i s' = None) as Hno by (unfold strerror_step; by rewrite Hi'). destruct fuel; cbn; rewrite ?Hno; (split; [done|by eapply rtc_once]).
  - destruct (waits_for_runner _ _ _ _ _ Hinv Hi Hc Hs) as (j & Hj & Hgo). by rewrite (Honce _ Hj) in Hgo.
Qed.

Lemma call_returns i err last s :
  once_inv s -> (forall j, s_once s <> OnceRunning j) -> callers s !! i = Some (StrThread SIdle last) ->
  exists buf, callers (call_strerror i err s) = <[i := StrThread SIdle (Some (err, buf))]> (callers s) /\ rtc str_step s (call_strerror i err s) /\
    once_inv (call_strerror i err s) /\ (forall j, s_once (call_strerror i err s) <> OnceRunning j).
Proof.
  intros Hinv Hno Hi. unfold call_strerror. rewrite Hi. assert (str_step s (set_caller i (StrThread (start_call i err) last) s)) as Hstep by (by apply str_call).
  destruct (complete_returns 300 i (set_caller i (StrThread (start_call i err) last) s) (start_call i err) last err) as (buf & Hb & Hr).
  - by eapply once_inv_step.
  - intros j Hj. by destruct (Hno j).
  - apply list_lookup_insert_eq. by eapply lookup_lt_Some.
  - by unfold start_call; destruct v.
  - pose proof (error_bytes_length err). unfold start_call, MAX_ERROR_LEN in *. destruct v; cbn; lia.
  - exists buf. change (callers (set_caller i ?x s)) with (<[i := x]> (callers s)) in Hb. rewrite list_insert_insert_eq in Hb. assert (rtc str_step s (complete 300 i (set_caller i (StrThread (start_call i err) last) s))) as Hr' by (by eapply rtc_l).
    assert (once_inv (complete 300 i (set_caller i (StrThread (start_call i err) last) s))) as Hinv' by (by eapply once_inv_rtc).
    split_and!; [done..|]. intros j Hj. destruct (oi_runs _ Hinv' j Hj) as (e & l & Hl). rewrite Hb in Hl. destruct (decide (j = i)) as [->|Hne].
    + by rewrite list_lookup_insert_eq in Hl by (by eapply lookup_lt_Some).
    + rewrite list_lookup_insert_ne in Hl by done. by apply (Hno j), (oi_pc s Hinv _ _ Hl).
Qed.

Lemma held_text_at s i pc err a b : callers s !! i = Some (StrThread pc (Some (err, a))) -> bufs s !! a = Some b -> held_text i s = Some (cstring_of b).
Proof. intros Hi Hb. unfold held_text. rewrite Hi. cbn. by rewrite Hb. Qed.

(** strerror_test: main still finds its own message. *)
Lemma strerror_test_keeps mainErr otherErr : v <> Static -> strerror_test mainErr otherErr = Some (error_text mainErr).
Proof.
  intros Hv. assert (once_inv (str_init 2)) as H0 by (by apply (once_inv_reachable 2), rtc_refl).
  destruct (call_returns 0 mainErr None (str_init 2)) as (b1 & Hc1 & Hr1 & Ho1 & Hn1); [done..|].
  destruct (call_returns 1 otherErr None (call_strerror 0 mainErr (str_init 2))) as (b2 & Hc2 & Hr2 & Ho2 & Hn2); [done|done|by rewrite Hc1|].
  unfold strerror_test. set (s2 := call_strerror 1 otherErr (call_strerror 0 mainErr (str_init 2))) in *. rewrite Hc1 in Hc2. cbn in Hc2.
  assert (str_reachable 2 (thread_exit 1 s2)) as Hr.
  { unfold str_reachable. eapply rtc_r; [by etrans|]. eapply (str_exit _ 1). by rewrite Hc2. }
  pose proof (str_inv_reachable _ _ Hv Hr) as Hinv.
  assert (callers (thread_exit 1 s2) !! 0%nat = Some (StrThread SIdle (Some (mainErr, b1)))) as H3.
  { unfold thread_exit. destruct v; [..|destruct (specific s2 !! 1%nat)]; cbn; by rewrite Hc2. }
  destruct (st_threads _ Hinv _ _ H3) as [_ Ht]. destruct (Ht _ _ eq_refl) as (_ & b & Hb & _ & Hpre).
  rewrite (held_text_at _ _ _ _ _ _ H3 Hb). by rewrite (prefix_text _ _ Hpre).
Qed.
End Strerror.

(** C11: strerror() and threads.  In the versions with thread-local storage and with
    thread-specific data, under every interleaving of any number of threads, the
    pointer that a thread got from its last call still points to the message of that
    call, a C string of less than 256 characters, and no other thread has the same
    buffer; every buffer in memory belongs to a thread, so that none is leaked when
    threads end; the key is created once at most, and before it is used.  A call
    comes closer to its end with each of its steps, and waits only for a thread that
    can go on.  In strerror_test main finds its own message after the call of the
    other thread.  In the version with a static buffer it finds the message of the
    other thread. *)
Theorem strerror_thread_safe {L : SysErrlist} v n s :
  v <> Static -> str_reachable v n s ->
  (forall i err buf, callers s !! i = Some (StrThread SIdle (Some (err, buf))) ->
    exists b, bufs s !! buf = Some b /\ cstring_of b = error_text err /\ (length (error_text err) < MAX_ERROR_LEN)%nat /\
      forall j, j <> i -> owner v s j <> Some buf) /\
  (forall a, a ∈ dom (bufs s) -> exists i, owner v s i = Some a) /\
  ((keys s <= 1)%nat /\ forall i err last, callers s !! i = Some (StrThread (SGet err) last) -> keys s = 1%nat) /\
  (forall i pc last err, callers s !! i = Some (StrThread pc last) -> calling pc = Some err ->
    match strerror_step i s with
    | Some s' => exists t', callers s' !! i = Some t' /\ (steps_left (s_pc t') < steps_left pc)%nat
    | None => exists j, s_once s = OnceRunning j /\ strerror_step j s <> None
    end) /\
  (forall mainErr otherErr, strerror_test v mainErr otherErr = Some (error_text mainErr)) /\
  strerror_test Static (-1) (-2) = Some (error_text (-2)).
Proof.
  intros Hv Hr. pose proof (str_inv_reachable _ _ _ Hv Hr) as Hinv. pose proof (once_inv_reachable _ _ _ Hr) as Honce. split_and!.
  - intros i err buf Hi. destruct (st_threads _ _ Hinv _ _ Hi) as [_ Ht]. destruct (Ht _ _ eq_refl) as (Ho & b & Hb & _ & Hpre).
    exists b. split_and!; [done|by apply prefix_text|apply error_text_length|]. intros j Hne Hj. apply Hne. eapply (st_apart _ _ Hinv); [exact Hj|]. unfold owner. by rewrite Hi.
  - apply (st_owned _ _ Hinv).
  - rewrite (oi_keys s Honce). case_match; lia.
  - intros i err last Hi. pose proof (oi_pc s Honce _ _ Hi) as Hd. cbn in Hd. by rewrite (oi_keys s Honce), Hd.
  - intros i pc last err Hi Hc. destruct (strerror_step i s) as [s'|] eqn:Hs; [|by eapply waits_for_runner].
    destruct (strerror_step_closer _ _ _ _ _ _ Hs Hi Hc) as (t' & Hcall & Hless & _). exists t'. split; [|done]. rewrite Hcall. apply list_lookup_insert_eq. by eapply lookup_lt_Some.
  - intros e1 e2. by apply strerror_test_keeps.
  - vm_compute. reflexivity.
Qed.

(** ** Witness *)

(** A table with two messages. *)
#[program] Definition demo_errlist : SysErrlist := {|
  sys_nerr := 3; sys_errlist e := if e =? 1 then Some ($"Operation not permitted") else if e =? 2 then Some ($"No such file or directory") else None |}.
Next Obligation. intros e t H. cbn in H. destruct (e =? 1); [|destruct (e =? 2); [|done]]; injection H as <-; apply (bool_decide_unpack (NUL ∉ _)); vm_compute; exact I. Qed.

Definition demo_strerror : str_state := call_strerror (L := demo_errlist) Tsd 1 2 (call_strerror (L := demo_errlist) Tsd 0 1 (str_init Tsd 2)).

Lemma strerror_witness :
  (exists b, bufs demo_strerror !! 0%nat = Some b /\ cstring_of b = $"Operation not permitted") /\ keys demo_strerror = 1%nat.
Proof.
  assert (str_reachable (L := demo_errlist) Tsd 2 demo_strerror) as Hr.
  { destruct (call_returns (L := demo_errlist) Tsd 0 1 None (str_init Tsd 2)) as (b1 & Hc1 & Hr1 & Ho1 & Hn1); [by apply (once_inv_reachable (L := demo_errlist) Tsd 2), rtc_refl|done..|].
    destruct (call_returns (L := demo_errlist) Tsd 1 2 None (call_strerror (L := demo_errlist) Tsd 0 1 (str_init Tsd 2))) as (b2 & _ & Hr2 & _); [done|done|by rewrite Hc1|]. unfold str_reachable. by etrans. }
  destruct (strerror_thread_safe (L := demo_errlist) Tsd 2 demo_strerror ltac:(done) Hr) as (Htext & _).
  destruct (Htext 0%nat 1 0%nat) as (b & Hb & Hs & _); [vm_compute; reflexivity|]. split; [|vm_compute; reflexivity]. exists b. split; [exact Hb|]. rewrite Hs. vm_compute. reflexivity.
Defined.
