(* ===== verification/Barrier.v ===== *)
(** * threads/pthread_barrier_demo.c: threads that meet at a barrier

    main creates the threads and joins them; each thread passes the barrier
    numBarriers times.  Every pthread call and every message is a step, and the steps
    of the threads and of main interleave freely.  The thread to which
    pthread_barrier_wait() returns PTHREAD_BARRIER_SERIAL_THREAD is any of those
    that meet.  A failing pthread call ends the process. *)

From S2P Require Import Prelude Sys LibErrors FileIO ProdCons ThreadIncr.

(** The next statement of threadFunc(): not yet created; the head of the loop, with the
    sleep and the message before the wait; pthread_barrier_wait(); blocked in it;
    returned from it with or without PTHREAD_BARRIER_SERIAL_THREAD; after the end. *)
Inductive bar_pc := BNone | BLoop | BCall | BBlocked | BReturned (serial : bool) | BEnd.

(** [b_round] is [j]. *)
Record bar_thread := BarThread { b_pc : bar_pc; b_round : nat }.

(** main: pthread_create() for thread [i], usleep() and the newline, pthread_join(). *)
Inductive bar_main := BCreate (i : nat) | BPause | BJoin (i : nat).

#[export] Instance bar_pc_eq_dec : EqDecision bar_pc.
Proof. solve_decision. Defined.

(** [serials]: the thread that was chosen each time the barrier was passed; [passes]:
    the messages after pthread_barrier_wait() with thread, barrier and whether the
    value was PTHREAD_BARRIER_SERIAL_THREAD, the last one first. *)
Record bar_state := BarState {
  bthreads : list bar_thread; bmain : bar_main; serials : list nat; passes : list (nat * nat * bool); b_ended : option ending }.

(** main() up to the creation of the threads: numBarriers and numThreads, where a
    negative number makes no thread and no iteration.  [allocates]: whether calloc() of so
    many elements succeeds; [initializes]: the result of pthread_barrier_init(), whose
    count is unsigned. *)
Definition bar_start (allocates : Z -> bool) (initializes : Z -> Z) (argv : list (list ascii)) : ending + nat * nat :=
  if negb (length argv =? 3)%nat || is_help argv then inl (Exits EXIT_FAILURE)
  else
    let numBarriers := atoi (argv_nth argv 1) in
    let numThreads := atoi (argv_nth argv 2) in
    if negb (allocates numThreads) then inl (Exits EXIT_FAILURE)
    else if negb (initializes (wrapu 32 numThreads) =? 0) then inl (Exits EXIT_FAILURE)
    else inr (Z.to_nat numBarriers, Z.to_nat numThreads).

(** There is a thread, as calloc() fails for a size beyond the memory and
    pthread_barrier_init() for the count 0. *)
Lemma bar_start_threads allocates initializes argv nb nt :
  (forall n, n < 0 -> allocates n = false) -> initializes 0 <> 0 -> bar_start allocates initializes argv = inr (nb, nt) -> (0 < nt)%nat.
Proof.
  intros Ha Hi. unfold bar_start. destruct (negb (length argv =? 3)%nat || is_help argv); [done|]. set (n := atoi (argv_nth argv 2)).
  destruct (allocates n) eqn:Hn; [|done]. cbn. destruct (Z.eqb_spec (initializes (wrapu 32 n)) 0) as [H0|]; [|done]. intros [= _ <-].
  destruct (Z.lt_trichotomy n 0) as [Hlt|[Heq|Hgt]]; [by rewrite Ha in Hn|by rewrite Heq in H0|lia].
Qed.

Section Barrier.
Context (numBarriers numThreads : nat).

Definition bar_init : bar_state := BarState (replicate numThreads (BarThread BNone 0)) (BCreate 0) [] [] None.

Definition set_bthread (i : nat) (t : bar_thread) (s : bar_state) : bar_state :=
  BarState (<[i := t]> (bthreads s)) (bmain s) (serials s) (passes s) (b_ended s).
Definition set_bmain (m : bar_main) (s : bar_state) : bar_state := BarState (bthreads s) m (serials s) (passes s) (b_ended s).
Definition b_ends (e : ending) (s : bar_state) : bar_state := BarState (bthreads s) (bmain s) (serials s) (passes s) (Some e).

Definition blocked (t : bar_thread) : nat := match b_pc t with BBlocked => 1 | _ => 0 end.

(** All threads return from pthread_barrier_wait(), thread [k] with the special value. *)
Definition release (k : nat) (l : list bar_thread) : list bar_thread :=
  imap (fun i t => BarThread (BReturned (bool_decide (i = k))) (b_round t)) l.

(** The next statement of thread [i], where [k] is chosen if the barrier opens. *)
Definition bar_thread_step (k i : nat) (s : bar_state) : option bar_state :=
  match bthreads s !! i with
  | None => None
  | Some (BarThread pc j) =>
      match pc with
      | BNone | BBlocked | BEnd => None
      | BLoop => Some (set_bthread i (BarThread (if (j <? numBarriers)%nat then BCall else BEnd) j) s)
      | BCall =>
          if (S (count blocked (bthreads s)) =? numThreads)%nat
          then Some (BarState (release k (bthreads s)) (bmain s) (serials s ++ [k]) (passes s) (b_ended s))
          else Some (set_bthread i (BarThread BBlocked j) s)
      | BReturned serial =>
          Some (BarState (<[i := BarThread BLoop (S j)]> (bthreads s)) (bmain s) (serials s) ((i, j, serial) :: passes s) (b_ended s))
      end
  end.

Definition bar_main_step (s : bar_state) : option bar_state :=
  match bmain s with
  | BCreate i =>
      match bthreads s !! i with
      | Some t => Some (BarState (<[i := BarThread BLoop (b_round t)]> (bthreads s)) (BCreate (S i)) (serials s) (passes s) (b_ended s))
      | None => Some (set_bmain BPause s)
      end
  | BPause => Some (set_bmain (BJoin 0) s)
  | BJoin i =>
      match bthreads s !! i with
      | Some t => match b_pc t with BEnd => Some (set_bmain (BJoin (S i)) s) | _ => None end
      | None => Some (b_ends (Exits EXIT_SUCCESS) s)
      end
  end.

Inductive bar_regular (s : bar_state) : bar_state -> Prop :=
  | bar_threads k i s' : b_ended s = None -> (k < numThreads)%nat -> bar_thread_step k i s = Some s' -> bar_regular s s'
  | bar_mains s' : b_ended s = None -> bar_main_step s = Some s' -> bar_regular s s'.

Inductive bar_step (s : bar_state) : bar_state -> Prop :=
  | bar_goes s' : bar_regular s s' -> bar_step s s'
  | bar_thread_fails i t : b_ended s = None -> bthreads s !! i = Some t -> b_pc t = BCall \/ b_pc t = BBlocked -> bar_step s (b_ends (Exits EXIT_FAILURE) s)
  | bar_main_fails i t : b_ended s = None -> bthreads s !! i = Some t -> bmain s = BCreate i \/ bmain s = BJoin i -> bar_step s (b_ends (Exits EXIT_FAILURE) s).

Definition bar_reachable : bar_state -> Prop := rtc bar_step bar_init.

(** ** The invariant *)

(** How far a thread is, if the barrier has been passed [g] times. *)
Definition bar_thread_ok (g : nat) (m : bar_main) (sel : list nat) (i : nat) (t : bar_thread) : Prop :=
  match b_pc t with
  | BNone => b_round t = 0%nat /\ g = 0%nat /\ exists i', m = BCreate i' /\ (i' <= i)%nat
  | BLoop => b_round t = g /\ (g <= numBarriers)%nat
  | BCall | BBlocked => b_round t = g /\ (g < numBarriers)%nat
  | BReturned b => S (b_round t) = g /\ (g <= numBarriers)%nat /\ b = bool_decide (sel !! b_round t = Some i)
  | BEnd => b_round t = g /\ g = numBarriers
  end /\ (match m with BCreate i' => (i' <= i)%nat -> b_pc t = BNone | BPause => True | BJoin i' => (i < i')%nat -> b_pc t = BEnd end).

Record bar_inv (s : bar_state) : Prop := BarInv {
  bi_length : length (bthreads s) = numThreads;
  bi_threads : forall i t, bthreads s !! i = Some t -> bar_thread_ok (length (serials s)) (bmain s) (serials s) i t;
  bi_blocked : (count blocked (bthreads s) < numThreads)%nat;
  bi_serials : Forall (fun k => (k < numThreads)%nat) (serials s);
  bi_passes : forall i j b, (i, j, b) ∈ passes s <-> exists t, bthreads s !! i = Some t /\ (j < b_round t)%nat /\ b = bool_decide (serials s !! j = Some i);
  bi_once : NoDup (passes s);
  bi_exit : b_ended s = Some (Exits EXIT_SUCCESS) -> forall i t, bthreads s !! i = Some t -> b_pc t = BEnd
}.

Lemma count_none {A} (f : A -> nat) l : (forall x, x ∈ l -> f x = 0%nat) -> count f l = 0%nat.
Proof. induction l as [|x l IH]; intros H; [done|]. cbn. rewrite IH by (intros y Hy; apply H; by right). rewrite H; [done|by left]. Qed.

Lemma count_all {A} (f : A -> nat) l : (forall x, x ∈ l -> f x = 1%nat) -> count f l = length l.
Proof. induction l as [|x l IH]; intros H; [done|]. cbn. rewrite IH by (intros y Hy; apply H; by right). rewrite H; [done|by left]. Qed.

Lemma bar_inv_init : (0 < numThreads)%nat -> bar_inv bar_init.
Proof.
  intros Hn. split; cbn; try done.
  - by rewrite length_replicate.
  - intros i t [-> _]%lookup_replicate. split; [|done]. split_and!; [done..|]. exists 0%nat. split; [done|lia].
  - enough (count blocked (replicate numThreads (BarThread BNone 0)) = 0%nat) by lia. apply count_none. by intros t [-> _]%elem_of_replicate.
  - intros i j b. split; [by intros ?%elem_of_nil|]. intros (t & [-> _]%lookup_replicate & Hj & _). cbn in Hj. lia.
  - constructor.
Qed.

(** A thread moves within its round, or one round on with a message. *)
Lemma bar_inv_move s i t t' m new :
  bar_inv s -> bthreads s !! i = Some t ->
  bar_thread_ok (length (serials s)) m (serials s) i t' ->
  (forall j u, j <> i -> bthreads s !! j = Some u -> bar_thread_ok (length (serials s)) m (serials s) j u) ->
  (blocked t' + count blocked (bthreads s) < numThreads + blocked t)%nat ->
  b_round t' = b_round t /\ new = [] \/ b_round t' = S (b_round t) /\ new = [(i, b_round t, bool_decide (serials s !! b_round t = Some i))] ->
  bar_inv (BarState (<[i := t']> (bthreads s)) m (serials s) (new ++ passes s) None).
Proof.
  intros [Hlen Hth Hbl Hse Hpa Hnd _] Hi Ht' Hother Hcnt Hnew. pose proof (count_insert blocked _ _ _ t' Hi) as Hc.
  assert (forall j u, <[i := t']> (bthreads s) !! j = Some u -> j = i /\ u = t' \/ j <> i /\ bthreads s !! j = Some u) as Hins.
  { intros j u. rewrite list_lookup_insert_Some. intros [(-> & <- & _)|[? ?]]; auto. }
  assert (<[i := t']> (bthreads s) !! i = Some t') as Hself by (apply list_lookup_insert_eq; by eapply lookup_lt_Some).
  assert (forall j, j <> i -> <[i := t']> (bthreads s) !! j = bthreads s !! j) as Hne by (intros j Hj; by rewrite list_lookup_insert_ne).
  split; cbn; try done.
  - by rewrite length_insert.
  - intros j u Hj. destruct (Hins _ _ Hj) as [[-> ->]|[Hji Hu]]; [done|by apply Hother].
  - lia.
  - intros x j b. rewrite elem_of_app, Hpa. destruct (decide (x = i)) as [->|Hx].
    + rewrite Hi, Hself. destruct Hnew as [[Hr ->]|[Hr ->]].
      * split; [intros [?%elem_of_nil|(u & [= <-] & Hj & Hb)]; [done|]|intros (u & [= <-] & Hj & Hb); right]; eexists; (split; [done|]); by rewrite Hr in *.
      * rewrite list_elem_of_singleton. split.
        -- intros [[= -> ->]|(u & [= <-] & Hj & Hb)]; eexists; (split; [done|]); (split; [lia|done]).
        -- intros (u & [= <-] & Hj & Hb). destruct (decide (j = b_round t)) as [->|Hjr]; [left; by rewrite Hb|right]. exists t. split_and!; [done|lia|done].
    + rewrite Hne by done. split; [|by intros ?; right]. intros [Hin|?]; [|done]. destruct Hnew as [[_ ->]|[_ ->]]; [by apply elem_of_nil in Hin|]. apply list_elem_of_singleton in Hin. congruence.
  - destruct Hnew as [[_ ->]|[_ ->]]; [done|]. apply NoDup_cons. split; [|done]. rewrite Hpa. intros (u & Hu & Hj & _). rewrite Hi in Hu. injection Hu as <-. lia.
Qed.

Lemma unblocked_one l i t : bthreads l !! i = Some t -> blocked t = 0%nat -> S (count blocked (bthreads l)) = length (bthreads l) ->
  forall j u, bthreads l !! j = Some u -> j <> i -> b_pc u = BBlocked.
Proof.
  intros Hi Hb Hlen j u Hj Hne. assert (forall k : list bar_thread, (count blocked k + count (fun x => 1 - blocked x) k = length k)%nat) as Hsum.
  { induction k as [|x k IH]; [done|]. cbn. unfold blocked in *. destruct (b_pc x); cbn; lia. }
  specialize (Hsum (bthreads l)). pose proof (count_two (fun x => 1 - blocked x)%nat _ _ _ _ _ Hne Hj Hi) as H2. cbn beta in H2.
  destruct (decide (b_pc u = BBlocked)) as [|Hu]; [done|]. assert (blocked u = 0%nat) as Hu0 by (unfold blocked; by destruct (b_pc u)). rewrite Hu0, Hb in H2. lia.
Qed.

(** The barrier opens. *)
Lemma bar_inv_open s i j k :
  bar_inv s -> bthreads s !! i = Some (BarThread BCall j) -> S (count blocked (bthreads s)) = numThreads -> (k < numThreads)%nat ->
  bar_inv (BarState (release k (bthreads s)) (bmain s) (serials s ++ [k]) (passes s) None).
Proof.
  intros [Hlen Hth Hbl Hse Hpa Hnd _] Hi Hcnt Hk.
  assert (forall x u, bthreads s !! x = Some u -> b_pc u = BCall \/ b_pc u = BBlocked) as Hall.
  { intros x u Hx. destruct (decide (x = i)) as [->|Hne]; [rewrite Hi in Hx; injection Hx as <-; by left|right]. eapply unblocked_one; [exact Hi|done|lia|exact Hx|done]. }
  assert (forall x u, bthreads s !! x = Some u -> b_round u = length (serials s) /\ (length (serials s) < numBarriers)%nat) as Hround.
  { intros x u Hx. destruct (Hth _ _ Hx) as [Hok _]. by destruct (Hall _ _ Hx) as [Hp|Hp]; rewrite Hp in Hok. }
  split; cbn; try done.
  - unfold release. by rewrite length_imap.
  - intros x u. unfold release. rewrite list_lookup_imap. intros (w & Hw & ->)%fmap_Some. destruct (Hround _ _ Hw) as [Hr Hg]. rewrite length_app. cbn. split.
    + cbn. rewrite Hr. split_and!; [lia|lia|]. rewrite lookup_app_r, Nat.sub_diag by lia. cbn. apply bool_decide_ext. split; [by intros ->|by intros [= ->]].
    + cbn. destruct (Hth _ _ Hw) as [_ Hm]. destruct (bmain s); [|done|].
      * intros Hle. specialize (Hm Hle). destruct (Hall _ _ Hw); congruence.
      * intros Hle. specialize (Hm Hle). destruct (Hall _ _ Hw); congruence.
  - enough (count blocked (release k (bthreads s)) = 0%nat) by lia. apply count_none. unfold release. intros u (x & Hx)%list_elem_of_lookup. rewrite list_lookup_imap in Hx.
    by apply fmap_Some in Hx as (w & _ & ->).
  - apply Forall_app. split; [done|]. by repeat constructor.
  - intros x y b. rewrite Hpa. unfold release. rewrite list_lookup_imap. destruct (bthreads s !! x) as [w|] eqn:Hw; cbn; [|split; intros (? & ? & _); done].
    destruct (Hround _ _ Hw) as [Hr _]. split.
    + intros (u & [= <-] & Hy & Hb). eexists. split; [done|]. cbn. split; [done|]. by rewrite lookup_app_l by lia.
    + intros (u & [= <-] & Hy & Hb). exists w. cbn in Hy, Hb. split_and!; [done..|]. by rewrite lookup_app_l in Hb by lia.
Qed.

Lemma bar_inv_thread k i s s' : bar_inv s -> b_ended s = None -> (k < numThreads)%nat -> bar_thread_step k i s = Some s' -> bar_inv s'.
Proof.
  intros Hinv He Hk Hs. pose proof Hinv as [Hlen Hth Hbl _ _ _ _]. unfold bar_thread_step in Hs. destruct (bthreads s !! i) as [[pc j]|] eqn:Hi; [|done].
  pose proof (Hth _ _ Hi) as [Hok Hm]. cbn in Hok, Hm.
  assert (forall x, match bmain s with BCreate i' => (i' <= i)%nat -> pc = BNone | BPause => True | BJoin i' => (i < i')%nat -> pc = BEnd end -> pc <> BNone -> pc <> BEnd ->
    match bmain s with BCreate i' => (i' <= i)%nat -> x = BNone | BPause => True | BJoin i' => (i < i')%nat -> x = BEnd end) as Hmain.
  { intros x H1 H2 H3. destruct (bmain s); [|done|]; intros Hle; by specialize (H1 Hle). }
  assert (forall u, u <> i -> forall w, bthreads s !! u = Some w -> bar_thread_ok (length (serials s)) (bmain s) (serials s) u w) as Hother by (intros u _ w Hw; by apply Hth).
  destruct pc; try done.
  - injection Hs as <-. unfold set_bthread. rewrite He. apply (bar_inv_move s i _ (BarThread (if (j <? numBarriers)%nat then BCall else BEnd) j) _ [] Hinv Hi); [|by intros; apply Hother|destruct (j <? numBarriers)%nat; cbn; lia|by left].
    split; [|by apply Hmain]. destruct (Nat.ltb_spec j numBarriers); cbn; lia.
  - destruct (Nat.eqb_spec (S (count blocked (bthreads s))) numThreads) as [Hn|Hn]; injection Hs as <-.
    + rewrite He. by eapply bar_inv_open.
    + unfold set_bthread. rewrite He. apply (bar_inv_move s i _ (BarThread BBlocked j) _ [] Hinv Hi); cbn; [|by intros; apply Hother|lia|by left]. split; cbn; [lia|by apply Hmain].
  - injection Hs as <-. rewrite He. destruct Hok as (Hr & Hle & Hb). subst serial.
    apply (bar_inv_move s i _ (BarThread BLoop (S j)) _ [(i, j, bool_decide (serials s !! j = Some i))] Hinv Hi); cbn; [|by intros; apply Hother|lia|by right]. split; cbn; [lia|by apply Hmain].
Qed.

Lemma bar_inv_main s s' : bar_inv s -> b_ended s = None -> bar_main_step s = Some s' -> bar_inv s'.
Proof.
  intros Hinv He Hs. pose proof Hinv as [Hlen Hth Hbl Hse Hpa Hnd Hex]. unfold bar_main_step in Hs.
  destruct (bmain s) as [i| |i] eqn:Hm.
  - destruct (bthreads s !! i) as [[pc j]|] eqn:Hi; injection Hs as <-.
    + destruct (Hth _ _ Hi) as [Hok Hpc]. cbn in Hpc, Hok. rewrite (Hpc ltac:(lia)) in *. destruct Hok as (-> & Hg & _). rewrite He.
      apply (bar_inv_move s i _ (BarThread BLoop 0) (BCreate (S i)) [] Hinv Hi); cbn; [split; cbn; lia| |lia|by left].
      intros u w Hne Hw. destruct (Hth _ _ Hw) as [H1 H2]. split; [|intros ?; apply H2; lia]. destruct (b_pc w); try done. destruct H1 as (? & ? & i' & [= <-] & ?). split_and!; [done..|].
      exists (S i). split; [done|lia].
    + apply lookup_ge_None in Hi. split; cbn; try done. intros u w Hw. destruct (Hth _ _ Hw) as [H1 H2]. split; [|done]. destruct (b_pc w); try done.
      destruct H1 as (_ & _ & i' & [= <-] & ?). apply lookup_lt_Some in Hw. lia.
  - injection Hs as <-. split; cbn; try done. intros u w Hw. destruct (Hth _ _ Hw) as [H1 _]. split; [|lia]. destruct (b_pc w); try done. by destruct H1 as (_ & _ & i' & [=] & _).
  - destruct (bthreads s !! i) as [[pc j]|] eqn:Hi.
    + cbn in Hs. destruct pc; try done. injection Hs as <-. split; cbn; try done. intros u w Hw. destruct (Hth _ _ Hw) as [H1 H2]. split.
      * destruct (b_pc w); try done. by destruct H1 as (_ & _ & i' & [=] & _).
      * intros Hlt. destruct (decide (u = i)) as [->|Hne]; [rewrite Hi in Hw; by injection Hw as <-|apply H2; lia].
    + injection Hs as <-. split; cbn; try done; [by rewrite Hm|]. intros _ u w Hw. destruct (Hth _ _ Hw) as [_ H2]. apply H2. apply lookup_lt_Some in Hw. apply lookup_ge_None in Hi. lia.
Qed.

Lemma bar_inv_step s s' : bar_inv s -> bar_step s s' -> bar_inv s'.
Proof.
  intros Hinv [s'' [k i s3 He Hk Hs|s3 He Hs]|i t He _ _|i t He _ _]; [by eapply bar_inv_thread|by eapply bar_inv_main|..]; destruct Hinv; by split.
Qed.

Lemma bar_inv_reachable s : (0 < numThreads)%nat -> bar_reachable s -> bar_inv s.
Proof.
  intros Hn Hr. unfold bar_reachable in Hr. pose proof (bar_inv_init Hn) as Hi. revert Hi. induction Hr as [|s1 s2 s3 H12 _ IH]; [done|]. intros Hi. by eapply IH, bar_inv_step.
Qed.

(** ** Progress *)

Lemma bar_no_deadlock s : bar_inv s -> (0 < numThreads)%nat -> b_ended s = None -> exists s', bar_regular s s'.
Proof.
  intros Hinv Hn He. destruct (bar_main_step s) as [s'|] eqn:Hm; [exists s'; by apply bar_mains|].
  unfold bar_main_step in Hm. destruct (bmain s) as [i| |i] eqn:Hmain; [by destruct (bthreads s !! i)|done|]. destruct (bthreads s !! i) as [t|] eqn:Hi; [|done].
  assert (forall x u, bthreads s !! x = Some u -> b_pc u <> BBlocked -> b_pc u <> BEnd -> exists s', bar_regular s s') as Hgo.
  { intros x [pc j] Hx H1 H2. cbn in *. pose proof (bi_threads s Hinv _ _ Hx) as [Hok _]. rewrite Hmain in Hok. cbn in Hok.
    assert (exists s', bar_thread_step 0 x s = Some s') as [s' Hs']; [|exists s'; by eapply (bar_threads _ 0)].
    unfold bar_thread_step. rewrite Hx. destruct pc; [|eexists; reflexivity|destruct (_ =? numThreads)%nat; eexists; reflexivity|by destruct H1|eexists; reflexivity|by destruct H2]. by destruct Hok as (_ & _ & i' & [=] & _). }
  destruct (decide (b_pc t = BBlocked)) as [Hb|Hb]; [|eapply (Hgo i t); [done|done|]; intros Hend; by rewrite Hend in Hm].
  destruct (decide (Exists (fun u => b_pc u <> BBlocked /\ b_pc u <> BEnd) (bthreads s))) as [Hex|Hno].
  { apply Exists_exists in Hex as (u & (x & Hx)%list_elem_of_lookup & H1 & H2). by eapply Hgo. }
  exfalso. pose proof (bi_blocked s Hinv) as Hcnt. rewrite <- (bi_length s Hinv) in Hcnt.
  enough (count blocked (bthreads s) = length (bthreads s)) by lia. apply count_all. intros u Hu.
  destruct (bi_threads s Hinv _ _ Hi) as [Hok _]. rewrite Hb in Hok. destruct (decide (b_pc u = BBlocked)) as [Hub|Hub]; [unfold blocked; by rewrite Hub|].
  exfalso. apply Hno, Exists_exists. exists u. split; [done|]. split; [done|]. intros Hend. apply list_elem_of_lookup in Hu as [x Hx].
  destruct (bi_threads s Hinv _ _ Hx) as [Hok' _]. rewrite Hend in Hok'. lia.
Qed.

(** ** Runs end *)

Definition thread_rest (t : bar_thread) : nat :=
  let r := (4 * (numBarriers - b_round t))%nat in
  match b_pc t with BNone => r + 2 | BLoop => r + 1 | BCall => r | BBlocked => r - 1 | BReturned _ => r - 2 | BEnd => 0 end.

Definition main_rest (m : bar_main) : nat :=
  match m with BCreate i => (numThreads - i) + numThreads + 3 | BPause => numThreads + 2 | BJoin i => numThreads + 1 - i end.

Definition bar_rest (s : bar_state) : nat := count thread_rest (bthreads s) + main_rest (bmain s) + match b_ended s with None => 1 | Some _ => 0 end.

Lemma count_imap_less {A} (f : A -> nat) (g : nat -> A -> A) l :
  (forall i x, l !! i = Some x -> (f (g i x) < f x)%nat) -> (count f (imap g l) + length l <= count f l)%nat.
Proof.
  revert g. induction l as [|x l IH]; intros g H; [done|]. cbn. pose proof (H 0%nat x eq_refl) as H0.
  specialize (IH (g ∘ S) ltac:(intros i y Hy; exact (H (S i) y Hy))). lia.
Qed.

Lemma count_less {A} (f : A -> nat) l i x y : l !! i = Some x -> (f y < f x)%nat -> (count f (<[i := y]> l) < count f l)%nat.
Proof. intros Hi Hlt. pose proof (count_insert f _ _ _ y Hi). lia. Qed.

Lemma bar_rest_step s s' : bar_inv s -> bar_regular s s' -> (bar_rest s' < bar_rest s)%nat.
Proof.
  intros Hinv [k i s1 He Hk Hs|s1 He Hs]; unfold bar_rest.
  - unfold bar_thread_step in Hs. destruct (bthreads s !! i) as [[pc j]|] eqn:Hi; [|done]. destruct (bi_threads s Hinv _ _ Hi) as [Hok _]. cbn in Hok.
    assert (forall y, (thread_rest y < thread_rest (BarThread pc j))%nat -> (count thread_rest (<[i := y]> (bthreads s)) < count thread_rest (bthreads s))%nat) as Hless by (intros y; by apply count_less). destruct pc; try done.
    + injection Hs as <-. cbn [bthreads bmain b_ended set_bthread]. enough (count thread_rest (<[i:=BarThread (if (j <? numBarriers)%nat then BCall else BEnd) j]> (bthreads s)) < count thread_rest (bthreads s))%nat by lia.
      apply Hless. unfold thread_rest. destruct (Nat.ltb_spec j numBarriers); cbn; lia.
    + destruct (Nat.eqb_spec (S (count blocked (bthreads s))) numThreads) as [Hn|Hn]; injection Hs as <-; cbn.
      * pose proof (bi_length s Hinv) as Hlen. enough (count thread_rest (release k (bthreads s)) + length (bthreads s) <= count thread_rest (bthreads s))%nat by lia.
        apply count_imap_less. intros x u Hx. destruct (bi_threads s Hinv _ _ Hx) as [Hu _].
        assert (b_pc u = BCall \/ b_pc u = BBlocked) as [Hp|Hp]; [|rewrite Hp in Hu; unfold thread_rest; rewrite Hp; cbn; lia..].
        destruct (decide (x = i)) as [->|Hne]; [rewrite Hi in Hx; injection Hx as <-; by left|right]. eapply unblocked_one; [exact Hi|done|lia|exact Hx|done].
      * enough (count thread_rest (<[i:=BarThread BBlocked j]> (bthreads s)) < count thread_rest (bthreads s))%nat by lia. apply Hless. unfold thread_rest. cbn. lia.
    + injection Hs as <-. cbn. enough (count thread_rest (<[i:=BarThread BLoop (S j)]> (bthreads s)) < count thread_rest (bthreads s))%nat by lia. apply Hless. unfold thread_rest. cbn. lia.
  - unfold bar_main_step in Hs. pose proof (bi_length s Hinv) as Hlen. destruct (bmain s) as [i| |i] eqn:Hm.
    + destruct (bthreads s !! i) as [[pc j]|] eqn:Hi; injection Hs as <-; cbn; rewrite ?Hm, ?He; [|cbn; lia].
      destruct (bi_threads s Hinv _ _ Hi) as [_ Hpc]. rewrite Hm in Hpc. cbn in Hpc. rewrite (Hpc ltac:(lia)) in *.
      enough (count thread_rest (<[i:=BarThread BLoop j]> (bthreads s)) < count thread_rest (bthreads s))%nat by (apply lookup_lt_Some in Hi; lia). by eapply count_less; [exact Hi|unfold thread_rest; cbn; lia].
    + injection Hs as <-. cbn. rewrite He. cbn. lia.
    + destruct (bthreads s !! i) as [[pc j]|] eqn:Hi; [|injection Hs as <-; cbn; rewrite He; rewrite ?Hm; cbn; lia]. cbn in Hs. destruct pc; try done. injection Hs as <-. cbn. rewrite He. apply lookup_lt_Some in Hi. lia.
Qed.

Lemma bar_regular_acc s : bar_inv s -> Acc (flip bar_regular) s.
Proof.
  induction s as [s IH] using (induction_ltof1 _ bar_rest). intros Hinv. constructor. intros s' Hs. apply IH; [by apply bar_rest_step|]. eapply bar_inv_step; [done|by apply bar_goes].
Qed.

(** ** What the messages say *)

(** A thread has passed barrier [j] only when every thread has called the wait for it. *)
Lemma bar_together s i j b u t : bar_inv s -> (i, j, b) ∈ passes s -> bthreads s !! u = Some t ->
  (j < b_round t)%nat \/ b_round t = j /\ exists b', b_pc t = BReturned b'.
Proof.
  intros Hinv (w & Hw & Hj & _)%(bi_passes s Hinv) Ht. destruct (bi_threads s Hinv _ _ Hw) as [Hwk _]. destruct (bi_threads s Hinv _ _ Ht) as [Htk _].
  assert (b_round w <= length (serials s))%nat as Hle by (destruct (b_pc w); lia).
  destruct (b_pc t) as [| | | |b'|]; [lia..| |lia]. destruct (decide (j < b_round t)%nat); [by left|right; split; [lia|by exists b']].
Qed.

Lemma bar_serial_once s i i' j : bar_inv s -> (i, j, true) ∈ passes s -> (i', j, true) ∈ passes s -> i = i'.
Proof.
  intros Hinv (t & _ & _ & H1)%(bi_passes s Hinv) (t' & _ & _ & H2)%(bi_passes s Hinv). symmetry in H1, H2. apply bool_decide_eq_true in H1, H2. congruence.
Qed.

Lemma bar_complete s : bar_inv s -> (0 < numThreads)%nat -> b_ended s = Some (Exits EXIT_SUCCESS) ->
  Forall (fun t => t = BarThread BEnd numBarriers) (bthreads s) /\
  forall j, (j < numBarriers)%nat -> (forall i, (i < numThreads)%nat -> exists b, (i, j, b) ∈ passes s) /\ exists i, (i < numThreads)%nat /\ (i, j, true) ∈ passes s.
Proof.
  intros Hinv Hn He. assert (forall i t, bthreads s !! i = Some t -> t = BarThread BEnd numBarriers /\ length (serials s) = numBarriers) as Hend.
  { intros i [pc r] Ht. pose proof (bi_exit s Hinv He _ _ Ht) as Hpc. cbn in Hpc. subst pc. destruct (bi_threads s Hinv _ _ Ht) as [[Hr Hg] _]. cbn in Hr. split; [congruence|done]. }
  assert (forall i, (i < numThreads)%nat -> exists t, bthreads s !! i = Some t) as Hex by (intros i Hi; apply lookup_lt_is_Some; by rewrite (bi_length s Hinv)).
  split; [apply Forall_lookup; intros i t Ht; by apply (Hend i)|]. intros j Hj. split.
  - intros i Hi. destruct (Hex i Hi) as [t Ht]. destruct (Hend _ _ Ht) as [-> _]. eexists. apply (bi_passes s Hinv). eexists. split; [exact Ht|]. by split.
  - destruct (Hex 0%nat Hn) as [t0 Ht0]. destruct (Hend _ _ Ht0) as [_ Hlen]. destruct (lookup_lt_is_Some_2 (serials s) j ltac:(lia)) as [k Hk].
    pose proof (Forall_lookup_1 _ _ _ _ (bi_serials s Hinv) Hk) as Hkn. cbn beta in Hkn. exists k. split; [done|]. apply (bi_passes s Hinv).
    destruct (Hex k Hkn) as [t Ht]. destruct (Hend _ _ Ht) as [-> _]. eexists. split; [exact Ht|]. split; [done|]. symmetry. by apply bool_decide_eq_true.
Qed.
End Barrier.

(** C12: pthread_barrier_demo.c keeps its threads together however they and main interleave, whatever
    the arguments: if it starts threads, then, when a thread has reported that it passed
    barrier [j], every thread has called the wait for [j] and has returned from it or gone
    on; no thread reports a barrier twice and at most one of them reports
    PTHREAD_BARRIER_SERIAL_THREAD for it; when the program exits successfully all threads
    have passed every barrier and each barrier has had its serial thread; the program
    never deadlocks, and without failing calls it always ends. *)
Theorem barrier_correct allocates initializes argv numBarriers numThreads s :
  (forall n, n < 0 -> allocates n = false) -> initializes 0 <> 0 ->
  bar_start allocates initializes argv = inr (numBarriers, numThreads) -> bar_reachable numBarriers numThreads s ->
  (forall i j b u t, (i, j, b) ∈ passes s -> bthreads s !! u = Some t -> (j < b_round t)%nat \/ b_round t = j /\ exists b', b_pc t = BReturned b') /\
  NoDup (passes s) /\ (forall i i' j, (i, j, true) ∈ passes s -> (i', j, true) ∈ passes s -> i = i') /\
  (b_ended s = Some (Exits EXIT_SUCCESS) ->
    Forall (fun t => t = BarThread BEnd numBarriers) (bthreads s) /\
    forall j, (j < numBarriers)%nat ->
      (forall i, (i < numThreads)%nat -> exists b, (i, j, b) ∈ passes s) /\ exists i, (i < numThreads)%nat /\ (i, j, true) ∈ passes s) /\
  (b_ended s = None -> exists s', bar_regular numBarriers numThreads s s') /\
  Acc (flip (bar_regular numBarriers numThreads)) s.
Proof.
  intros Ha Hi Hs Hr. pose proof (bar_start_threads _ _ _ _ _ Ha Hi Hs) as Hn. pose proof (bar_inv_reachable _ _ _ Hn Hr) as Hinv. split; [|split; [|split; [|split; [|split]]]].
  - intros i j b u t. by eapply bar_together.
  - by eapply bi_once.
  - intros i i' j. by eapply bar_serial_once.
  - by eapply bar_complete.
  - by eapply bar_no_deadlock.
  - by eapply bar_regular_acc.
Qed.

(** A scheduler: main first, then the first thread that can move; thread 1 is chosen. *)
Definition bar_next (numBarriers numThreads : nat) (s : bar_state) : option bar_state :=
  match b_ended s, bar_main_step s with
  | Some _, _ => None
  | None, Some s' => Some s'
  | None, None => list_find (fun i => bar_thread_step numBarriers numThreads 1 i s <> None) (seq 0 numThreads) ≫= fun p => bar_thread_step numBarriers numThreads 1 p.2 s
  end.

Fixpoint run_bar (fuel numBarriers numThreads : nat) (s : bar_state) : bar_state :=
  match fuel with O => s | S f => match bar_next numBarriers numThreads s with Some s' => run_bar f numBarriers numThreads s' | None => s end end.

Lemma run_bar_reaches fuel numBarriers numThreads s : (1 < numThreads)%nat -> rtc (bar_step numBarriers numThreads) s (run_bar fuel numBarriers numThreads s).
Proof.
  intros Hn. revert s. induction fuel as [|f IH]; intros s; cbn [run_bar]; [apply rtc_refl|]. destruct (bar_next numBarriers numThreads s) as [s'|] eqn:Hs; [|apply rtc_refl].
  eapply rtc_l; [|apply IH]. unfold bar_next in Hs. destruct (b_ended s) eqn:He; [done|]. apply bar_goes.
  destruct (bar_main_step s) as [s1|] eqn:Hm; [injection Hs as <-; by apply bar_mains|]. apply bind_Some in Hs as ([x i] & _ & Hi). by eapply bar_threads.
Qed.

Lemma barrier_witness :
  (1 < 3)%nat /\ bar_start (fun n => 0 <=? n) (fun n => if n =? 0 then 22 else 0) [$"pthread_barrier_demo"; $"2"; $"3"] = inr (2, 3)%nat /\
  let s := run_bar 60 2 3 (bar_init 3) in
  b_ended s = Some (Exits EXIT_SUCCESS) /\ serials s = [1; 1]%nat /\ Forall (fun t => t = BarThread BEnd 2) (bthreads s) /\ exists i, (i < 3)%nat /\ (i, 0%nat, true) ∈ passes s.
Proof.
  assert (1 < 3)%nat as H13 by lia. split; [exact H13|]. split; [reflexivity|]. intros s. assert (b_ended s = Some (Exits EXIT_SUCCESS)) as He by (vm_compute; reflexivity).
  split; [exact He|]. split; [vm_compute; reflexivity|].
  destruct (barrier_correct (fun n => 0 <=? n) (fun n => if n =? 0 then 22 else 0) [$"pthread_barrier_demo"; $"2"; $"3"] 2 3 s ltac:(intros n Hn; apply Z.leb_gt; exact Hn) ltac:(discriminate) eq_refl
    (run_bar_reaches 60 2 3 _ H13)) as (_ & _ & _ & Hex & _). destruct (Hex He) as [Hall Hj]. split; [exact Hall|].
  destruct (Hj 0%nat ltac:(lia)) as [_ H0]. exact H0.
Defined.
