(* ===== verification/RandDtree.v ===== *)
(** * inotify/rand_dtree.c: random changes of a directory tree

    The program creates, removes or renames directories below the one of its argument,
    to exercise inotify_dtree.  [slots] is dirList with its dlSize elements, where
    [None] is a pointer that is NULL or has no value yet; getopt() is replaced by the
    options that it returns and the arguments after them. *)

From S2P Require Import Prelude Sys LibErrors GetNum FileIO PosixIpc PosixTools.

Definition DLIM : nat := 60.
Definition PATH_MAX : nat := 4096.
Definition D_INCR : nat := 1000.
Definition MARKER_STRING : list ascii := $"--".

(** strstr() and strrchr(): what comes before the occurrence, and what follows from it
    on or after it. *)
Fixpoint strstr (s pat : list ascii) : option (list ascii * list ascii) :=
  if strncmp_eq s pat (length pat) then Some ([], s)
  else match s with
       | [] => None
       | x :: s' => match strstr s' pat with Some (a, b) => Some (x :: a, b) | None => None end
       end.

Fixpoint strrchr (s : list ascii) (c : ascii) : option (list ascii * list ascii) :=
  match s with
  | [] => None
  | x :: s' =>
      match strrchr s' c with
      | Some (a, b) => Some (x :: a, b)
      | None => if Ascii.eqb x c then Some ([], s') else None
      end
  end.

Definition has_marker (p : list ascii) : bool := match strstr p MARKER_STRING with Some _ => true | None => false end.

(** printf("%04d"). *)
Definition zeros4 (s : list ascii) : list ascii := replicate (4 - length s) "0"%char ++ s.

Record tree := Tree { slots : list (option (list ascii)); dcnt : nat }.
Record rd_opts := RdOpts { rd_usecs : Z; rd_stopFile : option (list ascii); rd_maxops : Z; rd_logfp : option Z }.

Section RandDtree.
Context {T : ErrText}.

Definition traverseTree (t : tree) (pathname : list ascii) (sb : stat) : prog tree :=
  if negb (st_isdir sb) then Ret t
  else
    slots <- (if (length (slots t) <=? dcnt t)%nat then
                let dlSize := (length (slots t) + D_INCR)%nat in
                ok <- sys (Alloc (8 * Z.of_nat dlSize)) ;;
                if (ok : bool) then Ret (slots t ++ replicate D_INCR None) else errExit ENOMEM ($"realloc")
              else Ret (slots t)) ;;
    Ret (Tree (<[dcnt t := Some pathname]> slots) (S (dcnt t))).

(** nftw() calls [traverseTree] for each file it visits. *)
Fixpoint traverseAll (t : tree) (visits : list (list ascii * stat)) : prog tree :=
  match visits with
  | [] => Ret t
  | (p, sb) :: visits => t <- traverseTree t p sb ;; traverseAll t visits
  end.

Definition getDirList (t : tree) (pathname : list ascii) : prog tree :=
  '(visits, r) <- sys (Nftw pathname) ;;
  t <- traverseAll (Tree (slots t) 0) visits ;;
  match r with Err e => errMsg e ($"nftw: " ++ pathname) | Ok _ => Ret tt end ;;;
  Ret t.

Definition logMessage (logfp : option Z) (text : list ascii) : prog unit :=
  match logfp with Some fp => print (Sys.File fp) text | None => Ret tt end.

Definition rdUsage {A} (pname : list ascii) : prog A :=
  usageLines [$"Usage: " ++ pname ++ $" [options] dirpath {c|d|m}" ++ [NL]; $"Perform random operations in the directory tree 'dirpath'";
              $"    c == create directories"; $"    d == delete directories"; $"    m == rename directories" ++ [NL]; $"Options:";
              $"    -l logfile     Record activity in log file"; $"    -m maxops      Do at most 'maxops' operations (default is unlimited)";
              $"    -s usecs       Sleep 'usecs' microseconds between each operation";
              $"    -z stopfile    Immediately stop when the file 'stopfile' is created"].

Fixpoint rdOptions (pname : list ascii) (opts : list (ascii * list ascii)) (o : rd_opts) : prog rd_opts :=
  match opts with
  | [] => Ret o
  | (opt, optarg) :: opts =>
      if Ascii.eqb opt "s" then rdOptions pname opts (RdOpts (atoi optarg) (rd_stopFile o) (rd_maxops o) (rd_logfp o))
      else if Ascii.eqb opt "z" then rdOptions pname opts (RdOpts (rd_usecs o) (Some optarg) (rd_maxops o) (rd_logfp o))
      else if Ascii.eqb opt "m" then rdOptions pname opts (RdOpts (rd_usecs o) (rd_stopFile o) (atoi optarg) (rd_logfp o))
      else if Ascii.eqb opt "l" then
        fp <- sys (Fopen optarg ($"w+")) ;;
        match fp with
        | Err e => errExit e ($"fopen")
        | Ok fp => rdOptions pname opts (RdOpts (rd_usecs o) (rd_stopFile o) (rd_maxops o) (Some fp))
        end
      else rdUsage pname
  end.

(** dirList[random() % dcnt]. *)
Definition pick (t : tree) : prog (list ascii) :=
  if (dcnt t =? 0)%nat then Halt (Undefined "division by zero")
  else
    r <- sys Random ;;
    match slots t !! Z.to_nat (r mod Z.of_nat (dcnt t)) with
    | Some (Some p) => Ret p
    | _ => Halt (Undefined "pointer without value")
    end.

(** mkdir() with the message about its success. *)
Definition makeDir (logfp : option Z) (path : list ascii) : prog unit :=
  r <- sys (Mkdir path 448) ;;
  match r with Ok _ => logMessage logfp ($"mkdir: " ++ path ++ [NL]) | Err _ => Ret tt end.

(** The loop that creates a chain of subdirectories. *)
Fixpoint subdirs (fuel : nat) (logfp : option Z) (path : list ascii) (scnt opcnt : Z) : prog unit :=
  match fuel with
  | O => Halt OutOfFuel
  | S fuel =>
      r <- sys Random ;;
      if r mod 3 <? 2 then
        pid <- sys Getpid ;;
        let text := path ++ $"/" ++ dec (pid mod 100) ++ MARKER_STRING ++ $"scr" ++ dec scnt ++ $"_" ++ dec opcnt in
        if (DLIM <? length text)%nat then Ret tt
        else
          let spath := snprintf PATH_MAX text in
          makeDir logfp spath ;;;
          subdirs fuel logfp (take (PATH_MAX - 1) spath) (scnt + 1) opcnt
      else Ret tt
  end.

(** The three operations: [false] is the statement continue. *)
Definition createOp (o : rd_opts) (t : tree) (opcnt : Z) : prog bool :=
  d <- pick t ;;
  pid <- sys Getpid ;;
  let path := snprintf PATH_MAX (d ++ $"/" ++ dec (pid mod 100) ++ MARKER_STRING ++ $"cr" ++ $"_" ++ dec opcnt) in
  if (DLIM <? length path)%nat then Ret false
  else
    let nslashes := Z.of_nat (length (filter (fun c => c = "/"%char) path)) in
    skip <- (if 1 <? nslashes then r <- sys Random ;; Ret (0 <? r mod nslashes) else Ret false) ;;
    if (skip : bool) then Ret false
    else makeDir (rd_logfp o) path ;;; subdirs (S DLIM) (rd_logfp o) path 1 opcnt ;;; Ret true.

(** The loop that removes a directory and its parents. *)
Fixpoint removeUp (fuel : nat) (logfp : option Z) (path : list ascii) : prog unit :=
  match fuel with
  | O => Halt OutOfFuel
  | S fuel =>
      if has_marker path then
        r <- sys (Rmdir path) ;;
        match r with
        | Err _ => Ret tt
        | Ok _ =>
            logMessage logfp ($"rmdir: " ++ path ++ [NL]) ;;;
            match strrchr path "/" with
            | None => Ret tt
            | Some (parent, _) => removeUp fuel logfp parent
            end
        end
      else Ret tt
  end.

Definition deleteOp (o : rd_opts) (t : tree) : prog bool :=
  if (dcnt t =? 0)%nat then Ret false
  else
    d <- pick t ;;
    let path := snprintf PATH_MAX d in
    removeUp (S (length path)) (rd_logfp o) path ;;; Ret true.

Definition renameOp (o : rd_opts) (t : tree) (opcnt : Z) : prog bool :=
  if (dcnt t <? 3)%nat then Ret false
  else
    to_move <- pick t ;;
    if has_marker to_move then
      match strrchr to_move "/" with
      | None => Halt (Undefined "null pointer")
      | Some (_, base) =>
          let tfile := snprintf PATH_MAX base in
          let tfile := match strstr tfile ($"__ren") with Some (a, _) => a | None => tfile end in
          d <- pick t ;;
          pid <- sys Getpid ;;
          let text := d ++ $"/" ++ tfile ++ $"__ren" ++ zeros4 (dec opcnt) ++ $"-" ++ dec pid in
          if (DLIM <? length text)%nat then Ret true
          else
            let target := snprintf PATH_MAX text in
            r <- sys (Rename to_move target) ;;
            match r with Ok _ => logMessage (rd_logfp o) ($"rename: " ++ to_move ++ $" ==> " ++ target ++ [NL]) | Err _ => Ret tt end ;;;
            Ret true
      end
    else Ret true.

Definition operate (o : rd_opts) (op : ascii) (t : tree) (opcnt : Z) : prog bool :=
  if Ascii.eqb op "c" then createOp o t opcnt
  else if Ascii.eqb op "d" then deleteOp o t
  else if Ascii.eqb op "m" then renameOp o t opcnt
  else Ret true.

(** The loop that frees the strings. *)
Definition freeAll (t : tree) : tree := Tree (replicate (dcnt t) None ++ drop (dcnt t) (slots t)) (dcnt t).

Fixpoint rdLoop (fuel : nat) (o : rd_opts) (dirpath : list ascii) (op : ascii) (t : tree) (opcnt : Z) : prog unit :=
  match fuel with
  | O => Halt OutOfFuel
  | S fuel =>
      t <- getDirList t dirpath ;;
      go <- operate o op t opcnt ;;
      if negb (go : bool) then rdLoop fuel o dirpath op t opcnt
      else
        let t := freeAll t in
        if opcnt =? INT_MAX then Halt (Undefined "overflow of opcnt")
        else
          let opcnt := opcnt + 1 in
          sys (Delay (wrapu 32 (rd_usecs o))) ;;;
          if (0 <? rd_maxops o) && (rd_maxops o <=? opcnt) then Halt (Exit EXIT_SUCCESS)
          else
            a <- sys (Access (rd_stopFile o)) ;;
            match a with
            | Ok _ => Halt (Exit EXIT_SUCCESS)
            | Err _ => rdLoop fuel o dirpath op t opcnt
            end
  end.

Definition rand_dtree_main (fuel : nat) (argv0 : list ascii) (opts : list (ascii * list ascii)) (args : list (list ascii)) : prog unit :=
  o <- rdOptions argv0 opts (RdOpts 1 None 0 None) ;;
  if (length args <? 2)%nat then rdUsage argv0
  else rdLoop fuel o (arg args 0) (char_at (arg args 1) 0) (Tree [] 0) 0.
End RandDtree.

(** ** What the program does to the file system *)

Definition visited {X} (c : call X) : X -> option (list (list ascii * stat)) :=
  match c in call X return X -> option (list (list ascii * stat)) with Nftw _ => fun r => Some (fst r) | _ => fun _ => None end.

Definition dirs_of (visits : list (list ascii * stat)) : list (list ascii) := fst <$> filter (fun v => st_isdir (snd v) = true) visits.

(** The directories of the last listing. *)
Fixpoint last_dirs (h : history) : list (list ascii) :=
  match h with
  | [] => []
  | Ev c r :: h => match visited c r with Some v => dirs_of v | None => last_dirs h end
  end.

(** How many times the tree was listed, and how many operations have been completed. *)
Definition listing (e : event) : nat := match e with Ev c _ => match c with Nftw _ => 1 | _ => 0 end end.
Definition pausing (e : event) : nat := match e with Ev c _ => match c with Delay _ => 1 | _ => 0 end end.
Fixpoint listings (h : history) : nat := match h with [] => 0 | e :: h => listing e + listings h end.
Fixpoint pauses (h : history) : nat := match h with [] => 0 | e :: h => pausing e + pauses h end.

(** [p] is an entry below the directory [d]: something other than slashes follows. *)
Definition below (d p : list ascii) : Prop := exists name c, p = d ++ "/"%char :: name /\ c ∈ name /\ c <> "/"%char.
Definition above (p d : list ascii) : Prop := exists name, d = p ++ "/"%char :: name.

(** The pathname of a directory without slashes at the end. *)
Fixpoint strip (p : list ascii) : list ascii :=
  match p with
  | [] => []
  | c :: p => match strip p with [] => if Ascii.eqb c "/" then [] else [c] | q => c :: q end
  end.

(** What nftw(3) reports about [root]: the directory itself, and pathnames below it. *)
Definition visit_ok (root p : list ascii) : Prop :=
  (length p < PATH_MAX)%nat /\
  (p = strip root \/ strip root = [] /\ p = $"/" \/ exists x name, p = strip root ++ "/"%char :: x :: name /\ x <> "/"%char).

Definition listed (root : list ascii) (e : event) : Prop :=
  match e with Ev c r => forall v p, visited c r = Some v -> p ∈ dirs_of v -> visit_ok root p end.

(** Where the changes take place.  A directory of which the pathname has the marker may be
    the argument itself, or one above it. *)
Definition placed (root : list ascii) (e : event) : Prop :=
  match e with
  | Ev c _ =>
      match c with
      | Mkdir p _ => below (strip root) p
      | Rmdir p => below (strip root) p \/ p `prefix_of` strip root /\ has_marker (strip root) = true
      | Rename p q => (below (strip root) p \/ p = strip root /\ has_marker (strip root) = true) /\ below (strip root) q
      | _ => True
      end
  end.

Section Events.
(** The directory argument, and the options. *)
Context (root : list ascii) (options : list (ascii * list ascii)).

(** The calls that are allowed after a history; only these calls are made at all. *)
Definition event_ok (h : history) (e : event) : Prop :=
  match e with
  | Ev c _ =>
      match c with
      | Nftw p => p = root
      | Mkdir p mode => mode = 448 /\ (length p <= DLIM)%nat /\ has_marker p = true /\ exists d, d ∈ last_dirs h /\ below d p
      | Rmdir p => has_marker p = true /\ exists d, d ∈ last_dirs h /\ ((length d < PATH_MAX)%nat -> p = d \/ above p d)
      | Rename p q => has_marker p = true /\ p ∈ last_dirs h /\ (length q <= DLIM)%nat /\ exists d, d ∈ last_dirs h /\ below d q
      | Fopen p mode => mode = $"w+" /\ ("l"%char, p) ∈ options
      | Out _ _ | Fflush _ | Getenv _ | Random | Getpid | Alloc _ | Delay _ | Access _ => True
      | _ => False
      end
  end.

Fixpoint events_ok (h : history) : Prop := match h with [] => True | e :: h => event_ok h e /\ events_ok h end.

(** [h'] continues [h] without a new listing and within the same operation. *)
Definition grows (h h' : history) : Prop :=
  (events_ok h -> events_ok h') /\ last_dirs h' = last_dirs h /\ listings h' = listings h /\ pauses h' = pauses h.

Lemma grows_refl h : grows h h.
Proof. done. Qed.

Lemma grows_trans h1 h2 h3 : grows h1 h2 -> grows h2 h3 -> grows h1 h3.
Proof. intros (H1 & H2 & H3 & H4) (G1 & G2 & G3 & G4). repeat split; [auto|congruence..]. Qed.

Lemma grows_ev {X} (c : call X) r h : event_ok h (Ev c r) -> visited c r = None -> listing (Ev c r) = 0%nat -> pausing (Ev c r) = 0%nat -> grows h (Ev c r :: h).
Proof. intros H1 H2 H3 H4. split; [by split|]. cbn [last_dirs listings pauses]. by rewrite H2, H3, H4. Qed.

Lemma grows_reporting k h : Forall reporting k -> grows h (k ++ h).
Proof.
  induction 1 as [|[X c r] k He _ IH]; [apply grows_refl|]. eapply grows_trans; [exact IH|]. by destruct c; try done; apply grows_ev.
Qed.

End Events.

Arguments grows_refl {root options} h.
Arguments grows_trans {root options} h1 h2 h3 _ _.
Arguments grows_ev {root options X} c r h _ _ _ _.
Arguments grows_reporting {root options} k h _.

(** ** Strings *)

Lemma strstr_app a b pat : exists r, strstr (a ++ pat ++ b) pat = Some r.
Proof.
  induction a as [|x a [[u v] IH]]; cbn [app].
  - exists ([], pat ++ b). destruct (pat ++ b) as [|y l] eqn:He; cbn [strstr]; rewrite <- He; unfold strncmp_eq; by rewrite bool_decide_eq_true_2 by (rewrite take_app_length; by rewrite firstn_all).
  - cbn [strstr]. destruct (strncmp_eq (x :: a ++ pat ++ b) pat (length pat)); [by eexists|]. rewrite IH. by eexists.
Qed.

Lemma has_marker_app a b : has_marker (a ++ MARKER_STRING ++ b) = true.
Proof. unfold has_marker. by destruct (strstr_app a b MARKER_STRING) as [r ->]. Qed.

Lemma has_marker_inv p : has_marker p = true -> exists a b, p = a ++ MARKER_STRING ++ b.
Proof.
  unfold has_marker. induction p as [|x p IH]; cbn [strstr].
  - unfold strncmp_eq. by rewrite bool_decide_eq_false_2 by (by vm_compute).
  - unfold strncmp_eq in *. case_bool_decide as Hm.
    + intros _. exists [], (drop (length MARKER_STRING) (x :: p)). rewrite <- (take_drop (length MARKER_STRING) (x :: p)) at 1. rewrite Hm. by rewrite firstn_all.
    + destruct (strstr p MARKER_STRING) as [[u v]|]; [|done]. intros _. destruct (IH eq_refl) as (a & b & ->). by exists (x :: a), b.
Qed.

Lemma has_marker_prefix p q : p `prefix_of` q -> has_marker p = true -> has_marker q = true.
Proof. intros [r ->] (a & b & ->)%has_marker_inv. rewrite <- !app_assoc. apply has_marker_app. Qed.

Lemma strrchr_spec s c a b : strrchr s c = Some (a, b) -> s = a ++ c :: b.
Proof.
  revert a b. induction s as [|x s IH]; intros a b; cbn; [done|]. destruct (strrchr s c) as [[a' b']|].
  - intros [= <- <-]. cbn. f_equal. by apply IH.
  - destruct (Ascii.eqb_spec x c) as [->|]; [|done]. by intros [= <- <-].
Qed.

Lemma strrchr_none s c : strrchr s c = None -> c ∉ s.
Proof.
  induction s as [|x s IH]; cbn; [intros _; apply not_elem_of_nil|]. destruct (strrchr s c) as [[a b]|]; [done|]. destruct (Ascii.eqb_spec x c) as [|Hne]; [done|].
  intros _. apply not_elem_of_cons. split; [by intros ->|by apply IH].
Qed.

Lemma snprintf_short n s : (length (snprintf n s) < n - 1)%nat -> snprintf n s = s.
Proof. unfold snprintf. rewrite length_take. intros H. apply take_ge. lia. Qed.

(** ** The operations *)

(** ** Where the changes take place *)

Lemma listed_last root h d : Forall (listed root) h -> d ∈ last_dirs h -> visit_ok root d.
Proof.
  induction 1 as [|[X c r] h He _ IH]; cbn [last_dirs]; [by intros ?%elem_of_nil|].
  destruct (visited c r) as [v|] eqn:Hv; [|exact IH]. by apply (He v d).
Qed.

Lemma visit_below root d p : visit_ok root d -> below d p -> below (strip root) p.
Proof.
  intros [_ Hv] (name & c & -> & Hc & Hn). destruct Hv as [->|[[Hr ->]|(x & u & -> & Hx)]].
  - by exists name, c.
  - rewrite Hr. exists ("/"%char :: name), c. split_and!; [done|by right|done].
  - exists (x :: u ++ "/"%char :: name), c. split_and!; [by rewrite <- app_assoc|set_solver|done].
Qed.

Lemma visit_entry root d : visit_ok root d -> has_marker d = true -> below (strip root) d \/ d = strip root /\ has_marker (strip root) = true.
Proof.
  intros [_ Hv] Hm. destruct Hv as [->|[[Hr ->]|(x & u & -> & Hx)]]; [by right|done|left].
  exists (x :: u), x. split_and!; [done|by left|done].
Qed.

Lemma visit_above root d p : visit_ok root d -> above p d -> has_marker p = true ->
  below (strip root) p \/ p `prefix_of` strip root /\ has_marker (strip root) = true.
Proof.
  intros [_ Hv] [name Hd] Hm. assert (p `prefix_of` strip root -> below (strip root) p \/ p `prefix_of` strip root /\ has_marker (strip root) = true) as Hp.
  { intros Hp. right. split; [done|by eapply has_marker_prefix]. }
  destruct Hv as [->|[[Hr ->]|(x & u & -> & Hx)]].
  - apply Hp. rewrite Hd. by apply prefix_app_r.
  - destruct p as [|y [|z p]]; by injection Hd.
  - apply app_eq_app in Hd as [l [[Hl1 Hl2]|[Hl1 Hl2]]]; [apply Hp; rewrite Hl1; by apply prefix_app_r|].
    destruct l as [|y [|z l]]; [apply Hp; by rewrite Hl1, app_nil_r|by simplify_eq/=|].
    cbn in Hl2. injection Hl2 as Hy Hz _. subst y z. left. rewrite Hl1. exists (x :: l), x. split_and!; [done|by left|done].
Qed.

Lemma events_placed root options h : events_ok root options h -> Forall (listed root) h -> Forall (placed root) h.
Proof.
  induction h as [|[X c r] h IH]; [done|]. intros [He Hok] [_ Hl]%Forall_cons. constructor; [|by apply IH].
  destruct c; try done; cbn in He |- *.
  - destruct He as (_ & _ & _ & d & Hd & Hb). eapply visit_below; [by eapply listed_last|done].
  - destruct He as (Hm & d & Hd & Hp). pose proof (listed_last _ _ _ Hl Hd) as Hv. destruct (Hp (proj1 Hv)) as [->|Ha]; [|by eapply visit_above].
    destruct (visit_entry _ _ Hv Hm) as [?|[-> ?]]; auto.
  - destruct He as (Hm & Hd & _ & d' & Hd' & Hb). split; [apply visit_entry; [by eapply listed_last|done]|]. eapply visit_below; [by eapply listed_last|done].
Qed.

(** The first elements of dirList are the directories of the last listing. *)
Definition holds (t : tree) (ds : list (list ascii)) : Prop := take (dcnt t) (slots t) = Some <$> ds /\ length ds = dcnt t.

Section Proofs.
Context {T : ErrText} (root : list ascii) (options : list (ascii * list ascii)).
Abbreviation event_ok := (event_ok root options).
Abbreviation events_ok := (events_ok root options).
Abbreviation grows := (grows root options).

Lemma wp_calm {X B} (c : call X) (f : X -> prog B) Q h :
  (forall r, event_ok h (Ev c r) /\ visited c r = None /\ listing (Ev c r) = 0%nat /\ pausing (Ev c r) = 0%nat) ->
  (forall r h', posix h X c r -> grows h h' -> wp posix (f r) Q h') -> wp posix (bind (sys c) f) Q h.
Proof. intros Hc HQ. apply wp_sys_bind. intros r Hr. destruct (Hc r) as (? & ? & ? & ?). apply HQ; [done|by apply grows_ev]. Qed.

Lemma wp_rdLog logfp text Q h : (forall h', grows h h' -> Q (Done tt) h') -> wp posix (logMessage logfp text) Q h.
Proof. intros HQ. destruct logfp; [|by apply HQ]. intros [] _. apply HQ. by apply grows_ev. Qed.

Lemma wp_makeDir logfp p Q h : event_ok h (Ev (Mkdir p 448) (Ok tt)) -> (forall h', grows h h' -> Q (Done tt) h') -> wp posix (makeDir logfp p) Q h.
Proof.
  intros Hp HQ. unfold makeDir. apply wp_calm; [done|]. intros [[]|e] h1 _ Hg; [|by apply HQ]. apply wp_rdLog. intros h2 Hg2. apply HQ. by eapply grows_trans.
Qed.

Lemma wp_subdirs fuel logfp path scnt opcnt Q h :
  (DLIM < length path + fuel)%nat -> (length path <= DLIM)%nat -> (exists d, d ∈ last_dirs h /\ below d path) ->
  (forall h', grows h h' -> Q (Done tt) h') -> wp posix (subdirs fuel logfp path scnt opcnt) Q h.
Proof.
  revert path scnt h. induction fuel as [|fuel IH]; intros path scnt h Hf Hl (d & Hd & Hb) HQ; [lia|]. cbn [subdirs].
  apply wp_calm; [done|]. intros r h1 _ Hg1. destruct (r mod 3 <? 2); [|by apply HQ]. apply wp_calm; [done|]. intros pid h2 _ Hg2.
  pose proof (grows_trans _ _ _ Hg1 Hg2) as Hg. cbv zeta. set (name := dec (pid mod 100) ++ MARKER_STRING ++ $"scr" ++ dec scnt ++ $"_" ++ dec opcnt).
  destruct (Nat.ltb_spec DLIM (length (path ++ $"/" ++ name))) as [|Hlen]; [by apply HQ|].
  assert (snprintf PATH_MAX (path ++ $"/" ++ name) = path ++ $"/" ++ name) as -> by (apply take_ge; unfold PATH_MAX, DLIM in *; lia).
  rewrite (take_ge _ (PATH_MAX - 1)) by (unfold PATH_MAX, DLIM in *; lia).
  assert (below d (path ++ $"/" ++ name)) as Hb' by (destruct Hb as (u & c & -> & Hc & Hn); exists (u ++ $"/" ++ name), c; split_and!; [by rewrite <- app_assoc|set_solver|done]).
  apply wp_bind, wp_makeDir.
  - cbn. split_and!; [done|done| |exists d; by rewrite (proj1 (proj2 Hg))]. unfold name. rewrite (app_assoc path), (app_assoc (path ++ _)). apply has_marker_app.
  - intros h3 Hg3. apply IH; [rewrite length_app; change (length ($"/" ++ name)) with (S (length name)); lia|done|exists d; by rewrite (proj1 (proj2 Hg3)), (proj1 (proj2 Hg))|]. intros h4 Hg4. apply HQ. eapply grows_trans; [exact Hg|by eapply grows_trans].
Qed.

Lemma wp_pick t Q h :
  holds t (last_dirs h) -> (last_dirs h = [] -> Q (Stop (Undefined "division by zero")) h) ->
  (forall d h', d ∈ last_dirs h -> grows h h' -> Q (Done d) h') -> wp posix (pick t) Q h.
Proof.
  intros [Ht Hl] H0 HQ. unfold pick. destruct (Nat.eqb_spec (dcnt t) 0) as [Hz|Hz]; [apply H0, length_zero_iff_nil; congruence|].
  apply wp_calm; [done|]. intros r h1 Hr Hg. cbn in Hr. pose proof (Z.mod_pos_bound r (Z.of_nat (dcnt t)) ltac:(lia)) as Hb.
  set (i := Z.to_nat (r mod Z.of_nat (dcnt t))). destruct (lookup_lt_is_Some_2 (last_dirs h) i) as [d Hd]; [lia|].
  assert (slots t !! i = Some (Some d)) as ->; [|apply HQ; [by eapply list_elem_of_lookup_2|done]].
  rewrite <- (lookup_take_lt _ (dcnt t)) by lia. by rewrite Ht, list_lookup_fmap, Hd.
Qed.

Lemma wp_createOp o t opcnt Q h :
  holds t (last_dirs h) -> (last_dirs h = [] -> Q (Stop (Undefined "division by zero")) h) ->
  (forall go h', grows h h' -> Q (Done go) h') -> wp posix (createOp o t opcnt) Q h.
Proof.
  intros Ht H0 HQ. unfold createOp. apply wp_bind, wp_pick; [done|done|]. intros d h1 Hd Hg1. apply wp_calm; [done|]. intros pid h2 _ Hg2.
  pose proof (grows_trans _ _ _ Hg1 Hg2) as Hg. cbv zeta. set (name := dec (pid mod 100) ++ MARKER_STRING ++ $"cr" ++ $"_" ++ dec opcnt).
  destruct (Nat.ltb_spec DLIM (length (snprintf PATH_MAX (d ++ $"/" ++ name)))) as [|Hlen]; [by apply HQ|].
  rewrite (snprintf_short PATH_MAX (d ++ $"/" ++ name)) in * by (unfold PATH_MAX, DLIM in *; lia).
  assert (below d (d ++ $"/" ++ name)) as Hbelow by (exists name, "-"%char; split_and!; [done|unfold name, MARKER_STRING; set_solver|done]).
  apply wp_bind. set (n := Z.of_nat _). assert (forall h3 (skip : bool), grows h h3 ->
    wp posix (if skip then Ret false else makeDir (rd_logfp o) (d ++ $"/" ++ name) ;;; subdirs (S DLIM) (rd_logfp o) (d ++ $"/" ++ name) 1 opcnt ;;; Ret true) Q h3) as Hgo.
  { intros h3 [] Hg3; [by apply HQ|]. assert (d ∈ last_dirs h3) as Hd3 by (by rewrite (proj1 (proj2 Hg3))). apply wp_bind, wp_makeDir.
    - cbn. split_and!; [done|done| |by exists d]. unfold name. rewrite (app_assoc d), (app_assoc (d ++ _)). apply has_marker_app.
    - intros h4 Hg4. apply wp_bind, wp_subdirs; [unfold DLIM in *; lia|done|exists d; split; [by rewrite (proj1 (proj2 Hg4))|done]|].
      intros h5 Hg5. apply HQ. eapply grows_trans; [exact Hg3|by eapply grows_trans]. }
  destruct (1 <? n); [|by apply Hgo]. apply wp_calm; [done|]. intros r h3 _ Hg3. apply Hgo. by eapply grows_trans.
Qed.

Lemma wp_removeUp fuel logfp path Q h :
  (length path < fuel)%nat -> (exists d, d ∈ last_dirs h /\ ((length d < PATH_MAX)%nat -> path = d \/ above path d)) ->
  (forall h', grows h h' -> Q (Done tt) h') -> wp posix (removeUp fuel logfp path) Q h.
Proof.
  revert path h. induction fuel as [|fuel IH]; intros path h Hf Hd HQ; [lia|]. cbn [removeUp]. destruct (has_marker path) eqn:Hm; [|by apply HQ].
  apply wp_calm; [done|]. intros [[]|e] h1 _ Hg1; [|by apply HQ]. apply wp_bind, wp_rdLog. intros h2 Hg2. pose proof (grows_trans _ _ _ Hg1 Hg2) as Hg.
  destruct (strrchr path "/") as [[a b]|] eqn:Hs; [|by apply HQ]. apply strrchr_spec in Hs. apply IH.
  - subst path. rewrite length_app in Hf. cbn in Hf. lia.
  - destruct Hd as (d & Hd & Hp). exists d. rewrite (proj1 (proj2 Hg)). split; [done|]. intros Hl. right. destruct (Hp Hl) as [<-|[name ->]]; [by exists b|].
    exists (b ++ "/"%char :: name). by rewrite Hs, <- app_assoc.
  - intros h3 Hg3. apply HQ. by eapply grows_trans.
Qed.

Lemma wp_deleteOp o t Q h : holds t (last_dirs h) -> (forall go h', grows h h' -> Q (Done go) h') -> wp posix (deleteOp o t) Q h.
Proof.
  intros Ht HQ. unfold deleteOp. destruct (Nat.eqb_spec (dcnt t) 0) as [|Hz]; [by apply HQ, grows_refl|]. apply wp_bind, wp_pick; [done| |].
  - intros H0. destruct Ht as [_ Hl]. rewrite H0 in Hl. done.
  - intros d h1 Hd Hg1. cbv zeta. apply wp_bind, wp_removeUp; [lia| |].
    + exists d. rewrite (proj1 (proj2 Hg1)). split; [done|]. intros Hl. left. apply take_ge. unfold PATH_MAX in *. lia.
    + intros h2 Hg2. apply HQ. by eapply grows_trans.
Qed.

Lemma wp_renameOp o t opcnt Q h :
  holds t (last_dirs h) -> (forall d h', d ∈ last_dirs h -> has_marker d = true -> "/"%char ∉ d -> grows h h' -> Q (Stop (Undefined "null pointer")) h') ->
  (forall go h', grows h h' -> Q (Done go) h') -> wp posix (renameOp o t opcnt) Q h.
Proof.
  intros Ht H0 HQ. unfold renameOp. destruct (Nat.ltb_spec (dcnt t) 3) as [|Hz]; [by apply HQ, grows_refl|].
  assert (last_dirs h <> []) as Hne by (intros Hn; destruct Ht as [_ Hl]; rewrite Hn in Hl; cbn in Hl; lia).
  apply wp_bind, wp_pick; [done|done|]. intros p h1 Hp Hg1. destruct (has_marker p) eqn:Hm; [|by apply HQ].
  destruct (strrchr p "/") as [[a base]|] eqn:Hs; [|by apply (H0 p h1 Hp Hm (strrchr_none _ _ Hs) Hg1)]. cbv zeta.
  set (tfile := match strstr (snprintf PATH_MAX base) ($"__ren") with Some (u, _) => u | None => snprintf PATH_MAX base end).
  pose proof (proj1 (proj2 Hg1)) as Hl1. apply wp_bind, wp_pick; [by rewrite Hl1|by rewrite Hl1|]. intros d h2 Hd Hg2. rewrite Hl1 in Hd.
  apply wp_calm; [done|]. intros pid h3 _ Hg3. pose proof (grows_trans _ _ _ Hg1 (grows_trans _ _ _ Hg2 Hg3)) as Hg.
  set (name := tfile ++ $"__ren" ++ zeros4 (dec opcnt) ++ $"-" ++ dec pid).
  destruct (Nat.ltb_spec DLIM (length (d ++ $"/" ++ name))) as [|Hlen]; [by apply HQ|].
  assert (snprintf PATH_MAX (d ++ $"/" ++ name) = d ++ $"/" ++ name) as -> by (apply take_ge; unfold PATH_MAX, DLIM in *; lia).
  apply wp_calm.
  - intros r. split; [|done]. cbn. rewrite (proj1 (proj2 Hg)). split_and!; [done..|]. exists d. split; [done|].
    exists name, "_"%char. split_and!; [done|unfold name; set_solver|done].
  - intros [[]|e] h4 _ Hg4; apply wp_bind; [apply wp_rdLog; intros h5 Hg5; apply HQ; eapply grows_trans; [exact Hg|by eapply grows_trans]|].
    apply HQ. by eapply grows_trans.
Qed.

(** One operation: what can end the program in the middle of it. *)
Lemma wp_operate o op t opcnt Q h :
  holds t (last_dirs h) ->
  (op = "c"%char -> last_dirs h = [] -> Q (Stop (Undefined "division by zero")) h) ->
  (forall d h', op = "m"%char -> d ∈ last_dirs h -> has_marker d = true -> "/"%char ∉ d -> grows h h' -> Q (Stop (Undefined "null pointer")) h') ->
  (forall go h', grows h h' -> Q (Done go) h') -> wp posix (operate o op t opcnt) Q h.
Proof.
  intros Ht Hc Hm HQ. unfold operate. destruct (Ascii.eqb_spec op "c") as [->|_]; [apply wp_createOp; auto|].
  destruct (Ascii.eqb_spec op "d") as [->|_]; [by apply wp_deleteOp|]. destruct (Ascii.eqb_spec op "m") as [->|_]; [|apply HQ, grows_refl].
  apply wp_renameOp; [done| |done]. intros d h' H1 H2 H3 Hg. by eapply Hm.
Qed.

(** ** Listing the tree *)

Lemma holds_add t sl p ds : holds t ds -> sl = slots t \/ sl = slots t ++ replicate D_INCR None -> (dcnt t < length sl)%nat ->
  holds (Tree (<[dcnt t := Some p]> sl) (S (dcnt t))) (ds ++ [p]).
Proof.
  intros [Ht Hl] Hsl Hlt. split; cbn; [|rewrite length_app; cbn; lia]. rewrite (take_S_r _ _ (Some p)) by (by apply list_lookup_insert_eq).
  rewrite take_insert_ge by lia. rewrite fmap_app. f_equal. rewrite <- Ht. destruct Hsl as [->| ->]; [done|]. apply take_app_le.
  rewrite <- (length_fmap Some ds), <- Ht, length_take in Hl. lia.
Qed.

Lemma wp_rdTraverse t visits ds Q h :
  holds t ds -> (forall o h', stops_failing o -> grows h h' -> Q o h') ->
  (forall t' h', holds t' (ds ++ dirs_of visits) -> grows h h' -> Q (Done t') h') -> wp posix (traverseAll t visits) Q h.
Proof.
  intros Ht Hfail. revert t ds h Ht Hfail. induction visits as [|[p sb] visits IH]; intros t ds h Ht Hfail HQ; cbn [traverseAll].
  { apply HQ; [by rewrite app_nil_r|apply grows_refl]. }
  assert (forall sl h1, sl = slots t \/ sl = slots t ++ replicate D_INCR None -> (dcnt t < length sl)%nat -> st_isdir sb = true -> grows h h1 ->
    wp posix (traverseAll (Tree (<[dcnt t := Some p]> sl) (S (dcnt t))) visits) Q h1) as Hgo.
  { intros sl h1 Hsl Hlt Hb Hg. eapply IH; [by eapply holds_add| |].
    - intros o h' Ho Hg'. apply Hfail; [done|by eapply grows_trans].
    - intros t' h' Ht' Hg'. apply HQ; [|by eapply grows_trans]. unfold dirs_of. rewrite filter_cons_True by done. rewrite fmap_cons. cbn [fst]. rewrite <- app_assoc in Ht'. exact Ht'. }
  apply wp_bind. unfold traverseTree. destruct (st_isdir sb) eqn:Hb; cbn [negb].
  - apply wp_bind. destruct (Nat.leb_spec (length (slots t)) (dcnt t)) as [Hle|Hlt]; [|by apply Hgo; [left|..]].
    apply wp_calm; [done|]. intros [] h1 _ Hg1.
    + apply Hgo; [by right| |done|done]. rewrite length_app, length_replicate. destruct Ht as [Ht Hl]. apply (f_equal length) in Ht. rewrite length_take, length_fmap in Ht. unfold D_INCR. lia.
    + apply wp_errExit_trace. intros o k Ho Hk. destruct Ho as [->|[->| ->]]; (apply Hfail; [unfold stops_failing; auto|]); (eapply grows_trans; [exact Hg1|by apply grows_reporting]).
  - eapply IH; [done|done|]. intros t' h' Ht' Hg. apply HQ; [|done]. unfold dirs_of in *. by rewrite filter_cons_False by (cbn; congruence).
Qed.

(** A new listing follows [h]. *)
Definition relists (h h' : history) : Prop :=
  (events_ok h -> events_ok h') /\ listings h' = S (listings h) /\ pauses h' = pauses h.

Lemma relists_grows h h1 h2 : relists h h1 -> grows h1 h2 -> relists h h2.
Proof. intros (H1 & H2 & H3) (G1 & _ & G3 & G4). split; [auto|]. split; congruence. Qed.

Lemma wp_getDirList t Q h :
  (forall o h', stops_failing o -> relists h h' -> Q o h') ->
  (forall t' h', holds t' (last_dirs h') -> relists h h' -> Q (Done t') h') -> wp posix (getDirList t root) Q h.
Proof.
  intros Hfail HQ. unfold getDirList. apply wp_sys_bind. intros [visits r] _. set (h1 := Ev (Nftw root) (visits, r) :: h).
  assert (relists h h1) as Hr by (split; [by intros ?|done]). apply wp_bind, (wp_rdTraverse _ _ []); [by split; [rewrite take_0|]| |].
  - intros o h' Ho Hg. destruct Ho as [->|[->| ->]]; (apply Hfail; [unfold stops_failing; auto|by eapply relists_grows]).
  - intros t' h2 Ht' Hg. assert (last_dirs h2 = dirs_of visits) as Hl by apply Hg. destruct r as [u|e]; [apply HQ; [by rewrite Hl|by eapply relists_grows]|].
    apply wp_bind, wp_outputError. pose proof (grows_reporting (root := root) (options := options) (report true e true ($"nftw: " ++ root)) h2 ltac:(by repeat constructor)) as Hg2. apply HQ.
    + by rewrite (proj1 (proj2 Hg2)), Hl.
    + eapply relists_grows; [by eapply relists_grows|exact Hg2].
Qed.

(** ** The main loop *)

(** How the program ends: after [maxops] operations or when the file to stop exists; with
    an error; where an operation cannot be carried out; or it has listed the tree once for
    every unit of fuel. *)
Definition rd_post (maxops : Z) (stopFile : option (list ascii)) (op : ascii) (n : nat) (o : outcome unit) (h : history) : Prop :=
  events_ok h /\ (Forall (listed root) h -> Forall (placed root) h) /\
  match o with
  | Stop (Exit s) => s = EXIT_FAILURE \/
      s = EXIT_SUCCESS /\ (0 < maxops /\ Z.of_nat (pauses h) = maxops \/ exists p h0, stopFile = Some p /\ h = Ev (Access (Some p)) (Ok tt) :: h0)
  | Stop (Undefined why) =>
      why = "division by zero"%string /\ op = "c"%char /\ last_dirs h = [] \/
      why = "null pointer"%string /\ op = "m"%char /\ (exists d, d ∈ last_dirs h /\ has_marker d = true /\ "/"%char ∉ d) \/
      why = "overflow of opcnt"%string /\ Z.of_nat (pauses h) = INT_MAX
  | Stop OutOfFuel => (n <= listings h)%nat
  | Stop Aborted | Stop (Exit_ _) => True
  | Stop (Execed _ _) | Done _ => False
  end.

Lemma rd_post_fails maxops stopFile op n o h : stops_failing o -> events_ok h -> rd_post maxops stopFile op n o h.
Proof. intros Ho Hok. split; [done|]. split; [by eapply events_placed|]. by destruct Ho as [->|[->| ->]]; auto. Qed.

Ltac ends := split; [done|split; [by eapply events_placed|]].

Lemma wp_rdLoop fuel n o op t opcnt h :
  events_ok h -> Z.of_nat (pauses h) = opcnt -> (n <= fuel + listings h)%nat -> (0 < rd_maxops o -> opcnt < rd_maxops o) ->
  wp posix (rdLoop fuel o root op t opcnt) (rd_post (rd_maxops o) (rd_stopFile o) op n) h.
Proof.
  revert t opcnt h. induction fuel as [|fuel IH]; intros t opcnt h Hok Hp Hn Hm; cbn [rdLoop]; [ends; exact Hn|].
  apply wp_bind, wp_getDirList.
  { intros s h' Ho Hr. destruct Ho as [->|[->| ->]]; apply rd_post_fails; unfold stops_failing; auto; by apply Hr. }
  intros t1 h1 Ht1 (Hok1 & Hl1 & Hp1). specialize (Hok1 Hok). apply wp_bind, wp_operate; [done|..].
  { intros Hc H0. ends. by left. }
  { intros d h' Hop Hd Hmk Hs Hg. assert (events_ok h') as Hok' by (by apply Hg). ends. right. left. split_and!; [done..|]. exists d. by rewrite (proj1 (proj2 Hg)). }
  intros go h2 (Hok2 & _ & Hl2 & Hp2). specialize (Hok2 Hok1). destruct go; cbn [negb].
  2: { apply IH; [done|congruence|lia|done]. }
  cbv zeta. destruct (Z.eqb_spec opcnt INT_MAX) as [Hmax|_]; [ends; right; right; split; [done|congruence]|].
  apply wp_sys_bind. intros [] _. set (h3 := Ev (Delay _) tt :: h2). assert (events_ok h3) as Hok3 by done. assert (Z.of_nat (pauses h3) = opcnt + 1) as Hp3 by (cbn; lia).
  destruct (Z.ltb_spec 0 (rd_maxops o)) as [Hpos|Hpos]; cbn [andb].
  - destruct (Z.leb_spec (rd_maxops o) (opcnt + 1)) as [Hge|Hlt].
    + ends. right. split; [done|]. left. split; [done|]. rewrite Hp3. specialize (Hm Hpos). lia.
    + apply wp_sys_bind. intros [[]|e] Ha.
      * assert (events_ok (Ev (Access (rd_stopFile o)) (Ok tt) :: h3)) by done. ends. right. split; [done|]. right. cbn in Ha. destruct (rd_stopFile o) as [p|]; [|done]. by exists p, h3.
      * apply IH; [done|done|cbn; lia|lia].
  - apply wp_sys_bind. intros [[]|e] Ha.
    + assert (events_ok (Ev (Access (rd_stopFile o)) (Ok tt) :: h3)) by done. ends. right. split; [done|]. right. cbn in Ha. destruct (rd_stopFile o) as [p|]; [|done]. by exists p, h3.
    + apply IH; [done|done|cbn; lia|lia].
Qed.

(** The argument of the last option [c]. *)
Fixpoint last_opt (c : ascii) (opts : list (ascii * list ascii)) (dflt : option (list ascii)) : option (list ascii) :=
  match opts with [] => dflt | (opt, a) :: opts => last_opt c opts (if Ascii.eqb opt c then Some a else dflt) end.

Lemma wp_rdOptions pname opts o Q h :
  opts ⊆ options ->
  (forall o' h', stops_failing o' -> grows h h' -> Q o' h') ->
  (forall o' h', rd_stopFile o' = last_opt "z" opts (rd_stopFile o) ->
     rd_maxops o' = match last_opt "m" opts None with Some a => atoi a | None => rd_maxops o end -> grows h h' -> Q (Done o') h') ->
  wp posix (rdOptions pname opts o) Q h.
Proof.
  intros Hsub. revert o h Hsub. induction opts as [|[opt a] opts IH]; intros o h Hsub Hfail HQ; cbn [rdOptions]; [by apply HQ|]. cbn [last_opt] in HQ.
  assert (opts ⊆ options) as Hsub' by set_solver. specialize (fun o h => IH o h Hsub').
  assert (forall c d, last_opt c opts d = match last_opt c opts None with Some x => Some x | None => d end) as Hlast.
  { intros c. clear. induction opts as [|[opt a] opts IH]; intros d; cbn; [done|]. rewrite IH, (IH (if Ascii.eqb opt c then _ else None)). by destruct (last_opt c opts None), (Ascii.eqb opt c). }
  destruct (Ascii.eqb_spec opt "s") as [->|_]; [apply IH; [done|by intros o' h' H1 H2; apply HQ]|].
  destruct (Ascii.eqb_spec opt "z") as [->|_]; [apply IH; [done|by intros o' h' H1 H2; apply HQ]|].
  destruct (Ascii.eqb_spec opt "m") as [->|_].
  { apply IH; [done|]. intros o' h' H1 H2 Hg. cbn in H1, H2. apply HQ; [done| |done]. rewrite H2. cbn. rewrite (Hlast "m"%char (Some a)). by destruct (last_opt "m" opts None). }
  destruct (Ascii.eqb_spec opt "l") as [->|_]; [|apply wp_usageLines; intros s k Hs Hk; apply Hfail; [done|by apply grows_reporting]].
  apply wp_calm; [intros r; split; [split; [done|set_solver]|done]|]. intros [fp|e] h1 _ Hg1.
  - apply IH; [intros o' h' Ho Hg; apply Hfail; [done|by eapply grows_trans]|]. intros o' h' H1 H2 Hg. apply HQ; [done..|]. by eapply grows_trans.
  - apply wp_errExit_trace. intros s k Hs Hk. apply Hfail; [done|]. eapply grows_trans; [exact Hg1|by apply grows_reporting].
Qed.

(** ** The strings of dirList *)

Lemma wp_traverse_rest t visits (Q : outcome tree -> history -> Prop) h :
  Forall (fun x => x = None) (drop (dcnt t) (slots t)) -> (forall s h', Q (Stop s) h') ->
  (forall t' h', Forall (fun x => x = None) (drop (dcnt t') (slots t')) -> Q (Done t') h') -> wp posix (traverseAll t visits) Q h.
Proof.
  intros Hn Hs HQ. revert t h Hn. induction visits as [|[p sb] visits IH]; intros t h Hn; cbn [traverseAll]; [by apply HQ|].
  assert (forall l : list (option (list ascii)), Forall (fun x => x = None) (drop (dcnt t) l) -> Forall (fun x => x = None) (drop (S (dcnt t)) (<[dcnt t := Some p]> l))) as Hins.
  { intros l Hl. rewrite drop_insert_lt by lia. replace (S (dcnt t)) with (dcnt t + 1)%nat by lia. rewrite <- drop_drop. by apply Forall_drop. }
  apply wp_bind. unfold traverseTree. destruct (negb (st_isdir sb)); [by apply IH|]. apply wp_bind. destruct (_ <=? _)%nat.
  - apply wp_sys_bind. intros [] _; [|apply wp_errExit; intros o h' Ho; destruct Ho as [->|[->| ->]]; apply Hs]. apply IH. apply Hins. rewrite drop_app. apply Forall_app. split; [done|].
    apply Forall_drop. by apply Forall_replicate.
  - apply IH. by apply Hins.
Qed.

(** What the loop at the end of an operation frees is what the listing has allocated. *)
Lemma wp_dirList_freed t h : Forall (fun x => x = None) (slots t) ->
  wp posix (getDirList t root) (fun o h' => match o with
    | Done t' => (exists rest, slots t' = (Some <$> last_dirs h') ++ rest /\ Forall (fun x => x = None) rest) /\ Forall (fun x => x = None) (slots (freeAll t'))
    | Stop _ => True
    end) h.
Proof.
  intros Hn. eapply wp_mono; [|apply wp_conj]; cycle 1.
  - apply (wp_getDirList _ (fun o h' => match o with Done t' => holds t' (last_dirs h') | Stop _ => True end)); [by intros o h' [->|[->| ->]]|done].
  - instantiate (1 := fun o _ => match o with Done t' => Forall (fun x => x = None) (drop (dcnt t') (slots t')) | Stop _ => True end).
    unfold getDirList. apply wp_sys_bind. intros [visits r] _. apply wp_bind, wp_traverse_rest; [by rewrite drop_0|done|]. intros t' h' Ht'. destruct r; [done|]. apply wp_bind, wp_outputError. done.
  - intros [t'|s'] h'; [|done]. cbn beta iota. intros [[Ht Hl] Hr]. split; [exists (drop (dcnt t') (slots t')); by rewrite <- Ht, take_drop|]. cbn. apply Forall_app. split; [by apply Forall_replicate|done].
Qed.
End Proofs.

(** A tree with one directory, in which everything can be created and removed. *)
Definition demo_dtree_kernel : kernel := fun h X c =>
  match c in call X return X with
  | Nftw p => ([(p, Stat true 2 1)], Ok tt)
  | Alloc _ => true
  | Mkdir _ _ => Ok tt
  | Rmdir _ => Ok tt
  | c => failing_kernel h _ c
  end.

(** The argument /--a/t has the marker: it is removed, and so is the directory above it. *)
Lemma ancestor_removed {T : ErrText} :
  let r := run demo_dtree_kernel (rand_dtree_main 2 ($"rand_dtree") [("m"%char, $"1")] [$"/--a/t"; $"d"]) [] in
  fst r = Stop (Exit EXIT_SUCCESS) /\ Forall (listed ($"/--a/t")) (snd r) /\ Ev (Rmdir ($"/--a")) (Ok tt) ∈ snd r.
Proof.
  set (r := run _ _ _). cbv zeta. vm_compute in r. subst r. cbn [fst snd]. split; [done|]. split.
  - do 5 (apply Forall_cons; split; [by intros v p Hv|]). apply Forall_cons; split; [|done]. intros v p [= <-] Hp%list_elem_of_singleton. subst p.
    split; [unfold PATH_MAX; cbn [fst length]; lia|by left].
  - repeat (first [by left|right]).
Qed.

(** C34: rand_dtree changes nothing but what it may.  Whatever nftw(), random() and the
    other calls return: the tree that it lists is the one of its argument; it creates
    directories only below a directory of the last listing, with mode 0700, a name that
    contains the marker and at most 60 characters of pathname; it removes a directory,
    or one above it, only if the pathname contains the marker; it renames only such a
    directory of the listing, to a place below another one; it opens only the log files
    of the options -l; and it makes no other call that changes a file.  So, as long as
    nftw() reports the argument and pathnames below it, everything that is created or
    renamed gets a place below the argument, and what is removed or renamed is below the
    argument, unless the argument itself has the marker in its pathname: then the
    argument may be renamed, and it and the directories above it may be removed, against
    the comment in the program; the last run removes one.  The program exits
    successfully exactly after the number of operations of the option -m, or when the
    file of the option -z exists.  It divides by zero if it is to create a directory and
    the listing is empty, and dereferences a null pointer if it is to rename a directory
    whose pathname has the marker and no slash.  Every string that a listing allocates
    is freed at the end of the operation. *)
Theorem rand_dtree_safe {T : ErrText} fuel argv0 opts args :
  wp posix (rand_dtree_main fuel argv0 opts args)
    (rd_post (arg args 0) opts (match last_opt "m" opts None with Some a => atoi a | None => 0 end) (last_opt "z" opts None) (char_at (arg args 1) 0) fuel) [] /\
  (forall t dirpath h, Forall (fun x => x = None) (slots t) ->
    wp posix (getDirList t dirpath) (fun o h' => match o with
      | Done t' => (exists rest, slots t' = (Some <$> last_dirs h') ++ rest /\ Forall (fun x => x = None) rest) /\ Forall (fun x => x = None) (slots (freeAll t'))
      | Stop _ => True
      end) h) /\
  (let r := run demo_dtree_kernel (rand_dtree_main 2 ($"rand_dtree") [("m"%char, $"1")] [$"/--a/t"; $"d"]) [] in
   fst r = Stop (Exit EXIT_SUCCESS) /\ Forall (listed ($"/--a/t")) (snd r) /\ Ev (Rmdir ($"/--a")) (Ok tt) ∈ snd r).
Proof.
  split; [|split; [|exact ancestor_removed]]; [|intros t dirpath h; by apply wp_dirList_freed]. unfold rand_dtree_main. apply wp_bind, (wp_rdOptions (arg args 0) opts); [done|..].
  { intros o' h' Ho Hg. destruct Ho as [->|[->| ->]]; apply rd_post_fails; unfold stops_failing; auto; by apply Hg. }
  intros o h Hz Hm (Hok & _ & Hl & Hp). specialize (Hok I). cbn in Hl, Hp, Hz, Hm. destruct (length args <? 2)%nat.
  - apply wp_usageLines. intros o' k Ho Hk. apply rd_post_fails; [done|]. by apply (grows_reporting k h).
  - rewrite <- Hz, <- Hm. apply wp_rdLoop; [done|by rewrite Hp|lia|lia].
Qed.

Definition demo_dtree : outcome unit * history :=
  run demo_dtree_kernel (rand_dtree_main (T := demo_text) 3 ($"rand_dtree") [("m"%char, $"2")] [$"/t"; $"c"]) [].

Lemma rand_dtree_witness :
  fst demo_dtree = Stop (Exit EXIT_SUCCESS) /\ last_dirs (snd demo_dtree) = [$"/t"] /\ events_ok ($"/t") [("m"%char, $"2")] (snd demo_dtree) /\ Z.of_nat (pauses (snd demo_dtree)) = 2 /\
  wp posix (getDirList (T := demo_text) (Tree [] 0) ($"/t")) (fun o h' => match o with
      | Done t' => (exists rest, slots t' = (Some <$> last_dirs h') ++ rest /\ Forall (fun x => x = None) rest) /\ Forall (fun x => x = None) (slots (freeAll t'))
      | Stop _ => True
      end) [].
Proof.
  assert (fst demo_dtree = Stop (Exit EXIT_SUCCESS)) as He by (vm_compute; reflexivity). split; [exact He|]. split; [vm_compute; reflexivity|].
  destruct (rand_dtree_safe (T := demo_text) 3 ($"rand_dtree") [("m"%char, $"2")] [$"/t"; $"c"]) as (Hmain & Hfree & _).
  apply (wp_run posix demo_dtree_kernel) in Hmain; [|intros h X c; destruct c; try apply posix_inhabited; done].
  change (run demo_dtree_kernel _ []) with demo_dtree in Hmain. rewrite He in Hmain. destruct Hmain as (Hok & _ & [Hf|(_ & [(_ & Hp)|(p & h0 & Hz & _)])]); [discriminate| |discriminate].
  split; [exact Hok|]. split; [exact Hp|]. apply Hfree. constructor.
Defined.
