(* ===== verification/WaitStatus.v ===== *)
(** * What happened to a child, and sets of signals

    procexec/print_wait_status.c, procexec/child_status.c and
    signals/signal_functions.c.  A status is what wait() stores: [encode] is the
    encoding of Linux, and the macros of <sys/wait.h> take it apart.  strsignal() is
    a function of the C library and a parameter. *)

From S2P Require Import Prelude Sys LibErrors GetNum FileIO PosixIpc PosixTools SysvIpc SysvTools.

(** The macros. *)
Definition WEXITSTATUS (status : Z) : Z := Z.shiftr (Z.land status 65280) 8.
Definition WTERMSIG (status : Z) : Z := Z.land status 127.
Definition WSTOPSIG : Z -> Z := WEXITSTATUS.
Definition WIFEXITED (status : Z) : bool := WTERMSIG status =? 0.
Definition WIFSIGNALED (status : Z) : bool := 0 <? Z.shiftr (wraps 8 (Z.land status 127 + 1)) 1.
Definition WIFSTOPPED (status : Z) : bool := Z.land status 255 =? 127.
Definition WIFCONTINUED (status : Z) : bool := status =? 65535.
Definition WCOREDUMP (status : Z) : bool := flag status 128.

Definition WUNTRACED : Z := 2.
Definition WCONTINUED : Z := 8.
Definition NSIG : Z := 65.

(** printf("%x") of an int, and with at least four digits. *)
Definition hexadecimal (z : Z) : list ascii := hex_go 8 (wrapu 32 z) [].
Definition hexadecimal4 (z : Z) : list ascii := replicate (4 - length (hexadecimal z)) "0"%char ++ hexadecimal z.

Section Functions.
Context {T : ErrText} (strsignal : Z -> list ascii).

Definition printWaitStatus (msg : option (list ascii)) (status : Z) : prog unit :=
  match msg with Some m => print Stdout m | None => Ret tt end ;;;
  if WIFEXITED status then print Stdout ($"child exited, status=" ++ dec (WEXITSTATUS status) ++ [NL])
  else if WIFSIGNALED status then
    print Stdout ($"child killed by signal " ++ dec (WTERMSIG status) ++ $" (" ++ strsignal (WTERMSIG status) ++ $")") ;;;
    (if WCOREDUMP status then print Stdout ($" (core dumped)") else Ret tt) ;;;
    print Stdout [NL]
  else if WIFSTOPPED status then
    print Stdout ($"child stopped by signal " ++ dec (WSTOPSIG status) ++ $" (" ++ strsignal (WSTOPSIG status) ++ $")" ++ [NL])
  else if WIFCONTINUED status then print Stdout ($"child continued" ++ [NL])
  else print Stdout ($"what happened to this child? (status=" ++ hexadecimal status ++ $")" ++ [NL]).

(** child_status: the loop of the parent, and that of a child without a status. *)
Fixpoint waitForChild (fuel : nat) : prog unit :=
  match fuel with
  | O => Halt OutOfFuel
  | S fuel =>
      r <- sys (Waitpid (-1) (Z.lor WUNTRACED WCONTINUED)) ;;
      match r with
      | Err e => errExit e ($"waitpid")
      | Ok (childPid, status) =>
          print Stdout ($"waitpid() returned: PID=" ++ dec childPid ++ $"; status=0x" ++ hexadecimal4 status
            ++ $" (" ++ dec (Z.shiftr status 8) ++ $"," ++ dec (Z.land status 255) ++ $")" ++ [NL]) ;;;
          printWaitStatus None status ;;;
          if WIFEXITED status || WIFSIGNALED status then Halt (Exit EXIT_SUCCESS) else waitForChild fuel
      end
  end.

Fixpoint pauseForever (fuel : nat) : prog unit :=
  match fuel with O => Halt OutOfFuel | S fuel => sys Pause ;;; pauseForever fuel end.

Definition childOf (fuel : nat) (argv : list (list ascii)) : prog unit :=
  pid <- sys Getpid ;;
  print Stdout ($"Child started with PID = " ++ dec pid ++ [NL]) ;;;
  match argv with
  | _ :: a :: _ => v <- getInt (Some a) 0 (Some ($"exit-status")) ;; Halt (Exit v)
  | _ => pauseForever fuel ;;; Halt (Exit EXIT_FAILURE)
  end.

Definition child_status_main (fuel : nat) (argv : list (list ascii)) : prog unit :=
  if (1 <? length argv)%nat && is_help argv then usageErr (argv_nth argv 0 ++ $" [exit-status]" ++ [NL])
  else
    f <- sys Fork ;;
    match f with
    | Err e => errExit e ($"fork")
    | Ok pid => if pid =? 0 then childOf fuel argv else waitForChild fuel
    end.

(** The loop of printSigset() over [n] signals from [sig] on: how many are members. *)
Fixpoint printMembers (out : stream) (prefix : list ascii) (sigset : list Z) (n : nat) (sig cnt : Z) : prog Z :=
  match n with
  | O => Ret cnt
  | S n =>
      if bool_decide (sig ∈ sigset) then
        print out (prefix ++ dec sig ++ $" (" ++ strsignal sig ++ $")" ++ [NL]) ;;;
        printMembers out prefix sigset n (sig + 1) (cnt + 1)
      else printMembers out prefix sigset n (sig + 1) cnt
  end.

Definition printSigset (out : stream) (prefix : list ascii) (sigset : list Z) : prog unit :=
  cnt <- printMembers out prefix sigset (Z.to_nat (NSIG - 1)) 1 0 ;;
  if cnt =? 0 then print out (prefix ++ $"<empty signal set>" ++ [NL]) else Ret tt.

Definition TABS : list ascii := ["009"%char; "009"%char].

Definition printSigMask (out : stream) (msg : option (list ascii)) : prog Z :=
  match msg with Some m => print out m | None => Ret tt end ;;;
  r <- sys Sigmask ;;
  match r with Err _ => Ret (-1) | Ok currMask => printSigset out TABS currMask ;;; Ret 0 end.

Definition printPendingSigs (out : stream) (msg : option (list ascii)) : prog Z :=
  match msg with Some m => print out m | None => Ret tt end ;;;
  r <- sys Sigpending ;;
  match r with Err _ => Ret (-1) | Ok pendingSigs => printSigset out TABS pendingSigs ;;; Ret 0 end.

(** ** Specification *)

(** What a child can report, and how wait() encodes it. *)
Inductive change := Exited (status : Z) | Signaled (sig : Z) (core : bool) | Stopped (sig : Z) | Continued.

Definition change_ok (c : change) : Prop :=
  match c with Exited n => 0 <= n < 256 | Signaled sig _ => 0 < sig < NSIG | Stopped sig => 0 < sig < NSIG | Continued => True end.

Definition encode (c : change) : Z :=
  match c with
  | Exited n => Z.shiftl n 8
  | Signaled sig core => Z.lor sig (if core then 128 else 0)
  | Stopped sig => Z.lor (Z.shiftl sig 8) 127
  | Continued => 65535
  end.

Definition terminal (c : change) : bool := match c with Exited _ | Signaled _ _ => true | _ => false end.

Definition described (c : change) : list ascii :=
  match c with
  | Exited n => $"child exited, status=" ++ dec n
  | Signaled sig core => $"child killed by signal " ++ dec sig ++ $" (" ++ strsignal sig ++ $")" ++ (if core then $" (core dumped)" else [])
  | Stopped sig => $"child stopped by signal " ++ dec sig ++ $" (" ++ strsignal sig ++ $")"
  | Continued => $"child continued"
  end ++ [NL].

(** What the parent displays for a change of the child [pid]. *)
Definition shown (x : Z * change) : list ascii :=
  let status := encode (snd x) in
  $"waitpid() returned: PID=" ++ dec (fst x) ++ $"; status=0x" ++ hexadecimal4 status ++ $" (" ++ dec (Z.shiftr status 8) ++ $"," ++ dec (Z.land status 255)
    ++ $")" ++ [NL] ++ described (snd x).

(** The members of a set of signals in increasing order, and the lines about them. *)
Definition members (sigset : list Z) : list Z := filter (fun sig => sig ∈ sigset) (Z.of_nat <$> seq 1 (Z.to_nat (NSIG - 1))).

Definition sigset_lines (prefix : list ascii) (sigset : list Z) : list (list ascii) :=
  match members sigset with
  | [] => [prefix ++ $"<empty signal set>" ++ [NL]]
  | l => (fun sig => prefix ++ dec sig ++ $" (" ++ strsignal sig ++ $")" ++ [NL]) <$> l
  end.
End Functions.

(** ** The encoding *)

Lemma range_check (P : Z -> bool) n : forallb P (Z.of_nat <$> seq 0 n) = true -> forall z, 0 <= z < Z.of_nat n -> P z = true.
Proof.
  rewrite forallb_forall. intros H z Hz. apply H, list_elem_of_In, list_elem_of_fmap. exists (Z.to_nat z). rewrite Z2Nat.id by lia. split; [done|]. apply elem_of_seq. lia.
Qed.

(** The macros tell the four kinds of change apart and give back what was encoded. *)
Lemma encode_macros c : change_ok c ->
  match c with
  | Exited n => WIFEXITED (encode c) = true /\ WEXITSTATUS (encode c) = n
  | Signaled sig core => WIFEXITED (encode c) = false /\ WIFSIGNALED (encode c) = true /\ WTERMSIG (encode c) = sig /\ WCOREDUMP (encode c) = core
  | Stopped sig => WIFEXITED (encode c) = false /\ WIFSIGNALED (encode c) = false /\ WIFSTOPPED (encode c) = true /\ WSTOPSIG (encode c) = sig
  | Continued => WIFEXITED (encode c) = false /\ WIFSIGNALED (encode c) = false /\ WIFSTOPPED (encode c) = false /\ WIFCONTINUED (encode c) = true
  end.
Proof.
  destruct c as [n|sig core|sig|]; cbn [change_ok]; unfold NSIG; intros Hc; [..|by vm_compute].
  - pose proof (range_check (fun n => WIFEXITED (encode (Exited n)) && (WEXITSTATUS (encode (Exited n)) =? n)) 256 ltac:(by vm_compute) n ltac:(lia)) as H.
    apply andb_true_iff in H as [H1 H2%Z.eqb_eq]. by split.
  - pose proof (range_check (fun g => (g =? 0) || (negb (WIFEXITED (encode (Signaled g core))) && WIFSIGNALED (encode (Signaled g core)) && (WTERMSIG (encode (Signaled g core)) =? g)
      && Bool.eqb (WCOREDUMP (encode (Signaled g core))) core)) 65 ltac:(destruct core; by vm_compute) sig ltac:(lia)) as H. cbn beta in H.
    destruct (Z.eqb_spec sig 0); [lia|]. cbn [orb] in H. rewrite !andb_true_iff, negb_true_iff in H. destruct H as [[[H1 H2] H3%Z.eqb_eq] H4%Bool.eqb_prop]. by split_and!.
  - pose proof (range_check (fun g => (g =? 0) || (negb (WIFEXITED (encode (Stopped g))) && negb (WIFSIGNALED (encode (Stopped g))) && WIFSTOPPED (encode (Stopped g))
      && (WSTOPSIG (encode (Stopped g)) =? g))) 65 ltac:(by vm_compute) sig ltac:(lia)) as H. cbn beta in H.
    destruct (Z.eqb_spec sig 0); [lia|]. cbn [orb] in H. rewrite !andb_true_iff, !negb_true_iff in H. destruct H as [[[H1 H2] H3] H4%Z.eqb_eq]. by split_and!.
Qed.

Lemma encode_ends c : change_ok c -> WIFEXITED (encode c) || WIFSIGNALED (encode c) = terminal c.
Proof. intros Hc. pose proof (encode_macros c Hc) as H. destruct c; cbn [terminal]; [by destruct H as [-> _]|by destruct H as (-> & -> & _)..]. Qed.

(** ** The programs *)

(** The changes that wait() has reported so far, the first one first. *)
Definition changed {X} (c : call X) : X -> list (Z * Z) :=
  match c in call X return X -> list (Z * Z) with Waitpid _ _ => fun r => match r with Ok p => [p] | Err _ => [] end | _ => fun _ => [] end.

Fixpoint changes (h : history) : list (Z * Z) := match h with [] => [] | Ev c r :: h => changes h ++ changed c r end.

(** wait() stores encoded changes. *)
Definition waits : env := fun h X c r =>
  posix h X c r /\ Forall (fun p => exists ch, change_ok ch /\ snd p = encode ch) (changed c r).

Section Proofs.
Context {T : ErrText} (strsignal : Z -> list ascii).

Abbreviation shown := (shown strsignal).
Abbreviation described := (described strsignal).

(** Events on other streams and without a report about a child. *)
Lemma reporting_changes k h : Forall reporting k -> changes (k ++ h) = changes h /\ said (k ++ h) = said h.
Proof.
  intros Hk. split; [|by apply (reporting_keeps 0 [])]. induction Hk as [|[X c r] k He _ IH]; [done|]. cbn [app changes]. rewrite IH. by destruct c; try done; rewrite app_nil_r.
Qed.

Lemma wp_printWaitStatus E ch (Q : outcome unit -> history -> Prop) h :
  change_ok ch -> (forall h', said h' = said h ++ described ch -> changes h' = changes h -> Q (Done tt) h') -> wp E (printWaitStatus strsignal None (encode ch)) Q h.
Proof.
  intros Hc HQ. pose proof (encode_macros ch Hc) as H. unfold printWaitStatus. destruct ch as [n|sig core|sig|].
  - destruct H as [-> H]. intros [] _. apply HQ; cbn [said changes changed]; [by rewrite H|by rewrite app_nil_r].
  - destruct H as (-> & -> & -> & ->). intros [] _. destruct core; repeat (intros [] _); apply HQ; cbn [said changes changed]; rewrite ?app_nil_r; try done; unfold described; by rewrite <- !app_assoc.
  - destruct H as (-> & -> & -> & ->). intros [] _. apply HQ; cbn [said changes changed]; [unfold described; by rewrite <- !app_assoc|by rewrite app_nil_r].
  - destruct H as (-> & -> & -> & ->). intros [] _. apply HQ; cbn [said changes changed]; [done|by rewrite app_nil_r].
Qed.

(** The parent has seen and displayed [cs]. *)
Definition watched (cs : list (Z * change)) (h : history) : Prop :=
  Forall (fun x => change_ok (snd x)) cs /\ changes h = prod_map id encode <$> cs /\ said h = concat (shown <$> cs).

Definition parent_post (fuel : nat) (o : outcome unit) (h : history) : Prop :=
  exists cs, Forall (fun x => terminal (snd x) = false) cs /\
    (watched cs h /\ (stops_failing o \/ o = Stop OutOfFuel /\ (fuel <= length cs)%nat) \/
     o = Stop (Exit EXIT_SUCCESS) /\ exists x, terminal (snd x) = true /\ watched (cs ++ [x]) h).

Lemma wp_waitForChild fuel n cs h :
  watched cs h -> Forall (fun x => terminal (snd x) = false) cs -> (n <= fuel + length cs)%nat ->
  wp waits (waitForChild strsignal fuel) (parent_post n) h.
Proof.
  revert cs h. induction fuel as [|fuel IH]; intros cs h Hw Ht Hn; cbn [waitForChild].
  { exists cs. split; [done|]. left. split; [done|]. by right. }
  apply wp_sys_bind. intros [[pid st]|e] [_ Hr].
  2: { apply wp_errExit_trace. intros o k Ho Hk. exists cs. split; [done|]. left. split; [|by left]. destruct Hw as (H1 & H2 & H3).
       destruct (reporting_changes k (Ev (Waitpid (-1) (Z.lor WUNTRACED WCONTINUED)) (Err e) :: h) Hk) as [Hc Hs]. split; [done|]. rewrite Hc, Hs. cbn [changes said changed]. by rewrite !app_nil_r. }
  cbn in Hr. apply Forall_singleton in Hr as (ch & Hch & Hst). cbn in Hst. subst st. apply wp_sys_bind. intros [] _. apply wp_bind, wp_printWaitStatus; [done|]. intros h' Hs Hc.
  assert (watched (cs ++ [(pid, ch)]) h') as Hw'.
  { destruct Hw as (H1 & H2 & H3). split; [apply Forall_app; split; [done|by apply Forall_singleton]|]. rewrite Hc, Hs, !fmap_app, concat_app. cbn [said changes changed fmap list_fmap]. rewrite !app_nil_r, H2, H3.
    split; [done|]. rewrite <- !app_assoc. cbn [concat]. rewrite app_nil_r. unfold WaitStatus.shown. cbn [fst snd]. by rewrite <- ?app_assoc. }
  rewrite (encode_ends ch Hch). destruct (terminal ch) eqn:Hterm.
  - exists cs. split; [done|]. right. split; [done|]. by exists (pid, ch).
  - eapply IH; [exact Hw'|apply Forall_app; split; [done|by apply Forall_singleton]|rewrite length_app; cbn; lia].
Qed.

Lemma wp_pauseForever E fuel (Q : outcome unit -> history -> Prop) h : (forall h', Q (Stop OutOfFuel) h') -> wp E (pauseForever fuel) Q h.
Proof. intros HQ. revert h. induction fuel as [|fuel IH]; intros h; [apply HQ|]. intros [] _. apply IH. Qed.

(** The child exits with the number of its argument; without one it waits for ever. *)
Definition child_post (argv : list (list ascii)) (o : outcome unit) : Prop :=
  match argv !! 1%nat with
  | Some a => stops_failing o \/ exists v, accepted a 0 v /\ o = Stop (Exit v)
  | None => o = Stop OutOfFuel
  end.

Lemma wp_childOf E fuel argv (Q : outcome unit -> history -> Prop) h : (forall o h', child_post argv o -> Q o h') -> wp E (childOf fuel argv) Q h.
Proof.
  intros HQ. unfold childOf. apply wp_sys_bind. intros pid _. apply wp_sys_bind. intros [] _. destruct argv as [|a0 [|a argv]].
  1, 2: apply wp_bind, wp_pauseForever; intros h'; by apply HQ.
  apply wp_bind, wp_getInt_trace.
  - intros o k Ho Hk. destruct Ho as [->|[->| ->]]; apply HQ; left; unfold stops_failing; auto.
  - intros v Hv _. apply HQ. right. by exists v.
Qed.

(** Before fork() has succeeded nothing is displayed; afterwards there are a child and a
    parent. *)
Definition child_status_post (fuel : nat) (argv : list (list ascii)) (o : outcome unit) (h : history) : Prop :=
  exists k, match k with
  | None => stops_failing o /\ said h = []
  | Some pid => (exists h1 h2, h = h1 ++ Ev Fork (Ok pid) :: h2) /\ if pid =? 0 then child_post argv o else parent_post fuel o h
  end.

Lemma child_status_ends fuel argv : wp waits (child_status_main strsignal fuel argv) (child_status_post fuel argv) [].
Proof.
  unfold child_status_main. destruct (_ && _).
  { apply wp_usageErr_trace. intros o k Ho Hk. exists None. split; [done|]. by apply (reporting_changes k []). }
  apply wp_sys_bind. intros [pid|e] _.
  2: { apply wp_errExit_trace. intros o k Ho Hk. exists None. split; [done|]. rewrite (proj2 (reporting_changes k [Ev Fork (Err e)] Hk)). done. }
  set (h0 := [Ev Fork (Ok pid)]). assert (wp waits (if pid =? 0 then childOf fuel argv else waitForChild strsignal fuel)
    (fun o h => (exists k, h = k ++ h0) /\ if pid =? 0 then child_post argv o else parent_post fuel o h) h0) as H.
  { apply wp_conj; [apply wp_extends|]. destruct (pid =? 0); [by apply wp_childOf|]. apply (wp_waitForChild _ _ []); [by split|done|cbn; lia]. }
  eapply wp_mono; [|exact H]. intros o h [[k ->] Ho]. exists (Some pid). split; [|done]. by exists k, [].
Qed.

(** ** Sets of signals *)

Abbreviation line := (fun prefix sig => prefix ++ dec sig ++ $" (" ++ strsignal sig ++ $")" ++ [NL]).
Abbreviation wrote := (fun out l => Ev (Out out l) tt).

Lemma wp_printMembers E out prefix sigset n sig cnt (Q : outcome Z -> history -> Prop) h :
  (let l := filter (fun g => g ∈ sigset) (Z.of_nat <$> seq (Z.to_nat sig) n) in
   Q (Done (cnt + Z.of_nat (length l))) (rev (wrote out <$> (line prefix <$> l)) ++ h)) ->
  0 <= sig -> wp E (printMembers strsignal out prefix sigset n sig cnt) Q h.
Proof.
  revert sig cnt h. induction n as [|n IH]; intros sig cnt h HQ Hs; cbn [printMembers]; [cbn in HQ; by rewrite Z.add_0_r in HQ|].
  cbn [seq fmap list_fmap] in HQ. rewrite Z2Nat.id in HQ by lia. cbv zeta in HQ. replace (S (Z.to_nat sig)) with (Z.to_nat (sig + 1)) in HQ by lia.
  destruct (bool_decide_reflect (sig ∈ sigset)) as [Hin|Hin].
  - rewrite filter_cons_True in HQ by done. intros [] _. apply IH; [|lia]. cbn [fmap list_fmap rev length] in HQ. rewrite <- app_assoc in HQ.
    cbv zeta. set (l := filter _ _) in *. rewrite <- Z.add_assoc. by replace (1 + Z.of_nat (length l)) with (Z.of_nat (S (length l))) by lia.
  - rewrite filter_cons_False in HQ by done. apply IH; [exact HQ|lia].
Qed.

Lemma wp_printSigset E out prefix sigset (Q : outcome unit -> history -> Prop) h :
  Q (Done tt) (rev (wrote out <$> sigset_lines strsignal prefix sigset) ++ h) -> wp E (printSigset strsignal out prefix sigset) Q h.
Proof.
  intros HQ. unfold printSigset. apply wp_bind, wp_printMembers; [|lia]. cbv zeta. change (Z.to_nat 1) with 1%nat. fold (members sigset). unfold sigset_lines in HQ.
  destruct (members sigset) as [|g l] eqn:Hm; [intros [] _; exact HQ|]. destruct (Z.eqb_spec (0 + Z.of_nat (length (g :: l))) 0) as [H0|_]; [cbn in H0; lia|exact HQ].
Qed.
End Proofs.

(** C33: what happened to a child.  The encoding of a status and the macros are inverse to each
    other for all exit statuses and signals, and [printWaitStatus] displays the change that was
    encoded.  In child_status the parent displays every change that wait() reports, in order,
    and exits successfully right after the one that ends the child; the child exits with its
    argument, and without one it waits for ever.  [printSigset] displays exactly the members of
    the set, in increasing order, or that there are none; [printSigMask] and [printPendingSigs]
    do so for the mask and the pending signals, and return -1 if these cannot be obtained. *)
Theorem child_changes {T : ErrText} strsignal :
  (forall c c', change_ok c -> change_ok c' -> encode c = encode c' -> c = c') /\
  (forall E c h, change_ok c -> wp E (printWaitStatus strsignal None (encode c)) (fun o h' => o = Done tt /\ said h' = said h ++ described strsignal c) h) /\
  (forall fuel argv, wp waits (child_status_main strsignal fuel argv) (child_status_post strsignal fuel argv) []) /\
  (forall E out prefix sigset h, wp E (printSigset strsignal out prefix sigset)
     (fun o h' => o = Done tt /\ h' = rev ((fun l => Ev (Out out l) tt) <$> sigset_lines strsignal prefix sigset) ++ h) h) /\
  (forall E out h, wp E (printSigMask strsignal out None) (fun o h' => exists r, match r with
     | Err _ => o = Done (-1) /\ h' = Ev Sigmask r :: h
     | Ok set => o = Done 0 /\ h' = rev ((fun l => Ev (Out out l) tt) <$> sigset_lines strsignal TABS set) ++ Ev Sigmask r :: h
     end) h) /\
  (forall E out h, wp E (printPendingSigs strsignal out None) (fun o h' => exists r, match r with
     | Err _ => o = Done (-1) /\ h' = Ev Sigpending r :: h
     | Ok set => o = Done 0 /\ h' = rev ((fun l => Ev (Out out l) tt) <$> sigset_lines strsignal TABS set) ++ Ev Sigpending r :: h
     end) h).
Proof.
  split_and!.
  - intros c c' Hc Hc' He. pose proof (encode_macros c Hc) as H. pose proof (encode_macros c' Hc') as H'. rewrite <- He in H'.
    destruct c, c'; intuition (congruence || (f_equal; congruence)).
  - intros E c h Hc. apply wp_printWaitStatus; [done|]. by intros h' Hs _.
  - intros fuel argv. apply child_status_ends.
  - intros E out prefix sigset h. by apply wp_printSigset.
  - intros E out h. apply wp_sys_bind. intros [set|e] _; [|by exists (Err e)]. apply wp_bind, wp_printSigset. by exists (Ok set).
  - intros E out h. apply wp_sys_bind. intros [set|e] _; [|by exists (Err e)]. apply wp_bind, wp_printSigset. by exists (Ok set).
Qed.

(** A child that is stopped, continues and exits with status 3. *)
Definition demo_wait_kernel : kernel := fun h X c =>
  match c in call X return X with
  | Fork => Ok 7
  | Waitpid _ _ => Ok (7, encode match length (changes h) with 0%nat => Stopped 19 | 1%nat => Continued | _ => Exited 3 end)
  | c => failing_kernel h _ c
  end.

Definition demo_child : outcome unit * history :=
  run demo_wait_kernel (child_status_main (T := demo_text) (fun _ => $"signal") 5 [$"child_status"]) [].

Lemma child_changes_witness :
  fst demo_child = Stop (Exit EXIT_SUCCESS) /\ changes (snd demo_child) = [(7, 4991); (7, 65535); (7, 768)] /\
  child_status_post (fun _ => $"signal") 5 [$"child_status"] (fst demo_child) (snd demo_child) /\
  change_ok (Signaled 11 true) /\
  wp posix (printWaitStatus (fun _ => $"signal") None 139) (fun o h' => o = Done tt /\ said h' = $"child killed by signal 11 (signal) (core dumped)" ++ [NL]) [].
Proof.
  destruct (child_changes (T := demo_text) (fun _ => $"signal")) as (_ & Hprint & Hmain & _). split; [vm_compute; reflexivity|]. split; [vm_compute; reflexivity|].
  assert (change_ok (Signaled 11 true)) as Hc by (split; reflexivity). split; [|split; [exact Hc|exact (Hprint posix _ [] Hc)]].
  unfold demo_child. apply (wp_run waits demo_wait_kernel _ (child_status_post (fun _ => $"signal") 5 [$"child_status"])); [|apply Hmain]. intros h X c.
  destruct c; (split; [try apply posix_inhabited|]); try constructor; try (cbn; lia); [|constructor].
  destruct (length (changes h)) as [|[|n]]; eexists; (split; [|reflexivity]); cbn; unfold NSIG; lia.
Defined.
