(* ===== verification/Sendfile.v ===== *)
(** * sockets/sendfile.c: sendfile() in terms of read(), write() and lseek()

    The input is a regular file with contents and an offset, as in FileIO.v; the
    output is any other descriptor.  [None] as [offset] is a null pointer; the second
    result is what *offset holds on return.  The loop takes at most one round per byte
    asked for, which is its fuel. *)

From S2P Require Import Prelude Sys LibErrors StreamIO GetNum FileIO.

Definition SEND_BUF_SIZE : Z := 8192.
Definition SEEK_CUR : Z := 1.

Section Sendfile.
Context {T : ErrText}.

(** The loop: totSent, or [None] where the function returns -1. *)
Fixpoint sendLoop (fuel : nat) (out_fd in_fd count totSent : Z) : prog (option Z) :=
  if count >? 0 then
    match fuel with
    | O => Halt OutOfFuel
    | S fuel =>
        r <- sys (Read in_fd (Z.min SEND_BUF_SIZE count)) ;;
        match r with
        | Err _ => Ret None
        | Ok [] => Ret (Some totSent)
        | Ok buf =>
            w <- sys (Write out_fd buf) ;;
            match w with
            | Err _ => Ret None
            | Ok numSent =>
                if numSent =? 0 then fatal ($"sendfile: write() transferred 0 bytes")
                else sendLoop fuel out_fd in_fd (count - numSent) (totSent + numSent)
            end
        end
    end
  else Ret (Some totSent).

Definition sendfile (out_fd in_fd : Z) (offset : option Z) (count : Z) : prog (Z * option Z) :=
  match offset with
  | None =>
      t <- sendLoop (Z.to_nat count) out_fd in_fd count 0 ;;
      Ret (match t with Some totSent => totSent | None => -1 end, None)
  | Some off =>
      o <- sys (Lseek in_fd 0 SEEK_CUR) ;;
      match o with
      | Err _ => Ret (-1, Some off)
      | Ok orig =>
          s <- sys (Lseek in_fd off SEEK_SET) ;;
          match s with
          | Err _ => Ret (-1, Some off)
          | Ok _ =>
              t <- sendLoop (Z.to_nat count) out_fd in_fd count 0 ;;
              match t with
              | None => Ret (-1, Some off)
              | Some totSent =>
                  c <- sys (Lseek in_fd 0 SEEK_CUR) ;;
                  match c with
                  | Err _ => Ret (-1, Some (-1))
                  | Ok off' =>
                      z <- sys (Lseek in_fd orig SEEK_SET) ;;
                      match z with Err _ => Ret (-1, Some off') | Ok _ => Ret (totSent, Some off') end
                  end
              end
          end
      end
  end.
End Sendfile.

(** ** Specification *)

(** The bytes that write() to [fd] was given but did not take. *)
Definition unsent (fd : Z) {X} (c : call X) : X -> Z :=
  match c in call X return X -> Z with
  | Write x d => fun r => match r with Ok n => if x =? fd then strlen d - n else 0 | Err _ => 0 end
  | _ => fun _ => 0
  end.

Fixpoint lost (fd : Z) (h : history) : Z := match h with [] => 0 | Ev c r :: h => lost fd h + unsent fd c r end.

Section Proofs.
Context {T : ErrText} (in_fd out_fd : Z) (Hne : in_fd <> out_fd) (data0 : list ascii).

Abbreviation at_in := (FileIO.file_of in_fd data0).

(** lseek() by 0 from the current offset returns the offset. *)
Definition send_env : env := fun h X c r =>
  file_env in_fd data0 h X c r /\
  match c in call X return X -> Prop with
  | Lseek x o whence => fun r => match r with Ok o' => x = in_fd -> whence = SEEK_CUR -> o = 0 -> o' = offset (at_in h) | Err _ => True end
  | _ => fun _ => True
  end r.

(** Between [h0] and [h], [sent] bytes have gone out and [l] more were read but not sent; if
    none were, the output is the part of the file from [start] on. *)
Definition transferred (start sent l : Z) (h0 h : history) : Prop :=
  0 <= sent /\ 0 <= l /\ contents (at_in h) = contents (at_in h0) /\
  exists k, h = k ++ h0 /\ strlen (output out_fd k) = sent /\ lost out_fd k = l /\
    (l = 0 -> output out_fd k = take (Z.to_nat sent) (drop (Z.to_nat start) (contents (at_in h0)))).

(** An event that neither writes to the output nor changes the file. *)
Lemma transferred_ev {X} (c : call X) r start sent l h0 h :
  transferred start sent l h0 h -> put out_fd c r = [] -> unsent out_fd c r = 0 -> contents (at_in (Ev c r :: h)) = contents (at_in h) ->
  transferred start sent l h0 (Ev c r :: h).
Proof.
  intros (H1 & H2 & H3 & k & -> & H4 & H5 & H6) Hp Hu Hc. split; [done|]. split; [done|]. split; [congruence|]. exists (Ev c r :: k). cbn [output lost]. rewrite Hp, Hu, app_nil_r, Z.add_0_r. by split.
Qed.

Lemma transferred_start start h0 : transferred start 0 0 h0 h0.
Proof. split; [done|]. split; [done|]. split; [done|]. exists []. by split_and!. Qed.

(** One round of the loop. *)
Lemma transferred_round start sent l h0 h d n m :
  transferred start sent l h0 h -> 0 <= start -> offset (at_in h) = start + sent + l -> 0 <= n <= strlen d ->
  d `prefix_of` drop (Z.to_nat (offset (at_in h))) (contents (at_in h)) ->
  let h' := Ev (Write out_fd d) (Ok n) :: Ev (Read in_fd m) (Ok d) :: h in
  transferred start (sent + n) (l + (strlen d - n)) h0 h' /\ offset (at_in h') = start + (sent + n) + (l + (strlen d - n)).
Proof.
  intros (H1 & H2 & H3 & k & -> & H4 & H5 & H6) Hs Hoff Hn [rest Hd] h'.
  assert (at_in h' = File (contents (at_in (k ++ h0))) (offset (at_in (k ++ h0)) + strlen d)) as Hfile.
  { unfold h'. cbn [FileIO.file_of fold_right file_step]. rewrite Z.eqb_refl. destruct (Z.eqb_spec out_fd in_fd); [congruence|done]. }
  split; [|rewrite Hfile; cbn; lia]. split; [lia|]. split; [lia|]. split; [by rewrite Hfile|]. exists (Ev (Write out_fd d) (Ok n) :: Ev (Read in_fd m) (Ok d) :: k).
  cbn [output lost put unsent]. rewrite Z.eqb_refl, !app_nil_r, Z.add_0_r. split; [done|]. split; [unfold strlen in *; rewrite length_app, length_take; lia|]. split; [lia|].
  intros Hl. assert (l = 0 /\ n = strlen d) as [-> ->] by lia. rewrite (H6 eq_refl), H3 in *. rewrite Hoff in Hd. unfold strlen in *.
  rewrite (take_ge d) by lia. replace (Z.to_nat (sent + Z.of_nat (length d))) with (Z.to_nat sent + length d)%nat by lia.
  rewrite <- take_take_drop. f_equal.
  rewrite drop_drop. replace (Z.to_nat start + Z.to_nat sent)%nat with (Z.to_nat (start + sent + 0)) by lia. rewrite Hd. by rewrite take_app_length.
Qed.

Lemma wp_sendLoop fuel start h0 count sent l (Q : outcome (option Z) -> history -> Prop) h :
  transferred start sent l h0 h -> 0 <= start -> offset (at_in h) = start + sent + l -> 0 <= count <= Z.of_nat fuel ->
  (forall o h', stops_failing o -> Q o h') -> (forall h', Q (Done None) h') ->
  (forall sent' l' h', transferred start sent' l' h0 h' -> offset (at_in h') = start + sent' + l' ->
     sent' = sent + count \/ sent' <= sent + count /\ strlen (contents (at_in h0)) <= start + sent' + l' -> Q (Done (Some sent')) h') ->
  wp send_env (sendLoop fuel out_fd in_fd count sent) Q h.
Proof.
  revert count sent l h. induction fuel as [|fuel IH]; intros count sent l h Ht Hs Hoff Hc Hfail Hnone HQ; cbn [sendLoop]; rewrite Z.gtb_ltb; destruct (Z.ltb_spec 0 count) as [Hpos|Hz].
  1: lia. 1, 3: apply (HQ sent l); [done|done|left; lia].
  apply wp_sys_bind. intros [d|e] [[Hp Hr] _]; [|apply Hnone]. destruct (Hr eq_refl) as [Hpre Hemp]. cbn in Hp. destruct d as [|c d].
  { apply (HQ sent l); [apply transferred_ev; [done|done|done|]| |]; try (cbn [FileIO.file_of fold_right file_step]; rewrite Z.eqb_refl; cbn; rewrite ?Z.add_0_r; done).
    right. split; [lia|]. destruct Ht as (_ & _ & Hcont & _). destruct (Hemp eq_refl) as [Hm|Hm]; [unfold SEND_BUF_SIZE in Hm; lia|]. rewrite <- Hcont, <- Hoff. exact Hm. }
  apply wp_sys_bind. intros [n|e] [[Hw _] _]; [|apply Hnone]. cbn [posix err_ok] in Hw. destruct (Z.eqb_spec n 0) as [Hn0|Hn0]; [by apply wp_fatal|].
  assert (0 <= n <= strlen (c :: d)) as Hn by (unfold strlen; lia). assert (strlen (c :: d) <= count) as Hlen by (unfold strlen; lia).
  destruct (transferred_round start sent l h0 h (c :: d) n (Z.min SEND_BUF_SIZE count) Ht Hs Hoff Hn Hpre) as [Ht' Hoff'].
  eapply IH; [exact Ht'|done|exact Hoff'|lia|done|done|]. intros sent' l' h' H1 H2 H3. apply (HQ sent' l'); [done|done|]. destruct H3 as [->|[? ?]]; [left; lia|right; split; [lia|done]].
Qed.

(** What sendfile() has done when it returns: nothing is said about -1. *)
Definition sendfile_post (off : option Z) (count : Z) (h : history) (o : outcome (Z * option Z)) (h' : history) : Prop :=
  match o with
  | Done (r, off') =>
      let start := match off with Some v => v | None => offset (at_in h) end in
      r = -1 \/ exists l, transferred start r l h h' /\
        (r = count \/ r <= count /\ strlen (contents (at_in h)) <= start + r + l) /\
        match off with
        | Some _ => off' = Some (start + r + l) /\ offset (at_in h') = offset (at_in h)
        | None => offset (at_in h') = start + r + l
        end
  | Stop _ => stops_failing o
  end.

Lemma at_in_seek h o w r : at_in (Ev (Lseek in_fd o w) (Ok r) :: h) = File (contents (at_in h)) r.
Proof. cbn [FileIO.file_of fold_right file_step]. by rewrite Z.eqb_refl. Qed.

Lemma transferred_seek start sent l h0 h o w r : transferred start sent l h0 h -> transferred start sent l h0 (Ev (Lseek in_fd o w) (Ok r) :: h).
Proof. intros Ht. apply transferred_ev; [done|done|done|]. by rewrite at_in_seek. Qed.

Lemma wp_sendfile off count h :
  0 <= count -> 0 <= offset (at_in h) -> wp send_env (sendfile out_fd in_fd off count) (sendfile_post off count h) h.
Proof.
  intros Hc Hoff0. destruct off as [v|]; cbn [sendfile].
  2: { apply wp_bind. eapply (wp_sendLoop _ (offset (at_in h)) h count 0 0 _ h); [apply transferred_start|done|lia|lia| | |].
       - intros o h' Ho. destruct Ho as [->|[->| ->]]; unfold sendfile_post, stops_failing; auto.
       - intros h'. by left.
       - intros sent l h' Ht Hoff He. right. exists l. split; [done|]. split; [|done]. destruct He as [->|[? ?]]; [left; lia|right; split; [lia|done]]. }
  apply wp_sys_bind. intros [orig|e] [_ Hcur]; [|by left]. specialize (Hcur eq_refl eq_refl eq_refl). apply wp_sys_bind. intros [v'|e] [[_ Hset] _]; [|by left].
  destruct (Hset eq_refl eq_refl) as [-> Hv]. apply wp_bind. eapply (wp_sendLoop _ v h count 0 0); [do 2 apply transferred_seek; apply transferred_start|done|rewrite at_in_seek; cbn; lia|lia| | |].
  - intros o h' Ho. destruct Ho as [->|[->| ->]]; unfold sendfile_post, stops_failing; auto.
  - intros h'. by left.
  - intros sent l h' Ht Hoff He. apply wp_sys_bind. intros [off'|e] [_ Hcur']; [|by left]. specialize (Hcur' eq_refl eq_refl eq_refl).
    apply wp_sys_bind. intros [z|e] [[_ Hset'] _]; [|by left]. destruct (Hset' eq_refl eq_refl) as [-> _].
    right. exists l. split; [by do 2 apply transferred_seek|]. split; [destruct He as [->|[? ?]]; [left; lia|right; split; [lia|done]]|].
    split; [f_equal; lia|]. rewrite at_in_seek. cbn. lia.
Qed.
End Proofs.

(** A file that is read as far as asked, and an output that takes one byte at a time. *)
Definition slow_kernel (in_fd : Z) (data0 : list ascii) : kernel := fun h X c =>
  match c in call X return X with
  | Read x n => if (n <? 1) || (offset (FileIO.file_of in_fd data0 h) <? 0) then Err EIO else
                if x =? in_fd then Ok (take (Z.to_nat n) (drop (Z.to_nat (offset (FileIO.file_of in_fd data0 h))) (contents (FileIO.file_of in_fd data0 h)))) else Err EIO
  | Write _ (_ :: _) => Ok 1
  | Lseek _ o w => if w =? SEEK_CUR then Ok (offset (FileIO.file_of in_fd data0 h)) else if o <? 0 then Err EIO else Ok o
  | c => failing_kernel h _ c
  end.

Lemma slow_kernel_ok in_fd data0 h X (c : call X) : send_env in_fd data0 h X c (slow_kernel in_fd data0 h X c).
Proof.
  destruct c; try (split; [split; [apply posix_inhabited|done]|done]).
  - unfold slow_kernel. destruct (Z.ltb_spec n 1) as [|Hn]; [by repeat split|]. destruct (Z.ltb_spec (FileIO.offset (FileIO.file_of in_fd data0 h)) 0) as [|Ho]; [by repeat split|]. cbn [orb]. destruct (Z.eqb_spec fd in_fd) as [->|]; [|by repeat split]. split; [|done]. split.
    + cbn. rewrite length_take. lia.
    + intros _. split; [apply prefix_take|]. intros Hnil. right. unfold strlen. apply (f_equal length) in Hnil. rewrite length_take, length_drop in Hnil. cbn in Hnil. lia.
  - destruct data as [|a data]; (split; [split; [|done]|done]); cbn; unfold EIO; lia.
  - unfold slow_kernel. destruct (Z.eqb_spec whence SEEK_CUR) as [->|Hw].
    + split; [split; [done|]|done]. cbn. intros _ Hs. discriminate.
    + destruct (Z.ltb_spec offset 0); [by repeat split|]. split; [split; [done|]|]; cbn; [done|]. intros _ Hs. congruence.
Qed.

(** Sendfile() copies what it reads, but loses what a partial write leaves over.  Whatever the
    calls return, if it does not return -1 it has written as many bytes as it returns, which
    are all that were asked for unless the end of the file was reached; they are the part of
    the file from the offset on if no write was partial.  The bytes that partial writes left
    over are skipped: the new offset, in *offset or in the file, is after them.  If an offset
    is given, that of the file is as before.  The function always returns or reports that
    write() took nothing.  With an output that takes one byte at a time, the call for two
    bytes of abcd sends a and c and returns 2. *)
Lemma sendfile_transfers {T : ErrText} in_fd out_fd data0 off count h :
  in_fd <> out_fd -> 0 <= count -> 0 <= offset (FileIO.file_of in_fd data0 h) ->
  wp (send_env in_fd data0) (sendfile out_fd in_fd off count) (sendfile_post in_fd out_fd data0 off count h) h /\
  exists K, (forall h X (c : call X), send_env 3 ($"abcd") h X c (K h X c)) /\
    let '(o, h') := run K (sendfile 4 3 None 2) [] in o = Done (2, None) /\ output 4 h' = $"ac" /\ lost 4 h' = 1.
Proof.
  intros Hne Hc Hoff. split; [by apply wp_sendfile|]. exists (slow_kernel 3 ($"abcd")). split; [apply slow_kernel_ok|]. vm_compute. done.
Qed.
