(* ===== verification/Epoll.v ===== *)
(** * altio/epoll_input.c: input from several files with epoll

    The program opens its arguments, reads what is ready and closes a descriptor when
    there is nothing left to read and the other side has gone.  [watched] is the
    interest list of the epoll instance, computed from the history. *)

From S2P Require Import Prelude Sys LibErrors GetNum FileIO.

Definition EPOLLIN : Z := 1.
Definition EPOLLERR : Z := 8.
Definition EPOLLHUP : Z := 16.
Definition MAX_BUF : Z := 1000.
Definition MAX_EVENTS : Z := 5.

Section Epoll.
Context {T : ErrText}.

(** The loop that opens the files and adds them to the interest list. *)
Fixpoint openInputs (epfd : Z) (files : list (list ascii)) : prog unit :=
  match files with
  | [] => Ret tt
  | name :: files =>
      f <- sys (Open name O_RDONLY 0) ;;
      match f with
      | Err e => errExit e ($"open")
      | Ok fd =>
          print Stdout ($"Opened " ++ [chr 34] ++ name ++ [chr 34] ++ $" on fd " ++ dec fd ++ [NL]) ;;;
          a <- sys (Epoll_add epfd fd EPOLLIN) ;;
          match a with Err e => errExit e ($"epoll_ctl") | Ok _ => openInputs epfd files end
      end
  end.

Definition eventLine (fd events : Z) : list ascii :=
  $"  fd=" ++ dec fd ++ $"; events: " ++ (if flag events EPOLLIN then $"EPOLLIN " else []) ++ (if flag events EPOLLHUP then $"EPOLLHUP " else [])
    ++ (if flag events EPOLLERR then $"EPOLLERR " else []) ++ [NL].

(** The line about the bytes read: %.*s ends at a null byte. *)
Definition readLineText (buf : list ascii) : list ascii := $"    read " ++ dec (strlen buf) ++ $" bytes: " ++ cstring_of buf ++ [NL].

(** One element of evlist: the new number of open descriptors. *)
Definition handleEvent (numOpenFds : Z) (x : Z * Z) : prog Z :=
  let '(fd, events) := x in
  print Stdout (eventLine fd events) ;;;
  if flag events EPOLLIN then
    s <- sys (Read fd MAX_BUF) ;;
    match s with
    | Err e => errExit e ($"read")
    | Ok buf => print Stdout (readLineText buf) ;;; Ret numOpenFds
    end
  else if flag events (Z.lor EPOLLHUP EPOLLERR) then
    print Stdout ($"    closing fd " ++ dec fd ++ [NL]) ;;;
    c <- sys (Close fd) ;;
    match c with Err e => errExit e ($"close") | Ok _ => Ret (numOpenFds - 1) end
  else Ret numOpenFds.

Fixpoint handleEvents (numOpenFds : Z) (evlist : list (Z * Z)) : prog Z :=
  match evlist with
  | [] => Ret numOpenFds
  | x :: evlist => n <- handleEvent numOpenFds x ;; handleEvents n evlist
  end.

Fixpoint epollLoop (fuel : nat) (epfd numOpenFds : Z) : prog unit :=
  if numOpenFds >? 0 then
    match fuel with
    | O => Halt OutOfFuel
    | S fuel =>
        print Stdout ($"About to epoll_wait()" ++ [NL]) ;;;
        r <- sys (Epoll_wait epfd MAX_EVENTS) ;;
        match r with
        | Err e => if e =? EINTR then epollLoop fuel epfd numOpenFds else errExit e ($"epoll_wait")
        | Ok evlist =>
            print Stdout ($"Ready: " ++ dec (Z.of_nat (length evlist)) ++ [NL]) ;;;
            n <- handleEvents numOpenFds evlist ;;
            epollLoop fuel epfd n
        end
    end
  else Ret tt.

Definition epoll_input_main (fuel : nat) (argv : list (list ascii)) : prog unit :=
  if (length argv <? 2)%nat || is_help argv then usageErr (argv_nth argv 0 ++ $" file..." ++ [NL])
  else
    e <- sys (Epoll_create (Z.of_nat (length argv) - 1)) ;;
    match e with
    | Err e => errExit e ($"epoll_create")
    | Ok epfd =>
        openInputs epfd (drop 1 argv) ;;;
        epollLoop fuel epfd (Z.of_nat (length argv) - 1) ;;;
        print Stdout ($"All file descriptors closed; bye" ++ [NL]) ;;;
        Halt (Exit EXIT_SUCCESS)
    end.
End Epoll.

(** ** The interest list *)

Definition watches {X} (c : call X) : X -> option Z :=
  match c in call X return X -> option Z with Epoll_add _ fd _ => fun r => match r with Ok _ => Some fd | Err _ => None end | _ => fun _ => None end.

(** close() removes a descriptor from the interest list. *)
Fixpoint watched (h : history) : gset Z :=
  match h with
  | [] => ∅
  | Ev c r :: h =>
      match watches c r, closed c with
      | Some fd, _ => {[fd]} ∪ watched h
      | None, Some fd => watched h ∖ {[fd]}
      | None, None => watched h
      end
  end.

(** The descriptors that close() has released, and the calls of epoll_wait(). *)
Definition closing (e : event) : nat := match e with Ev c _ => match c with Close _ => 1 | _ => 0 end end.
Definition waiting (e : event) : nat := match e with Ev c _ => match c with Epoll_wait _ _ => 1 | _ => 0 end end.
Fixpoint closings (h : history) : nat := match h with [] => 0 | e :: h => closing e + closings h end.
Fixpoint waitings (h : history) : nat := match h with [] => 0 | e :: h => waiting e + waitings h end.

(** epoll_wait() reports members of the interest list, each of them once (epoll(7)). *)
Definition epoll_env : env := fun h X c r =>
  posix h X c r /\
  match c in call X return X -> Prop with
  | Epoll_wait _ _ => fun r => match r with Ok l => NoDup (fst <$> l) /\ Forall (fun x => fst x ∈ watched h) l | Err _ => True end
  | _ => fun _ => True
  end r.

(** ** Proofs *)

(** [n] files are open and watched, [c] descriptors have been closed, and [w] times the program
    has waited. *)
Definition ep_inv (epfd n : Z) (c w : nat) (h : history) : Prop :=
  Z.of_nat (size (watched h)) = n /\ open_fds h = {[epfd]} ∪ watched h /\ epfd ∉ watched h /\ closings h = c /\ waitings h = w.

(** An event that does not open or close a descriptor. *)
Lemma ep_inv_ev {X} (x : call X) r epfd n c w h :
  ep_inv epfd n c w h -> opened x r = None -> closed x = None -> watches x r = None -> closing (Ev x r) = 0%nat -> ep_inv epfd n c (waiting (Ev x r) + w) (Ev x r :: h).
Proof. intros (H1 & H2 & H3 & H4 & H5) Ho Hc Hw Hcl. unfold ep_inv. cbn [watched open_fds closings waitings]. rewrite Ho, Hc, Hw, Hcl, H5. by split_and!. Qed.

Lemma ep_inv_out s text epfd n c w h : ep_inv epfd n c w h -> ep_inv epfd n c w (Ev (Out s text) tt :: h).
Proof. intros H. by apply (ep_inv_ev (Out s text) tt _ _ _ _ _ H). Qed.

(** A file has been opened and added. *)
Lemma ep_inv_add epfd n c w h name fd text : ep_inv epfd n c w h -> fd ∉ open_fds h ->
  ep_inv epfd (n + 1) c w (Ev (Epoll_add epfd fd EPOLLIN) (Ok tt) :: Ev (Out Stdout text) tt :: Ev (Open name O_RDONLY 0) (Ok fd) :: h).
Proof.
  intros (H1 & H2 & H3 & H4 & H5) Hfd. unfold ep_inv. cbn [watched open_fds closings waitings watches opened closed closing waiting Nat.add]. rewrite H2 in Hfd.
  split; [rewrite size_union by set_solver; rewrite size_singleton; lia|]. split; [rewrite H2; set_solver|]. split; [set_solver|done].
Qed.

(** A watched descriptor is closed. *)
Lemma ep_inv_close epfd n c w h fd r : ep_inv epfd n c w h -> fd ∈ watched h -> ep_inv epfd (n - 1) (S c) w (Ev (Close fd) r :: h).
Proof.
  intros (H1 & H2 & H3 & H4 & H5) Hfd. unfold ep_inv. cbn [watched open_fds closings waitings watches opened closed closing waiting Nat.add].
  assert ({[fd]} ⊆ watched h) as Hsub by set_solver. pose proof (subseteq_size _ _ Hsub) as Hsz. rewrite size_singleton in Hsz.
  split; [rewrite size_difference by done; rewrite size_singleton; lia|]. split; [rewrite H2; set_solver|]. split; [set_solver|by rewrite H4].
Qed.

Section Proofs.
Context {T : ErrText}.

Lemma wp_openInputs epfd files n w (Q : outcome unit -> history -> Prop) h :
  ep_inv epfd n 0 w h -> (forall o h', stops_failing o -> Q o h') -> (forall h', ep_inv epfd (n + Z.of_nat (length files)) 0 w h' -> Q (Done tt) h') ->
  wp epoll_env (openInputs epfd files) Q h.
Proof.
  revert n h. induction files as [|name files IH]; intros n h Hinv Hfail HQ; cbn [openInputs]; [apply HQ; cbn; by rewrite Z.add_0_r|].
  apply wp_sys_bind. intros [fd|e] [Hr _]; [|by apply wp_errExit]. cbn in Hr. apply wp_sys_bind. intros [] _. apply wp_sys_bind. intros [[]|e] _; [|by apply wp_errExit].
  eapply IH; [apply ep_inv_add; [exact Hinv|apply Hr]|done|]. intros h' Hinv'. apply HQ. cbn [length]. by replace (n + Z.of_nat (S (length files))) with (n + 1 + Z.of_nat (length files)) by lia.
Qed.

(** What the program does for one event, and what it displays. *)
Definition event_post (n : Z) (x : Z * Z) (h : history) (o : outcome Z) (h' : history) : Prop :=
  let h1 := Ev (Out Stdout (eventLine (fst x) (snd x))) tt :: h in
  stops_failing o \/
  if flag (snd x) EPOLLIN then exists d, strlen d <= MAX_BUF /\ o = Done n /\ h' = Ev (Out Stdout (readLineText d)) tt :: Ev (Read (fst x) MAX_BUF) (Ok d) :: h1
  else if flag (snd x) (Z.lor EPOLLHUP EPOLLERR) then
    o = Done (n - 1) /\ h' = Ev (Close (fst x)) (Ok tt) :: Ev (Out Stdout ($"    closing fd " ++ dec (fst x) ++ [NL])) tt :: h1
  else o = Done n /\ h' = h1.

Lemma wp_handleEvent n x h : wp epoll_env (handleEvent n x) (event_post n x h) h.
Proof.
  destruct x as [fd ev]. unfold handleEvent, event_post. cbn [fst snd]. apply wp_sys_bind. intros [] _. destruct (flag ev EPOLLIN).
  - apply wp_sys_bind. intros [d|e] [Hr _]; [|apply wp_errExit; intros o h' Ho; by left]. cbn in Hr. intros [] _. right. by exists d.
  - destruct (flag ev (Z.lor EPOLLHUP EPOLLERR)); [|by right]. apply wp_sys_bind. intros [] _. apply wp_sys_bind. intros [[]|e] _; [by right|apply wp_errExit; intros o h' Ho; by left].
Qed.

Lemma wp_handleEvents epfd evlist n c w (Q : outcome Z -> history -> Prop) h :
  ep_inv epfd n c w h -> NoDup (fst <$> evlist) -> Forall (fun x => fst x ∈ watched h) evlist -> (forall o h', stops_failing o -> Q o h') ->
  (forall n' c' h', ep_inv epfd n' c' w h' -> n' + Z.of_nat c' = n + Z.of_nat c -> Q (Done n') h') -> wp epoll_env (handleEvents n evlist) Q h.
Proof.
  revert n c h. induction evlist as [|x evlist IH]; intros n c h Hinv Hnd Hall Hfail HQ; cbn [handleEvents]; [by eapply HQ|].
  rewrite fmap_cons in Hnd. apply NoDup_cons in Hnd as [Hx Hnd]. apply Forall_cons in Hall as [Hxw Hall].
  assert (forall k : history, (forall fd, fd <> fst x -> fd ∈ watched h -> fd ∈ watched k) -> Forall (fun y => fst y ∈ watched k) evlist) as Hkeep.
  { intros k Hk. apply Forall_forall. intros y Hy. apply Hk; [|by eapply Forall_forall in Hall]. intros He. apply Hx. rewrite <- He. by apply list_elem_of_fmap_2. }
  apply wp_bind. eapply wp_mono; [|apply wp_handleEvent]. intros o h' [Ho|Ho]; [destruct Ho as [->|[->| ->]]; apply Hfail; unfold stops_failing; auto|].
  destruct (flag (snd x) EPOLLIN).
  { destruct Ho as (d & _ & -> & ->). eapply IH; [apply ep_inv_out; apply (ep_inv_ev (Read (fst x) MAX_BUF) (Ok d)); [by apply ep_inv_out|done..]|done|by apply Hkeep|done|done]. }
  destruct (flag (snd x) (Z.lor EPOLLHUP EPOLLERR)).
  - destruct Ho as [-> ->]. eapply IH; [apply ep_inv_close; [by do 2 apply ep_inv_out|done]|done|apply Hkeep; intros fd Hne Hfd; cbn; set_solver|done|].
    intros n' c' h' Hinv' He. apply (HQ n' c'); [exact Hinv'|lia].
  - destruct Ho as [-> ->]. eapply IH; [by apply ep_inv_out|done|by apply Hkeep|done|done].
Qed.

Lemma wp_epollLoop fuel epfd n c w (Q : outcome unit -> history -> Prop) h :
  ep_inv epfd n c w h -> (forall o h', stops_failing o -> Q o h') ->
  (forall n' c' h', ep_inv epfd n' c' (w + fuel) h' -> 0 < n' -> n' + Z.of_nat c' = n + Z.of_nat c -> Q (Stop OutOfFuel) h') ->
  (forall c' w' h', ep_inv epfd 0 c' w' h' -> Z.of_nat c' = n + Z.of_nat c -> Q (Done tt) h') -> wp epoll_env (epollLoop fuel epfd n) Q h.
Proof.
  revert n c w h. induction fuel as [|fuel IH]; intros n c w h Hinv Hfail Hfuel HQ; cbn [epollLoop]; rewrite Z.gtb_ltb; destruct (Z.ltb_spec 0 n) as [Hn|Hn].
  2, 4: assert (n = 0) as -> by (destruct Hinv as [H0 _]; lia); by eapply HQ.
  { eapply Hfuel; [by rewrite Nat.add_0_r|done|done]. }
  apply wp_sys_bind. intros [] _. apply wp_sys_bind. intros r Hr. pose proof (ep_inv_ev (Epoll_wait epfd MAX_EVENTS) r epfd n c w _ (ep_inv_out Stdout ($"About to epoll_wait()" ++ [NL]) _ _ _ _ _ Hinv) eq_refl eq_refl eq_refl eq_refl) as Hinv1.
  assert (forall n1 c1 h1, ep_inv epfd n1 c1 (1 + w) h1 -> n1 + Z.of_nat c1 = n + Z.of_nat c -> wp epoll_env (epollLoop fuel epfd n1) Q h1) as Hgo.
  { intros n1 c1 h1 Hinv' He. eapply IH; [exact Hinv'|done| |].
    - intros n2 c2 h2 Hi Hp He2. apply (Hfuel n2 c2); [|exact Hp|lia]. by replace (w + S fuel)%nat with (1 + w + fuel)%nat by lia.
    - intros c2 w2 h2 Hi He2. apply (HQ c2 w2); [exact Hi|lia]. }
  destruct r as [evlist|e]; [|destruct (e =? EINTR); [by eapply Hgo|by apply wp_errExit]]. destruct Hr as [_ [Hnd Hall]]. apply wp_sys_bind. intros [] _.
  apply wp_bind. eapply wp_handleEvents; [by apply ep_inv_out|done|exact Hall| |].
  - intros o h' Ho. destruct Ho as [->|[->| ->]]; apply Hfail; unfold stops_failing; auto.
  - intros n' c' h' Hinv' He. by eapply Hgo.
Qed.
End Proofs.

(** C21: epoll_input closes what it has opened.  Whatever the calls return, if the program exits
    successfully then all files of its arguments were opened, each was closed exactly once,
    and only the epoll instance is still open; it goes on as long as a file is open, for as
    many rounds as epoll_wait() returns.  For each event it reads at most 1000 bytes from
    the descriptor and displays them if there is input, and closes the descriptor only if
    there is none and the other side has hung up or failed. *)
Theorem epoll_input_closes {T : ErrText} fuel argv :
  wp epoll_env (epoll_input_main fuel argv) (fun o h =>
    stops_failing o \/
    exists epfd n c w, ep_inv epfd n c w h /\ n + Z.of_nat c = Z.of_nat (length argv) - 1 /\
      (o = Stop (Exit EXIT_SUCCESS) /\ n = 0 /\ open_fds h = {[epfd]} \/ o = Stop OutOfFuel /\ 0 < n /\ w = fuel)) [] /\
  (forall n x h, wp epoll_env (handleEvent n x) (event_post n x h) h).
Proof.
  split; [|intros n x h; apply wp_handleEvent]. unfold epoll_input_main. destruct (Nat.ltb_spec (length argv) 2) as [|Hlen]; cbn [orb]; [apply wp_usageErr; intros; by left|].
  destruct (is_help argv); [apply wp_usageErr; intros; by left|]. apply wp_sys_bind. intros [epfd|e] _; [|apply wp_errExit; intros; by left].
  apply wp_bind. eapply (wp_openInputs epfd _ 0 0).
  - unfold ep_inv. cbn. rewrite size_empty. split_and!; set_solver.
  - intros o h' Ho. destruct Ho as [->|[->| ->]]; left; unfold stops_failing; auto.
  - intros h Hinv. rewrite length_drop in Hinv. replace (0 + Z.of_nat (length argv - 1)) with (Z.of_nat (length argv) - 1) in Hinv by lia.
    apply wp_bind. eapply wp_epollLoop; [exact Hinv| | |].
    + intros o h' Ho. destruct Ho as [->|[->| ->]]; left; unfold stops_failing; auto.
    + intros n c h' Hi Hp He. right. exists epfd, n, c, fuel. split; [exact Hi|]. split; [lia|]. by right.
    + intros c w h' Hi He. intros [] _. right. exists epfd, 0, c, w. pose proof (ep_inv_out Stdout ($"All file descriptors closed; bye" ++ [NL]) _ _ _ _ _ Hi) as Hi'. split; [exact Hi'|].
      split; [lia|]. left. split; [done|]. split; [done|]. destruct Hi' as (H1 & H2 & _). rewrite H2. assert (watched (Ev (Out Stdout ($"All file descriptors closed; bye" ++ [NL])) tt :: h') ≡ ∅) as H0 by (apply size_empty_inv; lia). set_solver.
Qed.

(** One file, on which there is input once and then the end. *)
Definition demo_epoll_kernel : kernel := fun h X c =>
  match c in call X return X with
  | Epoll_create _ => if decide (5 ∈ open_fds h) then Err EIO else Ok 5
  | Open _ _ _ => if decide (6 ∈ open_fds h) then Err EIO else Ok 6
  | Epoll_add _ _ _ => Ok tt
  | Epoll_wait _ n => if decide (6 ∈ watched h /\ 0 < n) then Ok [(6, if (waitings h =? 0)%nat then 17 else 16)] else Err EIO
  | Read _ n => if n <? 2 then Err EIO else Ok ($"hi")
  | Close _ => Ok tt
  | c => failing_kernel h _ c
  end.

Lemma demo_epoll_legal h X (c : call X) : epoll_env h X c (demo_epoll_kernel h X c).
Proof.
  destruct c; try (split; [apply posix_inhabited|done]); cbn; try (split; [|done]); cbn.
  - destruct (decide (6 ∈ open_fds h)); cbn; [done|]. by split.
  - done.
  - destruct (Z.ltb_spec n 2); [done|]. change (2 <= n). lia.
  - destruct (decide (5 ∈ open_fds h)); cbn; [done|]. by split.
  - done.
  - destruct (decide (6 ∈ watched h /\ 0 < maxevents)) as [[Hw Hn]|_]; (split; cbn; [|done || (split; [apply NoDup_singleton|by apply Forall_singleton])]); [cbn; lia|done].
Qed.

Definition demo_epoll : outcome unit * history := run demo_epoll_kernel (epoll_input_main (T := demo_text) 4 [$"epoll_input"; $"fifo"]) [].

Lemma epoll_input_witness :
  fst demo_epoll = Stop (Exit EXIT_SUCCESS) /\ exists c w, ep_inv 5 0 c w (snd demo_epoll) /\ Z.of_nat c = 1 /\ open_fds (snd demo_epoll) = {[5]}.
Proof.
  assert (fst demo_epoll = Stop (Exit EXIT_SUCCESS)) as He by (vm_compute; reflexivity). split; [exact He|].
  pose proof (wp_run epoll_env demo_epoll_kernel _ _ [] demo_epoll_legal (proj1 (epoll_input_closes (T := demo_text) 4 [$"epoll_input"; $"fifo"]))) as H.
  change (run demo_epoll_kernel _ []) with demo_epoll in H. rewrite He in H. destruct H as [H|(epfd & n & c & w & Hi & Hn & [(_ & -> & Ho)|(Hf & _)])]; [|..|discriminate].
  - exfalso. destruct H as [H|[H|H]]; discriminate.
  - assert (epfd = 5) as ->; [|exists c, w; split; [exact Hi|split; [exact Hn|exact Ho]]].
    assert (5 ∈ open_fds (snd demo_epoll)) as H5 by (vm_compute; reflexivity). rewrite Ho in H5. by apply elem_of_singleton in H5.
Defined.
