(* ===== verification/Launchers.v ===== *)
(** * Programs that change namespaces or credentials and execute a command

    namespaces/unshare.c, ns_exec.c, ns_run.c, ns_exec_map.c, ns_child_exec.c,
    cred_launcher.c and cap/cap_launcher.c.  getopt() is replaced by the options that it returns, [opts], and
    the arguments after them, [args]; an option that getopt() does not know is '?'.
    [acts] lists the changes that a process has made to itself, in order. *)

From S2P Require Import Prelude Sys LibErrors GetNum ProcExec FileIO PosixIpc PosixTools Userns.

Section Launchers.
Context {T : ErrText}.

(** execvp(argv[0], argv), which returns only to fail; without arguments there is no
    argv[0]. *)
Definition execArgs (args : list (list ascii)) (fails : Z -> prog unit) : prog unit :=
  match args with
  | [] => Halt (Undefined "null pointer")
  | cmd :: _ => e <- execvp cmd args ;; fails e
  end.

(** ** unshare.c *)

Definition unshareUsage {A} (pname : list ascii) : prog A :=
  usageLines [$"Usage: " ++ pname ++ $" [options] cmd [arg...]"; $"Options can be:";
              $"    -f   fork() before executing cmd (useful when unsharing PID namespace)";
              $"    -C   unshare cgroup namespace"; $"    -i   unshare IPC namespace"; $"    -m   unshare mount namespace";
              $"    -n   unshare network namespace"; $"    -p   unshare PID namespace"; $"    -u   unshare UTS namespace"; $"    -U   unshare user namespace"].

(** The loop over the options of unshare and ns_child_exec, where [extra] is the option
    that is not a namespace. *)
Fixpoint nsOptions (extra : ascii) (usage : prog (Z * bool)) (opts : list (ascii * list ascii)) (flags : Z) (chosen : bool) : prog (Z * bool) :=
  match opts with
  | [] => Ret (flags, chosen)
  | (opt, _) :: opts =>
      let add f := nsOptions extra usage opts (Z.lor flags f) chosen in
      if Ascii.eqb opt extra then nsOptions extra usage opts flags true
      else if Ascii.eqb opt "C" then add CLONE_NEWCGROUP
      else if Ascii.eqb opt "i" then add CLONE_NEWIPC
      else if Ascii.eqb opt "m" then add CLONE_NEWNS
      else if Ascii.eqb opt "n" then add CLONE_NEWNET
      else if Ascii.eqb opt "p" then add CLONE_NEWPID
      else if Ascii.eqb opt "u" then add CLONE_NEWUTS
      else if Ascii.eqb opt "U" then add CLONE_NEWUSER
      else usage
  end.

(** if (fork()): the error -1 takes the same branch as the parent. *)
Definition unshare_main (argv0 : list ascii) (opts : list (ascii * list ascii)) (args : list (list ascii)) : prog unit :=
  '(flags, do_fork) <- nsOptions "f" (unshareUsage argv0) opts 0 false ;;
  if (length args =? 0)%nat then unshareUsage argv0
  else
    u <- sys (Unshare flags) ;;
    match u with
    | Err e => perrorExit e ($"unshare")
    | Ok _ =>
        (if (do_fork : bool) then
           f <- sys Fork ;;
           if match f with Ok pid => negb (pid =? 0) | Err _ => true end
           then sys (Waitpid (-1) 0) ;;; Halt (Exit EXIT_SUCCESS)
           else Ret tt
         else Ret tt) ;;;
        execArgs args (fun e => perrorExit e ($"execvp"))
    end.

(** ** ns_exec.c *)

(** open() and setns(), as in ns_exec and ns_run. *)
Definition joinNs (path : list ascii) : prog unit :=
  f <- sys (Open path O_RDONLY 0) ;;
  match f with
  | Err e => perrorExit e ($"open")
  | Ok fd =>
      s <- sys (Setns fd 0) ;;
      match s with Err e => perrorExit e ($"setns") | Ok _ => Ret tt end
  end.

Definition ns_exec_main (argv : list (list ascii)) : prog unit :=
  if (length argv <? 3)%nat then
    print Stderr (argv_nth argv 0 ++ $" /proc/PID/ns/FILE cmd [arg...]" ++ [NL]) ;;; Halt (Exit EXIT_FAILURE)
  else joinNs (argv_nth argv 1) ;;; execArgs (drop 2 argv) (fun e => perrorExit e ($"execvp")).

(** ** ns_run.c *)

Definition nsRunUsage {A} (pname : list ascii) : prog A :=
  usageLines [$"Usage: " ++ pname ++ $" [-f] [-n /proc/PID/ns/FILE] cmd [arg...]";
              "009"%char :: $"-f     Execute command in child process"; "009"%char :: $"-n     Join specified namespace"].

Fixpoint nsRunOptions (pname : list ascii) (opts : list (ascii * list ascii)) (do_fork : bool) : prog bool :=
  match opts with
  | [] => Ret do_fork
  | (opt, optarg) :: opts =>
      if Ascii.eqb opt "n" then joinNs optarg ;;; nsRunOptions pname opts do_fork
      else if Ascii.eqb opt "f" then nsRunOptions pname opts true
      else nsRunUsage pname
  end.

Definition ns_run_main (argv0 : list ascii) (opts : list (ascii * list ascii)) (args : list (list ascii)) : prog unit :=
  do_fork <- nsRunOptions argv0 opts false ;;
  if (length args =? 0)%nat then nsRunUsage argv0
  else
    (if (do_fork : bool) then
       f <- sys Fork ;;
       match f with
       | Err e => perrorExit e ($"fork")
       | Ok pid =>
           if pid =? 0 then Ret tt
           else
             w <- sys (Waitpid (-1) 0) ;;
             match w with Err e => perrorExit e ($"waitpid") | Ok _ => Halt (Exit EXIT_SUCCESS) end
       end
     else Ret tt) ;;;
    execArgs args (fun e => perrorExit e ($"execvp")).

(** ** ns_exec_map.c *)

Definition update_self_map (id : Z) (map_file : list ascii) : prog unit :=
  let map_buf := snprintf MAP_BUF_SIZE ($"0 " ++ dec id ++ $" 1") in
  f <- sys (Open map_file O_RDWR 0) ;;
  match f with
  | Err e => errExit e ($"open " ++ map_file)
  | Ok fd =>
      w <- sys (Write fd map_buf) ;;
      if match w with Ok n => n =? strlen map_buf | Err _ => false end
      then sys (Close fd) ;;; Ret tt
      else fatal ($"write: " ++ map_file ++ $" : " ++ map_buf)
  end.

Definition proc_self_setgroups_write (str : list ascii) : prog unit :=
  f <- sys (Open ($"/proc/self/setgroups") O_RDWR 0) ;;
  match f with
  | Err e => if e =? ENOENT then Ret tt else errExit e ($"open setgroups")
  | Ok fd =>
      w <- sys (Write fd str) ;;
      if match w with Ok n => n =? strlen str | Err _ => false end
      then sys (Close fd) ;;; Ret tt
      else fatal ($"write setgroups")
  end.

Definition ns_exec_map_main (argv : list (list ascii)) : prog unit :=
  if (length argv <? 3)%nat then
    print Stderr (argv_nth argv 0 ++ $" userns-file cmd [arg...]" ++ [NL]) ;;; Halt (Exit EXIT_FAILURE)
  else
    euid <- sys Geteuid ;;
    egid <- sys Getegid ;;
    f <- sys (Open (argv_nth argv 1) O_RDONLY 0) ;;
    match f with
    | Err e => errExit e ($"open")
    | Ok fd =>
        s <- sys (Setns fd CLONE_NEWUSER) ;;
        match s with
        | Err e => errExit e ($"setns")
        | Ok _ =>
            update_self_map euid ($"/proc/self/uid_map") ;;;
            proc_self_setgroups_write ($"deny") ;;;
            update_self_map egid ($"/proc/self/gid_map") ;;;
            execArgs (drop 2 argv) (fun e => errExit e ($"execvp"))
        end
    end.

(** ** ns_child_exec.c *)

Definition nsChildUsage {A} (pname : list ascii) : prog A :=
  usageLines [$"Usage: " ++ pname ++ $" [options] cmd [arg...]"; $"Options can be:";
              $"    -C   new cgroup namespace"; $"    -i   new IPC namespace"; $"    -m   new mount namespace"; $"    -n   new network namespace";
              $"    -p   new PID namespace"; $"    -u   new UTS namespace"; $"    -U   new user namespace"; $"    -v   Display verbose messages"].

(** The start function of the child. *)
Definition nsChildFunc (args : list (list ascii)) : prog unit := execArgs args (fun e => perrorExit e ($"execvp")).

Definition ns_child_exec_main (argv0 : list ascii) (opts : list (ascii * list ascii)) (args : list (list ascii)) : prog unit :=
  '(flags, verbose) <- nsOptions "v" (nsChildUsage argv0) opts 0 false ;;
  if (length args =? 0)%nat then nsChildUsage argv0
  else
    ok <- sys (Alloc STACK_SIZE) ;;
    if negb (ok : bool) then perrorExit ENOMEM ($"malloc")
    else
      c <- sys (Clone (Z.lor flags SIGCHLD)) ;;
      match c with
      | Err e => perrorExit e ($"clone")
      | Ok child_pid =>
          (if (verbose : bool) then print Stdout (argv0 ++ $": PID of child created by clone() is " ++ dec child_pid ++ [NL]) else Ret tt) ;;;
          w <- sys (Waitpid child_pid 0) ;;
          match w with
          | Err e => perrorExit e ($"waitpid")
          | Ok _ => (if (verbose : bool) then print Stdout (argv0 ++ $": terminating" ++ [NL]) else Ret tt) ;;; Halt (Exit EXIT_SUCCESS)
          end
      end.

(** ** cred_launcher.c *)

Record cred_opts := CredOpts { newuid : Z; newgid : Z; cr_verbose : bool }.

Fixpoint launchOptions (usage : prog cred_opts) (opts : list (ascii * list ascii)) (o : cred_opts) : prog cred_opts :=
  match opts with
  | [] => Ret o
  | (opt, optarg) :: opts =>
      if Ascii.eqb opt "g" then launchOptions usage opts (CredOpts (newuid o) (atoi optarg) (cr_verbose o))
      else if Ascii.eqb opt "u" then launchOptions usage opts (CredOpts (atoi optarg) (newgid o) (cr_verbose o))
      else if Ascii.eqb opt "v" then launchOptions usage opts (CredOpts (newuid o) (newgid o) true)
      else usage
  end.

Definition credUsage {A} (pname : list ascii) : prog A := usageLines [$"Usage: " ++ pname ++ $" [-u UID] [-g GID] [-v] command [arg...]"].

Definition cred_launcher_main (argv0 : list ascii) (opts : list (ascii * list ascii)) (args : list (list ascii)) : prog unit :=
  o <- launchOptions (credUsage argv0) opts (CredOpts (-1) (-1) false) ;;
  if (length args =? 0)%nat then credUsage argv0
  else
    (if negb (newgid o =? -1) then
       g <- sys (Setresgid (newgid o) (newgid o) (newgid o)) ;;
       match g with Err e => errExit e ($"setresuid") | Ok _ => Ret tt end
     else Ret tt) ;;;
    (if negb (newuid o =? -1) then
       u <- sys (Setresuid (newuid o) (newuid o) (newuid o)) ;;
       match u with Err e => errExit e ($"setresuid") | Ok _ => Ret tt end
     else Ret tt) ;;;
    (if cr_verbose o then display_creds_and_caps [] else Ret tt) ;;;
    execArgs args (fun e => errExit e ($"execvp")).

(** ** cap/cap_launcher.c *)

Definition capUsage {A} (pname : list ascii) : prog A :=
  usageLines [$"Usage: " ++ pname ++ $" user cap,... cmd arg...";
              TAB :: $"'user' is the user with whose credentials"; TAB :: TAB :: $"the program is to be launched";
              TAB :: $"'cap,...' is the set of capabilities with which"; TAB :: TAB :: $"the program is to be launched";
              TAB :: $"'cmd' and 'arg...' specify the command plus"; TAB :: TAB :: $"for the program that is to be launched"].

(** The first call of getgrouplist() is made with no array, for the number of groups. *)
Definition setCredentials (user : list ascii) : prog unit :=
  pwd <- sys (Getpwnam user) ;;
  match pwd with
  | None => print Stderr ($"Unknown user: " ++ user ++ [NL]) ;;; Halt (Exit EXIT_FAILURE)
  | Some (pw_uid, pw_gid) =>
      g0 <- sys (Getgrouplist user pw_gid 0) ;;
      let ngroups := fst g0 in
      ok <- sys (Alloc (ngroups * 4)) ;;
      if negb (ok : bool) then errExit ENOMEM ($"calloc")
      else
        g <- sys (Getgrouplist user pw_gid ngroups) ;;
        match snd g with
        | Err e => errExit e ($"getgrouplist")
        | Ok groups =>
            s <- sys (Setgroups groups) ;;
            match s with
            | Err e => errExit e ($"setgroups")
            | Ok _ =>
                s <- sys (Setresgid pw_gid pw_gid pw_gid) ;;
                match s with
                | Err e => errExit e ($"setresgid")
                | Ok _ =>
                    s <- sys (Setresuid pw_uid pw_uid pw_uid) ;;
                    match s with Err e => errExit e ($"setresuid") | Ok _ => Ret tt end
                end
            end
        end
  end.

(** modifyCapSetting() of cap/cap_functions.c with the errno of a failure, which its
    caller displays here. *)
Definition modifyCapErrno (flag capability setting : Z) : prog (res unit) :=
  r <- sys Cap_get_proc ;;
  match r with
  | Err e => Ret (Err e)
  | Ok caps =>
      let freeAnd e := f <- sys (Cap_free (inl caps)) ;; Ret (Err (match f with Err e' => e' | Ok _ => e end)) in
      r <- sys (Cap_set_flag caps flag capability setting) ;;
      match r with
      | Err e => freeAnd e
      | Ok _ =>
          r <- sys (Cap_set_proc caps) ;;
          match r with
          | Err e => freeAnd e
          | Ok _ => sys (Cap_free (inl caps))
          end
      end
  end.

(** The tokens that strtok() delivers for the delimiter ','. *)
Fixpoint strtok_from (s token : list ascii) : list (list ascii) :=
  let flush rest := match token with [] => rest | _ => token :: rest end in
  match s with
  | [] => flush []
  | c :: s => if Ascii.eqb c "," then flush (strtok_from s []) else strtok_from s (token ++ [c])
  end.

Fixpoint setAmbientCapabilities (names : list (list ascii)) : prog unit :=
  match names with
  | [] => Ret tt
  | p :: names =>
      c <- sys (Cap_from_name p) ;;
      match c with
      | Err _ => print Stderr ($"Unrecognized capability name: " ++ p ++ [NL]) ;;; Halt (Exit EXIT_FAILURE)
      | Ok cap =>
          m <- modifyCapErrno CAP_INHERITABLE cap CAP_SET ;;
          match m with
          | Err e => print Stderr ($"Could not raise '" ++ p ++ $"' inheritable capability (" ++ strerror e ++ $")" ++ [NL]) ;;; Halt (Exit EXIT_FAILURE)
          | Ok _ =>
              r <- sys (Prctl PR_CAP_AMBIENT PR_CAP_AMBIENT_RAISE cap) ;;
              match r with
              | Err e => print Stderr ($"Could not raise '" ++ p ++ $"' ambient capability (" ++ strerror e ++ $")" ++ [NL]) ;;; Halt (Exit EXIT_FAILURE)
              | Ok _ => setAmbientCapabilities names
              end
          end
      end
  end.

Definition cap_launcher_main (argv : list (list ascii)) : prog unit :=
  if (length argv <? 4)%nat || is_help argv then capUsage (argv_nth argv 0)
  else
    euid <- sys Geteuid ;;
    if negb (euid =? 0) then fatal ($"Must be run as root")
    else
      r <- sys (Prctl PR_SET_SECUREBITS SECBIT_NO_SETUID_FIXUP 0) ;;
      match r with
      | Err e => errExit e ($"prctl")
      | Ok _ =>
          setCredentials (argv_nth argv 1) ;;;
          setAmbientCapabilities (strtok_from (argv_nth argv 2) []) ;;;
          execArgs (drop 3 argv) (fun e => errExit e ($"execvp"))
      end.
End Launchers.

(** ** What a process has changed *)

Inductive act := Unshared (flags : Z) | Joined (path : list ascii) (nstype : Z) | Gids (rgid egid sgid : Z) | Uids (ruid euid suid : Z) | Wrote (path text : list ascii)
| Groups (groups : list Z) | Control (option arg arg2 : Z) | CapFlag (flag value setting : Z) | CapsSet.

(** The pathname with which a descriptor was opened. *)
Definition opens (fd : Z) {X} (c : call X) : X -> option (list ascii) :=
  match c in call X return X -> option (list ascii) with
  | Open path _ _ => fun r => match r with Ok x => if x =? fd then Some path else None | Err _ => None end
  | _ => fun _ => None
  end.

Fixpoint path_at (fd : Z) (h : history) : list ascii :=
  match h with [] => [] | Ev c r :: h => match opens fd c r with Some path => path | None => path_at fd h end end.

Definition act_of (h : history) {X} (c : call X) : X -> list act :=
  match c in call X return X -> list act with
  | Unshare flags => fun r => match r with Ok _ => [Unshared flags] | Err _ => [] end
  | Setns fd nstype => fun r => match r with Ok _ => [Joined (path_at fd h) nstype] | Err _ => [] end
  | Setresgid a b c => fun r => match r with Ok _ => [Gids a b c] | Err _ => [] end
  | Setresuid a b c => fun r => match r with Ok _ => [Uids a b c] | Err _ => [] end
  | Setgroups l => fun r => match r with Ok _ => [Groups l] | Err _ => [] end
  | Prctl a b c => fun r => match r with Ok _ => [Control a b c] | Err _ => [] end
  | Cap_set_flag _ f v s => fun r => match r with Ok _ => [CapFlag f v s] | Err _ => [] end
  | Cap_set_proc _ => fun r => match r with Ok _ => [CapsSet] | Err _ => [] end
  | Write fd d => fun r => match r with Ok n => [Wrote (path_at fd h) (take (Z.to_nat n) d)] | Err _ => [] end
  | _ => fun _ => []
  end.

Fixpoint acts (h : history) : list act := match h with [] => [] | Ev c r :: h => acts h ++ act_of h c r end.


(** The replies to fork(). *)
Fixpoint forks (h : history) : list (res Z) :=
  match h with
  | [] => []
  | Ev c r :: h => match c in call X return X -> list (res Z) with Fork => fun r => [r] | _ => fun _ => [] end r ++ forks h
  end.

(** ** What was asked for *)

Definition given (c : ascii) (opts : list (ascii * list ascii)) : bool := existsb (fun o => Ascii.eqb (fst o) c) opts.

Definition ns_letters : list (ascii * Z) :=
  [("C"%char, CLONE_NEWCGROUP); ("i"%char, CLONE_NEWIPC); ("m"%char, CLONE_NEWNS); ("n"%char, CLONE_NEWNET);
   ("p"%char, CLONE_NEWPID); ("u"%char, CLONE_NEWUTS); ("U"%char, CLONE_NEWUSER)].

Definition lor_of (P : ascii -> bool) (letters : list (ascii * Z)) : Z :=
  fold_right (fun l acc => Z.lor (if P (fst l) then snd l else 0) acc) 0 letters.

(** The namespaces whose letters are among the options. *)
Definition ns_flags (opts : list (ascii * list ascii)) : Z := lor_of (fun c => given c opts) ns_letters.

Definition joins (opts : list (ascii * list ascii)) : list act :=
  flat_map (fun o => if Ascii.eqb (fst o) "n" then [Joined (snd o) 0] else []) opts.

(** The number given with the last option [c], [d] without one. *)
Definition last_number (d : Z) (c : ascii) (opts : list (ascii * list ascii)) : Z :=
  default d (atoi ∘ snd <$> last (filter (fun o => Ascii.eqb (fst o) c = true) opts)).

Definition only_letters (letters : list ascii) (opts : list (ascii * list ascii)) : Prop := Forall (fun o => fst o ∈ letters) opts.

(** The map of one identifier to the root of the namespace. *)
Definition root_map (id : Z) : list ascii := $"0 " ++ dec id ++ $" 1".

(** What ns_exec_map has done when it executes the command: it read the identifiers first,
    joined the namespace, and wrote the maps with setgroups denied in between, unless
    the file setgroups does not exist. *)
Definition mapped (file : list ascii) (h : history) : Prop :=
  exists u g k deny, h = k ++ [Ev Getegid g; Ev Geteuid u] /\
    acts h = [Joined file CLONE_NEWUSER; Wrote ($"/proc/self/uid_map") (root_map u)] ++ deny ++ [Wrote ($"/proc/self/gid_map") (root_map g)] /\
    (deny = [Wrote ($"/proc/self/setgroups") ($"deny")] \/
     deny = [] /\ Ev (Open ($"/proc/self/setgroups") O_RDWR 0) (Err ENOENT) ∈ h).

(** The group identifiers are changed first, while the process may still change them. *)
Definition new_ids (uid gid : Z) : list act :=
  (if gid =? -1 then [] else [Gids gid gid gid]) ++ (if uid =? -1 then [] else [Uids uid uid uid]).

Definition raised (cap : Z) : list act :=
  [CapFlag CAP_INHERITABLE cap CAP_SET; CapsSet; Control PR_CAP_AMBIENT PR_CAP_AMBIENT_RAISE cap].

(** What cap_launcher has done when it executes the command: the identifiers and groups are
    those that the databases name for the user, and capabilities survive the change of the
    user identifiers because the securebit was set before. *)
Definition capable_user (user capList : list ascii) (h : history) : Prop :=
  exists uid gid n groups caps,
    Ev Geteuid 0 ∈ h /\ Ev (Getpwnam user) (Some (uid, gid)) ∈ h /\
    Ev (Getgrouplist user gid n) (Z.of_nat (length groups), Ok groups) ∈ h /\
    Forall2 (fun name cap => Ev (Cap_from_name name) (Ok cap) ∈ h) (strtok_from capList []) caps /\
    acts h = [Control PR_SET_SECUREBITS SECBIT_NO_SETUID_FIXUP 0; Groups groups; Gids gid gid gid; Uids uid uid uid] ++
             flat_map raised caps.

(** The process executes the command of [args] after [done], or it fails. *)
Definition launches (args : list (list ascii)) (done : history -> Prop) (o : outcome unit) (h : history) : Prop :=
  (exists cmd rest, args = cmd :: rest /\ o = Stop (Execed cmd args) /\ done h) \/ stops_failing o.

(** ** The loops over the options *)

Lemma lor_of_orb P R l : lor_of (fun c => P c || R c) l = Z.lor (lor_of P l) (lor_of R l).
Proof.
  unfold lor_of. induction l as [|[c f] l IH]; cbn [fold_right fst snd]; [done|]. rewrite IH. apply Z.bits_inj'. intros n _.
  rewrite !Z.lor_spec. destruct (P c), (R c); cbn [orb]; rewrite ?Z.bits_0; repeat (destruct (Z.testbit _ n)); done.
Qed.

Section Options.
Context (E : env).

Lemma ns_flags_cons c a opts : ns_flags ((c, a) :: opts) = Z.lor (lor_of (Ascii.eqb c) ns_letters) (ns_flags opts).
Proof. apply lor_of_orb. Qed.

Lemma wp_nsOptions extra usage opts flags ch (Q : outcome (Z * bool) -> history -> Prop) h :
  (forall h', wp E usage Q h') -> lor_of (Ascii.eqb extra) ns_letters = 0 ->
  (only_letters (extra :: map fst ns_letters) opts -> Q (Done (Z.lor flags (ns_flags opts), ch || given extra opts)) h) ->
  wp E (nsOptions extra usage opts flags ch) Q h.
Proof.
  intros Hu Hx. revert flags ch. induction opts as [|[c a] opts IH]; intros flags ch HQ; cbn [nsOptions].
  { specialize (HQ (Forall_nil_2 _)). cbn [given existsb] in HQ. rewrite orb_false_r in HQ. change (ns_flags []) with 0 in HQ.
    by rewrite Z.lor_0_r in HQ. }
  rewrite ns_flags_cons in HQ. change (given extra ((c, a) :: opts)) with (Ascii.eqb c extra || given extra opts) in HQ.
  assert (c ∈ extra :: map fst ns_letters -> only_letters (extra :: map fst ns_letters) opts ->
          only_letters (extra :: map fst ns_letters) ((c, a) :: opts)) as Hin by (by intros; constructor).
  destruct (Ascii.eqb_spec c extra) as [->|Hc].
  { apply IH. intros Ho. rewrite Hx, Z.lor_0_l, orb_true_l, orb_true_r in HQ. apply HQ, Hin; [by left|done]. }
  repeat (match goal with |- context [if Ascii.eqb c ?l then _ else _] => destruct (Ascii.eqb_spec c l) as [->|] end;
          [apply IH; intros Ho; rewrite <- Z.lor_assoc; apply HQ, Hin; [cbn; set_solver|done]|]).
  apply Hu.
Qed.

Lemma last_number_cons d c o opts :
  last_number d c (o :: opts) = last_number (if Ascii.eqb (fst o) c then atoi (snd o) else d) c opts.
Proof.
  unfold last_number. rewrite filter_cons. destruct (Ascii.eqb (fst o) c); cbn [decide]; [|done].
  rewrite decide_True by done. rewrite last_cons. by destruct (last _).
Qed.

Lemma wp_launchOptions usage opts o (Q : outcome cred_opts -> history -> Prop) h :
  (forall h', wp E usage Q h') ->
  (only_letters ["g"%char; "u"%char; "v"%char] opts ->
   Q (Done (CredOpts (last_number (newuid o) "u" opts) (last_number (newgid o) "g" opts) (cr_verbose o || given "v" opts))) h) ->
  wp E (launchOptions usage opts o) Q h.
Proof.
  intros Hu. revert o. induction opts as [|[c a] opts IH]; intros [u g v] HQ; cbn [launchOptions newuid newgid cr_verbose] in *.
  { rewrite orb_false_r in HQ. by apply HQ, Forall_nil_2. }
  rewrite !last_number_cons in HQ. change (given "v" ((c, a) :: opts)) with (Ascii.eqb c "v" || given "v" opts) in HQ.
  cbn [fst snd] in HQ.
  repeat (match goal with |- context [if Ascii.eqb c ?l then _ else _] => destruct (Ascii.eqb_spec c l) as [->|] end;
          [apply IH; cbn [newuid newgid cr_verbose]; intros Ho; cbn in HQ; rewrite ?orb_true_r in HQ; apply HQ;
           (constructor; [cbn; set_solver|done])|]).
  apply Hu.
Qed.
End Options.

(** ** The programs *)

Definition failing (s : halt) : Prop := s = Aborted \/ s = Exit EXIT_FAILURE \/ s = Exit_ EXIT_FAILURE.

Lemma launches_failing args done s h : failing s -> launches args done (Stop s) h.
Proof. intros [->|[->| ->]]; right; unfold stops_failing; auto. Qed.

Lemma of_failing {A} (Q : outcome A -> history -> Prop) :
  (forall s h, failing s -> Q (Stop s) h) -> forall o h, stops_failing o -> Q o h.
Proof. intros HQ o h [->|[->| ->]]; apply HQ; unfold failing; auto. Qed.

Section Programs.
Context {T : ErrText}.

Section Failing.
Context {A : Type} (Q : outcome A -> history -> Prop) (HQ : forall s h, failing s -> Q (Stop s) h).

Lemma perror_fails e msg h : wp posix (perrorExit e msg) Q h.
Proof. apply wp_perrorExit. intros o k Ho _. by apply (of_failing Q). Qed.

Lemma errExit_fails e msg h : wp posix (errExit e msg) Q h.
Proof. apply wp_errExit. intros o h' Ho. by apply (of_failing Q). Qed.

Lemma fatal_fails msg h : wp posix (fatal msg) Q h.
Proof. apply wp_fatal. intros o h' Ho. by apply (of_failing Q). Qed.

Lemma usage_fails lines h : wp posix (usageLines lines) Q h.
Proof. apply wp_usageLines. intros o k Ho _. by apply (of_failing Q). Qed.
End Failing.

Lemma wp_execArgs args bad (done : history -> Prop) (R : outcome unit -> history -> Prop) h :
  args <> [] -> (forall o h', launches args done o h' -> R o h') -> (forall e h', wp posix (bad e) R h') ->
  (forall cmd, done (Ev (Execvp cmd args) None :: h)) -> wp posix (execArgs args bad) R h.
Proof.
  intros Ha HR Hb Hd. destruct args as [|cmd rest]; [done|]. intros [e|] _; [apply Hb|]. apply HR. left. by exists cmd, rest.
Qed.

Lemma wp_joinNs path (Q : outcome unit -> history -> Prop) h :
  (forall s h', failing s -> Q (Stop s) h') ->
  (forall h', acts h' = acts h ++ [Joined path 0] -> forks h' = forks h -> Q (Done tt) h') -> wp posix (joinNs path) Q h.
Proof.
  intros Hf HQ. intros [fd|e] _; [|by apply perror_fails]. intros [[]|e] _; [|by apply perror_fails].
  apply HQ; [|done]. cbn. by rewrite Z.eqb_refl, app_nil_r.
Qed.

Lemma unshare_spec argv0 opts args :
  wp posix (unshare_main argv0 opts args) (fun o h =>
    launches args (fun h => only_letters ("f"%char :: map fst ns_letters) opts /\ acts h = [Unshared (ns_flags opts)] /\
                            forks h = if given "f" opts then [Ok 0] else []) o h \/
    o = Stop (Exit EXIT_SUCCESS) /\ given "f" opts = true /\ acts h = [Unshared (ns_flags opts)] /\
    exists r, forks h = [r] /\ r <> Ok 0) [].
Proof.
  assert (forall P Q s (h : history), failing s -> launches args P (Stop s) h \/ Q) as Hf by (left; by apply launches_failing).
  apply wp_bind, wp_nsOptions; [intros; apply usage_fails; intros; by apply Hf|done|]. intros Ho. rewrite Z.lor_0_l. cbn [orb].
  destruct (Nat.eqb_spec (length args) 0); [apply usage_fails; intros; by apply Hf|].
  assert (args <> []) as Hne by (by destruct args).
  intros [[]|e] _; [|apply perror_fails; intros; by apply Hf]. destruct (given "f" opts) eqn:Hg.
  - intros r _. cbn [bind]. destruct r as [pid|e]; [destruct (Z.eqb_spec pid 0) as [->|Hp]|].
    + eapply wp_execArgs; [done|intros o h H; left; exact H|intros; apply perror_fails; intros; by apply Hf|done].
    + intros w _. right. split_and!; [done..|]. exists (Ok pid). split; [done|]. by intros [= ->].
    + intros w _. right. split_and!; [done..|]. by exists (Err e).
  - eapply wp_execArgs; [done|intros o h H; left; exact H|intros; apply perror_fails; intros; by apply Hf|done].
Qed.

Lemma ns_exec_spec argv :
  wp posix (ns_exec_main argv) (launches (drop 2 argv) (fun h => acts h = [Joined (argv_nth argv 1) 0])) [].
Proof.
  unfold ns_exec_main. destruct (Nat.ltb_spec (length argv) 3); [by intros [] _; right; unfold stops_failing; auto|].
  apply wp_bind, wp_joinNs; [apply launches_failing|]. intros h Ha _.
  eapply wp_execArgs; [|done|intros; apply perror_fails, launches_failing|intros; cbn; by rewrite Ha, app_nil_r].
  intros H0. apply (f_equal length) in H0. rewrite length_drop in H0. cbn in H0. lia.
Qed.

Lemma wp_nsRunOptions pname opts b (Q : outcome bool -> history -> Prop) h :
  (forall s h', failing s -> Q (Stop s) h') ->
  (forall h', only_letters ["n"%char; "f"%char] opts -> acts h' = acts h ++ joins opts -> forks h' = forks h ->
              Q (Done (b || given "f" opts)) h') -> wp posix (nsRunOptions pname opts b) Q h.
Proof.
  intros Hf. revert b h. induction opts as [|[c a] opts IH]; intros b h HQ; cbn [nsRunOptions].
  { rewrite orb_false_r in HQ. apply HQ; [apply Forall_nil_2|by rewrite app_nil_r|done]. }
  change (given "f" ((c, a) :: opts)) with (Ascii.eqb c "f" || given "f" opts) in HQ.
  destruct (Ascii.eqb_spec c "n") as [->|Hn]; [|destruct (Ascii.eqb_spec c "f") as [->|_]; [|by apply usage_fails]].
  - apply wp_bind, wp_joinNs; [done|]. intros h1 Ha1 Hk1. apply IH. intros h2 Ho Ha2 Hk2.
    apply HQ; [constructor; [cbn; set_solver|done]| |congruence]. by rewrite Ha2, Ha1, <- app_assoc.
  - apply IH. intros h2 Ho Ha2 Hk2. rewrite orb_true_l, orb_true_r in HQ. apply HQ; [constructor; [cbn; set_solver|done]|done..].
Qed.

Lemma ns_run_spec argv0 opts args :
  wp posix (ns_run_main argv0 opts args) (fun o h =>
    launches args (fun h => only_letters ["n"%char; "f"%char] opts /\ acts h = joins opts /\
                            forks h = if given "f" opts then [Ok 0] else []) o h \/
    o = Stop (Exit EXIT_SUCCESS) /\ given "f" opts = true /\ acts h = joins opts /\
    exists pid st h', forks h = [Ok pid] /\ pid <> 0 /\ h = Ev (Waitpid (-1) 0) (Ok st) :: h') [].
Proof.
  assert (forall P Q s (h : history), failing s -> launches args P (Stop s) h \/ Q) as Hf by (left; by apply launches_failing).
  apply wp_bind, wp_nsRunOptions; [intros; by apply Hf|]. intros h Ho Ha Hk. cbn in Ha, Hk. rewrite orb_false_l.
  destruct (Nat.eqb_spec (length args) 0); [apply usage_fails; intros; by apply Hf|].
  assert (args <> []) as Hne by (by destruct args). destruct (given "f" opts) eqn:Hg.
  - intros r _. cbn [bind]. destruct r as [pid|e]; [|apply wp_bind, perror_fails; intros; by apply Hf].
    destruct (Z.eqb_spec pid 0) as [->|Hp].
    + eapply wp_execArgs; [done|intros o h1 H; left; exact H|intros; apply perror_fails; intros; by apply Hf|].
      intros cmd. cbn. by rewrite Ha, Hk, !app_nil_r.
    + intros [st|e] _; [|apply wp_bind, perror_fails; intros; by apply Hf]. right. cbn. rewrite Ha, Hk, !app_nil_r.
      split_and!; [done..|]. by exists pid, st, (Ev Fork (Ok pid) :: h).
  - eapply wp_execArgs; [done|intros o h1 H; left; exact H|intros; apply perror_fails; intros; by apply Hf|].
    intros cmd. cbn. by rewrite Ha, Hk, app_nil_r.
Qed.

Lemma length_root_map id : 0 <= id < 2 ^ 32 -> (length (root_map id) <= 99)%nat.
Proof.
  intros Hid. unfold root_map, dec, dec_nonneg. rewrite (proj2 (Z.ltb_ge id 0)) by lia.
  pose proof (dec_go_length (S (Z.to_nat (Z.log2 id))) id [] 10 ltac:(lia) ltac:(change (10 ^ Z.of_nat 10) with 10000000000; lia)).
  len.
Qed.

(** open(), write() and close() on a file of /proc, where only a full write is accepted. *)
Lemma wp_procWrite path text (bad : Z -> prog unit) msg (Q : outcome unit -> history -> Prop) h :
  (forall s h', failing s -> Q (Stop s) h') ->
  (forall e, wp posix (bad e) Q (Ev (Open path O_RDWR 0) (Err e) :: h)) ->
  (forall k, acts (k ++ h) = acts h ++ [Wrote path text] -> Q (Done tt) (k ++ h)) ->
  wp posix (f <- sys (Open path O_RDWR 0) ;;
            match f with
            | Err e => bad e
            | Ok fd =>
                w <- sys (Write fd text) ;;
                if match w with Ok n => n =? strlen text | Err _ => false end
                then sys (Close fd) ;;; Ret tt
                else fatal msg
            end) Q h.
Proof.
  intros Hf Hb HQ. intros [fd|e] _; [|apply Hb]. intros [n|e] _; [|by apply fatal_fails]. cbn [bind].
  destruct (Z.eqb_spec n (strlen text)) as [->|_]; [|by apply fatal_fails]. intros r _.
  apply (HQ [_; _; _]). cbn. rewrite Z.eqb_refl, !app_nil_r. unfold strlen. by rewrite Nat2Z.id, firstn_all.
Qed.

Lemma wp_update_self_map id file (Q : outcome unit -> history -> Prop) h :
  0 <= id < 2 ^ 32 -> (forall s h', failing s -> Q (Stop s) h') ->
  (forall k, acts (k ++ h) = acts h ++ [Wrote file (root_map id)] -> Q (Done tt) (k ++ h)) -> wp posix (update_self_map id file) Q h.
Proof.
  intros Hid Hf HQ. unfold update_self_map, snprintf, MAP_BUF_SIZE. change (100 - 1)%nat with 99%nat. fold (root_map id).
  rewrite (take_ge (root_map id)) by (by apply length_root_map). apply wp_procWrite; [done|intros e; by apply errExit_fails|done].
Qed.

Lemma ns_exec_map_spec argv :
  wp posix (ns_exec_map_main argv) (launches (drop 2 argv) (mapped (argv_nth argv 1))) [].
Proof.
  unfold ns_exec_map_main. destruct (Nat.ltb_spec (length argv) 3); [by intros [] _; right; unfold stops_failing; auto|].
  set (R := launches _ _). assert (forall s h, failing s -> R (Stop s) h) as Hf by (apply launches_failing).
  intros u Hu g Hg. cbn in Hu, Hg. intros [fd|e] _; [|by apply errExit_fails]. intros [[]|e] _; [|by apply errExit_fails].
  set (h0 := [_; _; _; _]).
  assert (acts h0 = [Joined (argv_nth argv 1) CLONE_NEWUSER]) as H0 by (cbn; by rewrite Z.eqb_refl).
  cbn [bind]. apply wp_bind, wp_update_self_map; [done..|]. intros k1 H1.
  eapply (wp_call _ _ _ (fun o h => match o with
    | Done _ => exists k deny, h = k ++ h0 /\ acts h = acts (k1 ++ h0) ++ deny /\
        (deny = [Wrote ($"/proc/self/setgroups") ($"deny")] \/ deny = [] /\ Ev (Open ($"/proc/self/setgroups") O_RDWR 0) (Err ENOENT) ∈ h)
    | Stop s => failing s end)); [| |by intros; apply Hf].
  - apply wp_procWrite; [done| |].
    + intros e. destruct (Z.eqb_spec e ENOENT) as [->|_]; [|by apply errExit_fails].
      exists (Ev (Open ($"/proc/self/setgroups") O_RDWR 0) (Err ENOENT) :: k1), []. split_and!; [done|cbn; by rewrite !app_nil_r|].
      right. split; [done|]. by left.
    + intros k Hk. exists (k ++ k1), [Wrote ($"/proc/self/setgroups") ($"deny")]. rewrite <- app_assoc. auto.
  - intros [] h (k & deny & -> & Ha & Hd). apply wp_bind, wp_update_self_map; [done..|]. intros k3 H3.
    eapply wp_execArgs; [|by intros o h H4; exact H4|by intros; apply errExit_fails|].
    + intros Hn. apply (f_equal length) in Hn. rewrite length_drop in Hn. cbn in Hn. lia.
    + intros cmd. exists u, g, (Ev (Execvp cmd (drop 2 argv)) None :: k3 ++ k ++ [Ev (Setns fd CLONE_NEWUSER) (Ok ()); Ev (Open (argv_nth argv 1) O_RDONLY 0) (Ok fd)]), deny.
      split_and!; [cbn; by rewrite <- !app_assoc| |].
      * cbn [app acts act_of]. rewrite H3, Ha, H1, H0. cbn. by rewrite app_nil_r.
      * destruct Hd as [Hd|[Hd Hin]]; [by left|]. right. split; [done|]. right. apply elem_of_app. by right.
Qed.

Lemma ns_child_exec_spec argv0 opts args :
  wp posix (ns_child_exec_main argv0 opts args) (fun o h => stops_failing o \/
    o = Stop (Exit EXIT_SUCCESS) /\ only_letters ("v"%char :: map fst ns_letters) opts /\ args <> [] /\ acts h = [] /\
    exists pid st h1 h2 h3, h = h3 ++ Ev (Waitpid pid 0) (Ok st) :: h2 ++ Ev (Clone (Z.lor (ns_flags opts) SIGCHLD)) (Ok pid) :: h1) [].
Proof.
  assert (forall (P : Prop) s, failing s -> stops_failing (A:=unit) (Stop s) \/ P) as Hf.
  { intros P s [->|[->| ->]]; left; unfold stops_failing; auto. }
  apply wp_bind, wp_nsOptions; [intros; apply usage_fails; intros; by apply Hf|done|]. intros Ho. rewrite Z.lor_0_l. cbn [orb].
  destruct (Nat.eqb_spec (length args) 0); [apply usage_fails; intros; by apply Hf|].
  assert (args <> []) as Hne by (by destruct args). intros [] _; [|apply perror_fails; intros; by apply Hf].
  intros [pid|e] _; [|apply perror_fails; intros; by apply Hf]. destruct (given "v" opts); cbn [bind negb].
  - intros [] _ [st|e] _; [|apply perror_fails; intros; by apply Hf]. intros [] _. right. split_and!; [done..|].
    by exists pid, st, [Ev (Alloc STACK_SIZE) true], [Ev (Out Stdout (argv0 ++ $": PID of child created by clone() is " ++ dec pid ++ [NL])) tt],
      [Ev (Out Stdout (argv0 ++ $": terminating" ++ [NL])) tt].
  - intros [st|e] _; [|apply perror_fails; intros; by apply Hf]. right. split_and!; [done..|].
    by exists pid, st, [Ev (Alloc STACK_SIZE) true], [], [].
Qed.

Lemma nsChildFunc_spec args h : args <> [] -> wp posix (nsChildFunc args) (launches args (fun h' => acts h' = acts h)) h.
Proof. intros Ha. eapply wp_execArgs; [done..|intros; apply perror_fails, launches_failing|intros; cbn; by rewrite app_nil_r]. Qed.

Lemma display_keeps str (Q : outcome unit -> history -> Prop) h :
  (forall s h', failing s -> Q (Stop s) h') -> (forall h', acts h' = acts h -> Q (Done tt) h') ->
  wp posix (display_creds_and_caps str) Q h.
Proof.
  intros Hf HQ u _ g _ [] _. intros [caps|e] _; [|by apply errExit_fails]. intros [t|e] _; [|by apply errExit_fails].
  intros [] _ r _ r' _. apply HQ. cbn. by rewrite !app_nil_r.
Qed.

Lemma cred_launcher_spec argv0 opts args :
  wp posix (cred_launcher_main argv0 opts args)
    (launches args (fun h => only_letters ["g"%char; "u"%char; "v"%char] opts /\
                             acts h = new_ids (last_number (-1) "u" opts) (last_number (-1) "g" opts))) [].
Proof.
  set (R := launches _ _). assert (forall s h, failing s -> R (Stop s) h) as Hf by (apply launches_failing).
  apply wp_bind, wp_launchOptions; [by intros; apply usage_fails|]. intros Ho. cbn [newuid newgid cr_verbose orb].
  destruct (Nat.eqb_spec (length args) 0); [by apply usage_fails|]. assert (args <> []) as Hne by (by destruct args).
  unfold new_ids in R. set (u := last_number (-1) "u" opts) in *. set (g := last_number (-1) "g" opts) in *.
  apply (wp_call _ _ _ (fun o h => match o with Done _ => acts h = if g =? -1 then [] else [Gids g g g] | Stop s => failing s end));
    [destruct (g =? -1); [done|]; intros [[]|e] _; [done|by apply errExit_fails]| |done].
  intros _ h1 H1. apply (wp_call _ _ _ (fun o h => match o with Done _ => acts h = acts h1 ++ if u =? -1 then [] else [Uids u u u] | Stop s => failing s end));
    [destruct (u =? -1); [cbn; by rewrite app_nil_r|]; intros [[]|e] _; [done|by apply errExit_fails]| |done].
  intros _ h2 H2. apply (wp_call _ _ _ (fun o h => match o with Done _ => acts h = acts h2 | Stop s => failing s end));
    [destruct (given "v" opts); [by apply display_keeps|done]| |done].
  intros _ h3 H3. eapply wp_execArgs; [done|by intros o h H; exact H|by intros; apply errExit_fails|].
  intros cmd. split; [done|]. cbn. rewrite app_nil_r. congruence.
Qed.

Lemma wp_modifyCap flag cap setting (Q : outcome (res unit) -> history -> Prop) h :
  (forall e h', Q (Done (Err e)) h') ->
  (forall k, acts (k ++ h) = acts h ++ [CapFlag flag cap setting; CapsSet] -> Q (Done (Ok tt)) (k ++ h)) ->
  wp posix (modifyCapErrno flag cap setting) Q h.
Proof.
  intros Hf HQ. intros [c|e] _; [|apply Hf]. intros [[]|e] _; [|intros r _; apply Hf]. intros [[]|e] _; [|intros r _; apply Hf].
  intros [[]|e] _; [|apply Hf]. apply (HQ [_; _; _; _]). cbn. by rewrite !app_nil_r, <- app_assoc.
Qed.

Lemma wp_setAmbient names (Q : outcome unit -> history -> Prop) h :
  (forall s h', failing s -> Q (Stop s) h') ->
  (forall k caps, Forall2 (fun name cap => Ev (Cap_from_name name) (Ok cap) ∈ k) names caps ->
                  acts (k ++ h) = acts h ++ flat_map raised caps -> Q (Done tt) (k ++ h)) ->
  wp posix (setAmbientCapabilities names) Q h.
Proof.
  intros Hf. assert (forall h', Q (Stop (Exit EXIT_FAILURE)) h') as Hx by (intros; apply Hf; unfold failing; auto).
  revert h. induction names as [|p names IH]; intros h HQ; cbn [setAmbientCapabilities].
  { apply (HQ [] []); [constructor|by rewrite app_nil_r]. }
  intros [cap|e] _; [|intros [] _; apply Hx]. cbn [bind]. apply wp_bind, wp_modifyCap; [intros e h' [] _; apply Hx|]. intros k1 H1.
  intros [r|e] _; [|intros [] _; apply Hx]. cbn [bind]. apply IH. intros k2 caps H2 Ha.
  specialize (HQ (k2 ++ Ev (Prctl PR_CAP_AMBIENT PR_CAP_AMBIENT_RAISE cap) (Ok r) :: k1 ++ [Ev (Cap_from_name p) (Ok cap)]) (cap :: caps)).
  rewrite <- !app_assoc in HQ. cbn [app] in HQ. rewrite <- app_assoc in HQ. cbn [app] in HQ. apply HQ.
  - constructor; [rewrite !elem_of_app; right; right; set_solver|]. eapply Forall2_impl; [exact H2|]. intros x y ?. apply elem_of_app. by left.
  - rewrite Ha. cbn [acts act_of]. rewrite H1. cbn. by rewrite app_nil_r, <- !app_assoc.
Qed.

Lemma wp_setCredentials user (Q : outcome unit -> history -> Prop) h :
  (forall s h', failing s -> Q (Stop s) h') ->
  (forall k uid gid n groups, Ev (Getpwnam user) (Some (uid, gid)) ∈ k ->
     Ev (Getgrouplist user gid n) (Z.of_nat (length groups), Ok groups) ∈ k ->
     acts (k ++ h) = acts h ++ [Groups groups; Gids gid gid gid; Uids uid uid uid] -> Q (Done tt) (k ++ h)) ->
  wp posix (setCredentials user) Q h.
Proof.
  intros Hf HQ. intros [[uid gid]|] _; [|intros [] _; apply Hf; unfold failing; auto].
  intros g0 _. intros [] _; [|by apply errExit_fails]. intros [n [groups|e]] Hg; [|by apply errExit_fails].
  destruct Hg as (_ & Hl & _). cbn in Hl. subst n.
  intros [[]|e] _; [|by apply errExit_fails]. intros [[]|e] _; [|by apply errExit_fails]. intros [[]|e] _; [|by apply errExit_fails].
  apply (HQ [_; _; _; _; _; _; _] uid gid (fst g0) groups); [do 6 right; left|do 3 right; left|]. cbn. by rewrite !app_nil_r, <- !app_assoc.
Qed.

Lemma cap_launcher_spec argv :
  wp posix (cap_launcher_main argv) (launches (drop 3 argv) (capable_user (argv_nth argv 1) (argv_nth argv 2))) [].
Proof.
  set (R := launches _ _). assert (forall s h, failing s -> R (Stop s) h) as Hf by (apply launches_failing).
  unfold cap_launcher_main. destruct (Nat.ltb_spec (length argv) 4); [by apply usage_fails|]. cbn [orb].
  destruct (is_help argv); [by apply usage_fails|]. intros u _. cbn [bind].
  destruct (Z.eqb_spec u 0) as [->|_]; [|by apply fatal_fails]. intros [x|e] _; [|by apply errExit_fails]. cbn [bind].
  apply wp_bind, wp_setCredentials; [done|]. intros k1 uid gid n groups Hp Hg H1.
  apply wp_bind, wp_setAmbient; [done|]. intros k2 caps Hc H2.
  eapply wp_execArgs; [|by intros o h H3; exact H3|by intros; apply errExit_fails|].
  { intros Hn. apply (f_equal length) in Hn. rewrite length_drop in Hn. cbn in Hn. lia. }
  intros cmd. exists uid, gid, n, groups, caps. split_and!; [| | | |].
  - right. rewrite !elem_of_app. right. right. right. left.
  - right. rewrite !elem_of_app. auto.
  - right. rewrite !elem_of_app. auto.
  - eapply Forall2_impl; [exact Hc|]. intros y z ?. rewrite elem_of_cons, elem_of_app. auto.
  - cbn [acts act_of]. rewrite H2, H1. cbn. by rewrite app_nil_r.
Qed.
End Programs.

(** A kernel in which fork() fails. *)
Definition demo_fork_fails : kernel := fun h X c =>
  match c in call X return X with Unshare _ => Ok tt | c => failing_kernel h _ c end.

(** C16: Programs that change namespaces or credentials and execute a command.  A command
    is executed, with its arguments, only after exactly the changes that were asked for, in
    this order: unshare leaves the namespaces whose letters are among the options, in a new
    child if -f is one of them; ns_exec joins its namespace, and ns_run those of all options
    -n in turn; ns_exec_map reads its identifiers before it joins the user namespace, then
    maps them to root, the group only after setgroups was denied, unless the kernel has no
    such file; cred_launcher changes its group identifiers before its user identifiers, each
    to the last number that was given for it, if any; cap_launcher, as root, keeps its
    capabilities across the change of identifiers, takes on the groups and then the
    identifiers of the user, and raises exactly the listed capabilities, each in the
    inheritable set before the ambient one.  A process that is not to execute the
    command exits with success only as the parent: of unshare -f and ns_run -f, and of
    ns_child_exec, which creates a child in exactly the namespaces asked for and waits for
    it.  Everything else, an unknown option, a missing command or any failing call, ends
    with a failure status and without the command, except that unshare -f takes a failing
    fork() for a success. *)
Theorem launchers {T : ErrText} argv argv0 opts args :
  wp posix (unshare_main argv0 opts args) (fun o h =>
    launches args (fun h => only_letters ("f"%char :: map fst ns_letters) opts /\ acts h = [Unshared (ns_flags opts)] /\
                            forks h = if given "f" opts then [Ok 0] else []) o h \/
    o = Stop (Exit EXIT_SUCCESS) /\ given "f" opts = true /\ acts h = [Unshared (ns_flags opts)] /\
    exists r, forks h = [r] /\ r <> Ok 0) [] /\
  wp posix (ns_exec_main argv) (launches (drop 2 argv) (fun h => acts h = [Joined (argv_nth argv 1) 0])) [] /\
  wp posix (ns_run_main argv0 opts args) (fun o h =>
    launches args (fun h => only_letters ["n"%char; "f"%char] opts /\ acts h = joins opts /\
                            forks h = if given "f" opts then [Ok 0] else []) o h \/
    o = Stop (Exit EXIT_SUCCESS) /\ given "f" opts = true /\ acts h = joins opts /\
    exists pid st h', forks h = [Ok pid] /\ pid <> 0 /\ h = Ev (Waitpid (-1) 0) (Ok st) :: h') [] /\
  wp posix (ns_exec_map_main argv) (launches (drop 2 argv) (mapped (argv_nth argv 1))) [] /\
  wp posix (ns_child_exec_main argv0 opts args) (fun o h => stops_failing o \/
    o = Stop (Exit EXIT_SUCCESS) /\ only_letters ("v"%char :: map fst ns_letters) opts /\ args <> [] /\ acts h = [] /\
    exists pid st h1 h2 h3, h = h3 ++ Ev (Waitpid pid 0) (Ok st) :: h2 ++ Ev (Clone (Z.lor (ns_flags opts) SIGCHLD)) (Ok pid) :: h1) [] /\
  (forall h, args <> [] -> wp posix (nsChildFunc args) (launches args (fun h' => acts h' = acts h)) h) /\
  wp posix (cred_launcher_main argv0 opts args)
    (launches args (fun h => only_letters ["g"%char; "u"%char; "v"%char] opts /\
                             acts h = new_ids (last_number (-1) "u" opts) (last_number (-1) "g" opts))) [] /\
  wp posix (cap_launcher_main argv) (launches (drop 3 argv) (capable_user (argv_nth argv 1) (argv_nth argv 2))) [] /\
  fst (run demo_fork_fails (unshare_main argv0 [("f"%char, [])] [$"ps"]) []) = Stop (Exit EXIT_SUCCESS).
Proof.
  split_and!; [apply unshare_spec|apply ns_exec_spec|apply ns_run_spec|apply ns_exec_map_spec|apply ns_child_exec_spec
              |intros h; apply nsChildFunc_spec|apply cred_launcher_spec|apply cap_launcher_spec|done].
Qed.

(** ** Examples *)

(** A kernel in which the calls succeed and the process is the child of fork(). *)
Definition demo_launch_kernel : kernel := fun h X c =>
  match c in call X return X with
  | Unshare _ | Setns _ _ | Setresgid _ _ _ | Setresuid _ _ _ => Ok tt
  | Open _ _ _ => Ok 3
  | Write _ d => Ok (Z.of_nat (length d))
  | Geteuid | Getegid => 1000
  | Fork => Ok 0
  | Execvp _ _ => None
  | c => failing_kernel h _ c
  end.

Definition demo_launched (p : prog unit) : outcome unit * list act := let '(o, h) := run demo_launch_kernel p [] in (o, acts h).

Example launchers_demo :
  demo_launched (unshare_main (T := demo_text) ($"unshare") [("p"%char, []); ("f"%char, []); ("U"%char, [])] [$"ps"]) =
    (Stop (Execed ($"ps") [$"ps"]), [Unshared 0x30000000]) /\
  demo_launched (ns_run_main (T := demo_text) ($"ns_run") [("n"%char, $"/a"); ("n"%char, $"/b")] [$"ps"]) =
    (Stop (Execed ($"ps") [$"ps"]), [Joined ($"/a") 0; Joined ($"/b") 0]) /\
  demo_launched (ns_exec_map_main (T := demo_text) [$"nem"; $"/ns"; $"ps"; $"-f"]) =
    (Stop (Execed ($"ps") [$"ps"; $"-f"]),
     [Joined ($"/ns") CLONE_NEWUSER; Wrote ($"/proc/self/uid_map") ($"0 1000 1"); Wrote ($"/proc/self/setgroups") ($"deny");
      Wrote ($"/proc/self/gid_map") ($"0 1000 1")]) /\
  demo_launched (cred_launcher_main (T := demo_text) ($"cl") [("u"%char, $"7"); ("g"%char, $"8")] [$"id"]) =
    (Stop (Execed ($"id") [$"id"]), [Gids 8 8 8; Uids 7 7 7]).
Proof. vm_compute. done. Qed.

Lemma launchers_witness :
  [$"ps"] <> [] /\ wp posix (nsChildFunc (T := demo_text) [$"ps"]) (launches [$"ps"] (fun h => acts h = [])) [].
Proof.
  split; [done|]. destruct (launchers (T := demo_text) [] [] [] [$"ps"]) as (_ & _ & _ & _ & _ & H & _). by apply (H []).
Defined.
