(* ===== verification/FileRaces.v ===== *)
(** * fileio/atomic_append.c and bad_exclusive_open.c: processes that race for a file

    Any number of processes run one of the programs on the same file.  Every call of a
    process is a step, and the steps interleave freely.  [shared] is the contents of the
    file, [None] while it does not exist; the flags and the offset of a descriptor are
    those of the history of its process.  With the programs of SemInit.v, which race for
    the initialization of a semaphore, they make up [race_programs]. *)

From S2P Require Import Prelude Sys LibErrors GetNum FileIO PosixIpc PosixTools SemInit.

Definition SEEK_END : Z := 2.
Definition O_APPEND : Z := 1024.
Definition DQ : ascii := "034"%char.

Section Programs.
Context {T : ErrText}.

(** ** atomic_append.c *)

Fixpoint appendLoop (n : nat) (useLseek : bool) (fd : Z) : prog unit :=
  match n with
  | O => Ret tt
  | S n =>
      (if useLseek then
         o <- sys (Lseek fd 0 SEEK_END) ;;
         match o with Err e => errExit e ($"lseek") | Ok _ => Ret tt end
       else Ret tt) ;;;
      w <- sys (Write fd ($"x")) ;;
      if match w with Ok k => k =? 1 | Err _ => false end then appendLoop n useLseek fd
      else fatal ($"write() failed")
  end.

Definition atomic_append_main (argv : list (list ascii)) : prog unit :=
  if (length argv <? 3)%nat || is_help argv then
    usageErr (argv_nth argv 0 ++ $" file num-bytes [x]" ++ [NL] ++ $"        'x' means use lseek() instead of O_APPEND" ++ [NL])
  else
    let useLseek := (3 <? length argv)%nat in
    let flags := if useLseek then 0 else O_APPEND in
    numBytes <- getInt (Some (argv_nth argv 2)) 0 (Some ($"num-bytes")) ;;
    f <- sys (Open (argv_nth argv 1) (Z.lor (Z.lor O_RDWR O_CREAT) flags) USER_RW) ;;
    match f with
    | Err e => errExit e ($"open")
    | Ok fd =>
        appendLoop (Z.to_nat numBytes) useLseek fd ;;;
        pid <- sys Getpid ;;
        print Stdout (dec pid ++ $" done" ++ [NL]) ;;;
        Halt (Exit EXIT_SUCCESS)
    end.

(** ** bad_exclusive_open.c *)

Definition pidLine (pid : Z) (text : list ascii) : list ascii := $"[PID " ++ dec pid ++ $"] " ++ text ++ [NL].

Definition inQuotes (path : list ascii) : list ascii := DQ :: path ++ [DQ].

Definition bad_exclusive_open_main (argv : list (list ascii)) : prog unit :=
  if (length argv <? 2)%nat || is_help argv then usageErr (argv_nth argv 0 ++ $" file" ++ [NL])
  else
    let path := argv_nth argv 1 in
    f <- sys (Open path O_WRONLY 0) ;;
    match f with
    | Ok fd =>
        pid <- sys Getpid ;;
        print Stdout (pidLine pid ($"File " ++ inQuotes path ++ $" already exists")) ;;;
        sys (Close fd) ;;;
        Halt (Exit EXIT_SUCCESS)
    | Err e =>
        if negb (e =? ENOENT) then errExit e ($"open")
        else
          pid <- sys Getpid ;;
          print Stdout (pidLine pid ($"File " ++ inQuotes path ++ $" doesn't exist yet")) ;;;
          (if (2 <? length argv)%nat then
             sys (Delay 5000000) ;;;
             pid <- sys Getpid ;;
             print Stdout (pidLine pid ($"Done sleeping"))
           else Ret tt) ;;;
          f <- sys (Open path (Z.lor O_WRONLY O_CREAT) USER_RW) ;;
          match f with
          | Err e => errExit e ($"open")
          | Ok _ =>
              pid <- sys Getpid ;;
              print Stdout (pidLine pid ($"Created file " ++ inQuotes path ++ $" exclusively")) ;;;
              Halt (Exit EXIT_SUCCESS)
          end
    end.
End Programs.

(** ** The file and its processes *)

Section Race.
Context (path : list ascii).

(** Flags and offset of a descriptor for the file. *)
Fixpoint descr (fd : Z) (h : history) : option (Z * Z) :=
  match h with
  | [] => None
  | Ev c r :: h =>
      match c in call X return X -> option (Z * Z) with
      | Open p fl _ => fun r =>
          match r with
          | Ok x => if x =? fd then (if bool_decide (p = path) then Some (fl, 0) else None) else descr fd h
          | Err _ => descr fd h
          end
      | Lseek x _ _ => fun r => match r, descr fd h with Ok o, Some (fl, _) => if x =? fd then Some (fl, o) else descr fd h | _, d => d end
      | Write x _ => fun r => match r, descr fd h with Ok n, Some (fl, o) => if x =? fd then Some (fl, o + n) else descr fd h | _, d => d end
      | _ => fun _ => descr fd h
      end r
  end.

(** The file after a call: open() creates it, write() puts its bytes at the end with
    O_APPEND and at the offset of the descriptor otherwise. *)
Definition file_after (h : history) {X} (c : call X) : X -> option (list ascii) -> option (list ascii) :=
  match c in call X return X -> option (list ascii) -> option (list ascii) with
  | Open p _ _ => fun r f => match r with Ok _ => if bool_decide (p = path) then Some (default [] f) else f | Err _ => f end
  | Write fd d => fun r f =>
      match r, descr fd h with
      | Ok n, Some (fl, o) =>
          let data := default [] f in
          Some (put_at data (if flag fl O_APPEND then strlen data else o) (take (Z.to_nat n) d))
      | _, _ => f
      end
  | _ => fun _ f => f
  end.

(** open() without O_CREAT succeeds only if the file exists, and fails with ENOENT only
    if it does not; lseek() with SEEK_END returns the size. *)
Definition file_legal (f : option (list ascii)) (h : history) {X} (c : call X) (r : X) : Prop :=
  posix h X c r /\
  match c in call X return X -> Prop with
  | Open p fl _ => fun r => p = path -> match r with Ok _ => f <> None \/ flag fl O_CREAT = true | Err e => e = ENOENT -> f = None end
  | Lseek fd o whence => fun r =>
      match r with Ok n => descr fd h <> None -> whence = SEEK_END -> n = strlen (default [] f) + o | Err _ => True end
  | _ => fun _ => True
  end r.

Record fworld := FWorld { shared : option (list ascii); fprocs : list (prog unit * history) }.

Inductive fstep (w : fworld) : fworld -> Prop :=
| FStep i X (c : call X) k h r :
    fprocs w !! i = Some (Sys c k, h) -> file_legal (shared w) h c r ->
    fstep w (FWorld (file_after h c r (shared w)) (<[i := (k r, Ev c r :: h)]> (fprocs w))).

Definition fstart (f : option (list ascii)) (l : list (prog unit)) : fworld := FWorld f (map (fun p => (p, [])) l).
End Race.

(** ** What a process that appends does *)

(** The bytes that write() has taken. *)
Fixpoint written (h : history) : Z :=
  match h with
  | [] => 0
  | Ev c r :: h => written h + match c in call X return X -> Z with Write _ _ => fun r => match r with Ok n => n | Err _ => 0 end | _ => fun _ => 0 end r
  end.

(** The reply of the latest call, if that was lseek() to the end of the file. *)
Definition last_seek (fd : Z) (h : history) : option Z :=
  match h with
  | [] => None
  | Ev c r :: _ =>
      match c in call X return X -> option Z with
      | Lseek x o whence => fun r => match r with Ok n => if (x =? fd) && (o =? 0) && (whence =? SEEK_END) then Some n else None | Err _ => None end
      | _ => fun _ => None
      end r
  end.

Section Appending.
Context (path : list ascii).

(** write() is called for the byte x, after a seek to the end or with O_APPEND. *)
Definition appends (useLseek : bool) (h : history) {X} (c : call X) : Prop :=
  match c with
  | Write fd d => d = $"x" /\ exists fl o, descr path fd h = Some (fl, o) /\
                    if useLseek then flag fl O_APPEND = false /\ last_seek fd h = Some o else flag fl O_APPEND = true
  | _ => True
  end.

Fixpoint only_appends (useLseek : bool) (h : history) : Prop :=
  match h with [] => True | Ev c _ :: h => only_appends useLseek h /\ appends useLseek h c end.

Lemma only_appends_app b k h : only_appends b (k ++ h) -> only_appends b h.
Proof. induction k as [|[X c r] k IH]; cbn; [done|]. by intros [? _]; apply IH. Qed.

Lemma only_appends_reporting b k h : Forall reporting k -> only_appends b h -> only_appends b (k ++ h).
Proof.
  intros Hk Hh. induction Hk as [|[X c r] k Hc _ IH]; [done|]. split; [done|]. by destruct c.
Qed.

Lemma written_nonneg_step {X} (c : call X) r h : posix h X c r -> written h <= written (Ev c r :: h).
Proof. intros H. cbn [written]. destruct c; cbn in *; try lia. destruct r; cbn in H; lia. Qed.

(** A program that keeps to it has done so at every point: some completion exists. *)
Lemma wp_reaches {A} (p : prog A) Q h : wp posix p Q h -> exists o k, Q o (k ++ h).
Proof.
  intros Hp. pose proof (wp_conj _ _ _ _ _ Hp (wp_extends posix p h)) as H.
  apply (wp_run posix failing_kernel) in H; [|apply posix_inhabited]. destruct H as [HQ [k Hk]]. rewrite Hk in HQ. by eexists _, k.
Qed.

Context {T : ErrText}.

Definition uses_lseek (argv : list (list ascii)) : bool := (3 <? length argv)%nat.

(** A process that succeeds has written as many bytes as it was asked for. *)
Definition append_post (argv : list (list ascii)) (o : outcome unit) (h : history) : Prop :=
  only_appends (uses_lseek argv) h /\
  (o = Stop (Exit EXIT_SUCCESS) -> exists v, accepted (argv_nth argv 2) 0 v /\ written h = Z.max 0 v).

Lemma append_fails argv h : only_appends (uses_lseek argv) h ->
  forall o k, stops_failing o -> Forall reporting k -> append_post argv o (k ++ h).
Proof. intros Hh o k Ho Hk. split; [by apply only_appends_reporting|]. intros ->. by destruct Ho as [?|[?|?]]. Qed.

Lemma wp_fatal_trace {A} (E : env) msg (Q : outcome A -> history -> Prop) h :
  (forall o k, stops_failing o -> Forall reporting k -> Q o (k ++ h)) -> wp E (fatal msg) Q h.
Proof. apply wp_reporting. Qed.

Lemma wp_appendLoop argv n fd h (Q : outcome unit -> history -> Prop) :
  (forall h o k, only_appends (uses_lseek argv) h -> stops_failing o -> Forall reporting k -> Q o (k ++ h)) ->
  (forall h', only_appends (uses_lseek argv) h' -> written h' = written h + Z.of_nat n -> Q (Done tt) h') ->
  only_appends (uses_lseek argv) h ->
  (exists fl o, descr path fd h = Some (fl, o) /\ flag fl O_APPEND = negb (uses_lseek argv)) ->
  wp posix (appendLoop n (uses_lseek argv) fd) Q h.
Proof.
  intros Hf. revert h. induction n as [|n IH]; intros h HQ Hh (fl & o & Hd & Hfl); [apply HQ; [done|lia]|].
  assert (forall h', only_appends (uses_lseek argv) h' -> written h' = written h -> (exists fl o, descr path fd h' = Some (fl, o) /\
            if uses_lseek argv then flag fl O_APPEND = false /\ last_seek fd h' = Some o else flag fl O_APPEND = true) ->
          wp posix (w <- sys (Write fd ($"x")) ;;
                    if match w with Ok k => k =? 1 | Err _ => false end then appendLoop n (uses_lseek argv) fd else fatal ($"write() failed")) Q h') as Hw.
  { intros h' Hh' Hn (fl' & o' & Hd' & Hx) r Hr. cbn [bind].
    assert (only_appends (uses_lseek argv) (Ev (Write fd ($"x")) r :: h')) as Hg by (split; [done|]; split; [done|]; eauto).
    destruct r as [k|e]; [|by apply wp_fatal_trace; intros; apply Hf].
    destruct (Z.eqb_spec k 1) as [->|_]; [|by apply wp_fatal_trace; intros; apply Hf]. apply IH; [|done|].
    - intros h2 H2 Hn2. apply HQ; [done|]. cbn [written] in Hn2. lia.
    - exists fl', (o' + 1). split; [cbn [descr]; by rewrite Hd', Z.eqb_refl|]. revert Hx. destruct (uses_lseek argv); [by intros [? _]|done]. }
  cbn [appendLoop]. destruct (uses_lseek argv) eqn:Hu; [|apply Hw; [done..|eauto]].
  intros r Hr. cbn [bind]. destruct r as [p|e]; [|apply wp_bind, wp_errExit_trace; intros o' k Ho Hk].
  - apply Hw; [done|cbn [written]; lia|]. exists fl, p. split; [cbn [descr]; by rewrite Hd, Z.eqb_refl|]. split; [done|]. cbn. by rewrite Z.eqb_refl.
  - specialize (Hf (Ev (Lseek fd 0 SEEK_END) (Err e) :: h) o' k ltac:(done) Ho Hk). by destruct Ho as [->|[->| ->]].
Qed.

Lemma wp_atomic_append argv : argv_nth argv 1 = path -> wp posix (atomic_append_main argv) (append_post argv) [].
Proof.
  intros Hp. unfold atomic_append_main. destruct (_ || _); [apply wp_usageErr_trace; by apply append_fails|].
  apply wp_bind, wp_getInt_trace.
  { intros o k Ho Hk. pose proof (append_fails argv [] I (match o with Done _ => Stop Aborted | Stop s => Stop s end) k) as H.
    destruct Ho as [->|[->| ->]]; apply H; unfold stops_failing; auto. }
  intros v Hv _. intros r Hr. cbn [bind]. destruct r as [fd|e]; [|apply wp_errExit_trace; by apply append_fails].
  fold (uses_lseek argv). apply wp_bind, wp_appendLoop; [| |done|].
  - intros h o k Hh Ho Hk. pose proof (append_fails argv h Hh o k Ho Hk) as H. by destruct Ho as [->|[->| ->]].
  - intros h' Hh' Hn pid _ [] _. split; [done|]. intros _. exists v. split; [done|]. cbn in Hn |- *. lia.
  - eexists _, 0. split; [cbn [descr]; by rewrite Z.eqb_refl, bool_decide_true by done|]. by destruct (uses_lseek argv).
Qed.
End Appending.

(** ** The file under all interleavings *)

Section World.
Context {T : ErrText} (path : list ascii) (f0 : option (list ascii)) (argvs : list (list (list ascii))).

Abbreviation size f := (strlen (default [] f)).
Abbreviation appended w := (total (fun p => written (snd p)) (fprocs w)).

(** A process that has just found the end of the file: the file has not shrunk since. *)
Definition seeks_ok (f : option (list ascii)) (h : history) : Prop :=
  forall fd fl o, descr path fd h = Some (fl, o) -> last_seek fd h = Some o -> size f0 <= o <= size f.

Definition proc_inv (f : option (list ascii)) (i : nat) (p : prog unit) (h : history) : Prop :=
  exists argv, argvs !! i = Some argv /\ wp posix p (append_post path argv) h /\ seeks_ok f h.

Record append_inv (w : fworld) : Prop := {
  ai_file : exists k, default [] (shared w) = default [] f0 ++ replicate k "x"%char /\ Z.of_nat k <= appended w /\
              ((forall argv, argv ∈ argvs -> uses_lseek argv = false) -> Z.of_nat k = appended w);
  ai_procs i p h : fprocs w !! i = Some (p, h) -> proc_inv (shared w) i p h;
  ai_count : length (fprocs w) = length argvs
}.

Lemma put_x (d : list ascii) k o :
  strlen d <= o <= strlen d + Z.of_nat k ->
  put_at (d ++ replicate k "x"%char) o ($"x") = d ++ replicate (if o =? strlen d + Z.of_nat k then S k else k) "x"%char.
Proof.
  unfold strlen. intros Ho. set (m := (Z.to_nat o - length d)%nat). change ($"x") with ["x"%char]. unfold put_at.
  rewrite length_app, length_replicate. replace (Z.to_nat o - (length d + k))%nat with 0%nat by lia. cbn [replicate app length].
  replace (Z.to_nat o) with (length d + m)%nat by lia. rewrite take_app_add, <- Nat.add_assoc, drop_app_add, take_replicate, drop_replicate.
  rewrite <- app_assoc. f_equal. change ("x"%char :: replicate (k - (m + 1)) "x"%char) with (replicate (S (k - (m + 1))) "x"%char).
  rewrite <- replicate_add. f_equal. destruct (Z.eqb_spec o (Z.of_nat (length d) + Z.of_nat k)); lia.
Qed.

(** What one call does to the file. *)
Lemma file_after_x f k h X (c : call X) r b :
  default [] f = default [] f0 ++ replicate k "x"%char -> seeks_ok f h -> posix h X c r -> appends path b h c ->
  exists k', default [] (file_after path h c r f) = default [] f0 ++ replicate k' "x"%char /\ (k <= k')%nat /\
    Z.of_nat k' <= Z.of_nat k + (written (Ev c r :: h) - written h) /\
    (b = false -> Z.of_nat k' = Z.of_nat k + (written (Ev c r :: h) - written h)).
Proof.
  intros Hf Hs Hr Hg. destruct c; try (exists k; cbn [file_after written]; split_and!; [done|lia|lia|lia]).
  { exists k. cbn [written file_after]. destruct r; [case_bool_decide|]; split_and!; try done; lia. }
  destruct Hg as (-> & fl & o & Hd & Hx). cbn [file_after written]. destruct r as [n|e]; [|exists k; split_and!; [done|lia..]].
  rewrite Hd, Hf. cbn [default]. change (0 <= n <= 1) in Hr. assert (n = 0 \/ n = 1) as [-> | ->] by lia.
  { exists k. cbn. split_and!; [by destruct f|lia..]. }
  change (take (Z.to_nat 1) ($"x")) with ($"x").
  set (off := if flag fl O_APPEND then _ else o). assert (size f0 <= off <= size f0 + Z.of_nat k /\ (b = false -> off = size f0 + Z.of_nat k)) as [Ho Hb].
  { assert (strlen (default [] f0 ++ replicate k "x"%char) = size f0 + Z.of_nat k) as Hlen by (unfold strlen; rewrite length_app, length_replicate; lia).
    unfold off. destruct b; [destruct Hx as [-> Hl]|rewrite Hx, Hlen; lia]. specialize (Hs fd fl o Hd Hl). rewrite Hf, Hlen in Hs. split; [lia|done]. }
  exists (if off =? size f0 + Z.of_nat k then S k else k). cbn [default]. rewrite put_x by done. split; [done|].
  destruct (Z.eqb_spec off (size f0 + Z.of_nat k)) as [|Hn]; split_and!; try lia. intros Hb'. by specialize (Hb Hb').
Qed.

Lemma seeks_ok_grows f f' h : size f <= size f' -> seeks_ok f h -> seeks_ok f' h.
Proof. intros Hs H fd fl o Hd Hl. specialize (H fd fl o Hd Hl). lia. Qed.

Lemma seeks_ok_step f h X (c : call X) r :
  size f0 <= size f -> file_legal path f h c r -> seeks_ok (file_after path h c r f) (Ev c r :: h).
Proof.
  intros Hf [_ Hl] fd fl o Hd Hs. destruct c; try done. cbn [last_seek] in Hs. cbn [file_after]. destruct r as [n|e]; [|done].
  cbn [descr] in Hd. destruct (Z.eqb_spec fd0 fd) as [->|Hne]; [|done]. destruct (Z.eqb_spec offset 0) as [->|]; [|done].
  destruct (Z.eqb_spec whence SEEK_END) as [->|]; [|done]. cbn in Hs, Hl. destruct (descr path fd h) as [[fl' o']|] eqn:Hdd; [|done].
  simplify_eq. specialize (Hl ltac:(done) eq_refl). lia.
Qed.

Lemma append_inv_start : Forall (fun argv => argv_nth argv 1 = path) argvs -> append_inv (fstart f0 (map atomic_append_main argvs)).
Proof.
  intros Hp. split; cbn [fstart shared fprocs]; [exists 0%nat| |by rewrite !length_map].
  - rewrite app_nil_r. assert (forall l : list (prog unit), total (fun p => written (snd p)) (map (fun p => (p, [])) l) = 0) as H0.
    { intros l. by apply total_map_zero. }
    rewrite H0. split_and!; done.
  - intros i p h Hi. rewrite list_lookup_fmap in Hi. apply fmap_Some in Hi as (q & Hi & [= -> ->]).
    rewrite list_lookup_fmap in Hi. apply fmap_Some in Hi as (argv & Hi & ->). exists argv. split_and!; [done| |done].
    apply wp_atomic_append. by eapply (Forall_lookup_1 _ _ _ _ Hp).
Qed.

Lemma append_inv_step w w' : append_inv w -> fstep path w w' -> append_inv w'.
Proof.
  intros [(k & Hk & Hle & Heq) Hp Hc] [i X c k0 h r Hi [Hr Hl]]. destruct (Hp i _ _ Hi) as (argv & Ha & Hw & Hs).
  cbn [wp] in Hw. specialize (Hw r Hr). destruct (wp_reaches _ _ _ Hw) as (o & kk & [Ho _]).
  apply only_appends_app in Ho. destruct Ho as [_ Hg].
  destruct (file_after_x (shared w) k h X c r (uses_lseek argv) Hk Hs Hr Hg) as (k' & Hk' & Hkk & Hle' & Heq').
  assert (size f0 <= size (shared w) <= size (file_after path h c r (shared w))) as Hsz.
  { unfold strlen. rewrite Hk, Hk', !length_app, !length_replicate. lia. }
  assert (forall x, total (fun p => written (snd p)) (<[i := (k0 r, x)]> (fprocs w)) = appended w - written h + written x) as Ht.
  { intros x. rewrite (total_insert _ _ i (Sys c k0, h)) by done. done. }
  split; cbn [shared fprocs]; [exists k'; rewrite Ht; split_and!; [done|lia|]| |by rewrite length_insert].
  - intros Hall. specialize (Heq Hall). specialize (Heq' (Hall argv ltac:(by eapply list_elem_of_lookup_2))). lia.
  - intros j p h' Hj. destruct (decide (i = j)) as [<-|Hne].
    + rewrite list_lookup_insert_eq in Hj by (by eapply lookup_lt_Some). injection Hj as <- <-.
      exists argv. split_and!; [done..|]. apply seeks_ok_step; [lia|by split].
    + rewrite list_lookup_insert_ne in Hj by done. destruct (Hp j _ _ Hj) as (argv' & ? & ? & ?). exists argv'. split_and!; [done..|].
      eapply seeks_ok_grows; [|done]. lia.
Qed.

Lemma append_inv_reach w :
  Forall (fun argv => argv_nth argv 1 = path) argvs -> rtc (fstep path) (fstart f0 (map atomic_append_main argvs)) w -> append_inv w.
Proof. intros Hp H. apply append_inv_start in Hp. revert Hp. induction H; intros Hp; [done|]. apply IHrtc. by eapply append_inv_step. Qed.

(** The processes that have ended successfully wrote their bytes. *)
Lemma append_done w i s h :
  append_inv w -> fprocs w !! i = Some (Halt s, h) -> s = Exit EXIT_SUCCESS ->
  exists argv v, argvs !! i = Some argv /\ accepted (argv_nth argv 2) 0 v /\ written h = Z.max 0 v.
Proof.
  intros Hw Hi ->. destruct (ai_procs _ Hw i _ _ Hi) as (argv & Ha & [_ Hp] & _). destruct (Hp eq_refl) as (v & ? & ?). by exists argv, v.
Qed.
End World.

(** The sizes add up. *)
Lemma sizes_add (argvs : list (list (list ascii))) (procs : list (prog unit * history)) :
  Forall2 (fun argv ph => exists v, accepted (argv_nth argv 2) 0 v /\ written (snd ph) = Z.max 0 v) argvs procs ->
  exists vs, Forall2 (fun argv v => accepted (argv_nth argv 2) 0 v) argvs vs /\
             total (fun p => written (snd p)) procs = total (Z.max 0) vs.
Proof.
  induction 1 as [|argv ph argvs procs (v & Hv & Hw) _ (vs & Hvs & Ht)]; [by exists []|].
  exists (v :: vs). split; [by constructor|]. cbn [total]. lia.
Qed.

Lemma append_total {T : ErrText} path f0 argvs w :
  append_inv path f0 argvs w -> (forall argv, argv ∈ argvs -> uses_lseek argv = false) ->
  (forall p h, (p, h) ∈ fprocs w -> p = Halt (Exit EXIT_SUCCESS)) ->
  exists vs, Forall2 (fun argv v => accepted (argv_nth argv 2) 0 v) argvs vs /\
    default [] (shared w) = default [] f0 ++ replicate (Z.to_nat (total (Z.max 0) vs)) "x"%char.
Proof.
  intros Hw Hb Hd. destruct (sizes_add argvs (fprocs w)) as (vs & Hvs & Ht).
  - apply Forall2_same_length_lookup. split; [by rewrite (ai_count _ _ _ _ Hw)|]. intros i argv [p h] Ha Hp.
    assert (p = Halt (Exit EXIT_SUCCESS)) as -> by (eapply Hd; by eapply list_elem_of_lookup_2).
    destruct (append_done _ _ _ _ _ _ _ Hw Hp eq_refl) as (argv' & v & Ha' & Hv & Hx). exists v. by simplify_eq.
  - exists vs. split; [done|]. destruct (ai_file _ _ _ _ Hw) as (k & Hk & _ & He). rewrite Hk, <- Ht, <- (He Hb). by rewrite Nat2Z.id.
Qed.

(** ** Exclusive creation *)

Section Exclusive.
Context {T : ErrText} (path : list ascii).

(** open() has reported that the file does not exist. *)
Fixpoint missing (h : history) : Prop :=
  match h with
  | [] => False
  | Ev c r :: h =>
      match c in call X return X -> Prop with
      | Open p _ _ => fun r => match r with Err e => p = path /\ e = ENOENT | Ok _ => False end
      | _ => fun _ => False
      end r \/ missing h
  end.

Definition says (text : list ascii) (h : history) : Prop := exists pid, Ev (Out Stdout (pidLine pid text)) tt ∈ h.

Definition exists_text : list ascii := $"File " ++ inQuotes path ++ $" already exists".
Definition created_text : list ascii := $"Created file " ++ inQuotes path ++ $" exclusively".

Definition excl_post (o : outcome unit) (h : history) : Prop :=
  o = Stop (Exit EXIT_SUCCESS) /\ (says exists_text h \/ missing h /\ says created_text h) \/ stops_failing o.

Lemma wp_exclusive argv : argv_nth argv 1 = path -> wp posix (bad_exclusive_open_main argv) excl_post [].
Proof.
  intros Hp. assert (forall (h : history) o, stops_failing o -> excl_post o h) as Hf by (by right).
  unfold bad_exclusive_open_main. rewrite Hp. destruct (_ || _); [apply wp_usageErr; intros; by apply Hf|]. intros [fd|e] _; cbn [bind].
  { intros pid _ [] _ r _. left. split; [done|]. left. exists pid. right. left. }
  destruct (Z.eqb_spec e ENOENT) as [->|_]; [|apply wp_errExit; intros; by apply Hf]. cbn [negb].
  intros pid _ [] _. cbn [bind]. apply (wp_call _ _ _ (fun o h => o = Done tt /\ missing h)); [|intros [] h [_ Hm]|by intros s h [? _]].
  - destruct (2 <? length argv)%nat; [intros [] _ pid' _ [] _|]; (split; [done|]); cbn; tauto.
  - intros [fd|e] _; [|apply wp_errExit; intros; by apply Hf]. intros pid' _ [] _. left. split; [done|]. right.
    split; [cbn; tauto|]. exists pid'. left.
Qed.

(** If the file existed before, it still does and no process has missed it. *)
Lemma exclusive_existing f0 argvs w :
  f0 <> None -> Forall (fun argv => argv_nth argv 1 = path) argvs ->
  rtc (fstep path) (fstart f0 (map bad_exclusive_open_main argvs)) w ->
  shared w <> None /\ forall i p h, fprocs w !! i = Some (p, h) -> wp posix p excl_post h /\ ~ missing h.
Proof.
  intros Hf Hp Hr. pattern w. eapply rtc_ind_r; [| |exact Hr].
  - split; [done|]. intros i p h Hi. cbn in Hi. rewrite !list_lookup_fmap in Hi.
    destruct (argvs !! i) as [argv|] eqn:Ha; [|done]. cbn in Hi. simplify_eq. split; [|by intros []].
    apply wp_exclusive. by eapply (Forall_lookup_1 _ _ _ _ Hp).
  - intros x y _ Hs [Hx Hall]. destruct Hs as [i X c k h r Hi [Hr' Hl]]. split.
    + cbn [shared]. destruct c; try done; cbn [file_after]; (destruct r; [|done]); [by case_bool_decide|].
      by destruct (descr _ _ _) as [[]|].
    + intros j p h' Hj. cbn [fprocs] in Hj. destruct (decide (i = j)) as [<-|Hne].
      * rewrite list_lookup_insert_eq in Hj by (by eapply lookup_lt_Some). injection Hj as <- <-.
        destruct (Hall _ _ _ Hi) as [Hw Hm]. split; [by apply Hw|]. intros [Hc|?]; [|done].
        destruct c; try done. destruct r; [done|]. destruct Hc as [-> ->]. by specialize (Hl eq_refl eq_refl).
      * rewrite list_lookup_insert_ne in Hj by done. by apply (Hall j).
Qed.
End Exclusive.

(** ** Execution under a schedule *)

Definition fserve (f : option (list ascii)) (h : history) {X} (c : call X) : option X :=
  match c in call X return option X with
  | Open _ fl _ =>
      if bool_decide (3 ∈ open_fds h) then None
      else Some (match f with Some _ => Ok 3 | None => if flag fl O_CREAT then Ok 3 else Err ENOENT end)
  | Lseek _ o _ => Some (Ok (strlen (default [] f) + o))
  | Write _ d => Some (Ok (Z.of_nat (length d)))
  | Close _ => Some (Ok tt)
  | c => Some (failing_kernel h _ c)
  end.

Lemma fserve_legal path f h X (c : call X) r : fserve f h c = Some r -> file_legal path f h c r.
Proof.
  intros H. destruct c; try (injection H as <-; split; [apply posix_inhabited|done]).
  - cbn in H. case_bool_decide as Hin; [done|]. injection H as <-. split.
    + cbn. destruct f; [|destruct (flag flags O_CREAT)]; cbn; split_and?; done || lia.
    + intros _. destruct f; [by left|]. destruct (flag flags O_CREAT) eqn:Hf; [by right|done].
  - injection H as <-. split; [done|done].
  - injection H as <-. split; [cbn; lia|done].
  - injection H as <-. split; [done|]. by intros _ _.
Qed.

Definition fexec (path : list ascii) (i : nat) (w : fworld) : option fworld :=
  match fprocs w !! i with
  | Some (Sys c k, h) =>
      match fserve (shared w) h c with
      | Some r => Some (FWorld (file_after path h c r (shared w)) (<[i := (k r, Ev c r :: h)]> (fprocs w)))
      | None => None
      end
  | _ => None
  end.

Fixpoint fexecs (path : list ascii) (l : list nat) (w : fworld) : fworld :=
  match l with [] => w | i :: l => match fexec path i w with Some w' => fexecs path l w' | None => w end end.

Lemma fexecs_reach path l w : rtc (fstep path) w (fexecs path l w).
Proof.
  revert w. induction l as [|i l IH]; intros w; cbn [fexecs]; [done|]. destruct (fexec path i w) as [w'|] eqn:He; [|done].
  unfold fexec in He. destruct (fprocs w !! i) as [[[a|s|X c k] h]|] eqn:Hi; try done.
  destruct (fserve (shared w) h c) as [r|] eqn:Hr; [|done]. injection He as <-. eapply rtc_l; [|apply IH].
  constructor; [done|by apply fserve_legal].
Qed.

(** Two processes that append one byte each, and two that want to create the file. *)
Definition demo_append (x : list (list ascii)) : list (list ascii) := [$"atomic_append"; $"/f"; $"1"] ++ x.
Definition demo_race (f0 : option (list ascii)) (p : prog unit) (l : list nat) : fworld := fexecs ($"/f") l (fstart f0 [p; p]).

(** Both seek before either writes. *)
Definition lseek_race {T : ErrText} : fworld :=
  demo_race None (atomic_append_main (demo_append [$"x"])) [0; 1; 0; 1; 0; 1; 0; 1; 0; 1]%nat.
Definition append_race {T : ErrText} : fworld :=
  demo_race (Some ($"ab")) (atomic_append_main (demo_append [])) [0; 1; 0; 1; 0; 1; 0; 1]%nat.
(** Both open before either creates. *)
Definition create_race {T : ErrText} : fworld :=
  demo_race None (bad_exclusive_open_main [$"bad_exclusive_open"; $"/f"]) [0; 1; 0; 1; 0; 1; 0; 1; 0; 1; 0; 1]%nat.

(** C23: Races.  svsem_good_init initializes its semaphore without one: for any number of
    processes, in every interleaving, whatever value a new semaphore has and whichever calls
    fail, at most one process initializes the set; no process operates on it before it has
    been set to zero; from then on its value is the sum of the operations of the processes
    that succeeded; no process blocks before its own operation, and it makes at most thirteen
    calls.  In svsem_bad_init two processes can both succeed in adding one and leave the
    value at one.  atomic_append: whatever the interleaving and whichever calls fail, the
    bytes that were in the file stay, and what follows them are at most as many x as were
    written; with O_APPEND, when all processes have succeeded, the file has grown by exactly
    the sum of the numbers that they were asked for.  With lseek() two processes can both
    succeed and have added one byte.  bad_exclusive_open: if the file exists, every process
    that succeeds says so; otherwise two processes can both report that they created it
    exclusively. *)
Theorem race_programs {T : ErrText} :
  (forall args w,
    si_reach good_step (si_init args) w ->
    total creating (procs w) <= 1 /\
    (forall i p, procs w !! i = Some p -> ipc_of p = IOp \/ ipc_of p = IEnd ->
       exists s, sem_set w = Some s /\ 0 < sem_otime s) /\
    (forall s, sem_set w = Some s -> 0 < sem_otime s -> sval s = total added (procs w) /\ 0 <= sval s <= SEMVMX) /\
    (forall i p t v0, procs w !! i = Some p -> ipc_of p <> IEnd -> ipc_of p <> IFail ->
       (ipc_of p <> IOp -> is_Some (good_step t v0 (sem_set w) p)) /\
       (forall ss p', good_step t v0 (sem_set w) p = Some (ss, p') -> (calls_left p' < calls_left p <= 13)%nat)) /\
    si_reach bad_step (si_init [1; 1]) demo_bad /\
    map ipc_of (procs demo_bad) = [IEnd; IEnd] /\ option_map sval (sem_set demo_bad) = Some 1) /\
  (forall path f0 argvs w,
     Forall (fun argv => argv_nth argv 1 = path) argvs ->
     rtc (fstep path) (fstart f0 (map atomic_append_main argvs)) w ->
     (exists k, default [] (shared w) = default [] f0 ++ replicate k "x"%char /\
                Z.of_nat k <= total (fun p => written (snd p)) (fprocs w)) /\
     ((forall argv, argv ∈ argvs -> uses_lseek argv = false) ->
      (forall p h, (p, h) ∈ fprocs w -> p = Halt (Exit EXIT_SUCCESS)) ->
      exists vs, Forall2 (fun argv v => accepted (argv_nth argv 2) 0 v) argvs vs /\
        default [] (shared w) = default [] f0 ++ replicate (Z.to_nat (total (Z.max 0) vs)) "x"%char)) /\
  (rtc (fstep ($"/f")) (fstart None (map atomic_append_main [demo_append [$"x"]; demo_append [$"x"]])) lseek_race /\
   map fst (fprocs lseek_race) = [Halt (Exit EXIT_SUCCESS); Halt (Exit EXIT_SUCCESS)] /\ shared lseek_race = Some ($"x")) /\
  (forall path f0 argvs w i h,
     f0 <> None -> Forall (fun argv => argv_nth argv 1 = path) argvs ->
     rtc (fstep path) (fstart f0 (map bad_exclusive_open_main argvs)) w ->
     fprocs w !! i = Some (Halt (Exit EXIT_SUCCESS), h) -> says (exists_text path) h) /\
  (rtc (fstep ($"/f")) (fstart None (map bad_exclusive_open_main (replicate 2 [$"bad_exclusive_open"; $"/f"]))) create_race /\
   length (fprocs create_race) = 2%nat /\
   forall p h, (p, h) ∈ fprocs create_race -> p = Halt (Exit EXIT_SUCCESS) /\ says (created_text ($"/f")) h).
Proof.
  split_and!; [exact good_init_race_free| |apply fexecs_reach|done|done| |apply fexecs_reach|done|].
  - intros path f0 argvs w Hp Hr. pose proof (append_inv_reach _ _ _ _ Hp Hr) as Hw. split.
    + destruct (ai_file _ _ _ _ Hw) as (k & ? & ? & _). by exists k.
    + by apply (append_total path).
  - intros path f0 argvs w i h Hf Hp Hr Hi. destruct (exclusive_existing _ _ _ _ Hf Hp Hr) as [_ H].
    destruct (H _ _ _ Hi) as [[[_ [Hs|[Hm _]]]|[Hx|[Hx|Hx]]] Hn]; done.
  - intros p h Hin. apply list_elem_of_lookup in Hin as [[|[|i]] Hi]; [| |done];
      (vm_compute in Hi; injection Hi as <- <-; split; [done|]; exists 1; left).
Qed.

Lemma race_programs_witness :
  (map ipc_of (procs demo_good) = [IEnd; IEnd] /\ option_map sval (sem_set demo_good) = Some 8 /\ total added (procs demo_good) = 8) /\
  map fst (fprocs (append_race (T := demo_text))) = [Halt (Exit EXIT_SUCCESS); Halt (Exit EXIT_SUCCESS)] /\
  exists vs, Forall2 (fun argv v => accepted (argv_nth argv 2) 0 v) [demo_append []; demo_append []] vs /\
    default [] (shared (append_race (T := demo_text))) = $"ab" ++ replicate (Z.to_nat (total (Z.max 0) vs)) "x"%char.
Proof.
  destruct (race_programs (T := demo_text)) as (Hg & Ha & _). split; [|split; [vm_compute; reflexivity|]].
  - destruct (Hg [3; 5] demo_good) as (_ & _ & H & _).
    { eapply (si_run_reach _ [0; 1; 1; 1; 0; 0; 1; 1; 0]%nat); [apply si_refl|]. vm_compute. reflexivity. }
    split; [vm_compute; reflexivity|]. split; [vm_compute; reflexivity|].
    destruct (H (Sem 8 1)) as [<- _]; [vm_compute; reflexivity|cbn; lia|reflexivity].
  - destruct (Ha ($"/f") (Some ($"ab")) [demo_append []; demo_append []] (append_race (T := demo_text))) as [_ H].
    + by repeat constructor.
    + apply fexecs_reach.
    + apply H.
      * intros argv Hin. apply elem_of_cons in Hin as [->|Hin]; [done|]. apply elem_of_cons in Hin as [->|Hin]; [done|]. by apply elem_of_nil in Hin.
      * intros p h Hin. apply list_elem_of_lookup in Hin as [[|[|i]] Hi]; [| |done]; (vm_compute in Hi; injection Hi as <- _; done).
Defined.
