(* ===== verification/Copying.v ===== *)
(** * Programs that copy and write files

    fileio/ex.tee.c, fileio/ex.seek_write.c, filebuff/copy.c, filebuff/write_bytes.c,
    mmap/mmcopy.c and mmap/mmcat.c; with sockets/sendfile.c (Sendfile.v) they make up
    [copy_programs].  Memory that malloc() returns has arbitrary contents: a parameter.
    Files that are mapped are identified by their i-node, and what a mapping shows is the
    contents of its file. *)

From S2P Require Import Prelude Sys LibErrors StreamIO GetNum FileIO PosixIpc PosixTools Sendfile.

Definition O_APPEND : Z := 1024.
Definition O_TRUNC : Z := 512.
Definition TEE_BUF_SIZE : Z := 4096.
Definition ERANGE : Z := 34.

Section Programs.
Context {T : ErrText}.

(** ** fileio/ex.tee.c *)

Fixpoint teeLoop (fuel : nat) (fd : Z) : prog unit :=
  match fuel with
  | O => Halt OutOfFuel
  | S fuel =>
      r <- sys (Read STDIN_FILENO TEE_BUF_SIZE) ;;
      match r with
      | Err e => errExit e ($"read")
      | Ok [] => Halt (Exit EXIT_SUCCESS)
      | Ok buf =>
          w <- sys (Write STDOUT_FILENO buf) ;;
          match w with
          | Err e => errExit e ($"write")
          | Ok _ =>
              w <- sys (Write fd buf) ;;
              match w with Err e => errExit e ($"write") | Ok _ => teeLoop fuel fd end
          end
      end
  end.

Definition teeFlags (doAppend : bool) : Z := Z.lor (Z.lor (if doAppend then O_APPEND else O_TRUNC) O_CREAT) O_WRONLY.

Definition tee_main (fuel : nat) (argv0 : list ascii) (opts : list (ascii * list ascii)) (args : list (list ascii)) : prog unit :=
  let doAppend := existsb (fun o => Ascii.eqb (fst o) "a") opts in
  let errFnd := existsb (fun o => negb (Ascii.eqb (fst o) "a")) opts in
  if errFnd || negb (length args =? 1)%nat then usageErr (argv0 ++ $" [-a] <pathname>" ++ [NL])
  else
    f <- sys (Open (nth 0 args []) (teeFlags doAppend) USER_RW) ;;
    match f with Err e => errExit e ($"open") | Ok fd => teeLoop fuel fd end.

(** ** fileio/ex.seek_write.c *)

(** The number need not be one, and lseek() counts from the offset of a file that was just
    opened.  A partial write does not set errno: it is still as strtoll() left it. *)
Definition seek_write_main (argv : list (list ascii)) : prog unit :=
  if negb (length argv =? 4)%nat || is_help argv then usageErr (argv_nth argv 0 ++ $" pathname offset string" ++ [NL])
  else
    let offset := st_val (strtol (argv_nth argv 2) 0) in
    let errno := if st_erange (strtol (argv_nth argv 2) 0) then ERANGE else 0 in
    let string := argv_nth argv 3 in
    f <- sys (Open (argv_nth argv 1) O_RDWR_CREAT USER_RW) ;;
    match f with
    | Err e => errExit e ($"open")
    | Ok fd =>
        o <- sys (Lseek fd offset SEEK_CUR) ;;
        match o with
        | Err e => errExit e ($"lseek")
        | Ok _ =>
            w <- sys (Write fd string) ;;
            match w with
            | Ok n => if n =? strlen string then Halt (Exit EXIT_SUCCESS) else errExit errno ($"write")
            | Err e => errExit e ($"write")
            end
        end
    end.

(** ** filebuff/copy.c: the program of fileio/copy.c *)

Definition filebuff_copy_main (fuel : nat) (argv : list (list ascii)) : prog unit := copy_main fuel argv.

(** ** filebuff/write_bytes.c *)

(** [buf] is the buffer as malloc() left it; every round writes at least one byte. *)
Fixpoint writeBytes (fuel : nat) (fd : Z) (buf : list ascii) (numBytes totWritten : Z) : prog unit :=
  if totWritten <? numBytes then
    match fuel with
    | O => Halt OutOfFuel
    | S fuel =>
        let thisWrite := Z.min (strlen buf) (numBytes - totWritten) in
        w <- sys (Write fd (take (Z.to_nat thisWrite) buf)) ;;
        if match w with Ok n => n =? thisWrite | Err _ => false end
        then writeBytes fuel fd buf numBytes (totWritten + thisWrite)
        else fatal ($"partial/failed write")
    end
  else Ret tt.

Definition write_bytes_main (garbage : Z -> list ascii) (argv : list (list ascii)) : prog unit :=
  if negb (length argv =? 4)%nat || is_help argv then usageErr (argv_nth argv 0 ++ $" file num-bytes buf-size" ++ [NL])
  else
    numBytes <- getLong (Some (argv_nth argv 2)) GN_GT_0 (Some ($"num-bytes")) ;;
    bufSize <- getLong (Some (argv_nth argv 3)) GN_GT_0 (Some ($"buf-size")) ;;
    ok <- sys (Alloc bufSize) ;;
    if negb (ok : bool) then errExit ENOMEM ($"malloc")
    else
      f <- sys (Open (argv_nth argv 1) (Z.lor O_CREAT O_WRONLY) USER_RW) ;;
      match f with
      | Err e => errExit e ($"open")
      | Ok fd =>
          writeBytes (Z.to_nat numBytes) fd (garbage bufSize) numBytes 0 ;;;
          c <- sys (Close fd) ;;
          match c with Err e => errExit e ($"close") | Ok _ => Halt (Exit EXIT_SUCCESS) end
      end.

(** ** mmap/mmcopy.c *)

Definition mmcopy_main (argv : list (list ascii)) : prog unit :=
  if negb (length argv =? 3)%nat then usageErr (argv_nth argv 0 ++ $" source-file dest-file" ++ [NL])
  else
    f <- sys (Open (argv_nth argv 1) O_RDONLY 0) ;;
    match f with
    | Err e => errExit e ($"open")
    | Ok fdSrc =>
        s <- sys (Fstat_size fdSrc) ;;
        match s with
        | Err e => errExit e ($"fstat")
        | Ok st_size =>
            if st_size =? 0 then Halt (Exit EXIT_SUCCESS)
            else
              m <- sys (Mmap_private st_size PROT_READ fdSrc) ;;
              match m with
              | Err e => errExit e ($"mmap")
              | Ok src =>
                  f <- sys (Open (argv_nth argv 2) (Z.lor (Z.lor O_RDWR O_CREAT) O_TRUNC) USER_RW) ;;
                  match f with
                  | Err e => errExit e ($"open")
                  | Ok fdDst =>
                      t <- sys (Ftruncate fdDst st_size) ;;
                      match t with
                      | Err e => errExit e ($"ftruncate")
                      | Ok _ =>
                          m <- sys (Mmap st_size (Z.lor PROT_READ PROT_WRITE) fdDst) ;;
                          match m with
                          | Err e => errExit e ($"mmap")
                          | Ok dst =>
                              bytes <- sys (Load src 0 st_size) ;;
                              sys (Store dst 0 bytes) ;;;
                              y <- sys (Msync dst st_size) ;;
                              match y with Err e => errExit e ($"msync") | Ok _ => Halt (Exit EXIT_SUCCESS) end
                          end
                      end
                  end
              end
        end
    end.

(** ** mmap/mmcat.c *)

Definition mmcat_main (argv : list (list ascii)) : prog unit :=
  if negb (length argv =? 2)%nat || is_help argv then usageErr (argv_nth argv 0 ++ $" file" ++ [NL])
  else
    f <- sys (Open (argv_nth argv 1) O_RDONLY 0) ;;
    match f with
    | Err e => errExit e ($"open")
    | Ok fd =>
        s <- sys (Fstat_size fd) ;;
        match s with
        | Err e => errExit e ($"fstat")
        | Ok st_size =>
            if st_size =? 0 then Halt (Exit EXIT_SUCCESS)
            else
              m <- sys (Mmap_private st_size PROT_READ fd) ;;
              match m with
              | Err e => errExit e ($"mmap")
              | Ok addr =>
                  bytes <- sys (Load addr 0 st_size) ;;
                  w <- sys (Write STDOUT_FILENO bytes) ;;
                  if match w with Ok n => n =? st_size | Err _ => false end then Halt (Exit EXIT_SUCCESS)
                  else fatal ($"partial/failed write")
              end
        end
    end.
End Programs.

(** ** tee *)

(** The standard descriptors are open, so that open() returns another one. *)
Definition std_env : env := fun h X c r =>
  posix h X c r /\
  match c in call X return X -> Prop with Open _ _ _ => fun r => match r with Ok fd => 2 < fd | Err _ => True end | _ => fun _ => True end r.

(** What was read went to [x], but for the bytes that partial writes did not take. *)
Definition passed_on (x : Z) (h : history) : Prop :=
  0 <= lost x h /\ strlen (output x h) + lost x h = strlen (input STDIN_FILENO h) /\
  (lost x h = 0 -> output x h = input STDIN_FILENO h).

Definition tee_post (fuel : nat) (flags : Z) (path : list ascii) (o : outcome unit) (h : history) : Prop :=
  stops_failing o \/
  exists fd, 2 < fd /\ Ev (Open path flags USER_RW) (Ok fd) ∈ h /\ passed_on STDOUT_FILENO h /\ passed_on fd h /\
    (o = Stop (Exit EXIT_SUCCESS) /\ Ev (Read STDIN_FILENO TEE_BUF_SIZE) (Ok []) ∈ h \/
     o = Stop OutOfFuel /\ (fuel <= length (input STDIN_FILENO h))%nat).

(** One round: the bytes [buf] are read, and write() takes [n] of them. *)
Lemma passed_on_round x h h' (buf : list ascii) n :
  passed_on x h -> 0 <= n <= strlen buf -> input STDIN_FILENO h' = input STDIN_FILENO h ++ buf ->
  output x h' = output x h ++ take (Z.to_nat n) buf -> lost x h' = lost x h + (strlen buf - n) -> passed_on x h'.
Proof.
  intros (H0 & H1 & H2) Hn Hi Ho Hl. unfold passed_on. rewrite Hi, Ho, Hl. unfold strlen in *. rewrite !length_app, length_take.
  split_and!; [lia|lia|]. intros He. rewrite H2 by lia. f_equal. apply take_ge. lia.
Qed.

Section Proofs.
Context {T : ErrText}.

Lemma wp_teeLoop fuel fd flags path h k0 :
  2 < fd -> Ev (Open path flags USER_RW) (Ok fd) ∈ h -> passed_on STDOUT_FILENO h -> passed_on fd h ->
  (k0 <= length (input STDIN_FILENO h))%nat ->
  wp std_env (teeLoop fuel fd) (tee_post (k0 + fuel) flags path) h.
Proof.
  intros Hfd. revert h k0. induction fuel as [|fuel IH]; intros h k0 Ho H1 H2 Hk.
  { right. exists fd. split_and!; try done. right. split; [done|lia]. }
  assert (forall (o : outcome unit) h', stops_failing o -> tee_post (k0 + S fuel) flags path o h') as Hf by (by left).
  intros [[|c buf]|e] _; cbn [bind].
  - right. exists fd. split_and!; [done|by right| | |left; split; [done|by left]];
      unfold passed_on in *; cbn; rewrite !app_nil_r, Z.add_0_r; done.
  - set (b := c :: buf). intros [n|e] [Hn _]; [|apply wp_errExit; intros; by apply Hf]. cbn [bind].
    intros [m|e] [Hm _]; [|apply wp_errExit; intros; by apply Hf]. cbn in Hn, Hm. cbn [bind].
    set (h' := Ev (Write fd b) (Ok m) :: _).
    assert (input STDIN_FILENO h' = input STDIN_FILENO h ++ b) as Hi by (cbn; by rewrite !app_nil_r).
    replace (k0 + S fuel)%nat with (S k0 + fuel)%nat by lia. apply IH.
    + do 3 right. done.
    + apply (passed_on_round _ h _ b n); [done|done|done|..]; unfold h'; cbn [output put lost unsent].
      * rewrite (proj2 (Z.eqb_neq fd STDOUT_FILENO)) by (unfold STDOUT_FILENO; lia). by rewrite Z.eqb_refl, !app_nil_r.
      * rewrite (proj2 (Z.eqb_neq fd STDOUT_FILENO)) by (unfold STDOUT_FILENO; lia). rewrite Z.eqb_refl. lia.
    + apply (passed_on_round _ h _ b m); [done|done|done|..]; unfold h'; cbn [output put lost unsent].
      * rewrite (proj2 (Z.eqb_neq STDOUT_FILENO fd)) by (unfold STDOUT_FILENO; lia). by rewrite Z.eqb_refl, !app_nil_r.
      * rewrite (proj2 (Z.eqb_neq STDOUT_FILENO fd)) by (unfold STDOUT_FILENO; lia). rewrite Z.eqb_refl. lia.
    + rewrite Hi, length_app. cbn. lia.
  - apply wp_errExit. intros. by apply Hf.
Qed.

Lemma wp_tee fuel argv0 opts args :
  wp std_env (tee_main fuel argv0 opts args)
    (tee_post fuel (teeFlags (existsb (fun o => Ascii.eqb (fst o) "a") opts)) (nth 0 args [])) [].
Proof.
  unfold tee_main. destruct (_ || _); [apply wp_usageErr; by left|].
  intros [fd|e] [_ Hfd]; [|apply wp_errExit; by left]. apply (wp_teeLoop fuel fd _ _ _ 0); [done|by left|done|done|lia].
Qed.

(** ** seek_write *)

(** The kernel of FileIO.v, in which lseek() with SEEK_CUR adds to the offset. *)
Definition seek_env (fd : Z) (data0 : list ascii) : env := fun h X c r =>
  file_env fd data0 h X c r /\
  match c in call X return X -> Prop with
  | Lseek x o whence => fun r =>
      match r with Ok o' => x = fd -> whence = SEEK_CUR -> o' = offset (FileIO.file_of fd data0 h) + o /\ 0 <= o' | Err _ => True end
  | _ => fun _ => True
  end r.

Definition seek_write_post (fd : Z) (data0 : list ascii) (argv : list (list ascii)) (o : outcome unit) (h : history) : Prop :=
  stops_failing o \/
  o = Stop (Exit EXIT_SUCCESS) /\ 0 <= st_val (strtol (argv_nth argv 2) 0) /\
  contents (FileIO.file_of fd data0 h) = put_at data0 (st_val (strtol (argv_nth argv 2) 0)) (argv_nth argv 3).

Lemma wp_seek_write fd data0 argv : wp (seek_env fd data0) (seek_write_main argv) (seek_write_post fd data0 argv) [].
Proof.
  unfold seek_write_main. destruct (_ || _); [apply wp_usageErr; by left|].
  intros [x|e] [[_ Hx] _]; [|apply wp_errExit; by left]. cbn in Hx. subst x. cbn [bind].
  intros [o|e] [_ Ho]; [|apply wp_errExit; by left]. destruct (Ho eq_refl eq_refl) as [-> Ho']. cbn in Ho'. cbn [bind].
  intros [n|e] _; [|apply wp_errExit; by left]. cbn [bind]. destruct (Z.eqb_spec n (strlen (argv_nth argv 3))) as [->|]; [|apply wp_errExit; by left].
  right. split_and!; [done|lia|]. cbn. rewrite !Z.eqb_refl. unfold strlen. rewrite Nat2Z.id, firstn_all. done.
Qed.

(** ** write_bytes *)

Lemma wp_writeBytes fuel fd buf numBytes tot h (Q : outcome unit -> history -> Prop) :
  0 < strlen buf -> 0 <= tot <= numBytes -> numBytes - tot <= Z.of_nat fuel -> strlen (output fd h) = tot ->
  (forall o h', stops_failing o -> Q o h') ->
  (forall k, strlen (output fd (k ++ h)) = numBytes -> open_fds (k ++ h) = open_fds h -> Q (Done tt) (k ++ h)) ->
  wp posix (writeBytes fuel fd buf numBytes tot) Q h.
Proof.
  intros Hb. revert tot h. induction fuel as [|fuel IH]; intros tot h Ht Hfuel Hh Hf HQ; cbn [writeBytes].
  { destruct (Z.ltb_spec tot numBytes); [lia|]. apply (HQ []); [cbn; lia|done]. }
  destruct (Z.ltb_spec tot numBytes) as [Hlt|]; [|apply (HQ []); [cbn; lia|done]].
  set (n := Z.min (strlen buf) (numBytes - tot)). assert (0 < n <= strlen buf) as Hn by lia.
  intros [m|e] _; [|apply wp_fatal; auto]. cbn [bind]. destruct (Z.eqb_spec m n) as [->|]; [|apply wp_fatal; auto].
  assert (strlen (take (Z.to_nat n) buf) = n) as Hlen by (unfold strlen in *; rewrite length_take; lia).
  apply IH; [lia|lia| |done|].
  - unfold strlen in *. cbn [output put]. rewrite Z.eqb_refl, length_app, take_take, Nat.min_id. lia.
  - intros k H1 H2. specialize (HQ (k ++ [Ev (Write fd (take (Z.to_nat n) buf)) (Ok n)])). rewrite <- app_assoc in HQ. by apply HQ.
Qed.

Lemma wp_getLong_flags (E : env) a flags name (Q : outcome Z -> history -> Prop) h :
  (forall h', Q (Stop (Exit EXIT_FAILURE)) h') -> (forall v, accepted a flags v -> Q (Done v) h) ->
  wp E (getLong (Some a) flags (Some name)) Q h.
Proof.
  intros Hf Hd. unfold getLong. destruct (getNum_cases ($"getLong") (Some a) flags (Some name)) as [(s & v & [= <-] & Ha & ->)|[[msg ->] _]];
    [by apply Hd|by apply wp_gnFail].
Qed.

Definition write_bytes_post (argv : list (list ascii)) (o : outcome unit) (h : history) : Prop :=
  stops_failing o \/
  o = Stop (Exit EXIT_SUCCESS) /\ open_fds h = ∅ /\
  exists fd v, Ev (Open (argv_nth argv 1) (Z.lor O_CREAT O_WRONLY) USER_RW) (Ok fd) ∈ h /\
    accepted (argv_nth argv 2) GN_GT_0 v /\ strlen (output fd h) = v.

Lemma wp_write_bytes garbage argv :
  (forall n, 0 < n -> strlen (garbage n) = n) -> wp posix (write_bytes_main garbage argv) (write_bytes_post argv) [].
Proof.
  intros Hg. assert (forall o h, stops_failing o -> write_bytes_post argv o h) as Hf by (by left).
  assert (forall h, write_bytes_post argv (Stop (Exit EXIT_FAILURE)) h) as Hx by (intros; apply Hf; unfold stops_failing; auto).
  unfold write_bytes_main. destruct (_ || _); [apply wp_usageErr; by left|].
  apply wp_bind, wp_getLong_flags; [done|]. intros v Hv. apply wp_bind, wp_getLong_flags; [done|]. intros b Hb.
  assert (0 < v) as Hv0 by (by destruct Hv as (_ & _ & _ & H); apply H).
  assert (0 < b) as Hb0 by (by destruct Hb as (_ & _ & _ & H); apply H).
  intros [] _; [|apply wp_errExit; by left]. cbn [bind negb]. intros [fd|e] _; [|apply wp_errExit; by left]. cbn [bind].
  apply wp_bind, wp_writeBytes; [by rewrite Hg|lia|lia|done|intros o h Ho; destruct Ho as [->|[->| ->]]; apply Hf; unfold stops_failing; auto|].
  intros k Hk Hop. intros [[]|e] _; [|apply wp_errExit; by left]. right. split_and!; [done| |].
  - cbn in Hop |- *. rewrite Hop. set_solver.
  - exists fd, v. split_and!; [right; apply elem_of_app; right; left|done|]. cbn [output put]. by rewrite app_nil_r.
Qed.
End Proofs.

(** ** Files and mappings *)

Section Mappings.
Context (ino : list ascii -> Z) (disk : Z -> list ascii).

Fixpoint fd_ino (fd : Z) (h : history) : option Z :=
  match h with
  | [] => None
  | Ev c r :: h =>
      match c in call X return X -> option Z with
      | Open p _ _ => fun r => match r with Ok x => if x =? fd then Some (ino p) else fd_ino fd h | Err _ => fd_ino fd h end
      | _ => fun _ => fd_ino fd h
      end r
  end.

(** The file that is mapped at an address, and whether the mapping is shared. *)
Fixpoint map_ino (addr : Z) (h : history) : option (Z * bool) :=
  match h with
  | [] => None
  | Ev c r :: h =>
      match c in call X return X -> option (Z * bool) with
      | Mmap _ _ fd => fun r => match r, fd_ino fd h with Ok x, Some i => if x =? addr then Some (i, true) else map_ino addr h | _, _ => map_ino addr h end
      | Mmap_private _ _ fd => fun r => match r, fd_ino fd h with Ok x, Some i => if x =? addr then Some (i, false) else map_ino addr h | _, _ => map_ino addr h end
      | _ => fun _ => map_ino addr h
      end r
  end.

(** The contents of a file: a file that does not exist has none, O_TRUNC removes them,
    ftruncate() cuts them off or adds null bytes, and a store to a shared mapping changes
    them. *)
Fixpoint data_of (i : Z) (h : history) : list ascii :=
  match h with
  | [] => disk i
  | Ev c r :: h =>
      match c in call X return X -> list ascii with
      | Open p fl _ => fun r => match r with Ok _ => if (ino p =? i) && flag fl O_TRUNC then [] else data_of i h | Err _ => data_of i h end
      | Ftruncate fd n => fun r =>
          match r with Ok _ => if bool_decide (fd_ino fd h = Some i) then resize (Z.to_nat n) NUL (data_of i h) else data_of i h | Err _ => data_of i h end
      | Store addr off d => fun _ => if bool_decide (map_ino addr h = Some (i, true)) then put_at (data_of i h) off d else data_of i h
      | _ => fun _ => data_of i h
      end r
  end.

(** fstat() reports the size of the file; a new mapping is at a new address; a load from
    a mapping reads the file; whether a private mapping shows later changes of the file is
    unspecified (mmap(2)). *)
Definition map_env : env := fun h X c r =>
  posix h X c r /\
  match c in call X return X -> Prop with
  | Fstat_size fd => fun r => match r with Ok n => forall i, fd_ino fd h = Some i -> n = strlen (data_of i h) | Err _ => True end
  | Mmap _ _ _ | Mmap_private _ _ _ => fun r => match r with Ok addr => map_ino addr h = None | Err _ => True end
  | Load addr off n => fun d =>
      forall i b, map_ino addr h = Some (i, b) -> b = true \/ data_of i h = disk i -> 0 <= off -> off + n <= strlen (data_of i h) ->
                  d = take (Z.to_nat n) (drop (Z.to_nat off) (data_of i h))
  | _ => fun _ => True
  end r.

Context {T : ErrText}.

(** The other files are as before. *)
Definition mmcopy_post (src dst : list ascii) (o : outcome unit) (h : history) : Prop :=
  (forall i, i <> ino dst -> data_of i h = disk i) /\
  (stops_failing o \/
   o = Stop (Exit EXIT_SUCCESS) /\ data_of (ino dst) h = if bool_decide (disk (ino src) = []) then disk (ino dst) else disk (ino src)).

Lemma data_of_reporting i k h : Forall reporting k -> data_of i (k ++ h) = data_of i h.
Proof. induction 1 as [|[X c r] k Hc _ IH]; [done|]. by destruct c. Qed.

Lemma put_at_all (a b : list ascii) : length a = length b -> put_at a 0 b = b.
Proof. intros H. destruct b as [|c b]; [by destruct a|]. cbn [put_at]. unfold put_at. cbn. rewrite drop_ge by (cbn in *; lia). by rewrite app_nil_r. Qed.

(** From the point where the destination is open. *)
Lemma wp_mmcopy_tail src dst f u A s :
  ino src <> ino dst -> disk (ino src) <> [] ->
  let n := strlen (disk (ino src)) in
  let h := [Ev (Open dst (Z.lor (Z.lor O_RDWR O_CREAT) O_TRUNC) USER_RW) (Ok u); Ev (Mmap_private n PROT_READ f) (Ok A); Ev (Fstat_size f) s;
            Ev (Open src O_RDONLY 0) (Ok f)] in
  wp map_env (t <- sys (Ftruncate u n) ;;
              match t with
              | Err e => errExit e ($"ftruncate")
              | Ok _ =>
                  m <- sys (Mmap n (Z.lor PROT_READ PROT_WRITE) u) ;;
                  match m with
                  | Err e => errExit e ($"mmap")
                  | Ok dst =>
                      bytes <- sys (Load A 0 n) ;;
                      sys (Store dst 0 bytes) ;;;
                      y <- sys (Msync dst n) ;;
                      match y with Err e => errExit e ($"msync") | Ok _ => Halt (Exit EXIT_SUCCESS) end
                  end
              end) (mmcopy_post src dst) h.
Proof.
  intros Hne Hnil n h. assert (forall i, i <> ino dst -> data_of i h = disk i) as H0.
  { intros i Hi. cbn. rewrite (proj2 (Z.eqb_neq (ino dst) i)) by done. by rewrite andb_false_r. }
  assert (fd_ino u h = Some (ino dst)) as Hui by (cbn; by rewrite Z.eqb_refl).
  assert (map_ino A h = Some (ino src, false)) as HA by (cbn; by rewrite !Z.eqb_refl).
  assert (forall h' (o : outcome unit) k, (forall i, i <> ino dst -> data_of i h' = disk i) -> stops_failing o -> Forall reporting k ->
    mmcopy_post src dst o (k ++ h')) as Hf.
  { intros h' o k Hh Ho Hk. split; [|by left]. intros i Hi. rewrite data_of_reporting by done. by apply Hh. }
  assert (data_of (ino dst) h = []) as Hd by (cbn; by rewrite Z.eqb_refl).
  clearbody h. intros [[]|e] _; [|apply wp_errExit_trace; intros; by apply Hf]. cbn [bind]. set (h1 := Ev _ _ :: h).
  assert (forall i, i <> ino dst -> data_of i h1 = disk i) as H1.
  { intros i Hi. cbn. rewrite Hui, bool_decide_false by congruence. by apply H0. }
  assert (data_of (ino dst) h1 = replicate (length (disk (ino src))) NUL) as Hd1.
  { cbn. rewrite bool_decide_true by done. rewrite Hd. unfold n, strlen. by rewrite Nat2Z.id, resize_nil. }
  intros [B|e] [_ HB]; [|apply wp_errExit_trace; intros; by apply Hf]. cbn in HB. cbn [bind]. set (h2 := Ev (Mmap _ _ _) _ :: h1).
  assert (map_ino B h2 = Some (ino dst, true)) as HB2 by (cbn; by rewrite Hui, Z.eqb_refl).
  assert (map_ino A h2 = Some (ino src, false)) as HA2.
  { cbn. rewrite Hui. destruct (Z.eqb_spec B A) as [->|_]; [congruence|done]. }
  intros bytes [_ Hb]. change (data_of (ino src) h2) with (data_of (ino src) h1) in Hb.
  specialize (Hb _ _ HA2 ltac:(right; by apply H1) ltac:(lia)). change (data_of (ino src) h2) with (data_of (ino src) h1) in Hb. rewrite (H1 _ Hne) in Hb. specialize (Hb ltac:(unfold n; lia)). unfold n, strlen in Hb. rewrite Nat2Z.id, drop_0, firstn_all in Hb. subst bytes.
  cbn [bind]. intros [] _. cbn [bind]. set (h3 := Ev (Store _ _ _) _ :: _).
  assert (forall i, i <> ino dst -> data_of i h3 = disk i) as H3.
  { intros i Hi. unfold h3. cbn [data_of]. change (map_ino B (Ev (Load A 0 n) (disk (ino src)) :: h2)) with (map_ino B h2).
    rewrite HB2, bool_decide_false by congruence. by apply H1. }
  intros [[]|e] _; [|apply wp_errExit_trace; intros; by apply Hf]. split; [done|]. right. split; [done|].
  rewrite bool_decide_false by done. unfold h3. cbn [data_of]. change (map_ino B (Ev (Load A 0 n) (disk (ino src)) :: h2)) with (map_ino B h2).
  rewrite HB2, bool_decide_true by done. change (data_of (ino dst) h2) with (data_of (ino dst) h1). rewrite Hd1. apply put_at_all. by rewrite length_replicate.
Qed.

Lemma wp_mmcopy argv : ino (argv_nth argv 1) <> ino (argv_nth argv 2) ->
  wp map_env (mmcopy_main argv) (mmcopy_post (argv_nth argv 1) (argv_nth argv 2)) [].
Proof.
  intros Hne. set (src := argv_nth argv 1) in *. set (dst := argv_nth argv 2) in *.
  assert (forall h (o : outcome unit) k, (forall i, i <> ino dst -> data_of i h = disk i) -> stops_failing o -> Forall reporting k ->
    mmcopy_post src dst o (k ++ h)) as Hf.
  { intros h o k Hh Ho Hk. split; [|by left]. intros i Hi. rewrite data_of_reporting by done. by apply Hh. }
  unfold mmcopy_main. destruct (negb _); [apply wp_usageErr_trace; intros; by apply Hf|].
  intros [f|e] _; [|apply wp_errExit_trace; intros; by apply Hf]. cbn [bind].
  assert (forall i, data_of i [Ev (Open src O_RDONLY 0) (Ok f)] = disk i) as H0 by (intros i; cbn; by rewrite andb_false_r).
  intros [n|e] [_ Hn]; [|apply wp_errExit_trace; intros; apply Hf; [|done..]; intros; apply H0]. cbn [bind].
  specialize (Hn (ino src) ltac:(cbn; by rewrite Z.eqb_refl)). rewrite H0 in Hn. subst n.
  destruct (Z.eqb_spec (strlen (disk (ino src))) 0) as [He|He].
  { split; [intros i _; apply H0|]. right. split; [done|]. rewrite bool_decide_true; [apply H0|]. unfold strlen in He. by destruct (disk (ino src)). }
  intros [A|e] [_ HA]; [|apply wp_errExit_trace; intros; apply Hf; [|done..]; intros; cbn [data_of]; apply H0]. cbn [bind].
  intros [u|e] _; [|apply wp_errExit_trace; intros; apply Hf; [|done..]; intros; cbn [data_of]; apply H0].
  apply (wp_mmcopy_tail src dst f u A); [done|]. intros Hn. by rewrite Hn in He.
Qed.

Definition mmcat_post (file : list ascii) (o : outcome unit) (h : history) : Prop :=
  stops_failing o \/ o = Stop (Exit EXIT_SUCCESS) /\ output STDOUT_FILENO h = disk (ino file).

Lemma wp_mmcat argv : wp map_env (mmcat_main argv) (mmcat_post (argv_nth argv 1)) [].
Proof.
  unfold mmcat_main. set (file := argv_nth argv 1). destruct (_ || _); [apply wp_usageErr; by left|].
  intros [f|e] _; [|apply wp_errExit; by left]. cbn [bind]. intros [n|e] [_ Hn]; [|apply wp_errExit; by left]. cbn [bind].
  specialize (Hn (ino file) ltac:(cbn; by rewrite Z.eqb_refl)). cbn in Hn. rewrite andb_false_r in Hn. subst n.
  destruct (Z.eqb_spec (strlen (disk (ino file))) 0) as [He|He].
  { right. split; [done|]. unfold strlen in He. by destruct (disk (ino file)). }
  intros [A|e] _; [|apply wp_errExit; by left]. cbn [bind]. intros bytes [_ Hb].
  specialize (Hb (ino file) false ltac:(cbn; by rewrite !Z.eqb_refl) ltac:(right; cbn; by rewrite andb_false_r) ltac:(lia)).
  cbn in Hb. rewrite andb_false_r in Hb. specialize (Hb ltac:(lia)). unfold strlen in Hb. rewrite Nat2Z.id, drop_0, firstn_all in Hb. subst bytes.
  cbn [bind]. intros [m|e] _; [|apply wp_fatal; by left]. cbn [bind]. destruct (Z.eqb_spec m (strlen (disk (ino file)))) as [->|]; [|apply wp_fatal; by left].
  right. split; [done|]. cbn. unfold strlen. by rewrite Nat2Z.id, firstn_all.
Qed.
End Mappings.

(** ** Execution *)

Definition demo_map_kernel (ino : list ascii -> Z) (disk : Z -> list ascii) : kernel := fun h X c =>
  match c in call X return X with
  | Open _ _ _ => if bool_decide (3 ∈ open_fds h) then (if bool_decide (4 ∈ open_fds h) then Err EIO else Ok 4) else Ok 3
  | Fstat_size fd => match fd_ino ino fd h with Some i => Ok (strlen (data_of ino disk i h)) | None => Err EIO end
  | Mmap _ _ _ | Mmap_private _ _ _ =>
      match map_ino ino 100 h, map_ino ino 200 h with None, _ => Ok 100 | _, None => Ok 200 | _, _ => Err EIO end
  | Load addr off n =>
      match map_ino ino addr h with
      | Some (i, _) => resize (Z.to_nat n) NUL (drop (Z.to_nat off) (data_of ino disk i h))
      | None => replicate (Z.to_nat n) NUL
      end
  | Ftruncate _ _ | Msync _ _ => Ok tt
  | Write _ d => Ok (Z.of_nat (length d))
  | c => failing_kernel h _ c
  end.

Lemma demo_map_kernel_ok ino disk h X (c : call X) : map_env ino disk h X c (demo_map_kernel ino disk h X c).
Proof.
  destruct c; try (split; [apply posix_inhabited|done]); cbn [demo_map_kernel].
  - split; [|done]. case_bool_decide as H3; [case_bool_decide as H4|]; cbn; done || (split; [lia|done]).
  - split; [cbn; lia|done].
  - by split.
  - split; cbn; destruct (map_ino ino 100 h) eqn:H1; [destruct (map_ino ino 200 h) eqn:H2| |destruct (map_ino ino 200 h) eqn:H2|]; done.
  - split; cbn.
    + destruct (map_ino ino addr h) as [[]|]; rewrite ?length_resize, ?length_replicate; lia.
    + intros i b Hm _ Ho Hle. rewrite Hm. unfold strlen in Hle. rewrite resize_le; [done|]. rewrite length_drop. lia.
  - split; cbn; destruct (fd_ino ino fd h) as [i|]; cbn; unfold strlen; try done; [lia|]. by intros ? [= ->].
  - split; cbn; destruct (map_ino ino 100 h) eqn:H1; [destruct (map_ino ino 200 h) eqn:H2| |destruct (map_ino ino 200 h) eqn:H2|]; done.
  - by split.
Qed.

(** The first character of a pathname stands for its file; [a] has contents, [e] is empty. *)
Definition demo_ino (path : list ascii) : Z := match path with c :: _ => ord c | [] => 0 end.
Definition demo_disk (i : Z) : list ascii := if i =? ord "a" then $"new" else if i =? ord "b" then $"previous" else [].

Definition demo_mmcopy (src : list ascii) : outcome unit * list ascii :=
  let '(o, h) := run (demo_map_kernel demo_ino demo_disk) (mmcopy_main (T := demo_text) [$"mmcopy"; src; $"b"]) [] in
  (o, data_of demo_ino demo_disk (ord "b") h).

(** An empty source leaves the old contents of the destination. *)
Example mmcopy_demo :
  demo_mmcopy ($"a") = (Stop (Exit EXIT_SUCCESS), $"new") /\ demo_mmcopy ($"e") = (Stop (Exit EXIT_SUCCESS), $"previous").
Proof. vm_compute. done. Qed.

(** tee goes on after a partial write to the file: of "ab" the file gets "a" only. *)
Definition demo_tee_kernel : kernel := fun h X c =>
  match c in call X return X with
  | Open _ _ _ => Ok 3
  | Read _ _ => match input STDIN_FILENO h with [] => Ok ($"ab") | _ => Ok [] end
  | Write fd d => if fd =? 3 then Ok 1 else Ok (Z.of_nat (length d))
  | c => failing_kernel h _ c
  end.

(** C20: Programs that copy.  sendfile() copies what it reads, but loses what a partial write
    leaves over: if it does not return -1 it has written as many bytes as it returns, which
    are all that were asked for unless the end of the file was reached; they are the part of
    the file from the offset on if no write was partial; the bytes that partial writes left
    over are skipped; if an offset is given, that of the file is as before; and the function
    always returns or reports that write() took nothing.  tee passes all of its input on to
    stdout and to the file, but for the bytes that partial writes did not take, and succeeds
    only at the end of the input: where the file takes one byte of two, it succeeds without
    the other.  filebuff/copy.c copies the whole input or fails, as
    fileio/copy.c does.  seek_write succeeds only if its string is in the file at the
    offset, and every other byte is as it was.  write_bytes writes exactly as many bytes as
    it was asked for, whatever the size of its buffer, and leaves no descriptor open.
    mmcopy, for two different files, changes no file but the destination, and if it succeeds
    the destination has the contents of the source, unless the source is empty, in which
    case it is as before.  mmcat writes exactly the contents of its file to stdout.  Every
    other outcome is a failure status. *)
Theorem copy_programs {T : ErrText} fuel argv0 opts args argv :
  (forall in_fd out_fd data0 off count h,
    in_fd <> out_fd -> 0 <= count -> 0 <= offset (FileIO.file_of in_fd data0 h) ->
    wp (send_env in_fd data0) (sendfile out_fd in_fd off count) (sendfile_post in_fd out_fd data0 off count h) h /\
    exists K, (forall h X (c : call X), send_env 3 ($"abcd") h X c (K h X c)) /\
      let '(o, h') := run K (sendfile 4 3 None 2) [] in o = Done (2, None) /\ output 4 h' = $"ac" /\ lost 4 h' = 1) /\
  wp std_env (tee_main fuel argv0 opts args)
    (tee_post fuel (teeFlags (existsb (fun o => Ascii.eqb (fst o) "a") opts)) (nth 0 args [])) [] /\
  wp posix (filebuff_copy_main fuel argv) (copy_post fuel argv) [] /\
  (forall fd data0, wp (seek_env fd data0) (seek_write_main argv) (seek_write_post fd data0 argv) []) /\
  (forall garbage, (forall n, 0 < n -> strlen (garbage n) = n) ->
     wp posix (write_bytes_main garbage argv) (write_bytes_post argv) []) /\
  (forall ino disk,
     (ino (argv_nth argv 1) <> ino (argv_nth argv 2) ->
      wp (map_env ino disk) (mmcopy_main argv) (mmcopy_post ino disk (argv_nth argv 1) (argv_nth argv 2)) []) /\
     wp (map_env ino disk) (mmcat_main argv) (mmcat_post ino disk (argv_nth argv 1)) []) /\
  (let '(o, h) := run demo_tee_kernel (tee_main 3 argv0 [] [$"/f"]) [] in
   o = Stop (Exit EXIT_SUCCESS) /\ output STDOUT_FILENO h = $"ab" /\ output 3 h = $"a" /\ lost 3 h = 1).
Proof.
  split_and!; [intros; by apply sendfile_transfers|apply wp_tee|apply copy_faithful|intros; apply wp_seek_write|intros; by apply wp_write_bytes| |].
  - intros ino disk. split; [apply wp_mmcopy|apply wp_mmcat].
  - vm_compute. done.
Qed.

Lemma copy_programs_witness :
  (3 <> 4 /\ let '(o, h') := run (slow_kernel 3 ($"abcd")) (sendfile (T := demo_text) 4 3 (Some 1) 1) [] in
   o = Done (1, Some 2) /\ output 4 h' = $"b" /\ sendfile_post 3 4 ($"abcd") (Some 1) 1 [] o h') /\
  (demo_ino ($"a") <> demo_ino ($"b") /\
   let '(o, h') := run (demo_map_kernel demo_ino demo_disk) (mmcopy_main (T := demo_text) [$"mmcopy"; $"a"; $"b"]) [] in
   mmcopy_post demo_ino demo_disk ($"a") ($"b") o h') /\
  wp posix (write_bytes_main (T := demo_text) (fun n => replicate (Z.to_nat n) NUL) [$"write_bytes"; $"/f"; $"10"; $"4"])
    (write_bytes_post [$"write_bytes"; $"/f"; $"10"; $"4"]) [].
Proof.
  assert (3 <> 4) as Hne by discriminate. assert (demo_ino ($"a") <> demo_ino ($"b")) as Hino by (vm_compute; discriminate).
  split_and!; [exact Hne| |exact Hino| |].
  - pose proof (wp_run _ (slow_kernel 3 ($"abcd")) _ _ [] (slow_kernel_ok 3 ($"abcd"))
      (proj1 (proj1 (copy_programs (T := demo_text) 0 [] [] [] []) 3 4 ($"abcd") (Some 1) 1 [] Hne ltac:(lia) ltac:(cbn; lia)))) as H.
    destruct (run (slow_kernel 3 ($"abcd")) _ []) as [o h'] eqn:Hrun. vm_compute in Hrun. injection Hrun as <- <-. split; [reflexivity|]. split; [reflexivity|]. exact H.
  - destruct (copy_programs (T := demo_text) 0 [] [] [] [$"mmcopy"; $"a"; $"b"]) as (_ & _ & _ & _ & _ & H & _).
    pose proof (wp_run _ (demo_map_kernel demo_ino demo_disk) _ _ [] (demo_map_kernel_ok demo_ino demo_disk) (proj1 (H demo_ino demo_disk) Hino)) as Hr.
    destruct (run (demo_map_kernel demo_ino demo_disk) _ []) as [o h']. exact Hr.
  - destruct (copy_programs (T := demo_text) 0 [] [] [] [$"write_bytes"; $"/f"; $"10"; $"4"]) as (_ & _ & _ & _ & H & _). apply H.
    intros n Hn. unfold strlen. rewrite length_replicate. lia.
Defined.
